(* ===== verification/_CoqProject ===== *)
-Q . S2P
Prelude.v
Bytes.v
F64.v
Crc32c.v
Chains.v
EntryIndex.v
Graph.v
Names.v
Wf.v
AttrChains.v
Intern.v
Write.v
WriteWf.v
Upsert.v
Facts.v
FactsWrite.v
Refine.v
Sources.v
SourcesThm.v
Sample.v
Alias.v
AliasClaims.v
Query.v
QueryThm.v
Compact.v
CompactInstall.v
QueryClaims.v
Describe.v
Stats.v
Traverse.v
Bfs.v
Explore.v
Unreached.v
Activate.v
ActivateClaims.v
Paths.v
PathsThm.v
PathsClaims.v
Image.v
ImageIndex.v
Restore.v
ImageChains.v
ImageAttr.v
RestoreThm.v
ImageLoad.v
RestoreClaims.v
CompactClaims.v
Resolve.v
EntryScore.v
TwinsThm.v
ResolveClaims.v
AliasDead.v
Communities.v
CommunityReport.v
CommunityThm.v
CommunityLevels.v
CommunityClaims.v
RetrievalCache.v
Breaker.v
Wal.v
WalThm.v
WalClaims.v
WalReplay.v
Changes.v
Agree.v
DurableThm.v
Entry.v
EntryWrite.v
EntryFlush.v
EntryClaims.v
Paragraph.v
Passages.v
PassageThm.v
PassageClaims.v
Groups.v
GroupsThm.v
GroupStore.v
GroupClaims.v
Schema.v
SchemaClaims.v
