(* ===== verification/Prelude.v ===== *)
(** * Taguru: a verification library

    Taguru is a memory server for language models: named contexts, each an
    association graph of weighted, attributed triples, kept in memory, logged,
    imaged to disk, read by cue, by position, by wording and by walking, and
    grouped into bundles that retrieval addresses as one; beside each graph lies the
    store of the passages it was read from.  This library is a shallow embedding of the core of the crate under [src/]: the graph and all its
    operations, the files that make it durable, the entry that moves a context
    between memory and disk, the passage store, and the components around it whose
    correctness is their own (the change feed, the retrieval cache, the circuit
    breaker, community detection, groups, schemas).  The definitions are executable and keep the names of the
    code; paths below are relative to the crate root [src/src/].

    ** How the embedding reads

    - Numbers are [N] at the code's width: ids and offsets are [u32] bounded by
      [U32_MAX] with [NIL] the null link, counters [u64].  Where a sum can pass
      its width the wrapping, the saturation or the refusal is written out, as a
      release build does it ([u64_add], [checked_add], [accumulate_saturating]).
      Weights are the kernel's binary64 floats (F64), compared by [total_cmp].
      Strings are UTF-8 bytes (Bytes); a [BTreeMap] is a [gmap] iterated in name
      order, a [HashMap] a [gmap] whose order the theorems quantify over or do not
      depend on.
    - A function that can panic returns an [option], [None] being the panic: an
      index out of range, an [unwrap], an exhausted id space.  A Rust [Result] is
      [result].  A [&mut self] method returns the new state on every path, so that
      an error changes nothing only where a theorem says so.
    - Outside effects are arguments: the outcome of every disk call ([AtomicIo],
      [CommitIo] and the [Io] records of Wal and Entry), the clock of the breaker,
      a deadline as the schedule of its answers, poll by poll.
    - A method that holds its lock throughout is one step.  The flush, which drops
      the entry's lock between staging and publishing, is two.

    ** The files

    Shared ground.  Prelude: widths, results, fallible list access, generic
    lemmas, hints.  Bytes: UTF-8, little-endian integers, name order, FNV-1a.  F64: the
    order and the sums of weights.  Crc32c ([crc32c.rs]): the checksum, equal to
    the bitwise definition, and the bursts it detects.

    The graph ([context.rs] and [context/]).
    - State.  Graph is the record [Context]: nine flat buffers, derived maps and
      counters.  Chains is the theory of the singly linked lists threaded
      through them, Names that of one namespace, EntryIndex
      ([entry_index.rs]) the bigram index of spellings.  Wf is the invariant
      [wf], which every operation keeps: buffers, chains, maps, indexes and
      counters agree and fit their widths.  AttrChains has the one
      update lemma behind every change of an attribution chain.
    - Specification.  Facts reads a context as the list of its facts and states
      each operation on that list.
    - Writes ([write.rs], [sources.rs], [alias.rs]).  Write, Intern, WriteWf,
      Upsert, FactsWrite, Refine: [upsert] keeps the invariant, refuses without a
      change, and refines [assert_fact].  Sources, SourcesThm, Sample: the two
      retractions.  Alias, AliasDead, AliasClaims: both namespaces
      through the class [AliasSpace], the pre-flight check against the writes it
      predicts, and the pages.  Compact, CompactInstall,
      CompactClaims: a compaction keeps exactly the live facts and never runs out
      of room.
    - Reads ([query.rs], [window.rs], [stats.rs]).  Query has the walks over a
      lens ([EdgeLens]); QueryThm proves them against any lens that views the
      facts ([LensView]), so that the plain and the windowed reads share one
      proof; QueryClaims, Describe and Stats give the answers, and that a query reads
      the chains of its narrowest position and no others.
    - Walks ([traverse.rs]).  Traverse, with Bfs and Explore for the breadth-first
      search, Unreached for the audit, Activate and ActivateClaims for spreading
      activation (each score the activation of an endpoint, carried from an origin, and
      none missed or below what an endpoint gives), Paths, PathsThm and PathsClaims for simple paths under a budget.
    - Wording ([resolve.rs]).  Resolve, EntryScore, TwinsThm and ResolveClaims:
      the index answers what scoring every spelling on its own would.
    - Communities ([community.rs], [hash.rs]).  Communities and CommunityReport
      are the detection, CommunityThm, CommunityLevels and CommunityClaims its
      hierarchy of connected classes.

    Durability.
    - The image ([context/image.rs]).  Image, ImageIndex and Restore are the codec,
      the validation and [from_bytes]; ImageChains, ImageAttr,
      ImageLoad, RestoreThm and RestoreClaims prove the round trip, that exactly
      the well-formed images are accepted, and that short damage is refused.
    - The log ([wal.rs], [registry/wal_replay.rs]).  Wal, WalThm and WalClaims: appends, torn
      tails, healing, and what a log covers, for any vocabulary of operations.  WalReplay and DurableThm: replaying what was applied
      rebuilds it, up to [agree] (Agree), the equivalence of contexts that differ
      only in what a load rebuilds in its own order.
    - The entry ([registry/engine.rs], [registry/meta_io.rs], [storage.rs]).  Entry is the slot with
      its image, log and sidecar; EntryWrite, EntryFlush and
      EntryClaims prove that no acknowledged write is lost over any interleaving
      of loads, writes, flushes, evictions, compactions, restarts and power cuts.  The
      state of the proof carries, beside the entry and the flush in flight, the
      context a restart goes back to while a compaction has not landed.

    Passages ([paragraph.rs], [passages.rs]).  Paragraph is the splitter, with the
    grammar of lines it parses by; Passages the records, the snapshot codec and the
    store over its snapshot, log and legacy file; PassageThm proves the codec's round
    trip, PassageClaims that a record answers what was submitted and that the store
    loses no acknowledged passage.

    Around it.  Changes ([registry/changes.rs]), RetrievalCache
    ([registry/retrieval_cache.rs]) and Breaker ([breaker.rs]) are each definitions,
    invariant and claim; the breaker's traffic carries the failures recorded since
    the last success, the history its state is measured by.  Groups ([groups.rs], the reconciliation of
    [registry/boot.rs]) and GroupStore ([registry/group_ops.rs]) are the nesting
    validator and the writes; GroupsThm and GroupClaims prove the validator exact,
    the boot's repair sound, and that every write keeps the collection live.
    Schema ([schema.rs], [schema/check.rs]) is the schema document, its installation
    and the check of a write; SchemaClaims proves the hierarchy closed exactly and
    the check right about the graph the whole write is going to leave, its retraction,
    operations and declared aliases applied.

    The components meet at a few interfaces: the walks of Traverse and the reads of Query know a
    context through a lens; the entry drives the graph through [apply_op], the
    log's one interpreter, whose theorems (total, invariant kept, refusals change
    nothing, agreement kept) are all EntryClaims uses of the graph; the image is
    known to the entry by its round trip alone; the log is proved for any
    operation type with the serializer's laws, and the entry and the passage store
    are its two clients.

    ** Fuel

    - Structural recursion could not carry a chain walk, a search loop or a stack
      loop, so those take fuel.  Chain walks get the length of the table, which a chain
      without repetition cannot outrun ([wf] bars repetition, and a load that
      claims a row twice refuses).  Searches get one round per concept, activation
      [activate_fuel] (the origins and what each concept's edges can push), the path walk
      [walk_fuel] (two steps per unit of its budget), the nesting validator and the
      type hierarchy their caps, the group closure one step per name, the landing order one per record.
      In each case a theorem says the code returns; none is conditional on it.
    - The one exception is the moving passes of a Louvain level, which repeat
      until nothing moves: rounding does not promise that, so the theorem says the
      detection returns unless the fuel runs out with the deadline still open.

    ** What is assumed

    - Third-party code is a class of parameters.  [UnicodeTables]: lower case and
      compatibility normalization, with no law.  [WalJson] and [WalJsonLaws]: the
      entry points of the JSON library the log uses; a written record parses back
      to its reread operation (a weight may come back an ulp away), a proper prefix
      of a line does not parse.  Sample instantiates the
      first with ASCII tables, WalThm and EntryClaims the second.
    - [op_ok] bounds an operation of the log by the widths the id space, the arena and
      the counters have left; without it a counter wraps and an id space refuses or panics.
      Claims about a context ask for [wf], which creation, every operation and
      every load establish; some ask for [entry_room], the ceiling of the entry
      index.
    - Of the legacy passages file the JSON parser is a parameter with no law.
    - The claim on the passage store leaves out what the code gives up itself: an append
      that failed and whose rollback failed too, and a legacy file that could not be
      read; PassageClaims runs both and loses passages.  It asks that an operation
      reads back as it was written and fits the widths of the snapshot.
    - The claim on durability leaves out what the code gives up itself: a truncation
      of the log that took effect and reported failure, an unread log length, and a
      recovery flush that finds another in flight or does not land.  EntryClaims runs
      the first and loses a write.  A compaction may find a flush in flight and its
      own may fail; until an image of it lands, a restart goes back to the context
      it replaced with the writes since replayed, and loses the compaction only.
    - The claim on the schema check asks that the reserved label is not an alias of
      another, and that the labels of the operations settle: followed through the
      aliases the batch declares, then the live ones, each comes within four hops to
      a name the batch does not redirect and the graph holds for its own.  Every
      label does when the batch declares no label alias.  An example for each shows
      what the code does without it.
    - The breaker reads the clock once per call.

    ** What is not modelled

    - Third-party services and their glue: embedding and chat providers, HTTP and
      MCP surfaces, authentication, the sharding router, replication to an object
      store, tree-sitter code maps, command lines, metrics, benchmarks.  They
      parse, forward and render; what they rely on is not in the repository.
    - Of the entry: the lexical and vector sidecars of its passages, deletion and
      rename, and the budget sweep that chooses what to evict.  Of the boot:
      the directory scan and the renames it resumes.  Files are known by the name
      they stand for.
    - Gloss, consolidation, passage search and the evidence
      pipeline: derived answers over the modelled state, in scope for the method
      and left for later.
    - The wording of messages, log lines and the heap estimates. *)

From stdpp Require Export base tactics numbers list option gmap sorting.
From stdpp Require Import strings.
From Stdlib Require Import NArith ZArith Lia.

(** ** Machine widths *)

Definition U32_MAX : N := 4294967295.
Definition U64_MAX : N := 18446744073709551615.
Definition USIZE_MAX : N := U64_MAX.

(** Wrapping addition on [u64], what `+` compiles to in a release build. *)
Definition u64_add (a b : N) : N := ((a + b) mod (U64_MAX + 1))%N.

Lemma u64_add_small a b : (a + b <= U64_MAX)%N -> u64_add a b = (a + b)%N.
Proof. intros. unfold u64_add. apply N.mod_small. unfold U64_MAX in *. lia. Qed.

(** [u64::saturating_sub]: subtraction on [N] is already truncated at zero. *)
Definition u64_saturating_sub (a b : N) : N := (a - b)%N.

(** [checked_add] at a given width. *)
Definition checked_add (max a b : N) : option N :=
  if (a + b <=? max)%N then Some (a + b)%N else None.

(** ** Results, and panics as [None]

    A function that can panic returns an [option]: [None] is the panic.  A
    function that returns a Rust [Result] returns a [result]; one that can do
    both nests the two.  Stateful methods ([&mut self]) take the state and
    return the new one, also on their error paths, so that "an error leaves the
    state unchanged" is a theorem and not a convention. *)
Inductive result (A E : Type) : Type :=
  | Ok (a : A)
  | Err (e : E).
Arguments Ok {A E} a.
Arguments Err {A E} e.

(** The [?] operator. *)
Definition rbind {A B E} (m : result A E) (k : A -> result B E) : result B E :=
  match m with Ok a => k a | Err e => Err e end.

Notation "x ←? y ; z" := (rbind y (fun x => z))
  (at level 20, y at level 100, z at level 200, only parsing) : stdpp_scope.
Notation "' x ←? y ; z" := (rbind y (fun x => z))
  (at level 20, x pattern, y at level 100, z at level 200, only parsing) : stdpp_scope.

Definition is_ok {A E} (r : result A E) : bool :=
  match r with Ok _ => true | Err _ => false end.

Lemma is_ok_true {A E} (r : result A E) : is_ok r = true <-> exists a, r = Ok a.
Proof. destruct r; simpl; split; [eauto | done | done | intros [? ?]; done]. Qed.

(** Whether a computation returned, as a [bool] an evaluation can check. *)
Definition succeeds {A} (o : option A) : bool := match o with Some _ => true | None => false end.

Lemma succeeds_default {A} (o : option A) a : succeeds o = true -> o = Some (default a o).
Proof. by destruct o. Qed.

Lemma succeeds_Some {A} (o : option A) : succeeds o = true -> exists a, o = Some a.
Proof. destruct o; [eauto | done]. Qed.

(** [ok_or]: an option that becomes an error. *)
Definition ok_or {A E} (o : option A) (e : E) : result A E :=
  match o with Some a => Ok a | None => Err e end.

(** A guard of the form [if cond { return Err(e) }]. *)
Definition refuse_if {E} (b : bool) (e : E) : result unit E :=
  if b then Err e else Ok tt.

(** ** Tables indexed by [N] *)

Definition lenN {A} (l : list A) : N := N.of_nat (length l).

(** Bounds-checked read: the index is compared before it is converted, so an
    index near [u32::MAX] never becomes a large unary number. *)
Definition tget {A} (l : list A) (i : N) : option A :=
  if (i <? lenN l)%N then l !! N.to_nat i else None.

(** In-place update of one row; [None] (a panic) when out of range. *)
Definition tupd {A} (l : list A) (i : N) (f : A -> A) : option (list A) :=
  x ← tget l i; Some (<[N.to_nat i := f x]> l).

(** All valid indices of a table, in order. *)
Definition indices {A} (l : list A) : list N := N.of_nat <$> seq 0 (length l).

Lemma tget_lookup {A} (l : list A) i : tget l i = l !! N.to_nat i.
Proof.
  unfold tget, lenN. destruct (N.ltb_spec i (N.of_nat (length l))); [done |].
  symmetry. apply lookup_ge_None. lia.
Qed.

Lemma tget_Some_lt {A} (l : list A) i x : tget l i = Some x -> (i < lenN l)%N.
Proof. unfold tget. destruct (N.ltb_spec i (lenN l)); naive_solver. Qed.

Lemma tget_is_Some {A} (l : list A) i : (i < lenN l)%N <-> is_Some (tget l i).
Proof.
  rewrite tget_lookup, lookup_lt_is_Some. unfold lenN. lia.
Qed.

Lemma tget_lt {A} (l : list A) i : (i < lenN l)%N -> exists x, tget l i = Some x.
Proof. intros ?%tget_is_Some. done. Qed.

Lemma tget_app_l {A} (l k : list A) i : (i < lenN l)%N -> tget (l ++ k) i = tget l i.
Proof. rewrite !tget_lookup. unfold lenN. intros. apply lookup_app_l. lia. Qed.

Lemma tget_app_mono {A} (l k : list A) i x : tget l i = Some x -> tget (l ++ k) i = Some x.
Proof. intros H. rewrite tget_app_l; [done | by eapply tget_Some_lt]. Qed.

Lemma tget_snoc {A} (l : list A) x : tget (l ++ [x]) (lenN l) = Some x.
Proof. rewrite tget_lookup. unfold lenN. rewrite Nat2N.id. by apply list_lookup_middle. Qed.

Lemma tget_snoc_at {A} (l : list A) x n : n = lenN l -> tget (l ++ [x]) n = Some x.
Proof. intros ->. apply tget_snoc. Qed.

Lemma tget_snoc_inv {A} (l : list A) x i y :
  tget (l ++ [x]) i = Some y -> tget l i = Some y \/ (i = lenN l /\ y = x).
Proof.
  rewrite !tget_lookup. unfold lenN. intros [?|[? ?]]%lookup_app_Some; [by left | right].
  destruct (N.to_nat i - length l)%nat eqn:E; simplify_eq/=. split; [lia | done].
Qed.

Lemma lenN_app {A} (l k : list A) : lenN (l ++ k) = (lenN l + lenN k)%N.
Proof. unfold lenN. rewrite length_app. lia. Qed.

Lemma lenN_snoc {A} (l : list A) x : lenN (l ++ [x]) = (lenN l + 1)%N.
Proof. by rewrite lenN_app. Qed.

Lemma lenN_insert {A} (l : list A) i x : lenN (<[i:=x]> l) = lenN l.
Proof. unfold lenN. by rewrite length_insert. Qed.

Lemma tupd_Some {A} (l l' : list A) i f :
  tupd l i f = Some l' <-> exists x, tget l i = Some x /\ l' = <[N.to_nat i := f x]> l.
Proof.
  unfold tupd. destruct (tget l i) as [x|]; simpl.
  - split; [intros [= <-]; by exists x | by intros (? & [= ->] & ->)].
  - split; [done | by intros (? & ? & _)].
Qed.

Lemma tupd_lenN {A} (l l' : list A) i f : tupd l i f = Some l' -> lenN l' = lenN l.
Proof. intros (? & _ & ->)%tupd_Some. apply lenN_insert. Qed.

Lemma tupd_get {A} (l l' : list A) i f j :
  tupd l i f = Some l' -> tget l' j = if decide (j = i) then f <$> tget l j else tget l j.
Proof.
  intros (x & Hx & ->)%tupd_Some. rewrite !tget_lookup in *.
  destruct (decide (j = i)) as [->|Hne].
  - rewrite Hx. apply list_lookup_insert_eq. by apply lookup_lt_Some in Hx.
  - apply list_lookup_insert_ne. lia.
Qed.

Lemma tupd_total {A} (l : list A) i f : (i < lenN l)%N -> exists l', tupd l i f = Some l'.
Proof. intros [x Hx]%tget_lt. unfold tupd. rewrite Hx. eauto. Qed.

Lemma indices_snoc {A} (l : list A) x : indices (l ++ [x]) = indices l ++ [lenN l].
Proof.
  unfold indices, lenN. rewrite length_app, seq_app, fmap_app. done.
Qed.

Lemma elem_of_indices {A} (l : list A) i : i ∈ indices l <-> (i < lenN l)%N.
Proof.
  unfold indices, lenN. rewrite list_elem_of_fmap. setoid_rewrite elem_of_seq.
  split; [intros (n & -> & ?); lia | intros ?; exists (N.to_nat i); lia].
Qed.

Lemma NoDup_indices {A} (l : list A) : NoDup (indices l).
Proof. apply NoDup_fmap; [intros ? ?; lia | apply NoDup_seq]. Qed.

Lemma indices_length {A} (l : list A) : length (indices l) = length l.
Proof. unfold indices. by rewrite length_fmap, length_seq. Qed.

Lemma indices_same_length {A B} (l : list A) (k : list B) :
  length l = length k -> indices l = indices k.
Proof. unfold indices. by intros ->. Qed.

Lemma elem_of_flat_map {A B} (f : A -> list B) l y : y ∈ flat_map f l <-> exists x, x ∈ l /\ y ∈ f x.
Proof. rewrite list_elem_of_In, in_flat_map. by setoid_rewrite list_elem_of_In. Qed.

(** One successful step of a monadic computation. *)
Ltac bind H := rewrite H; cbn [mbind option_bind fst snd].

(** ** Fallible filters *)

(** [filter] with a test that may panic. *)
Fixpoint filterM {A} (p : A -> option bool) (l : list A) : option (list A) :=
  match l with
  | [] => Some []
  | x :: l => keep ← p x; kept ← filterM p l; Some (if keep : bool then x :: kept else kept)
  end.

Lemma filterM_app {A} (p : A -> option bool) l k :
  filterM p (l ++ k) = (a ← filterM p l; b ← filterM p k; Some (a ++ b)).
Proof.
  induction l as [|x l IH]; simpl; [by destruct (filterM p k)|].
  destruct (p x) as [b|]; simpl; [|done]. rewrite IH.
  destruct (filterM p l); simpl; [|done]. destruct (filterM p k); simpl; [|done]. by destruct b.
Qed.

Lemma filterM_ext {A} (p q : A -> option bool) l :
  (forall x, x ∈ l -> p x = q x) -> filterM p l = filterM q l.
Proof.
  induction l as [|x l IH]; intros Hpq; simpl; [done|].
  rewrite (Hpq x) by set_solver. destruct (q x); simpl; [|done]. rewrite IH; [done | set_solver].
Qed.

(** Rows the test refuses without panicking can be dropped up front. *)
Lemma filterM_filter {A} (P : A -> Prop) `{!forall x, Decision (P x)} (p : A -> option bool) l :
  (forall x, x ∈ l -> ~ P x -> p x = Some false) -> filterM p (filter P l) = filterM p l.
Proof.
  induction l as [|x l IH]; intros Hp; [done|]. rewrite filter_cons. case_decide as HP; simpl.
  - rewrite IH; [done | set_solver].
  - rewrite (Hp x ltac:(set_solver) HP), IH; [|set_solver]. simpl. by destruct (filterM p l).
Qed.

Lemma filterM_pure {A} (P : A -> Prop) `{!forall x, Decision (P x)} (p : A -> option bool) l :
  (forall x, x ∈ l -> p x = Some (bool_decide (P x))) -> filterM p l = Some (filter P l).
Proof.
  induction l as [|x l IH]; intros Hp; simpl; [done|].
  rewrite (Hp x) by set_solver. simpl. rewrite IH by set_solver. simpl. rewrite filter_cons.
  by case_bool_decide; case_decide.
Qed.

Lemma elem_of_filterM {A} (p : A -> option bool) l k x :
  filterM p l = Some k -> x ∈ k <-> x ∈ l /\ p x = Some true.
Proof.
  revert k. induction l as [|y l IH]; intros k; simpl.
  - intros [= <-]. set_solver.
  - destruct (p y) as [b|] eqn:Ey; simpl; [|done]. destruct (filterM p l) as [r|]; simpl; [|done].
    intros [= <-]. specialize (IH r eq_refl).
    destruct b; rewrite ?elem_of_cons, IH; split; [|naive_solver| |naive_solver].
    + intros [->|[? ?]]; auto.
    + intros [? ?]; auto.
Qed.

(** ** Chains of a relation *)

Section rchain.
Context {A : Type} (R : A -> A -> Prop).

(** [k] steps lead somewhere from [n]. *)
Definition rchain (n : A) (k : nat) : Prop := exists m, nsteps R k n m.

Lemma rchain_prefix n j k : rchain n k -> (j <= k)%nat -> rchain n j.
Proof using.
  intros [m Hm] Hle. replace k with (j + (k - j))%nat in Hm by lia. apply nsteps_add_inv in Hm as (y & Hy & _). by exists y.
Qed.

Lemma rchain_trans n m j k : nsteps R j n m -> rchain m k -> rchain n (j + k).
Proof using. intros Hj [y Hy]. exists y. by eapply nsteps_trans. Qed.

Lemma rchain_step n m k : R n m -> rchain m k -> rchain n (S k).
Proof using. intros Hc Hk. apply (rchain_trans n m 1); [by apply nsteps_once | done]. Qed.

(** A cycle can be followed as long as one likes. *)
Lemma rchain_cycle n k : tc R n n -> rchain n k.
Proof using.
  intros (j & Hj & Hn)%tc_nsteps. enough (Hall : forall i, nsteps R (i * j) n n).
  { apply (rchain_prefix n k (k * j)); [by exists n | nia]. }
  induction i as [|i IH]; [constructor|]. simpl. by eapply nsteps_trans.
Qed.

(** The path of a depth-first walk, outermost first, leads to where it is. *)
Definition rtrail (path : list A) (here : A) : Prop :=
  forall i v, path !! i = Some v -> nsteps R (length path - i) v here.

Lemma rtrail_nil here : rtrail [] here.
Proof using. by intros i v. Qed.

Lemma rtrail_push path here m : rtrail path here -> R here m -> rtrail (path ++ [here]) m.
Proof using.
  intros Ht Hc i v Hi. rewrite length_app. simpl. apply lookup_app_Some in Hi as [Hi|[Hle Hi]].
  - replace (length path + 1 - i)%nat with (S (length path - i)) by (apply lookup_lt_Some in Hi; lia).
    eapply nsteps_r; [by apply Ht | done].
  - apply list_lookup_singleton_Some in Hi as [He <-]. replace (length path + 1 - i)%nat with 1%nat by lia. by apply nsteps_once.
Qed.

(** A walk back on its own path has closed a cycle; one as long as the cap hangs
    a chain of that length from the outermost. *)
Lemma rtrail_cycle path here : rtrail path here -> here ∈ path -> tc R here here.
Proof using.
  intros Ht [i Hi]%list_elem_of_lookup. apply tc_nsteps. exists (length path - i)%nat.
  split; [apply lookup_lt_Some in Hi; lia | by apply Ht].
Qed.

Lemma rtrail_top top path here : rtrail (top :: path) here -> nsteps R (S (length path)) top here.
Proof using. intros Ht. exact (Ht 0%nat top eq_refl). Qed.
End rchain.

(** ** Sorted lists *)

(** Strictly increasing lists with the same members are equal. *)
Lemma sorted_unique (l k : list N) :
  StronglySorted N.lt l -> StronglySorted N.lt k -> (forall x, x ∈ l <-> x ∈ k) -> l = k.
Proof.
  intros Hl. revert k. induction Hl as [|x l Hl IH Hx]; intros k Hk Heq.
  - destruct k as [|y k]; [done|]. exfalso. specialize (Heq y). set_solver.
  - destruct Hk as [|y k Hk Hy]; [specialize (Heq x); set_solver|].
    rewrite Forall_forall in Hx, Hy.
    assert (x = y) as ->.
    { pose proof (proj1 (Heq x) ltac:(set_solver)) as [|Hxk]%elem_of_cons; [done|].
      pose proof (proj2 (Heq y) ltac:(set_solver)) as [|Hyl]%elem_of_cons; [done|].
      pose proof (Hx _ Hyl). pose proof (Hy _ Hxk). lia. }
    f_equal. apply IH; [done|]. intros z. specialize (Heq z).
    rewrite !elem_of_cons in Heq. split; intros Hz.
    + destruct (proj1 Heq (or_intror Hz)) as [->|]; [|done]. pose proof (Hx _ Hz). lia.
    + destruct (proj2 Heq (or_intror Hz)) as [->|]; [|done]. pose proof (Hy _ Hz). lia.
Qed.

Lemma filter_all {A} (P : A -> Prop) `{!forall x, Decision (P x)} (l : list A) : (forall x, x ∈ l -> P x) -> filter P l = l.
Proof.
  induction l as [|x l IH]; intros HP; [done|]. rewrite filter_cons, decide_True by (apply HP; set_solver).
  f_equal. apply IH. set_solver.
Qed.

Lemma filter_none {A} (P : A -> Prop) `{!forall x, Decision (P x)} l :
  (forall x, x ∈ l -> ~ P x) -> filter P l = [].
Proof.
  induction l as [|x l IH]; intros Hn; [done|]. rewrite filter_cons, decide_False by (apply Hn; set_solver).
  apply IH. set_solver.
Qed.

Lemma NoDup_fmap_filter {A B} (f : A -> B) (P : A -> Prop) `{!forall x, Decision (P x)} (l : list A) :
  NoDup (f <$> l) -> NoDup (f <$> filter P l).
Proof.
  induction l as [|x l IH]; [done|]. rewrite fmap_cons. intros [Hx Hl]%NoDup_cons. rewrite filter_cons.
  case_decide; [|by apply IH]. rewrite fmap_cons. apply NoDup_cons. split; [|by apply IH].
  intros (y & Hy & [_ Hin]%list_elem_of_filter)%list_elem_of_fmap. apply Hx. rewrite Hy. by apply list_elem_of_fmap_2.
Qed.

Lemma StronglySorted_filter {A} (R : relation A) (P : A -> Prop) `{!forall x, Decision (P x)} l :
  StronglySorted R l -> StronglySorted R (filter P l).
Proof.
  induction 1 as [|x l Hl IH Hx]; [constructor|]. rewrite filter_cons. case_decide; [|done].
  constructor; [done|]. rewrite Forall_forall in Hx |- *. intros y [_ ?]%list_elem_of_filter. auto.
Qed.

Lemma StronglySorted_impl {A} (R R' : relation A) l :
  (forall a b, a ∈ l -> b ∈ l -> R a b -> R' a b) -> StronglySorted R l -> StronglySorted R' l.
Proof.
  intros Hi Hl. induction Hl as [|x l Hl IH Hx]; [constructor|]. constructor; [apply IH; set_solver|].
  rewrite Forall_forall in Hx |- *. intros y Hy. apply Hi; [set_solver | set_solver | auto].
Qed.

Lemma Forall2_impl_in {A B} (R R' : A -> B -> Prop) l k :
  Forall2 R l k -> (forall x y, x ∈ l -> R x y -> R' x y) -> Forall2 R' l k.
Proof.
  induction 1 as [|x y l k Hxy _ IH]; intros Hi; [constructor|]. constructor; [apply Hi; [set_solver | done]|].
  apply IH. intros. apply Hi; [set_solver | done].
Qed.

Lemma indices_sorted {A} (l : list A) : StronglySorted N.lt (indices l).
Proof.
  induction l as [|x l IH] using rev_ind; [constructor|]. rewrite indices_snoc.
  apply StronglySorted_app. split; [|split; [done | repeat constructor]].
  intros i j Hi%elem_of_indices ->%list_elem_of_singleton. done.
Qed.

(** [sort_unstable] on ids. *)
Definition sort_ids (l : list N) : list N := merge_sort N.le l.

Lemma elem_of_sort_ids l x : x ∈ sort_ids l <-> x ∈ l.
Proof. unfold sort_ids. by rewrite merge_sort_Permutation. Qed.

Lemma sort_ids_le l : StronglySorted N.le (sort_ids l).
Proof. apply StronglySorted_merge_sort; [intros ? ? ?; lia | intros ? ?; lia]. Qed.

Lemma sorted_NoDup (l : list N) : StronglySorted N.lt l -> NoDup l.
Proof.
  induction 1 as [|a l Hs IH Ha]; constructor; [|done]. rewrite Forall_forall in Ha.
  intros Hin. specialize (Ha _ Hin). lia.
Qed.

Lemma sorted_NoDup_lt l : StronglySorted N.le l -> NoDup l -> StronglySorted N.lt l.
Proof.
  induction 1 as [|x l Hl IH Hx]; [constructor|]. intros [Hni Hnd]%NoDup_cons.
  constructor; [by apply IH|]. rewrite Forall_forall in Hx |- *. intros y Hy.
  pose proof (Hx _ Hy). assert (x <> y) by congruence. lia.
Qed.

Lemma sort_ids_sorted l : NoDup l -> StronglySorted N.lt (sort_ids l).
Proof.
  intros Hnd. apply sorted_NoDup_lt; [apply sort_ids_le|]. unfold sort_ids. by rewrite merge_sort_Permutation.
Qed.

(** [dedup]: drops consecutive repetitions. *)
Fixpoint dedup (l : list N) : list N :=
  match l with
  | [] => []
  | x :: l => match dedup l with
              | y :: r => if x =? y then y :: r else x :: y :: r
              | [] => [x]
              end
  end%N.

Lemma elem_of_dedup l x : x ∈ dedup l <-> x ∈ l.
Proof.
  induction l as [|y l IH]; simpl; [done|]. rewrite elem_of_cons, <- IH.
  destruct (dedup l) as [|z r]; [set_solver|]. destruct (N.eqb_spec y z); set_solver.
Qed.

Lemma dedup_sorted l : StronglySorted N.le l -> StronglySorted N.lt (dedup l).
Proof.
  induction 1 as [|x l Hl IH Hx]; simpl; [constructor|].
  pose proof (elem_of_dedup l) as Hin. destruct (dedup l) as [|y r]; [repeat constructor|].
  destruct (N.eqb_spec x y); [done|]. constructor; [done|]. rewrite Forall_forall in Hx |- *.
  intros z Hz. pose proof (Hx z (proj1 (Hin z) Hz)). pose proof (Hx y (proj1 (Hin y) ltac:(set_solver))).
  apply StronglySorted_inv in IH as [_ IH]. rewrite Forall_forall in IH.
  apply elem_of_cons in Hz as [->|Hz]; [lia|]. pose proof (IH _ Hz). lia.
Qed.

Create HintDb table.
Create Rewrite HintDb table_rw.
#[export] Hint Resolve tget_snoc tget_app_mono NoDup_indices : table.
#[export] Hint Rewrite @lenN_app @lenN_snoc @lenN_insert @indices_snoc : table_rw.
