(* ===== verification/Bytes.v ===== *)
(** * Byte strings

    Rust's [String] and [Vec<u8>] as lists of bytes: little-endian integers,
    UTF-8 (what [str::from_utf8] accepts), the byte order [String] compares by,
    and the in-order iteration of a [BTreeMap] keyed by strings. *)

From Stdlib Require Export Strings.Byte.

From stdpp Require Export strings.
From stdpp Require Import lexico.
From S2P Require Export Prelude.

#[export] Instance byte_eq_dec : EqDecision byte := Byte.byte_eq_dec.
#[export] Program Instance byte_countable : Countable byte :=
  inj_countable Byte.to_N Byte.of_N _.
Next Obligation. intros b. apply Byte.of_to_N. Qed.

Abbreviation bytes := (list byte).
(** A Rust [String]: its UTF-8 bytes. *)
Abbreviation name := (list byte).

Definition str (s : string) : name := String.list_byte_of_string s.
Arguments str s%_string_scope.

Definition byte_of_N (n : N) : byte := default "000"%byte (Byte.of_N (n mod 256)%N).

Lemma byte_of_N_to_N b : byte_of_N (Byte.to_N b) = b.
Proof.
  unfold byte_of_N. rewrite N.mod_small; [by rewrite Byte.of_to_N |].
  pose proof (Byte.to_N_bounded b). lia.
Qed.

Lemma byte_to_N_inj a b : Byte.to_N a = Byte.to_N b -> a = b.
Proof. intros H. by rewrite <- (byte_of_N_to_N a), H, byte_of_N_to_N. Qed.

Lemma to_N_byte_of_N n : Byte.to_N (byte_of_N n) = (n mod 256)%N.
Proof.
  unfold byte_of_N. destruct (Byte.of_N (n mod 256)) as [b|] eqn:E; simpl.
  - by apply Byte.to_of_N.
  - apply Byte.of_N_None_iff in E. pose proof (N.mod_lt n 256). lia.
Qed.

(** ** Little-endian integers: [to_le_bytes], [from_le_bytes] *)

Fixpoint to_le (k : nat) (x : N) : bytes :=
  match k with
  | O => []
  | S k => byte_of_N x :: to_le k (x / 256)%N
  end.

Fixpoint from_le (bs : bytes) : N :=
  match bs with
  | [] => 0%N
  | b :: bs => (Byte.to_N b + 256 * from_le bs)%N
  end.

Definition u32_to_le (x : N) : bytes := to_le 4 x.
Definition u64_to_le (x : N) : bytes := to_le 8 x.

Lemma length_to_le k x : length (to_le k x) = k.
Proof. revert x. induction k; intros; simpl; auto. Qed.

Lemma from_to_le k x : from_le (to_le k x) = (x mod 256 ^ N.of_nat k)%N.
Proof.
  revert x. induction k as [|k IH]; intros x.
  - by rewrite N.mod_1_r.
  - simpl to_le. simpl from_le. rewrite IH, to_N_byte_of_N.
    replace (256 ^ N.of_nat (S k))%N with (256 * 256 ^ N.of_nat k)%N
      by (rewrite Nat2N.inj_succ, N.pow_succ_r'; lia).
    rewrite N.Div0.mod_mul_r. lia.
Qed.

Lemma from_to_le_u32 x : (x <= U32_MAX)%N -> from_le (u32_to_le x) = x.
Proof. intros. unfold u32_to_le. rewrite from_to_le. apply N.mod_small. unfold U32_MAX in *. simpl. lia. Qed.

Lemma from_to_le_u64 x : (x <= U64_MAX)%N -> from_le (u64_to_le x) = x.
Proof. intros. unfold u64_to_le. rewrite from_to_le. apply N.mod_small. unfold U64_MAX in *. simpl. lia. Qed.

Lemma from_le_bound bs : (from_le bs < 256 ^ lenN bs)%N.
Proof.
  induction bs as [|b bs IH]; simpl; [done |].
  pose proof (Byte.to_N_bounded b). unfold lenN in *. simpl length.
  rewrite Nat2N.inj_succ, N.pow_succ_r'. lia.
Qed.

(** ** UTF-8 *)

(** A Rust [char]: a Unicode scalar value. *)
Abbreviation char := N.

Definition is_scalar (c : char) : bool :=
  ((c <? 0xD800) || ((0xE000 <=? c) && (c <=? 0x10FFFF)))%N.

Definition cont (b : byte) : bool := (N.land (Byte.to_N b) 0xC0 =? 0x80)%N.
Definition low6 (b : byte) : N := N.land (Byte.to_N b) 0x3F.

(** [str::from_utf8] with the characters it validates: overlong forms,
    surrogates and values above [U+10FFFF] are refused. *)
Fixpoint utf8_decode (bs : bytes) : option (list char) :=
  match bs with
  | [] => Some []
  | b0 :: r0 =>
    let n0 := Byte.to_N b0 in
    if (n0 <? 0x80)%N then cons n0 <$> utf8_decode r0
    else if ((0xC2 <=? n0) && (n0 <=? 0xDF))%N then
      match r0 with
      | b1 :: r1 =>
        if cont b1
        then cons (N.shiftl (N.land n0 0x1F) 6 + low6 b1)%N <$> utf8_decode r1
        else None
      | [] => None
      end
    else if ((0xE0 <=? n0) && (n0 <=? 0xEF))%N then
      match r0 with
      | b1 :: b2 :: r2 =>
        let c := (N.shiftl (N.land n0 0x0F) 12 + N.shiftl (low6 b1) 6 + low6 b2)%N in
        if cont b1 && cont b2 && (0x800 <=? c)%N && is_scalar c
        then cons c <$> utf8_decode r2 else None
      | _ => None
      end
    else if ((0xF0 <=? n0) && (n0 <=? 0xF4))%N then
      match r0 with
      | b1 :: b2 :: b3 :: r3 =>
        let c := (N.shiftl (N.land n0 0x07) 18 + N.shiftl (low6 b1) 12
                  + N.shiftl (low6 b2) 6 + low6 b3)%N in
        if cont b1 && cont b2 && cont b3 && (0x10000 <=? c)%N && is_scalar c
        then cons c <$> utf8_decode r3 else None
      | _ => None
      end
    else None
  end.

Definition utf8_valid (bs : bytes) : bool := bool_decide (is_Some (utf8_decode bs)).

(** The characters of a valid string. *)
Definition chars (s : name) : list char := default [] (utf8_decode s).

(** [char::encode_utf8]. *)
Definition encode_char (c : char) : bytes :=
  (if c <? 0x80 then [byte_of_N c]
   else if c <? 0x800 then [byte_of_N (0xC0 + c / 64); byte_of_N (0x80 + c mod 64)]
   else if c <? 0x10000 then
     [byte_of_N (0xE0 + c / 4096); byte_of_N (0x80 + c / 64 mod 64); byte_of_N (0x80 + c mod 64)]
   else
     [byte_of_N (0xF0 + c / 262144); byte_of_N (0x80 + c / 4096 mod 64);
      byte_of_N (0x80 + c / 64 mod 64); byte_of_N (0x80 + c mod 64)])%N.

Definition utf8_encode (cs : list char) : bytes := mjoin (encode_char <$> cs).

Example utf8_japanese : utf8_decode (str "青嶺") = Some [0x9752; 0x5DBA]%N.
Proof. reflexivity. Qed.
Example utf8_overlong : utf8_decode ["192"; "128"]%byte = None.
Proof. reflexivity. Qed.
Example utf8_encode_ex : utf8_encode [0x9752; 0x41; 0x1F600]%N = str "青A😀".
Proof. reflexivity. Qed.

(** ** The order of strings *)

#[export] Instance byte_lexico : Lexico byte := fun a b => (Byte.to_N a < Byte.to_N b)%N.
#[export] Instance byte_lexico_po : StrictOrder (@lexico byte byte_lexico).
Proof. unfold lexico, byte_lexico. split; [intros ? ?; unfold complement in *; lia | intros ? ? ? ? ?; lia]. Qed.
#[export] Instance byte_lexico_trichotomy : TrichotomyT (@lexico byte byte_lexico).
Proof.
  intros a b. unfold lexico, byte_lexico.
  destruct (Byte.to_N a ?= Byte.to_N b)%N eqn:E.
  - left; right. apply N.compare_eq in E.
    rewrite <- (byte_of_N_to_N a), <- (byte_of_N_to_N b). by f_equal.
  - left; left. by apply N.compare_lt_iff.
  - right. apply N.compare_gt_iff in E. lia.
Defined.

Definition name_lt : relation name := @lexico (list byte) _.
Definition name_le (a b : name) : Prop := a = b \/ name_lt a b.

Definition name_trichotomy (a b : name) : {name_lt a b} + {a = b} + {name_lt b a} :=
  trichotomyT lexico a b.

#[export] Instance name_lt_strict : StrictOrder name_lt.
Proof. apply list_lexico_po. Qed.
#[export] Instance name_lt_dec a b : Decision (name_lt a b).
Proof.
  destruct (name_trichotomy a b) as [[?| ->]|?]; [by left | right | right].
  - apply (irreflexivity name_lt).
  - intros ?. eapply (irreflexivity name_lt a). by etrans.
Defined.
#[export] Instance name_le_dec a b : Decision (name_le a b).
Proof. unfold name_le. apply _. Defined.

#[export] Instance name_le_trans : Transitive name_le.
Proof. intros a b c [->|?] [->|?]; unfold name_le; [by left | by right | by right | right; by etrans]. Qed.
#[export] Instance name_le_antisym : AntiSymm (=) name_le.
Proof.
  intros a b [->|H] [E|H']; try done.
  exfalso. eapply (irreflexivity name_lt a). by etrans.
Qed.
#[export] Instance name_le_total : Total name_le.
Proof. intros a b. unfold name_le. destruct (name_trichotomy a b) as [[?| ->]|?]; auto. Qed.

(** ** [BTreeMap<String, V>]

    A [gmap] for the lookups, iterated in key order. *)

Section btree.
Context {V : Type}.
Implicit Types m : gmap name V.

Definition entry_le (p q : name * V) : Prop := name_le p.1 q.1.
#[export] Instance entry_le_dec p q : Decision (entry_le p q).
Proof. unfold entry_le. apply _. Defined.
#[export] Instance entry_le_trans : Transitive entry_le.
Proof. intros [??] [??] [??]. unfold entry_le. apply name_le_trans. Qed.
#[export] Instance entry_le_total : Total entry_le.
Proof. intros [??] [??]. unfold entry_le. apply name_le_total. Qed.

Definition btree_iter m : list (name * V) := merge_sort entry_le (map_to_list m).

(** [range((Excluded(after), Unbounded))], or the whole map. *)
Definition btree_after (after : option name) m : list (name * V) :=
  match after with
  | None => btree_iter m
  | Some a => filter (fun p => name_lt a p.1) (btree_iter m)
  end.

Lemma btree_iter_perm m : btree_iter m ≡ₚ map_to_list m.
Proof. apply merge_sort_Permutation. Qed.

Lemma elem_of_btree_iter m k v : (k, v) ∈ btree_iter m <-> m !! k = Some v.
Proof. rewrite btree_iter_perm. apply elem_of_map_to_list. Qed.

Lemma btree_iter_sorted m : StronglySorted entry_le (btree_iter m).
Proof. apply StronglySorted_merge_sort; apply _. Qed.

Lemma NoDup_btree_keys m : NoDup (btree_iter m).*1.
Proof. rewrite btree_iter_perm. apply NoDup_fst_map_to_list. Qed.

Lemma length_btree_iter m : length (btree_iter m) = size m.
Proof. rewrite btree_iter_perm. apply length_map_to_list. Qed.

Lemma sorted_after (l : list (name * V)) i p :
  StronglySorted entry_le l -> NoDup l.*1 -> l !! i = Some p ->
  filter (fun q => name_lt p.1 q.1) l = drop (S i) l.
Proof.
  revert i. induction l as [|q l IH]; intros [|i] Hs Hnd Hp; simpl in Hp; try done.
  - injection Hp as ->. apply StronglySorted_inv in Hs as [_ Hall]. apply NoDup_cons in Hnd as [Hni _].
    rewrite filter_cons, decide_False by apply (irreflexivity name_lt). simpl. rewrite drop_0.
    clear IH. induction Hall as [|q l Hq Hall IHl]; [done|]. rewrite filter_cons, decide_True.
    + f_equal. apply IHl. intros Hin. apply Hni. simpl. by right.
    + destruct Hq as [Hq|]; [|done]. exfalso. apply Hni. simpl. rewrite Hq. by left.
  - apply StronglySorted_inv in Hs as [Hs Hall]. apply NoDup_cons in Hnd as [Hni Hnd].
    rewrite filter_cons, decide_False; [by apply IH|]. intros Hlt.
    eapply Forall_lookup_1 in Hall; [|exact Hp]. destruct Hall as [Heq|Hlt'].
    + apply Hni. rewrite Heq. apply list_elem_of_fmap_2. by eapply list_elem_of_lookup_2.
    + eapply (irreflexivity name_lt p.1). by etrans.
Qed.

(** Seeking past an entry continues the iteration right after it. *)
Lemma btree_after_resume m i p :
  btree_iter m !! i = Some p -> btree_after (Some p.1) m = drop (S i) (btree_iter m).
Proof. apply sorted_after; [apply btree_iter_sorted | apply NoDup_btree_keys]. Qed.
End btree.

(** ** Numbers in format strings *)

Section digits.
Local Open Scope N_scope.

(** A decimal digit, and the digits of a number in front of what follows. *)
Definition digit (d : N) : byte := byte_of_N (48 + d).

Fixpoint decimal_digits (fuel : nat) (n : N) (acc : bytes) : bytes :=
  match fuel with
  | O => acc
  | S fuel =>
    let acc := digit (n mod 10) :: acc in
    if n <? 10 then acc else decimal_digits fuel (n / 10) acc
  end.

(** [{:016x}] of a [u64]. *)
Definition hex_digit (d : N) : byte := byte_of_N (if d <? 10 then 48 + d else 87 + d).

Fixpoint hex_digits (width : nat) (n : N) (acc : bytes) : bytes :=
  match width with
  | O => acc
  | S width => hex_digits width (n / 16) (hex_digit (n mod 16) :: acc)
  end.

(** [{}] of a [u64]: at most twenty digits. *)
Definition decimal_u64 (n : N) : bytes := decimal_digits 20 n [].
End digits.

(** ** FNV-1a ([src/hash.rs]) *)

Section fnv.
Local Open Scope N_scope.

Definition FNV1A_OFFSET : N := 0xcbf29ce484222325.
Definition FNV1A_PRIME : N := 0x100000001b3.

Definition fnv1a_fold (digest : N) (bs : bytes) : N :=
  foldl (fun digest b => (N.lxor digest (Byte.to_N b) * FNV1A_PRIME) mod (U64_MAX + 1)) digest bs.

Definition fnv1a (text : name) : N := fnv1a_fold FNV1A_OFFSET text.

End fnv.
