(* ===== verification/F64.v ===== *)
(** * [f64]

    Weights are IEEE 754 binary64 numbers: the kernel's primitive floats, whose
    operations round to nearest even as Rust's do.  A Rust NaN has a payload and
    a primitive float has one NaN; the weights of the program are never NaN
    (every write asserts it), so the payload never matters. *)

From Stdlib Require Export Floats.
From Stdlib Require Import ZArith Lia.
From S2P Require Export Bytes.

Abbreviation f64 := PrimFloat.float.

Definition f64_MAX : f64 := 0x1.fffffffffffffp+1023%float.
Definition f64_EPSILON : f64 := 0x1p-52%float.

Definition f64_finite (x : f64) : bool := PrimFloat.is_finite x.
Definition f64_nan (x : f64) : bool := PrimFloat.is_nan x.

(** [f64::MAX.copysign(x)]. *)
Definition copysign_max (x : f64) : f64 :=
  if PrimFloat.get_sign x then PrimFloat.opp f64_MAX else f64_MAX.

Definition clamp_finite (x : f64) : f64 := if f64_finite x then x else copysign_max x.

(** [accumulate_saturating(&mut sum, weight)]. *)
Definition accumulate_saturating (sum weight : f64) : f64 := clamp_finite (sum + weight)%float.

(** [n as f64]: round to nearest even. *)
Definition f64_of_N (n : N) : f64 := SF2Prim (binary_normalize 53 1024 (Z.of_N n) 0 false).

(** [f64::clamp(lo, hi)]: NaN passes through. *)
Definition f64_clamp (x lo hi : f64) : f64 :=
  if (x <? lo)%float then lo else if (hi <? x)%float then hi else x.

Definition clamp_unit_or (value nan_fallback : f64) : f64 :=
  if f64_nan value then nan_fallback else f64_clamp value 0%float 1%float.

(** [f64::max]: the other operand when one is NaN. *)
Definition f64_max (a b : f64) : f64 :=
  if f64_nan a then b else if (a <? b)%float then b else a.
(** [f64::min]. *)
Definition f64_min (a b : f64) : f64 :=
  if f64_nan a then b else if (b <? a)%float then b else a.

(** ** Bits: [to_bits], [from_bits] *)

Definition sign_bit (s : bool) : N := if s then 2 ^ 63 else 0%N.

Definition sf_to_bits (x : spec_float) : N :=
  match x with
  | S754_zero s => sign_bit s
  | S754_infinity s => sign_bit s + 2047 * 2 ^ 52
  | S754_nan => 2047 * 2 ^ 52 + 2 ^ 51
  | S754_finite s m e =>
    if (Npos m <? 2 ^ 52)%N then sign_bit s + Npos m
    else sign_bit s + Z.to_N (e + 1075) * 2 ^ 52 + (Npos m - 2 ^ 52)
  end%N.

Definition sf_of_bits (b : N) : spec_float :=
  let s := N.testbit b 63 in
  let ex := ((b / 2 ^ 52) mod 2 ^ 11)%N in
  let fr := (b mod 2 ^ 52)%N in
  if (ex =? 2047)%N then
    if (fr =? 0)%N then S754_infinity s else S754_nan
  else if (ex =? 0)%N then
    match fr with 0%N => S754_zero s | Npos m => S754_finite s m (-1074) end
  else
    match (fr + 2 ^ 52)%N with
    | 0%N => S754_zero s
    | Npos m => S754_finite s m (Z.of_N ex - 1075)
    end.

Definition f64_to_bits (x : f64) : N := sf_to_bits (Prim2SF x).
Definition f64_from_bits (b : N) : f64 := SF2Prim (sf_of_bits b).

(** [f64::total_cmp], as the standard library computes it: the bits as an
    [i64], with the low 63 bits flipped when the sign is set. *)
Definition total_key (x : f64) : Z :=
  let b := f64_to_bits x in
  if N.testbit b 63 then (- Z.of_N (b - 2 ^ 63)%N - 1)%Z else Z.of_N b.

Definition total_cmp (a b : f64) : comparison := (total_key a ?= total_key b)%Z.

(** ** Saturation *)

Lemma clamp_finite_finite x : f64_finite (clamp_finite x) = true.
Proof.
  unfold clamp_finite. destruct (f64_finite x) eqn:E; [done |].
  unfold copysign_max. by destruct (PrimFloat.get_sign x).
Qed.

Lemma clamp_finite_id x : f64_finite x = true -> clamp_finite x = x.
Proof. unfold clamp_finite. by intros ->. Qed.

Lemma accumulate_saturating_finite s w : f64_finite (accumulate_saturating s w) = true.
Proof. apply clamp_finite_finite. Qed.

Create HintDb f64.
#[export] Hint Resolve accumulate_saturating_finite clamp_finite_finite : f64.

(** ** Round trip through the bits *)

Lemma digits2_pos_bound (m : positive) :
  (2 ^ (Z.pos (digits2_pos m) - 1) <= Z.pos m < 2 ^ Z.pos (digits2_pos m))%Z.
Proof.
  induction m as [m IH|m IH|]; [| | done]; simpl digits2_pos;
    rewrite Pos2Z.inj_succ;
    replace (Z.succ (Z.pos (digits2_pos m)) - 1)%Z with (Z.succ (Z.pos (digits2_pos m) - 1)) by lia;
    rewrite !Z.pow_succ_r by lia; lia.
Qed.

(** What [valid_binary] says of a finite number: a 53-bit mantissa, either
    normalized or at the least exponent. *)
Lemma valid_finite s m e :
  valid_binary (S754_finite s m e) = true ->
  (Z.pos m < 2 ^ 53 /\ -1074 <= e <= 971 /\ (2 ^ 52 <= Z.pos m \/ e = -1074))%Z.
Proof.
  unfold valid_binary, bounded, canonical_mantissa, fexp, SpecFloat.emin, prec, emax.
  rewrite andb_true_iff, Z.leb_le, Z.eqb_eq. intros [Hc He].
  pose proof (digits2_pos_bound m) as Hb. revert Hc Hb.
  generalize (digits2_pos m). intros d Hc [Hlo Hhi].
  assert (Z.pos d <= 53)%Z by lia.
  assert (2 ^ Z.pos d <= 2 ^ 53)%Z by (apply Z.pow_le_mono_r; lia).
  repeat split; [lia..|].
  destruct (decide (Z.pos d = 53%Z)) as [E|]; [left; rewrite E in Hlo; done | right; lia].
Qed.

Lemma div_mod_bits s q r :
  (q < 2048)%N -> (r < 2 ^ 52)%N ->
  let b := (sign_bit s + q * 2 ^ 52 + r)%N in
  N.testbit b 63 = s /\ ((b / 2 ^ 52) mod 2 ^ 11 = q)%N /\ (b mod 2 ^ 52 = r)%N /\ (b < 2 ^ 64)%N.
Proof.
  intros Hq Hr b.
  assert (Hdiv : (b / 2 ^ 52 = (if s then 2048 else 0) + q)%N).
  { symmetry. apply (N.div_unique b (2 ^ 52) _ r); [done |].
    subst b. unfold sign_bit. destruct s; lia. }
  assert (Hmod : (b mod 2 ^ 52 = r)%N).
  { symmetry. apply (N.mod_unique b (2 ^ 52) ((if s then 2048 else 0) + q) r); [done |].
    subst b. unfold sign_bit. destruct s; lia. }
  split; [|split; [|split; [done|]]].
  - rewrite N.testbit_eqb. replace (2 ^ 63)%N with (2 ^ 52 * 2048)%N by done.
    rewrite <- N.Div0.div_div, Hdiv. destruct s; [|by rewrite N.div_small by lia].
    replace ((2048 + q) / 2048)%N with 1%N; [done|].
    apply (N.div_unique _ 2048 1 q); lia.
  - rewrite Hdiv. symmetry. destruct s.
    + apply (N.mod_unique _ (2 ^ 11) 1 q); [done | simpl; lia].
    + apply (N.mod_unique _ (2 ^ 11) 0 q); [done | simpl; lia].
  - subst b. unfold sign_bit. destruct s; lia.
Qed.

Lemma sf_of_to_bits x : valid_binary x = true -> sf_of_bits (sf_to_bits x) = x.
Proof.
  assert (Hz : forall s, sign_bit s = (sign_bit s + 0 * 2 ^ 52 + 0)%N) by (intros; lia).
  unfold sf_of_bits. destruct x as [s|s| |s m e]; simpl sf_to_bits; intros Hv.
  - rewrite (Hz s). by destruct (div_mod_bits s 0 0) as (-> & -> & -> & _).
  - rewrite <- (N.add_0_r (_ + 2047 * _)).
    by destruct (div_mod_bits s 2047 0) as (-> & -> & -> & _).
  - done.
  - apply valid_finite in Hv as (Hm & He & Hn).
    destruct (N.ltb_spec (Npos m) (2 ^ 52)).
    + replace (sign_bit s + N.pos m)%N with (sign_bit s + 0 * 2 ^ 52 + N.pos m)%N by lia.
      destruct (div_mod_bits s 0 (N.pos m)) as (-> & -> & -> & _); [done..|].
      simpl. f_equal. lia.
    + destruct (div_mod_bits s (Z.to_N (e + 1075)) (N.pos m - 2 ^ 52)) as (-> & -> & -> & _);
        [lia..|].
      destruct (N.eqb_spec (Z.to_N (e + 1075)) 2047); [lia|].
      destruct (N.eqb_spec (Z.to_N (e + 1075)) 0); [lia|].
      replace (N.pos m - 2 ^ 52 + 2 ^ 52)%N with (N.pos m) by lia.
      f_equal. lia.
Qed.

Lemma f64_from_to_bits x : f64_from_bits (f64_to_bits x) = x.
Proof.
  unfold f64_from_bits, f64_to_bits. rewrite sf_of_to_bits by apply Prim2SF_valid.
  apply SF2Prim_Prim2SF.
Qed.

Lemma f64_to_bits_bound x : (f64_to_bits x <= U64_MAX)%N.
Proof.
  unfold f64_to_bits. pose proof (Prim2SF_valid x) as Hv. revert Hv.
  assert (Hs : forall s, (sign_bit s <= 2 ^ 63)%N) by by intros [].
  destruct (Prim2SF x) as [s|s| |s m e]; simpl sf_to_bits; intros Hv; unfold U64_MAX.
  - specialize (Hs s). lia.
  - specialize (Hs s). lia.
  - done.
  - apply valid_finite in Hv. specialize (Hs s).
    destruct (N.ltb_spec (Npos m) (2 ^ 52)); [lia|]. lia.
Qed.

Lemma f64_to_bits_inj x y : f64_to_bits x = f64_to_bits y -> x = y.
Proof. intros H. by rewrite <- (f64_from_to_bits x), H, f64_from_to_bits. Qed.

(** ** [total_cmp] is a total order *)

Lemma total_key_inj x y : total_key x = total_key y -> x = y.
Proof.
  intros H. apply f64_to_bits_inj. revert H. unfold total_key.
  pose proof (f64_to_bits_bound x). pose proof (f64_to_bits_bound y).
  assert (Hb : forall b, N.testbit b 63 = true -> (2 ^ 63 <= b)%N).
  { intros b Hb. destruct (decide (2 ^ 63 <= b)%N); [done|].
    rewrite N.testbit_eqb, N.div_small in Hb by lia. done. }
  destruct (N.testbit (f64_to_bits x) 63) eqn:Ex, (N.testbit (f64_to_bits y) 63) eqn:Ey;
    intros; try apply Hb in Ex; try apply Hb in Ey; lia.
Qed.

Lemma total_cmp_eq a b : total_cmp a b = Eq <-> a = b.
Proof.
  unfold total_cmp. rewrite Z.compare_eq_iff.
  split; [apply total_key_inj | by intros ->].
Qed.

(** ** [<] agrees with [total_cmp] *)

Local Open Scope N_scope.

(** The magnitude field of the bits, below the sign. *)
Definition sf_magnitude (x : spec_float) : Z :=
  match x with
  | S754_zero _ => 0
  | S754_infinity _ => 2047 * 2 ^ 52
  | S754_nan => 2047 * 2 ^ 52 + 2 ^ 51
  | S754_finite _ m e => (e + 1074) * 2 ^ 52 + Z.pos m
  end%Z.

Definition sf_sign (x : spec_float) : bool :=
  match x with S754_zero s | S754_infinity s | S754_finite s _ _ => s | S754_nan => false end.

Lemma sf_bits_split x : valid_binary x = true ->
  sf_to_bits x = sign_bit (sf_sign x) + Z.to_N (sf_magnitude x) /\ (0 <= sf_magnitude x < 2 ^ 63)%Z.
Proof.
  destruct x as [s|s| |s m e]; simpl sf_to_bits; intros Hv; unfold sf_sign, sf_magnitude.
  - split; [simpl; lia | done].
  - split; [f_equal; done | done].
  - split; done.
  - apply valid_finite in Hv as (Hm & He & Hn). split; [|lia].
    destruct (N.ltb_spec (Npos m) (2 ^ 52)); destruct s; simpl sign_bit; lia.
Qed.

Lemma total_key_split x :
  total_key x = (if sf_sign (Prim2SF x) then - sf_magnitude (Prim2SF x) - 1 else sf_magnitude (Prim2SF x))%Z.
Proof.
  unfold total_key, f64_to_bits. destruct (sf_bits_split _ (Prim2SF_valid x)) as [-> Hb].
  generalize dependent (sf_magnitude (Prim2SF x)). intros z Hb.
  assert (Ht : N.testbit (sign_bit (sf_sign (Prim2SF x)) + Z.to_N z) 63 = sf_sign (Prim2SF x)).
  { rewrite N.testbit_eqb. destruct (sf_sign (Prim2SF x)); simpl sign_bit.
    - replace ((2 ^ 63 + Z.to_N z) / 2 ^ 63) with 1; [done|]. apply (N.div_unique _ _ 1 (Z.to_N z)); lia.
    - rewrite N.div_small by lia. done. }
  rewrite Ht. destruct (sf_sign (Prim2SF x)); simpl sign_bit; lia.
Qed.

Lemma finite_magnitude_lt m1 e1 m2 e2 s1 s2 :
  valid_binary (S754_finite s1 m1 e1) = true -> valid_binary (S754_finite s2 m2 e2) = true ->
  (e1 < e2)%Z \/ (e1 = e2 /\ (Z.pos m1 < Z.pos m2)%Z) ->
  (sf_magnitude (S754_finite s1 m1 e1) < sf_magnitude (S754_finite s2 m2 e2))%Z.
Proof. intros (? & ? & ?)%valid_finite (? & ? & ?)%valid_finite. simpl. lia. Qed.

Lemma finite_magnitude s m e : valid_binary (S754_finite s m e) = true ->
  (1 <= sf_magnitude (S754_finite s m e) < 2047 * 2 ^ 52)%Z.
Proof. intros (? & ? & ?)%valid_finite. simpl. lia. Qed.

Lemma ltb_total_key x y : (x <? y)%float = true -> (total_key x < total_key y)%Z.
Proof.
  rewrite FloatAxioms.ltb_spec, !total_key_split.
  pose proof (Prim2SF_valid x) as Hx. pose proof (Prim2SF_valid y) as Hy. revert Hx Hy.
  pose proof (fun H => proj2 (sf_bits_split _ (H : valid_binary (Prim2SF x) = true))) as Bx.
  pose proof (fun H => proj2 (sf_bits_split _ (H : valid_binary (Prim2SF y) = true))) as By.
  revert Bx By. generalize (Prim2SF x) (Prim2SF y). intros a b Ba Bb Hx Hy. specialize (Ba Hx). specialize (Bb Hy).
  unfold SFltb.
  destruct a as [s1|s1| |s1 m1 e1], b as [s2|s2| |s2 m2 e2]; unfold SFcompare, sf_sign; try done;
    try pose proof (finite_magnitude _ _ _ Hx); try pose proof (finite_magnitude _ _ _ Hy);
    try (destruct s1, s2; simpl sf_magnitude in *; try done; lia).
  intros Hc. pose proof (finite_magnitude_lt m1 e1 m2 e2 s1 s2 Hx Hy) as H12.
  pose proof (finite_magnitude_lt m2 e2 m1 e1 s2 s1 Hy Hx) as H21.
  change (Pos.compare_cont Eq m1 m2) with (Z.pos m1 ?= Z.pos m2)%Z in Hc.
  destruct s1, s2; try done; simpl sf_magnitude in *; try lia;
    destruct (Z.compare_spec e1 e2), (Z.compare_spec (Z.pos m1) (Z.pos m2)); simpl in Hc; try done; lia.
Qed.

(** * The order of floats

    [<] on [f64] as an order on integers: what a running maximum needs. *)

(** The signed magnitude: both zeros are zero. *)
Definition sf_numeric (x : spec_float) : Z :=
  (if sf_sign x then - sf_magnitude x else sf_magnitude x)%Z.

Definition numeric (x : f64) : Z := sf_numeric (Prim2SF x).

(** A goal about two signs and bounded magnitudes. *)
Ltac by_signs s1 s2 :=
  destruct s1, s2; (split;
    [intros Hc; first [discriminate Hc | split; [discriminate|]; split; [discriminate|]; lia]
    |intros (_ & _ & Hc); first [reflexivity | exfalso; lia]]).

Lemma finite_ltb_numeric s1 m1 e1 s2 m2 e2 :
  valid_binary (S754_finite s1 m1 e1) = true -> valid_binary (S754_finite s2 m2 e2) = true ->
  SFltb (S754_finite s1 m1 e1) (S754_finite s2 m2 e2) = true <->
  S754_finite s1 m1 e1 <> S754_nan /\ S754_finite s2 m2 e2 <> S754_nan /\
  (sf_numeric (S754_finite s1 m1 e1) < sf_numeric (S754_finite s2 m2 e2))%Z.
Proof.
  intros Hx Hy. pose proof (finite_magnitude_lt m1 e1 m2 e2 s1 s2 Hx Hy) as H12.
  pose proof (finite_magnitude_lt m2 e2 m1 e1 s2 s1 Hy Hx) as H21.
  pose proof (finite_magnitude _ _ _ Hx) as Bx. pose proof (finite_magnitude _ _ _ Hy) as By.
  assert (Heq : e1 = e2 -> Z.pos m1 = Z.pos m2 ->
    sf_magnitude (S754_finite s1 m1 e1) = sf_magnitude (S754_finite s2 m2 e2)) by (intros -> [= ->]; reflexivity).
  unfold SFltb, SFcompare, sf_numeric, sf_sign. change (Pos.compare_cont Eq m1 m2) with (Z.pos m1 ?= Z.pos m2)%Z.
  generalize dependent (sf_magnitude (S754_finite s1 m1 e1)). intros g1.
  generalize dependent (sf_magnitude (S754_finite s2 m2 e2)). intros g2. intros.
  destruct (Z.compare_spec e1 e2), (Z.compare_spec (Z.pos m1) (Z.pos m2)); cbn [CompOpp]; by_signs s1 s2.
Qed.

Lemma ltb_numeric x y : (x <? y)%float = true <->
  Prim2SF x <> S754_nan /\ Prim2SF y <> S754_nan /\ (numeric x < numeric y)%Z.
Proof.
  rewrite FloatAxioms.ltb_spec. unfold numeric.
  pose proof (Prim2SF_valid x) as Hx. pose proof (Prim2SF_valid y) as Hy. revert Hx Hy.
  generalize (Prim2SF x) (Prim2SF y). intros a b Hx Hy.
  destruct a as [s1|s1| |s1 m1 e1], b as [s2|s2| |s2 m2 e2];
    try pose proof (finite_magnitude _ _ _ Hx) as Bx; try pose proof (finite_magnitude _ _ _ Hy) as By;
    try (split; [discriminate | intros (? & ? & _); contradiction]); try by apply finite_ltb_numeric.
  all: unfold SFltb, SFcompare, sf_numeric, sf_sign; cbn [sf_magnitude] in *.
  all: by_signs s1 s2.
Qed.

Lemma ltb_trans x y z : (x <? y)%float = true -> (y <? z)%float = true -> (x <? z)%float = true.
Proof. rewrite !ltb_numeric. intros (? & ? & ?) (? & ? & ?). split; [done|]. split; [done|]. lia. Qed.

Lemma ltb_irrefl x : (x <? x)%float = false.
Proof. apply not_true_is_false. rewrite ltb_numeric. intros (_ & _ & ?). lia. Qed.

(** Replacing a value by a greater one keeps everything it was not below. *)
Lemma ltb_raise x y z : (x <? y)%float = true -> (x <? z)%float = false -> (y <? z)%float = false.
Proof.
  intros Hxy Hxz. apply not_true_is_false. intros Hyz. by rewrite (ltb_trans _ _ _ Hxy Hyz) in Hxz.
Qed.

(** Nothing is below a NaN. *)
Lemma ltb_not_nan x y : (x <? y)%float = true -> f64_nan y = false.
Proof.
  intros (_ & Hy & _)%ltb_numeric. unfold f64_nan, PrimFloat.is_nan. rewrite FloatAxioms.eqb_spec. unfold SFeqb.
  destruct (Prim2SF y) as [s|s| |s m e]; try done; cbn; try (by destruct s).
  change (PosDef.Pos.compare_cont Eq m m) with (Pos.compare m m). rewrite Z.compare_refl, Pos.compare_refl. by destruct s.
Qed.

Lemma not_nan x : f64_nan x = false -> Prim2SF x <> S754_nan.
Proof. unfold f64_nan, PrimFloat.is_nan. rewrite FloatAxioms.eqb_spec. by intros Hn Hx; rewrite Hx in Hn. Qed.

Lemma not_below_trans x y z : f64_nan y = false ->
  (x <? y)%float = false -> (y <? z)%float = false -> (x <? z)%float = false.
Proof.
  intros Hy%not_nan Hxy Hyz. apply not_true_is_false. intros (Hx & Hz & Hlt)%ltb_numeric.
  destruct (Z.lt_ge_cases (numeric x) (numeric y)) as [Hl|Hl].
  - by rewrite (proj2 (ltb_numeric x y)) in Hxy.
  - rewrite (proj2 (ltb_numeric y z)) in Hyz; [done|]. split; [done|]. split; [done|]. lia.
Qed.

(** A running maximum: one of the values, or where it started, and below none. *)
Lemma max_fold ds : forall x, f64_nan x = false ->
  let m := foldl f64_max x ds in
  f64_nan m = false /\ (m = x \/ m ∈ ds) /\ (forall d, d ∈ x :: ds -> (m <? d)%float = false).
Proof.
  induction ds as [|d ds IH]; intros x Hx; cbn [foldl].
  - split; [done|]. split; [by left|]. intros d ->%list_elem_of_singleton. apply ltb_irrefl.
  - assert (Hm : f64_max x d = if (x <? d)%float then d else x) by (unfold f64_max; by rewrite Hx).
    rewrite Hm. destruct (x <? d)%float eqn:Hxd.
    + destruct (IH d (ltb_not_nan _ _ Hxd)) as (Hn & Hin & Hb). split; [done|]. split.
      * right. apply elem_of_cons. destruct Hin; auto.
      * intros e [->|He]%elem_of_cons; [|by apply Hb]. apply not_true_is_false. intros He.
        pose proof (ltb_trans _ _ _ He Hxd) as Hc. by rewrite (Hb d ltac:(set_solver)) in Hc.
    + destruct (IH x Hx) as (Hn & Hin & Hb). split; [done|]. split.
      * destruct Hin; [by left | right; set_solver].
      * intros e [->|[->|He]%elem_of_cons]%elem_of_cons; [apply Hb; set_solver| |apply Hb; set_solver].
        eapply not_below_trans; [exact Hx | apply Hb; set_solver | done].
Qed.
