(* ===== verification/Crc32c.v ===== *)
(** * CRC-32C ([src/crc32c.rs])

    The table-driven checksum under every integrity footer, its equivalence with
    the bit-at-a-time definition, and what it detects: any corruption confined
    to four consecutive bytes. *)

From Stdlib Require Import NArith Lia.
From S2P Require Export Bytes.

Local Open Scope N_scope.

Definition POLYNOMIAL : N := 0x82F63B78.

(** One round of the table builder's inner loop. *)
Definition crc_bit (crc : N) : N :=
  if N.testbit crc 0 then N.lxor (N.shiftr crc 1) POLYNOMIAL else N.shiftr crc 1.

Definition TABLE : list N :=
  (fun index => Nat.iter 8 crc_bit (N.of_nat index)) <$> seq 0 256.

(** One byte of the checksum loop.  The table has 256 entries and the index is
    masked to eight bits, so the read is always in range ([TABLE_in_range]). *)
Definition crc_byte (crc : N) (byte : byte) : N :=
  N.lxor (N.shiftr crc 8)
    (default 0 (tget TABLE (N.land (N.lxor crc (Byte.to_N byte)) 0xFF))).

Definition crc32c_from (crc : N) (bs : bytes) : N := foldl crc_byte crc bs.

(** [crc32c]: init and final xor with all ones. *)
Definition crc32c (bs : bytes) : N := N.lxor (crc32c_from 0xFFFFFFFF bs) 0xFFFFFFFF.

(** The reference definition: eight rounds per byte, no table. *)
Definition crc_byte_bitwise (crc : N) (byte : byte) : N :=
  Nat.iter 8 crc_bit (N.lxor crc (Byte.to_N byte)).
Definition crc32c_bitwise (bs : bytes) : N :=
  N.lxor (foldl crc_byte_bitwise 0xFFFFFFFF bs) 0xFFFFFFFF.

(** ** The bit step is linear *)

Ltac xor_bits :=
  apply N.bits_inj; intros ?; rewrite ?N.lxor_spec;
  repeat match goal with |- context [N.testbit ?x ?i] => destruct (N.testbit x i) end;
  reflexivity.

Lemma crc_bit_lxor a b : crc_bit (N.lxor a b) = N.lxor (crc_bit a) (crc_bit b).
Proof.
  unfold crc_bit. rewrite N.lxor_spec, N.shiftr_lxor.
  destruct (N.testbit a 0), (N.testbit b 0); simpl; xor_bits.
Qed.

Lemma crc_iter_lxor k a b :
  Nat.iter k crc_bit (N.lxor a b) = N.lxor (Nat.iter k crc_bit a) (Nat.iter k crc_bit b).
Proof. induction k as [|k IH]; simpl; [done|]. by rewrite IH, crc_bit_lxor. Qed.

Lemma crc_iter_add j k a : Nat.iter (j + k) crc_bit a = Nat.iter j crc_bit (Nat.iter k crc_bit a).
Proof. induction j as [|j IH]; simpl; [done|]. by rewrite IH. Qed.

(** Zero bits at the bottom are shifted out untouched. *)
Lemma crc_iter_shiftl k a : Nat.iter k crc_bit (N.shiftl a (N.of_nat k)) = a.
Proof.
  revert a. induction k as [|k IH]; intros a; [apply N.shiftl_0_r|].
  replace (S k) with (k + 1)%nat by lia. rewrite crc_iter_add.
  replace (Nat.iter 1 crc_bit (N.shiftl a (N.of_nat (k + 1)))) with (N.shiftl a (N.of_nat k)); [done|].
  simpl. unfold crc_bit. rewrite Nat2N.inj_add, <- N.shiftl_shiftl.
  rewrite (N.shiftl_spec_low (N.shiftl a (N.of_nat k)) (N.of_nat 1) 0) by lia.
  change (N.of_nat 1) with 1. by rewrite N.shiftr_shiftl_l, N.sub_diag, N.shiftl_0_r.
Qed.

Lemma crc_iter8_shiftl a : Nat.iter 8 crc_bit (N.shiftl a 8) = a.
Proof. apply (crc_iter_shiftl 8 a). Qed.

Lemma split_low8 x : x = N.lxor (N.shiftl (N.shiftr x 8) 8) (N.land x 0xFF).
Proof.
  apply N.bits_inj. intros i. rewrite N.lxor_spec, N.land_spec.
  change 0xFF with (N.ones 8). destruct (N.lt_ge_cases i 8).
  - by rewrite N.shiftl_spec_low, N.ones_spec_low, andb_true_r by done.
  - rewrite N.shiftl_spec_high', N.shiftr_spec', N.ones_spec_high by done.
    rewrite N.sub_add by done. by rewrite andb_false_r, xorb_false_r.
Qed.

Lemma byte_bound b : Byte.to_N b < 2 ^ 8.
Proof. pose proof (Byte.to_N_bounded b). lia. Qed.

Lemma TABLE_get i : i < 256 -> tget TABLE i = Some (Nat.iter 8 crc_bit i).
Proof.
  intros. rewrite tget_lookup. unfold TABLE. rewrite list_lookup_fmap, lookup_seq_lt by lia.
  simpl. by rewrite N2Nat.id.
Qed.

Lemma land_FF_bound x : N.land x 0xFF < 256.
Proof. change 0xFF with (N.ones 8). rewrite N.land_ones. by apply N.mod_lt. Qed.

Lemma TABLE_in_range x : is_Some (tget TABLE (N.land x 0xFF)).
Proof. rewrite TABLE_get; [eauto | apply land_FF_bound]. Qed.

(** The table step is eight bit steps. *)
Lemma crc_byte_eq crc b : crc_byte crc b = crc_byte_bitwise crc b.
Proof.
  unfold crc_byte, crc_byte_bitwise. set (x := N.lxor crc (Byte.to_N b)).
  rewrite TABLE_get by apply land_FF_bound. rewrite (split_low8 x) at 2.
  rewrite crc_iter_lxor, crc_iter8_shiftl. simpl default.
  f_equal. unfold x. rewrite N.shiftr_lxor, (N.shiftr_div_pow2 (Byte.to_N b)).
  rewrite (N.div_small (Byte.to_N b)) by apply byte_bound. by rewrite N.lxor_0_r.
Qed.

(** C: the table-driven checksum computes the bit-at-a-time CRC-32C. *)
Lemma crc32c_table bs : crc32c bs = crc32c_bitwise bs.
Proof.
  unfold crc32c, crc32c_bitwise, crc32c_from. f_equal. generalize 0xFFFFFFFF.
  induction bs as [|b bs IH]; intros c; simpl; [done|]. by rewrite crc_byte_eq, IH.
Qed.

(** ** Range and injectivity *)

Lemma crc_bit_bound a : a < 2 ^ 32 -> crc_bit a < 2 ^ 32.
Proof.
  intros Ha. assert (Hs : N.shiftr a 1 < 2 ^ 32).
  { rewrite N.shiftr_div_pow2. apply N.Div0.div_lt_upper_bound. lia. }
  unfold crc_bit. destruct (N.testbit a 0); [|done].
  destruct (N.eq_0_gt_0_cases (N.lxor (N.shiftr a 1) POLYNOMIAL)) as [->|Hp]; [done|].
  apply N.log2_lt_pow2; [done|]. eapply N.le_lt_trans; [apply N.log2_lxor|].
  apply N.max_lub_lt; [|done].
  destruct (N.eq_0_gt_0_cases (N.shiftr a 1)) as [->|]; [done | by apply N.log2_lt_pow2].
Qed.

Lemma crc_iter_bound k a : a < 2 ^ 32 -> Nat.iter k crc_bit a < 2 ^ 32.
Proof. intros. induction k; simpl; auto using crc_bit_bound. Qed.

Lemma testbit_above a i : a < 2 ^ i -> N.testbit a i = false.
Proof. intros. rewrite N.testbit_eqb, N.div_small by done. done. Qed.

(** Bit 31 of the result says which way the step went. *)
Lemma crc_bit_31 a : a < 2 ^ 32 -> N.testbit (crc_bit a) 31 = N.testbit a 0.
Proof.
  intros Ha. assert (Hs : N.testbit (N.shiftr a 1) 31 = false).
  { apply testbit_above. rewrite N.shiftr_div_pow2. apply N.Div0.div_lt_upper_bound. done. }
  unfold crc_bit. destruct (N.testbit a 0); [|done]. by rewrite N.lxor_spec, Hs.
Qed.

Lemma crc_bit_inj a b : a < 2 ^ 32 -> b < 2 ^ 32 -> crc_bit a = crc_bit b -> a = b.
Proof.
  intros Ha Hb H. assert (H0 : N.testbit a 0 = N.testbit b 0) by (by rewrite <- !crc_bit_31, H).
  assert (Hs : N.shiftr a 1 = N.shiftr b 1).
  { unfold crc_bit in H. rewrite H0 in H. destruct (N.testbit b 0); [|done].
    apply (f_equal (fun x => N.lxor x POLYNOMIAL)) in H.
    by rewrite !N.lxor_assoc, !N.lxor_nilpotent, !N.lxor_0_r in H. }
  apply N.bits_inj. intros i. destruct (N.eq_dec i 0) as [->|]; [done|].
  replace i with (N.pred i + 1) by lia. by rewrite <- !N.shiftr_spec', Hs.
Qed.

Lemma crc_iter_inj k a b :
  a < 2 ^ 32 -> b < 2 ^ 32 -> Nat.iter k crc_bit a = Nat.iter k crc_bit b -> a = b.
Proof.
  intros Ha Hb. induction k as [|k IH]; simpl; [done|].
  intros H%crc_bit_inj; auto using crc_iter_bound.
Qed.

Lemma lxor_bound a b k : a < 2 ^ k -> b < 2 ^ k -> N.lxor a b < 2 ^ k.
Proof.
  intros Ha Hb. destruct (N.eq_0_gt_0_cases a) as [->|Ea]; [by rewrite N.lxor_0_l|].
  destruct (N.eq_0_gt_0_cases b) as [->|Eb]; [by rewrite N.lxor_0_r|].
  destruct (N.eq_0_gt_0_cases (N.lxor a b)) as [->|Hp]; [lia|].
  apply N.log2_lt_pow2; [done|]. eapply N.le_lt_trans; [apply N.log2_lxor|].
  apply N.max_lub_lt; by apply N.log2_lt_pow2.
Qed.

Lemma lxor_inj_l a b c : N.lxor a c = N.lxor b c -> a = b.
Proof.
  intros H%(f_equal (fun x => N.lxor x c)).
  by rewrite !N.lxor_assoc, !N.lxor_nilpotent, !N.lxor_0_r in H.
Qed.

Lemma crc32c_from_bound c bs : c < 2 ^ 32 -> crc32c_from c bs < 2 ^ 32.
Proof.
  unfold crc32c_from. revert c. induction bs as [|b bs IH]; intros c Hc; simpl; [done|].
  apply IH. rewrite crc_byte_eq. apply crc_iter_bound, lxor_bound; [done|].
  pose proof (byte_bound b). lia.
Qed.

Lemma crc32c_bound bs : crc32c bs <= U32_MAX.
Proof.
  assert (crc32c bs < 2 ^ 32); [|unfold U32_MAX; lia].
  apply lxor_bound; [by apply crc32c_from_bound | done].
Qed.

(** ** Burst detection *)

Lemma from_le_cons b bs : from_le (b :: bs) = N.lxor (Byte.to_N b) (N.shiftl (from_le bs) 8).
Proof.
  simpl from_le. replace (256 * from_le bs) with (N.shiftl (from_le bs) 8)
    by (rewrite N.shiftl_mul_pow2; lia).
  apply N.add_nocarry_lxor, N.bits_inj. intros i. rewrite N.land_spec, N.bits_0.
  destruct (N.lt_ge_cases i 8); [by rewrite N.shiftl_spec_low, andb_false_r|].
  rewrite testbit_above; [done|]. pose proof (byte_bound b).
  apply (N.lt_le_trans _ (2 ^ 8)); [done | by apply N.pow_le_mono_r].
Qed.

(** The state after a run of bytes is one polynomial step of state xor bytes. *)
Lemma crc32c_from_closed c bs :
  crc32c_from c bs = Nat.iter (8 * length bs) crc_bit (N.lxor c (from_le bs)).
Proof.
  unfold crc32c_from. revert c. induction bs as [|b bs IH]; intros c.
  - simpl. by rewrite N.lxor_0_r.
  - rewrite from_le_cons, <- N.lxor_assoc. simpl foldl. rewrite crc_byte_eq, IH.
    unfold crc_byte_bitwise. simpl length.
    replace (8 * S (length bs))%nat with (8 * length bs + 8)%nat by lia.
    rewrite crc_iter_add, (crc_iter_lxor 8 (N.lxor c (Byte.to_N b))).
    by rewrite crc_iter8_shiftl.
Qed.

Lemma to_le_from_le bs : to_le (length bs) (from_le bs) = bs.
Proof.
  induction bs as [|b bs IH]; [done|]. simpl to_le. simpl from_le.
  pose proof (byte_bound b) as Hb. change (2 ^ 8) with 256 in Hb. f_equal.
  - apply byte_to_N_inj. rewrite to_N_byte_of_N, (N.mul_comm 256), N.Div0.mod_add.
    by apply N.mod_small.
  - rewrite (N.mul_comm 256), N.div_add, N.div_small by done. apply IH.
Qed.

Lemma from_le_inj a b : length a = length b -> from_le a = from_le b -> a = b.
Proof. intros Hl H. by rewrite <- (to_le_from_le a), <- (to_le_from_le b), H, Hl. Qed.

Lemma from_le_lt32 bs : (length bs <= 4)%nat -> from_le bs < 2 ^ 32.
Proof.
  intros. eapply N.lt_le_trans; [apply from_le_bound|].
  change (2 ^ 32) with (256 ^ 4). apply N.pow_le_mono_r; [done|]. unfold lenN. lia.
Qed.

Lemma crc32c_from_inj_state a b bs :
  a < 2 ^ 32 -> b < 2 ^ 32 -> crc32c_from a bs = crc32c_from b bs -> a = b.
Proof.
  unfold crc32c_from. revert a b. induction bs as [|x bs IH]; intros a b Ha Hb; simpl; [done|].
  pose proof (byte_bound x). rewrite !crc_byte_eq. unfold crc_byte_bitwise.
  intros H'%IH; [|apply crc_iter_bound, lxor_bound; lia..].
  apply crc_iter_inj in H'; [|apply lxor_bound; lia..]. by apply lxor_inj_l in H'.
Qed.

Lemma crc32c_burst pre w1 w2 post :
  length w1 = length w2 -> (length w1 <= 4)%nat ->
  crc32c (pre ++ w1 ++ post) = crc32c (pre ++ w2 ++ post) -> w1 = w2.
Proof.
  intros Hlen H4 H%lxor_inj_l. unfold crc32c_from in H. rewrite !foldl_app in H.
  set (c := foldl crc_byte 0xFFFFFFFF pre) in H.
  assert (Hc : c < 2 ^ 32) by by apply crc32c_from_bound.
  apply (crc32c_from_inj_state _ _ post) in H; [|by apply crc32c_from_bound..].
  change (crc32c_from c w1 = crc32c_from c w2) in H. rewrite !crc32c_from_closed, Hlen in H.
  apply crc_iter_inj in H;
    [|apply lxor_bound; [done | apply from_le_lt32; lia]..].
  rewrite (N.lxor_comm c), (N.lxor_comm c) in H. apply lxor_inj_l in H. by apply from_le_inj.
Qed.

Example crc32c_check : crc32c (str "123456789") = 0xE3069283.
Proof. vm_compute. reflexivity. Qed.
