(* ===== verification/Chains.v ===== *)
(** * Intrusive chains

    The adjacency and attribution lists of a [Context] are singly linked chains
    threaded through a table: row [i] carries the index of its successor, and
    [NIL] ends the chain.  This file reasons about them on the bare list of
    links, so that one set of lemmas serves the three edge chains and the
    attribution chain. *)

From S2P Require Export Bytes.

Local Open Scope N_scope.

(** [const NIL: u32 = u32::MAX]. *)
Definition NIL : N := U32_MAX.

(** Follows links from [cur]; the fuel is only there for the recursion
    ([walk_chain] shows the table's length is enough). *)
Fixpoint walk (fuel : nat) (links : list N) (cur : N) : option (list N) :=
  if cur =? NIL then Some []
  else match fuel with
       | O => None
       | S fuel => nx ← tget links cur; rest ← walk fuel links nx; Some (cur :: rest)
       end.

(** [ids] is the chain that starts at [cur]. *)
Fixpoint chain_from (links : list N) (cur : N) (ids : list N) : Prop :=
  match ids with
  | [] => cur = NIL
  | i :: ids => cur = i /\ i <> NIL /\ exists nx, tget links i = Some nx /\ chain_from links nx ids
  end.

(** The stored tail of a chain. *)
Definition tail_of (ids : list N) : N := default NIL (last ids).

Section chain_lemmas.
Implicit Types links ids : list N.

Lemma chain_from_nil links ids : chain_from links NIL ids -> ids = [].
Proof. destruct ids; simpl; [done | by intros (<- & ? & _)]. Qed.

Lemma chain_from_head links cur ids :
  cur <> NIL -> chain_from links cur ids -> exists ids', ids = cur :: ids'.
Proof. destruct ids as [|i ids]; simpl; [done | intros _ (<- & _); eauto]. Qed.

Lemma chain_from_fun links cur ids ids' :
  chain_from links cur ids -> chain_from links cur ids' -> ids = ids'.
Proof.
  revert cur ids'. induction ids as [|i ids IH]; intros cur ids'; simpl.
  - by intros -> ?%chain_from_nil.
  - intros (-> & Hi & nx & Hnx & Hc) H'.
    destruct (chain_from_head _ _ _ Hi H') as [ids'' ->].
    destruct H' as (_ & _ & nx' & Hnx' & Hc'). simplify_eq. f_equal. eauto.
Qed.

Lemma chain_from_app links cur xs ys :
  chain_from links cur (xs ++ ys) ->
  exists mid, chain_from links mid ys /\
    forall links', (forall i, i ∈ xs -> tget links' i = tget links i) ->
    forall ys', chain_from links' mid ys' -> chain_from links' cur (xs ++ ys').
Proof.
  revert cur. induction xs as [|x xs IH]; intros cur; simpl.
  - intros H. exists cur. split; [done | intros; done].
  - intros (-> & Hx & nx & Hnx & (mid & Hmid & Hext)%IH).
    exists mid. split; [done|]. intros links' Heq ys' Hys.
    split; [done|]. split; [done|]. exists nx. split.
    + rewrite Heq; [done | set_solver].
    + apply Hext; [intros; apply Heq; set_solver | done].
Qed.

Lemma chain_from_suffix links cur xs ys :
  chain_from links cur (xs ++ ys) -> exists mid, chain_from links mid ys.
Proof. intros (mid & ? & _)%chain_from_app. eauto. Qed.

(** A chain that ends cannot repeat a row. *)
Lemma chain_from_NoDup links cur ids : chain_from links cur ids -> NoDup ids.
Proof.
  revert cur. induction ids as [|i ids IH]; intros cur; [constructor|].
  intros Hc. pose proof Hc as (-> & Hi & nx & Hnx & Hc'). constructor; [|eauto].
  intros (xs & ys & ->)%list_elem_of_split.
  destruct (chain_from_suffix links nx xs (i :: ys) Hc') as [mid Hmid].
  pose proof Hmid as (-> & _). pose proof (chain_from_fun _ _ _ _ Hc Hmid) as Heq.
  apply (f_equal length) in Heq. simpl in Heq. rewrite length_app in Heq. simpl in Heq. lia.
Qed.

Lemma chain_from_frame links links' cur ids :
  (forall i, i ∈ ids -> tget links' i = tget links i) ->
  chain_from links cur ids -> chain_from links' cur ids.
Proof.
  intros Heq Hc. rewrite <- (app_nil_r ids) in Hc |- *.
  apply chain_from_app in Hc as (mid & -> & Hext). by apply Hext.
Qed.

Lemma chain_from_lt links cur ids i : chain_from links cur ids -> i ∈ ids -> i < lenN links.
Proof.
  intros Hc (xs & ys & ->)%list_elem_of_split.
  apply chain_from_suffix in Hc as (mid & _ & _ & nx & Hnx & _). by eapply tget_Some_lt.
Qed.

Lemma chain_from_not_NIL links cur ids : chain_from links cur ids -> NIL ∉ ids.
Proof.
  intros Hc (xs & ys & ->)%list_elem_of_split.
  apply chain_from_suffix in Hc as (mid & _ & ? & _). done.
Qed.

Lemma chain_from_length links cur ids : chain_from links cur ids -> (length ids <= length links)%nat.
Proof.
  intros Hc. rewrite <- (indices_length links). apply submseteq_length, NoDup_submseteq.
  - by eapply chain_from_NoDup.
  - intros i Hi. apply elem_of_indices. by eapply chain_from_lt.
Qed.

(** The walk terminates on a chain, and returns exactly the chain. *)
Lemma walk_fuel fuel links cur ids :
  chain_from links cur ids -> (length ids <= fuel)%nat -> walk fuel links cur = Some ids.
Proof.
  revert fuel cur. induction ids as [|i ids IH]; intros fuel cur.
  - intros -> _. by destruct fuel.
  - intros (-> & Hi & nx & Hnx & Hc) Hl. destruct fuel as [|fuel]; simpl in *; [lia|].
    destruct (N.eqb_spec i NIL); [done|]. rewrite Hnx. simpl.
    rewrite (IH fuel nx Hc) by lia. done.
Qed.

Lemma walk_chain links cur ids :
  chain_from links cur ids -> walk (length links) links cur = Some ids.
Proof. intros Hc. eapply walk_fuel; [done | by eapply chain_from_length]. Qed.

Lemma walk_Some fuel links cur ids : walk fuel links cur = Some ids -> chain_from links cur ids.
Proof.
  revert cur ids. induction fuel as [|fuel IH]; intros cur ids; simpl;
    destruct (N.eqb_spec cur NIL) as [->|Hn]; try done; try by intros [= <-].
  destruct (tget links cur) as [nx|] eqn:E; simpl; [|done].
  destruct (walk fuel links nx) as [rest|] eqn:Ew; simpl; [|done].
  intros [= <-]. simpl. eauto 6.
Qed.

Lemma tail_of_snoc ids i : tail_of (ids ++ [i]) = i.
Proof. unfold tail_of. by rewrite last_snoc. Qed.

Lemma tail_of_nil_inv links cur ids : chain_from links cur ids -> tail_of ids = NIL -> ids = [].
Proof.
  intros Hc. destruct ids as [|x ids _] using rev_ind; [done|].
  rewrite tail_of_snoc. intros ->. destruct (chain_from_not_NIL _ _ _ Hc). set_solver.
Qed.

(** Appending a fresh row at the tail. *)
Lemma chain_from_snoc links cur ids :
  lenN links < NIL -> chain_from links cur ids ->
  chain_from
    ((if tail_of ids =? NIL then links else <[N.to_nat (tail_of ids) := lenN links]> links) ++ [NIL])
    (if tail_of ids =? NIL then lenN links else cur) (ids ++ [lenN links]).
Proof.
  intros Hlt Hc. destruct (N.eqb_spec (tail_of ids) NIL) as [Ht|Ht].
  - rewrite (tail_of_nil_inv _ _ _ Hc Ht). simpl. split; [done|]. split; [lia|].
    exists NIL. rewrite tget_snoc. done.
  - destruct ids as [|x ids _] using rev_ind; [done|]. rewrite tail_of_snoc in *.
    pose proof (chain_from_NoDup _ _ _ Hc) as Hnd.
    pose proof (fun i => chain_from_lt _ _ _ i Hc) as Hin.
    assert (Hx : x < lenN links) by (eapply chain_from_lt; [done | set_solver]).
    apply chain_from_app in Hc as (mid & (-> & Hx' & nx & Hnx & ->) & Hext).
    rewrite <- app_assoc. simpl. apply Hext.
    + intros i Hi. apply NoDup_app in Hnd as (_ & Hnd & _).
      assert (i <> x) by (intros ->; destruct (Hnd x Hi); set_solver).
      rewrite tget_app_l.
      * rewrite !tget_lookup. apply list_lookup_insert_ne. lia.
      * rewrite lenN_insert. apply Hin. set_solver.
    + simpl. split; [done|]. split; [done|]. exists (lenN links). split.
      * apply tget_app_mono. rewrite tget_lookup. apply list_lookup_insert_eq.
        unfold lenN in *. lia.
      * split; [done|]. split; [lia|]. exists NIL. split; [|done].
        apply tget_snoc_at. by rewrite lenN_insert.
Qed.

Lemma chain_from_last_lt links cur ids :
  chain_from links cur ids -> tail_of ids <> NIL -> tail_of ids < lenN links.
Proof.
  intros Hc. destruct ids as [|x ids _] using rev_ind; [done|]. rewrite tail_of_snoc.
  intros _. eapply chain_from_lt; [done | set_solver].
Qed.

(** Unlinking row [c]: the predecessor's link, or the head, skips over it. *)
Lemma chain_from_unlink links cur xs c ys nx :
  chain_from links cur (xs ++ c :: ys) -> tget links c = Some nx ->
  chain_from (match last xs with
              | Some p => <[N.to_nat p := nx]> links
              | None => links
              end) (match xs with [] => nx | _ => cur end) (xs ++ ys).
Proof.
  intros Hc Hnx. pose proof (chain_from_NoDup _ _ _ Hc) as Hnd.
  pose proof (fun i => chain_from_lt _ _ _ i Hc) as Hin.
  apply NoDup_app in Hnd as (Hndx & Hdis & Hndy). apply NoDup_cons in Hndy as [Hcy _].
  destruct xs as [|p xs _] using rev_ind.
  { apply chain_from_app in Hc as (mid & (_ & _ & nx' & ? & ?) & _). by simplify_eq. }
  rewrite last_snoc, <- (app_assoc xs [p]) in *. simpl in *.
  assert (Hhead : forall A (a b : A), match xs ++ [p] with [] => a | _ => b end = b)
    by by destruct xs.
  rewrite Hhead. apply NoDup_app in Hndx as (_ & Hpx & _).
  apply chain_from_app in Hc as (mid & (-> & Hp & nxp & Hnxp & _ & Hc0 & nxc & Hnxc & Hcy') & Hext).
  rewrite Hnx in Hnxc. injection Hnxc as <-.
  assert (Hpl : p < lenN links) by by eapply tget_Some_lt.
  apply Hext.
  - intros i Hi. assert (i <> p) by (intros ->; apply (Hpx p Hi); set_solver).
    rewrite !tget_lookup. apply list_lookup_insert_ne. lia.
  - simpl. split; [done|]. split; [done|]. exists nx. split.
    + rewrite tget_lookup. apply list_lookup_insert_eq. unfold lenN in *. lia.
    + eapply chain_from_frame; [|done]. intros i Hi.
      assert (i <> p) by (intros ->; apply (Hdis p); set_solver).
      rewrite !tget_lookup. apply list_lookup_insert_ne. lia.
Qed.

Lemma tail_of_unlink xs c ys links cur :
  chain_from links cur (xs ++ c :: ys) ->
  tail_of (xs ++ ys) = if tail_of (xs ++ c :: ys) =? c then tail_of xs else tail_of (xs ++ c :: ys).
Proof.
  intros Hnd%chain_from_NoDup.
  destruct ys as [|y ys _] using rev_ind.
  - by rewrite tail_of_snoc, N.eqb_refl, app_nil_r.
  - rewrite app_comm_cons, !app_assoc, !tail_of_snoc.
    apply NoDup_app in Hnd as (_ & _ & Hnd). apply NoDup_cons in Hnd as [Hc _].
    destruct (N.eqb_spec y c) as [->|]; [set_solver | done].
Qed.
End chain_lemmas.

(** ** The chains of one kind

    Every row [e] belongs to the owner [owners[e]], every owner has an anchor
    (head, tail, count), and the owner's chain holds exactly its rows. *)

Abbreviation anchor := (N * N * N)%type.

Definition chain_ok (links owners : list N) (o : N) (a : anchor) : Prop :=
  let '(first, last, count) := a in
  exists ids, chain_from links first ids /\ last = tail_of ids /\ count = lenN ids /\
    forall e, e ∈ ids <-> tget owners e = Some o.

Record chains_wf (links owners : list N) (anchors : list anchor) : Prop := {
  chains_length : length links = length owners;
  chains_owner : forall e o, tget owners e = Some o -> o < lenN anchors;
  chains_each : forall o a, tget anchors o = Some a -> chain_ok links owners o a
}.

(** What [append_to_chain] does to one anchor. *)
Definition anchor_append (a : anchor) (e : N) : anchor :=
  let '(first, last, count) := a in
  (if last =? NIL then e else first, e, (count + 1) mod (U32_MAX + 1)).

(** ... and to the links, once the new row is in the table. *)
Definition links_append (links : list N) (a : anchor) : list N :=
  let '(_, last, _) := a in
  (if last =? NIL then links else <[N.to_nat last := lenN links]> links) ++ [NIL].

Lemma chains_wf_nil : chains_wf [] [] [].
Proof. split; [done | |]; intros ? ?; by rewrite tget_lookup. Qed.

Lemma chains_wf_owner links owners anchors :
  chains_wf links owners anchors ->
  lenN anchors < NIL -> chains_wf links owners (anchors ++ [(NIL, NIL, 0)]).
Proof.
  intros [Hl Ho He] Hlt. split; [done| |].
  - intros e o ?%Ho. rewrite lenN_snoc. lia.
  - intros o a [Ha|[-> ->]]%tget_snoc_inv; [by apply He|].
    exists []. split; [done|]. split; [done|]. split; [done|].
    intros e. split; [by intros ?%elem_of_nil | intros ?%Ho; lia].
Qed.

Lemma chains_wf_append links owners anchors anchors' o a :
  chains_wf links owners anchors ->
  lenN links < NIL ->
  tget anchors o = Some a ->
  tupd anchors o (fun a => anchor_append a (lenN links)) = Some anchors' ->
  chains_wf (links_append links a) (owners ++ [o]) anchors'.
Proof.
  intros [Hl Ho He] Hlt Ha Hupd. destruct a as [[first last] count].
  assert (Hlen : lenN owners = lenN links) by (unfold lenN; lia).
  destruct (He o _ Ha) as (ids & Hc & -> & -> & Hids). split.
  - unfold links_append. rewrite !length_app. case_match; rewrite ?length_insert; simpl; lia.
  - intros e o' [?%Ho|[_ ->]]%tget_snoc_inv; rewrite (tupd_lenN _ _ _ _ Hupd); [done|].
    by eapply tget_Some_lt.
  - intros o' a'. rewrite (tupd_get _ _ _ _ o' Hupd). case_decide as Heq; [subst o'|].
    + rewrite Ha. intros [= <-]. exists (ids ++ [lenN links]).
      pose proof (chain_from_length _ _ _ Hc).
      split; [by apply chain_from_snoc|]. rewrite tail_of_snoc, lenN_snoc.
      split; [done|]. split; [apply N.mod_small; unfold NIL, lenN, U32_MAX in *; lia|].
      intros e. rewrite elem_of_app, Hids, list_elem_of_singleton. split.
      * intros [? | ->]; [by apply tget_app_mono | rewrite <- Hlen; apply tget_snoc].
      * intros [?|[-> _]]%tget_snoc_inv; [by left | right; done].
    + intros Ha'. destruct a' as [[f' l'] n']. destruct (He o' _ Ha') as (ids' & Hc' & -> & -> & Hids').
      exists ids'. split; [|split; [done|split; [done|]]].
      * eapply chain_from_frame; [|done]. intros i Hi.
        pose proof (chain_from_lt _ _ _ _ Hc' Hi) as Hil.
        unfold links_append. rewrite tget_app_l by (case_match; rewrite ?lenN_insert; done).
        case_match eqn:Et; [done|]. rewrite !tget_lookup. apply list_lookup_insert_ne.
        apply N.eqb_neq in Et. intros E. assert (tail_of ids = i) as Eti by lia.
        apply Hids' in Hi. enough (tail_of ids ∈ ids) as Ht.
        { apply Hids in Ht. rewrite Eti, Hi in Ht. congruence. }
        destruct ids as [|x ids _] using rev_ind; [done|]. rewrite tail_of_snoc. set_solver.
      * intros e. rewrite Hids'. split; [apply tget_app_mono|].
        intros [?|[_ ?]]%tget_snoc_inv; [done | by subst].
Qed.

(** The executable reading of one chain. *)
Lemma chains_walk links owners anchors o first last count :
  chains_wf links owners anchors -> tget anchors o = Some (first, last, count) ->
  exists ids, walk (length links) links first = Some ids /\ NoDup ids /\ count = lenN ids /\
    forall e, e ∈ ids <-> tget owners e = Some o.
Proof.
  intros [_ _ He] Ha. destruct (He o _ Ha) as (ids & Hc & _ & -> & Hids).
  exists ids. split; [by apply walk_chain|]. split; [by eapply chain_from_NoDup|]. done.
Qed.
