(* ===== verification/EntryIndex.v ===== *)
(** * The entry index ([src/context/entry_index.rs])

    Normalized spellings packed in one arena, with a character-bigram posting
    index over them: the derived structure behind [resolve].  Unicode case
    folding and NFKC come from tables outside the repository and are a
    parameter. *)

From S2P Require Export F64 Chains.

Local Open Scope N_scope.

(** [char::to_lowercase] and [UnicodeNormalization::nfkc]. *)
Class UnicodeTables := {
  to_lowercase : char -> list char;
  nfkc : list char -> list char
}.

(** [claim_id]: the next dense id, or a panic once only [NIL] is left. *)
Definition claim_id (len : N) : option N :=
  if (len <=? U32_MAX) && negb (len =? NIL) then Some len else None.

(** Katakana to hiragana. *)
Definition fold_kana (ch : char) : char :=
  if (0x30A1 <=? ch) && (ch <=? 0x30F6) then ch - 0x60 else ch.

Definition normalize `{UnicodeTables} (s : name) : name :=
  utf8_encode (fold_kana <$>
    mjoin (to_lowercase <$> nfkc (mjoin (to_lowercase <$> chars s)))).

(** Byte slice [arena[start..end]] of a string. *)
Definition slice (arena : bytes) (start fin : N) : bytes :=
  if (start <=? fin) && (fin <=? lenN arena)
  then take (N.to_nat (fin - start)) (drop (N.to_nat start) arena) else [].

Record EntrySpan := {
  sp_start : N;
  sp_end : N;
  sp_chars : N;
  sp_target : N
}.

Record EntryIndex := {
  ei_arena : name;
  ei_spans : list EntrySpan;
  ei_bigrams : gmap N (list N);
  ei_posting_entries : N
}.

Definition EntryIndex_default : EntryIndex :=
  {| ei_arena := []; ei_spans := []; ei_bigrams := ∅; ei_posting_entries := 0 |}.

(** [((a as u64) << 32).wrapping_add(b as u64)] over adjacent characters. *)
Definition pack_bigram (a b : char) : N := u64_add (N.shiftl a 32) b.

Definition bigrams_of (text : name) : list N :=
  zip_with pack_bigram (chars text) (drop 1 (chars text)).

(** One bigram of [push]: posted once per span. *)
Definition post_bigram (span_index : N) (st : gset N * gmap N (list N) * N) (bigram : N)
    : gset N * gmap N (list N) * N :=
  let '(seen, postings, entries) := st in
  if decide (bigram ∈ seen) then st
  else ({[bigram]} ∪ seen,
        <[bigram := default [] (postings !! bigram) ++ [span_index]]> postings,
        entries + 1).

Definition ei_push `{UnicodeTables} (idx : EntryIndex) (spelling : name) (target : N)
    : option EntryIndex :=
  let normalized := normalize spelling in
  span_index ← claim_id (lenN (ei_spans idx));
  let start := lenN (ei_arena idx) in
  let arena := ei_arena idx ++ normalized in
  let '(_, postings, entries) :=
    foldl (post_bigram span_index) (∅, ei_bigrams idx, ei_posting_entries idx)
      (bigrams_of normalized) in
  Some {| ei_arena := arena;
          ei_spans := ei_spans idx ++
            [{| sp_start := start; sp_end := lenN arena;
                sp_chars := lenN (chars normalized); sp_target := target |}];
          ei_bigrams := postings;
          ei_posting_entries := entries |}.

(** The spellings the index holds, with their targets, in push order. *)
Definition ei_entries (idx : EntryIndex) : list (name * N) :=
  (fun sp => (slice (ei_arena idx) (sp_start sp) (sp_end sp), sp_target sp)) <$> ei_spans idx.

(** How a cue met a spelling. *)
Inductive MatchKind := Exact | Alias | Containment | Fuzzy.

#[export] Instance MatchKind_eq_dec : EqDecision MatchKind.
Proof. solve_decision. Defined.

(** [str::contains]: some suffix starts with the needle. *)
Fixpoint contains (haystack needle : bytes) : bool :=
  bool_decide (needle `prefix_of` haystack) ||
  match haystack with [] => false | _ :: h => contains h needle end.

Definition scores := gmap N (f64 * MatchKind).

(** The [record] closure of [resolve]: a target keeps its best score. *)
Definition record_score (best : scores) (target : N) (score : f64) (kind : MatchKind) : scores :=
  let slot := default (0%float, kind) (best !! target) in
  <[target := if (slot.1 <? score)%float then (score, kind) else slot]> best.

(** The containment tier, one span. *)
Definition contain_span (idx : EntryIndex) (needle : name)
    (st : scores * gset N * bool) (p : N * EntrySpan) : scores * gset N * bool :=
  let '(best, contained, exact) := st in
  let '(span_index, span) := p in
  let haystack := slice (ei_arena idx) (sp_start span) (sp_end span) in
  if bool_decide (haystack = []) then st
  else if bool_decide (haystack = needle) then
    (record_score best (sp_target span) 1%float Exact, {[span_index]} ∪ contained, true)
  else if contains haystack needle || contains needle haystack then
    let shorter := N.min (lenN (chars needle)) (sp_chars span) in
    let longer := N.max (lenN (chars needle)) (sp_chars span) in
    (record_score best (sp_target span) (f64_of_N shorter / f64_of_N longer)%float Containment,
     {[span_index]} ∪ contained, exact)
  else st.

Definition stop_gram (idx : EntryIndex) : N := N.max (lenN (ei_spans idx) / 20) 64.

Definition is_stop (idx : EntryIndex) (bigram : N) : bool :=
  match ei_bigrams idx !! bigram with
  | Some postings => stop_gram idx <? lenN postings
  | None => false
  end.

(** How many informative needle bigrams each uncontained span shares. *)
Definition shared_counts (idx : EntryIndex) (contained : gset N) (needle_bigrams : gset N)
    : gmap N N :=
  foldl (fun acc bigram =>
    match ei_bigrams idx !! bigram with
    | Some postings =>
      if lenN postings <=? stop_gram idx then
        foldl (fun acc span_index =>
          if decide (span_index ∈ contained) then acc
          else <[span_index := default 0 (acc !! span_index) + 1]> acc) acc postings
      else acc
    | None => acc
    end) ∅ (elements needle_bigrams).

Definition informative (idx : EntryIndex) (bigrams : list N) : gset N :=
  list_to_set (filter (fun b => is_stop idx b = false) bigrams).

Definition dice_score (count a b : N) : f64 :=
  (2 * f64_of_N count / f64_of_N (a + b))%float.

(** The fuzzy tier, one candidate span.  A posting list names only spans of the
    index ([posted_lt]), so the lookup never misses. *)
Definition fuzzy_span (idx : EntryIndex) (informative_needle : N) (dice_floor : f64)
    (best : scores) (p : N * N) : scores :=
  let '(span_index, count) := p in
  match tget (ei_spans idx) span_index with
  | None => best
  | Some span =>
    let text := slice (ei_arena idx) (sp_start span) (sp_end span) in
    let informative_span := informative idx (bigrams_of text) in
    if decide (informative_span = ∅) then best
    else
      let dice := dice_score count informative_needle (N.of_nat (size informative_span)) in
      if (dice_floor <=? dice)%float then record_score best (sp_target span) dice Fuzzy else best
  end.

Definition ei_resolve `{UnicodeTables} (idx : EntryIndex) (cue : name) (dice_floor : f64) : scores :=
  let needle := normalize cue in
  if bool_decide (needle = []) then ∅
  else
    let '(best, contained, exact) :=
      foldl (contain_span idx needle) (∅, ∅, false) (zip (indices (ei_spans idx)) (ei_spans idx)) in
    if exact then best
    else
      let needle_bigrams : gset N := list_to_set (bigrams_of needle) in
      let informative_needle := N.of_nat (size (informative idx (elements needle_bigrams))) in
      foldl (fuzzy_span idx informative_needle dice_floor) best
        (map_to_list (shared_counts idx contained needle_bigrams)).

(** ** Pushing *)

Definition ei_wf (idx : EntryIndex) : Prop :=
  Forall (fun sp => sp_start sp <= sp_end sp /\ sp_end sp <= lenN (ei_arena idx)) (ei_spans idx).

Lemma slice_app_l arena x start fin :
  fin <= lenN arena -> slice (arena ++ x) start fin = slice arena start fin.
Proof.
  intros Hf. unfold slice. rewrite lenN_app.
  destruct (N.leb_spec start fin), (N.leb_spec fin (lenN arena)); simpl; try lia; [|done].
  destruct (N.leb_spec fin (lenN arena + lenN x)); [|lia].
  unfold lenN in *. rewrite skipn_app, take_app_le; [done|]. rewrite length_drop. lia.
Qed.

Lemma slice_snoc arena x : slice (arena ++ x) (lenN arena) (lenN (arena ++ x)) = x.
Proof.
  unfold slice. rewrite lenN_app.
  destruct (N.leb_spec (lenN arena) (lenN arena + lenN x)); [|lia].
  rewrite N.leb_refl. simpl. unfold lenN. rewrite Nat2N.id, drop_app_length.
  apply take_ge. lia.
Qed.

Section entry_index.
Context `{UnicodeTables}.

Lemma ei_push_total idx spelling target :
  lenN (ei_spans idx) < NIL -> exists idx', ei_push idx spelling target = Some idx'.
Proof.
  intros Hlt. unfold ei_push, claim_id.
  destruct (N.leb_spec (lenN (ei_spans idx)) U32_MAX); [|unfold NIL in *; lia].
  destruct (N.eqb_spec (lenN (ei_spans idx)) NIL); [lia|]. simpl.
  destruct (foldl _ _ _) as [[??]?]. eauto.
Qed.

(** Pushing adds exactly the normalized spelling, at the end. *)
Lemma ei_push_entries idx idx' spelling target :
  ei_wf idx -> ei_push idx spelling target = Some idx' ->
  ei_wf idx' /\ ei_entries idx' = ei_entries idx ++ [(normalize spelling, target)] /\
  lenN (ei_spans idx') = lenN (ei_spans idx) + 1.
Proof.
  intros Hwf. unfold ei_push. destruct (claim_id _); simpl; [|done].
  destruct (foldl _ _ _) as [[??]?]. intros [= <-]. unfold ei_wf, ei_entries; simpl.
  rewrite lenN_snoc. split; [|split; [|done]].
  - apply Forall_app. split.
    + eapply Forall_impl; [done|]. simpl. intros sp. rewrite lenN_app. lia.
    + apply Forall_singleton. simpl. rewrite lenN_app. lia.
  - rewrite fmap_app. simpl. rewrite slice_snoc. f_equal.
    apply list_fmap_ext. intros i sp Hsp. rewrite slice_app_l; [done|].
    eapply Forall_lookup_1 in Hwf; [|done]. lia.
Qed.

Lemma ei_wf_default : ei_wf EntryIndex_default.
Proof. constructor. Qed.
End entry_index.

(** A concrete table for evaluation: ASCII lower-casing, no normalization. *)
Definition ascii_tables : UnicodeTables := {|
  to_lowercase ch := [if (65 <=? ch) && (ch <=? 90) then ch + 32 else ch];
  nfkc text := text
|}.

(** * The posting lists of the entry index

    [EntryIndex::push] keeps, for every bigram, the spans whose normalized form
    holds it, each span once and in span order.  An index built by pushes is
    determined by the list of normalized spellings and their targets. *)

(** The spans whose text holds a bigram. *)
Definition posted (texts : list name) (b : N) : list N :=
  omap (fun p => if decide (b ∈ bigrams_of p.2) then Some p.1 else None) (zip (indices texts) texts).

(** What an index says, span by span and bigram by bigram. *)
Record ei_holds (idx : EntryIndex) (es : list (name * N)) : Prop := {
  holds_wf : ei_wf idx;
  holds_entries : ei_entries idx = es;
  holds_chars : Forall (fun sp =>
    sp_chars sp = lenN (chars (slice (ei_arena idx) (sp_start sp) (sp_end sp)))) (ei_spans idx);
  holds_postings : forall b, default [] (ei_bigrams idx !! b) = posted es.*1 b
}.

(** The index agrees with the spellings it holds. *)
Definition ei_ok (idx : EntryIndex) : Prop := ei_holds idx (ei_entries idx).

(** ** Posted spans *)

Lemma indexed_snoc {A} (l : list A) x :
  zip (indices (l ++ [x])) (l ++ [x]) = zip (indices l) l ++ [(lenN l, x)].
Proof. rewrite indices_snoc, zip_with_app by apply indices_length. done. Qed.

Lemma elem_of_indexed {A} (l : list A) i x : (i, x) ∈ zip (indices l) l <-> tget l i = Some x.
Proof.
  induction l as [|y l IH] using rev_ind.
  - split; [intros Hi; simpl in Hi; set_solver | intros Hl; apply tget_Some_lt in Hl; unfold lenN in Hl; simpl in Hl; lia].
  - rewrite indexed_snoc, elem_of_app, list_elem_of_singleton, IH. split.
    + intros [Hl|[= -> ->]]; [|apply tget_snoc]. rewrite tget_app_l; [done | by eapply tget_Some_lt].
    + intros [Hl|[-> ->]]%tget_snoc_inv; auto.
Qed.

Lemma posted_snoc ts t b :
  posted (ts ++ [t]) b = posted ts b ++ (if decide (b ∈ bigrams_of t) then [lenN ts] else []).
Proof.
  unfold posted. rewrite indexed_snoc, omap_app. f_equal. simpl.
  by destruct (decide _).
Qed.

Lemma elem_of_posted ts b i : i ∈ posted ts b <-> exists t, tget ts i = Some t /\ b ∈ bigrams_of t.
Proof.
  unfold posted. rewrite list_elem_of_omap. split.
  - intros ([j t] & Hin%elem_of_indexed & Hd). simpl in Hd. destruct (decide _); [|done].
    injection Hd as <-. eauto.
  - intros (t & Hl & Hb). exists (i, t). split; [by apply elem_of_indexed|]. simpl.
    by rewrite decide_True.
Qed.

Lemma posted_lt ts b i : i ∈ posted ts b -> i < lenN ts.
Proof. intros (t & Hl & _)%elem_of_posted. by eapply tget_Some_lt. Qed.

Lemma NoDup_posted ts b : NoDup (posted ts b).
Proof.
  induction ts as [|t ts IH] using rev_ind; [constructor|]. rewrite posted_snoc.
  destruct (decide _); [|by rewrite app_nil_r]. apply NoDup_app. split; [done|].
  split; [|apply NoDup_singleton]. intros i Hi ->%list_elem_of_singleton. apply posted_lt in Hi. lia.
Qed.

Lemma posted_sorted ts b : StronglySorted N.lt (posted ts b).
Proof.
  induction ts as [|t ts IH] using rev_ind; [constructor|]. rewrite posted_snoc.
  destruct (decide _); [|by rewrite app_nil_r]. apply StronglySorted_app_2; [|done|repeat constructor].
  intros i j Hi ->%list_elem_of_singleton. by apply posted_lt in Hi.
Qed.

(** ** Pushing *)

Lemma post_bigrams span bs : forall seen postings entries seen' postings' entries',
  foldl (post_bigram span) (seen, postings, entries) bs = (seen', postings', entries') ->
  forall b, default [] (postings' !! b) =
    default [] (postings !! b) ++ (if decide (b ∈ bs /\ b ∉ seen) then [span] else []).
Proof.
  induction bs as [|b0 bs IH]; intros seen ps n seen' ps' n'.
  - intros [= <- <- <-] b. rewrite decide_False by (intros [?%not_elem_of_nil _]; done). by rewrite app_nil_r.
  - simpl foldl. destruct (decide (b0 ∈ seen)) as [Hs|Hs]; intros Hf b; rewrite (IH _ _ _ _ _ _ Hf b).
    + f_equal. apply decide_ext. rewrite elem_of_cons. naive_solver.
    + destruct (decide (b = b0)) as [->|Hne].
      * rewrite lookup_insert_eq. simpl. rewrite (decide_False (P := _ /\ _)) by set_solver.
        rewrite (decide_True (P := _ /\ _)) by set_solver. by rewrite app_nil_r.
      * rewrite lookup_insert_ne by done. f_equal. apply decide_ext. set_solver.
Qed.

Section pushing.
Context `{UnicodeTables}.

Lemma ei_holds_default : ei_holds EntryIndex_default [].
Proof.
  split; [apply ei_wf_default | done | constructor | intros b; done].
Qed.

Lemma ei_push_holds idx es spelling target idx' :
  ei_holds idx es -> ei_push idx spelling target = Some idx' ->
  ei_holds idx' (es ++ [(normalize spelling, target)]).
Proof.
  intros [Hwf Hes Hch Hps] Hp. destruct (ei_push_entries _ _ _ _ Hwf Hp) as (Hwf' & Hes' & Hlen).
  split; [done | by rewrite Hes', Hes | |]; revert Hp; unfold ei_push, claim_id;
    (destruct (_ && _) eqn:Hc; cbn [mbind option_bind]; [|done]);
    destruct (foldl _ _ _) as [[seen ps] n] eqn:Hf; intros [= <-]; cbn [ei_arena ei_spans ei_bigrams] in *.
  - apply Forall_app. split.
    + apply Forall_forall. intros sp Hsp. rewrite slice_app_l by apply (proj1 (Forall_forall _ _) Hwf sp Hsp).
      by eapply Forall_forall in Hch.
    + apply Forall_singleton. cbn [sp_chars sp_start sp_end]. by rewrite slice_snoc.
  - intros b. rewrite (post_bigrams _ _ _ _ _ _ _ _ Hf b), Hps, fmap_app. cbn [fmap list_fmap fst].
    rewrite posted_snoc. f_equal. replace (lenN (ei_spans idx)) with (lenN es.*1)
      by (rewrite <- Hes; unfold lenN, ei_entries; by rewrite !length_fmap).
    destruct (decide (b ∈ bigrams_of (normalize spelling))) as [Hb|Hb].
    + by rewrite decide_True by set_solver.
    + rewrite decide_False; [done | naive_solver].
Qed.

Lemma ei_ok_default : ei_ok EntryIndex_default.
Proof. apply ei_holds_default. Qed.

Lemma ei_push_ok idx idx' spelling target :
  ei_ok idx -> ei_push idx spelling target = Some idx' ->
  ei_ok idx' /\ ei_entries idx' = ei_entries idx ++ [(normalize spelling, target)] /\
  lenN (ei_spans idx') = lenN (ei_spans idx) + 1.
Proof.
  intros Hok Hp. destruct (ei_push_entries _ _ _ _ (holds_wf _ _ Hok) Hp) as (_ & He & Hl).
  split; [|done]. unfold ei_ok. rewrite He. by eapply ei_push_holds.
Qed.
End pushing.
