(* ===== verification/Graph.v ===== *)
(** * The association graph: state ([src/context.rs])

    The nine flat buffers of a [Context], its derived indexes and counters, the
    interning of names, the chain walks and the materialization of one edge. *)

From S2P Require Export EntryIndex.

Local Open Scope N_scope.

(** Dense ids, all [u32]. *)
Abbreviation ConceptId := N.
Abbreviation LabelId := N.
Abbreviation SourceId := N.
Abbreviation EdgeId := N.
Abbreviation AttributionId := N.

(** A table of [len] records can still mint [needed] ids. *)
Definition ids_left (len needed : N) : bool := needed <=? NIL - len.

(** The arena can grow with every offset still a [u32]. *)
Definition arena_fits (len growth : N) : bool :=
  match checked_add USIZE_MAX len growth with
  | Some fin => fin <=? U32_MAX
  | None => false
  end.

Definition dead_ratio_of (dead_edges total_edges : N) : f64 :=
  if total_edges =? 0 then 0%float else (f64_of_N dead_edges / f64_of_N total_edges)%float.

(** [ContextFull(&'static str)]. *)
Inductive ContextFull :=
  | full_concepts | full_labels | full_sources | full_edges | full_attributions
  | full_arena | full_concept_aliases | full_label_aliases.

Inductive AliasError := UnknownCanonical | Conflict | Full (full : ContextFull).

Record CompactionStats := { cs_dead_edges : N; cs_aliases_dropped : N }.

Inductive CompactionError := CompactionFull (full : ContextFull) | DeadlineExceeded.

(** [UNSOURCED_SOURCE]. *)
Definition UNSOURCED_SOURCE : name := str "export:unsourced".

(** ** Records *)

Record ConceptRecord := {
  c_name_offset : N; c_name_len : N;
  c_first_outgoing : EdgeId; c_last_outgoing : EdgeId; c_outgoing_count : N;
  c_first_incoming : EdgeId; c_last_incoming : EdgeId; c_incoming_count : N
}.

Record LabelRecord := {
  l_name_offset : N; l_name_len : N;
  l_first_edge : EdgeId; l_last_edge : EdgeId; l_edge_count : N
}.

Record SourceRecord := { s_name_offset : N; s_name_len : N }.

Record AliasRecord := { a_name_offset : N; a_name_len : N; a_target : N }.

Record EdgeRecord := {
  e_subject : ConceptId; e_label : LabelId; e_object : ConceptId;
  e_next_outgoing : EdgeId; e_next_incoming : EdgeId; e_next_labeled : EdgeId;
  e_first_attribution : AttributionId; e_last_attribution : AttributionId;
  e_count : N; e_sum : f64
}.

Record AttributionRecord := {
  t_source : SourceId; t_next : AttributionId; t_count : N; t_sum : f64
}.

Record AttributionLocatorRecord := { k_attribution : AttributionId; k_paragraph : N }.

(** What the read API materializes. *)
Record Attribution := {
  att_source : name; att_weight : f64; att_count : N; att_paragraph : option N
}.

Record Association := {
  as_subject : name; as_label : name; as_object : name;
  as_weight : f64; as_count : N; as_attributions : list Attribution
}.

Record Context := {
  arena : bytes;
  concepts : list ConceptRecord;
  labels : list LabelRecord;
  sources : list SourceRecord;
  edges : list EdgeRecord;
  attributions : list AttributionRecord;
  concept_aliases : list AliasRecord;
  label_aliases : list AliasRecord;
  attribution_locators : list AttributionLocatorRecord;
  (* derived indexes, not persisted *)
  concept_ids : gmap name ConceptId;
  label_ids : gmap name LabelId;
  source_ids : gmap name SourceId;
  concept_alias_index : gmap name ConceptId;
  label_alias_index : gmap name LabelId;
  label_name_index : gset name;
  edge_ids : gmap (ConceptId * LabelId * ConceptId) EdgeId;
  attribution_ids : gmap (EdgeId * SourceId) AttributionId;
  source_edges : gmap SourceId (list EdgeId);
  concept_index : EntryIndex;
  label_index : EntryIndex;
  (* configuration, watermark, counters *)
  dice_floor : option f64;
  applied_seq : N;
  dead_edges : N;
  dead_attributions : N;
  arena_slack : N
}.

Definition Context_default : Context := {|
  arena := []; concepts := []; labels := []; sources := []; edges := []; attributions := [];
  concept_aliases := []; label_aliases := []; attribution_locators := [];
  concept_ids := ∅; label_ids := ∅; source_ids := ∅;
  concept_alias_index := ∅; label_alias_index := ∅; label_name_index := ∅;
  edge_ids := ∅; attribution_ids := ∅; source_edges := ∅;
  concept_index := EntryIndex_default; label_index := EntryIndex_default;
  dice_floor := None; applied_seq := 0; dead_edges := 0; dead_attributions := 0; arena_slack := 0
|}.

(** ** Field updates *)

Definition Context_eta (c : Context) : Context := {|
  arena := arena c; concepts := concepts c; labels := labels c; sources := sources c;
  edges := edges c; attributions := attributions c; concept_aliases := concept_aliases c;
  label_aliases := label_aliases c; attribution_locators := attribution_locators c;
  concept_ids := concept_ids c; label_ids := label_ids c; source_ids := source_ids c;
  concept_alias_index := concept_alias_index c; label_alias_index := label_alias_index c;
  label_name_index := label_name_index c; edge_ids := edge_ids c;
  attribution_ids := attribution_ids c; source_edges := source_edges c;
  concept_index := concept_index c; label_index := label_index c; dice_floor := dice_floor c;
  applied_seq := applied_seq c; dead_edges := dead_edges c;
  dead_attributions := dead_attributions c; arena_slack := arena_slack c
|}.

Ltac with_field f v c :=
  let b := eval cbv beta delta [Context_eta] in (Context_eta c) in
  match b with context C [f c] => let t := context C [v] in exact t end.

Definition set_arena v (c : Context) : Context := ltac:(with_field arena v c).
Definition set_concepts v (c : Context) : Context := ltac:(with_field concepts v c).
Definition set_labels v (c : Context) : Context := ltac:(with_field labels v c).
Definition set_sources v (c : Context) : Context := ltac:(with_field sources v c).
Definition set_edges v (c : Context) : Context := ltac:(with_field edges v c).
Definition set_attributions v (c : Context) : Context := ltac:(with_field attributions v c).
Definition set_concept_aliases v (c : Context) : Context := ltac:(with_field concept_aliases v c).
Definition set_label_aliases v (c : Context) : Context := ltac:(with_field label_aliases v c).
Definition set_locators v (c : Context) : Context := ltac:(with_field attribution_locators v c).
Definition set_concept_ids v (c : Context) : Context := ltac:(with_field concept_ids v c).
Definition set_label_ids v (c : Context) : Context := ltac:(with_field label_ids v c).
Definition set_source_ids v (c : Context) : Context := ltac:(with_field source_ids v c).
Definition set_concept_alias_index v (c : Context) : Context :=
  ltac:(with_field concept_alias_index v c).
Definition set_label_alias_index v (c : Context) : Context :=
  ltac:(with_field label_alias_index v c).
Definition set_label_name_index v (c : Context) : Context := ltac:(with_field label_name_index v c).
Definition set_edge_ids v (c : Context) : Context := ltac:(with_field edge_ids v c).
Definition set_attribution_ids v (c : Context) : Context := ltac:(with_field attribution_ids v c).
Definition set_source_edges v (c : Context) : Context := ltac:(with_field source_edges v c).
Definition set_concept_index v (c : Context) : Context := ltac:(with_field concept_index v c).
Definition set_label_index v (c : Context) : Context := ltac:(with_field label_index v c).
Definition set_dice_floor_field v (c : Context) : Context := ltac:(with_field dice_floor v c).
Definition set_applied_seq v (c : Context) : Context := ltac:(with_field applied_seq v c).
Definition set_dead_edges v (c : Context) : Context := ltac:(with_field dead_edges v c).
Definition set_dead_attributions v (c : Context) : Context :=
  ltac:(with_field dead_attributions v c).
Definition set_arena_slack v (c : Context) : Context := ltac:(with_field arena_slack v c).

(** ** Names in the arena *)

(** One interned string: the range must lie in the arena and hold UTF-8.
    [arena_str] panics otherwise; [checked_arena_str] reports which test
    failed ([Image]). *)
Definition name_at (arena : bytes) (offset len : N) : option name :=
  if offset + len <=? lenN arena then
    let bytes := slice arena offset (offset + len) in
    if utf8_valid bytes then Some bytes else None
  else None.

Definition arena_str (c : Context) (offset len : N) : option name := name_at (arena c) offset len.

Definition concept_name (c : Context) (id : ConceptId) : option name :=
  record ← tget (concepts c) id; arena_str c (c_name_offset record) (c_name_len record).
Definition label_name (c : Context) (id : LabelId) : option name :=
  record ← tget (labels c) id; arena_str c (l_name_offset record) (l_name_len record).
Definition source_name (c : Context) (id : SourceId) : option name :=
  record ← tget (sources c) id; arena_str c (s_name_offset record) (s_name_len record).

(** [intern_name]: appends the bytes; panics past the offset space. *)
Definition intern_name (arena : bytes) (name : name) : option (bytes * (N * N)) :=
  let offset := lenN arena in
  fin ← checked_add USIZE_MAX offset (lenN name);
  if fin <=? U32_MAX then Some (arena ++ name, (offset, lenN name)) else None.

Section intern.
Context `{UnicodeTables}.

Definition intern_concept (name : name) (c : Context) : option (ConceptId * Context) :=
  match concept_ids c !! name with
  | Some id => Some (id, c)
  | None =>
    id ← claim_id (lenN (concepts c));
    '(arena', (name_offset, name_len)) ← intern_name (arena c) name;
    let record := {| c_name_offset := name_offset; c_name_len := name_len;
      c_first_outgoing := NIL; c_last_outgoing := NIL; c_outgoing_count := 0;
      c_first_incoming := NIL; c_last_incoming := NIL; c_incoming_count := 0 |} in
    index ← ei_push (concept_index c) name id;
    Some (id, set_concept_ids (<[name := id]> (concept_ids c))
               (set_concept_index index
               (set_concepts (concepts c ++ [record])
               (set_arena arena' c))))
  end.

Definition intern_label (name : name) (c : Context) : option (LabelId * Context) :=
  match label_ids c !! name with
  | Some id => Some (id, c)
  | None =>
    id ← claim_id (lenN (labels c));
    '(arena', (name_offset, name_len)) ← intern_name (arena c) name;
    let record := {| l_name_offset := name_offset; l_name_len := name_len;
      l_first_edge := NIL; l_last_edge := NIL; l_edge_count := 0 |} in
    index ← ei_push (label_index c) name id;
    Some (id, set_label_ids (<[name := id]> (label_ids c))
               (set_label_name_index ({[name]} ∪ label_name_index c)
               (set_label_index index
               (set_labels (labels c ++ [record])
               (set_arena arena' c)))))
  end.
End intern.

Definition intern_source (name : name) (c : Context) : option (SourceId * Context) :=
  match source_ids c !! name with
  | Some id => Some (id, c)
  | None =>
    id ← claim_id (lenN (sources c));
    '(arena', (name_offset, name_len)) ← intern_name (arena c) name;
    let record := {| s_name_offset := name_offset; s_name_len := name_len |} in
    Some (id, set_source_ids (<[name := id]> (source_ids c))
               (set_sources (sources c ++ [record])
               (set_arena arena' c)))
  end.

(** ** Chains *)

(** [edge_chain]: the iterator, run to its end. *)
Definition edge_chain (c : Context) (first : EdgeId) (follow : EdgeRecord -> EdgeId)
    : option (list EdgeId) :=
  walk (length (edges c)) (follow <$> edges c) first.

Definition outgoing (c : Context) (concept : ConceptId) : option (list EdgeId) :=
  record ← tget (concepts c) concept; edge_chain c (c_first_outgoing record) e_next_outgoing.
Definition incoming (c : Context) (concept : ConceptId) : option (list EdgeId) :=
  record ← tget (concepts c) concept; edge_chain c (c_first_incoming record) e_next_incoming.
Definition labeled (c : Context) (label : LabelId) : option (list EdgeId) :=
  record ← tget (labels c) label; edge_chain c (l_first_edge record) e_next_labeled.

(** [attribution_chain]: ids paired with their records. *)
Definition attribution_chain (c : Context) (first : AttributionId)
    : option (list (AttributionId * AttributionRecord)) :=
  ids ← walk (length (attributions c)) (t_next <$> attributions c) first;
  mapM (fun id => record ← tget (attributions c) id; Some (id, record)) ids.

(** [locator_for]: the binary search over the table sorted by attribution finds
    the one row with that key, if there is one ([find] computes the same under
    the sortedness invariant; [locator_unique]). *)
Fixpoint binary_search (fuel : nat) (table : list AttributionLocatorRecord)
    (lo hi : N) (key : AttributionId) : option N :=
  match fuel with
  | O => None
  | S fuel =>
    if hi <=? lo then None
    else
      let mid := lo + (hi - lo) / 2 in
      match tget table mid with
      | None => None
      | Some record =>
        match k_attribution record ?= key with
        | Eq => Some mid
        | Lt => binary_search fuel table (mid + 1) hi key
        | Gt => binary_search fuel table lo mid key
        end
      end
  end.

Definition locator_for (c : Context) (attribution : AttributionId) : option N :=
  let table := attribution_locators c in
  index ← binary_search (S (length table)) table 0 (lenN table) attribution;
  k_paragraph <$> tget table index.

Definition edge_weight (sum : f64) (count : N) : f64 :=
  if count =? 0 then 0%float else (sum / f64_of_N count)%float.

Definition attribution_of (c : Context) (p : AttributionId * AttributionRecord)
    : option Attribution :=
  source ← source_name c (t_source p.2);
  Some {| att_source := source; att_weight := t_sum p.2; att_count := t_count p.2;
          att_paragraph := locator_for c p.1 |}.

(** [association]: one edge as owned strings. *)
Definition association (c : Context) (edge_id : EdgeId) : option Association :=
  edge ← tget (edges c) edge_id;
  subject ← concept_name c (e_subject edge);
  label ← label_name c (e_label edge);
  object ← concept_name c (e_object edge);
  chain ← attribution_chain c (e_first_attribution edge);
  attributions ← mapM (attribution_of c) chain;
  Some {| as_subject := subject; as_label := label; as_object := object;
          as_weight := edge_weight (e_sum edge) (e_count edge);
          as_count := e_count edge; as_attributions := attributions |}.

(** [append_to_chain]: the anchor's tail moves to [edge_id], and either the head
    or the old tail's link names it. *)
Definition append_to_chain (edges : list EdgeRecord) (a : anchor) (edge_id : EdgeId)
    (set_next : EdgeId -> EdgeRecord -> EdgeRecord) : option (list EdgeRecord * anchor) :=
  let '(first, last, count) := a in
  let count := (count + 1) mod (U32_MAX + 1) in
  if last =? NIL then Some (edges, (edge_id, edge_id, count))
  else
    edges' ← tupd edges last (set_next edge_id);
    Some (edges', (first, edge_id, count)).

(** The three link fields, and their updates. *)
Definition set_next_outgoing (n : EdgeId) (e : EdgeRecord) : EdgeRecord :=
  {| e_subject := e_subject e; e_label := e_label e; e_object := e_object e;
     e_next_outgoing := n; e_next_incoming := e_next_incoming e;
     e_next_labeled := e_next_labeled e; e_first_attribution := e_first_attribution e;
     e_last_attribution := e_last_attribution e; e_count := e_count e; e_sum := e_sum e |}.
Definition set_next_incoming (n : EdgeId) (e : EdgeRecord) : EdgeRecord :=
  {| e_subject := e_subject e; e_label := e_label e; e_object := e_object e;
     e_next_outgoing := e_next_outgoing e; e_next_incoming := n;
     e_next_labeled := e_next_labeled e; e_first_attribution := e_first_attribution e;
     e_last_attribution := e_last_attribution e; e_count := e_count e; e_sum := e_sum e |}.
Definition set_next_labeled (n : EdgeId) (e : EdgeRecord) : EdgeRecord :=
  {| e_subject := e_subject e; e_label := e_label e; e_object := e_object e;
     e_next_outgoing := e_next_outgoing e; e_next_incoming := e_next_incoming e;
     e_next_labeled := n; e_first_attribution := e_first_attribution e;
     e_last_attribution := e_last_attribution e; e_count := e_count e; e_sum := e_sum e |}.
Definition set_attribution_ends (first last : AttributionId) (e : EdgeRecord) : EdgeRecord :=
  {| e_subject := e_subject e; e_label := e_label e; e_object := e_object e;
     e_next_outgoing := e_next_outgoing e; e_next_incoming := e_next_incoming e;
     e_next_labeled := e_next_labeled e; e_first_attribution := first;
     e_last_attribution := last; e_count := e_count e; e_sum := e_sum e |}.
Definition set_totals (count : N) (sum : f64) (e : EdgeRecord) : EdgeRecord :=
  {| e_subject := e_subject e; e_label := e_label e; e_object := e_object e;
     e_next_outgoing := e_next_outgoing e; e_next_incoming := e_next_incoming e;
     e_next_labeled := e_next_labeled e; e_first_attribution := e_first_attribution e;
     e_last_attribution := e_last_attribution e; e_count := count; e_sum := sum |}.

(** Chain anchors of a concept and of a label, and their updates. *)
Definition out_anchor (r : ConceptRecord) : anchor :=
  (c_first_outgoing r, c_last_outgoing r, c_outgoing_count r).
Definition in_anchor (r : ConceptRecord) : anchor :=
  (c_first_incoming r, c_last_incoming r, c_incoming_count r).
Definition label_anchor (r : LabelRecord) : anchor :=
  (l_first_edge r, l_last_edge r, l_edge_count r).

Definition set_out_anchor (a : anchor) (r : ConceptRecord) : ConceptRecord :=
  {| c_name_offset := c_name_offset r; c_name_len := c_name_len r;
     c_first_outgoing := a.1.1; c_last_outgoing := a.1.2; c_outgoing_count := a.2;
     c_first_incoming := c_first_incoming r; c_last_incoming := c_last_incoming r;
     c_incoming_count := c_incoming_count r |}.
Definition set_in_anchor (a : anchor) (r : ConceptRecord) : ConceptRecord :=
  {| c_name_offset := c_name_offset r; c_name_len := c_name_len r;
     c_first_outgoing := c_first_outgoing r; c_last_outgoing := c_last_outgoing r;
     c_outgoing_count := c_outgoing_count r;
     c_first_incoming := a.1.1; c_last_incoming := a.1.2; c_incoming_count := a.2 |}.
Definition set_label_anchor (a : anchor) (r : LabelRecord) : LabelRecord :=
  {| l_name_offset := l_name_offset r; l_name_len := l_name_len r;
     l_first_edge := a.1.1; l_last_edge := a.1.2; l_edge_count := a.2 |}.
