(* ===== verification/Names.v ===== *)
(** * Interned names

    A namespace of a [Context] is a table of canonical records, a table of alias
    records, and the lookup map from spellings to ids.  This file states when
    the three agree, and that interning, aliasing and removing keep them so. *)

From S2P Require Export Graph.

Local Open Scope N_scope.

Abbreviation name_range := (N * N)%type.

(** The lookup table a namespace stands for: canonical spellings under their
    index, then alias spellings under their targets. *)
Definition spellings (ns al : list name) (targets : list N) : list (name * N) :=
  zip ns (indices ns) ++ zip al targets.

Record ns_ok (arena : bytes) (recs : list name_range) (aliases : list (name_range * N))
    (ids : gmap name N) (ns al : list name) : Prop := {
  ns_names : Forall2 (fun r n => name_at arena r.1 r.2 = Some n) recs ns;
  ns_aliases : Forall2 (fun r n => name_at arena r.1.1 r.1.2 = Some n) aliases al;
  ns_unique : NoDup (ns ++ al);
  ns_targets : Forall (fun r => r.2 < lenN recs) aliases;
  ns_ids : ids = list_to_map (spellings ns al aliases.*2)
}.

(** ** Reading the arena *)

Lemma name_at_app arena x off len n :
  name_at arena off len = Some n -> name_at (arena ++ x) off len = Some n.
Proof.
  unfold name_at. rewrite lenN_app.
  destruct (N.leb_spec (off + len) (lenN arena)) as [H|]; [|done].
  destruct (N.leb_spec (off + len) (lenN arena + lenN x)); [|lia].
  by rewrite slice_app_l.
Qed.

Lemma name_at_snoc arena s :
  utf8_valid s = true -> name_at (arena ++ s) (lenN arena) (lenN s) = Some s.
Proof.
  intros Hv. unfold name_at. rewrite lenN_app, N.leb_refl, <- lenN_app, slice_snoc.
  by rewrite Hv.
Qed.

Lemma name_at_bound arena off len n : name_at arena off len = Some n -> off + len <= lenN arena.
Proof. unfold name_at. destruct (N.leb_spec (off + len) (lenN arena)); done. Qed.

Lemma name_at_valid arena off len n :
  name_at arena off len = Some n -> utf8_valid n = true /\ lenN n = len.
Proof.
  unfold name_at. destruct (N.leb_spec (off + len) (lenN arena)); [|done].
  destruct (utf8_valid _) eqn:E; [|done]. intros [= <-]. split; [done|].
  unfold slice. destruct (N.leb_spec off (off + len)); [|lia].
  destruct (N.leb_spec (off + len) (lenN arena)); [|lia]. simpl.
  unfold lenN in *. rewrite length_take, length_drop. lia.
Qed.

Lemma intern_name_Some arena s :
  lenN arena + lenN s <= U32_MAX -> intern_name arena s = Some (arena ++ s, (lenN arena, lenN s)).
Proof.
  intros. unfold intern_name, checked_add, USIZE_MAX, U64_MAX, U32_MAX in *.
  destruct (N.leb_spec (lenN arena + lenN s) 18446744073709551615); [|lia]. simpl.
  by destruct (N.leb_spec (lenN arena + lenN s) 4294967295); [|lia].
Qed.

Lemma intern_name_inv arena s r :
  intern_name arena s = Some r ->
  r = (arena ++ s, (lenN arena, lenN s)) /\ lenN arena + lenN s <= U32_MAX.
Proof.
  unfold intern_name, checked_add. destruct (_ <=? USIZE_MAX); simpl; [|done].
  destruct (N.leb_spec (lenN arena + lenN s) U32_MAX); [|done]. by intros [= <-].
Qed.

(** ** The lookup table *)

Lemma spellings_keys ns al ts : length al = length ts -> (spellings ns al ts).*1 = ns ++ al.
Proof.
  intros. unfold spellings. rewrite fmap_app, !fst_zip; [done| |].
  - lia.
  - rewrite indices_length. lia.
Qed.

Lemma elem_of_spellings ns al ts s i :
  length al = length ts ->
  (s, i) ∈ spellings ns al ts <->
  tget ns i = Some s \/ exists j, tget al j = Some s /\ tget ts j = Some i.
Proof.
  intros Hl. unfold spellings. rewrite elem_of_app. f_equiv.
  - rewrite list_elem_of_lookup. setoid_rewrite lookup_zip_with_Some.
    setoid_rewrite tget_lookup. unfold indices. split.
    + intros (j & a & b & [= <- <-] & Hn & Hi).
      apply list_lookup_fmap_Some in Hi as (k & -> & [-> _]%lookup_seq). by rewrite Nat2N.id.
    + intros Hn. pose proof (lookup_lt_Some _ _ _ Hn). exists (N.to_nat i), s, i.
      split; [done|]. split; [done|]. rewrite list_lookup_fmap, lookup_seq_lt by done.
      simpl. by rewrite N2Nat.id.
  - rewrite list_elem_of_lookup. setoid_rewrite lookup_zip_with_Some.
    setoid_rewrite tget_lookup. split.
    + intros (j & a & b & [= <- <-] & ? & ?). exists (N.of_nat j). by rewrite Nat2N.id.
    + intros (j & ? & ?). eauto 8.
Qed.

Section ns_ok_lemmas.
Context {arena recs aliases ids ns al} (Hns : ns_ok arena recs aliases ids ns al).

Lemma ns_length : length ns = length recs.
Proof. symmetry. eapply Forall2_length, (ns_names _ _ _ _ _ _ Hns). Qed.

Lemma ns_al_length : length al = length aliases.*2.
Proof. rewrite length_fmap. symmetry. eapply Forall2_length, (ns_aliases _ _ _ _ _ _ Hns). Qed.

Lemma ns_spellings_NoDup : NoDup (spellings ns al aliases.*2).*1.
Proof. rewrite spellings_keys; [apply Hns | apply ns_al_length]. Qed.

(** The lookup map holds exactly the canonical spellings and the aliases. *)
Lemma ns_lookup s i :
  ids !! s = Some i <->
  tget ns i = Some s \/ exists j, tget al j = Some s /\ tget aliases.*2 j = Some i.
Proof.
  rewrite (ns_ids _ _ _ _ _ _ Hns), <- elem_of_spellings by apply ns_al_length.
  symmetry. apply elem_of_list_to_map, ns_spellings_NoDup.
Qed.

Lemma ns_lookup_lt s i : ids !! s = Some i -> i < lenN recs.
Proof.
  intros [Hi|(j & _ & Hj)]%ns_lookup.
  - apply tget_Some_lt in Hi. unfold lenN in *. by rewrite <- ns_length.
  - rewrite tget_lookup in Hj. apply list_lookup_fmap_Some in Hj as (r & -> & Hr).
    by eapply Forall_lookup_1 in Hr; [|apply (ns_targets _ _ _ _ _ _ Hns)].
Qed.

Lemma ns_name_at i r : tget recs i = Some r -> exists n, name_at arena r.1 r.2 = Some n /\ tget ns i = Some n.
Proof.
  rewrite tget_lookup. intros Hr.
  destruct (Forall2_lookup_l _ _ _ _ _ (ns_names _ _ _ _ _ _ Hns) Hr) as (n & Hn & ?).
  exists n. by rewrite tget_lookup.
Qed.

Lemma ns_alias_name_at j r : tget aliases j = Some r -> exists n, name_at arena r.1.1 r.1.2 = Some n /\ tget al j = Some n.
Proof.
  rewrite tget_lookup. intros Hr.
  destruct (Forall2_lookup_l _ _ _ _ _ (ns_aliases _ _ _ _ _ _ Hns) Hr) as (n & Hn & ?).
  exists n. by rewrite tget_lookup.
Qed.

Lemma ns_fresh s : ids !! s = None -> s ∉ ns ++ al.
Proof.
  rewrite (ns_ids _ _ _ _ _ _ Hns). intros Hs. apply not_elem_of_list_to_map in Hs.
  by rewrite spellings_keys in Hs by apply ns_al_length.
Qed.

(** Growing the arena leaves every name where it was. *)
Lemma ns_ok_arena x : ns_ok (arena ++ x) recs aliases ids ns al.
Proof.
  destruct Hns. split; try done.
  - eapply Forall2_impl; [done|]. intros. by apply name_at_app.
  - eapply Forall2_impl; [done|]. intros. by apply name_at_app.
Qed.
End ns_ok_lemmas.

Lemma zip_indices_snoc {A} (l : list A) x :
  zip (l ++ [x]) (indices (l ++ [x])) = zip l (indices l) ++ [(x, lenN l)].
Proof. rewrite indices_snoc, zip_with_app; [done | by rewrite indices_length]. Qed.

Lemma ns_ok_empty arena : ns_ok arena [] [] ∅ [] [].
Proof. split; try constructor. Qed.

(** A canonical record whose fresh name the arena already holds. *)
Lemma ns_ok_load_record arena recs aliases ids ns al r s :
  ns_ok arena recs aliases ids ns al -> ids !! s = None -> name_at arena r.1 r.2 = Some s ->
  ns_ok arena (recs ++ [r]) aliases (<[s := lenN recs]> ids) (ns ++ [s]) al.
Proof.
  intros Hns Hs Hr. pose proof (ns_fresh Hns s Hs) as Hfresh. pose proof (ns_length Hns) as Hl.
  pose proof (ns_spellings_NoDup Hns) as Hnd. pose proof (ns_al_length Hns) as Hal.
  destruct Hns as [Hn Ha Hu Ht ->]. split.
  - apply Forall2_app; [done|]. by constructor.
  - done.
  - rewrite <- app_assoc. simpl. rewrite <- Permutation_middle. by constructor.
  - eapply Forall_impl; [done|]. simpl. intros x. rewrite lenN_snoc. lia.
  - unfold spellings in *. rewrite zip_indices_snoc, <- app_assoc. simpl.
    rewrite <- list_to_map_cons. unfold lenN. rewrite <- Hl. symmetry.
    apply list_to_map_proper; [|by rewrite <- Permutation_middle].
    rewrite <- Permutation_middle. simpl. constructor; [|done].
    fold (spellings ns al aliases.*2). by rewrite spellings_keys.
Qed.

(** Interning a fresh canonical name. *)
Lemma ns_ok_record arena recs aliases ids ns al s :
  ns_ok arena recs aliases ids ns al -> ids !! s = None -> utf8_valid s = true ->
  ns_ok (arena ++ s) (recs ++ [(lenN arena, lenN s)]) aliases (<[s := lenN recs]> ids) (ns ++ [s]) al.
Proof. intros Hns Hs Hv. apply ns_ok_load_record; [by apply ns_ok_arena | done | by apply name_at_snoc]. Qed.

(** An alias whose fresh spelling the arena already holds. *)
Lemma ns_ok_load_alias arena recs aliases ids ns al r s target :
  ns_ok arena recs aliases ids ns al -> ids !! s = None -> name_at arena r.1 r.2 = Some s ->
  target < lenN recs ->
  ns_ok arena recs (aliases ++ [(r, target)]) (<[s := target]> ids) ns (al ++ [s]).
Proof.
  intros Hns Hs Hr Htgt. pose proof (ns_fresh Hns s Hs) as Hfresh.
  pose proof (ns_spellings_NoDup Hns) as Hnd. pose proof (ns_al_length Hns) as Hal.
  destruct Hns as [Hn Ha Hu Ht ->]. split.
  - done.
  - apply Forall2_app; [done|]. by constructor.
  - rewrite app_assoc, <- Permutation_cons_append. by constructor.
  - apply Forall_app. split; [done|]. by apply Forall_singleton.
  - rewrite fmap_app. simpl. unfold spellings in *. rewrite zip_with_app by done.
    rewrite app_assoc. simpl. rewrite <- list_to_map_cons. symmetry.
    apply list_to_map_proper; [|by rewrite <- Permutation_cons_append].
    rewrite <- Permutation_cons_append. simpl. constructor; [|done].
    fold (spellings ns al aliases.*2). by rewrite spellings_keys.
Qed.

(** Registering a fresh alias. *)
Lemma ns_ok_alias arena recs aliases ids ns al s target :
  ns_ok arena recs aliases ids ns al -> ids !! s = None -> utf8_valid s = true ->
  target < lenN recs ->
  ns_ok (arena ++ s) recs (aliases ++ [((lenN arena, lenN s), target)]) (<[s := target]> ids) ns (al ++ [s]).
Proof. intros Hns Hs Hv Ht. apply ns_ok_load_alias; [by apply ns_ok_arena | done | by apply name_at_snoc | done]. Qed.

Lemma zip_delete {A B} (l : list A) (k : list B) j :
  zip (delete j l) (delete j k) = delete j (zip l k).
Proof.
  revert k j. induction l as [|x l IH]; intros [|y k] [|j]; simpl; try done.
  - by rewrite zip_with_nil_r.
  - by f_equal.
Qed.

Lemma spellings_delete ns al ts j s t :
  al !! j = Some s -> ts !! j = Some t ->
  spellings ns al ts ≡ₚ (s, t) :: spellings ns (delete j al) (delete j ts).
Proof.
  intros Hs Ht. unfold spellings. rewrite zip_delete, Permutation_middle.
  apply Permutation_app; [done|]. apply delete_Permutation.
  rewrite lookup_zip_with, Hs. simpl. by rewrite Ht.
Qed.

(** Removing the alias at a position ([Vec::remove]). *)
Lemma ns_ok_remove arena recs aliases ids ns al j s :
  ns_ok arena recs aliases ids ns al -> al !! j = Some s ->
  ns_ok arena recs (delete j aliases) (delete s ids) ns (delete j al).
Proof.
  intros Hns Hj. pose proof (ns_spellings_NoDup Hns) as Hnd. pose proof (ns_al_length Hns) as Hal.
  destruct Hns as [Hn Ha Hu Ht ->]. rewrite length_fmap in Hal.
  destruct (lookup_lt_is_Some_2 aliases j) as [r Hr]; [apply lookup_lt_Some in Hj; lia|].
  assert (Hts : aliases.*2 !! j = Some r.2) by by rewrite list_lookup_fmap, Hr.
  assert (Hdel : (delete j aliases).*2 = delete j aliases.*2) by by rewrite !delete_take_drop, fmap_app, fmap_take, fmap_drop.
  split; try done.
  - apply Forall2_delete. done.
  - eapply sublist_NoDup; [exact Hu|]. apply sublist_app; [done | apply sublist_delete].
  - apply Forall_delete. done.
  - rewrite Hdel. pose proof (spellings_delete ns al _ j s r.2 Hj Hts) as Hp.
    rewrite (list_to_map_proper _ _ Hnd Hp). simpl. apply delete_insert_id.
    apply not_elem_of_list_to_map_1. rewrite Hp in Hnd. by apply NoDup_cons in Hnd as [? _].
Qed.
