(* ===== verification/Wf.v ===== *)
(** * The invariant of a context

    [wf] relates the nine persisted buffers of a [Context] to its derived
    indexes and counters.  It is stated on projections of the tables, so that an
    operation that touches other fields preserves a clause by rewriting. *)

From S2P Require Export Names.

Local Open Scope N_scope.

(** ** Table projections *)

Definition c_range (r : ConceptRecord) : name_range := (c_name_offset r, c_name_len r).
Definition l_range (r : LabelRecord) : name_range := (l_name_offset r, l_name_len r).
Definition s_range (r : SourceRecord) : name_range := (s_name_offset r, s_name_len r).
Definition a_entry (r : AliasRecord) : name_range * N := ((a_name_offset r, a_name_len r), a_target r).
Definition e_triple (e : EdgeRecord) : ConceptId * LabelId * ConceptId :=
  (e_subject e, e_label e, e_object e).
Definition e_ends (e : EdgeRecord) : N * N := (e_first_attribution e, e_last_attribution e).

(** ** Attribution chains

    [chains] lists, edge by edge, the live attribution rows. *)

Record attr_wf (ends : list (N * N)) (links srcs : list N)
    (ids : gmap (N * N) N) (chains : list (list N)) : Prop := {
  attr_chains : Forall2 (fun p l => chain_from links p.1 l /\ p.2 = tail_of l) ends chains;
  attr_disjoint : NoDup (mjoin chains);
  attr_ids : forall e s t, ids !! (e, s) = Some t <->
    exists l, tget chains e = Some l /\ t ∈ l /\ tget srcs t = Some s;
  attr_length : length links = length srcs
}.

(** The reverse index names exactly the edges a source attributes. *)
Record source_edges_wf (se : gmap N (list N)) (ids : gmap (N * N) N) : Prop := {
  se_each : forall s l, se !! s = Some l -> NoDup l /\ l <> [];
  se_edges : forall s e, e ∈ default [] (se !! s) <-> is_Some (ids !! (e, s))
}.

(** The assertions one chain accounts for. *)
Definition chain_total (counts : list N) (l : list N) : N :=
  foldr (fun t acc => default 0 (tget counts t) + acc) 0 l.

(** An edge counts at least the assertions its chain accounts for. *)
Definition totals_cover (edge_counts counts : list N) (chains : list (list N)) : Prop :=
  Forall2 (fun n l => chain_total counts l <= n) edge_counts chains.

Definition row_ok (sources_len len : N) (t : AttributionRecord) : Prop :=
  t_source t < sources_len /\ (t_next t = NIL \/ t_next t < len) /\
  0 < t_count t <= U64_MAX /\ f64_finite (t_sum t) = true.

(** Every row fits its machine widths; the rows some edge attributes are in range.
    Retraction leaves unlinked rows behind, and nothing reads those. *)
Definition row_repr (t : AttributionRecord) : Prop :=
  t_source t <= U32_MAX /\ t_next t <= U32_MAX /\ t_count t <= U64_MAX.

Record rows_wf (sources_len : N) (ids : gmap (N * N) N) (rows : list AttributionRecord) : Prop := {
  rows_repr : Forall row_repr rows;
  rows_live : forall k t r, ids !! k = Some t -> tget rows t = Some r -> row_ok sources_len (lenN rows) r
}.

Definition totals_ok (e : EdgeRecord) : Prop :=
  e_count e <= U64_MAX /\ f64_finite (e_sum e) = true.

Definition is_dead (e : EdgeRecord) : bool := e_count e =? 0.

Definition count_dead (edges : list EdgeRecord) : N := lenN (filter (fun e => is_dead e = true) edges).

(** ** Namespaces *)

Definition entry_ok `{UnicodeTables} (idx : EntryIndex) (sp : list (name * N)) : Prop :=
  ei_ok idx /\ ei_entries idx ≡ₚ prod_map normalize id <$> sp.

(** One aliased namespace: records, aliases, lookup map, sorted alias index and
    entry index agree. *)
Record namespace_wf `{UnicodeTables} (arena : bytes) (recs : list name_range)
    (aliases : list (name_range * N)) (ids alias_index : gmap name N)
    (idx : EntryIndex) (ns al : list name) : Prop := {
  nw_names : ns_ok arena recs aliases ids ns al;
  nw_alias_index : alias_index = list_to_map (zip al aliases.*2);
  nw_entries : entry_ok idx (spellings ns al aliases.*2)
}.

Section wf.
Context `{UnicodeTables}.

Definition concept_names (c : Context) (ns al : list name) : Prop :=
  namespace_wf (arena c) (c_range <$> concepts c) (a_entry <$> concept_aliases c)
    (concept_ids c) (concept_alias_index c) (concept_index c) ns al.
Definition label_names (c : Context) (ns al : list name) : Prop :=
  namespace_wf (arena c) (l_range <$> labels c) (a_entry <$> label_aliases c)
    (label_ids c) (label_alias_index c) (label_index c) ns al /\
  label_name_index c = list_to_set ns.
Definition source_names (c : Context) (ns : list name) : Prop :=
  ns_ok (arena c) (s_range <$> sources c) [] (source_ids c) ns [].

Definition attributions_wf (c : Context) (chains : list (list N)) : Prop :=
  attr_wf (e_ends <$> edges c) (t_next <$> attributions c) (t_source <$> attributions c)
    (attribution_ids c) chains /\
  dead_attributions c + lenN (mjoin chains) = lenN (attributions c) /\
  totals_cover (e_count <$> edges c) (t_count <$> attributions c) chains.

(** Every table can be indexed by [u32], and [NIL] is never an id. *)
Record sizes_wf (c : Context) : Prop := {
  sz_arena : lenN (arena c) <= U32_MAX;
  sz_concepts : lenN (concepts c) <= NIL;
  sz_labels : lenN (labels c) <= NIL;
  sz_sources : lenN (sources c) <= NIL;
  sz_edges : lenN (edges c) <= NIL;
  sz_attributions : lenN (attributions c) <= NIL;
  sz_concept_aliases : lenN (concept_aliases c) <= NIL;
  sz_label_aliases : lenN (label_aliases c) <= NIL
}.

Record wf (c : Context) : Prop := {
  wf_concepts : exists ns al, concept_names c ns al;
  wf_labels : exists ns al, label_names c ns al;
  wf_sources : exists ns, source_names c ns;
  wf_triples : forall k e, edge_ids c !! k = Some e <-> tget (e_triple <$> edges c) e = Some k;
  wf_outgoing : chains_wf (e_next_outgoing <$> edges c) (e_subject <$> edges c)
    (out_anchor <$> concepts c);
  wf_incoming : chains_wf (e_next_incoming <$> edges c) (e_object <$> edges c)
    (in_anchor <$> concepts c);
  wf_labeled : chains_wf (e_next_labeled <$> edges c) (e_label <$> edges c)
    (label_anchor <$> labels c);
  wf_attributions : exists chains, attributions_wf c chains;
  wf_rows : rows_wf (lenN (sources c)) (attribution_ids c) (attributions c);
  wf_reverse : source_edges_wf (source_edges c) (attribution_ids c);
  wf_totals : Forall totals_ok (edges c);
  wf_dead : dead_edges c = count_dead (edges c);
  wf_locators : StronglySorted N.lt (k_attribution <$> attribution_locators c);
  wf_locator_rows : Forall (fun k => k_attribution k < lenN (attributions c) /\
    k_paragraph k <= U32_MAX) (attribution_locators c);
  wf_sizes : sizes_wf c;
  wf_applied_seq : applied_seq c <= U64_MAX
}.
End wf.

(** ** Projections and table updates *)

Lemma tget_fmap {A B} (g : A -> B) (l : list A) i : tget (g <$> l) i = g <$> tget l i.
Proof. by rewrite !tget_lookup, list_lookup_fmap. Qed.

Lemma lenN_fmap {A B} (g : A -> B) (l : list A) : lenN (g <$> l) = lenN l.
Proof. unfold lenN. by rewrite length_fmap. Qed.

Lemma tupd_fmap {A B} (g : A -> B) (f : A -> A) (h : B -> B) (l l' : list A) i :
  (forall x, g (f x) = h (g x)) -> tupd l i f = Some l' -> tupd (g <$> l) i h = Some (g <$> l').
Proof.
  intros Hgf (x & Hx & ->)%tupd_Some. apply tupd_Some. exists (g x). split.
  - by rewrite tget_fmap, Hx.
  - by rewrite list_fmap_insert, Hgf.
Qed.

Lemma tupd_fmap_id {A B} (g : A -> B) (f : A -> A) (l l' : list A) i :
  (forall x, g (f x) = g x) -> tupd l i f = Some l' -> g <$> l' = g <$> l.
Proof.
  intros Hgf (x & Hx & ->)%tupd_Some. rewrite list_fmap_insert, Hgf.
  apply list_insert_id. rewrite tget_lookup in Hx. by rewrite list_lookup_fmap, Hx.
Qed.

(** A projection that does not depend on the updated field is unchanged. *)
Ltac frame_tupd :=
  repeat match goal with
  | H : tupd ?l _ _ = Some ?l' |- context [?g <$> ?l'] =>
    rewrite (tupd_fmap_id g _ l l' _ ltac:(intros []; reflexivity) H)
  end.

Lemma lenN_le_snoc {A} (l : list A) x : lenN l < NIL -> lenN (l ++ [x]) <= NIL.
Proof. rewrite lenN_snoc. lia. Qed.

#[export] Hint Rewrite @lenN_fmap @tget_fmap : table_rw.
#[export] Hint Resolve lenN_le_snoc : table.

(** ** Attribution rows *)

Lemma row_ok_mono sl sl' len len' t :
  sl <= sl' -> len <= len' -> row_ok sl len t -> row_ok sl' len' t.
Proof. intros ? ? (? & [?|?] & ?); split; try lia; (split; [|done]); [by left | right; lia]. Qed.

Lemma row_ok_repr sl len t : sl <= NIL -> len <= NIL -> row_ok sl len t -> row_repr t.
Proof. unfold row_repr, NIL, U32_MAX. intros ? ? (? & [?|?] & ? & _); unfold NIL, U32_MAX in *; split; lia. Qed.

Lemma rows_wf_mono sl sl' ids ids' T : sl <= sl' -> (forall k t, ids' !! k = Some t -> exists k', ids !! k' = Some t) ->
  rows_wf sl ids T -> rows_wf sl' ids' T.
Proof.
  intros Hle Hids [H1 H2]. split; [done|]. intros k t r Hk Hr. destruct (Hids k t Hk) as [k' Hk'].
  eapply row_ok_mono; [done | reflexivity | by eapply H2].
Qed.

Lemma rows_wf_insert sl ids T t r r' : rows_wf sl ids T -> tget T t = Some r -> row_repr r' ->
  (row_ok sl (lenN T) r -> row_ok sl (lenN T) r') -> rows_wf sl ids (<[N.to_nat t := r']> T).
Proof.
  intros [H1 H2] Hr Hr' Hok. split; [by apply Forall_insert|]. intros k u x Hk Hx. rewrite lenN_insert.
  destruct (decide (u = t)) as [->|Hne].
  - rewrite tget_lookup, list_lookup_insert_eq in Hx by (rewrite tget_lookup in Hr; by eapply lookup_lt_Some).
    injection Hx as <-. eauto.
  - rewrite tget_lookup, list_lookup_insert_ne, <- tget_lookup in Hx by lia. eauto.
Qed.

Lemma rows_wf_push sl ids T r k : rows_wf sl ids T -> (forall k t, ids !! k = Some t -> t < lenN T) ->
  row_repr r -> row_ok sl (lenN T + 1) r -> rows_wf sl (<[k := lenN T]> ids) (T ++ [r]).
Proof.
  intros [H1 H2] Hlt Hrepr Hr. split; [apply Forall_app; split; [done | by constructor]|]. intros k' t x.
  rewrite lenN_snoc. intros [[_ <-]|[_ Hk]]%lookup_insert_Some Hx.
  - rewrite tget_snoc in Hx. by injection Hx as <-.
  - rewrite tget_app_l in Hx by eauto. eapply row_ok_mono; [reflexivity | | by eapply H2]. lia.
Qed.

(** ** The empty context *)

Lemma namespace_wf_empty `{UnicodeTables} : namespace_wf [] [] [] ∅ ∅ EntryIndex_default [] [].
Proof.
  split; [apply ns_ok_empty | done |]. split; [apply ei_ok_default | done].
Qed.

Lemma attr_wf_nil : attr_wf [] [] [] ∅ [].
Proof.
  split; [constructor | constructor | | done]. intros e s t. rewrite lookup_empty.
  split; [done|]. intros (l & Hl & _). by rewrite tget_lookup in Hl.
Qed.

Lemma source_edges_wf_empty : source_edges_wf ∅ ∅.
Proof.
  split; [by intros ? ? ?%lookup_empty_Some|]. intros s e. rewrite !lookup_empty. simpl.
  rewrite elem_of_nil. split; [done | by intros [? ?]].
Qed.

Lemma wf_default `{UnicodeTables} : wf Context_default.
Proof.
  split; simpl.
  - exists [], []. apply namespace_wf_empty.
  - exists [], []. split; [apply namespace_wf_empty | done].
  - exists []. apply ns_ok_empty.
  - intros k e. rewrite lookup_empty, tget_lookup. done.
  - apply chains_wf_nil.
  - apply chains_wf_nil.
  - apply chains_wf_nil.
  - exists []. split; [apply attr_wf_nil|]. split; [done | constructor].
  - split; [constructor | by intros ? ? ? ?%lookup_empty_Some].
  - apply source_edges_wf_empty.
  - constructor.
  - done.
  - constructor.
  - constructor.
  - split; done.
  - done.
Qed.
