(* ===== verification/AttrChains.v ===== *)
(** * Attribution chains under update

    Every operation on attributions rewrites the chain of one edge.  One lemma
    ([attr_wf_update]) covers them; pushing, unlinking and clearing are its
    instances.  The totals each chain accounts for are followed alongside. *)

From S2P Require Export Wf.

Local Open Scope N_scope.

Section mjoin.
Context {A : Type}.
Implicit Types chains : list (list A).

Lemma elem_of_mjoin_tget chains t :
  t ∈ mjoin chains <-> exists e l, tget chains e = Some l /\ t ∈ l.
Proof.
  rewrite list_elem_of_join. setoid_rewrite list_elem_of_lookup at 2. split.
  - intros (l & Ht & i & Hi). exists (N.of_nat i), l. by rewrite tget_lookup, Nat2N.id.
  - intros (e & l & Hl & Ht). rewrite tget_lookup in Hl. eauto.
Qed.

(** One chain, and everything the others hold. *)
Lemma mjoin_split chains e l :
  tget chains e = Some l -> exists rest, mjoin chains ≡ₚ l ++ rest /\
    (forall l', mjoin (<[N.to_nat e := l']> chains) ≡ₚ l' ++ rest) /\
    forall e' l', e' <> e -> tget chains e' = Some l' -> forall t, t ∈ l' -> t ∈ rest.
Proof.
  rewrite tget_lookup. intros Hl. pose proof (lookup_lt_Some _ _ _ Hl) as Hlt.
  pose proof (take_drop_middle _ _ _ Hl) as Heq.
  exists (mjoin (take (N.to_nat e) chains ++ drop (S (N.to_nat e)) chains)). split; [|split].
  - rewrite <- Heq at 1. rewrite !join_app. simpl. by rewrite Permutation_app_swap_app.
  - intros l'. rewrite insert_take_drop by done. rewrite !join_app. simpl.
    by rewrite Permutation_app_swap_app.
  - intros e' l' Hne Hl' t Ht. rewrite tget_lookup in Hl'. apply list_elem_of_join.
    exists l'. split; [done|]. rewrite elem_of_app, !list_elem_of_lookup.
    destruct (decide (N.to_nat e' < N.to_nat e)%nat) as [Hlt'|Hge].
    + left. exists (N.to_nat e'). by rewrite lookup_take_lt.
    + right. exists (N.to_nat e' - S (N.to_nat e))%nat. rewrite lookup_drop.
      replace (S (N.to_nat e) + (N.to_nat e' - S (N.to_nat e)))%nat with (N.to_nat e') by lia. done.
Qed.

Lemma mjoin_NoDup_owner chains e e' l l' t :
  NoDup (mjoin chains) -> tget chains e = Some l -> tget chains e' = Some l' ->
  t ∈ l -> t ∈ l' -> e = e'.
Proof.
  intros Hnd Hl Hl' Ht Ht'. destruct (decide (e' = e)) as [|Hne]; [done|].
  destruct (mjoin_split chains e l Hl) as (rest & Hp & _ & Hrest).
  rewrite Hp in Hnd. apply NoDup_app in Hnd as (_ & Hdis & _).
  destruct (Hdis t Ht). eauto.
Qed.

Lemma mjoin_NoDup_chain chains e l : NoDup (mjoin chains) -> tget chains e = Some l -> NoDup l.
Proof.
  intros Hnd Hl. destruct (mjoin_split chains e l Hl) as (rest & Hp & _).
  rewrite Hp in Hnd. by apply NoDup_app in Hnd as (? & _).
Qed.
End mjoin.

Lemma tget_insert_eq {A} (l : list A) i x : i < lenN l -> tget (<[N.to_nat i := x]> l) i = Some x.
Proof. intros Hi. rewrite tget_lookup. apply list_lookup_insert_eq. unfold lenN in Hi. lia. Qed.

Lemma tget_insert_ne {A} (l : list A) i j x : i <> j -> tget (<[N.to_nat i := x]> l) j = tget l j.
Proof. intros Hi. rewrite !tget_lookup. apply list_lookup_insert_ne. lia. Qed.

Lemma Forall2_tget_l {A B} (P : A -> B -> Prop) l k i x :
  Forall2 P l k -> tget l i = Some x -> exists y, tget k i = Some y /\ P x y.
Proof. rewrite tget_lookup. intros HF Hx. setoid_rewrite tget_lookup. by eapply Forall2_lookup_l. Qed.

Lemma Forall2_tget_r {A B} (P : A -> B -> Prop) l k i y :
  Forall2 P l k -> tget k i = Some y -> exists x, tget l i = Some x /\ P x y.
Proof. rewrite tget_lookup. intros HF Hx. setoid_rewrite tget_lookup. by eapply Forall2_lookup_r. Qed.

Lemma Forall2_tget {A B} (P : A -> B -> Prop) l k :
  length l = length k -> (forall i x y, tget l i = Some x -> tget k i = Some y -> P x y) ->
  Forall2 P l k.
Proof.
  intros Hlen HP. apply Forall2_same_length_lookup_2; [done|]. intros i x y Hx Hy.
  apply (HP (N.of_nat i)); by rewrite tget_lookup, Nat2N.id.
Qed.

Lemma Forall2_lenN {A B} (P : A -> B -> Prop) l k : Forall2 P l k -> lenN l = lenN k.
Proof. unfold lenN. by intros ->%Forall2_length. Qed.

Section attr_wf.
Context {ends : list (N * N)} {links srcs : list N} {ids : gmap (N * N) N} {chains : list (list N)}.
Context (Hwf : attr_wf ends links srcs ids chains).

Lemma attr_chain e p : tget ends e = Some p ->
  exists l, tget chains e = Some l /\ chain_from links p.1 l /\ p.2 = tail_of l.
Proof. intros He. exact (Forall2_tget_l _ _ _ _ _ (attr_chains _ _ _ _ _ Hwf) He). Qed.

Lemma attr_row_lt t : t ∈ mjoin chains -> t < lenN links.
Proof.
  intros (e & l & Hl & Ht)%elem_of_mjoin_tget.
  destruct (Forall2_tget_r _ _ _ _ _ (attr_chains _ _ _ _ _ Hwf) Hl) as (p & _ & Hc & _).
  by eapply chain_from_lt.
Qed.

Lemma attr_ids_intro (e s t : N) (l : list N) :
  tget chains e = Some l -> t ∈ l -> tget srcs t = Some s -> ids !! (e, s) = Some t.
Proof. intros. apply (attr_ids _ _ _ _ _ Hwf). eauto. Qed.

(** Replacing one edge's chain. *)
Lemma attr_wf_update e l l' p' links' srcs' ids' :
  tget chains e = Some l ->
  chain_from links' p'.1 l' -> p'.2 = tail_of l' ->
  (forall t, t ∈ l' -> t ∈ l \/ t ∉ mjoin chains) ->
  (forall t, t ∈ mjoin chains -> t ∉ l -> tget links' t = tget links t) ->
  (forall t, t ∈ mjoin chains -> tget srcs' t = tget srcs t) ->
  (forall e' s t, ids' !! (e', s) = Some t <->
    if decide (e' = e) then t ∈ l' /\ tget srcs' t = Some s else ids !! (e', s) = Some t) ->
  length links' = length srcs' ->
  attr_wf (<[N.to_nat e := p']> ends) links' srcs' ids' (<[N.to_nat e := l']> chains).
Proof.
  intros Hl Hc Ht Hsub Hlinks Hsrcs Hids Hlen. destruct Hwf as [Hchains Hnd Hold _].
  destruct (mjoin_split chains e l Hl) as (rest & Hp & Hins & Hrest).
  assert (Hrest' : forall t, t ∈ rest -> t ∈ mjoin chains /\ t ∉ l).
  { intros t ?. rewrite Hp in Hnd |- *. apply NoDup_app in Hnd as (_ & Hdis & _).
    split; [set_solver | intros ?; by apply (Hdis t)]. }
  split.
  - apply Forall2_tget; [by rewrite !length_insert, (Forall2_length _ _ _ Hchains)|].
    intros i p k Hp' Hk. destruct (decide (i = e)) as [->|Hne].
    + rewrite tget_insert_eq in Hk by by eapply tget_Some_lt.
      rewrite tget_insert_eq in Hp' by (rewrite (Forall2_lenN _ _ _ Hchains); by eapply tget_Some_lt).
      by simplify_eq.
    + rewrite tget_insert_ne in Hp' by done. rewrite tget_insert_ne in Hk by done.
      destruct (Forall2_tget_l _ _ _ _ _ Hchains Hp') as (k' & Hk' & Hck & ->). simplify_eq.
      split; [|done]. eapply chain_from_frame; [|done]. intros t Htk.
      apply Hlinks; apply Hrest'; eauto.
  - rewrite Hins. apply NoDup_app. split; [by eapply chain_from_NoDup|].
    split; [|by rewrite Hp in Hnd; apply NoDup_app in Hnd as (_ & _ & ?)].
    intros t Ht' Hr. apply Hrest' in Hr as [? ?]. destruct (Hsub t Ht'); done.
  - intros e' s t. rewrite Hids. case_decide as He; [subst e'|].
    + rewrite tget_insert_eq by by eapply tget_Some_lt. split; [naive_solver|].
      intros (? & [= <-] & ?). done.
    + rewrite tget_insert_ne by done. rewrite Hold. apply exist_proper. intros k.
      split; intros (Hk & Htk & Hs); (split; [done|split; [done|]]).
      * rewrite Hsrcs; [done|]. apply elem_of_mjoin_tget; eauto.
      * rewrite Hsrcs in Hs; [done|]. apply elem_of_mjoin_tget; eauto.
  - done.
Qed.

Lemma attr_wf_new_edge : attr_wf (ends ++ [(NIL, NIL)]) links srcs ids (chains ++ [[]]).
Proof.
  destruct Hwf as [Hchains Hnd Hold Hlen]. split; [| | |done].
  - apply Forall2_app; [done|]. by constructor.
  - rewrite join_app. simpl. by rewrite app_nil_r.
  - intros e s t. rewrite Hold. split.
    + intros (l & Hl & ?). exists l. split; [by apply tget_app_mono | done].
    + intros (l & [Hl|[_ ->]]%tget_snoc_inv & Ht & ?); [eauto|].
      by apply elem_of_nil in Ht.
Qed.

(** A fresh row at the tail of the chain of [e]. *)
Lemma attr_wf_push e s first last l :
  lenN links < NIL -> tget ends e = Some (first, last) -> tget chains e = Some l ->
  ids !! (e, s) = None ->
  attr_wf (<[N.to_nat e := (if last =? NIL then lenN links else first, lenN links)]> ends)
    ((if last =? NIL then links else <[N.to_nat last := lenN links]> links) ++ [NIL])
    (srcs ++ [s]) (<[(e, s) := lenN links]> ids) (<[N.to_nat e := l ++ [lenN links]]> chains).
Proof.
  intros Hlt He Hl Hids. destruct (attr_chain e _ He) as (l' & Hl' & Hc & Hlast). simplify_eq/=.
  assert (Hfresh : lenN links ∉ mjoin chains) by (intros ?%attr_row_lt; lia).
  assert (Hll : lenN links = lenN srcs) by (unfold lenN; by rewrite (attr_length _ _ _ _ _ Hwf)).
  assert (Hsrc : forall t, t ∈ mjoin chains -> tget (srcs ++ [s]) t = tget srcs t).
  { intros t Ht%attr_row_lt. apply tget_app_l. lia. }
  eapply attr_wf_update; [done| | | | | done | |].
  - by apply chain_from_snoc.
  - by rewrite tail_of_snoc.
  - intros t. rewrite elem_of_app, list_elem_of_singleton. intros [?| ->]; [by left | by right].
  - intros t Ht Htl. pose proof (attr_row_lt t Ht). case_match eqn:Etl.
    + by apply tget_app_l.
    + rewrite tget_app_l by (rewrite lenN_insert; done). apply tget_insert_ne. intros <-.
      apply N.eqb_neq in Etl. apply Htl. destruct l as [|x l _] using rev_ind; [done|].
      rewrite tail_of_snoc. set_solver.
  - intros e' s' t. case_decide as Hee; [subst e'|].
    + destruct (decide (s' = s)) as [->|Hs].
      * rewrite lookup_insert_eq. split.
        { intros [= <-]. split; [set_solver|]. rewrite Hll. apply tget_snoc. }
        rewrite elem_of_app, list_elem_of_singleton. intros [[Ht|Ht] Hs]; [|by subst].
        exfalso. assert (Htm : t ∈ mjoin chains) by (apply elem_of_mjoin_tget; eauto).
        rewrite Hsrc in Hs by done.
        pose proof (attr_ids_intro e s t _ Hl Ht Hs). congruence.
      * rewrite lookup_insert_ne by congruence. rewrite (attr_ids _ _ _ _ _ Hwf). split.
        { intros (k & Hk & Ht & Hs'). simplify_eq. split; [set_solver|]. by apply tget_app_mono. }
        rewrite elem_of_app, list_elem_of_singleton. intros [[Ht|Ht] Hs'].
        { exists l. split; [done|]. split; [done|]. rewrite <- Hsrc; [done|].
          apply elem_of_mjoin_tget; eauto. }
        subst t. rewrite Hll in Hs'. rewrite tget_snoc in Hs'. congruence.
    + by rewrite lookup_insert_ne by congruence.
  - rewrite !length_app. case_match; rewrite ?length_insert; simpl; by rewrite (attr_length _ _ _ _ _ Hwf).
Qed.

(** Unlinking one row of the chain of [e]. *)
Lemma attr_wf_unlink e s c nx xs ys first last_row :
  tget ends e = Some (first, last_row) -> tget chains e = Some (xs ++ c :: ys) ->
  tget links c = Some nx -> tget srcs c = Some s ->
  attr_wf
    (<[N.to_nat e := (match xs with [] => nx | _ => first end,
                      if last_row =? c then tail_of xs else last_row)]> ends)
    (match last xs with Some p => <[N.to_nat p := nx]> links | None => links end)
    srcs (delete (e, s) ids) (<[N.to_nat e := xs ++ ys]> chains).
Proof.
  intros He Hl Hnx Hs. destruct (attr_chain e _ He) as (l' & Hl' & Hc & Hlast). simplify_eq/=.
  pose proof (chain_from_NoDup _ _ _ Hc) as Hnd.
  eapply attr_wf_update; [done| | | | | done | |].
  - by apply chain_from_unlink with c.
  - simpl. by rewrite (tail_of_unlink _ _ _ _ _ Hc).
  - intros t. set_solver.
  - intros t Ht Htl. case_match eqn:El; [|done]. apply tget_insert_ne. intros ->.
    apply last_Some_elem_of in El. set_solver.
  - intros e' s' t. case_decide as Hee; [subst e'|].
    + assert (Hcs : ids !! (e, s) = Some c) by (eapply attr_ids_intro; [done| set_solver | done]).
      destruct (decide (s' = s)) as [->|Hne].
      * rewrite lookup_delete_eq. split; [done|]. intros [Ht Hts]. exfalso.
        assert (ids !! (e, s) = Some t) by (eapply attr_ids_intro; [done| set_solver | done]). simplify_eq.
        apply NoDup_app in Hnd as (_ & Hdis & [Hni _]%NoDup_cons). set_solver.
      * rewrite lookup_delete_ne by congruence. rewrite (attr_ids _ _ _ _ _ Hwf). split.
        { intros (k & Hk & Ht & Hts). simplify_eq. split; [|done].
          assert (t <> c) by congruence. set_solver. }
        intros [Ht Hts]. eexists. split; [done|]. set_solver.
    + by rewrite lookup_delete_ne by congruence.
  - case_match; rewrite ?length_insert; apply Hwf.
Qed.

(** Clearing the chain of [e]. *)
Lemma attr_wf_clear e l ids' :
  tget chains e = Some l ->
  (forall e' s, ids' !! (e', s) = if decide (e' = e) then None else ids !! (e', s)) ->
  attr_wf (<[N.to_nat e := (NIL, NIL)]> ends) links srcs ids' (<[N.to_nat e := []]> chains).
Proof.
  intros Hl Hids. eapply attr_wf_update; [done | done | done | | done | done | |].
  - intros t ?%elem_of_nil. done.
  - intros e' s t. rewrite Hids. case_decide; [|done]. rewrite elem_of_nil. naive_solver.
  - apply Hwf.
Qed.

(** The chain of an edge finds the row of a source. *)
Lemma attr_ids_split (e s t : N) (l : list N) :
  tget chains e = Some l -> ids !! (e, s) = Some t ->
  exists xs ys, l = xs ++ t :: ys /\ tget srcs t = Some s /\
    forall t', t' ∈ xs -> exists s', tget srcs t' = Some s' /\ s' <> s.
Proof.
  intros Hl Hids. pose proof Hids as (k & Hk & Ht & Hs)%(attr_ids _ _ _ _ _ Hwf). simplify_eq.
  apply list_elem_of_split in Ht as (xs & ys & ->). exists xs, ys. split; [done|]. split; [done|].
  intros t' Ht'. assert (Htm : t' ∈ mjoin chains).
  { apply elem_of_mjoin_tget. eexists e, _. split; [done|]. set_solver. }
  pose proof (attr_row_lt t' Htm) as Hlt. unfold lenN in Hlt. rewrite (attr_length _ _ _ _ _ Hwf) in Hlt.
  destruct (tget_lt srcs t') as [s' Hs']; [done|]. exists s'. split; [done|]. intros ->.
  assert (Hids' : ids !! (e, s) = Some t').
  { eapply attr_ids_intro; [done | set_solver | done]. }
  simplify_eq. pose proof (mjoin_NoDup_chain _ _ _ (attr_disjoint _ _ _ _ _ Hwf) Hl) as Hnd.
  apply NoDup_app in Hnd as (_ & Hdis & _). apply (Hdis t); set_solver.
Qed.
End attr_wf.

(** ** Totals *)

Lemma chain_total_app counts l k : chain_total counts (l ++ k) = chain_total counts l + chain_total counts k.
Proof. induction l as [|t l IH]; simpl; lia. Qed.

Lemma chain_total_ext counts counts' l :
  (forall t, t ∈ l -> tget counts' t = tget counts t) -> chain_total counts' l = chain_total counts l.
Proof.
  induction l as [|t l IH]; intros Heq; simpl; [done|].
  rewrite Heq, IH; [done | set_solver | set_solver].
Qed.

Lemma chain_total_insert counts l t n :
  NoDup l -> t ∈ l -> t < lenN counts ->
  chain_total (<[N.to_nat t := n]> counts) l + default 0 (tget counts t) = chain_total counts l + n.
Proof.
  intros Hnd (xs & ys & ->)%list_elem_of_split Hlt.
  apply NoDup_app in Hnd as (_ & Hdis & [Hys _]%NoDup_cons).
  rewrite !chain_total_app. simpl. rewrite tget_insert_eq by done. simpl.
  rewrite !(chain_total_ext counts (<[N.to_nat t:=n]> counts)); [lia| |].
  - intros t' ?. apply tget_insert_ne. intros ->. set_solver.
  - intros t' ?. apply tget_insert_ne. intros ->. apply (Hdis t'); set_solver.
Qed.

Lemma totals_cover_update edge_counts counts counts' chains e l l' n :
  NoDup (mjoin chains) -> totals_cover edge_counts counts chains -> tget chains e = Some l ->
  (forall t, t ∈ mjoin chains -> t ∉ l -> tget counts' t = tget counts t) ->
  chain_total counts' l' <= n ->
  totals_cover (<[N.to_nat e := n]> edge_counts) counts' (<[N.to_nat e := l']> chains).
Proof.
  intros Hnd Hcov Hl Heq Hn. unfold totals_cover in *.
  apply Forall2_tget; [by rewrite !length_insert, (Forall2_length _ _ _ Hcov)|].
  intros i x k Hx Hk. destruct (decide (i = e)) as [->|Hne].
  - pose proof (tget_Some_lt _ _ _ Hl). rewrite tget_insert_eq in Hk by done.
    rewrite tget_insert_eq in Hx by by rewrite (Forall2_lenN _ _ _ Hcov). by simplify_eq.
  - rewrite tget_insert_ne in Hx by done. rewrite tget_insert_ne in Hk by done.
    destruct (Forall2_tget_l _ _ _ _ _ Hcov Hx) as (k' & Hk' & Hle). simplify_eq.
    rewrite (chain_total_ext counts); [done|]. intros t Ht. apply Heq.
    + apply elem_of_mjoin_tget; eauto.
    + intros Ht'. by apply Hne, (mjoin_NoDup_owner chains i e k l t).
Qed.

Lemma totals_cover_new_edge edge_counts counts chains n :
  totals_cover edge_counts counts chains -> totals_cover (edge_counts ++ [n]) counts (chains ++ [[]]).
Proof. intros. apply Forall2_app; [done|]. constructor; [simpl; lia | done]. Qed.

Lemma totals_cover_rows edge_counts counts counts' chains :
  totals_cover edge_counts counts chains ->
  (forall t, t ∈ mjoin chains -> tget counts' t = tget counts t) ->
  totals_cover edge_counts counts' chains.
Proof.
  intros Hcov Heq. apply Forall2_tget; [by eapply Forall2_length|]. intros i x k Hx Hk.
  destruct (Forall2_tget_l _ _ _ _ _ Hcov Hx) as (k' & Hk' & Hle). simplify_eq.
  rewrite (chain_total_ext counts); [done|]. intros t Ht. apply Heq, elem_of_mjoin_tget; eauto.
Qed.

(** ** The reverse index *)

Lemma source_edges_wf_push se ids e s t :
  source_edges_wf se ids -> ids !! (e, s) = None ->
  source_edges_wf (<[s := default [] (se !! s) ++ [e]]> se) (<[(e, s) := t]> ids).
Proof.
  intros [Hse Hin] Hnone. assert (Hni : e ∉ default [] (se !! s)).
  { rewrite Hin, Hnone. by intros [? ?]. }
  split.
  - intros s' l. destruct (decide (s' = s)) as [->|].
    + rewrite lookup_insert_eq. intros [= <-]. split; [|by destruct (default [] (se !! s))].
      apply NoDup_app. split; [|split; [set_solver | apply NoDup_singleton]].
      destruct (se !! s) eqn:El; simpl; [by apply (Hse s) | constructor].
    + rewrite lookup_insert_ne by done. apply Hse.
  - intros s' e'. destruct (decide (s' = s)) as [->|].
    + rewrite lookup_insert_eq. simpl. rewrite elem_of_app, Hin, list_elem_of_singleton.
      destruct (decide (e' = e)) as [->|].
      * rewrite lookup_insert_eq. naive_solver.
      * rewrite lookup_insert_ne by congruence. naive_solver.
    + rewrite !lookup_insert_ne by congruence. apply Hin.
Qed.

Lemma source_edges_wf_drop_source se ids ids' s :
  source_edges_wf se ids ->
  (forall e s', ids' !! (e, s') = if decide (s' = s) then None else ids !! (e, s')) ->
  source_edges_wf (delete s se) ids'.
Proof.
  intros [Hse Hin] Hids. split.
  - intros s' l [_ ?]%lookup_delete_Some. by eapply Hse.
  - intros s' e. rewrite Hids. case_decide as Hs; [subst|].
    + rewrite lookup_delete_eq. simpl. rewrite elem_of_nil. split; [done | by intros [? ?]].
    + by rewrite lookup_delete_ne.
Qed.

Lemma source_edges_wf_drop_edge se se' ids ids' e :
  source_edges_wf se ids ->
  (forall e' s, ids' !! (e', s) = if decide (e' = e) then None else ids !! (e', s)) ->
  (forall s, default [] (se' !! s) = filter (fun h => h <> e) (default [] (se !! s))) ->
  (forall s, se' !! s <> Some []) ->
  source_edges_wf se' ids'.
Proof.
  intros [Hse Hin] Hids Hse' Hne. split.
  - intros s l Hl. split; [|by intros ->; apply (Hne s)].
    pose proof (Hse' s) as Heq. rewrite Hl in Heq. simpl in Heq. subst l.
    apply NoDup_filter. destruct (se !! s) eqn:E; simpl; [by apply (Hse s) | constructor].
  - intros s e'. rewrite Hse', list_elem_of_filter, Hin, Hids. case_decide; naive_solver.
Qed.
