(* ===== verification/Intern.v ===== *)
(** * Interning keeps the invariant ([Context::intern_concept] and its twins) *)

From S2P Require Export AttrChains.

Local Open Scope N_scope.

Lemma claim_id_Some len id : claim_id len = Some id -> id = len /\ len < NIL.
Proof.
  unfold claim_id, NIL. destruct (N.leb_spec len U32_MAX), (N.eqb_spec len U32_MAX); simpl; try done.
  intros [= <-]. lia.
Qed.

Lemma claim_id_total len : len < NIL -> claim_id len = Some len.
Proof.
  unfold claim_id, NIL. intros. destruct (N.leb_spec len U32_MAX); [|lia].
  destruct (N.eqb_spec len U32_MAX); [lia | done].
Qed.

Section namespace.
Context `{UnicodeTables}.
Implicit Types idx : EntryIndex.

Lemma entry_ok_push idx idx' sp sp' s i :
  entry_ok idx sp -> ei_push idx s i = Some idx' -> sp' ≡ₚ (s, i) :: sp -> entry_ok idx' sp'.
Proof.
  intros [Hwf Hp] Hpush Hsp. destruct (ei_push_ok _ _ _ _ Hwf Hpush) as (? & He & _).
  split; [done|]. rewrite He, Hp, Hsp. simpl. by rewrite Permutation_app_comm.
Qed.

Lemma namespace_wf_arena arena x recs aliases ids ai idx ns al :
  namespace_wf arena recs aliases ids ai idx ns al ->
  namespace_wf (arena ++ x) recs aliases ids ai idx ns al.
Proof. intros []. split; [by apply ns_ok_arena | done | done]. Qed.

Lemma namespace_wf_load_record arena recs aliases ids ai idx idx' ns al r s :
  namespace_wf arena recs aliases ids ai idx ns al ->
  ids !! s = None -> name_at arena r.1 r.2 = Some s -> ei_push idx s (lenN recs) = Some idx' ->
  namespace_wf arena (recs ++ [r]) aliases (<[s := lenN recs]> ids) ai idx' (ns ++ [s]) al.
Proof.
  intros [Hn Ha He] Hs Hr Hpush. split; [by apply ns_ok_load_record | done|].
  eapply entry_ok_push; [done..|]. unfold spellings. rewrite zip_indices_snoc, <- app_assoc. simpl.
  rewrite <- Permutation_middle. unfold lenN. by rewrite (ns_length Hn).
Qed.

Lemma namespace_wf_record arena recs aliases ids ai idx idx' ns al s :
  namespace_wf arena recs aliases ids ai idx ns al ->
  ids !! s = None -> utf8_valid s = true -> ei_push idx s (lenN recs) = Some idx' ->
  namespace_wf (arena ++ s) (recs ++ [(lenN arena, lenN s)]) aliases
    (<[s := lenN recs]> ids) ai idx' (ns ++ [s]) al.
Proof.
  intros Hn Hs Hv Hp. eapply namespace_wf_load_record; [by apply namespace_wf_arena | done | by apply name_at_snoc | done].
Qed.

Lemma namespace_wf_load_alias arena recs aliases ids ai idx idx' ns al r s target :
  namespace_wf arena recs aliases ids ai idx ns al ->
  ids !! s = None -> name_at arena r.1 r.2 = Some s -> target < lenN recs ->
  ei_push idx s target = Some idx' ->
  namespace_wf arena recs (aliases ++ [(r, target)])
    (<[s := target]> ids) (<[s := target]> ai) idx' ns (al ++ [s]).
Proof.
  intros [Hn -> He] Hs Hr Ht Hpush. pose proof (ns_al_length Hn) as Hal.
  pose proof (ns_fresh Hn s Hs) as Hf. pose proof (ns_unique _ _ _ _ _ _ Hn) as Hu. split.
  - by apply ns_ok_load_alias.
  - rewrite fmap_app, zip_with_app by done. simpl. rewrite <- list_to_map_cons.
    assert (Hk : (zip al aliases.*2).*1 = al) by (apply fst_zip; lia).
    apply list_to_map_proper; [|apply Permutation_cons_append].
    rewrite fmap_cons. constructor; rewrite Hk; [set_solver|]. by apply NoDup_app in Hu as (_ & _ & ?).
  - eapply entry_ok_push; [done..|]. rewrite fmap_app. simpl. unfold spellings.
    rewrite zip_with_app by done. simpl. rewrite app_assoc. by rewrite <- Permutation_cons_append.
Qed.

Lemma namespace_wf_alias arena recs aliases ids ai idx idx' ns al s target :
  namespace_wf arena recs aliases ids ai idx ns al ->
  ids !! s = None -> utf8_valid s = true -> target < lenN recs ->
  ei_push idx s target = Some idx' ->
  namespace_wf (arena ++ s) recs (aliases ++ [((lenN arena, lenN s), target)])
    (<[s := target]> ids) (<[s := target]> ai) idx' ns (al ++ [s]).
Proof.
  intros Hn Hs Hv Ht Hp. eapply namespace_wf_load_alias; [by apply namespace_wf_arena | done | by apply name_at_snoc | done | done].
Qed.
End namespace.

(** A fresh owner has three empty chains. *)
Lemma chains_wf_new_owner {R} (get : R -> anchor) links owners (table : list R) r :
  chains_wf links owners (get <$> table) -> lenN table < NIL -> get r = (NIL, NIL, 0) ->
  chains_wf links owners (get <$> table ++ [r]).
Proof.
  intros Hc Hl Hr. rewrite fmap_app. simpl. rewrite Hr. apply chains_wf_owner; [done|].
  by rewrite lenN_fmap.
Qed.

Section intern.
Context `{UnicodeTables}.
Implicit Types c : Context.

(** What interning a spelling did: nothing, or one new record. *)
Lemma intern_concept_inv s c id c' :
  intern_concept s c = Some (id, c') ->
  (concept_ids c !! s = Some id /\ c' = c) \/
  (concept_ids c !! s = None /\ id = lenN (concepts c) /\ lenN (concepts c) < NIL /\
   lenN (arena c) + lenN s <= U32_MAX /\ exists idx, ei_push (concept_index c) s id = Some idx /\
   c' = set_concept_ids (<[s := id]> (concept_ids c)) (set_concept_index idx
     (set_concepts (concepts c ++ [{| c_name_offset := lenN (arena c); c_name_len := lenN s;
        c_first_outgoing := NIL; c_last_outgoing := NIL; c_outgoing_count := 0;
        c_first_incoming := NIL; c_last_incoming := NIL; c_incoming_count := 0 |}])
     (set_arena (arena c ++ s) c)))).
Proof.
  unfold intern_concept. destruct (concept_ids c !! s) as [i|] eqn:E; [naive_solver|].
  destruct (claim_id _) as [i|] eqn:Hc; simpl; [|done]. apply claim_id_Some in Hc as [-> ?].
  destruct (intern_name _ _) as [r|] eqn:Hi; simpl; [|done]. apply intern_name_inv in Hi as [-> ?].
  destruct (ei_push _ _ _) as [idx|] eqn:Hp; simpl; [|done]. intros [= <- <-]. right. eauto 10.
Qed.

Lemma intern_label_inv s c id c' :
  intern_label s c = Some (id, c') ->
  (label_ids c !! s = Some id /\ c' = c) \/
  (label_ids c !! s = None /\ id = lenN (labels c) /\ lenN (labels c) < NIL /\
   lenN (arena c) + lenN s <= U32_MAX /\ exists idx, ei_push (label_index c) s id = Some idx /\
   c' = set_label_ids (<[s := id]> (label_ids c))
     (set_label_name_index ({[s]} ∪ label_name_index c) (set_label_index idx
     (set_labels (labels c ++ [{| l_name_offset := lenN (arena c); l_name_len := lenN s;
        l_first_edge := NIL; l_last_edge := NIL; l_edge_count := 0 |}])
     (set_arena (arena c ++ s) c))))).
Proof.
  unfold intern_label. destruct (label_ids c !! s) as [i|] eqn:E; [naive_solver|].
  destruct (claim_id _) as [i|] eqn:Hc; simpl; [|done]. apply claim_id_Some in Hc as [-> ?].
  destruct (intern_name _ _) as [r|] eqn:Hi; simpl; [|done]. apply intern_name_inv in Hi as [-> ?].
  destruct (ei_push _ _ _) as [idx|] eqn:Hp; simpl; [|done]. intros [= <- <-]. right. eauto 10.
Qed.

Lemma intern_source_inv s c id c' :
  intern_source s c = Some (id, c') ->
  (source_ids c !! s = Some id /\ c' = c) \/
  (source_ids c !! s = None /\ id = lenN (sources c) /\ lenN (sources c) < NIL /\
   lenN (arena c) + lenN s <= U32_MAX /\
   c' = set_source_ids (<[s := id]> (source_ids c))
     (set_sources (sources c ++ [{| s_name_offset := lenN (arena c); s_name_len := lenN s |}])
     (set_arena (arena c ++ s) c))).
Proof.
  unfold intern_source. destruct (source_ids c !! s) as [i|] eqn:E; [naive_solver|].
  destruct (claim_id _) as [i|] eqn:Hc; simpl; [|done]. apply claim_id_Some in Hc as [-> ?].
  destruct (intern_name _ _) as [r|] eqn:Hi; simpl; [|done]. apply intern_name_inv in Hi as [-> ?].
  intros [= <- <-]. right. eauto 10.
Qed.

Lemma sizes_wf_arena c s : sizes_wf c -> lenN (arena c) + lenN s <= U32_MAX ->
  sizes_wf (set_arena (arena c ++ s) c).
Proof. intros [] ?. split; simpl; try done. by rewrite lenN_app. Qed.

(** Growing the arena alone keeps every clause. *)
Lemma wf_arena c s : wf c -> lenN (arena c) + lenN s <= U32_MAX -> wf (set_arena (arena c ++ s) c).
Proof.
  intros [(ns & al & Hc) (ls & la & Hl & Hi) (ss & Hs) ? ? ? ? ? ? ? ? ? ? ? ? ?] Ha.
  split; simpl; try done.
  - exists ns, al. by apply namespace_wf_arena.
  - exists ls, la. split; [by apply namespace_wf_arena | done].
  - exists ss. by apply ns_ok_arena.
  - by apply sizes_wf_arena.
Qed.

Lemma intern_concept_wf s c id c' :
  wf c -> utf8_valid s = true -> intern_concept s c = Some (id, c') -> wf c'.
Proof.
  intros Hwf Hv [[_ ->]|(Hn & -> & Hlt & Ha & idx & Hp & ->)]%intern_concept_inv; [done|].
  pose proof (wf_concepts _ Hwf) as (ns & al & Hc).
  destruct (wf_arena c s Hwf Ha) as [_ ? ? ? ? ? ? ? ? ? ? ? ? ? Hsz ?].
  split; simpl in *; try done.
  - exists (ns ++ [s]), al. unfold concept_names; simpl. rewrite fmap_app. simpl.
    pose proof (namespace_wf_record _ _ _ _ _ _ idx _ _ s Hc Hn Hv) as Hr.
    rewrite lenN_fmap in Hr. by apply Hr.
  - by apply chains_wf_new_owner.
  - by apply chains_wf_new_owner.
  - destruct Hsz. split; simpl in *; try done. by apply lenN_le_snoc.
Qed.

Lemma intern_label_wf s c id c' :
  wf c -> utf8_valid s = true -> intern_label s c = Some (id, c') -> wf c'.
Proof.
  intros Hwf Hv [[_ ->]|(Hn & -> & Hlt & Ha & idx & Hp & ->)]%intern_label_inv; [done|].
  pose proof (wf_labels _ Hwf) as (ns & al & Hc & Hi).
  destruct (wf_arena c s Hwf Ha) as [? _ ? ? ? ? ? ? ? ? ? ? ? ? Hsz ?].
  split; simpl in *; try done.
  - exists (ns ++ [s]), al. split; simpl; [|rewrite Hi; set_solver]. rewrite fmap_app. simpl.
    pose proof (namespace_wf_record _ _ _ _ _ _ idx _ _ s Hc Hn Hv) as Hr.
    rewrite lenN_fmap in Hr. by apply Hr.
  - by apply chains_wf_new_owner.
  - destruct Hsz. split; simpl in *; try done. by apply lenN_le_snoc.
Qed.

Lemma intern_source_wf s c id c' :
  wf c -> utf8_valid s = true -> intern_source s c = Some (id, c') -> wf c'.
Proof.
  intros Hwf Hv [[_ ->]|(Hn & -> & Hlt & Ha & ->)]%intern_source_inv; [done|].
  pose proof (wf_sources _ Hwf) as (ns & Hc).
  destruct (wf_arena c s Hwf Ha) as [? ? _ ? ? ? ? ? Hrows ? ? ? ? ? Hsz ?].
  split; simpl in *; try done.
  - exists (ns ++ [s]). unfold source_names; simpl. rewrite fmap_app. simpl.
    pose proof (ns_ok_record _ _ _ _ _ _ s Hc Hn Hv) as Hr.
    by rewrite lenN_fmap in Hr.
  - eapply rows_wf_mono; [| |done]; [rewrite lenN_snoc; lia | eauto].
  - destruct Hsz. split; simpl in *; try done. by apply lenN_le_snoc.
Qed.

(** The id returned is the one the spelling now resolves to. *)
Lemma intern_concept_id s c id c' : intern_concept s c = Some (id, c') -> concept_ids c' !! s = Some id.
Proof.
  intros [[? ->]|(_ & -> & _ & _ & ? & _ & ->)]%intern_concept_inv; [done|]. apply lookup_insert_eq.
Qed.
Lemma intern_label_id s c id c' : intern_label s c = Some (id, c') -> label_ids c' !! s = Some id.
Proof.
  intros [[? ->]|(_ & -> & _ & _ & ? & _ & ->)]%intern_label_inv; [done|]. apply lookup_insert_eq.
Qed.
Lemma intern_source_id s c id c' : intern_source s c = Some (id, c') -> source_ids c' !! s = Some id.
Proof. intros [[? ->]|(_ & -> & _ & _ & ->)]%intern_source_inv; [done|]. apply lookup_insert_eq. Qed.

(** Resolved ids name records. *)
Lemma concept_id_lt c s i : wf c -> concept_ids c !! s = Some i -> i < lenN (concepts c).
Proof. intros [(ns & al & [Hn _ _])] Hi. apply (ns_lookup_lt Hn) in Hi. by rewrite lenN_fmap in Hi. Qed.
Lemma label_id_lt c s i : wf c -> label_ids c !! s = Some i -> i < lenN (labels c).
Proof. intros [_ (ns & al & [Hn _ _] & _)] Hi. apply (ns_lookup_lt Hn) in Hi. by rewrite lenN_fmap in Hi. Qed.
Lemma source_id_lt c s i : wf c -> source_ids c !! s = Some i -> i < lenN (sources c).
Proof. intros [_ _ (ns & Hn)] Hi. apply (ns_lookup_lt Hn) in Hi. by rewrite lenN_fmap in Hi. Qed.
End intern.
