(* ===== verification/Write.v ===== *)
(** * Writing associations ([src/context/write.rs])

    [ensure_room], [upsert] with its interning and chain appends, and
    [attribute]. *)

From S2P Require Export Wf.

Local Open Scope N_scope.

(** ** Edges and attributions *)

Definition fresh_edge (subject : ConceptId) (label : LabelId) (object : ConceptId)
    (count : N) (sum : f64) : EdgeRecord := {|
  e_subject := subject; e_label := label; e_object := object;
  e_next_outgoing := NIL; e_next_incoming := NIL; e_next_labeled := NIL;
  e_first_attribution := NIL; e_last_attribution := NIL; e_count := count; e_sum := sum |}.

(** One [append_to_chain] call, with the anchor read from and stored back into
    row [owner] of its table. *)
Definition append_edge {R} (get : R -> anchor) (put : anchor -> R -> R)
    (set_next : EdgeId -> EdgeRecord -> EdgeRecord) (owner edge_id : N)
    (edges : list EdgeRecord) (table : list R) : option (list EdgeRecord * list R) :=
  node ← tget table owner;
  '(edges, a) ← append_to_chain edges (get node) edge_id set_next;
  table ← tupd table owner (put a);
  Some (edges, table).

(** The edge a write creates: the record, its triple, its three chains. *)
Definition push_edge (subject_id : ConceptId) (label_id : LabelId) (object_id : ConceptId)
    (count : N) (sum : f64) (c : Context) : option (EdgeId * Context) :=
  edge_id ← claim_id (lenN (edges c));
  let ids := <[(subject_id, label_id, object_id) := edge_id]> (edge_ids c) in
  let edges := edges c ++ [fresh_edge subject_id label_id object_id count sum] in
  '(edges, concepts) ←
    append_edge out_anchor set_out_anchor set_next_outgoing subject_id edge_id edges (concepts c);
  '(edges, concepts) ←
    append_edge in_anchor set_in_anchor set_next_incoming object_id edge_id edges concepts;
  '(edges, labels) ←
    append_edge label_anchor set_label_anchor set_next_labeled label_id edge_id edges (labels c);
  Some (edge_id, set_edge_ids ids (set_edges edges (set_concepts concepts (set_labels labels c)))).

Definition set_t_next (n : AttributionId) (t : AttributionRecord) : AttributionRecord :=
  {| t_source := t_source t; t_next := n; t_count := t_count t; t_sum := t_sum t |}.
Definition set_t_totals (count : N) (sum : f64) (t : AttributionRecord) : AttributionRecord :=
  {| t_source := t_source t; t_next := t_next t; t_count := count; t_sum := sum |}.

(** A new attribution record at the tail of its edge's chain. *)
Definition push_attribution (edge_id : EdgeId) (source_id : SourceId) (count : N) (sum : f64)
    (paragraph : option N) (c : Context) : option Context :=
  attribution_id ← claim_id (lenN (attributions c));
  let record := {| t_source := source_id; t_next := NIL; t_count := count; t_sum := sum |} in
  let attributions := attributions c ++ [record] in
  let locators :=
    match paragraph with
    | Some paragraph => attribution_locators c ++
        [{| k_attribution := attribution_id; k_paragraph := paragraph |}]
    | None => attribution_locators c
    end in
  edge ← tget (edges c) edge_id;
  let tail := e_last_attribution edge in
  edges ← tupd (edges c) edge_id
    (set_attribution_ends (if tail =? NIL then attribution_id else e_first_attribution edge)
       attribution_id);
  attributions ← (if tail =? NIL then Some attributions
                  else tupd attributions tail (set_t_next attribution_id));
  Some (set_attribution_ids (<[(edge_id, source_id) := attribution_id]> (attribution_ids c))
       (set_source_edges (<[source_id := default [] (source_edges c !! source_id) ++ [edge_id]]>
                            (source_edges c))
       (set_locators locators
       (set_edges edges
       (set_attributions attributions c))))).

Definition attribute (edge_id : EdgeId) (source_id : SourceId) (weight : f64)
    (paragraph : option N) (c : Context) : option Context :=
  match attribution_ids c !! (edge_id, source_id) with
  | Some existing =>
    record ← tget (attributions c) existing;
    attributions ← tupd (attributions c) existing
      (set_t_totals (u64_add (t_count record) 1) (accumulate_saturating (t_sum record) weight));
    Some (set_attributions attributions c)
  | None => push_attribution edge_id source_id 1 weight paragraph c
  end.

(** The existing edge of [upsert]: accumulate, and revive a dead one. *)
Definition accumulate_edge (edge_id : EdgeId) (weight : f64) (c : Context) : option Context :=
  edge ← tget (edges c) edge_id;
  let was_dead := e_count edge =? 0 in
  edges ← tupd (edges c) edge_id
    (set_totals (u64_add (e_count edge) 1) (accumulate_saturating (e_sum edge) weight));
  Some (set_dead_edges (if was_dead then dead_edges c - 1 else dead_edges c) (set_edges edges c)).

(** ** Capacity *)

Definition opt_len (name : option name) : N := match name with Some name => lenN name | None => 0 end.

Definition existing_edge (subject label object : name) (c : Context) : option EdgeId :=
  subject_id ← concept_ids c !! subject;
  label_id ← label_ids c !! label;
  object_id ← concept_ids c !! object;
  edge_ids c !! (subject_id, label_id, object_id).

Definition already_attributed (edge : option EdgeId) (source : name) (c : Context) : bool :=
  match edge, source_ids c !! source with
  | Some edge_id, Some source_id => bool_decide (is_Some (attribution_ids c !! (edge_id, source_id)))
  | _, _ => false
  end.

Definition ensure_room (subject label object : name) (source : option name) (c : Context)
    : result unit ContextFull :=
  let subject_new := bool_decide (concept_ids c !! subject = None) in
  let object_new := bool_decide (object <> subject) && bool_decide (concept_ids c !! object = None) in
  let label_new := bool_decide (label_ids c !! label = None) in
  let source_new :=
    match source with Some name => bool_decide (source_ids c !! name = None) | None => false end in
  let new_concepts := N.b2n subject_new + N.b2n object_new in
  _ ←? refuse_if (negb (ids_left (lenN (concepts c)) new_concepts)) full_concepts;
  _ ←? refuse_if (label_new && negb (ids_left (lenN (labels c)) 1)) full_labels;
  _ ←? refuse_if (source_new && negb (ids_left (lenN (sources c)) 1)) full_sources;
  let existing := existing_edge subject label object c in
  _ ←? refuse_if (bool_decide (existing = None) && negb (ids_left (lenN (edges c)) 1)) full_edges;
  _ ←? match source with
      | Some name =>
        refuse_if (negb (already_attributed existing name c) &&
                   negb (ids_left (lenN (attributions c)) 1)) full_attributions
      | None => Ok tt
      end;
  let arena_growth :=
    (if subject_new then lenN subject else 0) + (if object_new then lenN object else 0) +
    (if label_new then lenN label else 0) + (if source_new then opt_len source else 0) in
  refuse_if (negb (arena_fits (lenN (arena c)) arena_growth)) full_arena.

(** ** The write *)

Section write.
Context `{UnicodeTables}.

Definition intern_source_opt (source : option name) (c : Context)
    : option (option SourceId * Context) :=
  match source with
  | Some name => '(id, c) ← intern_source name c; Some (Some id, c)
  | None => Some (None, c)
  end.

Definition upsert_edge (key : ConceptId * LabelId * ConceptId) (weight : f64) (c : Context)
    : option (EdgeId * Context) :=
  match edge_ids c !! key with
  | Some edge_id => c ← accumulate_edge edge_id weight c; Some (edge_id, c)
  | None => push_edge key.1.1 key.1.2 key.2 1 weight c
  end.

Definition upsert (subject label object : name) (weight : f64) (source : option name)
    (paragraph : option N) (c : Context) : option (result unit ContextFull * Context) :=
  if negb (f64_finite weight) then None
  else
    match ensure_room subject label object source c with
    | Err e => Some (Err e, c)
    | Ok _ =>
      '(subject_id, c) ← intern_concept subject c;
      '(object_id, c) ← intern_concept object c;
      '(label_id, c) ← intern_label label c;
      '(source_id, c) ← intern_source_opt source c;
      '(edge_id, c) ← upsert_edge (subject_id, label_id, object_id) weight c;
      c ← match source_id with
          | Some source_id => attribute edge_id source_id weight paragraph c
          | None => Some c
          end;
      Some (Ok tt, c)
    end.

Definition associate (subject label object : name) (weight : f64) (c : Context)
    : option (result unit ContextFull * Context) :=
  upsert subject label object weight None None c.

Definition associate_from (subject label object : name) (weight : f64) (source : name)
    (paragraph : option N) (c : Context) : option (result unit ContextFull * Context) :=
  upsert subject label object weight (Some source) paragraph c.
End write.
