(* ===== verification/WriteWf.v ===== *)
(** * Writing keeps the invariant

    The three chain appends, the new edge, the accumulated edge and the
    attribution, then [upsert] as a whole. *)

From S2P Require Export Intern Write.

Local Open Scope N_scope.

(** ** One chain append *)

Section append.
Context {R : Type} (get : R -> anchor) (put : anchor -> R -> R).
Context (nx own : EdgeRecord -> N) (set_next : EdgeId -> EdgeRecord -> EdgeRecord).
Context (get_put : forall a r, get (put a r) = a) (nx_set : forall n e, nx (set_next n e) = n)
  (own_set : forall n e, own (set_next n e) = own e).
Implicit Types E : list EdgeRecord.

Lemma append_edge_inv o id E table E' table' :
  append_edge get put set_next o id E table = Some (E', table') ->
  exists r, tget table o = Some r /\
    tupd table o (put (anchor_append (get r) id)) = Some table' /\
    (if (get r).1.2 =? NIL then E' = E else tupd E (get r).1.2 (set_next id) = Some E').
Proof using Type.
  unfold append_edge, append_to_chain. destruct (tget table o) as [r|]; simpl; [|done].
  destruct (get r) as [[first last] count] eqn:Hg; simpl. intros Happ. exists r. split; [done|].
  destruct (last =? NIL) eqn:Hl; simpl in *.
  - destruct (tupd table o _) eqn:Ht; simpl in *; [|done]. injection Happ as <- <-.
    by rewrite Hg; simpl; rewrite Hl.
  - destruct (tupd E last _) eqn:He; simpl in *; [|done].
    destruct (tupd table o _) eqn:Ht; simpl in *; [|done]. injection Happ as <- <-.
    by rewrite Hg; simpl; rewrite Hl.
Qed.

Lemma append_edge_total o id E table :
  o < lenN table -> (forall r, tget table o = Some r -> (get r).1.2 = NIL \/ (get r).1.2 < lenN E) ->
  exists E' table', append_edge get put set_next o id E table = Some (E', table').
Proof using Type.
  intros [r Hr]%tget_lt Hlast. pose proof (tget_Some_lt _ _ _ Hr) as Ho. specialize (Hlast r Hr).
  unfold append_edge, append_to_chain. rewrite Hr. simpl.
  destruct (get r) as [[first last] count]; simpl in *. destruct (N.eqb_spec last NIL) as [|Hl]; simpl.
  - edestruct (tupd_total table o) as [t' ->]; [done|]. simpl. eauto.
  - destruct Hlast as [?|[E' ->]%(tupd_total E last (set_next id))]; [done|]. simpl.
    edestruct (tupd_total table o) as [t' ->]; [done|]. simpl. eauto.
Qed.

Lemma append_edge_frame {A B} (g : EdgeRecord -> A) (h : R -> B) o id E table E' table' :
  append_edge get put set_next o id E table = Some (E', table') ->
  (forall n e, g (set_next n e) = g e) -> (forall a r, h (put a r) = h r) ->
  g <$> E' = g <$> E /\ h <$> table' = h <$> table.
Proof using Type.
  intros (r & _ & Ht & He)%append_edge_inv Hg Hh. split.
  - destruct (_ =? NIL); [by subst|]. eapply tupd_fmap_id; [|done]. auto.
  - eapply tupd_fmap_id; [|done]. auto.
Qed.

Lemma append_edge_wf links owners o E table E' table' :
  chains_wf links owners (get <$> table) -> lenN links < NIL ->
  nx <$> E = links ++ [NIL] -> own <$> E = owners ++ [o] ->
  append_edge get put set_next o (lenN links) E table = Some (E', table') ->
  chains_wf (nx <$> E') (own <$> E') (get <$> table').
Proof using All.
  intros Hwf Hlt Hnx Hown Happ.
  destruct (append_edge_frame own (fun _ => tt) _ _ _ _ _ _ Happ) as [-> _]; [done..|]. rewrite Hown.
  apply append_edge_inv in Happ as (r & Hr & Ht & He).
  assert (Ha : tget (get <$> table) o = Some (get r)) by by rewrite tget_fmap, Hr.
  replace (nx <$> E') with (links_append links (get r)).
  - eapply chains_wf_append; [done..|]. apply tupd_Some in Ht as (r' & Hr' & ->). simplify_eq.
    apply tupd_Some. exists (get r). split; [done|]. by rewrite list_fmap_insert, get_put.
  - pose proof (chains_each _ _ _ Hwf o _ Ha) as Hok.
    destruct (get r) as [[first last] count]; simpl in *.
    destruct Hok as (ids & Hc & Hlast & _). subst last. destruct (N.eqb_spec (tail_of ids) NIL) as [|Hnil].
    + by subst E'.
    + apply (tupd_fmap nx _ (fun _ => lenN links) _ _ _ (fun _ => nx_set _ _)) in He.
      apply tupd_Some in He as (x & Hx & He). rewrite He. rewrite Hnx. symmetry. apply insert_app_l.
      pose proof (chain_from_last_lt _ _ _ Hc Hnil). unfold lenN in *. lia.
Qed.
End append.

(** ** A new edge *)

Lemma count_dead_app E E' : count_dead (E ++ E') = count_dead E + count_dead E'.
Proof. unfold count_dead. by rewrite filter_app, lenN_app. Qed.

Lemma count_dead_totals E E' : e_count <$> E = e_count <$> E' -> count_dead E = count_dead E'.
Proof.
  unfold count_dead, is_dead. revert E'. induction E as [|e E IH]; intros [|e' E']; simpl; try done.
  intros [= He HE]. rewrite !filter_cons, He. destruct (e_count e' =? 0); simpl; unfold lenN in *; simpl.
  - specialize (IH E' HE). lia.
  - by apply IH.
Qed.

Lemma Forall_fmap_frame {A B C} (P : B -> C -> Prop) (g : A -> B) (h : A -> C) (l l' : list A) :
  g <$> l' = g <$> l -> h <$> l' = h <$> l ->
  Forall (fun x => P (g x) (h x)) l -> Forall (fun x => P (g x) (h x)) l'.
Proof.
  revert l. induction l' as [|x l' IH]; intros [|y l]; simpl; try done.
  intros [= Hg Hgs] [= Hh Hhs] [? ?]%Forall_cons. constructor; [by rewrite Hg, Hh | by eapply IH].
Qed.

(** The links of the new row, and the chains it joins. *)
Lemma push_edge_inv s l o n w c id c' :
  push_edge s l o n w c = Some (id, c') ->
  id = lenN (edges c) /\ lenN (edges c) < NIL /\ exists E1 E2 E3 C1 C2 L1,
    append_edge out_anchor set_out_anchor set_next_outgoing s id
      (edges c ++ [fresh_edge s l o n w]) (concepts c) = Some (E1, C1) /\
    append_edge in_anchor set_in_anchor set_next_incoming o id E1 C1 = Some (E2, C2) /\
    append_edge label_anchor set_label_anchor set_next_labeled l id E2 (labels c) = Some (E3, L1) /\
    c' = set_edge_ids (<[(s, l, o) := id]> (edge_ids c)) (set_edges E3 (set_concepts C2 (set_labels L1 c))).
Proof.
  unfold push_edge. destruct (claim_id _) eqn:Hc; simpl; [|done]. apply claim_id_Some in Hc as [-> ?].
  destruct (append_edge out_anchor _ _ _ _ _ _) as [[E1 C1]|] eqn:H1; simpl; [|done].
  destruct (append_edge in_anchor _ _ _ _ _ _) as [[E2 C2]|] eqn:H2; simpl; [|done].
  destruct (append_edge label_anchor _ _ _ _ _ _) as [[E3 L1]|] eqn:H3; simpl; [|done].
  intros [= <- <-]. eauto 20.
Qed.

(** What a new edge leaves alone: every projection but the links. *)
Lemma push_edge_frame {A} (g : EdgeRecord -> A) s l o n w c id c' :
  (forall n e, g (set_next_outgoing n e) = g e) -> (forall n e, g (set_next_incoming n e) = g e) ->
  (forall n e, g (set_next_labeled n e) = g e) ->
  push_edge s l o n w c = Some (id, c') ->
  g <$> edges c' = (g <$> edges c) ++ [g (fresh_edge s l o n w)].
Proof.
  intros G1 G2 G3 (_ & _ & E1 & E2 & E3 & C1 & C2 & L1 & H1 & H2 & H3 & ->)%push_edge_inv. simpl.
  destruct (append_edge_frame _ _ _ g (fun _ => tt) _ _ _ _ _ _ H3) as [-> _]; [done..|].
  destruct (append_edge_frame _ _ _ g (fun _ => tt) _ _ _ _ _ _ H2) as [-> _]; [done..|].
  destruct (append_edge_frame _ _ _ g (fun _ => tt) _ _ _ _ _ _ H1) as [-> _]; [done..|].
  by rewrite fmap_app.
Qed.

Section triples.
Context {K : Type} `{Countable K}.

(** The lookup table of an index of distinct keys. *)
Lemma key_index_snoc (m : gmap K N) (keys : list K) k0 :
  (forall k i, m !! k = Some i <-> tget keys i = Some k) -> m !! k0 = None ->
  forall k i, <[k0 := lenN keys]> m !! k = Some i <-> tget (keys ++ [k0]) i = Some k.
Proof.
  intros Hm Hk k i. rewrite lookup_insert_Some. split.
  - intros [[-> <-]|[_ ?%Hm]]; [apply tget_snoc | by apply tget_app_mono].
  - intros [Hi|[-> ->]]%tget_snoc_inv; [|by left]. right. apply Hm in Hi. split; [|done]. congruence.
Qed.
End triples.

(** Rewrites a projection of the result of an append to the one before it. *)
Ltac append_frame H g h :=
  let HE := fresh "FE" in let HT := fresh "FT" in
  destruct (append_edge_frame _ _ _ g h _ _ _ _ _ _ H) as [HE HT];
  [done | done |]; rewrite ?HE, ?HT; clear HE HT.

Section write_wf.
Context `{UnicodeTables}.
Implicit Types c : Context.

(** The three adjacency chains after a new edge. *)
Lemma push_edge_chains s l o n w c id c' :
  wf c -> push_edge s l o n w c = Some (id, c') ->
  chains_wf (e_next_outgoing <$> edges c') (e_subject <$> edges c') (out_anchor <$> concepts c') /\
  chains_wf (e_next_incoming <$> edges c') (e_object <$> edges c') (in_anchor <$> concepts c') /\
  chains_wf (e_next_labeled <$> edges c') (e_label <$> edges c') (label_anchor <$> labels c').
Proof.
  intros Hwf (-> & Hlt & E1 & E2 & E3 & C1 & C2 & L1 & H1 & H2 & H3 & ->)%push_edge_inv.
  simpl. split; [|split].
  - append_frame H3 e_next_outgoing l_range. append_frame H3 e_subject l_range.
    append_frame H2 e_next_outgoing out_anchor. append_frame H2 e_subject out_anchor.
    rewrite <- (lenN_fmap e_next_outgoing (edges c)) in H1.
    eapply append_edge_wf; [| | |apply Hwf | | | | exact H1]; try done; try (by intros [[? ?] ?] ?);
      [by rewrite lenN_fmap | by rewrite fmap_app..].
  - append_frame H3 e_next_incoming l_range. append_frame H3 e_object l_range.
    rewrite <- (lenN_fmap e_next_incoming (edges c)) in H2.
    eapply append_edge_wf; [| | | | | | | exact H2]; try done; try (by intros [[? ?] ?] ?).
    + append_frame H1 e_next_incoming in_anchor. apply Hwf.
    + by rewrite lenN_fmap.
    + append_frame H1 e_next_incoming in_anchor. by rewrite fmap_app.
    + append_frame H1 e_object in_anchor. by rewrite fmap_app.
  - rewrite <- (lenN_fmap e_next_labeled (edges c)) in H3.
    eapply append_edge_wf; [| | |apply Hwf | | | | exact H3]; try done; try (by intros [[? ?] ?] ?).
    + by rewrite lenN_fmap.
    + append_frame H2 e_next_labeled out_anchor. append_frame H1 e_next_labeled in_anchor.
      by rewrite fmap_app.
    + append_frame H2 e_label out_anchor. append_frame H1 e_label in_anchor.
      by rewrite fmap_app.
Qed.

(** A new edge touches nothing but the edge table, its index and anchors. *)
Lemma push_edge_other s l o n w c id c' :
  push_edge s l o n w c = Some (id, c') ->
  c_range <$> concepts c' = c_range <$> concepts c /\ l_range <$> labels c' = l_range <$> labels c /\
  c' = set_edge_ids (<[(s, l, o) := id]> (edge_ids c))
         (set_edges (edges c') (set_concepts (concepts c') (set_labels (labels c') c))).
Proof.
  intros (-> & Hlt & E1 & E2 & E3 & C1 & C2 & L1 & H1 & H2 & H3 & ->)%push_edge_inv. simpl.
  append_frame H3 e_triple l_range. append_frame H2 e_triple c_range.
  append_frame H1 e_triple c_range. done.
Qed.

Lemma Forall_totals E : Forall totals_ok E <->
  Forall (fun n => n <= U64_MAX) (e_count <$> E) /\ Forall (fun x => f64_finite x = true) (e_sum <$> E).
Proof. rewrite !Forall_fmap, <- Forall_and. done. Qed.

Lemma push_edge_wf s l o n w c id c' :
  wf c -> edge_ids c !! (s, l, o) = None -> 0 < n <= U64_MAX -> f64_finite w = true ->
  push_edge s l o n w c = Some (id, c') -> wf c'.
Proof.
  intros Hwf Hnone Hn Hw Hpush.
  destruct (push_edge_chains _ _ _ _ _ _ _ _ Hwf Hpush) as (Hco & Hci & Hcl).
  pose proof (push_edge_frame e_triple _ _ _ _ _ _ _ _ ltac:(done) ltac:(done) ltac:(done) Hpush) as Ft.
  pose proof (push_edge_frame e_ends _ _ _ _ _ _ _ _ ltac:(done) ltac:(done) ltac:(done) Hpush) as Fe.
  pose proof (push_edge_frame e_count _ _ _ _ _ _ _ _ ltac:(done) ltac:(done) ltac:(done) Hpush) as Fc.
  pose proof (push_edge_frame e_sum _ _ _ _ _ _ _ _ ltac:(done) ltac:(done) ltac:(done) Hpush) as Fs.
  destruct (push_edge_other _ _ _ _ _ _ _ _ Hpush) as (Hcr & Hlr & Hc').
  apply push_edge_inv in Hpush as (-> & Hlt & _). revert Hco Hci Hcl Ft Fe Fc Fs Hcr Hlr.
  rewrite Hc'. simpl. generalize (edges c'), (concepts c'), (labels c'). clear c' Hc'.
  intros E C L Hco Hci Hcl Ft Fe Fc Fs Hcr Hlr.
  destruct Hwf as [(ns & al & ?) (ls & la & ? & ?) ? Htr ? ? ? (chains & Hat & Hdead & Hcov) ? ? Htot Hd ? ? [] ?].
  pose proof (lenN_fmap c_range C) as HlC. rewrite Hcr, lenN_fmap in HlC.
  pose proof (lenN_fmap l_range L) as HlL. rewrite Hlr, lenN_fmap in HlL.
  pose proof (lenN_fmap e_triple E) as HlE. rewrite Ft, lenN_snoc, lenN_fmap in HlE.
  split; simpl; try assumption.
  - exists ns, al. unfold concept_names. simpl. by rewrite Hcr.
  - exists ls, la. unfold label_names. simpl. by rewrite Hlr.
  - rewrite Ft, <- (lenN_fmap e_triple (edges c)). by apply key_index_snoc.
  - exists (chains ++ [[]]). unfold attributions_wf. simpl. rewrite Fe, Fc. split; [|split].
    + by apply attr_wf_new_edge.
    + rewrite join_app. simpl. by rewrite app_nil_r.
    + by apply totals_cover_new_edge.
  - apply Forall_totals. rewrite Fc, Fs, !Forall_app, !Forall_singleton. simpl.
    apply Forall_totals in Htot as [? ?]. naive_solver.
  - rewrite Hd. symmetry. etransitivity.
    { apply (count_dead_totals E (edges c ++ [fresh_edge s l o n w])). by rewrite fmap_app. }
    rewrite count_dead_app. unfold count_dead at 2, is_dead. simpl. rewrite filter_cons. simpl.
    destruct (N.eqb_spec n 0); [lia|]. rewrite decide_False by done. simpl. unfold lenN; simpl. lia.
  - split; simpl; try assumption; unfold NIL in *; lia.
Qed.

End write_wf.

(** ** Edges and attributions under update

    Every later operation leaves the triples, the adjacency links, the names and
    their tables alone, and changes totals and attribution chains. *)

Definition e_fixed (e : EdgeRecord) : (ConceptId * LabelId * ConceptId) * (N * N * N) :=
  (e_triple e, (e_next_outgoing e, e_next_incoming e, e_next_labeled e)).

Definition update_attributions (E : list EdgeRecord) (T : list AttributionRecord)
    (ids : gmap (N * N) N) (se : gmap N (list N)) (K : list AttributionLocatorRecord)
    (de da : N) (c : Context) : Context :=
  set_edges E (set_attributions T (set_attribution_ids ids (set_source_edges se
    (set_locators K (set_dead_edges de (set_dead_attributions da c)))))).

Lemma fmap_via {A B C} (g : A -> B) (h : A -> C) (p : B -> C) (l l' : list A) :
  (forall x, h x = p (g x)) -> g <$> l' = g <$> l -> h <$> l' = h <$> l.
Proof.
  intros Hp Heq. rewrite !(list_fmap_ext h (p ∘ g)) by (intros; apply Hp).
  by rewrite !list_fmap_compose, Heq.
Qed.

Lemma count_dead_insert E i e e' :
  tget E i = Some e ->
  count_dead (<[N.to_nat i := e']> E) + N.b2n (is_dead e) = count_dead E + N.b2n (is_dead e').
Proof.
  rewrite tget_lookup. intros He. pose proof (lookup_lt_Some _ _ _ He).
  rewrite insert_take_drop by done. pose proof (take_drop_middle _ _ _ He) as Heq.
  rewrite <- Heq at 3. rewrite !count_dead_app. unfold count_dead at 2 4, is_dead. rewrite !filter_cons.
  fold (is_dead e) (is_dead e').
  destruct (is_dead e), (is_dead e'); simpl;
    rewrite ?(decide_True (P := true = true)), ?(decide_False (P := false = true)) by done;
    unfold count_dead, is_dead, lenN; simpl; lia.
Qed.

Section update_wf.
Context `{UnicodeTables}.
Implicit Types c : Context.

Record update_ok c (E : list EdgeRecord) (T : list AttributionRecord)
    (ids : gmap (N * N) N) (se : gmap N (list N)) (K : list AttributionLocatorRecord) (de da : N)
    : Prop := {
  up_fixed : e_fixed <$> E = e_fixed <$> edges c;
  up_attributions : exists chains,
    attr_wf (e_ends <$> E) (t_next <$> T) (t_source <$> T) ids chains /\
    da + lenN (mjoin chains) = lenN T /\
    totals_cover (e_count <$> E) (t_count <$> T) chains;
  up_rows : rows_wf (lenN (sources c)) ids T;
  up_reverse : source_edges_wf se ids;
  up_totals : Forall totals_ok E;
  up_dead : de = count_dead E;
  up_locators : StronglySorted N.lt (k_attribution <$> K);
  up_locator_rows : Forall (fun k => k_attribution k < lenN T /\ k_paragraph k <= U32_MAX) K;
  up_size : lenN T <= NIL
}.

Lemma wf_update c E T ids se K de da :
  wf c -> update_ok c E T ids se K de da -> wf (update_attributions E T ids se K de da c).
Proof.
  intros [? ? ? Htr ? ? ? _ _ _ _ _ _ _ [] ?] [Hf (chains & ? & ? & ?) ? ? ? ? ? ? ?].
  pose proof (fmap_via e_fixed e_triple fst _ _ ltac:(done) Hf) as F1.
  pose proof (fmap_via e_fixed e_subject (fun p => p.1.1.1) _ _ ltac:(done) Hf) as F2.
  pose proof (fmap_via e_fixed e_label (fun p => p.1.1.2) _ _ ltac:(done) Hf) as F3.
  pose proof (fmap_via e_fixed e_object (fun p => p.1.2) _ _ ltac:(done) Hf) as F4.
  pose proof (fmap_via e_fixed e_next_outgoing (fun p => p.2.1.1) _ _ ltac:(done) Hf) as F5.
  pose proof (fmap_via e_fixed e_next_incoming (fun p => p.2.1.2) _ _ ltac:(done) Hf) as F6.
  pose proof (fmap_via e_fixed e_next_labeled (fun p => p.2.2) _ _ ltac:(done) Hf) as F7.
  pose proof (lenN_fmap e_fixed E) as HlE. rewrite Hf, lenN_fmap in HlE.
  split; simpl; rewrite ?F1, ?F2, ?F3, ?F4, ?F5, ?F6, ?F7; try assumption.
  - exists chains. split; [assumption | split; assumption].
  - split; simpl; try assumption. by rewrite <- HlE.
Qed.

(** [wf] gives back exactly what [update_ok] asks for. *)
Lemma wf_update_ok c : wf c ->
  update_ok c (edges c) (attributions c) (attribution_ids c) (source_edges c)
    (attribution_locators c) (dead_edges c) (dead_attributions c).
Proof.
  intros [? ? ? ? ? ? ? (chains & ? & ? & ?) ? ? ? ? ? ? [] ?]. split; try assumption; [done|].
  exists chains. done.
Qed.

Lemma wf_edge c i e : wf c -> tget (edges c) i = Some e -> totals_ok e /\
  e_subject e < lenN (concepts c) /\ e_label e < lenN (labels c) /\ e_object e < lenN (concepts c).
Proof.
  intros Hwf He. split; [|split; [|split]].
  - pose proof (wf_totals _ Hwf) as Ht. rewrite tget_lookup in He. by eapply Forall_lookup_1 in Ht.
  - rewrite <- (lenN_fmap out_anchor). eapply (chains_owner _ _ _ (wf_outgoing _ Hwf)).
    by rewrite tget_fmap, He.
  - rewrite <- (lenN_fmap label_anchor). eapply (chains_owner _ _ _ (wf_labeled _ Hwf)).
    by rewrite tget_fmap, He.
  - rewrite <- (lenN_fmap in_anchor). eapply (chains_owner _ _ _ (wf_incoming _ Hwf)).
    by rewrite tget_fmap, He.
Qed.

(** ** Accumulating onto an existing edge *)

Lemma accumulate_edge_inv id w c c' :
  accumulate_edge id w c = Some c' -> exists e, tget (edges c) id = Some e /\
    c' = update_attributions
      (<[N.to_nat id := set_totals (u64_add (e_count e) 1) (accumulate_saturating (e_sum e) w) e]> (edges c))
      (attributions c) (attribution_ids c) (source_edges c) (attribution_locators c)
      (if e_count e =? 0 then dead_edges c - 1 else dead_edges c) (dead_attributions c) c.
Proof.
  unfold accumulate_edge. destruct (tget (edges c) id) as [e|] eqn:He; simpl; [|done].
  unfold tupd. rewrite He. simpl. intros [= <-]. exists e. done.
Qed.

(** An update of one edge that keeps its ends. *)
Lemma update_ok_totals c E T ids se K de da i e e' :
  update_ok c E T ids se K de da -> tget E i = Some e -> e_fixed e' = e_fixed e ->
  e_ends e' = e_ends e -> totals_ok e' -> e_count e <= e_count e' ->
  update_ok c (<[N.to_nat i := e']> E) T ids se K
    (de + N.b2n (is_dead e') - N.b2n (is_dead e)) da.
Proof.
  intros [Hf (chains & Ha & Hd & Hc) ? ? Ht Hde ? ? ?] He Hfix Hends Htot Hle.
  pose proof (count_dead_insert E i e e' He) as Hcd. rewrite tget_lookup in He.
  assert (Hid : forall A (g : EdgeRecord -> A), g e' = g e -> g <$> <[N.to_nat i := e']> E = g <$> E).
  { intros A g Hg. rewrite list_fmap_insert, Hg. apply list_insert_id. by rewrite list_lookup_fmap, He. }
  split; try assumption.
  - by rewrite Hid.
  - exists chains. rewrite Hid by done. split; [done|]. split; [done|].
    rewrite list_fmap_insert. apply Forall2_tget; [by rewrite length_insert, (Forall2_length _ _ _ Hc)|].
    intros j n l. destruct (decide (j = i)) as [->|].
    + rewrite tget_insert_eq by (rewrite lenN_fmap; unfold lenN; apply lookup_lt_Some in He; lia).
      intros [= <-] Hl. destruct (Forall2_tget_r _ _ _ _ _ Hc Hl) as (n & Hn & ?).
      rewrite tget_fmap, tget_lookup, He in Hn. simplify_eq/=. lia.
    + rewrite tget_insert_ne by done. intros Hn Hl.
      destruct (Forall2_tget_r _ _ _ _ _ Hc Hl) as (n' & Hn' & ?). by simplify_eq.
  - by apply Forall_insert.
  - lia.
Qed.

(** Room for [n] more assertions on the chain of an edge. *)
Definition attr_slack c (id n : N) : Prop :=
  exists chains, attributions_wf c chains /\ forall e l,
    tget (edges c) id = Some e -> tget chains id = Some l ->
    chain_total (t_count <$> attributions c) l + n <= e_count e.

Lemma accumulate_edge_wf id w c c' :
  wf c -> f64_finite w = true ->
  (forall e, tget (edges c) id = Some e -> e_count e < U64_MAX) ->
  accumulate_edge id w c = Some c' -> wf c' /\ attr_slack c' id 1.
Proof.
  intros Hwf Hw Hmax (e & He & ->)%accumulate_edge_inv. specialize (Hmax e He).
  rewrite u64_add_small by lia. set (e' := set_totals _ _ e).
  assert (Hsum : f64_finite (accumulate_saturating (e_sum e) w) = true).
  { by apply accumulate_saturating_finite. }
  pose proof (update_ok_totals _ _ _ _ _ _ _ _ id e e' (wf_update_ok _ Hwf) He) as Hok.
  assert (Hd' : is_dead e' = false) by (apply N.eqb_neq; simpl; lia). rewrite Hd' in Hok. split.
  - replace (if e_count e =? 0 then _ else _) with (dead_edges c + N.b2n false - N.b2n (is_dead e))
      by (unfold is_dead; destruct (e_count e =? 0); simpl; lia).
    apply wf_update; [done|]. apply Hok; try done; [split; simpl; [lia | done] | simpl; lia].
  - destruct (wf_attributions _ Hwf) as (chains & Ha & Hd & Hc).
    pose proof (fun l => totals_cover_update _ _ (t_count <$> attributions c) _ id l l (e_count e')
      (attr_disjoint _ _ _ _ _ Ha) Hc) as Hcov.
    exists chains. split.
    + split; [|split; [done|]]; simpl.
      * rewrite list_fmap_insert, list_insert_id; [done|].
        rewrite tget_lookup in He. by rewrite list_lookup_fmap, He.
      * destruct (Forall2_tget_l _ _ _ id (e_count e) Hc) as (l & Hl & Hle); [by rewrite tget_fmap, He|].
        specialize (Hcov l Hl ltac:(done)). rewrite list_fmap_insert.
        rewrite tget_lookup in Hl. rewrite (list_insert_id chains) in Hcov by done.
        apply Hcov. simpl. lia.
    + simpl. rewrite tget_insert_eq by by eapply tget_Some_lt. intros e0 l [= <-] Hl. simpl.
      destruct (Forall2_tget_r _ _ _ _ _ Hc Hl) as (n & Hn & ?).
      rewrite tget_fmap, He in Hn. simplify_eq/=. lia.
Qed.

Lemma push_edge_slack s l o n w c id c' :
  wf c -> push_edge s l o n w c = Some (id, c') -> attr_slack c' id n.
Proof.
  intros Hwf Hpush.
  pose proof (push_edge_frame e_ends _ _ _ _ _ _ _ _ ltac:(done) ltac:(done) ltac:(done) Hpush) as Fe.
  pose proof (push_edge_frame e_count _ _ _ _ _ _ _ _ ltac:(done) ltac:(done) ltac:(done) Hpush) as Fc.
  destruct (push_edge_other _ _ _ _ _ _ _ _ Hpush) as (_ & _ & Hc').
  apply push_edge_inv in Hpush as (-> & Hlt & _).
  destruct (wf_attributions _ Hwf) as (chains & Ha & Hd & Hc).
  pose proof (Forall2_lenN _ _ _ Hc) as Hlen. rewrite lenN_fmap in Hlen. rewrite Hc' in Fe, Fc |- *.
  simpl in *. exists (chains ++ [[]]). unfold attributions_wf. simpl. rewrite Fe, Fc. split; [split; [|split]|].
  - by apply attr_wf_new_edge.
  - rewrite join_app. simpl. by rewrite app_nil_r.
  - by apply totals_cover_new_edge.
  - intros e k He. rewrite Hlen, tget_snoc. intros [= <-]. simpl.
    apply (f_equal (fmap e_count)) in He. rewrite <- tget_fmap, Fc in He.
    rewrite <- (lenN_fmap e_count), tget_snoc in He. simplify_eq/=. lia.
Qed.

(** ** Attributing a write *)

Lemma attribute_merge_wf e s t r n w c :
  wf c -> attr_slack c e n -> 0 < n -> attribution_ids c !! (e, s) = Some t ->
  tget (attributions c) t = Some r -> f64_finite w = true ->
  wf (set_attributions (<[N.to_nat t := set_t_totals (t_count r + n) w r]> (attributions c)) c).
Proof.
  intros Hwf (chains & (Ha & Hd & Hc) & Hslack) Hn Hids Hr Hw.
  pose proof (wf_update_ok _ Hwf) as [Hf _ Hrows ? Htot ? ? ? ?].
  set (r' := set_t_totals _ _ r). set (T := <[N.to_nat t := r']> (attributions c)).
  pose proof Hr as Hr0. rewrite tget_lookup in Hr0.
  assert (Hid : forall A (g : AttributionRecord -> A), g r' = g r -> g <$> T = g <$> attributions c).
  { intros A g Hg. unfold T. rewrite list_fmap_insert, Hg. apply list_insert_id. by rewrite list_lookup_fmap, Hr0. }
  pose proof Hids as (l & Hl & Htl & Hsrc)%(attr_ids _ _ _ _ _ Ha).
  destruct (Forall2_tget_r _ _ _ _ _ Hc Hl) as (m & Hm & Hle).
  rewrite tget_fmap in Hm. apply fmap_Some in Hm as (ed & Hed & ->).
  specialize (Hslack ed l Hed Hl). destruct (wf_edge c e ed Hwf Hed) as [[Hmax _] _].
  pose proof (mjoin_NoDup_chain _ _ _ (attr_disjoint _ _ _ _ _ Ha) Hl) as Hnd.
  assert (Htlt : t < lenN (t_count <$> attributions c)) by (rewrite lenN_fmap; by eapply tget_Some_lt).
  pose proof (chain_total_insert _ l t (t_count r') Hnd Htl Htlt) as Hct.
  rewrite tget_fmap, Hr in Hct. simpl in Hct.
  apply (wf_update c (edges c) T (attribution_ids c) (source_edges c) (attribution_locators c)
    (dead_edges c) (dead_attributions c) Hwf). unfold T in *. split; rewrite ?lenN_insert; try done.
  - exists chains. rewrite !Hid by done. split; [done|]. split; [done|].
    rewrite <- (list_insert_id chains (N.to_nat e) l) by by rewrite tget_lookup in Hl.
    rewrite <- (list_insert_id (e_count <$> edges c) (N.to_nat e) (e_count ed))
      by (rewrite tget_lookup in Hed; by rewrite list_lookup_fmap, Hed).
    eapply totals_cover_update; [apply Ha | done | done | |].
    + intros t' _ Ht'. rewrite list_fmap_insert. apply tget_insert_ne. set_solver.
    + rewrite list_fmap_insert. simpl in *. lia.
  - assert (t_count r + n <= chain_total (t_count <$> attributions c) l + n).
    { apply list_elem_of_split in Htl as (xs & ys & ->). rewrite chain_total_app. simpl.
      rewrite tget_fmap, Hr. simpl. lia. }
    eapply rows_wf_insert; [done | done | |].
    + pose proof (Forall_lookup_1 _ _ _ _ (rows_repr _ _ _ Hrows) Hr0) as (? & ? & ?).
      split; [done|]. split; [done|]. simpl. lia.
    + intros (? & ? & ? & ?). split; [done|]. split; [done|]. simpl. split; [lia | done].
Qed.

Lemma push_attribution_inv e s n w p c c' :
  push_attribution e s n w p c = Some c' ->
  exists edge, tget (edges c) e = Some edge /\ lenN (attributions c) < NIL /\
    let t := lenN (attributions c) in
    let T := attributions c ++ [{| t_source := s; t_next := NIL; t_count := n; t_sum := w |}] in
    exists T', (if e_last_attribution edge =? NIL then T' = T
                else tupd T (e_last_attribution edge) (set_t_next t) = Some T') /\
    c' = update_attributions
      (<[N.to_nat e := set_attribution_ends
           (if e_last_attribution edge =? NIL then t else e_first_attribution edge) t edge]> (edges c))
      T' (<[(e, s) := t]> (attribution_ids c))
      (<[s := default [] (source_edges c !! s) ++ [e]]> (source_edges c))
      (attribution_locators c ++
         match p with Some p => [{| k_attribution := t; k_paragraph := p |}] | None => [] end)
      (dead_edges c) (dead_attributions c) c.
Proof.
  unfold push_attribution. destruct (claim_id _) eqn:Hc; simpl; [|done].
  apply claim_id_Some in Hc as [-> Hlt]. destruct (tget (edges c) e) as [edge|] eqn:He; simpl; [|done].
  destruct (tupd (edges c) e _) as [E'|] eqn:HE; simpl; [|done].
  apply tupd_Some in HE as (edge' & He' & ->). rewrite He in He'. injection He' as <-.
  intros Hpush. exists edge. split; [done|]. split; [done|].
  destruct (e_last_attribution edge =? NIL) eqn:Hl.
  - eexists. split; [done|]. simpl in Hpush. injection Hpush as <-. destruct p; [done | by rewrite app_nil_r].
  - destruct (tupd _ _ _) as [T'|] eqn:HT; simpl in Hpush; [|done]. exists T'. split; [done|].
    injection Hpush as <-. destruct p; [done | by rewrite app_nil_r].
Qed.

Lemma row_ok_next sl len t n : row_ok sl len t -> (n = NIL \/ n < len) -> row_ok sl len (set_t_next n t).
Proof. intros (? & ? & ?) ?. done. Qed.

Lemma row_repr_next t n : row_repr t -> n <= U32_MAX -> row_repr (set_t_next n t).
Proof. intros (? & ? & ?) ?. done. Qed.

(** The rows after a push: links as [links_append], everything else a snoc. *)
Lemma push_rows c last s n w T' :
  let t := lenN (attributions c) in
  let T := attributions c ++ [{| t_source := s; t_next := NIL; t_count := n; t_sum := w |}] in
  (last = NIL \/ last < t) ->
  (if last =? NIL then T' = T else tupd T last (set_t_next t) = Some T') ->
  t_next <$> T' = (if last =? NIL then t_next <$> attributions c
                   else <[N.to_nat last := t]> (t_next <$> attributions c)) ++ [NIL] /\
  t_source <$> T' = (t_source <$> attributions c) ++ [s] /\
  t_count <$> T' = (t_count <$> attributions c) ++ [n] /\
  (forall sl ids, t < NIL -> rows_wf sl ids T -> rows_wf sl ids T').
Proof.
  intros t T Hlast HT'. destruct (N.eqb_spec last NIL) as [->|Hne].
  - subst T'. unfold T. rewrite !fmap_app. done.
  - destruct Hlast as [?|Hlt]; [done|].
    pose proof (tupd_fmap t_next (set_t_next t) (fun _ => t) _ _ _ (fun _ => eq_refl) HT') as Hnext.
    apply tupd_Some in Hnext as (x & Hx & Hnext).
    rewrite (tupd_fmap_id t_source (set_t_next t) _ _ _ (fun _ => eq_refl) HT').
    rewrite (tupd_fmap_id t_count (set_t_next t) _ _ _ (fun _ => eq_refl) HT').
    split; [|split; [|split]]; [|unfold T; by rewrite fmap_app..|].
    + rewrite Hnext. unfold T. rewrite fmap_app, insert_app_l; [done|].
      rewrite length_fmap. unfold t, lenN in Hlt. lia.
    + intros sl ids Ht HP. apply tupd_Some in HT' as (r & Hr & ->). eapply rows_wf_insert; [done | done | |].
      * apply row_repr_next; [|unfold NIL in *; lia]. rewrite tget_lookup in Hr.
        by eapply Forall_lookup_1 in Hr; [|apply HP].
      * intros Hok. apply row_ok_next; [done|]. right. unfold T. rewrite lenN_snoc. lia.
Qed.

Lemma push_attribution_wf e s n w p c c' :
  wf c -> attr_slack c e n -> 0 < n -> attribution_ids c !! (e, s) = None ->
  s < lenN (sources c) -> f64_finite w = true -> (forall p', p = Some p' -> p' <= U32_MAX) ->
  push_attribution e s n w p c = Some c' -> wf c'.
Proof.
  intros Hwf (chains & (Ha & Hd & Hc) & Hslack) Hn Hids Hs Hw Hp
    (ed & Hed & Hlt & T' & HT' & ->)%push_attribution_inv.
  pose proof (wf_update_ok _ Hwf) as [Hf _ Hrows Hrev Htot Hdead Hloc Hlocr Hsz].
  destruct (Forall2_tget_l _ _ _ e (e_count ed) Hc) as (l & Hl & _); [by rewrite tget_fmap, Hed|].
  specialize (Hslack ed l Hed Hl). destruct (wf_edge c e ed Hwf Hed) as [Hted _].
  assert (Hend : tget (e_ends <$> edges c) e = Some (e_first_attribution ed, e_last_attribution ed))
    by by rewrite tget_fmap, Hed.
  destruct (attr_chain Ha e _ Hend) as (l' & Hl' & Hch & Htail). simplify_eq/=.
  assert (Hlast : e_last_attribution ed = NIL \/ e_last_attribution ed < lenN (attributions c)).
  { destruct (decide (tail_of l = NIL)); [left; congruence | right]. rewrite Htail.
    rewrite <- (lenN_fmap t_next). by eapply chain_from_last_lt. }
  destruct (push_rows c _ s n w T' Hlast HT') as (Fn & Fs & Fc & FP).
  pose proof (lenN_fmap t_source T') as HlT. rewrite Fs, lenN_snoc, lenN_fmap in HlT.
  apply wf_update; [done|]. split; try done.
  - rewrite list_fmap_insert, list_insert_id; [done|].
    rewrite tget_lookup in Hed. by rewrite list_lookup_fmap, Hed.
  - exists (<[N.to_nat e := l ++ [lenN (attributions c)]]> chains).
    rewrite !list_fmap_insert. unfold e_ends at 1. simpl. rewrite Fn, Fs, Fc. split; [|split].
    + rewrite <- (lenN_fmap t_next). apply attr_wf_push; try done. by rewrite lenN_fmap.
    + destruct (mjoin_split chains e l Hl) as (rest & Hj & Hins & _).
      unfold lenN in *. rewrite Hins. rewrite Hj in Hd. rewrite !length_app in *. simpl. lia.
    + eapply totals_cover_update; [apply Ha | done | done | |].
      * intros t Ht _. apply tget_app_l. rewrite lenN_fmap, <- (lenN_fmap t_next).
        by apply (attr_row_lt Ha).
      * rewrite chain_total_app. simpl.
        rewrite (tget_snoc_at _ n) by by rewrite lenN_fmap. simpl.
        rewrite (chain_total_ext (t_count <$> attributions c)); [lia|].
        intros t Ht. apply tget_app_l. rewrite lenN_fmap, <- (lenN_fmap t_next).
        eapply chain_from_lt; [apply Hch | done].
  - apply FP; [done|].
    assert (Hnew : row_ok (lenN (sources c)) (lenN (attributions c) + 1)
      {| t_source := s; t_next := NIL; t_count := n; t_sum := w |}).
    { split; [done|]. split; [by left|]. simpl. split; [|done]. destruct Hted. lia. }
    apply rows_wf_push; [done | | | done].
    + intros k t Hk. destruct k as [e' s']. apply (attr_ids _ _ _ _ _ Ha) in Hk as (l' & Hl' & Ht & _).
      rewrite <- (lenN_fmap t_next). apply (attr_row_lt Ha). apply elem_of_mjoin_tget. eauto.
    + apply row_ok_repr in Hnew; [done | apply (sz_sources _ (wf_sizes _ Hwf)) | unfold NIL in *; lia].
  - by apply source_edges_wf_push.
  - apply Forall_insert; [done|]. destruct Hted. done.
  - rewrite Hdead. apply count_dead_totals. rewrite list_fmap_insert, list_insert_id; [done|].
    rewrite tget_lookup in Hed. by rewrite list_lookup_fmap, Hed.
  - destruct p as [p|]; [|by rewrite app_nil_r]. rewrite fmap_app. simpl.
    apply StronglySorted_app_2; [|done|repeat constructor].
    intros x y Hx Hy%list_elem_of_singleton. subst y.
    apply list_elem_of_fmap in Hx as (k & -> & Hk). by eapply Forall_forall in Hlocr as [? _].
  - apply Forall_app. split.
    + eapply Forall_impl; [done|]. intros k [? ?]. split; [lia | done].
    + destruct p; [|constructor]. apply Forall_singleton. simpl. split; [lia | by apply Hp].
  - unfold NIL in *. lia.
Qed.

Lemma attribute_wf e s w p c c' :
  wf c -> attr_slack c e 1 -> s < lenN (sources c) -> f64_finite w = true ->
  (forall p', p = Some p' -> p' <= U32_MAX) ->
  attribute e s w p c = Some c' -> wf c'.
Proof.
  intros Hwf Hsl Hs Hw Hp. unfold attribute. destruct (attribution_ids c !! (e, s)) as [t|] eqn:Hids.
  - destruct (tget (attributions c) t) as [r|] eqn:Hr; simpl; [|done].
    unfold tupd. rewrite Hr. simpl. intros [= <-].
    pose proof (attribute_merge_wf e s t r 1 (accumulate_saturating (t_sum r) w) c Hwf Hsl) as Hm.
    pose proof Hsl as (chains & (Ha & _ & Hc) & Hslack).
    apply (attr_ids _ _ _ _ _ Ha) in Hids as Hids'. destruct Hids' as (l & Hl & Ht & _).
    destruct (Forall2_tget_r _ _ _ _ _ Hc Hl) as (m & Hm' & _).
    rewrite tget_fmap in Hm'. apply fmap_Some in Hm' as (ed & Hed & _).
    specialize (Hslack ed l Hed Hl). destruct (wf_edge c e ed Hwf Hed) as [[Hmax _] _].
    apply list_elem_of_split in Ht as (xs & ys & ->). rewrite chain_total_app in Hslack. simpl in Hslack.
    rewrite tget_fmap, Hr in Hslack. simpl in Hslack.
    rewrite u64_add_small by lia. apply Hm; [lia | done | done | apply accumulate_saturating_finite].
  - intros Hpush. by eapply push_attribution_wf.
Qed.
End update_wf.
