(* ===== verification/Upsert.v ===== *)
(** * [Context::upsert]

    Interning only extends a context ([grows]); with that, the write keeps the
    invariant, an error changes nothing, and a write that passed
    [ensure_room] cannot panic. *)

From S2P Require Export WriteWf.

Local Open Scope N_scope.

(** ** Extension by interning *)

Record grows (c c' : Context) : Prop := {
  g_edges : edges c' = edges c;
  g_edge_ids : edge_ids c' = edge_ids c;
  g_attributions : attributions c' = attributions c;
  g_attribution_ids : attribution_ids c' = attribution_ids c;
  g_locators : attribution_locators c' = attribution_locators c;
  g_concept_ids : concept_ids c ⊆ concept_ids c';
  g_label_ids : label_ids c ⊆ label_ids c';
  g_source_ids : source_ids c ⊆ source_ids c';
  g_concept_new : forall s i, concept_ids c' !! s = Some i ->
    concept_ids c !! s = Some i \/ lenN (concepts c) <= i;
  g_label_new : forall s i, label_ids c' !! s = Some i ->
    label_ids c !! s = Some i \/ lenN (labels c) <= i;
  g_source_new : forall s i, source_ids c' !! s = Some i ->
    source_ids c !! s = Some i \/ lenN (sources c) <= i;
  g_concepts : lenN (concepts c) <= lenN (concepts c');
  g_labels : lenN (labels c) <= lenN (labels c');
  g_sources : lenN (sources c) <= lenN (sources c');
  g_concept_name : forall i n, concept_name c i = Some n -> concept_name c' i = Some n;
  g_label_name : forall i n, label_name c i = Some n -> label_name c' i = Some n;
  g_source_name : forall i n, source_name c i = Some n -> source_name c' i = Some n
}.

#[export] Instance grows_preorder : PreOrder grows.
Proof.
  split.
  - intros c. split; try done; auto.
  - intros c1 c2 c3 [] []. split; try congruence; try (by etransitivity); eauto.
    + intros s i [Hi|?]%g_concept_new1; [apply g_concept_new0 in Hi as [?|?]; [by left | by right] | right; lia].
    + intros s i [Hi|?]%g_label_new1; [apply g_label_new0 in Hi as [?|?]; [by left | by right] | right; lia].
    + intros s i [Hi|?]%g_source_new1; [apply g_source_new0 in Hi as [?|?]; [by left | by right] | right; lia].
Qed.

Lemma name_lookup_mono {R} (off len : R -> N) (a s : bytes) (t k : list R) i n :
  (r ← tget t i; name_at a (off r) (len r)) = Some n ->
  (r ← tget (t ++ k) i; name_at (a ++ s) (off r) (len r)) = Some n.
Proof.
  destruct (tget t i) as [r|] eqn:Hr; simpl; [|done]. intros Hn.
  rewrite (tget_app_mono _ _ _ _ Hr). simpl. by apply name_at_app.
Qed.

Lemma name_lookup_arena {R} (off len : R -> N) (a s : bytes) (t : list R) i n :
  (r ← tget t i; name_at a (off r) (len r)) = Some n ->
  (r ← tget t i; name_at (a ++ s) (off r) (len r)) = Some n.
Proof. rewrite <- (app_nil_r t) at 2. apply name_lookup_mono. Qed.

Lemma fresh_id_cases (ids : gmap name N) s id s' i :
  <[s := id]> ids !! s' = Some i -> ids !! s' = Some i \/ id <= i.
Proof. rewrite lookup_insert_Some. intros [[_ ->]|[_ ?]]; [by right | by left]. Qed.

Section upsert.
Context `{UnicodeTables}.
Implicit Types c : Context.

Lemma intern_concept_grows s c id c' : intern_concept s c = Some (id, c') -> grows c c'.
Proof.
  intros [[_ ->]|(Hn & -> & _ & _ & idx & _ & ->)]%intern_concept_inv; [done|].
  split; simpl; rewrite ?lenN_snoc; try lia; try (by apply insert_subseteq); auto;
    first [intros ? ?; apply fresh_id_cases | intros ? ?; apply name_lookup_mono
          | intros ? ?; apply name_lookup_arena].
Qed.
Lemma intern_label_grows s c id c' : intern_label s c = Some (id, c') -> grows c c'.
Proof.
  intros [[_ ->]|(Hn & -> & _ & _ & idx & _ & ->)]%intern_label_inv; [done|].
  split; simpl; rewrite ?lenN_snoc; try lia; try (by apply insert_subseteq); auto;
    first [intros ? ?; apply fresh_id_cases | intros ? ?; apply name_lookup_mono
          | intros ? ?; apply name_lookup_arena].
Qed.
Lemma intern_source_grows s c id c' : intern_source s c = Some (id, c') -> grows c c'.
Proof.
  intros [[_ ->]|(Hn & -> & _ & _ & ->)]%intern_source_inv; [done|].
  split; simpl; rewrite ?lenN_snoc; try lia; try (by apply insert_subseteq); auto;
    first [intros ? ?; apply fresh_id_cases | intros ? ?; apply name_lookup_mono
          | intros ? ?; apply name_lookup_arena].
Qed.

(** The four internings of one write. *)
Definition intern_names (subject label object : name) (source : option name) c
    : option (ConceptId * LabelId * ConceptId * option SourceId * Context) :=
  '(subject_id, c) ← intern_concept subject c;
  '(object_id, c) ← intern_concept object c;
  '(label_id, c) ← intern_label label c;
  '(source_id, c) ← intern_source_opt source c;
  Some (subject_id, label_id, object_id, source_id, c).

Lemma upsert_eq subject label object w source p c :
  upsert subject label object w source p c =
  if negb (f64_finite w) then None
  else match ensure_room subject label object source c with
    | Err e => Some (Err e, c)
    | Ok _ =>
      '(sid, lid, oid, srcid, c) ← intern_names subject label object source c;
      '(edge_id, c) ← upsert_edge (sid, lid, oid) w c;
      c ← match srcid with Some srcid => attribute edge_id srcid w p c | None => Some c end;
      Some (Ok tt, c)
    end.
Proof.
  unfold upsert, intern_names. destruct (negb _); [done|]. destruct (ensure_room _ _ _ _ _); [|done].
  destruct (intern_concept subject c) as [[? c1]|]; simpl; [|done].
  destruct (intern_concept object c1) as [[? c2]|]; simpl; [|done].
  destruct (intern_label label c2) as [[? c3]|]; simpl; [|done].
  by destruct (intern_source_opt source c3) as [[? c4]|].
Qed.

Definition valid_opt (n : option name) : Prop := forall s, n = Some s -> utf8_valid s = true.

Lemma intern_names_spec s l o src c sid lid oid srcid c' :
  wf c -> utf8_valid s = true -> utf8_valid l = true -> utf8_valid o = true -> valid_opt src ->
  intern_names s l o src c = Some (sid, lid, oid, srcid, c') ->
  wf c' /\ grows c c' /\ concept_ids c' !! s = Some sid /\ label_ids c' !! l = Some lid /\
  concept_ids c' !! o = Some oid /\
  match src with
  | Some n => exists i, srcid = Some i /\ source_ids c' !! n = Some i
  | None => srcid = None
  end.
Proof.
  intros Hwf Hs Hl Ho Hsrc. unfold intern_names.
  destruct (intern_concept s c) as [[i1 c1]|] eqn:E1; simpl; [|done].
  destruct (intern_concept o c1) as [[i2 c2]|] eqn:E2; simpl; [|done].
  destruct (intern_label l c2) as [[i3 c3]|] eqn:E3; simpl; [|done].
  pose proof (intern_concept_wf _ _ _ _ Hwf Hs E1) as W1.
  pose proof (intern_concept_wf _ _ _ _ W1 Ho E2) as W2.
  pose proof (intern_label_wf _ _ _ _ W2 Hl E3) as W3.
  apply intern_concept_id in E1 as I1. apply intern_concept_id in E2 as I2.
  apply intern_label_id in E3 as I3.
  apply intern_concept_grows in E1, E2. apply intern_label_grows in E3.
  assert (Hs2 : concept_ids c3 !! s = Some i1).
  { eapply lookup_weaken; [|apply E3]. eapply lookup_weaken; [done | apply E2]. }
  assert (Ho2 : concept_ids c3 !! o = Some i2) by (eapply lookup_weaken; [done | apply E3]).
  unfold intern_source_opt. destruct src as [sn|]; simpl.
  - destruct (intern_source sn c3) as [[i4 c4]|] eqn:E4; simpl; [|done]. intros [= <- <- <- <- <-].
    pose proof (intern_source_wf _ _ _ _ W3 (Hsrc sn eq_refl) E4) as W4.
    apply intern_source_id in E4 as I4. apply intern_source_grows in E4.
    split; [done|]. split; [by repeat (etransitivity; [eassumption|])|].
    split; [eapply lookup_weaken; [done | apply E4]|].
    split; [eapply lookup_weaken; [done | apply E4]|].
    split; [eapply lookup_weaken; [done | apply E4]|]. eauto.
  - intros [= <- <- <- <- <-]. split; [done|]. split; [by repeat (etransitivity; [eassumption|])|]. done.
Qed.

(** The edge the resolved triple names is the one the spellings named. *)
Lemma existing_edge_grows s l o c c' sid lid oid :
  wf c -> grows c c' -> concept_ids c' !! s = Some sid -> label_ids c' !! l = Some lid ->
  concept_ids c' !! o = Some oid -> existing_edge s l o c = edge_ids c' !! (sid, lid, oid).
Proof.
  intros Hwf Hg Hs Hl Ho. rewrite (g_edge_ids _ _ Hg). unfold existing_edge.
  assert (Hout : forall e, edge_ids c !! (sid, lid, oid) = Some e ->
    sid < lenN (concepts c) /\ lid < lenN (labels c) /\ oid < lenN (concepts c)).
  { intros e He%(wf_triples _ Hwf). rewrite tget_fmap in He.
    apply fmap_Some in He as (r & Hr & [= -> -> ->]). by apply (wf_edge c e r Hwf Hr). }
  assert (Hdone : edge_ids c !! (sid, lid, oid) = None \/
    (sid < lenN (concepts c) /\ lid < lenN (labels c) /\ oid < lenN (concepts c))).
  { destruct (edge_ids c !! (sid, lid, oid)) eqn:E; [right; eauto | by left]. }
  assert (Hweak : forall (m m' : gmap name N) n i, m ⊆ m' -> m' !! n = Some i -> m !! n = None \/ m !! n = Some i).
  { intros m m' n i Hm Hi. destruct (m !! n) eqn:E; [|by left]. right.
    eapply lookup_weaken in E; [|done]. congruence. }
  destruct (Hweak _ _ _ _ (g_concept_ids _ _ Hg) Hs) as [Hs'|Hs'];
  destruct (Hweak _ _ _ _ (g_label_ids _ _ Hg) Hl) as [Hl'|Hl'];
  destruct (Hweak _ _ _ _ (g_concept_ids _ _ Hg) Ho) as [Ho'|Ho'];
    rewrite ?Hs', ?Hl', ?Ho'; simpl; try done; symmetry;
    destruct Hdone as [?|(? & ? & ?)]; try done; exfalso;
    destruct (g_concept_new _ _ Hg _ _ Hs) as [?|?];
    destruct (g_label_new _ _ Hg _ _ Hl) as [?|?];
    destruct (g_concept_new _ _ Hg _ _ Ho) as [?|?]; congruence || lia.
Qed.

(** The one counter a write can overflow. *)
Definition count_room s l o c : Prop :=
  forall e r, existing_edge s l o c = Some e -> tget (edges c) e = Some r -> e_count r < U64_MAX.

Lemma upsert_edge_wf key w c e c' :
  wf c -> f64_finite w = true ->
  (forall e r, edge_ids c !! key = Some e -> tget (edges c) e = Some r -> e_count r < U64_MAX) ->
  upsert_edge key w c = Some (e, c') ->
  wf c' /\ attr_slack c' e 1 /\ sources c' = sources c.
Proof.
  intros Hwf Hw Hroom. unfold upsert_edge. destruct (edge_ids c !! key) as [e'|] eqn:Hk.
  - destruct (accumulate_edge e' w c) as [c1|] eqn:Ha; simpl; [|done]. intros [= <- <-].
    destruct (accumulate_edge_wf e' w c c1 Hwf Hw) as [? ?]; eauto.
    by apply accumulate_edge_inv in Ha as (? & _ & ->).
  - destruct key as [[sid lid] oid]. intros Hp. simpl in Hp.
    split; [eapply push_edge_wf; [done | done | | done | done]; unfold U64_MAX; lia|].
    split; [by eapply push_edge_slack|]. apply push_edge_other in Hp as (_ & _ & ->). done.
Qed.

(** ** Capacity *)

Lemma refuse_if_Ok {E} b (e : E) : refuse_if b e = Ok tt <-> b = false.
Proof. by destruct b. Qed.

Lemma rbind_refuse {A E} b (e : E) (k : unit -> result A E) a :
  rbind (refuse_if b e) k = Ok a <-> b = false /\ k tt = Ok a.
Proof. destruct b; simpl; naive_solver. Qed.

Lemma rbind_Ok_unit {A E} (m : result unit E) (k : unit -> result A E) a :
  rbind m k = Ok a <-> m = Ok tt /\ k tt = Ok a.
Proof. destruct m as [[]|]; simpl; naive_solver. Qed.

Lemma arena_fits_spec len growth : arena_fits len growth = true <-> len + growth <= U32_MAX.
Proof.
  unfold arena_fits, checked_add, USIZE_MAX. destruct (N.leb_spec (len + growth) U64_MAX); simpl.
  - by rewrite N.leb_le.
  - unfold U64_MAX, U32_MAX in *. split; [done | lia].
Qed.

Lemma ids_left_spec len n : len <= NIL -> ids_left len n = true <-> len + n <= NIL.
Proof. intros. unfold ids_left. rewrite N.leb_le. lia. Qed.

(** The numbers [ensure_room] compares. *)
Definition need_concepts s o c : N :=
  N.b2n (bool_decide (concept_ids c !! s = None)) +
  N.b2n (bool_decide (o <> s) && bool_decide (concept_ids c !! o = None)).
Definition need_bytes (ids : gmap name N) (n : name) : N :=
  if bool_decide (ids !! n = None) then lenN n else 0.
Definition need_arena s l o (src : option name) c : N :=
  need_bytes (concept_ids c) s +
  (if bool_decide (o <> s) then need_bytes (concept_ids c) o else 0) +
  need_bytes (label_ids c) l +
  match src with Some n => need_bytes (source_ids c) n | None => 0 end.

(** [ensure_room] passes exactly when everything the write can need fits. *)
Lemma ensure_room_Ok s l o src c :
  sizes_wf c ->
  ensure_room s l o src c = Ok tt <->
  lenN (concepts c) + need_concepts s o c <= NIL /\
  (label_ids c !! l = None -> lenN (labels c) < NIL) /\
  (forall n, src = Some n -> source_ids c !! n = None -> lenN (sources c) < NIL) /\
  (existing_edge s l o c = None -> lenN (edges c) < NIL) /\
  (forall n, src = Some n -> already_attributed (existing_edge s l o c) n c = false ->
     lenN (attributions c) < NIL) /\
  lenN (arena c) + need_arena s l o src c <= U32_MAX.
Proof.
  intros [_ Sc Sl Ss Se Sa _ _]. unfold ensure_room.
  rewrite !rbind_refuse, rbind_Ok_unit, refuse_if_Ok. unfold need_arena, need_bytes, need_concepts.
  rewrite negb_false_iff, ids_left_spec by done. rewrite negb_false_iff, arena_fits_spec.
  rewrite !andb_false_iff, !bool_decide_eq_false, !negb_false_iff, !ids_left_spec by done.
  repeat apply Morphisms_Prop.and_iff_morphism.
  - done.
  - destruct (label_ids c !! l); naive_solver lia.
  - destruct src as [n|]; [|naive_solver].
    rewrite bool_decide_eq_false. destruct (source_ids c !! n) eqn:E; naive_solver lia.
  - destruct (existing_edge s l o c); naive_solver lia.
  - destruct src as [n|]; [|naive_solver].
    rewrite refuse_if_Ok, andb_false_iff, !negb_false_iff, (ids_left_spec _ 1 Sa).
    destruct (already_attributed _ n c) eqn:Eat; split.
    + intros _ ? [= <-]. congruence.
    + by left.
    + intros [?|?] ? _ _; [done | lia].
    + intros Hn. right. specialize (Hn n eq_refl Eat). lia.
  - f_equiv. f_equiv. f_equiv; [f_equiv; f_equiv|].
    + destruct (bool_decide (o <> s)); done.
    + destruct src; done.
Qed.

Lemma ei_push_spans idx idx' s i : ei_push idx s i = Some idx' -> lenN (ei_spans idx') = lenN (ei_spans idx) + 1.
Proof.
  unfold ei_push. destruct (claim_id _); simpl; [|done]. destruct (foldl _ _ _) as [[??]?].
  intros [= <-]. apply lenN_snoc.
Qed.

Definition is_new (ids : gmap name N) (n : name) : N := N.b2n (bool_decide (ids !! n = None)).

Lemma intern_concept_total s c :
  lenN (concepts c) + is_new (concept_ids c) s <= NIL ->
  lenN (ei_spans (concept_index c)) + is_new (concept_ids c) s <= NIL ->
  lenN (arena c) + need_bytes (concept_ids c) s <= U32_MAX ->
  exists id c', intern_concept s c = Some (id, c') /\
    lenN (concepts c') = lenN (concepts c) + is_new (concept_ids c) s /\
    lenN (ei_spans (concept_index c')) = lenN (ei_spans (concept_index c)) + is_new (concept_ids c) s /\
    lenN (arena c') = lenN (arena c) + need_bytes (concept_ids c) s /\
    (forall n, n <> s -> concept_ids c' !! n = concept_ids c !! n) /\
    is_Some (concept_ids c' !! s) /\
    labels c' = labels c /\ sources c' = sources c /\ label_ids c' = label_ids c /\
    source_ids c' = source_ids c /\ label_index c' = label_index c.
Proof.
  unfold intern_concept, is_new, need_bytes.
  destruct (concept_ids c !! s) as [id|] eqn:Es; simpl; intros Hc Hi Ha.
  { exists id, c. rewrite !N.add_0_r, Es. split; [done|]. repeat (split; [done|]). eauto. }
  rewrite claim_id_total by lia. simpl. rewrite intern_name_Some by done. simpl.
  destruct (ei_push_total (concept_index c) s (lenN (concepts c))) as [idx Hp]; [lia|].
  rewrite Hp. simpl. eexists _, _. split; [done|]. simpl.
  rewrite lenN_snoc, lenN_app, (ei_push_spans _ _ _ _ Hp), lookup_insert_eq.
  repeat (split; [done|]). split; [intros n Hn; by apply lookup_insert_ne|]. eauto 10.
Qed.

Lemma intern_label_total s c :
  lenN (labels c) + is_new (label_ids c) s <= NIL ->
  lenN (ei_spans (label_index c)) + is_new (label_ids c) s <= NIL ->
  lenN (arena c) + need_bytes (label_ids c) s <= U32_MAX ->
  exists id c', intern_label s c = Some (id, c') /\
    lenN (arena c') = lenN (arena c) + need_bytes (label_ids c) s /\
    sources c' = sources c /\ source_ids c' = source_ids c.
Proof.
  unfold intern_label, is_new, need_bytes.
  destruct (label_ids c !! s) as [id|] eqn:Es; simpl; intros Hc Hi Ha.
  { exists id, c. rewrite !N.add_0_r. done. }
  rewrite claim_id_total by lia. simpl. rewrite intern_name_Some by done. simpl.
  destruct (ei_push_total (label_index c) s (lenN (labels c))) as [idx Hp]; [lia|].
  rewrite Hp. simpl. eexists _, _. split; [done|]. simpl. by rewrite lenN_app.
Qed.

Lemma intern_source_total s c :
  lenN (sources c) + is_new (source_ids c) s <= NIL ->
  lenN (arena c) + need_bytes (source_ids c) s <= U32_MAX ->
  exists id c', intern_source s c = Some (id, c').
Proof.
  unfold intern_source, is_new, need_bytes.
  destruct (source_ids c !! s) as [id|] eqn:Es; simpl; intros Hc Ha; [eauto|].
  rewrite claim_id_total by lia. simpl. rewrite intern_name_Some by done. simpl. eauto.
Qed.

(** The entry indexes hold one span per spelling, aliases included; they have
    to stay below [NIL] for [EntryIndex::push] not to panic. *)
Definition entry_room c : Prop :=
  lenN (ei_spans (concept_index c)) + 2 <= NIL /\ lenN (ei_spans (label_index c)) + 1 <= NIL.

Lemma is_new_le ids n : is_new ids n <= 1.
Proof. unfold is_new. destruct (bool_decide _); simpl; lia. Qed.

Lemma intern_names_total s l o src c :
  wf c -> entry_room c -> ensure_room s l o src c = Ok tt ->
  exists r, intern_names s l o src c = Some r.
Proof.
  intros Hwf [Hec Hel] (Rc & Rl & Rs & _ & _ & Ra)%(ensure_room_Ok _ _ _ _ _ (wf_sizes _ Hwf)).
  unfold need_concepts, need_arena in *. pose proof (is_new_le (concept_ids c) s).
  pose proof (is_new_le (concept_ids c) o). pose proof (is_new_le (label_ids c) l).
  fold (is_new (concept_ids c) s) in Rc. destruct (wf_sizes _ Hwf).
  destruct (intern_concept_total s c) as (i1 & c1 & E1 & HC & HI & HA & Hids & Hs & Hl & Hsrc & HL & HS & HX);
    [lia | lia | lia |]. unfold intern_names. rewrite E1. simpl.
  assert (Hb : is_new (concept_ids c1) o = N.b2n (bool_decide (o <> s) && bool_decide (concept_ids c !! o = None)) /\
    need_bytes (concept_ids c1) o = if bool_decide (o <> s) then need_bytes (concept_ids c) o else 0).
  { unfold is_new, need_bytes. destruct (decide (o = s)) as [->|].
    - destruct Hs as [x ->]. rewrite (bool_decide_eq_false_2 (s <> s)) by naive_solver. done.
    - rewrite Hids by done. by rewrite (bool_decide_eq_true_2 (o <> s)). }
  destruct Hb as [Hb1 Hb2]. pose proof (is_new_le (concept_ids c1) o).
  destruct (intern_concept_total o c1) as (i2 & c2 & E2 & _ & _ & HA2 & _ & _ & Hl2 & Hsrc2 & HL2 & HS2 & HX2);
    [lia | lia | lia |]. rewrite E2. simpl.
  destruct (intern_label_total l c2) as (i3 & c3 & E3 & HA3 & Hsrc3 & HS3).
  { rewrite Hl2, Hl, HL2, HL. unfold is_new. destruct (label_ids c !! l); simpl; [lia | naive_solver lia]. }
  { rewrite HX2, HX, HL2, HL. lia. }
  { rewrite HL2, HL. lia. }
  rewrite E3. simpl. unfold intern_source_opt. destruct src as [n|]; simpl; [|eauto].
  destruct (intern_source_total n c3) as (i4 & c4 & E4).
  { rewrite Hsrc3, Hsrc2, Hsrc, HS3, HS2, HS. unfold is_new.
    specialize (Rs n eq_refl). destruct (source_ids c !! n); simpl; [lia | naive_solver lia]. }
  { rewrite HS3, HS2, HS, HA3, HA2, HA, Hb2, HL2, HL. lia. }
  rewrite E4. simpl. eauto.
Qed.

(** ** No panics past [ensure_room] *)

Lemma chain_last_ok {R} (get : R -> anchor) links owners (table : list R) o r :
  chains_wf links owners (get <$> table) -> tget table o = Some r ->
  (get r).1.2 = NIL \/ (get r).1.2 < lenN links.
Proof.
  intros Hwf Hr. pose proof (chains_each _ _ _ Hwf o (get r)) as Hok.
  rewrite tget_fmap, Hr in Hok. specialize (Hok eq_refl).
  destruct (get r) as [[first last] count]. destruct Hok as (ids & Hc & -> & _). simpl.
  destruct (decide (tail_of ids = NIL)); [by left | right; by eapply chain_from_last_lt].
Qed.

Lemma push_edge_total s l o n w c :
  wf c -> s < lenN (concepts c) -> l < lenN (labels c) -> o < lenN (concepts c) ->
  lenN (edges c) < NIL -> exists c', push_edge s l o n w c = Some (lenN (edges c), c').
Proof.
  intros Hwf Hs Hl Ho Hlt. unfold push_edge. rewrite claim_id_total by done. simpl.
  destruct (append_edge_total out_anchor set_out_anchor set_next_outgoing s (lenN (edges c))
    (edges c ++ [fresh_edge s l o n w]) (concepts c)) as (E1 & C1 & H1); [done| |].
  { intros r Hr. apply (chain_last_ok _ _ _ _ _ _ (wf_outgoing _ Hwf)) in Hr.
    rewrite lenN_fmap in Hr. rewrite lenN_snoc. destruct Hr; [by left | right; lia]. }
  rewrite H1. simpl.
  destruct (append_edge_frame _ _ _ e_triple in_anchor _ _ _ _ _ _ H1) as [FE FC]; [done..|].
  apply (f_equal lenN) in FE as HE. apply (f_equal lenN) in FC as HC. rewrite !lenN_fmap in HE. rewrite !lenN_fmap in HC.
  destruct (append_edge_total in_anchor set_in_anchor set_next_incoming o (lenN (edges c)) E1 C1) as (E2 & C2 & H2); [by rewrite HC| |].
  { intros r Hr. assert (Hi : tget (in_anchor <$> concepts c) o = Some (in_anchor r)).
    { by rewrite <- FC, tget_fmap, Hr. }
    rewrite tget_fmap in Hi. apply fmap_Some in Hi as (r0 & Hr0 & ->).
    apply (chain_last_ok _ _ _ _ _ _ (wf_incoming _ Hwf)) in Hr0.
    rewrite lenN_fmap in Hr0. rewrite HE, lenN_snoc. destruct Hr0; [by left | right; lia]. }
  rewrite H2. simpl.
  destruct (append_edge_frame _ _ _ e_triple c_range _ _ _ _ _ _ H2) as [FE2 _]; [done..|].
  apply (f_equal lenN) in FE2. rewrite !lenN_fmap in FE2.
  destruct (append_edge_total label_anchor set_label_anchor set_next_labeled l (lenN (edges c)) E2 (labels c)) as (E3 & L1 & H3); [done| |].
  { intros r Hr. apply (chain_last_ok _ _ _ _ _ _ (wf_labeled _ Hwf)) in Hr.
    rewrite lenN_fmap in Hr. rewrite FE2, HE, lenN_snoc. destruct Hr; [by left | right; lia]. }
  rewrite H3. simpl. eauto.
Qed.

Lemma push_attribution_total e s n w p c :
  wf c -> e < lenN (edges c) -> lenN (attributions c) < NIL ->
  exists c', push_attribution e s n w p c = Some c'.
Proof.
  intros Hwf [ed Hed]%tget_lt Hlt. unfold push_attribution. rewrite claim_id_total by done. simpl.
  rewrite Hed. simpl. match goal with |- context [tupd (edges c) e ?f] =>
    destruct (tupd_total (edges c) e f) as [E' HE]; [by eapply tget_Some_lt|] end.
  rewrite HE. simpl. destruct (N.eqb_spec (e_last_attribution ed) NIL) as [|Hn]; simpl; [eauto|].
  destruct (wf_attributions _ Hwf) as (chains & Ha & _).
  destruct (attr_chain Ha e (e_ends ed)) as (l & _ & Hc & Hlast); [by rewrite tget_fmap, Hed|].
  simpl in *. edestruct (tupd_total (attributions c ++ [{| t_source := s; t_next := NIL; t_count := n; t_sum := w |}])
    (e_last_attribution ed) (set_t_next (lenN (attributions c)))) as [T' HT].
  { rewrite lenN_snoc. rewrite Hlast in Hn |- *. apply chain_from_last_lt in Hc; [|done].
    rewrite lenN_fmap in Hc. lia. }
  rewrite HT. simpl. eauto.
Qed.

Lemma upsert_edge_total sid lid oid w c :
  wf c -> sid < lenN (concepts c) -> lid < lenN (labels c) -> oid < lenN (concepts c) ->
  (edge_ids c !! (sid, lid, oid) = None -> lenN (edges c) < NIL) ->
  exists e c', upsert_edge (sid, lid, oid) w c = Some (e, c') /\ e < lenN (edges c') /\
    (match edge_ids c !! (sid, lid, oid) with Some e0 => e = e0 | None => e = lenN (edges c) end).
Proof.
  intros Hwf Hs Hl Ho Hlt. unfold upsert_edge. destruct (edge_ids c !! (sid, lid, oid)) as [e|] eqn:Hk.
  - apply (wf_triples _ Hwf) in Hk. rewrite tget_fmap in Hk. apply fmap_Some in Hk as (ed & Hed & _).
    unfold accumulate_edge, tupd. rewrite Hed. simpl. eexists _, _. split; [done|]. simpl.
    rewrite lenN_insert. split; [by eapply tget_Some_lt | done].
  - destruct (push_edge_total sid lid oid 1 w c) as [c' Hc']; auto. simpl. rewrite Hc'.
    eexists _, _. split; [done|]. split; [|done].
    apply (push_edge_frame (fun _ => tt)) in Hc'; [|done..]. apply (f_equal lenN) in Hc'.
    rewrite lenN_snoc, !lenN_fmap in Hc'. lia.
Qed.

Lemma upsert_edge_rows key w c e c' :
  upsert_edge key w c = Some (e, c') ->
  attributions c' = attributions c /\ attribution_ids c' = attribution_ids c /\
  sources c' = sources c /\ source_ids c' = source_ids c.
Proof.
  unfold upsert_edge. destruct (edge_ids c !! key) as [e'|].
  - destruct (accumulate_edge e' w c) as [c1|] eqn:Ha; simpl; [|done]. intros [= <- <-].
    by apply accumulate_edge_inv in Ha as (? & _ & ->).
  - destruct key as [[sid lid] oid]. intros Hp. by apply push_edge_other in Hp as (_ & _ & ->).
Qed.

Lemma attribute_total e s w p c :
  wf c -> e < lenN (edges c) ->
  (attribution_ids c !! (e, s) = None -> lenN (attributions c) < NIL) ->
  exists c', attribute e s w p c = Some c'.
Proof.
  intros Hwf He Hlt. unfold attribute. destruct (attribution_ids c !! (e, s)) as [t|] eqn:Hk.
  - destruct (wf_attributions _ Hwf) as (chains & Ha & _).
    apply (attr_ids _ _ _ _ _ Ha) in Hk as (l & _ & _ & Hs). rewrite tget_fmap in Hs.
    apply fmap_Some in Hs as (r & Hr & _). rewrite Hr. simpl. unfold tupd. rewrite Hr. simpl. eauto.
  - by apply push_attribution_total; auto.
Qed.

(** Everything one write can need fits below the [u32] ceilings. *)
Definition write_fits s l o (src : option name) c : Prop :=
  lenN (concepts c) + need_concepts s o c <= NIL /\
  (label_ids c !! l = None -> lenN (labels c) < NIL) /\
  (forall n, src = Some n -> source_ids c !! n = None -> lenN (sources c) < NIL) /\
  (existing_edge s l o c = None -> lenN (edges c) < NIL) /\
  (forall n, src = Some n -> already_attributed (existing_edge s l o c) n c = false ->
     lenN (attributions c) < NIL) /\
  lenN (arena c) + need_arena s l o src c <= U32_MAX.

Record valid_write s l o (src : option name) (p : option N) (w : f64) : Prop := {
  vw_subject : utf8_valid s = true;
  vw_label : utf8_valid l = true;
  vw_object : utf8_valid o = true;
  vw_source : valid_opt src;
  vw_paragraph : forall p', p = Some p' -> p' <= U32_MAX;
  vw_weight : f64_finite w = true
}.

(** The resolved write of a passed check, step by step. *)
Lemma upsert_steps s l o src p w c :
  wf c -> valid_write s l o src p w -> entry_room c -> count_room s l o c ->
  ensure_room s l o src c = Ok tt ->
  exists sid lid oid srcid c4 e c5 c6,
    intern_names s l o src c = Some (sid, lid, oid, srcid, c4) /\
    upsert_edge (sid, lid, oid) w c4 = Some (e, c5) /\
    match srcid with Some i => attribute e i w p c5 | None => Some c5 end = Some c6 /\
    upsert s l o w src p c = Some (Ok tt, c6) /\
    wf c4 /\ wf c5 /\ wf c6 /\ grows c c4 /\
    concept_ids c4 !! s = Some sid /\ label_ids c4 !! l = Some lid /\ concept_ids c4 !! o = Some oid /\
    match src with
    | Some n => exists i, srcid = Some i /\ source_ids c4 !! n = Some i
    | None => srcid = None
    end /\ existing_edge s l o c = edge_ids c4 !! (sid, lid, oid).
Proof.
  intros Hwf [Hs Hl Ho Hsrc Hp Hw] Hroom Hcount Hok.
  destruct (intern_names_total s l o src c Hwf Hroom Hok) as [[[[[sid lid] oid] srcid] c4] Hi].
  pose proof (intern_names_spec s l o src c _ _ _ _ _ Hwf Hs Hl Ho Hsrc Hi)
    as (W4 & Hg & Is & Il & Io & Isrc).
  pose proof (existing_edge_grows s l o c c4 _ _ _ Hwf Hg Is Il Io) as Hex.
  pose proof (ensure_room_Ok s l o src c (wf_sizes _ Hwf)) as [Hfits _]. specialize (Hfits Hok).
  destruct Hfits as (_ & _ & _ & Fe & Ft & _).
  destruct (upsert_edge_total sid lid oid w c4 W4) as (e & c5 & He & Helt & Hee).
  { by eapply concept_id_lt. } { by eapply label_id_lt. } { by eapply concept_id_lt. }
  { rewrite <- Hex, (g_edges _ _ Hg). done. }
  pose proof He as (W5 & Hslack & Hsources)%upsert_edge_wf;
    [|done|done|by rewrite <- Hex, (g_edges _ _ Hg)].
  pose proof (upsert_edge_rows _ _ _ _ _ He) as (Rt & Ri & Rs & _).
  assert (Hatt : exists c6, match srcid with Some i => attribute e i w p c5 | None => Some c5 end = Some c6
    /\ wf c6).
  { destruct src as [n|]; [|subst srcid; eauto]. destruct Isrc as (i & -> & Hi').
    destruct (attribute_total e i w p c5 W5 Helt) as [c6 H6].
    - rewrite Rt, Ri, (g_attributions _ _ Hg), (g_attribution_ids _ _ Hg). intros Hnone.
      apply (Ft n eq_refl). unfold already_attributed. rewrite Hex.
      destruct (edge_ids c4 !! (sid, lid, oid)) as [e0|]; [subst e0|done].
      destruct (source_ids c !! n) as [i0|] eqn:Hn; [|done].
      eapply lookup_weaken in Hn; [|apply (g_source_ids _ _ Hg)]. simplify_eq. by rewrite Hnone.
    - exists c6. split; [done|]. eapply attribute_wf in H6; try done.
      rewrite Hsources. by eapply source_id_lt. }
  destruct Hatt as (c6 & H6 & W6). exists sid, lid, oid, srcid, c4, e, c5, c6.
  split; [done|]. split; [done|]. split; [done|]. split; [|done].
  rewrite upsert_eq, Hw, Hok, Hi. simpl. rewrite He. simpl. by rewrite H6.
Qed.

Lemma upsert_cases s l o src p w c :
  wf c -> valid_write s l o src p w -> entry_room c -> count_room s l o c ->
  exists r c', upsert s l o w src p c = Some (r, c') /\ wf c' /\
    (r = Ok tt <-> write_fits s l o src c) /\ (forall e, r = Err e -> c' = c).
Proof.
  intros Hwf Hv Hroom Hcount. pose proof (ensure_room_Ok s l o src c (wf_sizes _ Hwf)) as Hiff.
  destruct (ensure_room s l o src c) as [[]|e] eqn:Hok.
  - destruct (upsert_steps s l o src p w c Hwf Hv Hroom Hcount Hok)
      as (sid & lid & oid & srcid & c4 & e & c5 & c6 & _ & _ & _ & Hu & _ & _ & W6 & _).
    exists (Ok tt), c6. split; [done|]. split; [done|]. split; [done|]. done.
  - exists (Err e), c. unfold upsert. rewrite (vw_weight _ _ _ _ _ _ Hv), Hok. simpl.
    split; [done|]. split; [done|]. split; [|done]. rewrite <- Hiff. done.
Qed.
End upsert.

(** C2. A write keeps the invariant whatever its outcome, and is all or nothing:
    it does not panic, it succeeds exactly when the records and arena bytes it
    needs fit below the [u32] ceilings, and a refused write leaves the context
    as it was. *)
Theorem upsert_all_or_nothing `{UnicodeTables} s l o src p w c
    (Hwf : wf c) (Hv : valid_write s l o src p w)
    (Hroom : entry_room c) (Hcount : count_room s l o c) :
  exists r c', upsert s l o w src p c = Some (r, c') /\ wf c' /\
    (r = Ok tt <-> write_fits s l o src c) /\ (forall e, r = Err e -> c' = c).
Proof. by apply upsert_cases. Qed.

Lemma count_room_default `{UnicodeTables} s l o : count_room s l o Context_default.
Proof. intros e r He. unfold existing_edge in He. simpl in He. by rewrite lookup_empty in He. Qed.

Lemma valid_write_intro s l o src p w :
  utf8_valid s && utf8_valid l && utf8_valid o &&
  match src with Some n => utf8_valid n | None => true end &&
  match p with Some p => p <=? U32_MAX | None => true end && f64_finite w = true ->
  valid_write s l o src p w.
Proof.
  rewrite !andb_true_iff. intros (((((? & ?) & ?) & Hsrc) & Hp) & ?). split; try done.
  - intros n ->. done.
  - intros p' ->. by apply N.leb_le.
Qed.

Lemma upsert_all_or_nothing_witness :
  exists r c', @upsert ascii_tables (str "cat") (str "chases") (str "mouse") 1%float
      (Some (str "doc")) (Some 3) Context_default = Some (r, c') /\ @wf ascii_tables c' /\
    (r = Ok tt <-> write_fits (str "cat") (str "chases") (str "mouse") (Some (str "doc")) Context_default) /\
    (forall e, r = Err e -> c' = Context_default).
Proof.
  apply (@upsert_all_or_nothing ascii_tables).
  - apply (@wf_default ascii_tables).
  - apply valid_write_intro. vm_compute. reflexivity.
  - split; vm_compute; discriminate.
  - apply (@count_room_default ascii_tables).
Defined.
