(* ===== verification/Facts.v ===== *)
(** * The facts a context holds: an abstract view

    A [Fact] is one edge with its names, its totals and its attributions in
    order; [facts] reads a context as the list of its facts in edge order.  The
    operations of a context are specified on that list ([assert_fact],
    [retract_source_fact], [retract_fact]), and refinement theorems say the
    representation follows the specification. *)

From S2P Require Export Upsert.

Local Open Scope N_scope.

Record Fact := {
  f_subject : name; f_label : name; f_object : name;
  f_count : N; f_sum : f64; f_attributions : list Attribution
}.

Definition f_key (f : Fact) : name * name * name := (f_subject f, f_label f, f_object f).

(** One attribution row, materialized. *)
Definition row_at (c : Context) (t : AttributionId) : option Attribution :=
  record ← tget (attributions c) t; attribution_of c (t, record).

Definition fact_at (c : Context) (i : EdgeId) : option Fact :=
  edge ← tget (edges c) i;
  subject ← concept_name c (e_subject edge);
  label ← label_name c (e_label edge);
  object ← concept_name c (e_object edge);
  ids ← walk (length (attributions c)) (t_next <$> attributions c) (e_first_attribution edge);
  attributions ← mapM (row_at c) ids;
  Some {| f_subject := subject; f_label := label; f_object := object;
          f_count := e_count edge; f_sum := e_sum edge; f_attributions := attributions |}.

Definition facts (c : Context) : option (list Fact) := mapM (fact_at c) (indices (edges c)).

(** ** Specification of the write *)

Definition new_attribution (source : name) (w : f64) (p : option N) : Attribution :=
  {| att_source := source; att_weight := w; att_count := 1; att_paragraph := p |}.

Definition fold_attribution (w : f64) (a : Attribution) : Attribution :=
  {| att_source := att_source a; att_weight := accumulate_saturating (att_weight a) w;
     att_count := att_count a + 1; att_paragraph := att_paragraph a |}.

(** One record per source, in first-assertion order; the first locator stays. *)
Fixpoint add_claim (source : name) (w : f64) (p : option N) (atts : list Attribution)
    : list Attribution :=
  match atts with
  | [] => [new_attribution source w p]
  | a :: atts =>
    if decide (att_source a = source) then fold_attribution w a :: atts
    else a :: add_claim source w p atts
  end.

Definition add_claim_opt (source : option name) (w : f64) (p : option N) (atts : list Attribution) :=
  match source with Some source => add_claim source w p atts | None => atts end.

Definition reassert (source : option name) (w : f64) (p : option N) (f : Fact) : Fact :=
  {| f_subject := f_subject f; f_label := f_label f; f_object := f_object f;
     f_count := f_count f + 1; f_sum := accumulate_saturating (f_sum f) w;
     f_attributions := add_claim_opt source w p (f_attributions f) |}.

Definition new_fact (key : name * name * name) (source : option name) (w : f64) (p : option N) : Fact :=
  {| f_subject := key.1.1; f_label := key.1.2; f_object := key.2; f_count := 1; f_sum := w;
     f_attributions := add_claim_opt source w p [] |}.

(** The first fact with the key accumulates; a new key is a new fact. *)
Fixpoint assert_fact (key : name * name * name) (source : option name) (w : f64) (p : option N)
    (fs : list Fact) : list Fact :=
  match fs with
  | [] => [new_fact key source w p]
  | f :: fs =>
    if decide (f_key f = key) then reassert source w p f :: fs
    else f :: assert_fact key source w p fs
  end.

(** The canonical spelling a name resolves to; a new name is its own. *)
Definition canonical (ids : gmap name N) (name_of : N -> option name) (s : name) : name :=
  match ids !! s with Some id => default s (name_of id) | None => s end.

(** ** Names *)

Section names.
Context `{UnicodeTables} {c : Context} (Hwf : wf c).

Lemma concept_name_total i : i < lenN (concepts c) -> exists n, concept_name c i = Some n.
Proof.
  intros [r Hr]%tget_lt. destruct (wf_concepts _ Hwf) as (ns & al & [Hn _ _]).
  destruct (ns_name_at Hn i (c_range r)) as (n & Hn' & _); [by rewrite tget_fmap, Hr|].
  exists n. unfold concept_name. by rewrite Hr.
Qed.
Lemma label_name_total i : i < lenN (labels c) -> exists n, label_name c i = Some n.
Proof.
  intros [r Hr]%tget_lt. destruct (wf_labels _ Hwf) as (ns & al & [Hn _ _] & _).
  destruct (ns_name_at Hn i (l_range r)) as (n & Hn' & _); [by rewrite tget_fmap, Hr|].
  exists n. unfold label_name. by rewrite Hr.
Qed.
Lemma source_name_total i : i < lenN (sources c) -> exists n, source_name c i = Some n.
Proof.
  intros [r Hr]%tget_lt. destruct (wf_sources _ Hwf) as (ns & Hn).
  destruct (ns_name_at Hn i (s_range r)) as (n & Hn' & _); [by rewrite tget_fmap, Hr|].
  exists n. unfold source_name. by rewrite Hr.
Qed.

(** A canonical spelling resolves to its own record. *)
Lemma concept_name_id i n : concept_name c i = Some n -> concept_ids c !! n = Some i.
Proof.
  unfold concept_name. destruct (tget (concepts c) i) as [r|] eqn:Hr; simpl; [|done].
  destruct (wf_concepts _ Hwf) as (ns & al & [Hn _ _]).
  destruct (ns_name_at Hn i (c_range r)) as (n' & Hn' & Hi); [by rewrite tget_fmap, Hr|].
  simpl in Hn'. unfold arena_str. rewrite Hn'. intros [= ->]. apply (ns_lookup Hn). by left.
Qed.
Lemma label_name_id i n : label_name c i = Some n -> label_ids c !! n = Some i.
Proof.
  unfold label_name. destruct (tget (labels c) i) as [r|] eqn:Hr; simpl; [|done].
  destruct (wf_labels _ Hwf) as (ns & al & [Hn _ _] & _).
  destruct (ns_name_at Hn i (l_range r)) as (n' & Hn' & Hi); [by rewrite tget_fmap, Hr|].
  simpl in Hn'. unfold arena_str. rewrite Hn'. intros [= ->]. apply (ns_lookup Hn). by left.
Qed.
Lemma source_name_id i n : source_name c i = Some n -> source_ids c !! n = Some i.
Proof.
  unfold source_name. destruct (tget (sources c) i) as [r|] eqn:Hr; simpl; [|done].
  destruct (wf_sources _ Hwf) as (ns & Hn).
  destruct (ns_name_at Hn i (s_range r)) as (n' & Hn' & Hi); [by rewrite tget_fmap, Hr|].
  simpl in Hn'. unfold arena_str. rewrite Hn'. intros [= ->]. apply (ns_lookup Hn). by left.
Qed.

(** Sources have no aliases, so a resolved source is its canonical name. *)
Lemma source_id_name i n : source_ids c !! n = Some i -> source_name c i = Some n.
Proof.
  intros Hi. destruct (source_name_total i) as [n' Hn']; [by eapply source_id_lt|].
  destruct (wf_sources _ Hwf) as (ns & Hn). pose proof Hn' as Hi'%source_name_id.
  apply (ns_lookup Hn) in Hi as [Hi|(j & Hj & _)]; [|by rewrite tget_lookup in Hj].
  apply (ns_lookup Hn) in Hi' as [Hi'|(j & Hj & _)]; [|by rewrite tget_lookup in Hj].
  congruence.
Qed.

Lemma concept_name_inj i j n : concept_name c i = Some n -> concept_name c j = Some n -> i = j.
Proof. intros ?%concept_name_id ?%concept_name_id. congruence. Qed.
Lemma label_name_inj i j n : label_name c i = Some n -> label_name c j = Some n -> i = j.
Proof. intros ?%label_name_id ?%label_name_id. congruence. Qed.
Lemma source_name_inj i j n : source_name c i = Some n -> source_name c j = Some n -> i = j.
Proof. intros ?%source_name_id ?%source_name_id. congruence. Qed.
End names.

(** ** Locators *)

Section search.
Context (table : list AttributionLocatorRecord).
Context (Hsorted : StronglySorted N.lt (k_attribution <$> table)).

Lemma locators_lt i j r k :
  tget table i = Some r -> tget table j = Some k -> i < j -> k_attribution r < k_attribution k.
Proof using Hsorted.
  rewrite !tget_lookup. intros Hi Hj Hlt.
  pose proof (take_drop_middle _ _ _ Hi) as Heq. rewrite <- Heq in Hsorted.
  rewrite fmap_app in Hsorted. apply StronglySorted_app in Hsorted as (_ & _ & Hs). simpl in Hs.
  apply StronglySorted_inv in Hs as [_ Hs]. rewrite Forall_fmap in Hs.
  eapply (Forall_lookup_1 _ _ (N.to_nat j - S (N.to_nat i))%nat) in Hs; [exact Hs|].
  rewrite lookup_drop. rewrite <- Hj. f_equal. lia.
Qed.

Lemma binary_search_spec fuel lo hi key :
  hi <= lenN table -> hi - lo < N.of_nat fuel ->
  match binary_search fuel table lo hi key with
  | Some i => exists r, tget table i = Some r /\ k_attribution r = key
  | None => forall i r, lo <= i < hi -> tget table i = Some r -> k_attribution r <> key
  end.
Proof using Hsorted.
  revert lo hi. induction fuel as [|fuel IH]; intros lo hi Hhi Hf; [lia|]. simpl.
  destruct (N.leb_spec hi lo); [intros; lia|].
  assert (Hd : (hi - lo) / 2 < hi - lo) by (apply N.div_lt; lia).
  set (mid := lo + (hi - lo) / 2). assert (Hmid : lo <= mid < hi).
  { unfold mid. revert Hd. generalize ((hi - lo) / 2). intros. lia. }
  clearbody mid.
  destruct (tget_lt table mid) as [r Hr]; [lia|]. rewrite Hr.
  destruct (N.compare_spec (k_attribution r) key) as [Heq|Hlt|Hgt]; [eauto| |].
  - pose proof (IH (mid + 1) hi Hhi ltac:(lia)) as Hrec. destruct (binary_search _ _ _ _ _); [done|].
    intros i k Hi Hk. destruct (decide (mid < i)); [apply (Hrec i); [lia | done]|].
    destruct (decide (i = mid)) as [->|]; [simplify_eq; lia|].
    pose proof (locators_lt i mid k r Hk Hr ltac:(lia)). lia.
  - pose proof (IH lo mid ltac:(lia) ltac:(lia)) as Hrec. destruct (binary_search _ _ _ _ _); [done|].
    intros i k Hi Hk. destruct (decide (i < mid)); [apply (Hrec i); [lia | done]|].
    destruct (decide (i = mid)) as [->|]; [simplify_eq; lia|].
    pose proof (locators_lt mid i r k Hr Hk ltac:(lia)). lia.
Qed.
End search.

(** [locator_for] finds the row of an attribution, wherever it lies. *)
Lemma locator_for_spec c t p :
  StronglySorted N.lt (k_attribution <$> attribution_locators c) ->
  locator_for c t = Some p <->
  {| k_attribution := t; k_paragraph := p |} ∈ attribution_locators c.
Proof.
  intros Hs. unfold locator_for.
  pose proof (binary_search_spec _ Hs (S (length (attribution_locators c))) 0
    (lenN (attribution_locators c)) t ltac:(lia) ltac:(unfold lenN; lia)) as Hb.
  destruct (binary_search _ _ _ _ _) as [i|]; simpl.
  - destruct Hb as (r & Hr & Hk). rewrite Hr. simpl. split.
    + intros [= <-]. rewrite tget_lookup in Hr. subst t. destruct r. by eapply list_elem_of_lookup_2.
    + intros (j & Hj)%list_elem_of_lookup. f_equal.
      assert (Hj' : tget (attribution_locators c) (N.of_nat j) = Some {| k_attribution := t; k_paragraph := p |})
        by by rewrite tget_lookup, Nat2N.id.
      destruct (N.lt_trichotomy i (N.of_nat j)) as [Hlt|[->|Hlt]]; [|rewrite Hj' in Hr; injection Hr as <-; done|].
      * pose proof (locators_lt _ Hs _ _ _ _ Hr Hj' Hlt). simpl in *. lia.
      * pose proof (locators_lt _ Hs _ _ _ _ Hj' Hr Hlt). simpl in *. lia.
  - split; [done|]. intros (j & Hj)%list_elem_of_lookup. pose proof (lookup_lt_Some _ _ _ Hj).
    exfalso. eapply (Hb (N.of_nat j) {| k_attribution := t; k_paragraph := p |}); [unfold lenN; lia | rewrite tget_lookup, Nat2N.id; exact Hj | done].
Qed.

(** ** Reading one fact *)

Lemma mapM_Some_2 {A B} (f : A -> option B) l k :
  Forall2 (fun x y => f x = Some y) l k -> mapM f l = Some k.
Proof. apply mapM_Some. Qed.

Lemma fact_at_inv c i f :
  fact_at c i = Some f <-> exists e ids,
    tget (edges c) i = Some e /\ concept_name c (e_subject e) = Some (f_subject f) /\
    label_name c (e_label e) = Some (f_label f) /\ concept_name c (e_object e) = Some (f_object f) /\
    chain_from (t_next <$> attributions c) (e_first_attribution e) ids /\
    mapM (row_at c) ids = Some (f_attributions f) /\
    f_count f = e_count e /\ f_sum f = e_sum e.
Proof.
  unfold fact_at. split.
  - destruct (tget (edges c) i) as [e|]; simpl; [|done].
    destruct (concept_name c (e_subject e)) as [s|] eqn:Es; simpl; [|done].
    destruct (label_name c (e_label e)) as [l|] eqn:El; simpl; [|done].
    destruct (concept_name c (e_object e)) as [o|] eqn:Eo; simpl; [|done].
    destruct (walk _ _ _) as [ids|] eqn:Ew; simpl; [|done].
    destruct (mapM _ ids) as [atts|] eqn:Em; simpl; [|done].
    intros [= <-]. apply walk_Some in Ew. exists e, ids. done.
  - intros (e & ids & He & Hs & Hl & Ho & Hc & Hm & Hn & Hw). rewrite He. simpl. rewrite Hs. simpl.
    rewrite Hl. simpl. rewrite Ho. simpl. apply walk_chain in Hc. rewrite length_fmap in Hc.
    rewrite Hc. simpl. rewrite Hm. simpl. rewrite <- Hn, <- Hw. by destruct f.
Qed.

Section facts.
Context `{UnicodeTables}.
Implicit Types c : Context.

Lemma row_at_total c k t : wf c -> attribution_ids c !! k = Some t -> t < lenN (attributions c) ->
  exists a, row_at c t = Some a.
Proof.
  intros Hwf Hk [r Hr]%tget_lt. unfold row_at. rewrite Hr. simpl. unfold attribution_of. simpl.
  pose proof (rows_live _ _ _ (wf_rows _ Hwf) k t r Hk Hr) as [Hs _].
  destruct (source_name_total Hwf (t_source r) Hs) as [n ->]. simpl. eauto.
Qed.

(** Every edge of a well-formed context can be read. *)
Lemma fact_at_total c i : wf c -> i < lenN (edges c) -> exists f, fact_at c i = Some f.
Proof.
  intros Hwf [e He]%tget_lt. destruct (wf_edge c i e Hwf He) as (_ & Hs & Hl & Ho).
  destruct (concept_name_total Hwf _ Hs) as [s Es]. destruct (label_name_total Hwf _ Hl) as [l El].
  destruct (concept_name_total Hwf _ Ho) as [o Eo].
  destruct (wf_attributions _ Hwf) as (chains & Ha & _).
  destruct (attr_chain Ha i (e_ends e)) as (ids & Hids & Hc & _); [by rewrite tget_fmap, He|].
  assert (Hm : exists atts, mapM (row_at c) ids = Some atts).
  { apply mapM_is_Some_2, Forall_forall. intros t Ht.
    assert (Htl : t < lenN (attributions c)) by (rewrite <- (lenN_fmap t_next); by eapply chain_from_lt).
    destruct (tget_lt _ _ Htl) as [r Hr].
    apply (row_at_total c (i, t_source r)); [done | | done]. apply (attr_ids _ _ _ _ _ Ha). exists ids.
    split; [done|]. split; [done|]. by rewrite tget_fmap, Hr. }
  destruct Hm as [atts Hm].
  exists {| f_subject := s; f_label := l; f_object := o; f_count := e_count e; f_sum := e_sum e;
            f_attributions := atts |}.
  apply fact_at_inv. exists e, ids. done.
Qed.

Lemma facts_total c : wf c -> exists fs, facts c = Some fs.
Proof.
  intros Hwf. apply mapM_is_Some_2, Forall_forall. intros i Hi%elem_of_indices. by apply fact_at_total.
Qed.

Lemma facts_lookup c fs : facts c = Some fs ->
  lenN fs = lenN (edges c) /\ forall i, i < lenN (edges c) -> tget fs i = fact_at c i.
Proof.
  unfold facts. intros Hfs%mapM_Some. pose proof (Forall2_lenN _ _ _ Hfs) as Hlen.
  assert (Hl : lenN (indices (edges c)) = lenN (edges c)) by (unfold lenN; by rewrite indices_length).
  split; [congruence|]. intros i Hi. rewrite tget_lookup.
  destruct (Forall2_lookup_l _ _ _ (N.to_nat i) i Hfs) as (f & Hf & Hi'); [|congruence].
  unfold indices. rewrite list_lookup_fmap, lookup_seq_lt by (unfold lenN in Hi; lia). simpl. f_equal. lia.
Qed.

Lemma facts_intro c fs :
  lenN fs = lenN (edges c) -> (forall i f, tget fs i = Some f -> fact_at c i = Some f) -> facts c = Some fs.
Proof.
  intros Hlen Hall. apply mapM_Some_2, Forall2_tget.
  { rewrite indices_length. unfold lenN in Hlen. lia. }
  intros i j f Hi Hf. rewrite tget_lookup in Hi. unfold indices in Hi.
  apply list_lookup_fmap_Some in Hi as (k & -> & [-> _]%lookup_seq). simpl.
  rewrite N2Nat.id. by apply Hall.
Qed.

(** Keys are names; names are ids. *)
Lemma fact_key_edge c i e f : wf c -> tget (edges c) i = Some e -> fact_at c i = Some f ->
  concept_ids c !! f_subject f = Some (e_subject e) /\ label_ids c !! f_label f = Some (e_label e) /\
  concept_ids c !! f_object f = Some (e_object e).
Proof.
  intros Hwf He (e' & ids & He' & Hs & Hl & Ho & _)%fact_at_inv. simplify_eq.
  split; [|split]; [by apply concept_name_id | by apply label_name_id | by apply concept_name_id].
Qed.

Lemma fact_key_inj c i j f g : wf c -> fact_at c i = Some f -> fact_at c j = Some g -> f_key f = f_key g -> i = j.
Proof.
  intros Hwf Hf Hg [= Hs Hl Ho]. pose proof Hf as (e & _ & He & _)%fact_at_inv.
  pose proof Hg as (k & _ & Hk & _)%fact_at_inv.
  pose proof (fact_key_edge c i e f Hwf He Hf) as (? & ? & ?).
  pose proof (fact_key_edge c j k g Hwf Hk Hg) as (? & ? & ?).
  assert (Hi : edge_ids c !! e_triple e = Some i) by (apply (wf_triples _ Hwf); by rewrite tget_fmap, He).
  assert (Hj : edge_ids c !! e_triple k = Some j) by (apply (wf_triples _ Hwf); by rewrite tget_fmap, Hk).
  unfold e_triple in *. congruence.
Qed.

Lemma mapM_mono {A B} (f g : A -> option B) l k :
  (forall x y, f x = Some y -> g x = Some y) -> mapM f l = Some k -> mapM g l = Some k.
Proof.
  intros Hfg Hm%mapM_Some. apply mapM_Some. eapply Forall2_impl; [done|]. simpl. auto.
Qed.

(** Interning changes no fact. *)
Lemma fact_at_grows c c' i f : grows c c' -> fact_at c i = Some f -> fact_at c' i = Some f.
Proof.
  intros Hg (e & ids & He & Hs & Hl & Ho & Hc & Hm & ? & ?)%fact_at_inv. apply fact_at_inv.
  exists e, ids. rewrite (g_edges _ _ Hg), (g_attributions _ _ Hg).
  split; [done|]. split; [by apply Hg|]. split; [by apply Hg|]. split; [by apply Hg|].
  split; [done|]. split; [|done]. eapply mapM_mono; [|done]. intros t a. unfold row_at, attribution_of.
  rewrite (g_attributions _ _ Hg). destruct (tget (attributions c) t) as [r|]; simpl; [|done].
  destruct (source_name c (t_source r)) as [n|] eqn:En; simpl; [|done].
  rewrite (g_source_name _ _ Hg _ _ En). simpl. unfold locator_for. by rewrite (g_locators _ _ Hg).
Qed.
End facts.
