(* ===== verification/FactsWrite.v ===== *)
(** * The write refines its specification

    [upsert] on a context is [assert_fact] on the list of its facts. *)

From S2P Require Export Facts.

Local Open Scope N_scope.

Lemma add_claim_fold n w p xs a ys :
  (forall b, b ∈ xs -> att_source b <> n) -> att_source a = n ->
  add_claim n w p (xs ++ a :: ys) = xs ++ fold_attribution w a :: ys.
Proof.
  intros Hxs Ha. induction xs as [|x xs IH]; simpl.
  - by rewrite decide_True.
  - rewrite decide_False by (apply Hxs; set_solver). f_equal. apply IH. set_solver.
Qed.

Lemma add_claim_new n w p atts :
  (forall b, b ∈ atts -> att_source b <> n) -> add_claim n w p atts = atts ++ [new_attribution n w p].
Proof.
  intros Hxs. induction atts as [|x xs IH]; simpl; [done|].
  rewrite decide_False by (apply Hxs; set_solver). f_equal. apply IH. set_solver.
Qed.

(** Adding one source's claim to a fact. *)
Definition add_source (n : name) (w : f64) (p : option N) (f : Fact) : Fact :=
  {| f_subject := f_subject f; f_label := f_label f; f_object := f_object f;
     f_count := f_count f; f_sum := f_sum f;
     f_attributions := add_claim n w p (f_attributions f) |}.

Lemma mapM_ext_in {A B} (f g : A -> option B) l :
  (forall x, x ∈ l -> f x = g x) -> mapM f l = mapM g l.
Proof.
  induction l as [|x l IH]; intros Hfg; simpl; [done|].
  rewrite Hfg by set_solver. destruct (g x); simpl; [|done]. rewrite IH; [done | set_solver].
Qed.

Lemma mapM_app_Some {A B} (f : A -> option B) l1 l2 k :
  mapM f (l1 ++ l2) = Some k <-> exists k1 k2, k = k1 ++ k2 /\ mapM f l1 = Some k1 /\ mapM f l2 = Some k2.
Proof.
  rewrite mapM_Some. split.
  - intros (k1 & k2 & H1 & H2 & ->)%Forall2_app_inv_l. exists k1, k2.
    rewrite !mapM_Some. done.
  - intros (k1 & k2 & -> & H1%mapM_Some & H2%mapM_Some). by apply Forall2_app.
Qed.

(** A lookup that only reads a projection. *)
Lemma tget_bind_via {A B C} (g : A -> C) (h : C -> option B) (t t' : list A) j :
  g <$> t' = g <$> t -> (r ← tget t' j; h (g r)) = (r ← tget t j; h (g r)).
Proof.
  intros Heq. apply (f_equal (fun l => tget l j)) in Heq. rewrite !tget_fmap in Heq.
  destruct (tget t' j), (tget t j); simpl in *; congruence.
Qed.

Section facts_write.
Context `{UnicodeTables}.
Implicit Types c : Context.

(** The chain [fact_at] reads is the one the invariant names. *)
Lemma fact_chain c chains i f :
  attributions_wf c chains -> fact_at c i = Some f -> exists l,
    tget chains i = Some l /\ mapM (row_at c) l = Some (f_attributions f) /\
    exists e, tget (edges c) i = Some e /\ chain_from (t_next <$> attributions c) (e_first_attribution e) l /\
      e_last_attribution e = tail_of l.
Proof.
  intros (Ha & _) (e & l & He & _ & _ & _ & Hc & Hm & _)%fact_at_inv.
  destruct (attr_chain Ha i (e_ends e)) as (l' & Hl' & Hc' & Ht); [by rewrite tget_fmap, He|].
  simpl in *. pose proof (chain_from_fun _ _ _ _ Hc Hc') as ->. exists l'. eauto 8.
Qed.

Lemma row_source c t a : row_at c t = Some a -> exists r, tget (attributions c) t = Some r /\
  source_name c (t_source r) = Some (att_source a) /\ att_weight a = t_sum r /\ att_count a = t_count r /\
  att_paragraph a = locator_for c t.
Proof.
  unfold row_at, attribution_of. destruct (tget (attributions c) t) as [r|]; simpl; [|done].
  destruct (source_name c (t_source r)) as [n|] eqn:En; simpl; [|done]. intros [= <-]. exists r. done.
Qed.

(** ** The edge *)

Lemma accumulate_edge_facts e w c c' i f :
  (forall ed, tget (edges c) e = Some ed -> e_count ed < U64_MAX) ->
  accumulate_edge e w c = Some c' -> fact_at c i = Some f ->
  fact_at c' i = Some (if decide (i = e) then reassert None w None f else f).
Proof.
  intros Hroom (ed & Hed & ->)%accumulate_edge_inv (e0 & ids & He0 & Hs & Hl & Ho & Hc & Hm & Hn & Hw)%fact_at_inv.
  specialize (Hroom ed Hed). apply fact_at_inv. simpl. case_decide as Hi.
  - subst i. simplify_eq. rewrite tget_insert_eq by by eapply tget_Some_lt. eexists _, ids.
    split; [done|]. simpl. rewrite u64_add_small by lia. rewrite Hn, Hw. done.
  - rewrite tget_insert_ne by done. eexists _, ids. split; [done|]. done.
Qed.

(** Reading an edge is reading its projections. *)
Lemma fact_at_edge c c' i e e' f :
  fact_at c i = Some f -> tget (edges c) i = Some e -> tget (edges c') i = Some e' ->
  e_triple e' = e_triple e -> e_first_attribution e' = e_first_attribution e ->
  e_count e' = e_count e -> e_sum e' = e_sum e ->
  (forall j, concept_name c' j = concept_name c j) -> (forall j, label_name c' j = label_name c j) ->
  attributions c' = attributions c -> (forall t, row_at c' t = row_at c t) ->
  fact_at c' i = Some f.
Proof.
  intros (e0 & ids & He0 & Hs & Hl & Ho & Hc & Hm & Hn & Hw)%fact_at_inv He He' [= E1 E2 E3] E4 E5 E6 Hcn Hln Ht Hr.
  simplify_eq. apply fact_at_inv. exists e', ids. rewrite E1, E2, E3, E4, E5, E6, !Hcn, Hln, Ht.
  split; [done|]. repeat (split; [done|]). split; [|done]. by rewrite (mapM_ext_in _ (row_at c)).
Qed.

(** The fact of a brand-new edge, before any claim. *)
Definition bare_fact (key : name * name * name) (count : N) (sum : f64) : Fact :=
  {| f_subject := key.1.1; f_label := key.1.2; f_object := key.2; f_count := count; f_sum := sum;
     f_attributions := [] |}.

Lemma push_edge_facts sid lid oid n w s l o c id c' :
  concept_name c sid = Some s -> label_name c lid = Some l -> concept_name c oid = Some o ->
  push_edge sid lid oid n w c = Some (id, c') ->
  fact_at c' id = Some (bare_fact (s, l, o) n w) /\
  (forall i f, fact_at c i = Some f -> fact_at c' i = Some f).
Proof.
  intros Hs Hl Ho Hpush.
  pose proof (push_edge_frame (fun e => (e_triple e, e_first_attribution e, e_count e, e_sum e))
    _ _ _ _ _ _ _ _ ltac:(done) ltac:(done) ltac:(done) Hpush) as Fr.
  pose proof (push_edge_other _ _ _ _ _ _ _ _ Hpush) as (Hcr & Hlr & Hc').
  apply push_edge_inv in Hpush as (-> & _ & _).
  assert (Hcn : forall j, concept_name c' j = concept_name c j).
  { intros j. rewrite Hc'. unfold concept_name, arena_str. simpl.
    apply (tget_bind_via c_range (fun r => name_at (arena c) r.1 r.2)), Hcr. }
  assert (Hln : forall j, label_name c' j = label_name c j).
  { intros j. rewrite Hc'. unfold label_name, arena_str. simpl.
    apply (tget_bind_via l_range (fun r => name_at (arena c) r.1 r.2)), Hlr. }
  assert (Hrow : forall t, row_at c' t = row_at c t) by (intros t; by rewrite Hc').
  assert (Hatt : attributions c' = attributions c) by by rewrite Hc'.
  split.
  - assert (He : exists e, tget (edges c') (lenN (edges c)) = Some e /\ e_triple e = (sid, lid, oid) /\
      e_first_attribution e = NIL /\ e_count e = n /\ e_sum e = w).
    { apply (f_equal (fun l => tget l (lenN (edges c)))) in Fr. rewrite tget_fmap in Fr.
      erewrite tget_snoc_at in Fr by by rewrite lenN_fmap.
      apply fmap_Some in Fr as (e & He & [= E1 E2 E3 E4 E5 E6]). exists e. unfold e_triple. by rewrite <- E1, <- E2, <- E3. }
    destruct He as (e & He & [= E1 E2 E3] & E4 & E5 & E6). apply fact_at_inv. exists e, [].
    rewrite !Hcn, Hln, E1, E2, E3, E4, E5, E6. done.
  - intros i f Hf. pose proof Hf as (e & _ & He & _)%fact_at_inv.
    apply (f_equal (fun l => tget l i)) in Fr. rewrite tget_fmap, tget_app_l, tget_fmap, He in Fr
      by (rewrite lenN_fmap; by eapply tget_Some_lt).
    apply fmap_Some in Fr as (e' & He' & [= ? ? ? ? ? ?]).
    eapply (fact_at_edge c c' i e e'); try done. unfold e_triple. congruence.
Qed.

Lemma upsert_edge_facts key s l o w p c e c' :
  (forall e r, edge_ids c !! key = Some e -> tget (edges c) e = Some r -> e_count r < U64_MAX) ->
  concept_name c key.1.1 = Some s -> label_name c key.1.2 = Some l -> concept_name c key.2 = Some o ->
  upsert_edge key w c = Some (e, c') ->
  (forall i f, fact_at c i = Some f ->
     fact_at c' i = Some (if decide (edge_ids c !! key = Some i) then reassert None w p f else f)) /\
  (edge_ids c !! key = None -> fact_at c' e = Some (new_fact (s, l, o) None w p)).
Proof.
  intros Hroom Hs Hl Ho. unfold upsert_edge. destruct (edge_ids c !! key) as [e0|] eqn:Hk.
  - destruct (accumulate_edge e0 w c) as [c1|] eqn:Ha; simpl; [|done]. intros [= <- <-].
    split; [|done]. intros i f Hf. erewrite accumulate_edge_facts; [|by eauto|done|done].
    f_equal. case_decide; case_decide; done || congruence.
  - destruct key as [[sid lid] oid]. intros Hp. simpl in *.
    destruct (push_edge_facts sid lid oid 1 w s l o c e c' Hs Hl Ho Hp) as [? Hrest].
    split; [|done]. intros i f Hf. by apply Hrest.
Qed.

(** ** The attribution *)

Lemma locator_for_frame c c' t :
  StronglySorted N.lt (k_attribution <$> attribution_locators c) ->
  StronglySorted N.lt (k_attribution <$> attribution_locators c') ->
  (forall p, {| k_attribution := t; k_paragraph := p |} ∈ attribution_locators c' <->
     {| k_attribution := t; k_paragraph := p |} ∈ attribution_locators c) ->
  locator_for c' t = locator_for c t.
Proof.
  intros Hs Hs' Hiff. apply option_eq. intros p. by rewrite !locator_for_spec, Hiff.
Qed.

(** The merged row reads as the old claim with the weight folded in. *)
Lemma merged_row c t r a w :
  tget (attributions c) t = Some r -> row_at c t = Some a -> t_count r + 1 <= U64_MAX ->
  row_at (set_attributions (<[N.to_nat t := set_t_totals (u64_add (t_count r) 1)
    (accumulate_saturating (t_sum r) w) r]> (attributions c)) c) t = Some (fold_attribution w a).
Proof.
  intros Hr Hrow Hroom. pose proof (row_source c t a Hrow) as (r0 & Hr0 & Hsn & Hw & Hct & Hp). simplify_eq.
  unfold row_at. simpl. rewrite tget_insert_eq by by eapply tget_Some_lt. simpl.
  unfold attribution_of, source_name, arena_str in *. simpl. rewrite Hsn. simpl.
  rewrite u64_add_small by done. unfold fold_attribution. by rewrite Hw, Hct, Hp.
Qed.

Lemma attribute_merge_facts c chains e s n t r w c' i f p :
  wf c -> attributions_wf c chains -> attribution_ids c !! (e, s) = Some t ->
  tget (attributions c) t = Some r -> source_name c s = Some n -> t_count r < U64_MAX ->
  c' = set_attributions (<[N.to_nat t :=
    set_t_totals (u64_add (t_count r) 1) (accumulate_saturating (t_sum r) w) r]> (attributions c)) c ->
  fact_at c i = Some f -> fact_at c' i = Some (if decide (i = e) then add_source n w p f else f).
Proof.
  intros Hwf Hat Hids Hr Hn Hroom Hc0 Hf. pose proof Hat as (Ha & _).
  assert (Hme : row_at c' t = fold_attribution w <$> row_at c t).
  { destruct (row_at_total c (e, s) t Hwf Hids) as [a Hrow]; [by eapply tget_Some_lt|].
    rewrite Hc0, Hrow. apply merged_row; [done | done | lia]. }
  assert (Hne : forall t', t' <> t -> row_at c' t' = row_at c t').
  { intros t' Ht'. rewrite Hc0. unfold row_at. simpl. by rewrite tget_insert_ne. }
  assert (Hsame : edges c' = edges c /\ concept_name c' = concept_name c /\ label_name c' = label_name c /\
    t_next <$> attributions c' = t_next <$> attributions c).
  { rewrite Hc0. do 3 (split; [done|]). simpl. rewrite list_fmap_insert. apply list_insert_id.
    rewrite list_lookup_fmap. rewrite tget_lookup in Hr. by rewrite Hr. }
  destruct Hsame as (HE & HC & HL & HT). clear Hc0.
  pose proof Hf as (ed & l & Hed & Hs & Hl & Ho & Hc & Hm & Hcnt & Hsum)%fact_at_inv.
  destruct (fact_chain c chains i f Hat Hf) as (l' & Hl' & _ & ed' & Hed' & Hc' & _). simplify_eq.
  pose proof (chain_from_fun _ _ _ _ Hc' Hc) as ->.
  case_decide as Hi; apply fact_at_inv; exists ed, l; rewrite HE, HC, HL, HT; simpl;
    (repeat (split; [done|])); (split; [|done]).
  - subst i. destruct (attr_ids_split Ha e s t l Hl' Hids) as (xs & ys & -> & Hst & Hxs).
    pose proof (mjoin_NoDup_chain _ _ _ (attr_disjoint _ _ _ _ _ Ha) Hl') as Hnd.
    apply NoDup_app in Hnd as (_ & Hdis & [Hys _]%NoDup_cons).
    apply mapM_app_Some in Hm as (a1 & a2 & -> & H1 & H2). simpl in H2.
    destruct (row_at c t) as [a|] eqn:Hrow; simpl in H2; [|done].
    destruct (mapM (row_at c) ys) as [a3|] eqn:H3; simpl in H2; [|done]. injection H2 as <-.
    pose proof (row_source c t a Hrow) as (r0 & Hr0 & Hsn & Hw & Hct & Hp). simplify_eq.
    rewrite tget_fmap, Hr in Hst. injection Hst as Hst.
    rewrite add_claim_fold; [| |congruence].
    + apply mapM_app_Some. exists a1, (fold_attribution w a :: a3). split; [done|]. split.
      * rewrite (mapM_ext_in _ (row_at c)); [done|]. intros t' Ht'. apply Hne. intros ->.
        apply (Hdis t); set_solver.
      * simpl. rewrite Hme. simpl.
        rewrite (mapM_ext_in _ (row_at c)), H3; [done | intros t' Ht'; apply Hne; set_solver].
    + intros b Hb Hbn. apply mapM_Some in H1. apply list_elem_of_lookup in Hb as [k Hb].
      destruct (Forall2_lookup_r _ _ _ _ _ H1 Hb) as (t' & Ht' & Hrb).
      apply list_elem_of_lookup_2 in Ht'. destruct (Hxs t' Ht') as (s' & Hs' & Hss).
      destruct (row_source c t' b Hrb) as (r1 & Hr1 & Hsb & _). rewrite tget_fmap, Hr1 in Hs'.
      injection Hs' as <-. apply Hss. simplify_eq. by eapply source_name_inj.
  - rewrite (mapM_ext_in _ (row_at c)); [done|]. intros t' Ht'. apply Hne. intros ->.
    pose proof Hids as (k & Hk & Htk & _)%(attr_ids _ _ _ _ _ Ha). apply Hi.
    by eapply mjoin_NoDup_owner; [apply Ha| | | |].
Qed.

(** What a push leaves of the rows and locators, and what it adds. *)
Section push.
Context (c c' : Context) (e s : N) (n : name) (k : N) (w : f64) (p : option N).
Context (Hwf : wf c) (Hwf' : wf c') (Hn : source_name c s = Some n).
Context (Hpush : push_attribution e s k w p c = Some c').

Lemma push_names : (forall i, concept_name c' i = concept_name c i) /\
  (forall i, label_name c' i = label_name c i) /\ (forall i, source_name c' i = source_name c i).
Proof using All. by destruct (push_attribution_inv _ _ _ _ _ _ _ Hpush) as (? & _ & _ & T' & _ & ->). Qed.

Lemma push_last ed : tget (edges c) e = Some ed ->
  e_last_attribution ed = NIL \/ e_last_attribution ed < lenN (attributions c).
Proof using All.
  intros Hed. destruct (wf_attributions _ Hwf) as (chains & Ha & _).
  destruct (attr_chain Ha e (e_ends ed)) as (l & _ & Hc & Ht); [by rewrite tget_fmap, Hed|]. simpl in *.
  destruct (decide (tail_of l = NIL)); [left; congruence | right]. rewrite Ht.
  rewrite <- (lenN_fmap t_next). by eapply chain_from_last_lt.
Qed.

Lemma push_locators t : t < lenN (attributions c) -> locator_for c' t = locator_for c t.
Proof using All.
  intros Ht. apply locator_for_frame; [apply Hwf | apply Hwf'|]. intros q.
  destruct (push_attribution_inv _ _ _ _ _ _ _ Hpush) as (? & _ & _ & T' & _ & ->). simpl.
  rewrite elem_of_app. split; [|by left]. intros [?|Hq]; [done|].
  destruct p; [apply list_elem_of_singleton in Hq as [= -> _]; lia | by apply elem_of_nil in Hq].
Qed.

Lemma push_locator_new : locator_for c' (lenN (attributions c)) = p.
Proof using All.
  apply option_eq. intros q. rewrite locator_for_spec by apply Hwf'.
  destruct (push_attribution_inv _ _ _ _ _ _ _ Hpush) as (? & _ & _ & T' & _ & ->). simpl.
  assert (Hold : {| k_attribution := lenN (attributions c); k_paragraph := q |} ∉ attribution_locators c).
  { intros Hq. pose proof (wf_locator_rows _ Hwf) as Hk.
    eapply Forall_forall in Hk as [Hk _]; [|exact Hq]. simpl in Hk. lia. }
  rewrite elem_of_app. destruct p as [p'|]; rewrite ?list_elem_of_singleton, ?elem_of_nil; naive_solver.
Qed.

Lemma push_row_get t r : tget (attributions c) t = Some r -> exists r',
  tget (attributions c') t = Some r' /\ t_source r' = t_source r /\ t_count r' = t_count r /\
  t_sum r' = t_sum r.
Proof using All.
  intros Hr. destruct (push_attribution_inv _ _ _ _ _ _ _ Hpush) as (ed & Hed & _ & T' & HT' & ->). simpl.
  destruct (N.eqb_spec (e_last_attribution ed) NIL).
  - subst T'. exists r. split; [by apply tget_app_mono | done].
  - rewrite (tupd_get _ _ _ _ t HT'), (tget_app_mono _ _ _ _ Hr). case_decide; simpl; eauto.
Qed.

Lemma push_row_last : exists r', tget (attributions c') (lenN (attributions c)) = Some r' /\
  t_source r' = s /\ t_count r' = k /\ t_sum r' = w.
Proof using All.
  destruct (push_attribution_inv _ _ _ _ _ _ _ Hpush) as (ed & Hed & _ & T' & HT' & ->). simpl.
  destruct (N.eqb_spec (e_last_attribution ed) NIL).
  - subst T'. rewrite tget_snoc. eauto.
  - rewrite (tupd_get _ _ _ _ _ HT'), tget_snoc. case_decide; simpl; eauto.
Qed.

Lemma push_row_old t a : row_at c t = Some a -> row_at c' t = Some a.
Proof using All.
  intros Hrow. pose proof (row_source c t a Hrow) as (r & Hr & Hsn & Hw & Hct & Hp).
  destruct (push_row_get t r Hr) as (r' & Hr' & E1 & E2 & E3). destruct push_names as (_ & _ & Hsrc).
  unfold row_at, attribution_of. rewrite Hr'. simpl. rewrite Hsrc, E1, Hsn. simpl.
  rewrite push_locators, E2, E3, <- Hp, <- Hw, <- Hct by by eapply tget_Some_lt. by destruct a.
Qed.

Lemma push_row_new : row_at c' (lenN (attributions c)) =
  Some {| att_source := n; att_weight := w; att_count := k; att_paragraph := p |}.
Proof using All.
  destruct push_row_last as (r' & Hr' & E1 & E2 & E3). destruct push_names as (_ & _ & Hsrc).
  unfold row_at, attribution_of. rewrite Hr'. simpl. rewrite Hsrc, E1, Hn. simpl.
  by rewrite push_locator_new, E2, E3.
Qed.
End push.

(** A fact with one more claim at the end. *)
Definition append_claim (a : Attribution) (f : Fact) : Fact :=
  {| f_subject := f_subject f; f_label := f_label f; f_object := f_object f;
     f_count := f_count f; f_sum := f_sum f; f_attributions := f_attributions f ++ [a] |}.

Lemma push_attribution_appends c chains e s n k w p c' i f :
  wf c -> wf c' -> attributions_wf c chains -> source_name c s = Some n ->
  push_attribution e s k w p c = Some c' -> fact_at c i = Some f ->
  fact_at c' i = Some (if decide (i = e) then
    append_claim {| att_source := n; att_weight := w; att_count := k; att_paragraph := p |} f else f).
Proof.
  intros Hwf Hwf' Hat Hn Hpush Hf. pose proof Hat as (Ha & _).
  pose proof (push_row_old c c' e s n k w p Hwf Hwf' Hn Hpush) as Hold.
  pose proof (push_row_new c c' e s n k w p Hwf Hwf' Hn Hpush) as Hnew.
  pose proof (push_names c c' e s n k w p Hwf Hwf' Hn Hpush) as (Hcn & Hln & _).
  pose proof (push_last c c' e s n k w p Hwf Hwf' Hn Hpush) as Hlast.
  pose proof Hf as (ed & l & Hed & Hs & Hl & Ho & Hc & Hm & Hcnt & Hsum)%fact_at_inv.
  destruct (fact_chain c chains i f Hat Hf) as (l' & Hl' & _ & ed2 & Hed2 & Hc2 & Ht2). simplify_eq.
  pose proof (chain_from_fun _ _ _ _ Hc2 Hc) as ->.
  pose proof (mapM_mono _ _ _ _ Hold Hm) as Hm'.
  apply push_attribution_inv in Hpush as (ed0 & Hed0 & Hlt & T' & HT' & Hc').
  destruct (push_rows c _ s k w T' (Hlast ed0 Hed0) HT') as (Fn & _).
  assert (HE : edges c' = <[N.to_nat e := set_attribution_ends (if e_last_attribution ed0 =? NIL
    then lenN (attributions c) else e_first_attribution ed0) (lenN (attributions c)) ed0]> (edges c))
    by by rewrite Hc'.
  assert (HT : attributions c' = T') by by rewrite Hc'. clear Hc'. rewrite <- HT in Fn. clear HT' HT.
  apply fact_at_inv. setoid_rewrite Hcn. setoid_rewrite Hln. case_decide as Hi.
  - subst i. simplify_eq. exists (set_attribution_ends (if e_last_attribution ed0 =? NIL
      then lenN (attributions c) else e_first_attribution ed0) (lenN (attributions c)) ed0),
      (l ++ [lenN (attributions c)]).
    rewrite mapM_app_Some, HE, tget_insert_eq by by eapply tget_Some_lt.
    repeat (split; [done|]). split; [|split; [|done]].
    + rewrite Fn, Ht2. rewrite <- (lenN_fmap t_next). apply chain_from_snoc; [|done].
      by rewrite lenN_fmap.
    + eexists (f_attributions f), [_]. split; [done|]. split; [done | by simpl; rewrite Hnew].
  - exists ed, l. rewrite HE, tget_insert_ne by done. repeat (split; [done|]).
    split; [|done]. eapply chain_from_frame; [|done]. intros t Ht. rewrite Fn.
    assert (Htm : t ∈ mjoin chains) by (apply elem_of_mjoin_tget; eauto).
    pose proof (attr_row_lt Ha t Htm) as Htlt.
    case_match eqn:Enil; [by apply tget_app_l|]. rewrite tget_app_l by by rewrite lenN_insert.
    apply tget_insert_ne. intros <-. apply N.eqb_neq in Enil. apply Hi.
    destruct (attr_chain Ha e (e_ends ed0)) as (l0 & Hl0 & Hc0 & Ht0); [by rewrite tget_fmap, Hed0|].
    eapply (mjoin_NoDup_owner chains); [apply Ha | exact Hl' | exact Hl0 | exact Ht |].
    simpl in Ht0. rewrite Ht0 in Enil |- *. destruct l0 as [|x l0 _] using rev_ind; [done|].
    rewrite tail_of_snoc. set_solver.
Qed.

Lemma push_attribution_facts c chains e s n w p c' i f :
  wf c -> wf c' -> attributions_wf c chains -> attribution_ids c !! (e, s) = None ->
  source_name c s = Some n -> push_attribution e s 1 w p c = Some c' ->
  fact_at c i = Some f -> fact_at c' i = Some (if decide (i = e) then add_source n w p f else f).
Proof.
  intros Hwf Hwf' Hat Hids Hn Hpush Hf. rewrite (push_attribution_appends c chains e s n 1 w p c' i f) by done.
  f_equal. case_decide as Hi; [|done]. subst i. unfold append_claim, add_source. f_equal. symmetry.
  apply add_claim_new. intros b Hb Hbn. pose proof Hat as (Ha & _).
  destruct (fact_chain c chains e f Hat Hf) as (l & Hl & Hm & _). apply mapM_Some in Hm.
  apply list_elem_of_lookup in Hb as [k Hb].
  destruct (Forall2_lookup_r _ _ _ _ _ Hm Hb) as (t' & Ht' & Hrb). apply list_elem_of_lookup_2 in Ht'.
  destruct (row_source c t' b Hrb) as (r1 & Hr1 & Hsb & _).
  assert (Hsr : t_source r1 = s) by (eapply source_name_inj; [exact Hwf | exact Hsb | by rewrite Hbn]).
  enough (attribution_ids c !! (e, s) = Some t') by congruence.
  eapply (attr_ids_intro Ha); [done | done|]. rewrite tget_fmap, Hr1. simpl. congruence.
Qed.
End facts_write.
