(* ===== verification/Refine.v ===== *)
(** * The write, refined

    [canonical] names the record a spelling resolves to; on canonical names a
    successful [upsert] is exactly [assert_fact]. *)

From S2P Require Export FactsWrite.

Local Open Scope N_scope.

Lemma assert_fact_existing key src w p fs e f :
  tget fs e = Some f -> f_key f = key ->
  (forall j g, tget fs j = Some g -> f_key g = key -> j = e) ->
  assert_fact key src w p fs = <[N.to_nat e := reassert src w p f]> fs.
Proof.
  intros Hf Hk Huniq. rewrite tget_lookup in Hf.
  assert (Huniq' : forall j g, fs !! j = Some g -> f_key g = key -> j = N.to_nat e).
  { intros j g Hj Hg. enough (N.of_nat j = e) by lia. eapply Huniq; [|done]. by rewrite tget_lookup, Nat2N.id. }
  clear Huniq. revert Hf Huniq'. generalize (N.to_nat e). clear e.
  induction fs as [|g fs IH]; intros [|i] Hf Huniq; simpl in *; try done.
  - injection Hf as ->. by rewrite decide_True.
  - case_decide as Hg; [by specialize (Huniq 0%nat g eq_refl Hg)|]. f_equal. apply IH; [done|].
    intros j g' Hj Hg'. specialize (Huniq (S j) g' Hj Hg'). lia.
Qed.

Lemma assert_fact_new key src w p fs :
  (forall g, g ∈ fs -> f_key g <> key) -> assert_fact key src w p fs = fs ++ [new_fact key src w p].
Proof.
  induction fs as [|g fs IH]; intros Hne; simpl; [done|].
  rewrite decide_False by (apply Hne; set_solver). f_equal. apply IH. set_solver.
Qed.

Section refine.
Context `{UnicodeTables}.
Implicit Types c : Context.

Definition canon_concept c (s : name) : name := canonical (concept_ids c) (concept_name c) s.
Definition canon_label c (s : name) : name := canonical (label_ids c) (label_name c) s.

Lemma canon_concept_id c s i n : concept_ids c !! s = Some i -> concept_name c i = Some n -> canon_concept c s = n.
Proof. unfold canon_concept, canonical. by intros -> ->. Qed.
Lemma canon_label_id c s i n : label_ids c !! s = Some i -> label_name c i = Some n -> canon_label c s = n.
Proof. unfold canon_label, canonical. by intros -> ->. Qed.

Lemma intern_concept_name s c id c' :
  wf c -> utf8_valid s = true -> intern_concept s c = Some (id, c') ->
  concept_name c' id = Some (canon_concept c s).
Proof.
  intros Hwf Hv [[Hi ->]|(Hn & -> & _ & _ & idx & _ & ->)]%intern_concept_inv; unfold canon_concept, canonical.
  - rewrite Hi. destruct (concept_name_total Hwf id) as [n ->]; [by eapply concept_id_lt | done].
  - rewrite Hn. unfold concept_name. simpl. rewrite tget_snoc. simpl. by apply name_at_snoc.
Qed.

Lemma intern_label_name s c id c' :
  wf c -> utf8_valid s = true -> intern_label s c = Some (id, c') ->
  label_name c' id = Some (canon_label c s).
Proof.
  intros Hwf Hv [[Hi ->]|(Hn & -> & _ & _ & idx & _ & ->)]%intern_label_inv; unfold canon_label, canonical.
  - rewrite Hi. destruct (label_name_total Hwf id) as [n ->]; [by eapply label_id_lt | done].
  - rewrite Hn. unfold label_name. simpl. rewrite tget_snoc. simpl. by apply name_at_snoc.
Qed.

(** Interning one spelling leaves every spelling's canonical name. *)
Lemma canon_concept_intern s c id c' n :
  wf c -> utf8_valid s = true -> intern_concept s c = Some (id, c') -> canon_concept c' n = canon_concept c n.
Proof.
  intros Hwf Hv Hi. pose proof (intern_concept_name _ _ _ _ Hwf Hv Hi) as Hname.
  pose proof (intern_concept_grows _ _ _ _ Hi) as Hg. pose proof (intern_concept_id _ _ _ _ Hi) as Hid.
  destruct (decide (n = s)) as [->|Hne]; [by eapply canon_concept_id|].
  destruct (concept_ids c !! n) as [i|] eqn:Hn.
  - destruct (concept_name_total Hwf i) as [m Hm]; [by eapply concept_id_lt|].
    rewrite (canon_concept_id c n i m) by done. eapply canon_concept_id; [|by apply Hg].
    eapply lookup_weaken; [done | apply Hg].
  - apply intern_concept_inv in Hi as [[_ ->]|(Hs & -> & _ & _ & idx & _ & ->)]; [done|].
    unfold canon_concept, canonical. simpl. rewrite lookup_insert_ne by done. by rewrite Hn.
Qed.

Lemma intern_names_canon s l o src c sid lid oid srcid c' :
  wf c -> utf8_valid s = true -> utf8_valid l = true -> utf8_valid o = true ->
  intern_names s l o src c = Some (sid, lid, oid, srcid, c') ->
  concept_name c' sid = Some (canon_concept c s) /\ label_name c' lid = Some (canon_label c l) /\
  concept_name c' oid = Some (canon_concept c o).
Proof.
  intros Hwf Hs Hl Ho. unfold intern_names.
  destruct (intern_concept s c) as [[i1 c1]|] eqn:E1; simpl; [|done].
  destruct (intern_concept o c1) as [[i2 c2]|] eqn:E2; simpl; [|done].
  destruct (intern_label l c2) as [[i3 c3]|] eqn:E3; simpl; [|done].
  destruct (intern_source_opt src c3) as [[i4 c4]|] eqn:E4; simpl; [|done]. intros [= <- <- <- <- <-].
  pose proof (intern_concept_wf _ _ _ _ Hwf Hs E1) as W1.
  pose proof (intern_concept_wf _ _ _ _ W1 Ho E2) as W2.
  pose proof (intern_concept_name _ _ _ _ Hwf Hs E1) as N1.
  pose proof (intern_concept_name _ _ _ _ W1 Ho E2) as N2.
  pose proof (intern_label_name _ _ _ _ W2 Hl E3) as N3.
  rewrite (canon_concept_intern _ _ _ _ o Hwf Hs E1) in N2.
  pose proof (intern_concept_grows _ _ _ _ E1) as G1. pose proof (intern_concept_grows _ _ _ _ E2) as G2.
  pose proof (intern_label_grows _ _ _ _ E3) as G3.
  assert (G4 : grows c3 c4).
  { unfold intern_source_opt in E4. destruct src as [n|]; [|by injection E4 as _ <-].
    destruct (intern_source n c3) as [[i c']|] eqn:E; simpl in E4; [|done].
    injection E4 as _ <-. by apply intern_source_grows in E. }
  assert (Hcl : canon_label c2 l = canon_label c l).
  { unfold canon_label, canonical.
    assert (HL : label_ids c2 = label_ids c /\ forall i n, label_name c i = Some n -> label_name c2 i = Some n).
    { split; [|intros; by apply G2, G1].
      apply intern_concept_inv in E1 as [[_ ->]|(_ & _ & _ & _ & ? & _ & ->)];
      apply intern_concept_inv in E2 as [[_ ->]|(_ & _ & _ & _ & ? & _ & ->)]; done. }
    destruct HL as [-> HL]. destruct (label_ids c !! l) as [i|] eqn:Hi; [|done].
    destruct (label_name_total Hwf i) as [n Hn]; [by eapply label_id_lt|]. by rewrite Hn, (HL _ _ Hn). }
  split; [by apply G4, G3, G2|]. split; [rewrite <- Hcl; by apply G4 | by apply G4, G3].
Qed.

(** ** The attribution *)

Lemma attribute_facts c c' e s n w p i f :
  wf c -> wf c' -> attr_slack c e 1 -> source_name c s = Some n ->
  attribute e s w p c = Some c' ->
  fact_at c i = Some f -> fact_at c' i = Some (if decide (i = e) then add_source n w p f else f).
Proof.
  intros Hwf Hwf' (chains & Hat & Hslack) Hn. unfold attribute.
  destruct (attribution_ids c !! (e, s)) as [t|] eqn:Hids.
  - destruct (tget (attributions c) t) as [r|] eqn:Hr; simpl; [|done].
    unfold tupd. rewrite Hr. simpl. intros [= <-]. eapply attribute_merge_facts; try done.
    destruct Hat as (Ha & _ & Hc). apply (attr_ids _ _ _ _ _ Ha) in Hids as (l & Hl & Ht & _).
    destruct (Forall2_tget_r _ _ _ _ _ Hc Hl) as (m & Hm' & _).
    rewrite tget_fmap in Hm'. apply fmap_Some in Hm' as (ed & Hed & _).
    specialize (Hslack ed l Hed Hl). destruct (wf_edge c e ed Hwf Hed) as [[Hmax _] _].
    apply list_elem_of_split in Ht as (xs & ys & ->). rewrite chain_total_app in Hslack. simpl in Hslack.
    rewrite tget_fmap, Hr in Hslack. simpl in Hslack. lia.
  - intros Hpush. by eapply push_attribution_facts.
Qed.

Lemma reassert_source n w p f : add_source n w p (reassert None w p f) = reassert (Some n) w p f.
Proof. done. Qed.
Lemma new_fact_source key n w p : add_source n w p (new_fact key None w p) = new_fact key (Some n) w p.
Proof. done. Qed.

Lemma upsert_edge_id key w c e c' : upsert_edge key w c = Some (e, c') ->
  match edge_ids c !! key with
  | Some e0 => e = e0 /\ lenN (edges c') = lenN (edges c)
  | None => e = lenN (edges c) /\ lenN (edges c') = lenN (edges c) + 1
  end.
Proof.
  unfold upsert_edge. destruct (edge_ids c !! key) as [e0|].
  - destruct (accumulate_edge e0 w c) as [c1|] eqn:Ha; simpl; [|done]. intros [= <- <-].
    apply accumulate_edge_inv in Ha as (ed & _ & ->). simpl. by rewrite lenN_insert.
  - destruct key as [[sid lid] oid]. intros Hp. simpl in Hp. split.
    + by apply push_edge_inv in Hp as (-> & _).
    + apply (push_edge_frame (fun _ => tt)) in Hp; [|done..]. apply (f_equal lenN) in Hp.
      by rewrite lenN_snoc, !lenN_fmap in Hp.
Qed.

Lemma attribute_opt_edges srcid e w p c c' :
  match srcid with Some i => attribute e i w p c | None => Some c end = Some c' ->
  lenN (edges c') = lenN (edges c).
Proof.
  destruct srcid as [i|]; [|by intros [= <-]]. unfold attribute.
  destruct (attribution_ids c !! (e, i)).
  - destruct (tget _ _) as [r|]; simpl; [|done]. destruct (tupd _ _ _); simpl; [|done]. by intros [= <-].
  - intros (ed & _ & _ & T' & _ & ->)%push_attribution_inv. simpl. by rewrite lenN_insert.
Qed.

Lemma tget_Some_elem {A} (l : list A) x : x ∈ l <-> exists i, tget l i = Some x.
Proof.
  rewrite list_elem_of_lookup. setoid_rewrite tget_lookup. split.
  - intros [i Hi]. exists (N.of_nat i). by rewrite Nat2N.id.
  - intros [i Hi]. eauto.
Qed.

Lemma upsert_facts s l o src p w c fs :
  wf c -> valid_write s l o src p w -> entry_room c -> count_room s l o c ->
  ensure_room s l o src c = Ok tt -> facts c = Some fs ->
  exists c', upsert s l o w src p c = Some (Ok tt, c') /\
    facts c' = Some (assert_fact (canon_concept c s, canon_label c l, canon_concept c o) src w p fs).
Proof.
  intros Hwf Hv Hroom Hcount Hok Hfs. pose proof Hv as [Hs Hl Ho Hsrc Hp Hw].
  destruct (upsert_steps s l o src p w c Hwf Hv Hroom Hcount Hok)
    as (sid & lid & oid & srcid & c4 & e & c5 & c6 & Hi & He & Ha & Hu & W4 & W5 & W6 & Hg & Is & Il & Io & Isrc & Hex).
  exists c6. split; [done|].
  pose proof (intern_names_canon s l o src c _ _ _ _ _ Hwf Hs Hl Ho Hi) as (Ns & Nl & No).
  set (key := (canon_concept c s, canon_label c l, canon_concept c o)).
  assert (Hroom4 : forall e r, edge_ids c4 !! (sid, lid, oid) = Some e -> tget (edges c4) e = Some r -> e_count r < U64_MAX).
  { rewrite <- Hex, (g_edges _ _ Hg). done. }
  pose proof (upsert_edge_facts (sid, lid, oid) _ _ _ w p c4 e c5 Hroom4 Ns Nl No He) as [Hold Hnew].
  pose proof (upsert_edge_wf _ w c4 e c5 W4 Hw Hroom4 He) as (_ & Hslack & _).
  (* the last step: only the touched edge gains the claim *)
  assert (Hlast : forall i f, fact_at c5 i = Some f -> fact_at c6 i =
    Some (if decide (i = e) then match src with Some n => add_source n w p f | None => f end else f)).
  { intros i f Hf. destruct src as [n|].
    - destruct Isrc as (si & -> & Hsi). pose proof (upsert_edge_rows _ _ _ _ _ He) as (_ & _ & _ & Rs).
      assert (Hsn : source_name c5 si = Some n) by (apply (source_id_name W5); by rewrite Rs).
      by eapply (attribute_facts c5 c6).
    - subst srcid. injection Ha as <-. rewrite Hf. by case_decide. }
  apply facts_lookup in Hfs as [Hlen Hget]. rewrite <- (g_edges _ _ Hg) in Hlen, Hget.
  assert (Hkey : forall i f, fact_at c4 i = Some f -> (f_key f = key <-> edge_ids c4 !! (sid, lid, oid) = Some i)).
  { intros i f Hf. pose proof Hf as (ed & _ & Hed & _)%fact_at_inv.
    pose proof (fact_key_edge c4 i ed f W4 Hed Hf) as (K1 & K2 & K3).
    rewrite (wf_triples _ W4), tget_fmap, Hed. simpl. unfold f_key, key, e_triple. split.
    - intros [= E1 E2 E3]. rewrite E1 in K1. rewrite E2 in K2. rewrite E3 in K3.
      apply (concept_name_id W4) in Ns. apply (label_name_id W4) in Nl. apply (concept_name_id W4) in No. congruence.
    - intros [= E1 E2 E3]. apply fact_at_inv in Hf as (ed' & ? & Hed' & F1 & F2 & F3 & _).
      rewrite Hed in Hed'. injection Hed' as <-. congruence. }
  assert (Hget4 : forall i f, tget fs i = Some f -> fact_at c4 i = Some f).
  { intros i f Hf. rewrite Hget in Hf by (rewrite <- Hlen; by eapply tget_Some_lt).
    by eapply fact_at_grows. }
  pose proof (upsert_edge_id _ _ _ _ _ He) as Hid.
  assert (Hlen6 : lenN (edges c6) = lenN (edges c5)) by (eapply attribute_opt_edges, Ha).
  destruct (edge_ids c4 !! (sid, lid, oid)) as [e0|] eqn:Hk.
  - destruct Hid as [-> Hid]. destruct (tget_lt fs e0) as [f0 Hf0].
    { rewrite Hlen. apply (wf_triples _ W4) in Hk. rewrite <- (lenN_fmap e_triple). by eapply tget_Some_lt. }
    rewrite (assert_fact_existing key src w p fs e0 f0 Hf0); [|by apply (Hkey e0), eq_refl; apply Hget4|].
    2: { intros j g Hj Hg'. apply (Hkey j g (Hget4 _ _ Hj)) in Hg'. congruence. }
    apply facts_intro; [rewrite lenN_insert; congruence|]. intros i f.
    destruct (decide (i = e0)) as [->|Hne].
    + rewrite tget_insert_eq by by eapply tget_Some_lt. intros [= <-].
      erewrite Hlast; [|by apply Hold, Hget4]. rewrite !decide_True by done. by destruct src.
    + rewrite tget_insert_ne by done. intros Hf. erewrite Hlast; [|by apply Hold, Hget4].
      rewrite decide_False by done. rewrite decide_False by congruence. done.
  - destruct Hid as [-> Hid]. rewrite assert_fact_new.
    2: { intros g (j & Hj)%tget_Some_elem Hg'. apply (Hkey j g (Hget4 _ _ Hj)) in Hg'. congruence. }
    apply facts_intro; [rewrite lenN_snoc; congruence|].
    intros i f [Hf|[-> ->]]%tget_snoc_inv.
    + erewrite Hlast; [|by apply Hold, Hget4]. rewrite decide_False; [by rewrite decide_False by done|].
      apply tget_Some_lt in Hf. lia.
    + rewrite Hlen. erewrite Hlast; [|by apply Hnew]. rewrite decide_True by done. by destruct src.
Qed.
End refine.

(** C1. A write is its specification: on the facts a context holds, a successful
    [upsert] adds one assertion to the fact of the canonical triple, or appends
    that fact; the count grows by one, the sum saturates, the source's own claim
    accumulates or joins at the end, and every other fact is untouched. *)
Theorem upsert_refines_assert_fact `{UnicodeTables} s l o src p w c fs
    (Hwf : wf c) (Hv : valid_write s l o src p w) (Hroom : entry_room c)
    (Hcount : count_room s l o c) (Hok : ensure_room s l o src c = Ok tt)
    (Hfs : facts c = Some fs) :
  exists c', upsert s l o w src p c = Some (Ok tt, c') /\
    facts c' = Some (assert_fact (canon_concept c s, canon_label c l, canon_concept c o) src w p fs).
Proof. by apply upsert_facts. Qed.

Lemma upsert_refines_assert_fact_witness :
  exists c', @upsert ascii_tables (str "cat") (str "chases") (str "mouse") 1%float
      (Some (str "doc")) (Some 3) Context_default = Some (Ok tt, c') /\
    facts c' = Some (assert_fact (str "cat", str "chases", str "mouse") (Some (str "doc")) 1%float (Some 3) []).
Proof.
  apply (@upsert_refines_assert_fact ascii_tables (str "cat") (str "chases") (str "mouse")
    (Some (str "doc")) (Some 3) 1%float Context_default []).
  - apply (@wf_default ascii_tables).
  - apply valid_write_intro. vm_compute. reflexivity.
  - split; vm_compute; discriminate.
  - apply (@count_room_default ascii_tables).
  - vm_compute. reflexivity.
  - vm_compute. reflexivity.
Defined.
