(* ===== verification/Sources.v ===== *)
(** * Sources and retraction ([src/context/sources.rs])

    [retract_source] unlinks one source's claims wherever it made them;
    [retract_association] zeroes one edge; [count_source_edges] previews the
    first, and the unsourced share is what no source explains. *)

From S2P Require Export Refine.

Local Open Scope N_scope.

Definition f64_neg (x : f64) : f64 := PrimFloat.opp x.
Definition f64_abs (x : f64) : f64 := PrimFloat.abs x.

(** ** The unsourced share *)

Definition share_step (unattributed : option SourceId) (acc : N * f64)
    (p : AttributionId * AttributionRecord) : N * f64 :=
  if (t_count p.2 =? 0) || bool_decide (Some (t_source p.2) = unattributed) then acc
  else (u64_add acc.1 (t_count p.2), accumulate_saturating acc.2 (t_sum p.2)).

Definition unsourced_share (c : Context) (edge : EdgeRecord) (unattributed : option SourceId)
    : option (option (f64 * N)) :=
  if e_count edge =? 0 then Some None
  else
    chain ← attribution_chain c (e_first_attribution edge);
    let '(attributed_count, attributed_sum) := foldl (share_step unattributed) (0, 0%float) chain in
    Some (if attributed_count <? e_count edge
          then Some (accumulate_saturating (e_sum edge) (f64_neg attributed_sum),
                     e_count edge - attributed_count)
          else None).

Definition unsourced_summary (c : Context) : option (N * f64) :=
  let unattributed := source_ids c !! UNSOURCED_SOURCE in
  foldl (fun acc edge =>
    '(edges, total) ← acc;
    share ← unsourced_share c edge unattributed;
    Some (match share with
          | Some (residual, _) => (edges + 1, accumulate_saturating total (f64_abs residual))
          | None => (edges, total)
          end)) (Some (0, 0%float)) (edges c).

Record UnsourcedEdge := { ue_association : Association; ue_weight : f64; ue_count : N }.

(** [deadline.expired()] is asked once per edge; [expired k] is its answer to
    the [k]-th question. *)
Fixpoint unsourced_scan (expired : nat -> bool) (c : Context) (floor : f64)
    (unattributed : option SourceId) (ids : list EdgeId) (tick : nat)
    : option (result (list UnsourcedEdge) unit) :=
  match ids with
  | [] => Some (Ok [])
  | edge_id :: ids =>
    if expired tick then Some (Err tt)
    else
      edge ← tget (edges c) edge_id;
      share ← unsourced_share c edge unattributed;
      head ← match share with
             | Some (weight, count) =>
               if (floor <=? f64_abs weight)%float then
                 association ← association c edge_id;
                 Some [{| ue_association := association; ue_weight := weight; ue_count := count |}]
               else Some []
             | None => Some []
             end;
      rest ← unsourced_scan expired c floor unattributed ids (S tick);
      Some (match rest with Ok rest => Ok (head ++ rest) | Err e => Err e end)
  end.

Definition unsourced_edges (expired : nat -> bool) (c : Context) (floor : f64)
    : option (result (list UnsourcedEdge) unit) :=
  let floor := if f64_nan floor then 0%float else f64_abs floor in
  unsourced_scan expired c floor (source_ids c !! UNSOURCED_SOURCE) (indices (edges c)) 0.

(** ** Retracting a source *)

(** The search loop: the first row of the source, with its predecessor. *)
Fixpoint find_claim (fuel : nat) (rows : list AttributionRecord) (source_id : SourceId)
    (previous cursor : AttributionId) : option (option (AttributionId * AttributionId * f64 * N)) :=
  if cursor =? NIL then Some None
  else match fuel with
       | O => None
       | S fuel =>
         record ← tget rows cursor;
         if t_source record =? source_id
         then Some (Some (previous, cursor, t_sum record, t_count record))
         else find_claim fuel rows source_id cursor (t_next record)
       end.

(** One edge of [retract_source]: whether it was touched, and the context. *)
Definition retract_edge (source_id : SourceId) (edge_id : EdgeId) (c : Context)
    : option (bool * Context) :=
  edge ← tget (edges c) edge_id;
  found ← find_claim (length (attributions c)) (attributions c) source_id NIL (e_first_attribution edge);
  match found with
  | None => Some (false, c)
  | Some (previous, cursor, sum, count) =>
    record ← tget (attributions c) cursor;
    let next := t_next record in
    let sum := accumulate_saturating (e_sum edge) (f64_neg sum) in
    let count := u64_saturating_sub (e_count edge) count in
    let first := if previous =? NIL then next else e_first_attribution edge in
    let last := if e_last_attribution edge =? cursor then previous else e_last_attribution edge in
    edges ← tupd (edges c) edge_id (fun edge => set_attribution_ends first last (set_totals count sum edge));
    attributions ← (if previous =? NIL then Some (attributions c)
                    else tupd (attributions c) previous (set_t_next next));
    Some (true, set_edges edges (set_attributions attributions
                (set_attribution_ids (delete (edge_id, source_id) (attribution_ids c))
                (set_dead_edges (if count =? 0 then dead_edges c + 1 else dead_edges c) c))))
  end.

Fixpoint retract_edges (source_id : SourceId) (ids : list EdgeId) (touched : N) (c : Context)
    : option (N * Context) :=
  match ids with
  | [] => Some (touched, c)
  | edge_id :: ids =>
    '(hit, c) ← retract_edge source_id edge_id c;
    retract_edges source_id ids (if (hit : bool) then touched + 1 else touched) c
  end.

Definition retract_source (source : name) (c : Context) : option (option N * Context) :=
  match source_ids c !! source with
  | None => Some (None, c)
  | Some source_id =>
    let edges_of_source := merge_sort N.le (default [] (source_edges c !! source_id)) in
    let c := set_source_edges (delete source_id (source_edges c)) c in
    '(touched, c) ← retract_edges source_id edges_of_source 0 c;
    Some (Some touched, set_dead_attributions (dead_attributions c + touched) c)
  end.

Definition count_source_edges (source : name) (c : Context) : N :=
  match source_ids c !! source with
  | None => 0
  | Some source_id =>
    match source_edges c !! source_id with
    | None => 0
    | Some edges =>
      N.of_nat (size (list_to_set (filter (fun edge_id =>
        is_Some (attribution_ids c !! (edge_id, source_id))) edges) : gset N))
    end
  end.

(** ** Retracting one association *)

(** The entry [edges.retain(..)], dropped once empty. *)
Definition prune_source (edge_id : EdgeId) (source : SourceId) (se : gmap SourceId (list EdgeId))
    : gmap SourceId (list EdgeId) :=
  match se !! source with
  | None => se
  | Some held =>
    match filter (fun h => h <> edge_id) held with
    | [] => delete source se
    | held => <[source := held]> se
    end
  end.

Fixpoint unlink_all (fuel : nat) (rows : list AttributionRecord) (edge_id : EdgeId) (cursor : AttributionId)
    (ids : gmap (EdgeId * SourceId) AttributionId) (se : gmap SourceId (list EdgeId)) (unlinked : N)
    : option (gmap (EdgeId * SourceId) AttributionId * gmap SourceId (list EdgeId) * N) :=
  if cursor =? NIL then Some (ids, se, unlinked)
  else match fuel with
       | O => None
       | S fuel =>
         record ← tget rows cursor;
         unlink_all fuel rows edge_id (t_next record) (delete (edge_id, t_source record) ids)
           (prune_source edge_id (t_source record) se) (unlinked + 1)
       end.

Definition retract_association (subject label object : name) (c : Context) : option (option N * Context) :=
  match existing_edge subject label object c with
  | None => Some (None, c)
  | Some edge_id =>
    edge ← tget (edges c) edge_id;
    if e_count edge =? 0 then Some (None, c)
    else
      '(ids, se, unlinked) ← unlink_all (length (attributions c)) (attributions c) edge_id
        (e_first_attribution edge) (attribution_ids c) (source_edges c) 0;
      edges ← tupd (edges c) edge_id (fun edge => set_attribution_ends NIL NIL (set_totals 0 0%float edge));
      Some (Some unlinked, set_edges edges (set_attribution_ids ids (set_source_edges se
        (set_dead_edges (dead_edges c + 1)
        (set_dead_attributions (dead_attributions c + unlinked) c)))))
  end.
