(* ===== verification/SourcesThm.v ===== *)
(** * Retraction is correct

    [retract_source] and [retract_association] keep the invariant and refine
    their specifications on facts. *)

From S2P Require Export Sources.

Local Open Scope N_scope.

(** ** Specification *)

Definition has_source (n : name) (a : Attribution) : bool := bool_decide (att_source a = n).

Fixpoint find_source (n : name) (atts : list Attribution) : option Attribution :=
  match atts with
  | [] => None
  | a :: atts => if has_source n a then Some a else find_source n atts
  end.

(** One source's claim leaves the fact, weight and count with it. *)
Definition retract_source_fact (n : name) (f : Fact) : Fact :=
  match find_source n (f_attributions f) with
  | None => f
  | Some a =>
    {| f_subject := f_subject f; f_label := f_label f; f_object := f_object f;
       f_count := f_count f - att_count a;
       f_sum := accumulate_saturating (f_sum f) (f64_neg (att_weight a));
       f_attributions := filter (fun a => att_source a <> n) (f_attributions f) |}
  end.

Definition zero_fact (f : Fact) : Fact :=
  {| f_subject := f_subject f; f_label := f_label f; f_object := f_object f;
     f_count := 0; f_sum := 0%float; f_attributions := [] |}.

(** ** The search *)

Lemma chain_last_NIL links cur xs ys : chain_from links cur (xs ++ ys) -> tail_of xs = NIL <-> xs = [].
Proof.
  intros Hc. split; [|by intros ->]. destruct xs as [|x xs _] using rev_ind; [done|].
  rewrite tail_of_snoc. intros ->. exfalso.
  apply (chain_from_not_NIL _ _ _ Hc). set_solver.
Qed.

Lemma find_claim_chain fuel rows s prev cur xs t ys r :
  chain_from (t_next <$> rows) cur (xs ++ t :: ys) ->
  (forall t', t' ∈ xs -> exists s', tget (t_source <$> rows) t' = Some s' /\ s' <> s) ->
  tget rows t = Some r -> t_source r = s -> (length (xs ++ t :: ys) <= fuel)%nat ->
  find_claim fuel rows s prev cur = Some (Some (default prev (last xs), t, t_sum r, t_count r)).
Proof.
  revert fuel prev cur. induction xs as [|x xs IH]; intros fuel prev cur Hc Hxs Hr Hs Hf.
  - destruct fuel as [|fuel]; simpl in Hf; [lia|]. destruct Hc as (-> & Ht & _). simpl.
    destruct (N.eqb_spec t NIL); [done|]. rewrite Hr. simpl. by rewrite Hs, N.eqb_refl.
  - destruct fuel as [|fuel]; simpl in Hf; [lia|]. destruct Hc as (-> & Hx & nx & Hnx & Hc). simpl.
    destruct (N.eqb_spec x NIL); [done|]. destruct (Hxs x) as (s' & Hs' & Hne); [set_solver|].
    rewrite tget_fmap in Hs', Hnx. destruct (tget rows x) as [rx|]; simpl in *; [|done].
    injection Hs' as <-. injection Hnx as <-. destruct (N.eqb_spec (t_source rx) s); [done|].
    rewrite (IH fuel x (t_next rx)); [|done | intros; apply Hxs; set_solver | done | done | lia].
    f_equal. f_equal. f_equal. f_equal. f_equal. rewrite last_cons. by destruct (last xs).
Qed.

(** ** The reverse index, entry by entry *)

Lemma prune_source_lookup e s se s' :
  default [] (prune_source e s se !! s') =
    if decide (s' = s) then filter (fun h => h <> e) (default [] (se !! s')) else default [] (se !! s').
Proof.
  unfold prune_source. destruct (se !! s) as [held|] eqn:Hs.
  - destruct (filter (fun h => h <> e) held) as [|h l] eqn:Hf; case_decide; subst.
    + rewrite lookup_delete_eq, Hs. simpl. by rewrite Hf.
    + by rewrite lookup_delete_ne.
    + rewrite lookup_insert_eq, Hs. simpl. by rewrite Hf.
    + by rewrite lookup_insert_ne.
  - case_decide; [subst; by rewrite Hs | done].
Qed.

Lemma prune_source_nonempty e s se : (forall s', se !! s' <> Some []) -> forall s', prune_source e s se !! s' <> Some [].
Proof.
  intros Hne s'. unfold prune_source. destruct (se !! s) as [held|]; [|done].
  destruct (filter (fun h => h <> e) held) as [|h l] eqn:Hf; destruct (decide (s' = s)) as [->|].
  - by rewrite lookup_delete_eq.
  - by rewrite lookup_delete_ne.
  - by rewrite lookup_insert_eq.
  - by rewrite lookup_insert_ne.
Qed.

Lemma source_edges_wf_prune se ids e s :
  source_edges_wf se ids -> source_edges_wf (prune_source e s se) (delete (e, s) ids).
Proof.
  intros [Hse Hin]. assert (Hne : forall s', se !! s' <> Some []).
  { intros s' Hs'. by apply Hse in Hs' as [_ ?]. }
  split.
  - intros s' l Hl. pose proof (prune_source_lookup e s se s') as Heq. rewrite Hl in Heq. simpl in Heq.
    split; [|intros ->; by apply (prune_source_nonempty e s se Hne s')].
    assert (Hnd : NoDup (default [] (se !! s'))).
    { destruct (se !! s') eqn:E; simpl; [by apply (Hse s') | constructor]. }
    subst l. case_decide; [by apply NoDup_filter | done].
  - intros s' e'. rewrite prune_source_lookup. case_decide as Hs; [subst s'|].
    + rewrite list_elem_of_filter, Hin. destruct (decide (e' = e)) as [->|].
      * rewrite lookup_delete_eq. split; [naive_solver | by intros [? ?]].
      * rewrite lookup_delete_ne by congruence. naive_solver.
    + rewrite lookup_delete_ne by congruence. apply Hin.
Qed.

Lemma wf_set_source_edges `{UnicodeTables} c se :
  wf c -> source_edges_wf se (attribution_ids c) -> wf (set_source_edges se c).
Proof.
  intros Hwf Hse. pose proof (wf_update_ok _ Hwf) as [].
  apply (wf_update c (edges c) (attributions c) (attribution_ids c) se (attribution_locators c)
    (dead_edges c) (dead_attributions c) Hwf). by split.
Qed.

(** ** One edge of [retract_source] *)

Section retract.
Context `{UnicodeTables}.
Implicit Types c : Context.

(** The state of the loop: the reverse index and the dead count lag behind. *)
Definition ghost (se : gmap N (list N)) (da : N) c : Context :=
  set_source_edges se (set_dead_attributions da c).

Lemma retract_edge_step c e s t :
  wf c -> attribution_ids c !! (e, s) = Some t ->
  exists ed r xs ys T', tget (edges c) e = Some ed /\ tget (attributions c) t = Some r /\
    t_source r = s /\ chain_from (t_next <$> attributions c) (e_first_attribution ed) (xs ++ t :: ys) /\
    (forall chains, attributions_wf c chains -> tget chains e = Some (xs ++ t :: ys)) /\
    (forall t', t' ∈ xs -> exists s', tget (t_source <$> attributions c) t' = Some s' /\ s' <> s) /\
    t_next <$> T' = match last xs with
                    | Some p => <[N.to_nat p := t_next r]> (t_next <$> attributions c)
                    | None => t_next <$> attributions c
                    end /\
    t_source <$> T' = t_source <$> attributions c /\ t_count <$> T' = t_count <$> attributions c /\
    t_sum <$> T' = t_sum <$> attributions c /\
    rows_wf (lenN (sources c)) (attribution_ids c) T' /\
    retract_edge s e c = Some (true, set_edges (<[N.to_nat e :=
        set_attribution_ends (match xs with [] => t_next r | _ => e_first_attribution ed end)
          (if e_last_attribution ed =? t then tail_of xs else e_last_attribution ed)
          (set_totals (e_count ed - t_count r) (accumulate_saturating (e_sum ed) (f64_neg (t_sum r))) ed)]> (edges c))
      (set_attributions T' (set_attribution_ids (delete (e, s) (attribution_ids c))
        (set_dead_edges (if e_count ed - t_count r =? 0 then dead_edges c + 1 else dead_edges c) c)))).
Proof.
  intros Hwf Hids. destruct (wf_attributions _ Hwf) as (chains & Hat). pose proof Hat as (Ha & _ & _).
  pose proof Hids as (l & Hl & _)%(attr_ids _ _ _ _ _ Ha).
  destruct (Forall2_tget_r _ _ _ _ _ (attr_chains _ _ _ _ _ Ha) Hl) as (p & Hp & Hc & _).
  rewrite tget_fmap in Hp. apply fmap_Some in Hp as (ed & Hed & ->). simpl in Hc.
  destruct (attr_ids_split Ha e s t l Hl Hids) as (xs & ys & -> & Hst & Hxs).
  rewrite tget_fmap in Hst. apply fmap_Some in Hst as (r & Hr & ->).
  pose proof (find_claim_chain (length (attributions c)) (attributions c) (t_source r) NIL _ xs t ys r Hc Hxs Hr
    eq_refl ltac:(rewrite <- (length_fmap t_next); by eapply chain_from_length)) as Hfind.
  fold (tail_of xs) in Hfind.
  assert (HT : exists T', (if tail_of xs =? NIL then Some (attributions c)
      else tupd (attributions c) (tail_of xs) (set_t_next (t_next r))) = Some T').
  { destruct (N.eqb_spec (tail_of xs) NIL) as [|Hne]; [eauto|]. apply tupd_total.
    rewrite <- (lenN_fmap t_next). eapply chain_from_lt; [done|].
    destruct xs as [|x xs _] using rev_ind; [done|]. rewrite tail_of_snoc. set_solver. }
  destruct HT as [T' HT]. exists ed, r, xs, ys, T'.
  split; [done|]. split; [done|]. split; [done|]. split; [done|].
  split.
  { intros chains' (Ha' & _). destruct (attr_chain Ha' e (e_ends ed)) as (l & Hl' & Hc' & _);
      [by rewrite tget_fmap, Hed|]. simpl in Hc'. by rewrite (chain_from_fun _ _ _ _ Hc Hc'). }
  split; [done|].
  pose proof (wf_rows _ Hwf) as Hrows. pose proof (rows_live _ _ _ Hrows _ _ _ Hids Hr) as (_ & Hnxt & _).
  assert (Hrest : t_next <$> T' = match last xs with
                    | Some p => <[N.to_nat p := t_next r]> (t_next <$> attributions c)
                    | None => t_next <$> attributions c
                    end /\ t_source <$> T' = t_source <$> attributions c /\
    t_count <$> T' = t_count <$> attributions c /\ t_sum <$> T' = t_sum <$> attributions c /\
    rows_wf (lenN (sources c)) (attribution_ids c) T').
  { destruct (N.eqb_spec (tail_of xs) NIL) as [Hnil|Hne].
    - apply (chain_last_NIL _ _ _ _ Hc) in Hnil. injection HT as <-. by subst xs.
    - unfold tail_of in HT, Hne. destruct (last xs) as [p|]; [|done]. simpl in HT.
      pose proof HT as (rp & Hrp & HTe)%tupd_Some.
      split; [by rewrite HTe, list_fmap_insert|].
      split; [by apply (tupd_fmap_id t_source (set_t_next (t_next r)) _ _ _ (fun _ => eq_refl) HT)|].
      split; [by apply (tupd_fmap_id t_count (set_t_next (t_next r)) _ _ _ (fun _ => eq_refl) HT)|].
      split; [by apply (tupd_fmap_id t_sum (set_t_next (t_next r)) _ _ _ (fun _ => eq_refl) HT)|].
      rewrite HTe. eapply rows_wf_insert; [done | done | | by intros; apply row_ok_next].
      apply row_repr_next; [|destruct Hnxt as [->|]; [done|]].
      + rewrite tget_lookup in Hrp. by eapply Forall_lookup_1 in Hrp; [|apply Hrows].
      + pose proof (sz_attributions _ (wf_sizes _ Hwf)). unfold NIL, U32_MAX in *. lia. }
  destruct Hrest as (? & ? & ? & ? & ?). do 5 (split; [done|]).
  unfold retract_edge. rewrite Hed. simpl. rewrite Hfind. simpl. rewrite Hr. simpl.
  assert (HEu : forall f, tupd (edges c) e f = Some (<[N.to_nat e := f ed]> (edges c)))
    by (intros f; unfold tupd; by rewrite Hed).
  rewrite HEu. simpl.
  assert (Hb : (tail_of xs =? NIL) = true <-> xs = []) by by rewrite N.eqb_eq, (chain_last_NIL _ _ _ _ Hc).
  rewrite HT. simpl. unfold u64_saturating_sub. do 3 f_equal.
  f_equal. f_equal. f_equal. destruct (tail_of xs =? NIL), xs; naive_solver.
Qed.

Lemma row_count_pos c k t r : wf c -> attribution_ids c !! k = Some t -> tget (attributions c) t = Some r -> 0 < t_count r.
Proof.
  intros Hwf Hk Hr. by destruct (rows_live _ _ _ (wf_rows _ Hwf) k t r Hk Hr) as (_ & _ & [? _] & _).
Qed.

Lemma retract_edge_wf c e s t c' :
  wf c -> attribution_ids c !! (e, s) = Some t -> retract_edge s e c = Some (true, c') ->
  wf (ghost (prune_source e s (source_edges c)) (dead_attributions c + 1) c').
Proof.
  intros Hwf Hids Hret.
  destruct (retract_edge_step c e s t Hwf Hids)
    as (ed & r & xs & ys & T' & Hed & Hr & Hs & Hc & Hch & Hxs & Fn & Fs & Fc & Fsum & Hrows & Hstep).
  rewrite Hret in Hstep. injection Hstep as ->.
  destruct (wf_attributions _ Hwf) as (chains & Hat). pose proof Hat as (Ha & Hd & Hcov).
  pose proof (Hch chains Hat) as Hl. pose proof (wf_update_ok _ Hwf) as [_ _ _ Hrev Htot Hdead Hloc Hlocr Hsz].
  pose proof (lenN_fmap t_source T') as HlT. rewrite Fs, lenN_fmap in HlT.
  destruct (Forall2_tget_r _ _ _ _ _ Hcov Hl) as (m & Hm & Hle). rewrite tget_fmap, Hed in Hm.
  injection Hm as <-. rewrite chain_total_app in Hle. simpl in Hle. rewrite tget_fmap, Hr in Hle. simpl in Hle.
  pose proof (row_count_pos c _ t r Hwf Hids Hr) as Hpos. destruct (wf_edge c e ed Hwf Hed) as [[Hmax _] _].
  set (ed' := set_attribution_ends _ _ _).
  pose proof (count_dead_insert (edges c) e ed ed' Hed) as Hcd.
  apply (wf_update c (<[N.to_nat e := ed']> (edges c)) T' (delete (e, s) (attribution_ids c))
    (prune_source e s (source_edges c)) (attribution_locators c) (if e_count ed - t_count r =? 0 then dead_edges c + 1 else dead_edges c) (dead_attributions c + 1) Hwf).
  split; rewrite <- ?HlT; try done.
  - rewrite list_fmap_insert, list_insert_id; [done|].
    rewrite tget_lookup in Hed. by rewrite list_lookup_fmap, Hed.
  - exists (<[N.to_nat e := xs ++ ys]> chains). rewrite !list_fmap_insert, Fn, Fs, Fc. split; [|split].
    + apply (attr_wf_unlink Ha e s t (t_next r) xs ys (e_first_attribution ed) (e_last_attribution ed));
        [by rewrite tget_fmap, Hed | done | by rewrite tget_fmap, Hr | by rewrite tget_fmap, Hr, <- Hs].
    + destruct (mjoin_split chains e _ Hl) as (rest & Hj & Hins & _).
      unfold lenN in *. rewrite Hins. rewrite Hj in Hd. rewrite !length_app in *. simpl in Hd. lia.
    + eapply totals_cover_update; [apply Ha | done | done | done |]. rewrite chain_total_app. simpl. lia.
  - eapply rows_wf_mono; [reflexivity | | done]. intros k u [_ Hk]%lookup_delete_Some. eauto.
  - by apply source_edges_wf_prune.
  - apply Forall_insert; [done|]. split; simpl; [lia | apply accumulate_saturating_finite].
  - rewrite Hdead. unfold is_dead in Hcd. simpl in Hcd.
    destruct (N.eqb_spec (e_count ed) 0); [lia|]. destruct (e_count ed - t_count r =? 0); simpl in Hcd; lia.
Qed.

Lemma find_source_app n xs a ys :
  (forall b, b ∈ xs -> att_source b <> n) -> att_source a = n -> find_source n (xs ++ a :: ys) = Some a.
Proof.
  intros Hxs Ha. induction xs as [|x xs IH]; simpl; unfold has_source at 1.
  - by rewrite bool_decide_eq_true_2.
  - rewrite bool_decide_eq_false_2 by (apply Hxs; set_solver). apply IH. set_solver.
Qed.

Lemma find_source_None n atts : (forall b, b ∈ atts -> att_source b <> n) -> find_source n atts = None.
Proof.
  induction atts as [|x xs IH]; intros Hxs; simpl; [done|]. unfold has_source.
  rewrite bool_decide_eq_false_2 by (apply Hxs; set_solver). apply IH. set_solver.
Qed.

(** The sources of the rows of one chain are pairwise distinct names. *)
Lemma chain_rows_source c chains e s n l k :
  wf c -> attributions_wf c chains -> tget chains e = Some l -> source_name c s = Some n ->
  (forall t, t ∈ k -> t ∈ l /\ attribution_ids c !! (e, s) <> Some t) ->
  forall atts, Forall2 (fun t a => row_at c t = Some a) k atts ->
  forall b, b ∈ atts -> att_source b <> n.
Proof.
  intros Hwf (Ha & _) Hl Hn Hk atts Hf b Hb Hbn. apply list_elem_of_lookup in Hb as [i Hb].
  destruct (Forall2_lookup_r _ _ _ _ _ Hf Hb) as (t & Ht & Hrb). apply list_elem_of_lookup_2 in Ht.
  destruct (Hk t Ht) as [Htl Hne]. destruct (row_source c t b Hrb) as (r & Hr & Hsb & _).
  assert (t_source r = s) as <- by (eapply source_name_inj; [done | exact Hsb | congruence]).
  apply Hne. eapply (attr_ids_intro Ha); [done | done|]. by rewrite tget_fmap, Hr.
Qed.

(** Rows read the same when sources, totals and locators do. *)
Lemma row_at_frame c c' t :
  t_source <$> attributions c' = t_source <$> attributions c ->
  t_count <$> attributions c' = t_count <$> attributions c ->
  t_sum <$> attributions c' = t_sum <$> attributions c ->
  source_name c' = source_name c -> attribution_locators c' = attribution_locators c ->
  row_at c' t = row_at c t.
Proof.
  intros F1 F2 F3 Hn Hk. unfold row_at, attribution_of, locator_for. rewrite Hk, Hn.
  apply (f_equal (fun l => tget l t)) in F1, F2, F3. rewrite !tget_fmap in F1.
  rewrite !tget_fmap in F2. rewrite !tget_fmap in F3.
  destruct (tget (attributions c') t), (tget (attributions c) t); simpl in *; try done.
  injection F1 as ->. injection F2 as ->. by injection F3 as ->.
Qed.

Lemma retract_edge_facts c e s t n c' i f :
  wf c -> attribution_ids c !! (e, s) = Some t -> source_name c s = Some n ->
  retract_edge s e c = Some (true, c') ->
  fact_at c i = Some f -> fact_at c' i = Some (if decide (i = e) then retract_source_fact n f else f).
Proof.
  intros Hwf Hids Hn Hret Hf.
  destruct (retract_edge_step c e s t Hwf Hids)
    as (ed & r & xs & ys & T' & Hed & Hr & Hs & Hc & Hch & Hxs & Fn & Fs & Fc & Fsum & _ & Hstep).
  rewrite Hret in Hstep. injection Hstep as Hc'.
  destruct (wf_attributions _ Hwf) as (chains & Hat). pose proof Hat as (Ha & _).
  pose proof (Hch chains Hat) as Hl. pose proof (mjoin_NoDup_chain _ _ _ (attr_disjoint _ _ _ _ _ Ha) Hl) as Hnd.
  assert (Hrow : forall t', row_at c' t' = row_at c t') by (intros; subst c'; by apply row_at_frame).
  assert (HT : t_next <$> attributions c' = match last xs with
      | Some p => <[N.to_nat p := t_next r]> (t_next <$> attributions c)
      | None => t_next <$> attributions c end) by by rewrite Hc'.
  assert (HE : exists ed', edges c' = <[N.to_nat e := ed']> (edges c) /\ e_triple ed' = e_triple ed /\
    e_first_attribution ed' = (match xs with [] => t_next r | _ => e_first_attribution ed end) /\
    e_count ed' = e_count ed - t_count r /\
    e_sum ed' = accumulate_saturating (e_sum ed) (f64_neg (t_sum r))) by (rewrite Hc'; eexists; split; [reflexivity | done]).
  assert (HN : concept_name c' = concept_name c /\ label_name c' = label_name c) by by rewrite Hc'.
  destruct HN as [HNc HNl]. destruct HE as (ed' & HE & [= E1 E2 E3] & E4 & E5 & E6). clear Hc' Hret.
  pose proof Hf as (ed0 & l & Hed0 & Fsub & Flab & Fobj & Hcl & Hm & Hcnt & Hsum)%fact_at_inv.
  destruct (fact_chain c chains i f Hat Hf) as (l' & Hl' & _ & ed2 & Hed2 & Hc2 & _).
  rewrite Hed0 in Hed2. injection Hed2 as <-. pose proof (chain_from_fun _ _ _ _ Hc2 Hcl) as ->.
  case_decide as Hi; apply fact_at_inv; rewrite HNc, HNl, HE, HT.
  - subst i. rewrite Hed in Hed0. injection Hed0 as <-. rewrite Hl in Hl'. injection Hl' as <-.
    exists ed', (xs ++ ys). rewrite tget_insert_eq by by eapply tget_Some_lt.
    rewrite E1, E2, E3, E4, E5, E6.
    apply mapM_app_Some in Hm as (a1 & a2 & Hatt & H1 & H2). simpl in H2.
    destruct (row_at c t) as [a|] eqn:Hra; simpl in H2; [|done].
    destruct (mapM (row_at c) ys) as [a3|] eqn:H3; simpl in H2; [|done]. injection H2 as <-.
    destruct (row_source c t a Hra) as (r0 & Hr0 & Hsa & Hwa & Hca & _). rewrite Hr in Hr0. injection Hr0 as <-.
    rewrite Hs, Hn in Hsa. injection Hsa as Hsa.
    apply NoDup_app in Hnd as (_ & Hdis & [Hys _]%NoDup_cons).
    pose proof (fun k Hk => chain_rows_source c chains e s n _ k Hwf Hat Hl Hn Hk) as Hother.
    assert (Hn1 : forall b, b ∈ a1 -> att_source b <> n).
    { eapply (Hother xs); [|by apply mapM_Some]. intros t' Ht'. split; [set_solver|]. rewrite Hids.
      intros [= <-]. apply (Hdis t Ht'). set_solver. }
    assert (Hn3 : forall b, b ∈ a3 -> att_source b <> n).
    { eapply (Hother ys); [|by apply mapM_Some]. intros t' Ht'. split; [set_solver|]. rewrite Hids.
      by intros [= <-]. }
    unfold retract_source_fact. rewrite Hatt, (find_source_app n a1 a a3 Hn1 (eq_sym Hsa)). simpl.
    rewrite filter_app, filter_cons, decide_False, !filter_all by (done || naive_solver).
    repeat (split; [done|]). split; [|split; [|by rewrite Hcnt, Hsum, Hwa, Hca]].
    + apply chain_from_unlink with t; [done|]. by rewrite tget_fmap, Hr.
    + rewrite (mapM_ext_in _ (row_at c)) by (intros; apply Hrow). apply mapM_app_Some. eauto.
  - exists ed0, l. rewrite tget_insert_ne by done. repeat (split; [done|]). split; [|split; [|done]].
    + eapply chain_from_frame; [|done]. intros t' Ht'. destruct (last xs) as [p|] eqn:Hp; [|done].
      apply tget_insert_ne. intros <-. apply Hi.
      eapply (mjoin_NoDup_owner chains); [apply Ha | exact Hl' | exact Hl | exact Ht' |].
      apply last_Some_elem_of in Hp. set_solver.
    + rewrite (mapM_ext_in _ (row_at c)) by (intros; apply Hrow). done.
Qed.

Lemma retract_edge_ghost s e se da c :
  retract_edge s e (ghost se da c) = prod_map id (ghost se da) <$> retract_edge s e c.
Proof.
  unfold retract_edge. simpl. destruct (tget (edges c) e) as [ed|]; simpl; [|done].
  destruct (find_claim _ _ _ _ _) as [[[[[prev cur] sum] cnt]|]|]; simpl; [|done|done].
  destruct (tget (attributions c) cur) as [r|]; simpl; [|done].
  destruct (tupd (edges c) e _); simpl; [|done]. by destruct (if prev =? NIL then _ else _).
Qed.

Lemma retract_edges_spec s n l c se da touched :
  NoDup l -> wf (ghost se da c) -> source_name c s = Some n ->
  (forall e, e ∈ l -> is_Some (attribution_ids c !! (e, s))) ->
  exists c' se', retract_edges s l touched c = Some (touched + lenN l, c') /\
    wf (ghost se' (da + lenN l) c') /\
    source_edges c' = source_edges c /\ dead_attributions c' = dead_attributions c /\
    (forall e s', attribution_ids c' !! (e, s') =
       if decide (s' = s /\ e ∈ l) then None else attribution_ids c !! (e, s')) /\
    lenN (edges c') = lenN (edges c) /\
    forall i f, fact_at c i = Some f ->
      fact_at c' i = Some (if decide (i ∈ l) then retract_source_fact n f else f).
Proof.
  revert c se da touched. induction l as [|e l IH]; intros c se da touched Hnd Hwf Hn Hids.
  { exists c, se. change (lenN (@nil N)) with 0. rewrite !N.add_0_r. split; [done|]. split; [done|].
    do 2 (split; [done|]). split; [|split; [done|]].
    - intros e s'. rewrite decide_False; [done|]. intros [_ ?%elem_of_nil]. done.
    - intros i f Hf. by rewrite decide_False by apply not_elem_of_nil. }
  apply NoDup_cons in Hnd as [Hel Hnd]. destruct (Hids e) as [t Ht]; [set_solver|].
  destruct (retract_edge_step (ghost se da c) e s t Hwf Ht)
    as (ed & r & xs & ys & T' & _ & _ & _ & _ & _ & _ & _ & _ & _ & _ & _ & Hstep).
  rewrite retract_edge_ghost in Hstep. apply fmap_Some in Hstep as ([b c1] & Hstep & Heq).
  simpl in Heq. injection Heq as <- Hc1.
  assert (Hg : retract_edge s e (ghost se da c) = Some (true, ghost se da c1)) by by rewrite retract_edge_ghost, Hstep.
  pose proof (retract_edge_wf _ _ _ _ _ Hwf Ht Hg) as Hwf1.
  pose proof (fun i f => retract_edge_facts _ _ _ _ n _ i f Hwf Ht Hn Hg) as Hf1.
  assert (Hfld : source_edges c1 = source_edges c /\ dead_attributions c1 = dead_attributions c /\
    attribution_ids c1 = delete (e, s) (attribution_ids c) /\ source_name c1 = source_name c /\
    lenN (edges c1) = lenN (edges c)).
  { clear - Hstep. unfold retract_edge in Hstep. destruct (tget (edges c) e) as [ed|]; simpl in Hstep; [|done].
    destruct (find_claim _ _ _ _ _) as [[[[[prev cur] sum] cnt]|]|]; simpl in Hstep; [|done|done].
    destruct (tget (attributions c) cur) as [r|]; simpl in Hstep; [|done].
    destruct (tupd (edges c) e _) eqn:HE; simpl in Hstep; [|done].
    destruct (if prev =? NIL then Some (attributions c) else _); simpl in Hstep; [|done]. injection Hstep as <-. simpl.
    apply tupd_lenN in HE. done. }
  destruct Hfld as (Fse & Fda & Fids & Fn & Flen).
  destruct (IH c1 (prune_source e s (source_edges (ghost se da c))) (da + 1) (touched + 1) Hnd)
    as (c' & se' & Hrun & Hwf' & Gse & Gda & Gids & Glen & Gf); [exact Hwf1 | by rewrite Fn | |].
  { intros e' He'. rewrite Fids, lookup_delete_ne by (intros [= ->]; done). apply Hids. set_solver. }
  exists c', se'. simpl. rewrite Hstep. simpl. rewrite Hrun.
  assert (HL : lenN (e :: l) = 1 + lenN l) by (unfold lenN; simpl; lia).
  rewrite HL. split; [by rewrite N.add_assoc|]. split; [by rewrite N.add_assoc|].
  split; [congruence|]. split; [congruence|]. split; [|split; [congruence|]].
  - intros e' s'. rewrite Gids, Fids. destruct (decide (s' = s /\ e' = e)) as [[-> ->]|Hne].
    + rewrite lookup_delete_eq. rewrite (decide_True (P := s = s /\ e ∈ e :: l)) by set_solver. by case_decide.
    + rewrite lookup_delete_ne by naive_solver. case_decide; case_decide; set_solver.
  - intros i f Hf. specialize (Hf1 i f Hf). apply Gf in Hf1. rewrite Hf1. f_equal.
    destruct (decide (i = e)), (decide (i ∈ l)); case_decide; subst; try done; set_solver.
Qed.

(** The edges the reverse index names are those whose fact has the source. *)
Lemma fact_has_source c s n i f :
  wf c -> source_name c s = Some n -> fact_at c i = Some f ->
  is_Some (attribution_ids c !! (i, s)) <-> is_Some (find_source n (f_attributions f)).
Proof.
  intros Hwf Hn Hf. destruct (wf_attributions _ Hwf) as (chains & Hat). pose proof Hat as (Ha & _).
  destruct (fact_chain c chains i f Hat Hf) as (l & Hl & Hm & _). split.
  - intros [t Ht]. destruct (attr_ids_split Ha i s t l Hl Ht) as (xs & ys & -> & Hst & Hxs).
    apply mapM_app_Some in Hm as (a1 & a2 & -> & H1 & H2). simpl in H2.
    destruct (row_at c t) as [a|] eqn:Hra; simpl in H2; [|done].
    destruct (mapM (row_at c) ys) as [a3|]; simpl in H2; [|done]. injection H2 as <-.
    destruct (row_source c t a Hra) as (r & Hr & Hsa & _). rewrite tget_fmap, Hr in Hst. injection Hst as Hst.
    rewrite (find_source_app n a1 a a3); [done | | congruence].
    pose proof (mjoin_NoDup_chain _ _ _ (attr_disjoint _ _ _ _ _ Ha) Hl) as Hnd.
    apply NoDup_app in Hnd as (_ & Hdis & _).
    eapply (chain_rows_source c chains i s n _ xs Hwf Hat Hl Hn); [|by apply mapM_Some].
    intros t' Ht'. split; [set_solver|]. rewrite Ht. intros [= <-]. apply (Hdis t Ht'). set_solver.
  - intros Hs. destruct (attribution_ids c !! (i, s)) as [t|] eqn:Hids; [done|]. exfalso.
    rewrite find_source_None in Hs; [by destruct Hs|].
    eapply (chain_rows_source c chains i s n _ l Hwf Hat Hl Hn); [|by apply mapM_Some].
    intros t Ht. by rewrite Hids.
Qed.

Definition cites (n : name) (f : Fact) : bool := bool_decide (is_Some (find_source n (f_attributions f))).

(** Withdrawing [n] touches exactly this many facts. *)
Definition count_cites (n : name) (fs : list Fact) : N := lenN (filter (fun f => cites n f = true) fs).

Lemma count_cites_index c s n l fs :
  wf c -> source_name c s = Some n -> facts c = Some fs -> NoDup l ->
  (forall e, e ∈ l <-> is_Some (attribution_ids c !! (e, s))) ->
  lenN l = count_cites n fs.
Proof.
  intros Hwf Hn Hfs Hnd Hl. pose proof Hfs as Hf2%mapM_Some. unfold count_cites, lenN. f_equal.
  transitivity (length (filter (fun e => e ∈ l) (indices (edges c)))).
  - apply Permutation_length, NoDup_Permutation; [done | apply NoDup_filter, NoDup_indices|].
    intros e. rewrite list_elem_of_filter, elem_of_indices. split; [|by intros [? ?]].
    intros He. split; [done|]. apply Hl in He as [t Ht]. destruct (wf_attributions _ Hwf) as (chains & Ha & _).
    pose proof (proj1 (attr_ids _ _ _ _ _ Ha e s t) Ht) as (k & Hk & _). apply tget_Some_lt in Hk.
    pose proof (Forall2_lenN _ _ _ (attr_chains _ _ _ _ _ Ha)) as Hlen. rewrite lenN_fmap in Hlen. lia.
  - clear Hfs. induction Hf2 as [|e f es fs' Hf _ IH]; [done|]. rewrite !filter_cons.
    assert (Hiff : e ∈ l <-> cites n f = true).
    { unfold cites. rewrite bool_decide_eq_true, Hl. by apply fact_has_source. }
    destruct (decide (e ∈ l)), (decide (cites n f = true)); simpl; rewrite ?IH; try done; exfalso; tauto.
Qed.

Lemma retract_source_known n s c fs :
  wf c -> source_ids c !! n = Some s -> facts c = Some fs ->
  exists c', retract_source n c = Some (Some (count_cites n fs), c') /\ wf c' /\
    facts c' = Some (retract_source_fact n <$> fs) /\
    count_source_edges n c = count_cites n fs.
Proof.
  intros Hwf Hs Hfs. pose proof (source_id_name Hwf _ _ Hs) as Hn.
  set (l := default [] (source_edges c !! s)).
  pose proof (wf_reverse _ Hwf) as [Hse Hin]. specialize (Hin s). fold l in Hin.
  assert (Hnd : NoDup l).
  { unfold l. destruct (source_edges c !! s) eqn:E; simpl; [by apply (Hse s) | constructor]. }
  pose proof (merge_sort_Permutation N.le l) as Hperm.
  assert (Hmem : forall e, e ∈ merge_sort N.le l <-> e ∈ l) by (intros e; by rewrite Hperm).
  set (c0 := set_source_edges (delete s (source_edges c)) c).
  destruct (retract_edges_spec s n (merge_sort N.le l) c0 (source_edges c) (dead_attributions c) 0)
    as (c1 & se' & Hrun & Hwf1 & Gse & Gda & Gids & Glen & Gf);
    [by rewrite Hperm | | done | intros e; rewrite Hperm; apply Hin |].
  { eapply (wf_set_source_edges c (source_edges c)) in Hwf; [done | apply Hwf]. }
  assert (HL : lenN (merge_sort N.le l) = count_cites n fs).
  { unfold lenN. rewrite Hperm. apply (count_cites_index c s n l fs); assumption. }
  exists (set_dead_attributions (dead_attributions c1 + count_cites n fs) c1).
  unfold retract_source. rewrite Hs. fold l c0. rewrite Hrun. simpl. rewrite N.add_0_l, HL.
  split; [done|]. split; [|split].
  - rewrite HL in Hwf1. eapply (wf_set_source_edges _ (source_edges c1)) in Hwf1.
    { rewrite Gda. exact Hwf1. }
    simpl. rewrite Gse. apply source_edges_wf_drop_source with (attribution_ids c); [apply Hwf|].
    intros e s'. rewrite Gids. simpl.
    case_decide as Hd; case_decide; try done; [naive_solver|]. subst s'. rewrite Hmem in Hd.
    destruct (attribution_ids c !! (e, s)) eqn:Hids; [|done]. exfalso. apply Hd. split; [done|].
    apply Hin. by rewrite Hids.
  - pose proof (facts_lookup _ _ Hfs) as [Hlen Hget]. apply facts_intro; [rewrite lenN_fmap; etransitivity; [exact Hlen | symmetry; exact Glen]|].
    intros i f Hi. rewrite tget_fmap in Hi. apply fmap_Some in Hi as (f0 & Hf0 & ->).
    rewrite Hget in Hf0 by (rewrite <- Hlen; by eapply tget_Some_lt).
    transitivity (fact_at c1 i); [done|]. rewrite (Gf i f0) by done. f_equal.
    case_decide as Hd; [done|]. rewrite Hmem in Hd. unfold retract_source_fact.
    destruct (find_source n (f_attributions f0)) eqn:Hfind; [|done]. exfalso. apply Hd, Hin.
    eapply fact_has_source; [done | done | done | by rewrite Hfind].
  - unfold count_source_edges. rewrite Hs. destruct (source_edges c !! s) as [held|] eqn:Hheld.
    + assert (Hhl : l = held) by done. rewrite filter_all.
      * rewrite size_list_to_set by by rewrite <- Hhl. rewrite <- HL. unfold lenN. rewrite Hperm. by rewrite Hhl.
      * intros e He. apply Hin. by rewrite Hhl.
    + rewrite <- HL. unfold lenN. rewrite Hperm. done.
Qed.

(** ** One association *)

Lemma unlink_all_spec rows e fuel cur l ids se n :
  chain_from (t_next <$> rows) cur l -> (length l <= fuel)%nat ->
  source_edges_wf se ids ->
  exists ids' se', unlink_all fuel rows e cur ids se n = Some (ids', se', n + lenN l) /\
    source_edges_wf se' ids' /\
    forall e' s, ids' !! (e', s) =
      if decide (e' = e /\ Some s ∈ (tget (t_source <$> rows) <$> l)) then None else ids !! (e', s).
Proof.
  revert fuel cur ids se n. induction l as [|t l IH]; intros fuel cur ids se n Hc Hf Hse.
  - exists ids, se. change (lenN (@nil N)) with 0. rewrite N.add_0_r. simpl in Hc. subst cur. split; [by destruct fuel|].
    split; [done|]. intros e' s. case_decide as Hd; [|done]. destruct Hd as [_ Hd]. by apply elem_of_nil in Hd.
  - destruct Hc as (-> & Ht & nx & Hnx & Hc). destruct fuel as [|fuel]; simpl in Hf; [lia|]. simpl.
    destruct (N.eqb_spec t NIL); [done|]. rewrite tget_fmap in Hnx. apply fmap_Some in Hnx as (r & Hr & ->).
    rewrite Hr. simpl.
    destruct (IH fuel (t_next r) (delete (e, t_source r) ids) (prune_source e (t_source r) se) (n + 1) Hc
      ltac:(lia) (source_edges_wf_prune _ _ _ _ Hse)) as (ids' & se' & Hrun & Hwf & Hids).
    exists ids', se'. split; [rewrite Hrun; do 2 f_equal; unfold lenN; simpl; lia|]. split; [done|].
    intros e' s. rewrite Hids. destruct (decide (e' = e /\ s = t_source r)) as [[-> ->]|Hne].
    + rewrite lookup_delete_eq. case_decide; case_decide as Hb; try done; exfalso; apply Hb;
        (split; [done|]; rewrite elem_of_cons, tget_fmap, Hr; by left).
    + rewrite lookup_delete_ne by naive_solver.
      case_decide as Ha; case_decide as Hb; try done; exfalso.
      * apply Hb. destruct Ha as [-> ?]. split; [done|]. rewrite elem_of_cons. by right.
      * apply Ha. destruct Hb as [-> Hs]. split; [done|]. apply elem_of_cons in Hs as [Hs|]; [|done].
        rewrite tget_fmap, Hr in Hs. naive_solver.
Qed.

Lemma retract_association_live s l o e ed c fs :
  wf c -> existing_edge s l o c = Some e -> tget (edges c) e = Some ed -> e_count ed <> 0 ->
  facts c = Some fs -> exists c' f, retract_association s l o c = Some (Some (lenN (f_attributions f)), c') /\
    wf c' /\ tget fs e = Some f /\ facts c' = Some (<[N.to_nat e := zero_fact f]> fs).
Proof.
  intros Hwf Hex Hed Hcnt Hfs. pose proof (facts_lookup _ _ Hfs) as [Hlen Hget].
  destruct (fact_at_total c e Hwf) as [f Hf]; [by eapply tget_Some_lt|].
  destruct (wf_attributions _ Hwf) as (chains & Hat). pose proof Hat as (Ha & Hd & Hcov).
  destruct (fact_chain c chains e f Hat Hf) as (ch & Hl & Hm & ed' & Hed' & Hc & _).
  rewrite Hed in Hed'. injection Hed' as <-.
  destruct (unlink_all_spec (attributions c) e (length (attributions c)) _ ch (attribution_ids c) (source_edges c) 0 Hc)
    as (ids & se & Hrun & Hse & Hids); [rewrite <- (length_fmap t_next); by eapply chain_from_length | apply Hwf |].
  assert (Hids' : forall e' s, ids !! (e', s) = if decide (e' = e) then None else attribution_ids c !! (e', s)).
  { intros e' s'. rewrite Hids. case_decide as Hd1; case_decide as Hd2; try done; [naive_solver|]. subst e'.
    destruct (attribution_ids c !! (e, s')) as [t|] eqn:Ht; [|done]. exfalso. apply Hd1. split; [done|].
    pose proof (proj1 (attr_ids _ _ _ _ _ Ha e s' t) Ht) as (k & Hk & Htk & Hsk). simplify_eq.
    rewrite <- Hsk. by apply list_elem_of_fmap_2. }
  assert (Hml : lenN ch = lenN (f_attributions f)).
  { apply mapM_Some in Hm. by eapply Forall2_lenN. }
  set (ed' := set_attribution_ends NIL NIL (set_totals 0 0%float ed)).
  exists (update_attributions (<[N.to_nat e := ed']> (edges c)) (attributions c) ids se (attribution_locators c)
    (dead_edges c + 1) (dead_attributions c + lenN ch) c), f. split; [|split; [|split]].
  - unfold retract_association. rewrite Hex, Hed. simpl. destruct (N.eqb_spec (e_count ed) 0); [done|].
    rewrite Hrun. simpl. unfold tupd. rewrite Hed. simpl. by rewrite <- Hml.
  - pose proof (wf_update_ok _ Hwf) as [_ _ Hrows _ Htot Hdead Hloc Hlocr Hsz]. apply wf_update; [done|].
    split; try done.
    + rewrite list_fmap_insert, list_insert_id; [done|]. rewrite tget_lookup in Hed. by rewrite list_lookup_fmap, Hed.
    + exists (<[N.to_nat e := []]> chains). rewrite !list_fmap_insert. split; [|split].
      * by eapply attr_wf_clear.
      * destruct (mjoin_split chains e _ Hl) as (rest & Hj & Hins & _).
        unfold lenN in *. rewrite Hins. rewrite Hj in Hd. rewrite length_app in Hd. simpl. lia.
      * eapply totals_cover_update; [apply Ha | done | done | done | done].
    + eapply rows_wf_mono; [reflexivity | | done]. intros [e' s'] t. rewrite Hids'. case_decide; [done | eauto].
    + by apply Forall_insert.
    + pose proof (count_dead_insert (edges c) e ed ed' Hed) as Hcd. unfold is_dead in Hcd. simpl in Hcd.
      destruct (N.eqb_spec (e_count ed) 0); [done|]. simpl in Hcd. lia.
  - rewrite Hget; [done | by eapply tget_Some_lt].
  - apply facts_intro; [simpl; rewrite !lenN_insert; done|]. intros i g. simpl.
    destruct (decide (i = e)) as [->|Hne].
    + rewrite tget_insert_eq by (rewrite Hlen; by eapply tget_Some_lt). intros [= <-].
      apply fact_at_inv in Hf as (ed0 & l0 & Hed0 & F1 & F2 & F3 & _). rewrite Hed in Hed0. injection Hed0 as <-.
      apply fact_at_inv. exists ed', []. simpl. rewrite tget_insert_eq by by eapply tget_Some_lt. done.
    + rewrite tget_insert_ne by done. intros Hg. rewrite Hget in Hg by (rewrite <- Hlen; by eapply tget_Some_lt).
      apply fact_at_inv in Hg as (ed0 & l0 & Hed0 & Hrest). apply fact_at_inv. exists ed0, l0. simpl.
      by rewrite tget_insert_ne.
Qed.

Lemma retract_association_names s l o c r c' :
  retract_association s l o c = Some (r, c') -> existing_edge s l o c' = existing_edge s l o c.
Proof.
  unfold retract_association. destruct (existing_edge s l o c) as [e|] eqn:Hex; [|intros [= <- <-]; done].
  destruct (tget (edges c) e) as [ed|]; simpl; [|done]. destruct (e_count ed =? 0); [intros [= <- <-]; done|].
  destruct (unlink_all _ _ _ _ _ _ _) as [[[ids se] n]|]; simpl; [|done].
  destruct (tupd _ _ _); simpl; [|done]. intros [= <- <-]. rewrite <- Hex. done.
Qed.

Lemma retract_association_twice s l o c c' r e :
  existing_edge s l o c = Some e ->
  (exists ed, tget (edges c') e = Some ed /\ e_count ed = 0) ->
  retract_association s l o c = Some (r, c') ->
  retract_association s l o c' = Some (None, c').
Proof.
  intros Hex (ed & Hed & Hz) Hrun. apply retract_association_names in Hrun. rewrite Hex in Hrun.
  unfold retract_association. rewrite Hrun, Hed. simpl. by rewrite Hz.
Qed.
End retract.
