(* ===== verification/Sample.v ===== *)
(** * A sample context

    A few writes with the ASCII tables, run by evaluation: the concrete inputs at
    which the properties of the library are instantiated. *)

From S2P Require Export SourcesThm.

Local Open Scope N_scope.

Record Triple := {
  w_subject : name; w_label : name; w_object : name; w_weight : f64;
  w_source : option name; w_paragraph : option N
}.

Definition valid_writeb (t : Triple) : bool :=
  utf8_valid (w_subject t) && utf8_valid (w_label t) && utf8_valid (w_object t) &&
  match w_source t with Some n => utf8_valid n | None => true end &&
  match w_paragraph t with Some p => p <=? U32_MAX | None => true end && f64_finite (w_weight t).

Definition entry_roomb (c : Context) : bool :=
  (lenN (ei_spans (concept_index c)) + 2 <=? NIL) && (lenN (ei_spans (label_index c)) + 1 <=? NIL).

Definition count_roomb (s l o : name) (c : Context) : bool :=
  match existing_edge s l o c with
  | Some e => match tget (edges c) e with Some r => e_count r <? U64_MAX | None => true end
  | None => true
  end.

(** A sequence of writes, each of which must succeed. *)
Fixpoint run_writes `{UnicodeTables} (ws : list Triple) (c : Context) : option Context :=
  match ws with
  | [] => Some c
  | t :: ws =>
    if valid_writeb t && entry_roomb c && count_roomb (w_subject t) (w_label t) (w_object t) c then
      match upsert (w_subject t) (w_label t) (w_object t) (w_weight t) (w_source t) (w_paragraph t) c with
      | Some (Ok _, c) => run_writes ws c
      | _ => None
      end
    else None
  end.

Lemma entry_roomb_spec c : entry_roomb c = true -> entry_room c.
Proof. unfold entry_roomb. rewrite andb_true_iff, !N.leb_le. done. Qed.

Lemma count_roomb_spec s l o c : count_roomb s l o c = true -> count_room s l o c.
Proof. unfold count_roomb. intros Hb e r He Hr. rewrite He, Hr in Hb. by apply N.ltb_lt in Hb. Qed.

Lemma run_writes_wf `{UnicodeTables} ws c c' : wf c -> run_writes ws c = Some c' -> wf c'.
Proof.
  revert c. induction ws as [|t ws IH]; intros c Hwf; simpl; [by intros [= <-]|].
  destruct (valid_writeb t && _ && _) eqn:Hb; [|done]. rewrite !andb_true_iff in Hb.
  destruct Hb as [[Hv He%entry_roomb_spec] Hc%count_roomb_spec]. apply valid_write_intro in Hv.
  destruct (upsert_cases _ _ _ _ _ _ _ Hwf Hv He Hc) as (r & c1 & -> & Hwf1 & _).
  destruct r; [by apply IH | done].
Qed.

Definition sample_writes : list Triple := [
  {| w_subject := str "cat"; w_label := str "chases"; w_object := str "mouse"; w_weight := 1%float;
     w_source := Some (str "doc1"); w_paragraph := Some 3 |};
  {| w_subject := str "cat"; w_label := str "chases"; w_object := str "mouse"; w_weight := 0.5%float;
     w_source := Some (str "doc2"); w_paragraph := None |};
  {| w_subject := str "mouse"; w_label := str "eats"; w_object := str "cheese"; w_weight := 1%float;
     w_source := Some (str "doc1"); w_paragraph := Some 4 |};
  {| w_subject := str "cat"; w_label := str "likes"; w_object := str "cheese"; w_weight := (-0.5)%float;
     w_source := None; w_paragraph := None |} ].

Definition sample : Context :=
  default Context_default (@run_writes ascii_tables sample_writes Context_default).

Lemma sample_run : @run_writes ascii_tables sample_writes Context_default = Some sample.
Proof. apply succeeds_default. vm_compute. reflexivity. Qed.

Lemma sample_wf : @wf ascii_tables sample.
Proof. eapply run_writes_wf; [apply wf_default | apply sample_run]. Qed.

Definition sample_facts : list Fact := Eval vm_compute in default [] (facts sample).

Lemma sample_facts_eq : facts sample = Some sample_facts.
Proof. vm_compute. reflexivity. Qed.

#[export] Hint Resolve sample_wf sample_facts_eq : core.

(** ** Retraction *)

(** C3. Withdrawing a source is its specification: an unknown source changes
    nothing; a known one keeps the invariant, takes its claim, weight and count
    out of every fact that cites it and out of no other, and reports how many
    facts it touched, the number [count_source_edges] predicted. *)
Theorem retract_source_refines `{UnicodeTables} n c fs (Hwf : wf c) (Hfs : facts c = Some fs) :
  match source_ids c !! n with
  | None => retract_source n c = Some (None, c)
  | Some _ => exists c', retract_source n c = Some (Some (count_cites n fs), c') /\ wf c' /\
      facts c' = Some (retract_source_fact n <$> fs) /\ count_source_edges n c = count_cites n fs
  end.
Proof.
  destruct (source_ids c !! n) as [s|] eqn:Hs; [by eapply retract_source_known|].
  unfold retract_source. by rewrite Hs.
Qed.

Lemma retract_source_refines_witness :
  exists c', retract_source (str "doc1") sample = Some (Some 2, c') /\ @wf ascii_tables c' /\
    facts c' = Some (retract_source_fact (str "doc1") <$> sample_facts) /\
    count_source_edges (str "doc1") sample = 2.
Proof.
  pose proof (@retract_source_refines ascii_tables (str "doc1") sample sample_facts sample_wf sample_facts_eq) as Hr.
  assert (Hs : source_ids sample !! str "doc1" = Some 0) by (vm_compute; reflexivity).
  rewrite Hs in Hr. exact Hr.
Defined.

(** C4. Withdrawing one association zeroes exactly the live edge the resolved
    triple names, unlinks all its claims and reports how many, and keeps the
    invariant; a triple that names no live edge changes nothing, so a replayed
    retraction is a no-op. *)
Theorem retract_association_refines `{UnicodeTables} s l o c fs (Hwf : wf c) (Hfs : facts c = Some fs) :
  match existing_edge s l o c with
  | None => retract_association s l o c = Some (None, c)
  | Some e => exists f, tget fs e = Some f /\
      if f_count f =? 0 then retract_association s l o c = Some (None, c)
      else exists c', retract_association s l o c = Some (Some (lenN (f_attributions f)), c') /\ wf c' /\
        facts c' = Some (<[N.to_nat e := zero_fact f]> fs) /\
        retract_association s l o c' = Some (None, c')
  end.
Proof.
  destruct (existing_edge s l o c) as [e|] eqn:Hex; [|by unfold retract_association; rewrite Hex].
  pose proof (facts_lookup _ _ Hfs) as [Hlen Hget].
  assert (Hed : exists ed, tget (edges c) e = Some ed).
  { unfold existing_edge in Hex. apply bind_Some in Hex as (? & _ & Hex).
    apply bind_Some in Hex as (? & _ & Hex). apply bind_Some in Hex as (? & _ & Hex).
    apply (wf_triples _ Hwf) in Hex. rewrite tget_fmap in Hex. apply fmap_Some in Hex as (ed & ? & _). eauto. }
  destruct Hed as [ed Hed]. destruct (fact_at_total c e Hwf) as [f Hf]; [by eapply tget_Some_lt|].
  exists f. split; [by rewrite Hget by by eapply tget_Some_lt|].
  assert (Hcnt : f_count f = e_count ed).
  { apply fact_at_inv in Hf as (ed' & ? & Hed' & _ & _ & _ & _ & _ & ? & _). congruence. }
  rewrite Hcnt. destruct (N.eqb_spec (e_count ed) 0) as [Hz|Hnz].
  { unfold retract_association. rewrite Hex, Hed. simpl. by rewrite (proj2 (N.eqb_eq _ _) Hz). }
  destruct (retract_association_live s l o e ed c fs Hwf Hex Hed Hnz Hfs) as (c' & f' & Hrun & Hwf' & Hf' & Hfs').
  rewrite Hget, Hf in Hf' by by eapply tget_Some_lt. injection Hf' as <-.
  exists c'. do 3 (split; [done|]).
  eapply retract_association_twice; [exact Hex | | exact Hrun].
  apply facts_lookup in Hfs' as [Hlen' Hget']. rewrite lenN_insert in Hlen'.
  assert (He : e < lenN fs) by (rewrite Hlen; by eapply tget_Some_lt).
  specialize (Hget' e). rewrite tget_insert_eq in Hget' by done. symmetry in Hget'.
  specialize (Hget' ltac:(lia)). apply fact_at_inv in Hget' as (ed' & _ & Hed' & _ & _ & _ & _ & _ & Hz & _).
  exists ed'. by rewrite <- Hz.
Qed.

Lemma retract_association_refines_witness :
  exists f, tget sample_facts 0 = Some f /\ f_count f = 2 /\
    exists c', retract_association (str "cat") (str "chases") (str "mouse") sample = Some (Some 2, c') /\
      @wf ascii_tables c' /\ facts c' = Some (<[0%nat := zero_fact f]> sample_facts).
Proof.
  pose proof (@retract_association_refines ascii_tables (str "cat") (str "chases") (str "mouse") sample
    sample_facts sample_wf sample_facts_eq) as Hr.
  assert (He : existing_edge (str "cat") (str "chases") (str "mouse") sample = Some 0) by (vm_compute; reflexivity).
  rewrite He in Hr. destruct Hr as (f & Hf & Hrest).
  exists f. split; [exact Hf|]. vm_compute in Hf. injection Hf as <-. split; [reflexivity|].
  destruct Hrest as (c' & H1 & H2 & H3 & _). exists c'. split; [exact H1|]. split; [exact H2 | exact H3].
Defined.

(** Subtraction is not exact: an edge every source was withdrawn from can keep
    a residue, which a later assertion accumulates onto. *)
Example retraction_leaves_a_residue :
  let claim source w := {| w_subject := str "cat"; w_label := str "chases"; w_object := str "mouse"; w_weight := w;
                           w_source := Some (str source); w_paragraph := None |} in
  match @run_writes ascii_tables [claim "doc1" 0x1.fffffffffffffp1023%float; claim "doc2" 0x1.fffffffffffffp1023%float] Context_default with
  | Some c =>
    match retract_source (str "doc1") c with
    | Some (_, c) =>
      match retract_source (str "doc2") c with
      | Some (_, c) => (e_sum <$> edges c, e_count <$> edges c,
          (fun c => e_sum <$> edges c) <$> @run_writes ascii_tables [claim "doc1" 1%float] c)
      | None => ([], [], None)
      end
    | None => ([], [], None)
    end
  | None => ([], [], None)
  end = ([(-0x1.fffffffffffffp1023)%float], [0], Some [(-0x1.fffffffffffffp1023)%float]).
Proof. vm_compute. reflexivity. Qed.
