(* ===== verification/Alias.v ===== *)
(** * Aliases ([src/context/alias.rs])

    One set of operations over a namespace handle, as in the source, used for
    the concept and the label namespace.  [AliasSpace] is the interface the
    theorems are proved against; the two namespaces are its instances. *)

From S2P Require Export Sample.

Local Open Scope N_scope.

(** ** The handle and [add_alias] *)

Record AliasNamespace := {
  an_aliases : list AliasRecord;
  an_index : EntryIndex;
  an_ids : gmap name N;
  an_alias_index : gmap name N
}.

Definition add_alias `{UnicodeTables} (arena : bytes) (ns : AliasNamespace) (alias canonical : name)
    (full : ContextFull) : option (result unit AliasError * (bytes * AliasNamespace)) :=
  match an_ids ns !! canonical with
  | None => Some (Err UnknownCanonical, (arena, ns))
  | Some target =>
    match an_ids ns !! alias with
    | Some existing =>
      if existing =? target then Some (Ok tt, (arena, ns)) else Some (Err Conflict, (arena, ns))
    | None =>
      if negb (ids_left (lenN (an_aliases ns)) 1) then Some (Err (Full full), (arena, ns))
      else if negb (arena_fits (lenN arena) (lenN alias)) then Some (Err (Full full_arena), (arena, ns))
      else
        '(arena, (name_offset, name_len)) ← intern_name arena alias;
        index ← ei_push (an_index ns) alias target;
        Some (Ok tt, (arena,
          {| an_aliases := an_aliases ns ++
               [{| a_name_offset := name_offset; a_name_len := name_len; a_target := target |}];
             an_index := index;
             an_ids := <[alias := target]> (an_ids ns);
             an_alias_index := <[alias := target]> (an_alias_index ns) |}))
    end
  end.

(** [aliases.iter().position(|record| arena_str(..) == alias)]. *)
Fixpoint alias_position (arena : bytes) (aliases : list AliasRecord) (alias : name) (i : nat)
    : option (option nat) :=
  match aliases with
  | [] => Some None
  | record :: aliases =>
    spelling ← name_at arena (a_name_offset record) (a_name_len record);
    if bool_decide (spelling = alias) then Some (Some i) else alias_position arena aliases alias (S i)
  end.

Fixpoint push_names `{UnicodeTables} (arena : bytes) (entries : list (name_range * N)) (index : EntryIndex)
    : option EntryIndex :=
  match entries with
  | [] => Some index
  | (r, id) :: entries =>
    spelling ← name_at arena r.1 r.2;
    index ← ei_push index spelling id;
    push_names arena entries index
  end.

(** The rebuild walks the records, then the aliases. *)
Definition rebuild_index `{UnicodeTables} (arena : bytes) (records : list name_range)
    (aliases : list AliasRecord) : option EntryIndex :=
  push_names arena (zip records (indices records) ++ (a_entry <$> aliases)) EntryIndex_default.

(** ** The interface of one aliased namespace *)

Class AliasSpace `{UnicodeTables} := {
  as_handle : Context -> AliasNamespace;
  as_put : bytes -> AliasNamespace -> N -> Context -> Context;
  as_records : Context -> list name_range;
  as_name : Context -> N -> option name;
  as_full : ContextFull;
  (* what the operations rely on *)
  as_wf : forall c, wf c -> exists ns al,
    namespace_wf (arena c) (as_records c) (a_entry <$> an_aliases (as_handle c)) (an_ids (as_handle c))
      (an_alias_index (as_handle c)) (an_index (as_handle c)) ns al;
  as_size : forall c, wf c -> lenN (an_aliases (as_handle c)) <= NIL;
  as_wf_put : forall c x h slack ns al, wf c ->
    namespace_wf (arena c ++ x) (as_records c) (a_entry <$> an_aliases h) (an_ids h)
      (an_alias_index h) (an_index h) ns al ->
    lenN (arena c ++ x) <= U32_MAX -> lenN (an_aliases h) <= NIL ->
    wf (as_put (arena c ++ x) h slack c);
  as_put_handle : forall a h slack c, as_handle (as_put a h slack c) = h;
  as_put_id : forall c, as_put (arena c) (as_handle c) (arena_slack c) c = c;
  as_put_arena : forall a h slack c, arena (as_put a h slack c) = a;
  as_put_slack : forall a h slack c, arena_slack (as_put a h slack c) = slack;
  as_name_spec : forall c id, as_name c id = (r ← tget (as_records c) id; name_at (arena c) r.1 r.2);
  as_put_records : forall a h slack c, as_records (as_put a h slack c) = as_records c;
  as_put_facts : forall x h slack c i f, fact_at c i = Some f -> fact_at (as_put (arena c ++ x) h slack c) i = Some f;
  as_put_edges : forall a h slack c, edges (as_put a h slack c) = edges c
}.
#[global] Hint Mode AliasSpace - : typeclass_instances.

Section operations.
Context `{UnicodeTables} (S : AliasSpace).

Definition add_space_alias (alias canonical : name) (c : Context)
    : option (result unit AliasError * Context) :=
  '(r, (arena', h)) ← add_alias (arena c) (as_handle c) alias canonical as_full;
  Some (r, as_put arena' h (arena_slack c) c).

Definition remove_space_alias (alias : name) (c : Context) : option (option name * Context) :=
  let h := as_handle c in
  position ← alias_position (arena c) (an_aliases h) alias 0;
  match position with
  | None => Some (None, c)
  | Some position =>
    record ← an_aliases h !! position;
    let aliases := delete position (an_aliases h) in
    index ← rebuild_index (arena c) (as_records c) aliases;
    let h := {| an_aliases := aliases; an_index := index;
                an_ids := delete alias (an_ids h); an_alias_index := delete alias (an_alias_index h) |} in
    let c := as_put (arena c) h (arena_slack c + a_name_len record) c in
    canonical ← as_name c (a_target record);
    Some (Some canonical, c)
  end.

Definition alias_pairs (c : Context) : option (list (name * name)) :=
  mapM (fun record =>
    alias ← name_at (arena c) (a_name_offset record) (a_name_len record);
    canonical ← as_name c (a_target record);
    Some (alias, canonical)) (an_aliases (as_handle c)).

(** One page of the sorted alias index, with the total. *)
Definition alias_page (after : option name) (limit : nat) (c : Context)
    : option (N * list (name * name)) :=
  let index := an_alias_index (as_handle c) in
  page ← mapM (fun p => canonical ← as_name c p.2; Some (p.1, canonical)) (take limit (btree_after after index));
  Some (N.of_nat (size index), page).

Definition alias_count (c : Context) : N := N.of_nat (size (an_alias_index (as_handle c))).
End operations.

(** ** The two namespaces *)

Definition concept_handle (c : Context) : AliasNamespace :=
  {| an_aliases := concept_aliases c; an_index := concept_index c; an_ids := concept_ids c;
     an_alias_index := concept_alias_index c |}.
Definition put_concept (a : bytes) (h : AliasNamespace) (slack : N) (c : Context) : Context :=
  set_concept_aliases (an_aliases h) (set_concept_index (an_index h) (set_concept_ids (an_ids h)
    (set_concept_alias_index (an_alias_index h) (set_arena_slack slack (set_arena a c))))).
Definition label_handle (c : Context) : AliasNamespace :=
  {| an_aliases := label_aliases c; an_index := label_index c; an_ids := label_ids c;
     an_alias_index := label_alias_index c |}.
Definition put_label (a : bytes) (h : AliasNamespace) (slack : N) (c : Context) : Context :=
  set_label_aliases (an_aliases h) (set_label_index (an_index h) (set_label_ids (an_ids h)
    (set_label_alias_index (an_alias_index h) (set_arena_slack slack (set_arena a c))))).

Lemma fact_at_arena x c c' i f :
  arena c' = arena c ++ x -> concepts c' = concepts c -> labels c' = labels c -> sources c' = sources c ->
  edges c' = edges c -> attributions c' = attributions c -> attribution_locators c' = attribution_locators c ->
  fact_at c i = Some f -> fact_at c' i = Some f.
Proof.
  intros Ea Ec El Es Ee Et Ek (e & ids & He & Hs & Hl & Ho & Hc & Hm & ? & ?)%fact_at_inv.
  apply fact_at_inv. exists e, ids. rewrite Ee, Et. split; [done|].
  unfold concept_name, label_name, arena_str in *. rewrite Ea, Ec, El.
  split; [by apply name_lookup_arena|]. split; [by apply name_lookup_arena|]. split; [by apply name_lookup_arena|].
  split; [done|]. split; [|done]. eapply mapM_mono; [|done]. intros t a (r & Hr & Hn & Hw & Hcnt & Hp)%row_source.
  assert (Hp' : locator_for c' t = locator_for c t) by (unfold locator_for; by rewrite Ek).
  unfold row_at, attribution_of. rewrite Et, Hr. simpl. rewrite Hp', <- Hp, <- Hw, <- Hcnt.
  unfold source_name, arena_str in *. rewrite Ea, Es, (name_lookup_arena _ _ _ _ _ _ _ Hn). simpl. by destruct a.
Qed.

Lemma sizes_wf_put c c' :
  sizes_wf c -> lenN (arena c') <= U32_MAX -> lenN (concept_aliases c') <= NIL -> lenN (label_aliases c') <= NIL ->
  concepts c' = concepts c -> labels c' = labels c -> sources c' = sources c -> edges c' = edges c ->
  attributions c' = attributions c -> sizes_wf c'.
Proof. intros [] ? ? ? E1 E2 E3 E4 E5. split; rewrite ?E1, ?E2, ?E3, ?E4, ?E5; assumption. Qed.

(** The names of a table are determined by its ranges. *)
Lemma names_fun arena (recs : list name_range) ns ns' :
  Forall2 (fun r n => name_at arena r.1 r.2 = Some n) recs ns ->
  Forall2 (fun r n => name_at arena r.1 r.2 = Some n) recs ns' -> ns = ns'.
Proof.
  intros Hn. revert ns'. induction Hn as [|r n recs ns Hr Hn IH]; intros ns' Hn'.
  - by apply Forall2_nil_inv_l in Hn'.
  - apply Forall2_cons_inv_l in Hn' as (n' & k & Hr' & Hk & ->). f_equal; [congruence | by apply IH].
Qed.

#[export, refine] Instance concept_space `{UnicodeTables} : AliasSpace := {
  as_handle := concept_handle; as_put := put_concept;
  as_records c := c_range <$> concepts c; as_name := concept_name; as_full := full_concept_aliases
}.
Proof.
  - intros c Hwf. apply (wf_concepts _ Hwf).
  - intros c Hwf. apply (wf_sizes _ Hwf).
  - intros c x h slack ns al Hwf Hns Ha Hl.
    destruct Hwf as [_ (ls & la & ? & ?) (ss & ?) ? ? ? ? ? ? ? ? ? ? ? Hsz ?]. split; simpl; try assumption.
    + by exists ns, al.
    + exists ls, la. split; [by apply namespace_wf_arena | done].
    + exists ss. by apply ns_ok_arena.
    + apply (sizes_wf_put c); try done. apply Hsz.
  - by intros ? [] ? ?.
  - by intros [].
  - done.
  - done.
  - intros c id. unfold concept_name. rewrite tget_fmap. by destruct (tget (concepts c) id).
  - done.
  - intros. by eapply fact_at_arena.
  - done.
Defined.

#[export, refine] Instance label_space `{UnicodeTables} : AliasSpace := {
  as_handle := label_handle; as_put := put_label;
  as_records c := l_range <$> labels c; as_name := label_name; as_full := full_label_aliases
}.
Proof.
  - intros c Hwf. destruct (wf_labels _ Hwf) as (ns & al & ? & _). by exists ns, al.
  - intros c Hwf. apply (wf_sizes _ Hwf).
  - intros c x h slack ns al Hwf Hns Ha Hl.
    destruct Hwf as [(cs & ca & ?) (ls & la & Hlw & Hli) (ss & ?) ? ? ? ? ? ? ? ? ? ? ? Hsz ?]. split; simpl; try assumption.
    + exists cs, ca. by apply namespace_wf_arena.
    + exists ns, al. split; [done|]. simpl. rewrite Hli. f_equal.
      eapply names_fun; [apply (ns_names _ _ _ _ _ _ (ns_ok_arena (nw_names _ _ _ _ _ _ _ _ Hlw) x)) |
        apply (ns_names _ _ _ _ _ _ (nw_names _ _ _ _ _ _ _ _ Hns))].
    + exists ss. by apply ns_ok_arena.
    + apply (sizes_wf_put c); try done. apply Hsz.
  - by intros ? [] ? ?.
  - by intros [].
  - done.
  - done.
  - intros c id. unfold label_name. rewrite tget_fmap. by destruct (tget (labels c) id).
  - done.
  - intros. by eapply fact_at_arena.
  - done.
Defined.

Definition add_concept_alias `{UnicodeTables} := add_space_alias concept_space.
Definition add_label_alias `{UnicodeTables} := add_space_alias label_space.
Definition remove_concept_alias `{UnicodeTables} := remove_space_alias concept_space.
Definition remove_label_alias `{UnicodeTables} := remove_space_alias label_space.

(** * Aliases are correct *)

Lemma alias_position_spec arena aliases al s i :
  Forall2 (fun r n => name_at arena (a_name_offset r) (a_name_len r) = Some n) aliases al -> NoDup al ->
  exists r, alias_position arena aliases s i = Some r /\
    match r with
    | Some k => exists j, k = (i + j)%nat /\ al !! j = Some s
    | None => s ∉ al
    end.
Proof.
  intros Hn. revert i. induction Hn as [|r n aliases al Hr Hn IH]; intros i Hnd; simpl.
  - exists None. split; [done | apply not_elem_of_nil].
  - apply NoDup_cons in Hnd as [_ Hnd]. rewrite Hr. simpl. case_bool_decide as Hs.
    + exists (Some i). split; [done|]. exists 0%nat. subst. split; [lia | done].
    + destruct (IH (S i) Hnd) as (k & Hk & Hspec). exists k. split; [done|]. destruct k as [k|].
      * destruct Hspec as (j & -> & ?). exists (S j). split; [lia | done].
      * intros [?|?]%elem_of_cons; [by subst | done].
Qed.

Section push_names.
Context `{UnicodeTables}.

Lemma push_names_spec arena entries names idx :
  Forall2 (fun e n => name_at arena e.1.1 e.1.2 = Some n) entries names ->
  ei_ok idx -> lenN (ei_spans idx) + lenN entries <= NIL ->
  exists idx', push_names arena entries idx = Some idx' /\ ei_ok idx' /\
    ei_entries idx' = ei_entries idx ++ (prod_map normalize id <$> zip names entries.*2).
Proof.
  intros Hn. revert idx. induction Hn as [|[r id] n entries names Hr Hn IH]; intros idx Hwf Hlen.
  - exists idx. simpl. by rewrite app_nil_r.
  - simpl in *. rewrite Hr. simpl. assert (Hl : lenN ((r, id) :: entries) = 1 + lenN entries) by (unfold lenN; simpl; lia).
    destruct (ei_push_total idx n id) as [idx1 Hp]; [lia|]. rewrite Hp. simpl.
    destruct (ei_push_ok _ _ _ _ Hwf Hp) as (Hwf1 & He1 & Hs1).
    destruct (IH idx1 Hwf1 ltac:(lia)) as (idx' & Hrun & Hwf' & He'). exists idx'. split; [done|]. split; [done|].
    rewrite He', He1, <- app_assoc. done.
Qed.
End push_names.

Lemma zip_names arena (recs : list name_range) ns :
  Forall2 (fun r n => name_at arena r.1 r.2 = Some n) recs ns ->
  Forall2 (fun e n => name_at arena e.1.1 e.1.2 = Some n) (zip recs (indices recs)) ns.
Proof.
  intros Hn. apply Forall2_same_length_lookup_2.
  { rewrite length_zip_with_l_eq by (symmetry; apply indices_length). by eapply Forall2_length. }
  intros i [r k] n Hi Hns. apply lookup_zip_with_Some in Hi as (r' & k' & [= <- <-] & Hr & _).
  destruct (Forall2_lookup_r _ _ _ _ _ Hn Hns) as (r0 & Hr0 & ?). by simplify_eq.
Qed.

Section alias.
Context `{UnicodeTables} (S : AliasSpace).
Implicit Types c : Context.

Abbreviation ids c := (an_ids (as_handle c)).

(** The names of an arena are a function of its tables. *)
Lemma ns_ok_fun arena recs aliases ids ids' ns al ns' al' :
  ns_ok arena recs aliases ids ns al -> ns_ok arena recs aliases ids' ns' al' ->
  ids = ids' /\ ns = ns' /\ al = al'.
Proof.
  intros [N1 A1 _ _ ->] [N2 A2 _ _ ->]. rewrite (names_fun _ _ _ _ N1 N2).
  assert (al = al') as ->.
  { apply (names_fun arena (fst <$> aliases)); by apply Forall2_fmap_l. }
  done.
Qed.

Lemma alias_ranges arena aliases al :
  Forall2 (fun r n => name_at arena r.1.1 r.1.2 = Some n) (a_entry <$> aliases) al ->
  Forall2 (fun r n => name_at arena (a_name_offset r) (a_name_len r) = Some n) aliases al.
Proof. by rewrite Forall2_fmap_l. Qed.

Lemma as_put_wf_same c h slack ns al : wf c ->
  namespace_wf (arena c) (as_records c) (a_entry <$> an_aliases h) (an_ids h) (an_alias_index h) (an_index h) ns al ->
  lenN (an_aliases h) <= NIL -> wf (as_put (arena c) h slack c).
Proof.
  intros Hwf Hns Hl. rewrite <- (app_nil_r (arena c)). eapply as_wf_put; [done| |rewrite app_nil_r; apply Hwf|done].
  rewrite app_nil_r. done.
Qed.

(** ** Adding *)

Lemma add_space_alias_cases alias canonical c :
  wf c -> utf8_valid alias = true -> lenN (ei_spans (an_index (as_handle c))) < NIL ->
  exists r c', add_space_alias S alias canonical c = Some (r, c') /\ wf c' /\
    as_records c' = as_records c /\
    match ids c !! canonical, ids c !! alias with
    | None, _ => r = Err UnknownCanonical /\ c' = c
    | Some t, Some t' => r = (if t' =? t then Ok tt else Err Conflict) /\ c' = c
    | Some t, None =>
      if lenN (an_aliases (as_handle c)) =? NIL then r = Err (Full as_full) /\ c' = c
      else if U32_MAX <? lenN (arena c) + lenN alias then r = Err (Full full_arena) /\ c' = c
      else r = Ok tt /\ ids c' = <[alias := t]> (ids c) /\
        an_alias_index (as_handle c') = <[alias := t]> (an_alias_index (as_handle c)) /\
        (forall fs, facts c = Some fs -> facts c' = Some fs)
    end.
Proof.
  intros Hwf Hv Hroom. unfold add_space_alias, add_alias. destruct (as_wf c Hwf) as (ns & al & Hns).
  pose proof (as_size c Hwf) as Hsz.
  destruct (ids c !! canonical) as [t|] eqn:Ht; simpl;
    [|exists (Err UnknownCanonical), c; by rewrite as_put_id].
  destruct (ids c !! alias) as [t'|] eqn:Ht'.
  { destruct (t' =? t); simpl; eexists _, c; by rewrite as_put_id. }
  unfold ids_left. destruct (N.eqb_spec (lenN (an_aliases (as_handle c))) NIL) as [Hfull|Hfull].
  { rewrite Hfull, N.sub_diag. simpl. eexists _, c. by rewrite as_put_id. }
  destruct (N.leb_spec 1 (NIL - lenN (an_aliases (as_handle c)))); [|lia]. simpl.
  pose proof (arena_fits_spec (lenN (arena c)) (lenN alias)) as Hfit.
  destruct (N.ltb_spec U32_MAX (lenN (arena c) + lenN alias)) as [Hbig|Hbig].
  { destruct (arena_fits _ _); [naive_solver lia|]. simpl. eexists _, c. by rewrite as_put_id. }
  rewrite (proj2 Hfit) by done. simpl. rewrite intern_name_Some by done. simpl.
  destruct (ei_push_total (an_index (as_handle c)) alias t Hroom) as [idx Hp]. rewrite Hp. simpl.
  set (h' := {| an_aliases := _; an_index := _; an_ids := _; an_alias_index := _ |}).
  exists (Ok tt), (as_put (arena c ++ alias) h' (arena_slack c) c). split; [done|].
  assert (Htl : t < lenN (as_records c)) by (by apply (ns_lookup_lt (nw_names _ _ _ _ _ _ _ _ Hns)) in Ht).
  split; [|rewrite !as_put_handle, as_put_records; split; [done|]; split; [done|]; split; [done|]; split; [done|]].
  - apply as_wf_put with ns (al ++ [alias]); [done | | by rewrite lenN_app | unfold h'; simpl; apply lenN_le_snoc; lia].
    unfold h'. simpl. rewrite fmap_app. by eapply namespace_wf_alias.
  - intros fs Hfs. apply facts_lookup in Hfs as [Hlen Hget]. apply facts_intro; [by rewrite as_put_edges|].
    intros i f Hi. apply as_put_facts. rewrite <- Hget; [done|]. rewrite <- Hlen. by eapply tget_Some_lt.
Qed.

(** The entry index holds one span per record and per alias. *)
Lemma space_spans c : wf c ->
  lenN (ei_spans (an_index (as_handle c))) = lenN (as_records c) + N.of_nat (size (an_alias_index (as_handle c))) /\
  lenN (an_aliases (as_handle c)) = N.of_nat (size (an_alias_index (as_handle c))).
Proof.
  intros Hwf. destruct (as_wf c Hwf) as (ns & al & [Hn Hai [_ He]]). pose proof (ns_al_length Hn) as Hal.
  pose proof (ns_unique _ _ _ _ _ _ Hn) as Hu. apply NoDup_app in Hu as (_ & _ & Hnd).
  assert (Hz : length (zip al (a_entry <$> an_aliases (as_handle c)).*2) = length al)
    by (rewrite length_zip_with_l_eq; done).
  assert (Hsize : size (an_alias_index (as_handle c)) = length al).
  { rewrite Hai, <- length_map_to_list, map_to_list_to_map; [done|]. rewrite fst_zip; [done | lia]. }
  apply Permutation_length in He. unfold ei_entries in He. rewrite !length_fmap in He.
  unfold spellings in He. rewrite length_app, Hz, length_zip_with_l_eq in He by (symmetry; apply indices_length).
  rewrite (ns_length Hn) in He. rewrite !length_fmap in Hal. unfold lenN. split; [lia|]. lia.
Qed.

(** ** Removing *)

Lemma alias_map_delete (al : list name) (ts : list N) j s :
  length al = length ts -> al !! j = Some s -> NoDup al ->
  (list_to_map (zip (delete j al) (delete j ts)) : gmap name N) = delete s (list_to_map (zip al ts)).
Proof.
  intros Hlen Hs Hnd. destruct (lookup_lt_is_Some_2 ts j) as [t Ht]; [apply lookup_lt_Some in Hs; lia|].
  assert (Hp : zip al ts ≡ₚ (s, t) :: zip (delete j al) (delete j ts)).
  { rewrite zip_delete. apply delete_Permutation. rewrite lookup_zip_with, Hs. simpl. by rewrite Ht. }
  assert (Hk : NoDup (zip al ts).*1) by (rewrite fst_zip; [done | lia]).
  rewrite (list_to_map_proper _ _ Hk Hp). simpl. symmetry. apply delete_insert_id.
  apply not_elem_of_list_to_map_1. rewrite Hp in Hk. by apply NoDup_cons in Hk as [? _].
Qed.

Lemma alias_index_lookup (al : list name) (ts : list N) s : NoDup al -> length al = length ts ->
  forall t, (list_to_map (zip al ts) : gmap name N) !! s = Some t <->
    exists j, al !! j = Some s /\ ts !! j = Some t.
Proof.
  intros Hnd Hlen t. rewrite <- elem_of_list_to_map by (rewrite fst_zip; [done | lia]).
  rewrite list_elem_of_lookup. setoid_rewrite lookup_zip_with_Some. naive_solver.
Qed.

Lemma remove_space_alias_cases alias c :
  wf c -> lenN (as_records c) + lenN (an_aliases (as_handle c)) <= NIL ->
  exists r c', remove_space_alias S alias c = Some (r, c') /\ wf c' /\
    match an_alias_index (as_handle c) !! alias with
    | None => r = None /\ c' = c
    | Some t => r = as_name c t /\ is_Some r /\ ids c' = delete alias (ids c) /\
      an_alias_index (as_handle c') = delete alias (an_alias_index (as_handle c)) /\
      arena_slack c' = arena_slack c + lenN alias /\
      (forall fs, facts c = Some fs -> facts c' = Some fs)
    end.
Proof.
  intros Hwf Hroom. destruct (as_wf c Hwf) as (ns & al & [Hn Hai He]).
  pose proof (alias_ranges _ _ _ (ns_aliases _ _ _ _ _ _ Hn)) as Hal. pose proof (ns_al_length Hn) as Hlen.
  pose proof (ns_unique _ _ _ _ _ _ Hn) as Hu. apply NoDup_app in Hu as (_ & _ & Hnd).
  destruct (alias_position_spec (arena c) _ al alias 0 Hal Hnd) as (r & Hr & Hspec).
  unfold remove_space_alias. rewrite Hr. simpl. destruct r as [k|].
  - destruct Hspec as (j & Hj & Hs). simpl in Hj. subst k.
    destruct (Forall2_lookup_r _ _ _ _ _ Hal Hs) as (rec & Hrec & Hname). rewrite Hrec. simpl.
    assert (Hi : an_alias_index (as_handle c) !! alias = Some (a_target rec)).
    { rewrite Hai. apply alias_index_lookup; [done | done|]. exists j. split; [done|].
      by rewrite !list_lookup_fmap, Hrec. }
    rewrite Hi. pose proof (ns_ok_remove _ _ _ _ _ _ _ _ Hn Hs) as Hn'.
    assert (Hdel : a_entry <$> delete j (an_aliases (as_handle c)) = delete j (a_entry <$> an_aliases (as_handle c)))
      by by rewrite !delete_take_drop, fmap_app, fmap_take, fmap_drop.
    assert (Hdel2 : (delete j (a_entry <$> an_aliases (as_handle c))).*2 = delete j (a_entry <$> an_aliases (as_handle c)).*2)
      by by rewrite !delete_take_drop, fmap_app, fmap_take, fmap_drop.
    pose proof (lookup_lt_Some _ _ _ Hrec) as Hlt.
    assert (HlenD : lenN (delete j (an_aliases (as_handle c))) + 1 = lenN (an_aliases (as_handle c))).
    { unfold lenN. rewrite length_delete by done. lia. }
    set (entries := zip (as_records c) (indices (as_records c)) ++ (a_entry <$> delete j (an_aliases (as_handle c)))).
    assert (HentL : lenN entries <= NIL).
    { unfold entries. rewrite lenN_app, lenN_fmap. unfold lenN at 1.
      rewrite length_zip_with_l_eq by (symmetry; apply indices_length). fold (lenN (as_records c)). lia. }
    destruct (push_names_spec (arena c) entries (ns ++ delete j al) EntryIndex_default) as (idx & Hidx & Hwi & Hei).
    { unfold entries. apply Forall2_app; [|rewrite Hdel; apply (ns_aliases _ _ _ _ _ _ Hn')].
      apply zip_names. apply (ns_names _ _ _ _ _ _ Hn). }
    { apply ei_ok_default. } { done. }
    unfold rebuild_index. fold entries. rewrite Hidx. simpl.
    set (h' := {| an_aliases := _; an_index := _; an_ids := _; an_alias_index := _ |}).
    assert (Htn : exists n, as_name c (a_target rec) = Some n).
    { rewrite as_name_spec. pose proof (ns_targets _ _ _ _ _ _ Hn) as Hts.
      eapply Forall_lookup_1 in Hts; [|by rewrite list_lookup_fmap, Hrec]. simpl in Hts.
      apply tget_lt in Hts as [r Htr]. rewrite Htr. destruct (ns_name_at Hn _ _ Htr) as (n & Hn0 & _). eauto. }
    destruct Htn as [n Htn].
    assert (Hput : as_name (as_put (arena c) h' (arena_slack c + a_name_len rec) c) (a_target rec) = Some n).
    { rewrite <- Htn, !as_name_spec, as_put_records. by rewrite as_put_arena. }
    rewrite Hput. simpl. exists (Some n), (as_put (arena c) h' (arena_slack c + a_name_len rec) c).
    split; [done|]. rewrite !as_put_handle, as_put_slack. split; [|split; [done|]; split; [done|]; split; [done|]; split; [done|]; split].
    + eapply (as_put_wf_same c h' _ ns (delete j al) Hwf); [|unfold h'; simpl; pose proof (as_size c Hwf); lia].
      unfold h'. simpl. split.
      * by rewrite Hdel.
      * rewrite Hdel, Hdel2, Hai. symmetry. by apply alias_map_delete.
      * split; [done|]. rewrite Hei. unfold ei_entries, EntryIndex_default. simpl. unfold spellings, entries.
        rewrite fmap_app, zip_with_app by (rewrite length_fmap, length_zip_with_l_eq by (symmetry; apply indices_length); by rewrite (ns_length Hn)).
        rewrite snd_zip by (rewrite indices_length; lia). by rewrite (indices_same_length ns _ (ns_length Hn)).
    + f_equal. by apply name_at_valid in Hname as [_ <-].
    + intros fs Hfs. apply facts_lookup in Hfs as [Hfl Hget]. apply facts_intro; [by rewrite as_put_edges|].
      intros i f Hif. rewrite <- (app_nil_r (arena c)). apply as_put_facts. rewrite <- Hget; [done|]. rewrite <- Hfl. by eapply tget_Some_lt.
  - exists None, c. split; [done|]. split; [done|].
    destruct (an_alias_index (as_handle c) !! alias) as [t|] eqn:Ht; [|done]. exfalso. apply Hspec.
    rewrite Hai in Ht. apply alias_index_lookup in Ht as (j & Hj & _); [|done|done]. by eapply list_elem_of_lookup_2.
Qed.
End alias.
