(* ===== verification/AliasClaims.v ===== *)
(** * What the aliases promise: prediction, outcomes, pages

    First [check_aliases].  The pre-flight check runs the registration on an overlay of the lookup map;
    it answers what the writes would answer, capacity aside. *)

From S2P Require Export Alias.

Local Open Scope N_scope.

Inductive SimTarget := Existing (id : N) | Fresh (n : nat).

#[export] Instance SimTarget_eq_dec : EqDecision SimTarget.
Proof. solve_decision. Defined.

(** The names the batch would intern, numbered in order of first appearance. *)
Definition seed_name (ids : gmap name N) (st : gmap name SimTarget * nat) (n : name)
    : gmap name SimTarget * nat :=
  let '(overlay, next_fresh) := st in
  if bool_decide (ids !! n = None) && bool_decide (overlay !! n = None)
  then (<[n := Fresh next_fresh]> overlay, S next_fresh) else st.

Definition resolve_sim (ids : gmap name N) (overlay : gmap name SimTarget) (n : name) : option SimTarget :=
  match overlay !! n with Some t => Some t | None => Existing <$> ids !! n end.

Fixpoint check_alias_list (ids : gmap name N) (overlay : gmap name SimTarget) (aliases : list (name * name))
    : result unit (name * name * AliasError) :=
  match aliases with
  | [] => Ok tt
  | (alias, canonical) :: aliases =>
    match resolve_sim ids overlay canonical with
    | None => Err (alias, canonical, UnknownCanonical)
    | Some target =>
      match resolve_sim ids overlay alias with
      | Some existing =>
        if decide (existing = target) then check_alias_list ids overlay aliases
        else Err (alias, canonical, Conflict)
      | None => check_alias_list ids (<[alias := target]> overlay) aliases
      end
    end
  end.

Definition check_aliases (ids : gmap name N) (aliases : gmap name name) (fresh : list name)
    : result unit (name * name * AliasError) :=
  let '(overlay, _) := foldl (seed_name ids) (∅, 0%nat) fresh in
  check_alias_list ids overlay (btree_iter aliases).

Definition check_concept_aliases (c : Context) := check_aliases (concept_ids c).
Definition check_label_aliases (c : Context) := check_aliases (label_ids c).

(** The writes the check predicts: key order, stopping at the first refusal. *)
Fixpoint apply_aliases `{UnicodeTables} (S : AliasSpace) (aliases : list (name * name)) (c : Context)
    : option (result unit (name * name * AliasError) * Context) :=
  match aliases with
  | [] => Some (Ok tt, c)
  | (alias, canonical) :: aliases =>
    '(r, c) ← add_space_alias S alias canonical c;
    match r with
    | Ok _ => apply_aliases S aliases c
    | Err e => Some (Err (alias, canonical, e), c)
    end
  end.

Definition is_full (e : AliasError) : bool := match e with Full _ => true | _ => false end.

Section check.
Context (ids : gmap name N) (fresh : list name).

Lemma seed_spec : exists fl, NoDup fl /\
  (foldl (seed_name ids) (∅, 0%nat) fresh).2 = length fl /\
  (forall n, n ∈ fl <-> n ∈ fresh /\ ids !! n = None) /\
  forall n t, (foldl (seed_name ids) (∅, 0%nat) fresh).1 !! n = Some t <->
    exists k, t = Fresh k /\ fl !! k = Some n.
Proof.
  induction fresh as [|n fr IH] using rev_ind.
  - exists []. split; [constructor|]. split; [done|]. split; [set_solver|].
    intros n t. simpl. rewrite lookup_empty. split; [done | by intros (? & _ & ?)].
  - destruct IH as (fl & Hnd & Hlen & Hin & Hov). rewrite foldl_app. simpl.
    destruct (foldl (seed_name ids) (∅, 0%nat) fr) as [ov k]; simpl in *. subst k.
    destruct (bool_decide (ids !! n = None)) eqn:Hi; simpl.
    2: { apply bool_decide_eq_false in Hi. exists fl. split; [done|]. split; [done|]. split; [set_solver | done]. }
    apply bool_decide_eq_true in Hi. case_bool_decide as Ho; simpl.
    + exists (fl ++ [n]). assert (Hn : n ∉ fl).
      { intros (k & Hk)%list_elem_of_lookup. assert (ov !! n = Some (Fresh k)) by (apply Hov; eauto). congruence. }
      split; [|split; [rewrite length_app; simpl; lia|split]].
      * apply NoDup_app. split; [done|]. split; [set_solver | apply NoDup_singleton].
      * set_solver.
      * intros m t. rewrite lookup_insert_Some, Hov. split.
        -- intros [[<- <-]|[Hne (k & -> & Hk)]].
           ++ exists (length fl). split; [done|]. by rewrite lookup_app_r, Nat.sub_diag.
           ++ exists k. split; [done|]. rewrite lookup_app_l; [done|]. by eapply lookup_lt_Some.
        -- intros (k & -> & [Hk|[Hge Hk]]%lookup_app_Some).
           ++ right. split; [|eauto]. intros ->. apply Hn. by eapply list_elem_of_lookup_2.
           ++ destruct (k - length fl)%nat eqn:E; simplify_eq/=. left. split; [done|]. f_equal. lia.
    + exists fl. split; [done|]. split; [done|]. split; [|done]. intros m. rewrite Hin.
      destruct (ov !! n) as [t|] eqn:Ht; [|done]. apply Hov in Ht as (k & _ & Hk).
      apply list_elem_of_lookup_2, Hin in Hk. set_solver.
Qed.

(** The batch has been applied: its fresh names are interned, each under an id
    of its own, and nothing else changed. *)
Record interned (ids1 : gmap name N) : Prop := {
  in_old : ids ⊆ ids1;
  in_new : forall n, ids !! n = None -> (is_Some (ids1 !! n) <-> n ∈ fresh);
  in_own : forall n m i, ids !! n = None -> ids1 !! n = Some i -> ids1 !! m = Some i -> n = m
}.

Definition denote (ids1 : gmap name N) (fl : list name) (t : SimTarget) : N :=
  match t with Existing i => i | Fresh k => default 0 (n ← fl !! k; ids1 !! n) end.
End check.

Lemma interned_refl ids : interned ids [] ids.
Proof.
  split; [done| |congruence]. intros n ->. split; [by intros [? ?] | by intros ?%elem_of_nil].
Qed.

Section predict.
Context `{UnicodeTables} (S : AliasSpace).
Context (ids : gmap name N) (D : SimTarget -> N) (P : SimTarget -> Prop).
Context (D_inj : forall x y, P x -> P y -> D x = D y -> x = y).

(** The overlay describes the live lookup map. *)
Definition tracks (overlay : gmap name SimTarget) (c : Context) : Prop :=
  (forall n, an_ids (as_handle c) !! n = D <$> resolve_sim ids overlay n) /\
  (forall n t, resolve_sim ids overlay n = Some t -> P t).

Lemma tracks_insert overlay c c' alias t :
  tracks overlay c -> P t -> an_ids (as_handle c') = <[alias := D t]> (an_ids (as_handle c)) ->
  tracks (<[alias := t]> overlay) c'.
Proof using Type.
  intros [HD HP] Ht Hids. split.
  - intros n. rewrite Hids. unfold resolve_sim. destruct (decide (n = alias)) as [->|Hne].
    + by rewrite !lookup_insert_eq.
    + rewrite !lookup_insert_ne by done. apply HD.
  - intros n t'. unfold resolve_sim. destruct (decide (n = alias)) as [->|Hne].
    + rewrite lookup_insert_eq. by intros [= <-].
    + rewrite lookup_insert_ne by done. apply HP.
Qed.

Lemma check_alias_list_sound l overlay c r c' :
  tracks overlay c -> wf c -> Forall (fun p => utf8_valid p.1 = true) l ->
  lenN (as_records c) + N.of_nat (size (an_alias_index (as_handle c))) + lenN l <= NIL ->
  apply_aliases S l c = Some (r, c') ->
  r = check_alias_list ids overlay l \/ exists a b e, r = Err (a, b, e) /\ is_full e = true.
Proof using D_inj.
  revert overlay c. induction l as [|[alias canonical] l IH]; intros overlay c Htr Hwf Hv Hroom; simpl.
  { intros [= <- _]. by left. }
  apply Forall_cons in Hv as [Hva Hv]. simpl in Hva. destruct (space_spans S c Hwf) as [Hsp _].
  assert (Hl : lenN ((alias, canonical) :: l) = 1 + lenN l) by (unfold lenN; simpl; lia). rewrite Hl in Hroom.
  destruct (add_space_alias_cases S alias canonical c Hwf Hva) as (r1 & c1 & Hadd & Hwf1 & Hrec & Hcase); [lia|].
  rewrite Hadd. simpl. pose proof Htr as [HD HP]. rewrite !HD in Hcase.
  destruct (resolve_sim ids overlay canonical) as [t|] eqn:Et; simpl in Hcase.
  2: { destruct Hcase as [-> ->]. intros [= <- _]. by left. }
  destruct (resolve_sim ids overlay alias) as [t'|] eqn:Et'; simpl in Hcase.
  { destruct Hcase as [-> ->]. destruct (N.eqb_spec (D t') (D t)) as [Heq|Hne].
    - apply D_inj in Heq; [|by eapply HP..]. subst t'. rewrite decide_True by done.
      apply IH; try done. lia.
    - rewrite decide_False by congruence. intros [= <- _]. by left. }
  destruct (_ =? NIL); [destruct Hcase as [-> ->]; intros [= <- _]; right; eauto 6|].
  destruct (U32_MAX <? _); [destruct Hcase as [-> ->]; intros [= <- _]; right; eauto 6|].
  destruct Hcase as (-> & Hids & Hai & _). apply IH; [|done|done|].
  - eapply tracks_insert; [done | by eapply HP | done].
  - rewrite Hrec, Hai, map_size_insert. case_match; unfold id; lia.
Qed.
End predict.

Lemma denote_inj ids fresh ids1 fl :
  interned ids fresh ids1 -> NoDup fl -> (forall n, n ∈ fl <-> n ∈ fresh /\ ids !! n = None) ->
  let P t := match t with Existing i => exists n, ids !! n = Some i | Fresh k => (k < length fl)%nat end in
  forall x y, P x -> P y -> denote ids1 fl x = denote ids1 fl y -> x = y.
Proof.
  intros [Hold Hnew Hown] Hnd Hin P.
  assert (Hfr : forall k, (k < length fl)%nat -> exists n i, fl !! k = Some n /\ ids !! n = None /\
    ids1 !! n = Some i /\ denote ids1 fl (Fresh k) = i).
  { intros k [n Hn]%lookup_lt_is_Some_2. pose proof (list_elem_of_lookup_2 _ _ _ Hn) as [Hf Hi]%Hin.
    destruct (proj2 (Hnew n Hi) Hf) as [i Hi1]. exists n, i. simpl. rewrite Hn. simpl. by rewrite Hi1. }
  intros [i|k] [j|k'] Hx Hy Heq; simpl in Hx, Hy.
  - simpl in Heq. congruence.
  - destruct Hx as [n Hn]. destruct (Hfr k' Hy) as (m & i' & _ & Hm & Hm1 & Hd). rewrite Hd in Heq. simpl in Heq. subst i'.
    eapply lookup_weaken in Hn as Hn1; [|exact Hold]. rewrite (Hown m n i Hm Hm1 Hn1) in Hm. congruence.
  - destruct Hy as [n Hn]. destruct (Hfr k Hx) as (m & i' & _ & Hm & Hm1 & Hd). rewrite Hd in Heq. simpl in Heq. subst i'.
    eapply lookup_weaken in Hn as Hn1; [|exact Hold]. rewrite (Hown m n j Hm Hm1 Hn1) in Hm. congruence.
  - destruct (Hfr k Hx) as (n & i & Hk & Hn & Hn1 & Hd). destruct (Hfr k' Hy) as (m & i' & Hk' & Hm & Hm1 & Hd').
    rewrite Hd, Hd' in Heq. subst i'. rewrite (Hown n m i Hn Hn1 Hm1) in Hk. f_equal. by eapply NoDup_lookup.
Qed.

(** C7. The pre-flight check predicts the writes: once the batch's fresh names are
    interned, registering the aliases in key order answers exactly what
    [check_aliases] answered on the map from before, unless a table or the arena
    is full. *)
Theorem check_aliases_predicts `{UnicodeTables} (S : AliasSpace) ids fresh aliases c r c'
    (Hint : interned ids fresh (an_ids (as_handle c))) (Hwf : wf c)
    (Hv : Forall (fun p => utf8_valid p.1 = true) (btree_iter aliases))
    (Hroom : lenN (as_records c) + N.of_nat (size (an_alias_index (as_handle c))) +
             lenN (btree_iter aliases) <= NIL)
    (Hrun : apply_aliases S (btree_iter aliases) c = Some (r, c')) :
  r = check_aliases ids aliases fresh \/ exists a b e, r = Err (a, b, e) /\ is_full e = true.
Proof.
  unfold check_aliases. destruct (seed_spec ids fresh) as (fl & Hnd & _ & Hin & Hov).
  destruct (foldl (seed_name ids) (∅, 0%nat) fresh) as [overlay k]. simpl in Hov.
  eapply check_alias_list_sound; [by apply (denote_inj ids fresh (an_ids (as_handle c)) fl) | | done | done | done | done].
  split.
  - intros n. unfold resolve_sim. destruct (overlay !! n) as [t|] eqn:Ht.
    + apply Hov in Ht as (j & -> & Hj). simpl. rewrite Hj. simpl.
      apply list_elem_of_lookup_2, Hin in Hj as [Hf Hi]. by destruct (proj2 (in_new _ _ _ Hint n Hi) Hf) as [i ->].
    + destruct (ids !! n) as [i|] eqn:Hi; simpl; [eapply lookup_weaken; [done | apply Hint]|].
      destruct (an_ids (as_handle c) !! n) eqn:E; [|done]. exfalso.
      assert (Hf : n ∈ fl) by (apply Hin; split; [apply (in_new _ _ _ Hint n Hi); eauto | done]).
      apply list_elem_of_lookup in Hf as [j Hj]. assert (overlay !! n = Some (Fresh j)) by (apply Hov; eauto). congruence.
  - intros n t. unfold resolve_sim. destruct (overlay !! n) as [t'|] eqn:Ht.
    + apply Hov in Ht as (j & -> & Hj). intros [= <-]. by eapply lookup_lt_Some.
    + destruct (ids !! n) eqn:Hi; simpl; [intros [= <-]; eauto | done].
Qed.

(** * Aliases: the contract *)

(** C5. Registering an alias never panics below the entry-index ceiling and keeps
    the invariant; every branch answers as documented: an unresolved canonical
    and a spelling taken by another record are refused, the same target again is
    a no-op, a full table or arena changes nothing, and otherwise exactly the new
    spelling resolves to the canonical's record, with every fact unchanged. *)
Theorem add_alias_outcomes `{UnicodeTables} (S : AliasSpace) alias canonical c
    (Hwf : wf c) (Hv : utf8_valid alias = true) (Hroom : lenN (ei_spans (an_index (as_handle c))) < NIL) :
  exists r c', add_space_alias S alias canonical c = Some (r, c') /\ wf c' /\
    as_records c' = as_records c /\
    match an_ids (as_handle c) !! canonical, an_ids (as_handle c) !! alias with
    | None, _ => r = Err UnknownCanonical /\ c' = c
    | Some t, Some t' => r = (if t' =? t then Ok tt else Err Conflict) /\ c' = c
    | Some t, None =>
      if lenN (an_aliases (as_handle c)) =? NIL then r = Err (Full as_full) /\ c' = c
      else if U32_MAX <? lenN (arena c) + lenN alias then r = Err (Full full_arena) /\ c' = c
      else r = Ok tt /\ an_ids (as_handle c') = <[alias := t]> (an_ids (as_handle c)) /\
        an_alias_index (as_handle c') = <[alias := t]> (an_alias_index (as_handle c)) /\
        (forall fs, facts c = Some fs -> facts c' = Some fs)
    end.
Proof. by apply add_space_alias_cases. Qed.

Lemma add_alias_outcomes_witness :
  exists r c', @add_concept_alias ascii_tables (str "feline") (str "cat") sample = Some (r, c') /\
    @wf ascii_tables c' /\ r = Ok tt /\ concept_ids c' = <[str "feline" := 0]> (concept_ids sample).
Proof.
  pose proof (@add_alias_outcomes ascii_tables (@concept_space ascii_tables) (str "feline") (str "cat") sample
    sample_wf ltac:(vm_compute; reflexivity) ltac:(vm_compute; reflexivity)) as Ha.
  assert (E1 : an_ids (@as_handle _ (@concept_space ascii_tables) sample) !! str "cat" = Some 0) by (vm_compute; reflexivity).
  assert (E2 : an_ids (@as_handle _ (@concept_space ascii_tables) sample) !! str "feline" = None) by (vm_compute; reflexivity).
  assert (E3 : lenN (an_aliases (@as_handle _ (@concept_space ascii_tables) sample)) =? NIL = false) by (vm_compute; reflexivity).
  assert (E4 : U32_MAX <? lenN (arena sample) + lenN (str "feline") = false) by (vm_compute; reflexivity).
  rewrite E1, E2, E3, E4 in Ha. destruct Ha as (r & c' & H1 & H2 & _ & H3 & H4 & _).
  exists r, c'. split; [exact H1|]. split; [exact H2|]. split; [exact H3 | exact H4].
Defined.

(** C6. Removing an alias undoes exactly that spelling: it answers the canonical
    name, the spelling stops resolving and leaves the sorted index, its bytes are
    counted as slack, facts stay and the rebuilt index keeps the invariant; a
    spelling that is not an alias, a canonical name included, changes nothing. *)
Theorem remove_alias_outcomes `{UnicodeTables} (S : AliasSpace) alias c
    (Hwf : wf c) (Hroom : lenN (as_records c) + lenN (an_aliases (as_handle c)) <= NIL) :
  (forall id, as_name c id = Some alias -> remove_space_alias S alias c = Some (None, c)) /\
  exists r c', remove_space_alias S alias c = Some (r, c') /\ wf c' /\
    match an_alias_index (as_handle c) !! alias with
    | None => r = None /\ c' = c
    | Some t => r = as_name c t /\ is_Some r /\
      an_ids (as_handle c') = delete alias (an_ids (as_handle c)) /\
      an_alias_index (as_handle c') = delete alias (an_alias_index (as_handle c)) /\
      arena_slack c' = arena_slack c + lenN alias /\
      (forall fs, facts c = Some fs -> facts c' = Some fs)
    end.
Proof.
  split; [|by apply remove_space_alias_cases]. intros id Hid.
  destruct (remove_space_alias_cases S alias c Hwf Hroom) as (r & c' & Hrun & _ & Hcase).
  destruct (an_alias_index (as_handle c) !! alias) as [t|] eqn:Ht; [|by destruct Hcase as [-> ->]].
  exfalso. destruct (as_wf c Hwf) as (ns & al & [Hn Hai _]). pose proof (ns_unique _ _ _ _ _ _ Hn) as Hu.
  apply NoDup_app in Hu as (_ & Hdis & Hnd). rewrite Hai in Ht.
  apply alias_index_lookup in Ht as (j & Hj & _); [|done | by apply (ns_al_length Hn)].
  rewrite as_name_spec in Hid. destruct (tget (as_records c) id) as [rg|] eqn:Hr; simpl in Hid; [|done].
  destruct (ns_name_at Hn _ _ Hr) as (n & Hn' & Hni). rewrite Hid in Hn'. injection Hn' as <-.
  apply (Hdis alias); [|by eapply list_elem_of_lookup_2]. rewrite tget_lookup in Hni. by eapply list_elem_of_lookup_2.
Qed.

(** Registrations on the sample, by evaluation: [true] is the label namespace. *)
Fixpoint run_aliases `{UnicodeTables} (l : list (bool * name * name)) (c : Context) : option Context :=
  match l with
  | [] => Some c
  | (is_label, alias, canonical) :: l =>
    let S := if is_label : bool then label_space else concept_space in
    if utf8_valid alias && (lenN (ei_spans (an_index (@as_handle _ S c))) <? NIL) then
      match add_space_alias S alias canonical c with
      | Some (Ok _, c) => run_aliases l c
      | _ => None
      end
    else None
  end.

Lemma run_aliases_wf `{UnicodeTables} l c c' : wf c -> run_aliases l c = Some c' -> wf c'.
Proof.
  revert c. induction l as [|[[b alias] canonical] l IH]; intros c Hwf; simpl; [by intros [= <-]|].
  set (S := if b then label_space else concept_space).
  destruct (utf8_valid alias && _) eqn:Hb; [|done]. apply andb_true_iff in Hb as [Hv Hr%N.ltb_lt].
  destruct (add_space_alias_cases S alias canonical c Hwf Hv Hr) as (r & c1 & -> & Hwf1 & _).
  destruct r; [by apply IH | done].
Qed.

Definition sample_aliased : Context :=
  default sample (@run_aliases ascii_tables
    [(false, str "feline", str "cat"); (false, str "tom", str "feline"); (true, str "hunts", str "chases")] sample).

Lemma sample_aliased_wf : @wf ascii_tables sample_aliased.
Proof.
  apply (@run_aliases_wf ascii_tables
    [(false, str "feline", str "cat"); (false, str "tom", str "feline"); (true, str "hunts", str "chases")] sample);
    [exact sample_wf | apply succeeds_default; vm_compute; reflexivity].
Qed.

Lemma remove_alias_outcomes_witness :
  exists r c', @remove_concept_alias ascii_tables (str "tom") sample_aliased = Some (r, c') /\
    @wf ascii_tables c' /\ r = Some (str "cat") /\
    concept_ids c' = delete (str "tom") (concept_ids sample_aliased).
Proof.
  destruct (@remove_alias_outcomes ascii_tables (@concept_space ascii_tables) (str "tom") sample_aliased
    sample_aliased_wf ltac:(vm_compute; discriminate)) as [_ (r & c' & H1 & H2 & H3)].
  assert (E : an_alias_index (@as_handle _ (@concept_space ascii_tables) sample_aliased) !! str "tom" = Some 0)
    by (vm_compute; reflexivity).
  rewrite E in H3. destruct H3 as (H3 & _ & H4 & _).
  exists r, c'. split; [exact H1|]. split; [exact H2|]. split; [|exact H4].
  rewrite H3. vm_compute. reflexivity.
Defined.

(** Alias pages are a cursor over one fixed order: the first page starts the
    name order, a page after a key holds exactly the entries that follow it, and
    every page reports the namespace's full count. *)
Theorem alias_page_resumes `{UnicodeTables} (S : AliasSpace) c limit i p (Hwf : wf c)
    (Hi : btree_iter (an_alias_index (as_handle c)) !! i = Some p) :
  exists all, mapM (fun p => n ← as_name c p.2; Some (p.1, n)) (btree_iter (an_alias_index (as_handle c))) = Some all /\
    alias_page S None limit c = Some (alias_count S c, take limit all) /\
    alias_page S (Some p.1) limit c = Some (alias_count S c, take limit (drop (Datatypes.S i) all)).
Proof.
  destruct (as_wf c Hwf) as (ns & al & [Hn Hai _]).
  set (page p := n ← as_name c p.2; Some (p.1, n)).
  assert (Hall : exists all, mapM page (btree_iter (an_alias_index (as_handle c))) = Some all).
  { apply mapM_is_Some_2, Forall_forall. intros [a t] Ha%elem_of_btree_iter.
    pose proof (ns_unique _ _ _ _ _ _ Hn) as Hu. apply NoDup_app in Hu as (_ & _ & Hnd). rewrite Hai in Ha.
    apply alias_index_lookup in Ha as (j & _ & Hj); [|done | by apply (ns_al_length Hn)].
    apply list_lookup_fmap_Some in Hj as (r & -> & Hr). eapply Forall_lookup_1 in Hr; [|apply (ns_targets _ _ _ _ _ _ Hn)].
    simpl in Hr. apply tget_lt in Hr as [rg Hrg]. destruct (ns_name_at Hn _ _ Hrg) as (n & Hnm & _).
    unfold page. simpl. rewrite as_name_spec, Hrg. simpl. rewrite Hnm. simpl. eauto. }
  destruct Hall as [all Hall]. exists all. split; [done|].
  assert (Htake : forall k d, mapM page (take k (drop d (btree_iter (an_alias_index (as_handle c))))) = Some (take k (drop d all))).
  { intros k d. apply mapM_Some in Hall. apply mapM_Some. by apply Forall2_take, Forall2_drop. }
  unfold alias_page, alias_count. fold page. split.
  - change (btree_after None _) with (btree_iter (an_alias_index (as_handle c))).
    rewrite <- (drop_0 (btree_iter _)), Htake. simpl. by rewrite drop_0.
  - rewrite (btree_after_resume _ i p Hi), Htake. done.
Qed.

Lemma alias_page_resumes_witness :
  alias_page (@concept_space ascii_tables) (Some (str "feline")) 5 sample_aliased = Some (2, [(str "tom", str "cat")]).
Proof.
  destruct (@alias_page_resumes ascii_tables (@concept_space ascii_tables) sample_aliased 5 0 (str "feline", 0)
    sample_aliased_wf ltac:(vm_compute; reflexivity)) as (all & Hall & _ & Hpage).
  assert (E : mapM (fun p => n ← @as_name _ (@concept_space ascii_tables) sample_aliased p.2; Some (p.1, n))
    (btree_iter (an_alias_index (@as_handle _ (@concept_space ascii_tables) sample_aliased))) =
    Some [(str "feline", str "cat"); (str "tom", str "cat")]) by (vm_compute; reflexivity).
  rewrite E in Hall. injection Hall as <-.
  assert (En : alias_count (@concept_space ascii_tables) sample_aliased = 2) by (vm_compute; reflexivity).
  rewrite En in Hpage. exact Hpage.
Defined.

Lemma check_aliases_predicts_witness :
  exists r c', apply_aliases (@concept_space ascii_tables)
      (btree_iter (list_to_map [(str "kitty", str "feline"); (str "mouser", str "kitty")])) sample_aliased = Some (r, c') /\
    (r = check_aliases (concept_ids sample_aliased)
           (list_to_map [(str "kitty", str "feline"); (str "mouser", str "kitty")]) [] \/
     exists a b e, r = Err (a, b, e) /\ is_full e = true).
Proof.
  destruct (succeeds_Some (apply_aliases (@concept_space ascii_tables)
    (btree_iter (list_to_map [(str "kitty", str "feline"); (str "mouser", str "kitty")])) sample_aliased))
    as [[r c'] Hrun]; [vm_compute; reflexivity|]. exists r, c'. split; [exact Hrun|].
  eapply (@check_aliases_predicts ascii_tables (@concept_space ascii_tables) (concept_ids sample_aliased) []
    (list_to_map [(str "kitty", str "feline"); (str "mouser", str "kitty")]) sample_aliased).
  - apply interned_refl.
  - exact sample_aliased_wf.
  - apply (bool_decide_unpack _). vm_compute. exact I.
  - vm_compute. discriminate.
  - exact Hrun.
Defined.
