(* ===== verification/Query.v ===== *)
(** * Reads: lenses, recall, queries, descriptions
    ([src/context/query.rs], [src/context/window.rs])

    A lens says how a read sees an edge: whether it is there at all, what
    magnitude it conducts, how it materializes.  The plain reads use the full
    lens, the windowed reads the lens of a set of sources; every walk is written
    once, against the class. *)

From S2P Require Export Facts.

Local Open Scope N_scope.

(** ** Lenses *)

(** [trait EdgeLens]. *)
Class EdgeLens := {
  lens_alive : EdgeId -> EdgeRecord -> option bool;
  lens_magnitude : EdgeId -> EdgeRecord -> option f64;
  lens_association : EdgeId -> option Association
}.

Definition f64_magnitude (x : f64) : f64 := PrimFloat.abs x.

(** [FullLens]: every edge as stored, dead ones included. *)
Definition FullLens (c : Context) : EdgeLens := {|
  lens_alive := fun _ _ => Some true;
  lens_magnitude := fun _ edge => Some (f64_magnitude (e_sum edge));
  lens_association := association c
|}.

(** [SourceWindow]: the eligible sources, as interned ids. *)
Record SourceWindow := { eligible : gset SourceId }.

Definition source_window (c : Context) (names : list name) : SourceWindow :=
  {| eligible := list_to_set (omap (fun n => source_ids c !! n) names) |}.

(** One attribution of [windowed_totals]. *)
Definition window_step (window : SourceWindow) (acc : N * f64)
    (row : AttributionId * AttributionRecord) : N * f64 :=
  if decide (t_source row.2 ∈ eligible window)
  then (u64_add acc.1 (t_count row.2), accumulate_saturating acc.2 (t_sum row.2))
  else acc.

Definition windowed_totals (c : Context) (edge : EdgeRecord) (window : SourceWindow)
    : option (N * f64) :=
  chain ← attribution_chain c (e_first_attribution edge);
  Some (foldl (window_step window) (0, 0%float) chain).

Definition windowed_association (c : Context) (edge_id : EdgeId) (window : SourceWindow)
    : option Association :=
  edge ← tget (edges c) edge_id;
  '(count, sum) ← windowed_totals c edge window;
  subject ← concept_name c (e_subject edge);
  label ← label_name c (e_label edge);
  object ← concept_name c (e_object edge);
  chain ← attribution_chain c (e_first_attribution edge);
  attributions ← mapM (attribution_of c)
    (filter (fun row => t_source row.2 ∈ eligible window) chain);
  Some {| as_subject := subject; as_label := label; as_object := object;
          as_weight := edge_weight sum count; as_count := count;
          as_attributions := attributions |}.

(** [WindowLens]. *)
Definition WindowLens (c : Context) (window : SourceWindow) : EdgeLens := {|
  lens_alive := fun _ edge => t ← windowed_totals c edge window; Some (0 <? t.1);
  lens_magnitude := fun _ edge => t ← windowed_totals c edge window; Some (f64_magnitude t.2);
  lens_association := fun id => windowed_association c id window
|}.

(** ** The whole graph *)

(** [all_associations]: the deadline is polled before each edge; [expired i] is
    its answer at edge [i]. *)
Fixpoint all_associations_loop (expired : N -> bool) (c : Context) (ids : list EdgeId)
    : option (result (list Association) unit) :=
  match ids with
  | [] => Some (Ok [])
  | id :: ids =>
    if expired id then Some (Err tt)
    else
      a ← association c id;
      rest ← all_associations_loop expired c ids;
      Some (out ←? rest; Ok (a :: out))
  end.

Definition all_associations (expired : N -> bool) (c : Context) :=
  all_associations_loop expired c (indices (edges c)).

(** ** Recall and queries *)

Definition edge_alive (lens : EdgeLens) (c : Context) (id : EdgeId) : option bool :=
  edge ← tget (edges c) id; lens_alive id edge.

(** The tail every read shares: keep what passes, materialize it. *)
Definition select (lens : EdgeLens) (keep : EdgeId -> option bool) (ids : list EdgeId)
    : option (list Association) :=
  kept ← filterM keep ids; mapM lens_association kept.

Definition recall_impl (cue : name) (lens : EdgeLens) (c : Context) : option (list Association) :=
  concept_edges ←
    match concept_ids c !! cue with
    | Some id => out ← outgoing c id; inc ← incoming c id; Some (out ++ inc)
    | None => Some []
    end;
  label_edges ←
    match label_ids c !! cue with
    | Some id => labeled c id
    | None => Some []
    end;
  select lens (edge_alive lens c) (dedup (sort_ids (concept_edges ++ label_edges))).

Definition recall (cue : name) (c : Context) := recall_impl cue (FullLens c) c.
Definition recall_within (cue : name) (window : SourceWindow) (c : Context) :=
  recall_impl cue (WindowLens c window) c.

(** [resolve_set]: [None] when the position is unconstrained. *)
Definition resolve_set (map : gmap name N) (names : list name) : option (gset N) :=
  match names with
  | [] => None
  | _ => Some (list_to_set (omap (fun n => map !! n) names))
  end.

(** An anchor of a query: total chain length, chain heads, and the link. *)
Definition scan_anchor : Type := N * list EdgeId * (EdgeRecord -> EdgeId).

Definition keep_narrowest_anchor (narrowest : option scan_anchor) (total : N) (firsts : list EdgeId)
    (follow : EdgeRecord -> EdgeId) : option scan_anchor :=
  match narrowest with
  | None => Some (total, firsts, follow)
  | Some (best, _, _) => if total <? best then Some (total, firsts, follow) else narrowest
  end.

Definition is_nil {A} (l : list A) : bool := match l with [] => true | _ => false end.

(** One constrained position of the scan. *)
Definition offer_anchor {R} (table : list R) (ids : option (gset N)) (count : R -> N)
    (first : R -> EdgeId) (follow : EdgeRecord -> EdgeId) (narrowest : option scan_anchor)
    : option (option scan_anchor) :=
  match ids with
  | None => Some narrowest
  | Some ids =>
    rows ← mapM (tget table) (elements ids);
    Some (keep_narrowest_anchor narrowest (foldl u64_add 0 (count <$> rows)) (first <$> rows) follow)
  end.

Definition in_set (ids : option (gset N)) (id : N) : bool :=
  match ids with None => true | Some ids => bool_decide (id ∈ ids) end.

Definition is_empty_set (ids : option (gset N)) : bool :=
  match ids with None => false | Some ids => bool_decide (ids = ∅) end.

Definition query_matches (lens : EdgeLens) (c : Context) (s l o : option (gset N)) (id : EdgeId)
    : option bool :=
  edge ← tget (edges c) id;
  if in_set s (e_subject edge) && in_set l (e_label edge) && in_set o (e_object edge)
  then lens_alive id edge else Some false.

(** The edges a constrained query reads: the chains of whichever position anchors
    the fewest, in insertion order. *)
Definition narrowest_scan (subject_ids label_ids_ object_ids : option (gset N)) (c : Context)
    : option (list EdgeId) :=
  n1 ← offer_anchor (concepts c) subject_ids c_outgoing_count c_first_outgoing e_next_outgoing None;
  n2 ← offer_anchor (labels c) label_ids_ l_edge_count l_first_edge e_next_labeled n1;
  n3 ← offer_anchor (concepts c) object_ids c_incoming_count c_first_incoming e_next_incoming n2;
  match n3 with
  | None => Some []
  | Some (_, firsts, follow) =>
    chains ← mapM (fun first => edge_chain c first follow) firsts;
    Some (sort_ids (mjoin chains))
  end.

Definition query_any_impl (subjects labels_ objects : list name) (lens : EdgeLens) (c : Context)
    : option (list Association) :=
  if is_nil subjects && is_nil labels_ && is_nil objects then
    select lens (edge_alive lens c) (indices (edges c))
  else
    let subject_ids := resolve_set (concept_ids c) subjects in
    let label_ids_ := resolve_set (label_ids c) labels_ in
    let object_ids := resolve_set (concept_ids c) objects in
    if is_empty_set subject_ids || is_empty_set label_ids_ || is_empty_set object_ids then Some []
    else
      edge_ids ← narrowest_scan subject_ids label_ids_ object_ids c;
      select lens (query_matches lens c subject_ids label_ids_ object_ids) edge_ids.

Definition query_any (subjects labels_ objects : list name) (c : Context) :=
  query_any_impl subjects labels_ objects (FullLens c) c.
Definition query_any_within (subjects labels_ objects : list name) (window : SourceWindow) (c : Context) :=
  query_any_impl subjects labels_ objects (WindowLens c window) c.

(** [query]: [Option::as_slice] of each position. *)
Definition query (subject label object : option name) (c : Context) :=
  query_any (option_list subject) (option_list label) (option_list object) c.

(** ** Descriptions *)

(** [LabelUsage], [ConceptDescription]. *)
Record LabelUsage := { lu_label : name; lu_count : N }.

Record ConceptDescription := {
  cd_concept : name; cd_as_subject : list LabelUsage; cd_as_object : list LabelUsage;
  cd_types : list name
}.

(** Most frequent first, ties in label insertion order. *)
Definition usage_le (a b : LabelId * N) : Prop := b.2 < a.2 \/ (b.2 = a.2 /\ a.1 <= b.1).
#[export] Instance usage_le_dec a b : Decision (usage_le a b).
Proof. unfold usage_le. apply _. Defined.

(** One edge of [tally]: a dead edge counts for nothing, a live one for its
    label, and names a type when it carries the type label. *)
Definition tally_step (c : Context) (type_label : option LabelId)
    (acc : gmap LabelId N * gset name) (id : EdgeId) : option (gmap LabelId N * gset name) :=
  edge ← tget (edges c) id;
  if e_count edge =? 0 then Some acc
  else
    types ←
      (if bool_decide (type_label = Some (e_label edge))
       then object ← concept_name c (e_object edge); Some ({[object]} ∪ acc.2)
       else Some acc.2);
    Some (<[e_label edge := default 0 (acc.1 !! e_label edge) + 1]> acc.1, types).

Fixpoint foldM {A B} (f : A -> B -> option A) (l : list B) (a : A) : option A :=
  match l with [] => Some a | x :: l => a' ← f a x; foldM f l a' end.

Definition usages (c : Context) (counts : gmap LabelId N) : option (list LabelUsage) :=
  mapM (fun p => label ← label_name c p.1; Some {| lu_label := label; lu_count := p.2 |})
    (merge_sort usage_le (map_to_list counts)).

(** A [BTreeSet<String>], in order. *)
Definition names_in_order (s : gset name) : list name := merge_sort name_le (elements s).

Lemma elem_of_names_in_order (x : name) (s : gset name) : x ∈ names_in_order s <-> x ∈ s.
Proof. unfold names_in_order. rewrite merge_sort_Permutation. apply elem_of_elements. Qed.

Definition describe_typed (concept : name) (type_label : option name) (c : Context)
    : option (option ConceptDescription) :=
  match concept_ids c !! concept with
  | None => Some None
  | Some id =>
    let type_label_id := type_label ≫= (fun l => label_ids c !! l) in
    out ← outgoing c id;
    '(counts, types) ← foldM (tally_step c type_label_id) out (∅, ∅);
    as_subject ← usages c counts;
    inc ← incoming c id;
    '(counts', _) ← foldM (tally_step c None) inc (∅, ∅);
    as_object ← usages c counts';
    n ← concept_name c id;
    Some (Some {| cd_concept := n; cd_as_subject := as_subject; cd_as_object := as_object;
                  cd_types := names_in_order types |})
  end.

Definition describe (concept : name) := describe_typed concept None.

(** [concept_types]: the same walk, types only. *)
Definition type_step (c : Context) (type_label : LabelId) (types : gset name) (id : EdgeId)
    : option (gset name) :=
  edge ← tget (edges c) id;
  if e_count edge =? 0 then Some types
  else if e_label edge =? type_label
       then object ← concept_name c (e_object edge); Some ({[object]} ∪ types)
       else Some types.

Definition concept_types (concept type_label : name) (c : Context) : option (list name) :=
  match label_ids c !! type_label, concept_ids c !! concept with
  | Some type_label_id, Some id =>
    out ← outgoing c id;
    types ← foldM (type_step c type_label_id) out ∅;
    Some (names_in_order types)
  | _, _ => Some []
  end.

(** ** Vocabulary *)

Definition label_names_of (c : Context) : option (list name) :=
  mapM (fun r => arena_str c (l_name_offset r) (l_name_len r)) (labels c).

Definition label_sample (limit : nat) (c : Context) : option (list name) :=
  mapM (fun r => arena_str c (l_name_offset r) (l_name_len r)) (take limit (labels c)).

Definition concept_names_of (c : Context) : option (list name) :=
  mapM (fun r => arena_str c (c_name_offset r) (c_name_len r)) (concepts c).

Definition canonical_concept (spelling : name) (c : Context) : option (option name) :=
  match concept_ids c !! spelling with
  | None => Some None
  | Some id => n ← concept_name c id; Some (Some n)
  end.

(** [range((start, Unbounded))] on the label name index. *)
Definition names_after (after : option name) (s : gset name) : list name :=
  match after with
  | None => names_in_order s
  | Some a => filter (fun n => name_lt a n) (names_in_order s)
  end.

Definition label_page_excluding (after : option name) (limit : nat) (excluded : list name) (c : Context)
    : N * list name :=
  let total := N.of_nat (size (label_name_index c)) in
  match excluded with
  | [] => (total, take limit (names_after after (label_name_index c)))
  | _ =>
    let excluded : gset name := list_to_set excluded in
    let hidden := lenN (filter (fun n => n ∈ label_name_index c) (elements excluded)) in
    (total - hidden,
     take limit (filter (fun n => n ∉ excluded) (names_after after (label_name_index c))))
  end.

Definition label_page (after : option name) (limit : nat) := label_page_excluding after limit [].
