(* ===== verification/QueryThm.v ===== *)
(** * Reads implement the fact list

    A lens that refines a view of the facts makes every walk of [Query] a filter
    of the fact list, in edge order: the narrowest-anchor scan of [query_any], the
    three-chain union of [recall] and the deadline-polled export agree with the
    specification they optimise. *)

From S2P Require Export Query.
From S2P Require Import FactsWrite.

Local Open Scope N_scope.

(** ** What a lens promises *)

(** [view f]: the association a reader sees for the fact [f], if it sees it. *)
Class LensView (lens : EdgeLens) (c : Context) (view : Fact -> option Association) := {
  view_alive : forall i f, fact_at c i = Some f ->
    edge_alive lens c i = Some (bool_decide (is_Some (view f)));
  view_association : forall i f a, fact_at c i = Some f -> view f = Some a ->
    lens_association i = Some a
}.

Definition fact_association (f : Fact) : Association :=
  {| as_subject := f_subject f; as_label := f_label f; as_object := f_object f;
     as_weight := edge_weight (f_sum f) (f_count f); as_count := f_count f;
     as_attributions := f_attributions f |}.

Definition sumN (l : list N) : N := foldr N.add 0 l.

(** The fact restricted to what the sources in [srcs] said. *)
Definition windowed_fact (srcs : list name) (f : Fact) : option Association :=
  let atts := filter (fun a => att_source a ∈ srcs) (f_attributions f) in
  let count := sumN (att_count <$> atts) in
  let sum := foldl accumulate_saturating 0%float (att_weight <$> atts) in
  if count =? 0 then None
  else Some {| as_subject := f_subject f; as_label := f_label f; as_object := f_object f;
               as_weight := edge_weight sum count; as_count := count; as_attributions := atts |}.

Lemma facts_elem c fs f : facts c = Some fs -> f ∈ fs -> exists i, fact_at c i = Some f.
Proof.
  intros H2%mapM_Some (k & Hk)%list_elem_of_lookup.
  destruct (Forall2_lookup_r _ _ _ _ _ H2 Hk) as (i & _ & Hi). eauto.
Qed.

Section lenses.
Context `{UnicodeTables} {c : Context} (Hwf : wf c).

Lemma attribution_chain_rows first ids atts :
  chain_from (t_next <$> attributions c) first ids -> mapM (row_at c) ids = Some atts ->
  exists rows, attribution_chain c first = Some rows /\
    Forall2 (fun row a => attribution_of c row = Some a) rows atts.
Proof.
  intros Hc Hm. unfold attribution_chain. apply walk_chain in Hc. rewrite length_fmap in Hc.
  rewrite Hc. simpl. clear Hc. apply mapM_Some in Hm.
  induction Hm as [|t a ids atts Ht _ (rows & Hr & H2)]; simpl; [eauto|].
  unfold row_at in Ht. destruct (tget (attributions c) t) as [r|]; simpl in *; [|done].
  rewrite Hr. simpl. eauto.
Qed.

Lemma fact_rows i f : fact_at c i = Some f -> exists e rows,
  tget (edges c) i = Some e /\ attribution_chain c (e_first_attribution e) = Some rows /\
  Forall2 (fun row a => attribution_of c row = Some a) rows (f_attributions f) /\
  concept_name c (e_subject e) = Some (f_subject f) /\ label_name c (e_label e) = Some (f_label f) /\
  concept_name c (e_object e) = Some (f_object f) /\ f_count f = e_count e /\ f_sum f = e_sum e.
Proof.
  intros (e & ids & He & Hs & Hl & Ho & Hc & Hm & Hn & Hw)%fact_at_inv.
  destruct (attribution_chain_rows _ _ _ Hc Hm) as (rows & Hr & H2). eauto 12.
Qed.

Lemma association_fact i f : fact_at c i = Some f -> association c i = Some (fact_association f).
Proof using.
  clear Hwf. intros (e & rows & He & Hr & H2 & Hs & Hl & Ho & Hn & Hw)%fact_rows. unfold association.
  rewrite He. simpl. rewrite Hs. simpl. rewrite Hl. simpl. rewrite Ho. simpl. rewrite Hr. simpl.
  apply mapM_Some in H2. rewrite H2. simpl. unfold fact_association. by rewrite Hn, Hw.
Qed.

#[export] Instance FullLens_view : LensView (FullLens c) c (fun f => Some (fact_association f)).
Proof using.
  clear Hwf. split.
  - intros i f (e & _ & He & _)%fact_at_inv. unfold edge_alive. by rewrite He.
  - intros i f a Hf [= <-]. by apply association_fact.
Qed.
End lenses.

(** ** The windowed lens *)

Lemma Forall2_filter_both {A B} (R : A -> B -> Prop) (P : A -> Prop) (Q : B -> Prop)
    `{!forall x, Decision (P x)} `{!forall y, Decision (Q y)} l k :
  Forall2 R l k -> (forall x y, R x y -> P x <-> Q y) ->
  Forall2 R (filter P l) (filter Q k).
Proof.
  intros H2 HPQ. induction H2 as [|x y l k Hxy _ IH]; [constructor|].
  rewrite !filter_cons. pose proof (HPQ _ _ Hxy).
  case_decide; case_decide; try tauto. by constructor.
Qed.

Lemma foldl_window_filter window acc rows :
  foldl (window_step window) acc rows =
  foldl (fun acc row => (u64_add acc.1 (t_count row.2), accumulate_saturating acc.2 (t_sum row.2))) acc
    (filter (fun row => t_source row.2 ∈ eligible window) rows).
Proof.
  revert acc. induction rows as [|row rows IH]; intros acc; [done|]. rewrite filter_cons. simpl.
  unfold window_step at 2. case_decide; simpl; apply IH.
Qed.

Lemma foldl_rows (c : Context) rows atts n w :
  Forall2 (fun row a => attribution_of c row = Some a) rows atts ->
  n + sumN (att_count <$> atts) <= U64_MAX ->
  foldl (fun acc row => (u64_add acc.1 (t_count row.2), accumulate_saturating acc.2 (t_sum row.2)))
    (n, w) rows =
  (n + sumN (att_count <$> atts), foldl accumulate_saturating w (att_weight <$> atts)).
Proof.
  intros H2. revert n w. induction H2 as [|row a rows atts Hr _ IH]; intros n w; csimpl; [by rewrite N.add_0_r|].
  unfold attribution_of in Hr. destruct (source_name c _); simpl in *; [|done]. injection Hr as <-. csimpl.
  intros Hn. unfold u64_add. rewrite N.mod_small by (unfold U64_MAX in *; lia).
  rewrite IH by lia. f_equal. lia.
Qed.

Lemma sumN_filter (P : Attribution -> Prop) `{!forall x, Decision (P x)} l :
  sumN (att_count <$> filter P l) <= sumN (att_count <$> l).
Proof. induction l as [|a l IH]; [done|]. rewrite filter_cons. case_decide; csimpl; lia. Qed.

Section windows.
Context `{UnicodeTables} {c : Context} (Hwf : wf c).

(** A fact's attributions account for at most its count. *)
Lemma fact_counts i f : fact_at c i = Some f ->
  sumN (att_count <$> f_attributions f) <= f_count f <= U64_MAX.
Proof using Hwf.
  intros Hf. destruct (wf_attributions _ Hwf) as (chains & Hat).
  destruct (fact_chain c chains i f Hat Hf) as (l & Hl & Hm & _).
  pose proof Hf as (e & _ & He & _ & _ & _ & _ & _ & Hn & _)%fact_at_inv.
  pose proof Hat as (_ & _ & Hcov). rewrite Hn. split.
  - assert (He' : tget (e_count <$> edges c) i = Some (e_count e)) by by rewrite tget_fmap, He.
    rewrite tget_lookup in He'. rewrite tget_lookup in Hl. etrans; [|exact (Forall2_lookup_lr _ _ _ _ _ _ Hcov He' Hl)]. clear -Hm. apply mapM_Some in Hm.
    induction Hm as [|t a l atts Ht _ IH]; [done|]. csimpl.
    apply row_source in Ht as (r & Hr & _ & _ & Hc & _). rewrite tget_fmap, Hr. simpl. lia.
  - pose proof (wf_totals _ Hwf) as Ht. rewrite tget_lookup in He.
    by eapply Forall_lookup_1 in Ht as [? _].
Qed.

Lemma eligible_spec srcs row a : attribution_of c row = Some a ->
  t_source row.2 ∈ eligible (source_window c srcs) <-> att_source a ∈ srcs.
Proof using Hwf.
  unfold attribution_of. destruct (source_name c (t_source row.2)) as [n|] eqn:En; simpl; [|done].
  intros [= <-]. simpl. rewrite elem_of_list_to_set, list_elem_of_omap. split.
  - intros (m & Hm & Hi). apply (source_id_name Hwf) in Hi. congruence.
  - intros Hn. exists n. split; [done|]. by apply (source_name_id Hwf).
Qed.

(** The window recomputes an edge's totals from its own attributions. *)
Lemma windowed_totals_fact srcs i f e :
  fact_at c i = Some f -> tget (edges c) i = Some e ->
  windowed_totals c e (source_window c srcs) =
  Some (sumN (att_count <$> filter (fun a => att_source a ∈ srcs) (f_attributions f)),
        foldl accumulate_saturating 0%float
          (att_weight <$> filter (fun a => att_source a ∈ srcs) (f_attributions f))).
Proof using Hwf.
  intros Hf He. pose proof (fact_counts i f Hf) as Hcnt.
  destruct (fact_rows i f Hf) as (e' & rows & He' & Hr & H2 & _). simplify_eq.
  unfold windowed_totals. rewrite Hr. simpl. f_equal. rewrite foldl_window_filter.
  pose proof (sumN_filter (fun a => att_source a ∈ srcs) (f_attributions f)).
  rewrite (foldl_rows c _ (filter (fun a => att_source a ∈ srcs) (f_attributions f))); [done| |lia].
  eapply Forall2_filter_both; [done|]. intros row a Hra. by apply eligible_spec.
Qed.

#[export] Instance WindowLens_view srcs :
  LensView (WindowLens c (source_window c srcs)) c (windowed_fact srcs).
Proof using Hwf.
  split.
  - intros i f Hf. pose proof Hf as (e & _ & He & _)%fact_at_inv.
    unfold edge_alive. rewrite He. simpl. rewrite (windowed_totals_fact srcs i f e Hf He). simpl. f_equal.
    unfold windowed_fact. destruct (N.eqb_spec (sumN (att_count <$> filter (fun a => att_source a ∈ srcs)
      (f_attributions f))) 0) as [->|Hn]; [done|].
    rewrite bool_decide_eq_true_2 by eauto. apply N.ltb_lt. lia.
  - intros i f a Hf. unfold windowed_fact. case_match eqn:E0; [done|]. intros [= <-].
    destruct (fact_rows i f Hf) as (e & rows & He & Hr & H2 & Hs & Hl & Ho & _). simpl.
    unfold windowed_association. bind He. bind (windowed_totals_fact srcs i f e Hf He).
    bind Hs. bind Hl. bind Ho. bind Hr.
    assert (Hm : mapM (attribution_of c) (filter (fun row => t_source row.2 ∈ eligible (source_window c srcs)) rows) =
      Some (filter (fun a => att_source a ∈ srcs) (f_attributions f))).
    { apply mapM_Some. eapply Forall2_filter_both; [done|]. intros row b Hrb. by apply eligible_spec. }
    by bind Hm.
Qed.
End windows.
