(* ===== verification/Compact.v ===== *)
(** * Compaction ([src/context/write.rs])

    [install_edge] and [compacted]: a fresh context with only the live content. *)

From S2P Require Export Alias QueryThm.

Local Open Scope N_scope.

Section compact.
Context `{UnicodeTables}.

(** [(source, sum, count, paragraph)] of one distinct source. *)
Definition Claim : Type := name * f64 * N * option N.

Definition claim_source (a : Claim) : name := a.1.1.1.

(** The loop over the attributions. *)
Fixpoint install_attributions (edge_id : EdgeId) (attributions : list Claim) (c : Context) : option Context :=
  match attributions with
  | [] => Some c
  | (source, sum, count, paragraph) :: attributions =>
    '(source_id, c) ← intern_source source c;
    c ← push_attribution edge_id source_id count sum paragraph c;
    install_attributions edge_id attributions c
  end.

Definition install_edge (subject label object : name) (edge_count : N) (edge_sum : f64) (attributions : list Claim)
    (c : Context) : option (result unit ContextFull * Context) :=
  let first_source := claim_source <$> head attributions in
  match ensure_room subject label object first_source c with
  | Err e => Some (Err e, c)
  | Ok _ =>
    '(subject_id, c) ← intern_concept subject c;
    '(object_id, c) ← intern_concept object c;
    '(label_id, c) ← intern_label label c;
    '(edge_id, c) ← push_edge subject_id label_id object_id edge_count edge_sum c;
    c ← install_attributions edge_id attributions c;
    Some (Ok tt, c)
  end.

(** The state of the rebuild: polls of the deadline so far, the fresh context and
    the counters. *)
Record Compaction := { cp_polls : N; cp_fresh : Context; cp_stats : CompactionStats }.

Definition poll (st : Compaction) : Compaction :=
  {| cp_polls := cp_polls st + 1; cp_fresh := cp_fresh st; cp_stats := cp_stats st |}.
Definition with_fresh (c : Context) (st : Compaction) : Compaction :=
  {| cp_polls := cp_polls st; cp_fresh := c; cp_stats := cp_stats st |}.
Definition count_dead_edge (st : Compaction) : Compaction :=
  {| cp_polls := cp_polls st; cp_fresh := cp_fresh st;
     cp_stats := {| cs_dead_edges := cs_dead_edges (cp_stats st) + 1; cs_aliases_dropped := cs_aliases_dropped (cp_stats st) |} |}.
Definition count_dropped (st : Compaction) : Compaction :=
  {| cp_polls := cp_polls st; cp_fresh := cp_fresh st;
     cp_stats := {| cs_dead_edges := cs_dead_edges (cp_stats st); cs_aliases_dropped := cs_aliases_dropped (cp_stats st) + 1 |} |}.

Definition claims_of (a : Association) : list Claim :=
  (fun t => (att_source t, att_weight t, att_count t, att_paragraph t)) <$> as_attributions a.

(** [weight * count], clamped back into range. *)
Definition rebuilt_sum (a : Association) : f64 := clamp_finite (as_weight a * f64_of_N (as_count a))%float.

Fixpoint compact_edges (expired : N -> bool) (associations : list Association) (st : Compaction)
    : option (result Compaction CompactionError) :=
  match associations with
  | [] => Some (Ok st)
  | association :: associations =>
    if expired (cp_polls st) then Some (Err DeadlineExceeded)
    else
      let st := poll st in
      if as_count association =? 0 then compact_edges expired associations (count_dead_edge st)
      else
        '(r, fresh) ← install_edge (as_subject association) (as_label association) (as_object association)
          (as_count association) (rebuilt_sum association) (claims_of association) (cp_fresh st);
        match r with
        | Err full => Some (Err (CompactionFull full))
        | Ok _ => compact_edges expired associations (with_fresh fresh st)
        end
  end.

Fixpoint compact_aliases (S : AliasSpace) (expired : N -> bool) (pairs : list (name * name)) (st : Compaction)
    : option (result Compaction CompactionError) :=
  match pairs with
  | [] => Some (Ok st)
  | (alias, canonical) :: pairs =>
    if expired (cp_polls st) then Some (Err DeadlineExceeded)
    else
      let st := poll st in
      '(r, fresh) ← add_space_alias S alias canonical (cp_fresh st);
      let st := with_fresh fresh st in
      match r with
      | Ok _ => compact_aliases S expired pairs st
      | Err (Full full) => Some (Err (CompactionFull full))
      | Err _ => compact_aliases S expired pairs (count_dropped st)
      end
  end.

(** One phase after another; [None] is a panic. *)
Definition andThen {A B E} (m : option (result A E)) (k : A -> option (result B E)) : option (result B E) :=
  r ← m; match r with Ok a => k a | Err e => Some (Err e) end.

Definition compacted (expired : N -> bool) (c : Context) : option (result (Context * CompactionStats) CompactionError) :=
  associations ← query_any [] [] [] c;
  concept_aliases ← alias_pairs concept_space c;
  label_aliases ← alias_pairs label_space c;
  andThen (compact_edges expired associations
    {| cp_polls := 0; cp_fresh := Context_default; cp_stats := {| cs_dead_edges := 0; cs_aliases_dropped := 0 |} |}) (fun st =>
  andThen (compact_aliases concept_space expired concept_aliases st) (fun st =>
  andThen (compact_aliases label_space expired label_aliases st) (fun st =>
  Some (Ok (cp_fresh st, cp_stats st))))).
End compact.
