(* ===== verification/CompactInstall.v ===== *)
(** * Room for a compaction

    A compaction only re-interns names of the context it compacts, so the fresh
    context never runs out of ids or arena: the accounting behind that. *)

From S2P Require Export Compact SourcesThm.

Local Open Scope N_scope.

(** ** Bytes of a list of names *)

Definition weigh (l : list name) : N := foldr (fun n acc => lenN n + acc) 0 l.

Lemma weigh_app l k : weigh (l ++ k) = weigh l + weigh k.
Proof. induction l as [|n l IH]; simpl; lia. Qed.

Lemma weigh_submseteq l k : l ⊆+ k -> weigh l <= weigh k.
Proof. induction 1; simpl; lia. Qed.

Lemma subset_room {A} (l k : list A) : NoDup l -> (forall x, x ∈ l -> x ∈ k) -> lenN l <= lenN k.
Proof. intros Hnd Hs. apply NoDup_submseteq in Hs; [|done]. apply submseteq_length in Hs. unfold lenN. lia. Qed.

Lemma subset_weigh l k : NoDup l -> (forall x, x ∈ l -> x ∈ k) -> weigh l <= weigh k.
Proof. intros Hnd Hs. by apply weigh_submseteq, NoDup_submseteq. Qed.

(** ** Alias-free contexts over given names *)

Section room.
Context `{UnicodeTables}.

Record partial (F : Context) (ns ls ss : list name) : Prop := {
  pt_wf : wf F;
  pt_concepts : concept_names F ns [];
  pt_labels : label_names F ls [];
  pt_sources : source_names F ss;
  pt_arena : lenN (arena F) = weigh ns + weigh ls + weigh ss
}.

Lemma partial_default : partial Context_default [] [] [].
Proof using. split; [apply wf_default | | | | done]; repeat split; try done; try constructor. Qed.

Lemma partial_concept F ns ls ss s i : partial F ns ls ss -> concept_ids F !! s = Some i <-> tget ns i = Some s.
Proof using.
  intros P. rewrite (ns_lookup (nw_names _ _ _ _ _ _ _ _ (pt_concepts _ _ _ _ P))). split; [|by left].
  intros [?|(j & Hj & _)]; [done | by rewrite tget_lookup in Hj].
Qed.
Lemma partial_label F ns ls ss s i : partial F ns ls ss -> label_ids F !! s = Some i <-> tget ls i = Some s.
Proof using.
  intros P. rewrite (ns_lookup (nw_names _ _ _ _ _ _ _ _ (proj1 (pt_labels _ _ _ _ P)))). split; [|by left].
  intros [?|(j & Hj & _)]; [done | by rewrite tget_lookup in Hj].
Qed.
Lemma partial_source F ns ls ss s i : partial F ns ls ss -> source_ids F !! s = Some i <-> tget ss i = Some s.
Proof using.
  intros P. rewrite (ns_lookup (pt_sources _ _ _ _ P)). split; [|by left].
  intros [?|(j & Hj & _)]; [done | by rewrite tget_lookup in Hj].
Qed.

(** Names and tables have the same length, and every entry is a record. *)
Lemma partial_lengths F ns ls ss : partial F ns ls ss ->
  lenN (concepts F) = lenN ns /\ lenN (labels F) = lenN ls /\ lenN (sources F) = lenN ss /\
  lenN (ei_spans (concept_index F)) = lenN ns /\ lenN (ei_spans (label_index F)) = lenN ls /\
  NoDup ns /\ NoDup ls /\ NoDup ss.
Proof using.
  intros P. pose proof (pt_concepts _ _ _ _ P) as [Cn Ca _]. pose proof (pt_labels _ _ _ _ P) as [[Ln La _] _].
  pose proof (pt_sources _ _ _ _ P) as Sn. unfold source_names in Sn.
  pose proof (ns_length Cn) as C1. pose proof (ns_length Ln) as L1. pose proof (ns_length Sn) as S1.
  rewrite length_fmap in C1. rewrite length_fmap in L1. rewrite length_fmap in S1.
  destruct (space_spans concept_space F (pt_wf _ _ _ _ P)) as [C2 _].
  destruct (space_spans label_space F (pt_wf _ _ _ _ P)) as [L2 _].
  simpl in C2, L2. rewrite lenN_fmap in C2. rewrite lenN_fmap in L2. rewrite Ca in C2. rewrite La in L2.
  simpl in C2, L2. rewrite map_size_empty in C2. rewrite map_size_empty in L2.
  pose proof (ns_unique _ _ _ _ _ _ Cn) as Cu. pose proof (ns_unique _ _ _ _ _ _ Ln) as Lu.
  pose proof (ns_unique _ _ _ _ _ _ Sn) as Su. rewrite app_nil_r in Cu. rewrite app_nil_r in Lu. rewrite app_nil_r in Su.
  unfold lenN in *. simpl in C2, L2. repeat split; try done; lia.
Qed.

(** What the fresh context draws its names from. *)
Record pool := { p_concepts : list name; p_labels : list name; p_sources : list name; p_extra : N }.

Definition pool_fits (p : pool) : Prop :=
  lenN (p_concepts p) <= NIL /\ lenN (p_labels p) <= NIL /\ lenN (p_sources p) <= NIL /\
  weigh (p_concepts p) + weigh (p_labels p) + weigh (p_sources p) + p_extra p <= U32_MAX.

Record within (p : pool) (ns ls ss : list name) : Prop := {
  w_concepts : forall n, n ∈ ns -> n ∈ p_concepts p;
  w_labels : forall n, n ∈ ls -> n ∈ p_labels p;
  w_sources : forall n, n ∈ ss -> n ∈ p_sources p
}.

(** One more name of the pool, old or new. *)
Definition one_more (s : name) (ns ns' : list name) : Prop := ns' = ns \/ (s ∉ ns /\ ns' = ns ++ [s]).

Lemma one_more_mono s ns ns' i n : one_more s ns ns' -> tget ns i = Some n -> tget ns' i = Some n.
Proof using. intros [->|[_ ->]]; [done | apply tget_app_mono]. Qed.

Lemma one_more_sub s ns ns' (k : list name) : one_more s ns ns' -> s ∈ k -> (forall n, n ∈ ns -> n ∈ k) -> forall n, n ∈ ns' -> n ∈ k.
Proof using. intros [->|[_ ->]]; set_solver. Qed.

(** What stays put under interning. *)
Definition quiet (F F' : Context) : Prop :=
  grows F F' /\ dead_edges F' = dead_edges F /\ dead_attributions F' = dead_attributions F /\
  arena_slack F' = arena_slack F /\ applied_seq F' = applied_seq F.

Lemma quiet_refl F : quiet F F.
Proof using. by split. Qed.
Lemma quiet_trans F G K : quiet F G -> quiet G K -> quiet F K.
Proof using. intros (? & ? & ? & ? & ?) (? & ? & ? & ? & ?). split; [by etransitivity|]. repeat split; congruence. Qed.

Lemma NoDup_room s ns (k : list name) : NoDup ns -> s ∉ ns -> s ∈ k -> (forall n, n ∈ ns -> n ∈ k) ->
  lenN ns + 1 <= lenN k /\ weigh ns + lenN s <= weigh k.
Proof using.
  intros Hnd Hs Hk Hsub. assert (NoDup (s :: ns)) as Hnd' by by constructor.
  assert (forall n, n ∈ s :: ns -> n ∈ k) as Hsub' by set_solver.
  pose proof (subset_room _ _ Hnd' Hsub') as Hr. pose proof (subset_weigh _ _ Hnd' Hsub') as Hw.
  change (weigh (s :: ns)) with (lenN s + weigh ns) in Hw. split; [|lia]. unfold lenN in *. rewrite length_cons in Hr. lia.
Qed.

Context (p : pool) (Hp : pool_fits p).

(** The room any state within the pool has. *)
Lemma within_room F ns ls ss : partial F ns ls ss -> within p ns ls ss ->
  lenN (concepts F) <= NIL /\ lenN (labels F) <= NIL /\ lenN (sources F) <= NIL /\ lenN (arena F) <= U32_MAX.
Proof using All.
  intros P [Wc Wl Ws]. destruct (partial_lengths _ _ _ _ P) as (-> & -> & -> & _ & _ & Nc & Nl & Ns).
  rewrite (pt_arena _ _ _ _ P). destruct Hp as (? & ? & ? & ?).
  pose proof (subset_room _ _ Nc Wc). pose proof (subset_room _ _ Nl Wl). pose proof (subset_room _ _ Ns Ws).
  pose proof (subset_weigh _ _ Nc Wc). pose proof (subset_weigh _ _ Nl Wl). pose proof (subset_weigh _ _ Ns Ws). lia.
Qed.

Lemma intern_concept_partial F ns ls ss s : partial F ns ls ss -> within p ns ls ss -> s ∈ p_concepts p -> utf8_valid s = true ->
  exists i F' ns', intern_concept s F = Some (i, F') /\ partial F' ns' ls ss /\ within p ns' ls ss /\
    tget ns' i = Some s /\ one_more s ns ns' /\ quiet F F'.
Proof using Hp.
  intros P W Hs Hv. destruct (partial_lengths _ _ _ _ P) as (E1 & _ & _ & E2 & _ & Nc & Nl & Ns).
  destruct (concept_ids F !! s) as [i|] eqn:Hi.
  { exists i, F, ns. unfold intern_concept. rewrite Hi. split; [done|]. split; [done|]. split; [done|].
    split; [by eapply partial_concept|]. split; [by left | apply quiet_refl]. }
  assert (Hns : s ∉ ns).
  { intros (j & Hj)%list_elem_of_lookup.
    assert (concept_ids F !! s = Some (N.of_nat j)); [|congruence].
    eapply partial_concept; [done|]. by rewrite tget_lookup, Nat2N.id. }
  destruct Hp as (P1 & P2 & P3 & P4).
  destruct (NoDup_room s ns (p_concepts p) Nc Hns Hs (w_concepts _ _ _ _ W)) as [R1 R2].
  pose proof (subset_weigh _ _ Nl (w_labels _ _ _ _ W)). pose proof (subset_weigh _ _ Ns (w_sources _ _ _ _ W)).
  destruct (intern_concept_total s F) as (i & F' & HI & _).
  { unfold is_new. rewrite Hi, E1. simpl. lia. } { unfold is_new. rewrite Hi, E2. simpl. lia. }
  { unfold need_bytes. rewrite Hi, (pt_arena _ _ _ _ P). simpl. lia. }
  pose proof (intern_concept_wf _ _ _ _ (pt_wf _ _ _ _ P) Hv HI) as W'. pose proof (intern_concept_grows _ _ _ _ HI) as G'.
  exists i, F', (ns ++ [s]). split; [done|].
  destruct (intern_concept_inv _ _ _ _ HI) as [[? _]|(_ & -> & _ & Ha & idx & Hpush & HF)]; [congruence|].
  split; [|split; [|split; [|split; [by right|]]]].
  - destruct P as [PW PC PL PS PA]. split; [done| | | |]; rewrite HF; simpl.
    + unfold concept_names. simpl. rewrite fmap_app. simpl.
      pose proof (namespace_wf_record _ _ _ _ _ _ idx _ _ s PC Hi Hv) as Hr. rewrite lenN_fmap in Hr. by apply Hr.
    + destruct PL as [PL ?]. split; [by apply namespace_wf_arena | done].
    + by apply ns_ok_arena.
    + rewrite lenN_app, PA, weigh_app. simpl. lia.
  - split; [|apply W..]. pose proof (w_concepts _ _ _ _ W). set_solver.
  - rewrite E1. apply tget_snoc.
  - split; [done|]. by rewrite HF.
Qed.

Lemma intern_label_partial F ns ls ss s : partial F ns ls ss -> within p ns ls ss -> s ∈ p_labels p -> utf8_valid s = true ->
  exists i F' ls', intern_label s F = Some (i, F') /\ partial F' ns ls' ss /\ within p ns ls' ss /\
    tget ls' i = Some s /\ one_more s ls ls' /\ quiet F F'.
Proof using Hp.
  intros P W Hs Hv. destruct (partial_lengths _ _ _ _ P) as (_ & E1 & _ & _ & E2 & Nc & Nl & Ns).
  destruct (label_ids F !! s) as [i|] eqn:Hi.
  { exists i, F, ls. unfold intern_label. rewrite Hi. split; [done|]. split; [done|]. split; [done|].
    split; [by eapply partial_label|]. split; [by left | apply quiet_refl]. }
  assert (Hns : s ∉ ls).
  { intros (j & Hj)%list_elem_of_lookup.
    assert (label_ids F !! s = Some (N.of_nat j)); [|congruence].
    eapply partial_label; [done|]. by rewrite tget_lookup, Nat2N.id. }
  destruct Hp as (P1 & P2 & P3 & P4).
  destruct (NoDup_room s ls (p_labels p) Nl Hns Hs (w_labels _ _ _ _ W)) as [R1 R2].
  pose proof (subset_weigh _ _ Nc (w_concepts _ _ _ _ W)). pose proof (subset_weigh _ _ Ns (w_sources _ _ _ _ W)).
  destruct (intern_label_total s F) as (i & F' & HI & _).
  { unfold is_new. rewrite Hi, E1. simpl. lia. } { unfold is_new. rewrite Hi, E2. simpl. lia. }
  { unfold need_bytes. rewrite Hi, (pt_arena _ _ _ _ P). simpl. lia. }
  pose proof (intern_label_wf _ _ _ _ (pt_wf _ _ _ _ P) Hv HI) as W'. pose proof (intern_label_grows _ _ _ _ HI) as G'.
  exists i, F', (ls ++ [s]). split; [done|].
  destruct (intern_label_inv _ _ _ _ HI) as [[? _]|(_ & -> & _ & Ha & idx & Hpush & HF)]; [congruence|].
  split; [|split; [|split; [|split; [by right|]]]].
  - destruct P as [PW PC PL PS PA]. split; [done| | | |]; rewrite HF; simpl.
    + by apply namespace_wf_arena.
    + destruct PL as [PL PI]. split; simpl.
      * rewrite fmap_app. simpl. pose proof (namespace_wf_record _ _ _ _ _ _ idx _ _ s PL Hi Hv) as Hr.
        rewrite lenN_fmap in Hr. by apply Hr.
      * rewrite PI. set_solver.
    + by apply ns_ok_arena.
    + rewrite lenN_app, PA, weigh_app. simpl. lia.
  - split; [apply W| |apply W]. pose proof (w_labels _ _ _ _ W). set_solver.
  - rewrite E1. apply tget_snoc.
  - split; [done|]. by rewrite HF.
Qed.

Lemma intern_source_partial F ns ls ss s : partial F ns ls ss -> within p ns ls ss -> s ∈ p_sources p -> utf8_valid s = true ->
  exists i F' ss', intern_source s F = Some (i, F') /\ partial F' ns ls ss' /\ within p ns ls ss' /\
    tget ss' i = Some s /\ one_more s ss ss' /\ quiet F F'.
Proof using Hp.
  intros P W Hs Hv. destruct (partial_lengths _ _ _ _ P) as (_ & _ & E1 & _ & _ & Nc & Nl & Ns).
  destruct (source_ids F !! s) as [i|] eqn:Hi.
  { exists i, F, ss. unfold intern_source. rewrite Hi. split; [done|]. split; [done|]. split; [done|].
    split; [by eapply partial_source|]. split; [by left | apply quiet_refl]. }
  assert (Hns : s ∉ ss).
  { intros (j & Hj)%list_elem_of_lookup.
    assert (source_ids F !! s = Some (N.of_nat j)); [|congruence].
    eapply partial_source; [done|]. by rewrite tget_lookup, Nat2N.id. }
  destruct Hp as (P1 & P2 & P3 & P4).
  destruct (NoDup_room s ss (p_sources p) Ns Hns Hs (w_sources _ _ _ _ W)) as [R1 R2].
  pose proof (subset_weigh _ _ Nc (w_concepts _ _ _ _ W)). pose proof (subset_weigh _ _ Nl (w_labels _ _ _ _ W)).
  destruct (intern_source_total s F) as (i & F' & HI).
  { unfold is_new. rewrite Hi, E1. simpl. lia. }
  { unfold need_bytes. rewrite Hi, (pt_arena _ _ _ _ P). simpl. lia. }
  pose proof (intern_source_wf _ _ _ _ (pt_wf _ _ _ _ P) Hv HI) as W'. pose proof (intern_source_grows _ _ _ _ HI) as G'.
  exists i, F', (ss ++ [s]). split; [done|].
  destruct (intern_source_inv _ _ _ _ HI) as [[? _]|(_ & -> & _ & Ha & HF)]; [congruence|].
  split; [|split; [|split; [|split; [by right|]]]].
  - destruct P as [PW PC PL PS PA]. split; [done| | | |]; rewrite HF; simpl.
    + by apply namespace_wf_arena.
    + destruct PL as [PL ?]. split; [by apply namespace_wf_arena | done].
    + unfold source_names in *. simpl. rewrite fmap_app. simpl.
      pose proof (ns_ok_record _ _ _ _ _ _ s PS Hi Hv) as Hr. rewrite lenN_fmap in Hr. by apply Hr.
    + rewrite lenN_app, PA, weigh_app. simpl. lia.
  - split; [apply W..|]. pose proof (w_sources _ _ _ _ W). set_solver.
  - rewrite E1. apply tget_snoc.
  - split; [done|]. by rewrite HF.
Qed.
End room.

(** * Installing one fact

    [install_edge] on a context within a pool adds exactly one fact, with the
    totals and claims it is given. *)

(** ** What the facts of a well-formed context satisfy *)

Definition claims_total (l : list Attribution) : N := foldr (fun a acc => att_count a + acc) 0 l.

Lemma claims_total_app l k : claims_total (l ++ k) = claims_total l + claims_total k.
Proof. induction l as [|a l IH]; simpl; lia. Qed.

Record claim_ok (a : Attribution) : Prop := {
  co_count : 0 < att_count a;
  co_finite : f64_finite (att_weight a) = true;
  co_paragraph : forall q, att_paragraph a = Some q -> q <= U32_MAX;
  co_source : utf8_valid (att_source a) = true
}.

Record fact_ok (f : Fact) : Prop := {
  fo_total : claims_total (f_attributions f) <= f_count f;
  fo_count : f_count f <= U64_MAX;
  fo_sum : f64_finite (f_sum f) = true;
  fo_sources : NoDup (att_source <$> f_attributions f);
  fo_claims : Forall claim_ok (f_attributions f)
}.

Lemma Forall2_NoDup_inj {A B C} (R : A -> B -> Prop) (g : B -> C) l k :
  Forall2 R l k -> NoDup l ->
  (forall t u x y, t ∈ l -> u ∈ l -> R t x -> R u y -> g x = g y -> t = u) -> NoDup (g <$> k).
Proof.
  intros H2. induction H2 as [|t a l k Hta H2 IH]; intros Hnd Hinj; [constructor|].
  apply NoDup_cons in Hnd as [Hnt Hnd]. csimpl. constructor.
  - intros (b & Hab & Hb)%list_elem_of_fmap. apply list_elem_of_lookup in Hb as [j Hb].
    destruct (Forall2_lookup_r _ _ _ _ _ H2 Hb) as (u & Hu & Hub). apply list_elem_of_lookup_2 in Hu.
    apply Hnt. rewrite (Hinj t u a b); [done | by left | by right | done..].
  - apply IH; [done|]. intros t' u x y ? ?. apply Hinj; by right.
Qed.

Section install.
Context `{UnicodeTables}.

Lemma source_name_valid c i n : wf c -> source_name c i = Some n -> utf8_valid n = true.
Proof using.
  intros _. unfold source_name, arena_str. destruct (tget (sources c) i); simpl; [|done]. by intros [? _]%name_at_valid.
Qed.

Lemma chain_claims c l atts : mapM (row_at c) l = Some atts ->
  chain_total (t_count <$> attributions c) l = claims_total atts.
Proof using.
  intros Hm%mapM_Some. induction Hm as [|t a l atts Ht _ IH]; [done|].
  destruct (row_source c t a Ht) as (r & Hr & _ & _ & Hc & _). simpl. rewrite tget_fmap, Hr. simpl. lia.
Qed.

Lemma fact_slack c e f n : wf c -> fact_at c e = Some f -> claims_total (f_attributions f) + n <= f_count f -> attr_slack c e n.
Proof using.
  intros Hwf Hf Hn. destruct (wf_attributions _ Hwf) as (chains & Hat). exists chains. split; [done|].
  intros ed l Hed Hl. destruct (fact_chain c chains e f Hat Hf) as (l' & Hl' & Hm & _).
  assert (l' = l) as -> by congruence. apply chain_claims in Hm.
  apply fact_at_inv in Hf as (ed' & ? & Hed' & _ & _ & _ & _ & _ & Hc & _). assert (ed' = ed) as -> by congruence. lia.
Qed.

Lemma fact_at_ok c e f : wf c -> fact_at c e = Some f -> fact_ok f.
Proof using.
  intros Hwf Hf. destruct (wf_attributions _ Hwf) as (chains & Hat). pose proof Hat as (Ha & _ & Hcov).
  destruct (fact_chain c chains e f Hat Hf) as (l & Hl & Hm & ed & Hed & Hc & _).
  pose proof Hf as (ed' & ? & Hed' & _ & _ & _ & _ & _ & Hcnt & Hsum)%fact_at_inv.
  assert (ed' = ed) as -> by congruence. destruct (wf_edge c e ed Hwf Hed) as [[Hmax Hfin] _].
  pose proof (chain_claims _ _ _ Hm) as Ht. apply mapM_Some in Hm.
  assert (Hrow : forall t a, t ∈ l -> row_at c t = Some a -> exists r, tget (attributions c) t = Some r /\
    source_name c (t_source r) = Some (att_source a) /\ att_weight a = t_sum r /\ att_count a = t_count r /\
    att_paragraph a = locator_for c t /\ attribution_ids c !! (e, t_source r) = Some t).
  { intros t a Hin Hra. destruct (row_source c t a Hra) as (r & Hr & ? & ? & ? & ?). exists r.
    do 5 (split; [done|]). apply (attr_ids_intro Ha e _ t l Hl Hin). by rewrite tget_fmap, Hr. }
  split.
  - destruct (Forall2_tget_l _ _ _ e (e_count ed) Hcov) as (l' & Hl' & Hle); [by rewrite tget_fmap, Hed|].
    assert (l' = l) as -> by congruence. lia.
  - by rewrite Hcnt.
  - by rewrite Hsum.
  - eapply (Forall2_NoDup_inj _ att_source); [exact Hm | by eapply chain_from_NoDup|].
    intros t u y z Hit Hiu Hy Hz Heq.
    destruct (Hrow t y Hit Hy) as (r & _ & Hn & _ & _ & _ & Hk).
    destruct (Hrow u z Hiu Hz) as (r' & _ & Hn' & _ & _ & _ & Hk').
    rewrite <- Heq in Hn'. rewrite (source_name_inj Hwf _ _ _ Hn Hn') in Hk. congruence.
  - apply Forall_forall. intros a (k & Hk)%list_elem_of_lookup.
    destruct (Forall2_lookup_r _ _ _ _ _ Hm Hk) as (t & Htl & Hta). apply list_elem_of_lookup_2 in Htl.
    destruct (Hrow t a Htl Hta) as (r & Hr & Hn & Hw & Hco & Hq & Hid).
    destruct (rows_live _ _ _ (wf_rows _ Hwf) _ _ _ Hid Hr) as (_ & _ & [? _] & Hfw).
    split; [lia | congruence | | by eapply source_name_valid].
    intros q Hq'. rewrite Hq in Hq'. apply locator_for_spec in Hq'; [|apply Hwf].
    pose proof (wf_locator_rows _ Hwf) as HF. rewrite Forall_forall in HF. apply (HF _ Hq').
Qed.

(** ** Installing the claims *)

Definition claim_tuple (a : Attribution) : Claim := (att_source a, att_weight a, att_count a, att_paragraph a).

Definition with_claims (f : Fact) (l : list Attribution) : Fact :=
  {| f_subject := f_subject f; f_label := f_label f; f_object := f_object f;
     f_count := f_count f; f_sum := f_sum f; f_attributions := f_attributions f ++ l |}.

Lemma partial_update F ns ls ss E T ids se K de da : partial F ns ls ss ->
  wf (update_attributions E T ids se K de da F) -> partial (update_attributions E T ids se K de da F) ns ls ss.
Proof using. by intros [] ?; split. Qed.

Lemma push_attribution_partial F ns ls ss e s n f k w q :
  partial F ns ls ss -> tget ss s = Some n -> fact_at F e = Some f ->
  claims_total (f_attributions f) + k <= f_count f -> 0 < k -> n ∉ att_source <$> f_attributions f ->
  f64_finite w = true -> (forall q', q = Some q' -> q' <= U32_MAX) -> lenN (attributions F) < NIL ->
  exists F', push_attribution e s k w q F = Some F' /\ partial F' ns ls ss /\
    lenN (edges F') = lenN (edges F) /\ lenN (attributions F') = lenN (attributions F) + 1 /\
    (dead_edges F' = dead_edges F /\ dead_attributions F' = dead_attributions F) /\
    forall i g, fact_at F i = Some g -> fact_at F' i = Some (if decide (i = e) then
      append_claim {| att_source := n; att_weight := w; att_count := k; att_paragraph := q |} g else g).
Proof using.
  intros P Hs Hf Ht Hk Hn Hw Hq Hroom. pose proof (pt_wf _ _ _ _ P) as Hwf.
  pose proof Hf as (ed & _ & Hed & _)%fact_at_inv.
  destruct (push_attribution_total e s k w q F Hwf) as [F' HF]; [by eapply tget_Some_lt | done|].
  assert (Hids : source_ids F !! n = Some s) by (by eapply partial_source).
  assert (Hsn : source_name F s = Some n) by (by apply source_id_name).
  assert (Hnone : attribution_ids F !! (e, s) = None).
  { destruct (attribution_ids F !! (e, s)) as [t|] eqn:E; [|done]. exfalso.
    assert (is_Some (find_source n (f_attributions f))) as [b Hb].
    { apply (fact_has_source F s n e f Hwf Hsn Hf). by rewrite E. }
    apply Hn. clear -Hb. induction (f_attributions f) as [|a l IH]; [done|]. simpl in Hb. unfold has_source in Hb.
    case_bool_decide as Hc; csimpl; [rewrite <- Hc; by left | right; by apply IH]. }
  assert (Hwf' : wf F').
  { eapply (push_attribution_wf e s k w q F F'); [done | by eapply fact_slack | done | done | | done | done | done].
    by eapply source_id_lt. }
  exists F'. split; [done|]. pose proof (push_attribution_inv _ _ _ _ _ _ _ HF) as (ed' & Hed' & _ & T' & HT' & HF').
  split; [rewrite HF' in *; by apply partial_update|].
  assert (HlT : lenN T' = lenN (attributions F) + 1).
  { destruct (_ =? NIL); [rewrite HT'; apply lenN_snoc|]. apply tupd_Some in HT' as (? & _ & ->).
    rewrite lenN_insert. apply lenN_snoc. }
  split; [rewrite HF'; simpl; by rewrite lenN_insert|]. split; [by rewrite HF'|]. split; [by rewrite HF'|].
  intros i g Hg. destruct (wf_attributions _ Hwf) as (chains & Hat). exact (push_attribution_appends F chains e s n k w q F' i g Hwf Hwf' Hat Hsn HF Hg).
Qed.

Section within.
Context (p : pool) (Hp : pool_fits p).

Lemma install_attributions_spec claims : forall F ns ls ss e f,
  partial F ns ls ss -> within p ns ls ss -> fact_at F e = Some f ->
  NoDup (att_source <$> f_attributions f ++ claims) -> claims_total (f_attributions f ++ claims) <= f_count f ->
  Forall claim_ok claims -> (forall a, a ∈ claims -> att_source a ∈ p_sources p) ->
  lenN (attributions F) + lenN claims <= NIL ->
  exists F' ss', install_attributions e (claim_tuple <$> claims) F = Some F' /\ partial F' ns ls ss' /\ within p ns ls ss' /\
    lenN (edges F') = lenN (edges F) /\ lenN (attributions F') = lenN (attributions F) + lenN claims /\
    (dead_edges F' = dead_edges F /\ dead_attributions F' = dead_attributions F) /\
    fact_at F' e = Some (with_claims f claims) /\
    forall i g, i <> e -> fact_at F i = Some g -> fact_at F' i = Some g.
Proof using Hp.
  induction claims as [|a claims IH]; intros F ns ls ss e f P W Hf Hnd Ht Hok Hsrc Hroom.
  { exists F, ss. split; [done|]. split; [done|]. split; [done|]. split; [done|]. split; [unfold lenN; simpl; lia|].
    split; [done|]. split; [|done]. unfold with_claims. rewrite app_nil_r. by destruct f. }
  apply Forall_cons in Hok as [[Ha1 Ha2 Ha3 Ha4] Hok]. assert (Hl : lenN (a :: claims) = lenN claims + 1).
  { unfold lenN. simpl. lia. }
  rewrite cons_middle, app_assoc in Hnd, Ht. rewrite fmap_app in Hnd. rewrite claims_total_app in Ht.
  destruct (intern_source_partial p Hp F ns ls ss (att_source a) P W) as (i & F1 & ss1 & E1 & P1 & W1 & Hi & _ & Hq);
    [apply Hsrc; by left | done|]. destruct Hq as (Hg & Hde & Hda & _).
  pose proof (fact_at_grows _ _ _ _ Hg Hf) as Hf1.
  apply NoDup_app in Hnd as (Hnd1 & Hdis & Hnd2). rewrite fmap_app in Hnd1. simpl in Hnd1.
  destruct (push_attribution_partial F1 ns ls ss1 e i (att_source a) f (att_count a) (att_weight a) (att_paragraph a) P1 Hi Hf1)
    as (F2 & E2 & P2 & HE2 & HT2 & [Hde2 Hda2] & Hfacts); try done.
  { rewrite claims_total_app in Ht. simpl in Ht. lia. }
  { apply NoDup_app in Hnd1 as (_ & Hd & _). intros Hin. apply (Hd _ Hin). by left. }
  { rewrite (g_attributions _ _ Hg). lia. }
  pose proof (Hfacts e f Hf1) as Hf2. rewrite decide_True in Hf2 by done.
  assert (Hfa : f_attributions f ++ [a] = f_attributions (append_claim {| att_source := att_source a; att_weight := att_weight a;
    att_count := att_count a; att_paragraph := att_paragraph a |} f)) by (simpl; by destruct a).
  destruct (IH F2 ns ls ss1 e _ P2 W1 Hf2) as (F3 & ss3 & E3 & P3 & W3 & HE3 & HT3 & [Hde3 Hda3] & Hf3 & Hrest).
  { rewrite <- Hfa, fmap_app. apply NoDup_app. split; [by rewrite fmap_app | done]. } { rewrite <- Hfa, claims_total_app. simpl in *. lia. }
  { done. } { intros b Hb. apply Hsrc. by right. } { rewrite HT2, (g_attributions _ _ Hg). lia. }
  exists F3, ss3. split.
  { csimpl. unfold claim_tuple at 1. rewrite E1. csimpl. rewrite E2. exact E3. }
  split; [done|]. split; [done|]. split; [rewrite HE3, HE2; by rewrite (g_edges _ _ Hg)|].
  split; [rewrite HT3, HT2, (g_attributions _ _ Hg); lia|]. split; [split; congruence|]. split.
  - rewrite Hf3. unfold with_claims, append_claim. simpl. rewrite <- app_assoc. by destruct a.
  - intros j g Hj Hgj. apply Hrest; [done|]. rewrite (Hfacts j g); [by rewrite decide_False | by eapply fact_at_grows].
Qed.
End within.
End install.

(** * [install_edge] adds exactly one fact *)

Section edge.
Context `{UnicodeTables}.

(** ** Room *)

(** The names a write would add to a table. *)
Lemma new_pair (ids : gmap name N) (ns : list name) s o : NoDup ns -> (forall n, ids !! n = None -> n ∉ ns) ->
  exists l, NoDup (l ++ ns) /\ (forall n, n ∈ l -> n = s \/ n = o) /\
    N.b2n (bool_decide (ids !! s = None)) + N.b2n (bool_decide (o <> s) && bool_decide (ids !! o = None)) = lenN l /\
    need_bytes ids s + (if bool_decide (o <> s) then need_bytes ids o else 0) = weigh l.
Proof using.
  intros Hnd Hns. unfold need_bytes.
  assert (Hnew : forall n l, ids !! n = None -> n ∉ l -> NoDup (l ++ ns) -> NoDup ((n :: l) ++ ns)).
  { intros n l Hn Hl Hnd'. simpl. constructor; [|done]. rewrite elem_of_app. intros [?|?]; [done | by apply (Hns n)]. }
  destruct (decide (o = s)) as [->|Hne].
  - rewrite (bool_decide_eq_false_2 (s <> s)) by naive_solver. simpl. destruct (ids !! s) as [i|] eqn:E; simpl.
    + exists []. repeat split; [done | set_solver].
    + exists [s]. split; [apply (Hnew s []); [done | set_solver | done]|]. split; [set_solver|].
      split; [done|]. change (weigh [s]) with (lenN s + 0). lia.
  - rewrite (bool_decide_eq_true_2 (o <> s)) by done.
    destruct (ids !! s) as [i|] eqn:Es, (ids !! o) as [j|] eqn:Eo; simpl.
    + exists []. repeat split; [done | set_solver].
    + exists [o]. split; [apply (Hnew o []); [done | set_solver | done]|]. split; [set_solver|]. split; [done|]. change (weigh [o]) with (lenN o + 0). lia.
    + exists [s]. split; [apply (Hnew s []); [done | set_solver | done]|]. split; [set_solver|]. split; [done|]. change (weigh [s]) with (lenN s + 0). lia.
    + exists [o; s]. split; [apply (Hnew o [s]); [done | set_solver | apply (Hnew s []); [done | set_solver | done]]|].
      split; [set_solver|]. split; [done|]. change (weigh [o; s]) with (lenN o + (lenN s + 0)). lia.
Qed.

Lemma new_one (ids : gmap name N) (ns : list name) s : NoDup ns -> (forall n, ids !! n = None -> n ∉ ns) ->
  exists l, NoDup (l ++ ns) /\ (forall n, n ∈ l -> n = s) /\ (ids !! s = None -> lenN l = 1) /\ need_bytes ids s = weigh l.
Proof using.
  intros Hnd Hns. destruct (new_pair ids ns s s Hnd Hns) as (l & Hl & Hs & Hc & Hb).
  rewrite (bool_decide_eq_false_2 (s <> s)) in Hc, Hb by naive_solver. exists l. split; [done|].
  split; [intros n Hn; by destruct (Hs n Hn)|]. split; [|lia]. intros E. rewrite E in Hc. simpl in Hc. lia.
Qed.

Lemma known_not_in (ids : gmap name N) (ns : list name) : (forall s i, ids !! s = Some i <-> tget ns i = Some s) ->
  forall n, ids !! n = None -> n ∉ ns.
Proof using.
  intros Hi n Hn (j & Hj)%list_elem_of_lookup. assert (ids !! n = Some (N.of_nat j)); [|congruence].
  apply Hi. by rewrite tget_lookup, Nat2N.id.
Qed.

Context (p : pool) (Hp : pool_fits p).

Lemma install_room F ns ls ss s l o src : partial F ns ls ss -> within p ns ls ss ->
  s ∈ p_concepts p -> l ∈ p_labels p -> o ∈ p_concepts p -> (forall n, src = Some n -> n ∈ p_sources p) ->
  lenN (edges F) < NIL -> (is_Some src -> lenN (attributions F) < NIL) -> ensure_room s l o src F = Ok tt.
Proof using Hp.
  intros P [Wc Wl Ws] Hs Hl Ho Hsrc He Ht. apply ensure_room_Ok; [apply (wf_sizes _ (pt_wf _ _ _ _ P))|].
  destruct (partial_lengths _ _ _ _ P) as (E1 & E2 & E3 & _ & _ & Nc & Nl & Ns). destruct Hp as (P1 & P2 & P3 & P4).
  destruct (new_pair (concept_ids F) ns s o Nc) as (lc & Dc & Sc & Cc & Bc).
  { apply known_not_in. intros n i. by eapply partial_concept. }
  destruct (new_one (label_ids F) ls l Nl) as (ll & Dl & Sl & Cl & Bl).
  { apply known_not_in. intros n i. by eapply partial_label. }
  assert (Hso : exists lo, NoDup (lo ++ ss) /\ (forall n, n ∈ lo -> n ∈ p_sources p) /\
    (forall n, src = Some n -> source_ids F !! n = None -> lenN lo = 1) /\
    match src with Some n => need_bytes (source_ids F) n | None => 0 end = weigh lo).
  { destruct src as [n|]; [|exists []; split; [done|]; split; [set_solver | done]].
    destruct (new_one (source_ids F) ss n Ns) as (lo & Do & So & Co & Bo).
    { apply known_not_in. intros m i. by eapply partial_source. }
    exists lo. split; [done|]. split; [intros m Hm; rewrite (So m Hm); by apply Hsrc|].
    split; [intros ? [= <-]; exact Co | done]. }
  destruct Hso as (lo & Do & So & Co & Bo).
  assert (Rc : forall n, n ∈ lc ++ ns -> n ∈ p_concepts p).
  { intros n [Hn|Hn]%elem_of_app; [|by apply Wc]. by destruct (Sc n Hn) as [->| ->]. }
  assert (Rl : forall n, n ∈ ll ++ ls -> n ∈ p_labels p).
  { intros n [Hn|Hn]%elem_of_app; [|by apply Wl]. by rewrite (Sl n Hn). }
  assert (Rs : forall n, n ∈ lo ++ ss -> n ∈ p_sources p).
  { intros n [Hn|Hn]%elem_of_app; [by apply So | by apply Ws]. }
  pose proof (subset_room _ _ Dc Rc) as Qc. pose proof (subset_room _ _ Dl Rl) as Ql. pose proof (subset_room _ _ Do Rs) as Qs.
  pose proof (subset_weigh _ _ Dc Rc) as Vc. pose proof (subset_weigh _ _ Dl Rl) as Vl. pose proof (subset_weigh _ _ Do Rs) as Vs.
  rewrite weigh_app in Vc, Vl, Vs. rewrite lenN_app in Qc, Ql, Qs. unfold need_concepts, need_arena.
  rewrite Cc, Bc, Bl, Bo, E1, E2, E3, (pt_arena _ _ _ _ P).
  split; [lia|]. split; [intros Hn; specialize (Cl Hn); lia|]. split; [intros n Hn Hn'; specialize (Co n Hn Hn'); lia|].
  split; [done|]. split; [intros n -> _; apply Ht; by eexists|]. lia.
Qed.

(** ** The edge *)

Lemma push_edge_partial F ns ls ss sid lid oid n w e F' : partial F ns ls ss -> wf F' ->
  push_edge sid lid oid n w F = Some (e, F') -> partial F' ns ls ss /\ attributions F' = attributions F /\
  dead_edges F' = dead_edges F /\ dead_attributions F' = dead_attributions F /\ lenN (edges F') = lenN (edges F) + 1.
Proof using.
  intros [_ PC PL PS PA] Hwf' HF.
  pose proof (push_edge_frame e_triple _ _ _ _ _ _ _ _ ltac:(done) ltac:(done) ltac:(done) HF) as Ft.
  apply (f_equal lenN) in Ft. rewrite lenN_snoc, !lenN_fmap in Ft.
  apply push_edge_other in HF as (Hc & Hl & HF'). revert Hwf' Ft Hc Hl. rewrite HF'. simpl.
  intros Hwf' Ft Hc Hl. split; [|done]. split; simpl; try assumption.
  - unfold concept_names in *. simpl. by rewrite Hc.
  - unfold label_names in *. simpl. by rewrite Hl.
Qed.

(** What the write needs of the fact it installs. *)
Record installable (fs : list Fact) (f : Fact) : Prop := {
  in_ok : fact_ok f;
  in_live : f_count f <> 0;
  in_new : f_key f ∉ f_key <$> fs;
  in_subject : f_subject f ∈ p_concepts p /\ utf8_valid (f_subject f) = true;
  in_object : f_object f ∈ p_concepts p /\ utf8_valid (f_object f) = true;
  in_label : f_label f ∈ p_labels p /\ utf8_valid (f_label f) = true;
  in_sources : forall a, a ∈ f_attributions f -> att_source a ∈ p_sources p
}.

Lemma new_triple F fs sid lid oid s l o : wf F -> facts F = Some fs -> (s, l, o) ∉ f_key <$> fs ->
  concept_name F sid = Some s -> label_name F lid = Some l -> concept_name F oid = Some o ->
  edge_ids F !! (sid, lid, oid) = None.
Proof using.
  intros Hwf Hfs Hnew Hs Hl Ho. destruct (edge_ids F !! (sid, lid, oid)) as [e|] eqn:E; [exfalso | done].
  apply (wf_triples _ Hwf) in E. rewrite tget_fmap in E. apply fmap_Some in E as (ed & Hed & [= -> -> ->]).
  destruct (fact_at_total F e Hwf) as [g Hg]; [by eapply tget_Some_lt|].
  apply Hnew, list_elem_of_fmap. exists g. split.
  - apply fact_at_inv in Hg as (ed' & ? & Hed' & G1 & G2 & G3 & _). assert (ed' = ed) as -> by congruence.
    unfold f_key. congruence.
  - apply facts_lookup in Hfs as [Hlen Hget]. apply (tget_Some_elem fs). exists e. rewrite Hget; [done|]. by eapply tget_Some_lt.
Qed.

Lemma install_edge_spec F ns ls ss fs f w : partial F ns ls ss -> within p ns ls ss -> facts F = Some fs ->
  installable fs f -> f64_finite w = true -> lenN (edges F) < NIL ->
  lenN (attributions F) + lenN (f_attributions f) <= NIL ->
  exists F' ns' ls' ss', install_edge (f_subject f) (f_label f) (f_object f) (f_count f) w (claim_tuple <$> f_attributions f) F =
      Some (Ok tt, F') /\ partial F' ns' ls' ss' /\ within p ns' ls' ss' /\
    facts F' = Some (fs ++ [with_claims (bare_fact (f_key f) (f_count f) w) (f_attributions f)]) /\
    lenN (attributions F') = lenN (attributions F) + lenN (f_attributions f) /\
    dead_edges F' = dead_edges F /\ dead_attributions F' = dead_attributions F.
Proof using Hp.
  intros P W Hfs [[Ft Fc _ Fs Fcl] Hlive Hnew [Ss Vs] [So Vo] [Sl Vl] Hsrc] Hw He Ht. unfold install_edge.
  rewrite (install_room F ns ls ss (f_subject f) (f_label f) (f_object f) _ P W Ss Sl So); [| |done|].
  2: { intros n Hn. destruct (f_attributions f) as [|a l]; [done|]. simpl in Hn. injection Hn as <-. apply Hsrc. by left. }
  2: { destruct (f_attributions f) as [|a l]; [by intros [? ?]|]. unfold lenN in *. simpl in *. lia. }
  destruct (intern_concept_partial p Hp F ns ls ss (f_subject f) P W Ss Vs) as (sid & F1 & ns1 & -> & P1 & W1 & N1 & O1 & G1 & D1 & T1 & _).
  csimpl. destruct (intern_concept_partial p Hp F1 ns1 ls ss (f_object f) P1 W1 So Vo) as (oid & F2 & ns2 & -> & P2 & W2 & N2 & O2 & G2 & D2 & T2 & _).
  csimpl. destruct (intern_label_partial p Hp F2 ns2 ls ss (f_label f) P2 W2 Sl Vl) as (lid & F3 & ls3 & -> & P3 & W3 & N3 & O3 & G3 & D3 & T3 & _).
  csimpl. pose proof (pt_wf _ _ _ _ P3) as Wf3. apply (one_more_mono _ _ _ _ _ O2) in N1.
  assert (G : grows F F3) by (etransitivity; [exact G1|]; by etransitivity).
  apply (partial_concept _ _ _ _ _ _ P3) in N1. apply (partial_concept _ _ _ _ _ _ P3) in N2. apply (partial_label _ _ _ _ _ _ P3) in N3.
  assert (Cs : concept_name F3 sid = Some (f_subject f)).
  { destruct (concept_name_total Wf3 sid) as [m Hm]; [by eapply concept_id_lt|]. rewrite Hm. f_equal.
    apply (concept_name_id Wf3) in Hm. apply (partial_concept _ _ _ _ _ _ P3) in Hm, N1. congruence. }
  assert (Co : concept_name F3 oid = Some (f_object f)).
  { destruct (concept_name_total Wf3 oid) as [m Hm]; [by eapply concept_id_lt|]. rewrite Hm. f_equal.
    apply (concept_name_id Wf3) in Hm. apply (partial_concept _ _ _ _ _ _ P3) in Hm, N2. congruence. }
  assert (Cl : label_name F3 lid = Some (f_label f)).
  { destruct (label_name_total Wf3 lid) as [m Hm]; [by eapply label_id_lt|]. rewrite Hm. f_equal.
    apply (label_name_id Wf3) in Hm. apply (partial_label _ _ _ _ _ _ P3) in Hm, N3. congruence. }
  assert (Hfs3 : facts F3 = Some fs).
  { apply facts_lookup in Hfs as [Hlen Hget]. apply facts_intro; [by rewrite (g_edges _ _ G)|].
    intros i g Hg. eapply fact_at_grows; [exact G|]. rewrite <- Hget; [done|]. rewrite <- Hlen. by eapply tget_Some_lt. }
  pose proof (new_triple F3 fs sid lid oid _ _ _ Wf3 Hfs3 Hnew Cs Cl Co) as Hnone.
  destruct (push_edge_total sid lid oid (f_count f) w F3 Wf3) as [F4 HF4]; try by (eapply concept_id_lt || eapply label_id_lt).
  { by rewrite (g_edges _ _ G). }
  assert (Wf4 : wf F4) by (eapply (push_edge_wf sid lid oid (f_count f) w F3); [done | done | lia | done | exact HF4]).
  destruct (push_edge_partial _ _ _ _ _ _ _ _ _ _ _ P3 Wf4 HF4) as (P4 & T4 & D4 & DT4 & E4).
  destruct (push_edge_facts _ _ _ _ _ _ _ _ _ _ _ Cs Cl Co HF4) as [Hbare Hold]. rewrite HF4. csimpl.
  destruct (install_attributions_spec p Hp (f_attributions f) F4 ns2 ls3 ss (lenN (edges F3)) _ P4 W3 Hbare)
    as (F5 & ss5 & -> & P5 & W5 & E5 & T5 & [D5 DT5] & Hnewf & Hrest); try done.
  { by rewrite T4, (g_attributions _ _ G). }
  csimpl. exists F5, ns2, ls3, ss5. split; [done|]. split; [done|]. split; [done|]. split.
  - apply facts_lookup in Hfs3 as [Hlen Hget]. apply facts_intro; [rewrite lenN_snoc, E5, E4; lia|].
    intros i g [Hg|[-> ->]]%tget_snoc_inv.
    + apply Hrest; [intros ->; apply tget_Some_lt in Hg; lia|]. apply Hold. rewrite <- Hget; [done|].
      rewrite <- Hlen. by eapply tget_Some_lt.
    + by rewrite Hlen, Hnewf.
  - split; [rewrite T5, T4, (g_attributions _ _ G); done|]. split; congruence.
Qed.
End edge.

(** * The aliases of a compacted context

    Re-adding the aliases keeps those whose canonical name came back and counts
    the others. *)

Section aliases.
Context `{UnicodeTables} (S : AliasSpace).

Lemma alias_pairs_spec c pairs : wf c -> alias_pairs S c = Some pairs ->
  exists ns al, namespace_wf (arena c) (as_records c) (a_entry <$> an_aliases (as_handle c)) (an_ids (as_handle c))
      (an_alias_index (as_handle c)) (an_index (as_handle c)) ns al /\
    pairs.*1 = al /\ lenN pairs = lenN (an_aliases (as_handle c)) /\
    forall a n, (a, n) ∈ pairs -> n ∈ ns /\ utf8_valid a = true.
Proof using.
  intros Hwf Hp. destruct (as_wf c Hwf) as (ns & al & Hns). exists ns, al. split; [done|].
  unfold alias_pairs in Hp. apply mapM_Some in Hp. pose proof (nw_names _ _ _ _ _ _ _ _ Hns) as Hn.
  pose proof (alias_ranges _ _ _ (ns_aliases _ _ _ _ _ _ Hn)) as Ha.
  assert (Hpair : Forall2 (fun r p => name_at (arena c) (a_name_offset r) (a_name_len r) = Some p.1 /\
    as_name c (a_target r) = Some p.2) (an_aliases (as_handle c)) pairs).
  { eapply Forall2_impl; [exact Hp|]. intros r [a n] Hr. cbn beta in Hr. apply bind_Some in Hr as (a' & Ha' & Hr).
    apply bind_Some in Hr as (n' & Hn' & [= <- <-]). done. }
  split; [|split].
  - clear -Hpair Ha. revert al Ha. induction Hpair as [|r p rs ps [Hr _] _ IH]; intros al Ha.
    + by apply Forall2_nil_inv_l in Ha.
    + apply Forall2_cons_inv_l in Ha as (a & al' & Har & Ha & ->). csimpl. f_equal; [congruence | by apply IH].
  - unfold lenN. f_equal. symmetry. by eapply Forall2_length.
  - intros a n (j & Hj)%list_elem_of_lookup. destruct (Forall2_lookup_r _ _ _ _ _ Hpair Hj) as (r & _ & Hr & Hnm).
    simpl in Hr, Hnm. split; [|by apply name_at_valid in Hr as [? _]]. rewrite as_name_spec in Hnm.
    apply bind_Some in Hnm as (rg & Hrg & Hnm). destruct (ns_name_at Hn _ _ Hrg) as (n' & Hn' & Hin).
    rewrite tget_lookup in Hin. apply list_elem_of_lookup_2 in Hin. congruence.
Qed.

(** What an addition leaves alone. *)
Lemma add_space_alias_shape alias canonical c r c' : add_space_alias S alias canonical c = Some (r, c') ->
  (exists x, arena c' = arena c ++ x /\ lenN x <= lenN alias) /\ exists a h slack, c' = as_put a h slack c.
Proof using.
  unfold add_space_alias. destruct (add_alias _ _ _ _ _) as [[r' [a h]]|] eqn:E; simpl; [|done]. intros [= <- <-].
  rewrite as_put_arena. split; [|by eexists _, _, _].
  assert (Hsame : forall a', a' = arena c -> exists x, a' = arena c ++ x /\ lenN x <= lenN alias).
  { intros a' ->. exists []. rewrite app_nil_r. unfold lenN. simpl. split; [done | lia]. }
  revert E. unfold add_alias.
  destruct (an_ids _ !! canonical) as [t|]; [|intros [= _ <- _]; by apply Hsame].
  destruct (an_ids _ !! alias) as [t'|]; [destruct (t' =? t); intros [= _ <- _]; by apply Hsame|].
  destruct (negb (ids_left _ _)); [intros [= _ <- _]; by apply Hsame|].
  destruct (negb (arena_fits _ _)); [intros [= _ <- _]; by apply Hsame|].
  destruct (intern_name (arena c) alias) as [x|] eqn:E; simpl; [|done]. apply intern_name_inv in E as [-> _]. simpl.
  destruct (ei_push _ _ _); simpl; [|done]. intros [= _ <- _]. by exists alias.
Qed.

Context {B : Type} (other : Context -> B) (Hother : forall a h slack c, other (as_put a h slack c) = other c).

(** Whether a pair survives, given the spellings known before any alias. *)
Definition resolves (base : gmap name N) (pair : name * name) : bool := bool_decide (is_Some (base !! pair.2)).

Definition adopted (base : gmap name N) (pairs : list (name * name)) (ids : gmap name N) : gmap name N :=
  foldl (fun m pair => match base !! pair.2 with Some t => <[pair.1 := t]> m | None => m end) ids pairs.

Lemma adopted_cons base a n pairs ids : adopted base ((a, n) :: pairs) ids =
  adopted base pairs (match base !! n with Some t => <[a := t]> ids | None => ids end).
Proof using. reflexivity. Qed.

Lemma compact_aliases_spec expired base pairs : forall st,
  wf (cp_fresh st) -> NoDup pairs.*1 -> (forall a n, (a, n) ∈ pairs -> utf8_valid a = true /\ an_ids (as_handle (cp_fresh st)) !! a = None) ->
  (forall a n, (a, n) ∈ pairs -> an_ids (as_handle (cp_fresh st)) !! n = base !! n /\ n ∉ pairs.*1) ->
  lenN (arena (cp_fresh st)) + weigh pairs.*1 <= U32_MAX ->
  lenN (as_records (cp_fresh st)) + lenN (an_aliases (as_handle (cp_fresh st))) + lenN pairs <= NIL ->
  (compact_aliases S expired pairs st = Some (Err DeadlineExceeded) /\
    exists k, cp_polls st <= k < cp_polls st + lenN pairs /\ expired k = true) \/
  exists st', compact_aliases S expired pairs st = Some (Ok st') /\ wf (cp_fresh st') /\
    cp_polls st' = cp_polls st + lenN pairs /\ (forall k, cp_polls st <= k < cp_polls st' -> expired k = false) /\
    facts (cp_fresh st') = facts (cp_fresh st) /\ other (cp_fresh st') = other (cp_fresh st) /\
    an_ids (as_handle (cp_fresh st')) = adopted base pairs (an_ids (as_handle (cp_fresh st))) /\
    as_records (cp_fresh st') = as_records (cp_fresh st) /\
    (exists x, arena (cp_fresh st') = arena (cp_fresh st) ++ x /\ lenN x <= weigh pairs.*1) /\
    cs_dead_edges (cp_stats st') = cs_dead_edges (cp_stats st) /\
    cs_aliases_dropped (cp_stats st') = cs_aliases_dropped (cp_stats st) +
      lenN (filter (fun pair => resolves base pair = false) pairs).
Proof using Hother.
  induction pairs as [|[a n] pairs IH]; intros st Hwf Hnd Hfresh Hcan Har Hroom.
  { right. exists st. split; [done|]. split; [done|]. split; [unfold lenN; simpl; lia|]. split; [lia|].
    do 4 (split; [done|]). split; [exists []; by rewrite app_nil_r|]. split; [done|]. unfold lenN; simpl; lia. }
  assert (Hl : lenN ((a, n) :: pairs) = lenN pairs + 1) by (unfold lenN; simpl; lia). cbn [compact_aliases].
  destruct (expired (cp_polls st)) eqn:Hexp; [left; split; [done|]; exists (cp_polls st); split; [lia | done]|].
  cbn [cp_fresh poll]. apply NoDup_cons in Hnd as [Hna Hnd]. change (weigh ((a, n) :: pairs).*1) with (lenN a + weigh pairs.*1) in *.
  destruct (Hfresh a n ltac:(by left)) as [Hv Hnone]. destruct (Hcan a n ltac:(by left)) as [Hbase Hself].
  destruct (space_spans S (cp_fresh st) Hwf) as [Hsp Hal].
  destruct (add_space_alias_cases S a n (cp_fresh st) Hwf Hv) as (r & c' & Hadd & Hwf' & Hrec & Hout); [lia|].
  destruct (add_space_alias_shape _ _ _ _ _ Hadd) as ((y & Har' & Hy) & xa & xh & xs & Hshape).
  rewrite Hadd. csimpl. rewrite Hnone, Hbase in Hout.
  assert (Hot : other c' = other (cp_fresh st)) by (by rewrite Hshape, Hother).
  destruct (base !! n) as [t|] eqn:Et.
  - destruct (N.eqb_spec (lenN (an_aliases (as_handle (cp_fresh st)))) NIL); [lia|].
    destruct (N.ltb_spec U32_MAX (lenN (arena (cp_fresh st)) + lenN a)); [lia|].
    destruct Hout as (-> & Hids & Hai & Hf).
    destruct (space_spans S c' Hwf') as [_ Hal']. rewrite Hai, map_size_insert_None in Hal'.
    2: { destruct (as_wf _ Hwf) as (ns & al & [Hn1 Hn2 _]). rewrite Hn2. apply not_elem_of_list_to_map.
         rewrite fst_zip by (pose proof (ns_al_length Hn1); lia). intros Hin.
         apply (ns_fresh Hn1 a Hnone), elem_of_app. by right. }
    destruct (IH (with_fresh c' (poll st))) as [[HE (k & Hk & Hx)]|(st' & HE & W & Pl & Ex & Fa & Ot & Id & Re & (z & Ar & Hz) & De & Dr)];
      cbn [cp_fresh cp_polls cp_stats with_fresh poll count_dropped cs_dead_edges cs_aliases_dropped] in *; try done.
    + intros b m Hb. destruct (Hfresh b m ltac:(by right)) as [? Hb']. split; [done|]. rewrite Hids.
      rewrite lookup_insert_ne; [done|]. intros ->. apply Hna, list_elem_of_fmap. by exists (b, m).
    + intros b m Hb. destruct (Hcan b m ltac:(by right)) as [Hb1 Hb2]. split; [|set_solver]. rewrite Hids.
      rewrite lookup_insert_ne; [done|]. intros ->. apply Hb2. by left.
    + rewrite Har', lenN_app. lia.
    + rewrite Hrec. lia.
    + left. split; [exact HE|]. exists k. split; [lia | done].
    + right. exists st'. split; [exact HE|]. split; [done|]. split; [lia|]. split.
      { intros k Hk. destruct (decide (k = cp_polls st)) as [->|]; [done | apply Ex; lia]. }
      destruct (facts_total _ Hwf) as [fs Hfs]. split; [by rewrite Fa, Hfs, (Hf fs Hfs)|]. split; [congruence|].
      split; [by rewrite Id, Hids|]. split; [congruence|].
      split; [exists (y ++ z); rewrite Ar, Har', app_assoc, lenN_app; split; [done | lia]|]. split; [done|].
      rewrite Dr, filter_cons, decide_False; [done|]. unfold resolves. simpl. rewrite Et. by rewrite bool_decide_eq_true_2 by by eexists.
  - destruct Hout as [-> ->].
    destruct (IH (count_dropped (with_fresh (cp_fresh st) (poll st)))) as [[HE (k & Hk & Hx)]|(st' & HE & W & Pl & Ex & Fa & Ot & Id & Re & (z & Ar & Hz) & De & Dr)];
      cbn [cp_fresh cp_polls cp_stats with_fresh poll count_dropped cs_dead_edges cs_aliases_dropped] in *; try done.
    + intros b m Hb. apply (Hfresh b m). by right.
    + intros b m Hb. destruct (Hcan b m ltac:(by right)). split; [done | set_solver].
    + lia.
    + lia.
    + left. split; [exact HE|]. exists k. split; [lia | done].
    + right. exists st'. split; [exact HE|]. split; [done|]. split; [lia|]. split.
      { intros k Hk. destruct (decide (k = cp_polls st)) as [->|]; [done | apply Ex; lia]. }
      split; [done|]. split; [done|]. split; [done|]. split; [done|]. split; [exists z; split; [done | lia]|]. split; [done|].
      rewrite Dr, filter_cons, decide_True; [unfold lenN; simpl; lia|]. unfold resolves. simpl. rewrite Et.
      by rewrite bool_decide_eq_false_2 by (by intros [? ?]).
Qed.

(** Only the survivors are new, and each finds its canonical name's record. *)
Lemma adopted_lookup base pairs : forall ids, NoDup pairs.*1 -> forall s,
  adopted base pairs ids !! s = match list_find (fun p => p.1 = s) pairs with
    | Some (_, p) => match base !! p.2 with Some t => Some t | None => ids !! s end
    | None => ids !! s end.
Proof using.
  induction pairs as [|[a n] pairs IH]; intros ids Hnd s; [done|]. apply NoDup_cons in Hnd as [Hna Hnd].
  rewrite adopted_cons, IH by done. simpl. case_decide as Hs.
  - subst a. assert (list_find (fun p => p.1 = s) pairs = None) as ->.
    { apply list_find_None. apply Forall_forall. intros [b m] Hb Hbs. simpl in Hbs. subst b.
      apply Hna, list_elem_of_fmap. by exists (s, m). }
    cbn [snd]. destruct (base !! n); [by rewrite lookup_insert_eq | done].
  - destruct (list_find (fun p => p.1 = s) pairs) as [[i p]|]; csimpl; [destruct (base !! p.2)|];
      (destruct (base !! n); [|done]); rewrite ?lookup_insert_ne by congruence; done.
Qed.
End aliases.

(** * The edge loop of a compaction *)

(** The live fact as the fresh context holds it: everything verbatim but the sum,
    which is the average times the count. *)
Definition compact_fact (f : Fact) : Fact :=
  {| f_subject := f_subject f; f_label := f_label f; f_object := f_object f; f_count := f_count f;
     f_sum := rebuilt_sum (fact_association f); f_attributions := f_attributions f |}.

Definition live_facts (fs : list Fact) : list Fact := filter (fun f => f_count f <> 0) fs.

Definition claims_len (fs : list Fact) : N := foldr (fun f acc => lenN (f_attributions f) + acc) 0 fs.

Section loop.
Context `{UnicodeTables} (p : pool) (Hp : pool_fits p).

Record drawn (f : Fact) : Prop := {
  dr_ok : fact_ok f;
  dr_subject : f_subject f ∈ p_concepts p /\ utf8_valid (f_subject f) = true;
  dr_object : f_object f ∈ p_concepts p /\ utf8_valid (f_object f) = true;
  dr_label : f_label f ∈ p_labels p /\ utf8_valid (f_label f) = true;
  dr_sources : forall a, a ∈ f_attributions f -> att_source a ∈ p_sources p
}.

Lemma compact_edges_spec expired todo : forall st ns ls ss kept,
  partial (cp_fresh st) ns ls ss -> within p ns ls ss -> facts (cp_fresh st) = Some kept ->
  (forall f, f ∈ todo -> f_count f <> 0 -> drawn f) -> NoDup (f_key <$> kept ++ todo) ->
  lenN kept + lenN todo <= NIL -> lenN (attributions (cp_fresh st)) + claims_len todo <= NIL ->
  (compact_edges expired (fact_association <$> todo) st = Some (Err DeadlineExceeded) /\
    exists k, cp_polls st <= k < cp_polls st + lenN todo /\ expired k = true) \/
  exists st' ns' ls' ss', compact_edges expired (fact_association <$> todo) st = Some (Ok st') /\
    partial (cp_fresh st') ns' ls' ss' /\ within p ns' ls' ss' /\
    cp_polls st' = cp_polls st + lenN todo /\ (forall k, cp_polls st <= k < cp_polls st' -> expired k = false) /\
    facts (cp_fresh st') = Some (kept ++ (compact_fact <$> live_facts todo)) /\
    (dead_edges (cp_fresh st') = dead_edges (cp_fresh st) /\ dead_attributions (cp_fresh st') = dead_attributions (cp_fresh st)) /\
    cs_dead_edges (cp_stats st') = cs_dead_edges (cp_stats st) + lenN (filter (fun f => f_count f = 0) todo) /\
    cs_aliases_dropped (cp_stats st') = cs_aliases_dropped (cp_stats st).
Proof using Hp.
  induction todo as [|f todo IH]; intros st ns ls ss kept P W Hfs Hdr Hnd He Ht.
  { right. exists st, ns, ls, ss. split; [done|]. split; [done|]. split; [done|]. split; [unfold lenN; simpl; lia|].
    split; [lia|]. split; [by rewrite app_nil_r|]. split; [done|]. split; [unfold lenN; simpl; lia | done]. }
  assert (Hl : lenN (f :: todo) = lenN todo + 1) by (unfold lenN; simpl; lia).
  change (claims_len (f :: todo)) with (lenN (f_attributions f) + claims_len todo) in Ht.
  csimpl. cbn [compact_edges].
  destruct (expired (cp_polls st)) eqn:Hexp; [left; split; [done|]; exists (cp_polls st); split; [lia | done]|].
  change (as_count (fact_association f)) with (f_count f). unfold live_facts. rewrite !filter_cons.
  destruct (N.eqb_spec (f_count f) 0) as [Hz|Hz].
  - rewrite decide_False by tauto. rewrite (decide_True (P := f_count f = 0)) by done. fold (live_facts todo).
    destruct (IH (count_dead_edge (poll st)) ns ls ss kept P W Hfs) as
      [[HE (k & Hk & Hx)]|(st' & ns' & ls' & ss' & HE & P' & W' & Pl & Ex & Fa & De & D1 & D2)];
      cbn [cp_fresh cp_polls cp_stats poll count_dead_edge cs_dead_edges cs_aliases_dropped] in *.
    + intros g Hg. apply Hdr. by right.
    + rewrite fmap_app in Hnd |- *. csimpl in Hnd. rewrite <- Permutation_middle in Hnd. by apply NoDup_cons in Hnd as [_ ?].
    + lia.
    + lia.
    + left. split; [exact HE|]. exists k. split; [lia | done].
    + right. exists st', ns', ls', ss'. split; [exact HE|]. split; [done|]. split; [done|]. split; [lia|]. split.
      { intros k Hk. destruct (decide (k = cp_polls st)) as [->|]; [done | apply Ex; lia]. }
      split; [done|]. split; [done|]. split; [|done]. rewrite D1. unfold lenN. simpl. lia.
  - rewrite decide_True by done. rewrite (decide_False (P := f_count f = 0)) by done. fold (live_facts todo).
    destruct (Hdr f ltac:(by left) Hz) as [Ok1 Ok2 Ok3 Ok4 Ok5]. rewrite fmap_app in Hnd. csimpl in Hnd.
    assert (Hnew : f_key f ∉ f_key <$> kept) by (apply NoDup_app in Hnd as (_ & Hd & _); intros Hin; apply (Hd _ Hin); by left).
    assert (HF : lenN (edges (cp_fresh st)) = lenN kept) by by apply facts_lookup in Hfs as [-> _].
    destruct (install_edge_spec p Hp (cp_fresh st) ns ls ss kept f (rebuilt_sum (fact_association f)) P W Hfs)
      as (F' & ns1 & ls1 & ss1 & HI & P1 & W1 & Fa1 & T1 & D1 & DT1);
      [by split | apply clamp_finite_finite | lia | lia |].
    match goal with |- context [mbind _ ?m] => change m with (install_edge (f_subject f) (f_label f) (f_object f) (f_count f)
      (rebuilt_sum (fact_association f)) (claim_tuple <$> f_attributions f) (cp_fresh st)) end.
    rewrite HI. csimpl. change (with_claims _ _) with (compact_fact f) in Fa1.
    destruct (IH (with_fresh F' (poll st)) ns1 ls1 ss1 (kept ++ [compact_fact f]) P1 W1 Fa1) as
      [[HE (k & Hk & Hx)]|(st' & ns' & ls' & ss' & HE & P' & W' & Pl & Ex & Fa & [De De'] & D2 & D3)];
      cbn [cp_fresh cp_polls cp_stats poll with_fresh cs_dead_edges cs_aliases_dropped] in *.
    + intros g Hg. apply Hdr. by right.
    + rewrite !fmap_app, <- app_assoc. exact Hnd.
    + rewrite lenN_app. change (lenN [compact_fact f]) with 1. lia.
    + lia.
    + left. split; [exact HE|]. exists k. split; [lia | done].
    + right. exists st', ns', ls', ss'. split; [exact HE|]. split; [done|]. split; [done|]. split; [lia|]. split.
      { intros k Hk. destruct (decide (k = cp_polls st)) as [->|]; [done | apply Ex; lia]. }
      split; [rewrite Fa, <- app_assoc; done|]. split; [split; congruence|]. done.
Qed.
End loop.
