(* ===== verification/QueryClaims.v ===== *)
(** * What the reads answer

    First the scans behind them.  Any set of chains that covers what a read keeps gives the same answer as a
    scan of the whole edge table: sorted chain edges are a subsequence of the
    table, and every edge left out is one the test refuses.  Which anchor
    [query_any] picks therefore never shows in the answer, only in how many edges it reads. *)

From S2P Require Export QueryThm Refine.

Local Open Scope N_scope.

(** ** Selecting facts *)

Section select.
Context `{UnicodeTables} {c : Context} (Hwf : wf c).
Context {lens : EdgeLens} {view : Fact -> option Association} `{!LensView lens c view}.

Lemma select_facts (P : Fact -> Prop) `{!forall f, Decision (P f)} keep ids fs :
  Forall2 (fun i f => fact_at c i = Some f) ids fs ->
  (forall i f, fact_at c i = Some f -> keep i = Some (bool_decide (P f /\ is_Some (view f)))) ->
  select lens keep ids = Some (omap view (filter P fs)).
Proof using All.
  clear Hwf. intros H2 Hk. unfold select. induction H2 as [|i f ids fs Hf _ IH]; [done|]. simpl.
  rewrite (Hk i f Hf). rewrite filter_cons. cbn [mbind option_bind].
  destruct (filterM keep ids) as [kept|]; [|done]. cbn [mbind option_bind] in *.
  case_bool_decide as Hd.
  - destruct Hd as [HP [a Ha]]. rewrite decide_True by done. simpl.
    rewrite (view_association i f a Hf Ha). simpl. rewrite IH. simpl. by rewrite Ha.
  - case_decide; simpl; [|done]. destruct (view f) eqn:E; [|done]. exfalso. eauto.
Qed.

(** A sorted subset that holds every edge the test keeps is as good as the table. *)
Lemma select_cover keep ids :
  StronglySorted N.lt ids -> (forall i, i ∈ ids -> i < lenN (edges c)) ->
  (forall i, i < lenN (edges c) -> i ∉ ids -> keep i = Some false) ->
  select lens keep ids = select lens keep (indices (edges c)).
Proof using.
  clear. intros Hs Hlt Hno. unfold select. f_equal.
  assert (Hids : ids = filter (fun i => i ∈ ids) (indices (edges c))).
  { apply sorted_unique; [done | apply StronglySorted_filter, indices_sorted |].
    intros i. rewrite list_elem_of_filter, elem_of_indices. split; [|tauto]. auto. }
  rewrite Hids at 1. apply filterM_filter. intros i Hi%elem_of_indices Hni. by apply Hno.
Qed.
End select.

(** ** Anchors *)

(** Chains that are distinct, in range, and cover what [keep] keeps. *)
Definition covers (c : Context) (keep : EdgeId -> option bool) (chains : list (list EdgeId)) : Prop :=
  NoDup (mjoin chains) /\ (forall i, i ∈ mjoin chains -> i < lenN (edges c)) /\
  forall i, i < lenN (edges c) -> i ∉ mjoin chains -> keep i = Some false.

Definition anchor_good (c : Context) (keep : EdgeId -> option bool) (a : option scan_anchor) : Prop :=
  match a with
  | None => True
  | Some (total, firsts, follow) =>
    exists chains, mapM (fun first => edge_chain c first follow) firsts = Some chains /\ covers c keep chains /\
      total = lenN (mjoin chains)
  end.

Lemma owned_chains {owners : list N} os chains :
  NoDup os ->
  Forall2 (fun o ids => NoDup ids /\ forall e, e ∈ ids <-> tget owners e = Some o) os chains ->
  NoDup (mjoin chains) /\ forall e, e ∈ mjoin chains <-> exists o, o ∈ os /\ tget owners e = Some o.
Proof.
  intros Hnd H2. revert Hnd. induction H2 as [|o ids os chains [Hn Hi] H2 IH]; simpl.
  - intros _. split; [constructor|]. set_solver.
  - intros [Ho Hnd]%NoDup_cons. destruct (IH Hnd) as [IHn IHi]. split.
    + apply NoDup_app. split; [done|]. split; [|done]. intros e He (o' & Ho' & He')%IHi.
      apply Hi in He. congruence.
    + intros e. rewrite elem_of_app, Hi, IHi. setoid_rewrite elem_of_cons. naive_solver.
Qed.

(** A position's share of the table: the edges one of its ids owns. *)
Definition owned_by (owners : list N) (s : gset N) (i : N) : Prop :=
  match tget owners i with Some o => o ∈ s | None => False end.
#[export] Instance owned_by_dec owners s i : Decision (owned_by owners s i).
Proof. unfold owned_by. destruct (tget owners i); apply _. Defined.
Definition owned (owners : list N) (s : gset N) : list N := filter (owned_by owners s) (indices owners).

Lemma owned_lookup owners s i : owned_by owners s i <-> exists o, o ∈ elements s /\ tget owners i = Some o.
Proof. unfold owned_by. setoid_rewrite elem_of_elements. destruct (tget owners i); naive_solver. Qed.

Lemma owned_length owners s : lenN (owned owners s) <= lenN owners.
Proof. unfold owned, lenN. pose proof (length_filter (owned_by owners s) (indices owners)) as Hl. rewrite indices_length in Hl. lia. Qed.

Lemma owned_chain_total owners s (chains : list (list N)) :
  NoDup (mjoin chains) -> (forall e, e ∈ mjoin chains <-> exists o, o ∈ elements s /\ tget owners e = Some o) ->
  lenN (mjoin chains) = lenN (owned owners s).
Proof.
  intros Hn Hi. unfold lenN. f_equal. apply Permutation_length, NoDup_Permutation; [done| |].
  - apply NoDup_filter, NoDup_indices.
  - intros e. unfold owned. rewrite list_elem_of_filter, elem_of_indices, owned_lookup, Hi. split; [|tauto].
    intros (o & Ho & He). split; [eauto | by eapply tget_Some_lt].
Qed.

Lemma sum_lengths (chains : list (list N)) acc : acc + lenN (mjoin chains) <= U64_MAX ->
  foldl u64_add acc (lenN <$> chains) = acc + lenN (mjoin chains).
Proof.
  revert acc. induction chains as [|ids chains IH]; intros acc Hle; [by rewrite N.add_0_r|]. rewrite fmap_cons. cbn [foldl].
  assert (Hj : lenN (mjoin (ids :: chains)) = lenN ids + lenN (mjoin chains)) by (cbn; apply lenN_app).
  rewrite Hj in *. change (EdgeId) with N in *. pose proof (u64_add_small acc (lenN ids)) as Hs.
  rewrite Hs by lia. rewrite IH by lia. lia.
Qed.

(** The narrower of two totals, either of which may be missing. *)
Definition narrower : option N -> option N -> option N := union_with (fun a b => Some (N.min a b)).
Definition anchor_total (a : option scan_anchor) : option N := (fun a => a.1.1) <$> a.

Section anchors.
Context {R : Type} (table : list R) (anchor_of : R -> anchor) (count : R -> N) (first : R -> EdgeId).
Context (next : EdgeRecord -> EdgeId) (owner : EdgeRecord -> N) (c : Context).
Context (Hanchor : forall r, exists last, anchor_of r = (first r, last, count r)).
Context (Hchains : chains_wf (next <$> edges c) (owner <$> edges c) (anchor_of <$> table)).
Context (Hsize : lenN (edges c) <= NIL).

Lemma anchor_chains os : NoDup os -> (forall o, o ∈ os -> o < lenN table) ->
  exists rows chains, mapM (tget table) os = Some rows /\
    mapM (fun f => edge_chain c f next) (first <$> rows) = Some chains /\
    count <$> rows = lenN <$> chains /\
    NoDup (mjoin chains) /\
    forall e, e ∈ mjoin chains <-> exists o, o ∈ os /\ tget (owner <$> edges c) e = Some o.
Proof using All.
  intros Hnd Hlt.
  assert (exists rows chains, mapM (tget table) os = Some rows /\
    mapM (fun f => edge_chain c f next) (first <$> rows) = Some chains /\
    count <$> rows = lenN <$> chains /\
    Forall2 (fun o ids => NoDup ids /\ forall e, e ∈ ids <-> tget (owner <$> edges c) e = Some o) os chains)
    as (rows & chains & Hr & Hc & Hl & H2).
  { clear Hnd. induction os as [|o os IH]; [by exists [], []|].
    destruct IH as (rows & chains & Hr & Hc & Hl & H2); [set_solver|].
    destruct (tget_lt table o) as [r Hro]; [set_solver|]. destruct (Hanchor r) as [last Hlast].
    destruct (chains_walk _ _ _ o (first r) last (count r) Hchains) as (ids & Hw & Hn & Hcount & Hi).
    { by rewrite tget_fmap, Hro, <- Hlast. }
    assert (Hec : edge_chain c (first r) next = Some ids) by (unfold edge_chain; by rewrite length_fmap in Hw).
    exists (r :: rows), (ids :: chains). split; [|split; [|split; [|by constructor]]].
    - simpl. by rewrite Hro; simpl; rewrite Hr.
    - rewrite fmap_cons. change (mapM ?g (?x :: ?l)) with (y ← g x; k ← mapM g l; Some (y :: k)).
      cbn beta. by rewrite Hec; simpl; rewrite Hc.
    - by rewrite !fmap_cons, Hcount, Hl. }
  destruct (owned_chains os chains Hnd H2). eauto 8.
Qed.

(** Offering a position keeps the anchor good, and keeps the narrower. *)
Lemma offer_anchor_good keep ids narrowest :
  anchor_good c keep narrowest ->
  (forall s, ids = Some s -> forall o, o ∈ s -> o < lenN table) ->
  (forall i e, tget (edges c) i = Some e -> in_set ids (owner e) = false -> keep i = Some false) ->
  exists a, offer_anchor table ids count first next narrowest = Some a /\ anchor_good c keep a /\
    anchor_total a = narrower (anchor_total narrowest) (lenN ∘ owned (owner <$> edges c) <$> ids).
Proof using All.
  intros Hgood Hlt Hkeep. unfold offer_anchor.
  destruct ids as [s|]; [|exists narrowest; by destruct narrowest].
  destruct (anchor_chains (elements s) (NoDup_elements s)) as (rows & chains & Hr & Hc & Hl & Hn & Hi).
  { intros o Ho%elem_of_elements. by eapply Hlt. }
  pose proof (owned_chain_total _ _ _ Hn Hi) as Ht. pose proof (owned_length (owner <$> edges c) s) as Hle.
  rewrite lenN_fmap in Hle. rewrite Hr. simpl.
  assert (Hmax : 0 + lenN (mjoin chains) <= U64_MAX) by (unfold NIL, U32_MAX, U64_MAX in *; rewrite Ht; lia).
  rewrite Hl, sum_lengths by exact Hmax. rewrite N.add_0_l. eexists. split; [done|].
  assert (Hnew : anchor_good c keep (Some (lenN (mjoin chains), first <$> rows, next))).
  { exists chains. split; [done|]. split; [|done]. split; [done|]. split.
    - intros e (o & _ & He)%Hi. rewrite <- (lenN_fmap owner). by eapply tget_Some_lt.
    - intros i [e He]%tget_lt Hni. apply (Hkeep i e He). apply bool_decide_eq_false_2. intros Ho.
      apply Hni, Hi. exists (owner e). rewrite elem_of_elements, tget_fmap, He. done. }
  unfold keep_narrowest_anchor. destruct narrowest as [[[best firsts] follow]|].
  - destruct (N.ltb_spec (lenN (mjoin chains)) best); (split; [done|]); cbn; f_equal; rewrite <- Ht; lia.
  - split; [apply Hnew|]. cbn. by rewrite Ht.
Qed.
End anchors.

(** ** Specification of the reads *)

(** A position accepts a canonical name when it is unconstrained or when one of
    the given spellings resolves to it. *)
Definition pin (canon : name -> name) (names : list name) (n : name) : Prop :=
  names = [] \/ n ∈ canon <$> names.
#[export] Instance pin_dec canon names n : Decision (pin canon names n).
Proof. unfold pin. apply _. Defined.

Definition fact_matches (c : Context) (subjects labels_ objects : list name) (f : Fact) : Prop :=
  pin (canon_concept c) subjects (f_subject f) /\ pin (canon_label c) labels_ (f_label f) /\
  pin (canon_concept c) objects (f_object f).
#[export] Instance fact_matches_dec c ss ls os f : Decision (fact_matches c ss ls os f).
Proof. unfold fact_matches. apply _. Defined.

(** A fact touches a cue in one of its three roles. *)
Definition fact_touches (c : Context) (cue : name) (f : Fact) : Prop :=
  f_subject f = canon_concept c cue \/ f_label f = canon_label c cue \/ f_object f = canon_concept c cue.
#[export] Instance fact_touches_dec c cue f : Decision (fact_touches c cue f).
Proof. unfold fact_touches. apply _. Defined.

Section pins.
Context (ids : gmap name N) (name_of : N -> option name).
Context (Hname : forall i n, name_of i = Some n -> ids !! n = Some i).
Context (Htotal : forall i s, ids !! s = Some i -> exists n, name_of i = Some n).

Lemma canonical_resolves i n s : name_of i = Some n -> ids !! s = Some i <-> n = canonical ids name_of s.
Proof using All.
  intros Hn. unfold canonical. destruct (ids !! s) as [j|] eqn:Ej.
  - destruct (Htotal j s Ej) as [m Hm]. rewrite Hm. simpl. split; [intros [= ->]; congruence|].
    intros ->. f_equal. pose proof (Hname _ _ Hm). pose proof (Hname _ _ Hn). congruence.
  - split; [done|]. intros ->. pose proof (Hname _ _ Hn). congruence.
Qed.

Lemma pin_in_set i n names : name_of i = Some n ->
  in_set (resolve_set ids names) i = bool_decide (pin (canonical ids name_of) names n).
Proof using All.
  intros Hn. destruct names as [|s names]; [done|]. unfold resolve_set, in_set.
  apply bool_decide_ext. rewrite elem_of_list_to_set, list_elem_of_omap. unfold pin.
  setoid_rewrite (canonical_resolves i n _ Hn). rewrite list_elem_of_fmap. split.
  - intros (x & Hx & He). right. eauto.
  - intros [|(x & He & Hx)]; [done | eauto].
Qed.

Lemma empty_set_pin i n names : name_of i = Some n -> is_empty_set (resolve_set ids names) = true ->
  ~ pin (canonical ids name_of) names n.
Proof using All.
  intros Hn He Hp. apply (bool_decide_eq_true_2 (pin _ _ _)) in Hp. rewrite <- (pin_in_set i) in Hp by done.
  unfold is_empty_set, in_set in *. destruct (resolve_set ids names) as [s|]; [|done].
  apply bool_decide_eq_true in He as ->. apply bool_decide_eq_true in Hp. set_solver.
Qed.
End pins.

(** What each constrained position alone would have the scan read: the facts that
    match it. *)
Definition position_costs (c : Context) (subjects labels_ objects : list name) (fs : list Fact) : list N :=
  (if is_nil subjects then [] else [lenN (filter (fun f => pin (canon_concept c) subjects (f_subject f)) fs)]) ++
  (if is_nil labels_ then [] else [lenN (filter (fun f => pin (canon_label c) labels_ (f_label f)) fs)]) ++
  (if is_nil objects then [] else [lenN (filter (fun f => pin (canon_concept c) objects (f_object f)) fs)]).

Section resolves.
Context `{UnicodeTables} {c : Context} (Hwf : wf c).

Lemma resolves_concept i n s : concept_name c i = Some n -> concept_ids c !! s = Some i <-> n = canon_concept c s.
Proof using Hwf.
  apply canonical_resolves; [apply (concept_name_id Hwf)|].
  intros j m Hj. apply (concept_name_total Hwf). by eapply concept_id_lt.
Qed.
Lemma resolves_label i n s : label_name c i = Some n -> label_ids c !! s = Some i <-> n = canon_label c s.
Proof using Hwf.
  apply canonical_resolves; [apply (label_name_id Hwf)|].
  intros j m Hj. apply (label_name_total Hwf). by eapply label_id_lt.
Qed.
End resolves.

(** * What the reads return

    [query_any], [recall] and the windowed reads as filters of the fact list, the
    deadline-polled export, and witnesses on a small graph. *)

From S2P Require Import Sample.

Local Open Scope N_scope.

Section queries.
Context `{UnicodeTables} {c : Context} (Hwf : wf c).

Lemma pin_concept i n names : concept_name c i = Some n ->
  in_set (resolve_set (concept_ids c) names) i = bool_decide (pin (canon_concept c) names n).
Proof using Hwf.
  apply pin_in_set; [apply (concept_name_id Hwf)|]. intros j s Hj.
  apply (concept_name_total Hwf). by eapply concept_id_lt.
Qed.
Lemma pin_label i n names : label_name c i = Some n ->
  in_set (resolve_set (label_ids c) names) i = bool_decide (pin (canon_label c) names n).
Proof using Hwf.
  apply pin_in_set; [apply (label_name_id Hwf)|]. intros j s Hj.
  apply (label_name_total Hwf). by eapply label_id_lt.
Qed.

Lemma resolved_lt ids names s o bound :
  (forall n i, ids !! n = Some i -> i < bound) -> resolve_set ids names = Some s -> o ∈ s -> o < bound.
Proof.
  intros Hlt. unfold resolve_set. destruct names as [|n names]; [done|].
  generalize (n :: names). intros l [= <-]. rewrite elem_of_list_to_set, list_elem_of_omap. intros (m & _ & Hm). by eapply Hlt.
Qed.

Lemma recall_concept_edges cue : exists ids,
  (match concept_ids c !! cue with
   | Some id => out ← outgoing c id; inc ← incoming c id; Some (out ++ inc)
   | None => Some [] end) = Some ids /\
  forall e, e ∈ ids <-> exists id, concept_ids c !! cue = Some id /\
    (tget (e_subject <$> edges c) e = Some id \/ tget (e_object <$> edges c) e = Some id).
Proof using Hwf.
  destruct (concept_ids c !! cue) as [id|] eqn:Eid; [|exists []; split; [done|]; set_solver].
  destruct (tget_lt (concepts c) id) as [r Hr]; [by eapply concept_id_lt|].
  destruct (chains_walk _ _ _ id _ _ _ (wf_outgoing _ Hwf) ltac:(by rewrite tget_fmap, Hr)) as (a & Ha & _ & _ & Ia).
  destruct (chains_walk _ _ _ id _ _ _ (wf_incoming _ Hwf) ltac:(by rewrite tget_fmap, Hr)) as (b & Hb & _ & _ & Ib).
  exists (a ++ b). unfold outgoing, incoming, edge_chain. rewrite length_fmap in Ha, Hb. bind Hr. bind Ha. bind Hb.
  split; [done|]. intros e. rewrite elem_of_app, Ia, Ib. naive_solver.
Qed.

Lemma recall_label_edges cue : exists ids,
  (match label_ids c !! cue with Some id => labeled c id | None => Some [] end) = Some ids /\
  forall e, e ∈ ids <-> exists id, label_ids c !! cue = Some id /\ tget (e_label <$> edges c) e = Some id.
Proof using Hwf.
  destruct (label_ids c !! cue) as [id|] eqn:Eid; [|exists []; split; [done|]; set_solver].
  destruct (tget_lt (labels c) id) as [r Hr]; [by eapply label_id_lt|].
  destruct (chains_walk _ _ _ id _ _ _ (wf_labeled _ Hwf) ltac:(by rewrite tget_fmap, Hr)) as (a & Ha & _ & _ & Ia).
  exists a. unfold labeled, edge_chain. rewrite length_fmap in Ha. bind Hr. split; [done|].
  intros e. rewrite Ia. naive_solver.
Qed.

Lemma touches_ids cue i f : fact_at c i = Some f ->
  fact_touches c cue f <->
  (exists id, concept_ids c !! cue = Some id /\
    (tget (e_subject <$> edges c) i = Some id \/ tget (e_object <$> edges c) i = Some id)) \/
  (exists id, label_ids c !! cue = Some id /\ tget (e_label <$> edges c) i = Some id).
Proof using Hwf.
  intros (e & _ & He & Hs & Hl & Ho & _)%fact_at_inv. unfold fact_touches.
  rewrite !tget_fmap, He. simpl.
  rewrite <- (resolves_concept Hwf _ _ cue Hs), <- (resolves_label Hwf _ _ cue Hl), <- (resolves_concept Hwf _ _ cue Ho).
  naive_solver.
Qed.

Context (lens : EdgeLens) (view : Fact -> option Association) `{!LensView lens c view}.

Lemma query_matches_fact ss ls os i f : fact_at c i = Some f ->
  query_matches lens c (resolve_set (concept_ids c) ss) (resolve_set (label_ids c) ls)
    (resolve_set (concept_ids c) os) i =
  Some (bool_decide (fact_matches c ss ls os f /\ is_Some (view f))).
Proof using All.
  intros Hf. pose proof (view_alive i f Hf) as Ha. unfold edge_alive in Ha.
  pose proof Hf as (e & _ & He & Hs & Hl & Ho & _)%fact_at_inv. unfold query_matches.
  rewrite He in Ha |- *. simpl in *. rewrite (pin_concept _ _ ss Hs), (pin_label _ _ ls Hl), (pin_concept _ _ os Ho).
  rewrite Ha. unfold fact_matches. repeat case_bool_decide; simpl; naive_solver.
Qed.

Lemma query_matches_owner ss ls os i e : tget (edges c) i = Some e ->
  in_set ss (e_subject e) && in_set ls (e_label e) && in_set os (e_object e) = false ->
  query_matches lens c ss ls os i = Some false.
Proof using. intros He Hm. unfold query_matches. rewrite He. simpl. by rewrite Hm. Qed.

(** The chosen anchor covers the answer, and is the narrowest. *)
Lemma query_anchor ss ls os : ~ (ss = [] /\ ls = [] /\ os = []) ->
  let s := resolve_set (concept_ids c) ss in let l := resolve_set (label_ids c) ls in
  let o := resolve_set (concept_ids c) os in
  exists ids, narrowest_scan s l o c = Some ids /\ StronglySorted N.lt ids /\
    (forall i, i ∈ ids -> i < lenN (edges c)) /\
    (forall i, i < lenN (edges c) -> i ∉ ids -> query_matches lens c s l o i = Some false) /\
    Some (lenN ids) = narrower (narrower (lenN ∘ owned (e_subject <$> edges c) <$> s)
      (lenN ∘ owned (e_label <$> edges c) <$> l)) (lenN ∘ owned (e_object <$> edges c) <$> o).
Proof using Hwf.
  intros Hne s l o. set (keep := query_matches lens c s l o). pose proof (sz_edges _ (wf_sizes _ Hwf)) as Hsz.
  destruct (offer_anchor_good (concepts c) out_anchor c_outgoing_count c_first_outgoing e_next_outgoing
    e_subject c ltac:(intros []; eexists; reflexivity) (wf_outgoing _ Hwf) Hsz keep s None)
    as (n1 & H1 & G1 & N1); [done | | |].
  { intros x Hx i Hi. eapply resolved_lt; [|exact Hx|done]. intros n j Hj. by eapply concept_id_lt. }
  { intros i e He Hin. apply (query_matches_owner _ _ _ i e He). by rewrite Hin. }
  destruct (offer_anchor_good (labels c) label_anchor l_edge_count l_first_edge e_next_labeled
    e_label c ltac:(intros []; eexists; reflexivity) (wf_labeled _ Hwf) Hsz keep l n1)
    as (n2 & H2 & G2 & N2); [done | | |].
  { intros x Hx i Hi. eapply resolved_lt; [|exact Hx|done]. intros n j Hj. by eapply label_id_lt. }
  { intros i e He Hin. apply (query_matches_owner _ _ _ i e He). by rewrite Hin, andb_false_r. }
  destruct (offer_anchor_good (concepts c) in_anchor c_incoming_count c_first_incoming e_next_incoming
    e_object c ltac:(intros []; eexists; reflexivity) (wf_incoming _ Hwf) Hsz keep o n2)
    as (n3 & H3 & G3 & N3); [done | | |].
  { intros x Hx i Hi. eapply resolved_lt; [|exact Hx|done]. intros n j Hj. by eapply concept_id_lt. }
  { intros i e He Hin. apply (query_matches_owner _ _ _ i e He). by rewrite Hin, andb_false_r. }
  assert (H0 : forall x, narrower (anchor_total None) x = x) by by intros [].
  rewrite N2, N1, H0 in N3. unfold narrowest_scan. rewrite H1. cbn [mbind option_bind]. rewrite H2. cbn [mbind option_bind].
  rewrite H3. cbn [mbind option_bind].
  destruct n3 as [[[total firsts] follow]|].
  - destruct G3 as (chains & Hch & (Hn & Hlt & Hno) & Ht). rewrite Hch. cbn [mbind option_bind]. eexists. split; [done|].
    split; [by apply sort_ids_sorted|]. split; [intros i; rewrite elem_of_sort_ids; apply Hlt|].
    split; [intros i; rewrite elem_of_sort_ids; apply Hno|].
    rewrite <- N3. cbn. f_equal. rewrite Ht. unfold lenN, sort_ids. by rewrite merge_sort_Permutation.
  - exfalso. apply Hne. unfold s, l, o, resolve_set in N3. by destruct ss, ls, os.
Qed.

(** A position's share of the edge table is the facts that match it. *)
Lemma owned_facts ids (get : EdgeRecord -> N) canon (pos : Fact -> name) names fs :
  facts c = Some fs ->
  (forall i f e, fact_at c i = Some f -> tget (edges c) i = Some e ->
    in_set (resolve_set ids names) (get e) = bool_decide (pin canon names (pos f))) ->
  (fun s => lenN (owned (get <$> edges c) s)) <$> resolve_set ids names =
  if is_nil names then None else Some (lenN (filter (fun f => pin canon names (pos f)) fs)).
Proof using.
  intros Hfs%mapM_Some Hin. destruct names as [|n names]; [done|]. cbn [is_nil].
  destruct (resolve_set ids (n :: names)) as [s|] eqn:Es; [|done]. cbn [fmap option_fmap option_map].
  f_equal. unfold lenN. f_equal. unfold owned. rewrite (indices_same_length _ (edges c)) by apply length_fmap.
  induction Hfs as [|i f ids' fs' Hf _ IH]; [done|]. pose proof Hf as (e & _ & He & _)%fact_at_inv.
  pose proof (Hin i f e Hf He) as Hp. rewrite !filter_cons.
  assert (Ho : owned_by (get <$> edges c) s i <-> pin canon (n :: names) (pos f)).
  { unfold owned_by. rewrite tget_fmap, He. cbn. unfold in_set in Hp.
    rewrite <- (bool_decide_eq_true (get e ∈ s)), <- (bool_decide_eq_true (pin _ _ _)). by rewrite Hp. }
  destruct (decide (owned_by _ s i)), (decide (pin canon _ (pos f))); try tauto. cbn [length]. by rewrite IH.
Qed.

Lemma narrower_least a b o n : Some n = narrower (narrower a b) o ->
  n ∈ option_list a ++ option_list b ++ option_list o /\
  Forall (fun m => n <= m) (option_list a ++ option_list b ++ option_list o).
Proof using.
  destruct a, b, o; cbn; intros [= ->]; (split; [|repeat constructor; lia]);
    repeat (rewrite elem_of_cons || rewrite elem_of_nil); lia.
Qed.

Lemma query_scan_least ss ls os fs : facts c = Some fs -> ~ (ss = [] /\ ls = [] /\ os = []) ->
  let s := resolve_set (concept_ids c) ss in let l := resolve_set (label_ids c) ls in
  let o := resolve_set (concept_ids c) os in
  exists read, narrowest_scan s l o c = Some read /\
    select lens (query_matches lens c s l o) read = Some (omap view (filter (fact_matches c ss ls os) fs)) /\
    lenN read ∈ position_costs c ss ls os fs /\ Forall (fun n => lenN read <= n) (position_costs c ss ls os fs).
Proof using All.
  intros Hfs Hne s l o. destruct (query_anchor ss ls os Hne) as (ids & Hids & Hs & Hlt & Hno & Hcost).
  fold s l o in Hids, Hno, Hcost. exists ids. split; [done|]. split.
  { rewrite (select_cover (c := c)) by done. apply (select_facts Hwf); [by apply mapM_Some|]. apply query_matches_fact. }
  assert (Hcosts : position_costs c ss ls os fs =
    option_list (lenN ∘ owned (e_subject <$> edges c) <$> s) ++ option_list (lenN ∘ owned (e_label <$> edges c) <$> l) ++
    option_list (lenN ∘ owned (e_object <$> edges c) <$> o)).
  { unfold s, l, o, compose.
    rewrite (owned_facts (concept_ids c) e_subject (canon_concept c) f_subject ss fs Hfs),
      (owned_facts (label_ids c) e_label (canon_label c) f_label ls fs Hfs),
      (owned_facts (concept_ids c) e_object (canon_concept c) f_object os fs Hfs).
    - unfold position_costs. by destruct ss, ls, os.
    - intros i f e (e' & _ & He' & _ & _ & Ho & _)%fact_at_inv He. rewrite He in He'. injection He' as <-. by apply pin_concept.
    - intros i f e (e' & _ & He' & _ & Hl & _)%fact_at_inv He. rewrite He in He'. injection He' as <-. by apply pin_label.
    - intros i f e (e' & _ & He' & Hsu & _)%fact_at_inv He. rewrite He in He'. injection He' as <-. by apply pin_concept. }
  rewrite Hcosts. by apply narrower_least.
Qed.

Lemma query_any_impl_facts ss ls os fs : facts c = Some fs ->
  query_any_impl ss ls os lens c = Some (omap view (filter (fact_matches c ss ls os) fs)).
Proof using All.
  intros Hfs. pose proof Hfs as H2%mapM_Some. unfold query_any_impl.
  destruct (is_nil ss && is_nil ls && is_nil os) eqn:Enil.
  { destruct ss, ls, os; try done. apply (select_facts Hwf); [done|]. intros i f Hf.
    rewrite (view_alive i f Hf). f_equal. apply bool_decide_ext. unfold fact_matches, pin. tauto. }
  destruct (is_empty_set _ || _ || _) eqn:Eemp.
  { rewrite filter_none; [done|]. intros f (i & Hf)%(facts_elem c) Hm; [|done].
    apply fact_at_inv in Hf as (e & _ & _ & Hs & Hl & Ho & _). destruct Hm as (Ms & Ml & Mo).
    rewrite !orb_true_iff in Eemp. destruct Eemp as [[E|E]|E].
    - eapply (empty_set_pin (concept_ids c) (concept_name c)); [apply (concept_name_id Hwf)| |exact Hs|exact E|exact Ms].
      intros j n Hj. apply (concept_name_total Hwf). by eapply concept_id_lt.
    - eapply (empty_set_pin (label_ids c) (label_name c)); [apply (label_name_id Hwf)| |exact Hl|exact E|exact Ml].
      intros j n Hj. apply (label_name_total Hwf). by eapply label_id_lt.
    - eapply (empty_set_pin (concept_ids c) (concept_name c)); [apply (concept_name_id Hwf)| |exact Ho|exact E|exact Mo].
      intros j n Hj. apply (concept_name_total Hwf). by eapply concept_id_lt. }
  destruct (query_anchor ss ls os) as (ids & -> & Hs & Hlt & Hno & _).
  { intros (-> & -> & ->). done. }
  cbn [mbind option_bind]. rewrite (select_cover (c := c)) by done.
  apply (select_facts Hwf); [done|]. apply query_matches_fact.
Qed.

Lemma recall_impl_facts cue fs : facts c = Some fs ->
  recall_impl cue lens c = Some (omap view (filter (fact_touches c cue) fs)).
Proof using All.
  intros Hfs. pose proof Hfs as H2%mapM_Some.
  destruct (recall_concept_edges cue) as (ce & Hce & Ice). destruct (recall_label_edges cue) as (le & Hle & Ile).
  unfold recall_impl. bind Hce. bind Hle. set (touch i := bool_decide (i ∈ ce ++ le)).
  transitivity (select lens (fun i => if touch i then edge_alive lens c i else Some false) (indices (edges c))).
  - rewrite <- (select_cover (c := c) _ (dedup (sort_ids (ce ++ le)))).
    + unfold select. f_equal. apply filterM_ext. intros i. rewrite elem_of_dedup, elem_of_sort_ids.
      intros Hi. unfold touch. by rewrite bool_decide_eq_true_2.
    + apply dedup_sorted, sort_ids_le.
    + intros i. rewrite elem_of_dedup, elem_of_sort_ids, elem_of_app, Ice, Ile.
      assert (Hlt : forall (g : EdgeRecord -> N) o, tget (g <$> edges c) i = Some o -> i < lenN (edges c)).
      { intros g o Hg. rewrite <- (lenN_fmap g). by eapply tget_Some_lt. }
      intros [(id & _ & [Hi|Hi])|(id & _ & Hi)]; by eapply Hlt.
    + intros i _. rewrite elem_of_dedup, elem_of_sort_ids. intros Hni. unfold touch.
      by rewrite bool_decide_eq_false_2.
  - apply (select_facts Hwf); [done|]. intros i f Hf. rewrite (view_alive i f Hf).
    assert (Ht : i ∈ ce ++ le <-> fact_touches c cue f).
    { by rewrite elem_of_app, Ice, Ile, (touches_ids cue i f Hf). }
    unfold touch. rewrite (bool_decide_ext _ _ Ht). repeat case_bool_decide; simpl; naive_solver.
Qed.
End queries.

(** ** Claims *)

(** C8. [query_any] is its specification.  The answer is the facts whose subject,
    label and object each match one of the given spellings (canonical or alias; an
    empty list matches anything, so three empty lists list every fact), dead facts
    included, in insertion order.  When some position is constrained the answer is
    selected from one scan, of the chains of the narrowest position: the edges read
    are as many as the facts that match one constrained position alone, and no more
    than match any other. *)
Theorem query_any_filters `{UnicodeTables} c fs ss ls os (Hwf : wf c) (Hfs : facts c = Some fs) :
  query_any ss ls os c = Some (fact_association <$> filter (fact_matches c ss ls os) fs) /\
  (~ (ss = [] /\ ls = [] /\ os = []) ->
   let s := resolve_set (concept_ids c) ss in let l := resolve_set (label_ids c) ls in
   let o := resolve_set (concept_ids c) os in
   exists read, narrowest_scan s l o c = Some read /\
     query_any ss ls os c = select (FullLens c) (query_matches (FullLens c) c s l o) read /\
     lenN read ∈ position_costs c ss ls os fs /\ Forall (fun n => lenN read <= n) (position_costs c ss ls os fs)).
Proof.
  unfold query_any. pose proof (query_any_impl_facts Hwf (FullLens c) _ ss ls os fs Hfs) as Hq. split; [exact Hq|].
  intros Hne. destruct (query_scan_least Hwf (FullLens c) _ ss ls os fs Hfs Hne) as (read & Hr & Hsel & Hcost).
  exists read. split; [done|]. split; [by rewrite Hsel|]. done.
Qed.

(** [recall] returns every fact the cue touches as subject, label or object,
    once and in insertion order. *)
Theorem recall_filters `{UnicodeTables} c fs cue (Hwf : wf c) (Hfs : facts c = Some fs) :
  recall cue c = Some (fact_association <$> filter (fact_touches c cue) fs).
Proof.
  unfold recall. rewrite (recall_impl_facts Hwf _ _ cue fs Hfs). done.
Qed.

(** C9. A windowed query or recall sees exactly the facts some in-window source
    attests, each with only its in-window attributions, their exact assertion
    count and the weight recomputed from them alone: a dead fact, or one only
    other sources attest, never appears. *)
Theorem windowed_reads_filter `{UnicodeTables} c fs srcs ss ls os cue (Hwf : wf c) (Hfs : facts c = Some fs) :
  query_any_within ss ls os (source_window c srcs) c =
    Some (omap (windowed_fact srcs) (filter (fact_matches c ss ls os) fs)) /\
  recall_within cue (source_window c srcs) c =
    Some (omap (windowed_fact srcs) (filter (fact_touches c cue) fs)).
Proof.
  pose proof (WindowLens_view Hwf srcs). split.
  - by apply (query_any_impl_facts Hwf).
  - by apply (recall_impl_facts Hwf).
Qed.

(** ** Witnesses *)

Lemma query_any_filters_witness :
  (exists r, query_any [str "cat"] [] [str "cheese"; str "mouse"] sample = Some r /\ length r = 2%nat) /\
  exists read, narrowest_scan (resolve_set (concept_ids sample) [str "cat"]) None
    (resolve_set (concept_ids sample) [str "cheese"; str "mouse"]) sample = Some read /\
    position_costs sample [str "cat"] [] [str "cheese"; str "mouse"] sample_facts = [2; 3] /\ lenN read <= 2.
Proof.
  destruct (@query_any_filters ascii_tables sample sample_facts [str "cat"] [] [str "cheese"; str "mouse"]
    sample_wf sample_facts_eq) as [Hq Hscan]. split.
  - eexists. split; [exact Hq|]. vm_compute. reflexivity.
  - destruct Hscan as (read & Hr & _ & _ & Hle); [by intros [? _]|]. exists read. split; [exact Hr|].
    assert (Hc : position_costs sample [str "cat"] [] [str "cheese"; str "mouse"] sample_facts = [2; 3]) by (vm_compute; reflexivity).
    split; [exact Hc|]. rewrite Hc in Hle. by apply Forall_cons in Hle as [? _].
Defined.

Lemma recall_filters_witness : exists r, recall (str "mouse") sample = Some r /\ length r = 2%nat.
Proof.
  eexists. split.
  - exact (@recall_filters ascii_tables sample sample_facts (str "mouse") sample_wf sample_facts_eq).
  - vm_compute. reflexivity.
Defined.

Lemma windowed_reads_filter_witness :
  exists r, query_any_within [] [] [] (source_window sample [str "doc1"]) sample = Some r /\
    as_count <$> r = [1; 1].
Proof.
  eexists. split.
  - exact (proj1 (@windowed_reads_filter ascii_tables sample sample_facts [str "doc1"] [] [] [] (str "cat")
      sample_wf sample_facts_eq)).
  - vm_compute. reflexivity.
Defined.
