(* ===== verification/Describe.v ===== *)
(** * Descriptions and directory statistics
    ([src/context/query.rs], [src/context/stats.rs])

    [describe] tallies the live facts of a concept per label and role,
    [top_concepts] ranks concepts by live degree; both are counts over the fact
    list. *)

From S2P Require Export QueryClaims.

Local Open Scope N_scope.

Definition is_live (f : Fact) : Prop := f_count f <> 0.
#[export] Instance is_live_dec f : Decision (is_live f).
Proof. unfold is_live. apply _. Defined.

(** How many facts satisfy a predicate. *)
Definition count_facts (P : Fact -> Prop) `{!forall f, Decision (P f)} (fs : list Fact) : N :=
  lenN (filter P fs).

(** ** Counting along a chain is counting facts *)

Definition edge_sat (c : Context) (P : EdgeRecord -> bool) (i : EdgeId) : bool :=
  match tget (edges c) i with Some e => P e | None => false end.

Lemma count_chain c fs ids (own P : EdgeRecord -> bool) (Q : Fact -> Prop) `{!forall f, Decision (Q f)} :
  facts c = Some fs -> NoDup ids ->
  (forall i, i ∈ ids <-> edge_sat c own i = true) ->
  (forall i e f, tget (edges c) i = Some e -> fact_at c i = Some f -> own e && P e = true <-> Q f) ->
  lenN (filter (fun i => edge_sat c P i = true) ids) = count_facts Q fs.
Proof.
  intros Hfs%mapM_Some Hnd Hids HPQ. unfold count_facts, lenN. f_equal.
  transitivity (length (filter (fun i => edge_sat c (fun e => own e && P e) i = true) (indices (edges c)))).
  - apply Permutation_length, NoDup_Permutation.
    + by apply NoDup_filter.
    + apply NoDup_filter, NoDup_indices.
    + intros i. rewrite !list_elem_of_filter, Hids, elem_of_indices. unfold edge_sat.
      destruct (tget (edges c) i) as [e|] eqn:He; [|naive_solver].
      apply tget_Some_lt in He. rewrite andb_true_iff. tauto.
  - induction Hfs as [|i f js fs Hf _ IH]; [done|]. rewrite !filter_cons.
    pose proof Hf as (e & _ & He & _)%fact_at_inv. pose proof (HPQ i e f He Hf) as Hiff.
    assert (Hsat : edge_sat c (fun e => own e && P e) i = own e && P e) by (unfold edge_sat; by rewrite He).
    rewrite <- Hsat in Hiff. repeat case_decide; simpl; try tauto. by f_equal.
Qed.

(** ** Tallies *)

Section tally.
Context `{UnicodeTables} (c : Context) (Hwf : wf c).
Implicit Types counts : gmap LabelId N.

Definition live_label (l : LabelId) (e : EdgeRecord) : bool := negb (e_count e =? 0) && (e_label e =? l).

(** What the fold has counted. *)
Definition tallied (counts : gmap LabelId N) (ids : list EdgeId) : Prop :=
  forall l, counts !! l =
    (let n := lenN (filter (fun i => edge_sat c (live_label l) i = true) ids) in
     if n =? 0 then None else Some n).

Definition typed (tl : option LabelId) (types : gset name) (ids : list EdgeId) : Prop :=
  forall t, t ∈ types <-> exists i e, i ∈ ids /\ tget (edges c) i = Some e /\ e_count e <> 0 /\
    tl = Some (e_label e) /\ concept_name c (e_object e) = Some t.

Lemma tally_step_spec tl counts types ids i :
  i < lenN (edges c) -> tallied counts ids -> typed tl types ids ->
  exists counts' types', tally_step c tl (counts, types) i = Some (counts', types') /\
    tallied counts' (ids ++ [i]) /\ typed tl types' (ids ++ [i]).
Proof using Hwf.
  intros [e He]%tget_lt Ht Hy. unfold tally_step. rewrite He. simpl.
  assert (Hsat : forall l, filter (fun i => edge_sat c (live_label l) i = true) [i] =
    if live_label l e then [i] else []).
  { intros l. rewrite filter_cons. assert (Hs : edge_sat c (live_label l) i = live_label l e)
      by (unfold edge_sat; by rewrite He). case_decide as Hd; rewrite Hs in Hd; by destruct (live_label l e). }
  destruct (N.eqb_spec (e_count e) 0) as [Hz|Hnz].
  { exists counts, types. split; [done|]. split.
    - intros l. rewrite filter_app, Hsat. unfold live_label. rewrite Hz. simpl. by rewrite app_nil_r.
    - intros t. rewrite (Hy t). setoid_rewrite elem_of_app. setoid_rewrite list_elem_of_singleton. split.
      + intros (j & e' & ? & ?). exists j, e'. naive_solver.
      + intros (j & e' & [Hj| ->] & ? & ? & ?); [naive_solver | congruence]. }
  destruct (wf_edge c i e Hwf He) as (_ & _ & _ & Ho). destruct (concept_name_total Hwf _ Ho) as [o Eo].
  assert (Hty : exists types', (if bool_decide (tl = Some (e_label e))
       then object ← concept_name c (e_object e); Some ({[object]} ∪ types) else Some types) = Some types' /\
       typed tl types' (ids ++ [i])).
  { case_bool_decide as Hd.
    - rewrite Eo. eexists. split; [done|]. intros t. rewrite elem_of_union, elem_of_singleton, (Hy t). split.
      + intros [->|(j & e' & ? & ?)]; [exists i, e | exists j, e']; rewrite elem_of_app, list_elem_of_singleton; auto 8.
      + intros (j & e' & [Hj|Hj%list_elem_of_singleton]%elem_of_app & He' & ? & ? & ?); [right; eauto 8|].
        left. subst j. congruence.
    - exists types. split; [done|]. intros t. rewrite (Hy t). split.
      + intros (j & e' & ? & ?). exists j, e'. rewrite elem_of_app. auto.
      + intros (j & e' & [Hj|Hj%list_elem_of_singleton]%elem_of_app & He' & ? & ? & ?); [eauto 8|].
        subst j. congruence. }
  destruct Hty as (types' & -> & Hty). simpl. do 2 eexists. split; [done|]. split; [|done].
  intros l. assert (El : live_label l e = (e_label e =? l)).
  { unfold live_label. by rewrite (proj2 (N.eqb_neq _ _) Hnz). }
  rewrite filter_app, Hsat, lenN_app, El. pose proof (Ht l) as Hl. cbv zeta in Hl |- *. revert Hl.
  match goal with |- context [lenN ?x + _] => generalize (lenN x) end. intros n Hl.
  destruct (N.eqb_spec (e_label e) l) as [Heq|Hne].
  - rewrite Heq, lookup_insert_eq, Hl. change (lenN [i]) with 1. rewrite (proj2 (N.eqb_neq (_ + 1) 0)) by lia.
    destruct (N.eqb_spec n 0) as [En|]; [by rewrite En | done].
  - rewrite lookup_insert_ne, Hl by done. change (lenN (@nil EdgeId)) with 0. by rewrite N.add_0_r.
Qed.

Lemma tally_fold tl ids :
  (forall i, i ∈ ids -> i < lenN (edges c)) ->
  exists counts types, foldM (tally_step c tl) ids (∅, ∅) = Some (counts, types) /\
    tallied counts ids /\ typed tl types ids.
Proof using Hwf.
  assert (forall done_ counts types, (forall i, i ∈ ids -> i < lenN (edges c)) ->
    tallied counts done_ -> typed tl types done_ ->
    exists counts' types', foldM (tally_step c tl) ids (counts, types) = Some (counts', types') /\
      tallied counts' (done_ ++ ids) /\ typed tl types' (done_ ++ ids)) as Hgen.
  { induction ids as [|i ids IH]; intros done_ counts types Hlt Ht Hy; simpl.
    - rewrite app_nil_r. eauto.
    - destruct (tally_step_spec tl counts types done_ i) as (counts' & types' & -> & Ht' & Hy'); [set_solver | done | done|].
      simpl. destruct (IH (done_ ++ [i]) counts' types') as (k & y & Hr); [set_solver | done | done|].
      rewrite <- app_assoc in Hr. eauto. }
  intros Hlt. apply (Hgen [] ∅ ∅ Hlt).
  - intros l. by rewrite lookup_empty.
  - intros t. set_solver.
Qed.
End tally.

(** ** Usages *)

(** How often live facts with the concept [n] in a role use the label [l]. *)
Definition usage_count (role : Fact -> name) (n l : name) (fs : list Fact) : N :=
  count_facts (fun f => is_live f /\ role f = n /\ f_label f = l) fs.

(** Listing order: more uses first, then older labels. *)
Definition usage_before (c : Context) (a b : LabelUsage) : Prop :=
  lu_count b < lu_count a \/
  (lu_count b = lu_count a /\ exists i j, label_ids c !! lu_label a = Some i /\
     label_ids c !! lu_label b = Some j /\ i <= j).

(** The tally of one role: every label in use, once, with its count, in order. *)
Definition usages_of (c : Context) (role : Fact -> name) (n : name) (fs : list Fact) (us : list LabelUsage) : Prop :=
  (forall u, u ∈ us <-> lu_count u = usage_count role n (lu_label u) fs /\ lu_count u <> 0) /\
  NoDup (lu_label <$> us) /\ StronglySorted (usage_before c) us.

Lemma count_facts_pos (P : Fact -> Prop) `{!forall f, Decision (P f)} fs :
  count_facts P fs <> 0 -> exists f, f ∈ fs /\ P f.
Proof.
  unfold count_facts, lenN. destruct (filter P fs) as [|f l] eqn:E; [done|]. intros _. exists f.
  assert (f ∈ filter P fs) as ?%list_elem_of_filter by (rewrite E; set_solver). tauto.
Qed.

#[export] Instance usage_le_trans : Transitive usage_le.
Proof. intros [] [] []. unfold usage_le. simpl. lia. Qed.
#[export] Instance usage_le_total : Total usage_le.
Proof. intros [] []. unfold usage_le. simpl. lia. Qed.

Section usages.
Context `{UnicodeTables} {c : Context} (Hwf : wf c) (fs : list Fact) (Hfs : facts c = Some fs).
Context (owner : EdgeRecord -> N) (role : Fact -> name) (o : N) (n : name) (ids : list EdgeId).
Context (Hrole : forall i e f, tget (edges c) i = Some e -> fact_at c i = Some f -> owner e = o <-> role f = n).
Context (Hnd : NoDup ids) (Hids : forall i, i ∈ ids <-> edge_sat c (fun e => owner e =? o) i = true).

Lemma chain_usage l lab : label_name c l = Some lab ->
  lenN (filter (fun i => edge_sat c (live_label l) i = true) ids) = usage_count role n lab fs.
Proof using All.
  intros Hl. eapply count_chain; [done | done | exact Hids |]. intros i e f He Hf.
  pose proof Hf as (e' & _ & He' & _ & Hl' & _ & _ & _ & Hn & _)%fact_at_inv.
  rewrite He in He'. injection He' as <-. unfold live_label, is_live.
  rewrite !andb_true_iff, negb_true_iff, N.eqb_neq, !N.eqb_eq, <- (Hrole i e f He Hf), Hn.
  assert (e_label e = l <-> f_label f = lab); [|tauto].
  split; [intros <-; congruence|]. intros Heq. eapply (label_name_inj Hwf); [exact Hl' | by rewrite Heq].
Qed.

Lemma counted_label counts l k : tallied c counts ids -> counts !! l = Some k ->
  exists lab, label_name c l = Some lab /\ k = usage_count role n lab fs /\ k <> 0.
Proof using All.
  intros Ht Hk. rewrite (Ht l) in Hk. cbv zeta in Hk. destruct (N.eqb_spec (lenN (filter (fun i =>
    edge_sat c (live_label l) i = true) ids)) 0) as [|Hne]; [done|]. injection Hk as <-.
  assert (l < lenN (labels c)) as [lab Hlab]%(label_name_total Hwf).
  { destruct (filter _ ids) as [|i r] eqn:E; [done|]. assert (i ∈ filter (fun i => edge_sat c (live_label l) i = true) ids)
      as [Hsat _]%list_elem_of_filter by (rewrite E; set_solver).
    unfold edge_sat in Hsat. destruct (tget (edges c) i) as [e|] eqn:He; [|done].
    apply andb_true_iff in Hsat as [_ <-%N.eqb_eq]. by destruct (wf_edge c i e Hwf He) as (_ & _ & ? & _). }
  exists lab. split; [done|]. split; [by apply chain_usage | done].
Qed.

(** The sorted pairs and the usages they materialize to. *)
Lemma usages_pairs counts : tallied c counts ids ->
  exists ps us, usages c counts = Some us /\
    Forall2 (fun p u => label_name c p.1 = Some (lu_label u) /\ lu_count u = p.2) ps us /\
    (forall p, p ∈ ps <-> counts !! p.1 = Some p.2) /\ NoDup ps.*1 /\ StronglySorted usage_le ps.
Proof using All.
  intros Ht. unfold usages. set (ps := merge_sort usage_le (map_to_list counts)).
  assert (Hin : forall p, p ∈ ps <-> counts !! p.1 = Some p.2).
  { intros [l k]. unfold ps. rewrite merge_sort_Permutation. apply elem_of_map_to_list. }
  assert (Hm : exists us, mapM (fun p => label ← label_name c p.1; Some {| lu_label := label; lu_count := p.2 |}) ps = Some us).
  { apply mapM_is_Some_2, Forall_forall. intros p Hp%Hin.
    destruct (counted_label counts _ _ Ht Hp) as (lab & Hlab & _). unfold compose. rewrite Hlab. simpl. eauto. }
  destruct Hm as [us Hus]. exists ps, us. split; [done|]. apply mapM_Some in Hus. split; [|split; [done|split]].
  - eapply Forall2_impl; [exact Hus|]. by intros p u (lab & Hl & [= <-])%bind_Some.
  - unfold ps. rewrite merge_sort_Permutation. apply NoDup_fst_map_to_list.
  - apply StronglySorted_merge_sort; apply _.
Qed.

Lemma usages_listed counts ps us : tallied c counts ids ->
  Forall2 (fun p u => label_name c p.1 = Some (lu_label u) /\ lu_count u = p.2) ps us ->
  (forall p, p ∈ ps <-> counts !! p.1 = Some p.2) ->
  forall u, u ∈ us <-> lu_count u = usage_count role n (lu_label u) fs /\ lu_count u <> 0.
Proof using All.
  intros Ht Hus Hin u. split.
  - intros (k & Hk)%list_elem_of_lookup. destruct (Forall2_lookup_r _ _ _ _ _ Hus Hk) as (p & Hp & Hl & Hc).
    apply list_elem_of_lookup_2, Hin in Hp. destruct (counted_label counts _ _ Ht Hp) as (lab & Hlab & Hk' & Hne).
    rewrite Hc. split; congruence.
  - intros [Hc Hne]. rewrite Hc in Hne. apply count_facts_pos in Hne as Hex.
    destruct Hex as (f & (i & Hf)%(facts_elem c) & Hlive & Hro & Hlab); [|done].
    pose proof Hf as (e & _ & He & _ & Hl & _)%fact_at_inv.
    assert (Hp : counts !! e_label e = Some (lu_count u)).
    { rewrite (Ht (e_label e)). cbv zeta. rewrite Hlab in Hl. rewrite (chain_usage _ _ Hl), <- Hc.
      by rewrite (proj2 (N.eqb_neq _ _)) by congruence. }
    apply (Hin (e_label e, lu_count u)) in Hp. apply list_elem_of_lookup in Hp as [k Hk].
    destruct (Forall2_lookup_l _ _ _ _ _ Hus Hk) as (u' & Hu' & Hl' & Hc'). simpl in *.
    apply list_elem_of_lookup_2 in Hu'. destruct u as [lu cu], u' as [lu' cu']. simpl in *.
    rewrite Hlab in Hl. congruence.
Qed.

Lemma usages_distinct ps us :
  Forall2 (fun p u => label_name c p.1 = Some (lu_label u) /\ lu_count u = p.2) ps us ->
  NoDup ps.*1 -> NoDup (lu_label <$> us).
Proof using Hwf.
  clear -Hwf. intros Hus Hnd. induction Hus as [|p u ps us [Hl _] Hus IH]; csimpl in *; [constructor|].
  apply NoDup_cons in Hnd as [Hni Hnd]. constructor; [|auto]. intros (u' & Heq & Hin)%list_elem_of_fmap.
  apply list_elem_of_lookup in Hin as [k Hk]. destruct (Forall2_lookup_r _ _ _ _ _ Hus Hk) as (p' & Hp' & Hl' & _).
  apply Hni. rewrite Heq in Hl. rewrite (label_name_inj Hwf _ _ _ Hl Hl').
  apply list_elem_of_fmap_2. by eapply list_elem_of_lookup_2.
Qed.

Lemma usages_ordered ps us :
  Forall2 (fun p u => label_name c p.1 = Some (lu_label u) /\ lu_count u = p.2) ps us ->
  StronglySorted usage_le ps -> StronglySorted (usage_before c) us.
Proof using Hwf.
  clear -Hwf. intros Hus Hsort. induction Hus as [|p u ps us [Hl Hc] Hus IH]; [constructor|].
  apply StronglySorted_inv in Hsort as [Hsort Hall]. constructor; [auto|].
  rewrite Forall_forall in Hall. apply Forall_forall. intros u' (k & Hk)%list_elem_of_lookup.
  destruct (Forall2_lookup_r _ _ _ _ _ Hus Hk) as (p' & Hp' & Hl' & Hc').
  destruct (Hall p' (list_elem_of_lookup_2 _ _ _ Hp')) as [Hlt|[Heq Hle]]; unfold usage_before; [left; lia | right].
  split; [lia|]. exists p.1, p'.1. split; [by apply (label_name_id Hwf)|]. split; [by apply (label_name_id Hwf) | done].
Qed.

Lemma usages_spec counts : tallied c counts ids ->
  exists us, usages c counts = Some us /\ usages_of c role n fs us.
Proof using All.
  intros Ht. destruct (usages_pairs counts Ht) as (ps & us & Hrun & Hus & Hin & Hnd' & Hsort).
  exists us. split; [done|]. split; [by eapply usages_listed|]. split.
  - by eapply usages_distinct.
  - by eapply usages_ordered.
Qed.
End usages.

(** ** [describe] *)

(** The objects of the live [schema:type] facts of [n]. *)
Definition types_of (c : Context) (type_label : option name) (n : name) (fs : list Fact) (ts : list name) : Prop :=
  StronglySorted name_le ts /\ NoDup ts /\
  forall t, t ∈ ts <-> exists f l, f ∈ fs /\ is_live f /\ f_subject f = n /\ f_object f = t /\
    type_label = Some l /\ f_label f = canon_label c l.

Lemma names_in_order_spec s : StronglySorted name_le (names_in_order s) /\ NoDup (names_in_order s) /\
  forall n, n ∈ names_in_order s <-> n ∈ s.
Proof.
  unfold names_in_order. split; [apply StronglySorted_merge_sort; apply _|]. rewrite merge_sort_Permutation.
  split; [apply NoDup_elements|]. intros n. rewrite merge_sort_Permutation. apply elem_of_elements.
Qed.

Section describe.
Context `{UnicodeTables} {c : Context} (Hwf : wf c) (fs : list Fact) (Hfs : facts c = Some fs).

Lemma facts_at i f : fact_at c i = Some f -> f ∈ fs.
Proof using Hfs.
  intros Hf. pose proof (facts_lookup _ _ Hfs) as [_ Hg]. pose proof Hf as (e & _ & He & _)%fact_at_inv.
  rewrite <- (Hg i) in Hf by (by eapply tget_Some_lt). rewrite tget_lookup in Hf. by eapply list_elem_of_lookup_2.
Qed.

Lemma chain_sat (owner : EdgeRecord -> N) o e :
  tget (owner <$> edges c) e = Some o <-> edge_sat c (fun e => owner e =? o) e = true.
Proof using.
  clear. rewrite tget_fmap. unfold edge_sat. destruct (tget (edges c) e); simpl; [|done].
  rewrite N.eqb_eq. naive_solver.
Qed.

Lemma outgoing_chain i : i < lenN (concepts c) ->
  exists ids, outgoing c i = Some ids /\ NoDup ids /\
    forall e, e ∈ ids <-> edge_sat c (fun e => e_subject e =? i) e = true.
Proof using Hwf.
  intros [r Hr]%tget_lt.
  destruct (chains_walk _ _ _ i _ _ _ (wf_outgoing _ Hwf) ltac:(by rewrite tget_fmap, Hr)) as (a & Ha & Hn & _ & Ia).
  exists a. unfold outgoing, edge_chain. rewrite length_fmap in Ha. bind Hr. split; [done|]. split; [done|].
  intros e. by rewrite Ia, chain_sat.
Qed.
Lemma incoming_chain i : i < lenN (concepts c) ->
  exists ids, incoming c i = Some ids /\ NoDup ids /\
    forall e, e ∈ ids <-> edge_sat c (fun e => e_object e =? i) e = true.
Proof using Hwf.
  intros [r Hr]%tget_lt.
  destruct (chains_walk _ _ _ i _ _ _ (wf_incoming _ Hwf) ltac:(by rewrite tget_fmap, Hr)) as (a & Ha & Hn & _ & Ia).
  exists a. unfold incoming, edge_chain. rewrite length_fmap in Ha. bind Hr. split; [done|]. split; [done|].
  intros e. by rewrite Ia, chain_sat.
Qed.

Lemma subject_role o n : concept_name c o = Some n -> forall i e f,
  tget (edges c) i = Some e -> fact_at c i = Some f -> e_subject e = o <-> f_subject f = n.
Proof using Hwf.
  intros Hn i e f He (e' & _ & He' & Hs & _)%fact_at_inv. simplify_eq.
  split; [intros <-; congruence | intros <-; by eapply (concept_name_inj Hwf)].
Qed.
Lemma object_role o n : concept_name c o = Some n -> forall i e f,
  tget (edges c) i = Some e -> fact_at c i = Some f -> e_object e = o <-> f_object f = n.
Proof using Hwf.
  intros Hn i e f He (e' & _ & He' & _ & _ & Ho & _)%fact_at_inv. simplify_eq.
  split; [intros <-; congruence | intros <-; by eapply (concept_name_inj Hwf)].
Qed.

Lemma typed_types tl types ids o n :
  concept_name c o = Some n -> (forall e, e ∈ ids <-> edge_sat c (fun e => e_subject e =? o) e = true) ->
  typed c (tl ≫= (fun l => label_ids c !! l)) types ids -> types_of c tl n fs (names_in_order types).
Proof using Hwf Hfs.
  intros Hn Hids Hty. destruct (names_in_order_spec types) as (Hs & Hnd & Hin). do 2 (split; [done|]).
  pose proof (fun j m s => resolves_label Hwf j m s) as Hlab.
  intros t. rewrite Hin, (Hty t). split.
  - intros (i & e & Hi & He & Hcnt & Htl & Ho). apply Hids, chain_sat in Hi.
    rewrite tget_fmap, He in Hi. injection Hi as Hsub.
    destruct (fact_at_total c i Hwf) as [f Hf]; [by eapply tget_Some_lt|].
    apply bind_Some in Htl as (l & -> & Hl). pose proof Hf as (e' & _ & He' & _ & Hlf & Hof & _ & _ & Hnf & _)%fact_at_inv.
    rewrite He in He'. injection He' as <-. exists f, l. split; [by eapply facts_at|].
    split; [by unfold is_live; rewrite Hnf|]. split; [by apply (subject_role o n Hn i e f)|].
    split; [congruence|]. split; [done|]. by apply (Hlab _ _ _ Hlf).
  - intros (f & l & Hin' & Hlive & Hsub & <- & -> & Hl). destruct (facts_elem c fs f Hfs Hin') as [i Hf].
    pose proof Hf as (e & _ & He & _ & Hlf & Hof & _ & _ & Hnf & _)%fact_at_inv.
    exists i, e. split; [|split; [done|split; [by rewrite <- Hnf|split; [|done]]]].
    + apply Hids, chain_sat. rewrite tget_fmap, He. simpl. f_equal. by apply (subject_role o n Hn i e f).
    + simpl. by apply (Hlab _ _ _ Hlf).
Qed.

Lemma chain_lt (own : EdgeRecord -> bool) (ids : list EdgeId) :
  (forall e, e ∈ ids <-> edge_sat c own e = true) -> forall i, i ∈ ids -> i < lenN (edges c).
Proof using.
  clear. intros Hids i Hi%Hids. unfold edge_sat in Hi. destruct (tget (edges c) i) eqn:He; [|done].
  by eapply tget_Some_lt.
Qed.

Lemma describe_typed_known s tl o : concept_ids c !! s = Some o -> exists n d,
  concept_name c o = Some n /\ describe_typed s tl c = Some (Some d) /\ cd_concept d = n /\
  usages_of c f_subject n fs (cd_as_subject d) /\ usages_of c f_object n fs (cd_as_object d) /\
  types_of c tl n fs (cd_types d) /\
  exists out counts types, outgoing c o = Some out /\
    foldM (tally_step c (tl ≫= (fun l => label_ids c !! l))) out (∅, ∅) = Some (counts, types) /\
    cd_types d = names_in_order types.
Proof using Hwf Hfs.
  intros Ho. assert (Hlt : o < lenN (concepts c)) by (by eapply concept_id_lt).
  destruct (concept_name_total Hwf o Hlt) as [n Hn].
  destruct (outgoing_chain o Hlt) as (out & Hout & Nout & Iout).
  destruct (incoming_chain o Hlt) as (inc & Hinc & Ninc & Iinc).
  destruct (tally_fold c Hwf (tl ≫= (fun l => label_ids c !! l)) out (chain_lt _ _ Iout))
    as (counts & types & Hf & Ht & Hy).
  destruct (tally_fold c Hwf None inc (chain_lt _ _ Iinc)) as (counts' & types' & Hf' & Ht' & _).
  destruct (usages_spec Hwf fs Hfs e_subject f_subject o n out (subject_role o n Hn) Nout Iout counts Ht)
    as (us & Hus & Su).
  destruct (usages_spec Hwf fs Hfs e_object f_object o n inc (object_role o n Hn) Ninc Iinc counts' Ht')
    as (us' & Hus' & Su').
  exists n, {| cd_concept := n; cd_as_subject := us; cd_as_object := us'; cd_types := names_in_order types |}.
  split; [done|]. split.
  - unfold describe_typed. rewrite Ho. bind Hout. bind Hf. bind Hus. bind Hinc. bind Hf'. bind Hus'. by bind Hn.
  - do 3 (split; [done|]). split; [by eapply typed_types|]. by exists out, counts, types.
Qed.
End describe.

(** [concept_types] walks once and keeps only the types. *)
Lemma type_fold c l ids counts types counts' types' :
  foldM (tally_step c (Some l)) ids (counts, types) = Some (counts', types') ->
  foldM (type_step c l) ids types = Some types'.
Proof.
  revert counts types. induction ids as [|i ids IH]; intros counts types; simpl; [by intros [= _ <-]|].
  intros ([counts1 types1] & Hstep & Hrest)%bind_Some.
  enough (type_step c l types i = Some types1) as -> by (simpl; by eapply IH).
  unfold tally_step in Hstep. unfold type_step. destruct (tget (edges c) i) as [e|]; simpl in *; [|done].
  destruct (e_count e =? 0); simpl; [by injection Hstep as <- <-|].
  apply bind_Some in Hstep as (ty & Hty & [= <- <-]). destruct (N.eqb_spec (e_label e) l) as [Heq|Hne].
  - by rewrite bool_decide_eq_true_2 in Hty by congruence.
  - by rewrite bool_decide_eq_false_2 in Hty by congruence.
Qed.
