(* ===== verification/Stats.v ===== *)
(** * Directory statistics and vocabulary pages
    ([src/context/stats.rs], [src/context/query.rs]) *)

From S2P Require Export Describe.
From S2P Require Import Sample.

Local Open Scope N_scope.

(** ** Settings and counters *)

Definition DICE_FLOOR : f64 := 0.3%float.

Definition dice_floor_of (c : Context) : f64 := default DICE_FLOOR (dice_floor c).

Definition set_dice_floor (floor : option f64) (c : Context) : Context :=
  set_dice_floor_field ((fun f => clamp_unit_or f 1%float) <$> floor) c.

Definition association_count (c : Context) : N := lenN (edges c).
Definition concept_count (c : Context) : N := lenN (concepts c).
Definition label_count (c : Context) : N := lenN (labels c).
Definition source_count (c : Context) : N := lenN (sources c).
Definition dead_ratio (c : Context) : f64 := dead_ratio_of (dead_edges c) (association_count c).

(** ** [top_concepts] *)

Definition live_edges (c : Context) (ids : list EdgeId) : option (list EdgeId) :=
  filterM (fun id => edge ← tget (edges c) id; Some (0 <? e_count edge)) ids.

Definition degree (c : Context) (id : ConceptId) : option N :=
  out ← outgoing c id;
  live_out ← live_edges c out;
  inc ← incoming c id;
  live_inc ← live_edges c inc;
  Some (lenN live_out + lenN live_inc).

(** Higher degree first, then the smaller id. *)
Definition rank_le (a b : N * ConceptId) : Prop := b.1 < a.1 \/ (b.1 = a.1 /\ a.2 <= b.2).
#[export] Instance rank_le_dec a b : Decision (rank_le a b).
Proof. unfold rank_le. apply _. Defined.
#[export] Instance rank_le_trans : Transitive rank_le.
Proof. intros [] [] []. unfold rank_le. simpl. lia. Qed.
#[export] Instance rank_le_total : Total rank_le.
Proof. intros [] []. unfold rank_le. simpl. lia. Qed.
#[export] Instance rank_le_antisymm : AntiSymm (=) rank_le.
Proof. intros [] []. unfold rank_le. simpl. intros. f_equal; lia. Qed.

(** [select_nth_unstable_by index order]: some permutation whose first
    [index + 1] elements are no later than the rest. *)
Definition selects (select_nth : nat -> list (N * ConceptId) -> list (N * ConceptId)) : Prop :=
  forall index l, (index < length l)%nat ->
    select_nth index l ≡ₚ l /\
    forall a b, a ∈ take (S index) (select_nth index l) -> b ∈ drop (S index) (select_nth index l) -> rank_le a b.

Section top.
Context (select_nth : nat -> list (N * ConceptId) -> list (N * ConceptId)).

Definition top_concepts (limit : nat) (c : Context) : option (list (name * N)) :=
  ranked ← mapM (fun id => d ← degree c id; Some (d, id)) (indices (concepts c));
  let limit := Nat.min limit (length ranked) in
  if (limit =? 0)%nat then Some []
  else
    mapM (fun p => n ← concept_name c p.2; Some (n, p.1))
      (merge_sort rank_le (take limit (select_nth (limit - 1)%nat ranked))).

Context (Hselect : selects select_nth).

(** Partition, truncate and sort the prefix: the first [limit] of the full sort. *)
Lemma select_then_sort limit l : (0 < limit <= length l)%nat ->
  merge_sort rank_le (take limit (select_nth (limit - 1) l)) = take limit (merge_sort rank_le l).
Proof using Hselect.
  intros Hl. destruct (Hselect (limit - 1)%nat l ltac:(lia)) as [Hp Hle].
  replace (S (limit - 1)) with limit in Hle by lia. set (s := select_nth (limit - 1)%nat l) in *.
  assert (Heq : merge_sort rank_le l = merge_sort rank_le (take limit s) ++ merge_sort rank_le (drop limit s)).
  { apply (StronglySorted_unique rank_le); [apply StronglySorted_merge_sort; apply _| |].
    - apply StronglySorted_app. split; [|split; apply StronglySorted_merge_sort; apply _].
      intros a b. rewrite !merge_sort_Permutation. auto.
    - rewrite !merge_sort_Permutation, take_drop. by symmetry. }
  rewrite Heq, take_app_length'; [done|]. rewrite merge_sort_Permutation, length_take, Hp. lia.
Qed.
End top.

Lemma merge_sort_selects : selects (fun _ => merge_sort rank_le).
Proof.
  intros index l Hi. split; [apply merge_sort_Permutation|]. intros a b Ha Hb.
  pose proof (StronglySorted_merge_sort rank_le l) as Hs.
  rewrite <- (take_drop (S index) (merge_sort rank_le l)) in Hs. apply StronglySorted_app in Hs as (Hab & _). auto.
Qed.

(** How many live facts a concept takes part in, counted per role. *)
Definition live_degree (n : name) (fs : list Fact) : N :=
  count_facts (fun f => is_live f /\ f_subject f = n) fs + count_facts (fun f => is_live f /\ f_object f = n) fs.

Section degrees.
Context `{UnicodeTables} {c : Context} (Hwf : wf c) (fs : list Fact) (Hfs : facts c = Some fs).

Lemma live_edges_spec ids : (forall i, i ∈ ids -> i < lenN (edges c)) ->
  live_edges c ids = Some (filter (fun i => edge_sat c (fun e => negb (e_count e =? 0)) i = true) ids).
Proof using.
  clear. intros Hlt. unfold live_edges. apply filterM_pure. intros i Hi.
  destruct (tget_lt (edges c) i (Hlt i Hi)) as [e He]. bind He. f_equal.
  assert (Hs : edge_sat c (fun e => negb (e_count e =? 0)) i = negb (e_count e =? 0)) by (unfold edge_sat; by rewrite He).
  rewrite Hs. destruct (N.eqb_spec (e_count e) 0) as [Hz|]; case_bool_decide; try done; try (apply N.ltb_lt; lia).
  by rewrite Hz.
Qed.

Lemma degree_spec i n : concept_name c i = Some n -> degree c i = Some (live_degree n fs).
Proof using Hwf Hfs.
  intros Hn. assert (Hlt : i < lenN (concepts c)).
  { apply (concept_name_id Hwf) in Hn. by eapply concept_id_lt. }
  destruct (outgoing_chain Hwf i Hlt) as (out & Hout & Nout & Iout).
  destruct (incoming_chain Hwf i Hlt) as (inc & Hinc & Ninc & Iinc).
  assert (Hlive : forall j e f, tget (edges c) j = Some e -> fact_at c j = Some f ->
    negb (e_count e =? 0) = true <-> is_live f).
  { intros j e f He (e' & _ & He' & _ & _ & _ & _ & _ & Hc & _)%fact_at_inv. simplify_eq.
    unfold is_live. rewrite negb_true_iff, N.eqb_neq. by rewrite Hc. }
  unfold degree. bind Hout. rewrite live_edges_spec by (by eapply chain_lt). cbn [mbind option_bind].
  bind Hinc. rewrite live_edges_spec by (by eapply chain_lt). cbn [mbind option_bind]. unfold live_degree. f_equal. f_equal.
  - eapply count_chain; [done | done | exact Iout |]. intros j e f He Hf.
    rewrite andb_true_iff, N.eqb_eq, (Hlive j e f He Hf), (subject_role Hwf i n Hn j e f He Hf). tauto.
  - eapply count_chain; [done | done | exact Iinc |]. intros j e f He Hf.
    rewrite andb_true_iff, N.eqb_eq, (Hlive j e f He Hf), (object_role Hwf i n Hn j e f He Hf). tauto.
Qed.
End degrees.

(** The full ranking: every concept with its live degree, best first. *)
Definition ranking (c : Context) (fs : list Fact) (all : list (name * N)) : Prop :=
  mapM (fun p => n ← concept_name c p.2; Some (n, p.1))
    (merge_sort rank_le ((fun i => (live_degree (default [] (concept_name c i)) fs, i)) <$> indices (concepts c)))
  = Some all.

(** C12. [top_concepts] partitions, truncates and sorts only a prefix, and answers
    the first [limit] entries of the full ranking of all concepts by live degree
    (ties to the concept interned first), whatever selection algorithm the
    partition uses: retracted facts never count towards a concept's rank. *)
Theorem top_concepts_ranks `{UnicodeTables} select_nth c fs limit
    (Hsel : selects select_nth) (Hwf : wf c) (Hfs : facts c = Some fs) :
  exists all, ranking c fs all /\ length all = length (concepts c) /\
    (forall n d, (n, d) ∈ all -> d = live_degree n fs) /\
    top_concepts select_nth limit c = Some (take limit all).
Proof.
  set (ranked := (fun i => (live_degree (default [] (concept_name c i)) fs, i)) <$> indices (concepts c)).
  assert (Hr : mapM (fun id => d ← degree c id; Some (d, id)) (indices (concepts c)) = Some ranked).
  { apply mapM_Some, Forall2_fmap_r, Forall_Forall2_diag, Forall_forall. intros i Hi%elem_of_indices.
    destruct (concept_name_total Hwf i Hi) as [n Hn]. rewrite (degree_spec Hwf fs Hfs i n Hn). simpl. by rewrite Hn. }
  assert (Hm : forall l, l ⊆ ranked -> exists all, mapM (fun p => n ← concept_name c p.2; Some (n, p.1)) l = Some all).
  { intros l Hsub. apply mapM_is_Some_2, Forall_forall. intros p Hp%Hsub.
    apply list_elem_of_fmap in Hp as (i & -> & Hi%elem_of_indices). unfold compose. simpl.
    destruct (concept_name_total Hwf i Hi) as [n ->]. simpl. eauto. }
  destruct (Hm (merge_sort rank_le ranked)) as [all Hall]; [intros x; by rewrite merge_sort_Permutation|].
  exists all. split; [exact Hall|]. apply mapM_Some in Hall as H2. split; [|split].
  - apply Forall2_length in H2. rewrite <- H2, merge_sort_Permutation. unfold ranked. by rewrite length_fmap, indices_length.
  - intros n d (k & Hk)%list_elem_of_lookup. destruct (Forall2_lookup_r _ _ _ _ _ H2 Hk) as ([d' i] & Hp & Hn).
    apply list_elem_of_lookup_2 in Hp. rewrite merge_sort_Permutation in Hp.
    apply list_elem_of_fmap in Hp as (j & [= -> ->] & _). apply bind_Some in Hn as (m & Hm' & [= <- <-]).
    simpl in *. by rewrite Hm'.
  - unfold top_concepts. rewrite Hr. cbn [mbind option_bind].
    assert (Hlen : length ranked = length all).
    { apply Forall2_length in H2. by rewrite <- H2, merge_sort_Permutation. }
    destruct (Nat.eqb_spec (limit `min` length ranked) 0) as [Hz|Hnz].
    { f_equal. symmetry. apply nil_length_inv. rewrite length_take. lia. }
    rewrite (select_then_sort select_nth Hsel) by lia.
    rewrite (proj2 (mapM_Some _ _ (take (limit `min` length ranked) all))).
    + f_equal. rewrite Hlen. destruct (decide (limit <= length all)%nat); [f_equal; lia|].
      rewrite !take_ge by lia. done.
    + by apply Forall2_take.
Qed.

Lemma top_concepts_ranks_witness :
  top_concepts (fun _ => merge_sort rank_le) 2 sample = Some [(str "cat", 2); (str "mouse", 2)].
Proof.
  destruct (@top_concepts_ranks ascii_tables (fun _ => merge_sort rank_le) sample sample_facts 2
    merge_sort_selects sample_wf sample_facts_eq) as (all & Hall & _ & _ & Hrun).
  unfold ranking in Hall.
  assert (E : mapM (fun p => n ← concept_name sample p.2; Some (n, p.1))
    (merge_sort rank_le ((fun i => (live_degree (default [] (concept_name sample i)) sample_facts, i)) <$>
       indices (concepts sample))) = Some [(str "cat", 2); (str "mouse", 2); (str "cheese", 2)])
    by (vm_compute; reflexivity).
  rewrite E in Hall. injection Hall as <-. exact Hrun.
Defined.

(** ** Descriptions *)

(** [describe] answers [None] exactly for an unknown spelling; for a known one
    it names the canonical concept and lists, per role, every label of a live
    fact once with its exact number of live facts, most used first and older
    labels first on ties, plus the objects of its live type facts in name order;
    a retracted fact never counts.  [concept_types] is the same type list. *)
Theorem describe_tallies `{UnicodeTables} c fs s tl (Hwf : wf c) (Hfs : facts c = Some fs) :
  match concept_ids c !! s with
  | None => describe_typed s tl c = Some None
  | Some o => exists n d, concept_name c o = Some n /\ describe_typed s tl c = Some (Some d) /\
      cd_concept d = n /\ usages_of c f_subject n fs (cd_as_subject d) /\
      usages_of c f_object n fs (cd_as_object d) /\ types_of c tl n fs (cd_types d) /\
      forall l, tl = Some l -> is_Some (label_ids c !! l) -> concept_types s l c = Some (cd_types d)
  end.
Proof.
  destruct (concept_ids c !! s) as [o|] eqn:Ho; [|by unfold describe_typed; rewrite Ho].
  destruct (describe_typed_known Hwf fs Hfs s tl o Ho)
    as (n & d & Hn & Hd & Hc & Hs & Hob & Ht & out & counts & types & Hout & Hfold & Hty).
  exists n, d. do 6 (split; [done|]). intros l -> [i Hi]. unfold concept_types. rewrite Hi, Ho.
  bind Hout. simpl in Hfold. rewrite Hi in Hfold. apply type_fold in Hfold. bind Hfold. by rewrite Hty.
Qed.

Lemma describe_tallies_witness :
  exists d, describe_typed (str "cat") None sample = Some (Some d) /\ cd_concept d = str "cat" /\
    usages_of sample f_subject (str "cat") sample_facts (cd_as_subject d).
Proof.
  pose proof (@describe_tallies ascii_tables sample sample_facts (str "cat") None sample_wf sample_facts_eq) as Ht.
  assert (E : concept_ids sample !! str "cat" = Some 0) by (vm_compute; reflexivity).
  rewrite E in Ht. destruct Ht as (n & d & Hn & Hd & Hc & Hs & _). exists d.
  assert (En : concept_name sample 0 = Some (str "cat")) by (vm_compute; reflexivity).
  rewrite En in Hn. injection Hn as <-. split; [exact Hd|]. split; [exact Hc | exact Hs].
Defined.

(** ** Vocabulary pages *)

Lemma names_in_order_filter (P : name -> Prop) `{!forall n, Decision (P n)} (s : gset name) :
  filter P (names_in_order s) = names_in_order (filter P s).
Proof.
  apply (StronglySorted_unique name_le).
  - apply StronglySorted_filter, names_in_order_spec.
  - apply names_in_order_spec.
  - apply NoDup_Permutation.
    + apply NoDup_filter, names_in_order_spec.
    + apply names_in_order_spec.
    + intros n. rewrite list_elem_of_filter, !(proj2 (proj2 (names_in_order_spec _))). set_solver.
Qed.

Lemma names_after_resume s i n : names_in_order s !! i = Some n ->
  names_after (Some n) s = drop (S i) (names_in_order s).
Proof.
  intros Hi. destruct (names_in_order_spec s) as (Hs & Hnd & _).
  set (l := (fun m => (m, tt)) <$> names_in_order s).
  assert (Hl : forall k : list (name * unit), k.*1 = names_in_order s -> filter (fun m => name_lt n m) (names_in_order s) =
    (filter (fun q => name_lt n q.1) k).*1).
  { intros k <-. clear. induction k as [|[m []] k IH]; [done|]. csimpl. rewrite !filter_cons. simpl.
    case_decide; csimpl; by rewrite IH. }
  assert (El : l.*1 = names_in_order s).
  { unfold l. rewrite <- list_fmap_compose. apply list_fmap_id. }
  assert (Hf : filter (fun q : name * unit => name_lt n q.1) l = drop (S i) l).
  { apply (sorted_after l i (n, tt)).
    - unfold l. clear -Hs. induction Hs as [|m k _ IH Hall]; csimpl; [constructor|]. constructor; [done|].
      rewrite Forall_fmap. eapply Forall_impl; [exact Hall|]. by intros.
    - by rewrite El.
    - unfold l. by rewrite list_lookup_fmap, Hi. }
  unfold names_after. by rewrite (Hl l El), Hf, fmap_drop, El.
Qed.

(** Subtracting the interned hidden names leaves the number of visible ones. *)
Lemma hidden_count (s hid : gset name) :
  N.of_nat (size s) - lenN (filter (fun n => n ∈ s) (elements hid)) =
  N.of_nat (size (filter (fun n => n ∉ hid) s)).
Proof.
  assert (Hh : filter (fun n => n ∈ s) (elements hid) ≡ₚ elements (hid ∩ s)).
  { apply NoDup_Permutation; [apply NoDup_filter, NoDup_elements | apply NoDup_elements|]. intros n.
    rewrite list_elem_of_filter, !elem_of_elements. set_solver. }
  assert (Hsz : size s = (size (filter (fun n => n ∉ hid) s) + size (hid ∩ s))%nat).
  { rewrite <- size_union by set_solver. apply set_size_proper. intros n. destruct (decide (n ∈ hid)); set_solver. }
  unfold lenN. rewrite Hh, Hsz. change (length (elements (hid ∩ s))) with (size (hid ∩ s)). lia.
Qed.

(** A label page shows exactly the canonical labels outside the hidden set, in
    name order, and counts them once however often the caller repeats a hidden
    name or hides one that was never interned; a page after a label holds exactly
    the visible labels that follow it. *)
Theorem label_page_visible `{UnicodeTables} c excluded limit (Hwf : wf c) :
  exists ls, label_names_of c = Some ls /\
    let visible : gset name := list_to_set ls ∖ list_to_set excluded in
    label_page_excluding None limit excluded c =
      (N.of_nat (size visible), take limit (names_in_order visible)) /\
    forall i n, names_in_order visible !! i = Some n ->
      label_page_excluding (Some n) limit excluded c =
        (N.of_nat (size visible), take limit (drop (S i) (names_in_order visible))).
Proof.
  destruct (wf_labels _ Hwf) as (ns & al & [Hn _ _] & Hidx).
  exists ns. split.
  { unfold label_names_of. apply mapM_Some. pose proof (ns_length Hn) as Hlen. rewrite length_fmap in Hlen.
    apply Forall2_same_length_lookup_2; [done|]. intros i r n Hr Hni.
    destruct (ns_name_at Hn (N.of_nat i) (l_range r)) as (n' & Hn' & Hi').
    { by rewrite tget_fmap, tget_lookup, Nat2N.id, Hr. }
    rewrite tget_lookup, Nat2N.id in Hi'. simpl in Hn'. unfold arena_str. congruence. }
  intros visible. assert (Hvis : visible = filter (fun n => n ∉ (list_to_set excluded : gset name)) (label_name_index c)).
  { unfold visible. rewrite Hidx. apply leibniz_equiv. intros n. rewrite elem_of_difference, elem_of_filter. tauto. }
  assert (Hpage : forall after, label_page_excluding after limit excluded c =
    (N.of_nat (size visible), take limit (names_after after visible))).
  { intros after. assert (Hna : names_after after visible =
      filter (fun n => n ∉ (list_to_set excluded : gset name)) (names_after after (label_name_index c))).
    { rewrite Hvis. unfold names_after. destruct after as [n|]; rewrite <- names_in_order_filter; [|done].
      rewrite !list_filter_filter. apply list_filter_iff. tauto. }
    unfold label_page_excluding. destruct excluded as [|x excluded].
    - assert (visible = label_name_index c) as ->; [|done]. rewrite Hvis. apply leibniz_equiv. intros n. rewrite elem_of_filter. set_solver.
    - rewrite Hna. f_equal. rewrite Hvis. apply hidden_count. }
  split; [apply Hpage|]. intros i n Hi. by rewrite Hpage, (names_after_resume _ _ _ Hi).
Qed.

Lemma label_page_visible_witness :
  label_page_excluding (Some (str "chases")) 5 [str "likes"; str "likes"; str "none"] sample = (2, [str "eats"]).
Proof.
  destruct (@label_page_visible ascii_tables sample [str "likes"; str "likes"; str "none"] 5 sample_wf)
    as (ls & Hls & _ & Hpage).
  assert (E : label_names_of sample = Some [str "chases"; str "eats"; str "likes"]) by (vm_compute; reflexivity).
  rewrite E in Hls. injection Hls as <-.
  rewrite (Hpage 0%nat (str "chases") ltac:(vm_compute; reflexivity)). vm_compute. reflexivity.
Defined.

(** ** The deadline-polled export *)

(** The full export either returns every fact, dead ones included, in edge
    order, or stops with the deadline error, and it stops exactly when the
    deadline is found expired at some edge. *)
Theorem all_associations_deadline `{UnicodeTables} c fs expired (Hwf : wf c) (Hfs : facts c = Some fs) :
  all_associations expired c =
    Some (if decide (Exists (fun i => expired i = true) (indices (edges c)))
          then Err tt else Ok (fact_association <$> fs)).
Proof.
  unfold all_associations. apply mapM_Some in Hfs. induction Hfs as [|i f ids fs Hf _ IH]; [done|].
  simpl. destruct (expired i) eqn:Ei; [by rewrite decide_True by (by left)|].
  rewrite (association_fact i f Hf). simpl. rewrite IH. simpl.
  assert (Hiff : Exists (fun i => expired i = true) ids <-> Exists (fun i => expired i = true) (i :: ids)).
  { split; [by right | inversion 1; congruence]. }
  rewrite <- (decide_ext _ _ _ _ Hiff). by case_decide.
Qed.

Lemma all_associations_deadline_witness :
  exists r, all_associations (fun _ => false) sample = Some (Ok r) /\ length r = 3%nat.
Proof.
  exists (fact_association <$> sample_facts). split; [|vm_compute; reflexivity].
  rewrite (@all_associations_deadline ascii_tables sample sample_facts (fun _ => false) sample_wf sample_facts_eq).
  rewrite decide_False; [reflexivity|]. rewrite Exists_exists. intros (x & _ & Hx). discriminate Hx.
Defined.
