(* ===== verification/Traverse.v ===== *)
(** * Walks: exploration, reachability, activation, paths
    ([src/context/traverse.rs])

    Every walk expands a concept into its usable edges (live, carrying a visible
    label, alive under the lens) in chain order, outgoing before incoming, and
    then updates its own state edge by edge. *)

From S2P Require Export Query.

Local Open Scope N_scope.

(** ** Expansion *)

(** [visible] of the [_excluding] variants. *)
Definition excluded_ids (c : Context) (excluded : list name) : gset LabelId :=
  list_to_set (omap (fun n => label_ids c !! n) excluded).
Definition visible_all (_ : LabelId) : bool := true.
Definition visible_but (c : Context) (excluded : list name) (label : LabelId) : bool :=
  bool_decide (label ∉ excluded_ids c excluded).

Definition usable (lens : EdgeLens) (visible : LabelId -> bool) (c : Context) (id : EdgeId) : option bool :=
  edge ← tget (edges c) id;
  if (e_count edge =? 0) || negb (visible (e_label edge)) then Some false else lens_alive id edge.

Definition usable_edges (lens : EdgeLens) (visible : LabelId -> bool) (c : Context) (ids : list EdgeId)
    : option (list (EdgeId * EdgeRecord)) :=
  kept ← filterM (usable lens visible c) ids;
  mapM (fun id => edge ← tget (edges c) id; Some (id, edge)) kept.

(** The usable edges of a concept. *)
Definition expand (lens : EdgeLens) (visible : LabelId -> bool) (c : Context) (concept : ConceptId)
    : option (list (EdgeId * EdgeRecord)) :=
  out ← outgoing c concept;
  inc ← incoming c concept;
  usable_edges lens visible c (out ++ inc).

Definition ends (edge : EdgeRecord) : list ConceptId := [e_subject edge; e_object edge].

(** ** [explore_impl] *)

Record Exploration := {
  node_distances : gmap ConceptId N;
  parents : gmap ConceptId ConceptId;
  frontier : list ConceptId;
  reached : gmap EdgeId (N * ConceptId)
}.

(** One neighbor: [Entry::Vacant] or nothing. *)
Definition sight (hop : N) (from : ConceptId) (st : Exploration) (neighbor : ConceptId) : Exploration :=
  match node_distances st !! neighbor with
  | Some _ => st
  | None => {| node_distances := <[neighbor := hop]> (node_distances st);
               parents := <[neighbor := from]> (parents st);
               frontier := frontier st ++ [neighbor]; reached := reached st |}
  end.

(** One usable edge: first sighting wins. *)
Definition cross (hop : N) (from : ConceptId) (st : Exploration) (p : EdgeId * EdgeRecord) : Exploration :=
  let st := {| node_distances := node_distances st; parents := parents st; frontier := frontier st;
               reached := match reached st !! p.1 with
                          | Some _ => reached st
                          | None => <[p.1 := (hop, from)]> (reached st)
                          end |} in
  foldl (sight hop from) st (ends p.2).

Definition pop_frontier (rest : list ConceptId) (st : Exploration) : Exploration :=
  {| node_distances := node_distances st; parents := parents st; frontier := rest; reached := reached st |}.

(** The loop, for any expansion; [None] is a panic (or too little fuel). *)
Fixpoint explore_loop (fuel : nat) (expand : ConceptId -> option (list (EdgeId * EdgeRecord)))
    (max_depth : N) (st : Exploration) : option Exploration :=
  match frontier st with
  | [] => Some st
  | concept :: rest =>
    match fuel with
    | O => None
    | S fuel =>
      distance ← node_distances st !! concept;
      let hop := distance + 1 in
      if max_depth <? hop then explore_loop fuel expand max_depth (pop_frontier rest st)
      else
        es ← expand concept;
        explore_loop fuel expand max_depth (foldl (cross hop concept) (pop_frontier rest st) es)
    end
  end.

(** Known origins, once each, in the caller's order. *)
Definition start_at (st : Exploration) (id : ConceptId) : Exploration :=
  match node_distances st !! id with
  | Some _ => st
  | None => {| node_distances := <[id := 0]> (node_distances st); parents := parents st;
               frontier := frontier st ++ [id]; reached := reached st |}
  end.

Definition origin_ids (c : Context) (origins : list name) : list ConceptId :=
  omap (fun n => concept_ids c !! n) origins.

Definition explore_start (origins : list ConceptId) : Exploration :=
  foldl start_at {| node_distances := ∅; parents := ∅; frontier := []; reached := ∅ |} origins.

(** [path_from]: parents followed to an origin, reversed. *)
Fixpoint path_ids (fuel : nat) (parents : gmap ConceptId ConceptId) (cursor : ConceptId)
    : option (list ConceptId) :=
  match parents !! cursor with
  | None => Some [cursor]
  | Some parent =>
    match fuel with
    | O => None
    | S fuel => path ← path_ids fuel parents parent; Some (path ++ [cursor])
    end
  end.

Definition path_from (c : Context) (parents : gmap ConceptId ConceptId) (concept : ConceptId)
    : option (list name) :=
  path ← path_ids (size parents) parents concept; mapM (concept_name c) path.

Record Recollection := { rc_distance : N; rc_path : list name; rc_association : Association }.

(** [sort_unstable] of (distance, edge, concept) tuples. *)
Definition sighting_le (a b : N * EdgeId * ConceptId) : Prop :=
  a.1.1 < b.1.1 \/ (a.1.1 = b.1.1 /\ (a.1.2 < b.1.2 \/ (a.1.2 = b.1.2 /\ a.2 <= b.2))).
#[export] Instance sighting_le_dec a b : Decision (sighting_le a b).
Proof. unfold sighting_le. apply _. Defined.

Definition ordered_sightings (reached : gmap EdgeId (N * ConceptId)) : list (N * EdgeId * ConceptId) :=
  merge_sort sighting_le ((fun p => (p.2.1, p.1, p.2.2)) <$> map_to_list reached).

Definition explore_impl (origins : list name) (max_depth : N) (visible : LabelId -> bool)
    (lens : EdgeLens) (c : Context) : option (list Recollection) :=
  st ← explore_loop (length (concepts c)) (expand lens visible c) max_depth
         (explore_start (origin_ids c origins));
  mapM (fun s : N * EdgeId * ConceptId =>
    path ← path_from c (parents st) s.2;
    association ← lens_association s.1.2;
    Some {| rc_distance := s.1.1; rc_path := path; rc_association := association |})
    (ordered_sightings (reached st)).

Definition explore (origins : list name) (max_depth : N) (c : Context) :=
  explore_impl origins max_depth visible_all (FullLens c) c.
Definition explore_excluding (origins : list name) (max_depth : N) (excluded : list name) (c : Context) :=
  explore_impl origins max_depth (visible_but c excluded) (FullLens c) c.
Definition explore_within (origins : list name) (max_depth : N) (excluded : list name)
    (window : SourceWindow) (c : Context) :=
  explore_impl origins max_depth (visible_but c excluded) (WindowLens c window) c.

(** ** [adjacent], [labels_share_subject] *)

Fixpoint anyM {A} (p : A -> option bool) (l : list A) : option bool :=
  match l with
  | [] => Some false
  | x :: l => b ← p x; if b : bool then Some true else anyM p l
  end.

Definition adjacent (a b : name) (c : Context) : option bool :=
  match concept_ids c !! a, concept_ids c !! b with
  | Some id_a, Some id_b =>
    out ← outgoing c id_a;
    found ← anyM (fun id => edge ← tget (edges c) id;
                   Some ((0 <? e_count edge) && (e_object edge =? id_b))) out;
    if found : bool then Some true
    else
      inc ← incoming c id_a;
      anyM (fun id => edge ← tget (edges c) id;
             Some ((0 <? e_count edge) && (e_subject edge =? id_b))) inc
  | _, _ => Some false
  end.

Definition live_rows (c : Context) (ids : list EdgeId) : option (list EdgeRecord) :=
  rows ← mapM (tget (edges c)) ids;
  Some (filter (fun e => (0 <? e_count e) = true) rows).

Definition labels_share_subject (a b : name) (c : Context) : option bool :=
  match label_ids c !! a, label_ids c !! b with
  | Some id_a, Some id_b =>
    ea ← labeled c id_a;
    ra ← live_rows c ea;
    let subjects : gset ConceptId := list_to_set (e_subject <$> ra) in
    eb ← labeled c id_b;
    rb ← live_rows c eb;
    Some (existsb (fun e => bool_decide (e_subject e ∈ subjects)) rb)
  | _, _ => Some false
  end.

(** ** [unreachable_from_impl] *)

Record Sweep := { visited : gset ConceptId; pending : list ConceptId }.

Definition visit (st : Sweep) (id : ConceptId) : Sweep :=
  if decide (id ∈ visited st) then st
  else {| visited := {[id]} ∪ visited st; pending := pending st ++ [id] |}.

(** [expired i] is the deadline's answer at the [i]-th poll. *)
Fixpoint sweep_loop (fuel : nat) (expired : nat -> bool) (poll : nat)
    (expand : ConceptId -> option (list (EdgeId * EdgeRecord))) (st : Sweep)
    : option (result (Sweep * nat) unit) :=
  match pending st with
  | [] => Some (Ok (st, poll))
  | concept :: rest =>
    match fuel with
    | O => None
    | S fuel =>
      if expired poll then Some (Err tt)
      else
        es ← expand concept;
        sweep_loop fuel expired (S poll) expand
          (foldl visit {| visited := visited st; pending := rest |} (es ≫= (fun p => ends p.2)))
    end
  end.

Fixpoint unreached_scan (expired : nat -> bool) (poll : nat) (visible : LabelId -> bool)
    (seen : gset ConceptId) (c : Context) (ids : list EdgeId) : option (result (list Association) unit) :=
  match ids with
  | [] => Some (Ok [])
  | id :: ids =>
    if expired poll then Some (Err tt)
    else
      edge ← tget (edges c) id;
      if (0 <? e_count edge) && visible (e_label edge) && bool_decide (e_subject edge ∉ seen)
      then
        a ← association c id;
        rest ← unreached_scan expired (S poll) visible seen c ids;
        Some (out ←? rest; Ok (a :: out))
      else unreached_scan expired (S poll) visible seen c ids
  end.

Definition unreachable_from_impl (origins : list name) (expired : nat -> bool)
    (visible : LabelId -> bool) (c : Context) : option (result (list Association) unit) :=
  swept ← sweep_loop (length (concepts c)) expired 0 (expand (FullLens c) visible c)
            (foldl visit {| visited := ∅; pending := [] |} (origin_ids c origins));
  match swept with
  | Err e => Some (Err e)
  | Ok (st, poll) => unreached_scan expired poll visible (visited st) c (indices (edges c))
  end.

Definition unreachable_from (origins : list name) (expired : nat -> bool) (c : Context) :=
  unreachable_from_impl origins expired visible_all c.
Definition unreachable_from_excluding (origins : list name) (expired : nat -> bool)
    (excluded : list name) (c : Context) :=
  unreachable_from_impl origins expired (visible_but c excluded) c.
