(* ===== verification/Bfs.v ===== *)
(** * Breadth-first search

    The loop of [explore_impl] over any finite graph: it terminates, settles every
    concept within the depth bound at its shortest distance, sights every edge
    from its nearer endpoint, and leaves parents that spell shortest paths. *)

From S2P Require Export Traverse.

Local Open Scope N_scope.

(** A finite map whose keys lie below [n] has at most [n] entries. *)
Lemma map_size_bound {A} (m : gmap N A) n :
  (forall x a, m !! x = Some a -> x < n) -> (size m <= N.to_nat n)%nat.
Proof.
  intros Hk. rewrite <- length_map_to_list, <- (length_fmap fst), <- (length_seq (N.to_nat n) 0),
    <- (length_fmap N.of_nat).
  apply submseteq_length, NoDup_submseteq; [apply NoDup_fst_map_to_list|].
  intros x (p & -> & Hp)%list_elem_of_fmap. destruct p as [x a]. apply elem_of_map_to_list, Hk in Hp.
  apply list_elem_of_fmap. exists (N.to_nat x). rewrite elem_of_seq, N2Nat.id. simpl. lia.
Qed.

Section bfs.
Context (n : N) (E : EdgeId -> EdgeRecord -> Prop).
Context (exp : ConceptId -> option (list (EdgeId * EdgeRecord))).
Context (roots : list ConceptId) (max_depth : N).

Definition linked (x y : ConceptId) : Prop := exists i e, E i e /\ x ∈ ends e /\ y ∈ ends e.

(** A walk of [k] edges from a root. *)
Inductive walks : N -> ConceptId -> Prop :=
  | walk_root x : x ∈ roots -> walks 0 x
  | walk_step k x y : walks k x -> linked x y -> walks (k + 1) y.

(** The graph is finite and its expansion exact. *)
Record graph_ok : Prop := {
  g_fun : forall i e e', E i e -> E i e' -> e = e';
  g_ends : forall i e x, E i e -> x ∈ ends e -> x < n;
  g_exp : forall x, x < n -> exists es, exp x = Some es /\ forall i e, (i, e) ∈ es <-> E i e /\ x ∈ ends e;
  g_roots : forall x, x ∈ roots -> x < n
}.

(** What holds of the state while concepts at distance [d] are expanded. *)
Record bfs_inv (d : N) (st : Exploration) : Prop := {
  b_dist : forall x k, node_distances st !! x = Some k -> x < n /\ walks k x /\ k <= d + 1 /\ k <= max_depth;
  b_front : forall x, x ∈ frontier st -> exists k, node_distances st !! x = Some k /\ d <= k;
  b_sorted : StronglySorted (fun x y => forall j k, node_distances st !! x = Some j ->
    node_distances st !! y = Some k -> j <= k) (frontier st);
  b_nodup : NoDup (frontier st);
  b_reached : forall i h f, reached st !! i = Some (h, f) -> exists e k,
    E i e /\ f ∈ ends e /\ node_distances st !! f = Some k /\ h = k + 1 /\ k <= d /\ h <= max_depth;
  b_parent : forall y x, parents st !! y = Some x -> linked x y /\ exists k,
    node_distances st !! x = Some k /\ node_distances st !! y = Some (k + 1);
  b_orphan : forall y k, node_distances st !! y = Some k -> parents st !! y = None -> y ∈ roots /\ k = 0;
  b_roots : forall x, x ∈ roots -> node_distances st !! x = Some 0
}.

(** Distances and sightings only grow, and every concept sighted anew is queued. *)
Record evolves (st st' : Exploration) : Prop := {
  ev_dist : node_distances st ⊆ node_distances st';
  ev_reached : reached st ⊆ reached st';
  ev_size : (size (node_distances st') + length (frontier st) =
    size (node_distances st) + length (frontier st'))%nat;
  ev_keep : forall z, z ∈ frontier st -> z ∈ frontier st';
  ev_fresh : forall z k, node_distances st' !! z = Some k -> node_distances st !! z = None -> z ∈ frontier st'
}.

#[export] Instance evolves_preorder : PreOrder evolves.
Proof.
  split.
  - intros st. split; auto. intros z k Hz Hn. congruence.
  - intros a b c [Ha Hb Hc Hd He] [Ha' Hb' Hc' Hd' He']. split; [by etrans | by etrans | lia | auto |].
    intros z k Hz Hn. destruct (node_distances b !! z) eqn:Ez; [|by eapply He'].
    apply Hd'. by eapply He.
Qed.

(** An edge is covered from distance [k]. *)
Definition covered (st : Exploration) (k : N) (i : EdgeId) (e : EdgeRecord) : Prop :=
  (forall y, y ∈ ends e -> exists j, node_distances st !! y = Some j /\ j <= k + 1) /\
  exists h f, reached st !! i = Some (h, f) /\ h <= k + 1.

Lemma covered_evolves st st' k i e : evolves st st' -> covered st k i e -> covered st' k i e.
Proof.
  intros Hev [Hy (h & f & Hr & Hh)]. split.
  - intros y Hin. destruct (Hy y Hin) as (j & Hj & ?). exists j. split; [|done].
    eapply lookup_weaken; [done | apply Hev].
  - exists h, f. split; [|done]. eapply lookup_weaken; [done | apply Hev].
Qed.

Context (Hg : graph_ok).

(** ** One neighbor *)

Lemma sight_spec d from st y :
  bfs_inv d st -> node_distances st !! from = Some d -> d + 1 <= max_depth ->
  linked from y -> y < n ->
  let st' := sight (d + 1) from st y in
  bfs_inv d st' /\ evolves st st' /\ exists k, node_distances st' !! y = Some k /\ k <= d + 1.
Proof using All.
  intros Hi Hf Hd Hl Hy. unfold sight. destruct (node_distances st !! y) as [k|] eqn:Ey.
  { split; [done|]. split; [done|]. exists k. split; [done|]. by destruct (b_dist _ _ Hi y k Ey) as (_ & _ & ? & _). }
  assert (Hneq : forall x k, node_distances st !! x = Some k -> x <> y) by congruence.
  assert (Hkeep : forall x k, node_distances st !! x = Some k -> <[y:=d + 1]> (node_distances st) !! x = Some k).
  { intros x k Hx. rewrite lookup_insert_ne; [done|]. intros ->. congruence. }
  assert (Hnew : y ∉ frontier st) by (intros (? & ? & _)%(b_front _ _ Hi); congruence).
  split; [|split].
  - split; cbn -[N.add].
    + intros x k [[<- <-]|[_ Hx]]%lookup_insert_Some; [|by eapply b_dist].
      split; [done|]. split; [|lia]. apply (walk_step _ from); [|done]. by apply (b_dist _ _ Hi from).
    + intros x [Hx|Hx]%elem_of_app.
      * destruct (b_front _ _ Hi x Hx) as (k & ? & ?). exists k. auto.
      * apply list_elem_of_singleton in Hx as ->. exists (d + 1). rewrite lookup_insert_eq. split; [done | lia].
    + apply StronglySorted_app. split; [|split; [|repeat constructor]].
      * intros a b Ha ->%list_elem_of_singleton j k Hj. rewrite lookup_insert_eq. intros [= <-].
        destruct (b_front _ _ Hi a Ha) as (k & Hk & _). rewrite (Hkeep _ _ Hk) in Hj. injection Hj as <-.
        by destruct (b_dist _ _ Hi a k Hk) as (_ & _ & ? & _).
      * eapply StronglySorted_impl; [|exact (b_sorted _ _ Hi)].
        intros a b Ha Hb Hab j k. destruct (b_front _ _ Hi a Ha) as (ja & Hja & _).
        destruct (b_front _ _ Hi b Hb) as (kb & Hkb & _). rewrite (Hkeep _ _ Hja), (Hkeep _ _ Hkb).
        intros [= <-] [= <-]. by apply Hab.
    + apply NoDup_app. split; [by eapply b_nodup|]. split; [|apply NoDup_singleton]. set_solver.
    + intros i h f Hr. destruct (b_reached _ _ Hi i h f Hr) as (e & k & ? & ? & ? & ?). exists e, k. auto.
    + intros z x [[<- <-]|[Hne Hz]]%lookup_insert_Some.
      * split; [done|]. exists d. split; [by apply Hkeep | apply lookup_insert_eq].
      * destruct (b_parent _ _ Hi z x Hz) as (? & k & ? & ?). split; [done|]. exists k. auto.
    + intros z k [[<- <-]|[Hne Hz]]%lookup_insert_Some; [by rewrite lookup_insert_eq|].
      rewrite lookup_insert_ne by done. by eapply b_orphan.
    + intros x Hx. by apply Hkeep, (b_roots _ _ Hi).
  - split; cbn -[N.add]; [by apply insert_subseteq | done | | |].
    + rewrite map_size_insert_None by done. rewrite length_app. simpl. lia.
    + intros z Hz. set_solver.
    + intros z k [[<- <-]|[_ Hz]]%lookup_insert_Some Hn; [set_solver | congruence].
  - exists (d + 1). cbn -[N.add]. rewrite lookup_insert_eq. split; [done | lia].
Qed.

Lemma sights_spec d from st ys :
  bfs_inv d st -> node_distances st !! from = Some d -> d + 1 <= max_depth ->
  (forall y, y ∈ ys -> linked from y /\ y < n) ->
  let st' := foldl (sight (d + 1) from) st ys in
  bfs_inv d st' /\ evolves st st' /\ forall y, y ∈ ys -> exists k, node_distances st' !! y = Some k /\ k <= d + 1.
Proof using All.
  revert st. induction ys as [|y ys IH]; intros st Hi Hf Hd Hys; cbn -[N.add]; [split; [done|]; split; [done | set_solver]|].
  destruct (Hys y ltac:(set_solver)) as [Hl Hy].
  destruct (sight_spec d from st y Hi Hf Hd Hl Hy) as (Hi1 & Hev1 & k & Hk & Hle).
  destruct (IH (sight (d + 1) from st y)) as (Hi2 & Hev2 & Hys2); [done | | done | set_solver |].
  { eapply lookup_weaken; [done | apply Hev1]. }
  split; [done|]. split; [by etrans|]. intros z [->|Hz]%elem_of_cons; [|by apply Hys2].
  exists k. split; [|done]. eapply lookup_weaken; [done | apply Hev2].
Qed.

(** ** One edge, one concept *)

Lemma cross_spec d from st i e :
  bfs_inv d st -> node_distances st !! from = Some d -> d + 1 <= max_depth -> E i e -> from ∈ ends e ->
  let st' := cross (d + 1) from st (i, e) in
  bfs_inv d st' /\ evolves st st' /\ covered st' d i e.
Proof using All.
  intros Hi Hf Hd He Hfrom. unfold cross. cbn [fst snd].
  set (st1 := {| reached := match reached st !! i with Some _ => reached st | None => _ end |}).
  assert (Hi1 : bfs_inv d st1).
  { destruct Hi as [H1 H2 H3 H4 H5 H6 H7 H8]. split; try done. simpl. intros j h f.
    destruct (reached st !! i) eqn:Er; [apply H5|]. intros [[<- [= <- <-]]|[_ Hj]]%lookup_insert_Some; [|by apply H5].
    exists e, d. split; [done|]. split; [done|]. split; [done|]. split; [done|]. split; [lia | done]. }
  assert (Hev1 : evolves st st1).
  { split; simpl; auto; [|congruence]. destruct (reached st !! i) eqn:Er; [done | by apply insert_subseteq]. }
  assert (Hr1 : exists h f, reached st1 !! i = Some (h, f) /\ h <= d + 1).
  { simpl. destruct (reached st !! i) as [[h f]|] eqn:Er.
    - exists h, f. split; [done|]. destruct (b_reached _ _ Hi i h f Er) as (e' & k & _ & _ & _ & -> & ? & _). lia.
    - exists (d + 1), from. rewrite lookup_insert_eq. split; [done | lia]. }
  destruct (sights_spec d from st1 (ends e) Hi1 Hf Hd) as (Hi2 & Hev2 & Hy).
  { intros y Hy. split; [by exists i, e | by eapply (g_ends Hg)]. }
  split; [done|]. split; [by etrans|]. split; [done|]. destruct Hr1 as (h & f & Hr & Hh). exists h, f.
  split; [|done]. eapply lookup_weaken; [done | apply Hev2].
Qed.

Lemma crosses_spec d from st es :
  bfs_inv d st -> node_distances st !! from = Some d -> d + 1 <= max_depth ->
  (forall i e, (i, e) ∈ es -> E i e /\ from ∈ ends e) ->
  let st' := foldl (cross (d + 1) from) st es in
  bfs_inv d st' /\ evolves st st' /\ forall i e, (i, e) ∈ es -> covered st' d i e.
Proof using All.
  revert st. induction es as [|[i e] es IH]; intros st Hi Hf Hd Hes; cbn -[N.add]; [split; [done|]; split; [done | set_solver]|].
  destruct (Hes i e ltac:(set_solver)) as [He Hfe].
  destruct (cross_spec d from st i e Hi Hf Hd He Hfe) as (Hi1 & Hev1 & Hc).
  destruct (IH (cross (d + 1) from st (i, e))) as (Hi2 & Hev2 & Hcs); [done | | done | set_solver |].
  { eapply lookup_weaken; [done | apply Hev1]. }
  split; [done|]. split; [by etrans|]. intros j k [[= -> ->]|Hz]%elem_of_cons; [|by apply Hcs].
  by eapply covered_evolves.
Qed.

(** ** The loop *)

(** Every settled concept inside the bound has all its edges covered. *)
Definition settled (st : Exploration) : Prop :=
  forall x k, node_distances st !! x = Some k -> x ∉ frontier st -> k < max_depth ->
    forall i e, E i e -> x ∈ ends e -> covered st k i e.

Lemma bfs_pop d k x rest st : bfs_inv d st -> frontier st = x :: rest -> node_distances st !! x = Some k ->
  bfs_inv k (pop_frontier rest st) /\ x ∉ rest.
Proof using All.
  intros [H1 H2 H3 H4 H5 H6 H7 H8] Hfr Hk. rewrite Hfr in *.
  apply NoDup_cons in H4 as [Hni H4]. apply StronglySorted_inv in H3 as [H3 Hall]. rewrite Forall_forall in Hall.
  destruct (H2 x ltac:(set_solver)) as (k' & Hk' & Hdk). rewrite Hk in Hk'. injection Hk' as <-.
  split; [|done]. split; simpl; try done.
  - intros y j Hj. destruct (H1 y j Hj) as (? & ? & ? & ?). repeat split; try done. lia.
  - intros y Hy. destruct (H2 y ltac:(set_solver)) as (j & Hj & _). exists j. split; [done|]. by eapply Hall.
  - intros i h f Hr. destruct (H5 i h f Hr) as (e & j & ? & ? & ? & ? & ? & ?). exists e, j. repeat split; try done. lia.
Qed.

Theorem explore_loop_spec fuel d st :
  bfs_inv d st -> settled st ->
  (N.to_nat n - size (node_distances st) + length (frontier st) <= fuel)%nat ->
  exists st' d', explore_loop fuel exp max_depth st = Some st' /\ bfs_inv d' st' /\ settled st' /\
    frontier st' = [].
Proof using All.
  revert d st. induction fuel as [|fuel IH]; intros d st Hi Hset Hfuel; simpl;
    (destruct (frontier st) as [|x rest] eqn:Hfr; [by exists st, d|]); [simpl in Hfuel; lia|].
  destruct (b_front _ _ Hi x ltac:(rewrite Hfr; set_solver)) as (k & Hk & Hdk). rewrite Hk. cbn [mbind option_bind].
  destruct (bfs_pop d k x rest st Hi Hfr Hk) as [Hi1 Hni].
  destruct (N.ltb_spec max_depth (k + 1)) as [Hlt|Hge].
  - apply (IH k); [done | |simpl in *; lia]. intros y j Hj Hy Hjd. simpl in Hj, Hy.
    destruct (decide (y = x)) as [->|Hne]; [assert (j = k) by congruence; lia|].
    intros i e He Hye. change (covered st j i e). apply (Hset y); try done. rewrite Hfr. set_solver.
  - destruct (b_dist _ _ Hi x k Hk) as (Hx & _ & _ & _). destruct (g_exp Hg x Hx) as (es & Hes & Hin).
    rewrite Hes. cbn [mbind option_bind].
    destruct (crosses_spec k x (pop_frontier rest st) es Hi1 Hk Hge) as (Hi2 & Hev & Hcov).
    { intros i e Hie. by apply Hin. }
    set (st2 := foldl (cross (k + 1) x) (pop_frontier rest st) es) in *.
    apply (IH k); [done | |].
    + intros y j Hj Hy Hjd i e He Hye. destruct (decide (y = x)) as [->|Hne].
      { assert (node_distances st2 !! x = Some k) as Hxk by (eapply lookup_weaken; [done | apply Hev]).
        rewrite Hxk in Hj. injection Hj as <-. apply Hcov, Hin. done. }
      destruct (node_distances st !! y) as [j'|] eqn:Ey.
      * assert (node_distances st2 !! y = Some j') as Hyj by (eapply lookup_weaken; [done | apply Hev]).
        rewrite Hyj in Hj. injection Hj as <-. destruct (decide (y ∈ rest)) as [Hyr|Hyr].
        -- exfalso. apply Hy. by apply (ev_keep _ _ Hev).
        -- eapply covered_evolves; [exact Hev|]. change (covered st j' i e).
           apply (Hset y); [done | | done | done | done]. rewrite Hfr. set_solver.
      * exfalso. apply Hy. by eapply (ev_fresh _ _ Hev).
    + pose proof (ev_size _ _ Hev) as Hsz. simpl in Hsz, Hfuel.
      assert (size (node_distances st2) <= N.to_nat n)%nat; [|lia].
      apply map_size_bound. intros y j Hj. by destruct (b_dist _ _ Hi2 y j Hj).
Qed.

(** ** From the roots to the end *)

Lemma start_spec ids : (forall x, x ∈ ids -> x ∈ roots) -> (forall x, x ∈ roots -> x ∈ ids) ->
  bfs_inv 0 (explore_start ids) /\ settled (explore_start ids) /\
  size (node_distances (explore_start ids)) = length (frontier (explore_start ids)).
Proof using All.
  intros Hin Hout.
  assert (Hst : forall l, let st := explore_start l in
    (forall x k, node_distances st !! x = Some k <-> x ∈ l /\ k = 0) /\ NoDup (frontier st) /\
    (forall x, x ∈ frontier st <-> x ∈ l) /\ parents st = ∅ /\ reached st = ∅ /\
    size (node_distances st) = length (frontier st)).
  { intros l. induction l as [|y l IH] using rev_ind.
    - unfold explore_start. simpl. split; [|split; [constructor|split; [done|done]]].
      intros x k. rewrite lookup_empty. set_solver.
    - unfold explore_start in *. rewrite foldl_app. cbn -[size]. destruct IH as (H1 & H2 & H3 & H4 & H5 & H6).
      set (st := foldl start_at _ l) in *. unfold start_at. destruct (node_distances st !! y) as [k|] eqn:Ey.
      + apply H1 in Ey as [Hy _]. split; [|split; [done|split; [|done]]].
        * intros x j. rewrite H1. set_solver.
        * intros x. rewrite H3. set_solver.
      + assert (Hy : y ∉ l) by (intros Hy; rewrite (proj2 (H1 y 0)) in Ey; done). cbn -[size]. split; [|split; [|split; [|split; [done|split; [done|]]]]].
        * intros x j. rewrite lookup_insert_Some, H1. set_solver.
        * apply NoDup_app. split; [done|]. split; [|apply NoDup_singleton]. intros z Hz%H3. set_solver.
        * intros x. rewrite elem_of_app, H3. set_solver.
        * rewrite map_size_insert_None by done. rewrite length_app. simpl. lia. }
  destruct (Hst ids) as (H1 & H2 & H3 & H4 & H5 & H6). split; [|split; [|done]].
  - split.
    + intros x k [Hx ->]%H1. apply Hin in Hx. split; [by apply (g_roots Hg)|]. split; [by constructor | lia].
    + intros x Hx%H3. exists 0. split; [by apply H1 | done].
    + eapply (StronglySorted_impl (fun _ _ => True)); [|clear; induction (frontier _); constructor; [done|]; by apply Forall_true].
      intros a b _ _ _ j k [_ ->]%H1 [_ ->]%H1. done.
    + done.
    + intros i h f. by rewrite H5.
    + intros y x. by rewrite H4.
    + intros y k [Hy ->]%H1 _. auto.
    + intros x Hx. apply H1. auto.
  - intros x k Hx Hni. exfalso. apply Hni, H3. by apply H1 in Hx as [? _].
Qed.

(** A shortest path as a list of concepts, root first. *)
Inductive trail_to : ConceptId -> list ConceptId -> Prop :=
  | trail_root x : x ∈ roots -> trail_to x [x]
  | trail_snoc x y p : trail_to x p -> linked x y -> trail_to y (p ++ [y]).

Lemma parents_many d st : bfs_inv d st -> forall k x, node_distances st !! x = Some k ->
  (N.to_nat k <= size (parents st))%nat.
Proof using All.
  intros Hi k x Hx.
  assert (exists s : gset N, (forall z, z ∈ s -> is_Some (parents st !! z) /\
    exists j, node_distances st !! z = Some j /\ j <= k) /\ size s = N.to_nat k) as (s & Hs & <-).
  { revert x Hx. induction k as [|k IH] using N.peano_ind; intros x Hx.
    - exists ∅. split; [set_solver | by rewrite size_empty].
    - destruct (parents st !! x) as [p|] eqn:Ep; [|destruct (b_orphan _ _ Hi x _ Hx Ep); lia].
      destruct (b_parent _ _ Hi x p Ep) as (_ & j & Hj & Hj'). rewrite Hx in Hj'. injection Hj' as Hj'.
      assert (j = k) as -> by lia. destruct (IH p Hj) as (s & Hs & Hsz).
      exists ({[x]} ∪ s). split.
      + intros z [->%elem_of_singleton|Hz]%elem_of_union; [split; [eauto | exists (N.succ k); split; [done | lia]]|].
        destruct (Hs z Hz) as (? & j' & ? & ?). split; [done|]. exists j'. split; [done | lia].
      + rewrite size_union, size_singleton, Hsz; [lia|]. intros z Hz%elem_of_singleton. subst z.
        intros Hz. destruct (Hs x Hz) as (_ & j' & Hj2 & ?). rewrite Hx in Hj2. injection Hj2 as <-. lia. }
  rewrite <- (size_dom (parents st)). apply subseteq_size. intros z Hz. apply elem_of_dom. by apply Hs.
Qed.

Lemma path_ids_spec d st : bfs_inv d st -> forall fuel k x, node_distances st !! x = Some k ->
  (N.to_nat k <= fuel)%nat ->
  exists p, path_ids fuel (parents st) x = Some p /\ trail_to x p /\ lenN p = k + 1.
Proof using All.
  intros Hi fuel. induction fuel as [|fuel IH]; intros k x Hx Hf; simpl;
    (destruct (parents st !! x) as [y|] eqn:Ep;
     [|destruct (b_orphan _ _ Hi x k Hx Ep) as [Hr ->]; exists [x]; split; [done|split; [by constructor | done]]]);
    destruct (b_parent _ _ Hi x y Ep) as (Hl & j & Hj & Hj'); rewrite Hx in Hj'; injection Hj' as ->.
  - lia.
  - destruct (IH j y Hj ltac:(lia)) as (p & -> & Ht & Hlen). exists (p ++ [x]). split; [done|].
    split; [by econstructor|]. rewrite lenN_snoc. lia.
Qed.

(** What the search delivers. *)
Record bfs_done (st : Exploration) : Prop := {
  done_dist : forall x k, node_distances st !! x = Some k <->
    walks k x /\ k <= max_depth /\ forall j, walks j x -> k <= j;
  done_near : forall j x, walks j x -> j <= max_depth -> exists k, node_distances st !! x = Some k /\ k <= j;
  done_reached : forall i h f, reached st !! i = Some (h, f) -> exists e k,
    E i e /\ f ∈ ends e /\ node_distances st !! f = Some k /\ h = k + 1 /\ h <= max_depth /\
    forall x j, x ∈ ends e -> walks j x -> k <= j;
  done_sighted : forall i e x j, E i e -> x ∈ ends e -> walks j x -> j < max_depth -> is_Some (reached st !! i);
  done_paths : forall x k, node_distances st !! x = Some k -> exists p,
    path_ids (size (parents st)) (parents st) x = Some p /\ trail_to x p /\ lenN p = k + 1
}.

Lemma bfs_complete d st : bfs_inv d st -> settled st -> frontier st = [] ->
  forall j x, walks j x -> j <= max_depth -> exists k, node_distances st !! x = Some k /\ k <= j.
Proof using All.
  intros Hi Hset Hfr j x Hw. induction Hw as [x Hx|j x y Hw IH (i & e & He & Hx & Hy)]; intros Hj.
  - exists 0. split; [by apply (b_roots _ _ Hi) | done].
  - destruct IH as (k & Hk & Hkj); [lia|].
    destruct (Hset x k Hk ltac:(rewrite Hfr; set_solver) ltac:(lia) i e He Hx) as [Hc _].
    destruct (Hc y Hy) as (k' & Hk' & ?). exists k'. split; [done | lia].
Qed.

Theorem bfs_correct fuel : (N.to_nat n <= fuel)%nat ->
  exists st, explore_loop fuel exp max_depth (explore_start roots) = Some st /\ bfs_done st.
Proof using All.
  intros Hfuel. destruct (start_spec roots ltac:(done) ltac:(done)) as (Hi0 & Hs0 & Hsz).
  assert (Hb : (size (node_distances (explore_start roots)) <= N.to_nat n)%nat).
  { apply map_size_bound. intros y j Hj. by destruct (b_dist _ _ Hi0 y j Hj). }
  destruct (explore_loop_spec fuel 0 (explore_start roots) Hi0 Hs0 ltac:(lia)) as (st & d & Hrun & Hi & Hset & Hfr).
  exists st. split; [done|]. pose proof (bfs_complete d st Hi Hset Hfr) as Hcomp. split.
  - intros x k. split.
    + intros Hx. destruct (b_dist _ _ Hi x k Hx) as (_ & Hw & _ & Hmd). split; [done|]. split; [done|].
      intros j Hj. destruct (decide (j <= max_depth)); [|lia].
      destruct (Hcomp j x Hj ltac:(done)) as (k' & Hk' & ?). rewrite Hx in Hk'. injection Hk' as <-. done.
    + intros (Hw & Hmd & Hmin). destruct (Hcomp k x Hw Hmd) as (k' & Hk' & ?).
      destruct (b_dist _ _ Hi x k' Hk') as (_ & Hw' & _). pose proof (Hmin k' Hw').
      by assert (k' = k) as -> by lia.
  - intros j x Hj Hle. by apply (Hcomp j x).
  - intros i h f Hr. destruct (b_reached _ _ Hi i h f Hr) as (e & k & He & Hf & Hk & -> & _ & Hmd).
    exists e, k. do 5 (split; [done|]). intros x j Hx Hj. destruct (decide (j < max_depth)) as [Hlt|]; [|lia].
    destruct (Hcomp j x Hj ltac:(lia)) as (k' & Hk' & ?).
    destruct (Hset x k' Hk' ltac:(rewrite Hfr; set_solver) ltac:(lia) i e He Hx) as [_ (h' & f' & Hr' & ?)].
    rewrite Hr in Hr'. injection Hr' as <- <-. lia.
  - intros i e x j He Hx Hj Hlt. destruct (Hcomp j x Hj ltac:(lia)) as (k' & Hk' & ?).
    destruct (Hset x k' Hk' ltac:(rewrite Hfr; set_solver) ltac:(lia) i e He Hx) as [_ (h & f & Hr & _)]. eauto.
  - intros x k Hx. eapply path_ids_spec; [done | done|]. by eapply parents_many.
Qed.
End bfs.
