(* ===== verification/Explore.v ===== *)
(** * Exploration over facts

    The usable graph of a context under a lens and a set of hidden labels, read
    as facts between canonical names, and what [explore] returns on it. *)

From S2P Require Export Bfs Describe.

Local Open Scope N_scope.

(** ** The graph of facts *)

Definition endpoint (a : name) (f : Fact) : Prop := a = f_subject f \/ a = f_object f.

(** A walk of [k] facts from a root name. *)
Inductive reach (fs : list Fact) (ok : Fact -> Prop) (root : name -> Prop) : N -> name -> Prop :=
  | reach_root a : root a -> reach fs ok root 0 a
  | reach_step k a b f : reach fs ok root k a -> f ∈ fs -> ok f -> endpoint a f -> endpoint b f ->
      reach fs ok root (k + 1) b.

(** The names along a walk, root first. *)
Inductive trail (fs : list Fact) (ok : Fact -> Prop) (root : name -> Prop) : name -> list name -> Prop :=
  | trail_one a : root a -> trail fs ok root a [a]
  | trail_more a b f p : trail fs ok root a p -> f ∈ fs -> ok f -> endpoint a f -> endpoint b f ->
      trail fs ok root b (p ++ [b]).

(** The names some origin spelling resolves to. *)
Definition origin_name (c : Context) (origins : list name) (a : name) : Prop :=
  exists o, o ∈ origins /\ is_Some (concept_ids c !! o) /\ a = canon_concept c o.

(** Live, not hidden, and seen by the lens. *)
Definition shown (c : Context) (excluded : list name) (view : Fact -> option Association) (f : Fact) : Prop :=
  f_count f <> 0 /\ f_label f ∉ canon_label c <$> excluded /\ is_Some (view f).

Section graph.
Context `{UnicodeTables} {c : Context} (Hwf : wf c) (fs : list Fact) (Hfs : facts c = Some fs).
Context (lens : EdgeLens) (view : Fact -> option Association) `{!LensView lens c view}.
Context (excluded : list name).

Definition usable_edge (i : EdgeId) (e : EdgeRecord) : Prop :=
  tget (edges c) i = Some e /\ usable lens (visible_but c excluded) c i = Some true.

Lemma visible_spec l n : label_name c l = Some n ->
  visible_but c excluded l = true <-> n ∉ canon_label c <$> excluded.
Proof using All.
  intros Hn. unfold visible_but, excluded_ids.
  rewrite bool_decide_eq_true, elem_of_list_to_set, list_elem_of_omap, list_elem_of_fmap.
  setoid_rewrite (fun s => resolves_label Hwf l n s Hn). naive_solver.
Qed.

(** An edge is usable exactly when its fact is shown. *)
Lemma usable_fact i f : fact_at c i = Some f ->
  exists b, usable lens (visible_but c excluded) c i = Some b /\ (b = true <-> shown c excluded view f).
Proof using All.
  intros Hf. pose proof (view_alive i f Hf) as Ha. unfold edge_alive in Ha.
  pose proof Hf as (e & _ & He & _ & Hl & _ & _ & _ & Hn & _)%fact_at_inv.
  assert (Hsh : shown c excluded view f <->
    e_count e <> 0 /\ visible_but c excluded (e_label e) = true /\ is_Some (view f)).
  { unfold shown. by rewrite (visible_spec _ _ Hl), Hn. }
  rewrite He in Ha. cbn [mbind option_bind] in Ha. unfold usable. rewrite He. cbn [mbind option_bind].
  destruct (N.eqb_spec (e_count e) 0) as [Hz|Hnz]; simpl; [exists false; naive_solver|].
  destruct (visible_but c excluded (e_label e)); simpl; [|exists false; naive_solver].
  rewrite Ha. eexists. split; [done|]. rewrite bool_decide_eq_true. tauto.
Qed.

Lemma E_fact i e : usable_edge i e <-> tget (edges c) i = Some e /\ exists f, fact_at c i = Some f /\ shown c excluded view f.
Proof using All.
  unfold usable_edge. split.
  - intros [He Hu]. split; [done|]. destruct (fact_at_total c i Hwf) as [f Hf]; [by eapply tget_Some_lt|].
    exists f. split; [done|]. destruct (usable_fact i f Hf) as (b & Hb & Hiff). apply Hiff. congruence.
  - intros (He & f & Hf & Hs). split; [done|]. destruct (usable_fact i f Hf) as (b & Hb & Hiff).
    apply Hiff in Hs as ->. done.
Qed.

(** The usable edges of a list of ids. *)
Lemma usable_edges_spec ids : (forall i, i ∈ ids -> i < lenN (edges c)) ->
  exists es, usable_edges lens (visible_but c excluded) c ids = Some es /\ forall i e, (i, e) ∈ es <-> i ∈ ids /\ usable_edge i e.
Proof using All.
  intros Hlt. unfold usable_edges.
  assert (Hk : exists kept, filterM (usable lens (visible_but c excluded) c) ids = Some kept).
  { induction ids as [|i ids IH]; [by exists []|]. simpl.
    destruct (fact_at_total c i Hwf) as [f Hf]; [set_solver|]. destruct (usable_fact i f Hf) as (b & -> & _).
    destruct IH as [k ->]; [set_solver|]. simpl. eauto. }
  destruct Hk as [kept Hk]. rewrite Hk. cbn [mbind option_bind].
  pose proof (fun i => elem_of_filterM _ _ _ i Hk) as Hin.
  assert (Hm : exists es, mapM (fun id => edge ← tget (edges c) id; Some (id, edge)) kept = Some es).
  { apply mapM_is_Some_2, Forall_forall. intros i [Hi _]%Hin. unfold compose.
    destruct (tget_lt (edges c) i) as [e ->]; [auto|]. simpl. eauto. }
  destruct Hm as [es Hm]. exists es. split; [done|]. apply mapM_Some in Hm. intros i e. unfold usable_edge. split.
  - intros (k & Hk')%list_elem_of_lookup. destruct (Forall2_lookup_r _ _ _ _ _ Hm Hk') as (j & Hj & Hje).
    apply bind_Some in Hje as (e' & He' & [= -> ->]). apply list_elem_of_lookup_2, Hin in Hj. tauto.
  - intros (Hi & He & Hu). pose proof (proj2 (Hin i) (conj Hi Hu)) as (k & Hk')%list_elem_of_lookup.
    destruct (Forall2_lookup_l _ _ _ _ _ Hm Hk') as (p & Hp & Hje). rewrite He in Hje. injection Hje as <-.
    by eapply list_elem_of_lookup_2.
Qed.

Lemma expand_graph roots : (forall x, x ∈ roots -> x < lenN (concepts c)) ->
  graph_ok (lenN (concepts c)) usable_edge (expand lens (visible_but c excluded) c) roots.
Proof using All.
  intros Hroots. split; [| | |done].
  - intros i e e' [He _] [He' _]. congruence.
  - intros i e x [He _] Hx. destruct (wf_edge c i e Hwf He) as (_ & Hs & _ & Ho).
    unfold ends in Hx. set_solver.
  - intros x Hx. destruct (tget_lt _ _ Hx) as [r Hr].
    destruct (chains_walk _ _ _ x _ _ _ (wf_outgoing _ Hwf) ltac:(by rewrite tget_fmap, Hr)) as (a & Ha & _ & _ & Ia).
    destruct (chains_walk _ _ _ x _ _ _ (wf_incoming _ Hwf) ltac:(by rewrite tget_fmap, Hr)) as (b & Hb & _ & _ & Ib).
    rewrite length_fmap in Ha, Hb.
    assert (Hlt : forall i, i ∈ a ++ b -> i < lenN (edges c)).
    { intros i [Hi%Ia|Hi%Ib]%elem_of_app; apply tget_Some_lt in Hi; by rewrite lenN_fmap in Hi. }
    destruct (usable_edges_spec (a ++ b) Hlt) as (es & Hes & Hin).
    exists es. unfold expand, outgoing, incoming, edge_chain. rewrite Hr. cbn [mbind option_bind].
    rewrite Ha. cbn [mbind option_bind]. rewrite Hb. cbn [mbind option_bind]. split; [done|].
    intros i e. rewrite Hin, elem_of_app, Ia, Ib, !tget_fmap. unfold ends. split.
    + intros [Hor HE]. split; [done|]. destruct HE as [He _]. rewrite He in Hor. simpl in Hor. set_solver.
    + intros [HE Hx']. split; [|done]. destruct HE as [He _]. rewrite He. simpl. set_solver.
Qed.
(** ** Ids and names *)

Context (origins : list name).
Let roots := origin_ids c origins.
Let ok := shown c excluded view.
Let root := origin_name c origins.

Lemma roots_lt x : x ∈ roots -> x < lenN (concepts c).
Proof using All.
  unfold roots, origin_ids. rewrite list_elem_of_omap. intros (s & _ & Hs). by eapply concept_id_lt.
Qed.

Lemma root_id x a : concept_name c x = Some a -> x ∈ roots <-> root a.
Proof using All.
  intros Hx. unfold roots, root, origin_ids, origin_name. rewrite list_elem_of_omap. split.
  - intros (s & Hs & Hi). exists s. split; [done|]. split; [eauto|]. by apply (resolves_concept Hwf x a s Hx).
  - intros (s & Hs & _ & Ha). exists s. split; [done|]. by apply (resolves_concept Hwf x a s Hx).
Qed.

Lemma end_name i e f x a : tget (edges c) i = Some e -> fact_at c i = Some f -> concept_name c x = Some a ->
  x ∈ ends e <-> endpoint a f.
Proof using All.
  intros He (e' & _ & He' & Hs & _ & Ho & _)%fact_at_inv Hx. simplify_eq. unfold ends, endpoint.
  rewrite elem_of_cons, list_elem_of_singleton. split; intros [Heq|Heq]; subst.
  - left. congruence.
  - right. congruence.
  - left. by eapply (concept_name_inj Hwf).
  - right. by eapply (concept_name_inj Hwf).
Qed.

Lemma end_total i e x : tget (edges c) i = Some e -> x ∈ ends e -> exists a, concept_name c x = Some a.
Proof using All.
  intros He Hx. destruct (wf_edge c i e Hwf He) as (_ & Hs & _ & Ho). apply (concept_name_total Hwf).
  unfold ends in Hx. set_solver.
Qed.

Lemma endpoint_id i e f a : tget (edges c) i = Some e -> fact_at c i = Some f -> endpoint a f ->
  exists x, concept_name c x = Some a /\ x ∈ ends e.
Proof using All.
  intros He (e' & _ & He' & Hs & _ & Ho & _)%fact_at_inv [->| ->]; simplify_eq; unfold ends;
    eexists; (split; [done | set_solver]).
Qed.

Lemma walks_reach k x : walks usable_edge roots k x -> exists a, concept_name c x = Some a /\ reach fs ok root k a.
Proof using All.
  induction 1 as [x Hx|k x y Hw (a & Ha & Hr) (i & e & HE & Hxe & Hye)].
  - destruct (concept_name_total Hwf x (roots_lt x Hx)) as [a Ha]. exists a. split; [done|].
    constructor. by apply (root_id x).
  - apply E_fact in HE as (He & f & Hf & Hs); [|done..]. destruct (end_total i e y He Hye) as [b Hb]. exists b. split; [done|].
    eapply reach_step; [exact Hr | by eapply facts_at | exact Hs | by apply (end_name i e f x) | by apply (end_name i e f y)].
Qed.

Lemma reach_walks k a : reach fs ok root k a -> exists x, concept_name c x = Some a /\ walks usable_edge roots k x.
Proof using All.
  induction 1 as [a Ha|k a b f Hr (x & Hx & Hw) Hin Hs Hea Heb].
  - destruct Ha as (o & Ho & [x Hi] & ->). exists x.
    destruct (concept_name_total Hwf x) as [a Ha]; [by eapply concept_id_lt|].
    pose proof (proj1 (resolves_concept Hwf x a o Ha) Hi) as ->. split; [done|]. constructor.
    unfold roots, origin_ids. rewrite list_elem_of_omap. eauto.
  - destruct (facts_elem c fs f Hfs Hin) as [i Hf]. pose proof Hf as (e & _ & He & _)%fact_at_inv.
    assert (HE : usable_edge i e) by (apply E_fact; [done..|]; eauto).
    destruct (endpoint_id i e f b He Hf Heb) as (y & Hy & Hye). exists y. split; [done|].
    econstructor; [exact Hw|]. exists i, e. split; [done|]. split; [|done]. by apply (end_name i e f x a).
Qed.

Lemma trail_names x p : trail_to usable_edge roots x p -> exists a ns, concept_name c x = Some a /\
  mapM (concept_name c) p = Some ns /\ trail fs ok root a ns.
Proof using All.
  induction 1 as [x Hx|x y p Ht (a & ns & Ha & Hm & Htr) (i & e & HE & Hxe & Hye)].
  - destruct (concept_name_total Hwf x (roots_lt x Hx)) as [a Ha]. exists a, [a]. split; [done|].
    split; [simpl; by rewrite Ha|]. constructor. by apply (root_id x).
  - apply E_fact in HE as (He & f & Hf & Hs); [|done..]. destruct (end_total i e y He Hye) as [b Hb].
    exists b, (ns ++ [b]). split; [done|]. split.
    + apply mapM_Some. apply mapM_Some in Hm. apply Forall2_app; [done|]. by repeat constructor.
    + eapply trail_more; [exact Htr | by eapply facts_at | exact Hs | by apply (end_name i e f x) | by apply (end_name i e f y)].
Qed.

(** ** The search, in names *)

Definition nearest (k : N) (f : Fact) : Prop :=
  (exists a, endpoint a f /\ reach fs ok root k a) /\
  forall a j, endpoint a f -> reach fs ok root j a -> k <= j.

(** What one recollection says of its fact. *)
Definition recollects (max_depth : N) (f : Fact) (r : Recollection) : Prop :=
  view f = Some (rc_association r) /\ 0 < rc_distance r <= max_depth /\ nearest (rc_distance r - 1) f /\
  exists a, endpoint a f /\ trail fs ok root a (rc_path r) /\ lenN (rc_path r) = rc_distance r.
End graph.

Arguments usable_edge : clear implicits.
Arguments nearest : clear implicits.
Arguments recollects : clear implicits.

(** * What [explore] returns *)

From S2P Require Import Sample.

Local Open Scope N_scope.

#[export] Instance sighting_le_trans : Transitive sighting_le.
Proof. intros [[]] [[]] [[]]. unfold sighting_le. simpl. lia. Qed.
#[export] Instance sighting_le_total : Total sighting_le.
Proof. intros [[]] [[]]. unfold sighting_le. simpl. lia. Qed.

Lemma ordered_sightings_spec (reached : gmap EdgeId (N * ConceptId)) :
  (forall s, s ∈ ordered_sightings reached <-> reached !! s.1.2 = Some (s.1.1, s.2)) /\
  NoDup ((fun s => s.1.2) <$> ordered_sightings reached) /\
  StronglySorted sighting_le (ordered_sightings reached).
Proof.
  unfold ordered_sightings. split; [|split; [|apply StronglySorted_merge_sort; apply _]].
  - intros [[h i] f]. rewrite merge_sort_Permutation, list_elem_of_fmap. simpl. split.
    + intros ([j [h' f']] & [= -> -> ->] & Hj). by apply elem_of_map_to_list in Hj.
    + intros Hr. exists (i, (h, f)). split; [done|]. by apply elem_of_map_to_list.
  - rewrite merge_sort_Permutation, <- list_fmap_compose. apply NoDup_fst_map_to_list.
Qed.

(** Sorted sightings are sorted by distance, then by edge id, without ties. *)
Lemma sightings_sorted ss rs : Forall2 (fun s r => rc_distance r = s.1.1) ss rs ->
  StronglySorted sighting_le ss -> NoDup ((fun s => s.1.2) <$> ss) ->
  StronglySorted (fun a b => a.1 < b.1 \/ (a.1 = b.1 /\ a.2 < b.2))
    (zip (rc_distance <$> rs) ((fun s => s.1.2) <$> ss)).
Proof.
  intros H2 Hsort Hnd. induction H2 as [|s r ss rs Hdist H2 IH]; csimpl in *; [constructor|].
  apply NoDup_cons in Hnd as [Hni Hnd]. apply StronglySorted_inv in Hsort as [Hsort Hall].
  constructor; [by apply IH|]. rewrite Forall_forall in Hall. apply Forall_forall.
  intros [d i] (k & [Hk1 Hk2]%lookup_zip_Some)%list_elem_of_lookup.
  apply list_lookup_fmap_Some in Hk1 as (r' & -> & Hk1). apply list_lookup_fmap_Some in Hk2 as (s' & -> & Hk2).
  pose proof (Forall2_lookup_lr _ _ _ _ _ _ H2 Hk2 Hk1) as Hd'. simpl in *. rewrite Hd', Hdist.
  apply list_elem_of_lookup_2 in Hk2. destruct (Hall s' Hk2) as [|[? Hle]]; [by left|]. right. split; [done|].
  destruct Hle as [|[Heq _]]; [done|]. exfalso. apply Hni. rewrite Heq.
  by apply (list_elem_of_fmap_2 (fun s : N * EdgeId * ConceptId => s.1.2)).
Qed.

Section explore.
Context `{UnicodeTables} {c : Context} (Hwf : wf c) (fs : list Fact) (Hfs : facts c = Some fs).
Context (lens : EdgeLens) (view : Fact -> option Association) `{!LensView lens c view}.
Context (excluded origins : list name) (max_depth : N).

Let G := usable_edge c lens excluded.
Let roots := origin_ids c origins.
Let edges_of := expand_graph Hwf fs Hfs lens view excluded.

Lemma nearest_edge i e f x k : tget (edges c) i = Some e -> fact_at c i = Some f -> x ∈ ends e ->
  walks G roots k x -> (forall y j, y ∈ ends e -> walks G roots j y -> k <= j) ->
  nearest c fs view excluded origins k f.
Proof using All.
  intros He Hf Hx Hw Hmin. destruct (walks_reach Hwf fs Hfs lens view excluded origins k x Hw) as (a & Ha & Hr).
  split.
  - exists a. split; [|done]. by apply (end_name Hwf fs Hfs lens view excluded origins i e f x a He Hf Ha).
  - intros b j Hb Hj. destruct (reach_walks Hwf fs Hfs lens view excluded origins j b Hj) as (y & Hy & Hwy).
    apply (Hmin y j); [|done]. by apply (end_name Hwf fs Hfs lens view excluded origins i e f y b He Hf Hy).
Qed.

(** One sighting materializes to a recollection of its fact. *)
Lemma sighting_recollects st i h x : bfs_done G roots max_depth st -> reached st !! i = Some (h, x) ->
  exists f r, fact_at c i = Some f /\ shown c excluded view f /\
    recollects c fs view excluded origins max_depth f r /\ rc_distance r = h /\
    (path ← path_from c (parents st) x; association ← lens_association i;
     Some {| rc_distance := h; rc_path := path; rc_association := association |}) = Some r.
Proof using All.
  intros Hd Hr. destruct (done_reached _ _ _ _ Hd i h x Hr) as (e & k & HE & Hxe & Hk & -> & Hmd & Hmin).
  pose proof HE as [He (f & Hf & Hs)]%(E_fact Hwf fs Hfs lens view).
  destruct (done_paths _ _ _ _ Hd x k Hk) as (p & Hp & Ht & Hlen).
  destruct (trail_names Hwf fs Hfs lens view excluded origins x p Ht) as (a & ns & Ha & Hns & Htr).
  pose proof Hs as (_ & _ & [as_ Hv]). pose proof (view_association i f as_ Hf Hv) as Hass.
  apply (done_dist _ _ _ _ Hd) in Hk as (Hw & _ & _).
  exists f, {| rc_distance := k + 1; rc_path := ns; rc_association := as_ |}.
  do 2 (split; [done|]). split; [|split; [done|]].
  - split; [done|]. cbn [rc_distance rc_path]. split; [lia|]. rewrite N.add_sub.
    split; [by eapply nearest_edge|]. exists a. split; [|split; [done|]].
    + by apply (end_name Hwf fs Hfs lens view excluded origins i e f x a He Hf Ha).
    + rewrite <- Hlen. apply mapM_Some, Forall2_lenN in Hns. done.
  - unfold path_from. bind Hp. bind Hns. by bind Hass.
Qed.

Lemma explore_impl_spec : exists ids rs,
  explore_impl origins max_depth (visible_but c excluded) lens c = Some rs /\ NoDup ids /\
  Forall2 (fun i r => exists f, fact_at c i = Some f /\ shown c excluded view f /\
    recollects c fs view excluded origins max_depth f r) ids rs /\
  (forall i f a j, fact_at c i = Some f -> shown c excluded view f -> endpoint a f ->
    reach fs (shown c excluded view) (origin_name c origins) j a -> j < max_depth -> i ∈ ids) /\
  StronglySorted (fun a b => a.1 < b.1 \/ (a.1 = b.1 /\ a.2 < b.2)) (zip (rc_distance <$> rs) ids).
Proof using All.
  destruct (bfs_correct (lenN (concepts c)) G (expand lens (visible_but c excluded) c) roots max_depth
    (edges_of roots (roots_lt Hwf fs Hfs lens view excluded origins)) (length (concepts c)))
    as (st & Hrun & Hd); [unfold lenN; lia|].
  destruct (ordered_sightings_spec (reached st)) as (Hin & Hnd & Hsort).
  set (ss := ordered_sightings (reached st)) in *.
  set (step := fun s : N * EdgeId * ConceptId => path ← path_from c (parents st) s.2;
    association ← lens_association s.1.2;
    Some {| rc_distance := s.1.1; rc_path := path; rc_association := association |}).
  assert (Hm : exists rs, mapM step ss = Some rs).
  { apply mapM_is_Some_2, Forall_forall. intros s Hs%Hin.
    destruct (sighting_recollects st _ _ _ Hd Hs) as (f & r & _ & _ & _ & _ & Hr). exists r. exact Hr. }
  destruct Hm as [rs Hm]. exists ((fun s => s.1.2) <$> ss), rs. pose proof Hm as H2%mapM_Some.
  assert (Hr2 : Forall2 (fun s r => rc_distance r = s.1.1 /\ exists f, fact_at c s.1.2 = Some f /\
    shown c excluded view f /\ recollects c fs view excluded origins max_depth f r) ss rs).
  { eapply Forall2_impl_in; [exact H2|]. intros s r Hs Hstep. apply Hin in Hs.
    destruct (sighting_recollects st _ _ _ Hd Hs) as (f & r' & Hf & Hsh & Hrec & Hdist & Hr').
    assert (r' = r) as -> by (unfold step in Hstep; congruence). eauto 6. }
  split; [unfold explore_impl; fold roots; rewrite Hrun; exact Hm|]. split; [done|]. split; [|split].
  - apply Forall2_fmap_l. eapply Forall2_impl; [exact Hr2|]. by intros s r [_ ?].
  - intros i f a j Hf Hs Ha Hj Hlt.
    destruct (reach_walks Hwf fs Hfs lens view excluded origins j a Hj) as (x & Hx & Hw).
    pose proof Hf as (e & _ & He & _)%fact_at_inv.
    assert (HE : G i e) by (apply (E_fact Hwf fs Hfs lens view); eauto).
    pose proof (proj2 (end_name Hwf fs Hfs lens view excluded origins i e f x a He Hf Hx) Ha) as Hxe.
    destruct (done_sighted _ _ _ _ Hd i e x j HE Hxe Hw Hlt) as [[h y] Hr].
    apply list_elem_of_fmap. exists (h, i, y). split; [done|]. by apply Hin.
  - apply (sightings_sorted ss rs); [|done|done]. eapply Forall2_impl; [exact Hr2|]. by intros s r [? _].
Qed.
End explore.

(** C10. [explore] terminates and is breadth-first search over the shown facts (live,
    not under a hidden label, attested in the window): it reports every shown fact
    with an endpoint within [max_depth - 1] hops of a resolved origin, no other,
    each once, at its exact distance (one more than the shortest walk to its nearer
    endpoint), ordered by distance and then insertion, each with the names of a
    shortest walk of shown facts from an origin to that endpoint.  Hidden, retracted
    and out-of-window facts neither appear nor bridge. *)
Theorem explore_shortest `{UnicodeTables} c fs lens view excluded origins max_depth
    (Hwf : wf c) (Hfs : facts c = Some fs) (Hview : LensView lens c view) :
  exists ids rs,
    explore_impl origins max_depth (visible_but c excluded) lens c = Some rs /\ NoDup ids /\
    Forall2 (fun i r => exists f, fact_at c i = Some f /\ shown c excluded view f /\
      recollects c fs view excluded origins max_depth f r) ids rs /\
    (forall i f a j, fact_at c i = Some f -> shown c excluded view f -> endpoint a f ->
      reach fs (shown c excluded view) (origin_name c origins) j a -> j < max_depth -> i ∈ ids) /\
    StronglySorted (fun a b => a.1 < b.1 \/ (a.1 = b.1 /\ a.2 < b.2)) (zip (rc_distance <$> rs) ids).
Proof. by apply explore_impl_spec. Qed.

Lemma explore_shortest_witness :
  exists (ids : list EdgeId) rs, explore_within [str "mouse"] 2 [str "likes"] (source_window sample [str "doc1"]) sample = Some rs /\
    NoDup ids /\ length ids = length rs.
Proof.
  destruct (@explore_shortest ascii_tables sample sample_facts (WindowLens sample (source_window sample [str "doc1"]))
    (windowed_fact [str "doc1"]) [str "likes"] [str "mouse"] 2 sample_wf sample_facts_eq
    (@WindowLens_view ascii_tables sample sample_wf [str "doc1"])) as (ids & rs & Hrun & Hnd & H2 & _).
  exists ids, rs. split; [exact Hrun|]. split; [exact Hnd|]. exact (Forall2_length _ _ _ H2).
Defined.
