(* ===== verification/Unreached.v ===== *)
(** * The reachability audit

    [unreachable_from] sweeps the component of the origins without a depth bound
    and reports the shown facts it never met. *)

From S2P Require Export Explore.
From S2P Require Import Sample.

Local Open Scope N_scope.

Section sweep.
Context (n : N) (E : EdgeId -> EdgeRecord -> Prop).
Context (exp : ConceptId -> option (list (EdgeId * EdgeRecord))) (roots : list ConceptId).
Context (Hg : graph_ok n E exp roots).

Record sweep_inv (st : Sweep) : Prop := {
  sw_seen : forall x, x ∈ visited st -> x < n /\ exists k, walks E roots k x;
  sw_pending : forall x, x ∈ pending st -> x ∈ visited st;
  sw_nodup : NoDup (pending st);
  sw_closed : forall x, x ∈ visited st -> x ∉ pending st -> forall i e y, E i e -> x ∈ ends e ->
    y ∈ ends e -> y ∈ visited st;
  sw_roots : forall x, x ∈ roots -> x ∈ visited st
}.

(** Visiting a list marks all of it, queueing what is new. *)
Lemma visits_spec l st :
  (forall x, x ∈ pending st -> x ∈ visited st) -> NoDup (pending st) ->
  let st' := foldl visit st l in
  (forall x, x ∈ visited st' <-> x ∈ visited st \/ x ∈ l) /\ NoDup (pending st') /\
  (forall x, x ∈ pending st' <-> x ∈ pending st \/ (x ∈ l /\ x ∉ visited st)) /\
  (size (visited st') + length (pending st) = size (visited st) + length (pending st'))%nat.
Proof using.
  clear. revert st. induction l as [|x l IH]; intros st Hp Hnd.
  { simpl. split; [set_solver|]. split; [done|]. split; [set_solver | lia]. }
  change (foldl visit st (x :: l)) with (foldl visit (visit st x) l). unfold visit at 2. case_decide as Hx.
  - destruct (IH st Hp Hnd) as (H1 & H2 & H3 & H4). split; [|split; [done|split; [|done]]].
    + intros y. rewrite H1. set_solver.
    + intros y. rewrite H3. set_solver.
  - destruct (IH {| visited := {[x]} ∪ visited st; pending := pending st ++ [x] |}) as (H1 & H2 & H3 & H4).
    + simpl. set_solver.
    + simpl. apply NoDup_app. split; [done|]. split; [|apply NoDup_singleton]. set_solver.
    + cbn [visited pending] in *. split; [|split; [done|split]].
      * intros y. rewrite H1. set_solver.
      * intros y. rewrite H3. destruct (decide (y = x)); set_solver.
      * rewrite length_app in H4. rewrite size_union, size_singleton in H4 by set_solver. simpl in H4. lia.
Qed.

Lemma sweep_size st : sweep_inv st -> (size (visited st) <= N.to_nat n)%nat.
Proof using All.
  intros Hi. rewrite <- (length_seq (N.to_nat n) 0), <- (length_fmap N.of_nat). unfold size, set_size. simpl.
  apply submseteq_length, NoDup_submseteq; [apply NoDup_elements|].
  intros x Hx%elem_of_elements. destruct (sw_seen _ Hi x Hx) as [Hlt _].
  apply list_elem_of_fmap. exists (N.to_nat x). rewrite elem_of_seq, N2Nat.id. lia.
Qed.

Lemma sweep_pop x rest es st : sweep_inv st -> pending st = x :: rest -> 
  (forall i e, (i, e) ∈ es <-> E i e /\ x ∈ ends e) ->
  let st' := foldl visit {| visited := visited st; pending := rest |} (es ≫= (fun p => ends p.2)) in
  sweep_inv st' /\ (size (visited st') + length rest = size (visited st) + length (pending st'))%nat.
Proof using All.
  intros Hi Hp Hes. pose proof (sw_nodup _ Hi) as Hnd. rewrite Hp in Hnd. apply NoDup_cons in Hnd as [Hni Hnd].
  assert (Hsub : forall y, y ∈ rest -> y ∈ visited st) by (intros y Hy; apply (sw_pending _ Hi); rewrite Hp; set_solver).
  destruct (visits_spec (es ≫= (fun p => ends p.2)) {| visited := visited st; pending := rest |} Hsub Hnd)
    as (H1 & H2 & H3 & H4). cbn [visited pending] in *.
  assert (Hx : x ∈ visited st) by (apply (sw_pending _ Hi); rewrite Hp; set_solver).
  assert (Hl : forall y, y ∈ (es ≫= (fun p => ends p.2)) <-> exists i e, E i e /\ x ∈ ends e /\ y ∈ ends e).
  { intros y. rewrite list_elem_of_bind. split.
    - intros ([i e] & Hy & Hie). apply Hes in Hie as [? ?]. eauto.
    - intros (i & e & ? & ? & ?). exists (i, e). split; [done|]. by apply Hes. }
  split; [|done]. split; try done.
  - intros y [Hy|(i & e & HE & Hxe & Hye)%Hl]%H1; [by apply (sw_seen _ Hi)|].
    split; [by eapply (g_ends _ _ _ _ Hg)|]. destruct (sw_seen _ Hi x Hx) as [_ [k Hk]].
    exists (k + 1). econstructor; [exact Hk|]. by exists i, e.
  - intros y Hy. apply H1. apply H3 in Hy as [Hy|[Hy _]]; [left; auto | by right].
  - intros y Hy Hny i e z HE Hye Hze. apply H1. destruct (decide (y = x)) as [->|Hne].
    + right. apply Hl. eauto.
    + apply H1 in Hy as [Hy|Hy].
      * left. apply (sw_closed _ Hi y Hy) with i e; [|done..]. rewrite Hp. intros [|Hyr]%elem_of_cons; [done|].
        apply Hny, H3. by left.
      * destruct (decide (y ∈ visited st)) as [Hv|Hv]; [|exfalso; apply Hny, H3; by right].
        left. apply (sw_closed _ Hi y Hv) with i e; [|done..]. rewrite Hp. intros [|Hyr]%elem_of_cons; [done|].
        apply Hny, H3. by left.
  - intros y Hy. apply H1. left. by apply (sw_roots _ Hi).
Qed.

Lemma sweep_loop_spec fuel expired poll st : sweep_inv st ->
  (N.to_nat n - size (visited st) + length (pending st) <= fuel)%nat ->
  (exists p, expired p = true /\ sweep_loop fuel expired poll exp st = Some (Err tt)) \/
  exists st' poll', sweep_loop fuel expired poll exp st = Some (Ok (st', poll')) /\ sweep_inv st' /\ pending st' = [].
Proof using All.
  revert poll st. induction fuel as [|fuel IH]; intros poll st Hi Hf; simpl;
    (destruct (pending st) as [|x rest] eqn:Hp; [by right; eauto|]); [simpl in Hf; lia|].
  destruct (expired poll) eqn:Ee; [by left; eauto|].
  destruct (sw_seen _ Hi x ltac:(apply (sw_pending _ Hi); rewrite Hp; set_solver)) as [Hx _].
  destruct (g_exp _ _ _ _ Hg x Hx) as (es & Hes & Hin). rewrite Hes. cbn [mbind option_bind].
  destruct (sweep_pop x rest es st Hi Hp Hin) as [Hi' Hsz].
  apply IH; [done|]. pose proof (sweep_size _ Hi'). simpl in Hf. lia.
Qed.

Lemma sweep_complete st : sweep_inv st -> pending st = [] ->
  forall x, x ∈ visited st <-> exists k, walks E roots k x.
Proof using All.
  intros Hi Hp x. split; [intros Hx; by apply (sw_seen _ Hi)|]. intros [k Hw].
  induction Hw as [x Hx|k x y _ IH (i & e & HE & Hx & Hy)]; [by apply (sw_roots _ Hi)|].
  apply (sw_closed _ Hi x IH) with i e; [|done..]. rewrite Hp. set_solver.
Qed.

Theorem sweep_correct fuel expired : (N.to_nat n <= fuel)%nat ->
  (exists p, expired p = true /\ sweep_loop fuel expired 0 exp
     (foldl visit {| visited := ∅; pending := [] |} roots) = Some (Err tt)) \/
  exists st' poll', sweep_loop fuel expired 0 exp
     (foldl visit {| visited := ∅; pending := [] |} roots) = Some (Ok (st', poll')) /\
    forall x, x ∈ visited st' <-> exists k, walks E roots k x.
Proof using All.
  intros Hfuel. destruct (visits_spec roots {| visited := ∅; pending := [] |}) as (H1 & H2 & H3 & H4);
    [set_solver | constructor|]. cbn [visited pending] in *.
  set (st := foldl visit _ roots) in *.
  assert (Hi : sweep_inv st).
  { split; try done.
    - intros x [|Hx]%H1; [set_solver|]. split; [by apply (g_roots _ _ _ _ Hg)|]. exists 0. by constructor.
    - intros x [|[Hx _]]%H3; [set_solver|]. apply H1. by right.
    - intros x [|Hx]%H1 Hnp; [set_solver|]. exfalso. apply Hnp, H3. right. set_solver.
    - intros x Hx. apply H1. by right. }
  rewrite size_empty in H4. simpl in H4. pose proof (sweep_size _ Hi).
  destruct (sweep_loop_spec fuel expired 0 st Hi ltac:(lia)) as [?|(st' & poll' & Hrun & Hi' & Hp)]; [by left|].
  right. exists st', poll'. split; [done|]. by apply sweep_complete.
Qed.
End sweep.

Section audit.
Context `{UnicodeTables} {c : Context} (Hwf : wf c) (fs : list Fact) (Hfs : facts c = Some fs).
Context (excluded : list name).
Let view := fun f => Some (fact_association f).

(** The scan keeps exactly the facts a decidable test describes. *)
Lemma unreached_scan_spec expired seen ids gs :
  Forall2 (fun i f => fact_at c i = Some f) ids gs ->
  exists keep : list bool, length keep = length gs /\
    (forall j f b, gs !! j = Some f -> keep !! j = Some b ->
       b = true <-> shown c excluded view f /\ forall x, concept_name c x = Some (f_subject f) -> x ∉ seen) /\
    forall poll, (exists p, expired p = true /\
        unreached_scan expired poll (visible_but c excluded) seen c ids = Some (Err tt)) \/
      unreached_scan expired poll (visible_but c excluded) seen c ids =
        Some (Ok (fact_association <$> (fst <$> filter (fun p => p.2 = true) (zip gs keep)))).
Proof using All.
  induction 1 as [|i f ids gs Hf _ (keep & Hlen & Hkeep & Hrun)].
  { exists []. split; [done|]. split; [done|]. intros poll. by right. }
  pose proof Hf as (e & _ & He & Hs & Hl & _ & _ & _ & Hn & _)%fact_at_inv.
  set (b := (0 <? e_count e) && visible_but c excluded (e_label e) && bool_decide (e_subject e ∉ seen)).
  exists (b :: keep). split; [simpl; by rewrite Hlen|]. split.
  - intros [|j] g b' Hg Hb; [|by eapply Hkeep]. simpl in Hg, Hb. injection Hg as <-. injection Hb as <-.
    unfold b, shown. rewrite !andb_true_iff, bool_decide_eq_true, (visible_spec Hwf fs Hfs (FullLens c) view excluded _ _ Hl), Hn, N.ltb_lt.
    assert (Hsub : e_subject e ∉ seen <-> forall x, concept_name c x = Some (f_subject f) -> x ∉ seen).
    { split; [|by eauto]. intros Hni x Hx. by rewrite (concept_name_inj Hwf x (e_subject e) _ Hx Hs). }
    rewrite Hsub. split; [intros [[? ?] ?]; split; [split; [lia|split; [done | by eauto]] | done]|].
    intros [(? & ? & ?) ?]. split; [split; [lia | done] | done].
  - intros poll. simpl. destruct (expired poll) eqn:Ee; [left; eauto|]. rewrite He. cbn [mbind option_bind].
    fold b. rewrite filter_cons. simpl. destruct (Hrun (S poll)) as [(p & Hp & Hr)|Hr].
    + left. exists p. split; [done|]. rewrite Hr. destruct b; [|done].
      rewrite (association_fact i f Hf). done.
    + right. rewrite Hr. destruct b; simpl; [|done]. by rewrite (association_fact i f Hf).
Qed.
End audit.

(** C11. The reachability audit terminates and either stops on an expired deadline
    or reports, in insertion order, exactly the shown facts neither of whose
    endpoints any walk of shown facts from a resolved origin meets: the complement
    of what an unbounded [explore] reports. *)
Theorem unreachable_complement `{UnicodeTables} c fs origins excluded expired
    (Hwf : wf c) (Hfs : facts c = Some fs) :
  (exists p, expired p = true /\ unreachable_from_excluding origins expired excluded c = Some (Err tt)) \/
  exists sub, unreachable_from_excluding origins expired excluded c = Some (Ok (fact_association <$> sub)) /\
    sub `sublist_of` fs /\
    forall f, f ∈ sub <-> f ∈ fs /\ shown c excluded (fun f => Some (fact_association f)) f /\
      forall a k, endpoint a f ->
        ~ reach fs (shown c excluded (fun f => Some (fact_association f))) (origin_name c origins) k a.
Proof.
  set (view := fun f => Some (fact_association f)). set (lens := FullLens c).
  assert (Hv : LensView lens c view) by apply FullLens_view.
  pose proof (expand_graph Hwf fs Hfs lens view excluded (origin_ids c origins)
    (roots_lt Hwf fs Hfs lens view excluded origins)) as Hg.
  unfold unreachable_from_excluding, unreachable_from_impl.
  destruct (sweep_correct _ _ _ _ Hg (length (concepts c)) expired ltac:(unfold lenN; lia))
    as [(p & Hp & Hrun)|(st & poll & Hrun & Hseen)]; fold lens; rewrite Hrun; cbn [mbind option_bind]; [left; eauto|].
  pose proof Hfs as H2%mapM_Some.
  destruct (unreached_scan_spec Hwf fs Hfs excluded expired (visited st) _ _ H2) as (keep & Hlen & Hkeep & Hscan).
  destruct (Hscan poll) as [(p & Hp & Hr)|Hr]; rewrite Hr; [left; eauto | right].
  eexists. split; [done|]. split.
  { clear -Hlen. revert keep Hlen. induction fs as [|f fs IH]; intros [|b keep] Hlen; try done.
    simpl. rewrite filter_cons. injection Hlen as Hlen. case_decide; csimpl; constructor; by apply IH. }
  assert (Hnone : forall f, f ∈ fs -> shown c excluded view f ->
    (forall x, concept_name c x = Some (f_subject f) -> x ∉ visited st) <->
    forall a k, endpoint a f -> ~ reach fs (shown c excluded view) (origin_name c origins) k a).
  { intros f Hin Hs. split.
    - intros Hno a k Ha Hw.
      assert (Hws : reach fs (shown c excluded view) (origin_name c origins) (k + 1) (f_subject f)).
      { eapply reach_step; [exact Hw | exact Hin | exact Hs | exact Ha | by left]. }
      destruct (reach_walks Hwf fs Hfs lens view excluded origins _ _ Hws) as (x & Hx & Hwx).
      apply (Hno x Hx). apply Hseen. eauto.
    - intros Hno x Hx [k Hw]%Hseen. destruct (walks_reach Hwf fs Hfs lens view excluded origins k x Hw) as (a & Ha & Hr').
      apply (Hno a k); [left; congruence | done]. }
  intros f. rewrite list_elem_of_fmap. split.
  - intros ([g b] & -> & [Hb Hgb]%list_elem_of_filter). simpl in *. subst b.
    apply list_elem_of_lookup in Hgb as (j & [Hg1 Hb1]%lookup_zip_Some).
    destruct (proj1 (Hkeep j g true Hg1 Hb1) eq_refl) as [Hs Hno].
    apply list_elem_of_lookup_2 in Hg1. split; [done|]. split; [done|]. by apply Hnone.
  - intros (Hin & Hs & Hno). pose proof Hin as (j & Hj)%list_elem_of_lookup.
    destruct (lookup_lt_is_Some_2 keep j) as [b Hb]; [rewrite Hlen; by eapply lookup_lt_Some|].
    assert (b = true) as -> by (apply (Hkeep j f b Hj Hb); split; [done|]; by apply Hnone).
    exists (f, true). split; [done|]. apply list_elem_of_filter. split; [done|].
    apply list_elem_of_lookup. exists j. by apply lookup_zip_Some.
Qed.

Lemma unreachable_complement_witness :
  exists sub, unreachable_from_excluding [str "cat"] (fun _ => false) [str "eats"; str "likes"] sample =
      Some (Ok (fact_association <$> sub)) /\ sub `sublist_of` sample_facts.
Proof.
  destruct (@unreachable_complement ascii_tables sample sample_facts [str "cat"] [str "eats"; str "likes"]
    (fun _ => false) sample_wf sample_facts_eq) as [(p & Hp & _)|(sub & Hrun & Hsub & _)]; [discriminate Hp|].
  exists sub. split; [exact Hrun | exact Hsub].
Defined.

(** * Adjacency and label co-occurrence ([src/context/traverse.rs]) *)

From S2P Require Export Traverse Describe.
From S2P Require Import Sample.

Local Open Scope N_scope.

Lemma anyM_spec {A} (p : A -> option bool) (Q : A -> Prop) l :
  (forall x, x ∈ l -> exists b, p x = Some b /\ (b = true <-> Q x)) ->
  exists b, anyM p l = Some b /\ (b = true <-> exists x, x ∈ l /\ Q x).
Proof.
  induction l as [|x l IH]; intros Hp; simpl.
  - exists false. split; [done|]. split; [done | set_solver].
  - destruct (Hp x ltac:(set_solver)) as (b & -> & Hb). simpl. destruct b.
    + exists true. split; [done|]. split; [intros _; exists x; split; [set_solver | by apply Hb] | done].
    + destruct IH as (b' & -> & Hb'); [set_solver|]. exists b'. split; [done|]. rewrite Hb'.
      setoid_rewrite elem_of_cons. naive_solver.
Qed.

Section links.
Context `{UnicodeTables} {c : Context} (Hwf : wf c) (fs : list Fact) (Hfs : facts c = Some fs).

(** Scanning one chain for a live edge to a given far end. *)
Lemma scan_far ids (own : EdgeRecord -> bool) (far : EdgeRecord -> N) o :
  (forall i, i ∈ ids <-> edge_sat c own i = true) ->
  exists b, anyM (fun id => edge ← tget (edges c) id; Some ((0 <? e_count edge) && (far edge =? o))) ids = Some b /\
    (b = true <-> exists i e, tget (edges c) i = Some e /\ own e = true /\ e_count e <> 0 /\ far e = o).
Proof using.
  clear. intros Hids.
  destruct (anyM_spec (fun id => edge ← tget (edges c) id; Some ((0 <? e_count edge) && (far edge =? o)))
    (fun i => exists e, tget (edges c) i = Some e /\ e_count e <> 0 /\ far e = o) ids) as (b & Hb & Hiff).
  { intros i Hi%Hids. unfold edge_sat in Hi. destruct (tget (edges c) i) as [e|] eqn:He; [|done]. cbn [mbind option_bind].
    eexists. split; [done|]. rewrite andb_true_iff, N.ltb_lt, N.eqb_eq. split.
    - intros [? ?]. exists e. split; [done|]. split; [lia | done].
    - intros (e' & [= <-] & ? & ?). split; [lia | done]. }
  exists b. split; [done|]. rewrite Hiff. split.
  - intros (i & Hi%Hids & e & He & ? & ?). unfold edge_sat in Hi. rewrite He in Hi. eauto 8.
  - intros (i & e & He & Ho & ? & ?). exists i. split; [apply Hids; unfold edge_sat; by rewrite He | eauto].
Qed.

Lemma edge_fact i e : tget (edges c) i = Some e -> exists f, f ∈ fs /\ fact_at c i = Some f /\
  concept_name c (e_subject e) = Some (f_subject f) /\ label_name c (e_label e) = Some (f_label f) /\
  concept_name c (e_object e) = Some (f_object f) /\ f_count f = e_count e.
Proof using Hwf Hfs.
  intros He. destruct (fact_at_total c i Hwf) as [f Hf]; [by eapply tget_Some_lt|]. exists f.
  split; [by eapply facts_at|]. split; [done|].
  apply fact_at_inv in Hf as (e' & _ & He' & ? & ? & ? & _ & _ & ? & _). rewrite He in He'. by injection He' as <-.
Qed.

Lemma fact_edge f : f ∈ fs -> exists i e, tget (edges c) i = Some e /\
  concept_name c (e_subject e) = Some (f_subject f) /\ label_name c (e_label e) = Some (f_label f) /\
  concept_name c (e_object e) = Some (f_object f) /\ f_count f = e_count e.
Proof using Hfs.
  intros [i Hf]%(facts_elem c); [|done]. apply fact_at_inv in Hf as (e & _ & He & ? & ? & ? & _ & _ & ? & _). eauto 8.
Qed.
End links.

(** Two names are adjacent exactly when some live fact links the concepts they
    resolve to, in either direction; a concept is adjacent to itself only through
    a live self-loop, and an unknown name is adjacent to nothing. *)
Theorem adjacent_links `{UnicodeTables} c fs a b (Hwf : wf c) (Hfs : facts c = Some fs) :
  exists r, adjacent a b c = Some r /\
    (r = true <-> exists f, f ∈ fs /\ is_live f /\
       ((f_subject f = canon_concept c a /\ f_object f = canon_concept c b) \/
        (f_subject f = canon_concept c b /\ f_object f = canon_concept c a))).
Proof.
  pose proof (fun i n s => resolves_concept Hwf i n s) as Hres.
  assert (Hknown : forall f s, f ∈ fs -> f_subject f = canon_concept c s \/ f_object f = canon_concept c s ->
    is_Some (concept_ids c !! s)).
  { intros f s Hin Hor. destruct (fact_edge fs Hfs f Hin) as (i & e & He & Hs & _ & Ho & _).
    destruct Hor as [Heq|Heq].
    - exists (e_subject e). by apply (Hres _ _ _ Hs).
    - exists (e_object e). by apply (Hres _ _ _ Ho). }
  unfold adjacent. destruct (concept_ids c !! a) as [ia|] eqn:Ea; last first.
  { exists false. split; [done|]. split; [done|]. intros (f & Hin & _ & Hor).
    destruct (Hknown f a Hin ltac:(tauto)); congruence. }
  destruct (concept_ids c !! b) as [ib|] eqn:Eb; last first.
  { exists false. split; [done|]. split; [done|]. intros (f & Hin & _ & Hor).
    destruct (Hknown f b Hin ltac:(tauto)); congruence. }
  destruct (outgoing_chain Hwf ia) as (out & Hout & _ & Iout); [by eapply concept_id_lt|].
  destruct (incoming_chain Hwf ia) as (inc & Hinc & _ & Iinc); [by eapply concept_id_lt|].
  destruct (scan_far (c := c) out _ e_object ib Iout) as (bo & Hbo & Io).
  destruct (scan_far (c := c) inc _ e_subject ib Iinc) as (bi & Hbi & Ii).
  bind Hout. bind Hbo.
  assert (Hr : exists r, (if bo then Some true else inc0 ← incoming c ia; anyM (fun id => edge ← tget (edges c) id;
      Some ((0 <? e_count edge) && (e_subject edge =? ib))) inc0) = Some r /\ (r = true <-> bo = true \/ bi = true)).
  { destruct bo; [exists true; tauto|]. rewrite Hinc. cbn [mbind option_bind]. rewrite Hbi. exists bi. naive_solver. }
  destruct Hr as (r & -> & Hr). exists r. split; [done|]. rewrite Hr, Io, Ii. split.
  - intros [(i & e & He & Hown%N.eqb_eq & Hc & Hfar)|(i & e & He & Hown%N.eqb_eq & Hc & Hfar)];
      destruct (edge_fact Hwf fs Hfs i e He) as (f & Hin & _ & Hs & _ & Ho & Hn); exists f; (split; [done|]);
      (split; [unfold is_live; congruence|]); [left | right]; split;
      (apply (Hres _ _ _ Hs) || apply (Hres _ _ _ Ho)); congruence.
  - intros (f & Hin & Hlive & Hor). destruct (fact_edge fs Hfs f Hin) as (i & e & He & Hs & _ & Ho & Hn).
    unfold is_live in Hlive. rewrite Hn in Hlive.
    destruct Hor as [[H1 H2]|[H1 H2]]; [left | right]; exists i, e; (split; [done|]);
      apply (Hres _ _ _ Hs) in H1; apply (Hres _ _ _ Ho) in H2; rewrite N.eqb_eq; naive_solver congruence.
Qed.

Lemma adjacent_links_witness : exists r, adjacent (str "cheese") (str "mouse") sample = Some r /\ r = true.
Proof.
  destruct (@adjacent_links ascii_tables sample sample_facts (str "cheese") (str "mouse") sample_wf sample_facts_eq)
    as (r & Hr & _). exists r. split; [exact Hr|].
  assert (E : adjacent (str "cheese") (str "mouse") sample = Some true) by (vm_compute; reflexivity).
  rewrite E in Hr. injection Hr as <-. reflexivity.
Defined.
