(* ===== verification/Activate.v ===== *)
(** * Spreading activation ([src/context/traverse.rs]) *)

From S2P Require Export Explore.

Local Open Scope N_scope.

(** [ACTIVATION_FLOOR]. *)
Definition ACTIVATION_FLOOR : f64 := 0x1.0c6f7a0b5ed8dp-20%float.

(** ** The heap *)

Record Candidate := { cd_activation : f64; cd_node : ConceptId }.

(** [Ord for Candidate]: higher activation is greater, ties to the lower id. *)
Definition candidate_cmp (a b : Candidate) : comparison :=
  match total_cmp (cd_activation a) (cd_activation b) with
  | Eq => cd_node b ?= cd_node a
  | o => o
  end.

(** [BinaryHeap::pop]: a greatest element.  Elements that compare equal are equal
    ([candidate_cmp_eq]), so which one is removed does not show. *)
Fixpoint pop_max (heap : list Candidate) : option (Candidate * list Candidate) :=
  match heap with
  | [] => None
  | x :: heap =>
    match pop_max heap with
    | None => Some (x, [])
    | Some (m, rest) =>
      match candidate_cmp m x with Gt => Some (m, x :: rest) | _ => Some (x, heap) end
    end
  end.

(** ** State *)

Record Spread := {
  best : gmap ConceptId f64;
  sp_parents : gmap ConceptId ConceptId;
  heap : list Candidate;
  sp_settled : gset ConceptId;
  strengths : gmap EdgeId (f64 * ConceptId)
}.

Definition push_origin (st : Spread) (id : ConceptId) : Spread :=
  {| best := <[id := 1%float]> (best st); sp_parents := sp_parents st;
     heap := {| cd_activation := 1%float; cd_node := id |} :: heap st;
     sp_settled := sp_settled st; strengths := strengths st |}.

Definition activate_start (origins : list ConceptId) : Spread :=
  foldl push_origin {| best := ∅; sp_parents := ∅; heap := []; sp_settled := ∅; strengths := ∅ |} origins.

(** One neighbor of a conducting edge. *)
Definition offer_flow (concept : ConceptId) (flow : f64) (st : Spread) (neighbor : ConceptId) : Spread :=
  if decide (neighbor ∈ sp_settled st) then st
  else if (default 0 (best st !! neighbor) <? flow)%float then
    {| best := <[neighbor := flow]> (best st); sp_parents := <[neighbor := concept]> (sp_parents st);
       heap := {| cd_activation := flow; cd_node := neighbor |} :: heap st;
       sp_settled := sp_settled st; strengths := strengths st |}
  else st.

(** One usable edge with its magnitude: rank it, then propagate through it. *)
Definition conduct (concept : ConceptId) (activation decay total : f64) (st : Spread)
    (p : EdgeId * EdgeRecord * f64) : Spread :=
  let '(id, edge, magnitude) := p in
  let score := (activation * decay * magnitude)%float in
  if (score <=? 0)%float then st
  else
    let strength := default (0%float, concept) (strengths st !! id) in
    let st := {| best := best st; sp_parents := sp_parents st; heap := heap st; sp_settled := sp_settled st;
                 strengths := <[id := if (strength.1 <? score)%float then (score, concept) else strength]>
                                (strengths st) |} in
    let flow := (score / total)%float in
    if (flow <? ACTIVATION_FLOOR)%float then st
    else foldl (offer_flow concept flow) st (ends edge).

Definition with_magnitudes (lens : EdgeLens) (es : list (EdgeId * EdgeRecord))
    : option (list (EdgeId * EdgeRecord * f64)) :=
  mapM (fun p => m ← lens_magnitude p.1 p.2; Some (p, m)) es.

(** The fan total: a self-loop threads both chains and is summed once. *)
Definition fan_total (lens : EdgeLens) (visible : LabelId -> bool) (c : Context) (concept : ConceptId)
    : option f64 :=
  out ← outgoing c concept;
  inc ← incoming c concept;
  inc ← filterM (fun id => edge ← tget (edges c) id; Some (negb (e_subject edge =? e_object edge))) inc;
  es ← usable_edges lens visible c (out ++ inc);
  ms ← with_magnitudes lens es;
  Some (foldl accumulate_saturating 0%float (ms.*2)).

Definition settle (concept : ConceptId) (rest : list Candidate) (st : Spread) : Spread :=
  {| best := best st; sp_parents := sp_parents st; heap := rest;
     sp_settled := {[concept]} ∪ sp_settled st; strengths := strengths st |}.

Definition drop_candidate (rest : list Candidate) (st : Spread) : Spread :=
  {| best := best st; sp_parents := sp_parents st; heap := rest;
     sp_settled := sp_settled st; strengths := strengths st |}.

(** The loop. *)
Fixpoint activate_loop (fuel : nat) (fan : ConceptId -> option f64)
    (conducting : ConceptId -> option (list (EdgeId * EdgeRecord * f64))) (decay : f64) (st : Spread)
    : option Spread :=
  match pop_max (heap st) with
  | None => Some st
  | Some (candidate, rest) =>
    match fuel with
    | O => None
    | S fuel =>
      let concept := cd_node candidate in
      if decide (concept ∈ sp_settled st) then activate_loop fuel fan conducting decay (drop_candidate rest st)
      else
        let st := settle concept rest st in
        total ← fan concept;
        if (total =? 0)%float then activate_loop fuel fan conducting decay st
        else
          ms ← conducting concept;
          activate_loop fuel fan conducting decay
            (foldl (conduct concept (cd_activation candidate) decay total) st ms)
    end
  end.

Record Activation := { av_strength : f64; av_path : list name; av_association : Association }.

(** Strongest first by [total_cmp], then the older edge. *)
Definition strength_le (a b : f64 * EdgeId * ConceptId) : Prop :=
  (total_key b.1.1 < total_key a.1.1)%Z \/ (total_key b.1.1 = total_key a.1.1 /\ a.1.2 <= b.1.2).
#[export] Instance strength_le_dec a b : Decision (strength_le a b).
Proof. unfold strength_le. apply _. Defined.

Definition ranked_strengths (strengths : gmap EdgeId (f64 * ConceptId)) : list (f64 * EdgeId * ConceptId) :=
  merge_sort strength_le ((fun p => (p.2.1, p.1, p.2.2)) <$> map_to_list strengths).

(** Enough pops: one per origin and per propagated flow. *)
Definition activate_fuel (origins : list ConceptId) (c : Context) : nat :=
  length origins + length (concepts c) * (4 * length (edges c)).

Definition activate_impl (origins : list name) (decay : f64) (limit : nat) (visible : LabelId -> bool)
    (lens : EdgeLens) (c : Context) : option (N * list Activation) :=
  let decay := clamp_unit_or decay 0%float in
  let ids := origin_ids c origins in
  st ← activate_loop (activate_fuel ids c) (fan_total lens visible c)
         (fun concept => es ← expand lens visible c concept; with_magnitudes lens es) decay (activate_start ids);
  let ranked := ranked_strengths (strengths st) in
  matches ← mapM (fun s : f64 * EdgeId * ConceptId =>
    path ← path_from c (sp_parents st) s.2;
    association ← lens_association s.1.2;
    Some {| av_strength := s.1.1; av_path := path; av_association := association |}) (take limit ranked);
  Some (lenN ranked, matches).

Definition activate (origins : list name) (decay : f64) (limit : nat) (c : Context) :=
  activate_impl origins decay limit visible_all (FullLens c) c.
Definition activate_excluding (origins : list name) (decay : f64) (limit : nat) (excluded : list name) (c : Context) :=
  activate_impl origins decay limit (visible_but c excluded) (FullLens c) c.
Definition activate_within (origins : list name) (decay : f64) (limit : nat) (excluded : list name)
    (window : SourceWindow) (c : Context) :=
  activate_impl origins decay limit (visible_but c excluded) (WindowLens c window) c.

(** * Spreading activation: what the loop computes

    Every settled concept keeps the activation it was popped with, the parents
    spell the path that activation came along, and the heap's stale entries never
    win: [best] is always among the queued candidates, and a smaller one pops
    later because [<] on floats implies the total order of the heap. *)

(** ** The heap *)

Definition outranks (m x : Candidate) : Prop :=
  (total_key (cd_activation x) <= total_key (cd_activation m))%Z.

Lemma candidate_cmp_eq a b : candidate_cmp a b = Eq -> a = b.
Proof.
  destruct a as [x i], b as [y j]. unfold candidate_cmp. simpl. destruct (total_cmp x y) eqn:E; try done.
  apply total_cmp_eq in E as ->. intros ->%N.compare_eq. done.
Qed.

Lemma pop_max_spec h :
  match pop_max h with
  | None => h = []
  | Some (m, rest) => h ≡ₚ m :: rest /\ forall x, x ∈ h -> outranks m x
  end.
Proof.
  induction h as [|x h IH]; simpl; [done|]. destruct (pop_max h) as [[m rest]|].
  - destruct IH as [Hp Hm].
    assert (Hcmp : match candidate_cmp m x with Gt => outranks m x | _ => outranks x m end).
    { unfold candidate_cmp, outranks, total_cmp.
      destruct (Z.compare_spec (total_key (cd_activation m)) (total_key (cd_activation x))); [|lia|lia].
      destruct (cd_node x ?= cd_node m); lia. }
    destruct (candidate_cmp m x).
    1,2: split; [done|]; intros y [->|Hy]%elem_of_cons; [unfold outranks; lia|];
      specialize (Hm y Hy); unfold outranks in *; lia.
    split; [rewrite Hp; constructor|]. intros y [->|Hy]%elem_of_cons; [done | by apply Hm].
  - subst h. split; [done|]. intros y ->%list_elem_of_singleton. unfold outranks. lia.
Qed.

Section spread.
Context (n : N) (G : EdgeId -> EdgeRecord -> Prop).
Context (exp : ConceptId -> option (list (EdgeId * EdgeRecord))) (roots : list ConceptId).
Context (Hg : graph_ok n G exp roots).
Context (fan : ConceptId -> option f64) (mag : EdgeId -> EdgeRecord -> f64) (bound : nat).
Context (conducting : ConceptId -> option (list (EdgeId * EdgeRecord * f64))).
Context (Hfan : forall x, x < n -> is_Some (fan x)).
Context (Hcond : forall x, x < n -> exists ms, conducting x = Some ms /\ (length ms <= bound)%nat /\
  forall i e m, (i, e, m) ∈ ms <-> G i e /\ x ∈ ends e /\ m = mag i e).
Context (decay : f64).

(** The activation a path carries to its last concept: full strength at a root,
    then scaled by decay and magnitude and divided by the fan, hop by hop, as long
    as the signal is positive and not below the floor. *)
Inductive carried : ConceptId -> f64 -> list ConceptId -> Prop :=
  | carried_root x : x ∈ roots -> carried x 1%float [x]
  | carried_hop x a p i e total y : carried x a p -> G i e -> x ∈ ends e -> y ∈ ends e ->
      fan x = Some total -> (a * decay * mag i e <=? 0)%float = false ->
      (a * decay * mag i e / total <? ACTIVATION_FLOOR)%float = false ->
      carried y (a * decay * mag i e / total)%float (p ++ [y]).

Lemma carried_trail x a p : carried x a p -> trail_to G roots x p.
Proof using. clear. induction 1; [by constructor|]. econstructor; [done|]. by exists i, e. Qed.

(** One propagated flow: where it came from. *)
Definition flows (st : Spread) (x y : ConceptId) (b : f64) : Prop :=
  exists a i e total, best st !! x = Some a /\ G i e /\ x ∈ ends e /\ y ∈ ends e /\ fan x = Some total /\
    (a * decay * mag i e <=? 0)%float = false /\
    (a * decay * mag i e / total <? ACTIVATION_FLOOR)%float = false /\
    b = (a * decay * mag i e / total)%float.

(** What an edge keeps of a score: all of it when it is positive; one that is not
    even a number never beats the zero it starts from. *)
Definition strength_of (sc s : f64) : Prop :=
  (0 <? sc)%float = true /\ s = sc \/ (0 <? sc)%float = false /\ s = 0%float.

(** [L]: the settled concepts in the order they settled. *)
Record spread_inv (L : list ConceptId) (st : Spread) : Prop := {
  sp_L : sp_settled st = list_to_set L;
  sp_nodup : NoDup L;
  sp_known : forall y, y ∈ L -> is_Some (best st !! y);
  sp_heap : forall k, k ∈ heap st -> exists b, best st !! cd_node k = Some b /\
    (total_key (cd_activation k) <= total_key b)%Z;
  sp_best : forall y b, best st !! y = Some b -> y < n /\
    (y ∈ L \/ {| cd_activation := b; cd_node := y |} ∈ heap st) /\
    match sp_parents st !! y with
    | None => y ∈ roots /\ b = 1%float
    | Some x => flows st x y b /\ x ∈ L /\ forall j, L !! j = Some y -> exists k, (k < j)%nat /\ L !! k = Some x
    end;
  sp_strength : forall i s x, strengths st !! i = Some (s, x) -> x ∈ L /\ exists e a, G i e /\ x ∈ ends e /\
    best st !! x = Some a /\ (a * decay * mag i e <=? 0)%float = false /\ strength_of (a * decay * mag i e)%float s;
  sp_roots : forall x, x ∈ roots -> is_Some (best st !! x)
}.

(** ** One neighbor, one edge *)

Lemma offer_flow_spec L st x y b :
  spread_inv L st -> x ∈ L -> y < n -> flows st x y b ->
  let st' := offer_flow x b st y in
  spread_inv L st' /\ (forall z, z ∈ L -> best st' !! z = best st !! z) /\
  (length (heap st') <= length (heap st) + 1)%nat /\ strengths st' = strengths st.
Proof using All.
  intros Hi Hx Hy Hfl. unfold offer_flow. destruct (decide (y ∈ sp_settled st)) as [Hs|Hs].
  { split; [done|]. split; [done|]. split; [lia | done]. }
  destruct (default 0%float (best st !! y) <? b)%float eqn:Hlt; [|split; [done|]; split; [done|]; split; [lia | done]].
  assert (HyL : y ∉ L) by (rewrite (sp_L _ _ Hi), elem_of_list_to_set in Hs; done).
  assert (Hkeep : forall z, z ∈ L -> <[y:=b]> (best st) !! z = best st !! z).
  { intros z Hz. apply lookup_insert_ne. congruence. }
  assert (Hfl' : forall st' z w q, best st' = <[y:=b]> (best st) -> z ∈ L -> flows st z w q -> flows st' z w q).
  { intros st' z w q Hb Hz (a & i & e & t & Ha & ?). exists a, i, e, t. rewrite Hb, Hkeep by done. done. }
  split; [|split; [exact Hkeep|split; [simpl; lia | done]]]. destruct Hi as [H1 H2 H3 H4 H5 H6 H7]. split; simpl; try done.
  - intros z Hz. rewrite Hkeep by done. auto.
  - intros k [->|Hk]%elem_of_cons; [exists b; simpl; rewrite lookup_insert_eq; split; [done | lia]|].
    destruct (H4 k Hk) as (q & Hq & Hle). destruct (decide (cd_node k = y)) as [Heq|Hne].
    + exists b. rewrite Heq, lookup_insert_eq. split; [done|]. rewrite Heq in Hq. rewrite Hq in Hlt.
      apply ltb_total_key in Hlt. simpl in Hlt. lia.
    + exists q. by rewrite lookup_insert_ne by congruence.
  - intros z q [[<- <-]|[Hne Hz]]%lookup_insert_Some.
    + split; [done|]. split; [right; set_solver|]. rewrite lookup_insert_eq. split; [by apply Hfl'|].
      split; [done|]. intros j Hj. exfalso. apply HyL. by eapply list_elem_of_lookup_2.
    + destruct (H5 z q Hz) as (Hzn & Hor & Hpar). split; [done|]. split; [set_solver|].
      rewrite lookup_insert_ne by done. destruct (sp_parents st !! z); [|done].
      destruct Hpar as (? & ? & ?). split; [by apply Hfl' | done].
  - intros i s z Hs'. destruct (H6 i s z Hs') as (Hz & e & a & ? & ? & Ha & ? & ?). split; [done|].
    exists e, a. rewrite Hkeep by done. done.
  - intros z Hz. destruct (decide (z = y)) as [->|]; [rewrite lookup_insert_eq; eauto|].
    rewrite lookup_insert_ne by done. auto.
Qed.

Lemma offer_flows_spec L st x ys b :
  spread_inv L st -> x ∈ L -> (forall y, y ∈ ys -> y < n) ->
  (forall st', (forall z, z ∈ L -> best st' !! z = best st !! z) -> forall y, y ∈ ys -> flows st' x y b) ->
  let st' := foldl (offer_flow x b) st ys in
  spread_inv L st' /\ (forall z, z ∈ L -> best st' !! z = best st !! z) /\
  (length (heap st') <= length (heap st) + length ys)%nat /\ strengths st' = strengths st.
Proof using All.
  revert st. induction ys as [|y ys IH]; intros st Hi Hx Hn Hfl; simpl.
  { split; [done|]. split; [done|]. split; [lia | done]. }
  destruct (offer_flow_spec L st x y b Hi Hx) as (Hi1 & Hb1 & Hl1 & Hs1); [set_solver | apply Hfl; [done | set_solver]|].
  destruct (IH (offer_flow x b st y)) as (Hi2 & Hb2 & Hl2 & Hs2); [done | done | set_solver | |].
  { intros st' Hb' z Hz. apply Hfl; [|set_solver]. intros w Hw. by rewrite Hb', Hb1. }
  split; [done|]. split; [intros z Hz; by rewrite Hb2, Hb1|]. split; [lia | congruence].
Qed.

Lemma conduct_spec L st x a total i e :
  spread_inv L st -> x ∈ L -> best st !! x = Some a -> fan x = Some total -> G i e -> x ∈ ends e ->
  let st' := conduct x a decay total st (i, e, mag i e) in
  spread_inv L st' /\ (forall z, z ∈ L -> best st' !! z = best st !! z) /\
  (length (heap st') <= length (heap st) + 2)%nat.
Proof using All.
  intros Hi Hx Ha Ht He Hxe. unfold conduct. cbn zeta.
  destruct (a * decay * mag i e <=? 0)%float eqn:Hpos; [split; [done|]; split; [done | lia]|].
  set (sc := (a * decay * mag i e)%float) in *.
  set (st1 := {| best := best st; strengths := _ |}).
  assert (Hi1 : spread_inv L st1).
  { destruct Hi as [H1 H2 H3 H4 H5 H6 H7]. split; try done. simpl.
    intros j s y [[<- Heq]|[_ Hj]]%lookup_insert_Some; [|by apply H6].
    set (old := default (0%float, x) (strengths st !! i)) in *.
    destruct (old.1 <? sc)%float eqn:Hbeats.
    - injection Heq as <- <-. split; [done|]. exists e, a. do 4 (split; [done|]). left. split; [|done].
      unfold old in Hbeats. destruct (strengths st !! i) as [[s' y']|] eqn:Ei; cbn [default fst] in Hbeats; [|done].
      destruct (H6 i s' y' Ei) as (_ & e' & a' & _ & _ & _ & _ & [[Hp Hs']|[_ Hs']]); rewrite Hs' in Hbeats; [|done].
      by eapply ltb_trans.
    - unfold old in Heq, Hbeats. destruct (strengths st !! i) as [[s' y']|] eqn:Ei; cbn [default fst] in Heq, Hbeats.
      + injection Heq as <- <-. by apply H6.
      + injection Heq as <- <-. split; [done|]. exists e, a. do 4 (split; [done|]). by right. }
  destruct (sc / total <? ACTIVATION_FLOOR)%float eqn:Hfl; [split; [done|]; split; [done | simpl; lia]|].
  destruct (offer_flows_spec L st1 x (ends e) (sc / total)%float Hi1 Hx) as (Hi2 & Hb2 & Hl2 & _).
  { intros y Hy. by eapply (g_ends _ _ _ _ Hg). }
  { intros st' Hb' y Hy. exists a, i, e, total. rewrite Hb' by done. done. }
  split; [done|]. split; [exact Hb2|]. simpl in Hl2. exact Hl2.
Qed.

Lemma conducts_spec L st x a total ms :
  spread_inv L st -> x ∈ L -> best st !! x = Some a -> fan x = Some total ->
  (forall i e m, (i, e, m) ∈ ms -> G i e /\ x ∈ ends e /\ m = mag i e) ->
  let st' := foldl (conduct x a decay total) st ms in
  spread_inv L st' /\ (forall z, z ∈ L -> best st' !! z = best st !! z) /\
  (length (heap st') <= length (heap st) + 2 * length ms)%nat.
Proof using All.
  revert st. induction ms as [|[[i e] m] ms IH]; intros st Hi Hx Ha Ht Hms; cbn [foldl length]; [split; [done|]; split; [done | lia]|].
  destruct (Hms i e m ltac:(set_solver)) as (He & Hxe & ->).
  destruct (conduct_spec L st x a total i e Hi Hx Ha Ht He Hxe) as (Hi1 & Hb1 & Hl1).
  destruct (IH (conduct x a decay total st (i, e, mag i e))) as (Hi2 & Hb2 & Hl2); [done | done | | done | set_solver |].
  { by rewrite Hb1. }
  split; [done|]. split; [intros z Hz; by rewrite Hb2, Hb1 | lia].
Qed.

(** ** Every conducting edge is rated, and conducts *)

(** What only ever grows: the best activation of a concept, the strength of an edge. *)
Definition no_less (x y : f64) : Prop := x = y \/ (x <? y)%float = true.
Record grown (st st' : Spread) : Prop := {
  gr_best : forall y b, best st !! y = Some b -> exists b', best st' !! y = Some b' /\ no_less b b';
  gr_strength : forall i s x, strengths st !! i = Some (s, x) -> exists s' x', strengths st' !! i = Some (s', x') /\ no_less s s'
}.

#[export] Instance no_less_preorder : PreOrder no_less.
Proof.
  split; [by left|]. intros x y z [->|Hxy] [->|Hyz]; [by left | by right..|]. right. by eapply ltb_trans.
Qed.
Lemma no_less_bound x y z : no_less x y -> (x <? z)%float = false -> (y <? z)%float = false.
Proof.
  intros [->|Hxy] Hz; [done|]. apply not_true_is_false. intros Hyz. by rewrite (ltb_trans x y z Hxy Hyz) in Hz.
Qed.

#[export] Instance grown_preorder : PreOrder grown.
Proof.
  split; [intros st; split; [intros y b Hb; exists b | intros i s x Hs; exists s, x]; done|].
  intros a b c [B1 S1] [B2 S2]. split.
  - intros y q (q1 & Hq1 & L1)%B1. destruct (B2 y q1 Hq1) as (q2 & Hq2 & L2). exists q2. split; [done | by transitivity q1].
  - intros i s x (s1 & x1 & Hs1 & L1)%S1. destruct (S2 i s1 x1 Hs1) as (s2 & x2 & Hs2 & L2).
    exists s2, x2. split; [done | by transitivity s1].
Qed.

Lemma grown_same st st' : best st' = best st -> strengths st' = strengths st -> grown st st'.
Proof.
  intros Hb Hs. split; [intros y b Hy; exists b; rewrite Hb | intros i s x Hi; exists s, x; rewrite Hs];
    (split; [done | by left]).
Qed.

(** A flow that reached [y]: [y] had settled, or is known with no less. *)
Definition received (st : Spread) (y : ConceptId) (flow : f64) : Prop :=
  y ∈ sp_settled st \/ exists b, best st !! y = Some b /\ (b <? flow)%float = false.

Lemma received_grown st st' y flow : grown st st' -> sp_settled st' = sp_settled st -> received st y flow -> received st' y flow.
Proof.
  intros Hgr Hs [Hy|(b & Hb & Hle)]; [left; by rewrite Hs|]. right. destruct (gr_best _ _ Hgr y b Hb) as (b' & Hb' & Hl).
  exists b'. split; [done | by eapply no_less_bound].
Qed.

Lemma offer_flow_grows x flow st y :
  grown st (offer_flow x flow st y) /\ sp_settled (offer_flow x flow st y) = sp_settled st /\
  strengths (offer_flow x flow st y) = strengths st /\
  ((0 <? flow)%float = true -> received (offer_flow x flow st y) y flow).
Proof.
  unfold offer_flow. destruct (decide (y ∈ sp_settled st)) as [Hs|Hs]; [split; [done|]; do 2 (split; [done|]); by left|].
  destruct (default 0%float (best st !! y) <? flow)%float eqn:Hlt.
  - split; [|do 2 (split; [done|]); intros _; right; exists flow; split; [apply lookup_insert_eq | apply ltb_irrefl]].
    split; [|by intros i s z Hz; exists s, z]. intros z b Hz. cbn [best]. destruct (decide (z = y)) as [->|Hne].
    + exists flow. rewrite lookup_insert_eq. rewrite Hz in Hlt. split; [done | by right].
    + exists b. by rewrite lookup_insert_ne.
  - split; [done|]. do 2 (split; [done|]). intros Hpos. right.
    destruct (best st !! y) as [b|]; [by exists b|]. cbn in Hlt. congruence.
Qed.

Lemma offer_flows_grow x flow ys st :
  grown st (foldl (offer_flow x flow) st ys) /\ sp_settled (foldl (offer_flow x flow) st ys) = sp_settled st /\
  strengths (foldl (offer_flow x flow) st ys) = strengths st /\
  ((0 <? flow)%float = true -> forall y, y ∈ ys -> received (foldl (offer_flow x flow) st ys) y flow).
Proof.
  revert st. induction ys as [|y ys IH]; intros st; cbn [foldl]; [split; [done|]; do 2 (split; [done|]); by intros _ y ?%elem_of_nil|].
  destruct (offer_flow_grows x flow st y) as (G1 & S1 & T1 & R1). destruct (IH (offer_flow x flow st y)) as (G2 & S2 & T2 & R2).
  split; [by etransitivity|]. split; [congruence|]. split; [congruence|]. intros Hpos z [->|Hz]%elem_of_cons; [|auto].
  eapply received_grown; [done | congruence | auto].
Qed.

(** What one usable edge gets from a settled endpoint. *)
Definition conducted (st : Spread) (total sc : f64) (i : EdgeId) (e : EdgeRecord) : Prop :=
  (exists s y, strengths st !! i = Some (s, y) /\ (s <? sc)%float = false) /\
  ((sc / total <? ACTIVATION_FLOOR)%float = false -> (0 <? sc / total)%float = true ->
    forall y, y ∈ ends e -> received st y (sc / total)%float).

Lemma conducted_grown st st' total sc i e : grown st st' -> sp_settled st' = sp_settled st ->
  conducted st total sc i e -> conducted st' total sc i e.
Proof.
  intros Hgr Hs [(s & y & Hsy & Hle) Hc]. split.
  - destruct (gr_strength _ _ Hgr i s y Hsy) as (s' & y' & Hsy' & Hl). exists s', y'. split; [done | by eapply no_less_bound].
  - intros. eapply received_grown; eauto.
Qed.

Lemma conduct_grows x a total st i e m :
  let st' := conduct x a decay total st (i, e, m) in
  grown st st' /\ sp_settled st' = sp_settled st /\
  ((a * decay * m <=? 0)%float = false -> conducted st' total (a * decay * m)%float i e).
Proof using.
  unfold conduct. cbn zeta. destruct (a * decay * m <=? 0)%float; [done|]. set (sc := (a * decay * m)%float).
  set (old := default (0%float, x) (strengths st !! i)). set (st1 := {| best := best st; strengths := _ |}).
  assert (G1 : grown st st1).
  { split; [intros y b Hb; exists b; split; [done | by left]|]. intros j s y Hj. cbn [st1 strengths]. destruct (decide (j = i)) as [->|Hne].
    - rewrite lookup_insert_eq. unfold old. rewrite Hj. simpl. destruct (s <? sc)%float eqn:Hlt.
      + exists sc, x. split; [done | by right].
      + exists s, y. split; [done | by left].
    - exists s, y. rewrite lookup_insert_ne by done. split; [done | by left]. }
  assert (Hst : exists s y, strengths st1 !! i = Some (s, y) /\ (s <? sc)%float = false).
  { cbn [st1 strengths]. rewrite lookup_insert_eq. destruct (old.1 <? sc)%float eqn:Hlt.
    - exists sc, x. split; [done | apply ltb_irrefl].
    - destruct old as [s y]. by exists s, y. }
  destruct (sc / total <? ACTIVATION_FLOOR)%float eqn:Hfl.
  { split; [done|]. split; [done|]. intros _. split; [done|]. congruence. }
  destruct (offer_flows_grow x (sc / total)%float (ends e) st1) as (G2 & S2 & T2 & R2).
  split; [by etransitivity|]. split; [by rewrite S2|]. intros _. split; [by rewrite T2 | auto].
Qed.

Lemma conducts_grow x a total ms st :
  let st' := foldl (conduct x a decay total) st ms in
  grown st st' /\ sp_settled st' = sp_settled st /\
  (forall i e m, (i, e, m) ∈ ms -> (a * decay * m <=? 0)%float = false -> conducted st' total (a * decay * m)%float i e).
Proof using.
  revert st. induction ms as [|[[i e] m] ms IH]; intros st; cbn [foldl]; [split; [done|]; split; [done|]; by intros ? ? ? ?%elem_of_nil|].
  destruct (conduct_grows x a total st i e m) as (G1 & S1 & C1). destruct (IH (conduct x a decay total st (i, e, m))) as (G2 & S2 & C2).
  split; [by etransitivity|]. split; [congruence|]. intros j e' m' [[= -> -> ->]|Hin]%elem_of_cons Hp; [|by apply C2].
  eapply conducted_grown; [done | done | auto].
Qed.

(** [y] is known with no less than [flow], or settled no later than [x]. *)
Definition arrived (L : list ConceptId) (st : Spread) (x y : ConceptId) (flow : f64) : Prop :=
  exists b, best st !! y = Some b /\
    ((b <? flow)%float = false \/ exists j k, (j <= k)%nat /\ L !! j = Some y /\ L !! k = Some x).

(** The settled concepts have offered a score to all their edges, and their flow to
    both ends of each. *)
Definition rated (L : list ConceptId) (st : Spread) : Prop := forall x a total i e,
  x ∈ L -> best st !! x = Some a -> fan x = Some total -> (total =? 0)%float = false -> G i e -> x ∈ ends e ->
  let sc := (a * decay * mag i e)%float in
  (sc <=? 0)%float = false ->
  (exists s y, strengths st !! i = Some (s, y) /\ (s <? sc)%float = false) /\
  ((sc / total <? ACTIVATION_FLOOR)%float = false -> (0 <? sc / total)%float = true ->
    forall y, y ∈ ends e -> arrived L st x y (sc / total)%float).

Lemma arrived_grown L K st st' x y flow : grown st st' -> arrived L st x y flow -> arrived (L ++ K) st' x y flow.
Proof using.
  intros Hgr (b & Hb & Hor). destruct (gr_best _ _ Hgr y b Hb) as (b' & Hb' & Hl). exists b'. split; [done|].
  destruct Hor as [Hle|(j & k & Hjk & Hj & Hk)]; [left; by eapply no_less_bound|].
  right. exists j, k. split; [done|]. split; by apply lookup_app_l_Some.
Qed.

(** ** The loop *)

(** A stale entry is dropped, a fresh one settles at its best activation. *)
Lemma pop_settled L st k rest : spread_inv L st -> heap st ≡ₚ k :: rest -> cd_node k ∈ sp_settled st ->
  spread_inv L (drop_candidate rest st).
Proof using All.
  intros [H1 H2 H3 H4 H5 H6 H7] Hp Hk. split; simpl; try done.
  - intros j Hj. apply H4. rewrite Hp. by right.
  - intros y b Hy. destruct (H5 y b Hy) as (Hn & Hor & Hpar). split; [done|]. split; [|done].
    destruct Hor as [|Hh]; [by left|]. rewrite Hp in Hh. apply elem_of_cons in Hh as [<-|]; [|by right].
    left. rewrite H1, elem_of_list_to_set in Hk. done.
Qed.

Lemma pop_fresh L st k rest : spread_inv L st -> heap st ≡ₚ k :: rest -> (forall x, x ∈ heap st -> outranks k x) ->
  cd_node k ∉ sp_settled st ->
  spread_inv (L ++ [cd_node k]) (settle (cd_node k) rest st) /\
  best st !! cd_node k = Some (cd_activation k) /\ cd_node k < n.
Proof using All.
  intros Hi Hp Hmax Hk. pose proof Hi as [H1 H2 H3 H4 H5 H6 H7].
  assert (HkL : cd_node k ∉ L) by (rewrite H1, elem_of_list_to_set in Hk; done).
  destruct (H4 k ltac:(rewrite Hp; set_solver)) as (b & Hb & Hle).
  destruct (H5 _ b Hb) as (Hn & Hor & _).
  assert (cd_activation k = b) as Hact.
  { destruct Hor as [|Hin]; [done|]. specialize (Hmax _ Hin). unfold outranks in Hmax. simpl in Hmax.
    apply total_key_inj. lia. }
  split; [|split; [by rewrite Hact | done]]. split; simpl.
  - rewrite H1. apply leibniz_equiv. set_solver.
  - apply NoDup_app. split; [done|]. split; [set_solver | apply NoDup_singleton].
  - intros y [Hy| ->%list_elem_of_singleton]%elem_of_app; [auto | eauto].
  - intros j Hj. apply H4. rewrite Hp. by right.
  - intros y q Hy. destruct (H5 y q Hy) as (Hyn & Hyor & Hpar). split; [done|]. split.
    + destruct Hyor as [|Hin]; [set_solver|]. rewrite Hp in Hin. apply elem_of_cons in Hin as [Heq|]; [|by right].
      left. subst k. set_solver.
    + destruct (sp_parents st !! y) as [x|]; [|done]. destruct Hpar as (Hfl & Hx & Hbef).
      split; [done|]. split; [set_solver|]. intros j [Hj|[Hge Hj]]%lookup_app_Some.
      * destruct (Hbef j Hj) as (l & ? & ?). exists l. split; [done|]. by apply lookup_app_l_Some.
      * apply list_elem_of_lookup in Hx as [l Hl]. exists l. split; [|by apply lookup_app_l_Some].
        apply lookup_lt_Some in Hl. lia.
  - intros i s x Hs. destruct (H6 i s x Hs) as (Hx & e & a & ?). split; [set_solver | by exists e, a].
  - done.
Qed.

Lemma rated_grown L K st st' : rated L st -> grown st st' -> (forall x, x ∈ L -> best st' !! x = best st !! x) ->
  forall x a total i e, x ∈ L -> best st' !! x = Some a -> fan x = Some total -> (total =? 0)%float = false ->
  G i e -> x ∈ ends e -> let sc := (a * decay * mag i e)%float in (sc <=? 0)%float = false ->
  (exists s y, strengths st' !! i = Some (s, y) /\ (s <? sc)%float = false) /\
  ((sc / total <? ACTIVATION_FLOOR)%float = false -> (0 <? sc / total)%float = true ->
    forall y, y ∈ ends e -> arrived (L ++ K) st' x y (sc / total)%float).
Proof using.
  intros Hr Hgr Hb x a total i e Hx Ha Ht Hz HG Hxe sc Hpos. rewrite Hb in Ha by done.
  destruct (Hr x a total i e Hx Ha Ht Hz HG Hxe Hpos) as [(s & y & Hs & Hle) Hflow]. split.
  - destruct (gr_strength _ _ Hgr i s y Hs) as (s' & y' & Hs' & Hl). exists s', y'. split; [done | by eapply no_less_bound].
  - intros Hfl Hf y' Hy'. eapply arrived_grown; [done | by apply Hflow].
Qed.

(** The concept just settled conducts over every usable edge. *)
Lemma rated_settled L st k rest total ms : spread_inv (L ++ [cd_node k]) (settle (cd_node k) rest st) ->
  rated L st ->
  best st !! cd_node k = Some (cd_activation k) -> fan (cd_node k) = Some total ->
  (forall i e m, (i, e, m) ∈ ms <-> G i e /\ cd_node k ∈ ends e /\ m = mag i e) ->
  let st2 := foldl (conduct (cd_node k) (cd_activation k) decay total) (settle (cd_node k) rest st) ms in
  spread_inv (L ++ [cd_node k]) st2 -> (forall z, z ∈ L ++ [cd_node k] -> best st2 !! z = best st !! z) ->
  rated (L ++ [cd_node k]) st2.
Proof using.
  intros Hi Hr Hb Ht Hin st2 Hi2 Hb2.
  destruct (conducts_grow (cd_node k) (cd_activation k) total ms (settle (cd_node k) rest st)) as (Hgr & Hs & Hc).
  fold st2 in Hgr, Hs, Hc.
  assert (Hgr' : grown st st2) by (transitivity (settle (cd_node k) rest st); [by apply grown_same | exact Hgr]).
  intros x a t i e [Hx| ->%list_elem_of_singleton]%elem_of_app.
  { apply (rated_grown L [cd_node k] st st2 Hr Hgr'); [|done]. intros z Hz. apply Hb2, elem_of_app. by left. }
  intros Ha Ht' Hz HG Hxe sc Hpos. rewrite Ht in Ht'. injection Ht' as <-.
  rewrite Hb2, Hb in Ha by (apply elem_of_app; right; by apply list_elem_of_singleton). injection Ha as <-.
  destruct (Hc i e (mag i e)) as [Hsy Hflow]; [by apply Hin | exact Hpos|]. split; [done|].
  intros Hfl Hp y Hy. destruct (Hflow Hfl Hp y Hy) as [Hset|(b & Hby & Hle)]; [|exists b; auto].
  rewrite (sp_L _ _ Hi2), elem_of_list_to_set in Hset. destruct (sp_known _ _ Hi2 y Hset) as [b Hby].
  exists b. split; [done|]. right. apply list_elem_of_lookup in Hset as [j Hj]. exists j, (length L).
  pose proof (lookup_lt_Some _ _ _ Hj) as Hlt. rewrite length_app in Hlt. cbn [length] in Hlt.
  split; [lia|]. split; [done|]. by apply list_lookup_middle.
Qed.

Theorem activate_loop_spec fuel L st : spread_inv L st -> rated L st ->
  ((N.to_nat n - length L) * (2 * bound) + length (heap st) <= fuel)%nat ->
  exists L' st', activate_loop fuel fan conducting decay st = Some st' /\ spread_inv L' st' /\ rated L' st' /\ heap st' = [].
Proof using All.
  revert L st. induction fuel as [|fuel IH]; intros L st Hi Hr Hf; simpl; pose proof (pop_max_spec (heap st)) as Hpop;
    (destruct (pop_max (heap st)) as [[k rest]|]; [|by exists L, st]); destruct Hpop as [Hp Hmax];
    pose proof (Permutation_length Hp) as Hlen; simpl in Hlen;
    [apply Nat.le_0_r, Nat.eq_add_0 in Hf as [_ Hf]; congruence|].
  destruct (decide (cd_node k ∈ sp_settled st)) as [Hs|Hs].
  { apply (IH L); [by eapply pop_settled | done | simpl; lia]. }
  destruct (pop_fresh L st k rest Hi Hp Hmax Hs) as (Hi1 & Hb & Hn).
  destruct (Hfan _ Hn) as [total Ht]. rewrite Ht. cbn [mbind option_bind].
  assert (HlenL : (length (L ++ [cd_node k]) <= N.to_nat n)%nat).
  { rewrite <- (length_seq (N.to_nat n) 0), <- (length_fmap N.of_nat).
    apply submseteq_length, NoDup_submseteq; [apply (sp_nodup _ _ Hi1)|]. intros y Hy.
    destruct (sp_known _ _ Hi1 y Hy) as [q Hq]. destruct (sp_best _ _ Hi1 y q Hq) as (Hyn & _).
    apply list_elem_of_fmap. exists (N.to_nat y). rewrite elem_of_seq, N2Nat.id. lia. }
  rewrite length_app in HlenL. cbn [length] in HlenL.
  assert (Hstep : ((N.to_nat n - length L) * (2 * bound) =
    (N.to_nat n - length (L ++ [cd_node k])) * (2 * bound) + 2 * bound)%nat).
  { rewrite length_app. cbn [length]. replace (N.to_nat n - length L)%nat with (S (N.to_nat n - (length L + 1)))%nat by lia.
    cbn [Nat.mul]. lia. }
  assert (Hfuel : ((N.to_nat n - length (L ++ [cd_node k])) * (2 * bound) +
    length (heap (settle (cd_node k) rest st)) + 2 * bound <= fuel)%nat).
  { cbn [settle heap]. rewrite Hstep in Hf. revert Hf.
    generalize ((N.to_nat n - length (L ++ [cd_node k])) * (2 * bound))%nat as rem. clear -Hlen. lia. }
  clear Hf Hstep. destruct (total =? 0)%float eqn:Hzero; [apply (IH (L ++ [cd_node k])); [done | |]|].
  { intros x a t i e [Hx| ->%list_elem_of_singleton]%elem_of_app.
    - apply (rated_grown L [cd_node k] st _ Hr); [by apply grown_same | done..].
    - intros _ Ht'. rewrite Ht in Ht'. injection Ht' as <-. by rewrite Hzero. }
  { revert Hfuel. generalize ((N.to_nat n - length (L ++ [cd_node k])) * (2 * bound))%nat. clear. lia. }
  destruct (Hcond _ Hn) as (ms & Hms & Hbound & Hin). rewrite Hms. cbn [mbind option_bind].
  destruct (conducts_spec (L ++ [cd_node k]) (settle (cd_node k) rest st) (cd_node k) (cd_activation k) total ms
    Hi1 ltac:(set_solver) Hb Ht (fun i e m => proj1 (Hin i e m))) as (Hi2 & Hb2 & Hl2).
  apply (IH (L ++ [cd_node k])); [done | |].
  { apply rated_settled; [done..|]. intros z Hz. by rewrite Hb2. }
  revert Hfuel. generalize ((N.to_nat n - length (L ++ [cd_node k])) * (2 * bound))%nat.
  revert Hl2 Hbound. clear. lia.
Qed.
End spread.
