(* ===== verification/ActivateClaims.v ===== *)
(** * What [activate] returns

    The loop's invariant read on a context: the trail of every scored edge is the
    way its activation came, and the ranking is total. *)

From S2P Require Export Activate Explore.
From S2P Require Import Sample.

Local Open Scope N_scope.

(** ** The start *)



(** ** Parents spell the path *)

Section trails.
Context (n : N) (G : EdgeId -> EdgeRecord -> Prop) (roots : list ConceptId).
Context (fan : ConceptId -> option f64) (mag : EdgeId -> EdgeRecord -> f64) (decay : f64).






End trails.

(** ** On a context *)

(** A lens that weighs every fact. *)
Class LensMagnitude (lens : EdgeLens) (c : Context) (weigh : Fact -> f64) := {
  lens_weighs : forall i e f, tget (edges c) i = Some e -> fact_at c i = Some f ->
    lens_magnitude i e = Some (weigh f)
}.


Definition windowed_magnitude (srcs : list name) (f : Fact) : f64 :=
  f64_magnitude (foldl accumulate_saturating 0%float
    (att_weight <$> filter (fun a => att_source a ∈ srcs) (f_attributions f))).

Lemma WindowLens_magnitude `{UnicodeTables} c srcs : wf c ->
  LensMagnitude (WindowLens c (source_window c srcs)) c (windowed_magnitude srcs).
Proof. intros Hwf. split. intros i e f He Hf. simpl. by rewrite (windowed_totals_fact Hwf srcs i f e Hf He). Qed.


Section context.
Context `{UnicodeTables} {c : Context} (Hwf : wf c) (fs : list Fact) (Hfs : facts c = Some fs).
Context (lens : EdgeLens) (view : Fact -> option Association) `{!LensView lens c view}.
Context (weigh : Fact -> f64) `{!LensMagnitude lens c weigh}.
Context (excluded origins : list name).







End context.

#[export] Instance strength_le_trans : Transitive strength_le.
Proof. intros [[]] [[]] [[]]. unfold strength_le. simpl. lia. Qed.
#[export] Instance strength_le_total : Total strength_le.
Proof. intros [[]] [[]]. unfold strength_le. simpl. lia. Qed.





Section claim.
Context `{UnicodeTables} {c : Context} (Hwf : wf c) (fs : list Fact) (Hfs : facts c = Some fs).
Context (lens : EdgeLens) (view : Fact -> option Association) `{!LensView lens c view}.
Context (weigh : Fact -> f64) `{!LensMagnitude lens c weigh}.
Context (excluded origins : list name) (decay : f64).



End claim.


