(* ===== verification/Paths.v ===== *)
(** * Paths between concepts ([src/context/traverse.rs])

    [paths_impl]: a reverse breadth-first sweep bounds the distance to a target,
    then a budgeted depth-first walk enumerates the simple trails. *)

From S2P Require Export Explore Activate.

Local Open Scope N_scope.

Definition PATHS_EXPANSION_BUDGET : N := 100000.

Record Trail := { tr_distance : N; tr_path : list name; tr_strength : f64; tr_associations : list Association }.
Record PathsResult := { pr_total : N; pr_capped : bool; pr_trails : list Trail }.

(** Known origins in the caller's order, once each. *)
Fixpoint dedup_ids (seen : gset ConceptId) (ids : list ConceptId) : list ConceptId :=
  match ids with
  | [] => []
  | id :: ids => if decide (id ∈ seen) then dedup_ids seen ids else id :: dedup_ids ({[id]} ∪ seen) ids
  end.

(** ** The reverse sweep *)

Record Sweep_back := { to_target : gmap ConceptId N; back_frontier : list ConceptId }.

Definition back_sight (hop : N) (st : Sweep_back) (neighbor : ConceptId) : Sweep_back :=
  match to_target st !! neighbor with
  | Some _ => st
  | None => {| to_target := <[neighbor := hop]> (to_target st); back_frontier := back_frontier st ++ [neighbor] |}
  end.

Definition back_cross (hop : N) (st : Sweep_back) (p : EdgeId * EdgeRecord) : Sweep_back :=
  foldl (back_sight hop) st (ends p.2).

Fixpoint back_loop (fuel : nat) (expand : ConceptId -> option (list (EdgeId * EdgeRecord))) (max_depth : N)
    (st : Sweep_back) : option Sweep_back :=
  match back_frontier st with
  | [] => Some st
  | concept :: rest =>
    match fuel with
    | O => None
    | S fuel =>
      distance ← to_target st !! concept;
      let hop := distance + 1 in
      let st := {| to_target := to_target st; back_frontier := rest |} in
      if max_depth <? hop then back_loop fuel expand max_depth st
      else es ← expand concept; back_loop fuel expand max_depth (foldl (back_cross hop) st es)
    end
  end.

(** [targets] in the order the set is iterated. *)
Definition back_start (targets : list ConceptId) : Sweep_back :=
  foldl (fun st id => {| to_target := <[id := 0]> (to_target st); back_frontier := back_frontier st ++ [id] |})
    {| to_target := ∅; back_frontier := [] |} targets.

(** ** The forward walk *)

(** A frame is what is left of [outgoing(x).chain(incoming(x))]; the stacks have
    their top first. *)
Record Walk := {
  frames : list (list EdgeId);
  node_stack : list ConceptId;
  edge_stack : list EdgeId;
  on_path : gset ConceptId;
  found : list (list ConceptId * list EdgeId);
  budget : N
}.

Definition adjacency (c : Context) (concept : ConceptId) : option (list EdgeId) :=
  out ← outgoing c concept; inc ← incoming c concept; Some (out ++ inc).

Definition pop_walk (rest : list (list EdgeId)) (st : Walk) : Walk := {|
  frames := rest; node_stack := tail (node_stack st); edge_stack := tail (edge_stack st);
  on_path := match node_stack st with done :: _ => on_path st ∖ {[done]} | [] => on_path st end;
  found := found st; budget := budget st |}.

(** [frame.next()], paid for. *)
Definition spend (rest : list EdgeId) (frames' : list (list EdgeId)) (st : Walk) : Walk := {|
  frames := rest :: frames'; node_stack := node_stack st; edge_stack := edge_stack st; on_path := on_path st;
  found := found st; budget := budget st - 1 |}.

Definition record_trail (next : ConceptId) (edge_id : EdgeId) (st : Walk) : Walk := {|
  frames := frames st; node_stack := node_stack st; edge_stack := edge_stack st; on_path := on_path st;
  found := found st ++ [(rev (next :: node_stack st), rev (edge_id :: edge_stack st))]; budget := budget st |}.

Definition descend (next : ConceptId) (edge_id : EdgeId) (frame : list EdgeId) (st : Walk) : Walk := {|
  frames := frame :: frames st; node_stack := next :: node_stack st; edge_stack := edge_id :: edge_stack st;
  on_path := {[next]} ∪ on_path st; found := found st; budget := budget st |}.

Section walk.
Context (c : Context) (visible : LabelId -> bool) (distances : gmap ConceptId N) (target_ids : gset ConceptId).
Context (max_depth : N).

(** The tests before a hop counts: [Some next] when it does. *)
Definition admit_hop (st : Walk) (edge : EdgeRecord) : option (option ConceptId) :=
  if (e_count edge =? 0) || negb (visible (e_label edge)) then Some None
  else
    here ← head (node_stack st);
    let next := if e_subject edge =? here then e_object edge else e_subject edge in
    if (next =? here) || bool_decide (next ∈ on_path st) then Some None
    else
      let depth := lenN (edge_stack st) + 1 in
      match distances !! next with
      | None => Some None
      | Some remaining => if max_depth <? depth + remaining then Some None else Some (Some next)
      end.

(** [(capped, state)]. *)
Fixpoint walk_loop (fuel : nat) (st : Walk) : option (bool * Walk) :=
  match frames st with
  | [] => Some (false, st)
  | frame :: frames' =>
    match fuel with
    | O => None
    | S fuel =>
      match frame with
      | [] => walk_loop fuel (pop_walk frames' st)
      | edge_id :: rest =>
        if budget st =? 0 then Some (true, st)
        else
          let st := spend rest frames' st in
          edge ← tget (edges c) edge_id;
          hop ← admit_hop st edge;
          match hop with
          | None => walk_loop fuel st
          | Some next =>
            let depth := lenN (edge_stack st) + 1 in
            let st' := if decide (next ∈ target_ids) then record_trail next edge_id st else st in
            if depth <? max_depth then
              frame ← adjacency c next;
              walk_loop fuel (descend next edge_id frame st')
            else walk_loop fuel st'
          end
      end
    end
  end.

(** Every step spends budget or pops a frame. *)
Definition walk_fuel (budget : N) : nat := S (2 * N.to_nat budget + 1).

Fixpoint walk_origins (origins : list ConceptId) (found : list (list ConceptId * list EdgeId)) (budget : N)
    : option (bool * list (list ConceptId * list EdgeId)) :=
  match origins with
  | [] => Some (false, found)
  | origin :: origins =>
    match distances !! origin with
    | None => walk_origins origins found budget
    | Some _ =>
      frame ← adjacency c origin;
      '(capped, st) ← walk_loop (walk_fuel budget)
        {| frames := [frame]; node_stack := [origin]; edge_stack := []; on_path := {[origin]};
           found := found; budget := budget |};
      if (capped : bool) then Some (true, Paths.found st)
      else walk_origins origins (Paths.found st) (Paths.budget st)
    end
  end.
End walk.

(** ** Ranking *)

(** The weakest link. *)
Definition trail_strength (c : Context) (es : list EdgeId) : option f64 :=
  links ← mapM (fun id => edge ← tget (edges c) id; Some (PrimFloat.abs (e_sum edge))) es;
  Some (foldl f64_min infinity links).

Definition Ranked : Type := N * f64 * list ConceptId * list EdgeId.

Fixpoint lex_cmp (a b : list N) : comparison :=
  match a, b with
  | [], [] => Eq
  | [], _ => Lt
  | _, [] => Gt
  | x :: a, y :: b => match N.compare x y with Eq => lex_cmp a b | o => o end
  end.

(** Distance, then the stronger weakest link, then the ids. *)
Definition ranked_cmp (a b : Ranked) : comparison :=
  match N.compare a.1.1.1 b.1.1.1 with
  | Eq => match Z.compare (total_key b.1.1.2) (total_key a.1.1.2) with
          | Eq => match lex_cmp a.1.2 b.1.2 with Eq => lex_cmp a.2 b.2 | o => o end
          | o => o
          end
  | o => o
  end.

Definition ranked_le (a b : Ranked) : Prop := ranked_cmp a b <> Gt.
#[export] Instance ranked_le_dec a b : Decision (ranked_le a b).
Proof. unfold ranked_le. destruct (ranked_cmp a b); [left | left | right]; congruence. Defined.

Definition rank_trail (c : Context) (t : list ConceptId * list EdgeId) : option Ranked :=
  strength ← trail_strength c t.2; Some (lenN t.2, strength, t.1, t.2).

Definition render_trail (c : Context) (r : Ranked) : option Trail :=
  path ← mapM (concept_name c) r.1.2;
  associations ← mapM (association c) r.2;
  Some {| tr_distance := r.1.1.1; tr_path := path; tr_strength := r.1.1.2; tr_associations := associations |}.

(** [iterate] is the order in which the target set is iterated. *)
Definition paths_impl (iterate : gset ConceptId -> list ConceptId) (origins targets : list name) (max_depth : N)
    (limit : nat) (visible : LabelId -> bool) (c : Context) : option PathsResult :=
  let target_ids : gset ConceptId := list_to_set (origin_ids c targets) in
  let origin_ids := dedup_ids ∅ (origin_ids c origins) in
  if is_nil origin_ids || bool_decide (target_ids = ∅) || (max_depth =? 0) || Nat.eqb limit 0 then
    Some {| pr_total := 0; pr_capped := false; pr_trails := [] |}
  else
    back ← back_loop (length (concepts c)) (expand (FullLens c) visible c) max_depth (back_start (iterate target_ids));
    '(capped, found) ← walk_origins c visible (to_target back) target_ids max_depth origin_ids [] PATHS_EXPANSION_BUDGET;
    ranked ← mapM (rank_trail c) found;
    let ranked := merge_sort ranked_le ranked in
    trails ← mapM (render_trail c) (take limit ranked);
    Some {| pr_total := lenN ranked; pr_capped := capped; pr_trails := trails |}.

Definition paths iterate origins targets max_depth limit (c : Context) :=
  paths_impl iterate origins targets max_depth limit visible_all c.
Definition paths_excluding iterate origins targets max_depth limit (excluded : list name) (c : Context) :=
  paths_impl iterate origins targets max_depth limit (visible_but c excluded) c.
