(* ===== verification/PathsThm.v ===== *)
(** * The budgeted walk of [paths_impl]

    The walk against its trace: the list with one entry per examined edge, which
    is the trail recorded there, if any.  The loop records the trails among the
    first [budget] entries, and says whether there were more. *)

From S2P Require Export Paths.

Local Open Scope N_scope.

Notation Path := (list ConceptId * list EdgeId)%type.

Section walk.
Context (c : Context) (visible : LabelId -> bool) (distances : gmap ConceptId N) (target_ids : gset ConceptId).
Context (max_depth : N).

(** A walk about to examine an edge, for the fields the test reads. *)
Definition at_stacks (ns : list ConceptId) (es : list EdgeId) : Walk := {|
  frames := []; node_stack := ns; edge_stack := es; on_path := list_to_set ns; found := []; budget := 0 |}.

Definition admits (ns : list ConceptId) (es : list EdgeId) (i : EdgeId) : option ConceptId :=
  edge ← tget (edges c) i;
  default None (admit_hop visible distances max_depth (at_stacks ns es) edge).

Definition adj (x : ConceptId) : list EdgeId := default [] (adjacency c x).

(** [n]: how many more hops may be descended. *)
Fixpoint trace (n : nat) (ns : list ConceptId) (es : list EdgeId) (ids : list EdgeId) : list (option Path) :=
  flat_map (fun i =>
    match admits ns es i with
    | None => [None]
    | Some next =>
      (if decide (next ∈ target_ids) then Some (rev (next :: ns), rev (i :: es)) else None) ::
      match n with
      | O => []
      | S n => trace n (next :: ns) (i :: es) (adj next)
      end
    end) ids.

Lemma trace_cons n ns es i ids : trace n ns es (i :: ids) =
  match admits ns es i with
  | None => [None]
  | Some next =>
    (if decide (next ∈ target_ids) then Some (rev (next :: ns), rev (i :: es)) else None) ::
    match n with O => [] | S n => trace n (next :: ns) (i :: es) (adj next) end
  end ++ trace n ns es ids.
Proof using. by destruct n. Qed.

Lemma trace_nil n ns es : trace n ns es [] = [].
Proof using. by destruct n. Qed.

(** Hops left below a stack of edges. *)
Definition room (es : list EdgeId) : nat := N.to_nat max_depth - S (length es).

(** What the frames still hold. *)
Fixpoint pending (frames : list (list EdgeId)) (ns : list ConceptId) (es : list EdgeId) : list (option Path) :=
  match frames with
  | [] => []
  | ids :: frames => trace (room es) ns es ids ++ pending frames (tail ns) (tail es)
  end.

(** The graph the walk runs on. *)
Record adjacent_ok : Prop := {
  adj_total : forall x, x < lenN (concepts c) -> exists ids, adjacency c x = Some ids;
  adj_valid : forall x i, x < lenN (concepts c) -> i ∈ adj x -> i < lenN (edges c);
  adj_ends : forall i e x, tget (edges c) i = Some e -> x ∈ ends e -> x < lenN (concepts c)
}.

Inductive stacked : list (list EdgeId) -> list ConceptId -> list EdgeId -> Prop :=
  | stacked_nil : stacked [] [] []
  | stacked_one ids x : x < lenN (concepts c) -> (forall i, i ∈ ids -> i < lenN (edges c)) ->
      stacked [ids] [x] []
  | stacked_more ids frames x ns i es : x < lenN (concepts c) -> (forall j, j ∈ ids -> j < lenN (edges c)) ->
      x ∉ ns -> frames <> [] -> stacked frames ns es -> stacked (ids :: frames) (x :: ns) (i :: es).

Lemma stacked_pop ids frames ns es : stacked (ids :: frames) ns es ->
  exists x ns', ns = x :: ns' /\ x ∉ ns' /\ x < lenN (concepts c) /\ stacked frames ns' (tail es).
Proof using All. inversion 1; subst; eexists _, _; (split; [done|]); (split; [set_solver|]); split; try done; constructor. Qed.

Lemma stacked_rest i ids frames ns es : stacked ((i :: ids) :: frames) ns es ->
  i < lenN (edges c) /\ stacked (ids :: frames) ns es.
Proof using All. inversion 1; subst; (split; [set_solver|]); constructor; set_solver. Qed.

(** The test reads nothing but the stacks. *)
Lemma admit_hop_stacks st e : on_path st = list_to_set (node_stack st) ->
  admit_hop visible distances max_depth st e =
  admit_hop visible distances max_depth (at_stacks (node_stack st) (edge_stack st)) e.
Proof using. intros Hon. unfold admit_hop. cbn -[N.add]. by rewrite Hon. Qed.

Lemma admit_hop_total x ns es e : exists hop,
  admit_hop visible distances max_depth (at_stacks (x :: ns) es) e = Some hop.
Proof using.
  unfold admit_hop. cbn -[N.add]. destruct (_ || _); [eauto|]. destruct (_ || _); [eauto|].
  destruct (distances !! _); [|eauto]. destruct (_ <? _); eauto.
Qed.

(** An admitted hop crosses a live, visible edge to a concept not on the trail. *)
Lemma admits_inv x ns es i y : admits (x :: ns) es i = Some y -> exists e r,
  tget (edges c) i = Some e /\ e_count e <> 0 /\ visible (e_label e) = true /\
  y = (if e_subject e =? x then e_object e else e_subject e) /\ y <> x /\ y ∉ x :: ns /\
  distances !! y = Some r /\ lenN es + 1 + r <= max_depth.
Proof using.
  unfold admits. intros (e & He & Ha)%bind_Some. exists e. unfold admit_hop in Ha. cbn -[N.add] in Ha.
  destruct (N.eqb_spec (e_count e) 0); [done|]. destruct (visible (e_label e)); [|done]. cbn -[N.add] in Ha.
  set (next := if e_subject e =? x then e_object e else e_subject e) in *.
  destruct (N.eqb_spec next x); [done|]. cbn -[N.add] in Ha. case_bool_decide as Hon; [done|]. cbn -[N.add] in Ha.
  destruct (distances !! next) as [r|] eqn:Er; [|done]. destruct (N.ltb_spec max_depth (lenN es + 1 + r)); [done|].
  injection Ha as <-. exists r. rewrite elem_of_cons. set_solver.
Qed.

Lemma admits_intro x ns es i e y r :
  tget (edges c) i = Some e -> e_count e <> 0 -> visible (e_label e) = true ->
  y = (if e_subject e =? x then e_object e else e_subject e) -> y ∉ x :: ns ->
  distances !! y = Some r -> lenN es + 1 + r <= max_depth -> admits (x :: ns) es i = Some y.
Proof using.
  intros He Hc Hv -> Hon Hr Hle. unfold admits. rewrite He. cbn [mbind option_bind]. unfold admit_hop. cbn -[N.add].
  set (next := if e_subject e =? x then e_object e else e_subject e) in *.
  rewrite (proj2 (N.eqb_neq _ _) Hc), Hv. cbn -[N.add].
  rewrite (proj2 (N.eqb_neq next x)), bool_decide_eq_false_2 by set_solver. cbn -[N.add].
  rewrite Hr, (proj2 (N.ltb_ge _ _) Hle). done.
Qed.

Context (Hg : adjacent_ok).

Lemma adj_eq x : x < lenN (concepts c) -> adjacency c x = Some (adj x).
Proof using Hg. intros Hx. unfold adj. by destruct (adj_total Hg x Hx) as [ids ->]. Qed.

(** ** The loop is its trace *)

Definition walked (st : Walk) (P : list (option Path)) (r : option (bool * Walk)) : Prop := exists st',
  r = Some (bool_decide (N.to_nat (budget st) < length P)%nat, st') /\
  found st' = found st ++ omap id (take (N.to_nat (budget st)) P) /\
  ((length P <= N.to_nat (budget st))%nat -> budget st' = budget st - lenN P).

Lemma walked_step st st' o P r : budget st <> 0 -> budget st' = budget st - 1 ->
  found st' = found st ++ omap id [o] -> walked st' P r -> walked st (o :: P) r.
Proof using All.
  intros Hb Hb' Hf (s & -> & Hfs & Hbs). exists s.
  assert (Hn : N.to_nat (budget st) = S (N.to_nat (budget st'))) by lia. rewrite Hn.
  split; [|split].
  - f_equal. f_equal. apply bool_decide_ext. simpl. lia.
  - rewrite Hfs, Hf, <- app_assoc. f_equal. simpl. by destruct o.
  - simpl. unfold lenN in *. simpl. intros Hle. rewrite Hbs by lia. rewrite Hb'. lia.
Qed.

Lemma walk_loop_spec fuel st :
  stacked (frames st) (node_stack st) (edge_stack st) -> on_path st = list_to_set (node_stack st) ->
  (2 * N.to_nat (budget st) + length (frames st) <= fuel)%nat ->
  walked st (pending (frames st) (node_stack st) (edge_stack st))
    (walk_loop c visible distances target_ids max_depth fuel st).
Proof using All.
  revert st. induction fuel as [|fuel IH]; intros st Hst Hon Hfuel; simpl;
    (destruct (frames st) as [|ids frames'] eqn:Hfr;
     [unfold walked; exists st; rewrite bool_decide_eq_false_2 by (simpl; lia); split; [done|];
      cbn [pending]; rewrite take_nil, app_nil_r; split; [done|]; unfold lenN; simpl; lia|]).
  { simpl in Hfuel. lia. }
  cbn [pending]. destruct (stacked_pop _ _ _ _ Hst) as (x & ns & Hns & Hx & Hxlt & Hpop). simpl in Hfuel.
  destruct ids as [|i ids].
  { rewrite trace_nil. simpl. specialize (IH (pop_walk frames' st)). cbn in IH. rewrite Hns in *. cbn in IH.
    apply IH; [done | | lia]. rewrite Hon. set_solver. }
  apply stacked_rest in Hst as [Hi Hst]. rewrite trace_cons. destruct (N.eqb_spec (budget st) 0) as [Hz|Hnz].
  { exists st. rewrite Hz. simpl. rewrite app_nil_r. split; [|split; [done|]].
    - rewrite bool_decide_eq_true_2; [done|]. destruct (admits _ _ _); simpl; lia.
    - destruct (admits _ _ _); simpl; lia. }
  destruct (tget_lt (edges c) i Hi) as [e He]. cbn [spend]. rewrite He. cbn [mbind option_bind].
  rewrite (admit_hop_stacks (spend ids frames' st) e Hon). cbn [node_stack edge_stack spend].
  destruct (admit_hop_total x ns (edge_stack st) e) as [hop Hhop]. rewrite Hns in *. rewrite Hhop. cbn [mbind option_bind].
  assert (Had : admits (x :: ns) (edge_stack st) i = hop) by (unfold admits; rewrite He; cbn [mbind option_bind]; by rewrite Hhop).
  rewrite Had. destruct hop as [y|]; last first.
  { simpl. apply (walked_step st (spend ids frames' st)); [done | done | by rewrite app_nil_r|].
    specialize (IH (spend ids frames' st)). cbn in IH. rewrite Hns in IH. apply IH; [done | done | lia]. }
  pose proof (admits_inv _ _ _ _ _ Had) as (e' & r & He' & _ & _ & Hy & _ & Hyon & _ & Hle).
  rewrite He in He'. injection He' as <-.
  assert (Hylt : y < lenN (concepts c)).
  { eapply (adj_ends Hg); [exact He|]. subst y. unfold ends. destruct (_ =? _); set_solver. }
  rewrite <- app_assoc, <- app_comm_cons.
  set (st1 := if decide (y ∈ target_ids) then record_trail y i (spend ids frames' st) else spend ids frames' st).
  assert (H1 : budget st1 = budget st - 1 /\ frames st1 = ids :: frames' /\ node_stack st1 = x :: ns /\
    edge_stack st1 = edge_stack st /\ on_path st1 = list_to_set (x :: ns) /\
    found st1 = found st ++ omap id [if decide (y ∈ target_ids) then Some (rev (y :: x :: ns), rev (i :: edge_stack st)) else None]).
  { unfold st1. destruct (decide (y ∈ target_ids)); cbn; rewrite ?Hns, ?app_nil_r; auto 10. }
  clearbody st1. destruct H1 as (Hb1 & Hf1 & Hn1 & He1 & Ho1 & Hfound1).
  apply (walked_step st st1); [done | done | done|].
  destruct (N.ltb_spec (lenN (edge_stack st) + 1) max_depth) as [Hlt|Hge].
  - rewrite (adj_eq y Hylt). cbn [mbind option_bind].
    assert (Hroom : room (edge_stack st) = S (room (i :: edge_stack st))) by (unfold room, lenN in *; simpl; lia).
    rewrite Hroom. specialize (IH (descend y i (adj y) st1)). unfold walked in *. cbn in IH.
    rewrite Hf1, Hn1, He1, Ho1 in IH. cbn [pending tail] in IH. rewrite Hroom in IH. cbn [tail]. apply IH.
    + constructor; [done | intros j Hj; by apply (adj_valid Hg y) | done | done | done].
    + done.
    + simpl. rewrite Hb1. lia.
  - assert (Hroom : room (edge_stack st) = 0%nat) by (unfold room, lenN in *; lia). rewrite Hroom. cbn [app].
    specialize (IH st1). rewrite Hf1, Hn1, He1 in IH. cbn [pending] in IH. rewrite Hroom in IH.
    apply IH; [done | done |]. simpl. rewrite Hb1. lia.
Qed.

(** ** All the origins *)

Definition origins_trace (origins : list ConceptId) : list (option Path) :=
  flat_map (fun o => match distances !! o with None => [] | Some _ => trace (room []) [o] [] (adj o) end) origins.

Lemma walk_origins_spec origins : forall found budget,
  (forall o, o ∈ origins -> o < lenN (concepts c)) ->
  walk_origins c visible distances target_ids max_depth origins found budget =
  Some (bool_decide (N.to_nat budget < length (origins_trace origins))%nat,
        found ++ omap id (take (N.to_nat budget) (origins_trace origins))).
Proof using All.
  induction origins as [|o origins IH]; intros found budget Hlt;
    cbn [walk_origins]; unfold origins_trace in *; cbn [flat_map].
  { by rewrite take_nil, app_nil_r. }
  destruct (distances !! o) as [d|] eqn:Hd; [|cbn [app]; apply IH; set_solver].
  rewrite adj_eq by set_solver. cbn [mbind option_bind].
  set (st := {| frames := [adj o]; node_stack := [o]; edge_stack := []; on_path := {[o]}; found := found; budget := budget |}).
  destruct (walk_loop_spec (walk_fuel budget) st) as (st' & Hrun & Hf & Hb).
  - constructor; [set_solver|]. intros i Hi. eapply adj_valid; [done | | exact Hi]. set_solver.
  - simpl. set_solver.
  - simpl. unfold walk_fuel. lia.
  - cbn [pending st frames node_stack edge_stack tail] in Hrun, Hf, Hb. rewrite app_nil_r in Hrun, Hf, Hb.
    cbn [st Paths.found Paths.budget] in Hrun, Hf, Hb. set (P := trace (room []) [o] [] (adj o)) in *.
    rewrite Hrun. cbn [mbind option_bind]. rewrite length_app.
    destruct (decide (N.to_nat budget < length P)%nat) as [Hcap|Hcap].
    + rewrite !bool_decide_eq_true_2 by lia. rewrite Hf, take_app_le by lia. done.
    + rewrite (bool_decide_eq_false_2 (_ < length P)%nat) by done.
      rewrite IH by set_solver. rewrite Hb, Hf by lia. rewrite take_ge by lia. unfold lenN.
      rewrite take_app, (take_ge P), omap_app by lia. rewrite <- app_assoc. f_equal. f_equal.
      * apply bool_decide_ext. lia.
      * by rewrite N2Nat.inj_sub, Nat2N.id.
Qed.
End walk.

(** * What the trails of [paths_impl] are

    The reverse sweep is the breadth-first search of [explore_impl], so the bound
    it prunes by is exact; the trace therefore holds each simple trail once. *)

From S2P Require Export Explore.

Local Open Scope N_scope.

(** ** The reverse sweep is the breadth-first search *)

Definition sweep_of (st : Exploration) : Sweep_back :=
  {| to_target := node_distances st; back_frontier := frontier st |}.

Lemma back_sight_of hop from st y : back_sight hop (sweep_of st) y = sweep_of (sight hop from st y).
Proof. unfold back_sight, sight. simpl. by destruct (node_distances st !! y). Qed.

Lemma back_cross_of hop from st p : back_cross hop (sweep_of st) p = sweep_of (cross hop from st p).
Proof. unfold back_cross, cross. cbn [foldl ends]. by rewrite <- !(back_sight_of _ from). Qed.

Lemma back_crosses_of hop from es st :
  foldl (back_cross hop) (sweep_of st) es = sweep_of (foldl (cross hop from) st es).
Proof. revert st. induction es as [|p es IH]; intros st; [done|]. cbn [foldl]. by rewrite (back_cross_of _ from). Qed.

Lemma back_loop_of fuel exp max_depth st :
  back_loop fuel exp max_depth (sweep_of st) = sweep_of <$> explore_loop fuel exp max_depth st.
Proof.
  revert st. induction fuel as [|fuel IH]; intros st; cbn -[N.add]; destruct (frontier st) as [|x rest]; try done.
  destruct (node_distances st !! x) as [d|]; [cbn -[N.add]|done].
  change {| to_target := node_distances st; back_frontier := rest |} with (sweep_of (pop_frontier rest st)).
  destruct (_ <? _); [by apply IH|]. destruct (exp x) as [es|]; [cbn [mbind option_bind]|done].
  by rewrite (back_crosses_of _ x), IH.
Qed.

Lemma back_start_of ids : NoDup ids -> back_start ids = sweep_of (explore_start ids).
Proof.
  unfold back_start, explore_start. intros Hnd.
  assert (Hgen : forall l st, NoDup l -> (forall x, x ∈ l -> node_distances st !! x = None) ->
    foldl (fun st id => {| to_target := <[id := 0]> (to_target st); back_frontier := back_frontier st ++ [id] |})
      (sweep_of st) l = sweep_of (foldl start_at st l)).
  { induction l as [|y l IH]; intros st [Hy Hl]%NoDup_cons Hn || intros st _ _; [done|]. cbn [foldl].
    assert (Hst : start_at st y = {| node_distances := <[y := 0]> (node_distances st); parents := parents st;
      frontier := frontier st ++ [y]; reached := reached st |}) by (unfold start_at; by rewrite Hn by set_solver).
    rewrite <- IH; [by rewrite Hst | done|]. rewrite Hst. intros x Hx. simpl.
    rewrite lookup_insert_ne by set_solver. apply Hn. set_solver. }
  apply (Hgen ids {| node_distances := ∅; parents := ∅; frontier := []; reached := ∅ |}); [done|].
  intros x _. apply lookup_empty.
Qed.

(** ** Trails *)

Section trails.
Context (c : Context) (visible : LabelId -> bool).

(** A live, visible edge joins [x] and [y], read in either direction. *)
Definition joins (i : EdgeId) (x y : ConceptId) : Prop := exists e,
  tget (edges c) i = Some e /\ e_count e <> 0 /\ visible (e_label e) = true /\
  ((e_subject e = x /\ e_object e = y) \/ (e_subject e = y /\ e_object e = x)).

(** A simple trail, grown at its far end: no concept twice. *)
Inductive simple_trail : list ConceptId -> list EdgeId -> Prop :=
  | trail_here x : simple_trail [x] []
  | trail_hop ns x y es i : simple_trail (ns ++ [x]) es -> joins i x y -> y ∉ ns ++ [x] ->
      simple_trail ((ns ++ [x]) ++ [y]) (es ++ [i]).

Lemma joins_sym i x y : joins i x y -> joins i y x.
Proof. intros (e & ? & ? & ? & ?). exists e. tauto. Qed.

(** The far end as the code picks it. *)
Lemma joins_far i x y e : tget (edges c) i = Some e -> joins i x y -> y <> x ->
  y = (if e_subject e =? x then e_object e else e_subject e).
Proof.
  intros He (e' & He' & _ & _ & Hor) Hne. rewrite He in He'. injection He' as <-.
  destruct (N.eqb_spec (e_subject e) x); destruct Hor as [[]|[]]; congruence.
Qed.

Lemma simple_trail_edges ns es : simple_trail ns es -> forall i, i ∈ es -> is_Some (tget (edges c) i).
Proof.
  induction 1 as [|ns x y es i Ht IH (e & He & _) Hy]; intros j Hj; [set_solver|].
  apply elem_of_app in Hj as [Hj|Hj%list_elem_of_singleton]; [by apply IH|]. subst. eauto.
Qed.

Lemma simple_trail_head ns es : simple_trail ns es -> exists x ns', ns = x :: ns'.
Proof. induction 1 as [x|ns x y es i _ (z & ns' & ->) _ _]; eauto. Qed.
End trails.

Section meaning.
Context (c : Context) (visible : LabelId -> bool) (distances : gmap ConceptId N) (target_ids : gset ConceptId).
Context (max_depth : N).

Notation admits := (admits c visible distances max_depth).
Notation trace := (trace c visible distances target_ids max_depth).
Notation adj := (adj c).

(** The stacks after admitted hops, at most [S n] of them. *)
Inductive grown : nat -> list ConceptId -> list EdgeId -> list EdgeId -> list ConceptId -> list EdgeId -> Prop :=
  | grown_hit n ns es ids i y : i ∈ ids -> admits ns es i = Some y -> grown n ns es ids (y :: ns) (i :: es)
  | grown_on n ns es ids i y ns' es' : i ∈ ids -> admits ns es i = Some y ->
      grown n (y :: ns) (i :: es) (adj y) ns' es' -> grown (S n) ns es ids ns' es'.

Lemma trace_elem t n ns es ids : t ∈ omap id (trace n ns es ids) <->
  exists y ns' es', grown n ns es ids (y :: ns') es' /\ y ∈ target_ids /\ t = (rev (y :: ns'), rev es').
Proof using.
  rewrite list_elem_of_omap. split.
  - intros (o & Ho & Ht). unfold id in Ht. subst o. revert ns es ids Ho.
    induction n as [|n IH]; intros ns es ids (i & Hi & Ho)%elem_of_flat_map;
      (destruct (admits ns es i) as [y|] eqn:Ha; [|set_solver]);
      (apply elem_of_cons in Ho as [Ho|Ho];
       [destruct (decide (y ∈ target_ids)); [|done]; injection Ho as ->;
        exists y, ns, (i :: es); split; [by eapply grown_hit | done]|]).
    + set_solver.
    + destruct (IH (y :: ns) (i :: es) (adj y) Ho) as (z & ns' & es' & Hg & Hz & ->).
      exists z, ns', es'. split; [by eapply grown_on | done].
  - intros (y & ns' & es' & Hg & Hy & ->). exists (Some (rev (y :: ns'), rev es')). split; [|done].
    remember (y :: ns') as top eqn:Htop. revert y ns' Hy Htop.
    induction Hg as [n ns es ids i y Hi Ha|n ns es ids i y ns1 es1 Hi Ha Hg IH]; intros z ns' Hz Htop.
    + injection Htop as -> ->. destruct n; apply elem_of_flat_map; exists i; (split; [done|]); rewrite Ha;
        (destruct (decide (z ∈ target_ids)); [by left | done]).
    + apply elem_of_flat_map. exists i. split; [done|]. rewrite Ha. right. by apply (IH z ns').
Qed.

(** The first hop of a growth. *)
Lemma grown_first n ns es ids ns' es' : grown n ns es ids ns' es' ->
  exists i y l m, i ∈ ids /\ admits ns es i = Some y /\ es' = l ++ i :: es /\ ns' = m ++ y :: ns.
Proof using.
  induction 1 as [n ns es ids i y Hi Ha|n ns es ids i y ns' es' Hi Ha _ (j & z & l & m & _ & _ & -> & ->)].
  - exists i, y, [], []. auto.
  - exists i, y, (l ++ [j]), (m ++ [z]). rewrite <- !app_assoc. auto.
Qed.

(** ** Each trail once *)

(** No admissible edge is listed twice. *)
Definition adj_once : Prop := forall x ns es, x < lenN (concepts c) ->
  NoDup (filter (fun i => is_Some (admits (x :: ns) es i)) (adj x)).

Lemma trace_hop t n ns es ids : t ∈ omap id (trace n ns es ids) ->
  exists i l, i ∈ ids /\ is_Some (admits ns es i) /\ t.2 = rev (l ++ i :: es).
Proof using.
  intros (y & ns' & es' & Hg & _ & ->)%trace_elem.
  destruct (grown_first _ _ _ _ _ _ Hg) as (i & z & l & m & ? & ? & -> & _). exists i, l. split; [done|]. split; [eauto | done].
Qed.

Lemma trace_origin t n x es ids : t ∈ omap id (trace n [x] es ids) -> head t.1 = Some x.
Proof using.
  intros (y & ns' & es' & Hg & _ & ->)%trace_elem.
  destruct (grown_first _ _ _ _ _ _ Hg) as (i & z & l & m & _ & _ & _ & Hm).
  cbn [fst]. by rewrite Hm, rev_app_distr.
Qed.

Context (Hg : adjacent_ok c) (Honce : adj_once).

Lemma trace_NoDup n : forall x ns es ids, NoDup (filter (fun i => is_Some (admits (x :: ns) es i)) ids) ->
  NoDup (omap id (trace n (x :: ns) es ids)).
Proof using All.
  induction n as [n IH] using lt_wf_ind; intros x ns es ids; induction ids as [|i ids IHids]; intros Hnd;
    [rewrite trace_nil; constructor|]. rewrite trace_cons, omap_app. rewrite filter_cons in Hnd.
  destruct (admits (x :: ns) es i) as [y|] eqn:Ha; [|rewrite decide_False in Hnd by (by intros [? ?]); by apply IHids].
  rewrite decide_True in Hnd by done. apply NoDup_cons in Hnd as [Hni Hnd].
  set (sub := match n with O => [] | S n => trace n (y :: x :: ns) (i :: es) (adj y) end).
  assert (Hsub : NoDup (omap id sub) /\ forall t, t ∈ omap id sub -> exists j l, t.2 = rev ((l ++ [j]) ++ i :: es)).
  { unfold sub. destruct n as [|n]; [split; [constructor | set_solver]|].
    pose proof Ha as (e & _ & He & _ & _ & Hy & _)%admits_inv. split.
    - apply (IH n); [lia|]. apply Honce. eapply (adj_ends _ Hg); [exact He|]. subst y. unfold ends. destruct (_ =? _); set_solver.
    - intros t (j & l & _ & _ & Ht)%trace_hop. exists j, l. by rewrite <- app_assoc. }
  destruct Hsub as [Hnd1 Hsub]. clearbody sub.
  assert (Hrest : forall t l, t ∈ omap id (trace n (x :: ns) es ids) -> t.2 = rev (l ++ i :: es) -> False).
  { intros t l (j & l' & Hj & Hs & Heq)%trace_hop Heq'. rewrite Heq in Heq'. apply rev_inj in Heq'.
    apply app_inj_2 in Heq' as [_ [= ->]]; [|done]. apply Hni. by apply list_elem_of_filter. }
  assert (Hall : NoDup (omap id sub ++ omap id (trace n (x :: ns) es ids))).
  { apply NoDup_app. split; [done|]. split; [|by apply IHids].
    intros t (j & l & Ht)%Hsub Hin. exact (Hrest t (l ++ [j]) Hin Ht). }
  cbn [omap list_omap id]. destruct (decide (y ∈ target_ids)); [|exact Hall]. cbn [app]. constructor; [|exact Hall].
  intros [(j & l & Ht)%Hsub|Hin]%elem_of_app.
  - cbn [snd] in Ht. apply rev_inj, (f_equal length) in Ht. rewrite !length_app in Ht. simpl in Ht. lia.
  - by apply (Hrest _ [] Hin).
Qed.

Lemma origins_NoDup origins : NoDup origins -> (forall o, o ∈ origins -> o < lenN (concepts c)) ->
  NoDup (omap id (origins_trace c visible distances target_ids max_depth origins)).
Proof using All.
  induction origins as [|o origins IH]; intros Hnd Hlt; [constructor|]. apply NoDup_cons in Hnd as [Ho Hnd].
  change (origins_trace c visible distances target_ids max_depth (o :: origins)) with
    (match distances !! o with None => [] | Some _ => trace (room max_depth []) [o] [] (adj o) end ++
     origins_trace c visible distances target_ids max_depth origins).
  rewrite omap_app. apply NoDup_app. split; [|split; [|apply IH; [done | set_solver]]].
  - destruct (distances !! o); [|constructor]. apply trace_NoDup, Honce. set_solver.
  - intros t Ht Hin. destruct (distances !! o); [|set_solver]. apply trace_origin in Ht.
    apply list_elem_of_omap in Hin as (q & (o' & Ho' & Hq)%elem_of_flat_map & Heq).
    destruct (distances !! o'); [|set_solver].
    assert (head t.1 = Some o') by (eapply trace_origin, list_elem_of_omap; eauto). congruence.
Qed.
(** ** Soundness *)

Definition incident (i : EdgeId) (x : ConceptId) : Prop := exists e, tget (edges c) i = Some e /\ x ∈ ends e.

Lemma hop_extends x ns es i y : simple_trail c visible (rev (x :: ns)) (rev es) -> incident i x ->
  admits (x :: ns) es i = Some y -> simple_trail c visible (rev (y :: x :: ns)) (rev (i :: es)).
Proof using.
  clear Hg Honce.
  intros Ht (e' & He' & Hx) (e & r & He & Hc & Hv & Hy & _ & Hon & _)%admits_inv.
  rewrite He in He'. injection He' as <-. cbn [rev] in *. apply trail_hop; [done | |].
  - exists e. split; [done|]. split; [done|]. split; [done|]. subst y. unfold ends in Hx.
    destruct (N.eqb_spec (e_subject e) x); [left | right]; set_solver.
  - intros Hin. apply Hon. rewrite elem_of_app, list_elem_of_singleton in Hin. rewrite elem_of_cons.
    destruct Hin as [Hin|Hin]; [right | by left]. by rewrite list_elem_of_In, in_rev, <- list_elem_of_In.
Qed.

Lemma grown_sound n ns es ids ns' es' : grown n ns es ids ns' es' ->
  (forall x i, x < lenN (concepts c) -> i ∈ adj x -> incident i x) ->
  forall x ns0, ns = x :: ns0 -> (forall i, i ∈ ids -> incident i x) ->
  simple_trail c visible (rev ns) (rev es) ->
  simple_trail c visible (rev ns') (rev es') /\ (length es' <= S n + length es)%nat.
Proof using Hg.
  clear Honce.
  intros Hgr Hadj. induction Hgr as [n ns es ids i y Hi Ha|n ns es ids i y ns' es' Hi Ha _ IH]; intros x ns0 -> Hids Ht.
  - split; [|simpl; lia]. eapply hop_extends; eauto.
  - destruct (IH y (x :: ns0) eq_refl) as [? Hlen]; [| |split; [done | simpl in *; lia]].
    + intros j Hj. apply Hadj; [|done]. pose proof Ha as (e & _ & He & _ & _ & Hy & _)%admits_inv.
      eapply (adj_ends _ Hg); [exact He|]. subst y. unfold ends. destruct (_ =? _); set_solver.
    + eapply hop_extends; eauto.
Qed.

(** ** Completeness *)

Lemma grown_snoc n ns es ids x ns' es' i y : grown n ns es ids (x :: ns') es' -> i ∈ adj x ->
  admits (x :: ns') es' i = Some y -> grown (S n) ns es ids (y :: x :: ns') (i :: es').
Proof using.
  clear Hg Honce.
  intros Hgr Hi Ha. remember (x :: ns') as top eqn:Htop.
  induction Hgr as [n ns es ids j z Hj Hz|n ns es ids j z ns1 es1 Hj Hz Hgr IH].
  - injection Htop as -> ->. eapply grown_on; [exact Hj | exact Hz|]. by apply grown_hit.
  - eapply grown_on; [exact Hj | exact Hz|]. by apply IH.
Qed.

Lemma grown_mono n ns es ids ns' es' : grown n ns es ids ns' es' -> forall m, (n <= m)%nat -> grown m ns es ids ns' es'.
Proof using.
  clear Hg Honce.
  induction 1 as [n ns es ids i y Hi Ha|n ns es ids i y ns' es' Hi Ha _ IH]; intros m Hm.
  - by eapply grown_hit.
  - destruct m as [|m]; [lia|]. eapply grown_on; [done | done |]. apply IH. lia.
Qed.

Lemma simple_trail_length ns es : simple_trail c visible ns es -> length ns = S (length es).
Proof using. clear Hg Honce. induction 1 as [|ns x y es i _ IH _ _]; [done|]. rewrite length_app, IH, length_app. simpl. lia. Qed.

Context (near : N -> ConceptId -> Prop).

(** What pruning by the distances needs: a neighbor of a concept within [r] hops
    of a target is within [r + 1], and such a concept has a distance of at most [r]. *)
Record bound_ok : Prop := {
  near_step : forall i x y r, joins c visible i x y -> near r y -> near (r + 1) x;
  near_bound : forall r x, near r x -> r <= max_depth -> exists k, distances !! x = Some k /\ k <= r
}.

Context (Hb : bound_ok) (Hadj : forall i x y, joins c visible i x y -> i ∈ adj x).

Lemma trail_grown ns es : simple_trail c visible ns es -> forall o x r, head ns = Some o -> last ns = Some x ->
  near r x -> lenN es + r <= max_depth ->
  es = [] \/ grown (pred (length es)) [o] [] (adj o) (rev ns) (rev es).
Proof using Hb Hadj.
  clear Hg Honce.
  induction 1 as [z|ns x y es i Ht IH Hj Hy]; intros o y' r Ho Hl Hr Hle; [by left | right].
  rewrite last_snoc in Hl. injection Hl as <-.
  assert (Ho' : head (ns ++ [x]) = Some o) by (by destruct ns).
  unfold lenN in *. rewrite length_app in Hle. simpl in Hle.
  destruct (near_bound Hb r y Hr ltac:(lia)) as (k & Hk & Hkr).
  assert (Ha : admits (rev (ns ++ [x])) (rev es) i = Some y).
  { pose proof Hj as (e & He & Hc & Hv & _). rewrite rev_app_distr. cbn [rev app].
    assert (Hon : y ∉ x :: rev ns).
    { intros Hin. apply Hy. rewrite elem_of_app, list_elem_of_singleton. apply elem_of_cons in Hin as [|Hin]; [by right | left].
      by rewrite list_elem_of_In, <- (rev_involutive ns), <- in_rev, <- list_elem_of_In. }
    apply (admits_intro _ _ _ _ _ _ _ _ e _ k He Hc Hv); [|done | done |].
    - apply (joins_far c visible i); [done | done | set_solver].
    - unfold lenN. rewrite length_rev. lia. }
  rewrite rev_app_distr, (rev_app_distr es). cbn [rev app]. rewrite length_app, Nat.add_comm. cbn [length Nat.add pred].
  destruct (IH o x (r + 1) Ho') as [->|Hgr].
  - by rewrite last_snoc.
  - by eapply near_step.
  - lia.
  - apply simple_trail_length in Ht. destruct ns as [|? [|? ?]]; simpl in Ht; try lia.
    injection Ho' as ->. apply grown_hit; [by eapply Hadj | exact Ha].
  - destruct es as [|e0 es0]; [by inversion Hgr|]. cbn [length pred] in *. rewrite rev_app_distr in *. cbn [rev app] in *.
    eapply grown_snoc; [exact Hgr | by eapply Hadj | exact Ha].
Qed.
End meaning.
