(* ===== verification/PathsClaims.v ===== *)
(** * What [paths] returns *)

From S2P Require Export PathsThm.
From S2P Require Import Sample.

Local Open Scope N_scope.

(** ** The ranking is a total order *)

Lemma lex_cmp_eq a b : lex_cmp a b = Eq -> a = b.
Proof.
  revert b. induction a as [|x a IH]; intros [|y b]; simpl; try done.
  destruct (N.compare_spec x y); [|done|done]. intros ?%IH. congruence.
Qed.

Lemma lex_cmp_refl a : lex_cmp a a = Eq.
Proof. induction a as [|x a IH]; simpl; [done|]. by rewrite N.compare_refl. Qed.

Lemma lex_cmp_antisym a b : lex_cmp b a = CompOpp (lex_cmp a b).
Proof.
  revert b. induction a as [|x a IH]; intros [|y b]; simpl; try done.
  rewrite (N.compare_antisym x y). destruct (N.compare x y); simpl; [apply IH | done | done].
Qed.

Lemma lex_cmp_trans a b d : lex_cmp a b = Lt -> lex_cmp b d = Lt -> lex_cmp a d = Lt.
Proof.
  revert b d. induction a as [|x a IH]; intros [|y b] [|z d]; simpl; try done.
  destruct (N.compare_spec x y), (N.compare_spec y z), (N.compare_spec x z); subst; try done; try lia. by apply IH.
Qed.

(** [ranked_le] spelled out. *)
Definition keyed_before (a b : Ranked) : Prop :=
  a.1.1.1 < b.1.1.1 \/ (a.1.1.1 = b.1.1.1 /\
  ((total_key b.1.1.2 < total_key a.1.1.2)%Z \/ (total_key a.1.1.2 = total_key b.1.1.2 /\
  (lex_cmp a.1.2 b.1.2 = Lt \/ (a.1.2 = b.1.2 /\ (lex_cmp a.2 b.2 = Lt \/ a.2 = b.2)))))).

Lemma ranked_le_spec a b : ranked_le a b <-> keyed_before a b.
Proof.
  unfold ranked_le, ranked_cmp, keyed_before.
  destruct (N.compare_spec a.1.1.1 b.1.1.1); [|split; [lia | done]|split; [done | lia]].
  destruct (Z.compare_spec (total_key b.1.1.2) (total_key a.1.1.2)); [|split; [lia | done]|split; [done | lia]].
  destruct (lex_cmp a.1.2 b.1.2) eqn:E1.
  - apply lex_cmp_eq in E1. destruct (lex_cmp a.2 b.2) eqn:E2.
    + apply lex_cmp_eq in E2. split; [|done]. intros _. right. split; [done|]. right. split; [done|]. auto.
    + split; [|done]. intros _. right. split; [done|]. right. split; [done|]. auto.
    + split; [done|]. intros [?|[_ [?|[_ [?|[_ [?|E]]]]]]]; try lia; try done. by rewrite E, lex_cmp_refl in E2.
  - split; [|done]. intros _. right. split; [done|]. right. split; [done|]. auto.
  - split; [done|]. intros [?|[_ [?|[_ [?|[E _]]]]]]; try lia; try done. by rewrite E, lex_cmp_refl in E1.
Qed.

#[export] Instance ranked_le_total : Total ranked_le.
Proof.
  intros a b. rewrite !ranked_le_spec. unfold keyed_before.
  destruct (N.lt_total a.1.1.1 b.1.1.1) as [|[Hd|]]; [auto | | auto]. rewrite Hd.
  destruct (Z.lt_total (total_key a.1.1.2) (total_key b.1.1.2)) as [|[Hk|]]; [auto 6 | | auto 6]. rewrite Hk.
  rewrite (lex_cmp_antisym a.1.2 b.1.2), (lex_cmp_antisym a.2 b.2).
  destruct (lex_cmp a.1.2 b.1.2) eqn:E1; [apply lex_cmp_eq in E1; rewrite E1| |]; simpl; [|auto 8|auto 8].
  destruct (lex_cmp a.2 b.2) eqn:E2; [apply lex_cmp_eq in E2; rewrite E2| |]; simpl; auto 12.
Qed.

#[export] Instance ranked_le_trans : Transitive ranked_le.
Proof.
  intros a b d. rewrite !ranked_le_spec. unfold keyed_before.
  intros [?|[-> [?|[-> [H1|[-> H1]]]]]] [?|[E1 [?|[E2 [H2|[E3 H2]]]]]]; try (left; lia);
    right; (split; [lia|]); try (left; lia); right; (split; [lia|]).
  - left. by eapply lex_cmp_trans.
  - left. congruence.
  - by left.
  - right. split; [done|]. destruct H1 as [H1|H1], H2 as [H2|H2]; [left; by eapply lex_cmp_trans | left | left | right]; congruence.
Qed.

(** ** The graph a context is *)

Section answers.
Context `{UnicodeTables} {c : Context} (Hwf : wf c).

Lemma adjacency_spec x : x < lenN (concepts c) -> exists out inc, adjacency c x = Some (out ++ inc) /\
  NoDup out /\ NoDup inc /\
  (forall i, i ∈ out <-> exists e, tget (edges c) i = Some e /\ e_subject e = x) /\
  (forall i, i ∈ inc <-> exists e, tget (edges c) i = Some e /\ e_object e = x).
Proof using Hwf.
  intros Hx. destruct (outgoing_chain Hwf x Hx) as (out & Ho & Hno & Io).
  destruct (incoming_chain Hwf x Hx) as (inc & Hi & Hni & Ii).
  exists out, inc. unfold adjacency. rewrite Ho. cbn [mbind option_bind]. rewrite Hi. do 3 (split; [done|]).
  split; intros i; [rewrite Io | rewrite Ii]; unfold edge_sat; destruct (tget (edges c) i) as [e|];
    rewrite ?N.eqb_eq; naive_solver.
Qed.

Lemma adj_elem x i : x < lenN (concepts c) -> i ∈ adj c x <-> incident c i x.
Proof using Hwf.
  intros Hx. destruct (adjacency_spec x Hx) as (out & inc & Ha & _ & _ & Io & Ii).
  unfold adj, incident, ends. rewrite Ha. simpl. rewrite elem_of_app, Io, Ii.
  setoid_rewrite elem_of_cons. setoid_rewrite list_elem_of_singleton. naive_solver.
Qed.

Lemma context_adjacent : adjacent_ok c.
Proof using Hwf.
  split.
  - intros x Hx. destruct (adjacency_spec x Hx) as (out & inc & Ha & _). eauto.
  - intros x i Hx Hi. apply adj_elem in Hi as (e & He & _); [|done]. by eapply tget_Some_lt.
  - intros i e x He Hx. destruct (wf_edge c i e Hwf He) as (_ & Hs & _ & Ho). unfold ends in Hx. set_solver.
Qed.

Context (excluded : list name) (distances : gmap ConceptId N) (max_depth : N).
Let visible := visible_but c excluded.

(** Only a self-loop is listed twice, and it is never admitted. *)
Lemma context_once : adj_once c visible distances max_depth.
Proof using Hwf.
  intros x ns es Hx. destruct (adjacency_spec x Hx) as (out & inc & Ha & Hno & Hni & Io & Ii).
  unfold adj. rewrite Ha. simpl. rewrite filter_app. apply NoDup_app.
  split; [by apply NoDup_filter|]. split; [|by apply NoDup_filter].
  intros i [[y Hy] (e & He & Hs)%Io]%list_elem_of_filter [_ (e' & He' & Ho)%Ii]%list_elem_of_filter.
  apply admits_inv in Hy as (e'' & r & He'' & _ & _ & Hy & Hne & _).
  rewrite He in He', He''. injection He' as <-. injection He'' as <-.
  rewrite Hs, Ho, N.eqb_refl in Hy. congruence.
Qed.

Lemma joins_adj i x y : joins c visible i x y -> i ∈ adj c x.
Proof using Hwf.
  intros (e & He & _ & _ & Hor). assert (Hx : x ∈ ends e) by (unfold ends; set_solver).
  apply adj_elem; [by eapply (adj_ends _ context_adjacent)|]. by exists e.
Qed.

Lemma joins_usable i x y : joins c visible i x y ->
  exists e, usable_edge c (FullLens c) excluded i e /\ x ∈ ends e /\ y ∈ ends e.
Proof using.
  clear Hwf. intros (e & He & Hc & Hv & Hor). exists e. split; [|unfold ends; set_solver]. split; [done|].
  unfold usable. rewrite He. cbn [mbind option_bind]. rewrite (proj2 (N.eqb_neq _ _) Hc).
  fold visible. by rewrite Hv.
Qed.
End answers.

(** ** The walk finds the answers *)

(** A simple trail of at most [max_depth] hops from an origin to a target. *)
Record answers (c : Context) (excluded : list name) (origins targets : list ConceptId) (max_depth : N)
    (ns : list ConceptId) (es : list EdgeId) : Prop := {
  an_trail : simple_trail c (visible_but c excluded) ns es;
  an_hops : 1 <= lenN es <= max_depth;
  an_origin : exists o, head ns = Some o /\ o ∈ origins;
  an_target : exists t, last ns = Some t /\ t ∈ targets
}.

Section found.
Context `{UnicodeTables} {c : Context} (Hwf : wf c) (fs : list Fact) (Hfs : facts c = Some fs).
Context (excluded : list name) (targets origins : list ConceptId) (max_depth : N).
Context (Htargets : forall x, x ∈ targets -> x < lenN (concepts c)).
Context (Horigins : forall x, x ∈ origins -> x < lenN (concepts c)).
Let visible := visible_but c excluded.
Let G := usable_edge c (FullLens c) excluded.

Context (st : Exploration) (Hst : bfs_done G targets max_depth st).
Context (target_ids : gset ConceptId) (Htids : forall x, x ∈ target_ids <-> x ∈ targets).

Lemma sweep_bounds : bound_ok c visible (node_distances st) max_depth (fun r x => walks G targets r x).
Proof using Hst.
  split.
  - intros i x y r Hj Hw. eapply walk_step; [exact Hw|].
    destruct (joins_usable excluded i x y Hj) as (e & He & Hx & Hy). by exists i, e.
  - intros r x Hw Hle. by apply (done_near _ _ _ _ Hst).
Qed.

Notation found := (omap id (origins_trace c visible (node_distances st) target_ids max_depth origins)).

Lemma origins_trace_elem t : t ∈ found <-> exists o, o ∈ origins /\ is_Some (node_distances st !! o) /\
  t ∈ omap id (trace c visible (node_distances st) target_ids max_depth (room max_depth []) [o] [] (adj c o)).
Proof using.
  split.
  - intros (q & (o & Ho & Hq)%elem_of_flat_map & Ht)%list_elem_of_omap. exists o. split; [done|].
    destruct (node_distances st !! o); [|by apply elem_of_nil in Hq]. split; [eauto|]. apply list_elem_of_omap. eauto.
  - intros (o & Ho & [d Hd] & (q & Hq & Ht)%list_elem_of_omap). apply list_elem_of_omap. exists q. split; [|done].
    apply elem_of_flat_map. exists o. split; [done|]. by rewrite Hd.
Qed.

Lemma found_sound t : max_depth <> 0 -> t ∈ found -> answers c excluded origins targets max_depth t.1 t.2.
Proof using Hwf Horigins Htids.
  intros Hmd (o & Ho & _ & Ht)%origins_trace_elem. pose proof (trace_origin _ _ _ _ _ _ _ _ _ _ Ht) as Hhd.
  apply trace_elem in Ht as (y & ns & es & Hg & Hy & ->).
  destruct (grown_first _ _ _ _ _ _ _ _ _ _ Hg) as (i & z & l & m & _ & _ & Hes & _).
  destruct (grown_sound c visible _ max_depth (context_adjacent Hwf) _ _ _ _ _ _ Hg) with (x := o) (ns0 := @nil ConceptId)
    as [Htr Hlen].
  - intros x j Hx Hj. by apply (adj_elem Hwf).
  - done.
  - intros j Hj. apply (adj_elem Hwf); [by apply Horigins | done].
  - apply trail_here.
  - cbn [fst snd] in *. split; [done | | |].
    + unfold lenN. rewrite length_rev. unfold room in Hlen. simpl in Hlen. subst es. rewrite length_app in *. simpl in *. lia.
    + eauto.
    + exists y. simpl. rewrite last_snoc. split; [done | by apply Htids].
Qed.

Lemma trail_walks ns es : simple_trail c visible ns es -> forall x r, last ns = Some x -> walks G targets r x ->
  forall o, head ns = Some o -> walks G targets (r + lenN es) o.
Proof using Hst.
  induction 1 as [z|ns x y es i Ht IH Hj _]; intros x' r Hl Hw o Ho.
  - simpl in *. injection Hl as <-. injection Ho as <-. by rewrite N.add_0_r.
  - rewrite last_snoc in Hl. injection Hl as <-. rewrite lenN_snoc, (N.add_comm (lenN es)), N.add_assoc.
    apply (IH x); [apply last_snoc | by eapply (near_step _ _ _ _ _ sweep_bounds) | by destruct ns].
Qed.

Lemma found_complete ns es : answers c excluded origins targets max_depth ns es -> (ns, es) ∈ found.
Proof using Hwf Hst Htids.
  intros [Htr Hlen (o & Ho & Hin) (t & Hl & Ht)].
  assert (H0 : walks G targets 0 t) by by constructor.
  assert (Hle : lenN es + 0 <= max_depth) by lia.
  destruct (trail_grown c visible (node_distances st) max_depth _ sweep_bounds
    (fun i x y => joins_adj Hwf excluded i x y) ns es Htr o t 0 Ho Hl H0 Hle) as [->|Hg]; [unfold lenN in Hlen; simpl in Hlen; lia|].
  pose proof (trail_walks ns es Htr t 0 Hl H0 o Ho) as Hw.
  destruct (done_near _ _ _ _ Hst _ o Hw ltac:(lia)) as (k & Hk & _).
  apply origins_trace_elem. exists o. split; [done|]. split; [eauto|].
  apply last_Some in Hl as [l ->]. apply trace_elem. exists t, (rev l), (rev es).
  rewrite rev_app_distr in Hg. cbn [rev app] in *. rewrite !rev_involutive. split; [|split; [by apply Htids | done]].
  eapply grown_mono; [exact Hg|]. unfold room, lenN in *. simpl. lia.
Qed.
End found.

(** ** Origins, ranking and rendering *)

Lemma dedup_ids_spec seen ids : NoDup (dedup_ids seen ids) /\
  forall x, x ∈ dedup_ids seen ids <-> x ∈ ids /\ x ∉ seen.
Proof.
  revert seen. induction ids as [|y ids IH]; intros seen; simpl; [split; [constructor | set_solver]|].
  destruct (decide (y ∈ seen)) as [Hy|Hy].
  - destruct (IH seen) as [Hn Hi]. split; [done|]. intros x. rewrite Hi. set_solver.
  - destruct (IH ({[y]} ∪ seen)) as [Hn Hi]. split; [constructor; [rewrite Hi; set_solver | done]|].
    intros x. rewrite elem_of_cons, Hi. destruct (decide (x = y)); set_solver.
Qed.

Lemma rank_trails c fnd : (forall t, t ∈ fnd -> forall i, i ∈ t.2 -> is_Some (tget (edges c) i)) ->
  exists ranked, mapM (rank_trail c) fnd = Some ranked /\ (fun q : Ranked => (q.1.2, q.2)) <$> ranked = fnd /\
  forall q, q ∈ ranked -> q.1.1.1 = lenN q.2 /\ trail_strength c q.2 = Some q.1.1.2.
Proof.
  intros Hv. induction fnd as [|t fnd IH]; [exists []; split; [done|]; split; [done | set_solver]|].
  destruct IH as (ranked & Hr & Hf & Hq); [set_solver|].
  assert (Hs : exists s, trail_strength c t.2 = Some s).
  { unfold trail_strength.
    assert (Hm : is_Some (mapM (fun id => edge ← tget (edges c) id; Some (abs (e_sum edge))) t.2)).
    { apply mapM_is_Some_2, Forall_forall. intros i Hi. destruct (Hv t ltac:(set_solver) i Hi) as [e He]. unfold compose. rewrite He. eauto. }
    destruct Hm as [links Hm]. rewrite Hm. eauto. }
  destruct Hs as [s Hs]. exists ((lenN t.2, s, t.1, t.2) :: ranked). simpl.
  replace (rank_trail c t) with (Some (lenN t.2, s, t.1, t.2)) by (unfold rank_trail; by rewrite Hs).
  cbn [mbind option_bind]. bind Hr. split; [done|]. split; [cbn; f_equal; [by destruct t | exact Hf]|].
  intros q [->|Hin]%elem_of_cons; [done | by apply Hq].
Qed.

Lemma omap_take_NoDup {A} n (l : list (option A)) : NoDup (omap id l) -> NoDup (omap id (take n l)).
Proof. intros Hn. rewrite <- (take_drop n l), omap_app in Hn. by apply NoDup_app in Hn as [? _]. Qed.

Lemma omap_take_elem {A} n (l : list (option A)) x : x ∈ omap id (take n l) -> x ∈ omap id l.
Proof. intros Hx. rewrite <- (take_drop n l), omap_app. set_solver. Qed.

Lemma omap_length {A} (l : list (option A)) : (length (omap id l) <= length l)%nat.
Proof. induction l as [|[x|] l IH]; csimpl; lia. Qed.

(** What an entry of the ranking says, and the trail it is shown as. *)
Definition ranks (c : Context) (q : Ranked) : Prop := q.1.1.1 = lenN q.2 /\ trail_strength c q.2 = Some q.1.1.2.

Definition shows (c : Context) (q : Ranked) (t : Trail) : Prop :=
  tr_distance t = lenN q.2 /\ mapM (concept_name c) q.1.2 = Some (tr_path t) /\
  trail_strength c q.2 = Some (tr_strength t) /\ mapM (association c) q.2 = Some (tr_associations t).

Section render.
Context `{UnicodeTables} {c : Context} (Hwf : wf c) (visible : LabelId -> bool).

Lemma simple_trail_nodes ns es : simple_trail c visible ns es -> (forall x, head ns = Some x -> x < lenN (concepts c)) ->
  forall x, x ∈ ns -> x < lenN (concepts c).
Proof using Hwf.
  induction 1 as [z|ns x y es i Ht IH (e & He & _ & _ & Hor) _]; intros Hhd w Hw.
  - apply list_elem_of_singleton in Hw as ->. by apply Hhd.
  - apply elem_of_app in Hw as [Hw|Hw%list_elem_of_singleton]; [apply IH; [|done]; intros v Hv; apply Hhd; by destruct ns|].
    subst w. eapply (adj_ends _ (context_adjacent Hwf)); [exact He|]. unfold ends. set_solver.
Qed.

Lemma render_shows q : ranks c q -> simple_trail c visible q.1.2 q.2 ->
  (forall x, head q.1.2 = Some x -> x < lenN (concepts c)) ->
  exists t, render_trail c q = Some t /\ shows c q t.
Proof using Hwf.
  intros [Hd Hs] Ht Hhd. unfold render_trail.
  assert (Hp : is_Some (mapM (concept_name c) q.1.2)).
  { apply mapM_is_Some_2, Forall_forall. intros x Hx. destruct (concept_name_total Hwf x) as [n Hn]; [|eauto].
    by eapply simple_trail_nodes. }
  assert (Ha : is_Some (mapM (association c) q.2)).
  { apply mapM_is_Some_2, Forall_forall. intros i Hi. destruct (simple_trail_edges _ _ _ _ Ht i Hi) as [e He].
    destruct (fact_at_total c i Hwf) as [f Hf]; [by eapply tget_Some_lt|]. exists (fact_association f). by apply association_fact. }
  destruct Hp as [path Hp], Ha as [assocs Ha]. bind Hp. bind Ha. eexists. split; [done|]. done.
Qed.

Lemma render_all qs : (forall q, q ∈ qs -> ranks c q /\ simple_trail c visible q.1.2 q.2 /\
    forall x, head q.1.2 = Some x -> x < lenN (concepts c)) ->
  exists ts, mapM (render_trail c) qs = Some ts /\ Forall2 (shows c) qs ts.
Proof using Hwf.
  intros Hq. induction qs as [|q qs IH]; [by exists []|]. destruct IH as (ts & Hts & H2); [intros; apply Hq; by right|].
  destruct (Hq q ltac:(by left)) as (Hr & Ht & Hhd). destruct (render_shows q Hr Ht Hhd) as (t & Hrt & Hs).
  exists (t :: ts). simpl. bind Hrt. bind Hts. split; [done|]. by constructor.
Qed.
End render.

(** Early exits answer with nothing because there is nothing. *)
Lemma no_answers c excluded origins targets max_depth ns es :
  is_nil (dedup_ids ∅ origins) || bool_decide (list_to_set (C := gset ConceptId) targets = ∅) || (max_depth =? 0) = true ->
  ~ answers c excluded origins targets max_depth ns es.
Proof.
  intros Hex [_ Hlen (o & _ & Ho) (t & _ & Ht)]. rewrite !orb_true_iff in Hex. destruct Hex as [[Hn|Hn]|Hn].
  - destruct (dedup_ids_spec ∅ origins) as [_ Hd]. specialize (Hd o). destruct (dedup_ids ∅ origins); [set_solver | done].
  - apply bool_decide_eq_true in Hn. set_solver.
  - apply N.eqb_eq in Hn. lia.
Qed.

Section paths.
Context `{UnicodeTables} {c : Context} (Hwf : wf c) (fs : list Fact) (Hfs : facts c = Some fs).
Context (iterate : gset ConceptId -> list ConceptId) (Hit : forall s, iterate s ≡ₚ elements s).
Context (excluded origins targets : list name) (max_depth : N).

Let visible := visible_but c excluded.
Let oids := origin_ids c origins.
Let tids := origin_ids c targets.
Let answer := answers c excluded oids tids max_depth.

Lemma origin_ids_lt l x : x ∈ origin_ids c l -> x < lenN (concepts c).
Proof using Hwf. unfold origin_ids. rewrite list_elem_of_omap. intros (s & _ & Hs). by eapply concept_id_lt. Qed.

Lemma answer_bounds ns es : answer ns es -> forall x, head ns = Some x -> x < lenN (concepts c).
Proof using Hwf. intros [_ _ (o & Ho & Hin) _] x Hx. rewrite Ho in Hx. injection Hx as <-. by eapply origin_ids_lt. Qed.

(** The sweep and the walk together. *)
Lemma walk_answers : max_depth <> 0 -> exists back capped fnd,
  back_loop (length (concepts c)) (expand (FullLens c) visible c) max_depth
    (back_start (iterate (list_to_set tids))) = Some back /\
  walk_origins c visible (to_target back) (list_to_set tids) max_depth (dedup_ids ∅ oids) [] PATHS_EXPANSION_BUDGET =
    Some (capped, fnd) /\
  NoDup fnd /\ lenN fnd <= PATHS_EXPANSION_BUDGET /\ (forall t, t ∈ fnd -> answer t.1 t.2) /\
  (capped = false -> forall ns es, answer ns es -> (ns, es) ∈ fnd).
Proof using Hwf Hfs Hit.
  intros Hmd. set (roots := iterate (list_to_set tids)).
  assert (Hroots : forall x, x ∈ roots <-> x ∈ tids).
  { intros x. unfold roots. rewrite Hit, elem_of_elements. by rewrite elem_of_list_to_set. }
  assert (Hnd : NoDup roots) by (unfold roots; rewrite Hit; apply NoDup_elements).
  destruct (bfs_correct (lenN (concepts c)) (usable_edge c (FullLens c) excluded) (expand (FullLens c) visible c) roots
    max_depth (expand_graph Hwf fs Hfs (FullLens c) (fun f => Some (fact_association f)) excluded roots
      (fun x Hx => origin_ids_lt targets x (proj1 (Hroots x) Hx))) (length (concepts c))) as (st & Hrun & Hst);
    [unfold lenN; lia|].
  destruct (dedup_ids_spec ∅ oids) as [Hdn Hdi].
  assert (Ho : forall x, x ∈ dedup_ids ∅ oids -> x < lenN (concepts c)).
  { intros x [Hx _]%Hdi. by eapply origin_ids_lt. }
  assert (Htids : forall x, x ∈ (list_to_set tids : gset ConceptId) <-> x ∈ roots).
  { intros x. by rewrite elem_of_list_to_set, Hroots. }
  assert (Hans : forall ns es, answers c excluded (dedup_ids ∅ oids) roots max_depth ns es <-> answer ns es).
  { intros ns es. split; intros [? ? (o & ? & Hin) (t & ? & Hint)]; (split; [done | done | exists o | exists t]);
      (split; [done|]); try (by apply Hroots); apply Hdi in Hin || apply Hdi; set_solver. }
  exists (sweep_of st). rewrite (back_start_of roots Hnd), back_loop_of, Hrun.
  rewrite (walk_origins_spec _ _ _ _ _ (context_adjacent Hwf) _ _ _ Ho). cbn [sweep_of to_target app].
  eexists _, _. split; [done|]. split; [done|]. split; [|split; [|split]].
  - apply omap_take_NoDup, origins_NoDup; [by apply context_adjacent | by apply context_once | done | done].
  - unfold lenN. pose proof (omap_length (take (N.to_nat PATHS_EXPANSION_BUDGET) (origins_trace c visible
      (node_distances st) (list_to_set tids) max_depth (dedup_ids ∅ oids)))) as Hl. rewrite length_take in Hl. lia.
  - intros t Ht%omap_take_elem. apply Hans.
    by eapply (found_sound Hwf excluded roots (dedup_ids ∅ oids) max_depth Ho st (list_to_set tids)).
  - intros Hcap ns es Ha%Hans. apply bool_decide_eq_false in Hcap. rewrite take_ge by lia.
    by eapply (found_complete Hwf excluded roots (dedup_ids ∅ oids) max_depth st Hst (list_to_set tids)).
Qed.
End paths.

(** C14. [paths] answers with the simple trails it promises.  For a positive limit
    it always returns; its ranking lists, each once, trails of live, visible
    associations read in either direction, from a resolved origin to a resolved
    target, visiting no concept twice, of at least one and at most [max_depth]
    hops; when it is not capped, all of them.  They are ordered by hops, then
    weakest link descending, then ids (a total order, so the ranking does not
    depend on how the target set is iterated); [total] counts them before the
    limit, never more than the budget, and the first [limit] are shown with their
    names, their weakest link and their associations. *)
Theorem paths_ranks `{UnicodeTables} iterate origins targets max_depth limit excluded c fs
    (Hwf : wf c) (Hfs : facts c = Some fs) (Hit : forall s, iterate s ≡ₚ elements s) (Hlimit : limit <> 0%nat) :
  exists r ranked, paths_excluding iterate origins targets max_depth limit excluded c = Some r /\
    let answer := answers c excluded (origin_ids c origins) (origin_ids c targets) max_depth in
    NoDup ((fun q : Ranked => (q.1.2, q.2)) <$> ranked) /\ StronglySorted ranked_le ranked /\
    (forall q, q ∈ ranked -> answer q.1.2 q.2 /\ ranks c q) /\
    (pr_capped r = false -> forall ns es, answer ns es -> exists q, q ∈ ranked /\ q.1.2 = ns /\ q.2 = es) /\
    pr_total r = lenN ranked /\ pr_total r <= PATHS_EXPANSION_BUDGET /\
    Forall2 (shows c) (take limit ranked) (pr_trails r).
Proof.
  unfold paths_excluding, paths_impl. rewrite (proj2 (Nat.eqb_neq limit 0) Hlimit), orb_false_r.
  destruct (is_nil _ || _ || _) eqn:Hex.
  { eexists _, []. split; [done|]. split; [apply NoDup_nil_2|]. split; [constructor|]. split; [intros q Hq; by apply elem_of_nil in Hq|].
    split; [|split; [done|]; split; [done|]; rewrite take_nil; constructor].
    intros _ ns es Ha. by apply (no_answers c excluded (origin_ids c origins) (origin_ids c targets) max_depth ns es) in Hex. }
  assert (Hmd : max_depth <> 0) by (intros ->; by rewrite orb_true_r in Hex). clear Hex.
  destruct (walk_answers Hwf fs Hfs iterate Hit excluded origins targets max_depth Hmd)
    as (back & capped & fnd & Hback & Hwalk & Hnd & Hlen & Hsound & Hcomplete).
  rewrite Hback. cbn [mbind option_bind]. rewrite Hwalk. cbn [mbind option_bind].
  destruct (rank_trails c fnd) as (ranked & Hranked & Hfnd & Hranks).
  { intros t Ht i Hi. by eapply (simple_trail_edges _ _ _ _ (an_trail _ _ _ _ _ _ _ (Hsound t Ht))). }
  rewrite Hranked. cbn [mbind option_bind].
  pose proof (merge_sort_Permutation ranked_le ranked) as Hperm. set (sorted := merge_sort ranked_le ranked) in *.
  assert (Hin : forall q, q ∈ sorted -> (q.1.2, q.2) ∈ fnd /\ ranks c q).
  { intros q Hq. rewrite Hperm in Hq. split; [|by apply Hranks]. rewrite <- Hfnd. by apply (list_elem_of_fmap_2 (fun q : Ranked => (q.1.2, q.2))). }
  destruct (render_all Hwf (visible_but c excluded) (take limit sorted)) as (ts & Hts & Hshow).
  { intros q Hq. apply elem_of_take in Hq as (j & Hj & _). apply list_elem_of_lookup_2, Hin in Hj as [Hf Hr].
    apply Hsound in Hf. split; [done|]. split; [apply Hf | by eapply answer_bounds]. }
  rewrite Hts. cbn [mbind option_bind]. eexists _, sorted. split; [done|]. cbn [pr_total pr_capped pr_trails].
  assert (Hcount : lenN sorted = lenN fnd) by (unfold lenN; by rewrite Hperm, <- Hfnd, length_fmap).
  split; [by rewrite Hperm, Hfnd|]. split; [apply StronglySorted_merge_sort; apply _|]. split; [|split; [|split; [done|split; [by rewrite Hcount | done]]]].
  - intros q [Hf Hr]%Hin. split; [by apply Hsound in Hf | done].
  - intros Hc ns es Ha. apply Hcomplete in Ha; [|done]. rewrite <- Hfnd in Ha.
    apply list_elem_of_fmap in Ha as (q & [= -> ->] & Hq). exists q. by rewrite Hperm.
Qed.

Definition sample_paths : PathsResult := Eval vm_compute in
  default {| pr_total := 0; pr_capped := true; pr_trails := [] |}
    (paths_excluding elements [str "mouse"] [str "cheese"] 2 5 [] sample).

Lemma paths_ranks_witness : exists r,
  paths_excluding elements [str "mouse"] [str "cheese"] 2 5 [] sample = Some r /\ pr_capped r = false /\
  tr_path <$> pr_trails r = [[str "mouse"; str "cheese"]; [str "mouse"; str "cat"; str "cheese"]] /\
  Forall (fun t => tr_distance t <= 2) (pr_trails r).
Proof.
  destruct (@paths_ranks ascii_tables elements [str "mouse"] [str "cheese"] 2 5 [] sample sample_facts
    sample_wf sample_facts_eq ltac:(done) ltac:(done)) as (r & ranked & Hr & _ & _ & _ & _ & _ & _ & H2).
  assert (E : paths_excluding elements [str "mouse"] [str "cheese"] 2 5 [] sample = Some sample_paths)
    by (vm_compute; reflexivity).
  rewrite E in Hr. apply (f_equal (default sample_paths)) in Hr. change (sample_paths = r) in Hr. subst r.
  exists sample_paths. split; [exact E|]. split; [reflexivity|]. split; [reflexivity|].
  repeat constructor; discriminate.
Defined.
