(* ===== verification/Image.v ===== *)
(** * The persistent image: codec ([src/context/image.rs])

    One contiguous byte image: a header, eight tables of fixed-width records and
    the string arena, closed by a CRC-32C footer.  This file is the byte level:
    the bounds-checked reader, the records and the tables, current and legacy, and their
    round trips.
    [ImageIndex] rebuilds and validates, [Restore] is [from_bytes]. *)

From S2P Require Export Alias Crc32c.

Local Open Scope N_scope.

(** [CorruptImage(&'static str)]. *)
Inductive CorruptImage := corrupt (reason : string).
Arguments corrupt reason%_string_scope.

Abbreviation checked A := (result A CorruptImage).

(** ** The reader *)

Record Reader := { rd_bytes : bytes; rd_pos : N }.

Definition usize_checked_add (a b : N) : option N := checked_add USIZE_MAX a b.

(** [Reader::take]: [bytes.get(pos..end)]. *)
Definition take_bytes (len : N) (reader : Reader) : checked (bytes * Reader) :=
  fin ←? ok_or (usize_checked_add (rd_pos reader) len) (corrupt "section length overflows");
  if fin <=? lenN (rd_bytes reader) then
    Ok (slice (rd_bytes reader) (rd_pos reader) fin, {| rd_bytes := rd_bytes reader; rd_pos := fin |})
  else Err (corrupt "image ends mid-section").

Definition read_u32 (reader : Reader) : checked (N * Reader) :=
  '(bs, reader) ←? take_bytes 4 reader; Ok (from_le bs, reader).
Definition read_u64 (reader : Reader) : checked (N * Reader) :=
  '(bs, reader) ←? take_bytes 8 reader; Ok (from_le bs, reader).
Definition read_f64 (reader : Reader) : checked (f64 * Reader) :=
  '(bs, reader) ←? take_bytes 8 reader; Ok (f64_from_bits (from_le bs), reader).

(** [self.bytes.len() - self.pos]; [pos] never passes the end. *)
Definition remaining (reader : Reader) : N := lenN (rd_bytes reader) - rd_pos reader.

Definition f64_to_le (x : f64) : bytes := u64_to_le (f64_to_bits x).

(** ** Records *)

Class ImageRecord (A : Type) := {
  SIZE : N;
  store : A -> bytes;
  load : Reader -> checked (A * Reader)
}.
Arguments SIZE A {_}.

Definition store_u32s (fields : list N) : bytes := mjoin (u32_to_le <$> fields).

#[export] Instance ConceptRecord_image : ImageRecord ConceptRecord := {
  SIZE := 32;
  store r := store_u32s [c_name_offset r; c_name_len r; c_first_outgoing r; c_last_outgoing r;
    c_outgoing_count r; c_first_incoming r; c_last_incoming r; c_incoming_count r];
  load reader :=
    '(a, reader) ←? read_u32 reader; '(b, reader) ←? read_u32 reader;
    '(c, reader) ←? read_u32 reader; '(d, reader) ←? read_u32 reader;
    '(e, reader) ←? read_u32 reader; '(f, reader) ←? read_u32 reader;
    '(g, reader) ←? read_u32 reader; '(h, reader) ←? read_u32 reader;
    Ok ({| c_name_offset := a; c_name_len := b; c_first_outgoing := c; c_last_outgoing := d;
           c_outgoing_count := e; c_first_incoming := f; c_last_incoming := g; c_incoming_count := h |}, reader)
}.

#[export] Instance LabelRecord_image : ImageRecord LabelRecord := {
  SIZE := 20;
  store r := store_u32s [l_name_offset r; l_name_len r; l_first_edge r; l_last_edge r; l_edge_count r];
  load reader :=
    '(a, reader) ←? read_u32 reader; '(b, reader) ←? read_u32 reader;
    '(c, reader) ←? read_u32 reader; '(d, reader) ←? read_u32 reader;
    '(e, reader) ←? read_u32 reader;
    Ok ({| l_name_offset := a; l_name_len := b; l_first_edge := c; l_last_edge := d; l_edge_count := e |}, reader)
}.

#[export] Instance SourceRecord_image : ImageRecord SourceRecord := {
  SIZE := 8;
  store r := u32_to_le (s_name_offset r) ++ u32_to_le (s_name_len r);
  load reader :=
    '(a, reader) ←? read_u32 reader; '(b, reader) ←? read_u32 reader;
    Ok ({| s_name_offset := a; s_name_len := b |}, reader)
}.

#[export] Instance AliasRecord_image : ImageRecord AliasRecord := {
  SIZE := 12;
  store r := u32_to_le (a_name_offset r) ++ u32_to_le (a_name_len r) ++ u32_to_le (a_target r);
  load reader :=
    '(a, reader) ←? read_u32 reader; '(b, reader) ←? read_u32 reader; '(c, reader) ←? read_u32 reader;
    Ok ({| a_name_offset := a; a_name_len := b; a_target := c |}, reader)
}.

#[export] Instance EdgeRecord_image : ImageRecord EdgeRecord := {
  SIZE := 48;
  store r := store_u32s [e_subject r; e_label r; e_object r; e_next_outgoing r; e_next_incoming r;
      e_next_labeled r; e_first_attribution r; e_last_attribution r] ++
    u64_to_le (e_count r) ++ f64_to_le (e_sum r);
  load reader :=
    '(a, reader) ←? read_u32 reader; '(b, reader) ←? read_u32 reader;
    '(c, reader) ←? read_u32 reader; '(d, reader) ←? read_u32 reader;
    '(e, reader) ←? read_u32 reader; '(f, reader) ←? read_u32 reader;
    '(g, reader) ←? read_u32 reader; '(h, reader) ←? read_u32 reader;
    '(count, reader) ←? read_u64 reader; '(sum, reader) ←? read_f64 reader;
    Ok ({| e_subject := a; e_label := b; e_object := c; e_next_outgoing := d; e_next_incoming := e;
           e_next_labeled := f; e_first_attribution := g; e_last_attribution := h;
           e_count := count; e_sum := sum |}, reader)
}.

#[export] Instance AttributionRecord_image : ImageRecord AttributionRecord := {
  SIZE := 24;
  store r := u32_to_le (t_source r) ++ u32_to_le (t_next r) ++ u64_to_le (t_count r) ++ f64_to_le (t_sum r);
  load reader :=
    '(a, reader) ←? read_u32 reader; '(b, reader) ←? read_u32 reader;
    '(count, reader) ←? read_u64 reader; '(sum, reader) ←? read_f64 reader;
    Ok ({| t_source := a; t_next := b; t_count := count; t_sum := sum |}, reader)
}.

#[export] Instance AttributionLocatorRecord_image : ImageRecord AttributionLocatorRecord := {
  SIZE := 8;
  store r := u32_to_le (k_attribution r) ++ u32_to_le (k_paragraph r);
  load reader :=
    '(a, reader) ←? read_u32 reader; '(b, reader) ←? read_u32 reader;
    Ok ({| k_attribution := a; k_paragraph := b |}, reader)
}.

(** The shapes before version 5: one cumulative weight, no count. *)
Record LegacyEdgeRecord := {
  ge_subject : ConceptId; ge_label : LabelId; ge_object : ConceptId;
  ge_next_outgoing : EdgeId; ge_next_incoming : EdgeId; ge_next_labeled : EdgeId;
  ge_first_attribution : AttributionId; ge_last_attribution : AttributionId;
  ge_weight : f64
}.

#[export] Instance LegacyEdgeRecord_image : ImageRecord LegacyEdgeRecord := {
  SIZE := 40;
  store r := store_u32s [ge_subject r; ge_label r; ge_object r; ge_next_outgoing r; ge_next_incoming r;
      ge_next_labeled r; ge_first_attribution r; ge_last_attribution r] ++ f64_to_le (ge_weight r);
  load reader :=
    '(a, reader) ←? read_u32 reader; '(b, reader) ←? read_u32 reader;
    '(c, reader) ←? read_u32 reader; '(d, reader) ←? read_u32 reader;
    '(e, reader) ←? read_u32 reader; '(f, reader) ←? read_u32 reader;
    '(g, reader) ←? read_u32 reader; '(h, reader) ←? read_u32 reader;
    '(weight, reader) ←? read_f64 reader;
    Ok ({| ge_subject := a; ge_label := b; ge_object := c; ge_next_outgoing := d; ge_next_incoming := e;
           ge_next_labeled := f; ge_first_attribution := g; ge_last_attribution := h; ge_weight := weight |}, reader)
}.

Record LegacyAttributionRecord := { gt_source : SourceId; gt_next : AttributionId; gt_weight : f64 }.

#[export] Instance LegacyAttributionRecord_image : ImageRecord LegacyAttributionRecord := {
  SIZE := 16;
  store r := u32_to_le (gt_source r) ++ u32_to_le (gt_next r) ++ f64_to_le (gt_weight r);
  load reader :=
    '(a, reader) ←? read_u32 reader; '(b, reader) ←? read_u32 reader; '(weight, reader) ←? read_f64 reader;
    Ok ({| gt_source := a; gt_next := b; gt_weight := weight |}, reader)
}.

(** ** Tables *)

Definition store_table {A} `{ImageRecord A} (records : list A) : bytes :=
  u64_to_le (lenN records) ++ mjoin (store <$> records).

Fixpoint load_records {A} `{ImageRecord A} (count : nat) (reader : Reader) : checked (list A * Reader) :=
  match count with
  | O => Ok ([], reader)
  | S count =>
    '(record, reader) ←? load reader;
    '(records, reader) ←? load_records count reader;
    Ok (record :: records, reader)
  end.

(** The record count is bounded by the id space and by the bytes present before
    anything is allocated. *)
Definition load_table (A : Type) `{ImageRecord A} (reader : Reader) : checked (list A * Reader) :=
  '(count, reader) ←? read_u64 reader;
  if NIL <? count then Err (corrupt "table exceeds the u32 id space")
  else if USIZE_MAX <? count * SIZE A then Err (corrupt "table byte size overflows")
  else if remaining reader <? count * SIZE A then Err (corrupt "table is truncated")
  else load_records (N.to_nat count) reader.

(** ** The image *)

Definition IMAGE_MAGIC : bytes := str "TAGURUC" ++ ["000"%byte].
Definition IMAGE_VERSION : N := 6.
Definition IMAGE_FOOTER_SIZE : N := 4.

Definition image_body (version : N) (c : Context) : bytes :=
  IMAGE_MAGIC ++ u32_to_le version ++ replicate 4 "000"%byte ++ u64_to_le (applied_seq c) ++
  store_table (edges c) ++ store_table (attributions c) ++ store_table (concepts c) ++
  store_table (labels c) ++ store_table (sources c) ++ store_table (concept_aliases c) ++
  store_table (label_aliases c) ++ store_table (attribution_locators c) ++
  u64_to_le (lenN (arena c)) ++ arena c.

Definition to_bytes (c : Context) : bytes :=
  let image := image_body IMAGE_VERSION c in
  image ++ u32_to_le (crc32c image).

(** [image_generation]: the stamped version, and whether it carries a footer. *)
Definition image_generation (image : bytes) : option (N * bool) :=
  if lenN IMAGE_MAGIC + 4 <=? lenN image then
    let version := slice image (lenN IMAGE_MAGIC) (lenN IMAGE_MAGIC + 4) in
    if bool_decide (IMAGE_MAGIC `prefix_of` image) then
      let version := from_le version in Some (version, 6 <=? version)
    else None
  else None.

(** * The image codec round trips

    [loads m bs a]: from the start of [bs] the reader action [m] returns [a] and
    leaves exactly what follows.  [yields m P]: whatever [m] returns satisfies
    [P], on any bytes.  Every record and table has both laws. *)

(** ** Readers *)

(** [rest] is what the reader has not read yet. *)
Record left_to (rd : Reader) (rest : bytes) : Prop := {
  lt_split : exists pre, rd_bytes rd = pre ++ rest /\ rd_pos rd = lenN pre;
  lt_bound : lenN (rd_bytes rd) <= USIZE_MAX
}.

Definition loads {A} (m : Reader -> checked (A * Reader)) (bs : bytes) (a : A) : Prop :=
  forall rd rest, left_to rd (bs ++ rest) ->
    exists rd', m rd = Ok (a, rd') /\ left_to rd' rest /\ rd_bytes rd' = rd_bytes rd.

Definition yields {A} (m : Reader -> checked (A * Reader)) (P : A -> Prop) : Prop :=
  forall rd a rd', m rd = Ok (a, rd') -> P a.

Lemma loads_ret {A} (a : A) : loads (fun rd => Ok (a, rd)) [] a.
Proof. intros rd rest Hl. by exists rd. Qed.

Lemma loads_bind {A B} (m : Reader -> checked (A * Reader)) (k : A -> Reader -> checked (B * Reader)) xs ys a b :
  loads m xs a -> loads (k a) ys b -> loads (fun rd => '(x, rd) ←? m rd; k x rd) (xs ++ ys) b.
Proof.
  intros Hm Hk rd rest. rewrite <- app_assoc. intros (rd1 & -> & H1 & <-)%Hm. simpl. by apply Hk.
Qed.

Lemma yields_ret {A} (a : A) (P : A -> Prop) : P a -> yields (fun rd => Ok (a, rd)) P.
Proof. intros HP rd b rd' [= <- _]. done. Qed.

Lemma yields_bind {A B} (m : Reader -> checked (A * Reader)) (k : A -> Reader -> checked (B * Reader)) P Q :
  yields m P -> (forall a, P a -> yields (k a) Q) -> yields (fun rd => '(x, rd) ←? m rd; k x rd) Q.
Proof.
  intros Hm Hk rd b rd'. destruct (m rd) as [[a rd1]|e] eqn:E; simpl; [|done].
  apply (Hk a). by eapply Hm.
Qed.

(** The bytes a reader runs over do not change. *)
Definition keeps {A} (m : Reader -> checked (A * Reader)) : Prop :=
  forall rd a rd', m rd = Ok (a, rd') -> rd_bytes rd' = rd_bytes rd.

Lemma keeps_ret {A} (a : A) : keeps (fun rd => Ok (a, rd)).
Proof. by intros rd b rd' [= _ <-]. Qed.

Lemma keeps_bind {A B} (m : Reader -> checked (A * Reader)) (k : A -> Reader -> checked (B * Reader)) :
  keeps m -> (forall a, keeps (k a)) -> keeps (fun rd => '(x, rd) ←? m rd; k x rd).
Proof.
  intros Hm Hk rd b rd'. destruct (m rd) as [[a rd1]|e] eqn:E; simpl; [|done].
  intros H%Hk. rewrite H. by eapply Hm.
Qed.

Lemma slice_middle (xs ys zs : bytes) : slice (xs ++ ys ++ zs) (lenN xs) (lenN xs + lenN ys) = ys.
Proof.
  rewrite app_assoc, <- lenN_app, slice_app_l by reflexivity. apply slice_snoc.
Qed.

Lemma take_bytes_loads n bs : lenN bs = n -> loads (take_bytes n) bs bs.
Proof.
  intros <- [all pos] rest [(pre & Hall & Hpos) Hb]. simpl in *. subst all pos. rewrite !lenN_app in Hb.
  unfold take_bytes, usize_checked_add, checked_add. simpl.
  destruct (N.leb_spec (lenN pre + lenN bs) USIZE_MAX); [|lia]. simpl.
  rewrite !lenN_app. destruct (N.leb_spec (lenN pre + lenN bs) (lenN pre + (lenN bs + lenN rest))); [|lia].
  rewrite slice_middle. eexists. split; [done|]. split; [|done]. split; simpl; [|rewrite !lenN_app; lia].
  exists (pre ++ bs). by rewrite <- app_assoc, lenN_app.
Qed.

Lemma take_bytes_yields n : yields (take_bytes n) (fun bs => lenN bs = n).
Proof.
  intros [all pos] bs rd'. unfold take_bytes, usize_checked_add, checked_add. simpl.
  destruct (_ <=? USIZE_MAX); simpl; [|done]. destruct (N.leb_spec (pos + n) (lenN all)); [|done].
  intros [= <- _]. unfold slice. destruct (N.leb_spec pos (pos + n)); [|lia].
  destruct (N.leb_spec (pos + n) (lenN all)); [|lia]. simpl. unfold lenN in *. rewrite length_take, length_drop. lia.
Qed.

Lemma take_bytes_keeps n : keeps (take_bytes n).
Proof.
  intros rd bs rd'. unfold take_bytes. destruct (usize_checked_add _ _); simpl; [|done].
  destruct (_ <=? _); [|done]. by intros [= _ <-].
Qed.

Lemma lenN_to_le k x : lenN (to_le k x) = N.of_nat k.
Proof. unfold lenN. by rewrite length_to_le. Qed.

Lemma lenN_u32 x : lenN (u32_to_le x) = 4.
Proof. apply lenN_to_le. Qed.
Lemma lenN_u64 x : lenN (u64_to_le x) = 8.
Proof. apply lenN_to_le. Qed.
Lemma lenN_f64 x : lenN (f64_to_le x) = 8.
Proof. apply lenN_to_le. Qed.

Lemma read_u32_loads x : x <= U32_MAX -> loads read_u32 (u32_to_le x) x.
Proof.
  intros Hx. rewrite <- (app_nil_r (u32_to_le x)). eapply loads_bind; [by apply take_bytes_loads, lenN_to_le|].
  rewrite from_to_le_u32 by done. apply loads_ret.
Qed.

Lemma read_u64_loads x : x <= U64_MAX -> loads read_u64 (u64_to_le x) x.
Proof.
  intros Hx. rewrite <- (app_nil_r (u64_to_le x)). eapply loads_bind; [by apply take_bytes_loads, lenN_to_le|].
  rewrite from_to_le_u64 by done. apply loads_ret.
Qed.

Lemma read_f64_loads x : loads read_f64 (f64_to_le x) x.
Proof.
  rewrite <- (app_nil_r (f64_to_le x)). eapply loads_bind; [by apply take_bytes_loads, lenN_to_le|].
  unfold f64_to_le. rewrite from_to_le_u64 by apply f64_to_bits_bound. rewrite f64_from_to_bits. apply loads_ret.
Qed.

Lemma read_u32_yields : yields read_u32 (fun x => x <= U32_MAX).
Proof.
  eapply yields_bind; [apply take_bytes_yields|]. intros bs Hl. apply yields_ret.
  pose proof (from_le_bound bs) as Hb. rewrite Hl in Hb. unfold U32_MAX. change (256 ^ 4) with 4294967296 in Hb. lia.
Qed.

Lemma read_u64_yields : yields read_u64 (fun x => x <= U64_MAX).
Proof.
  eapply yields_bind; [apply take_bytes_yields|]. intros bs Hl. apply yields_ret.
  pose proof (from_le_bound bs) as Hb. rewrite Hl in Hb. unfold U64_MAX. change (256 ^ 8) with 18446744073709551616 in Hb. lia.
Qed.

Lemma read_f64_yields : yields read_f64 (fun _ => True).
Proof. by intros ? ? ? _. Qed.

Lemma read_u32_keeps : keeps read_u32.
Proof. apply keeps_bind; [apply take_bytes_keeps | intros; apply keeps_ret]. Qed.
Lemma read_u64_keeps : keeps read_u64.
Proof. apply keeps_bind; [apply take_bytes_keeps | intros; apply keeps_ret]. Qed.
Lemma read_f64_keeps : keeps read_f64.
Proof. apply keeps_bind; [apply take_bytes_keeps | intros; apply keeps_ret]. Qed.

Create HintDb image.
#[export] Hint Resolve read_u32_loads read_u64_loads read_f64_loads read_u32_yields read_u64_yields read_f64_yields
  take_bytes_keeps read_u32_keeps read_u64_keeps read_f64_keeps : image.

#[local] Opaque u32_to_le u64_to_le f64_to_le.

(** ** Records *)

(** A fixed-width record whose fields fit their widths round trips, and whatever
    is loaded fits. *)
Class ImageCodec (A : Type) `{ImageRecord A} (fits : A -> Prop) := {
  store_length : forall r, lenN (store r) = SIZE A;
  store_loads : forall r, fits r -> loads load (store r) r;
  load_yields : yields load fits;
  load_keeps : keeps load
}.

Definition fits_u32 (l : list N) : Prop := Forall (fun x => x <= U32_MAX) l.

Definition concept_fits (r : ConceptRecord) : Prop :=
  fits_u32 [c_name_offset r; c_name_len r; c_first_outgoing r; c_last_outgoing r; c_outgoing_count r;
    c_first_incoming r; c_last_incoming r; c_incoming_count r].
Definition label_fits (r : LabelRecord) : Prop :=
  fits_u32 [l_name_offset r; l_name_len r; l_first_edge r; l_last_edge r; l_edge_count r].
Definition source_fits (r : SourceRecord) : Prop := fits_u32 [s_name_offset r; s_name_len r].
Definition alias_fits (r : AliasRecord) : Prop := fits_u32 [a_name_offset r; a_name_len r; a_target r].
Definition edge_fits (r : EdgeRecord) : Prop :=
  fits_u32 [e_subject r; e_label r; e_object r; e_next_outgoing r; e_next_incoming r; e_next_labeled r;
    e_first_attribution r; e_last_attribution r] /\ e_count r <= U64_MAX.
Definition locator_fits (r : AttributionLocatorRecord) : Prop := fits_u32 [k_attribution r; k_paragraph r].
Definition legacy_edge_fits (r : LegacyEdgeRecord) : Prop :=
  fits_u32 [ge_subject r; ge_label r; ge_object r; ge_next_outgoing r; ge_next_incoming r; ge_next_labeled r;
    ge_first_attribution r; ge_last_attribution r].
Definition legacy_attribution_fits (r : LegacyAttributionRecord) : Prop := fits_u32 [gt_source r; gt_next r].

(** One field after another. *)
Ltac split_fits :=
  unfold fits_u32 in *;
  repeat match goal with
  | H : Forall _ (_ :: _) |- _ => apply Forall_cons in H as [? H]
  | H : Forall _ [] |- _ => clear H
  | H : _ /\ _ |- _ => destruct H
  end.

Ltac load_fields :=
  unfold store_u32s; cbn [fmap list_fmap mjoin list_join]; rewrite ?app_nil_r, <- ?app_assoc;
  repeat first
    [ eapply loads_bind; [solve [eauto with image]|]
    | match goal with |- loads _ ?bs _ => rewrite <- (app_nil_r bs) end; eapply loads_bind; [solve [eauto with image]|]
    | apply loads_ret ].

Ltac yield_fields :=
  repeat first
    [ eapply yields_bind; [solve [eauto with image]|]; cbv beta; intros ? ?
    | apply yields_ret ]; simpl; repeat (constructor; try done).

Ltac image_codec :=
  split;
  [ intros []; unfold SIZE, store; simpl; unfold store_u32s; cbn [fmap list_fmap mjoin list_join];
    rewrite ?lenN_app, ?lenN_u32, ?lenN_u64, ?lenN_f64; done
  | intros [] Hfits; unfold store, load; simpl; hnf in Hfits; simpl in Hfits; split_fits; load_fields
  | unfold load; simpl; yield_fields
  | unfold load; simpl;
    repeat first [eapply keeps_bind; [solve [eauto with image]|]; cbv beta; intros ? | apply keeps_ret] ].

#[export] Instance ConceptRecord_codec : ImageCodec ConceptRecord concept_fits.
Proof. image_codec. Qed.
#[export] Instance LabelRecord_codec : ImageCodec LabelRecord label_fits.
Proof. image_codec. Qed.
#[export] Instance SourceRecord_codec : ImageCodec SourceRecord source_fits.
Proof. image_codec. Qed.
#[export] Instance AliasRecord_codec : ImageCodec AliasRecord alias_fits.
Proof. image_codec. Qed.
#[export] Instance EdgeRecord_codec : ImageCodec EdgeRecord edge_fits.
Proof. image_codec. Qed.
#[export] Instance AttributionRecord_codec : ImageCodec AttributionRecord row_repr.
Proof. image_codec. Qed.
#[export] Instance AttributionLocatorRecord_codec : ImageCodec AttributionLocatorRecord locator_fits.
Proof. image_codec. Qed.
#[export] Instance LegacyEdgeRecord_codec : ImageCodec LegacyEdgeRecord legacy_edge_fits.
Proof. image_codec. Qed.
#[export] Instance LegacyAttributionRecord_codec : ImageCodec LegacyAttributionRecord legacy_attribution_fits.
Proof. image_codec. Qed.

(** ** Tables *)

Section tables.
Context {A : Type} {HA : ImageRecord A} {fits : A -> Prop} {HC : ImageCodec A fits}.

Lemma stored_length (rs : list A) : lenN (mjoin (store <$> rs)) = lenN rs * SIZE A.
Proof.
  induction rs as [|r rs IH]; [done|]. csimpl. rewrite lenN_app, store_length, IH. unfold lenN. simpl. lia.
Qed.

Lemma store_table_length (rs : list A) : lenN (store_table rs) = 8 + lenN rs * SIZE A.
Proof. unfold store_table. by rewrite lenN_app, lenN_u64, stored_length. Qed.

Lemma load_records_loads (rs : list A) : Forall fits rs -> loads (load_records (length rs)) (mjoin (store <$> rs)) rs.
Proof.
  induction 1 as [|r rs Hr _ IH]; [apply loads_ret|]. csimpl.
  eapply loads_bind; [by apply store_loads|]. rewrite <- (app_nil_r (mjoin _)).
  eapply loads_bind; [exact IH | apply loads_ret].
Qed.

Lemma load_table_loads (rs : list A) : Forall fits rs -> lenN rs <= NIL -> loads (load_table A) (store_table rs) rs.
Proof.
  intros Hrs Hlen rd rest Hl. unfold store_table in Hl. rewrite <- app_assoc in Hl. unfold load_table.
  destruct (read_u64_loads (lenN rs)) with rd (mjoin (store <$> rs) ++ rest) as (rd1 & -> & H1 & <-);
    [unfold NIL, U32_MAX, U64_MAX in *; lia | done |]. simpl.
  destruct (N.ltb_spec NIL (lenN rs)); [lia|]. pose proof H1 as [(pre & Hb & Hp) Hmax].
  unfold remaining. rewrite Hb, Hp in *. rewrite !lenN_app, stored_length in *.
  destruct (N.ltb_spec USIZE_MAX (lenN rs * SIZE A)); [lia|].
  destruct (N.ltb_spec (lenN pre + (lenN rs * SIZE A + lenN rest) - lenN pre) (lenN rs * SIZE A)); [lia|].
  unfold lenN at 1. rewrite Nat2N.id, <- Hb. by apply (load_records_loads rs Hrs).
Qed.

Lemma load_records_yields n : yields (load_records (A := A) n) (fun rs => Forall fits rs /\ length rs = n).
Proof.
  induction n as [|n IH]; [by apply yields_ret|]. simpl. eapply yields_bind; [apply load_yields|].
  cbv beta. intros r Hr. eapply yields_bind; [exact IH|]. cbv beta. intros rs [Hrs <-].
  apply yields_ret. split; [by constructor | done].
Qed.

Lemma load_records_keeps n : keeps (load_records (A := A) n).
Proof.
  induction n as [|n IH]; [by apply keeps_ret|]. simpl. apply keeps_bind; [apply load_keeps|].
  intros r. apply keeps_bind; [exact IH|]. intros. apply keeps_ret.
Qed.

(** A table fits in the bytes it is read from. *)
Lemma load_table_bounded rd rs rd' : load_table A rd = Ok (rs, rd') ->
  lenN rs * SIZE A <= lenN (rd_bytes rd) /\ rd_bytes rd' = rd_bytes rd.
Proof.
  unfold load_table. destruct (read_u64 rd) as [[n rd1]|] eqn:E; simpl; [|done].
  apply read_u64_keeps in E. rewrite <- E. destruct (NIL <? n); [done|]. destruct (USIZE_MAX <? _); [done|].
  unfold remaining. destruct (N.ltb_spec (lenN (rd_bytes rd1) - rd_pos rd1) (n * SIZE A)); [done|].
  intros Hl. pose proof (load_records_keeps _ _ _ _ Hl) as ->. apply load_records_yields in Hl as [_ Hlen].
  split; [|done]. unfold lenN at 1. rewrite Hlen, N2Nat.id. lia.
Qed.

Lemma load_table_yields : yields (load_table A) (fun rs => Forall fits rs /\ lenN rs <= NIL).
Proof.
  intros rd rs rd'. unfold load_table. destruct (read_u64 rd) as [[n rd1]|]; simpl; [|done].
  destruct (N.ltb_spec NIL n); [done|]. destruct (USIZE_MAX <? _); [done|]. destruct (remaining rd1 <? _); [done|].
  intros [? Hlen]%load_records_yields. split; [done|]. unfold lenN. rewrite Hlen, N2Nat.id. done.
Qed.
End tables.
