(* ===== verification/ImageIndex.v ===== *)
(** * The persistent image: validation and rebuild ([src/context/image.rs])

    [rebuild_indexes] and its phases: names, aliases, edges, chains, attribution
    chains, locators and the arena slack.  An [attempt] can panic ([None]: the
    entry index is full), refuse the image, or go on. *)

From S2P Require Export Image.

Local Open Scope N_scope.

Abbreviation attempt A := (option (checked A)).

Definition abind {A B} (m : attempt A) (k : A -> attempt B) : attempt B :=
  match m with
  | None => None
  | Some (Err e) => Some (Err e)
  | Some (Ok a) => k a
  end.

Notation "x ←! y ; z" := (abind y (fun x => z))
  (at level 20, y at level 100, z at level 200, only parsing) : stdpp_scope.
Notation "' x ←! y ; z" := (abind y (fun x => z))
  (at level 20, x pattern, y at level 100, z at level 200, only parsing) : stdpp_scope.

Definition proceed {A} (a : A) : attempt A := Some (Ok a).
Definition refuse {A} (reason : string) : attempt A := Some (Err (corrupt reason)).
Arguments refuse {A} reason%_string_scope.

(** [for (id, x) in table.iter().enumerate()]. *)
Definition enumerate {A} (l : list A) : list (A * N) := zip l (indices l).

(** [checked_arena_str]. *)
Definition checked_arena_str (arena : bytes) (offset len : N) : checked name :=
  fin ←? ok_or (usize_checked_add offset len) (corrupt "name range overflows");
  if fin <=? lenN arena then
    let bytes := slice arena offset fin in
    if utf8_valid bytes then Ok bytes else Err (corrupt "name is not valid UTF-8")
  else Err (corrupt "name range escapes the arena").

(** ** Names *)

(** One canonical record: its spelling joins the entry index, then the map. *)
Definition index_record `{UnicodeTables} (dup : CorruptImage) (arena : bytes) (record : name_range * N)
    (h : AliasNamespace) : attempt (name * AliasNamespace) :=
  let '((name_offset, name_len), id) := record in
  name ←! Some (checked_arena_str arena name_offset name_len);
  index ← ei_push (an_index h) name id;
  match an_ids h !! name with
  | Some _ => Some (Err dup)
  | None => proceed (name, {| an_aliases := an_aliases h; an_index := index;
                           an_ids := <[name := id]> (an_ids h); an_alias_index := an_alias_index h |})
  end.

(** All records of one table, with the names read. *)
Fixpoint index_records `{UnicodeTables} (dup : CorruptImage) (arena : bytes) (records : list (name_range * N))
    (h : AliasNamespace) : attempt (list name * AliasNamespace) :=
  match records with
  | [] => proceed ([], h)
  | record :: records =>
    '(name, h) ←! index_record dup arena record h;
    '(names, h) ←! index_records dup arena records h;
    proceed (name :: names, h)
  end.

Fixpoint index_sources (arena : bytes) (records : list (name_range * N)) (ids : gmap name SourceId)
    : checked (gmap name SourceId) :=
  match records with
  | [] => Ok ids
  | ((name_offset, name_len), id) :: records =>
    name ←? checked_arena_str arena name_offset name_len;
    match ids !! name with
    | Some _ => Err (corrupt "two source records share one name")
    | None => index_sources arena records (<[name := id]> ids)
    end
  end.

Definition index_names `{UnicodeTables} (c : Context) : attempt Context :=
  '(_, h) ←! index_records (corrupt "two concept records share one name") (arena c)
    (enumerate (c_range <$> concepts c)) (concept_handle c);
  let c := put_concept (arena c) h (arena_slack c) c in
  '(names, h) ←! index_records (corrupt "two label records share one name") (arena c)
    (enumerate (l_range <$> labels c)) (label_handle c);
  let c := put_label (arena c) h (arena_slack c) c in
  let c := set_label_name_index (list_to_set names ∪ label_name_index c) c in
  ids ←! Some (index_sources (arena c) (enumerate (s_range <$> sources c)) (source_ids c));
  proceed (set_source_ids ids c).

(** ** Aliases *)

Definition index_alias `{UnicodeTables} (unknown collides : CorruptImage) (arena : bytes) (records_len : N)
    (record : AliasRecord) (h : AliasNamespace) : attempt AliasNamespace :=
  alias ←! Some (checked_arena_str arena (a_name_offset record) (a_name_len record));
  if records_len <=? a_target record then Some (Err unknown)
  else
    index ← ei_push (an_index h) alias (a_target record);
    match an_ids h !! alias with
    | Some _ => Some (Err collides)
    | None => proceed {| an_aliases := an_aliases h; an_index := index;
                      an_ids := <[alias := a_target record]> (an_ids h);
                      an_alias_index := <[alias := a_target record]> (an_alias_index h) |}
    end.

Fixpoint index_alias_table `{UnicodeTables} (unknown collides : CorruptImage) (arena : bytes) (records_len : N)
    (aliases : list AliasRecord) (h : AliasNamespace) : attempt AliasNamespace :=
  match aliases with
  | [] => proceed h
  | record :: aliases =>
    h ←! index_alias unknown collides arena records_len record h;
    index_alias_table unknown collides arena records_len aliases h
  end.

Definition index_aliases `{UnicodeTables} (c : Context) : attempt Context :=
  h ←! index_alias_table (corrupt "concept alias targets an unknown concept")
    (corrupt "concept alias collides with another spelling") (arena c) (lenN (concepts c))
    (concept_aliases c) (concept_handle c);
  let c := put_concept (arena c) h (arena_slack c) c in
  h ←! index_alias_table (corrupt "label alias targets an unknown label")
    (corrupt "label alias collides with another spelling") (arena c) (lenN (labels c))
    (label_aliases c) (label_handle c);
  proceed (put_label (arena c) h (arena_slack c) c).

(** ** Edges *)

Fixpoint index_edges_loop (concepts_len labels_len : N) (es : list (EdgeRecord * EdgeId))
    (ids : gmap (ConceptId * LabelId * ConceptId) EdgeId) : checked (gmap (ConceptId * LabelId * ConceptId) EdgeId) :=
  match es with
  | [] => Ok ids
  | (edge, id) :: es =>
    if (concepts_len <=? e_subject edge) || (concepts_len <=? e_object edge) || (labels_len <=? e_label edge)
    then Err (corrupt "edge references an unknown concept or label")
    else
      let key := (e_subject edge, e_label edge, e_object edge) in
      match ids !! key with
      | Some _ => Err (corrupt "two edge records share one triple")
      | None => index_edges_loop concepts_len labels_len es (<[key := id]> ids)
      end
  end.

Definition index_edges (c : Context) : checked Context :=
  ids ←? index_edges_loop (lenN (concepts c)) (lenN (labels c)) (enumerate (edges c)) (edge_ids c);
  Ok (set_edge_ids ids c).

(** ** Chains *)

(** [validate_edge_chain]: [budget] is [edges.len() - steps], so the source's own
    bound on [steps] is what ends the loop. *)
Fixpoint edge_chain_loop (budget : nat) (edges : list EdgeRecord) (count : N) (follow : EdgeRecord -> EdgeId)
    (owned : EdgeRecord -> bool) (cursor tail steps : N) : checked (N * N) :=
  if cursor =? NIL then Ok (tail, steps)
  else
    match budget with
    | O => Err (corrupt "edge chain overruns its stored count")
    | S budget =>
      if count <? steps + 1 then Err (corrupt "edge chain overruns its stored count")
      else
        match tget edges cursor with
        | None => Err (corrupt "edge chain link is out of range")
        | Some record =>
          if owned record then edge_chain_loop budget edges count follow owned (follow record) cursor (steps + 1)
          else Err (corrupt "edge chain contains another record's edge")
        end
    end.

Definition validate_edge_chain (edges : list EdgeRecord) (first last count : N) (follow : EdgeRecord -> EdgeId)
    (owned : EdgeRecord -> bool) : checked unit :=
  '(tail, steps) ←? edge_chain_loop (length edges) edges count follow owned first NIL 0;
  if negb (steps =? count) then Err (corrupt "edge chain is shorter than its stored count")
  else if negb (tail =? last) then Err (corrupt "edge chain does not end at its stored tail")
  else Ok tt.

Fixpoint validate_all {A} (check : A -> checked unit) (l : list A) : checked unit :=
  match l with
  | [] => Ok tt
  | x :: l => _ ←? check x; validate_all check l
  end.

Definition validate_concept_chains (edges : list EdgeRecord) (p : ConceptRecord * ConceptId) : checked unit :=
  let '(record, id) := p in
  _ ←? validate_edge_chain edges (c_first_outgoing record) (c_last_outgoing record) (c_outgoing_count record)
    e_next_outgoing (fun edge => e_subject edge =? id);
  validate_edge_chain edges (c_first_incoming record) (c_last_incoming record) (c_incoming_count record)
    e_next_incoming (fun edge => e_object edge =? id).

Definition validate_label_chain (edges : list EdgeRecord) (p : LabelRecord * LabelId) : checked unit :=
  let '(record, id) := p in
  validate_edge_chain edges (l_first_edge record) (l_last_edge record) (l_edge_count record)
    e_next_labeled (fun edge => e_label edge =? id).

(** [u64] sums; at most [NIL] records of at most [U32_MAX] each cannot wrap. *)
Definition total_of {A} (count : A -> N) (l : list A) : N := foldr (fun r acc => count r + acc) 0 l.

Definition validate_chains (c : Context) : checked unit :=
  _ ←? validate_all (validate_concept_chains (edges c)) (enumerate (concepts c));
  _ ←? validate_all (validate_label_chain (edges c)) (enumerate (labels c));
  let edge_total := lenN (edges c) in
  if negb (total_of c_outgoing_count (concepts c) =? edge_total) ||
     negb (total_of c_incoming_count (concepts c) =? edge_total) ||
     negb (total_of l_edge_count (labels c) =? edge_total)
  then Err (corrupt "edge chains do not cover the edge table")
  else Ok tt.

(** ** Attribution chains *)

Record ChainScan := {
  sc_claimed : gset AttributionId;
  sc_ids : gmap (EdgeId * SourceId) AttributionId;
  sc_source_edges : gmap SourceId (list EdgeId)
}.

(** One edge's chain; every step claims a new row, so the table's length is fuel
    enough ([index_attributions_total]). *)
Fixpoint attribution_scan (fuel : nat) (rows : list AttributionRecord) (sources_len : N) (edge_id : EdgeId)
    (cursor tail chain_count : N) (st : ChainScan) : attempt (N * N * ChainScan) :=
  if cursor =? NIL then proceed (tail, chain_count, st)
  else
    match fuel with
    | O => None
    | S fuel =>
      match tget rows cursor with
      | None => refuse "attribution link is out of range"
      | Some record =>
        if decide (cursor ∈ sc_claimed st) then refuse "attribution record belongs to two chains"
        else if sources_len <=? t_source record then refuse "attribution references an unknown source"
        else if negb (f64_finite (t_sum record)) then refuse "attribution weight sum is not finite"
        else
          match sc_ids st !! (edge_id, t_source record) with
          | Some _ => refuse "one edge attributes a source twice"
          | None =>
            if t_count record =? 0 then refuse "attribution record carries a zero count"
            else
              match checked_add U64_MAX chain_count (t_count record) with
              | None => refuse "attribution chain count overflows u64"
              | Some chain_count =>
                attribution_scan fuel rows sources_len edge_id (t_next record) cursor chain_count
                  {| sc_claimed := {[cursor]} ∪ sc_claimed st;
                     sc_ids := <[(edge_id, t_source record) := cursor]> (sc_ids st);
                     sc_source_edges := <[t_source record :=
                       default [] (sc_source_edges st !! t_source record) ++ [edge_id]]> (sc_source_edges st) |}
              end
          end
      end
    end.

Fixpoint index_attributions_loop (rows : list AttributionRecord) (sources_len : N) (es : list (EdgeRecord * EdgeId))
    (dead_edges : N) (st : ChainScan) : attempt (N * ChainScan) :=
  match es with
  | [] => proceed (dead_edges, st)
  | (edge, edge_id) :: es =>
    let dead_edges := if e_count edge =? 0 then dead_edges + 1 else dead_edges in
    if negb (f64_finite (e_sum edge)) then refuse "edge weight sum is not finite"
    else
      '(tail, chain_count, st) ←! attribution_scan (S (length rows)) rows sources_len edge_id
         (e_first_attribution edge) NIL 0 st;
      if negb (tail =? e_last_attribution edge) then refuse "attribution chain does not end at its tail"
      else if e_count edge <? chain_count then refuse "edge count is lower than its attributions' combined count"
      else index_attributions_loop rows sources_len es dead_edges st
  end.

Definition index_attributions (c : Context) : attempt Context :=
  '(dead_edges, st) ←! index_attributions_loop (attributions c) (lenN (sources c)) (enumerate (edges c)) 0
    {| sc_claimed := ∅; sc_ids := attribution_ids c; sc_source_edges := source_edges c |};
  let dead := filter (fun t => t ∉ sc_claimed st) (indices (attributions c)) in
  proceed (set_attribution_ids (sc_ids st) (set_source_edges (sc_source_edges st)
    (set_dead_edges dead_edges (set_dead_attributions (lenN dead) c)))).

(** ** Locators and slack *)

Fixpoint locators_loop (attributions_len : N) (previous : option AttributionId)
    (table : list AttributionLocatorRecord) : checked unit :=
  match table with
  | [] => Ok tt
  | record :: table =>
    if attributions_len <=? k_attribution record then Err (corrupt "locator references an unknown attribution")
    else if match previous with Some prev => k_attribution record <=? prev | None => false end
    then Err (corrupt "locator table is not sorted by attribution")
    else locators_loop attributions_len (Some (k_attribution record)) table
  end.

Definition validate_locators (c : Context) : checked unit :=
  locators_loop (lenN (attributions c)) None (attribution_locators c).

Definition seed_arena_slack (c : Context) : Context :=
  let live := total_of c_name_len (concepts c) + total_of l_name_len (labels c) + total_of s_name_len (sources c) +
    total_of a_name_len (concept_aliases c) + total_of a_name_len (label_aliases c) in
  set_arena_slack (lenN (arena c) - live) c.

Definition rebuild_indexes `{UnicodeTables} (c : Context) : attempt Context :=
  c ←! index_names c;
  c ←! index_aliases c;
  c ←! Some (index_edges c);
  _ ←! Some (validate_chains c);
  c ←! index_attributions c;
  _ ←! Some (validate_locators c);
  proceed (seed_arena_slack c).
