(* ===== verification/Restore.v ===== *)
(** * The persistent image: [from_bytes] ([src/context/image.rs])

    Magic, version, checksum, tables (older versions migrated), arena, then the
    validation and rebuild of [ImageIndex]. *)

From S2P Require Export ImageIndex.

Local Open Scope N_scope.

(** ** Migration of images before version 5 *)

(** Whether a gap between an edge's weight and its chain's re-summed total is more
    than rounding. *)
Definition summation_gap_is_real (gap : f64) (chain_len : N) (magnitude edge_weight : f64) : bool :=
  let tolerance := (2 * (f64_of_N chain_len + 1) * f64_EPSILON * (magnitude + abs edge_weight))%float in
  (tolerance <? abs gap)%float.

(** [legacy_attribution_chain_len]: [budget] is [attributions.len() - steps]. *)
Fixpoint legacy_chain_loop (budget : nat) (rows : list LegacyAttributionRecord) (cursor : AttributionId)
    (len : N) (sum magnitude : f64) : checked (N * f64 * f64) :=
  if cursor =? NIL then Ok (len, sum, magnitude)
  else
    match budget with
    | O => Err (corrupt "legacy attribution chain cycles during migration")
    | S budget =>
      match tget rows cursor with
      | None => Err (corrupt "legacy attribution link is out of range")
      | Some record =>
        legacy_chain_loop budget rows (gt_next record) (len + 1)
          (accumulate_saturating sum (gt_weight record))
          (accumulate_saturating magnitude (abs (gt_weight record)))
      end
    end.

Definition legacy_attribution_chain_len (rows : list LegacyAttributionRecord) (first : AttributionId)
    : checked (N * f64 * f64) :=
  legacy_chain_loop (length rows) rows first 0 0%float 0%float.

(** The synthesized count: 0 for a retracted edge, one more than the chain when a
    gap proves a sourceless assertion, at least 1 otherwise. *)
Definition migrated_count (chain : N * f64 * f64) (weight : f64) : N :=
  let '(chain_len, attributed_sum, attributed_magnitude) := chain in
  if (chain_len =? 0) && (weight =? 0)%float then 0
  else if summation_gap_is_real (weight - attributed_sum)%float chain_len attributed_magnitude weight
  then chain_len + 1
  else N.max chain_len 1.

Definition migrate_edge (legacy : LegacyEdgeRecord) (chain : N * f64 * f64) : EdgeRecord :=
  {| e_subject := ge_subject legacy; e_label := ge_label legacy; e_object := ge_object legacy;
     e_next_outgoing := ge_next_outgoing legacy; e_next_incoming := ge_next_incoming legacy;
     e_next_labeled := ge_next_labeled legacy; e_first_attribution := ge_first_attribution legacy;
     e_last_attribution := ge_last_attribution legacy;
     e_count := migrated_count chain (ge_weight legacy); e_sum := ge_weight legacy |}.

Definition migrate_attribution (legacy : LegacyAttributionRecord) : AttributionRecord :=
  {| t_source := gt_source legacy; t_next := gt_next legacy; t_count := 1; t_sum := gt_weight legacy |}.

(** Chains are memoized by their head. *)
Fixpoint migrate_edges (rows : list LegacyAttributionRecord) (es : list LegacyEdgeRecord)
    (chains : gmap AttributionId (N * f64 * f64)) : checked (list EdgeRecord) :=
  match es with
  | [] => Ok []
  | legacy :: es =>
    '(chain, chains) ←?
      match chains !! ge_first_attribution legacy with
      | Some cached => Ok (cached, chains)
      | None =>
        computed ←? legacy_attribution_chain_len rows (ge_first_attribution legacy);
        Ok (computed, <[ge_first_attribution legacy := computed]> chains)
      end;
    edges ←? migrate_edges rows es chains;
    Ok (migrate_edge legacy chain :: edges)
  end.

Definition load_legacy (reader : Reader) : checked (list EdgeRecord * list AttributionRecord * Reader) :=
  '(legacy_edges, reader) ←? load_table LegacyEdgeRecord reader;
  '(legacy_attributions, reader) ←? load_table LegacyAttributionRecord reader;
  edges ←? migrate_edges legacy_attributions legacy_edges ∅;
  Ok (edges, migrate_attribution <$> legacy_attributions, reader).

Definition load_current (reader : Reader) : checked (list EdgeRecord * list AttributionRecord * Reader) :=
  '(edges, reader) ←? load_table EdgeRecord reader;
  '(attributions, reader) ←? load_table AttributionRecord reader;
  Ok (edges, attributions, reader).

(** ** The sections *)

(** From version 6 the footer comes off, and is verified, first. *)
Definition verify_footer (image : bytes) (version : N) (reader : Reader) : checked Reader :=
  if 6 <=? version then
    if lenN image <? IMAGE_FOOTER_SIZE then Err (corrupt "image ends inside its checksum footer")
    else
      let body_len := lenN image - IMAGE_FOOTER_SIZE in
      let body := take (N.to_nat body_len) image in
      let footer := drop (N.to_nat body_len) image in
      if negb (crc32c body =? from_le footer)
      then Err (corrupt "image checksum mismatch — the bytes changed after they were written")
      else Ok {| rd_bytes := body; rd_pos := rd_pos reader |}
  else Ok reader.

Definition load_aliases (version : N) (reader : Reader)
    : checked (list AliasRecord * list AliasRecord * Reader) :=
  if 2 <=? version then
    '(concept_aliases, reader) ←? load_table AliasRecord reader;
    '(label_aliases, reader) ←? load_table AliasRecord reader;
    Ok (concept_aliases, label_aliases, reader)
  else Ok ([], [], reader).

Definition load_arena (reader : Reader) : checked (bytes * Reader) :=
  '(arena_len, reader) ←? read_u64 reader;
  if U32_MAX <? arena_len then Err (corrupt "arena length exceeds its 4 GiB offset space")
  else take_bytes arena_len reader.

Definition parse_image (image : bytes) : checked Context :=
  '(magic, reader) ←? take_bytes (lenN IMAGE_MAGIC) {| rd_bytes := image; rd_pos := 0 |};
  if negb (bool_decide (magic = IMAGE_MAGIC)) then Err (corrupt "image does not start with the context magic")
  else
  '(version, reader) ←? read_u32 reader;
  if negb ((1 <=? version) && (version <=? IMAGE_VERSION)) then Err (corrupt "image format version is not supported")
  else
  reader ←? verify_footer image version reader;
  '(_, reader) ←? take_bytes 4 reader;
  '(applied_seq, reader) ←? if 3 <=? version then read_u64 reader else Ok (0, reader);
  '(edges, attributions, reader) ←? if 5 <=? version then load_current reader else load_legacy reader;
  '(concepts, reader) ←? load_table ConceptRecord reader;
  '(labels, reader) ←? load_table LabelRecord reader;
  '(sources, reader) ←? load_table SourceRecord reader;
  '(concept_aliases, label_aliases, reader) ←? load_aliases version reader;
  '(attribution_locators, reader) ←?
    if 4 <=? version then load_table AttributionLocatorRecord reader else Ok ([], reader);
  '(arena, reader) ←? load_arena reader;
  if negb (rd_pos reader =? lenN (rd_bytes reader)) then Err (corrupt "image carries trailing bytes")
  else Ok {|
    arena := arena; concepts := concepts; labels := labels; sources := sources;
    edges := edges; attributions := attributions;
    concept_aliases := concept_aliases; label_aliases := label_aliases;
    attribution_locators := attribution_locators;
    concept_ids := ∅; label_ids := ∅; source_ids := ∅;
    concept_alias_index := ∅; label_alias_index := ∅; label_name_index := ∅;
    edge_ids := ∅; attribution_ids := ∅; source_edges := ∅;
    concept_index := EntryIndex_default; label_index := EntryIndex_default;
    dice_floor := None; applied_seq := applied_seq;
    dead_edges := 0; dead_attributions := 0; arena_slack := 0
  |}.

Definition from_bytes `{UnicodeTables} (image : bytes) : attempt Context :=
  c ←! Some (parse_image image); rebuild_indexes c.

Definition restored `{UnicodeTables} (image : bytes) : option (list Fact) :=
  match from_bytes image with Some (Ok c) => facts c | _ => None end.

Example restore_sample : @restored ascii_tables (to_bytes sample) = Some sample_facts.
Proof. vm_compute. reflexivity. Qed.

Example restore_truncated : match @from_bytes ascii_tables (take 100 (to_bytes sample)) with
  | Some (Err (corrupt s)) => String.prefix "image checksum mismatch" s | _ => false end = true.
Proof. vm_compute. reflexivity. Qed.
