(* ===== verification/ImageChains.v ===== *)
(** * Loading names, aliases and triples

    Each phase of [rebuild_indexes] either refuses the tables or leaves exactly
    the indexes the invariant asks for ([_sound]); on tables that admit such
    indexes it does not refuse ([_complete]); below the entry-index ceiling it
    does not panic. *)

From S2P Require Export Restore.

Local Open Scope N_scope.

Lemma abind_Ok {A B} (m : attempt A) (k : A -> attempt B) b :
  abind m k = Some (Ok b) -> exists a, m = Some (Ok a) /\ k a = Some (Ok b).
Proof. destruct m as [[a|e]|]; simpl; [eauto | done | done]. Qed.

Lemma rbind_Ok {A B E} (m : result A E) (k : A -> result B E) b :
  rbind m k = Ok b -> exists a, m = Ok a /\ k a = Ok b.
Proof. destruct m as [a|e]; simpl; [eauto | done]. Qed.

Lemma Some_Ok_inj {A E} (a b : A) : Some (Ok (E := E) a) = Some (Ok b) -> a = b.
Proof. congruence. Qed.

Lemma attempt_total {A B} (m : attempt A) (k : A -> attempt B) :
  is_Some m -> (forall a, m = Some (Ok a) -> is_Some (k a)) -> is_Some (abind m k).
Proof. intros [[a|e] ->] Hk; simpl; [by apply Hk | eauto]. Qed.

(** [enumerate] from a given index. *)
Definition numbered {A} (start : nat) (l : list A) : list (A * N) := zip l (N.of_nat <$> seq start (length l)).

Lemma numbered_cons {A} start (x : A) l : numbered start (x :: l) = (x, N.of_nat start) :: numbered (S start) l.
Proof. done. Qed.

(** ** Names *)

Lemma checked_name arena off len n : checked_arena_str arena off len = Ok n -> name_at arena off len = Some n.
Proof.
  unfold checked_arena_str, usize_checked_add, checked_add, name_at.
  destruct (_ <=? USIZE_MAX); simpl; [|done]. destruct (_ <=? lenN arena); [|done].
  destruct (utf8_valid _); [|done]. by intros [= <-].
Qed.

Lemma name_checked arena off len n : lenN arena <= USIZE_MAX ->
  name_at arena off len = Some n -> checked_arena_str arena off len = Ok n.
Proof.
  unfold checked_arena_str, usize_checked_add, checked_add, name_at. intros Hb.
  destruct (N.leb_spec (off + len) (lenN arena)) as [Hle|]; [|done].
  destruct (N.leb_spec (off + len) USIZE_MAX); [|lia]. simpl.
  destruct (N.leb_spec (off + len) (lenN arena)); [|lia]. destruct (utf8_valid _); [|done]. by intros [= <-].
Qed.

Section names.
Context `{UnicodeTables}.

(** The state of a namespace while its records are read. *)
Definition loading (arena : bytes) (recs : list name_range) (als : list (name_range * N)) (h : AliasNamespace)
    (ns al : list name) : Prop :=
  namespace_wf arena recs als (an_ids h) (an_alias_index h) (an_index h) ns al.

Abbreviation spans h := (lenN (ei_spans (an_index h))).

Lemma index_record_sound dup arena recs r h ns n h' :
  loading arena recs [] h ns [] -> index_record dup arena (r, lenN recs) h = Some (Ok (n, h')) ->
  loading arena (recs ++ [r]) [] h' (ns ++ [n]) [] /\ an_aliases h' = an_aliases h /\ spans h' = spans h + 1.
Proof.
  intros Hl. unfold index_record. destruct r as [off len]. intros (m & Hm & Hk)%abind_Ok.
  injection Hm as Hm%checked_name.
  destruct (ei_push (an_index h) m (lenN recs)) as [idx|] eqn:Hp; [|done]. simpl in Hk.
  destruct (an_ids h !! m) eqn:Hi; [done|]. injection Hk as <- <-. simpl.
  destruct (ei_push_ok _ _ _ _ (proj1 (nw_entries _ _ _ _ _ _ _ _ Hl)) Hp) as (_ & _ & Hs).
  split; [|done]. unfold loading. simpl. by eapply (namespace_wf_load_record _ _ _ _ _ _ _ _ _ (off, len)).
Qed.

Lemma index_record_complete dup arena recs r h ns n :
  loading arena recs [] h ns [] -> lenN arena <= USIZE_MAX -> spans h < NIL ->
  name_at arena r.1 r.2 = Some n -> n ∉ ns -> exists h', index_record dup arena (r, lenN recs) h = Some (Ok (n, h')).
Proof.
  intros Hl Ha Hs Hn Hf. unfold index_record. destruct r as [off len]. simpl in Hn. rewrite (name_checked _ _ _ _ Ha Hn). simpl.
  destruct (ei_push_total (an_index h) n (lenN recs) Hs) as [idx ->]. simpl.
  destruct (an_ids h !! n) as [i|] eqn:Hi; [|unfold proceed; eauto]. exfalso. apply Hf.
  apply (ns_lookup (nw_names _ _ _ _ _ _ _ _ Hl)) in Hi as [Hi|(j & Hj & _)].
  - rewrite tget_lookup in Hi. by eapply list_elem_of_lookup_2.
  - by rewrite tget_lookup in Hj.
Qed.

Lemma index_records_sound dup arena rest : forall recs h ns names h',
  loading arena recs [] h ns [] ->
  index_records dup arena (numbered (length recs) rest) h = Some (Ok (names, h')) ->
  loading arena (recs ++ rest) [] h' (ns ++ names) [] /\ an_aliases h' = an_aliases h /\
  spans h' = spans h + lenN rest.
Proof.
  induction rest as [|r rest IH]; intros recs h ns names h' Hl.
  - intros [= <- <-]. rewrite !app_nil_r. split; [done|]. split; [done|]. unfold lenN. simpl. lia.
  - rewrite numbered_cons. simpl. intros ([n h1] & H1 & Hk)%abind_Ok. apply abind_Ok in Hk as ([names1 h2] & H2 & Hk).
    injection Hk as <- <-.
    destruct (index_record_sound _ _ _ _ _ _ _ _ Hl H1) as (Hl1 & Ha1 & Hs1).
    destruct (IH (recs ++ [r]) h1 (ns ++ [n]) names1 h2 Hl1) as (Hl2 & Ha2 & Hs2).
    { rewrite length_app. simpl. by rewrite Nat.add_1_r. }
    rewrite <- !app_assoc in Hl2. split; [done|]. split; [congruence|]. unfold lenN in *. simpl. lia.
Qed.

Lemma index_records_complete dup arena rest ns' : Forall2 (fun r n => name_at arena r.1 r.2 = Some n) rest ns' ->
  forall recs h ns, loading arena recs [] h ns [] -> lenN arena <= USIZE_MAX -> spans h + lenN rest <= NIL ->
  NoDup (ns ++ ns') ->
  exists h', index_records dup arena (numbered (length recs) rest) h = Some (Ok (ns', h')).
Proof.
  induction 1 as [|r n rest ns' Hr _ IH]; intros recs h ns Hl Ha Hs Hnd; [by exists h|].
  assert (Hlen : lenN (r :: rest) = 1 + lenN rest) by (unfold lenN; simpl; lia).
  rewrite numbered_cons. cbn [index_records].
  destruct (index_record_complete dup arena recs r h ns n Hl Ha) as [h1 H1]; [lia | done | |].
  { apply NoDup_app in Hnd as (_ & Hd & _). intros Hin. apply (Hd n Hin). by left. }
  pose proof (index_record_sound _ _ _ _ _ _ _ _ Hl H1) as (Hl1 & _ & Hs1). unfold lenN in H1 at 1. rewrite H1. cbn [abind].
  destruct (IH (recs ++ [r]) h1 (ns ++ [n]) Hl1 Ha ltac:(lia)) as [h' Hrun]; [by rewrite <- app_assoc|].
  rewrite length_app in Hrun. simpl in Hrun. rewrite Nat.add_1_r in Hrun. rewrite Hrun. simpl. by exists h'.
Qed.

Lemma index_records_total dup arena rest : forall start h, spans h + lenN rest <= NIL ->
  is_Some (index_records dup arena (numbered start rest) h).
Proof.
  induction rest as [|[off len] rest IH]; intros start h Hs; [by eexists|].
  assert (Hlen : lenN ((off, len) :: rest) = 1 + lenN rest) by (unfold lenN; simpl; lia).
  rewrite numbered_cons. cbn [index_records].
  assert (Hr : is_Some (index_record dup arena ((off, len), N.of_nat start) h) /\
    forall n h1, index_record dup arena ((off, len), N.of_nat start) h = Some (Ok (n, h1)) -> spans h1 = spans h + 1).
  { unfold index_record. destruct (checked_arena_str arena off len) as [n|e]; simpl; [|split; [eauto | done]].
    destruct (ei_push_total (an_index h) n (N.of_nat start)) as [idx Hp]; [lia|]. rewrite Hp. simpl.
    destruct (an_ids h !! n); (split; [by eexists|]); [done|]. intros m h1 [= <- <-]. simpl.
    revert Hp. unfold ei_push. destruct (claim_id _); simpl; [|done]. destruct (foldl _ _ _) as [[??]?].
    intros [= <-]. simpl. by rewrite lenN_snoc. }
  destruct Hr as [Hr Hsp]. apply attempt_total; [done|]. intros [n h1] H1. specialize (Hsp n h1 H1).
  apply attempt_total; [apply IH; lia|]. intros [? ?] _. by eexists.
Qed.

(** ** Sources *)

Lemma index_sources_sound arena rest : forall recs ids ns ids',
  ns_ok arena recs [] ids ns [] -> index_sources arena (numbered (length recs) rest) ids = Ok ids' ->
  exists ns', ns_ok arena (recs ++ rest) [] ids' (ns ++ ns') [].
Proof.
  induction rest as [|[off len] rest IH]; intros recs ids ns ids' Hn.
  - intros [= <-]. exists []. by rewrite !app_nil_r.
  - rewrite numbered_cons. simpl. intros (n & Hr%checked_name & Hk)%rbind_Ok.
    destruct (ids !! n) eqn:Hi; [done|].
    pose proof (ns_ok_load_record _ _ _ _ _ _ (off, len) n Hn Hi Hr) as Hn1. unfold lenN in Hn1.
    destruct (IH (recs ++ [(off, len)]) _ (ns ++ [n]) ids' Hn1) as [ns' Hns'].
    { rewrite length_app. simpl. by rewrite Nat.add_1_r. }
    exists (n :: ns'). by rewrite <- !app_assoc in Hns'.
Qed.

Lemma index_sources_complete arena rest ns' : Forall2 (fun r n => name_at arena r.1 r.2 = Some n) rest ns' ->
  forall recs ids ns, ns_ok arena recs [] ids ns [] -> lenN arena <= USIZE_MAX -> NoDup (ns ++ ns') ->
  exists ids', index_sources arena (numbered (length recs) rest) ids = Ok ids'.
Proof.
  induction 1 as [|[off len] n rest ns' Hr _ IH]; intros recs ids ns Hn Ha Hnd; [by exists ids|].
  simpl in Hr. rewrite numbered_cons. simpl. rewrite (name_checked _ _ _ _ Ha Hr). simpl.
  destruct (ids !! n) as [i|] eqn:Hi.
  { exfalso. apply (ns_lookup Hn) in Hi as [Hi|(j & Hj & _)]; [|by rewrite tget_lookup in Hj].
    rewrite tget_lookup in Hi. apply list_elem_of_lookup_2 in Hi.
    apply NoDup_app in Hnd as (_ & Hd & _). apply (Hd n Hi). by left. }
  pose proof (ns_ok_load_record _ _ _ _ _ _ (off, len) n Hn Hi Hr) as Hn1. unfold lenN in Hn1.
  destruct (IH (recs ++ [(off, len)]) _ (ns ++ [n]) Hn1 Ha) as [ids' Hrun]; [by rewrite <- app_assoc|].
  rewrite length_app in Hrun. simpl in Hrun. rewrite Nat.add_1_r in Hrun. eauto.
Qed.

(** ** Aliases *)

Lemma index_alias_sound u d arena recs als r h ns al h' :
  loading arena recs als h ns al -> index_alias u d arena (lenN recs) r h = Some (Ok h') ->
  exists n, loading arena recs (als ++ [a_entry r]) h' ns (al ++ [n]) /\ an_aliases h' = an_aliases h /\
    spans h' = spans h + 1.
Proof.
  intros Hl. unfold index_alias. intros (n & Hm & Hk)%abind_Ok. injection Hm as Hm%checked_name.
  destruct (N.leb_spec (lenN recs) (a_target r)); [done|].
  destruct (ei_push (an_index h) n (a_target r)) as [idx|] eqn:Hp; [|done]. simpl in Hk.
  destruct (an_ids h !! n) eqn:Hi; [done|]. injection Hk as <-. simpl. exists n.
  destruct (ei_push_ok _ _ _ _ (proj1 (nw_entries _ _ _ _ _ _ _ _ Hl)) Hp) as (_ & _ & Hs).
  split; [|done]. unfold loading. simpl. by eapply namespace_wf_load_alias.
Qed.

Lemma index_alias_table_sound u d arena recs rest : forall als h ns al h',
  loading arena recs als h ns al -> index_alias_table u d arena (lenN recs) rest h = Some (Ok h') ->
  exists al', loading arena recs (als ++ (a_entry <$> rest)) h' ns (al ++ al') /\ an_aliases h' = an_aliases h.
Proof.
  induction rest as [|r rest IH]; intros als h ns al h' Hl; simpl.
  - intros [= <-]. exists []. by rewrite !app_nil_r.
  - intros (h1 & H1 & H2)%abind_Ok.
    destruct (index_alias_sound _ _ _ _ _ _ _ _ _ _ Hl H1) as (n & Hl1 & Ha1 & _).
    destruct (IH _ _ _ _ _ Hl1 H2) as (al' & Hl2 & Ha2). exists (n :: al'). rewrite <- !app_assoc in Hl2.
    split; [done | congruence].
Qed.

Lemma index_alias_table_complete u d arena recs rest al' :
  Forall2 (fun r n => name_at arena r.1.1 r.1.2 = Some n) (a_entry <$> rest) al' ->
  Forall (fun r => r.2 < lenN recs) (a_entry <$> rest) ->
  forall als h ns al, loading arena recs als h ns al -> lenN arena <= USIZE_MAX -> spans h + lenN rest <= NIL ->
  NoDup (ns ++ al ++ al') ->
  exists h', index_alias_table u d arena (lenN recs) rest h = Some (Ok h').
Proof.
  revert al'. induction rest as [|r rest IH]; intros al' Hn Ht als h ns al Hl Ha Hs Hnd; [by exists h|].
  apply Forall2_cons_inv_l in Hn as (n & al1 & Hr & Hn & ->). apply Forall_cons in Ht as [Htr Ht].
  assert (Hlen : lenN (r :: rest) = 1 + lenN rest) by (unfold lenN; simpl; lia).
  assert (H1 : exists h1, index_alias u d arena (lenN recs) r h = Some (Ok h1)).
  { unfold index_alias. simpl in Hr, Htr. rewrite (name_checked _ _ _ _ Ha Hr). simpl.
    destruct (N.leb_spec (lenN recs) (a_target r)); [lia|].
    destruct (ei_push_total (an_index h) n (a_target r)) as [idx ->]; [lia|]. simpl.
    destruct (an_ids h !! n) as [i|] eqn:Hi; [|by eexists]. exfalso.
    assert (Hin : n ∈ ns ++ al).
    { destruct (decide (n ∈ ns ++ al)) as [|Hni]; [done|].
      rewrite (ns_ids _ _ _ _ _ _ (nw_names _ _ _ _ _ _ _ _ Hl)) in Hi.
      assert (Hnone : (list_to_map (spellings ns al als.*2) : gmap name N) !! n = None); [|congruence].
      apply not_elem_of_list_to_map_1.
      by rewrite spellings_keys by apply (ns_al_length (nw_names _ _ _ _ _ _ _ _ Hl)). }
    rewrite app_assoc in Hnd. apply NoDup_app in Hnd as (_ & Hd & _). apply (Hd n Hin). by left. }
  destruct H1 as [h1 H1]. destruct (index_alias_sound _ _ _ _ _ _ _ _ _ _ Hl H1) as (n' & Hl1 & _ & Hs1).
  simpl. rewrite H1. simpl.
  assert (n' = n) as ->.
  { unfold index_alias in H1. apply abind_Ok in H1 as (m & Hm & Hk).
    pose proof (ns_aliases _ _ _ _ _ _ (nw_names _ _ _ _ _ _ _ _ Hl1)) as HF.
    apply Forall2_app_inv in HF as [_ HF%Forall2_cons_1]; [|symmetry; rewrite <- (Forall2_length _ _ _ (ns_aliases _ _ _ _ _ _ (nw_names _ _ _ _ _ _ _ _ Hl))); done].
    destruct HF as [HF _]. simpl in HF, Hr. congruence. }
  apply (IH al1 Hn Ht _ h1 ns (al ++ [n]) Hl1 Ha); [lia|]. by rewrite <- !app_assoc.
Qed.

Lemma index_alias_table_total u d arena len rest : forall h, spans h + lenN rest <= NIL ->
  is_Some (index_alias_table u d arena len rest h).
Proof.
  induction rest as [|r rest IH]; intros h Hs; [by eexists|].
  assert (Hlen : lenN (r :: rest) = 1 + lenN rest) by (unfold lenN; simpl; lia). cbn [index_alias_table].
  assert (Hr : is_Some (index_alias u d arena len r h) /\
    forall h1, index_alias u d arena len r h = Some (Ok h1) -> spans h1 = spans h + 1).
  { unfold index_alias. destruct (checked_arena_str _ _ _) as [n|e]; simpl; [|split; [eauto | done]].
    destruct (len <=? a_target r); [split; [eauto | done]|].
    destruct (ei_push_total (an_index h) n (a_target r)) as [idx Hp]; [lia|]. rewrite Hp. simpl.
    destruct (an_ids h !! n); (split; [by eexists|]); [done|]. intros h1 [= <-]. simpl.
    revert Hp. unfold ei_push. destruct (claim_id _); simpl; [|done]. destruct (foldl _ _ _) as [[??]?].
    intros [= <-]. simpl. by rewrite lenN_snoc. }
  destruct Hr as [Hr Hsp]. apply attempt_total; [done|]. intros h1 H1. specialize (Hsp h1 H1). apply IH. lia.
Qed.
End names.

(** * Loading edges and validating their chains

    The triples are unique and in range; and a family of chains, each owned,
    terminated and counted, that together count every edge, is exactly the
    partition of the edge table the invariant describes. *)

(** ** Triples *)

Definition triples_at (ids : gmap (ConceptId * LabelId * ConceptId) EdgeId) (es : list EdgeRecord) : Prop :=
  forall k e, ids !! k = Some e <-> tget (e_triple <$> es) e = Some k.

Definition edge_in_range (nc nl : N) (e : EdgeRecord) : Prop :=
  e_subject e < nc /\ e_object e < nc /\ e_label e < nl.

Lemma triples_at_snoc ids es e : triples_at ids es -> ids !! e_triple e = None ->
  triples_at (<[e_triple e := lenN es]> ids) (es ++ [e]).
Proof.
  intros Ht Hn k i. rewrite fmap_app. simpl. split.
  - intros [[<- <-]|[_ Hk]]%lookup_insert_Some; [apply tget_snoc_at; by rewrite lenN_fmap|].
    apply tget_app_mono. by apply Ht.
  - intros [Hi|[-> ->]]%tget_snoc_inv; [|by rewrite lenN_fmap, lookup_insert_eq].
    apply Ht in Hi. rewrite lookup_insert_ne; [done|]. intros Heq. congruence.
Qed.

Lemma index_edges_sound nc nl rest : forall es ids ids', triples_at ids es ->
  index_edges_loop nc nl (numbered (length es) rest) ids = Ok ids' ->
  triples_at ids' (es ++ rest) /\ Forall (edge_in_range nc nl) rest.
Proof.
  induction rest as [|e rest IH]; intros es ids ids' Ht.
  - intros [= <-]. by rewrite app_nil_r.
  - rewrite numbered_cons. simpl.
    destruct (N.leb_spec nc (e_subject e)), (N.leb_spec nc (e_object e)), (N.leb_spec nl (e_label e)); simpl; try done.
    destruct (ids !! _) eqn:Hi; [done|]. intros Hrun.
    destruct (IH (es ++ [e]) _ ids' (triples_at_snoc _ _ _ Ht Hi)) as [Ht' Hall].
    { rewrite length_app. simpl. rewrite Nat.add_1_r. exact Hrun. }
    rewrite <- app_assoc in Ht'. split; [done|]. by constructor.
Qed.

Lemma index_edges_complete nc nl rest : Forall (edge_in_range nc nl) rest ->
  forall es ids, triples_at ids es -> NoDup (e_triple <$> es ++ rest) ->
  exists ids', index_edges_loop nc nl (numbered (length es) rest) ids = Ok ids'.
Proof.
  induction 1 as [|e rest (H1 & H2 & H3) _ IH]; intros es ids Ht Hnd; [by exists ids|].
  rewrite numbered_cons. simpl.
  destruct (N.leb_spec nc (e_subject e)), (N.leb_spec nc (e_object e)), (N.leb_spec nl (e_label e)); try lia. simpl.
  destruct (ids !! _) as [i|] eqn:Hi.
  - exfalso. change (ids !! e_triple e = Some i) in Hi. apply Ht in Hi. rewrite tget_lookup in Hi.
    apply list_elem_of_lookup_2 in Hi. rewrite fmap_app in Hnd. apply NoDup_app in Hnd as (_ & Hd & _).
    apply (Hd _ Hi). by left.
  - destruct (IH (es ++ [e]) _ (triples_at_snoc _ _ _ Ht Hi)) as [ids' Hrun]; [by rewrite <- app_assoc|].
    rewrite length_app in Hrun. simpl in Hrun. rewrite Nat.add_1_r in Hrun. eauto.
Qed.

Lemma triples_at_NoDup ids es : triples_at ids es -> NoDup (e_triple <$> es).
Proof.
  intros Ht. apply NoDup_alt. intros i j k Hi Hj.
  assert (H1 : ids !! k = Some (N.of_nat i)) by (apply Ht; by rewrite tget_lookup, Nat2N.id).
  assert (H2 : ids !! k = Some (N.of_nat j)) by (apply Ht; by rewrite tget_lookup, Nat2N.id).
  rewrite H1 in H2. injection H2. lia.
Qed.

(** ** One chain *)

Section chain.
Context (es : list EdgeRecord) (follow : EdgeRecord -> EdgeId) (owned : EdgeRecord -> bool).

Definition all_owned (ids : list EdgeId) : Prop :=
  forall i, i ∈ ids -> exists e, tget es i = Some e /\ owned e = true.

Lemma edge_chain_sound budget count : forall cursor tail steps tail' steps',
  edge_chain_loop budget es count follow owned cursor tail steps = Ok (tail', steps') ->
  exists ids, chain_from (follow <$> es) cursor ids /\ tail' = default tail (last ids) /\
    steps' = steps + lenN ids /\ all_owned ids.
Proof.
  induction budget as [|budget IH]; intros cursor tail steps tail' steps'; simpl;
    (destruct (N.eqb_spec cursor NIL) as [->|Hc];
     [intros [= <- <-]; exists []; split; [done|]; split; [done|]; split; [unfold lenN; simpl; lia | by intros i ?%elem_of_nil]|]);
    [done|].
  destruct (count <? steps + 1); [done|]. destruct (tget es cursor) as [e|] eqn:He; [|done].
  destruct (owned e) eqn:Ho; [|done]. intros (ids & Hch & -> & -> & Hall)%IH. exists (cursor :: ids).
  split; [simpl; split; [done|]; split; [done|]; exists (follow e); by rewrite tget_fmap, He|].
  split; [by destruct ids as [|i ids] using rev_ind; rewrite ?app_comm_cons, ?last_snoc|].
  split; [unfold lenN; simpl; lia|]. intros i [->|Hi]%elem_of_cons; eauto.
Qed.

Lemma edge_chain_complete count ids : forall budget cursor tail steps,
  chain_from (follow <$> es) cursor ids -> all_owned ids -> (length ids <= budget)%nat ->
  steps + lenN ids <= count ->
  edge_chain_loop budget es count follow owned cursor tail steps = Ok (default tail (last ids), steps + lenN ids).
Proof.
  induction ids as [|i ids IH]; intros budget cursor tail steps Hch Hall Hb Hs.
  - simpl in Hch. subst cursor. replace (steps + lenN []) with steps by (unfold lenN; simpl; lia).
    by destruct budget.
  - destruct Hch as (-> & Hn & nx & Hnx & Hch). destruct budget as [|budget]; [simpl in Hb; lia|].
    assert (Hlen : lenN (i :: ids) = 1 + lenN ids) by (unfold lenN; simpl; lia). simpl.
    destruct (N.eqb_spec i NIL); [done|]. destruct (N.ltb_spec count (steps + 1)); [lia|].
    destruct (Hall i ltac:(by left)) as (e & He & Ho). rewrite He, Ho. rewrite tget_fmap, He in Hnx. injection Hnx as <-.
    rewrite (IH budget (follow e) i (steps + 1)); [|done | by intros j Hj; apply Hall; right | simpl in Hb; lia | lia].
    f_equal. f_equal; [|lia]. by destruct ids as [|j ids _] using rev_ind; rewrite ?app_comm_cons, ?last_snoc.
Qed.

Lemma validate_chain_sound first last count :
  validate_edge_chain es first last count follow owned = Ok tt ->
  exists ids, chain_from (follow <$> es) first ids /\ last = tail_of ids /\ count = lenN ids /\ all_owned ids.
Proof.
  unfold validate_edge_chain. intros ([tail steps] & Hl & Hk)%rbind_Ok.
  apply edge_chain_sound in Hl as (ids & Hch & -> & -> & Hall).
  destruct (N.eqb_spec (0 + lenN ids) count); [|done]. simpl in Hk.
  destruct (N.eqb_spec (default NIL (list.last ids)) last); [|done]. exists ids. subst. done.
Qed.

Lemma validate_chain_complete first ids :
  chain_from (follow <$> es) first ids -> all_owned ids ->
  validate_edge_chain es first (tail_of ids) (lenN ids) follow owned = Ok tt.
Proof.
  intros Hch Hall. unfold validate_edge_chain.
  rewrite (edge_chain_complete (lenN ids) ids) by
    (done || (pose proof (chain_from_length _ _ _ Hch) as Hl; by rewrite length_fmap in Hl) || lia).
  simpl. rewrite N.eqb_refl. simpl. unfold tail_of. by rewrite N.eqb_refl.
Qed.
End chain.

Lemma validate_all_Ok {A} (check : A -> checked unit) l :
  validate_all check l = Ok tt <-> Forall (fun x => check x = Ok tt) l.
Proof.
  induction l as [|x l IH]; simpl; [done|]. rewrite Forall_cons, <- IH.
  destruct (check x) as [[]|e]; simpl; naive_solver.
Qed.

Lemma Forall_enumerate {A} (P : A * N -> Prop) (l : list A) :
  Forall P (enumerate l) <-> forall i x, tget l i = Some x -> P (x, i).
Proof.
  unfold enumerate, indices. rewrite Forall_forall. split.
  - intros HP i x Hx. apply HP. rewrite tget_lookup in Hx. apply list_elem_of_lookup. exists (N.to_nat i).
    apply lookup_zip_with_Some. exists x, i. split; [done|]. split; [done|].
    rewrite list_lookup_fmap, lookup_seq_lt by by eapply lookup_lt_Some. simpl. by rewrite N2Nat.id.
  - intros HP [x i] (j & (y & k & [= <- <-] & Hx & Hk)%lookup_zip_with_Some)%list_elem_of_lookup.
    apply list_lookup_fmap_Some in Hk as (k' & -> & [-> _]%lookup_seq). apply HP. by rewrite tget_lookup, Nat2N.id.
Qed.

(** ** A family of chains *)

Section cover.
Context (links owners : list N) (anchors : list anchor).

(** Each anchor's chain is owned and counted. *)
Definition anchored (o : N) (a : anchor) (ids : list N) : Prop :=
  chain_from links a.1.1 ids /\ a.1.2 = tail_of ids /\ a.2 = lenN ids /\ forall e, e ∈ ids -> tget owners e = Some o.

Definition family (start : nat) (as_ : list anchor) (css : list (list N)) : Prop :=
  forall i a, as_ !! i = Some a -> exists ids, css !! i = Some ids /\ anchored (N.of_nat (start + i)) a ids.

Lemma family_NoDup css : length css = length anchors -> family 0 anchors css -> NoDup (mjoin css).
Proof using.
  intros Hlen Hf.
  assert (Hown : forall i ids e, css !! i = Some ids -> e ∈ ids -> tget owners e = Some (N.of_nat i)).
  { intros i ids e Hi He. destruct (lookup_lt_is_Some_2 anchors i) as [a Ha]; [apply lookup_lt_Some in Hi; lia|].
    destruct (Hf i a Ha) as (ids' & Hi' & _ & _ & _ & Hall). simplify_eq. by apply Hall. }
  assert (Hnd : forall i ids, css !! i = Some ids -> NoDup ids).
  { intros i ids Hi. destruct (lookup_lt_is_Some_2 anchors i) as [a Ha]; [apply lookup_lt_Some in Hi; lia|].
    destruct (Hf i a Ha) as (ids' & Hi' & Hch & _). simplify_eq. by eapply chain_from_NoDup. }
  clear Hf Hlen. cut (forall start, (forall i ids e, css !! i = Some ids -> e ∈ ids -> tget owners e = Some (N.of_nat (start + i))) ->
    NoDup (mjoin css)); [intros Hc; by apply (Hc 0%nat)|]. clear Hown.
  induction css as [|ids css IH]; intros start Hown; [constructor|]. simpl. apply NoDup_app.
  split; [by apply (Hnd 0%nat)|]. split.
  - intros e He (ids' & He' & (j & Hj)%list_elem_of_lookup)%list_elem_of_join.
    pose proof (Hown 0%nat ids e eq_refl He) as H1. pose proof (Hown (S j) ids' e Hj He') as H2.
    rewrite H1 in H2. injection H2. lia.
  - apply (IH (fun i => Hnd (S i)) (S start)). intros i ids' e Hi He. rewrite (Hown (S i) ids' e Hi He). f_equal. lia.
Qed.

Lemma family_total css : length css = length anchors -> family 0 anchors css ->
  lenN (mjoin css) = total_of snd anchors.
Proof using.
  cut (forall as_ start, length css = length as_ -> family start as_ css -> lenN (mjoin css) = total_of snd as_);
    [intros Hc; apply (Hc anchors 0%nat)|].
  induction css as [|ids css IH]; intros [|a as_] start Hlen Hf; try done. simpl.
  destruct (Hf 0%nat a eq_refl) as (ids' & [= <-] & _ & _ & Ha & _). rewrite lenN_app, Ha. f_equal.
  apply (IH as_ (S start)); [simpl in Hlen; lia|]. intros i b Hb. destruct (Hf (S i) b Hb) as (k & Hk & Hanch).
  exists k. split; [done|]. by replace (S start + i)%nat with (start + S i)%nat by lia.
Qed.

Lemma family_exists : (forall o a, tget anchors o = Some a -> exists ids, anchored o a ids) ->
  exists css, length css = length anchors /\ family 0 anchors css.
Proof using.
  intros Hex. cut (forall as_ start, (forall i a, as_ !! i = Some a -> exists ids, anchored (N.of_nat (start + i)) a ids) ->
    exists css, length css = length as_ /\ family start as_ css).
  { intros Hc. apply (Hc anchors 0%nat). intros i a Ha. apply Hex. by rewrite tget_lookup, Nat2N.id. }
  induction as_ as [|a as_ IH]; intros start Hall.
  { exists []. split; [done|]. by intros i a Ha. }
  destruct (IH (S start)) as (css & Hlen & Hf).
  { intros i b Hb. destruct (Hall (S i) b Hb) as [ids Hids]. exists ids. by replace (S start + i)%nat with (start + S i)%nat by lia. }
  destruct (Hall 0%nat a eq_refl) as [ids Hids]. exists (ids :: css). split; [simpl; lia|]. intros [|i] b Hb; simpl in Hb.
  - injection Hb as <-. exists ids. split; [done | exact Hids].
  - destruct (Hf i b Hb) as (k & Hk & Hanch). exists k. split; [done|].
    by replace (start + S i)%nat with (S start + i)%nat by lia.
Qed.

(** Counting every row once is covering every row. *)
Lemma chains_wf_cover : length links = length owners ->
  (forall e o, tget owners e = Some o -> o < lenN anchors) ->
  (forall o a, tget anchors o = Some a -> exists ids, anchored o a ids) ->
  total_of snd anchors = lenN owners -> chains_wf links owners anchors.
Proof using.
  intros Hlen Hown Hex Htot. destruct (family_exists Hex) as (css & Hl & Hf).
  pose proof (family_NoDup css Hl Hf) as Hnd. pose proof (family_total css Hl Hf) as Hsum. rewrite Htot in Hsum.
  assert (Hsub : mjoin css ⊆+ indices owners).
  { apply NoDup_submseteq; [done|]. intros e (ids & He & (i & Hi)%list_elem_of_lookup)%list_elem_of_join.
    destruct (lookup_lt_is_Some_2 anchors i) as [a Ha]; [apply lookup_lt_Some in Hi; lia|].
    destruct (Hf i a Ha) as (ids' & Hi' & _ & _ & _ & Hall). simplify_eq.
    apply elem_of_indices. eapply tget_Some_lt. by apply Hall. }
  assert (Hperm : mjoin css ≡ₚ indices owners).
  { apply submseteq_length_Permutation; [done|]. rewrite indices_length. unfold lenN in Hsum. lia. }
  split; [done | done|]. intros o [[first last] count] Ha. pose proof Ha as Ha'. rewrite tget_lookup in Ha'.
  destruct (Hf _ _ Ha') as (ids & Hids & Hch & Ht & Hc & Hall). simpl in *. rewrite N2Nat.id in Hall.
  exists ids. split; [done|]. split; [done|]. split; [done|]. intros e. split; [apply Hall|]. intros He.
  assert (Hin : e ∈ mjoin css) by (rewrite Hperm; apply elem_of_indices; by eapply tget_Some_lt).
  apply list_elem_of_join in Hin as (ids' & He' & (j & Hj)%list_elem_of_lookup).
  destruct (lookup_lt_is_Some_2 anchors j) as [b Hb]; [apply lookup_lt_Some in Hj; lia|].
  destruct (Hf j b Hb) as (k & Hk & _ & _ & _ & Hall'). rewrite Hj in Hk. injection Hk as <-. specialize (Hall' e He').
  simpl in Hall'. rewrite Hall' in He. injection He as <-. rewrite Nat2N.id in Hids. by simplify_eq.
Qed.

Lemma chains_wf_total : chains_wf links owners anchors -> total_of snd anchors = lenN owners.
Proof using.
  intros [Hlen Hown Hex].
  destruct family_exists as (css & Hl & Hf).
  { intros o [[first last] count] Ha. destruct (Hex o _ Ha) as (ids & ? & ? & ? & Hiff). exists ids.
    split; [done|]. split; [done|]. split; [done|]. intros e. apply Hiff. }
  rewrite <- (family_total css Hl Hf). pose proof (family_NoDup css Hl Hf) as Hnd.
  assert (Hperm : mjoin css ≡ₚ indices owners).
  { apply NoDup_Permutation; [done | apply NoDup_indices|]. intros e. rewrite elem_of_indices. split.
    - intros (ids & He & (i & Hi)%list_elem_of_lookup)%list_elem_of_join.
      destruct (lookup_lt_is_Some_2 anchors i) as [a Ha]; [apply lookup_lt_Some in Hi; lia|].
      destruct (Hf i a Ha) as (ids' & Hi' & _ & _ & _ & Hall). simplify_eq. eapply tget_Some_lt. by apply Hall.
    - intros [o Ho]%tget_lt. pose proof (Hown e o Ho) as [a Ha]%tget_lt. destruct a as [[first last] count].
      destruct (Hex o _ Ha) as (ids & Hch & _ & _ & Hiff). pose proof Ha as Ha'. rewrite tget_lookup in Ha'.
      destruct (Hf _ _ Ha') as (ids' & Hids' & Hch' & _). simpl in Hch'.
      rewrite (chain_from_fun _ _ _ _ Hch' Hch) in Hids'. apply list_elem_of_join. exists ids.
      split; [by apply Hiff | by eapply list_elem_of_lookup_2]. }
  unfold lenN. by rewrite (Permutation_length Hperm), indices_length.
Qed.
End cover.
