(* ===== verification/ImageAttr.v ===== *)
(** * Loading attribution chains

    The scan claims every row once, in chain order, and rebuilds the two indexes
    the write path relies on. *)

From S2P Require Export ImageChains.

Local Open Scope N_scope.

Section scan.
Context (rows : list AttributionRecord) (sources_len : N).

Abbreviation links := (t_next <$> rows).
Abbreviation srcs := (t_source <$> rows).
Abbreviation counts := (t_count <$> rows).

(** What one linked row must satisfy. *)
Definition scan_row (t : AttributionId) : Prop := exists r, tget rows t = Some r /\
  t_source r < sources_len /\ 0 < t_count r /\ f64_finite (t_sum r) = true.

(** The state once the rows of [css], edge by edge, are claimed. *)
Record scanned (css : list (list N)) (st : ChainScan) : Prop := {
  sn_claimed : sc_claimed st = list_to_set (mjoin css);
  sn_disjoint : NoDup (mjoin css);
  sn_ids : forall e s t, sc_ids st !! (e, s) = Some t <->
    exists l, tget css e = Some l /\ t ∈ l /\ tget srcs t = Some s;
  sn_reverse : source_edges_wf (sc_source_edges st) (sc_ids st);
  sn_rows : forall t, t ∈ mjoin css -> scan_row t
}.

Lemma scanned_bound css st : scanned css st -> (length (mjoin css) <= length rows)%nat.
Proof.
  intros [_ Hnd _ _ Hr]. rewrite <- (indices_length rows). apply submseteq_length, NoDup_submseteq; [done|].
  intros t (r & Ht & _)%Hr. apply elem_of_indices. by eapply tget_Some_lt.
Qed.

Lemma tget_last_chain (cs : list (list N)) (l k : list N) e :
  tget (cs ++ [l]) e = Some k -> (e = lenN cs /\ k = l) \/ (e <> lenN cs /\ tget cs e = Some k).
Proof.
  intros [Hk|[-> ->]]%tget_snoc_inv; [right|by left]. split; [|done]. apply tget_Some_lt in Hk. lia.
Qed.

Lemma scanned_open css st : scanned css st -> scanned (css ++ [[]]) st.
Proof.
  intros [H1 H2 H3 H4 H5].
  assert (Hj : mjoin (css ++ [[]]) = mjoin css) by (rewrite join_app; simpl; apply app_nil_r).
  split; rewrite ?Hj; try done. intros e s t. rewrite H3. split.
  - intros (l & Hl & ?). exists l. split; [by apply tget_app_mono | done].
  - intros (l & [[-> ->]|[_ Hl]]%tget_last_chain & Ht & Hs); [by apply elem_of_nil in Ht | eauto].
Qed.

(** One more row on the open chain. *)
Lemma scanned_claim cs pre st t r : scanned (cs ++ [pre]) st ->
  t ∉ sc_claimed st -> tget rows t = Some r -> scan_row t -> sc_ids st !! (lenN cs, t_source r) = None ->
  scanned (cs ++ [pre ++ [t]])
    {| sc_claimed := {[t]} ∪ sc_claimed st; sc_ids := <[(lenN cs, t_source r) := t]> (sc_ids st);
       sc_source_edges := <[t_source r := default [] (sc_source_edges st !! t_source r) ++ [lenN cs]]> (sc_source_edges st) |}.
Proof.
  intros [H1 H2 H3 H4 H5] Hc Hr Hrow Hids.
  assert (Hj : mjoin (cs ++ [pre ++ [t]]) = mjoin (cs ++ [pre]) ++ [t]).
  { rewrite !join_app. simpl. rewrite !app_nil_r. by rewrite app_assoc. }
  rewrite H1, elem_of_list_to_set in Hc. split; simpl; rewrite ?Hj.
  - rewrite H1, list_to_set_app_L. set_solver.
  - apply NoDup_app. split; [done|]. split; [set_solver | apply NoDup_singleton].
  - intros e s u. split.
    + intros [[[= <- <-] <-]|[Hne Hu]]%lookup_insert_Some.
      * exists (pre ++ [t]). rewrite tget_snoc. split; [done|]. split; [set_solver|]. by rewrite tget_fmap, Hr.
      * apply H3 in Hu as (l & [[-> ->]|[Hn Hl]]%tget_last_chain & Hu & Hs).
        -- exists (pre ++ [t]). rewrite tget_snoc. split; [done|]. split; [set_solver | done].
        -- exists l. split; [by apply tget_app_mono | done].
    + intros (l & [[-> ->]|[Hn Hl]]%tget_last_chain & Hu & Hs).
      * apply elem_of_app in Hu as [Hu| ->%list_elem_of_singleton].
        -- rewrite lookup_insert_ne; [apply H3; exists pre; by rewrite tget_snoc|].
           intros [= <-]. assert (Hx : sc_ids st !! (lenN cs, t_source r) = Some u); [|congruence].
           apply H3. exists pre. by rewrite tget_snoc.
        -- rewrite tget_fmap, Hr in Hs. injection Hs as <-. apply lookup_insert_eq.
      * rewrite lookup_insert_ne by congruence. apply H3. exists l. split; [by apply tget_app_mono | done].
  - by apply source_edges_wf_push.
  - intros u [Hu| ->%list_elem_of_singleton]%elem_of_app; [by apply H5 | done].
Qed.

Lemma chain_total_cons t l r : tget rows t = Some r -> chain_total counts (t :: l) = t_count r + chain_total counts l.
Proof. intros Hr. simpl. by rewrite tget_fmap, Hr. Qed.

Lemma last_default {A} (a b : A) l : default a (last (b :: l)) = default b (last l).
Proof. by destruct l as [|c l _] using rev_ind; rewrite ?app_comm_cons, ?last_snoc. Qed.

Lemma attribution_scan_sound cs fuel : forall pre st cursor tail cc tail' cc' st',
  scanned (cs ++ [pre]) st ->
  attribution_scan fuel rows sources_len (lenN cs) cursor tail cc st = Some (Ok (tail', cc', st')) ->
  exists post, chain_from links cursor post /\ scanned (cs ++ [pre ++ post]) st' /\
    tail' = default tail (last post) /\ cc' = cc + chain_total counts post.
Proof.
  induction fuel as [|fuel IH]; intros pre st cursor tail cc tail' cc' st' Hs; simpl;
    (destruct (N.eqb_spec cursor NIL) as [->|Hc];
     [intros [= <- <- <-]; exists []; rewrite app_nil_r; split; [done|]; split; [done|]; split; [done | simpl; lia]|]);
    [done|].
  destruct (tget rows cursor) as [r|] eqn:Hr; [|done]. case_decide as Hcl; [done|].
  destruct (N.leb_spec sources_len (t_source r)); [done|].
  destruct (f64_finite (t_sum r)) eqn:Hf; [|done]. simpl.
  destruct (sc_ids st !! _) eqn:Hids; [done|]. destruct (N.eqb_spec (t_count r) 0); [done|].
  unfold checked_add. destruct (cc + t_count r <=? U64_MAX); [|done].
  assert (Hrow : scan_row cursor) by (exists r; split; [done|]; split; [done|]; split; [lia | done]).
  intros (post & Hch & Hs' & -> & ->)%(IH (pre ++ [cursor]));
    [|by apply scanned_claim].
  exists (cursor :: post). rewrite <- app_assoc in Hs'. split; [|split; [done|split]].
  - simpl. split; [done|]. split; [done|]. exists (t_next r). by rewrite tget_fmap, Hr.
  - by rewrite last_default.
  - rewrite (chain_total_cons _ _ _ Hr). lia.
Qed.

Lemma attribution_scan_complete cs post : forall fuel pre st cursor tail cc,
  scanned (cs ++ [pre]) st -> chain_from links cursor post -> NoDup (mjoin (cs ++ [pre ++ post])) ->
  (forall t, t ∈ post -> scan_row t) -> NoDup ((fun t => tget srcs t) <$> pre ++ post) ->
  cc + chain_total counts post <= U64_MAX -> (length post < fuel)%nat ->
  exists st', attribution_scan fuel rows sources_len (lenN cs) cursor tail cc st =
    Some (Ok (default tail (last post), cc + chain_total counts post, st')).
Proof.
  induction post as [|t post IH]; intros fuel pre st cursor tail cc Hs Hch Hnd Hrows Hsrc Hcc Hfuel.
  - simpl in Hch. subst cursor. exists st. simpl. rewrite N.add_0_r. by destruct fuel.
  - destruct Hch as (-> & Hn & nx & Hnx & Hch). destruct fuel as [|fuel]; [simpl in Hfuel; lia|]. simpl.
    destruct (N.eqb_spec t NIL); [done|].
    destruct (Hrows t ltac:(by left)) as (r & Hr & Hsl & Hcnt & Hf). pose proof Hr as Hr'.
    rewrite Hr. rewrite tget_fmap, Hr in Hnx. injection Hnx as <-.
    assert (Hcl : t ∉ sc_claimed st).
    { rewrite (sn_claimed _ _ Hs), elem_of_list_to_set. intros Hin.
      assert (Hj : mjoin (cs ++ [pre ++ t :: post]) = mjoin (cs ++ [pre]) ++ t :: post).
      { rewrite !join_app. simpl. rewrite !app_nil_r. by rewrite app_assoc. }
      rewrite Hj in Hnd. apply NoDup_app in Hnd as (_ & Hd & _). apply (Hd t Hin). by left. }
    case_decide; [done|]. destruct (N.leb_spec sources_len (t_source r)); [lia|]. rewrite Hf. simpl.
    assert (Hids : sc_ids st !! (lenN cs, t_source r) = None).
    { destruct (sc_ids st !! _) as [u|] eqn:Hu; [|done]. exfalso.
      apply (sn_ids _ _ Hs) in Hu as (l & Hl & Hul & Hus). rewrite tget_snoc in Hl. injection Hl as <-.
      rewrite fmap_app in Hsrc. apply NoDup_app in Hsrc as (_ & Hd & _).
      apply (Hd (Some (t_source r))).
      - rewrite <- Hus. by apply (list_elem_of_fmap_2 (fun t => tget srcs t)).
      - csimpl. rewrite tget_fmap, Hr. by left. }
    rewrite Hids. destruct (N.eqb_spec (t_count r) 0); [lia|].
    rewrite (chain_total_cons _ _ _ Hr) in Hcc. unfold checked_add.
    destruct (N.leb_spec (cc + t_count r) U64_MAX); [|lia].
    assert (Hs' := scanned_claim cs pre st t r Hs Hcl Hr (Hrows t ltac:(by left)) Hids).
    edestruct (IH fuel (pre ++ [t]) _ (t_next r) t (cc + t_count r) Hs' Hch) as [st' Hrun].
    + by rewrite <- app_assoc.
    + intros u Hu. apply Hrows. by right.
    + by rewrite <- app_assoc.
    + lia.
    + simpl in Hfuel. lia.
    + exists st'. rewrite Hrun, last_default, tget_fmap, Hr. simpl. do 3 f_equal. f_equal. lia.
Qed.

Lemma attribution_scan_total cs fuel : forall pre st cursor tail cc, scanned (cs ++ [pre]) st ->
  (length rows < fuel + length (mjoin (cs ++ [pre])))%nat ->
  is_Some (attribution_scan fuel rows sources_len (lenN cs) cursor tail cc st).
Proof.
  induction fuel as [|fuel IH]; intros pre st cursor tail cc Hs Hf.
  { apply scanned_bound in Hs. simpl in Hf. lia. }
  simpl. destruct (cursor =? NIL); [by eexists|]. destruct (tget rows cursor) as [r|] eqn:Hr; [|by eexists].
  case_decide as Hcl; [by eexists|]. destruct (N.leb_spec sources_len (t_source r)); [by eexists|].
  destruct (f64_finite (t_sum r)) eqn:Hfin; [|by eexists]. simpl.
  destruct (sc_ids st !! _) eqn:Hids; [by eexists|]. destruct (N.eqb_spec (t_count r) 0); [by eexists|].
  destruct (checked_add _ _ _); [|by eexists]. apply (IH (pre ++ [cursor])).
  - apply scanned_claim; [done | done | done | | done]. exists r. split; [done|]. split; [done|]. split; [lia | done].
  - revert Hf. rewrite !join_app. simpl. rewrite !app_nil_r, !length_app. simpl. lia.
Qed.

(** ** All edges *)

Definition edge_scans (e : EdgeRecord) (l : list N) : Prop :=
  chain_from links (e_first_attribution e) l /\ e_last_attribution e = tail_of l /\
  chain_total counts l <= e_count e /\ f64_finite (e_sum e) = true.

Lemma index_attributions_sound rest : forall cs dead st dead' st', scanned cs st ->
  index_attributions_loop rows sources_len (numbered (length cs) rest) dead st = Some (Ok (dead', st')) ->
  exists css, scanned (cs ++ css) st' /\ Forall2 edge_scans rest css /\ dead' = dead + count_dead rest.
Proof.
  induction rest as [|e rest IH]; intros cs dead st dead' st' Hs.
  - intros [= <- <-]. exists []. rewrite app_nil_r. split; [done|]. split; [constructor|].
    unfold count_dead, lenN. simpl. lia.
  - rewrite numbered_cons. cbn [index_attributions_loop]. destruct (f64_finite (e_sum e)) eqn:Hf; [|done].
    cbn [negb]. intros ([[tail cc] st1] & H1 & Hk)%abind_Ok. fold (lenN cs) in H1.
    apply (attribution_scan_sound cs _ [] st) in H1 as (l & Hch & Hs1 & -> & ->); [|by apply scanned_open].
    destruct (N.eqb_spec (default NIL (last l)) (e_last_attribution e)) as [Ht|]; [|done]. cbn [negb] in Hk.
    destruct (N.ltb_spec (e_count e) (0 + chain_total counts l)); [done|]. simpl in Hs1.
    destruct (IH (cs ++ [l]) (if e_count e =? 0 then dead + 1 else dead) st1 dead' st' Hs1) as (css & Hs2 & H2 & ->).
    { rewrite length_app. simpl. rewrite Nat.add_1_r. exact Hk. }
    exists (l :: css). rewrite <- app_assoc in Hs2. split; [done|]. split.
    + constructor; [|done]. split; [done|]. split; [by rewrite <- Ht|]. split; [lia | done].
    + change (e :: rest) with ([e] ++ rest). rewrite count_dead_app.
      assert (Hd : count_dead [e] = if e_count e =? 0 then 1 else 0).
      { unfold count_dead, is_dead. rewrite filter_cons. by destruct (e_count e =? 0). }
      rewrite Hd. destruct (e_count e =? 0); lia.
Qed.

Lemma index_attributions_complete rest css : Forall2 edge_scans rest css ->
  forall cs dead st, scanned cs st -> NoDup (mjoin (cs ++ css)) ->
  (forall l, l ∈ css -> (forall t, t ∈ l -> scan_row t) /\ NoDup ((fun t => tget srcs t) <$> l)) ->
  Forall (fun e => e_count e <= U64_MAX) rest ->
  exists st', index_attributions_loop rows sources_len (numbered (length cs) rest) dead st =
    Some (Ok (dead + count_dead rest, st')).
Proof.
  induction 1 as [|e l rest css (Hch & Htail & Hcnt & Hf) H2 IH]; intros cs dead st Hs Hnd Hl Hmax.
  { exists st. simpl. unfold count_dead, lenN. simpl. by rewrite N.add_0_r. }
  apply Forall_cons in Hmax as [He Hmax]. rewrite numbered_cons. cbn [index_attributions_loop]. rewrite Hf. cbn [negb].
  destruct (Hl l ltac:(by left)) as [Hrows Hsrc]. pose proof Hnd as Hnd'.
  change (l :: css) with ([l] ++ css) in Hnd. rewrite app_assoc, join_app in Hnd. apply NoDup_app in Hnd as (Hnd & _ & _).
  destruct (attribution_scan_complete cs l (S (length rows)) [] st (e_first_attribution e) NIL 0)
    as [st1 H1]; [by apply scanned_open | done | done | done | done | lia | |].
  { pose proof (chain_from_length _ _ _ Hch) as Hlen. rewrite length_fmap in Hlen. lia. }
  fold (lenN cs). rewrite H1. cbn [abind]. pose proof H1 as Hs1.
  apply (attribution_scan_sound cs _ [] st) in Hs1 as (l' & Hch' & Hs1 & _); [|by apply scanned_open].
  rewrite (chain_from_fun _ _ _ _ Hch' Hch) in Hs1. simpl in Hs1. fold (tail_of l). rewrite Htail, N.eqb_refl.
  cbn [negb]. destruct (N.ltb_spec (e_count e) (0 + chain_total counts l)); [lia|].
  destruct (IH (cs ++ [l]) (if e_count e =? 0 then dead + 1 else dead) st1 Hs1) as [st' Hrun].
  - by rewrite <- app_assoc.
  - intros k Hk. apply Hl. by right.
  - done.
  - rewrite length_app in Hrun. simpl in Hrun. rewrite Nat.add_1_r in Hrun. rewrite Hrun. exists st'.
    change (e :: rest) with ([e] ++ rest). rewrite count_dead_app.
    assert (Hd : count_dead [e] = if e_count e =? 0 then 1 else 0).
    { unfold count_dead, is_dead. rewrite filter_cons. by destruct (e_count e =? 0). }
    rewrite Hd. do 3 f_equal. destruct (e_count e =? 0); lia.
Qed.

Lemma index_attributions_total rest : forall cs dead st, scanned cs st ->
  is_Some (index_attributions_loop rows sources_len (numbered (length cs) rest) dead st).
Proof.
  induction rest as [|e rest IH]; intros cs dead st Hs; [by eexists|].
  rewrite numbered_cons. cbn [index_attributions_loop]. destruct (negb (f64_finite (e_sum e))); [by eexists|].
  apply attempt_total.
  { fold (lenN cs). apply (attribution_scan_total cs _ []); [by apply scanned_open | lia]. }
  intros [[tail cc] st1] H1. fold (lenN cs) in H1.
  apply (attribution_scan_sound cs _ [] st) in H1 as (l & _ & Hs1 & _); [|by apply scanned_open].
  destruct (negb _); [by eexists|]. destruct (_ <? _); [by eexists|].
  specialize (IH (cs ++ [l]) (if e_count e =? 0 then dead + 1 else dead) st1 Hs1).
  rewrite length_app in IH. simpl in IH. by rewrite Nat.add_1_r in IH.
Qed.
End scan.
