(* ===== verification/RestoreThm.v ===== *)
(** * [from_bytes] restores exactly the well-formed contexts

    Whatever bytes come in, a context that comes out satisfies the invariant; and
    the image of a context restores it, indexes included. *)

From S2P Require Export ImageAttr Image.

Local Open Scope N_scope.

(** The persisted part of a context. *)
Definition unindexed (c : Context) : Context := {|
  arena := arena c; concepts := concepts c; labels := labels c; sources := sources c;
  edges := edges c; attributions := attributions c; concept_aliases := concept_aliases c;
  label_aliases := label_aliases c; attribution_locators := attribution_locators c;
  concept_ids := ∅; label_ids := ∅; source_ids := ∅; concept_alias_index := ∅; label_alias_index := ∅;
  label_name_index := ∅; edge_ids := ∅; attribution_ids := ∅; source_edges := ∅;
  concept_index := EntryIndex_default; label_index := EntryIndex_default; dice_floor := None;
  applied_seq := applied_seq c; dead_edges := 0; dead_attributions := 0; arena_slack := 0
|}.

Lemma facts_unindexed c : facts (unindexed c) = facts c.
Proof. reflexivity. Qed.

(** What the codec guarantees of any tables it returns. *)
Record tables_fit (c : Context) : Prop := {
  tf_sizes : sizes_wf c;
  tf_edges : Forall (fun e => e_count e <= U64_MAX) (edges c);
  tf_rows : Forall row_repr (attributions c);
  tf_locators : Forall locator_fits (attribution_locators c);
  tf_seq : applied_seq c <= U64_MAX
}.

(** ** Locators *)

Lemma locators_sound len table : forall prev, locators_loop len prev table = Ok tt ->
  Forall (fun k => k_attribution k < len) table /\ StronglySorted N.lt (k_attribution <$> table) /\
  match prev with Some p => Forall (fun k => p < k_attribution k) table | None => True end.
Proof.
  induction table as [|k table IH]; intros prev; simpl; [by intros _; destruct prev; repeat constructor|].
  destruct (N.leb_spec len (k_attribution k)); [done|].
  destruct (match prev with Some p => k_attribution k <=? p | None => false end) eqn:Hp; [done|].
  intros (H1 & H2 & H3)%IH. split; [by constructor|]. split.
  - constructor; [done|]. by rewrite Forall_fmap.
  - destruct prev as [p|]; [|done]. apply N.leb_gt in Hp. constructor; [done|].
    eapply Forall_impl; [exact H3|]. simpl. intros. lia.
Qed.

Lemma locators_complete len table : Forall (fun k => k_attribution k < len) table ->
  StronglySorted N.lt (k_attribution <$> table) ->
  forall prev, match prev with Some p => Forall (fun k => p < k_attribution k) table | None => True end ->
  locators_loop len prev table = Ok tt.
Proof.
  induction 1 as [|k table Hk _ IH]; intros Hs prev Hp; simpl; [done|].
  destruct (N.leb_spec len (k_attribution k)); [lia|].
  rewrite fmap_cons in Hs. apply StronglySorted_inv in Hs as [Hs Hall].
  replace (match prev with Some p => k_attribution k <=? p | None => false end) with false.
  - apply IH; [done|]. by rewrite Forall_fmap in Hall.
  - destruct prev as [p|]; [|done]. apply Forall_cons in Hp as [Hp _]. symmetry. by apply N.leb_gt.
Qed.

(** ** Auxiliary facts *)

Lemma loading_empty `{UnicodeTables} arena als : loading arena [] []
  {| an_aliases := als; an_index := EntryIndex_default; an_ids := ∅; an_alias_index := ∅ |} [] [].
Proof. split; [apply ns_ok_empty | done | split; [apply ei_ok_default | done]]. Qed.

Lemma scanned_empty rows sl :
  scanned rows sl [] {| sc_claimed := ∅; sc_ids := ∅; sc_source_edges := ∅ |}.
Proof.
  split; simpl; [done | constructor | | apply source_edges_wf_empty | by intros t ?%elem_of_nil].
  intros e s t. rewrite lookup_empty. split; [done|]. intros (l & Hl & _). by rewrite tget_lookup in Hl.
Qed.

Lemma chain_next links cur ids t nx : chain_from links cur ids -> t ∈ ids -> tget links t = Some nx ->
  nx = NIL \/ nx < lenN links.
Proof.
  revert cur. induction ids as [|i ids IH]; intros cur Hc Ht Hnx; [by apply elem_of_nil in Ht|].
  destruct Hc as (-> & _ & nx' & Hnx' & Hc). apply elem_of_cons in Ht as [->|Ht]; [|by eapply IH].
  rewrite Hnx in Hnx'. injection Hnx' as ->. destruct ids as [|j ids]; [by left|].
  right. destruct Hc as (-> & _ & nx & Hj & _). by eapply tget_Some_lt.
Qed.

Lemma unclaimed_count {A} (rows : list A) (l : list N) : NoDup l -> (forall t, t ∈ l -> t < lenN rows) ->
  lenN (filter (fun t => t ∉ (list_to_set l : gset N)) (indices rows)) + lenN l = lenN rows.
Proof.
  intros Hnd Hlt. assert (Hp : filter (fun t => t ∉ (list_to_set l : gset N)) (indices rows) ++ l ≡ₚ indices rows).
  { apply NoDup_Permutation; [| apply NoDup_indices |].
    - apply NoDup_app. split; [apply NoDup_filter, NoDup_indices|]. split; [|done].
      intros t [Ht _]%list_elem_of_filter Hin. apply Ht. by apply elem_of_list_to_set.
    - intros t. rewrite elem_of_app, list_elem_of_filter, elem_of_list_to_set, elem_of_indices. split.
      + intros [[_ ?]|?]; [done | auto].
      + intros Ht. destruct (decide (t ∈ l)); auto. }
  apply Permutation_length in Hp. rewrite length_app, indices_length in Hp. unfold lenN. lia.
Qed.

Lemma total_of_fmap {A B} (f : A -> B) (g : B -> N) l : total_of g (f <$> l) = total_of (fun x => g (f x)) l.
Proof. unfold total_of. induction l as [|x l IH]; [done|]. csimpl. by rewrite IH. Qed.

Lemma anchored_chains {R} (get : R -> anchor) (follow : EdgeRecord -> EdgeId) (owner : EdgeRecord -> N)
    (es : list EdgeRecord) (table : list R) :
  (forall e o, tget (owner <$> es) e = Some o -> o < lenN table) ->
  (forall o r, tget table o = Some r -> exists ids, chain_from (follow <$> es) (get r).1.1 ids /\
     (get r).1.2 = tail_of ids /\ (get r).2 = lenN ids /\ all_owned es (fun e => owner e =? o) ids) ->
  total_of (fun r => (get r).2) table = lenN es ->
  chains_wf (follow <$> es) (owner <$> es) (get <$> table).
Proof.
  intros Hown Hex Htot. apply chains_wf_cover; [by rewrite !length_fmap | by rewrite lenN_fmap | |].
  - intros o a. rewrite tget_fmap. intros (r & Hr & ->)%fmap_Some. destruct (Hex o r Hr) as (ids & Hc & Ht & Hn & Hall).
    exists ids. split; [done|]. split; [done|]. split; [done|]. intros e He.
    destruct (Hall e He) as (ed & Hed & Ho). rewrite tget_fmap, Hed. simpl. f_equal. by apply N.eqb_eq.
  - by rewrite lenN_fmap, <- Htot, total_of_fmap.
Qed.

(** The converse: the invariant's chains pass the validation. *)
Lemma chains_anchored {R} (get : R -> anchor) (follow : EdgeRecord -> EdgeId) (owner : EdgeRecord -> N)
    (es : list EdgeRecord) (table : list R) :
  chains_wf (follow <$> es) (owner <$> es) (get <$> table) ->
  (forall o r, tget table o = Some r -> exists ids, chain_from (follow <$> es) (get r).1.1 ids /\
     (get r).1.2 = tail_of ids /\ (get r).2 = lenN ids /\ all_owned es (fun e => owner e =? o) ids) /\
  total_of (fun r => (get r).2) table = lenN es.
Proof.
  intros Hc. split.
  - intros o r Hr. destruct (get r) as [[first last] count] eqn:Hg.
    pose proof (chains_each _ _ _ Hc o (get r) ltac:(by rewrite tget_fmap, Hr)) as Hk. rewrite Hg in Hk.
    destruct Hk as (ids & ? & ? & ? & Hiff). exists ids. split; [done|]. split; [done|]. split; [done|].
    intros e He%Hiff. rewrite tget_fmap in He. apply fmap_Some in He as (ed & Hed & ->). exists ed.
    split; [done | apply N.eqb_refl].
  - apply chains_wf_total in Hc. by rewrite lenN_fmap, total_of_fmap in Hc.
Qed.

(** ** Soundness of the rebuild *)

(** Keep a context built by updates in record form: nested updates of an opaque
    context copy it at every field. *)
Ltac ctx_record H :=
  cbv beta iota delta [arena concepts labels sources edges attributions concept_aliases label_aliases attribution_locators concept_ids label_ids source_ids concept_alias_index label_alias_index label_name_index edge_ids attribution_ids source_edges concept_index label_index dice_floor applied_seq dead_edges dead_attributions arena_slack
    set_arena set_concept_aliases set_label_aliases set_concept_ids set_label_ids set_source_ids set_concept_alias_index set_label_alias_index set_label_name_index set_edge_ids set_attribution_ids set_source_edges set_concept_index set_label_index set_dead_edges set_dead_attributions set_arena_slack put_concept put_label concept_handle label_handle an_aliases an_index an_ids an_alias_index] in H.

Section rebuild.
Context `{UnicodeTables}.

Lemma validate_concepts_sound es table :
  validate_all (validate_concept_chains es) (enumerate table) = Ok tt ->
  forall o r, tget table o = Some r ->
    (exists ids, chain_from (e_next_outgoing <$> es) (out_anchor r).1.1 ids /\ (out_anchor r).1.2 = tail_of ids /\
      (out_anchor r).2 = lenN ids /\ all_owned es (fun e => e_subject e =? o) ids) /\
    (exists ids, chain_from (e_next_incoming <$> es) (in_anchor r).1.1 ids /\ (in_anchor r).1.2 = tail_of ids /\
      (in_anchor r).2 = lenN ids /\ all_owned es (fun e => e_object e =? o) ids).
Proof using.
  intros Hall o r Hr. pose proof (proj1 (Forall_enumerate _ _) (proj1 (validate_all_Ok _ _) Hall) o r Hr) as Hv.
  simpl in Hv. apply rbind_Ok in Hv as ([] & H1 & H2).
  apply validate_chain_sound in H1, H2. done.
Qed.

Lemma validate_labels_sound es table :
  validate_all (validate_label_chain es) (enumerate table) = Ok tt ->
  forall o r, tget table o = Some r ->
    exists ids, chain_from (e_next_labeled <$> es) (label_anchor r).1.1 ids /\ (label_anchor r).1.2 = tail_of ids /\
      (label_anchor r).2 = lenN ids /\ all_owned es (fun e => e_label e =? o) ids.
Proof using.
  intros Hall o r Hr. pose proof (proj1 (Forall_enumerate _ _) (proj1 (validate_all_Ok _ _) Hall) o r Hr) as Hv.
  by apply validate_chain_sound in Hv.
Qed.

Lemma validate_chains_sound c : validate_chains c = Ok tt ->
  Forall (edge_in_range (lenN (concepts c)) (lenN (labels c))) (edges c) ->
  chains_wf (e_next_outgoing <$> edges c) (e_subject <$> edges c) (out_anchor <$> concepts c) /\
  chains_wf (e_next_incoming <$> edges c) (e_object <$> edges c) (in_anchor <$> concepts c) /\
  chains_wf (e_next_labeled <$> edges c) (e_label <$> edges c) (label_anchor <$> labels c).
Proof using.
  unfold validate_chains. intros ([] & Hc & ([] & Hl & Ht)%rbind_Ok)%rbind_Ok Hrange.
  destruct (N.eqb_spec (total_of c_outgoing_count (concepts c)) (lenN (edges c))) as [Htot|]; [|done].
  destruct (N.eqb_spec (total_of c_incoming_count (concepts c)) (lenN (edges c))) as [Htoti|]; [|done].
  destruct (N.eqb_spec (total_of l_edge_count (labels c)) (lenN (edges c))) as [Htotl|]; [|done]. clear Ht.
  pose proof (validate_concepts_sound _ _ Hc) as HC. pose proof (validate_labels_sound _ _ Hl) as HL.
  assert (Hr : forall e ed, tget (edges c) e = Some ed -> edge_in_range (lenN (concepts c)) (lenN (labels c)) ed).
  { intros e ed He. rewrite tget_lookup in He. by eapply Forall_lookup_1 in Hrange. }
  split; [|split]; apply anchored_chains; try done.
  - intros e o. rewrite tget_fmap. intros (ed & He & ->)%fmap_Some. apply (Hr e ed He).
  - intros o r Hr'. apply (HC o r Hr').
  - intros e o. rewrite tget_fmap. intros (ed & He & ->)%fmap_Some. apply (Hr e ed He).
  - intros o r Hr'. apply (HC o r Hr').
  - intros e o. rewrite tget_fmap. intros (ed & He & ->)%fmap_Some. apply (Hr e ed He).
Qed.

(** The attribution side of the invariant, from the scan. *)
Lemma scanned_attributions es rows sl css st : scanned rows sl css st -> Forall2 (edge_scans rows) es css ->
  attr_wf (e_ends <$> es) (t_next <$> rows) (t_source <$> rows) (sc_ids st) css /\
  lenN (filter (fun t => t ∉ sc_claimed st) (indices rows)) + lenN (mjoin css) = lenN rows /\
  totals_cover (e_count <$> es) (t_count <$> rows) css /\
  (Forall row_repr rows -> rows_wf sl (sc_ids st) rows).
Proof using.
  intros [H1 H2 H3 H4 H5] HF.
  assert (Hlt : forall t, t ∈ mjoin css -> t < lenN rows) by (intros t (r & Ht & _)%H5; by eapply tget_Some_lt).
  assert (Hch : Forall2 (fun p l => chain_from (t_next <$> rows) p.1 l /\ p.2 = tail_of l) (e_ends <$> es) css).
  { apply Forall2_fmap_l. eapply Forall2_impl; [exact HF|]. intros e l (? & ? & _). done. }
  split; [|split; [|split]].
  - split; [done | done | done | by rewrite !length_fmap].
  - rewrite H1. by apply unclaimed_count.
  - apply Forall2_fmap_l. eapply Forall2_impl; [exact HF|]. intros e l (_ & _ & ? & _). done.
  - intros Hrepr. split; [done|]. intros [e1 s1] t r Hk Hr.
    apply H3 in Hk as (l & Hl & Htl & Hs).
    assert (Hin : t ∈ mjoin css) by (apply elem_of_mjoin_tget; eauto).
    destruct (H5 t Hin) as (r' & Hr' & Hsl & Hcnt & Hf). rewrite Hr in Hr'. injection Hr' as <-.
    destruct (Forall2_tget_r _ _ _ _ _ Hch Hl) as (p & _ & Hc & _).
    pose proof (chain_next _ _ _ t (t_next r) Hc Htl ltac:(by rewrite tget_fmap, Hr)) as Hn. rewrite lenN_fmap in Hn.
    split; [done|]. split; [done|]. split; [|done]. split; [done|].
    rewrite tget_lookup in Hr. eapply Forall_lookup_1 in Hrepr as (_ & _ & ?); done.
Qed.

(** The phases, one call at a time. *)
Lemma index_names_inv c c1 : index_names c = Some (Ok c1) -> exists d1 d2 ns h1 lns h2 sids,
  index_records d1 (arena c) (numbered (length (@nil name_range)) (c_range <$> concepts c)) (concept_handle c) = Some (Ok (ns, h1)) /\
  index_records d2 (arena c) (numbered (length (@nil name_range)) (l_range <$> labels c)) (label_handle c) = Some (Ok (lns, h2)) /\
  index_sources (arena c) (numbered (length (@nil name_range)) (s_range <$> sources c)) (source_ids c) = Ok sids /\
  c1 = set_source_ids sids (set_label_name_index (list_to_set lns ∪ label_name_index c)
    (put_label (arena c) h2 (arena_slack c) (put_concept (arena c) h1 (arena_slack c) c))).
Proof using.
  unfold index_names. intros ([ns h1] & HN1 & Hk)%abind_Ok. apply abind_Ok in Hk as ([lns h2] & HN2 & Hk).
  apply abind_Ok in Hk as (sids & HN3 & Hk). injection Hk as <-. injection HN3 as HN3.
  eexists _, _, ns, h1, lns, h2, sids. split; [exact HN1|]. split; [exact HN2|]. split; [exact HN3|]. reflexivity.
Qed.

Lemma index_aliases_inv c c1 : index_aliases c = Some (Ok c1) -> exists u1 d1 u2 d2 h1 h2,
  index_alias_table u1 d1 (arena c) (lenN (c_range <$> concepts c)) (concept_aliases c) (concept_handle c) = Some (Ok h1) /\
  index_alias_table u2 d2 (arena c) (lenN (l_range <$> labels c)) (label_aliases c) (label_handle c) = Some (Ok h2) /\
  c1 = put_label (arena c) h2 (arena_slack c) (put_concept (arena c) h1 (arena_slack c) c).
Proof using.
  unfold index_aliases. intros (h1 & H1 & Hk)%abind_Ok. apply abind_Ok in Hk as (h2 & H2 & Hk). injection Hk as <-.
  rewrite !lenN_fmap. eexists _, _, _, _, h1, h2. split; [exact H1|]. split; [exact H2|]. reflexivity.
Qed.

Lemma index_edges_inv c c1 : index_edges c = Ok c1 -> exists ids,
  index_edges_loop (lenN (concepts c)) (lenN (labels c)) (numbered (length (@nil EdgeRecord)) (edges c)) (edge_ids c) = Ok ids /\
  c1 = set_edge_ids ids c.
Proof using. unfold index_edges. intros (ids & H1 & Hk)%rbind_Ok. injection Hk as <-. by exists ids. Qed.

Lemma index_attributions_inv c c1 : index_attributions c = Some (Ok c1) -> exists dead st,
  index_attributions_loop (attributions c) (lenN (sources c)) (numbered (length (@nil (list N))) (edges c)) 0
    {| sc_claimed := ∅; sc_ids := attribution_ids c; sc_source_edges := source_edges c |} = Some (Ok (dead, st)) /\
  c1 = set_attribution_ids (sc_ids st) (set_source_edges (sc_source_edges st) (set_dead_edges dead
    (set_dead_attributions (lenN (filter (fun t => t ∉ sc_claimed st) (indices (attributions c)))) c))).
Proof using.
  unfold index_attributions. intros ([dead st] & H1 & Hk)%abind_Ok. injection Hk as <-. by exists dead, st.
Qed.

Theorem rebuild_sound c0 c' : c0 = unindexed c0 -> tables_fit c0 -> rebuild_indexes c0 = Some (Ok c') ->
  wf c' /\ unindexed c' = c0.
Proof.
  destruct c0 as [ar cs ls ss es ts cal lal ks ci li si cai lai lni ei ai se cx lx df seq de da sl].
  intros Hfresh [Hsz Htot Hrows Hloc Hseq]. injection Hfresh as -> -> -> -> -> -> -> -> -> -> -> -> -> -> ->.
  simpl in *. unfold rebuild_indexes. intros (c1 & Hnames & Hrun)%abind_Ok.
  apply abind_Ok in Hrun as (c2 & Hals & Hrun). apply abind_Ok in Hrun as (c3 & Hed & Hrun).
  apply abind_Ok in Hrun as ([] & Hch & Hrun). apply abind_Ok in Hrun as (c4 & Hat & Hrun).
  apply abind_Ok in Hrun as ([] & Hlo & Hrun).
  (* names *)
  apply index_names_inv in Hnames as (d1 & d2 & ns & h1 & lns & h2 & sids & HN1 & HN2 & HN3 & Hc).
  destruct (index_records_sound d1 ar _ [] _ [] ns h1 (loading_empty ar cal) HN1) as (HC & HCa & _).
  destruct (index_records_sound d2 ar _ [] _ [] lns h2 (loading_empty ar lal) HN2) as (HL & HLa & _).
  destruct (index_sources_sound ar _ [] ∅ [] sids (ns_ok_empty ar) HN3) as [sns HS].
  simpl in HC, HL, HS, HCa, HLa. destruct h1 as [a1 x1 i1 ai1], h2 as [a2 x2 i2 ai2]. simpl in HCa, HLa. subst a1 a2.
  ctx_record Hc. subst c1. clear HN1 HN2 HN3.
  (* aliases *)
  apply index_aliases_inv in Hals as (u1 & d3 & u2 & d4 & h3 & h4 & HA1 & HA2 & Hc).
  ctx_record HA1. ctx_record HA2.
  destruct (index_alias_table_sound _ _ ar _ _ [] _ ns [] h3 HC HA1) as (al & HC' & HCa).
  destruct (index_alias_table_sound _ _ ar _ _ [] _ lns [] h4 HL HA2) as (lal' & HL' & HLa).
  simpl in HC', HL'. destruct h3 as [a3 x3 i3 ai3], h4 as [a4 x4 i4 ai4]. simpl in HCa, HLa. subst a3 a4.
  ctx_record Hc. subst c2. clear HA1 HA2 HC HL.
  (* edges *)
  injection Hed as (eids & HE & Hc)%index_edges_inv. ctx_record HE. ctx_record Hc. subst c3.
  destruct (index_edges_sound _ _ _ [] ∅ eids ltac:(intros k e; rewrite lookup_empty, tget_lookup; done) HE) as [Htri Hrange].
  clear HE.
  (* chains *)
  injection Hch as (HO & HI & HLb)%validate_chains_sound; [|exact Hrange]. ctx_record HO. ctx_record HI. ctx_record HLb.
  (* attributions *)
  apply index_attributions_inv in Hat as (dead & st & HT & Hc). ctx_record HT. ctx_record Hc. subst c4.
  destruct (index_attributions_sound _ _ _ [] 0 _ dead st (scanned_empty ts (lenN ss)) HT) as (css & Hsc & HF & Hdead).
  simpl in Hsc, Hdead. destruct (scanned_attributions _ _ _ _ _ Hsc HF) as (Haw & Hda & Hcov & Hrw).
  injection Hlo as (Hl1 & Hl2 & _)%locators_sound. injection Hrun as Hc. unfold seed_arena_slack in Hc.
  ctx_record Hc. ctx_record Hl1. ctx_record Hl2. subst c'.
  split; [|done]. split; simpl; try done.
  - by exists ns, al.
  - exists lns, lal'. split; [done|]. simpl. set_solver.
  - by exists sns.
  - by exists css.
  - by apply Hrw.
  - apply (sn_reverse _ _ _ _ Hsc).
  - apply Forall_forall. intros e He. rewrite Forall_forall in Htot. split; [by apply Htot|].
    apply list_elem_of_lookup in He as [i He]. destruct (Forall2_lookup_l _ _ _ _ _ HF He) as (l & _ & _ & _ & _ & ?). done.
  - apply Forall_forall. intros k Hk. rewrite !Forall_forall in *. split; [by apply Hl1|].
    specialize (Hloc k Hk). unfold locator_fits in Hloc. split_fits. done.
  - destruct Hsz. split; done.
Qed.
End rebuild.

(** * A well-formed context passes its own validation

    The tables of a context that satisfies the invariant are accepted, below the
    entry-index ceiling no tables make the rebuild panic, and the indexes are a
    function of the tables. *)

(** One entry-index span per record and alias. *)
Definition index_room (c : Context) : Prop :=
  lenN (concepts c) + lenN (concept_aliases c) <= NIL /\ lenN (labels c) + lenN (label_aliases c) <= NIL.

Lemma enumerate_numbered {A} (l : list A) : enumerate l = numbered (length (@nil A)) l.
Proof. reflexivity. Qed.

Section complete.
Context `{UnicodeTables}.

Lemma validate_chains_complete c : wf c -> validate_chains c = Ok tt.
Proof using.
  intros Hwf. destruct (chains_anchored _ _ _ _ _ (wf_outgoing _ Hwf)) as [HO TO].
  destruct (chains_anchored _ _ _ _ _ (wf_incoming _ Hwf)) as [HI TI].
  destruct (chains_anchored _ _ _ _ _ (wf_labeled _ Hwf)) as [HL TL]. unfold validate_chains.
  assert (H1 : validate_all (validate_concept_chains (edges c)) (enumerate (concepts c)) = Ok tt).
  { apply validate_all_Ok, Forall_enumerate. intros o r Hr. simpl.
    destruct (HO o r Hr) as (ids & Hc & Ht & Hn & Hall), (HI o r Hr) as (jds & Jc & Jt & Jn & Jall).
    unfold out_anchor, in_anchor in *. simpl in *. rewrite Ht, Hn, Jt, Jn.
    rewrite validate_chain_complete by done. simpl. by apply validate_chain_complete. }
  assert (H2 : validate_all (validate_label_chain (edges c)) (enumerate (labels c)) = Ok tt).
  { apply validate_all_Ok, Forall_enumerate. intros o r Hr. simpl.
    destruct (HL o r Hr) as (ids & Hc & Ht & Hn & Hall). unfold label_anchor in *. simpl in *. rewrite Ht, Hn.
    by apply validate_chain_complete. }
  rewrite H1, H2. simpl. change (total_of c_outgoing_count (concepts c) = lenN (edges c)) in TO.
  change (total_of c_incoming_count (concepts c) = lenN (edges c)) in TI.
  change (total_of l_edge_count (labels c) = lenN (edges c)) in TL. by rewrite TO, TI, TL, N.eqb_refl.
Qed.

Lemma wf_chain_scans c chains : wf c -> attributions_wf c chains ->
  Forall2 (edge_scans (attributions c)) (edges c) chains /\
  (forall l, l ∈ chains -> (forall t, t ∈ l -> scan_row (attributions c) (lenN (sources c)) t) /\
    NoDup ((fun t => tget (t_source <$> attributions c) t) <$> l)).
Proof using.
  intros Hwf (Ha & _ & Hcov). split.
  - apply Forall2_tget.
    { rewrite <- (Forall2_length _ _ _ (attr_chains _ _ _ _ _ Ha)). by rewrite length_fmap. }
    intros i e l He Hl. destruct (Forall2_tget_r _ _ _ _ _ (attr_chains _ _ _ _ _ Ha) Hl) as (p & Hp & Hc & Ht).
    rewrite tget_fmap, He in Hp. injection Hp as <-.
    destruct (Forall2_tget_r _ _ _ _ _ Hcov Hl) as (n & Hn & Hle). rewrite tget_fmap, He in Hn. injection Hn as <-.
    destruct (wf_edge c i e Hwf He) as [[_ ?] _]. done.
  - intros l (i & Hi)%list_elem_of_lookup.
    assert (Hl : tget chains (N.of_nat i) = Some l) by (by rewrite tget_lookup, Nat2N.id).
    destruct (Forall2_tget_r _ _ _ _ _ (attr_chains _ _ _ _ _ Ha) Hl) as (p & _ & Hc & _).
    assert (Hrow : forall t, t ∈ l -> exists r, tget (attributions c) t = Some r /\
      attribution_ids c !! (N.of_nat i, t_source r) = Some t).
    { intros t Ht. destruct (tget_lt (attributions c) t) as [r Hr].
      { rewrite <- (lenN_fmap t_next). by eapply chain_from_lt. }
      exists r. split; [done|]. apply (attr_ids _ _ _ _ _ Ha). exists l. by rewrite tget_fmap, Hr. }
    split.
    + intros t Ht. destruct (Hrow t Ht) as (r & Hr & Hk).
      destruct (rows_live _ _ _ (wf_rows _ Hwf) _ _ _ Hk Hr) as (? & _ & [? _] & ?). exists r. done.
    + apply NoDup_fmap_2_strong; [|by eapply chain_from_NoDup].
      intros t u Ht Hu. destruct (Hrow t Ht) as (r & Hr & Hk), (Hrow u Hu) as (r' & Hr' & Hk').
      rewrite !tget_fmap, Hr, Hr'. simpl. intros [= Heq]. rewrite Heq in Hk. congruence.
Qed.

Theorem rebuild_complete c : wf c -> index_room c -> exists c', rebuild_indexes (unindexed c) = Some (Ok c').
Proof using.
  intros Hwf [Hrc Hrl]. pose proof (sz_arena _ (wf_sizes _ Hwf)) as Har.
  assert (Hau : lenN (arena c) <= USIZE_MAX) by (unfold U32_MAX, USIZE_MAX, U64_MAX in *; lia).
  destruct (wf_concepts _ Hwf) as (ns & al & [Hcn _ _]). destruct (wf_labels _ Hwf) as (ls & la & [Hln _ _] & _).
  destruct (wf_sources _ Hwf) as (ss & Hsn). destruct (wf_attributions _ Hwf) as (chains & Hat).
  pose proof (ns_unique _ _ _ _ _ _ Hcn) as Uc. pose proof (ns_unique _ _ _ _ _ _ Hln) as Ul.
  pose proof (ns_unique _ _ _ _ _ _ Hsn) as Us. rewrite app_nil_r in Us.
  (* names *)
  assert (HN : exists c1, index_names (unindexed c) = Some (Ok c1) /\ unindexed c1 = unindexed c /\
    loading (arena c) (c_range <$> concepts c) [] (concept_handle c1) ns [] /\
    loading (arena c) (l_range <$> labels c) [] (label_handle c1) ls [] /\
    lenN (ei_spans (concept_index c1)) = lenN (concepts c) /\ lenN (ei_spans (label_index c1)) = lenN (labels c) /\
    edge_ids c1 = ∅ /\ attribution_ids c1 = ∅ /\ source_edges c1 = ∅).
  { destruct (index_records_complete (corrupt "two concept records share one name") (arena c) _ ns (ns_names _ _ _ _ _ _ Hcn) []
      (concept_handle (unindexed c)) [] (loading_empty _ _) Hau) as [h1 HN1].
    { simpl. rewrite lenN_fmap. change (lenN []) with 0. lia. } { by apply NoDup_app in Uc as (? & _). }
    destruct (index_records_complete (corrupt "two label records share one name") (arena c) _ ls (ns_names _ _ _ _ _ _ Hln) []
      (label_handle (unindexed c)) [] (loading_empty _ _) Hau) as [h2 HN2].
    { simpl. rewrite lenN_fmap. change (lenN []) with 0. lia. } { by apply NoDup_app in Ul as (? & _). }
    destruct (index_sources_complete (arena c) _ ss (ns_names _ _ _ _ _ _ Hsn) [] ∅ [] (ns_ok_empty _) Hau Us) as [ids HN3].
    destruct (index_records_sound _ _ _ _ _ _ _ _ (loading_empty _ _) HN1) as (L1 & A1 & S1).
    destruct (index_records_sound _ _ _ _ _ _ _ _ (loading_empty _ _) HN2) as (L2 & A2 & S2).
    rewrite lenN_fmap in S1. rewrite lenN_fmap in S2. simpl in S1, S2, A1, A2, L1, L2.
    eexists. split.
    { unfold index_names. rewrite !enumerate_numbered. cbn [unindexed arena concepts labels sources]. rewrite HN1. cbv beta iota zeta delta [abind].
      change (label_handle (put_concept (arena c) h1 (arena_slack (unindexed c)) (unindexed c))) with (label_handle (unindexed c)).
      change (arena (put_concept (arena c) h1 (arena_slack (unindexed c)) (unindexed c))) with (arena c).
      change (labels (put_concept (arena c) h1 (arena_slack (unindexed c)) (unindexed c))) with (labels c).
      rewrite !enumerate_numbered, HN2. cbv beta iota zeta delta [abind].
      match goal with |- context [index_sources ?a ?b ?d] =>
        change a with (arena c); change b with (numbered (length (@nil name_range)) (s_range <$> sources c));
        change d with (∅ : gmap name SourceId) end.
      rewrite HN3. reflexivity. }
    simpl. unfold unindexed. simpl. rewrite A1, A2. split; [done|]. split; [done|]. split; [done|].
    split; [by rewrite S1|]. split; [by rewrite S2 | done]. }
  destruct HN as (c1 & HN & Hu1 & L1 & L2 & S1 & S2 & E1 & T1 & R1).
  assert (U : arena c1 = arena c /\ concepts c1 = concepts c /\ labels c1 = labels c /\ sources c1 = sources c /\
    edges c1 = edges c /\ attributions c1 = attributions c /\ concept_aliases c1 = concept_aliases c /\
    label_aliases c1 = label_aliases c /\ attribution_locators c1 = attribution_locators c)
    by (unfold unindexed in Hu1; by injection Hu1).
  destruct U as (Ua & Uco & Ula & Uso & Ued & Uat & Uca & Ulal & Ulo).
  (* aliases *)
  assert (HA : exists c2, index_aliases c1 = Some (Ok c2) /\ unindexed c2 = unindexed c /\
    edge_ids c2 = ∅ /\ attribution_ids c2 = ∅ /\ source_edges c2 = ∅).
  { destruct (index_alias_table_complete (corrupt "concept alias targets an unknown concept")
      (corrupt "concept alias collides with another spelling") (arena c) (c_range <$> concepts c) (concept_aliases c) al
      (ns_aliases _ _ _ _ _ _ Hcn) (ns_targets _ _ _ _ _ _ Hcn) [] (concept_handle c1) ns [] L1 Hau) as [h1 HA1].
    { simpl. rewrite S1. lia. } { done. }
    destruct (index_alias_table_complete (corrupt "label alias targets an unknown label")
      (corrupt "label alias collides with another spelling") (arena c) (l_range <$> labels c) (label_aliases c) la
      (ns_aliases _ _ _ _ _ _ Hln) (ns_targets _ _ _ _ _ _ Hln) [] (label_handle c1) ls [] L2 Hau) as [h2 HA2].
    { simpl. rewrite S2. lia. } { done. }
    pose proof HA1 as HA1s. pose proof HA2 as HA2s.
    apply (index_alias_table_sound _ _ _ _ _ [] _ ns []) in HA1s as (_ & _ & A1); [|done].
    apply (index_alias_table_sound _ _ _ _ _ [] _ ls []) in HA2s as (_ & _ & A2); [|done].
    rewrite lenN_fmap in HA1. rewrite lenN_fmap in HA2. eexists. split.
    { unfold index_aliases. rewrite Ua, Uco, Uca, HA1. cbv beta iota zeta delta [abind].
      change (label_handle (put_concept (arena c) h1 (arena_slack c1) c1)) with (label_handle c1).
      change (arena (put_concept (arena c) h1 (arena_slack c1) c1)) with (arena c).
      change (labels (put_concept (arena c) h1 (arena_slack c1) c1)) with (labels c1).
      change (label_aliases (put_concept (arena c) h1 (arena_slack c1) c1)) with (label_aliases c1).
      rewrite Ula, Ulal, HA2. reflexivity. }
    unfold unindexed in *. simpl in *. rewrite A1, A2. split; [|done]. rewrite <- Hu1. by rewrite Ua. }
  destruct HA as (c2 & HA & Hu2 & E2 & T2 & R2). clear -HN HA Hu2 E2 T2 R2 Hwf Hat.
  assert (U : concepts c2 = concepts c /\ labels c2 = labels c /\ sources c2 = sources c /\
    edges c2 = edges c /\ attributions c2 = attributions c /\ attribution_locators c2 = attribution_locators c)
    by (unfold unindexed in Hu2; by injection Hu2).
  destruct U as (Uco & Ula & Uso & Ued & Uat & Ulo).
  (* edges, chains, attributions, locators *)
  assert (HE : exists ids, index_edges c2 = Ok (set_edge_ids ids c2)).
  { unfold index_edges. rewrite Uco, Ula, Ued, E2, enumerate_numbered.
    destruct (index_edges_complete (lenN (concepts c)) (lenN (labels c)) (edges c)) with (@nil EdgeRecord)
      (∅ : gmap (N * N * N) N) as [ids ->]; [| | | by exists ids].
    - apply Forall_forall. intros e (i & Hi)%list_elem_of_lookup.
      destruct (wf_edge c (N.of_nat i) e Hwf) as (_ & ? & ? & ?); [by rewrite tget_lookup, Nat2N.id|]. done.
    - intros k e. rewrite lookup_empty, tget_lookup. done.
    - apply (triples_at_NoDup (edge_ids c)). intros k e. apply (wf_triples _ Hwf). }
  destruct HE as [eids HE].
  assert (HV : validate_chains (set_edge_ids eids c2) = Ok tt).
  { rewrite <- (validate_chains_complete c Hwf). unfold validate_chains. simpl. by rewrite Uco, Ula, Ued. }
  destruct (wf_chain_scans c chains Hwf Hat) as [HF Hl].
  destruct (index_attributions_complete (attributions c) (lenN (sources c)) (edges c) chains HF [] 0
    {| sc_claimed := ∅; sc_ids := ∅; sc_source_edges := ∅ |}) as [st HT].
  { apply scanned_empty. } { apply (attr_disjoint _ _ _ _ _ (proj1 Hat)). } { exact Hl. }
  { eapply Forall_impl; [apply (wf_totals _ Hwf)|]. by intros e [? _]. }
  unfold rebuild_indexes. rewrite HN. cbn [abind]. rewrite HA. cbn [abind]. rewrite HE. cbn [abind]. rewrite HV. cbn [abind].
  unfold index_attributions. rewrite enumerate_numbered. cbn [set_edge_ids attributions sources edges attribution_ids source_edges].
  rewrite Uat, Uso, Ued, T2, R2. simpl length in *. rewrite HT. cbn [abind]. unfold validate_locators. simpl.
  rewrite Ulo, Uat, (locators_complete _ _); [by eexists | | apply Hwf | done].
  eapply Forall_impl; [apply (wf_locator_rows _ Hwf)|]. by intros k [? _].
Qed.
End complete.

(** ** No panic *)

Section total.
Context `{UnicodeTables}.

Theorem rebuild_total c : index_room c -> is_Some (rebuild_indexes (unindexed c)).
Proof using.
  destruct c as [ar cs ls ss es ts cal lal ks ci li si cai lai lni ei ai se cx lx df seq de da sl].
  intros [Hrc Hrl]. simpl in Hrc, Hrl. unfold rebuild_indexes.
  match goal with |- is_Some (abind (index_names ?c0) _) => remember c0 as c eqn:Hc0; unfold unindexed in Hc0; ctx_record Hc0 end.
  subst c. match goal with |- is_Some (abind (index_names ?c0) _) => assert (HN : is_Some (index_names c0)) end.
  { unfold index_names. apply attempt_total.
    { apply (index_records_total _ _ _ 0). simpl. rewrite lenN_fmap. unfold lenN in *. simpl. lia. }
    intros [ns h1] _. cbn zeta. apply attempt_total.
    { apply (index_records_total _ _ _ 0). simpl. rewrite lenN_fmap. unfold lenN in *. simpl. lia. }
    intros [lns h2] _. cbn zeta. apply attempt_total; [by eexists|]. by eexists. }
  apply attempt_total; [done|]. intros c1 H1.
  apply index_names_inv in H1 as (d1 & d2 & ns & h1 & lns & h2 & sids & HN1 & HN2 & _ & ->).
  destruct (index_records_sound d1 _ _ [] _ [] ns h1 (loading_empty _ cal) HN1) as (_ & HCa & HCs).
  destruct (index_records_sound d2 _ _ [] _ [] lns h2 (loading_empty _ lal) HN2) as (_ & HLa & HLs).
  simpl in HCa, HLa, HCs, HLs. rewrite lenN_fmap in HCs. rewrite lenN_fmap in HLs. change (lenN []) with 0 in HCs, HLs.
  destruct h1 as [a1 x1 i1 ai1], h2 as [a2 x2 i2 ai2]. simpl in HCa, HLa, HCs, HLs. subst a1 a2. clear HN HN1 HN2.
  match goal with |- is_Some (abind (index_aliases ?c1) _) =>
    remember c1 as cn eqn:Hc; ctx_record Hc end.
  assert (HA : is_Some (index_aliases cn)).
  { subst cn. unfold index_aliases. apply attempt_total.
    { apply index_alias_table_total. simpl. unfold lenN in *. simpl in *. lia. }
    intros h3 _. cbn zeta. apply attempt_total; [|by eexists]. apply index_alias_table_total. simpl. unfold lenN in *. simpl in *. lia. }
  apply attempt_total; [done|]. intros c2 (u1 & d3 & u2 & d4 & h3 & h4 & _ & _ & Hc2)%index_aliases_inv.
  subst cn. ctx_record Hc2. subst c2. clear HA.
  apply attempt_total; [by eexists|]. intros c3 [= (ids & _ & Hc3)%index_edges_inv]. ctx_record Hc3. subst c3.
  apply attempt_total; [by eexists|]. intros [] _. apply attempt_total.
  { unfold index_attributions. simpl. apply attempt_total; [|intros [? ?] _; by eexists].
    apply (index_attributions_total _ _ _ []). apply scanned_empty. }
  intros c4 _. apply attempt_total; [by eexists|]. by eexists.
Qed.

(** ** The indexes are a function of the tables *)

Theorem indexes_determined c c' : wf c -> wf c' -> unindexed c = unindexed c' ->
  concept_ids c = concept_ids c' /\ label_ids c = label_ids c' /\ source_ids c = source_ids c' /\
  concept_alias_index c = concept_alias_index c' /\ label_alias_index c = label_alias_index c' /\
  label_name_index c = label_name_index c' /\ edge_ids c = edge_ids c' /\ attribution_ids c = attribution_ids c' /\
  dead_edges c = dead_edges c' /\ dead_attributions c = dead_attributions c' /\
  ei_entries (concept_index c) ≡ₚ ei_entries (concept_index c') /\
  ei_entries (label_index c) ≡ₚ ei_entries (label_index c').
Proof using.
  intros W W' Hu.
  assert (U : arena c = arena c' /\ concepts c = concepts c' /\ labels c = labels c' /\ sources c = sources c' /\
    edges c = edges c' /\ attributions c = attributions c' /\ concept_aliases c = concept_aliases c' /\
    label_aliases c = label_aliases c') by (unfold unindexed in Hu; by injection Hu).
  destruct U as (Ua & Uco & Ula & Uso & Ued & Uat & Uca & Ulal). clear Hu.
  destruct (wf_concepts _ W) as (ns & al & [C1 C2 [_ C3]]), (wf_concepts _ W') as (ns' & al' & [C1' C2' [_ C3']]).
  destruct (wf_labels _ W) as (ls & la & [L1 L2 [_ L3]] & L4), (wf_labels _ W') as (ls' & la' & [L1' L2' [_ L3']] & L4').
  destruct (wf_sources _ W) as (ss & S1), (wf_sources _ W') as (ss' & S1'). unfold source_names in *.
  destruct (wf_attributions _ W) as (ch & A1 & A2 & _), (wf_attributions _ W') as (ch' & A1' & A2' & _).
  rewrite Ua, Uco, Uca in C1. rewrite Ua, Ula, Ulal in L1. rewrite Ua, Uso in S1.
  destruct (ns_ok_fun _ _ _ _ _ _ _ _ _ C1 C1') as (Ec & -> & ->).
  destruct (ns_ok_fun _ _ _ _ _ _ _ _ _ L1 L1') as (El & -> & ->).
  destruct (ns_ok_fun _ _ _ _ _ _ _ _ _ S1 S1') as (Es & -> & _).
  do 3 (split; [done|]). rewrite Uca in C2. rewrite Ulal in L2.
  split; [by rewrite C2, C2'|]. split; [by rewrite L2, L2'|]. split; [by rewrite L4, L4'|].
  assert (Hch : ch = ch').
  { pose proof (attr_chains _ _ _ _ _ A1) as F. pose proof (attr_chains _ _ _ _ _ A1') as F'.
    rewrite Ued, Uat in F. clear -F F'. revert ch' F'. induction F as [|p l ps ch [Hc _] _ IH]; intros ch' F'.
    - by apply Forall2_nil_inv_l in F'.
    - apply Forall2_cons_inv_l in F' as (l' & k & [Hc' _] & Hk & ->).
      f_equal; [by eapply chain_from_fun | by apply IH]. }
  subst ch'. split.
  { apply map_eq. intros k. apply option_eq. intros e. rewrite (wf_triples _ W), (wf_triples _ W'). by rewrite Ued. }
  split.
  { apply map_eq. intros [e s]. apply option_eq. intros t.
    rewrite (attr_ids _ _ _ _ _ A1), (attr_ids _ _ _ _ _ A1'). by rewrite Uat. }
  split; [by rewrite (wf_dead _ W), (wf_dead _ W'), Ued|].
  split; [rewrite Uat in A2; lia|]. rewrite Uca in C3. rewrite Ulal in L3. by rewrite C3, C3', L3, L3'.
Qed.
End total.
