(* ===== verification/ImageLoad.v ===== *)
(** * Parsing images

    The parse inverts the writer on every context the invariant admits; and
    whatever parses, current or migrated, fits the machine widths. *)

From S2P Require Export RestoreThm.

Local Open Scope N_scope.

(** ** Every record of a well-formed context fits *)

Lemma sorted_lt_NoDup (l : list N) : StronglySorted N.lt l -> NoDup l.
Proof.
  induction 1 as [|x l _ IH Hall]; constructor; [|done]. intros Hx. rewrite Forall_forall in Hall.
  specialize (Hall x Hx). lia.
Qed.

Section fits.
Context `{UnicodeTables} {c : Context} (Hwf : wf c).

Lemma chain_ok_fits links owners o first last count : lenN links <= NIL -> chain_ok links owners o (first, last, count) ->
  first <= U32_MAX /\ last <= U32_MAX /\ count <= U32_MAX.
Proof using.
  intros Hl (ids & Hc & -> & -> & _). unfold NIL in Hl.
  assert (Hlt : forall i, i ∈ ids -> i <= U32_MAX) by (intros i Hi; pose proof (chain_from_lt _ _ _ _ Hc Hi); lia).
  split; [|split].
  - destruct ids as [|i ids]; [by rewrite Hc|]. destruct Hc as (-> & _). apply Hlt. by left.
  - unfold tail_of. destruct (last ids) as [i|] eqn:E; [|done]. simpl. apply Hlt. by eapply last_Some_elem_of.
  - apply chain_from_length in Hc. unfold lenN in *. lia.
Qed.

Lemma anchor_fits {R} (get : R -> anchor) links owners (table : list R) i r :
  chains_wf links owners (get <$> table) -> lenN links <= NIL -> tget table i = Some r ->
  (get r).1.1 <= U32_MAX /\ (get r).1.2 <= U32_MAX /\ (get r).2 <= U32_MAX.
Proof using.
  intros Hc Hl Hr. pose proof (chains_each _ _ _ Hc i (get r) ltac:(by rewrite tget_fmap, Hr)) as Hok.
  destruct (get r) as [[first last] count]. by eapply chain_ok_fits.
Qed.

Lemma name_fits arena off len n : lenN arena <= U32_MAX -> name_at arena off len = Some n -> off <= U32_MAX /\ len <= U32_MAX.
Proof using. intros Ha Hn%name_at_bound. lia. Qed.

Lemma Forall_tget {A} (P : A -> Prop) (l : list A) : (forall i x, tget l i = Some x -> P x) -> Forall P l.
Proof using.
  intros HP. apply Forall_forall. intros x (i & Hi)%list_elem_of_lookup.
  apply (HP (N.of_nat i)). by rewrite tget_lookup, Nat2N.id.
Qed.

Lemma concepts_fit : Forall concept_fits (concepts c).
Proof using All.
  pose proof (wf_sizes _ Hwf) as Hsz. destruct (wf_concepts _ Hwf) as (ns & al & [Hn _ _]).
  apply Forall_tget. intros i r Hr.
  destruct (ns_name_at Hn i (c_range r)) as (n & Hname & _); [by rewrite tget_fmap, Hr|].
  apply name_fits in Hname as [? ?]; [|apply Hsz].
  destruct (anchor_fits _ _ _ _ i r (wf_outgoing _ Hwf)) as (? & ? & ?); [rewrite lenN_fmap; apply Hsz | done|].
  destruct (anchor_fits _ _ _ _ i r (wf_incoming _ Hwf)) as (? & ? & ?); [rewrite lenN_fmap; apply Hsz | done|].
  repeat (constructor; [done|]). constructor.
Qed.

Lemma labels_fit : Forall label_fits (labels c).
Proof using All.
  pose proof (wf_sizes _ Hwf) as Hsz. destruct (wf_labels _ Hwf) as (ns & al & [Hn _ _] & _).
  apply Forall_tget. intros i r Hr.
  destruct (ns_name_at Hn i (l_range r)) as (n & Hname & _); [by rewrite tget_fmap, Hr|].
  apply name_fits in Hname as [? ?]; [|apply Hsz].
  destruct (anchor_fits _ _ _ _ i r (wf_labeled _ Hwf)) as (? & ? & ?); [rewrite lenN_fmap; apply Hsz | done|].
  repeat (constructor; [done|]). constructor.
Qed.

Lemma sources_fit : Forall source_fits (sources c).
Proof using All.
  pose proof (wf_sizes _ Hwf) as Hsz. destruct (wf_sources _ Hwf) as (ns & Hn).
  apply Forall_tget. intros i r Hr.
  destruct (ns_name_at Hn i (s_range r)) as (n & Hname & _); [by rewrite tget_fmap, Hr|].
  apply name_fits in Hname as [? ?]; [|apply Hsz]. repeat (constructor; [done|]). constructor.
Qed.

Lemma alias_table_fits arena recs aliases ids ns al : ns_ok arena recs (a_entry <$> aliases) ids ns al ->
  lenN arena <= U32_MAX -> lenN recs <= NIL -> Forall alias_fits aliases.
Proof using.
  intros Hn Ha Hr. apply Forall_tget. intros i r Hi.
  destruct (ns_alias_name_at Hn i (a_entry r)) as (n & Hname & _); [by rewrite tget_fmap, Hi|].
  apply name_fits in Hname as [? ?]; [|done].
  pose proof (ns_targets _ _ _ _ _ _ Hn) as Ht. rewrite Forall_fmap in Ht.
  rewrite tget_lookup in Hi. eapply Forall_lookup_1 in Ht; [|done]. simpl in Ht. unfold NIL in Hr.
  repeat (constructor; [done || lia|]). constructor.
Qed.

Lemma link_fits links owners anchors i nx : chains_wf links owners anchors -> lenN links <= NIL ->
  tget links i = Some nx -> nx <= U32_MAX.
Proof using.
  intros Hc Hl Hi. assert (Hio : i < lenN owners).
  { pose proof (chains_length _ _ _ Hc). apply tget_Some_lt in Hi. unfold lenN in *. lia. }
  apply tget_lt in Hio as [o Ho]. pose proof (chains_owner _ _ _ Hc i o Ho) as [a Ha]%tget_lt.
  pose proof (chains_each _ _ _ Hc o a Ha) as Hok. destruct a as [[first last] count].
  destruct Hok as (ids & Hch & _ & _ & Hiff). apply Hiff in Ho.
  destruct (chain_next _ _ _ _ _ Hch Ho Hi) as [->|?]; unfold NIL in *; lia.
Qed.

Lemma edges_fit : Forall edge_fits (edges c).
Proof using All.
  pose proof (wf_sizes _ Hwf) as [_ S1 S2 _ S3 S4 _ _]. unfold NIL in *.
  destruct (wf_attributions _ Hwf) as (chains & Ha & _).
  apply Forall_tget. intros i e He. destruct (wf_edge c i e Hwf He) as ([? _] & ? & ? & ?).
  pose proof (link_fits _ _ _ i (e_next_outgoing e) (wf_outgoing _ Hwf)
    ltac:(by rewrite lenN_fmap) ltac:(by rewrite tget_fmap, He)).
  pose proof (link_fits _ _ _ i (e_next_incoming e) (wf_incoming _ Hwf)
    ltac:(by rewrite lenN_fmap) ltac:(by rewrite tget_fmap, He)).
  pose proof (link_fits _ _ _ i (e_next_labeled e) (wf_labeled _ Hwf)
    ltac:(by rewrite lenN_fmap) ltac:(by rewrite tget_fmap, He)).
  destruct (attr_chain Ha i (e_ends e)) as (l & _ & Hch & Ht); [by rewrite tget_fmap, He|]. simpl in Hch, Ht.
  assert (Hlt : forall t, t ∈ l -> t <= U32_MAX).
  { intros t Hin. pose proof (chain_from_lt _ _ _ _ Hch Hin) as Hl. rewrite lenN_fmap in Hl. lia. }
  assert (e_first_attribution e <= U32_MAX).
  { destruct l as [|t l]; [by rewrite Hch|]. destruct Hch as (-> & _). apply Hlt. by left. }
  assert (e_last_attribution e <= U32_MAX).
  { rewrite Ht. unfold tail_of. destruct (last l) as [t|] eqn:E; [|done]. simpl. apply Hlt. by eapply last_Some_elem_of. }
  split; [|done]. repeat (constructor; [done || lia|]). constructor.
Qed.

Lemma locators_few : lenN (attribution_locators c) <= lenN (attributions c).
Proof using All.
  assert (length (k_attribution <$> attribution_locators c) <= length (indices (attributions c)))%nat as Hle.
  2: { rewrite length_fmap, indices_length in Hle. unfold lenN. lia. }
  apply submseteq_length, NoDup_submseteq.
  - apply sorted_lt_NoDup, (wf_locators _ Hwf).
  - intros t (k & -> & Hk)%list_elem_of_fmap. apply elem_of_indices.
    pose proof (wf_locator_rows _ Hwf) as Hr. rewrite Forall_forall in Hr. by apply Hr.
Qed.

Lemma locators_fit : Forall locator_fits (attribution_locators c).
Proof using All.
  pose proof (sz_attributions _ (wf_sizes _ Hwf)) as Hsz. unfold NIL in Hsz.
  eapply Forall_impl; [apply (wf_locator_rows _ Hwf)|]. intros k [? ?].
  repeat (constructor; [lia|]). constructor.
Qed.
End fits.

(** ** The round trip of the parse *)

Lemma left_to_start image bs : image = bs -> lenN image <= USIZE_MAX -> left_to {| rd_bytes := image; rd_pos := 0 |} bs.
Proof. intros <- Hb. split; [by exists []|done]. Qed.

Lemma left_to_end rd : left_to rd [] -> rd_pos rd = lenN (rd_bytes rd).
Proof. intros [(pre & -> & ->) _]. by rewrite app_nil_r. Qed.

(** Taking the footer off. *)
Lemma left_to_body rd xs footer : left_to rd (xs ++ footer) ->
  left_to {| rd_bytes := take (N.to_nat (lenN (rd_bytes rd) - lenN footer)) (rd_bytes rd); rd_pos := rd_pos rd |} xs /\
  exists body, rd_bytes rd = body ++ footer.
Proof.
  intros [(pre & Hb & Hp) Hmax]. rewrite app_assoc in Hb. split; [|by exists (pre ++ xs)].
  assert (Ht : take (N.to_nat (lenN (rd_bytes rd) - lenN footer)) (rd_bytes rd) = pre ++ xs).
  { rewrite Hb, lenN_app, N.add_sub. unfold lenN. rewrite Nat2N.id. apply take_app_length. }
  split; simpl; rewrite Ht; [by exists pre|]. rewrite Hb, lenN_app in Hmax. lia.
Qed.

Lemma verify_footer_loads body rd rest : left_to rd (rest ++ u32_to_le (crc32c body)) ->
  rd_bytes rd = body ++ u32_to_le (crc32c body) ->
  exists rd', verify_footer (body ++ u32_to_le (crc32c body)) 6 rd = Ok rd' /\ left_to rd' rest.
Proof.
  intros Hl Hb. pose proof (left_to_body _ _ _ Hl) as [Hbody _]. unfold verify_footer. simpl.
  rewrite lenN_app. change (lenN (u32_to_le (crc32c body))) with 4 in *.
  destruct (N.ltb_spec (lenN body + 4) IMAGE_FOOTER_SIZE); [unfold IMAGE_FOOTER_SIZE in *; lia|].
  replace (lenN body + 4 - IMAGE_FOOTER_SIZE) with (lenN body) by (unfold IMAGE_FOOTER_SIZE; lia).
  assert (Ht : take (N.to_nat (lenN body)) (body ++ u32_to_le (crc32c body)) = body)
    by (unfold lenN; rewrite Nat2N.id; apply take_app_length).
  assert (Hd : drop (N.to_nat (lenN body)) (body ++ u32_to_le (crc32c body)) = u32_to_le (crc32c body))
    by (unfold lenN; rewrite Nat2N.id; apply drop_app_length).
  rewrite Ht, Hd, from_to_le_u32, N.eqb_refl by apply crc32c_bound. simpl. eexists. split; [done|].
  rewrite Hb in Hbody. rewrite lenN_app in Hbody. change (lenN (u32_to_le (crc32c body))) with 4 in Hbody.
  rewrite N.add_sub, Ht in Hbody. exact Hbody.
Qed.

Lemma load_arena_loads bs : lenN bs <= U32_MAX -> loads load_arena (u64_to_le (lenN bs) ++ bs) bs.
Proof.
  intros Hl. eapply loads_bind; [apply read_u64_loads; unfold U32_MAX, U64_MAX in *; lia|]. cbv beta.
  destruct (N.ltb_spec U32_MAX (lenN bs)); [lia|]. by apply take_bytes_loads.
Qed.

Ltac load_step Hld rd' Hl' Hb' :=
  match goal with
  | Hl : left_to ?rd _ |- _ => destruct (Hld rd _ Hl) as (rd' & -> & Hl' & Hb'); cbn [rbind]; clear Hl
  end.

Section parse.
Context `{UnicodeTables}.

Lemma image_size c : wf c -> lenN (to_bytes c) <= USIZE_MAX.
Proof using.
  intros Hwf. pose proof (locators_few Hwf) as Hk. destruct (wf_sizes _ Hwf) as [S0 S1 S2 S3 S4 S5 S6 S7].
  unfold to_bytes, image_body. rewrite !lenN_app, !store_table_length.
  change (lenN (u32_to_le (crc32c (image_body IMAGE_VERSION c)))) with 4.
  change (lenN IMAGE_MAGIC) with 8. change (lenN (u32_to_le IMAGE_VERSION)) with 4.
  change (lenN (replicate 4 "000"%byte)) with 4. rewrite !lenN_u64. rewrite lenN_u32.
  change (SIZE EdgeRecord) with 48. change (SIZE AttributionRecord) with 24. change (SIZE ConceptRecord) with 32.
  change (SIZE LabelRecord) with 20. change (SIZE SourceRecord) with 8. change (SIZE AliasRecord) with 12.
  change (SIZE AttributionLocatorRecord) with 8. unfold NIL, U32_MAX, USIZE_MAX, U64_MAX in *. lia.
Qed.

Theorem parse_to_bytes c : wf c -> parse_image (to_bytes c) = Ok (unindexed c).
Proof using.
  intros Hwf. pose proof (image_size c Hwf) as Hsize. pose proof (wf_sizes _ Hwf) as [S0 S1 S2 S3 S4 S5 S6 S7].
  destruct (wf_concepts _ Hwf) as (ns & al & [Hcn _ _]). destruct (wf_labels _ Hwf) as (ls & la & [Hln _ _] & _).
  remember (to_bytes c) as image eqn:HI.
  assert (HI' := HI). unfold to_bytes, image_body at 1 in HI'. rewrite <- !app_assoc in HI'.
  pose proof (left_to_start _ _ HI' Hsize) as Hl. clear HI'. unfold parse_image.
  destruct (take_bytes_loads (lenN IMAGE_MAGIC) IMAGE_MAGIC eq_refl _ _ Hl) as (r1 & -> & Hl1 & Hb1).
  cbn [rbind]. cbv beta iota. rewrite bool_decide_true by done. cbn [negb]. clear Hl.
  load_step (read_u32_loads IMAGE_VERSION ltac:(done)) r2 Hl2 Hb2.
  change (negb ((1 <=? IMAGE_VERSION) && (IMAGE_VERSION <=? IMAGE_VERSION))) with false. cbv iota.
  rewrite !app_assoc in Hl2.
  destruct (verify_footer_loads (image_body IMAGE_VERSION c) r2 _ Hl2) as (r3 & HV & Hl3); [by rewrite Hb2, Hb1, HI|].
  rewrite HI. unfold to_bytes. unfold IMAGE_VERSION in *. rewrite HV. cbn [rbind]. rewrite <- !app_assoc in Hl3.
  load_step (take_bytes_loads 4 (replicate 4 "000"%byte) eq_refl) r4 Hl4 Hb4.
  change (3 <=? 6) with true. cbv iota.
  load_step (read_u64_loads (applied_seq c) (wf_applied_seq _ Hwf)) r5 Hl5 Hb5.
  change (5 <=? 6) with true. cbv iota. unfold load_current.
  load_step (load_table_loads (edges c) (edges_fit Hwf) S4) r6 Hl6 Hb6.
  load_step (load_table_loads (attributions c) (rows_repr _ _ _ (wf_rows _ Hwf)) S5) r7 Hl7 Hb7.
  load_step (load_table_loads (concepts c) (concepts_fit Hwf) S1) r8 Hl8 Hb8.
  load_step (load_table_loads (labels c) (labels_fit Hwf) S2) r9 Hl9 Hb9.
  load_step (load_table_loads (sources c) (sources_fit Hwf) S3) r10 Hl10 Hb10.
  unfold load_aliases. change (2 <=? 6) with true. cbv iota.
  load_step (load_table_loads (concept_aliases c) (alias_table_fits _ _ _ _ _ _ Hcn S0
    ltac:(by rewrite lenN_fmap)) S6) r11 Hl11 Hb11.
  load_step (load_table_loads (label_aliases c) (alias_table_fits _ _ _ _ _ _ Hln S0
    ltac:(by rewrite lenN_fmap)) S7) r12 Hl12 Hb12.
  change (4 <=? 6) with true. cbv iota.
  load_step (load_table_loads (attribution_locators c) (locators_fit Hwf)
    (N.le_trans _ _ _ (locators_few Hwf) S5)) r13 Hl13 Hb13.
  rewrite <- (app_nil_r (u64_to_le _ ++ arena c)) in Hl13. load_step (load_arena_loads (arena c) S0) r14 Hl14 Hb14.
  apply left_to_end in Hl14. rewrite Hl14, N.eqb_refl. reflexivity.
Qed.
End parse.

(** * Whatever parses fits

    The migration of old images and its memo table, and the widths of every
    record a parse returns. *)

(** ** The memo table of the migration is transparent *)

(** The migration without the memo: every edge walks its own chain. *)
Fixpoint migrate_edges_unshared (rows : list LegacyAttributionRecord) (es : list LegacyEdgeRecord)
    : checked (list EdgeRecord) :=
  match es with
  | [] => Ok []
  | legacy :: es =>
    chain ←? legacy_attribution_chain_len rows (ge_first_attribution legacy);
    edges ←? migrate_edges_unshared rows es;
    Ok (migrate_edge legacy chain :: edges)
  end.

Definition memo_ok (rows : list LegacyAttributionRecord) (chains : gmap AttributionId (N * f64 * f64)) : Prop :=
  forall head chain, chains !! head = Some chain -> legacy_attribution_chain_len rows head = Ok chain.

Lemma migrate_edges_memo rows es : forall chains, memo_ok rows chains ->
  migrate_edges rows es chains = migrate_edges_unshared rows es.
Proof.
  induction es as [|legacy es IH]; intros chains Hm; [done|]. cbn [migrate_edges migrate_edges_unshared].
  destruct (chains !! _) as [chain|] eqn:E.
  - rewrite (Hm _ _ E). cbn [rbind]. by rewrite IH.
  - destruct (legacy_attribution_chain_len rows _) as [chain|e] eqn:L; cbn [rbind]; [|done]. rewrite IH; [done|].
    intros head chain'. destruct (decide (head = ge_first_attribution legacy)) as [->|Hne].
    + rewrite lookup_insert_eq. by intros [= <-].
    + rewrite lookup_insert_ne by done. apply Hm.
Qed.

(** ** Migrated counts are bounded by the chain *)

Lemma legacy_chain_loop_len rows : forall budget cursor len sum magnitude len' sum' magnitude',
  legacy_chain_loop budget rows cursor len sum magnitude = Ok (len', sum', magnitude') ->
  len' <= len + N.of_nat budget.
Proof.
  induction budget as [|budget IH]; intros cursor len sum magnitude len' sum' magnitude'; simpl;
    (destruct (cursor =? NIL); [intros [= <- _ _]; lia|]); [done|].
  destruct (tget rows cursor) as [record|]; [|done]. intros H%IH. lia.
Qed.

Lemma migrated_count_bound len sum magnitude weight : migrated_count (len, sum, magnitude) weight <= len + 1.
Proof. unfold migrated_count. destruct (_ && _); [lia|]. destruct (summation_gap_is_real _ _ _ _); lia. Qed.

Lemma migrate_unshared_bound rows es es' : migrate_edges_unshared rows es = Ok es' ->
  Forall (fun e => e_count e <= lenN rows + 1) es' /\ length es' = length es.
Proof.
  revert es'. induction es as [|legacy es IH]; intros es'; simpl; [by intros [= <-]|].
  intros ([[len sum] magnitude] & Hc & (edges & [He Hl]%IH & [= <-])%rbind_Ok)%rbind_Ok.
  split; [|simpl; by rewrite Hl]. constructor; [|done]. simpl.
  apply legacy_chain_loop_len in Hc. etransitivity; [apply migrated_count_bound|]. unfold lenN. lia.
Qed.

Lemma load_legacy_yields rd es rows rd' : load_legacy rd = Ok (es, rows, rd') ->
  Forall (fun e => e_count e <= U64_MAX) es /\ Forall row_repr rows /\ lenN es <= NIL /\ lenN rows <= NIL /\
  rd_bytes rd' = rd_bytes rd.
Proof.
  intros ([ges rd1] & H1 & ([gts rd2] & H2 & (es' & H3 & [= <- <- <-])%rbind_Ok)%rbind_Ok)%rbind_Ok.
  pose proof (load_table_bounded _ _ _ H1) as [_ Hk1]. pose proof (load_table_bounded _ _ _ H2) as [_ Hk2].
  apply load_table_yields in H1 as [_ L1]. apply load_table_yields in H2 as [F2 L2].
  rewrite migrate_edges_memo in H3 by (intros ? ?; by rewrite lookup_empty).
  apply migrate_unshared_bound in H3 as [F3 Hl].
  split; [|split; [|split; [|split]]].
  - eapply Forall_impl; [exact F3|]. simpl. intros e He. unfold NIL, U32_MAX, U64_MAX in *. lia.
  - apply Forall_fmap. eapply Forall_impl; [exact F2|]. intros r Hr. hnf in Hr. split_fits.
    destruct r; simpl in *; split; [done|split; [done|]]. simpl. unfold U64_MAX. lia.
  - unfold lenN in *. lia.
  - by rewrite lenN_fmap.
  - congruence.
Qed.

Lemma load_current_yields rd es rows rd' : load_current rd = Ok (es, rows, rd') ->
  Forall (fun e => e_count e <= U64_MAX) es /\ Forall row_repr rows /\ lenN es <= NIL /\ lenN rows <= NIL /\
  rd_bytes rd' = rd_bytes rd.
Proof.
  intros ([es' rd1] & H1 & ([gts rd2] & H2 & [= <- <- <-])%rbind_Ok)%rbind_Ok.
  pose proof (load_table_bounded _ _ _ H1) as [_ Hk1]. pose proof (load_table_bounded _ _ _ H2) as [_ Hk2].
  apply load_table_yields in H1 as [F1 L1]. apply load_table_yields in H2 as [F2 L2].
  split; [|split; [done|split; [done|split; [done|congruence]]]].
  eapply Forall_impl; [exact F1|]. by intros e [_ ?].
Qed.

(** ** The parse *)

Lemma verify_footer_shrinks image version rd rd' : verify_footer image version rd = Ok rd' ->
  rd_bytes rd = image -> lenN (rd_bytes rd') <= lenN image.
Proof.
  unfold verify_footer. destruct (6 <=? version); [|intros [= <-] ->; lia].
  destruct (lenN image <? IMAGE_FOOTER_SIZE); [done|]. destruct (negb _); [done|]. intros [= <-] _. simpl.
  unfold lenN. rewrite length_take. lia.
Qed.

Lemma load_aliases_yields version rd cal lal rd' : load_aliases version rd = Ok (cal, lal, rd') ->
  lenN cal <= NIL /\ lenN lal <= NIL /\ lenN cal * 12 <= lenN (rd_bytes rd) /\ lenN lal * 12 <= lenN (rd_bytes rd) /\
  rd_bytes rd' = rd_bytes rd.
Proof.
  unfold load_aliases. destruct (2 <=? version).
  2:{ intros [= <- <- <-]. change (lenN []) with 0. repeat (split; [done || lia|]). done. }
  intros ([x rd1] & H1 & ([y rd2] & H2 & [= <- <- <-])%rbind_Ok)%rbind_Ok.
  pose proof (load_table_bounded _ _ _ H1) as [B1 K1]. pose proof (load_table_bounded _ _ _ H2) as [B2 K2].
  apply load_table_yields in H1 as [_ L1]. apply load_table_yields in H2 as [_ L2].
  rewrite K1 in B2. change (SIZE AliasRecord) with 12 in *. rewrite K2, K1. done.
Qed.

Lemma load_locators_yields (version : N) rd ks rd' :
  (if 4 <=? version then load_table AttributionLocatorRecord rd else Ok ([], rd)) = Ok (ks, rd') ->
  Forall locator_fits ks /\ rd_bytes rd' = rd_bytes rd.
Proof.
  destruct (4 <=? version); [|intros [= <- <-]; done]. intros H.
  pose proof (load_table_bounded _ _ _ H) as [_ K]. by apply load_table_yields in H as [F _].
Qed.

Lemma load_seq_yields (version : N) rd seq rd' :
  (if 3 <=? version then read_u64 rd else Ok (0, rd)) = Ok (seq, rd') ->
  seq <= U64_MAX /\ rd_bytes rd' = rd_bytes rd.
Proof.
  destruct (3 <=? version); [|by intros [= <- <-]]. intros H. split; [by eapply read_u64_yields|].
  by apply read_u64_keeps in H.
Qed.

Lemma load_arena_yields rd ar rd' : load_arena rd = Ok (ar, rd') -> lenN ar <= U32_MAX.
Proof.
  intros ([n rd1] & _ & Hk)%rbind_Ok. destruct (N.ltb_spec U32_MAX n); [done|].
  apply take_bytes_yields in Hk. by rewrite Hk.
Qed.

(** An image of at most seven times the id space leaves room in the indexes. *)
Definition image_fits (image : bytes) : Prop := lenN image <= 7 * NIL.

Theorem parse_yields image c : parse_image image = Ok c ->
  tables_fit c /\ c = unindexed c /\ (image_fits image -> index_room c).
Proof.
  unfold parse_image. intros ([magic r1] & H1 & Hk)%rbind_Ok. cbv beta iota in Hk.
  destruct (negb (bool_decide _)); [done|]. apply rbind_Ok in Hk as ([version r2] & H2 & Hk). cbv beta iota in Hk.
  destruct (negb _); [done|]. apply rbind_Ok in Hk as (r3 & H3 & Hk).
  apply rbind_Ok in Hk as ([pad r4] & H4 & Hk). cbv beta iota in Hk.
  apply rbind_Ok in Hk as ([seq r5] & H5 & Hk). apply rbind_Ok in Hk as ([[es rows] r6] & H6 & Hk).
  apply rbind_Ok in Hk as ([cs r7] & H7 & Hk). apply rbind_Ok in Hk as ([ls r8] & H8 & Hk).
  apply rbind_Ok in Hk as ([ss r9] & H9 & Hk). apply rbind_Ok in Hk as ([[cal lal] r10] & H10 & Hk).
  apply rbind_Ok in Hk as ([ks r11] & H11 & Hk). apply rbind_Ok in Hk as ([ar r12] & H12 & Hk).
  cbv beta iota in Hk. destruct (negb _); [done|]. injection Hk as <-.
  apply take_bytes_keeps in H1. apply read_u32_keeps in H2. apply verify_footer_shrinks in H3; [|by rewrite H2, H1].
  apply take_bytes_keeps in H4. apply load_seq_yields in H5 as [F5 K5].
  assert (F6 : Forall (fun e => e_count e <= U64_MAX) es /\ Forall row_repr rows /\ lenN es <= NIL /\
    lenN rows <= NIL /\ rd_bytes r6 = rd_bytes r5).
  { destruct (5 <=? version); [by eapply load_current_yields | by eapply load_legacy_yields]. }
  destruct F6 as (F6 & R6 & L6 & S6 & K6).
  pose proof (load_table_bounded _ _ _ H7) as [B7 K7]. pose proof (load_table_bounded _ _ _ H8) as [B8 K8].
  pose proof (load_table_bounded _ _ _ H9) as [_ K9].
  apply load_table_yields in H7 as [_ L7]. apply load_table_yields in H8 as [_ L8]. apply load_table_yields in H9 as [_ L9].
  apply load_aliases_yields in H10 as (A1 & A2 & B10 & C10 & K10). apply load_locators_yields in H11 as [F11 K11].
  apply load_arena_yields in H12.
  change (SIZE ConceptRecord) with 32 in *. change (SIZE LabelRecord) with 20 in *.
  assert (E : rd_bytes r5 = rd_bytes r3) by congruence.
  rewrite K6, E in B7. rewrite K7, K6, E in B8. rewrite K9, K8, K7, K6, E in B10, C10.
  split; [by constructor; simpl|]. split; [done|]. unfold image_fits, index_room. simpl. lia.
Qed.
