(* ===== verification/RestoreClaims.v ===== *)
(** * What the persistent image guarantees

    The round trip, the exact set of accepted images, the refusal of damaged ones
    and the transparency of the migration's memo table. *)

From S2P Require Export ImageLoad.
From S2P Require Import Sample.

Local Open Scope N_scope.

(** ** The checksum over a sealed image *)

(** Sealing drives the register to the same residue whatever the body was. *)
Lemma crc32c_residue body : crc32c (body ++ u32_to_le (crc32c body)) =
  N.lxor (Nat.iter 32 crc_bit 0xFFFFFFFF) 0xFFFFFFFF.
Proof.
  unfold crc32c at 1. f_equal. unfold crc32c_from. rewrite foldl_app.
  change (crc32c_from (crc32c_from 0xFFFFFFFF body) (u32_to_le (crc32c body)) = Nat.iter 32 crc_bit 0xFFFFFFFF).
  rewrite crc32c_from_closed, from_to_le_u32 by apply crc32c_bound.
  unfold u32_to_le. rewrite length_to_le. f_equal. unfold crc32c.
  by rewrite <- N.lxor_assoc, N.lxor_nilpotent, N.lxor_0_l.
Qed.

Lemma take_drop_footer (image : bytes) : (4 <= length image)%nat ->
  image = take (length image - 4) image ++ drop (length image - 4) image /\
  length (drop (length image - 4) image) = 4%nat.
Proof. intros Hl. rewrite take_drop, length_drop. split; [done | lia]. Qed.

(** Two images of one length that both verify differ in no short burst. *)
Lemma burst_unsealed pre w1 w2 post body : length w1 = length w2 -> (length w1 <= 4)%nat -> w1 <> w2 ->
  pre ++ w1 ++ post = body ++ u32_to_le (crc32c body) ->
  crc32c (take (length (pre ++ w2 ++ post) - 4) (pre ++ w2 ++ post)) <>
    from_le (drop (length (pre ++ w2 ++ post) - 4) (pre ++ w2 ++ post)).
Proof.
  intros Hlen H4 Hne Hseal Hcrc. apply Hne, (crc32c_burst pre _ _ post Hlen H4). rewrite Hseal, crc32c_residue.
  assert (Hl : (4 <= length (pre ++ w2 ++ post))%nat).
  { apply (f_equal length) in Hseal. rewrite !length_app in *. unfold u32_to_le in Hseal. rewrite length_to_le in Hseal. lia. }
  destruct (take_drop_footer _ Hl) as [Hs Hf]. set (b := take _ _) in *. set (f := drop _ _) in *.
  rewrite Hs, <- (crc32c_residue b), Hcrc. unfold u32_to_le. by rewrite <- Hf, to_le_from_le.
Qed.

Section claims.
Context `{UnicodeTables}.

Definition checksum_mismatch : CorruptImage :=
  corrupt "image checksum mismatch — the bytes changed after they were written".

(** An image that still carries the current magic and version is checked first. *)
Lemma verify_footer_refuses (image : bytes) rd : (4 <= length image)%nat ->
  crc32c (take (length image - 4) image) <> from_le (drop (length image - 4) image) ->
  verify_footer image 6 rd = Err checksum_mismatch.
Proof using.
  intros Hl Hne. unfold verify_footer. simpl. unfold IMAGE_FOOTER_SIZE.
  destruct (N.ltb_spec (lenN image) 4); [unfold lenN in *; lia|].
  replace (N.to_nat (lenN image - 4)) with (length image - 4)%nat by (unfold lenN; lia).
  by destruct (N.eqb_spec (crc32c (take (length image - 4) image)) (from_le (drop (length image - 4) image))).
Qed.

Lemma parse_refuses image rest : image = IMAGE_MAGIC ++ u32_to_le IMAGE_VERSION ++ rest -> lenN image <= USIZE_MAX ->
  (4 <= length image)%nat ->
  crc32c (take (length image - 4) image) <> from_le (drop (length image - 4) image) ->
  parse_image image = Err checksum_mismatch.
Proof using.
  intros HI Hb Hl Hne. pose proof (left_to_start _ _ HI Hb) as Hs. unfold parse_image.
  destruct (take_bytes_loads (lenN IMAGE_MAGIC) IMAGE_MAGIC eq_refl _ _ Hs) as (r1 & -> & Hl1 & _).
  cbn [rbind]. cbv beta iota. rewrite bool_decide_true by done. cbn [negb]. clear Hs.
  load_step (read_u32_loads IMAGE_VERSION ltac:(done)) r2 Hl2 Hb2.
  change (negb ((1 <=? IMAGE_VERSION) && (IMAGE_VERSION <=? IMAGE_VERSION))) with false. cbv iota.
  unfold IMAGE_VERSION. by rewrite verify_footer_refuses.
Qed.

(** C15. Writing a context and reading it back restores it: the image of a
    well-formed context with room in its entry indexes loads, without error or
    panic, to a well-formed context with the same tables, hence the same facts,
    and with the same name, alias, triple and claim lookups and the same counts of
    dead records: the indexes, which are not written, are rebuilt as they were. *)
Theorem image_roundtrip c (Hwf : wf c) (Hroom : index_room c) :
  exists c', from_bytes (to_bytes c) = Some (Ok c') /\ wf c' /\ unindexed c' = unindexed c /\ facts c' = facts c /\
    (concept_ids c' = concept_ids c /\ label_ids c' = label_ids c /\ source_ids c' = source_ids c) /\
    (concept_alias_index c' = concept_alias_index c /\ label_alias_index c' = label_alias_index c) /\
    (edge_ids c' = edge_ids c /\ attribution_ids c' = attribution_ids c) /\
    (dead_edges c' = dead_edges c /\ dead_attributions c' = dead_attributions c).
Proof using.
  destruct (rebuild_complete c Hwf Hroom) as [c' Hc]. exists c'.
  pose proof (parse_to_bytes c Hwf) as Hp. unfold from_bytes. rewrite Hp. cbn [abind].
  destruct (parse_yields _ _ Hp) as (Hfit & Hu & _).
  destruct (rebuild_sound _ _ Hu Hfit Hc) as [Hwf' Hu'].
  destruct (indexes_determined c' c Hwf' Hwf Hu') as (? & ? & ? & ? & ? & _ & ? & ? & ? & ? & _).
  do 3 (split; [done|]). split; [|done]. by rewrite <- (facts_unindexed c'), Hu'.
Qed.

(** C16. Loading never trusts the bytes: on an image of at most seven times the id
    space [from_bytes] neither panics nor diverges, and it accepts the image
    exactly when the tables it carries are those of some well-formed context; what
    it returns is well formed and carries those tables unchanged. *)
Theorem from_bytes_accepts image (Hfits : image_fits image) :
  match from_bytes image with
  | None => False
  | Some (Ok c) => wf c /\ parse_image image = Ok (unindexed c)
  | Some (Err _) => forall c, wf c -> parse_image image <> Ok (unindexed c)
  end.
Proof using.
  unfold from_bytes. destruct (parse_image image) as [c0|e] eqn:Hp; cbn [abind]; [|by intros c _].
  destruct (parse_yields _ _ Hp) as (Hfit & Hu & Hroom). specialize (Hroom Hfits).
  destruct (rebuild_indexes c0) as [[c|e]|] eqn:Hr.
  - destruct (rebuild_sound _ _ Hu Hfit Hr) as [? Huc]. by rewrite Huc.
  - intros c Hwf [= ->]. destruct (rebuild_complete c Hwf) as [c' Hc]; [exact Hroom | congruence].
  - destruct (rebuild_total c0 Hroom) as [x Hx]. rewrite <- Hu in Hx. congruence.
Qed.

(** C17. Damage is caught before anything is trusted: if any run of up to four
    bytes after the magic and version of a written image is altered, in the body,
    in the footer or across both, loading it answers the checksum error. *)
Theorem image_burst_refused c pre w1 w2 post (Hwf : wf c) (Hsplit : to_bytes c = pre ++ w1 ++ post)
    (Hpre : 12 <= lenN pre) (Hlen : length w1 = length w2) (Hshort : (length w1 <= 4)%nat) (Hdiff : w1 <> w2) :
  from_bytes (pre ++ w2 ++ post) = Some (Err checksum_mismatch).
Proof using.
  pose proof (image_size c Hwf) as Hsize. rewrite Hsplit in Hsize.
  assert (Hpre' : exists tail, pre = (IMAGE_MAGIC ++ u32_to_le IMAGE_VERSION) ++ tail).
  { exists (drop 12 pre). rewrite <- (take_drop 12 pre) at 1. f_equal.
    transitivity (take 12 (to_bytes c)).
    - rewrite Hsplit, take_app_le by (unfold lenN in *; lia). done.
    - unfold to_bytes, image_body at 1. rewrite <- !app_assoc, app_assoc. by rewrite take_app_length'. }
  destruct Hpre' as [tail Htail]. unfold from_bytes.
  rewrite (parse_refuses (pre ++ w2 ++ post) (tail ++ w2 ++ post)); [done | | | |].
  - rewrite Htail, <- !app_assoc. done.
  - rewrite !lenN_app in *. unfold lenN in *. lia.
  - rewrite !length_app. unfold lenN in *. lia.
  - by eapply burst_unsealed.
Qed.
End claims.

(** Migrating the edges of an old image through the memo table of chain
    lengths gives what walking every edge's own chain gives, errors included, and
    every synthesized count fits: at most one more than there are claims. *)
Theorem migrate_edges_transparent rows es :
  migrate_edges rows es ∅ = migrate_edges_unshared rows es /\
  match migrate_edges rows es ∅ with
  | Ok edges => Forall (fun e => e_count e <= lenN rows + 1) edges /\ length edges = length es
  | Err _ => True
  end.
Proof.
  rewrite migrate_edges_memo by (intros ? ?; by rewrite lookup_empty). split; [done|].
  destruct (migrate_edges_unshared rows es) eqn:E; [by apply migrate_unshared_bound | done].
Qed.

(** ** Witnesses *)

Definition sample_image : bytes := to_bytes sample.

Lemma sample_room : index_room sample.
Proof. split; apply N.leb_le; vm_compute; reflexivity. Qed.

Lemma image_roundtrip_witness : index_room sample /\
  exists c', @from_bytes ascii_tables (to_bytes sample) = Some (Ok c') /\ facts c' = Some sample_facts.
Proof.
  split; [exact sample_room|].
  destruct (@image_roundtrip ascii_tables sample sample_wf sample_room) as (c' & Hrun & _ & _ & Hf & _).
  exists c'. split; [exact Hrun|]. rewrite Hf. exact sample_facts_eq.
Defined.

Lemma from_bytes_accepts_witness : image_fits (take 300 sample_image) /\
  match @from_bytes ascii_tables (take 300 sample_image) with
  | None => False
  | Some (Ok c) => @wf ascii_tables c /\ parse_image (take 300 sample_image) = Ok (unindexed c)
  | Some (Err _) => forall c, @wf ascii_tables c -> parse_image (take 300 sample_image) <> Ok (unindexed c)
  end.
Proof.
  assert (Hf : image_fits (take 300 sample_image)) by (apply N.leb_le; vm_compute; reflexivity).
  split; [exact Hf|]. exact (@from_bytes_accepts ascii_tables (take 300 sample_image) Hf).
Defined.

(** One flipped byte in the middle of the image. *)
Lemma image_burst_refused_witness :
  @from_bytes ascii_tables (take 100 sample_image ++ ["001"%byte] ++ drop 101 sample_image) = Some (Err checksum_mismatch).
Proof.
  apply (@image_burst_refused ascii_tables sample (take 100 sample_image) (take 1 (drop 100 sample_image)) ["001"%byte]
    (drop 101 sample_image) sample_wf).
  - vm_compute. reflexivity.
  - apply N.leb_le. vm_compute. reflexivity.
  - vm_compute. reflexivity.
  - apply Nat.leb_le. vm_compute. reflexivity.
  - vm_compute. discriminate.
Defined.
