(* ===== verification/CompactClaims.v ===== *)
(** * Compaction keeps exactly the live content

    The refinement theorem of [compacted], with everything the accounting needs. *)

From S2P Require Export CompactInstall QueryClaims ImageIndex.
From S2P Require Import Sample.

Local Open Scope N_scope.

(** The bytes of every live spelling, as [seed_arena_slack] counts them. *)
Definition name_bytes (c : Context) : N :=
  total_of c_name_len (concepts c) + total_of l_name_len (labels c) + total_of s_name_len (sources c) +
  total_of a_name_len (concept_aliases c) + total_of a_name_len (label_aliases c).

(** What live facts mention. *)
Definition mentioned (fs : list Fact) : list name :=
  remove_dups (mjoin ((fun f => [f_subject f; f_object f]) <$> live_facts fs)).
Definition used_labels (fs : list Fact) : list name := remove_dups (f_label <$> live_facts fs).
Definition used_sources (fs : list Fact) : list name :=
  remove_dups (mjoin ((fun f => att_source <$> f_attributions f) <$> live_facts fs)).

Definition pool_of (fs : list Fact) : pool :=
  {| p_concepts := mentioned fs; p_labels := used_labels fs; p_sources := used_sources fs; p_extra := 0 |}.

Lemma elem_of_mentioned n fs : n ∈ mentioned fs <-> exists f, f ∈ live_facts fs /\ (f_subject f = n \/ f_object f = n).
Proof.
  unfold mentioned. rewrite elem_of_remove_dups, list_elem_of_join. setoid_rewrite list_elem_of_fmap. split.
  - intros (l & Hn & f & -> & Hf). exists f. split; [done|]. apply elem_of_cons in Hn as [->|Hn%list_elem_of_singleton]; auto.
  - intros (f & Hf & Hn). exists [f_subject f; f_object f]. split; [destruct Hn; set_solver | eauto].
Qed.

Lemma elem_of_used_sources n fs : n ∈ used_sources fs <-> exists f a, f ∈ live_facts fs /\ a ∈ f_attributions f /\ att_source a = n.
Proof.
  unfold used_sources. rewrite elem_of_remove_dups, list_elem_of_join. setoid_rewrite list_elem_of_fmap. split.
  - intros (l & Hn & f & -> & Hf). apply list_elem_of_fmap in Hn as (a & -> & Ha). eauto.
  - intros (f & a & Hf & Ha & <-). exists (att_source <$> f_attributions f). split; [by apply list_elem_of_fmap_2 | eauto].
Qed.

Lemma elem_of_live f fs : f ∈ live_facts fs <-> f ∈ fs /\ f_count f <> 0.
Proof. unfold live_facts. rewrite list_elem_of_filter. tauto. Qed.

Lemma weigh_names {R} (off len : R -> N) arena (recs : list R) ns :
  Forall2 (fun r n => name_at arena (off r) (len r) = Some n) recs ns -> weigh ns = total_of len recs.
Proof. induction 1 as [|r n recs ns Hr _ IH]; [done|]. apply name_at_valid in Hr as [_ Hl]. simpl. unfold total_of in *. lia. Qed.

Section compacted.
Context `{UnicodeTables} (c : Context) (fs : list Fact) (Hwf : wf c) (Hfs : facts c = Some fs).

Lemma fact_of f : f ∈ fs -> exists i, fact_at c i = Some f.
Proof using Hfs.
  intros (i & Hi)%list_elem_of_lookup. exists (N.of_nat i). pose proof (facts_lookup _ _ Hfs) as [Hlen Hget].
  assert (Ht : tget fs (N.of_nat i) = Some f) by (by rewrite tget_lookup, Nat2N.id).
  rewrite <- Hget; [done|]. rewrite <- Hlen. by eapply tget_Some_lt.
Qed.

Lemma keys_distinct : NoDup (f_key <$> fs).
Proof using All.
  pose proof Hfs as H2%mapM_Some. eapply (Forall2_NoDup_inj _ f_key); [exact H2 | apply NoDup_indices|].
  intros i j f g _ _ Hi Hj Heq. exact (fact_key_inj c i j f g Hwf Hi Hj Heq).
Qed.

(** The name lists of the tables. *)
Lemma tables_names : exists ns ls ss ca la,
  (forall i n, concept_name c i = Some n -> n ∈ ns) /\ (forall i n, label_name c i = Some n -> n ∈ ls) /\
  (forall i n, source_name c i = Some n -> n ∈ ss) /\
  lenN ns = lenN (concepts c) /\ lenN ls = lenN (labels c) /\ lenN ss = lenN (sources c) /\
  weigh ns + weigh ls + weigh ss + weigh ca + weigh la = name_bytes c /\
  (forall pairs, alias_pairs concept_space c = Some pairs -> pairs.*1 = ca) /\
  (forall pairs, alias_pairs label_space c = Some pairs -> pairs.*1 = la).
Proof using Hwf.
  destruct (wf_concepts _ Hwf) as (ns & ca & [Cn Ca Ce]). destruct (wf_labels _ Hwf) as (ls & la & [Ln La Le] & _).
  destruct (wf_sources _ Hwf) as (ss & Sn). unfold source_names in Sn. exists ns, ls, ss, ca, la.
  pose proof (wf_sizes _ Hwf) as [_ S1 S2 S3 _ _ _ _].
  pose proof (ns_length Cn) as L1. pose proof (ns_length Ln) as L2. pose proof (ns_length Sn) as L3.
  rewrite length_fmap in L1. rewrite length_fmap in L2. rewrite length_fmap in L3.
  assert (Hin : forall (recs : list name_range) aliases ids al nl i r n, ns_ok (arena c) recs aliases ids nl al ->
    tget recs i = Some r -> name_at (arena c) r.1 r.2 = Some n -> n ∈ nl).
  { intros recs aliases ids al nl i r n Hn Hr Hname. destruct (ns_name_at Hn i r Hr) as (n' & Hn' & Hl).
    rewrite tget_lookup in Hl. apply list_elem_of_lookup_2 in Hl. congruence. }
  split; [|split; [|split; [|split; [unfold lenN in *; lia|split; [unfold lenN in *; lia|split; [unfold lenN in *; lia|split; [|split]]]]]]].
  - intros i n Hi. unfold concept_name, arena_str in Hi. apply bind_Some in Hi as (r & Hr & Hi).
    eapply (Hin _ _ _ _ _ i (c_range r) n Cn); [by rewrite tget_fmap, Hr | done].
  - intros i n Hi. unfold label_name, arena_str in Hi. apply bind_Some in Hi as (r & Hr & Hi).
    eapply (Hin _ _ _ _ _ i (l_range r) n Ln); [by rewrite tget_fmap, Hr | done].
  - intros i n Hi. unfold source_name, arena_str in Hi. apply bind_Some in Hi as (r & Hr & Hi).
    eapply (Hin _ _ _ _ _ i (s_range r) n Sn); [by rewrite tget_fmap, Hr | done].
  - unfold name_bytes. f_equal; [f_equal; [f_equal; [f_equal|]|]|].
    + apply (weigh_names c_name_offset c_name_len (arena c)). pose proof (ns_names _ _ _ _ _ _ Cn) as HF. by rewrite Forall2_fmap_l in HF.
    + apply (weigh_names l_name_offset l_name_len (arena c)). pose proof (ns_names _ _ _ _ _ _ Ln) as HF. by rewrite Forall2_fmap_l in HF.
    + apply (weigh_names s_name_offset s_name_len (arena c)). pose proof (ns_names _ _ _ _ _ _ Sn) as HF. by rewrite Forall2_fmap_l in HF.
    + apply (weigh_names a_name_offset a_name_len (arena c)), alias_ranges, Cn.
    + apply (weigh_names a_name_offset a_name_len (arena c)), alias_ranges, Ln.
  - intros pairs Hp. destruct (alias_pairs_spec concept_space c pairs Hwf Hp) as (ns' & al' & [Cn' _ _] & -> & _).
    by destruct (ns_ok_fun _ _ _ _ _ _ _ _ _ Cn Cn') as (_ & _ & ->).
  - intros pairs Hp. destruct (alias_pairs_spec label_space c pairs Hwf Hp) as (ns' & al' & [Ln' _ _] & -> & _).
    by destruct (ns_ok_fun _ _ _ _ _ _ _ _ _ Ln Ln') as (_ & _ & ->).
Qed.

Lemma live_fact_names f : f ∈ live_facts fs -> exists i e, fact_at c i = Some f /\ tget (edges c) i = Some e /\
  concept_name c (e_subject e) = Some (f_subject f) /\ label_name c (e_label e) = Some (f_label f) /\
  concept_name c (e_object e) = Some (f_object f) /\ fact_ok f.
Proof using Hfs Hwf.
  intros [Hf _]%elem_of_live. destruct (fact_of f Hf) as [i Hi]. pose proof (fact_at_ok c i f Hwf Hi).
  pose proof Hi as (e & _ & He & Hs & Hl & Ho & _)%fact_at_inv. exists i, e. done.
Qed.

Lemma fact_source_name f a : f ∈ live_facts fs -> a ∈ f_attributions f -> exists i, source_name c i = Some (att_source a).
Proof using Hfs.
  intros [Hf _]%elem_of_live Ha. destruct (fact_of f Hf) as [i Hi].
  apply fact_at_inv in Hi as (e & l & _ & _ & _ & _ & _ & Hm%mapM_Some & _). apply list_elem_of_lookup in Ha as [k Hk].
  destruct (Forall2_lookup_r _ _ _ _ _ Hm Hk) as (t & _ & Ht).
  destruct (row_source c t a Ht) as (r & _ & Hn & _). eauto.
Qed.

(** Everything the fresh context needs fits, its aliases included. *)
Lemma pool_room cal lal : name_bytes c <= U32_MAX ->
  alias_pairs concept_space c = Some cal -> alias_pairs label_space c = Some lal ->
  pool_fits (pool_of fs) /\ lenN (mentioned fs) <= lenN (concepts c) /\ lenN (used_labels fs) <= lenN (labels c) /\
  weigh (mentioned fs) + weigh (used_labels fs) + weigh (used_sources fs) + weigh cal.*1 + weigh lal.*1 <= U32_MAX.
Proof using Hfs Hwf.
  intros Hb Hcal Hlal. destruct tables_names as (ns & ls & ss & ca & la & Hns & Hls & Hss & E1 & E2 & E3 & Hw & Hca & Hla).
  rewrite (Hca _ Hcal), (Hla _ Hlal). pose proof (wf_sizes _ Hwf) as [_ S1 S2 S3 _ _ _ _].
  assert (Dc : NoDup (mentioned fs)) by apply NoDup_remove_dups. assert (Dl : NoDup (used_labels fs)) by apply NoDup_remove_dups.
  assert (Ds : NoDup (used_sources fs)) by apply NoDup_remove_dups.
  assert (Ic : forall n, n ∈ mentioned fs -> n ∈ ns).
  { intros n (f & Hf & Hn)%elem_of_mentioned. destruct (live_fact_names f Hf) as (i & e & _ & _ & Hs & _ & Ho & _).
    destruct Hn as [<-|<-]; by eapply Hns. }
  assert (Il : forall n, n ∈ used_labels fs -> n ∈ ls).
  { intros n Hn. unfold used_labels in Hn. apply elem_of_remove_dups, list_elem_of_fmap in Hn as (f & -> & Hf).
    destruct (live_fact_names f Hf) as (i & e & _ & _ & _ & Hl & _). by eapply Hls. }
  assert (Is : forall n, n ∈ used_sources fs -> n ∈ ss).
  { intros n (f & a & Hf & Ha & <-)%elem_of_used_sources. destruct (fact_source_name f a Hf Ha) as [i Hi]. by eapply Hss. }
  pose proof (subset_room _ _ Dc Ic). pose proof (subset_room _ _ Dl Il). pose proof (subset_room _ _ Ds Is).
  pose proof (subset_weigh _ _ Dc Ic). pose proof (subset_weigh _ _ Dl Il). pose proof (subset_weigh _ _ Ds Is).
  unfold pool_fits, pool_of. cbn [p_concepts p_labels p_sources p_extra]. lia.
Qed.

Lemma drawn_of f : f ∈ fs -> f_count f <> 0 -> drawn (pool_of fs) f.
Proof using Hfs Hwf.
  intros Hf Hc. assert (Hl : f ∈ live_facts fs) by by apply elem_of_live.
  destruct (live_fact_names f Hl) as (i & e & Hi & He & Hs & Hlb & Ho & Hok).
  assert (Hv : forall k n, concept_name c k = Some n -> utf8_valid n = true).
  { intros k n Hn. unfold concept_name, arena_str in Hn. apply bind_Some in Hn as (r & _ & Hn). by apply name_at_valid in Hn as [? _]. }
  assert (Hvl : utf8_valid (f_label f) = true).
  { unfold label_name, arena_str in Hlb. apply bind_Some in Hlb as (r & _ & Hn). by apply name_at_valid in Hn as [? _]. }
  split; [done | | | |].
  - split; [apply elem_of_mentioned; eauto | by eapply Hv].
  - split; [apply elem_of_mentioned; eauto | by eapply Hv].
  - split; [|done]. unfold pool_of, used_labels. cbn [p_labels]. apply elem_of_remove_dups. by apply list_elem_of_fmap_2.
  - intros a Ha. apply elem_of_used_sources. eauto.
Qed.

Lemma claims_fit : claims_len fs <= lenN (attributions c).
Proof using Hfs Hwf.
  destruct (wf_attributions _ Hwf) as (chains & Hat). pose proof Hat as (Ha & Hd & _).
  enough (claims_len fs = lenN (mjoin chains)) by lia.
  assert (HF : Forall2 (fun f l => length (f_attributions f) = length l) fs chains).
  { pose proof (facts_lookup _ _ Hfs) as [Hlen Hget]. apply Forall2_tget.
    { pose proof (Forall2_length _ _ _ (attr_chains _ _ _ _ _ Ha)) as Hl. rewrite length_fmap in Hl. unfold lenN in Hlen. lia. }
    intros i f l Hf Hl. rewrite Hget in Hf by (rewrite <- Hlen; by eapply tget_Some_lt).
    destruct (fact_chain c chains i f Hat Hf) as (l' & Hl' & Hm & _). assert (l' = l) as -> by congruence.
    symmetry. by eapply length_mapM. }
  clear -HF. induction HF as [|f l fs ls Hl _ IH]; [done|].
  change (claims_len (f :: fs)) with (lenN (f_attributions f) + claims_len fs). simpl. rewrite lenN_app. unfold lenN in *. lia.
Qed.
End compacted.

(** * What a compaction keeps *)

From S2P Require Export RestoreThm.
From S2P Require Import Sample.

Local Open Scope N_scope.

Section claims.
Context `{UnicodeTables}.

Lemma name_carry (S : AliasSpace) F F' x t n : as_name F t = Some n -> as_records F' = as_records F ->
  arena F' = arena F ++ x -> as_name F' t = Some n.
Proof using.
  rewrite !as_name_spec. intros (r & Hr & Hn)%bind_Some -> ->. rewrite Hr. cbn [mbind option_bind]. by apply name_at_app.
Qed.

(** Once adopted, an alias reads as its canonical name, if that came back. *)
Lemma adopted_reads (S : AliasSpace) F F' x base pairs (kept : list name) a n :
  (forall m i, base !! m = Some i -> as_name F i = Some m) -> (forall m, is_Some (base !! m) <-> m ∈ kept) ->
  NoDup pairs.*1 -> (a, n) ∈ pairs -> base !! a = None -> an_ids (as_handle F') = adopted base pairs base ->
  as_records F' = as_records F -> arena F' = arena F ++ x ->
  (i ← an_ids (as_handle F') !! a; as_name F' i) = if decide (n ∈ kept) then Some n else None.
Proof using.
  intros Hname Hkept Hnd Hin Ha -> Hr Har. rewrite adopted_lookup by done.
  assert (exists k, list_find (fun p => p.1 = a) pairs = Some (k, (a, n))) as [k ->].
  { apply list_elem_of_lookup in Hin as [j Hj].
    exists j. apply list_find_Some. split; [done|]. split; [done|]. intros i [b m] Hi Hlt Hb. simpl in Hb. subst b.
    assert (i = j); [|lia]. eapply (NoDup_lookup pairs.*1); [done| |]; rewrite list_lookup_fmap; [rewrite Hi | rewrite Hj]; done. }
  cbn [snd]. destruct (base !! n) as [t|] eqn:Et.
  - rewrite decide_True by (apply Hkept; eauto). cbn [mbind option_bind]. eapply name_carry; [by apply Hname | done | done].
  - rewrite decide_False by (rewrite <- Hkept, Et; by intros [? ?]). by rewrite Ha.
Qed.

Lemma dropped_count (base : gmap name N) (kept : list name) (pairs : list (name * name)) :
  (forall m, is_Some (base !! m) <-> m ∈ kept) ->
  lenN (filter (fun pair => resolves base pair = false) pairs) = lenN (filter (fun pair => pair.2 ∉ kept) pairs).
Proof using.
  intros Hk. f_equal. apply list_filter_iff. intros [a n]. unfold resolves. cbn [snd].
  rewrite bool_decide_eq_false, Hk. done.
Qed.

(** The names of a context built from live facts are those the facts mention. *)
Lemma partial_mentions fs F ns ls ss : partial F ns ls ss -> within (pool_of fs) ns ls ss ->
  facts F = Some (compact_fact <$> live_facts fs) ->
  (forall m, is_Some (concept_ids F !! m) <-> m ∈ mentioned fs) /\ (forall m, is_Some (label_ids F !! m) <-> m ∈ used_labels fs).
Proof using.
  intros P W Hfs. pose proof (pt_wf _ _ _ _ P) as Hwf. split; intros m; split.
  - intros [i Hi]. apply (partial_concept _ _ _ _ _ _ P) in Hi. apply (w_concepts _ _ _ _ W).
    rewrite tget_lookup in Hi. by apply list_elem_of_lookup_2 in Hi.
  - intros (f & Hf & Hm)%elem_of_mentioned.
    destruct (facts_elem F _ (compact_fact f) Hfs) as [i Hi]; [by apply list_elem_of_fmap_2|].
    apply fact_at_inv in Hi as (e & l & _ & Hs & _ & Ho & _). simpl in Hs, Ho.
    apply (concept_name_id Hwf) in Hs. apply (concept_name_id Hwf) in Ho. destruct Hm as [<-|<-]; eauto.
  - intros [i Hi]. apply (partial_label _ _ _ _ _ _ P) in Hi. apply (w_labels _ _ _ _ W).
    rewrite tget_lookup in Hi. by apply list_elem_of_lookup_2 in Hi.
  - intros Hm. unfold used_labels in Hm. apply elem_of_remove_dups, list_elem_of_fmap in Hm as (f & -> & Hf).
    destruct (facts_elem F _ (compact_fact f) Hfs) as [i Hi]; [by apply list_elem_of_fmap_2|].
    apply fact_at_inv in Hi as (e & l & _ & _ & Hl & _). simpl in Hl. apply (label_name_id Hwf) in Hl. eauto.
Qed.

Lemma query_everything c fs : wf c -> facts c = Some fs -> query_any [] [] [] c = Some (fact_association <$> fs).
Proof using.
  intros Hwf Hfs. unfold query_any. rewrite (query_any_impl_facts Hwf _ _ [] [] [] fs Hfs).
  rewrite filter_all by (intros f _; unfold fact_matches, pin; tauto). f_equal.
Qed.

Lemma partial_concept_name F ns ls ss m i : partial F ns ls ss -> concept_ids F !! m = Some i -> concept_name F i = Some m.
Proof using.
  intros P Hi. pose proof (pt_wf _ _ _ _ P) as Hwf.
  destruct (concept_name_total Hwf i) as [k Hk]; [by eapply concept_id_lt|]. rewrite Hk. f_equal.
  apply (concept_name_id Hwf) in Hk. apply (partial_concept _ _ _ _ _ _ P) in Hk, Hi. congruence.
Qed.

Lemma partial_label_name F ns ls ss m i : partial F ns ls ss -> label_ids F !! m = Some i -> label_name F i = Some m.
Proof using.
  intros P Hi. pose proof (pt_wf _ _ _ _ P) as Hwf.
  destruct (label_name_total Hwf i) as [k Hk]; [by eapply label_id_lt|]. rewrite Hk. f_equal.
  apply (label_name_id Hwf) in Hk. apply (partial_label _ _ _ _ _ _ P) in Hk, Hi. congruence.
Qed.

(** The two alias phases, from the context the edges left. *)
Lemma alias_phases c fs cal lal expired st ns ls ss :
  wf c -> facts c = Some fs -> alias_pairs concept_space c = Some cal -> alias_pairs label_space c = Some lal ->
  name_bytes c <= U32_MAX -> index_room c ->
  partial (cp_fresh st) ns ls ss -> within (pool_of fs) ns ls ss ->
  facts (cp_fresh st) = Some (compact_fact <$> live_facts fs) ->
  let run := andThen (compact_aliases concept_space expired cal st) (fun st => compact_aliases label_space expired lal st) in
  (run = Some (Err DeadlineExceeded) /\ exists k, cp_polls st <= k < cp_polls st + (lenN cal + lenN lal) /\ expired k = true) \/
  exists st', run = Some (Ok st') /\ wf (cp_fresh st') /\
    (forall k, cp_polls st <= k < cp_polls st + (lenN cal + lenN lal) -> expired k = false) /\
    facts (cp_fresh st') = Some (compact_fact <$> live_facts fs) /\
    (dead_edges (cp_fresh st') = dead_edges (cp_fresh st) /\ dead_attributions (cp_fresh st') = dead_attributions (cp_fresh st)) /\
    (forall a n, (a, n) ∈ cal -> (i ← concept_ids (cp_fresh st') !! a; concept_name (cp_fresh st') i) =
       if decide (n ∈ mentioned fs) then Some n else None) /\
    (forall a n, (a, n) ∈ lal -> (i ← label_ids (cp_fresh st') !! a; label_name (cp_fresh st') i) =
       if decide (n ∈ used_labels fs) then Some n else None) /\
    cs_dead_edges (cp_stats st') = cs_dead_edges (cp_stats st) /\
    cs_aliases_dropped (cp_stats st') = cs_aliases_dropped (cp_stats st) +
      (lenN (filter (fun pair => pair.2 ∉ mentioned fs) cal) + lenN (filter (fun pair => pair.2 ∉ used_labels fs) lal)).
Proof using.
  intros Hwf Hfs Hcal Hlal Hb [Rc Rl] P W HF.
  destruct (pool_room c fs Hwf Hfs cal lal Hb Hcal Hlal) as (Hp & Lc & Ll & Hw).
  destruct (partial_lengths _ _ _ _ P) as (E1 & E2 & _ & _ & _ & Dc & Dl & Ds).
  destruct (partial_mentions fs _ _ _ _ P W HF) as [Mc Ml].
  pose proof (subset_room _ _ Dc (w_concepts _ _ _ _ W)) as Qc. pose proof (subset_room _ _ Dl (w_labels _ _ _ _ W)) as Ql.
  pose proof (subset_weigh _ _ Dc (w_concepts _ _ _ _ W)) as Vc. pose proof (subset_weigh _ _ Dl (w_labels _ _ _ _ W)) as Vl.
  pose proof (subset_weigh _ _ Ds (w_sources _ _ _ _ W)) as Vs. cbn [pool_of p_concepts p_labels p_sources] in Qc, Ql, Vc, Vl, Vs.
  pose proof (pt_arena _ _ _ _ P) as Har. pose proof (pt_wf _ _ _ _ P) as Hwf1.
  destruct (alias_pairs_spec concept_space c cal Hwf Hcal) as (cns & cnal & [Cn _ _] & Cal & Clen & Cin).
  destruct (alias_pairs_spec label_space c lal Hwf Hlal) as (lns & lnal & [Ln _ _] & Lal & Llen & Lin).
  simpl in Cn, Clen, Ln, Llen. subst cnal lnal.
  pose proof (ns_unique _ _ _ _ _ _ Cn) as (_ & Cdis & Cnd)%NoDup_app. pose proof (ns_unique _ _ _ _ _ _ Ln) as (_ & Ldis & Lnd)%NoDup_app.
  assert (Isub : forall n, n ∈ mentioned fs -> n ∈ cns).
  { intros n (f & Hf & Hn)%elem_of_mentioned. destruct (live_fact_names c fs Hwf Hfs f Hf) as (i & e & _ & _ & Hs & _ & Ho & _).
    assert (Hin : forall j m, concept_name c j = Some m -> m ∈ cns).
    { intros j m Hj. unfold concept_name, arena_str in Hj. apply bind_Some in Hj as (r & Hr & Hj).
      destruct (ns_name_at Cn j (c_range r)) as (m' & Hm' & Hl); [by rewrite tget_fmap, Hr|].
      rewrite tget_lookup in Hl. apply list_elem_of_lookup_2 in Hl. simpl in Hm'. congruence. }
    destruct Hn as [<-|<-]; by eapply Hin. }
  assert (Jsub : forall n, n ∈ used_labels fs -> n ∈ lns).
  { intros n Hn. unfold used_labels in Hn. apply elem_of_remove_dups, list_elem_of_fmap in Hn as (f & -> & Hf).
    destruct (live_fact_names c fs Hwf Hfs f Hf) as (i & e & _ & _ & _ & Hl & _).
    unfold label_name, arena_str in Hl. apply bind_Some in Hl as (r & Hr & Hl).
    destruct (ns_name_at Ln (e_label e) (l_range r)) as (m' & Hm' & Hk); [by rewrite tget_fmap, Hr|].
    rewrite tget_lookup in Hk. apply list_elem_of_lookup_2 in Hk. simpl in Hm'. congruence. }
  assert (Cnone : forall a n, (a, n) ∈ cal -> concept_ids (cp_fresh st) !! a = None).
  { intros a n Ha. destruct (concept_ids (cp_fresh st) !! a) eqn:E; [exfalso | done].
    apply (Cdis a); [apply Isub, Mc; eauto|]. apply list_elem_of_fmap. by exists (a, n). }
  assert (Lnone : forall a n, (a, n) ∈ lal -> label_ids (cp_fresh st) !! a = None).
  { intros a n Ha. destruct (label_ids (cp_fresh st) !! a) eqn:E; [exfalso | done].
    apply (Ldis a); [apply Jsub, Ml; eauto|]. apply list_elem_of_fmap. by exists (a, n). }
  assert (Aempty : concept_aliases (cp_fresh st) = [] /\ label_aliases (cp_fresh st) = []).
  { pose proof (ns_al_length (nw_names _ _ _ _ _ _ _ _ (pt_concepts _ _ _ _ P))) as A1.
    pose proof (ns_al_length (nw_names _ _ _ _ _ _ _ _ (proj1 (pt_labels _ _ _ _ P)))) as A2.
    rewrite !length_fmap in A1. rewrite !length_fmap in A2. split; by apply length_zero_iff_nil. }
  destruct Aempty as [A1 A2]. cbn zeta.
  destruct (compact_aliases_spec concept_space (fun F => (label_handle F, l_range <$> labels F, dead_edges F, dead_attributions F))
    ltac:(done) expired (concept_ids (cp_fresh st)) cal st Hwf1 Cnd) as
    [[-> (k & Hk & Hx)]|(st2 & -> & W2 & Pl2 & Ex2 & Fa2 & Ot2 & Id2 & Re2 & (x2 & Ar2 & Hx2) & De2 & Dr2)].
  { intros a n Ha. split; [by destruct (Cin a n Ha)|]. by apply (Cnone a n). }
  { intros a n Ha. split; [done|]. intros Hin. apply (Cdis n); [by destruct (Cin a n Ha) | done]. }
  { rewrite Har. lia. }
  { simpl. rewrite lenN_fmap, A1, E1, Clen. unfold lenN at 2. simpl. lia. }
  { left. split; [done|]. exists k. split; [lia | done]. }
  pose proof (f_equal (fun p => p.1.1.1) Ot2) as Ol2. pose proof (f_equal (fun p => p.1.1.2) Ot2) as Olr2.
  pose proof (f_equal (fun p => p.1.2) Ot2) as Od2. pose proof (f_equal (fun p => p.2) Ot2) as Oa2.
  cbn [fst snd] in Ol2, Olr2, Od2, Oa2. cbn [andThen mbind option_bind].
  destruct (compact_aliases_spec label_space (fun F => (concept_ids F, c_range <$> concepts F, dead_edges F, dead_attributions F))
    ltac:(done) expired (label_ids (cp_fresh st)) lal st2 W2 Lnd) as
    [[HE (k & Hk & Hx)]|(st3 & HE & W3 & Pl3 & Ex3 & Fa3 & Ot3 & Id3 & Re3 & (x3 & Ar3 & Hx3) & De3 & Dr3)].
  { intros a n Ha. split; [by destruct (Lin a n Ha)|]. change (an_ids (label_handle (cp_fresh st2)) !! a = None); rewrite Ol2. by apply (Lnone a n). }
  { intros a n Ha. split; [change (an_ids (label_handle (cp_fresh st2)) !! n = label_ids (cp_fresh st) !! n); by rewrite Ol2|]. intros Hin. apply (Ldis n); [by destruct (Lin a n Ha) | done]. }
  { rewrite Ar2, lenN_app, Har. lia. }
  { change (lenN (l_range <$> labels (cp_fresh st2)) + lenN (an_aliases (label_handle (cp_fresh st2))) + lenN lal <= NIL).
    rewrite Olr2, Ol2, lenN_fmap, E2, Llen. simpl. rewrite A2. unfold lenN at 2. simpl. lia. }
  { left. split; [exact HE|]. exists k. split; [lia | done]. }
  pose proof (f_equal (fun p => p.1.1.1) Ot3) as Oc3. pose proof (f_equal (fun p => p.1.1.2) Ot3) as Ocr3.
  pose proof (f_equal (fun p => p.1.2) Ot3) as Od3. pose proof (f_equal (fun p => p.2) Ot3) as Oa3.
  cbn [fst snd] in Oc3, Ocr3, Od3, Oa3. right. exists st3. split; [exact HE|]. split; [done|].
  split; [intros k Hk; destruct (N.lt_ge_cases k (cp_polls st2)); [apply Ex2 | apply Ex3]; lia|].
  split; [congruence|]. split; [split; congruence|]. rewrite Ar2, <- app_assoc in Ar3.
  split; [|split; [|split; [congruence|]]].
  - intros a n Ha. simpl in Id2, Re2. apply (adopted_reads concept_space (cp_fresh st) (cp_fresh st3) (x2 ++ x3)
      (concept_ids (cp_fresh st)) cal (mentioned fs)); try done.
    + intros m i. by apply (partial_concept_name _ _ _ _ _ _ P).
    + by apply (Cnone a n).
    + simpl. congruence.
    + simpl. congruence.
  - intros a n Ha. simpl in Id3, Re3. apply (adopted_reads label_space (cp_fresh st) (cp_fresh st3) (x2 ++ x3)
      (label_ids (cp_fresh st)) lal (used_labels fs)); try done.
    + intros m i. by apply (partial_label_name _ _ _ _ _ _ P).
    + by apply (Lnone a n).
    + simpl. pose proof (f_equal an_ids Ol2) as Hl. simpl in Hl. rewrite Id3, Hl. done.
    + simpl. congruence.
  - rewrite Dr3, Dr2, (dropped_count _ (mentioned fs) cal Mc), (dropped_count _ (used_labels fs) lal Ml). lia.
Qed.
End claims.

(** Every outcome of a compaction. *)
Lemma compacted_cases `{UnicodeTables} c fs cal lal expired (Hwf : wf c) (Hfs : facts c = Some fs)
    (Hcal : alias_pairs concept_space c = Some cal) (Hlal : alias_pairs label_space c = Some lal)
    (Hbytes : name_bytes c <= U32_MAX) (Hroom : index_room c) :
  let polls := lenN fs + (lenN cal + lenN lal) in
  match compacted expired c with
  | Some (Ok (fresh, stats)) =>
    (forall k, k < polls -> expired k = false) /\ wf fresh /\
    facts fresh = Some (compact_fact <$> live_facts fs) /\ dead_edges fresh = 0 /\ dead_attributions fresh = 0 /\
    (forall a n, (a, n) ∈ cal -> (i ← concept_ids fresh !! a; concept_name fresh i) =
       if decide (n ∈ mentioned fs) then Some n else None) /\
    (forall a n, (a, n) ∈ lal -> (i ← label_ids fresh !! a; label_name fresh i) =
       if decide (n ∈ used_labels fs) then Some n else None) /\
    cs_dead_edges stats = lenN (filter (fun f => f_count f = 0) fs) /\
    cs_aliases_dropped stats = lenN (filter (fun pair => pair.2 ∉ mentioned fs) cal) +
      lenN (filter (fun pair => pair.2 ∉ used_labels fs) lal)
  | Some (Err DeadlineExceeded) => exists k, k < polls /\ expired k = true
  | _ => False
  end.
Proof.
  destruct (pool_room c fs Hwf Hfs cal lal Hbytes Hcal Hlal) as (Hp & _).
  unfold compacted. rewrite (query_everything c fs Hwf Hfs), Hcal, Hlal. cbn [mbind option_bind].
  set (st0 := {| cp_polls := 0; cp_fresh := Context_default; cp_stats := _ |}).
  destruct (compact_edges_spec (pool_of fs) Hp expired fs st0 [] [] [] []) as
    [[-> (k & Hk & Hx)]|(st1 & ns & ls & ss & -> & P & W & Pl & Ex & Fa & [De Da] & D1 & D2)].
  - apply partial_default.
  - by split; intros n Hn%elem_of_nil.
  - done.
  - intros f Hf Hc. by apply (drawn_of c).
  - by apply (keys_distinct c).
  - apply facts_lookup in Hfs as [-> _]. apply (wf_sizes _ Hwf).
  - simpl. pose proof (claims_fit c fs Hwf Hfs). pose proof (sz_attributions _ (wf_sizes _ Hwf)). unfold lenN at 1. simpl. lia.
  - cbn [andThen mbind option_bind]. exists k. cbn [cp_polls st0] in Hk. split; [lia | done].
  - cbn [andThen mbind option_bind app] in *. cbn [st0 cp_polls cp_fresh cp_stats cs_dead_edges cs_aliases_dropped] in *.
    pose proof (alias_phases c fs cal lal expired st1 ns ls ss Hwf Hfs Hcal Hlal Hbytes Hroom P W Fa) as Hphases.
    cbn zeta in Hphases. unfold andThen in Hphases |- *.
    destruct (compact_aliases concept_space expired cal st1) as [[st2|e]|]; cbn [mbind option_bind] in *;
      [destruct (compact_aliases label_space expired lal st2) as [[st3|e]|]; cbn [mbind option_bind] in *| |];
      (destruct Hphases as [[HE (k & Hk & Hx)]|(st' & HE & W' & Ex' & Fa' & [De' Da'] & Hc & Hl & S1 & S2)]; simplify_eq);
      try (exists k; split; [lia | done]).
    split. { intros k Hk. destruct (N.lt_ge_cases k (cp_polls st1)); [apply Ex | apply Ex']; lia. }
    split; [done|]. split; [done|]. split; [rewrite De', De; done|]. split; [rewrite Da', Da; done|].
    split; [done|]. split; [done|]. split; [rewrite S1, D1; lia | rewrite S2, D2; lia].
Qed.

(** C18. Compaction rebuilds exactly the live content: on a well-formed context
    whose spellings fit the arena it never panics and never runs out of room; it
    answers the deadline error only if some poll expired, and otherwise returns a
    well-formed context without dead records whose facts are the live facts in
    order, every claim, count and locator verbatim and the sum rebuilt as average
    times count; each alias reads as its canonical name if a live fact still
    mentions it and is dropped, and counted, if none does; the dead facts left
    behind are counted. *)
Theorem compacted_refines `{UnicodeTables} c fs cal lal expired (Hwf : wf c) (Hfs : facts c = Some fs)
    (Hcal : alias_pairs concept_space c = Some cal) (Hlal : alias_pairs label_space c = Some lal)
    (Hbytes : name_bytes c <= U32_MAX) (Hroom : index_room c) :
  let polls := lenN fs + (lenN cal + lenN lal) in
  match compacted expired c with
  | Some (Ok (fresh, stats)) =>
    (forall k, k < polls -> expired k = false) /\ wf fresh /\
    facts fresh = Some (compact_fact <$> live_facts fs) /\ dead_edges fresh = 0 /\ dead_attributions fresh = 0 /\
    (forall a n, (a, n) ∈ cal -> (i ← concept_ids fresh !! a; concept_name fresh i) =
       if decide (n ∈ mentioned fs) then Some n else None) /\
    (forall a n, (a, n) ∈ lal -> (i ← label_ids fresh !! a; label_name fresh i) =
       if decide (n ∈ used_labels fs) then Some n else None) /\
    cs_dead_edges stats = lenN (filter (fun f => f_count f = 0) fs) /\
    cs_aliases_dropped stats = lenN (filter (fun pair => pair.2 ∉ mentioned fs) cal) +
      lenN (filter (fun pair => pair.2 ∉ used_labels fs) lal)
  | Some (Err DeadlineExceeded) => exists k, k < polls /\ expired k = true
  | _ => False
  end.
Proof. by apply compacted_cases. Qed.

Definition sample_retracted : Context :=
  match retract_source (str "doc1") sample with Some (_, c) => c | None => sample end.

Lemma sample_retracted_wf : @wf ascii_tables sample_retracted.
Proof.
  pose proof (@retract_source_known ascii_tables (str "doc1") 0 sample sample_facts sample_wf) as Hr.
  destruct Hr as (c' & Hr & Hw & _); [vm_compute; reflexivity | apply sample_facts_eq |].
  unfold sample_retracted. by rewrite Hr.
Qed.

Definition retracted_facts : list Fact := Eval vm_compute in default [] (facts sample_retracted).

(** One fact lost its only source; the other two are live. *)
Lemma compacted_refines_witness :
  match @compacted ascii_tables (fun _ => false) sample_retracted with
  | Some (Ok (fresh, stats)) => @wf ascii_tables fresh /\ facts fresh = Some (compact_fact <$> live_facts retracted_facts) /\
      cs_dead_edges stats = 1
  | _ => False
  end.
Proof.
  pose proof (@compacted_refines ascii_tables sample_retracted retracted_facts [] [] (fun _ => false) sample_retracted_wf) as Hc.
  assert (H1 : facts sample_retracted = Some retracted_facts) by (vm_compute; reflexivity).
  assert (H2 : @alias_pairs ascii_tables (@concept_space ascii_tables) sample_retracted = Some []) by (vm_compute; reflexivity).
  assert (H3 : @alias_pairs ascii_tables (@label_space ascii_tables) sample_retracted = Some []) by (vm_compute; reflexivity).
  specialize (Hc H1 H2 H3 ltac:(apply N.leb_le; vm_compute; reflexivity)
    ltac:(split; apply N.leb_le; vm_compute; reflexivity)). cbn zeta in Hc.
  destruct (@compacted ascii_tables (fun _ => false) sample_retracted) as [[[fresh stats]|[full|]]|].
  - destruct Hc as (_ & W & F & _ & _ & _ & _ & D & _). split; [exact W|]. split; [exact F|]. exact D.
  - destruct Hc.
  - destruct Hc as (k & _ & Hx). discriminate Hx.
  - destruct Hc.
Defined.
