(* ===== verification/Resolve.v ===== *)
(** * Entry: from wording to records
    ([src/context/resolve.rs], [EntryIndex::twins] in [src/context/entry_index.rs])

    [resolve] and [resolve_label] score a cue against one namespace's entry
    index and name the winners, best first; [similar_concepts] and
    [similar_labels] run the index against itself.  The deadline is a function of
    the poll number, as in the rebuild: a schedule of the answers the clock
    gives.  The maps a hash map's order walks are walked in key order here; the
    theorems hold for every order. *)

From S2P Require Export F64 EntryIndex Stats.

Local Open Scope N_scope.

(** ** Resolving *)

Record Resolution := { rs_name : name; rs_score : f64; rs_kind : MatchKind }.

(** [sort_resolutions]: best first, ties by name. *)
Definition resolution_le (a b : Resolution) : Prop :=
  (total_key (rs_score b) < total_key (rs_score a))%Z \/
  (total_key (rs_score b) = total_key (rs_score a) /\ name_le (rs_name a) (rs_name b)).
#[export] Instance resolution_le_dec a b : Decision (resolution_le a b).
Proof. unfold resolution_le. apply _. Defined.

Definition sort_resolutions (resolutions : list Resolution) : list Resolution :=
  merge_sort resolution_le resolutions.

Section resolve.
Context `{UnicodeTables}.

(** One winner: an exact hit on another spelling than the record's own name was
    an alias. *)
Definition refine (name_of : N -> option name) (needle : name) (row : N * (f64 * MatchKind))
    : option Resolution :=
  name ← name_of row.1;
  let kind := if bool_decide (row.2.2 = Exact) && negb (bool_decide (normalize name = needle))
              then Alias else row.2.2 in
  Some {| rs_name := name; rs_score := row.2.1; rs_kind := kind |}.

Definition scored_resolutions (index : EntryIndex) (name_of : N -> option name) (cue : name)
    (dice_floor : f64) : option (list Resolution) :=
  let needle := normalize cue in
  resolutions ← mapM (refine name_of needle)
    (map_to_list (ei_resolve index cue (clamp_unit_or dice_floor 1%float)));
  Some (sort_resolutions resolutions).

Definition resolve_with_floor (cue : name) (dice_floor : f64) (c : Context) : option (list Resolution) :=
  scored_resolutions (concept_index c) (concept_name c) cue dice_floor.
Definition resolve (cue : name) (c : Context) : option (list Resolution) :=
  resolve_with_floor cue (dice_floor_of c) c.
Definition resolve_label_with_floor (cue : name) (dice_floor : f64) (c : Context) : option (list Resolution) :=
  scored_resolutions (label_index c) (label_name c) cue dice_floor.
Definition resolve_label (cue : name) (c : Context) : option (list Resolution) :=
  resolve_label_with_floor cue (dice_floor_of c) c.
End resolve.

(** ** Twins *)

(** A deadline passed at some poll. *)
Inductive Elapsed := Deadline_exceeded.

(** Informative bigram counts, one per span; a poll before each. *)
Fixpoint informative_counts (expired : N -> bool) (idx : EntryIndex) (spans : list EntrySpan) (polls : N)
    : result (N * list N) Elapsed :=
  match spans with
  | [] => Ok (polls, [])
  | span :: spans =>
    if expired polls then Err Deadline_exceeded
    else
      let text := slice (ei_arena idx) (sp_start span) (sp_end span) in
      let count := N.of_nat (size (informative idx (bigrams_of text))) in
      match informative_counts expired idx spans (polls + 1) with
      | Ok (polls, counts) => Ok (polls, count :: counts)
      | Err e => Err e
      end
  end.

Notation pair_counts := (gmap (N * N) N).

Definition bump (acc : pair_counts) (key : N * N) : pair_counts :=
  <[key := default 0 (acc !! key) + 1]> acc.

(** The pairs of one posting list, a poll before each first member. *)
Fixpoint pair_postings (expired : N -> bool) (postings : list N) (st : N * pair_counts)
    : result (N * pair_counts) Elapsed :=
  match postings with
  | [] => Ok st
  | a :: rest =>
    if expired st.1 then Err Deadline_exceeded
    else pair_postings expired rest (st.1 + 1, foldl (fun acc b => bump acc (a, b)) st.2 rest)
  end.

(** All the posting lists. *)
Fixpoint pair_all (expired : N -> bool) (idx : EntryIndex) (lists : list (list N)) (st : N * pair_counts)
    : result (N * pair_counts) Elapsed :=
  match lists with
  | [] => Ok st
  | postings :: lists =>
    if expired st.1 then Err Deadline_exceeded
    else
      let st := (st.1 + 1, st.2) in
      if stop_gram idx <? lenN postings then pair_all expired idx lists st
      else match pair_postings expired postings st with
           | Ok st => pair_all expired idx lists st
           | Err e => Err e
           end
  end.

(** One counted pair: two targets, the best of their Dice scores.  An index out
    of range is a panic. *)
Definition twin_pair (idx : EntryIndex) (informative : list N) (dice_floor : f64)
    (best : gmap (N * N) f64) (row : N * N * N) : option (gmap (N * N) f64) :=
  let '((a, b), count) := row in
  span_a ← tget (ei_spans idx) a;
  span_b ← tget (ei_spans idx) b;
  let target_a := sp_target span_a in
  let target_b := sp_target span_b in
  if target_a =? target_b then Some best
  else
    informative_a ← tget informative a;
    informative_b ← tget informative b;
    let denominator := informative_a + informative_b in
    if denominator =? 0 then Some best
    else
      let dice := dice_score count informative_a informative_b in
      if (dice <? dice_floor)%float then Some best
      else
        let key := (N.min target_a target_b, N.max target_a target_b) in
        Some (<[key := f64_max (default 0%float (best !! key)) dice]> best).

(** Strongest first, ties by the pair. *)
Definition twin_le (x y : N * N * f64) : Prop :=
  (total_key y.2 < total_key x.2)%Z \/
  (total_key y.2 = total_key x.2 /\ (x.1.1 < y.1.1 \/ (x.1.1 = y.1.1 /\ x.1.2 <= y.1.2))).
#[export] Instance twin_le_dec x y : Decision (twin_le x y).
Proof. unfold twin_le. apply _. Defined.

Definition twins (idx : EntryIndex) (dice_floor : f64) (expired : N -> bool)
    : option (result (list (N * N * f64)) Elapsed) :=
  match informative_counts expired idx (ei_spans idx) 0 with
  | Err e => Some (Err e)
  | Ok (polls, informative) =>
    match pair_all expired idx (snd <$> map_to_list (ei_bigrams idx)) (polls, ∅) with
    | Err e => Some (Err e)
    | Ok (_, shared) =>
      best ← foldM (twin_pair idx informative dice_floor) (map_to_list shared) ∅;
      Some (Ok (merge_sort twin_le (map_to_list best)))
    end
  end.

Definition name_twins (name_of : N -> option name) (rows : list (N * N * f64))
    : option (list (name * name * f64)) :=
  mapM (fun row => a ← name_of row.1.1; b ← name_of row.1.2; Some (a, b, row.2)) rows.

Definition scored_twins (idx : EntryIndex) (name_of : N -> option name) (dice_floor : f64)
    (expired : N -> bool) : option (result (list (name * name * f64)) Elapsed) :=
  r ← twins idx (clamp_unit_or dice_floor 1%float) expired;
  match r with
  | Err e => Some (Err e)
  | Ok rows => pairs ← name_twins name_of rows; Some (Ok pairs)
  end.

Definition similar_concepts (dice_floor : f64) (expired : N -> bool) (c : Context) :=
  scored_twins (concept_index c) (concept_name c) dice_floor expired.
Definition similar_labels (dice_floor : f64) (expired : N -> bool) (c : Context) :=
  scored_twins (label_index c) (label_name c) dice_floor expired.
