(* ===== verification/EntryScore.v ===== *)
(** * What the entry index answers

    [EntryIndex::resolve] against its reference: every spelling is scored on its
    own (exact, containment, or Dice over the informative bigrams), and a target
    keeps the best score any of its spellings earned. *)

From S2P Require Export Resolve.

Local Open Scope N_scope.

(** ** The reference *)

(** A bigram few enough spellings hold to tell them apart. *)
Definition rare (texts : list name) (b : N) : bool :=
  lenN (posted texts b) <=? N.max (lenN texts / 20) 64.

Definition grams (texts : list name) (text : name) : gset N :=
  list_to_set (filter (fun b => rare texts b = true) (bigrams_of text)).

(** Exact or containment. *)
Definition meets (needle text : name) : option (f64 * MatchKind) :=
  if bool_decide (text = []) then None
  else if bool_decide (text = needle) then Some (1%float, Exact)
  else if contains text needle || contains needle text then
    Some ((f64_of_N (N.min (lenN (chars needle)) (lenN (chars text))) /
           f64_of_N (N.max (lenN (chars needle)) (lenN (chars text))))%float, Containment)
  else None.

(** The bigrams two texts share. *)
Definition common (texts : list name) (needle text : name) : N :=
  N.of_nat (size (grams texts needle ∩ grams texts text)).

Definition near (texts : list name) (needle : name) (floor : f64) (text : name) : option (f64 * MatchKind) :=
  let n := N.of_nat (size (grams texts needle)) in
  let m := N.of_nat (size (grams texts text)) in
  let dice := dice_score (common texts needle text) n m in
  if bool_decide (common texts needle text <> 0) && (floor <=? dice)%float then Some (dice, Fuzzy) else None.

(** The scores of the first tier, in span order, and of the fuzzy tier. *)
Definition met (es : list (name * N)) (needle : name) : list (N * (f64 * MatchKind)) :=
  omap (fun e => pair e.2 <$> meets needle e.1) es.
Definition fuzzies (es : list (name * N)) (needle : name) (floor : f64) : list (N * (f64 * MatchKind)) :=
  omap (fun e => if meets needle e.1 then None else pair e.2 <$> near es.*1 needle floor e.1) es.

Definition keep (slot c : f64 * MatchKind) : f64 * MatchKind := if (slot.1 <? c.1)%float then c else slot.

(** The best of a target's scores, none below 0: the first of equals wins. *)
Definition best_of (cs : list (f64 * MatchKind)) : option (f64 * MatchKind) :=
  match cs with [] => None | c :: _ => Some (foldl keep (0%float, c.2) cs) end.

Definition scores_of (t : N) (cs : list (N * (f64 * MatchKind))) : list (f64 * MatchKind) :=
  (filter (fun c => c.1 = t) cs).*2.

(** ** Best scores *)

Definition note (best : scores) (c : N * (f64 * MatchKind)) : scores :=
  record_score best c.1 c.2.1 c.2.2.

Lemma notes_best cs t : foldl note ∅ cs !! t = best_of (scores_of t cs).
Proof.
  unfold scores_of. induction cs as [|[u [s k]] cs IH] using rev_ind; [done|].
  rewrite foldl_app, filter_app, fmap_app. cbn [foldl]. unfold note at 1, record_score. unfold scores in *. cbn [fst snd].
  rewrite filter_cons, filter_nil. cbn [fst]. destruct (decide (u = t)) as [->|Hne].
  - rewrite lookup_insert_eq, IH. cbn [fmap list_fmap snd].
    destruct ((filter _ cs).*2) as [|c l]; [done|]. cbn [best_of app default from_option id fst].
    by rewrite (foldl_app keep (c :: l) [(s, k)]).
  - rewrite lookup_insert_ne by done. cbn. rewrite app_nil_r. apply IH.
Qed.

(** No score exceeds the one kept. *)
Lemma keep_not_below cs : forall slot c, c ∈ cs -> (slot.1 <? slot.1)%float = false ->
  ((foldl keep slot cs).1 <? c.1)%float = false.
Proof.
  assert (Hm : forall l slot x, (slot.1 <? x)%float = false -> ((foldl keep slot l).1 <? x)%float = false).
  { induction l as [|d l IH]; intros slot x Hx; [done|]. simpl. apply IH. unfold keep.
    destruct (slot.1 <? d.1)%float eqn:E; [by eapply ltb_raise | done]. }
  induction cs as [|d cs IH]; intros slot c Hin Hs; [by apply not_elem_of_nil in Hin|].
  apply elem_of_cons in Hin as [->|Hin]; simpl.
  - apply Hm. unfold keep. destruct (slot.1 <? d.1)%float eqn:E; [apply ltb_irrefl | done].
  - apply IH; [done | apply ltb_irrefl].
Qed.

Lemma best_not_below cs s k c : best_of cs = Some (s, k) -> c ∈ cs -> (s <? c.1)%float = false.
Proof.
  destruct cs as [|d cs]; [done|]. intros [= Hb] Hin.
  pose proof (keep_not_below (d :: cs) (0%float, d.2) c Hin (ltb_irrefl 0%float)) as Hk. simpl in Hk. by rewrite Hb in Hk.
Qed.

(** ** The containment tier *)

Lemma omap_indexed {A B} (f : N * A -> option B) (g : A -> option B) l :
  (forall i x, tget l i = Some x -> f (i, x) = g x) -> omap f (zip (indices l) l) = omap g l.
Proof.
  induction l as [|x l IH] using rev_ind; intros Hf; [done|].
  rewrite indexed_snoc, !omap_app. f_equal.
  - apply IH. intros i y Hi. apply Hf. rewrite tget_app_l; [done | by eapply tget_Some_lt].
  - cbn. by rewrite (Hf _ _ (tget_snoc l x)).
Qed.

Lemma list_omap_fmap {A B C} (f : B -> option C) (g : A -> B) (l : list A) : omap f (g <$> l) = omap (fun x => f (g x)) l.
Proof. induction l as [|x l IH]; [done|]. cbn. by rewrite <- IH. Qed.

Lemma omap_omap {A B C} (f : B -> option C) (g : A -> option B) (l : list A) :
  omap f (omap g l) = omap (fun x => g x ≫= f) l.
Proof. induction l as [|x l IH]; [done|]. cbn. destruct (g x); cbn; [|done]. by rewrite IH. Qed.

Lemma NoDup_omap_indexed {A B} (f : N * A -> option (N * B)) (l : list A) :
  (forall i x p, f (i, x) = Some p -> p.1 = i) -> NoDup (omap f (zip (indices l) l)).*1.
Proof.
  intros Hf. assert (Hlt : forall k i, i ∈ (omap f (zip (indices k) k)).*1 -> i < lenN k).
  { intros k i ([j b] & -> & ([i' x] & Hin%elem_of_indexed & Hp)%list_elem_of_omap)%list_elem_of_fmap.
    cbn [fst]. change j with (j, b).1. rewrite (Hf _ _ _ Hp). by eapply tget_Some_lt. }
  induction l as [|x l IH] using rev_ind; [constructor|].
  rewrite indexed_snoc, omap_app, fmap_app. apply NoDup_app. split; [done|].
  cbn. destruct (f (lenN l, x)) as [p|] eqn:Hp; cbn; [|split; [set_solver | constructor]].
  split; [|apply NoDup_singleton]. intros i Hi ->%list_elem_of_singleton. apply Hlt in Hi. rewrite (Hf _ _ _ Hp) in Hi. lia.
Qed.

(** The maps of the fuzzy tier hold no zero. *)
Definition nonzero (m : gmap N N) : Prop := forall i k, m !! i = Some k -> k <> 0.

Definition count_span (contained : gset N) (acc : gmap N N) (span_index : N) : gmap N N :=
  if decide (span_index ∈ contained) then acc
  else <[span_index := default 0 (acc !! span_index) + 1]> acc.

Definition count_bigram (idx : EntryIndex) (contained : gset N) (acc : gmap N N) (bigram : N) : gmap N N :=
  match ei_bigrams idx !! bigram with
  | Some postings => if lenN postings <=? stop_gram idx then foldl (count_span contained) acc postings else acc
  | None => acc
  end.

Lemma count_postings contained ps : NoDup ps -> forall acc, nonzero acc ->
  nonzero (foldl (count_span contained) acc ps) /\
  forall i, default 0 (foldl (count_span contained) acc ps !! i) =
    default 0 (acc !! i) + (if decide (i ∈ ps /\ i ∉ contained) then 1 else 0).
Proof.
  induction 1 as [|j ps Hj Hnd IH]; intros acc Hz; cbn [foldl].
  - split; [done|]. intros i. rewrite decide_False by (intros [?%not_elem_of_nil _]; done). lia.
  - destruct (IH (count_span contained acc j)) as [Hn Hc].
    { unfold count_span. case_decide; [done|]. intros i k [[_ <-]|[_ Hk]]%lookup_insert_Some; [lia | by eapply Hz]. }
    split; [done|]. intros i. rewrite Hc. unfold count_span. destruct (decide (j ∈ contained)) as [Hjc|Hjc].
    + f_equal. apply decide_ext. set_solver.
    + destruct (decide (i = j)) as [->|Hne].
      * rewrite lookup_insert_eq. cbn [default from_option id].
        rewrite (decide_False (P := j ∈ ps /\ _)) by naive_solver. rewrite (decide_True (P := j ∈ j :: ps /\ _)) by set_solver. lia.
      * rewrite lookup_insert_ne by done. f_equal. apply decide_ext. set_solver.
Qed.

Section index.
Context (idx : EntryIndex) (es : list (name * N)) (Hh : ei_holds idx es).

Lemma span_at i sp : tget (ei_spans idx) i = Some sp ->
  let text := slice (ei_arena idx) (sp_start sp) (sp_end sp) in
  tget es i = Some (text, sp_target sp) /\ tget es.*1 i = Some text /\ sp_chars sp = lenN (chars text).
Proof using Hh.
  intros Hi text. destruct Hh as [_ He Hc _].
  assert (Hes : tget es i = Some (text, sp_target sp)).
  { rewrite <- He. unfold ei_entries. by rewrite tget_fmap, Hi. }
  split; [done|]. split; [by rewrite tget_fmap, Hes|].
  rewrite tget_lookup in Hi. apply list_elem_of_lookup_2 in Hi. by eapply Forall_forall in Hc.
Qed.

Lemma spans_length : lenN (ei_spans idx) = lenN es.
Proof using Hh. rewrite <- (holds_entries _ _ Hh). unfold ei_entries. by rewrite lenN_fmap. Qed.
Lemma is_stop_rare b : is_stop idx b = negb (rare es.*1 b).
Proof using Hh.
  unfold is_stop, rare, stop_gram. rewrite spans_length, <- (holds_postings _ _ Hh), lenN_fmap.
  destruct (ei_bigrams idx !! b) as [l|]; cbn [default from_option id]; [|by rewrite (proj2 (N.leb_le _ _)) by (unfold lenN; simpl; lia)].
  rewrite N.leb_antisym. by rewrite negb_involutive.
Qed.

Lemma informative_grams bs : informative idx bs =
  list_to_set (filter (fun b => rare es.*1 b = true) bs).
Proof using Hh.
  unfold informative. f_equal. apply list_filter_iff. intros b. rewrite is_stop_rare. by destruct (rare _ _).
Qed.

Lemma contain_step needle best contained exact i sp :
  tget (ei_spans idx) i = Some sp ->
  contain_span idx needle (best, contained, exact) (i, sp) =
  match tget es i ≫= fun e => pair e.2 <$> meets needle e.1 with
  | None => (best, contained, exact)
  | Some c => (note best c, {[i]} ∪ contained, exact || bool_decide (c.2.2 = Exact))
  end.
Proof using Hh.
  intros Hi. destruct (span_at _ _ Hi) as (He & _ & Hc). rewrite He. cbn [mbind option_bind fst snd].
  unfold contain_span, meets. rewrite Hc. set (text := slice _ _ _) in *.
  case_bool_decide; [done|]. case_bool_decide; [cbn; by rewrite orb_true_r|].
  destruct (_ || _); [cbn; by rewrite orb_false_r | done].
Qed.

(** The whole scan: the scores in span order, the spans it scored, whether one
    was exact. *)
Lemma contain_scan needle :
  exists contained, foldl (contain_span idx needle) (∅, ∅, false) (zip (indices (ei_spans idx)) (ei_spans idx)) =
    (foldl note ∅ (met es needle), contained, existsb (fun c => bool_decide (c.2.2 = Exact)) (met es needle)) /\
  forall i, i ∈ contained <-> exists e, tget es i = Some e /\ is_Some (meets needle e.1).
Proof using Hh.
  assert (Hps : forall ps, (forall p, p ∈ ps -> tget (ei_spans idx) p.1 = Some p.2) ->
    exists contained, foldl (contain_span idx needle) (∅, ∅, false) ps =
      (foldl note ∅ (omap (fun p => tget es p.1 ≫= fun e => pair e.2 <$> meets needle e.1) ps), contained,
       existsb (fun c => bool_decide (c.2.2 = Exact)) (omap (fun p => tget es p.1 ≫= fun e => pair e.2 <$> meets needle e.1) ps)) /\
    forall i, i ∈ contained <-> i ∈ ps.*1 /\ exists e, tget es i = Some e /\ is_Some (meets needle e.1)).
  { induction ps as [|[i sp] ps IH] using rev_ind; intros Hps.
    - exists ∅. split; [done|]. simpl. set_solver.
    - destruct IH as (cs & Hf & Hc); [intros p Hp; apply Hps; set_solver|].
      rewrite foldl_app, Hf, omap_app. cbn [foldl omap list_omap].
      assert (Hi : tget (ei_spans idx) i = Some sp) by (apply (Hps (i, sp)); set_solver).
      rewrite (contain_step _ _ _ _ _ _ Hi). destruct (span_at _ _ Hi) as (He & _). cbn [fst].
      rewrite He. cbn [mbind option_bind fst snd]. setoid_rewrite fmap_app. setoid_rewrite elem_of_app.
      destruct (meets _ _) as [c|] eqn:Hm; cbn [fmap option_fmap option_map].
      + exists ({[i]} ∪ cs). rewrite foldl_app, existsb_app. cbn [foldl existsb snd]. rewrite orb_false_r. split; [done|].
        intros j. rewrite elem_of_union, elem_of_singleton, Hc. cbn [fmap list_fmap fst]. rewrite list_elem_of_singleton.
        split; [|naive_solver]. intros [->|[? ?]]; [|auto]. split; [by right|]. eexists. split; [done|]. simpl. by rewrite Hm.
      + exists cs. rewrite !app_nil_r. split; [done|]. intros j. rewrite Hc. cbn [fmap list_fmap fst].
        rewrite list_elem_of_singleton. split; [naive_solver|]. intros [[?| ->] (e & Hj & Hs)]; [eauto 10|].
        exfalso. rewrite He in Hj. injection Hj as <-. simpl in Hs. rewrite Hm in Hs. by destruct Hs. }
  destruct (Hps (zip (indices (ei_spans idx)) (ei_spans idx))) as (cs & Hf & Hc).
  { intros [i sp] Hp. by apply elem_of_indexed. }
  exists cs. rewrite Hf. assert (Hmet : omap (fun p => tget es p.1 ≫= fun e => pair e.2 <$> meets needle e.1)
    (zip (indices (ei_spans idx)) (ei_spans idx)) = met es needle).
  { unfold met. transitivity (omap (fun e => pair e.2 <$> meets needle e.1) (ei_entries idx));
      [|by rewrite (holds_entries _ _ Hh)]. unfold ei_entries. rewrite list_omap_fmap.
    apply omap_indexed. intros i sp Hi. destruct (span_at _ _ Hi) as (He & _). cbn [fst]. by rewrite He. }
  rewrite Hmet. split; [done|]. intros i. rewrite Hc, fst_zip by (by rewrite indices_length).
  rewrite elem_of_indices, spans_length. split; [naive_solver|]. intros (e & He & Hm). split; [by eapply tget_Some_lt | eauto].
Qed.
(** Counting the shared bigrams through the posting lists. *)
Lemma shared_spec contained needle :
  let shared := shared_counts idx contained (list_to_set (bigrams_of needle)) in
  forall i k, shared !! i = Some k <->
    k <> 0 /\ i ∉ contained /\ exists e, tget es i = Some e /\ k = common es.*1 needle e.1.
Proof using Hh.
  intros shared. set (bs := elements (list_to_set (bigrams_of needle) : gset N)).
  assert (Hs : forall l i,
    let m := foldl (count_bigram idx contained) ∅ l in
    nonzero m /\ default 0 (m !! i) = if decide (i ∈ contained) then 0 else
      lenN (filter (fun b => rare es.*1 b = true /\ i ∈ posted es.*1 b) l)).
  { intros l i. induction l as [|b l [IHn IHc]] using rev_ind; intros m.
    - subst m. cbn [foldl]. split; [by intros j k Hj|]. rewrite lookup_empty. by destruct (decide _).
    - subst m. rewrite foldl_app. cbn [foldl]. unfold count_bigram at 1 3.
      rewrite filter_app, lenN_app, filter_cons, filter_nil. pose proof (holds_postings _ _ Hh b) as Hb.
      destruct (ei_bigrams idx !! b) as [ps|]; cbn [default from_option id] in Hb.
      2: { split; [done|]. rewrite IHc, <- Hb. destruct (decide (i ∈ contained)); [done|].
           rewrite decide_False by (intros [_ ?%not_elem_of_nil]; done). unfold lenN at 3. simpl. lia. }
      rewrite Hb. replace (lenN (posted es.*1 b) <=? stop_gram idx) with (rare es.*1 b)
        by (unfold rare, stop_gram; by rewrite spans_length, lenN_fmap).
      destruct (rare es.*1 b) eqn:Hr.
      + destruct (count_postings contained (posted es.*1 b) (NoDup_posted _ _) (foldl (count_bigram idx contained) ∅ l) IHn) as [Hn Hc].
        split; [done|]. rewrite Hc, IHc. destruct (decide (i ∈ contained)) as [Hi|Hi].
        * by rewrite decide_False by (intros [_ ?]; done).
        * f_equal. destruct (decide (i ∈ posted es.*1 b)) as [Hp|Hp].
          -- rewrite decide_True by done. by rewrite decide_True by done.
          -- rewrite !decide_False by naive_solver. done.
      + split; [done|]. rewrite IHc. destruct (decide (i ∈ contained)); [done|].
        rewrite decide_False by (intros [? _]; done). unfold lenN at 3. simpl. lia. }
  assert (Hcount : forall i e, tget es i = Some e ->
    lenN (filter (fun b => rare es.*1 b = true /\ i ∈ posted es.*1 b) bs) = common es.*1 needle e.1).
  { intros i e He. unfold common, lenN. f_equal.
    rewrite <- (size_list_to_set (C := gset N)) by (apply NoDup_filter, NoDup_elements). f_equal.
    apply set_eq. intros b. unfold grams, bs.
    rewrite elem_of_list_to_set, list_elem_of_filter, elem_of_elements, elem_of_intersection, !elem_of_list_to_set,
      !list_elem_of_filter, elem_of_posted, tget_fmap, He. cbn [fmap option_fmap option_map]. naive_solver. }
  specialize (Hs bs). change (foldl (count_bigram idx contained) ∅ bs) with shared in Hs. intros i k.
  destruct (Hs i) as [Hz Hc]. specialize (Hz i). split.
  - intros Hk. specialize (Hz _ Hk). rewrite Hk in Hc. cbn [default from_option id] in Hc.
    destruct (decide (i ∈ contained)) as [|Hi]; [done|]. split; [done|]. split; [done|].
    destruct (tget es i) as [e|] eqn:He; [exists e; split; [done|]; by rewrite Hc, (Hcount _ _ He)|].
    exfalso. destruct (filter _ bs) as [|b l] eqn:Hf; [by apply Hz|].
    assert (Hb : b ∈ b :: l) by set_solver. rewrite <- Hf in Hb. apply list_elem_of_filter in Hb as [[_ Hp] _].
    apply elem_of_posted in Hp as (t & Ht & _). by rewrite tget_fmap, He in Ht.
  - intros (Hk & Hi & e & He & ->). rewrite decide_False in Hc by done. rewrite (Hcount _ _ He) in Hc.
    destruct (shared !! i); cbn in Hc; congruence.
Qed.
(** ** The fuzzy tier *)

Definition candidate (needle : name) (floor : f64) (p : N * N) : option (N * (f64 * MatchKind)) :=
  tget es p.1 ≫= fun e => pair e.2 <$> near es.*1 needle floor e.1.

Lemma fuzzy_step needle floor best i e : tget es i = Some e -> common es.*1 needle e.1 <> 0 ->
  fuzzy_span idx (N.of_nat (size (grams es.*1 needle))) floor best (i, common es.*1 needle e.1) =
  match pair e.2 <$> near es.*1 needle floor e.1 with None => best | Some c => note best c end.
Proof using Hh.
  intros He Hk. unfold fuzzy_span. destruct (tget (ei_spans idx) i) as [sp|] eqn:Hi.
  2: { apply tget_Some_lt in He. rewrite <- spans_length in He. apply tget_is_Some in He as [? He]. by rewrite Hi in He. }
  destruct (span_at _ _ Hi) as (He' & _). rewrite He in He'. injection He' as ->. cbn [fst snd].
  set (text := slice _ _ _) in *. rewrite informative_grams. fold (grams es.*1 text). unfold near.
  rewrite bool_decide_eq_true_2 by done. cbn [andb].
  rewrite decide_False; [by destruct (floor <=? _)%float|].
  intros Hg. apply Hk. cbn [fst]. unfold common. fold text. rewrite Hg. by rewrite intersection_empty_r_L, size_empty.
Qed.

Lemma fuzzy_fold needle floor rows : forall best,
  (forall i k, (i, k) ∈ rows -> k <> 0 /\ exists e, tget es i = Some e /\ k = common es.*1 needle e.1) ->
  foldl (fuzzy_span idx (N.of_nat (size (grams es.*1 needle))) floor) best rows =
  foldl note best (omap (candidate needle floor) rows).
Proof using Hh.
  induction rows as [|[i k] rows IH]; intros best Hr; [done|].
  destruct (Hr i k) as (Hk & e & He & ->); [set_solver|]. cbn [foldl omap list_omap].
  rewrite (fuzzy_step _ _ _ _ _ He Hk), IH by (intros; apply Hr; set_solver).
  assert (Hc : candidate needle floor (i, common es.*1 needle e.1) = pair e.2 <$> near es.*1 needle floor e.1)
    by (unfold candidate; cbn [fst]; by rewrite He).
  rewrite Hc. by destruct (_ <$> near _ _ _ _).
Qed.

Definition shared_row (needle : name) (p : N * (name * N)) : option (N * N) :=
  if meets needle p.2.1 then None
  else if decide (common es.*1 needle p.2.1 = 0) then None else Some (p.1, common es.*1 needle p.2.1).

Lemma shared_rows contained needle :
  (forall i, i ∈ contained <-> exists e, tget es i = Some e /\ is_Some (meets needle e.1)) ->
  map_to_list (shared_counts idx contained (list_to_set (bigrams_of needle))) ≡ₚ
  omap (shared_row needle) (zip (indices es) es).
Proof using Hh.
  intros Hc. apply NoDup_Permutation.
  - apply NoDup_map_to_list.
  - apply (NoDup_fmap_1 fst), NoDup_omap_indexed. intros i e p. unfold shared_row. cbn.
    destruct (meets _ _); [done|]. destruct (decide _); [done|]. by intros [= <-].
  - intros [i k]. rewrite elem_of_map_to_list, (shared_spec contained needle i k), list_elem_of_omap. split.
    + intros (Hk & Hi & e & He & ->). exists (i, e). split; [by apply elem_of_indexed|]. unfold shared_row. cbn.
      destruct (meets needle e.1) eqn:Hm; [exfalso; apply Hi, Hc; eauto|]. by rewrite decide_False.
    + intros ([j e] & He%elem_of_indexed & Hs). unfold shared_row in Hs. cbn in Hs.
      destruct (meets needle e.1) eqn:Hm; [done|]. destruct (decide _); [done|]. injection Hs as <- <-.
      split; [done|]. split; [|eauto]. rewrite Hc. intros (e' & He' & Hm'). rewrite He in He'. injection He' as <-.
      rewrite Hm in Hm'. by destruct Hm'.
Qed.

Lemma candidates_fuzzies contained needle floor :
  (forall i, i ∈ contained <-> exists e, tget es i = Some e /\ is_Some (meets needle e.1)) ->
  omap (candidate needle floor) (map_to_list (shared_counts idx contained (list_to_set (bigrams_of needle)))) ≡ₚ
  fuzzies es needle floor.
Proof using Hh.
  intros Hc. rewrite (shared_rows _ _ Hc), omap_omap. unfold fuzzies. apply reflexive_eq, omap_indexed.
  intros i e He. unfold shared_row, candidate. cbn [fst snd].
  destruct (meets needle e.1); [done|]. destruct (decide _) as [Hz|Hz]; cbn [mbind option_bind fst].
  - unfold near. by rewrite bool_decide_eq_false_2 by (intros Hn; by apply Hn).
  - rewrite He. done.
Qed.
End index.

(** * Resolving over a namespace

    [EntrySpace] is what a namespace promises its entry index: the postings
    agree with the spellings, the spellings are those of the lookup map, the
    records they lead to have distinct names.  Concepts and labels are its
    instances; [scored_resolutions] and [scored_twins] are proved against it. *)

From S2P Require Export Facts.

Local Open Scope N_scope.

Class EntrySpace `{UnicodeTables} (idx : EntryIndex) (ids : gmap name N) (name_of : N -> option name) : Prop := {
  space_ok : ei_ok idx;
  space_entries : forall t i, (t, i) ∈ ei_entries idx <-> exists s, ids !! s = Some i /\ t = normalize s;
  space_named : forall s i, ids !! s = Some i -> is_Some (name_of i);
  space_inj : forall i j n, name_of i = Some n -> name_of j = Some n -> i = j
}.

(** The index's answer, span by span: the exact and containment scores in span
    order, then, unless the cue is a spelling, the fuzzy ones in some order. *)
Lemma ei_resolve_spec `{UnicodeTables} idx es cue dice_floor : ei_holds idx es -> normalize cue <> [] ->
  let needle := normalize cue in
  exists fuzzy, fuzzy ≡ₚ (if bool_decide (needle ∈ es.*1) then [] else fuzzies es needle dice_floor) /\
    ei_resolve idx cue dice_floor = foldl note ∅ (met es needle ++ fuzzy).
Proof.
  intros Hh Hne needle. unfold ei_resolve. fold needle. rewrite (bool_decide_eq_false_2 (needle = [])) by exact Hne.
  destruct (contain_scan idx es Hh needle) as (contained & Hf & Hc). rewrite Hf.
  assert (Hex : existsb (fun c => bool_decide (c.2.2 = Exact)) (met es needle) = bool_decide (needle ∈ es.*1)).
  { apply eq_bool_prop_intro. rewrite !Is_true_true, existsb_exists, bool_decide_eq_true, list_elem_of_fmap. split.
    - intros (c & Hin & Hk%bool_decide_eq_true). apply list_elem_of_In, list_elem_of_omap in Hin as (e & He & Hm).
      exists e. split; [|done]. unfold meets in Hm. destruct (bool_decide (e.1 = [])); [done|].
      destruct (bool_decide (e.1 = needle)) eqn:E; [by apply bool_decide_eq_true in E|].
      destruct (_ || _); [|done]. injection Hm as <-. done.
    - intros (e & Hn & He). exists (e.2, (1%float, Exact)). split; [|done].
      apply list_elem_of_In, list_elem_of_omap. exists e. split; [done|]. unfold meets. rewrite <- Hn.
      rewrite (bool_decide_eq_false_2 (needle = [])) by exact Hne. by rewrite (bool_decide_eq_true_2 (needle = needle)). }
  rewrite Hex. destruct (bool_decide (needle ∈ es.*1)).
  - exists []. by rewrite app_nil_r.
  - rewrite (informative_grams idx es Hh).
    replace (list_to_set (filter _ (elements _))) with (grams es.*1 needle).
    2: { apply set_eq. intros b. unfold grams. rewrite !elem_of_list_to_set, !list_elem_of_filter, elem_of_elements.
         by rewrite elem_of_list_to_set. }
    eexists. split; [apply (candidates_fuzzies idx es Hh contained needle dice_floor Hc)|].
    rewrite (fuzzy_fold idx es Hh); [by rewrite foldl_app|].
    intros i k Hik%elem_of_map_to_list. apply (shared_spec idx es Hh contained needle i k) in Hik as (? & _ & ?). done.
Qed.

Section space.
Context `{UnicodeTables} {idx ids name_of} (S : EntrySpace idx ids name_of).

(** Whatever the index finds is a record of the namespace. *)
Lemma resolved_named cue dice_floor i c :
  ei_resolve idx cue dice_floor !! i = Some c -> is_Some (name_of i).
Proof using S.
  destruct (decide (normalize cue = [])) as [Hz|Hne].
  { unfold ei_resolve. rewrite bool_decide_eq_true_2 by done. done. }
  destruct (ei_resolve_spec idx _ cue dice_floor space_ok Hne) as (fz & Hp & ->).
  rewrite notes_best. intros Hb.
  assert (Hin : exists d, (i, d) ∈ met (ei_entries idx) (normalize cue) ++ fz).
  { destruct (scores_of i _) as [|d l] eqn:Hs; [done|]. exists d.
    assert (Hd : d ∈ scores_of i (met (ei_entries idx) (normalize cue) ++ fz)) by (rewrite Hs; set_solver).
    apply list_elem_of_fmap in Hd as ([j d'] & -> & [<- Hd]%list_elem_of_filter). done. }
  assert (He : exists t, (t, i) ∈ ei_entries idx).
  { destruct Hin as (d & [Hd|Hd]%elem_of_app).
    - apply list_elem_of_omap in Hd as ([t j] & Ht & Hm). destruct (meets _ _); [|done]. injection Hm as -> _. eauto.
    - rewrite Hp in Hd. destruct (bool_decide _); [by apply not_elem_of_nil in Hd|].
      apply list_elem_of_omap in Hd as ([t j] & Ht & Hm). cbn in Hm. destruct (meets _ _); [done|].
      destruct (near _ _ _ _); [|done]. injection Hm as -> _. eauto. }
  destruct He as (t & (s & Hs & _)%space_entries). by eapply space_named.
Qed.

(** The rows of a resolution. *)
Lemma scored_rows cue dice_floor : exists rows,
  mapM (refine name_of (normalize cue)) (map_to_list (ei_resolve idx cue dice_floor)) = Some rows.
Proof using S.
  apply mapM_is_Some_2, Forall_forall. intros [i c] Hic%elem_of_map_to_list.
  destruct (resolved_named _ _ _ _ Hic) as [n Hn]. unfold compose, refine. cbn [fst snd]. rewrite Hn. eexists. reflexivity.
Qed.
End space.
