(* ===== verification/TwinsThm.v ===== *)
(** * Fork candidates

    [EntryIndex::twins] against its reference: the pairs of different records
    some spellings of which share informative bigrams, with the best of their
    Dice scores. *)

From S2P Require Export EntryScore.

Local Open Scope N_scope.

(** Two spellings, in span order, of different records, close enough. *)
Definition twinned (es : list (name * N)) (dice_floor : f64) (key : N * N) (d : f64) : Prop :=
  exists a b ea eb, a < b /\ tget es a = Some ea /\ tget es b = Some eb /\ ea.2 <> eb.2 /\
    key = (N.min ea.2 eb.2, N.max ea.2 eb.2) /\ common es.*1 ea.1 eb.1 <> 0 /\
    d = dice_score (common es.*1 ea.1 eb.1) (N.of_nat (size (grams es.*1 ea.1))) (N.of_nat (size (grams es.*1 eb.1))) /\
    (d <? dice_floor)%float = false.

(** ** Counting the pairs *)

Definition nonzero_pairs (m : pair_counts) : Prop := forall key k, m !! key = Some k -> k <> 0.

Lemma bump_nonzero m key : nonzero_pairs m -> nonzero_pairs (bump m key).
Proof. intros Hz key' k Hk. unfold bump in Hk. apply lookup_insert_Some in Hk as [[_ <-]|[_ Hk]]; [lia | by eapply Hz]. Qed.

Lemma bump_count m key key' :
  default 0 (bump m key !! key') = default 0 (m !! key') + (if decide (key' = key) then 1 else 0).
Proof.
  unfold bump. destruct (decide (key' = key)) as [->|Hne].
  - by rewrite lookup_insert_eq.
  - rewrite lookup_insert_ne by done. lia.
Qed.

(** The pairs of one first member. *)
Lemma bump_all a rest : NoDup rest -> forall m, nonzero_pairs m ->
  nonzero_pairs (foldl (fun acc b => bump acc (a, b)) m rest) /\
  forall key, default 0 (foldl (fun acc b => bump acc (a, b)) m rest !! key) =
    default 0 (m !! key) + (if decide (key.1 = a /\ key.2 ∈ rest) then 1 else 0).
Proof.
  induction 1 as [|b rest Hb Hnd IH]; intros m Hz; cbn [foldl].
  - split; [done|]. intros key. rewrite decide_False by (intros [_ ?%not_elem_of_nil]; done). lia.
  - destruct (IH _ (bump_nonzero _ (a, b) Hz)) as [Hn Hc]. split; [done|]. intros [x y]. rewrite Hc, bump_count.
    cbn [fst snd]. destruct (decide ((x, y) = (a, b))) as [[= -> ->]|Hne].
    + rewrite (decide_False (P := a = a /\ _)) by naive_solver.
      rewrite (decide_True (P := a = a /\ b ∈ b :: rest)) by set_solver. lia.
    + rewrite N.add_0_r. f_equal. apply decide_ext. rewrite elem_of_cons. naive_solver.
Qed.

Lemma pair_postings_spec expired ps : StronglySorted N.lt ps -> forall st, nonzero_pairs st.2 ->
  match pair_postings expired ps st with
  | Err _ => exists k, expired k = true
  | Ok (_, m) => nonzero_pairs m /\ forall key, default 0 (m !! key) =
      default 0 (st.2 !! key) + (if decide (key.1 < key.2 /\ key.1 ∈ ps /\ key.2 ∈ ps) then 1 else 0)
  end.
Proof.
  induction 1 as [|a ps Hs IH Ha]; intros [polls m] Hz; cbn [pair_postings fst snd].
  - split; [done|]. intros key. rewrite decide_False by (intros (_ & ?%not_elem_of_nil & _); done). lia.
  - destruct (expired polls) eqn:Hx; [by exists polls|].
    rewrite Forall_forall in Ha.
    pose proof (sorted_NoDup _ Hs) as Hnd.
    destruct (bump_all a ps Hnd m Hz) as [Hn Hc].
    specialize (IH (polls + 1, foldl (fun acc b => bump acc (a, b)) m ps) Hn).
    destruct (pair_postings _ _ _) as [[polls' m']|e]; [|done]. destruct IH as [Hn' Hc']. split; [done|].
    intros [x y]. rewrite Hc'. cbn [fst snd] in *. rewrite Hc. cbn [fst snd]. rewrite <- N.add_assoc. f_equal.
    destruct (decide (x = a /\ y ∈ ps)) as [[-> Hy]|Hxy].
    + assert (a ∉ ps) by (intros Hin; specialize (Ha _ Hin); lia).
      rewrite (decide_False (P := a < y /\ _)) by naive_solver. rewrite decide_True; [done|].
      split; [by apply Ha|]. split; [by left | by right].
    + rewrite N.add_0_l. apply decide_ext. rewrite !elem_of_cons. split; [naive_solver|].
      intros (Hlt & Hx' & Hy). destruct Hx' as [->|Hx']; destruct Hy as [->|Hy]; try naive_solver; try lia.
      specialize (Ha _ Hx'). lia.
Qed.

#[export] Instance twin_le_total : Total twin_le.
Proof. intros x y. unfold twin_le. lia. Qed.
#[export] Instance twin_le_trans : Transitive twin_le.
Proof. intros x y z. unfold twin_le. lia. Qed.

Section twins.
Context (idx : EntryIndex) (es : list (name * N)) (Hh : ei_holds idx es).

Lemma informative_counts_spec expired spans : forall polls,
  match informative_counts expired idx spans polls with
  | Err _ => exists k, expired k = true
  | Ok (_, counts) => counts = (fun sp => N.of_nat (size (informative idx
      (bigrams_of (slice (ei_arena idx) (sp_start sp) (sp_end sp)))))) <$> spans
  end.
Proof.
  induction spans as [|sp spans IH]; intros polls; cbn [informative_counts]; [done|].
  destruct (expired polls) eqn:Hx; [by exists polls|]. specialize (IH (polls + 1)).
  destruct (informative_counts _ _ _ _) as [[polls' counts]|e]; [|done]. by rewrite IH.
Qed.

Lemma pair_all_spec expired l : forall st, nonzero_pairs st.2 ->
  (forall p, p ∈ l -> ei_bigrams idx !! p.1 = Some p.2) ->
  match pair_all expired idx (snd <$> l) st with
  | Err _ => exists k, expired k = true
  | Ok (_, m) => nonzero_pairs m /\ forall key, default 0 (m !! key) = default 0 (st.2 !! key) +
      lenN (filter (fun p => key.1 < key.2 /\ rare es.*1 p.1 = true /\ key.1 ∈ p.2 /\ key.2 ∈ p.2) l)
  end.
Proof using Hh.
  induction l as [|[b ps] l IH]; intros [polls m] Hz Hl; cbn [pair_all fmap list_fmap fst snd].
  - split; [done|]. intros key. rewrite filter_nil. unfold lenN. simpl. lia.
  - assert (Hps : ps = posted es.*1 b).
    { rewrite <- (holds_postings _ _ Hh). pose proof (Hl (b, ps) ltac:(set_solver)) as Hb. cbn in Hb. by rewrite Hb. }
    destruct (expired polls) eqn:Hx; [by exists polls|].
    replace (stop_gram idx <? lenN ps) with (negb (rare es.*1 b)).
    2: { unfold rare, stop_gram. by rewrite (spans_length _ _ Hh), Hps, lenN_fmap, N.ltb_antisym. }
    specialize (fun st Hst => IH st Hst (fun p Hp => Hl p (list_elem_of_further _ _ _ Hp))).
    destruct (rare es.*1 b) eqn:Hr; cbn [negb].
    + pose proof (pair_postings_spec expired ps ltac:(rewrite Hps; apply posted_sorted) (polls + 1, m) Hz) as Hp.
      destruct (pair_postings _ _ _) as [[polls' m']|e]; [|done]. destruct Hp as [Hn Hc].
      specialize (IH (polls', m') Hn). destruct (pair_all _ _ _ _) as [[polls'' m'']|e]; [|done].
      destruct IH as [Hn' Hc']. split; [done|]. intros key. rewrite Hc', filter_cons. cbn [fst snd] in *. rewrite Hr, Hc.
      destruct (decide (key.1 < key.2 /\ key.1 ∈ ps /\ key.2 ∈ ps)) as [Hk|Hk].
      * rewrite decide_True by naive_solver. unfold lenN. simpl. lia.
      * rewrite (decide_False (P := _ /\ true = true /\ _)) by naive_solver. lia.
    + specialize (IH (polls + 1, m) Hz). destruct (pair_all _ _ _ _) as [[polls'' m'']|e]; [|done].
      destruct IH as [Hn' Hc']. split; [done|]. intros key. rewrite Hc', filter_cons. cbn [fst snd]. rewrite Hr.
      by rewrite (decide_False (P := _ /\ false = true /\ _)) by naive_solver.
Qed.
(** The counted pairs: spans in order, with the informative bigrams they share. *)
Definition counted (shared : pair_counts) : Prop := forall a b k, shared !! (a, b) = Some k <->
  k <> 0 /\ a < b /\ exists ea eb, tget es a = Some ea /\ tget es b = Some eb /\ k = common es.*1 ea.1 eb.1.

Lemma pairs_counted expired polls : match pair_all expired idx (snd <$> map_to_list (ei_bigrams idx)) (polls, ∅) with
  | Err _ => exists k, expired k = true
  | Ok (_, m) => counted m
  end.
Proof using Hh.
  pose proof (pair_all_spec expired (map_to_list (ei_bigrams idx)) (polls, ∅) ltac:(intros key k Hk; cbn in Hk; by rewrite lookup_empty in Hk)
    ltac:(intros [b ps] Hp; by apply elem_of_map_to_list in Hp)) as Hs.
  destruct (pair_all _ _ _ _) as [[polls' m]|e]; [|done]. destruct Hs as [Hz Hc]. intros a b k.
  assert (Hcommon : forall ea eb, tget es a = Some ea -> tget es b = Some eb -> a < b ->
    default 0 (m !! (a, b)) = common es.*1 ea.1 eb.1).
  { intros ea eb Ha Hb Hab. rewrite Hc. cbn [fst snd]. rewrite lookup_empty. cbn [default from_option].
    unfold common, lenN. rewrite N.add_0_l. f_equal. rewrite <- (length_fmap fst).
    rewrite <- (size_list_to_set (C := gset N)).
    2: { apply (NoDup_fmap_filter fst), NoDup_fst_map_to_list. }
    f_equal. apply set_eq. intros g. rewrite elem_of_list_to_set, list_elem_of_fmap, elem_of_intersection.
    unfold grams. rewrite !elem_of_list_to_set, !list_elem_of_filter. split.
    - intros ([g' ps] & -> & Hf). apply list_elem_of_filter in Hf as [(_ & Hr & Hia & Hib) Hp%elem_of_map_to_list].
      cbn [fst snd] in *. assert (Hps : ps = posted es.*1 g') by (rewrite <- (holds_postings _ _ Hh); by rewrite Hp).
      subst ps. apply elem_of_posted in Hia as (ta & Hta & ?), Hib as (tb & Htb & ?).
      rewrite tget_fmap, Ha in Hta. rewrite tget_fmap, Hb in Htb. cbn in Hta, Htb. naive_solver.
    - intros [[Hr Hga] [_ Hgb]].
      assert (Hin : forall i e, tget es i = Some e -> g ∈ bigrams_of e.1 -> i ∈ posted es.*1 g).
      { intros i e He Hg. apply elem_of_posted. exists e.1. split; [|done]. by rewrite tget_fmap, He. }
      pose proof (Hin _ _ Ha Hga) as Hia. pose proof (Hin _ _ Hb Hgb) as Hib.
      destruct (ei_bigrams idx !! g) as [ps|] eqn:Hp.
      + assert (Hps : ps = posted es.*1 g) by (rewrite <- (holds_postings _ _ Hh); by rewrite Hp). subst ps.
        exists (g, posted es.*1 g). split; [done|]. apply list_elem_of_filter. split; [done|].
        by apply elem_of_map_to_list.
      + rewrite <- (holds_postings _ _ Hh), Hp in Hia. by apply not_elem_of_nil in Hia. }
  split.
  - intros Hk. pose proof (Hz _ _ Hk) as Hnz. pose proof (Hc (a, b)) as Hl. rewrite Hk in Hl. cbn [fst snd] in Hl.
    rewrite lookup_empty in Hl. cbn [default from_option] in Hl. destruct (filter _ _) as [|[g ps] l] eqn:Hf; [done|].
    assert (Hg : (g, ps) ∈ (g, ps) :: l) by set_solver. rewrite <- Hf in Hg.
    apply list_elem_of_filter in Hg as [(Hab & Hr & Hia & Hib) Hp%elem_of_map_to_list]. cbn [fst snd] in *.
    assert (Hps : ps = posted es.*1 g) by (rewrite <- (holds_postings _ _ Hh); by rewrite Hp). subst ps.
    apply elem_of_posted in Hia as (ta & Hta & _), Hib as (tb & Htb & _). rewrite tget_fmap in Hta, Htb.
    destruct (tget es a) as [ea|] eqn:Ha; [|done]. destruct (tget es b) as [eb|] eqn:Hb; [|done].
    split; [done|]. split; [done|]. exists ea, eb. split; [done|]. split; [done|].
    by rewrite <- (Hcommon _ _ eq_refl eq_refl Hab), Hk.
  - intros (Hk & Hab & ea & eb & Ha & Hb & ->). pose proof (Hcommon _ _ Ha Hb Hab) as Hd.
    destruct (m !! (a, b)); cbn in Hd; congruence.
Qed.
(** One counted pair: the key it raises and its Dice score. *)
Definition twin_row (dice_floor : f64) (row : N * N * N) : option (N * N * f64) :=
  ea ← tget es row.1.1;
  eb ← tget es row.1.2;
  if ea.2 =? eb.2 then None
  else
    let dice := dice_score row.2 (N.of_nat (size (grams es.*1 ea.1))) (N.of_nat (size (grams es.*1 eb.1))) in
    if (dice <? dice_floor)%float then None else Some ((N.min ea.2 eb.2, N.max ea.2 eb.2), dice).

Definition raise (best : gmap (N * N) f64) (c : N * N * f64) : gmap (N * N) f64 :=
  <[c.1 := f64_max (default 0%float (best !! c.1)) c.2]> best.

Definition informative_of : list N := (fun e => N.of_nat (size (grams es.*1 e.1))) <$> es.

Lemma twin_pair_row dice_floor best a b k ea eb :
  tget es a = Some ea -> tget es b = Some eb -> common es.*1 ea.1 eb.1 <> 0 ->
  twin_pair idx informative_of dice_floor best ((a, b), k) =
  Some (match twin_row dice_floor ((a, b), k) with None => best | Some c => raise best c end).
Proof using Hh.
  intros Ha Hb Hk. unfold twin_pair, twin_row, informative_of. cbn [fst snd]. rewrite !tget_fmap, Ha, Hb.
  assert (Hsp : forall i e, tget es i = Some e -> exists sp, tget (ei_spans idx) i = Some sp /\ sp_target sp = e.2).
  { intros i e He. destruct (tget_lt (ei_spans idx) i) as [sp Hsp].
    { rewrite (spans_length _ _ Hh). by eapply tget_Some_lt. }
    exists sp. split; [done|]. destruct (span_at _ _ Hh _ _ Hsp) as (He' & _). rewrite He in He'. by injection He' as ->. }
  destruct (Hsp _ _ Ha) as (sa & -> & Hta), (Hsp _ _ Hb) as (sb & -> & Htb).
  cbn [mbind option_bind fmap option_fmap option_map]. rewrite Hta, Htb. destruct (ea.2 =? eb.2); [done|].
  rewrite (proj2 (N.eqb_neq _ 0)); [by destruct (_ <? _)%float|].
  intros Hz. apply Hk. unfold common. enough (grams es.*1 ea.1 = ∅) as -> by (by rewrite intersection_empty_l_L, size_empty).
  apply leibniz_equiv, size_empty_iff. lia.
Qed.

Lemma twin_pairs_fold dice_floor rows : forall best,
  (forall a b k, ((a, b), k) ∈ rows -> exists ea eb, tget es a = Some ea /\ tget es b = Some eb /\ common es.*1 ea.1 eb.1 <> 0) ->
  foldM (twin_pair idx informative_of dice_floor) rows best = Some (foldl raise best (omap (twin_row dice_floor) rows)).
Proof using Hh.
  induction rows as [|[[a b] k] rows IH]; intros best Hr; [done|]. cbn [foldM omap list_omap].
  destruct (Hr a b k) as (ea & eb & Ha & Hb & Hk); [set_solver|].
  rewrite (twin_pair_row _ _ _ _ _ _ _ Ha Hb Hk). cbn [mbind option_bind]. rewrite IH by (intros a' b' k' Hin; apply (Hr a' b' k'); by apply elem_of_cons; right).
  by destruct (twin_row _ _).
Qed.

(** ** The best of a pair's scores *)

Lemma raised cs key : foldl raise ∅ cs !! key =
  match (filter (fun c => c.1 = key) cs).*2 with [] => None | ds => Some (foldl f64_max 0%float ds) end.
Proof.
  induction cs as [|[key' d] cs IH] using rev_ind; [done|].
  rewrite foldl_app, filter_app, fmap_app. cbn [foldl]. unfold raise at 1. cbn [fst snd].
  rewrite filter_cons, filter_nil. cbn [fst]. destruct (decide (key' = key)) as [->|Hne].
  - rewrite lookup_insert_eq, IH. cbn [fmap list_fmap snd].
    destruct ((filter _ cs).*2) as [|c l]; [done|]. cbn [app default from_option id].
    by rewrite (foldl_app f64_max l [d]).
  - rewrite lookup_insert_ne by done. cbn. rewrite app_nil_r. apply IH.
Qed.

Lemma twin_rows_twinned shared dice_floor : counted shared -> forall key d,
  (key, d) ∈ omap (twin_row dice_floor) (map_to_list shared) <-> twinned es dice_floor key d.
Proof using Hh.
  intros Hc key d. rewrite list_elem_of_omap. split.
  - intros ([[a b] k] & Hin%elem_of_map_to_list%Hc & Hr).
    destruct Hin as (Hk & Hab & ea & eb & Ha & Hb & ->). unfold twin_row in Hr. cbn [fst snd] in Hr.
    rewrite Ha, Hb in Hr. cbn [mbind option_bind] in Hr. destruct (N.eqb_spec ea.2 eb.2); [done|].
    destruct (_ <? _)%float eqn:Hd; [done|]. injection Hr as <- <-. exists a, b, ea, eb. eauto 10.
  - intros (a & b & ea & eb & Hab & Ha & Hb & Hne & -> & Hk & -> & Hd).
    exists ((a, b), common es.*1 ea.1 eb.1). split.
    + apply elem_of_map_to_list, Hc. eauto 10.
    + unfold twin_row. cbn [fst snd]. rewrite Ha, Hb. cbn [mbind option_bind].
      rewrite (proj2 (N.eqb_neq _ _) Hne), Hd. done.
Qed.

Lemma twins_spec dice_floor expired :
  (twins idx dice_floor expired = Some (Err Deadline_exceeded) /\ exists k, expired k = true) \/
  exists rows, twins idx dice_floor expired = Some (Ok rows) /\ StronglySorted twin_le rows /\ NoDup rows.*1 /\
    (forall key, (exists d, (key, d) ∈ rows) <-> exists d, twinned es dice_floor key d) /\
    (forall key d, (key, d) ∈ rows -> (d = 0%float \/ twinned es dice_floor key d) /\
      forall d', twinned es dice_floor key d' -> (d <? d')%float = false).
Proof using Hh.
  unfold twins. pose proof (informative_counts_spec expired (ei_spans idx) 0) as Hi.
  destruct (informative_counts _ _ _ _) as [[polls inf]|[]]; [|by left].
  assert (Hinf : inf = informative_of).
  { rewrite Hi. unfold informative_of. pose proof (holds_entries _ _ Hh) as He.
    transitivity ((fun e => N.of_nat (size (grams es.*1 e.1))) <$> ei_entries idx); [|by rewrite He].
    unfold ei_entries. rewrite <- list_fmap_compose. apply list_fmap_ext. intros i sp Hsp. cbn.
    by rewrite (informative_grams _ _ Hh). }
  rewrite Hinf. pose proof (pairs_counted expired polls) as Hp.
  destruct (pair_all _ _ _ _) as [[polls' shared]|[]]; [right|by left].
  rewrite twin_pairs_fold; [cbn [mbind option_bind]|].
  2: { intros a b k Hin%elem_of_map_to_list%Hp. destruct Hin as (Hk & _ & ea & eb & Ha & Hb & ->). eauto. }
  eexists. split; [reflexivity|]. set (cs := omap (twin_row dice_floor) (map_to_list shared)).
  pose proof (twin_rows_twinned shared dice_floor Hp) as Hcs. fold cs in Hcs.
  split; [apply StronglySorted_merge_sort; apply _|].
  split; [rewrite merge_sort_Permutation; apply NoDup_fst_map_to_list|].
  assert (Hds : forall key d, d ∈ (filter (fun c => c.1 = key) cs).*2 <-> twinned es dice_floor key d).
  { intros key d. rewrite <- Hcs, list_elem_of_fmap. setoid_rewrite list_elem_of_filter. split.
    - intros ([key' d'] & -> & <- & Hin). done.
    - intros Hin. by exists (key, d). }
  assert (Hrow : forall key d, (key, d) ∈ merge_sort twin_le (map_to_list (foldl raise ∅ cs)) <->
    foldl raise ∅ cs !! key = Some d).
  { intros key d. rewrite merge_sort_Permutation. apply elem_of_map_to_list. }
  setoid_rewrite Hrow. setoid_rewrite raised. split.
  - intros key. specialize (Hds key). destruct ((filter _ cs).*2) as [|d0 ds].
    + split; [by intros [? ?]|]. intros [d Hd%Hds]. by apply not_elem_of_nil in Hd.
    + split; [|eauto]. intros _. exists d0. apply Hds. set_solver.
  - intros key d. specialize (Hds key). destruct ((filter _ cs).*2) as [|d0 ds]; [done|]. intros [= <-].
    destruct (max_fold (d0 :: ds) 0%float eq_refl) as (_ & Hin & Hb). cbn [foldl] in Hin, Hb. split.
    + destruct Hin as [->|Hin]; [by left | right; by apply Hds].
    + intros d' Hd'%Hds. apply Hb. by apply elem_of_cons; right.
Qed.
End twins.
