(* ===== verification/ResolveClaims.v ===== *)
(** * Entry: the properties

    What [resolve], [resolve_label], [similar_concepts] and [similar_labels]
    answer, over any context that satisfies the invariant. *)

From S2P Require Export TwinsThm.
From S2P Require Import AliasClaims.

Local Open Scope N_scope.

(** ** The two namespaces *)

Section spaces.
Context `{UnicodeTables}.

Lemma namespace_space arena recs aliases ids ai idx ns al (name_of : N -> option name) :
  namespace_wf arena recs aliases ids ai idx ns al ->
  (forall i, i < lenN recs -> is_Some (name_of i)) ->
  (forall i j n, name_of i = Some n -> name_of j = Some n -> i = j) ->
  EntrySpace idx ids name_of.
Proof.
  intros [Hn _ [Hok Hp]] Ht Hi. split; [done | | |done].
  - intros t i. rewrite Hp, list_elem_of_fmap. rewrite (ns_ids _ _ _ _ _ _ Hn).
    setoid_rewrite <- (elem_of_list_to_map _ _ _ (ns_spellings_NoDup Hn)). split.
    + intros ([s j] & [= -> ->] & Hin). eauto.
    + intros (s & Hin & ->). by exists (s, i).
  - intros s i Hs. apply Ht. by eapply (ns_lookup_lt Hn).
Qed.

#[export] Instance concept_entries c (Hwf : wf c) : EntrySpace (concept_index c) (concept_ids c) (concept_name c).
Proof.
  destruct (wf_concepts _ Hwf) as (ns & al & Hn). eapply namespace_space; [exact Hn | |apply (concept_name_inj Hwf)].
  rewrite lenN_fmap. intros i Hi. destruct (concept_name_total Hwf i Hi) as [n ->]. by eexists.
Qed.

#[export] Instance label_entries c (Hwf : wf c) : EntrySpace (label_index c) (label_ids c) (label_name c).
Proof.
  destruct (wf_labels _ Hwf) as (ns & al & Hn). eapply namespace_space; [apply Hn | |apply (label_name_inj Hwf)].
  rewrite lenN_fmap. intros i Hi. destruct (label_name_total Hwf i Hi) as [n ->]. by eexists.
Qed.
End spaces.

#[export] Instance resolution_le_total : Total resolution_le.
Proof.
  intros a b. unfold resolution_le. destruct (name_le_total (rs_name a) (rs_name b)); lia || (destruct (Z.lt_trichotomy (total_key (rs_score a)) (total_key (rs_score b))) as [?|[?|?]]; auto).
Qed.
#[export] Instance resolution_le_trans : Transitive resolution_le.
Proof.
  intros a b c [?|[? ?]] [?|[? ?]]; unfold resolution_le; [left; lia | left; lia | left; lia|].
  right. split; [lia | by etrans].
Qed.

(** ** The rows *)

Lemma elem_of_mapM {A B} (f : A -> option B) l k y : Forall2 (fun x y => f x = Some y) l k ->
  y ∈ k <-> exists x, x ∈ l /\ f x = Some y.
Proof.
  induction 1 as [|x z l k Hx Hl IH]; [set_solver|]. rewrite elem_of_cons, IH. setoid_rewrite elem_of_cons. split.
  - intros [->|(x' & ? & ?)]; eauto.
  - intros (x' & [->|?] & ?); [left; congruence | eauto].
Qed.

Lemma refined_rows `{UnicodeTables} name_of needle (m : scores) rows :
  (forall i j n, name_of i = Some n -> name_of j = Some n -> i = j) ->
  mapM (refine name_of needle) (map_to_list m) = Some rows ->
  NoDup (rs_name <$> rows) /\ forall r, r ∈ rows <-> exists i s k n, m !! i = Some (s, k) /\ name_of i = Some n /\
    r = {| rs_name := n; rs_score := s; rs_kind := if decide (k = Exact /\ normalize n <> needle) then Alias else k |}.
Proof.
  intros Hinj Hrows. assert (Href : forall i s k r, refine name_of needle (i, (s, k)) = Some r <-> exists n,
    name_of i = Some n /\ r = {| rs_name := n; rs_score := s;
      rs_kind := if decide (k = Exact /\ normalize n <> needle) then Alias else k |}).
  { intros i s k r. unfold refine. cbn [fst snd]. destruct (name_of i) as [n|]; cbn [mbind option_bind]; [|naive_solver].
    assert (Hk : (if bool_decide (k = Exact) && negb (bool_decide (normalize n = needle)) then Alias else k) =
      if decide (k = Exact /\ normalize n <> needle) then Alias else k).
    { case_bool_decide; case_bool_decide; case_decide; naive_solver. }
    rewrite Hk. naive_solver. }
  pose proof Hrows as Hall%mapM_Some. split.
  - assert (Hnd : forall l k, Forall2 (fun x y => refine name_of needle x = Some y) l k -> NoDup l.*1 -> NoDup (rs_name <$> k)).
    { induction 1 as [|[i [s k']] r l k Hr Hl IH]; [constructor|]. rewrite !fmap_cons, !NoDup_cons. intros [Hi Hnd].
      split; [|by apply IH]. intros (r' & Hn & Hin)%list_elem_of_fmap. apply Hi.
      apply (elem_of_mapM _ _ _ _ Hl) in Hin as ([j [s' k'']] & Hj & Hr').
      apply Href in Hr as (n & Hni & ->), Hr' as (n' & Hnj & ->). cbn in Hn. subst n'.
      rewrite (Hinj _ _ _ Hni Hnj). apply (list_elem_of_fmap_2 fst _ _ Hj). }
    eapply Hnd; [exact Hall | apply NoDup_fst_map_to_list].
  - intros r. split.
    + intros ([i [s k]] & Hi%elem_of_map_to_list & (n & ? & ?)%Href)%(elem_of_mapM _ _ _ _ Hall).
      exists i, s, k, n. done.
    + intros (i & s & k & n & Hi & Hr). apply (elem_of_mapM _ _ _ _ Hall). exists (i, (s, k)).
      split; [by apply elem_of_map_to_list|]. apply Href. eauto.
Qed.

Lemma stored_found `{UnicodeTables} {idx ids name_of} (S : EntrySpace idx ids name_of) cue dice_floor (rows : list Resolution) s i n :
  (forall r, r ∈ rows <-> exists i s k n, ei_resolve idx cue dice_floor !! i = Some (s, k) /\ name_of i = Some n /\
    r = {| rs_name := n; rs_score := s; rs_kind := if decide (k = Exact /\ normalize n <> normalize cue) then Alias else k |}) ->
  ids !! s = Some i -> normalize s = normalize cue -> normalize cue <> [] -> name_of i = Some n ->
  exists r, r ∈ rows /\ rs_name r = n /\ (rs_score r <? 1)%float = false.
Proof.
  intros Hin Hs Hsn Hne Hn. destruct (ei_resolve_spec idx _ cue dice_floor space_ok Hne) as (fuzzy & _ & Hr).
  assert (Hc : (1%float, Exact) ∈ scores_of i (met (ei_entries idx) (normalize cue) ++ fuzzy)).
  { unfold scores_of. apply list_elem_of_fmap. exists (i, (1%float, Exact)). split; [done|].
    apply list_elem_of_filter. split; [done|]. apply elem_of_app. left. apply list_elem_of_omap.
    exists (normalize cue, i). split; [apply space_entries; eauto|]. unfold meets. cbn [fst snd].
    rewrite (bool_decide_eq_false_2 (normalize cue = [])) by exact Hne.
    by rewrite (bool_decide_eq_true_2 (normalize cue = normalize cue)). }
  pose proof (notes_best (met (ei_entries idx) (normalize cue) ++ fuzzy) i) as Hb. rewrite <- Hr in Hb.
  destruct (scores_of i _) as [|c0 cs] eqn:Hsc; [by apply not_elem_of_nil in Hc|].
  destruct (best_of (c0 :: cs)) as [[sc k]|] eqn:Hbest; [|done].
  eexists. split; [apply Hin; exists i, sc, k, n; split; [exact Hb|]; split; [exact Hn | reflexivity]|].
  split; [done|]. by apply (best_not_below _ _ _ _ Hbest Hc).
Qed.

(** C28. [EntryIndex::resolve] refines its reference.  On any index that agrees
    with the spellings it holds, the answer for a target is the best of the
    scores of its spellings: 1 for the cue itself, the covered share for a
    containment either way, and, unless some spelling is the cue, the Dice score
    over informative bigrams of each spelling the containment tier missed and
    that reaches the floor, in whatever order the counting map is walked.  No
    score of the target exceeds the one answered, and an empty cue finds
    nothing. *)
Theorem entry_resolve_best `{UnicodeTables} idx es cue dice_floor (Hh : ei_holds idx es) :
  let needle := normalize cue in
  (needle = [] -> ei_resolve idx cue dice_floor = ∅) /\
  (needle <> [] -> exists fuzzy,
    fuzzy ≡ₚ (if bool_decide (needle ∈ es.*1) then [] else fuzzies es needle dice_floor) /\
    forall t, ei_resolve idx cue dice_floor !! t = best_of (scores_of t (met es needle ++ fuzzy)) /\
      forall s k c, ei_resolve idx cue dice_floor !! t = Some (s, k) ->
        c ∈ scores_of t (met es needle ++ fuzzy) -> (s <? c.1)%float = false).
Proof.
  intros needle. split.
  - intros Hz. unfold ei_resolve. by rewrite bool_decide_eq_true_2.
  - intros Hne. destruct (ei_resolve_spec idx es cue dice_floor Hh Hne) as (fuzzy & Hp & Hr).
    exists fuzzy. split; [done|]. intros t. rewrite Hr, notes_best. split; [done|]. apply best_not_below.
Qed.

(** C29. Resolving over a namespace (concepts or labels): every winner of the
    index becomes one row under its record's canonical name, with the score and
    the kind that earned it, an exact hit on another spelling than the canonical
    one being an alias; the rows are sorted best first, ties by name, with no
    record twice.  A cue that normalizes to a stored spelling, alias or
    canonical, always finds that spelling's record, at a score not below 1. *)
Theorem resolve_ranked `{UnicodeTables} idx ids name_of (S : EntrySpace idx ids name_of) cue dice_floor :
  exists rows, scored_resolutions idx name_of cue dice_floor = Some rows /\
    StronglySorted resolution_le rows /\ NoDup (rs_name <$> rows) /\
    (forall r, r ∈ rows <-> exists i s k n,
      ei_resolve idx cue (clamp_unit_or dice_floor 1%float) !! i = Some (s, k) /\ name_of i = Some n /\
      r = {| rs_name := n; rs_score := s;
             rs_kind := if decide (k = Exact /\ normalize n <> normalize cue) then Alias else k |}) /\
    (forall s i n, ids !! s = Some i -> normalize s = normalize cue -> normalize cue <> [] -> name_of i = Some n ->
      exists r, r ∈ rows /\ rs_name r = n /\ (rs_score r <? 1)%float = false).
Proof.
  destruct (scored_rows S cue (clamp_unit_or dice_floor 1%float)) as [rows Hrows].
  unfold scored_resolutions. bind Hrows. eexists. split; [reflexivity|]. unfold sort_resolutions.
  split; [apply StronglySorted_merge_sort; apply _|]. apply refined_rows in Hrows as [Hnd Hin]; [|apply space_inj].
  split; [by rewrite merge_sort_Permutation|].
  split; [intros r; rewrite merge_sort_Permutation; apply Hin|].
  intros s i n Hs Hsn Hne Hn. setoid_rewrite merge_sort_Permutation. by eapply (stored_found S).
Qed.

(** C30. The vocabulary audit.  On an index that agrees with its spellings, a
    sweep either stops at a poll the deadline had passed, or lists, once each and
    strongest first, exactly the pairs of different records two spellings of
    which share an informative bigram and reach the floor; the score listed is
    that of such a pair of spellings and none of theirs exceeds it. *)
Theorem twins_best idx es dice_floor expired (Hh : ei_holds idx es) :
  (twins idx dice_floor expired = Some (Err Deadline_exceeded) /\ exists k, expired k = true) \/
  exists rows, twins idx dice_floor expired = Some (Ok rows) /\ StronglySorted twin_le rows /\ NoDup rows.*1 /\
    (forall key, (exists d, (key, d) ∈ rows) <-> exists d, twinned es dice_floor key d) /\
    (forall key d, (key, d) ∈ rows -> (d = 0%float \/ twinned es dice_floor key d) /\
      forall d', twinned es dice_floor key d' -> (d <? d')%float = false).
Proof. by apply twins_spec. Qed.

(** ** Concrete runs *)

Definition sample_index : EntryIndex :=
  default EntryIndex_default (i1 ← @ei_push ascii_tables EntryIndex_default (str "青嶺酒造") 0;
    i2 ← @ei_push ascii_tables i1 (str "青嶺酒蔵") 1; @ei_push ascii_tables i2 (str "Aomine Shuzo") 0).

Lemma sample_index_holds : ei_holds sample_index
  [(str "青嶺酒造", 0); (str "青嶺酒蔵", 1); (str "aomine shuzo", 0)].
Proof.
  unfold sample_index.
  destruct (@ei_push ascii_tables EntryIndex_default (str "青嶺酒造") 0) as [i1|] eqn:E1; [|by vm_compute in E1].
  cbn [mbind option_bind].
  pose proof (ei_push_holds _ _ _ _ _ ei_holds_default E1) as H1.
  destruct (@ei_push ascii_tables i1 (str "青嶺酒蔵") 1) as [i2|] eqn:E2.
  2: { vm_compute in E1. injection E1 as <-. by vm_compute in E2. }
  pose proof (ei_push_holds _ _ _ _ _ H1 E2) as H2. cbn [mbind option_bind].
  destruct (@ei_push ascii_tables i2 (str "Aomine Shuzo") 0) as [i3|] eqn:E3.
  2: { vm_compute in E1. injection E1 as <-. vm_compute in E2. injection E2 as <-. by vm_compute in E3. }
  pose proof (ei_push_holds _ _ _ _ _ H2 E3) as H3. exact H3.
Qed.

Lemma entry_resolve_best_witness :
  @ei_resolve ascii_tables sample_index (str "青嶺酒蔵") 0.3%float !! 1 = Some (1%float, Exact) /\
  @normalize ascii_tables (str "青嶺酒蔵") <> [] /\
  exists fuzzy, forall t, @ei_resolve ascii_tables sample_index (str "青嶺酒蔵") 0.3%float !! t =
    best_of (scores_of t (met [(str "青嶺酒造", 0); (str "青嶺酒蔵", 1); (str "aomine shuzo", 0)]
      (@normalize ascii_tables (str "青嶺酒蔵")) ++ fuzzy)).
Proof.
  split; [by vm_compute|]. assert (Hne : @normalize ascii_tables (str "青嶺酒蔵") <> []) by (by vm_compute).
  split; [exact Hne|].
  destruct (proj2 (@entry_resolve_best ascii_tables _ _ (str "青嶺酒蔵") 0.3%float sample_index_holds) Hne)
    as (fuzzy & _ & Hr). exists fuzzy. intros t. exact (proj1 (Hr t)).
Defined.

Lemma resolve_ranked_witness :
  @resolve ascii_tables (str "Feline") sample_aliased =
    Some [{| rs_name := str "cat"; rs_score := 1%float; rs_kind := Alias |}] /\
  exists rows, @scored_resolutions ascii_tables (concept_index sample_aliased) (concept_name sample_aliased)
    (str "Feline") 0.3%float = Some rows /\ StronglySorted resolution_le rows.
Proof.
  split; [by vm_compute|].
  destruct (@resolve_ranked ascii_tables _ _ _ (@concept_entries ascii_tables _ sample_aliased_wf) (str "Feline") 0.3%float)
    as (rows & Hr & Hs & _). exists rows. split; [exact Hr | exact Hs].
Defined.

Lemma twins_best_witness :
  twins sample_index 0.3%float (fun _ => false) = Some (Ok [((0, 1), 0x1.5555555555555p-1%float)]) /\
  exists rows, twins sample_index 0.3%float (fun _ => false) = Some (Ok rows) /\ NoDup rows.*1.
Proof.
  split; [by vm_compute|].
  destruct (twins_best _ _ 0.3%float (fun _ => false) sample_index_holds) as [[_ [k Hk]]|(rows & Hr & _ & Hn & _)];
    [discriminate Hk|]. exists rows. split; [exact Hr | exact Hn].
Defined.
