(* ===== verification/AliasDead.v ===== *)
(** * Aliases of dead names ([Context::dead_canonical_aliases])

    The aliases whose canonical spelling no live edge uses.  The scan polls its
    deadline before each edge, as a schedule of answers. *)

From S2P Require Export TwinsThm CompactInstall.

Local Open Scope N_scope.

(** [Self::dead_aliases]. *)
Definition dead_aliases (aliases : list (name * name)) (live : gset name) : gmap name name :=
  list_to_map (reverse (filter (fun p => p.2 ∉ live) aliases)).

(** The names live edges use; an edge whose names do not read is a panic. *)
Fixpoint live_names (expired : N -> bool) (c : Context) (edges : list EdgeRecord) (polls : N)
    (st : gset name * gset name) : option (result (gset name * gset name) Elapsed) :=
  match edges with
  | [] => Some (Ok st)
  | edge :: edges =>
    if expired polls then Some (Err Deadline_exceeded)
    else if 0 <? e_count edge then
      subject ← concept_name c (e_subject edge);
      object ← concept_name c (e_object edge);
      label ← label_name c (e_label edge);
      live_names expired c edges (polls + 1) ({[object]} ∪ ({[subject]} ∪ st.1), {[label]} ∪ st.2)
    else live_names expired c edges (polls + 1) st
  end.

Definition dead_canonical_aliases `{UnicodeTables} (expired : N -> bool) (c : Context)
    : option (result (gmap name name * gmap name name) Elapsed) :=
  r ← live_names expired c (edges c) 0 (∅, ∅);
  match r with
  | Err e => Some (Err e)
  | Ok (live_concepts, live_labels) =>
    concept_aliases ← alias_pairs concept_space c;
    label_aliases ← alias_pairs label_space c;
    Some (Ok (dead_aliases concept_aliases live_concepts, dead_aliases label_aliases live_labels))
  end.

(** ** What is reported *)

Section dead.
Context `{UnicodeTables}.

Lemma live_names_spec expired c fs l : forall fl polls st,
  wf c -> facts c = Some fs -> Forall2 (fun e f => exists i, tget (edges c) i = Some e /\ tget fs i = Some f) l fl ->
  (live_names expired c l polls st = Some (Err Deadline_exceeded) /\ exists k, expired k = true) \/
  exists lc ll, live_names expired c l polls st = Some (Ok (lc, ll)) /\
    (forall n, n ∈ lc <-> n ∈ st.1 \/ exists f, f ∈ fl /\ f_count f <> 0 /\ (n = f_subject f \/ n = f_object f)) /\
    (forall n, n ∈ ll <-> n ∈ st.2 \/ exists f, f ∈ fl /\ f_count f <> 0 /\ n = f_label f).
Proof.
  induction l as [|e l IH]; intros fl polls [sc sl] Hwf Hfs Hl; cbn [live_names fst snd].
  - apply Forall2_nil_inv_l in Hl as ->. right. exists sc, sl. split; [done|].
    split; intros n; (split; [by left | intros [?|(f & ?%not_elem_of_nil & _)]; done]).
  - apply Forall2_cons_inv_l in Hl as (f & fl' & (i & He & Hf) & Hl & ->).
    destruct (expired polls) eqn:Hx; [left; eauto|].
    pose proof (facts_lookup _ _ Hfs) as [Hlen Hget]. rewrite Hget in Hf by (by eapply tget_Some_lt).
    pose proof Hf as (e' & ids & He' & Hs & Hlb & Ho & _ & _ & Hc & _)%fact_at_inv.
    assert (e' = e) as -> by congruence.
    destruct (N.ltb_spec 0 (e_count e)) as [Hpos|Hzero].
    + rewrite Hs. cbn [mbind option_bind]. rewrite Ho. cbn [mbind option_bind]. rewrite Hlb. cbn [mbind option_bind].
      destruct (IH fl' (polls + 1) ({[f_object f]} ∪ ({[f_subject f]} ∪ sc), {[f_label f]} ∪ sl) Hwf Hfs Hl) as [?|(lc & ll & Hr & Hlc & Hll)]; [by left|].
      right. exists lc, ll. split; [done|]. cbn [fst snd] in *.
      assert (f_count f <> 0) by lia. clear Hr IH Hl Hs Ho Hlb.
      split; intros n; [rewrite Hlc | rewrite Hll]; rewrite !elem_of_union, !elem_of_singleton; setoid_rewrite elem_of_cons; naive_solver.
    + destruct (IH fl' (polls + 1) (sc, sl) Hwf Hfs Hl) as [?|(lc & ll & Hr & Hlc & Hll)]; [by left|].
      right. exists lc, ll. split; [done|]. cbn [fst snd] in *. assert (f_count f = 0) by lia.
      split; intros n; [rewrite Hlc | rewrite Hll]; setoid_rewrite elem_of_cons; naive_solver.
Qed.

(** The filtered pairs, under distinct alias spellings. *)
Lemma dead_aliases_spec pairs live a n : NoDup pairs.*1 ->
  dead_aliases pairs live !! a = Some n <-> (a, n) ∈ pairs /\ n ∉ live.
Proof.
  intros Hnd. unfold dead_aliases. rewrite <- elem_of_list_to_map.
  - rewrite elem_of_reverse, list_elem_of_filter. naive_solver.
  - rewrite fmap_reverse, reverse_Permutation. by apply (NoDup_fmap_filter fst).
Qed.
Lemma alias_pairs_total S c : wf c -> exists pairs, alias_pairs S c = Some pairs /\ NoDup pairs.*1.
Proof.
  intros Hwf. assert (Hp : is_Some (alias_pairs S c)).
  { destruct (as_wf c Hwf) as (ns & al & [Hn _ _]). unfold alias_pairs. apply mapM_is_Some_2, Forall_forall.
    intros r [j Hj]%list_elem_of_lookup. unfold compose.
    assert (Hr : tget (a_entry <$> an_aliases (as_handle c)) (N.of_nat j) = Some (a_entry r))
      by (by rewrite tget_lookup, Nat2N.id, list_lookup_fmap, Hj).
    destruct (ns_alias_name_at Hn _ _ Hr) as (n & Hname & _). cbn in Hname. rewrite Hname. cbn [mbind option_bind].
    pose proof (ns_targets _ _ _ _ _ _ Hn) as Hts.
    eapply Forall_lookup_1 in Hts; [|by rewrite list_lookup_fmap, Hj]. cbn in Hts.
    apply tget_lt in Hts as [rc Hrc]. rewrite as_name_spec, Hrc. destruct (ns_name_at Hn _ _ Hrc) as (m & Hm & _).
    cbn [mbind option_bind]. rewrite Hm. cbn [mbind option_bind]. eauto. }
  destruct Hp as [pairs Hp]. exists pairs. split; [done|].
  destruct (alias_pairs_spec S c pairs Hwf Hp) as (ns & al & [Hn _ _] & -> & _).
  pose proof (ns_unique _ _ _ _ _ _ Hn) as Hnd. by apply NoDup_app in Hnd as (_ & _ & ?).
Qed.

(** The report of a context: the aliases no live fact's name stands behind. *)
Theorem dead_canonical_aliases_spec expired c fs : wf c -> facts c = Some fs ->
  (dead_canonical_aliases expired c = Some (Err Deadline_exceeded) /\ exists k, expired k = true) \/
  exists cal lal dc dl, alias_pairs concept_space c = Some cal /\ alias_pairs label_space c = Some lal /\
    dead_canonical_aliases expired c = Some (Ok (dc, dl)) /\
    (forall a n, dc !! a = Some n <-> (a, n) ∈ cal /\
      forall f, f ∈ fs -> f_count f <> 0 -> n <> f_subject f /\ n <> f_object f) /\
    (forall a n, dl !! a = Some n <-> (a, n) ∈ lal /\ forall f, f ∈ fs -> f_count f <> 0 -> n <> f_label f).
Proof.
  intros Hwf Hfs. unfold dead_canonical_aliases.
  destruct (live_names_spec expired c fs (edges c) fs 0 (∅, ∅) Hwf Hfs) as [[-> Hx]|(lc & ll & -> & Hlc & Hll)].
  { pose proof (facts_lookup _ _ Hfs) as [Hlen Hget]. apply Forall2_same_length_lookup_2; [unfold lenN in Hlen; lia|].
    intros i e f He Hf. exists (N.of_nat i). by rewrite !tget_lookup, Nat2N.id. }
  { by left. }
  right. destruct (alias_pairs_total concept_space c Hwf) as (cal & Hcal & Hcn), (alias_pairs_total label_space c Hwf) as (lal & Hlal & Hln).
  exists cal, lal. cbn [mbind option_bind]. rewrite Hcal, Hlal. cbn [mbind option_bind].
  eexists _, _. split; [done|]. split; [done|]. split; [reflexivity|]. split; intros a n; rewrite dead_aliases_spec by done.
  - split; intros [Hin Hn]; (split; [done|]).
    + intros f Hf Hc. split; intros ->; apply Hn, Hlc; right; eauto.
    + intros [Hc|(f & Hf & Hc & [->| ->])]%Hlc; [by apply not_elem_of_empty in Hc| |]; by destruct (Hn f Hf Hc).
  - split; intros [Hin Hn]; (split; [done|]).
    + intros f Hf Hc ->. apply Hn, Hll. right. eauto.
    + intros [Hc|(f & Hf & Hc & ->)]%Hll; [by apply not_elem_of_empty in Hc|]. by apply (Hn f Hf Hc).
Qed.
End dead.
