(* ===== verification/Communities.v ===== *)
(** * Community detection ([src/context/community.rs])

    Deterministic Louvain over the concept graph, a split into connected
    components after every level, and the aggregation of a level's communities
    into the next level's graph.  Indices out of range and missing keys are
    panics ([None]).  The deadline is a schedule of answers by poll number.  The
    moving passes repeat until one moves nothing: floats do not promise that, so
    the loop has fuel, and running out is [None] too. *)

From S2P Require Export Compact Resolve.

Local Open Scope N_scope.

Definition COMMUNITY_ALGORITHM : name := str "louvain-cc/1".
Definition MAX_LEVELS : nat := 8.
Definition TOP_ASSOCIATIONS_PER_COMMUNITY : nat := 24.
Definition DEADLINE_STRIDE : N := 1024.

(** ** The working graph *)

Record WorkGraph := {
  wg_neighbors : list (list (N * f64));
  wg_self_weight : list f64
}.

Definition wg_len (g : WorkGraph) : N := lenN (wg_neighbors g).

Definition accumulate_all (total : f64) (links : list (N * f64)) : f64 :=
  foldl (fun total p => accumulate_saturating total p.2) total links.

(** A node's weighted degree, self-loop counted twice. *)
Definition strength (g : WorkGraph) (node : N) : option f64 :=
  self ← tget (wg_self_weight g) node;
  links ← tget (wg_neighbors g) node;
  Some (accumulate_all (2 * self)%float links).

Fixpoint total_weight_from (g : WorkGraph) (nodes : list (N * list (N * f64))) (total : f64) : option f64 :=
  match nodes with
  | [] => Some total
  | (node, links) :: nodes =>
    self ← tget (wg_self_weight g) node;
    total_weight_from g nodes
      (accumulate_all (accumulate_saturating total self) (filter (fun p => node < p.1) links))
  end.

Definition total_weight (g : WorkGraph) : option f64 :=
  total_weight_from g (zip (indices (wg_neighbors g)) (wg_neighbors g)) 0%float.

(** ** The leaf graph *)

Definition add_weight {K} `{Countable K} (weight : f64) (key : K) (m : gmap K f64) : gmap K f64 :=
  <[key := accumulate_saturating (default 0%float (m !! key)) weight]> m.

(** The scan of the edges, a poll every [DEADLINE_STRIDE] of them. *)
Fixpoint merge_edges (expired : N -> bool) (edges : list EdgeRecord) (index polls : N) (merged : gmap (N * N) f64)
    : result (N * gmap (N * N) f64) Elapsed :=
  match edges with
  | [] => Ok (polls, merged)
  | edge :: edges =>
    let due := index mod DEADLINE_STRIDE =? 0 in
    if due && expired polls then Err Deadline_exceeded
    else
      let polls := if due then polls + 1 else polls in
      let magnitude := PrimFloat.abs (e_sum edge) in
      if (e_count edge =? 0) || (e_subject edge =? e_object edge) || (magnitude =? 0)%float
      then merge_edges expired edges (index + 1) polls merged
      else
        let pair := (N.min (e_subject edge) (e_object edge), N.max (e_subject edge) (e_object edge)) in
        merge_edges expired edges (index + 1) polls (add_weight magnitude pair merged)
  end.

(** Keyed rows in key order. *)
Definition node_le {A} (p q : N * A) : Prop := p.1 <= q.1.
#[export] Instance node_le_dec {A} (p q : N * A) : Decision (node_le p q).
Proof. unfold node_le. apply _. Defined.

Definition pair_le {A} (p q : N * N * A) : Prop := p.1.1 < q.1.1 \/ (p.1.1 = q.1.1 /\ p.1.2 <= q.1.2).
#[export] Instance pair_le_dec {A} (p q : N * N * A) : Decision (pair_le p q).
Proof. unfold pair_le. apply _. Defined.

Definition sort_neighbors (neighbors : list (list (N * f64))) : list (list (N * f64)) :=
  merge_sort node_le <$> neighbors.

(** One undirected edge: a row at both ends. *)
Definition push_both (a b : N) (weight : f64) (neighbors : list (list (N * f64))) : option (list (list (N * f64))) :=
  neighbors ← tupd neighbors a (fun l => l ++ [(b, weight)]);
  tupd neighbors b (fun l => l ++ [(a, weight)]).

Definition index_nodes (ids : list N) : gmap N N := list_to_map (zip ids (indices ids)).

Definition push_pair (index_of : gmap N N) (neighbors : list (list (N * f64))) (row : N * N * f64)
    : option (list (list (N * f64))) :=
  a ← index_of !! row.1.1;
  b ← index_of !! row.1.2;
  push_both a b row.2 neighbors.

Definition leaf_graph (expired : N -> bool) (c : Context) : option (result (N * (list ConceptId * WorkGraph)) Elapsed) :=
  match merge_edges expired (edges c) 0 0 ∅ with
  | Err e => Some (Err e)
  | Ok (polls, merged) =>
    let concept_ids := dedup (sort_ids (flat_map (fun p => [p.1.1; p.1.2]) (map_to_list merged))) in
    neighbors ← foldM (push_pair (index_nodes concept_ids)) (merge_sort pair_le (map_to_list merged))
      (replicate (length concept_ids) []);
    Some (Ok (polls, (concept_ids, {| wg_neighbors := sort_neighbors neighbors;
      wg_self_weight := replicate (length concept_ids) 0%float |})))
  end.

(** ** One level: the moves *)

Record Moving := {
  mv_community : list N;
  mv_total : list f64;
  mv_moved : bool;
  mv_visits : N;
  mv_polls : N
}.

(** The weight from a node into each adjacent community, its own included. *)
Fixpoint adjacent_from (community : list N) (links : list (N * f64)) (adjacent : gmap N f64) : option (gmap N f64) :=
  match links with
  | [] => Some adjacent
  | (neighbor, weight) :: links =>
    there ← tget community neighbor;
    adjacent_from community links (add_weight weight there adjacent)
  end.

(** [link - strengths[node] * community_total[target] / (2.0 * m)]. *)
Definition gain (m strength : f64) (community_total : list f64) (target : N) (link : f64) : option f64 :=
  total ← tget community_total target;
  Some (link - strength * total / (2 * m))%float.

(** The best candidate so far, ties to the earlier. *)
Fixpoint best_move (m strength : f64) (community_total : list f64) (own : N) (rows : list (N * f64))
    (best : N * f64) : option (N * f64) :=
  match rows with
  | [] => Some best
  | (target, link) :: rows =>
    if target =? own then best_move m strength community_total own rows best
    else
      candidate ← gain m strength community_total target link;
      best_move m strength community_total own rows
        (if (best.2 <? candidate)%float then (target, candidate) else best)
  end.

Definition move_node (g : WorkGraph) (m : f64) (strengths : list f64) (node : N) (st : Moving) : option Moving :=
  own ← tget (mv_community st) node;
  links ← tget (wg_neighbors g) node;
  adjacent ← adjacent_from (mv_community st) links {[own := 0%float]};
  strength ← tget strengths node;
  lifted ← tupd (mv_total st) own (fun t => (t - strength)%float);
  own_link ← adjacent !! own;
  stay ← gain m strength lifted own own_link;
  best ← best_move m strength lifted own (merge_sort node_le (map_to_list adjacent)) (own, stay);
  community ← tupd (mv_community st) node (fun _ => best.1);
  total ← tupd lifted best.1 (fun t => (t + strength)%float);
  Some {| mv_community := community; mv_total := total; mv_moved := mv_moved st || negb (best.1 =? own);
          mv_visits := mv_visits st; mv_polls := mv_polls st |}.

(** One pass over the nodes, a poll every [DEADLINE_STRIDE] visits. *)
Fixpoint move_pass (g : WorkGraph) (expired : N -> bool) (m : f64) (strengths : list f64) (nodes : list N) (st : Moving)
    : option (result Moving Elapsed) :=
  match nodes with
  | [] => Some (Ok st)
  | node :: nodes =>
    let visits := mv_visits st + 1 in
    let due := visits mod DEADLINE_STRIDE =? 0 in
    if due && expired (mv_polls st) then Some (Err Deadline_exceeded)
    else
      st ← move_node g m strengths node
        {| mv_community := mv_community st; mv_total := mv_total st; mv_moved := mv_moved st; mv_visits := visits;
           mv_polls := if due then mv_polls st + 1 else mv_polls st |};
      move_pass g expired m strengths nodes st
  end.

(** [while moved]. *)
Fixpoint move_passes (fuel : nat) (g : WorkGraph) (expired : N -> bool) (m : f64) (strengths : list f64) (st : Moving)
    : option (result Moving Elapsed) :=
  match fuel with
  | O => None
  | S fuel =>
    andThen (move_pass g expired m strengths (indices (wg_neighbors g))
      {| mv_community := mv_community st; mv_total := mv_total st; mv_moved := false; mv_visits := mv_visits st;
         mv_polls := mv_polls st |}) (fun st =>
    if mv_moved st then move_passes fuel g expired m strengths st else Some (Ok st))
  end.

(** ** One level: numbering and components *)

Fixpoint renumber_from (assignment : list N) (m : gmap N N) : list N * gmap N N :=
  match assignment with
  | [] => ([], m)
  | value :: assignment =>
    let next := N.of_nat (size m) in
    let fresh := default next (m !! value) in
    let '(rest, m) := renumber_from assignment (<[value := fresh]> m) in
    (fresh :: rest, m)
  end.

(** Dense numbers in first-member order, and their count. *)
Definition renumber (assignment : list N) : list N * N :=
  let '(assignment, m) := renumber_from assignment ∅ in (assignment, N.of_nat (size m)).

(** The unreached neighbors in the node's community, marked and pushed. *)
Fixpoint reach_neighbors (assignment : list N) (home id : N) (links : list (N * f64))
    (st : list (option N) * list N) : option (list (option N) * list N) :=
  match links with
  | [] => Some st
  | (neighbor, _) :: links =>
    there ← tget assignment neighbor;
    mark ← tget st.1 neighbor;
    if (there =? home) && bool_decide (mark = None) then
      component ← tupd st.1 neighbor (fun _ => Some id);
      reach_neighbors assignment home id links (component, neighbor :: st.2)
    else reach_neighbors assignment home id links st
  end.

(** The search from a start; each node is pushed once. *)
Fixpoint reach_component (fuel : nat) (g : WorkGraph) (assignment : list N) (id : N) (st : list (option N) * list N)
    : option (list (option N)) :=
  match st.2 with
  | [] => Some st.1
  | node :: frontier =>
    match fuel with
    | O => None
    | S fuel =>
      links ← tget (wg_neighbors g) node;
      home ← tget assignment node;
      st ← reach_neighbors assignment home id links (st.1, frontier);
      reach_component fuel g assignment id st
    end
  end.

Fixpoint split_from (g : WorkGraph) (assignment : list N) (starts : list N) (next : N) (component : list (option N))
    : option (list (option N)) :=
  match starts with
  | [] => Some component
  | start :: starts =>
    mark ← tget component start;
    match mark with
    | Some _ => split_from g assignment starts next component
    | None =>
      component ← tupd component start (fun _ => Some next);
      component ← reach_component (length assignment) g assignment next (component, [start]);
      split_from g assignment starts (next + 1) component
    end
  end.

Definition split_components (g : WorkGraph) (assignment : list N) : option (list N * N) :=
  component ← split_from g assignment (indices assignment) 0 (replicate (length assignment) None);
  parts ← mapM id component;
  Some (renumber parts).

(** Each node's community, the count, and the polls so far. *)
Definition one_level (fuel : nat) (g : WorkGraph) (expired : N -> bool) (polls : N)
    : option (result (N * (list N * N)) Elapsed) :=
  m ← total_weight g;
  if (m =? 0)%float then Some (Ok (polls, (indices (wg_neighbors g), wg_len g)))
  else
    strengths ← mapM (strength g) (indices (wg_neighbors g));
    andThen (move_passes fuel g expired m strengths
      {| mv_community := indices (wg_neighbors g); mv_total := strengths; mv_moved := true; mv_visits := 0; mv_polls := polls |})
      (fun st =>
    split ← split_components g (renumber (mv_community st)).1;
    Some (Ok (mv_polls st, split))).

(** ** Aggregation *)

(** One row of a node: into the self-loop, or between two communities. *)
Definition collapse_row (assignment : list N) (node home : N) (st : list f64 * gmap (N * N) f64) (row : N * f64)
    : option (list f64 * gmap (N * N) f64) :=
  there ← tget assignment row.1;
  if home =? there then
    if node <? row.1 then
      self_weight ← tupd st.1 home (fun t => accumulate_saturating t row.2);
      Some (self_weight, st.2)
    else Some st
  else if node <? row.1 then Some (st.1, add_weight row.2 (N.min home there, N.max home there) st.2)
  else Some st.

Definition collapse_node (g : WorkGraph) (assignment : list N) (st : list f64 * gmap (N * N) f64) (node : N)
    : option (list f64 * gmap (N * N) f64) :=
  home ← tget assignment node;
  self ← tget (wg_self_weight g) node;
  self_weight ← tupd st.1 home (fun t => accumulate_saturating t self);
  links ← tget (wg_neighbors g) node;
  foldM (collapse_row assignment node home) links (self_weight, st.2).

Definition aggregate (g : WorkGraph) (assignment : list N) (communities : N) : option WorkGraph :=
  '(self_weight, between) ← foldM (collapse_node g assignment) (indices (wg_neighbors g))
    (replicate (N.to_nat communities) 0%float, ∅);
  neighbors ← foldM (fun neighbors row => push_both row.1.1 row.1.2 row.2 neighbors)
    (merge_sort pair_le (map_to_list between)) (replicate (N.to_nat communities) []);
  Some {| wg_neighbors := sort_neighbors neighbors; wg_self_weight := self_weight |}.

(** The levels: one assignment per level, leaves first. *)
Fixpoint ladder (levels fuel : nat) (g : WorkGraph) (expired : N -> bool) (polls : N)
    : option (result (N * list (list N)) Elapsed) :=
  match levels with
  | O => Some (Ok (polls, []))
  | S levels =>
    andThen (one_level fuel g expired polls) (fun '(polls, (assignment, community_count)) =>
    if community_count =? wg_len g then Some (Ok (polls, []))
    else
      g ← aggregate g assignment community_count;
      if community_count =? 1 then Some (Ok (polls, [assignment]))
      else
        andThen (ladder levels fuel g expired polls) (fun '(polls, above) =>
        Some (Ok (polls, assignment :: above))))
  end.
