(* ===== verification/CommunityReport.v ===== *)
(** * The community list ([Context::assemble], [Context::communities] and [src/hash.rs])

    Names, strengths, induced associations and FNV-1a fingerprints of the
    communities of every level, leaves first. *)

From S2P Require Export Communities.

Local Open Scope N_scope.

(** ** FNV-1a *)

(** NUL-terminated, so that field boundaries cannot alias. *)
Definition fold_field (digest : N) (field : name) : N := fnv1a_fold (fnv1a_fold digest field) ["000"%byte].

Definition u64_le (n : N) : bytes := to_le 8 n.

(** Length-prefixed, as the community fingerprints fold a name. *)
Definition fold_name (digest : N) (n : name) : N := fnv1a_fold (fnv1a_fold digest (u64_le (lenN n))) n.

(** ** The report *)

Record CommunityMember := { cm_name : name; cm_strength : f64 }.

Record CommunityAssociation := {
  ca_subject : name; ca_label : name; ca_object : name; ca_weight : f64; ca_count : N
}.

Record Community := {
  co_id : name;
  co_level : N;
  co_parent : option name;
  co_fingerprint : name;
  co_concept_count : N;
  co_members : list CommunityMember;
  co_children : list name;
  co_top_associations : list CommunityAssociation
}.

Record CommunityAnalysis := {
  an_algorithm : name;
  an_concept_count : N;
  an_edge_count : N;
  an_levels : N;
  an_communities : list Community
}.

(** ["L{level}-{index}"]. *)
Definition community_id (level index : N) : name := str "L" ++ decimal_u64 level ++ str "-" ++ decimal_u64 index.

(** [{digest:016x}]. *)
Definition fingerprint_text (digest : N) : name := hex_digits 16 digest [].

(** A leaf's community at every level. *)
Fixpoint per_level_from (previous : list N) (assignments : list (list N)) : option (list (list N)) :=
  match assignments with
  | [] => Some [previous]
  | assignment :: assignments =>
    next ← mapM (tget assignment) previous;
    above ← per_level_from next assignments;
    Some (previous :: above)
  end.

Definition per_level_of (assignments : list (list N)) : option (list (list N)) :=
  match assignments with [] => None | leaf :: above => per_level_from leaf above end.

(** [max + 1], or 0 of nothing. *)
Definition count_at (communities : list N) : N := foldl (fun count c => N.max count (c + 1)) 0 communities.

(** An edge inside a community. *)
Record Induced := { in_edge : EdgeId; in_sum : f64; in_count : N }.

(** The edges both ends of which are in one leaf community, a poll every
    [DEADLINE_STRIDE] edges. *)
Fixpoint induce (expired : N -> bool) (index_of : gmap ConceptId N) (leaf : list N) (edges : list EdgeRecord)
    (edge_index polls : N) (induced : list (list Induced)) : option (result (N * list (list Induced)) Elapsed) :=
  match edges with
  | [] => Some (Ok (polls, induced))
  | edge :: edges =>
    let due := edge_index mod DEADLINE_STRIDE =? 0 in
    if due && expired polls then Some (Err Deadline_exceeded)
    else
      let polls := if due then polls + 1 else polls in
      if e_count edge =? 0 then induce expired index_of leaf edges (edge_index + 1) polls induced
      else
        match index_of !! e_subject edge, index_of !! e_object edge with
        | Some subject, Some object =>
          community ← tget leaf subject;
          there ← tget leaf object;
          if there =? community then
            induced ← tupd induced community
              (fun l => l ++ [{| in_edge := edge_index; in_sum := e_sum edge; in_count := e_count edge |}]);
            induce expired index_of leaf edges (edge_index + 1) polls induced
          else induce expired index_of leaf edges (edge_index + 1) polls induced
        | _, _ => induce expired index_of leaf edges (edge_index + 1) polls induced
        end
  end.

(** A member's magnitude over the induced edges, self-loops once. *)
Definition strength_step (c : Context) (strength : gmap ConceptId f64) (row : Induced) : option (gmap ConceptId f64) :=
  edge ← tget (edges c) (in_edge row);
  let strength := add_weight (PrimFloat.abs (in_sum row)) (e_subject edge) strength in
  Some (if e_subject edge =? e_object edge then strength
        else add_weight (PrimFloat.abs (in_sum row)) (e_object edge) strength).

(** The names of an induced edge: its place in the fingerprint. *)
Record NamedEdge := { ne_row : Induced; ne_subject : name; ne_label : name; ne_object : name }.

Definition named_edge (c : Context) (row : Induced) : option NamedEdge :=
  edge ← tget (edges c) (in_edge row);
  subject ← concept_name c (e_subject edge);
  label ← label_name c (e_label edge);
  object ← concept_name c (e_object edge);
  Some {| ne_row := row; ne_subject := subject; ne_label := label; ne_object := object |}.

Definition named_le (a b : NamedEdge) : Prop :=
  name_lt (ne_subject a) (ne_subject b) \/ (ne_subject a = ne_subject b /\
   (name_lt (ne_label a) (ne_label b) \/ (ne_label a = ne_label b /\ name_le (ne_object a) (ne_object b)))).
#[export] Instance named_le_dec a b : Decision (named_le a b).
Proof. unfold named_le. apply _. Defined.

(** Members strongest first, ties by name. *)
Definition member_le (a b : CommunityMember) : Prop :=
  (total_key (cm_strength b) < total_key (cm_strength a))%Z \/
  (total_key (cm_strength b) = total_key (cm_strength a) /\ name_le (cm_name a) (cm_name b)).
#[export] Instance member_le_dec a b : Decision (member_le a b).
Proof. unfold member_le. apply _. Defined.

(** Induced associations strongest first, ties by edge. *)
Definition top_le (a b : Induced) : Prop :=
  (total_key (PrimFloat.abs (in_sum b)) < total_key (PrimFloat.abs (in_sum a)))%Z \/
  (total_key (PrimFloat.abs (in_sum b)) = total_key (PrimFloat.abs (in_sum a)) /\ in_edge a <= in_edge b).
#[export] Instance top_le_dec a b : Decision (top_le a b).
Proof. unfold top_le. apply _. Defined.

Definition fold_edge (digest : N) (e : NamedEdge) : N :=
  let sum := if (in_sum (ne_row e) =? 0)%float then 0%float else in_sum (ne_row e) in
  let digest := fold_name (fold_name (fold_name digest (ne_subject e)) (ne_label e)) (ne_object e) in
  fnv1a_fold (fnv1a_fold digest (u64_le (f64_to_bits sum))) (u64_le (in_count (ne_row e))).

Definition leaf_digest (names : list name) (named : list NamedEdge) : N :=
  foldl fold_edge (foldl fold_name FNV1A_OFFSET (merge_sort name_le names)) (merge_sort named_le named).

Definition top_association (c : Context) (row : Induced) : option CommunityAssociation :=
  e ← named_edge c row;
  Some {| ca_subject := ne_subject e; ca_label := ne_label e; ca_object := ne_object e;
          ca_weight := (in_sum row / f64_of_N (in_count row))%float; ca_count := in_count row |}.

Definition leaf_member (c : Context) (strength : gmap ConceptId f64) (concept : ConceptId) : option CommunityMember :=
  n ← concept_name c concept;
  Some {| cm_name := n; cm_strength := default 0%float (strength !! concept) |}.

Definition leaf_community (c : Context) (parents : option (list N)) (community : N) (members : list ConceptId)
    (induced : list Induced) : option (N * Community) :=
  strength ← foldM (strength_step c) induced ∅;
  member_list ← mapM (leaf_member c strength) members;
  named ← mapM (named_edge c) induced;
  let digest := leaf_digest (cm_name <$> member_list) named in
  let top := take TOP_ASSOCIATIONS_PER_COMMUNITY
    (merge_sort top_le (filter (fun row => (0 <? PrimFloat.abs (in_sum row))%float = true) induced)) in
  top ← mapM (top_association c) top;
  parent ← match parents with
           | None => Some None
           | Some parents => p ← tget parents community; Some (Some (community_id 1 p))
           end;
  Some (digest,
    {| co_id := community_id 0 community; co_level := 0; co_parent := parent; co_fingerprint := fingerprint_text digest;
       co_concept_count := lenN member_list; co_members := merge_sort member_le member_list; co_children := [];
       co_top_associations := top |}).

(** The leaves, a poll before each. *)
Fixpoint leaves (expired : N -> bool) (c : Context) (parents : option (list N))
    (rows : list (N * (list ConceptId * list Induced))) (polls : N) : option (result (N * list (N * Community)) Elapsed) :=
  match rows with
  | [] => Some (Ok (polls, []))
  | (community, (members, induced)) :: rows =>
    if expired polls then Some (Err Deadline_exceeded)
    else
      leaf ← leaf_community c parents community members induced;
      andThen (leaves expired c parents rows (polls + 1)) (fun '(polls, rest) => Some (Ok (polls, leaf :: rest)))
  end.

(** A community above the leaves. *)
Definition parent_community (level : N) (parents : option (list N)) (fingerprints : list N) (concepts : list N)
    (community : N) (children : list N) : option (N * Community) :=
  digests ← mapM (tget fingerprints) children;
  let digest := foldl (fun digest d => fnv1a_fold digest (u64_le d))
    (fnv1a_fold FNV1A_OFFSET (u64_le (lenN digests))) (sort_ids digests) in
  concept_count ← tget concepts community;
  parent ← match parents with
           | None => Some None
           | Some parents => p ← tget parents community; Some (Some (community_id (level + 1) p))
           end;
  Some (digest,
    {| co_id := community_id level community; co_level := level; co_parent := parent;
       co_fingerprint := fingerprint_text digest; co_concept_count := concept_count; co_members := [];
       co_children := community_id (level - 1) <$> children; co_top_associations := [] |}).

(** Each index [0 .. below) filed under its assignment. *)
Definition file_children (assignment : list N) (below count : N) : option (list (list N)) :=
  foldM (fun children child => a ← tget assignment child; tupd children a (fun l => l ++ [child]))
    (N.of_nat <$> seq 0 (N.to_nat below)) (replicate (N.to_nat count) []).

Definition count_concepts (concept_communities : list N) (count : N) : option (list N) :=
  foldM (fun counts c => tupd counts c (fun n => n + 1)) concept_communities (replicate (N.to_nat count) 0).

(** The levels above the leaves: the assignment into each, and each leaf's
    community there. *)
Fixpoint upper (level : N) (below : list N) (levels : list (list N * list N)) (fingerprints : list N)
    : option (list Community) :=
  match levels with
  | [] => Some []
  | (assignment, here) :: levels =>
    let count := count_at here in
    children ← file_children assignment (count_at below) count;
    concepts ← count_concepts here count;
    let parents := match levels with [] => None | (above, _) :: _ => Some above end in
    rows ← mapM (fun p => parent_community level parents fingerprints concepts p.1 p.2) (zip (indices children) children);
    rest ← upper (level + 1) here levels rows.*1;
    Some (rows.*2 ++ rest)
  end.

(** Leaf members by community, in node order. *)
Definition file_members (nodes : list ConceptId) (leaf : list N) (count : N) : option (list (list ConceptId)) :=
  foldM (fun members p => tupd members p.2 (fun l => l ++ [p.1])) (zip nodes leaf) (replicate (N.to_nat count) []).

Definition assemble (expired : N -> bool) (c : Context) (nodes : list ConceptId) (assignments : list (list N)) (polls : N)
    : option (result (list Community) Elapsed) :=
  per_level ← per_level_of assignments;
  leaf ← head per_level;
  let leaf_count := count_at leaf in
  members ← file_members nodes leaf leaf_count;
  andThen (induce expired (index_nodes nodes) leaf (edges c) 0 polls (replicate (N.to_nat leaf_count) [])) (fun '(polls, induced) =>
  andThen (leaves expired c (head (tail assignments)) (zip (indices members) (zip members induced)) polls) (fun '(_, rows) =>
  above ← upper 1 leaf (zip (tail assignments) (tail per_level)) rows.*1;
  Some (Ok (rows.*2 ++ above)))).

(** ** Detection *)

Definition communities (fuel : nat) (expired : N -> bool) (c : Context) : option (result CommunityAnalysis Elapsed) :=
  andThen (leaf_graph expired c) (fun '(polls, (nodes, graph)) =>
  let edge_count := N.of_nat (sum_list (length <$> wg_neighbors graph)) / 2 in
  if bool_decide (nodes = []) then
    Some (Ok {| an_algorithm := COMMUNITY_ALGORITHM; an_concept_count := 0; an_edge_count := 0; an_levels := 0;
                an_communities := [] |})
  else
    andThen (ladder MAX_LEVELS fuel graph expired polls) (fun '(polls, assignments) =>
    let assignments := if bool_decide (assignments = []) then [indices nodes] else assignments in
    andThen (assemble expired c nodes assignments polls) (fun communities =>
    Some (Ok {| an_algorithm := COMMUNITY_ALGORITHM; an_concept_count := lenN nodes; an_edge_count := edge_count;
                an_levels := lenN assignments; an_communities := communities |})))).
