(* ===== verification/CommunityThm.v ===== *)
(** * One Louvain level

    Whatever the moves do, a level ends in a partition: dense numbers in
    first-member order, every class connected through its own nodes.  The moves
    can only fail to end while the deadline has not passed. *)

From S2P Require Export Communities.

Local Open Scope N_scope.

(** ** Numbering *)

(** A map onto the numbers below its size. *)
Record onto (m : gmap N N) : Prop := {
  onto_lt : forall v i, m !! v = Some i -> i < N.of_nat (size m);
  onto_inj : forall v w i, m !! v = Some i -> m !! w = Some i -> v = w;
  onto_sur : forall i, i < N.of_nat (size m) -> exists v, m !! v = Some i
}.

Lemma onto_insert m v : onto m -> m !! v = None -> onto (<[v := N.of_nat (size m)]> m).
Proof.
  intros [Hlt Hinj Hsur] Hv. assert (Hs : size (<[v := N.of_nat (size m)]> m) = S (size m)) by (by rewrite map_size_insert_None).
  split; rewrite ?Hs.
  - intros w i [[_ <-]|[_ Hw]]%lookup_insert_Some; [lia|]. apply Hlt in Hw. lia.
  - intros w u i Hw Hu. apply lookup_insert_Some in Hw as [[<- <-]|[? Hw]], Hu as [[<- Hi]|[? Hu]]; [done| | |by eapply Hinj].
    + apply Hlt in Hu. lia.
    + apply Hlt in Hw. lia.
  - intros i Hi. destruct (decide (i = N.of_nat (size m))) as [->|Hne].
    + exists v. by rewrite lookup_insert_eq.
    + destruct (Hsur i) as [w Hw]; [lia|]. exists w. rewrite lookup_insert_ne; [done|]. intros ->. congruence.
Qed.

Lemma onto_same (m : gmap N N) v i : m !! v = Some i -> <[v := i]> m = m.
Proof. apply insert_id. Qed.

(** The result reads every value through one final map, which extends the first. *)
Lemma renumber_from_spec l : forall m, onto m ->
  let '(r, m') := renumber_from l m in
  onto m' /\ m ⊆ m' /\ Forall2 (fun v i => m' !! v = Some i) l r /\ (forall v, is_Some (m' !! v) <-> is_Some (m !! v) \/ v ∈ l).
Proof.
  induction l as [|v l IH]; intros m Hm; cbn [renumber_from].
  - split; [done|]. split; [done|]. split; [constructor|]. intros w. rewrite elem_of_nil. naive_solver.
  - set (fresh := default _ (m !! v)).
    assert (Hm1 : onto (<[v := fresh]> m) /\ m ⊆ <[v := fresh]> m).
    { unfold fresh. destruct (m !! v) as [i|] eqn:Hv; cbn [default from_option id].
      - by rewrite onto_same.
      - split; [by apply onto_insert | by apply insert_subseteq]. }
    destruct Hm1 as [Hm1 Hsub]. specialize (IH _ Hm1). destruct (renumber_from l _) as [r m'].
    destruct IH as (Ho & Hs & Hf & Hd). split; [done|]. split; [by etrans|]. split.
    + constructor; [|done]. eapply lookup_weaken; [apply lookup_insert_eq | done].
    + intros w. rewrite Hd, elem_of_cons, lookup_insert_is_Some. destruct (decide (v = w)); naive_solver.
Qed.

(** A dense numbering: the values below the count, each used. *)
Definition dense (l : list N) (k : N) : Prop :=
  (forall c, c ∈ l -> c < k) /\ (forall c, c < k -> c ∈ l).

Lemma renumber_spec l : exists f,
  (renumber l).1 = f <$> l /\ dense (renumber l).1 (renumber l).2 /\ (forall v w, v ∈ l -> w ∈ l -> f v = f w -> v = w).
Proof.
  unfold renumber. pose proof (renumber_from_spec l ∅) as Hs.
  assert (H0 : onto ∅).
  { split; [by intros ? ? ?|by intros ? ? ? ?|intros i Hi; rewrite map_size_empty in Hi; lia]. }
  specialize (Hs H0). destruct (renumber_from l ∅) as [r m]. destruct Hs as ([Hlt Hinj Hsur] & _ & Hf & Hd).
  exists (fun v => default 0 (m !! v)). cbn [fst snd]. split; [|split].
  - clear -Hf. induction Hf as [|v i l r Hv Hf IH]; [done|]. rewrite fmap_cons, Hv. cbn. by f_equal.
  - assert (Hin : forall c, c ∈ r <-> exists v, v ∈ l /\ m !! v = Some c).
    { clear -Hf. induction Hf as [|v i l r Hv Hf IH]; intros c; [set_solver|]. setoid_rewrite elem_of_cons. rewrite IH. naive_solver. }
    split; intros c Hc.
    + apply Hin in Hc as (v & _ & Hv). by eapply Hlt.
    + destruct (Hsur c Hc) as [v Hv]. apply Hin. exists v. split; [|done].
      destruct (proj1 (Hd v)) as [[? Hx]|Hx]; [by eexists|by rewrite lookup_empty in Hx|done].
  - intros v w Hv Hw He. destruct (proj2 (Hd v) (or_intror Hv)) as [i Hi]. destruct (proj2 (Hd w) (or_intror Hw)) as [j Hj].
    rewrite Hi, Hj in He. cbn in He. subst j. by eapply Hinj.
Qed.

(** ** Working graphs *)

Definition adj (g : WorkGraph) (i j : N) : Prop :=
  exists links w, tget (wg_neighbors g) i = Some links /\ (j, w) ∈ links.

Record graph_ok (g : WorkGraph) : Prop := {
  gk_self : lenN (wg_self_weight g) = wg_len g;
  gk_range : forall i j, adj g i j -> j < wg_len g;
  gk_sym : forall i j, adj g i j -> adj g j i
}.

(** Two nodes of one class, joined through nodes of the class. *)
Definition inside (g : WorkGraph) (a : list N) (c x y : N) : Prop :=
  adj g x y /\ tget a x = Some c /\ tget a y = Some c.

(** A partition of the nodes into connected classes. *)
Record level_ok (g : WorkGraph) (a : list N) (k : N) : Prop := {
  lv_length : lenN a = wg_len g;
  lv_dense : dense a k;
  lv_connected : forall x y c, tget a x = Some c -> tget a y = Some c -> rtc (inside g a c) x y
}.

Lemma adj_lt g i j : adj g i j -> i < wg_len g.
Proof. intros (links & w & Hi & _). by eapply tget_Some_lt. Qed.

(** ** The component search *)

Section split.
Context (g : WorkGraph) (Hg : graph_ok g) (a : list N) (Hlen : lenN a = wg_len g).

Notation marks := (list (option N)).

Definition together (x y : N) : Prop := adj g x y /\ tget a x = tget a y.

Definition marked (comp : marks) (x id : N) : Prop := tget comp x = Some (Some id).

(** Marks only appear. *)
Definition spreads (comp comp' : marks) : Prop :=
  lenN comp' = lenN comp /\ forall x id, marked comp x id -> marked comp' x id.

Definition unmarked (comp : marks) : nat := length (filter (fun m => m = None) comp).

Lemma mark_one (comp comp' : marks) x id : tget comp x = Some None -> tupd comp x (fun _ => Some id) = Some comp' ->
  spreads comp comp' /\ marked comp' x id /\ S (unmarked comp') = unmarked comp /\
  (forall y i, marked comp' y i -> marked comp y i \/ (y = x /\ i = id)).
Proof using.
  clear Hg Hlen. intros Hx Hu. pose proof (tupd_get _ _ _ _ x Hu) as Hxx. rewrite decide_True, Hx in Hxx by done.
  split; [|split; [done|split]].
  - split; [by eapply tupd_lenN|]. intros y i Hy. unfold marked in *. rewrite (tupd_get _ _ _ _ y Hu).
    destruct (decide (y = x)) as [->|]; [congruence | done].
  - apply tupd_Some in Hu as (m & Hm & ->). rewrite Hx in Hm. injection Hm as <-. rewrite tget_lookup in Hx.
    clear -Hx. unfold unmarked. revert Hx. generalize (N.to_nat x). intros n. revert n.
    induction comp as [|m comp IH]; intros [|n] Hn; try done; cbn in Hn.
    + injection Hn as ->. change (<[0%nat := Some id]> (None :: comp)) with (Some id :: comp). by rewrite !filter_cons.
    + change (<[S n := Some id]> (m :: comp)) with (m :: <[n := Some id]> comp). rewrite !filter_cons. specialize (IH n Hn). destruct (decide (m = None)); cbn; lia.
  - intros y i Hy. unfold marked in *. rewrite (tupd_get _ _ _ _ y Hu) in Hy.
    destruct (decide (y = x)) as [->|]; [|by left]. rewrite Hx in Hy. cbn in Hy. right. split; [done | congruence].
Qed.

Lemma reach_neighbors_spec home id links : forall comp frontier,
  lenN comp = lenN a -> (forall j w, (j, w) ∈ links -> j < lenN a) ->
  exists comp' pushed, reach_neighbors a home id links (comp, frontier) = Some (comp', pushed ++ frontier) /\
    spreads comp comp' /\ (unmarked comp' + length pushed = unmarked comp)%nat /\
    (forall y, y ∈ pushed -> marked comp' y id /\ tget a y = Some home /\ exists w, (y, w) ∈ links) /\
    (forall y i, marked comp' y i -> marked comp y i \/ (y ∈ pushed /\ i = id)) /\
    (forall j w, (j, w) ∈ links -> tget a j = Some home -> exists i, marked comp' j i).
Proof using.
  clear Hg Hlen. induction links as [|[j w] links IH]; intros comp frontier Hc Hr; cbn [reach_neighbors].
  - exists comp, []. split; [done|]. split; [by split|]. split; [simpl; lia|]. split; [by intros y ?%not_elem_of_nil|].
    split; [by left|]. by intros j w ?%not_elem_of_nil.
  - assert (Hj : j < lenN a) by (apply (Hr j w); by left).
    destruct (tget_lt a j Hj) as [there Ht]. destruct (tget_lt comp j) as [mark Hm]; [by rewrite Hc|].
    rewrite Ht. cbn [mbind option_bind fst snd]. rewrite Hm. cbn [mbind option_bind].
    assert (Hr' : forall j w, (j, w) ∈ links -> j < lenN a) by (intros; eapply Hr; by right).
    destruct (N.eqb_spec there home) as [->|Hne]; cbn [andb].
    2: { destruct (IH comp frontier Hc Hr') as (comp' & pushed & He & Hgr & Hu & Hp & Hn & Hall).
         exists comp', pushed. split; [done|]. split; [done|]. split; [done|]. split.
         { intros y Hy. destruct (Hp y Hy) as (? & ? & w' & ?). split; [done|]. split; [done|]. exists w'. by right. }
         split; [done|]. intros j' w' [[= -> ->]|Hin]%elem_of_cons Hhome; [congruence | by eapply Hall]. }
    case_bool_decide as Hmark.
    + subst mark. destruct (tupd_total comp j (fun _ => Some id)) as [comp1 Hu1]; [by rewrite Hc|]. rewrite Hu1. cbn [mbind option_bind].
      destruct (mark_one _ _ _ _ Hm Hu1) as (Hg1 & Hj1 & Hun1 & Hnew1).
      destruct (IH comp1 (j :: frontier)) as (comp' & pushed & He & Hgr & Hu & Hp & Hn & Hall); [by rewrite (proj1 Hg1)|done|].
      exists comp', (pushed ++ [j]). rewrite <- app_assoc. split; [done|]. split.
      { split; [by rewrite (proj1 Hgr), (proj1 Hg1)|]. intros x i Hx. by apply Hgr, Hg1. }
      split; [rewrite length_app; simpl; lia|]. split.
      { intros y [Hy|Hy]%elem_of_app.
        - destruct (Hp y Hy) as (? & ? & w' & ?). split; [done|]. split; [done|]. exists w'. by right.
        - apply list_elem_of_singleton in Hy as ->. split; [by apply Hgr|]. split; [done|]. exists w. by left. }
      split.
      { intros y i [Hy|[Hy ->]]%Hn; [|right; split; [set_solver | done]].
        apply Hnew1 in Hy as [Hy|[-> ->]]; [by left | right; split; [set_solver | done]]. }
      intros j' w' [[= -> ->]|Hin]%elem_of_cons Hhome; [exists id; by apply Hgr | by eapply Hall].
    + destruct (IH comp frontier Hc Hr') as (comp' & pushed & He & Hgr & Hu & Hp & Hn & Hall).
      exists comp', pushed. split; [done|]. split; [done|]. split; [done|]. split.
      { intros y Hy. destruct (Hp y Hy) as (? & ? & w' & ?). split; [done|]. split; [done|]. exists w'. by right. }
      split; [done|]. intros j' w' [[= -> ->]|Hin]%elem_of_cons Hhome; [|by eapply Hall].
      destruct mark as [i|]; [exists i; by apply Hgr | done].
Qed.
Lemma marked_fun comp x i j : marked comp x i -> marked comp x j -> i = j.
Proof using. unfold marked. congruence. Qed.

Lemma together_sym x y : together x y -> together y x.
Proof using Hg. intros [Ha He]. split; [by apply (gk_sym _ Hg) | done]. Qed.

(** The classes searched so far are whole. *)
Definition closed (comp : marks) (i : N) : Prop := forall y z, marked comp y i -> together y z -> marked comp z i.

(** The search under way, from one start. *)
Record search (start id : N) (comp : marks) (frontier : list N) : Prop := {
  se_length : lenN comp = lenN a;
  se_frontier : forall y, y ∈ frontier -> marked comp y id;
  se_reached : forall y, marked comp y id -> rtc together start y;
  se_done : forall y z, marked comp y id -> y ∉ frontier -> together y z -> marked comp z id;
  se_others : forall i, i <> id -> closed comp i
}.

Lemma search_step start id comp node frontier : search start id comp (node :: frontier) ->
  exists links home comp' pushed, tget (wg_neighbors g) node = Some links /\ tget a node = Some home /\
    reach_neighbors a home id links (comp, frontier) = Some (comp', pushed ++ frontier) /\
    search start id comp' (pushed ++ frontier) /\ spreads comp comp' /\
    (unmarked comp' + length pushed = unmarked comp)%nat /\ (forall y i, marked comp' y i -> marked comp y i \/ i = id).
Proof using Hg Hlen.
  intros [Hl Hf Hr Hd Ho]. assert (Hnode : marked comp node id) by (apply Hf; by left).
  assert (Hlt : node < lenN a) by (rewrite <- Hl; unfold marked in Hnode; by eapply tget_Some_lt).
  destruct (tget_lt a node Hlt) as [home Hh]. destruct (tget_lt (wg_neighbors g) node) as [links Hls]; [unfold wg_len in Hlen; lia|].
  destruct (reach_neighbors_spec home id links comp frontier Hl) as (comp' & pushed & He & Hgr & Hu & Hp & Hn & Hall).
  { intros j w Hj. rewrite Hlen. apply (gk_range _ Hg node). by exists links, w. }
  exists links, home, comp', pushed. split; [done|]. split; [done|]. split; [done|]. split; [|split; [done|]; split; [done|naive_solver]].
  assert (Hstep : forall y, y ∈ pushed -> together node y).
  { intros y Hy. destruct (Hp y Hy) as (_ & Hhome & w & Hw). split; [by exists links, w | congruence]. }
  assert (Hclosed : forall i, i <> id -> closed comp' i).
  { intros i Hi y z Hy Hyz. destruct (Hn y i Hy) as [Hy'|[_ ->]]; [|done]. by apply Hgr, (Ho i Hi y z). }
  split.
  - by rewrite (proj1 Hgr).
  - intros y [Hy|Hy]%elem_of_app; [by apply Hp | apply Hgr, Hf; by right].
  - intros y Hy. destruct (Hn y id Hy) as [Hy'|[Hy' _]]; [by apply Hr|].
    eapply rtc_r; [by apply Hr | by apply Hstep].
  - intros y z Hy Hny Hyz. destruct (decide (y = node)) as [->|Hne].
    + destruct Hyz as [Hadj Heq]. pose proof Hadj as (links' & w & Hls' & Hw). rewrite Hls in Hls'. injection Hls' as <-.
      destruct (Hall z w Hw) as [i Hi]; [congruence|]. destruct (decide (i = id)) as [->|Hi']; [done|]. exfalso.
      apply Hi'. apply (marked_fun comp' node); [|by apply Hgr]. apply (Hclosed i Hi' z); [done|].
      by apply together_sym.
    + destruct (Hn y id Hy) as [Hy'|[Hy' _]]; [|by destruct Hny; apply elem_of_app; left].
      apply Hgr, (Hd y z); [done| |done]. rewrite elem_of_cons. intros [->|Hin]; [done|]. apply Hny, elem_of_app. by right.
  - done.
Qed.

Lemma reach_component_spec start id fuel : forall comp frontier, search start id comp frontier ->
  (length frontier + unmarked comp <= fuel)%nat ->
  exists comp', reach_component fuel g a id (comp, frontier) = Some comp' /\ search start id comp' [] /\ spreads comp comp' /\
    (unmarked comp' <= unmarked comp)%nat /\ (forall y i, marked comp' y i -> marked comp y i \/ i = id).
Proof using Hg Hlen.
  induction fuel as [|fuel IH]; intros comp [|node frontier] Hs Hf; cbn [reach_component fst snd].
  - exists comp. split; [done|]. split; [done|]. split; [done|]. split; [lia | auto].
  - simpl in Hf. lia.
  - exists comp. split; [done|]. split; [done|]. split; [done|]. split; [lia | auto].
  - destruct (search_step _ _ _ _ _ Hs) as (links & home & comp1 & pushed & -> & -> & He & Hs1 & Hg1 & Hu1 & Hn1).
    cbn [mbind option_bind]. rewrite He. cbn [mbind option_bind].
    destruct (IH comp1 (pushed ++ frontier) Hs1) as (comp' & Hr & Hs' & Hg' & Hu' & Hn').
    { rewrite length_app. simpl in Hf. lia. }
    exists comp'. split; [done|]. split; [done|]. split.
    { split; [by rewrite (proj1 Hg'), (proj1 Hg1)|]. intros x i Hx. by apply Hg', Hg1. }
    split; [lia|]. intros y i [Hy| ->]%Hn'; [by apply Hn1 | by right].
Qed.

(** Whole classes, each joined, numbered below [next]. *)
Record classes (comp : marks) (next : N) : Prop := {
  cl_length : lenN comp = lenN a;
  cl_closed : forall i, closed comp i;
  cl_joined : forall x y i, marked comp x i -> marked comp y i -> rtc together x y;
  cl_below : forall x i, marked comp x i -> i < next
}.

Lemma unmarked_le (comp : marks) : (unmarked comp <= length comp)%nat.
Proof using. unfold unmarked. apply length_filter. Qed.

Lemma split_from_spec starts : forall next comp, classes comp next -> (forall x, x ∈ starts -> x < lenN a) ->
  exists comp' next', split_from g a starts next comp = Some comp' /\ classes comp' next' /\ spreads comp comp' /\
    (forall x, x ∈ starts -> exists i, marked comp' x i).
Proof using Hg Hlen.
  induction starts as [|start starts IH]; intros next comp [Hl Hc Hj Hb] Hst; cbn [split_from].
  - exists comp, next. split; [done|]. split; [done|]. split; [done|]. by intros x ?%not_elem_of_nil.
  - assert (Hlt : start < lenN a) by (apply Hst; by left).
    assert (Hst' : forall x, x ∈ starts -> x < lenN a) by (intros x Hx; apply Hst; by right).
    destruct (tget_lt comp start) as [[i|] Hm]; [by rewrite Hl| |]; rewrite Hm; cbn [mbind option_bind].
    + destruct (IH next comp ltac:(done) Hst') as (comp' & next' & He & Hcl & Hgr & Hall).
      exists comp', next'. split; [done|]. split; [done|]. split; [done|].
      intros x [->|Hx]%elem_of_cons; [exists i; by apply Hgr | by apply Hall].
    + destruct (tupd_total comp start (fun _ => Some next)) as [comp1 Hu1]; [by rewrite Hl|]. rewrite Hu1. cbn [mbind option_bind].
      destruct (mark_one _ _ _ _ Hm Hu1) as (Hg1 & Hs1 & Hun1 & Hn1).
      assert (Hfresh : forall y, marked comp1 y next -> y = start).
      { intros y [Hy|[-> _]]%Hn1; [apply Hb in Hy; lia | done]. }
      destruct (reach_component_spec start next (length a) comp1 [start]) as (comp2 & Hr & [Hl2 _ Hr2 Hd2 Ho2] & Hg2 & Hu2 & Hn2).
      { split.
        - by rewrite (proj1 Hg1).
        - by intros y ->%list_elem_of_singleton.
        - intros y ->%Hfresh. apply rtc_refl.
        - intros y z ->%Hfresh Hni. destruct Hni. by left.
        - intros i Hi y z Hy Hyz. apply Hn1 in Hy as [Hy|[_ ->]]; [|done]. apply Hg1. by apply (Hc i y z). }
      { pose proof (unmarked_le comp). unfold lenN in Hl. simpl. lia. }
      rewrite Hr. cbn [mbind option_bind].
      destruct (IH (next + 1) comp2) as (comp' & next' & He & Hcl & Hgr & Hall); [|done|].
      { split; [done| | |].
        - intros i y z Hy Hyz. destruct (decide (i = next)) as [->|Hi]; [|by apply (Ho2 i Hi y z)].
          apply (Hd2 y z); [done | by apply not_elem_of_nil | done].
        - intros x y i Hx Hy. destruct (decide (i = next)) as [->|Hi].
          + etrans; [|by apply Hr2]. assert (Hsym : Symmetric (rtc together)).
            { apply rtc_equivalence. intros u v. apply together_sym. }
            symmetry. by apply Hr2.
          + assert (Hback : forall z, marked comp2 z i -> marked comp z i).
            { intros z [Hz|Hz]%Hn2; [|done]. apply Hn1 in Hz as [Hz|[_ Hz]]; [done | by subst i]. }
            by apply (Hj x y i); apply Hback.
        - intros x i [Hx| ->]%Hn2; [|lia]. apply Hn1 in Hx as [Hx|[_ ->]]; [apply Hb in Hx; lia | lia]. }
      exists comp', next'. split; [done|]. split; [done|]. split.
      { split; [by rewrite (proj1 Hgr), (proj1 Hg2), (proj1 Hg1)|]. intros x i Hx. by apply Hgr, Hg2, Hg1. }
      intros x [->|Hx]%elem_of_cons; [exists next; by apply Hgr, Hg2 | by apply Hall].
Qed.
End split.

(** The split of any assignment is a partition into connected classes. *)
Lemma split_components_level g a : graph_ok g -> lenN a = wg_len g ->
  exists b k, split_components g a = Some (b, k) /\ level_ok g b k.
Proof.
  intros Hg Hlen. unfold split_components.
  destruct (split_from_spec g Hg a Hlen (indices a) 0 (replicate (length a) None)) as (comp & next & He & [Hl Hc Hj Hb] & _ & Hall).
  { assert (Hno : forall x i, ~ marked (replicate (length a) None) x i).
    { intros x i Hx. unfold marked in Hx. rewrite tget_lookup in Hx. by apply lookup_replicate in Hx as [? _]. }
    split; [unfold lenN; by rewrite length_replicate | |by intros x y i ?%Hno|by intros x i ?%Hno].
    by intros i y z ?%Hno. }
  { intros x Hx. by apply elem_of_indices. }
  rewrite He. cbn [mbind option_bind].
  assert (Hparts : exists parts, mapM id comp = Some parts /\ lenN parts = lenN a /\
    forall x i, tget parts x = Some i <-> marked comp x i).
  { destruct (mapM id comp) as [parts|] eqn:Hm.
    - exists parts. split; [done|]. apply mapM_Some in Hm. split.
      + rewrite <- Hl. symmetry. by eapply Forall2_lenN.
      + intros x i. unfold marked. rewrite !tget_lookup. split; intros Hx.
        * destruct (Forall2_lookup_r _ _ _ _ _ Hm Hx) as (m & Hcm & Hmi). by rewrite Hcm, <- Hmi.
        * destruct (Forall2_lookup_l _ _ _ _ _ Hm Hx) as (j & Hpj & Hmj). cbn in Hmj. congruence.
    - exfalso. apply eq_None_not_Some in Hm. apply Hm, mapM_is_Some_2, Forall_forall.
      intros m [x Hx]%list_elem_of_lookup. destruct (Hall (N.of_nat x)) as [i Hi].
      { apply elem_of_indices. rewrite <- Hl. apply lookup_lt_Some in Hx. unfold lenN. lia. }
      unfold marked in Hi. rewrite tget_lookup, Nat2N.id, Hx in Hi. injection Hi as ->. by eexists. }
  destruct Hparts as (parts & -> & Hpl & Hp). cbn [mbind option_bind].
  destruct (renumber_spec parts) as (f & Hf & Hd & Hinj). destruct (renumber parts) as [b k]. cbn [fst snd] in *.
  exists b, k. split; [done|]. assert (Hb' : forall x, tget b x = f <$> tget parts x) by (intros x; by rewrite Hf, tget_fmap).
  split; [|done|].
  - rewrite Hf. rewrite <- Hlen, <- Hpl. unfold lenN. by rewrite length_fmap.
  - intros x y c Hx Hy. rewrite Hb' in Hx, Hy.
    destruct (tget parts x) as [i|] eqn:Hxi; [|done]. destruct (tget parts y) as [j|] eqn:Hyj; [|done].
    cbn in Hx, Hy. injection Hx as Hx. injection Hy as Hy.
    assert (i = j) as <-.
    { apply Hinj; [|by rewrite tget_lookup in Hyj; eapply list_elem_of_lookup_2| congruence].
      rewrite tget_lookup in Hxi. by eapply list_elem_of_lookup_2. }
    apply Hp in Hxi, Hyj. pose proof (Hj x y i Hxi Hyj) as Hr. clear Hyj Hy. revert Hxi Hx.
    induction Hr as [x|x z y Hxz Hzy IH]; intros Hxi Hx; [apply rtc_refl|].
    assert (Hzi : marked comp z i) by (by apply (Hc i x z)).
    eapply rtc_l; [|by apply IH]. split; [apply Hxz|]. rewrite !Hb'.
    apply Hp in Hxi, Hzi. rewrite Hxi, Hzi. cbn. by rewrite Hx.
Qed.

(** ** The moves *)

Section moves.
Context (g : WorkGraph) (Hg : graph_ok g) (expired : N -> bool).

Record moving_ok (st : Moving) : Prop := {
  mo_length : lenN (mv_community st) = wg_len g;
  mo_range : forall x c, tget (mv_community st) x = Some c -> c < wg_len g;
  mo_total : lenN (mv_total st) = wg_len g
}.

Lemma tupd_range (l l' : list N) i v n : tupd l i (fun _ => v) = Some l' -> v < n ->
  (forall x c, tget l x = Some c -> c < n) -> forall x c, tget l' x = Some c -> c < n.
Proof using.
  intros Hu Hv Hr x c Hx. rewrite (tupd_get _ _ _ _ x Hu) in Hx. destruct (decide (x = i)) as [->|]; [|by eapply Hr].
  destruct (tget l i); cbn in Hx; [by injection Hx as <- | done].
Qed.

Lemma adjacent_from_spec community links : forall adjacent,
  (forall j w, (j, w) ∈ links -> exists c, tget community j = Some c /\ c < wg_len g) ->
  (forall c x, adjacent !! c = Some x -> c < wg_len g) ->
  exists adjacent', adjacent_from community links adjacent = Some adjacent' /\
    (forall c x, adjacent' !! c = Some x -> c < wg_len g) /\ forall c, is_Some (adjacent !! c) -> is_Some (adjacent' !! c).
Proof using.
  induction links as [|[j w] links IH]; intros adjacent Hl Ha; cbn [adjacent_from]; [by exists adjacent|].
  destruct (Hl j w) as (c & Hc & Hlt); [by left|]. rewrite Hc. cbn [mbind option_bind].
  destruct (IH (add_weight w c adjacent)) as (adj' & He & Hr & Hk).
  { intros; eapply Hl; by right. }
  { intros c' x Hx. unfold add_weight in Hx. apply lookup_insert_Some in Hx as [[<- _]|[_ Hx]]; [done | by eapply Ha]. }
  exists adj'. split; [done|]. split; [done|]. intros c' Hs. apply Hk. unfold add_weight. apply lookup_insert_is_Some.
  destruct (decide (c = c')); auto.
Qed.

Lemma best_move_spec m s total own rows : forall best, lenN total = wg_len g ->
  (forall p, p ∈ rows -> p.1 < wg_len g) -> best.1 < wg_len g ->
  exists best', best_move m s total own rows best = Some best' /\ best'.1 < wg_len g.
Proof using.
  induction rows as [|[t w] rows IH]; intros best Ht Hr Hb; cbn [best_move]; [by exists best|].
  assert (Hr' : forall p, p ∈ rows -> p.1 < wg_len g) by (intros p Hp; apply Hr; by right).
  destruct (t =? own); [by apply IH|]. assert (Hlt : t < wg_len g) by (apply (Hr (t, w)); by left).
  unfold gain. destruct (tget_lt total t) as [x Hx]; [by rewrite Ht|]. rewrite Hx. cbn [mbind option_bind].
  apply IH; [done|done|]. by destruct (_ <? _)%float.
Qed.

Lemma move_node_spec m strengths node st : moving_ok st -> lenN strengths = wg_len g -> node < wg_len g ->
  exists st', move_node g m strengths node st = Some st' /\ moving_ok st' /\
    mv_visits st' = mv_visits st /\ mv_polls st' = mv_polls st.
Proof using Hg.
  intros [Hl Hr Ht] Hs Hn. unfold move_node.
  destruct (tget_lt (mv_community st) node) as [own Ho]; [by rewrite Hl|]. rewrite Ho. cbn [mbind option_bind].
  destruct (tget_lt (wg_neighbors g) node Hn) as [links Hls]. rewrite Hls. cbn [mbind option_bind].
  assert (Hown : own < wg_len g) by (by eapply Hr).
  destruct (adjacent_from_spec (mv_community st) links {[own := 0%float]}) as (adj' & Ha & Har & Hak).
  { intros j w Hj. assert (Hlt : j < wg_len g) by (apply (gk_range _ Hg node); by exists links, w).
    destruct (tget_lt (mv_community st) j) as [c Hc]; [by rewrite Hl|]. exists c. split; [done | by eapply Hr]. }
  { by intros c x [<- _]%lookup_singleton_Some. }
  rewrite Ha. cbn [mbind option_bind]. destruct (tget_lt strengths node) as [s Hsn]; [by rewrite Hs|]. rewrite Hsn. cbn [mbind option_bind].
  destruct (tupd_total (mv_total st) own (fun t => (t - s)%float)) as [lifted Hli]; [by rewrite Ht|]. rewrite Hli. cbn [mbind option_bind].
  assert (Hll : lenN lifted = wg_len g) by (by rewrite (tupd_lenN _ _ _ _ Hli)).
  destruct (Hak own) as [link Hlink]; [rewrite lookup_singleton_eq; by eexists|]. rewrite Hlink. cbn [mbind option_bind].
  unfold gain at 1. destruct (tget_lt lifted own) as [tot Htot]; [by rewrite Hll|]. rewrite Htot. cbn [mbind option_bind].
  destruct (best_move_spec m s lifted own (merge_sort node_le (map_to_list adj')) (own, (link - s * tot / (2 * m))%float)) as (best & Hb & Hbl);
    [done| |done|].
  { intros [c x] Hp. rewrite merge_sort_Permutation in Hp. apply elem_of_map_to_list in Hp. by eapply Har. }
  rewrite Hb. cbn [mbind option_bind].
  destruct (tupd_total (mv_community st) node (fun _ => best.1)) as [com Hcom]; [by rewrite Hl|]. rewrite Hcom. cbn [mbind option_bind].
  destruct (tupd_total lifted best.1 (fun t => (t + s)%float)) as [tot' Htot']; [by rewrite Hll|]. rewrite Htot'. cbn [mbind option_bind].
  eexists. split; [reflexivity|]. split; [|done]. split; cbn.
  - by rewrite (tupd_lenN _ _ _ _ Hcom).
  - by eapply (tupd_range _ _ _ _ _ Hcom).
  - by rewrite (tupd_lenN _ _ _ _ Htot').
Qed.

(** The polls so far: one every [DEADLINE_STRIDE] visits, none of them late. *)
Definition polled (p0 : N) (st : Moving) : Prop :=
  mv_polls st = p0 + mv_visits st / DEADLINE_STRIDE /\ forall k, p0 <= k < mv_polls st -> expired k = false.

Lemma due_div visits : (visits + 1) / DEADLINE_STRIDE =
  visits / DEADLINE_STRIDE + (if (visits + 1) mod DEADLINE_STRIDE =? 0 then 1 else 0).
Proof using.
  unfold DEADLINE_STRIDE. pose proof (N.div_mod visits 1024 ltac:(done)) as H. pose proof (N.mod_lt visits 1024 ltac:(done)) as H0.
  pose proof (N.div_mod (visits + 1) 1024 ltac:(done)) as H1. pose proof (N.mod_lt (visits + 1) 1024 ltac:(done)) as H2.
  revert H H0 H1 H2. generalize (visits / 1024) (visits mod 1024) ((visits + 1) / 1024) ((visits + 1) mod 1024).
  intros q r q' r' ? ? ? ?. destruct (N.eqb_spec r' 0); lia.
Qed.

Lemma move_pass_spec p0 m strengths nodes : lenN strengths = wg_len g -> forall st, moving_ok st -> polled p0 st ->
  (forall x, x ∈ nodes -> x < wg_len g) ->
  (move_pass g expired m strengths nodes st = Some (Err Deadline_exceeded) /\ exists k, expired k = true) \/
  exists st', move_pass g expired m strengths nodes st = Some (Ok st') /\ moving_ok st' /\ polled p0 st' /\
    mv_visits st' = mv_visits st + lenN nodes.
Proof using Hg.
  intros Hs. induction nodes as [|node nodes IH]; intros st Hok [Hp Hx] Hn; cbn [move_pass].
  - right. exists st. split; [done|]. split; [done|]. split; [done|]. unfold lenN. simpl. lia.
  - pose proof (due_div (mv_visits st)) as Hdiv. set (due := _ =? 0) in *.
    destruct (due && expired (mv_polls st)) eqn:Hdue.
    { left. split; [done|]. apply andb_true_iff in Hdue as [_ ?]. by exists (mv_polls st). }
    set (st1 := {| mv_community := _; mv_total := _; mv_moved := _; mv_visits := _; mv_polls := _ |}).
    destruct (move_node_spec m strengths node st1) as (st2 & He & Hok2 & Hv2 & Hp2); [by destruct Hok|done|apply Hn; by left|].
    rewrite He. cbn [mbind option_bind]. destruct (IH st2 Hok2) as [Herr|(st' & Hr & Hok' & Hpol & Hv)].
    { unfold polled. rewrite Hv2, Hp2. subst st1. cbn [mv_polls mv_visits]. rewrite Hdiv. destruct due; cbn [andb] in Hdue.
      - split; [lia|]. intros k Hk. destruct (decide (k = mv_polls st)) as [->|]; [done | apply Hx; lia].
      - split; [lia | done]. }
    { intros x Hin. apply Hn. by right. }
    { by left. }
    right. exists st'. split; [done|]. split; [done|]. split; [done|]. rewrite Hv, Hv2. subst st1. cbn. unfold lenN. simpl. lia.
Qed.

Lemma move_passes_spec p0 m strengths : lenN strengths = wg_len g -> forall fuel st, moving_ok st -> polled p0 st ->
  (move_passes fuel g expired m strengths st = None /\
    exists polls, (forall k, p0 <= k < polls -> expired k = false) /\
      polls = p0 + (mv_visits st + N.of_nat fuel * wg_len g) / DEADLINE_STRIDE) \/
  (move_passes fuel g expired m strengths st = Some (Err Deadline_exceeded) /\ exists k, expired k = true) \/
  exists st', move_passes fuel g expired m strengths st = Some (Ok st') /\ moving_ok st' /\ polled p0 st'.
Proof using Hg.
  intros Hs. induction fuel as [|fuel IH]; intros st Hok Hp; cbn [move_passes].
  - left. split; [done|]. exists (mv_polls st). destruct Hp as [Hp Hx]. split; [done|]. rewrite Hp. f_equal. f_equal. lia.
  - set (st0 := {| mv_community := _; mv_total := _; mv_moved := false; mv_visits := _; mv_polls := _ |}).
    destruct (move_pass_spec p0 m strengths (indices (wg_neighbors g)) Hs st0) as [[-> Hk]|(st1 & -> & Hok1 & Hp1 & Hv1)];
      [by destruct Hok|done|by intros x ?%elem_of_indices|right; by left|].
    unfold andThen at 1 2 3. cbn [mbind option_bind]. destruct (mv_moved st1); [|right; right; by exists st1].
    destruct (IH st1 Hok1 Hp1) as [[-> (polls & Hx & He)]|[[-> Hk]|(st' & -> & ? & ?)]]; [left|right; by left|right; right; by exists st'].
    split; [done|]. exists polls. split; [done|]. rewrite He, Hv1. subst st0. cbn [mv_visits]. f_equal. f_equal.
    assert (Hl : lenN (indices (wg_neighbors g)) = wg_len g) by (unfold lenN, wg_len; by rewrite indices_length). rewrite Hl. lia.
Qed.
End moves.

(** ** One level *)

Lemma total_weight_total g : graph_ok g -> is_Some (total_weight g).
Proof.
  intros Hg. unfold total_weight.
  assert (Hi : forall p, p ∈ zip (indices (wg_neighbors g)) (wg_neighbors g) -> p.1 < wg_len g).
  { intros [i links] Hp. apply elem_of_indexed in Hp. by eapply tget_Some_lt. }
  revert Hi. generalize (zip (indices (wg_neighbors g)) (wg_neighbors g)) 0%float.
  intros l. induction l as [|[i links] l IH]; intros t Hi; cbn [total_weight_from]; [by eexists|].
  destruct (tget_lt (wg_self_weight g) i) as [s Hs]; [rewrite (gk_self _ Hg); apply (Hi (i, links)); by left|].
  rewrite Hs. cbn [mbind option_bind]. apply IH. intros p Hp. apply Hi. by right.
Qed.

Lemma strengths_total g : graph_ok g -> exists l, mapM (strength g) (indices (wg_neighbors g)) = Some l /\ lenN l = wg_len g.
Proof.
  intros Hg. destruct (mapM (strength g) (indices (wg_neighbors g))) as [l|] eqn:Hm.
  - exists l. split; [done|]. apply mapM_Some, Forall2_lenN in Hm. rewrite <- Hm. unfold lenN, wg_len. by rewrite indices_length.
  - exfalso. apply eq_None_not_Some in Hm. apply Hm, mapM_is_Some_2, Forall_forall. intros i Hi%elem_of_indices.
    unfold compose, strength. destruct (tget_lt (wg_self_weight g) i) as [s ->]; [by rewrite (gk_self _ Hg)|].
    destruct (tget_lt (wg_neighbors g) i) as [ls ->]; [done|]. by eexists.
Qed.

(** A level runs out of fuel only before the deadline, stops at a poll that
    found it passed, or partitions the nodes into connected classes. *)
Lemma one_level_spec fuel g expired p0 : graph_ok g -> wg_len g <> 0 ->
  (one_level fuel g expired p0 = None /\
    forall K, (forall k, K <= k -> expired k = true) -> N.of_nat fuel < DEADLINE_STRIDE * (K + 1)) \/
  (one_level fuel g expired p0 = Some (Err Deadline_exceeded) /\ exists k, expired k = true) \/
  exists polls a n, one_level fuel g expired p0 = Some (Ok (polls, (a, n))) /\
    ((n = wg_len g /\ a = indices (wg_neighbors g)) \/ level_ok g a n).
Proof.
  intros Hg Hne. unfold one_level. destruct (total_weight_total g Hg) as [m ->]. cbn [mbind option_bind].
  destruct (m =? 0)%float; [right; right; eexists _, _, _; split; [done|]; by left|].
  destruct (strengths_total g Hg) as (strengths & -> & Hsl). cbn [mbind option_bind].
  set (st0 := {| mv_community := _; mv_total := _; mv_moved := true; mv_visits := 0; mv_polls := p0 |}).
  destruct (move_passes_spec g Hg expired p0 m strengths Hsl fuel st0) as [[-> (polls & Hx & Hp)]|[[-> Hk]|(st & -> & Hok & _)]].
  - split; cbn.
    + unfold lenN, wg_len. by rewrite indices_length.
    + intros x c Hx. rewrite tget_lookup in Hx. apply list_elem_of_lookup_2 in Hx. by apply elem_of_indices in Hx.
    + done.
  - unfold polled. cbn. split; [rewrite N.Div0.div_0_l; lia|]. intros k Hk. lia.
  - left. split; [done|]. intros K HK. destruct (N.lt_ge_cases (N.of_nat fuel) (DEADLINE_STRIDE * (K + 1))) as [|Hge]; [done|].
    exfalso. assert (Hbig : K + 1 <= polls - p0).
    { rewrite Hp. cbn [mv_visits st0]. enough (K + 1 <= (0 + N.of_nat fuel * wg_len g) / DEADLINE_STRIDE) by lia.
      apply N.div_le_lower_bound; [done|]. etrans; [exact Hge|]. nia. }
    pose proof (HK (N.max K p0) ltac:(lia)) as He. rewrite Hx in He by lia. done.
  - right. by left.
  - unfold andThen at 1 2. cbn [mbind option_bind].
    destruct (split_components_level g (renumber (mv_community st)).1 Hg) as (b & k & Hb & Hlv).
    { destruct (renumber_spec (mv_community st)) as (f & -> & _). rewrite lenN_fmap. apply (mo_length _ _ Hok). }
    right. right. unfold andThen. cbn [mbind option_bind]. rewrite Hb. cbn [mbind option_bind]. eexists _, b, k. split; [done|]. by right.
Qed.
