(* ===== verification/CommunityLevels.v ===== *)
(** * The levels of community detection

    Aggregation keeps the joins between classes, so the levels compose: at
    every level of the ladder the leaves fall into classes connected through
    their own members, each a union of classes of the level below. *)

From S2P Require Export CommunityReport CommunityThm.

Local Open Scope N_scope.

(** ** Undirected rows *)

Definition has (rows : list (list (N * f64))) (i j : N) : Prop :=
  exists links w, tget rows i = Some links /\ (j, w) ∈ links.

Lemma foldM_ext {A B} (f h : A -> B -> option A) l : (forall a x, x ∈ l -> f a x = h a x) -> forall a, foldM f l a = foldM h l a.
Proof.
  induction l as [|x l IH]; intros Hfh a; [done|]. cbn [foldM]. rewrite Hfh by (by left).
  destruct (h a x); [|done]. cbn [mbind option_bind]. apply IH. intros ? y Hy. apply Hfh. by right.
Qed.

Lemma has_snoc rows rows' a p w i j : tupd rows a (fun l => l ++ [(p, w)]) = Some rows' ->
  has rows' i j <-> has rows i j \/ (i = a /\ j = p).
Proof.
  intros Hu. unfold has. rewrite (tupd_get _ _ _ _ i Hu). destruct (decide (i = a)) as [->|Hne].
  - apply tupd_Some in Hu as (l & Hl & _). rewrite Hl. cbn. split.
    + intros (links & v & [= <-] & [Hj|Hj%list_elem_of_singleton]%elem_of_app); [left; by exists l, v|].
      injection Hj as -> ->. by right.
    + intros [(links & v & [= <-] & Hj)|[_ ->]]; eexists _, _; (split; [done|]); apply elem_of_app; [by left; apply Hj | right; by left].
  - naive_solver.
Qed.

Definition row_count (rows : list (list (N * f64))) : nat := sum_list (length <$> rows).

Lemma row_count_snoc rows rows' a x : tupd rows a (fun l => l ++ [x]) = Some rows' -> row_count rows' = S (row_count rows).
Proof.
  intros (l & Hl & ->)%tupd_Some. rewrite tget_lookup in Hl. revert Hl. generalize (N.to_nat a). intros n. revert n.
  induction rows as [|r rows IH]; intros [|n] Hl; try done; cbn in Hl.
  1: change (<[0%nat:=l ++ [x]]> (r :: rows)) with ((l ++ [x]) :: rows).
  2: change (<[S n:=l ++ [x]]> (r :: rows)) with (r :: <[n:=l ++ [x]]> rows).
  - injection Hl as ->. unfold row_count. cbn [fmap list_fmap sum_list]. rewrite length_app. simpl. lia.
  - specialize (IH n Hl). unfold row_count in *. cbn [fmap list_fmap sum_list]. lia.
Qed.

Lemma push_both_spec a b w rows : a < lenN rows -> b < lenN rows ->
  exists rows', push_both a b w rows = Some rows' /\ lenN rows' = lenN rows /\ row_count rows' = (2 + row_count rows)%nat /\
    forall i j, has rows' i j <-> has rows i j \/ (i = a /\ j = b) \/ (i = b /\ j = a).
Proof.
  intros Ha Hb. unfold push_both. destruct (tupd_total rows a (fun l => l ++ [(b, w)]) Ha) as [rows1 H1]. rewrite H1.
  cbn [mbind option_bind]. pose proof (tupd_lenN _ _ _ _ H1) as Hl1.
  destruct (tupd_total rows1 b (fun l => l ++ [(a, w)])) as [rows2 H2]; [by rewrite Hl1|]. exists rows2. split; [done|].
  split; [by rewrite (tupd_lenN _ _ _ _ H2)|]. split; [by rewrite (row_count_snoc _ _ _ _ H2), (row_count_snoc _ _ _ _ H1)|].
  intros i j. rewrite (has_snoc _ _ _ _ _ _ _ H2), (has_snoc _ _ _ _ _ _ _ H1). tauto.
Qed.

(** A fold of undirected rows, the ends of a row read by [ends]. *)
Definition push_row {B} (ends : B -> N * N) (weight : B -> f64) (rows : list (list (N * f64))) (r : B) :=
  push_both (ends r).1 (ends r).2 (weight r) rows.

Lemma push_rows_spec {B} (ends : B -> N * N) weight l : forall rows,
  (forall r, r ∈ l -> (ends r).1 < lenN rows /\ (ends r).2 < lenN rows) ->
  exists rows', foldM (push_row ends weight) l rows = Some rows' /\ lenN rows' = lenN rows /\
    row_count rows' = (2 * length l + row_count rows)%nat /\
    forall i j, has rows' i j <-> has rows i j \/ exists r, r ∈ l /\ (ends r = (i, j) \/ ends r = (j, i)).
Proof.
  induction l as [|r l IH]; intros rows Hr; cbn [foldM].
  - exists rows. split; [done|]. split; [done|]. split; [done|]. intros i j. set_solver.
  - destruct (Hr r) as [Ha Hb]; [by left|]. destruct (push_both_spec _ _ (weight r) rows Ha Hb) as (rows1 & He & Hl1 & Hc1 & H1).
    change (push_row ends weight rows r) with (push_both (ends r).1 (ends r).2 (weight r) rows). rewrite He. cbn [mbind option_bind].
    destruct (IH rows1) as (rows' & He' & Hl' & Hc' & H'); [intros; rewrite Hl1; apply Hr; by right|].
    exists rows'. split; [done|]. split; [congruence|]. split; [rewrite Hc', Hc1; simpl; lia|].
    intros i j. rewrite H', H1. setoid_rewrite elem_of_cons.
    destruct (ends r) as [a b] eqn:Hab. cbn [fst snd]. split.
    + intros [[H|[[-> ->]|[-> ->]]]|(r' & ? & ?)]; [by left|right; exists r|right; exists r|right; exists r']; tauto.
    + intros [H|(r' & [->|Hin] & Hend)]; [by left; left| |right; by exists r']. rewrite Hab in Hend.
      left. right. naive_solver.
Qed.

Lemma has_sorted rows i j : has (sort_neighbors rows) i j <-> has rows i j.
Proof.
  unfold has, sort_neighbors. rewrite tget_fmap. split.
  - intros (links & w & Hl & Hj). destruct (tget rows i) as [l|]; [|done]. injection Hl as <-.
    rewrite merge_sort_Permutation in Hj. by exists l, w.
  - intros (l & w & -> & Hj). eexists _, w. split; [reflexivity|]. by rewrite merge_sort_Permutation.
Qed.

Lemma has_empty n i j : ~ has (replicate n []) i j.
Proof.
  intros (links & w & Hl & Hj). rewrite tget_lookup in Hl. apply lookup_replicate in Hl as [-> _]. by apply not_elem_of_nil in Hj.
Qed.

Lemma row_count_sorted rows : row_count (sort_neighbors rows) = row_count rows.
Proof.
  unfold row_count, sort_neighbors. rewrite <- list_fmap_compose. f_equal. apply list_fmap_ext. intros _ l _. cbn.
  by rewrite merge_sort_Permutation.
Qed.

(** Undirected rows make a working graph. *)
Lemma rows_graph {B} (ends : B -> N * N) weight l n self : lenN self = N.of_nat n ->
  (forall r, r ∈ l -> (ends r).1 < N.of_nat n /\ (ends r).2 < N.of_nat n) ->
  exists rows, foldM (push_row ends weight) l (replicate n []) = Some rows /\
    let g := {| wg_neighbors := sort_neighbors rows; wg_self_weight := self |} in
    graph_ok g /\ wg_len g = N.of_nat n /\ row_count (wg_neighbors g) = (2 * length l)%nat /\
    forall i j, adj g i j <-> exists r, r ∈ l /\ (ends r = (i, j) \/ ends r = (j, i)).
Proof.
  intros Hs Hr. assert (Hn : lenN (replicate n (@nil (N * f64))) = N.of_nat n) by (unfold lenN; by rewrite length_replicate).
  destruct (push_rows_spec ends weight l (replicate n [])) as (rows & He & Hl & Hc & Hh); [by rewrite Hn|].
  exists rows. split; [done|]. intros g. assert (Hg : wg_len g = N.of_nat n).
  { unfold wg_len. cbn. unfold sort_neighbors. rewrite lenN_fmap. congruence. }
  assert (Ha : forall i j, adj g i j <-> exists r, r ∈ l /\ (ends r = (i, j) \/ ends r = (j, i))).
  { intros i j. change (adj g i j) with (has (sort_neighbors rows) i j). rewrite has_sorted, Hh.
    split; [intros [H%has_empty|H]; [done|done] | by right]. }
  split; [|split; [done|]; split; [|done]].
  2: { cbn [wg_neighbors g]. rewrite row_count_sorted, Hc. unfold row_count. clear. induction n; [simpl; lia | done]. }
  split.
  - rewrite Hg. exact Hs.
  - intros i j (r & Hin & Hend)%Ha. rewrite Hg. destruct (Hr r Hin). by destruct Hend as [He'|He']; rewrite He' in *.
  - intros i j (r & Hin & Hend)%Ha. apply Ha. exists r. tauto.
Qed.

(** ** Aggregation *)

(** A join between two classes is a join between two of their nodes. *)
Definition quotient (g : WorkGraph) (m : list N) (g' : WorkGraph) : Prop :=
  forall p q, adj g' p q -> exists x y, adj g x y /\ tget m x = Some p /\ tget m y = Some q.

Section aggregate.
Context (g : WorkGraph) (Hg : graph_ok g) (a : list N) (n : N).
Context (Hlen : lenN a = wg_len g) (Hin : forall c, c ∈ a -> c < n).

Definition joins (between : gmap (N * N) f64) : Prop :=
  forall p q, is_Some (between !! (p, q)) -> exists x y, adj g x y /\ tget a x = Some p /\ tget a y = Some q.

Definition collapsing (st : list f64 * gmap (N * N) f64) : Prop := lenN st.1 = n /\ joins st.2.

Lemma class_lt x c : tget a x = Some c -> c < n.
Proof using Hin. intros Hx. apply Hin. rewrite tget_lookup in Hx. by eapply list_elem_of_lookup_2. Qed.

Lemma node_class x : x < wg_len g -> exists c, tget a x = Some c /\ c < n.
Proof using Hlen Hin.
  intros Hx. destruct (tget_lt a x) as [c Hc]; [by rewrite Hlen|]. exists c. split; [done | by eapply class_lt].
Qed.

Lemma collapse_row_spec node home st row : collapsing st -> tget a node = Some home -> adj g node row.1 ->
  exists st', collapse_row a node home st row = Some st' /\ collapsing st'.
Proof using Hg Hlen Hin.
  intros [Hs Hj] Hh Hadj. unfold collapse_row. destruct (node_class row.1) as (there & Ht & Htl); [by apply (gk_range _ Hg node)|].
  rewrite Ht. cbn [mbind option_bind]. destruct (N.eqb_spec home there) as [<-|Hne].
  - destruct (_ <? _); [|by exists st].
    destruct (tupd_total st.1 home (fun t => accumulate_saturating t row.2)) as [l Hl]; [by rewrite Hs|].
    rewrite Hl. cbn [mbind option_bind]. eexists. split; [reflexivity|]. split; [by rewrite <- Hs, <- (tupd_lenN _ _ _ _ Hl) | done].
  - destruct (_ <? _); [|by exists st]. eexists. split; [reflexivity|]. split; [done|].
    cbn. intros p q Hpq. unfold add_weight in Hpq. apply lookup_insert_is_Some in Hpq as [Heq|[_ Hpq]]; [|by apply Hj].
    destruct (N.lt_ge_cases home there).
    + rewrite N.min_l, N.max_r in Heq by lia. injection Heq as <- <-. by exists node, row.1.
    + rewrite N.min_r, N.max_l in Heq by lia. injection Heq as <- <-. exists row.1, node. split; [by apply (gk_sym _ Hg) | done].
Qed.

Lemma collapse_rows_spec node home links : tget a node = Some home -> (forall row, row ∈ links -> adj g node row.1) ->
  forall st, collapsing st -> exists st', foldM (collapse_row a node home) links st = Some st' /\ collapsing st'.
Proof using Hg Hlen Hin.
  intros Hh. induction links as [|row links IH]; intros Hl st Hst; cbn [foldM]; [by exists st|].
  destruct (collapse_row_spec node home st row Hst Hh) as (st1 & -> & H1); [apply Hl; by left|].
  cbn [mbind option_bind]. apply IH; [|done]. intros r Hr. apply Hl. by right.
Qed.

Lemma collapse_nodes_spec nodes : (forall x, x ∈ nodes -> x < wg_len g) -> forall st, collapsing st ->
  exists st', foldM (collapse_node g a) nodes st = Some st' /\ collapsing st'.
Proof using Hg Hlen Hin.
  induction nodes as [|node nodes IH]; intros Hn st Hst; cbn [foldM]; [by exists st|].
  assert (Hlt : node < wg_len g) by (apply Hn; by left). destruct (node_class node Hlt) as (home & Hh & Hhl).
  assert (exists st1, collapse_node g a st node = Some st1 /\ collapsing st1) as (st1 & -> & H1).
  { unfold collapse_node. rewrite Hh. cbn [mbind option_bind]. destruct (tget_lt (wg_self_weight g) node) as [self Hself]; [by rewrite (gk_self _ Hg)|].
    rewrite Hself. cbn [mbind option_bind]. destruct Hst as [Hs Hj].
    destruct (tupd_total st.1 home (fun t => accumulate_saturating t self)) as [l Hl]; [by rewrite Hs|]. rewrite Hl. cbn [mbind option_bind].
    destruct (tget_lt (wg_neighbors g) node Hlt) as [links Hls]. rewrite Hls. cbn [mbind option_bind].
    apply collapse_rows_spec; [done| |split; [by rewrite <- Hs, <- (tupd_lenN _ _ _ _ Hl) | done]].
    intros [j w] Hj'. by exists links, w. }
  cbn [mbind option_bind]. apply IH; [|done]. intros x Hx. apply Hn. by right.
Qed.

Lemma aggregate_spec : exists g', aggregate g a n = Some g' /\ graph_ok g' /\ wg_len g' = n /\ quotient g a g'.
Proof using Hg Hlen Hin.
  unfold aggregate. destruct (collapse_nodes_spec (indices (wg_neighbors g))) with (st := (replicate (N.to_nat n) 0%float, ∅ : gmap (N * N) f64))
    as ([self between] & He & [Hs Hj]).
  { by intros x ?%elem_of_indices. }
  { split; cbn; [unfold lenN; rewrite length_replicate; lia|]. intros p q [? Hx]. by rewrite lookup_empty in Hx. }
  rewrite He. cbn [mbind option_bind fst snd] in *.
  set (rows := merge_sort pair_le (map_to_list between)).
  assert (Hrows : forall r, r ∈ rows -> is_Some (between !! r.1)).
  { intros [k w] Hr. unfold rows in Hr. rewrite merge_sort_Permutation in Hr. apply elem_of_map_to_list in Hr. by exists w. }
  assert (Hends : forall r, r ∈ rows -> exists x y, adj g x y /\ tget a x = Some r.1.1 /\ tget a y = Some r.1.2).
  { intros [[p q] w] Hr. by apply Hj, (Hrows (p, q, w)). }
  destruct (rows_graph (fun r : N * N * f64 => r.1) snd rows (N.to_nat n) self) as (nb & Hnb & Hok & Hgl & _ & Hadj).
  { rewrite Hs. lia. }
  { intros r Hr. rewrite N2Nat.id. destruct (Hends r Hr) as (x & y & _ & Hx & Hy). split; by eapply class_lt. }
  change (foldM _ rows _) with (foldM (push_row (fun r : N * N * f64 => r.1) snd) rows (replicate (N.to_nat n) [])).
  rewrite Hnb. cbn [mbind option_bind]. eexists. split; [reflexivity|]. split; [done|]. split; [by rewrite Hgl, N2Nat.id|].
  intros p q (r & Hr & Hend)%Hadj. destruct (Hends r Hr) as (x & y & Hxy & Hx & Hy). destruct Hend as [Hend|Hend]; rewrite Hend in *; cbn in *.
  - by exists x, y.
  - exists y, x. split; [by apply (gk_sym _ Hg) | done].
Qed.
End aggregate.

(** ** The ladder *)

(** Assignments leaves first, each a level of the aggregate of the one below. *)
Inductive tower : WorkGraph -> list (list N) -> Prop :=
| tower_top g : tower g []
| tower_level g a n g' rest : level_ok g a n -> n < wg_len g -> graph_ok g' -> wg_len g' = n -> quotient g a g' ->
    tower g' rest -> tower g (a :: rest).

Lemma dense_le l n : dense l n -> n <= lenN l.
Proof.
  intros [_ Hs]. assert (Hsub : N.of_nat <$> seq 0 (N.to_nat n) ⊆+ l).
  { apply NoDup_submseteq; [apply NoDup_fmap_2; [apply _ | apply NoDup_seq]|].
    intros c (k & -> & Hk%elem_of_seq)%list_elem_of_fmap. apply Hs. lia. }
  apply submseteq_length in Hsub. rewrite length_fmap, length_seq in Hsub. unfold lenN. lia.
Qed.

Lemma level_positive g a n : level_ok g a n -> wg_len g <> 0 -> n <> 0.
Proof.
  intros [Hl [Hlt _] _] Hne ->. destruct (tget_lt a 0) as [c Hc]; [lia|].
  rewrite tget_lookup in Hc. apply list_elem_of_lookup_2, Hlt in Hc. lia.
Qed.

(** Running out of fuel is a matter of the deadline. *)
Definition too_short (fuel : nat) (expired : N -> bool) : Prop :=
  forall K, (forall k, K <= k -> expired k = true) -> N.of_nat fuel < DEADLINE_STRIDE * (K + 1).

Lemma ladder_spec fuel expired levels : forall g p0, graph_ok g -> wg_len g <> 0 ->
  (ladder levels fuel g expired p0 = None /\ too_short fuel expired) \/
  (ladder levels fuel g expired p0 = Some (Err Deadline_exceeded) /\ exists k, expired k = true) \/
  exists polls asgs, ladder levels fuel g expired p0 = Some (Ok (polls, asgs)) /\ tower g asgs /\ (length asgs <= levels)%nat.
Proof.
  induction levels as [|levels IH]; intros g p0 Hg Hne; cbn [ladder].
  - right. right. exists p0, []. split; [done|]. split; [constructor | done].
  - destruct (one_level_spec fuel g expired p0 Hg Hne) as [[-> Hs]|[[-> Hk]|(polls & a & n & -> & Hlv)]]; [by left|right; by left|].
    unfold andThen at 1 3 5. cbn [mbind option_bind].
    destruct (N.eqb_spec n (wg_len g)) as [->|Hn].
    { right. right. eexists _, []. split; [done|]. split; [constructor | simpl; lia]. }
    destruct Hlv as [[-> _]|Hlv]; [done|]. pose proof Hlv as [Hl Hd _].
    assert (Hlt : n < wg_len g) by (apply dense_le in Hd; lia).
    destruct (aggregate_spec g Hg a n Hl (proj1 Hd)) as (g' & -> & Hg' & Hn' & Hq). cbn [mbind option_bind].
    assert (Hpos : n <> 0) by (by eapply level_positive).
    destruct (N.eqb_spec n 1) as [->|Hn1].
    { right. right. eexists _, [a]. split; [done|]. split; [|simpl; lia]. by eapply tower_level, tower_top. }
    destruct (IH g' polls Hg') as [[-> Hs]|[[-> Hk]|(polls' & asgs & -> & Ht & Hlen)]]; [by rewrite Hn'|by left|right; by left|].
    right. right. eexists _, (a :: asgs). split; [done|]. split; [by eapply tower_level | simpl; lia].
Qed.

(** ** Leaves at every level *)

(** The level's classes of leaves, each a union of classes of the level below,
    joined by the assignments between them. *)
Inductive climbs (g : WorkGraph) : list N -> N -> list (list N) -> list (list N * N) -> Prop :=
| climbs_top m n : level_ok g m n -> climbs g m n [] []
| climbs_up m n a m' n' asgs above : level_ok g m n -> n' < n -> lenN a = n ->
    (forall x, tget m' x = tget m x ≫= tget a) -> climbs g m' n' asgs above -> climbs g m n (a :: asgs) ((m', n') :: above).

Lemma quotient_level g m n g' a k m' : level_ok g m n -> graph_ok g' -> wg_len g' = n -> quotient g m g' ->
  level_ok g' a k -> (forall x, tget m' x = tget m x ≫= tget a) -> lenN m' = lenN m -> level_ok g m' k.
Proof.
  intros [Hl [Hd1 Hd2] Hc] Hg' Hn Hq [Hl' [He1 He2] Hc'] Hm Hlm.
  assert (Hclass : forall x c, tget m x = Some c -> c ∈ m) by (intros x c; rewrite tget_lookup; apply list_elem_of_lookup_2).
  assert (Hclass' : forall x c, tget a x = Some c -> c ∈ a) by (intros x c; rewrite tget_lookup; apply list_elem_of_lookup_2).
  split; [congruence| |].
  - split.
    + intros c Hin. apply tget_Some_elem in Hin as [x Hx]. rewrite Hm in Hx.
      destruct (tget m x) as [p|]; [|done]. cbn in Hx. by eapply He1, Hclass'.
    + intros c Hlt. apply He2, tget_Some_elem in Hlt as [p Hp].
      assert (Hpm : p ∈ m). { apply Hd2. rewrite <- Hn, <- Hl'. by eapply tget_Some_lt. }
      apply tget_Some_elem in Hpm as [x Hx]. apply tget_Some_elem. exists x. by rewrite Hm, Hx.
  - assert (Hlift : forall p c x y, tget m x = Some p -> tget m y = Some p -> tget a p = Some c -> rtc (inside g m' c) x y).
    { intros p c x y Hx Hy Hp. eapply rtc_subrel; [|by eapply Hc]. intros u v (Huv & Hu & Hv).
      split; [done|]. by rewrite !Hm, Hu, Hv. }
    assert (Hup : forall p q c, rtc (inside g' a c) p q -> forall x y, tget m x = Some p -> tget m y = Some q ->
      tget a p = Some c -> rtc (inside g m' c) x y).
    { intros p q c Hr. induction Hr as [p|p z q (Hpz & Hp' & Hz') Hr IH]; intros x y Hx Hy Hp; [by eapply Hlift|].
      destruct (Hq p z Hpz) as (u & v & Huv & Hu & Hv). etrans; [by apply (Hlift p c x u)|].
      eapply rtc_l; [|by apply (IH v y)]. split; [done|]. by rewrite !Hm, Hu, Hv. }
    intros x y c Hx Hy. rewrite Hm in Hx, Hy.
    destruct (tget m x) as [p|] eqn:Hxp; [|done]. destruct (tget m y) as [q|] eqn:Hyq; [|done]. cbn in Hx, Hy.
    by apply (Hup p q c); [apply Hc'| | |].
Qed.

Lemma assigned_total (a below : list N) n : lenN a = n -> (forall c, c ∈ below -> c < n) ->
  exists m', mapM (tget a) below = Some m' /\ lenN m' = lenN below /\ forall x, tget m' x = tget below x ≫= tget a.
Proof.
  intros Ha Hb. destruct (mapM (tget a) below) as [m'|] eqn:Hm.
  - exists m'. split; [done|]. apply mapM_Some in Hm. split; [symmetry; by eapply Forall2_lenN|].
    intros x. rewrite !tget_lookup. destruct (below !! N.to_nat x) as [c|] eqn:Hx.
    + destruct (Forall2_lookup_l _ _ _ _ _ Hm Hx) as (d & -> & Hd). done.
    + cbn. apply lookup_ge_None in Hx. apply lookup_ge_None. apply Forall2_length in Hm. lia.
  - exfalso. apply eq_None_not_Some in Hm. apply Hm, mapM_is_Some_2, Forall_forall.
    intros c Hc. apply tget_is_Some. rewrite Ha. by apply Hb.
Qed.

Lemma per_level_spec g asgs : forall g' m n, level_ok g m n -> graph_ok g' -> wg_len g' = n -> quotient g m g' ->
  tower g' asgs -> exists above, per_level_from m asgs = Some (m :: above.*1) /\ climbs g m n asgs above.
Proof.
  induction asgs as [|a asgs IH]; intros g' m n Hm Hg' Hn Hq Ht; cbn [per_level_from].
  - exists []. split; [done | by constructor].
  - inversion Ht as [|g1 a1 k g'' rest Ha Hk Hg'' Hn'' Hq' Ht']; subst.
    destruct (assigned_total a m (wg_len g')) as (m' & He & Hlm & Hm'); [exact (lv_length _ _ _ Ha)|exact (proj1 (lv_dense _ _ _ Hm))|].
    rewrite He. cbn [mbind option_bind].
    assert (Hlv : level_ok g m' (wg_len g'')) by (by apply (quotient_level g m (wg_len g') g' a (wg_len g'') m')).
    destruct (IH g'' m' (wg_len g'')) as (above & -> & Hc); [done|done|done| |done|].
    { intros p q Hpq. destruct (Hq' p q Hpq) as (x & y & Hxy & Hx & Hy). destruct (Hq x y Hxy) as (u & v & Huv & Hu & Hv).
      exists u, v. split; [done|]. by rewrite !Hm', Hu, Hv. }
    cbn [mbind option_bind]. exists ((m', wg_len g'') :: above). split; [done|].
    econstructor; [done|done|exact (lv_length _ _ _ Ha)|done|done].
Qed.

(** ** The leaf graph *)

(** An association that joins two concepts. *)
Definition weighs (e : EdgeRecord) : Prop :=
  e_count e <> 0 /\ e_subject e <> e_object e /\ (PrimFloat.abs (e_sum e) =? 0)%float = false.

Definition linked (c : Context) (x y : ConceptId) : Prop :=
  exists e, e ∈ edges c /\ weighs e /\ ((e_subject e, e_object e) = (x, y) \/ (e_subject e, e_object e) = (y, x)).

Lemma linked_sym c x y : linked c x y -> linked c y x.
Proof. intros (e & ? & ? & ?). exists e. tauto. Qed.

Lemma exists_cons {A} (x : A) l (P : A -> Prop) : (exists y, y ∈ x :: l /\ P y) <-> P x \/ exists y, y ∈ l /\ P y.
Proof.
  split.
  - intros (y & [->|Hy]%elem_of_cons & HP); [by left | right; by exists y].
  - intros [HP|(y & Hy & HP)]; [exists x | exists y]; (split; [|done]); [by left | by right].
Qed.

Lemma merge_edges_spec expired es : forall index polls merged,
  (merge_edges expired es index polls merged = Err Deadline_exceeded /\ exists k, expired k = true) \/
  exists polls' merged', merge_edges expired es index polls merged = Ok (polls', merged') /\
    forall p q, is_Some (merged' !! (p, q)) <-> is_Some (merged !! (p, q)) \/
      exists e, e ∈ es /\ weighs e /\ p = N.min (e_subject e) (e_object e) /\ q = N.max (e_subject e) (e_object e).
Proof.
  induction es as [|e es IH]; intros index polls merged; cbn [merge_edges].
  - right. exists polls, merged. split; [done|]. intros p q. split; [by left|]. by intros [?|(e & ?%not_elem_of_nil & _)].
  - set (due := _ =? 0). destruct (due && expired polls) eqn:Hdue.
    { left. split; [done|]. apply andb_true_iff in Hdue as [_ ?]. by exists polls. }
    destruct ((e_count e =? 0) || (e_subject e =? e_object e) || (PrimFloat.abs (e_sum e) =? 0)%float) eqn:Hskip.
    + destruct (IH (index + 1) (if due then polls + 1 else polls) merged) as [H|(polls' & merged' & -> & H)]; [by left|].
      right. exists polls', merged'. split; [done|]. intros p q. rewrite H, exists_cons.
      split; [tauto|]. intros [?|[((Hc & Hne & Hz) & _)|?]]; [by left| |by right]. exfalso.
      rewrite Hz, (proj2 (N.eqb_neq _ _) Hc), (proj2 (N.eqb_neq _ _) Hne) in Hskip. done.
    + apply orb_false_iff in Hskip as [[Hc%N.eqb_neq Hne%N.eqb_neq]%orb_false_iff Hz].
      match goal with |- context [merge_edges _ _ _ _ ?m] => destruct (IH (index + 1) (if due then polls + 1 else polls) m)
        as [H|(polls' & merged' & -> & H)]; [by left|] end.
      right. exists polls', merged'. split; [done|]. intros p q. rewrite H. unfold add_weight.
      rewrite lookup_insert_is_Some, exists_cons.
      assert (Hpq : (N.min (e_subject e) (e_object e), N.max (e_subject e) (e_object e)) = (p, q) <->
        weighs e /\ p = N.min (e_subject e) (e_object e) /\ q = N.max (e_subject e) (e_object e)).
      { split; [by intros [= <- <-]|]. by intros (_ & -> & ->). }
      rewrite <- Hpq. destruct (decide ((N.min (e_subject e) (e_object e), N.max (e_subject e) (e_object e)) = (p, q))); tauto.
Qed.

Lemma index_nodes_spec ids x i : NoDup ids -> index_nodes ids !! x = Some i <-> tget ids i = Some x.
Proof.
  intros Hnd. unfold index_nodes. rewrite <- elem_of_list_to_map.
  - rewrite <- elem_of_indexed. rewrite !list_elem_of_lookup. setoid_rewrite lookup_zip_Some. naive_solver.
  - rewrite fst_zip; [done|]. by rewrite indices_length.
Qed.


(** The leaf graph's nodes are the linked concepts, its joins the links. *)
Record leaf_ok (c : Context) (nodes : list ConceptId) (g : WorkGraph) : Prop := {
  lf_graph : graph_ok g;
  lf_length : wg_len g = lenN nodes;
  lf_sorted : StronglySorted N.lt nodes;
  lf_nodes : forall x, x ∈ nodes <-> exists y, linked c x y;
  lf_links : forall i j x y, tget nodes i = Some x -> tget nodes j = Some y -> (adj g i j <-> linked c x y);
  lf_edges : exists pairs : gset (ConceptId * ConceptId), row_count (wg_neighbors g) = (2 * size pairs)%nat /\
    forall x y, (x, y) ∈ pairs <-> x < y /\ linked c x y
}.

Lemma leaf_graph_spec expired c :
  (leaf_graph expired c = Some (Err Deadline_exceeded) /\ exists k, expired k = true) \/
  exists polls nodes g, leaf_graph expired c = Some (Ok (polls, (nodes, g))) /\ leaf_ok c nodes g.
Proof.
  unfold leaf_graph. destruct (merge_edges_spec expired (edges c) 0 0 ∅) as [[-> Hk]|(polls & merged & -> & Hm)]; [by left|right].
  assert (Hpair : forall x y, is_Some (merged !! (x, y)) <-> x < y /\ linked c x y).
  { intros x y. rewrite Hm. split.
    - intros [[? He]|(e & Hin & (Hc & Hne & Hz) & -> & ->)]; [by rewrite lookup_empty in He|]. split; [lia|].
      exists e. split; [done|]. split; [done|]. destruct (N.lt_ge_cases (e_subject e) (e_object e)).
      + rewrite N.min_l, N.max_r by lia. by left.
      + rewrite N.min_r, N.max_l by lia. by right.
    - intros [Hlt (e & Hin & Hw & Hend)]. right. exists e. split; [done|]. split; [done|].
      destruct Hend as [[= -> ->]|[= -> ->]]; lia. }
  set (ids := flat_map _ _). set (nodes := dedup (sort_ids ids)).
  assert (Hsort : StronglySorted N.lt nodes) by (apply dedup_sorted, sort_ids_le).
  assert (Hnodes : forall x, x ∈ nodes <-> exists y, linked c x y).
  { intros x. unfold nodes. rewrite elem_of_dedup, elem_of_sort_ids. unfold ids. rewrite list_elem_of_In, in_flat_map.
    setoid_rewrite <- list_elem_of_In. split.
    - intros ([[p q] w] & Hin & Hx). apply elem_of_map_to_list in Hin.
      assert (p < q /\ linked c p q) as [_ Hl] by (apply Hpair; by eexists).
      cbn in Hx. apply elem_of_cons in Hx as [->|Hx%list_elem_of_singleton]; [by exists q|]. subst x. exists p. by apply linked_sym.
    - intros [y Hl]. pose proof Hl as (e & _ & (_ & Hne & _) & Hend).
      assert (Hxy : x <> y) by (destruct Hend as [Hend|Hend]; injection Hend; congruence).
      destruct (N.lt_ge_cases x y) as [Hlt|Hge].
      + destruct (proj2 (Hpair x y) (conj Hlt Hl)) as [w Hw]. exists (x, y, w). rewrite elem_of_map_to_list. cbn. set_solver.
      + destruct (proj2 (Hpair y x)) as [w Hw]; [split; [lia | by apply linked_sym]|].
        exists (y, x, w). rewrite elem_of_map_to_list. cbn. set_solver. }
  assert (Hnd : NoDup nodes) by (by apply sorted_NoDup).
  set (rows := merge_sort pair_le (map_to_list merged)).
  assert (Hrows : forall x y, (exists w, (x, y, w) ∈ rows) <-> x < y /\ linked c x y).
  { intros x y. rewrite <- Hpair. unfold rows. setoid_rewrite merge_sort_Permutation. by setoid_rewrite elem_of_map_to_list. }
  set (ends := fun r : N * N * f64 => (default 0 (index_nodes nodes !! r.1.1), default 0 (index_nodes nodes !! r.1.2))).
  assert (Hends : forall x y w, (x, y, w) ∈ rows -> exists i j, index_nodes nodes !! x = Some i /\ index_nodes nodes !! y = Some j /\
    ends (x, y, w) = (i, j) /\ tget nodes i = Some x /\ tget nodes j = Some y).
  { intros x y w Hr. assert (Hl : x < y /\ linked c x y) by (apply Hrows; by exists w). destruct Hl as [_ Hl].
    destruct (proj1 (tget_Some_elem nodes x)) as [i Hi]; [apply Hnodes; by exists y|].
    destruct (proj1 (tget_Some_elem nodes y)) as [j Hj]; [apply Hnodes; exists x; by apply linked_sym|].
    pose proof Hi as Hi'. pose proof Hj as Hj'. apply (index_nodes_spec _ _ _ Hnd) in Hi', Hj'.
    exists i, j. unfold ends. cbn [fst snd]. by rewrite Hi', Hj'. }
  destruct (rows_graph ends snd rows (length nodes) (replicate (length nodes) 0%float)) as (nb & Hnb & Hg & Hl & Hc & Ha).
  { unfold lenN. by rewrite length_replicate. }
  { intros [[x y] w] Hr. destruct (Hends x y w Hr) as (i & j & _ & _ & -> & Hi & Hj). cbn [fst snd].
    apply tget_Some_lt in Hi, Hj. done. }
  exists polls, nodes. eexists. split.
  { erewrite (foldM_ext _ (push_row ends snd)); [by rewrite Hnb|]. intros rs [[x y] w] Hr.
    destruct (Hends x y w Hr) as (i & j & Hi & Hj & He & _). unfold push_pair, push_row. cbn [fst snd].
    by rewrite He, Hi, Hj. }
  split; [done|done|done|done| |].
  - intros i j x y Hi Hj. rewrite Ha. split.
    + intros ([[p q] w] & Hr & Hend). assert (p < q /\ linked c p q) as [_ Hpq] by (apply Hrows; by exists w).
      destruct (Hends p q w Hr) as (i' & j' & _ & _ & He & Hi' & Hj'). rewrite He in Hend.
      destruct Hend as [[= -> ->]|[= -> ->]]; rewrite Hi' in *; rewrite Hj' in *; simplify_eq; [done|by apply linked_sym].
    + intros Hxy. pose proof Hxy as (e & _ & (_ & Hne & _) & Hend).
      assert (Hneq : x <> y) by (destruct Hend as [Hend|Hend]; injection Hend; congruence).
      pose proof Hi as Hi'. pose proof Hj as Hj'. apply (index_nodes_spec _ _ _ Hnd) in Hi', Hj'.
      destruct (N.lt_ge_cases x y) as [Hlt|Hge].
      * destruct (proj2 (Hrows x y)) as [w Hw]; [done|]. exists (x, y, w). split; [done|]. left. unfold ends. cbn. by rewrite Hi', Hj'.
      * destruct (proj2 (Hrows y x)) as [w Hw]; [split; [lia | by apply linked_sym]|]. exists (y, x, w). split; [done|].
        right. unfold ends. cbn. by rewrite Hi', Hj'.
  - exists (dom merged). split.
    + rewrite Hc. unfold rows. by rewrite merge_sort_Permutation, length_map_to_list, size_dom.
    + intros x y. by rewrite elem_of_dom.
Qed.

(** ** The levels detected *)

Lemma identity_level g : level_ok g (indices (wg_neighbors g)) (wg_len g).
Proof.
  assert (Hid : forall x c, tget (indices (wg_neighbors g)) x = Some c -> c = x).
  { intros x c. unfold indices. rewrite tget_lookup, list_lookup_fmap. destruct (_ !! N.to_nat x) as [k|] eqn:Hk; [|done].
    apply lookup_seq in Hk as [-> _]. intros [= <-]. lia. }
  split.
  - unfold lenN, wg_len. by rewrite indices_length.
  - split; intros c Hc; by apply elem_of_indices.
  - intros x y c Hx%Hid Hy%Hid. subst. apply rtc_refl.
Qed.

Lemma detected_levels g (nodes : list ConceptId) asgs : wg_len g = lenN nodes -> graph_ok g -> tower g asgs ->
  exists leaf rest n above, (if bool_decide (asgs = []) then [indices nodes] else asgs) = leaf :: rest /\
    per_level_of (leaf :: rest) = Some (leaf :: above.*1) /\ climbs g leaf n rest above.
Proof.
  intros Hl Hg Ht. destruct Ht as [g|g a n g' rest Ha Hlt Hg' Hn Hq Ht]; rewrite ?bool_decide_true, ?bool_decide_false by done.
  - exists (indices nodes), [], (wg_len g), []. split; [done|]. split; [done|]. constructor.
    assert (Hi : indices nodes = indices (wg_neighbors g)).
    { unfold indices. f_equal. f_equal. unfold wg_len, lenN in Hl. lia. }
    rewrite Hi. apply identity_level.
  - destruct (per_level_spec g rest g' a n Ha Hg' Hn Hq Ht) as (above & Hp & Hc). by exists a, rest, n, above.
Qed.
