(* ===== verification/CommunityClaims.v ===== *)
(** * Community detection, end to end

    The list of communities describes the levels: one community per class,
    leaves first, with its concepts, its parent and its children; the claim and
    its sample. *)

From S2P Require Export CommunityLevels.
From S2P Require Import Facts Sample.

Local Open Scope N_scope.

(** ** Filing *)

(** Items filed under their keys, in order. *)
Lemma file_spec {A B} (key : B -> option N) (val : B -> A) l : forall rows : list (list A),
  (forall x, x ∈ l -> exists k, key x = Some k /\ k < lenN rows) ->
  exists rows', foldM (fun rows x => k ← key x; tupd rows k (fun r => r ++ [val x])) l rows = Some rows' /\
    lenN rows' = lenN rows /\
    forall i, tget rows' i = (fun old => old ++ (val <$> filter (fun x => key x = Some i) l)) <$> tget rows i.
Proof.
  induction l as [|x l IH]; intros rows Hk; cbn [foldM].
  - exists rows. split; [done|]. split; [done|]. intros i. destruct (tget rows i); cbn; by rewrite ?app_nil_r.
  - destruct (Hk x) as (k & Hx & Hlt); [by left|]. rewrite Hx. cbn [mbind option_bind].
    destruct (tupd_total rows k (fun r => r ++ [val x]) Hlt) as [rows1 H1]. rewrite H1. cbn [mbind option_bind].
    pose proof (tupd_lenN _ _ _ _ H1) as Hl1.
    destruct (IH rows1) as (rows' & He & Hl & Hr); [intros y Hy; rewrite Hl1; apply Hk; by right|].
    exists rows'. split; [done|]. split; [congruence|]. intros i. rewrite Hr, (tupd_get _ _ _ _ i H1), filter_cons, Hx.
    destruct (decide (i = k)) as [->|Hne].
    + rewrite decide_True by done. destruct (tget rows k); cbn; [by rewrite <- app_assoc | done].
    + by rewrite decide_False by congruence.
Qed.

(** From empty rows. *)
Lemma file_fresh {A B} (key : B -> option N) (val : B -> A) l n :
  (forall x, x ∈ l -> exists k, key x = Some k /\ k < n) ->
  exists rows, foldM (fun rows x => k ← key x; tupd rows k (fun r => r ++ [val x])) l (replicate (N.to_nat n) []) = Some rows /\
    lenN rows = n /\ forall i r, tget rows i = Some r -> r = val <$> filter (fun x => key x = Some i) l.
Proof.
  intros Hk. assert (Hn : lenN (replicate (N.to_nat n) (@nil A)) = n) by (unfold lenN; rewrite length_replicate; lia).
  destruct (file_spec key val l (replicate (N.to_nat n) [])) as (rows & He & Hl & Hr); [by rewrite Hn|].
  exists rows. split; [done|]. split; [congruence|]. intros i r Hi. rewrite Hr, tget_lookup in Hi.
  destruct (replicate _ _ !! _) as [old|] eqn:Ho; [|done]. apply lookup_replicate in Ho as [-> _]. by injection Hi as <-.
Qed.

Lemma count_spec l : forall counts, (forall k, k ∈ l -> k < lenN counts) ->
  exists counts', foldM (fun counts c => tupd counts c (fun n => n + 1)) l counts = Some counts' /\ lenN counts' = lenN counts /\
    forall i, tget counts' i = (fun n => n + lenN (filter (fun c => c = i) l)) <$> tget counts i.
Proof.
  induction l as [|k l IH]; intros counts Hk; cbn [foldM].
  - exists counts. split; [done|]. split; [done|]. intros i. destruct (tget counts i) as [n|]; cbn; [f_equal; unfold lenN; simpl; lia | done].
  - destruct (tupd_total counts k (fun n => n + 1)) as [c1 H1]; [apply Hk; by left|]. rewrite H1. cbn [mbind option_bind].
    pose proof (tupd_lenN _ _ _ _ H1) as Hl1.
    destruct (IH c1) as (c' & He & Hl & Hr); [intros; rewrite Hl1; apply Hk; by right|].
    exists c'. split; [done|]. split; [congruence|]. intros i. rewrite Hr, (tupd_get _ _ _ _ i H1), filter_cons.
    destruct (decide (i = k)) as [->|Hne].
    + rewrite decide_True by done. destruct (tget counts k); cbn; [f_equal; unfold lenN; simpl; lia | done].
    + by rewrite decide_False by congruence.
Qed.

Lemma count_at_dense m n : dense m n -> count_at m = n.
Proof.
  intros [Hlt Hs]. unfold count_at.
  assert (Hmax : forall l k, let r := foldl (fun count c => N.max count (c + 1)) k l in
    k <= r /\ (forall c, c ∈ l -> c < r) /\ (r = k \/ exists c, c ∈ l /\ r = c + 1)).
  { induction l as [|c l IH]; intros k; cbn [foldl].
    - split; [lia|]. split; [by intros c ?%not_elem_of_nil | by left].
    - destruct (IH (N.max k (c + 1))) as (Hk & Hall & Hr). split; [lia|]. split.
      + intros d [->|Hd]%elem_of_cons; [lia | by apply Hall].
      + destruct Hr as [Hr|(d & Hd & Hr)]; [|right; exists d; split; [by right | done]].
        destruct (N.le_gt_cases (c + 1) k); [left; rewrite Hr; lia | right; exists c; split; [by left | rewrite Hr; lia]]. }
  destruct (Hmax m 0) as (_ & Hall & Hr). cbn zeta in *. set (r := foldl _ 0 m) in *.
  destruct (N.lt_trichotomy r n) as [Hl|[->|Hg]]; [|done|].
  - specialize (Hall r (Hs r Hl)). lia.
  - destruct Hr as [Hr|(c & Hc & Hr)]; [lia|]. specialize (Hlt c Hc). lia.
Qed.

(** ** What the list says of a level *)

(** The concepts of a class, in node order. *)
Definition class_of (nodes : list ConceptId) (here : list N) (i : N) : list ConceptId :=
  (filter (fun p => p.2 = i) (zip nodes here)).*1.

Definition parent_told (level : N) (here : list N) (above : list (list N * N)) (i : N) (co : Community) : Prop :=
  match above with
  | [] => co_parent co = None
  | (m, _) :: _ => exists p, co_parent co = Some (community_id (level + 1) p) /\
    forall x, tget here x = Some i -> tget m x = Some p
  end.

(** A leaf names its concepts, and at most
    [TOP_ASSOCIATIONS_PER_COMMUNITY] live associations inside it. *)
Definition leaf_told (c : Context) (concepts_here : list ConceptId) (co : Community) : Prop :=
  co_children co = [] /\
  (exists names, mapM (concept_name c) concepts_here = Some names /\ (cm_name <$> co_members co) ≡ₚ names) /\
  (length (co_top_associations co) <= TOP_ASSOCIATIONS_PER_COMMUNITY)%nat /\
  forall t, t ∈ co_top_associations co -> exists e, e ∈ edges c /\ e_count e <> 0 /\
    e_subject e ∈ concepts_here /\ e_object e ∈ concepts_here /\
    concept_name c (e_subject e) = Some (ca_subject t) /\ label_name c (e_label e) = Some (ca_label t) /\
    concept_name c (e_object e) = Some (ca_object t) /\ ca_count t = e_count e /\
    ca_weight t = (e_sum e / f64_of_N (e_count e))%float.

(** A community above names the classes of the level below it contains. *)
Definition upper_told (level : N) (below here : list N) (i : N) (co : Community) : Prop :=
  co_members co = [] /\ co_top_associations co = [] /\
  exists js, co_children co = community_id (level - 1) <$> js /\ StronglySorted N.lt js /\
    forall j, j ∈ js <-> exists x, tget below x = Some j /\ tget here x = Some i.

Definition told (c : Context) (nodes : list ConceptId) (level : N) (below : option (list N)) (here : list N)
    (above : list (list N * N)) (i : N) (co : Community) : Prop :=
  co_id co = community_id level i /\ co_level co = level /\ co_concept_count co = lenN (class_of nodes here i) /\
  parent_told level here above i co /\
  match below with None => leaf_told c (class_of nodes here i) co | Some below => upper_told level below here i co end.

(** One community per class, level by level. *)
Inductive listed (c : Context) (nodes : list ConceptId) : N -> option (list N) -> list (list N * N) -> list Community -> Prop :=
| listed_nil level below : listed c nodes level below [] []
| listed_level level below here n above block rest : lenN block = n ->
    (forall i co, tget block i = Some co -> told c nodes level below here above i co) ->
    listed c nodes (level + 1) (Some here) above rest ->
    listed c nodes level below ((here, n) :: above) (block ++ rest).

Lemma class_of_length nodes here i : lenN here = lenN nodes -> lenN (class_of nodes here i) = lenN (filter (fun c => c = i) here).
Proof.
  unfold class_of, lenN. rewrite length_fmap. revert here. induction nodes as [|x nodes IH]; intros [|h here] Hl; try done.
  cbn [zip zip_with]. rewrite !filter_cons. cbn [snd]. specialize (IH here ltac:(simpl in Hl; lia)).
  destruct (decide (h = i)); cbn [length]; lia.
Qed.

(** ** The levels above the leaves *)

Lemma assigned_class g m n a m' n' : level_ok g m n -> level_ok g m' n' -> lenN a = n ->
  (forall x, tget m' x = tget m x ≫= tget a) ->
  forall j, j < n -> exists p, tget a j = Some p /\ p < n' /\ exists x, tget m x = Some j /\ tget m' x = Some p.
Proof.
  intros Hm Hm' Ha Hc j Hj. destruct (tget_lt a j) as [p Hp]; [lia|]. exists p. split; [done|].
  destruct (proj1 (tget_Some_elem m j)) as [x Hx]; [by apply (lv_dense _ _ _ Hm)|].
  assert (Hx' : tget m' x = Some p) by (by rewrite Hc, Hx).
  split; [|by exists x]. apply (lv_dense _ _ _ Hm'), tget_Some_elem. by exists x.
Qed.

Lemma climbs_level g m n asgs above : climbs g m n asgs above -> level_ok g m n.
Proof. by intros []. Qed.

(** The parent a class is told. *)
Lemma parent_spec g m n asgs above level i : climbs g m n asgs above -> i < n ->
  exists parent, match match zip asgs above.*1 with [] => None | (a, _) :: _ => Some a end with
                 | None => Some None
                 | Some parents => p ← tget parents i; Some (Some (community_id (level + 1) p))
                 end = Some parent /\ forall co, co_parent co = parent -> parent_told level m above i co.
Proof.
  intros Hc Hi. destruct Hc as [m n Hm|m n a m' n' asgs above Hm Hlt Ha Hcomp Hc]; cbn.
  - exists None. split; [done|]. by intros co ->.
  - destruct (assigned_class g m n a m' n' Hm (climbs_level _ _ _ _ _ Hc) Ha Hcomp i Hi) as (p & Hp & _).
    rewrite Hp. cbn. eexists. split; [done|]. intros co ->. exists p. split; [done|]. intros x Hx. by rewrite Hcomp, Hx.
Qed.

(** Every item of a list with its index. *)
Lemma mapM_indexed {A B} (f : N * A -> option B) (Q : N -> B -> Prop) (rows : list A) :
  (forall i x, tget rows i = Some x -> exists y, f (i, x) = Some y /\ Q i y) ->
  exists ys, mapM f (zip (indices rows) rows) = Some ys /\ lenN ys = lenN rows /\ forall i y, tget ys i = Some y -> Q i y.
Proof.
  intros Hf. assert (Hz : forall k p, zip (indices rows) rows !! k = Some p -> p.1 = N.of_nat k /\ tget rows p.1 = Some p.2).
  { intros k [i x] Hk. pose proof (list_elem_of_lookup_2 _ _ _ Hk) as He. apply elem_of_indexed in He. split; [|done].
    apply lookup_zip_Some in Hk as [Hk _]. unfold indices in Hk. rewrite list_lookup_fmap in Hk.
    destruct (seq _ _ !! k) eqn:Hs; [|done]. apply lookup_seq in Hs as [-> _]. by injection Hk as <-. }
  destruct (mapM f (zip (indices rows) rows)) as [ys|] eqn:Hm.
  - exists ys. split; [done|]. apply mapM_Some in Hm. split.
    + apply Forall2_lenN in Hm. rewrite <- Hm. unfold lenN. rewrite length_zip_with, indices_length. lia.
    + intros i y Hy. rewrite tget_lookup in Hy. destruct (Forall2_lookup_r _ _ _ _ _ Hm Hy) as ([i' x] & Hk & Hfx).
      destruct (Hz _ _ Hk) as [Hi Hx]. cbn in Hi, Hx. rewrite N2Nat.id in Hi. subst i'.
      destruct (Hf i x Hx) as (y' & Hy' & HQ). congruence.
  - exfalso. apply eq_None_not_Some in Hm. apply Hm, mapM_is_Some_2, Forall_forall. intros [i x] Hin%elem_of_indexed.
    destruct (Hf i x Hin) as (y & Hy & _). by exists y.
Qed.

Lemma mapM_total {A B} (f : A -> option B) l : (forall x, x ∈ l -> exists y, f x = Some y) -> exists ys, mapM f l = Some ys.
Proof. intros Hf. apply mapM_is_Some_2, Forall_forall. intros x Hx. by apply Hf. Qed.

Lemma upper_level c g nodes level m a m' n' asgs above fps : lenN m' = lenN nodes -> level_ok g m (lenN a) -> lenN fps = lenN a ->
  (forall x, tget m' x = tget m x ≫= tget a) -> climbs g m' n' asgs above ->
  exists children concepts rows, file_children a (count_at m) (count_at m') = Some children /\
    count_concepts m' (count_at m') = Some concepts /\
    mapM (fun p => parent_community level (match zip asgs above.*1 with [] => None | (a, _) :: _ => Some a end) fps concepts p.1 p.2)
      (zip (indices children) children) = Some rows /\ lenN rows = n' /\
    forall i row, tget rows i = Some row -> told c nodes level (Some m) m' above i row.2.
Proof.
  intros Hlm Hm Hf Hcomp Hc. pose proof (climbs_level _ _ _ _ _ Hc) as Hm'.
  rewrite (count_at_dense m _ (lv_dense _ _ _ Hm)), (count_at_dense m' n' (lv_dense _ _ _ Hm')).
  set (below := N.of_nat <$> seq 0 (N.to_nat (lenN a))).
  assert (Hbelow : below = indices a) by (unfold below, indices, lenN; by rewrite Nat2N.id).
  destruct (file_fresh (tget a) id below n') as (children & Hch & Hchl & Hcht).
  { intros j Hj. rewrite Hbelow, elem_of_indices in Hj.
    destruct (assigned_class g m (lenN a) a m' n' Hm Hm' eq_refl Hcomp j Hj) as (p & ? & ? & _). by exists p. }
  destruct (count_spec m' (replicate (N.to_nat n') 0)) as (concepts & Hco & Hcol & Hcot).
  { intros k Hk. unfold lenN. rewrite length_replicate, N2Nat.id. by apply (lv_dense _ _ _ Hm'). }
  assert (Hnl : lenN (replicate (N.to_nat n') 0) = n') by (unfold lenN; rewrite length_replicate; lia).
  destruct (mapM_indexed (fun p => parent_community level (match zip asgs above.*1 with [] => None | (a, _) :: _ => Some a end) fps concepts p.1 p.2)
    (fun i row => told c nodes level (Some m) m' above i row.2) children) as (rows & Hr & Hrl & Hrt).
  - intros i js Hi. assert (Hlt : i < n') by (rewrite <- Hchl; by eapply tget_Some_lt).
    rewrite (Hcht i js Hi), list_fmap_id. cbn [fst snd]. unfold parent_community.
    destruct (mapM_total (tget fps) (filter (fun x => tget a x = Some i) below)) as [digests Hd].
    { intros j [_ Hj]%list_elem_of_filter. rewrite Hbelow, elem_of_indices in Hj. apply tget_lt. by rewrite Hf. }
    rewrite Hd. cbn [mbind option_bind]. destruct (tget_lt concepts i) as [k Hk]; [lia|]. rewrite Hk. cbn [mbind option_bind].
    destruct (parent_spec g m' n' asgs above level i Hc Hlt) as (parent & Hp & Htold).
    rewrite Hp. cbn [mbind option_bind]. eexists. split; [done|]. cbn [snd].
    split; [done|]. split; [done|]. split; [|split; [by apply Htold|]].
    + cbn. rewrite (class_of_length _ _ _ Hlm). rewrite Hcot, tget_lookup in Hk.
      destruct (replicate _ _ !! _) eqn:Hrep; [|done]. apply lookup_replicate in Hrep as [-> _]. injection Hk as <-. lia.
    + split; [done|]. split; [done|]. eexists. split; [done|]. split.
      { apply StronglySorted_filter. rewrite Hbelow. apply indices_sorted. }
      intros j. rewrite list_elem_of_filter, Hbelow, elem_of_indices. split.
      * intros [Hj Hjl]. destruct (assigned_class g m (lenN a) a m' n' Hm Hm' eq_refl Hcomp j Hjl) as (p & Hp' & _ & x & Hx & Hx').
        exists x. split; [done|]. congruence.
      * intros (x & Hx & Hx'). rewrite Hcomp, Hx in Hx'. split; [done|]. by eapply tget_Some_lt.
  - exists children, concepts, rows. split; [exact Hch|]. split; [exact Hco|]. split; [exact Hr|]. split; [congruence | done].
Qed.

Lemma upper_spec c g nodes asgs : wg_len g = lenN nodes -> forall level m n above fps,
  climbs g m n asgs above -> lenN fps = n ->
  exists cs, upper level m (zip asgs above.*1) fps = Some cs /\ listed c nodes level (Some m) above cs.
Proof.
  intros Hlen. induction asgs as [|a asgs IH]; intros level m n above fps Hc Hf.
  - inversion Hc; subst. exists []. split; [done | constructor].
  - inversion Hc as [|m1 n1 a1 m' n' asgs1 above1 Hm Hlt Ha Hcomp Hc']; subst. rewrite <- Ha in Hm.
    assert (Hlm : lenN m' = lenN nodes) by (rewrite <- Hlen; apply (lv_length _ _ _ (climbs_level _ _ _ _ _ Hc'))).
    destruct (upper_level c g nodes level m a m' n' asgs above1 fps Hlm Hm (eq_sym Ha) Hcomp Hc') as (ch & co & rows & Hch & Hco & Hr & Hrl & Ht).
    cbn [fmap list_fmap zip zip_with upper fst]. rewrite Hch. cbn [mbind option_bind]. rewrite Hco. cbn [mbind option_bind].
    rewrite Hr. cbn [mbind option_bind].
    destruct (IH (level + 1) m' n' above1 rows.*1 Hc') as (cs & -> & Hl); [by rewrite lenN_fmap|].
    cbn [mbind option_bind]. eexists. split; [reflexivity|]. constructor; [by rewrite lenN_fmap| |done].
    intros i co0 Hi. rewrite tget_fmap in Hi. destruct (tget rows i) as [row|] eqn:Hrow; [|done]. injection Hi as <-. by apply Ht.
Qed.

(** ** The leaves *)

Lemma elem_of_class nodes leaf i x : x ∈ class_of nodes leaf i <-> exists j, tget nodes j = Some x /\ tget leaf j = Some i.
Proof.
  unfold class_of. rewrite list_elem_of_fmap. split.
  - intros ([y h] & -> & [Hh Hin]%list_elem_of_filter). cbn in *. subst h.
    apply list_elem_of_lookup in Hin as [k Hk]. apply lookup_zip_Some in Hk as [Hy Hi].
    exists (N.of_nat k). by rewrite !tget_lookup, Nat2N.id.
  - intros (j & Hx & Hi). exists (x, i). split; [done|]. apply list_elem_of_filter. split; [done|].
    apply list_elem_of_lookup. exists (N.to_nat j). apply lookup_zip_Some. by rewrite <- !tget_lookup.
Qed.

Section leaf.
Context `{UnicodeTables} (c : Context) (Hwf : wf c) (g : WorkGraph) (nodes : list ConceptId) (Hleaf : leaf_ok c nodes g).
Context (m : list N) (n : N) (Hm : level_ok g m n) (expired : N -> bool).

Lemma members_spec : exists members, file_members nodes m n = Some members /\ lenN members = n /\
  forall i r, tget members i = Some r -> r = class_of nodes m i.
Proof using Hm.
  clear expired H Hwf Hleaf. destruct (file_fresh (fun p : ConceptId * N => Some p.2) fst (zip nodes m) n) as (members & He & Hl & Hr).
  { intros [x i] Hin. apply list_elem_of_lookup in Hin as [k Hk]. apply lookup_zip_Some in Hk as [_ Hk].
    exists i. split; [done|]. apply (lv_dense _ _ _ Hm). by eapply list_elem_of_lookup_2. }
  exists members. split; [exact He|]. split; [done|]. intros i r Hi. rewrite (Hr i r Hi). unfold class_of. f_equal.
  apply list_filter_iff. intros [x j]. cbn. naive_solver.
Qed.

(** An edge kept for a class. *)
Definition kept (i : N) (row : Induced) : Prop :=
  exists e, tget (edges c) (in_edge row) = Some e /\ in_sum row = e_sum e /\ in_count row = e_count e /\ e_count e <> 0 /\
    e_subject e ∈ class_of nodes m i /\ e_object e ∈ class_of nodes m i.

Definition kept_rows (induced : list (list Induced)) : Prop :=
  lenN induced = n /\ forall i l row, tget induced i = Some l -> row ∈ l -> kept i row.

Lemma induce_spec es : forall k polls induced, (forall j e, tget es j = Some e -> tget (edges c) (k + j) = Some e) ->
  kept_rows induced ->
  (induce expired (index_nodes nodes) m es k polls induced = Some (Err Deadline_exceeded) /\ exists p, expired p = true) \/
  exists polls' induced', induce expired (index_nodes nodes) m es k polls induced = Some (Ok (polls', induced')) /\ kept_rows induced'.
Proof using Hleaf Hm.
  clear H Hwf. induction es as [|e es IH]; intros k polls induced Hes Hk; cbn [induce]; [right; by exists polls, induced|].
  set (due := _ =? 0). destruct (due && expired polls) eqn:Hdue.
  { left. split; [done|]. apply andb_true_iff in Hdue as [_ ?]. by exists polls. }
  assert (He : tget (edges c) k = Some e) by (rewrite <- (N.add_0_r k); by apply Hes).
  assert (Hes' : forall j e', tget es j = Some e' -> tget (edges c) (k + 1 + j) = Some e').
  { intros j e' Hj. rewrite <- N.add_assoc. apply Hes. rewrite tget_lookup in *. by replace (N.to_nat (1 + j)) with (S (N.to_nat j)) by lia. }
  assert (Hnext : forall p ind, kept_rows ind ->
    (induce expired (index_nodes nodes) m es (k + 1) p ind = Some (Err Deadline_exceeded) /\ exists p, expired p = true) \/
    exists polls' induced', induce expired (index_nodes nodes) m es (k + 1) p ind = Some (Ok (polls', induced')) /\ kept_rows induced').
  { intros p ind. by apply IH. }
  set (polls1 := if due then polls + 1 else polls). clearbody polls1. clear IH.
  destruct (N.eqb_spec (e_count e) 0) as [|Hc]; [by apply Hnext|].
  destruct (index_nodes nodes !! e_subject e) as [s|] eqn:Hs; [|by apply Hnext].
  destruct (index_nodes nodes !! e_object e) as [o|] eqn:Ho; [|by apply Hnext].
  assert (Hnd : NoDup nodes) by (apply sorted_NoDup, (lf_sorted _ _ _ Hleaf)).
  apply (index_nodes_spec _ _ _ Hnd) in Hs, Ho.
  assert (Hlen : lenN m = lenN nodes) by (rewrite (lv_length _ _ _ Hm); apply (lf_length _ _ _ Hleaf)).
  destruct (tget_lt m s) as [i Hi]; [rewrite Hlen; by eapply tget_Some_lt|]. rewrite Hi. cbn [mbind option_bind].
  destruct (tget_lt m o) as [i' Hi']; [rewrite Hlen; by eapply tget_Some_lt|]. rewrite Hi'. cbn [mbind option_bind].
  destruct (N.eqb_spec i' i) as [->|]; [|by apply Hnext].
  destruct Hk as [Hkl Hkr]. set (row := {| in_edge := k; in_sum := e_sum e; in_count := e_count e |}).
  destruct (tupd_total induced i (fun l => l ++ [row])) as [ind1 H1].
  { rewrite Hkl. apply (lv_dense _ _ _ Hm), tget_Some_elem. by exists s. }
  rewrite H1. cbn [mbind option_bind]. apply Hnext. split; [by rewrite (tupd_lenN _ _ _ _ H1)|].
  intros j l r Hj Hr. rewrite (tupd_get _ _ _ _ j H1) in Hj. destruct (decide (j = i)) as [->|]; [|by eapply Hkr].
  destruct (tget induced i) as [old|] eqn:Hold; [|done]. injection Hj as <-.
  apply elem_of_app in Hr as [Hr|Hr%list_elem_of_singleton]; [by eapply Hkr|]. subst r. exists e.
  split; [done|]. split; [done|]. split; [done|]. split; [done|].
  split; apply elem_of_class; [by exists s | by exists o].
Qed.

Lemma named_edge_spec i row : kept i row -> exists e ne, tget (edges c) (in_edge row) = Some e /\ named_edge c row = Some ne /\
  ne_row ne = row /\ concept_name c (e_subject e) = Some (ne_subject ne) /\ label_name c (e_label e) = Some (ne_label ne) /\
  concept_name c (e_object e) = Some (ne_object ne).
Proof using Hwf.
  clear expired Hm Hleaf. intros (e & He & _). destruct (wf_edge _ _ _ Hwf He) as (_ & Hs & Hl & Ho).
  destruct (concept_name_total Hwf _ Hs) as [s Es]. destruct (label_name_total Hwf _ Hl) as [l El].
  destruct (concept_name_total Hwf _ Ho) as [o Eo].
  exists e. eexists. split; [done|]. unfold named_edge. rewrite He. cbn [mbind option_bind]. rewrite Es. cbn [mbind option_bind].
  rewrite El. cbn [mbind option_bind]. rewrite Eo. cbn [mbind option_bind]. split; [reflexivity|]. done.
Qed.

Lemma strengths_spec i rows : (forall row, row ∈ rows -> kept i row) -> forall st, exists st', foldM (strength_step c) rows st = Some st'.
Proof using.
  clear expired Hwf Hm Hleaf H. induction rows as [|row rows IH]; intros Hk st; cbn [foldM]; [by exists st|].
  destruct (Hk row) as (e & He & _); [by left|]. assert (exists st1, strength_step c st row = Some st1) as [st1 ->].
  { unfold strength_step. rewrite He. by eexists. }
  cbn [mbind option_bind]. apply IH. intros r Hr. apply Hk. by right.
Qed.

Lemma class_concept i x : x ∈ class_of nodes m i -> x < lenN (concepts c).
Proof using Hwf Hleaf.
  clear expired Hm. intros (j & Hj & _)%elem_of_class. assert (Hx : x ∈ nodes) by (apply tget_Some_elem; by exists j).
  apply (lf_nodes _ _ _ Hleaf) in Hx as (y & e & He & _ & Hend). apply tget_Some_elem in He as [k Hk].
  destruct (wf_edge _ _ _ Hwf Hk) as (_ & Hs & _ & Ho). by destruct Hend as [[= <- <-]|[= <- <-]].
Qed.

Lemma leaf_community_spec asgs above i rows : climbs g m n asgs above -> i < n -> (forall row, row ∈ rows -> kept i row) ->
  exists d co, leaf_community c (head asgs) i (class_of nodes m i) rows = Some (d, co) /\ told c nodes 0 None m above i co.
Proof using Hwf Hleaf.
  clear expired Hm. intros Hc Hi Hk. unfold leaf_community. destruct (strengths_spec i rows Hk ∅) as [st ->]. cbn [mbind option_bind].
  destruct (mapM_total (concept_name c) (class_of nodes m i)) as [names Hn].
  { intros x Hx. apply (concept_name_total Hwf). by eapply class_concept. }
  assert (Hml : exists ms, mapM (leaf_member c st) (class_of nodes m i) = Some ms /\ cm_name <$> ms = names).
  { clear -Hn. revert names Hn. induction (class_of nodes m i) as [|x l IH]; intros names Hn; cbn [mapM] in *.
    - injection Hn as <-. by exists [].
    - destruct (concept_name c x) as [s|] eqn:Hx; [|done]. cbn [mbind option_bind] in *.
      destruct (mapM (concept_name c) l) as [ns|] eqn:Hl; [|done]. injection Hn as <-.
      destruct (IH ns eq_refl) as (ms & -> & <-). unfold leaf_member. rewrite Hx. cbn [mbind option_bind].
      eexists. split; [reflexivity|]. done. }
  destruct Hml as (ms & Hms & Hnames). rewrite Hms. cbn [mbind option_bind].
  destruct (mapM_total (named_edge c) rows) as [named Hnamed].
  { intros row Hr. destruct (named_edge_spec i row (Hk row Hr)) as (_ & ne & _ & ? & _). by exists ne. }
  rewrite Hnamed. cbn [mbind option_bind]. set (tops := take _ _).
  assert (Htops : forall row, row ∈ tops -> kept i row).
  { intros row Hr. apply Hk. apply elem_of_take in Hr as (k & Hr & _). apply list_elem_of_lookup_2 in Hr.
    rewrite merge_sort_Permutation in Hr. by apply list_elem_of_filter in Hr as [_ ?]. }
  destruct (mapM_total (top_association c) tops) as [top Htop].
  { intros row Hr. unfold top_association. destruct (named_edge_spec i row (Htops row Hr)) as (_ & ne & _ & -> & _).
    cbn [mbind option_bind]. by eexists. }
  rewrite Htop. cbn [mbind option_bind].
  assert (Hpar : exists parent, match head asgs with None => Some None | Some parents => p ← tget parents i; Some (Some (community_id 1 p)) end
    = Some parent /\ forall co, co_parent co = parent -> parent_told 0 m above i co).
  { destruct (parent_spec g m n asgs above 0 i Hc Hi) as (parent & Hp & Ht). exists parent. split; [|done]. rewrite <- Hp.
    destruct Hc; reflexivity. }
  destruct Hpar as (parent & Hpar & Htold). rewrite Hpar. cbn [mbind option_bind].
  eexists _, _. split; [reflexivity|]. split; [done|]. split; [done|]. split; [|split; [by apply Htold|]].
  { cbn. apply mapM_Some, Forall2_lenN in Hms. by rewrite <- Hms. }
  split; [done|]. split; [|split].
  - exists names. split; [done|]. cbn. rewrite <- Hnames. by rewrite merge_sort_Permutation.
  - cbn. apply mapM_Some, Forall2_length in Htop. rewrite <- Htop. unfold tops. rewrite length_take. lia.
  - cbn. intros t Ht. apply mapM_Some in Htop. apply list_elem_of_lookup in Ht as [k Hk'].
    destruct (Forall2_lookup_r _ _ _ _ _ Htop Hk') as (row & Hrow & Hta). apply list_elem_of_lookup_2, Htops in Hrow.
    destruct (named_edge_spec i row Hrow) as (e & ne & He & Hne & _ & Es & El & Eo).
    destruct Hrow as (e' & He' & Hsum & Hcount & Hlive & Hs & Ho). rewrite He in He'. injection He' as <-.
    unfold top_association in Hta. rewrite Hne in Hta. injection Hta as <-. exists e. cbn. rewrite Hsum, Hcount.
    split; [apply tget_Some_elem; by exists (in_edge row)|]. done.
Qed.

Lemma leaves_spec parents (Q : N -> Community -> Prop) rows :
  (forall r, r ∈ rows -> exists d co, leaf_community c parents r.1 r.2.1 r.2.2 = Some (d, co) /\ Q r.1 co) -> forall polls,
  (leaves expired c parents rows polls = Some (Err Deadline_exceeded) /\ exists p, expired p = true) \/
  exists polls' out, leaves expired c parents rows polls = Some (Ok (polls', out)) /\ Forall2 (fun r p => Q r.1 p.2) rows out.
Proof using.
  clear Hm Hleaf Hwf H. induction rows as [|[i [ms ed]] rows IH]; intros Hr polls; cbn [leaves]; [right; by exists polls, []|].
  destruct (expired polls) eqn:Hx; [left; split; [done | by exists polls]|].
  destruct (Hr (i, (ms, ed))) as (d & co & Hl & HQ); [by left|]. cbn [fst snd] in Hl. rewrite Hl. cbn [mbind option_bind].
  destruct (IH (fun r Hin => Hr r (list_elem_of_further _ _ _ Hin)) (polls + 1)) as [[-> Hk]|(polls' & out & -> & Hf)]; [by left|right].
  exists polls', ((d, co) :: out). split; [done|]. by constructor.
Qed.

(** The rows read are those of a class and its kept edges. *)
Lemma rows_read (members : list (list ConceptId)) (induced : list (list Induced)) i ms ed : (i, (ms, ed)) ∈ zip (indices members) (zip members induced) ->
  tget members i = Some ms /\ tget induced i = Some ed.
Proof using.
  clear. intros [k Hk]%list_elem_of_lookup. apply lookup_zip_Some in Hk as [Hi Hz]. apply lookup_zip_Some in Hz as [Hms His].
  unfold indices in Hi. rewrite list_lookup_fmap in Hi. destruct (seq _ _ !! k) eqn:Hs; [|done]. apply lookup_seq in Hs as [-> _].
  injection Hi as <-. by rewrite !tget_lookup, Nat2N.id.
Qed.

Lemma assemble_spec asgs above polls : climbs g m n asgs above -> per_level_of (m :: asgs) = Some (m :: above.*1) ->
  (assemble expired c nodes (m :: asgs) polls = Some (Err Deadline_exceeded) /\ exists k, expired k = true) \/
  exists cs, assemble expired c nodes (m :: asgs) polls = Some (Ok cs) /\ listed c nodes 0 None ((m, n) :: above) cs.
Proof using Hwf Hleaf Hm.
  intros Hc Hp. unfold assemble. rewrite Hp. cbn [mbind option_bind head tail].
  rewrite (count_at_dense m n (lv_dense _ _ _ Hm)).
  destruct members_spec as (members & Hmem & Hml & Hmc). rewrite Hmem. cbn [mbind option_bind].
  destruct (induce_spec (edges c) 0 polls (replicate (N.to_nat n) [])) as [[-> Hk]|(polls1 & induced & -> & Hil & Hik)]; [done| |by left|].
  { split; [unfold lenN; rewrite length_replicate; lia|]. intros i l row Hi Hr. rewrite tget_lookup in Hi.
    apply lookup_replicate in Hi as [-> _]. by apply not_elem_of_nil in Hr. }
  unfold andThen at 1 3. cbn [mbind option_bind]. set (rows := zip (indices members) (zip members induced)).
  assert (Hrow : forall r, r ∈ rows -> exists d co, leaf_community c (head asgs) r.1 r.2.1 r.2.2 = Some (d, co) /\ told c nodes 0 None m above r.1 co).
  { intros [i [ms ed]] Hr. apply rows_read in Hr as [Hms His]. cbn [fst snd]. rewrite (Hmc _ _ Hms).
    apply (leaf_community_spec asgs above i ed Hc); [rewrite <- Hml; by eapply tget_Some_lt|]. intros row. by apply (Hik i ed row). }
  destruct (leaves_spec (head asgs) (told c nodes 0 None m above) rows Hrow polls1) as [[-> Hk]|(polls2 & out & -> & Hf)]; [by left|right].
  unfold andThen. cbn [mbind option_bind].
  assert (Hol : lenN out = n).
  { apply Forall2_lenN in Hf. rewrite <- Hf. unfold rows, lenN in *. rewrite !length_zip_with, indices_length. lia. }
  destruct (upper_spec c g nodes asgs (lf_length _ _ _ Hleaf) 1 m n above out.*1 Hc) as (cs & -> & Hl); [by rewrite lenN_fmap|].
  cbn [mbind option_bind]. eexists. split; [reflexivity|]. constructor; [by rewrite lenN_fmap| |done].
  intros i co Hi. rewrite tget_fmap in Hi. destruct (tget out i) as [p|] eqn:Hpo; [|done]. injection Hi as <-.
  rewrite tget_lookup in Hpo. destruct (Forall2_lookup_r _ _ _ _ _ Hf Hpo) as ([i' [ms ed]] & Hr & Ht). cbn in Ht.
  enough (i' = i) by congruence. unfold rows in Hr. apply lookup_zip_Some in Hr as [Hr _].
  unfold indices in Hr. rewrite list_lookup_fmap in Hr. destruct (seq _ _ !! _) eqn:Hs; [|done]. apply lookup_seq in Hs as [-> _].
  injection Hr as <-. lia.
Qed.
End leaf.

(** ** The hierarchy *)

(** Linked concepts of one class. *)
Definition joined (c : Context) (nodes : list ConceptId) (here : list N) (i : N) (x y : ConceptId) : Prop :=
  linked c x y /\ x ∈ class_of nodes here i /\ y ∈ class_of nodes here i.

(** Classes [0 .. n), none empty, each connected through its own concepts. *)
Record partition_ok (c : Context) (nodes : list ConceptId) (here : list N) (n : N) : Prop := {
  pt_length : lenN here = lenN nodes;
  pt_dense : dense here n;
  pt_connected : forall i x y, x ∈ class_of nodes here i -> y ∈ class_of nodes here i -> rtc (joined c nodes here i) x y
}.

(** Leaves first: every level has fewer classes, unions of those below. *)
Inductive hierarchy (c : Context) (nodes : list ConceptId) : list (list N * N) -> Prop :=
| hierarchy_none : nodes = [] -> hierarchy c nodes []
| hierarchy_top here n : partition_ok c nodes here n -> hierarchy c nodes [(here, n)]
| hierarchy_up here n above n' rest : partition_ok c nodes here n -> n' < n ->
    (forall x y, tget here x = tget here y -> tget above x = tget above y) ->
    hierarchy c nodes ((above, n') :: rest) -> hierarchy c nodes ((here, n) :: (above, n') :: rest).

Lemma level_partition c nodes g here n : leaf_ok c nodes g -> level_ok g here n -> partition_ok c nodes here n.
Proof.
  intros Hleaf [Hl Hd Hc]. pose proof (lf_length _ _ _ Hleaf) as Hlen. split; [congruence | done |].
  intros i x y (jx & Hx & Hix)%elem_of_class (jy & Hy & Hiy)%elem_of_class.
  pose proof (Hc jx jy i Hix Hiy) as Hr. clear Hix. revert x Hx. induction Hr as [j|jx jz jy (Hadj & Hix & Hiz) Hr IH]; intros x Hx.
  - assert (x = y) as -> by congruence. apply rtc_refl.
  - destruct (tget_lt nodes jz) as [z Hz]; [rewrite <- Hlen; by apply (gk_range _ (lf_graph _ _ _ Hleaf) jx)|].
    eapply rtc_l; [|by apply (IH Hy Hiy z)]. split; [by apply (lf_links _ _ _ Hleaf jx jz)|].
    split; apply elem_of_class; [by exists jx | by exists jz].
Qed.

Lemma climbs_hierarchy c nodes g m n asgs above : leaf_ok c nodes g -> climbs g m n asgs above ->
  hierarchy c nodes ((m, n) :: above).
Proof.
  intros Hleaf Hc. induction Hc as [m n Hm|m n a m' n' asgs above Hm Hlt Ha Hcomp Hc IH].
  - apply hierarchy_top. by eapply level_partition.
  - apply hierarchy_up; [by eapply level_partition|done| |done]. intros x y Hxy. by rewrite !Hcomp, Hxy.
Qed.

Lemma climbs_length g m n asgs above : climbs g m n asgs above -> length asgs = length above.
Proof. induction 1; simpl; congruence. Qed.

(** C33. Community detection ends one of three ways: out of fuel, which for a
    deadline that passes by poll [K] takes fewer than [DEADLINE_STRIDE * (K + 1)]
    passes of fuel; at a poll that found the deadline passed; or with the
    hierarchy.  Then the concepts counted are those with a live, weighing
    association to another concept, the edges counted the pairs so linked; at
    every level the concepts fall into non-empty classes, each connected by
    links between its own concepts; every level has strictly fewer classes,
    unions of those below, and at most [MAX_LEVELS] of them; and the list holds
    one community per class, leaves first: its level and number as its id, its
    number of concepts, its parent the class above that contains it, a leaf with
    the names of its concepts and live associations between them, an upper one
    with the classes below it as children. *)
Theorem community_hierarchy `{UnicodeTables} fuel expired c (Hwf : wf c) :
  (communities fuel expired c = None /\ too_short fuel expired) \/
  (communities fuel expired c = Some (Err Deadline_exceeded) /\ exists k, expired k = true) \/
  exists an nodes levels (pairs : gset (ConceptId * ConceptId)), communities fuel expired c = Some (Ok an) /\
    (StronglySorted N.lt nodes /\ forall x, x ∈ nodes <-> exists y, linked c x y) /\
    (forall x y, (x, y) ∈ pairs <-> x < y /\ linked c x y) /\
    an_concept_count an = lenN nodes /\ an_edge_count an = N.of_nat (size pairs) /\
    an_levels an = lenN levels /\ (length levels <= MAX_LEVELS)%nat /\
    hierarchy c nodes levels /\ listed c nodes 0 None levels (an_communities an).
Proof.
  unfold communities. destruct (leaf_graph_spec expired c) as [[-> Hk]|(polls & nodes & g & -> & Hleaf)]; [right; by left|].
  unfold andThen at 1 4 7. cbn [mbind option_bind]. destruct (lf_edges _ _ _ Hleaf) as (pairs & Hpc & Hpairs).
  assert (Hec : N.of_nat (sum_list (length <$> wg_neighbors g)) / 2 = N.of_nat (size pairs)).
  { change (sum_list (length <$> wg_neighbors g)) with (row_count (wg_neighbors g)). rewrite Hpc.
    rewrite Nat2N.inj_mul, N.mul_comm. by apply N.div_mul. }
  case_bool_decide as Hne.
  - right. right. eexists _, nodes, [], pairs. split; [reflexivity|]. cbn. subst nodes.
    assert (Hpe : pairs = ∅).
    { apply set_eq. intros [x y]. rewrite Hpairs. split; [|set_solver]. intros [_ Hl]. exfalso.
      apply (not_elem_of_nil x), (lf_nodes _ _ _ Hleaf). by exists y. }
    split; [split; [constructor | apply (lf_nodes _ _ _ Hleaf)]|]. split; [done|]. split; [done|]. split; [by rewrite Hpe, size_empty|].
    split; [done|]. split; [lia|]. split; [by apply hierarchy_none | apply listed_nil].
  - assert (Hg0 : wg_len g <> 0).
    { rewrite (lf_length _ _ _ Hleaf). unfold lenN. destruct nodes; [done | simpl; lia]. }
    destruct (ladder_spec fuel expired MAX_LEVELS g polls (lf_graph _ _ _ Hleaf) Hg0)
      as [[-> Hs]|[[-> Hk]|(polls1 & asgs & -> & Ht & Hal)]]; [by left|right; by left|].
    unfold andThen at 1 3 5. cbn [mbind option_bind].
    destruct (detected_levels g nodes asgs (lf_length _ _ _ Hleaf) (lf_graph _ _ _ Hleaf) Ht) as (leaf & rest & n & above & He & Hp & Hc).
    assert (Hll : (length (leaf :: rest) <= MAX_LEVELS)%nat).
    { rewrite <- He. case_bool_decide; [unfold MAX_LEVELS; simpl; lia | done]. }
    rewrite He. destruct (assemble_spec c Hwf g nodes Hleaf leaf n (climbs_level _ _ _ _ _ Hc) expired rest above polls1 Hc Hp)
      as [[-> Hk]|(cs & -> & Hcs)]; [right; by left|].
    right. right. unfold andThen. cbn [mbind option_bind]. pose proof (climbs_length _ _ _ _ _ Hc) as Hcl.
    eexists _, nodes, ((leaf, n) :: above), pairs. split; [reflexivity|]. cbn.
    split; [split; [apply (lf_sorted _ _ _ Hleaf) | apply (lf_nodes _ _ _ Hleaf)]|]. split; [done|]. split; [done|]. split; [done|].
    split; [unfold lenN; simpl; congruence|]. split; [simpl in Hll |- *; lia|]. split; [by eapply climbs_hierarchy | done].
Qed.

(** ** Two triangles joined by a weak link *)

Definition link (subject object : string) (weight : f64) : Triple :=
  {| w_subject := str subject; w_label := str "knows"; w_object := str object; w_weight := weight; w_source := None; w_paragraph := None |}.

Definition triangle_writes : list Triple := [
  link "a" "b" 1%float; link "b" "c" 1%float; link "c" "a" (-1)%float;
  link "x" "y" 1%float; link "y" "z" 1%float; link "z" "x" 1%float; link "c" "x" 0.5%float ].

Definition triangles : Context := default Context_default (@run_writes ascii_tables triangle_writes Context_default).

Lemma triangles_wf : @wf ascii_tables triangles.
Proof.
  eapply (@run_writes_wf ascii_tables triangle_writes Context_default); [apply wf_default|]. apply succeeds_default. vm_compute. reflexivity.
Qed.

(** A deadline that passes by the tenth poll. *)
Definition by_tenth (poll : N) : bool := 10 <=? poll.

Lemma community_hierarchy_witness : exists an nodes levels,
  communities 3 by_tenth triangles = Some (Ok an) /\
  (fun co => (co_id co, (cm_name <$> co_members co, co_concept_count co))) <$> an_communities an =
    [(str "L0-0", ([str "a"; str "b"; str "c"], 3)); (str "L0-1", ([str "x"; str "y"; str "z"], 3))] /\
  an_edge_count an = 7 /\ hierarchy triangles nodes levels /\ listed triangles nodes 0 None levels (an_communities an).
Proof.
  destruct (@community_hierarchy ascii_tables 3 by_tenth triangles triangles_wf)
    as [[Hn _]|[[He _]|(an & nodes & levels & pairs & Han & _ & _ & _ & _ & _ & _ & Hh & Hl)]].
  - exfalso. revert Hn. vm_compute. discriminate.
  - exfalso. revert He. vm_compute. discriminate.
  - exists an, nodes, levels. split; [exact Han|].
    assert (Hr : (fun r => match r with Some (Ok an) =>
        ((fun co => (co_id co, (cm_name <$> co_members co, co_concept_count co))) <$> an_communities an, an_edge_count an)
      | _ => ([], 0) end) (communities 3 by_tenth triangles) =
      ([(str "L0-0", ([str "a"; str "b"; str "c"], 3)); (str "L0-1", ([str "x"; str "y"; str "z"], 3))], 7)) by (vm_compute; reflexivity).
    rewrite Han in Hr. cbn beta iota in Hr. injection Hr as Hr1 Hr2.
    split; [exact Hr1|]. split; [exact Hr2|]. split; [exact Hh | exact Hl].
Defined.
