(* ===== verification/RetrievalCache.v ===== *)
(** * The exact-match retrieval cache ([src/registry/retrieval_cache.rs])

    A byte-budgeted cache of responses under literal keys, evicting the stalest
    first: a hash map of slots and a side index from ticks to keys.  A response
    is its serialized bytes; a top score is the bits of an [f32].  Machine
    integers wrap, as a release build does. *)

From S2P Require Export Bytes.

Local Open Scope N_scope.

Definition u64_sub (a b : N) : N := (a + (U64_MAX + 1) - b) mod (U64_MAX + 1).

(** ** Keys and values *)

Inductive RetrievalCacheOp := OpRecall | OpQuery | OpSearchPassages | OpSearchCommunities.

Record TargetFingerprint := {
  tf_id : name;
  tf_name : name;
  tf_identity : N;
  tf_lanes : N * N
}.

Record RetrievalKey := {
  rk_op : RetrievalCacheOp;
  rk_targets : list TargetFingerprint;
  rk_params : name
}.

#[export] Instance RetrievalCacheOp_eq_dec : EqDecision RetrievalCacheOp.
Proof. solve_decision. Defined.
#[export] Instance RetrievalCacheOp_countable : Countable RetrievalCacheOp.
Proof.
  refine (inj_countable' (fun op => match op with OpRecall => 0 | OpQuery => 1 | OpSearchPassages => 2 | OpSearchCommunities => 3 end)
    (fun n => match n with 0 => OpRecall | 1 => OpQuery | 2 => OpSearchPassages | _ => OpSearchCommunities end) _).
  by intros [].
Defined.
#[export] Instance TargetFingerprint_eq_dec : EqDecision TargetFingerprint.
Proof. solve_decision. Defined.
#[export] Instance TargetFingerprint_countable : Countable TargetFingerprint.
Proof.
  refine (inj_countable' (fun t => (tf_id t, tf_name t, tf_identity t, tf_lanes t))
    (fun '(i, n, d, l) => {| tf_id := i; tf_name := n; tf_identity := d; tf_lanes := l |}) _).
  by intros [].
Defined.
#[export] Instance RetrievalKey_eq_dec : EqDecision RetrievalKey.
Proof. solve_decision. Defined.
#[export] Instance RetrievalKey_countable : Countable RetrievalKey.
Proof.
  refine (inj_countable' (fun k => (rk_op k, rk_targets k, rk_params k))
    (fun '(o, t, p) => {| rk_op := o; rk_targets := t; rk_params := p |}) _).
  by intros [].
Defined.

Record CachedRetrieval := {
  cr_payload : bytes;
  cr_target_empty : list bool;
  cr_lane_hits : N * N * N;
  cr_log_hits : N;
  cr_log_top_score : N
}.

Record ContextRevision := { rev_graph : N; rev_passages : N; rev_config : N }.

(** The pair of revision lanes an operation's response can depend on. *)
Definition op_lanes (op : RetrievalCacheOp) (revision : ContextRevision) : N * N :=
  match op with
  | OpRecall | OpQuery => (rev_graph revision, rev_passages revision)
  | OpSearchPassages | OpSearchCommunities => (rev_passages revision, rev_config revision)
  end.

(** What the registry answers for a target that is not deleted. *)
Record TargetView := { tv_name : name; tv_identity : N; tv_revision : ContextRevision }.

(** [retrieval_key]: no key when the cache is off, the parameters did not
    serialize or a target is gone. *)
Definition retrieval_key (enabled : bool) (lookup_id : name -> option TargetView) (op : RetrievalCacheOp)
    (targets : list name) (params : option name) : option RetrievalKey :=
  if negb enabled then None
  else
    params ← params;
    targets ← mapM (fun id =>
      view ← lookup_id id;
      Some {| tf_id := id; tf_name := tv_name view; tf_identity := tv_identity view;
              tf_lanes := op_lanes op (tv_revision view) |}) targets;
    Some {| rk_op := op; rk_targets := targets; rk_params := params |}.

(** ** The cache *)

Record CacheSlot := {
  cs_key : RetrievalKey;
  cs_value : CachedRetrieval;
  cs_cost : N;
  cs_tick : N
}.

Record RetrievalCache := {
  rc_entries : gmap RetrievalKey CacheSlot;
  rc_order : gmap N RetrievalKey;
  rc_bytes : N;
  rc_budget : N;
  rc_tick : N
}.

Definition DEFAULT_RETRIEVAL_CACHE_BYTES : N := 32 * 1024 * 1024.
Definition TYPICAL_RETRIEVAL_PAYLOAD_BYTES : N := 4 * 1024.

Definition budget_seats_nothing (budget : N) : bool :=
  negb (budget =? 0) && (budget / 4 <=? TYPICAL_RETRIEVAL_PAYLOAD_BYTES).

Definition cache_new (budget : N) : RetrievalCache :=
  {| rc_entries := ∅; rc_order := ∅; rc_bytes := 0; rc_budget := budget; rc_tick := 0 |}.

Definition is_enabled (c : RetrievalCache) : bool := negb (rc_budget c =? 0).

Definition slot_cost (key : RetrievalKey) (value : CachedRetrieval) : N :=
  let key_bytes := u64_add
    (foldl (fun sum t => u64_add sum (u64_add (lenN (tf_id t)) 24)) 0 (rk_targets key)) (lenN (rk_params key)) in
  u64_add (u64_add (lenN (cr_payload value)) key_bytes) 64.

(** [lookup]: the slot, moved to a fresh tick. *)
Definition cache_lookup (key : RetrievalKey) (c : RetrievalCache) : option CachedRetrieval * RetrievalCache :=
  if negb (is_enabled c) then (None, c)
  else
    let tick := u64_add (rc_tick c) 1 in
    match rc_entries c !! key with
    | None => (None, {| rc_entries := rc_entries c; rc_order := rc_order c; rc_bytes := rc_bytes c;
                        rc_budget := rc_budget c; rc_tick := tick |})
    | Some slot =>
      (Some (cs_value slot),
       {| rc_entries := <[key := {| cs_key := cs_key slot; cs_value := cs_value slot; cs_cost := cs_cost slot; cs_tick := tick |}]> (rc_entries c);
          rc_order := <[tick := cs_key slot]> (delete (cs_tick slot) (rc_order c));
          rc_bytes := rc_bytes c; rc_budget := rc_budget c; rc_tick := tick |})
    end.

Definition row_le (p q : N * RetrievalKey) : Prop := p.1 <= q.1.
#[export] Instance row_le_dec p q : Decision (row_le p q).
Proof. unfold row_le. apply _. Defined.

(** The row [BTreeMap::pop_first] takes. *)
Definition first_row (order : gmap N RetrievalKey) : option (N * RetrievalKey) :=
  head (merge_sort row_le (map_to_list order)).

(** Replacing a resident key gives its bytes back. *)
Definition drop_key (key : RetrievalKey) (c : RetrievalCache) : RetrievalCache :=
  match rc_entries c !! key with
  | Some previous =>
    {| rc_entries := delete key (rc_entries c); rc_order := delete (cs_tick previous) (rc_order c);
       rc_bytes := u64_sub (rc_bytes c) (cs_cost previous); rc_budget := rc_budget c; rc_tick := rc_tick c |}
  | None => c
  end.

(** One eviction: the stalest row, and its slot when the two maps agree. *)
Definition evict_row (row : N * RetrievalKey) (c : RetrievalCache) : RetrievalCache :=
  let order := delete row.1 (rc_order c) in
  match rc_entries c !! row.2 with
  | Some evicted =>
    {| rc_entries := delete row.2 (rc_entries c); rc_order := order;
       rc_bytes := u64_sub (rc_bytes c) (cs_cost evicted); rc_budget := rc_budget c; rc_tick := rc_tick c |}
  | None =>
    {| rc_entries := rc_entries c; rc_order := order; rc_bytes := rc_bytes c; rc_budget := rc_budget c; rc_tick := rc_tick c |}
  end.

(** Evict until the new slot fits; each round takes a row, so their number is
    fuel enough. *)
Fixpoint make_room (fuel : nat) (cost : N) (c : RetrievalCache) : RetrievalCache :=
  if rc_budget c <? u64_add (rc_bytes c) cost then
    match fuel with
    | O => c
    | S fuel =>
      match first_row (rc_order c) with
      | None => c
      | Some row => make_room fuel cost (evict_row row c)
      end
    end
  else c.

Definition cache_insert (key : RetrievalKey) (value : CachedRetrieval) (c : RetrievalCache) : RetrievalCache :=
  if negb (is_enabled c) then c
  else
    let cost := slot_cost key value in
    if rc_budget c / 4 <? cost then c
    else
      let c := drop_key key c in
      let c := make_room (size (rc_order c)) cost c in
      let tick := u64_add (rc_tick c) 1 in
      {| rc_entries := <[key := {| cs_key := key; cs_value := value; cs_cost := cost; cs_tick := tick |}]> (rc_entries c);
         rc_order := <[tick := key]> (rc_order c);
         rc_bytes := u64_add (rc_bytes c) cost; rc_budget := rc_budget c; rc_tick := tick |}.

(** A sequence of consultations and fills, with the answers. *)
Inductive CacheOp := Consult (key : RetrievalKey) | Fill (key : RetrievalKey) (value : CachedRetrieval).

Definition cache_step (op : CacheOp) (c : RetrievalCache) : list (option CachedRetrieval) * RetrievalCache :=
  match op with
  | Consult key => let '(r, c) := cache_lookup key c in ([r], c)
  | Fill key value => ([], cache_insert key value c)
  end.

Fixpoint cache_run (ops : list CacheOp) (c : RetrievalCache) : list (option CachedRetrieval) * RetrievalCache :=
  match ops with
  | [] => ([], c)
  | op :: ops => let '(r, c) := cache_step op c in let '(rs, c) := cache_run ops c in (r ++ rs, c)
  end.

(** * The retrieval cache is a list

    The two maps of the cache in lockstep are one list of responses, stalest
    first: a consultation moves its response to the end, a fill drops from the
    front until the new one fits the budget. *)

(** ** The reference *)

Notation lru := (list (RetrievalKey * CachedRetrieval)).

Definition total (l : lru) : N := foldr (fun p sum => slot_cost p.1 p.2 + sum) 0 l.

Definition assoc (key : RetrievalKey) (l : lru) : option CachedRetrieval := snd <$> head (filter (fun p => p.1 = key) l).
Definition without (key : RetrievalKey) (l : lru) : lru := filter (fun p => p.1 <> key) l.

Fixpoint shed (budget cost : N) (l : lru) : lru :=
  match l with
  | [] => []
  | _ :: rest => if budget <? total l + cost then shed budget cost rest else l
  end.

Definition lru_step (budget : N) (op : CacheOp) (l : lru) : list (option CachedRetrieval) * lru :=
  match op with
  | Consult key =>
    if budget =? 0 then ([None], l)
    else match assoc key l with
         | None => ([None], l)
         | Some value => ([Some value], without key l ++ [(key, value)])
         end
  | Fill key value =>
    if (budget =? 0) || (budget / 4 <? slot_cost key value) then ([], l)
    else ([], shed budget (slot_cost key value) (without key l) ++ [(key, value)])
  end.

Fixpoint lru_run (budget : N) (ops : list CacheOp) (l : lru) : list (option CachedRetrieval) * lru :=
  match ops with
  | [] => ([], l)
  | op :: ops => let '(r, l) := lru_step budget op l in let '(rs, l) := lru_run budget ops l in (r ++ rs, l)
  end.

(** ** The maps as a list of slots *)

Definition row (s : CacheSlot) : RetrievalKey * CachedRetrieval := (cs_key s, cs_value s).

Record slots_of (c : RetrievalCache) (slots : list CacheSlot) : Prop := {
  sl_sorted : StronglySorted (fun s t => cs_tick s < cs_tick t) slots;
  sl_ticks : forall s, s ∈ slots -> cs_tick s <= rc_tick c;
  sl_keys : NoDup (cs_key <$> slots);
  sl_entries : forall k s, rc_entries c !! k = Some s <-> s ∈ slots /\ cs_key s = k;
  sl_order : forall t k, rc_order c !! t = Some k <-> exists s, s ∈ slots /\ cs_tick s = t /\ cs_key s = k;
  sl_cost : forall s, s ∈ slots -> cs_cost s = slot_cost (cs_key s) (cs_value s);
  sl_bytes : rc_bytes c = total (row <$> slots);
  sl_budget : rc_bytes c <= rc_budget c
}.

Lemma u64_sub_small a b : b <= a -> a <= U64_MAX -> u64_sub a b = a - b.
Proof.
  intros Hb Ha. unfold u64_sub. replace (a + (U64_MAX + 1) - b) with (a - b + 1 * (U64_MAX + 1)) by lia.
  rewrite N.Div0.mod_add. apply N.mod_small. unfold U64_MAX in *. lia.
Qed.

Lemma total_cons p l : total (p :: l) = slot_cost p.1 p.2 + total l.
Proof. done. Qed.

Lemma total_app l k : total (l ++ k) = total l + total k.
Proof. induction l as [|p l IH]; simpl; [done | rewrite IH; lia]. Qed.

Lemma total_without key l : total (without key l) <= total l.
Proof.
  unfold without. induction l as [|p l IH]; simpl; [lia|]. rewrite filter_cons. case_decide; simpl; lia.
Qed.

Lemma shed_total budget cost l : cost <= budget -> total (shed budget cost l) + cost <= budget.
Proof.
  intros Hc. induction l as [|p l IH]; simpl; [lia|].
  destruct (N.ltb_spec budget (slot_cost p.1 p.2 + total l + cost)); [done | simpl; lia].
Qed.

Section slots.
Context (c : RetrievalCache) (slots : list CacheSlot) (Hc : slots_of c slots).

Lemma slot_tick_inj s t : s ∈ slots -> t ∈ slots -> cs_tick s = cs_tick t -> s = t.
Proof using Hc.
  pose proof (sl_sorted _ _ Hc) as Hs. clear Hc. induction Hs as [|a l Hl IH Ha]; [by intros ?%not_elem_of_nil|].
  rewrite Forall_forall in Ha. intros [->|Hs]%elem_of_cons [->|Ht]%elem_of_cons Heq; [done| | |by apply IH].
  - specialize (Ha _ Ht). lia.
  - specialize (Ha _ Hs). lia.
Qed.

Lemma slot_key_inj s t : s ∈ slots -> t ∈ slots -> cs_key s = cs_key t -> s = t.
Proof using Hc.
  intros Hs Ht Heq. assert (He : rc_entries c !! cs_key s = Some s) by (by apply (sl_entries _ _ Hc)).
  assert (Hf : rc_entries c !! cs_key s = Some t) by (by apply (sl_entries _ _ Hc)). congruence.
Qed.

(** The stalest row heads the order. *)
Lemma first_slot s rest : slots = s :: rest -> first_row (rc_order c) = Some (cs_tick s, cs_key s).
Proof using Hc.
  intros Hsl. unfold first_row. set (rows := merge_sort row_le (map_to_list (rc_order c))).
  assert (Hrows : forall t k, (t, k) ∈ rows <-> rc_order c !! t = Some k).
  { intros t k. unfold rows. rewrite merge_sort_Permutation. apply elem_of_map_to_list. }
  assert (Hs : (cs_tick s, cs_key s) ∈ rows).
  { apply Hrows, (sl_order _ _ Hc). exists s. split; [rewrite Hsl; by left | done]. }
  assert (Hsort : StronglySorted row_le rows).
  { apply StronglySorted_merge_sort; [intros x y z; unfold row_le; lia | intros x y; unfold row_le; lia]. }
  destruct rows as [|[t k] rows']; [by apply not_elem_of_nil in Hs|]. cbn [head].
  assert (Hle : t <= cs_tick s).
  { apply elem_of_cons in Hs as [[= <- _]|Hs]; [done|]. apply StronglySorted_inv in Hsort as [_ Hall].
    rewrite Forall_forall in Hall. by apply (Hall _ Hs). }
  destruct (proj1 (sl_order _ _ Hc t k)) as (s' & Hs' & Ht & Hk); [apply Hrows; by left|].
  assert (s' = s) as ->; [|congruence].
  rewrite Hsl in Hs'. apply elem_of_cons in Hs' as [->|Hs']; [done|].
  pose proof (sl_sorted _ _ Hc) as Hst. rewrite Hsl in Hst. apply StronglySorted_inv in Hst as [_ Hall].
  rewrite Forall_forall in Hall. specialize (Hall _ Hs'). lia.
Qed.

Lemma order_size : size (rc_order c) = length slots.
Proof using Hc.
  rewrite <- (length_map_to_list (rc_order c)), <- (length_fmap (fun s => (cs_tick s, cs_key s))).
  apply Permutation_length, NoDup_Permutation; [apply NoDup_map_to_list | |].
  - apply (NoDup_fmap_1 snd). rewrite <- list_fmap_compose. apply (sl_keys _ _ Hc).
  - intros [t k]. rewrite elem_of_map_to_list, (sl_order _ _ Hc), list_elem_of_fmap. split.
    + intros (s & Hs & <- & <-). eauto.
    + intros (s & [= -> ->] & Hs). eauto.
Qed.
End slots.

(** ** Taking a slot out, putting one in *)

Definition take_out (s : CacheSlot) (c : RetrievalCache) : RetrievalCache :=
  {| rc_entries := delete (cs_key s) (rc_entries c); rc_order := delete (cs_tick s) (rc_order c);
     rc_bytes := u64_sub (rc_bytes c) (cs_cost s); rc_budget := rc_budget c; rc_tick := rc_tick c |}.

Definition put_in (s : CacheSlot) (c : RetrievalCache) : RetrievalCache :=
  {| rc_entries := <[cs_key s := s]> (rc_entries c); rc_order := <[cs_tick s := cs_key s]> (rc_order c);
     rc_bytes := u64_add (rc_bytes c) (cs_cost s); rc_budget := rc_budget c; rc_tick := cs_tick s |}.

Definition others (key : RetrievalKey) (slots : list CacheSlot) : list CacheSlot :=
  filter (fun s => cs_key s <> key) slots.

Lemma row_others key slots : row <$> others key slots = without key (row <$> slots).
Proof.
  unfold others, without. induction slots as [|s slots IH]; [done|].
  rewrite filter_cons, fmap_cons, filter_cons. change ((row s).1) with (cs_key s).
  destruct (decide (cs_key s <> key)); [rewrite fmap_cons; by f_equal | done].
Qed.

Lemma slots_take_out c slots s : slots_of c slots -> s ∈ slots -> rc_budget c <= U64_MAX ->
  slots_of (take_out s c) (others (cs_key s) slots) /\ rc_bytes (take_out s c) = rc_bytes c - cs_cost s.
Proof.
  intros Hc Hs Hb. pose proof (sl_budget _ _ Hc).
  assert (Htot : total (row <$> slots) = cs_cost s + total (row <$> others (cs_key s) slots)).
  { rewrite (sl_cost _ _ Hc s Hs). pose proof (sl_keys _ _ Hc) as Hnd. clear -Hs Hnd. unfold others.
    induction slots as [|t l IH]; [by apply not_elem_of_nil in Hs|].
    rewrite fmap_cons in Hnd. apply NoDup_cons in Hnd as [Ht Hnd]. rewrite filter_cons.
    apply elem_of_cons in Hs as [->|Hs].
    - rewrite decide_False by (intros Hn; by apply Hn). rewrite fmap_cons, total_cons. cbn [row fst snd]. f_equal. f_equal.
      f_equal. symmetry. apply filter_all. intros x Hx Heq. apply Ht. rewrite <- Heq. by apply list_elem_of_fmap_2.
    - rewrite decide_True; [rewrite !fmap_cons, !total_cons, IH by done; lia|]. intros Heq. apply Ht. rewrite Heq. by apply list_elem_of_fmap_2. }
  assert (Hsub : rc_bytes (take_out s c) = rc_bytes c - cs_cost s).
  { apply u64_sub_small; [|lia]. rewrite (sl_bytes _ _ Hc). lia. }
  split; [|done]. unfold others. split.
  - apply StronglySorted_filter, Hc.
  - intros t [_ Ht]%list_elem_of_filter. by apply (sl_ticks _ _ Hc).
  - apply NoDup_fmap_filter, Hc.
  - intros k t. simpl. rewrite lookup_delete_Some, (sl_entries _ _ Hc), list_elem_of_filter. naive_solver.
  - intros t k. simpl. rewrite lookup_delete_Some, (sl_order _ _ Hc). setoid_rewrite list_elem_of_filter. split.
    + intros (Hne & t' & Ht' & <- & <-). exists t'. split; [|done]. split; [|done]. intros Heq. apply Hne.
      by rewrite (slot_key_inj _ _ Hc t' s Ht' Hs Heq).
    + intros (t' & [Hne Ht'] & <- & <-). split; [|eauto]. intros Heq. apply Hne.
      by rewrite (slot_tick_inj _ _ Hc s t' Hs Ht' Heq).
  - intros t [_ Ht]%list_elem_of_filter. by apply (sl_cost _ _ Hc).
  - rewrite Hsub, (sl_bytes _ _ Hc), Htot. unfold others. lia.
  - rewrite Hsub. simpl. lia.
Qed.

Lemma slots_put_in c slots s : slots_of c slots -> (forall t, t ∈ slots -> cs_key t <> cs_key s) ->
  rc_tick c < cs_tick s -> cs_cost s = slot_cost (cs_key s) (cs_value s) ->
  rc_bytes c + cs_cost s <= rc_budget c -> rc_budget c <= U64_MAX ->
  slots_of (put_in s c) (slots ++ [s]).
Proof.
  intros Hc Hfresh Ht Hcost Hfit Hb. assert (Hadd : rc_bytes (put_in s c) = rc_bytes c + cs_cost s) by (apply u64_add_small; lia).
  split.
  - apply StronglySorted_app_2; [|apply Hc|repeat constructor].
    intros x y Hx ->%list_elem_of_singleton. pose proof (sl_ticks _ _ Hc x Hx). lia.
  - intros t [Hin| ->%list_elem_of_singleton]%elem_of_app; simpl; [|lia].
    pose proof (sl_ticks _ _ Hc t Hin). lia.
  - rewrite fmap_app. apply NoDup_app. split; [apply Hc|]. split; [|apply NoDup_singleton].
    intros k (t & -> & Hin)%list_elem_of_fmap Hk%list_elem_of_singleton. by apply (Hfresh t).
  - intros k t. simpl. rewrite lookup_insert_Some, (sl_entries _ _ Hc), elem_of_app, list_elem_of_singleton. split.
    + intros [[<- <-]|[Hne [Hin Hk]]]; [split; [by right | done] | split; [by left | done]].
    + intros [[Hin| ->] Hk]; [right; split; [|done]; rewrite <- Hk; by apply not_eq_sym, Hfresh | by left].
  - intros u k. simpl. rewrite lookup_insert_Some, (sl_order _ _ Hc). setoid_rewrite elem_of_app.
    setoid_rewrite list_elem_of_singleton. split.
    + intros [[<- <-]|[Hne (t & Hin & Hu & Hk)]]; [exists s; auto | exists t; auto].
    + intros (t & [Hin| ->] & Hu & Hk); [right | by left]. split; [|eauto].
      pose proof (sl_ticks _ _ Hc t Hin). lia.
  - intros t [Hin| ->%list_elem_of_singleton]%elem_of_app; [by apply (sl_cost _ _ Hc) | done].
  - rewrite Hadd, fmap_app, total_app, (sl_bytes _ _ Hc), Hcost. cbn. lia.
  - rewrite Hadd. done.
Qed.

(** ** The operations *)

Lemma drop_key_slots c slots key : slots_of c slots -> rc_budget c <= U64_MAX ->
  slots_of (drop_key key c) (others key slots) /\ rc_budget (drop_key key c) = rc_budget c /\ rc_tick (drop_key key c) = rc_tick c.
Proof.
  intros Hc Hb. unfold drop_key. destruct (rc_entries c !! key) as [s|] eqn:Hk.
  - apply (sl_entries _ _ Hc) in Hk as [Hs <-]. by destruct (slots_take_out c slots s Hc Hs Hb) as [Ht _].
  - unfold others. rewrite filter_all; [done|]. intros s Hs Heq.
    by rewrite (proj2 (sl_entries _ _ Hc key s) (conj Hs Heq)) in Hk.
Qed.

Lemma make_room_slots cost : forall slots fuel c, slots_of c slots -> (length slots <= fuel)%nat ->
  cost <= rc_budget c / 4 -> 5 * rc_budget c <= 4 * U64_MAX ->
  exists kept, slots_of (make_room fuel cost c) kept /\ row <$> kept = shed (rc_budget c) cost (row <$> slots) /\
    rc_budget (make_room fuel cost c) = rc_budget c /\ rc_tick (make_room fuel cost c) = rc_tick c /\
    (forall s, s ∈ kept -> s ∈ slots).
Proof.
  assert (Hsum : forall c slots, slots_of c slots -> cost <= rc_budget c / 4 -> 5 * rc_budget c <= 4 * U64_MAX ->
    u64_add (rc_bytes c) cost = total (row <$> slots) + cost).
  { intros c slots Hc Hcost Hb. rewrite u64_add_small; [by rewrite (sl_bytes _ _ Hc)|].
    pose proof (sl_budget _ _ Hc). pose proof (N.Div0.mul_div_le (rc_budget c) 4). lia. }
  induction slots as [|s rest IH]; intros fuel c Hc Hf Hcost Hb.
  - exists []. assert (Hmr : make_room fuel cost c = c).
    { pose proof (Hsum c [] Hc Hcost Hb) as Hs. pose proof (N.Div0.div_le_upper_bound (rc_budget c) 4 (rc_budget c) ltac:(lia)).
      destruct fuel; simpl; rewrite Hs; (destruct (N.ltb_spec (rc_budget c) (total (row <$> []) + cost)); [simpl in *; lia | done]). }
    by rewrite Hmr.
  - destruct fuel as [|fuel]; [simpl in Hf; lia|]. cbn [make_room]. rewrite (Hsum c (s :: rest) Hc Hcost Hb).
    rewrite fmap_cons. cbn [shed]. destruct (N.ltb_spec (rc_budget c) (total (row s :: (row <$> rest)) + cost)) as [Hlt|Hge].
    2: { exists (s :: rest). done. }
    rewrite (first_slot c (s :: rest) Hc s rest eq_refl).
    assert (Hs : s ∈ s :: rest) by (by left).
    assert (Hev : evict_row (cs_tick s, cs_key s) c = take_out s c).
    { unfold evict_row, take_out. cbn [fst snd]. by rewrite (proj2 (sl_entries _ _ Hc (cs_key s) s) (conj Hs eq_refl)). }
    rewrite Hev. destruct (slots_take_out c _ s Hc Hs ltac:(lia)) as [Ht _].
    assert (Hrest : others (cs_key s) (s :: rest) = rest).
    { unfold others. rewrite filter_cons, decide_False by (intros Hn; by apply Hn). apply filter_all.
      intros t Hin Heq. pose proof (sl_keys _ _ Hc) as Hnd. rewrite fmap_cons in Hnd. apply NoDup_cons in Hnd as [Hni _].
      apply Hni. rewrite <- Heq. by apply list_elem_of_fmap_2. }
    rewrite Hrest in Ht. destruct (IH fuel (take_out s c) Ht ltac:(simpl in Hf; lia) Hcost Hb) as (kept & Hk & Hr & Hbud & Htick & Hin).
    exists kept. split; [done|]. split; [done|]. split; [done|]. split; [done|]. intros t Hk'. right. by apply Hin.
Qed.

Lemma assoc_slots c slots key : slots_of c slots -> assoc key (row <$> slots) = cs_value <$> rc_entries c !! key.
Proof.
  intros Hc. unfold assoc. destruct (rc_entries c !! key) as [s|] eqn:Hk.
  - apply (sl_entries _ _ Hc) in Hk as [Hs <-].
    destruct (filter (fun p => p.1 = cs_key s) (row <$> slots)) as [|[k v] l] eqn:Hf.
    + exfalso. assert (Hin : row s ∈ filter (fun p => p.1 = cs_key s) (row <$> slots)).
      { apply list_elem_of_filter. split; [done | by apply list_elem_of_fmap_2]. }
      rewrite Hf in Hin. by apply not_elem_of_nil in Hin.
    + assert (Hin : (k, v) ∈ filter (fun p => p.1 = cs_key s) (row <$> slots)) by (rewrite Hf; by left).
      apply list_elem_of_filter in Hin as [Hkey (t & Ht & Hin)%list_elem_of_fmap]. cbn in Hkey. subst k.
      injection Ht as Hkt ->. by rewrite (slot_key_inj c slots Hc s t Hs Hin Hkt).
  - destruct (filter (fun p => p.1 = key) (row <$> slots)) as [|[k v] l] eqn:Hf; [done|]. exfalso.
    assert (Hin : (k, v) ∈ filter (fun p => p.1 = key) (row <$> slots)) by (rewrite Hf; by left).
    apply list_elem_of_filter in Hin as [Hkey (t & Ht & Hin)%list_elem_of_fmap]. cbn in Hkey. subst k.
    injection Ht as Hkt _. by rewrite (proj2 (sl_entries _ _ Hc key t) (conj Hin (eq_sym Hkt))) in Hk.
Qed.

(** What every reached cache satisfies against its list. *)
Record cache_at (budget ticks : N) (c : RetrievalCache) (l : lru) : Prop := {
  at_slots : exists slots, slots_of c slots /\ row <$> slots = l;
  at_budget : rc_budget c = budget;
  at_ticks : rc_tick c <= ticks;
  at_quarter : forall p, p ∈ l -> slot_cost p.1 p.2 <= budget / 4
}.

Lemma cache_at_new budget : cache_at budget 0 (cache_new budget) [].
Proof.
  split; [|done|done|by intros p ?%not_elem_of_nil]. exists []. split; [|done]. split.
  - constructor.
  - by intros s ?%not_elem_of_nil.
  - constructor.
  - intros k s. simpl. rewrite lookup_empty. split; [done | by intros [?%not_elem_of_nil _]].
  - intros t k. simpl. rewrite lookup_empty. split; [done | by intros (s & ?%not_elem_of_nil & _)].
  - by intros s ?%not_elem_of_nil.
  - done.
  - apply N.le_0_l.
Qed.

Lemma without_elem key l p : p ∈ without key l <-> p.1 <> key /\ p ∈ l.
Proof. unfold without. by rewrite list_elem_of_filter. Qed.

Lemma shed_elem budget cost l p : p ∈ shed budget cost l -> p ∈ l.
Proof.
  induction l as [|q l IH]; [done|]. cbn [shed]. destruct (_ <? _); [|done]. intros Hp. right. by apply IH.
Qed.

Lemma assoc_elem key l v : assoc key l = Some v -> (key, v) ∈ l.
Proof.
  unfold assoc. destruct (filter _ l) as [|[k w] r] eqn:Hf; [done|]. intros [= <-].
  assert (Hin : (k, w) ∈ filter (fun p => p.1 = key) l) by (rewrite Hf; by left).
  apply list_elem_of_filter in Hin as [Hk Hin]. cbn in Hk. by subst k.
Qed.

Lemma lookup_step budget ticks c l key : cache_at budget ticks c l -> budget <= U64_MAX -> ticks < U64_MAX ->
  (cache_step (Consult key) c).1 = (lru_step budget (Consult key) l).1 /\
  cache_at budget (ticks + 1) (cache_step (Consult key) c).2 (lru_step budget (Consult key) l).2.
Proof.
  intros [(slots & Hc & Hl) Hb Ht Hq] Hmax Hlt. cbn [cache_step lru_step]. unfold cache_lookup, is_enabled. rewrite Hb.
  destruct (N.eqb_spec budget 0) as [Hz|Hnz]; cbn [negb fst snd].
  { split; [done|]. split; [by exists slots | done | lia | done]. }
  assert (Htick : u64_add (rc_tick c) 1 = rc_tick c + 1) by (apply u64_add_small; lia). rewrite Htick.
  pose proof (assoc_slots c slots key Hc) as Ha. rewrite Hl in Ha. rewrite Ha.
  destruct (rc_entries c !! key) as [s|] eqn:Hk; cbn [fmap option_fmap option_map fst snd].
  2: { split; [done|]. split; [|done|cbn; lia|done]. exists slots. split; [|done].
       split; [apply Hc | intros s Hs; cbn; pose proof (sl_ticks _ _ Hc s Hs); lia | apply Hc..| cbn; rewrite <- Hb; apply Hc]. }
  split; [done|]. apply (sl_entries _ _ Hc) in Hk as [Hs Hkey].
  set (s' := {| cs_key := cs_key s; cs_value := cs_value s; cs_cost := cs_cost s; cs_tick := rc_tick c + 1 |}).
  destruct (slots_take_out c slots s Hc Hs ltac:(lia)) as [Hout Hbytes].
  assert (Hle : cs_cost s <= rc_bytes c).
  { rewrite (sl_bytes _ _ Hc), (sl_cost _ _ Hc s Hs). clear -Hs. induction slots as [|t r IH]; [by apply not_elem_of_nil in Hs|].
    rewrite fmap_cons, total_cons. apply elem_of_cons in Hs as [->|Hs]; [cbn; lia|]. specialize (IH Hs). lia. }
  pose proof (sl_budget _ _ Hc) as Hbud.
  assert (Hin : slots_of (put_in s' (take_out s c)) (others (cs_key s) slots ++ [s'])).
  { apply slots_put_in; try done.
    - by intros t [? ?]%list_elem_of_filter.
    - cbn. lia.
    - cbn. by apply (sl_cost _ _ Hc).
    - rewrite Hbytes. cbn. lia.
    - cbn. lia. }
  split; cbn [rc_budget rc_tick]; [|done|lia|].
  - exists (others (cs_key s) slots ++ [s']). split; [|rewrite fmap_app, row_others, Hl, Hkey; cbn; by rewrite <- Hkey].
    assert (Heq : put_in s' (take_out s c) = {| rc_entries := <[key:=s']> (rc_entries c);
      rc_order := <[rc_tick c + 1:=cs_key s]> (delete (cs_tick s) (rc_order c)); rc_bytes := rc_bytes c; rc_budget := budget; rc_tick := rc_tick c + 1 |}).
    { unfold put_in, take_out. cbn [rc_entries rc_order rc_bytes rc_budget rc_tick cs_key cs_tick cs_cost s'].
      rewrite <- Hkey, insert_delete_eq, <- Hb. f_equal.
      rewrite u64_sub_small, u64_add_small by lia. lia. }
    by rewrite <- Heq.
  - intros p [Hp| ->%list_elem_of_singleton]%elem_of_app; [by apply without_elem in Hp as [_ ?]; apply Hq|].
    apply Hq, assoc_elem. done.
Qed.

Lemma fill_step budget ticks c l key value : cache_at budget ticks c l -> 5 * budget <= 4 * U64_MAX -> ticks < U64_MAX ->
  (cache_step (Fill key value) c).1 = (lru_step budget (Fill key value) l).1 /\
  cache_at budget (ticks + 1) (cache_step (Fill key value) c).2 (lru_step budget (Fill key value) l).2.
Proof.
  intros [(slots & Hc & Hl) Hb Ht Hq] Hmax Hlt. cbn [cache_step lru_step fst]. unfold cache_insert, is_enabled. rewrite Hb.
  destruct (N.eqb_spec budget 0) as [Hz|Hnz]; cbn [negb orb fst snd].
  { split; [done|]. split; [by exists slots | done | lia | done]. }
  destruct (N.ltb_spec (budget / 4) (slot_cost key value)) as [Hbig|Hfit]; cbn [fst snd].
  { split; [done|]. split; [by exists slots | done | lia | done]. }
  split; [done|]. pose proof (N.Div0.mul_div_le budget 4) as Hq4.
  destruct (drop_key_slots c slots key Hc ltac:(lia)) as (Hd & Hdb & Hdt). set (c1 := drop_key key c) in *.
  destruct (make_room_slots (slot_cost key value) (others key slots) (size (rc_order c1)) c1 Hd)
    as (kept & Hk & Hrow & Hkb & Hkt & Hsub); [by rewrite (order_size _ _ Hd) | by rewrite Hdb, Hb | by rewrite Hdb, Hb|].
  rewrite Hdb, Hb, row_others, Hl in Hrow. set (c2 := make_room _ _ _) in *.
  assert (Htick : u64_add (rc_tick c2) 1 = rc_tick c + 1) by (rewrite u64_add_small; lia).
  set (s := {| cs_key := key; cs_value := value; cs_cost := slot_cost key value; cs_tick := rc_tick c + 1 |}).
  assert (Hin : slots_of (put_in s c2) (kept ++ [s])).
  { apply slots_put_in; try done.
    - intros t Ht'. apply Hsub in Ht'. by apply list_elem_of_filter in Ht' as [? _].
    - cbn. lia.
    - rewrite (sl_bytes _ _ Hk), Hrow, Hkb, Hdb, Hb. cbn. apply shed_total. lia.
    - lia. }
  split; cbn [rc_budget rc_tick]; [|lia|lia|].
  - exists (kept ++ [s]). split; [|by rewrite fmap_app, Hrow]. rewrite Htick. exact Hin.
  - intros p [Hp| ->%list_elem_of_singleton]%elem_of_app; [|done].
    apply shed_elem, without_elem in Hp as [_ Hp]. by apply Hq.
Qed.

Lemma cache_steps budget ops : 5 * budget <= 4 * U64_MAX -> forall ticks c l,
  cache_at budget ticks c l -> ticks + lenN ops <= U64_MAX ->
  (cache_run ops c).1 = (lru_run budget ops l).1 /\
  cache_at budget (ticks + lenN ops) (cache_run ops c).2 (lru_run budget ops l).2.
Proof.
  intros Hb. induction ops as [|op ops IH]; intros ticks c l Hc Hlen.
  - split; [done|]. cbn. by replace (ticks + lenN []) with ticks by (unfold lenN; simpl; lia).
  - replace (lenN (op :: ops)) with (1 + lenN ops) in * by (unfold lenN; simpl; lia).
    assert (Hstep : (cache_step op c).1 = (lru_step budget op l).1 /\
      cache_at budget (ticks + 1) (cache_step op c).2 (lru_step budget op l).2).
    { destruct op; [apply lookup_step | apply fill_step]; first [done | lia]. }
    cbn [cache_run lru_run]. destruct (cache_step op c) as [r c1], (lru_step budget op l) as [r' l1].
    cbn [fst snd] in Hstep. destruct Hstep as [-> Hc1]. destruct (IH _ _ _ Hc1 ltac:(lia)) as [He Hc2].
    destruct (cache_run ops c1) as [rs c2], (lru_run budget ops l1) as [rs' l2]. cbn [fst snd] in *. subst rs'.
    split; [done|]. by replace (ticks + (1 + lenN ops)) with (ticks + 1 + lenN ops) by lia.
Qed.

Lemma entries_size c slots : slots_of c slots -> size (rc_entries c) = length slots.
Proof.
  intros Hc. rewrite <- (length_map_to_list (rc_entries c)), <- (length_fmap (fun s => (cs_key s, s))).
  apply Permutation_length, NoDup_Permutation; [apply NoDup_map_to_list | |].
  - apply (NoDup_fmap_1 fst). rewrite <- list_fmap_compose. apply (sl_keys _ _ Hc).
  - intros [k s]. rewrite elem_of_map_to_list, (sl_entries _ _ Hc), list_elem_of_fmap. split.
    + intros [Hs <-]. eauto.
    + intros (t & [= -> ->] & Hs). eauto.
Qed.

(** C31. The retrieval cache is a byte-bounded LRU.  From an empty cache of a
    budget no more than four fifths of the address space, after any sequence of
    consultations and fills (fewer than 2^64) every answer is the one of a list
    of responses kept stalest first, in which a consultation moves its response
    to the end and a fill, when it costs at most a quarter of the budget,
    replaces its own key, drops from the front only what it must, and goes last.
    The bytes counted are exactly those of the responses resident, never more
    than the budget; no sum wraps; and the tick index has one row per slot. *)
Theorem cache_is_lru budget ops (Hb : 5 * budget <= 4 * U64_MAX) (Hops : lenN ops <= U64_MAX) :
  let c := (cache_run ops (cache_new budget)).2 in
  let l := (lru_run budget ops []).2 in
  (cache_run ops (cache_new budget)).1 = (lru_run budget ops []).1 /\
  (forall key, cs_value <$> rc_entries c !! key = assoc key l) /\
  rc_bytes c = total l /\ rc_bytes c <= budget /\
  (forall p, p ∈ l -> slot_cost p.1 p.2 <= budget / 4) /\
  size (rc_entries c) = length l /\ size (rc_order c) = length l.
Proof.
  intros c l. destruct (cache_steps budget ops Hb 0 _ _ (cache_at_new budget) ltac:(lia)) as [Ha [(slots & Hc & Hl) Hbud _ Hq]].
  fold c l in Hc, Hl, Hbud, Hq. split; [done|]. rewrite <- Hl. split; [intros key; by rewrite (assoc_slots _ _ _ Hc)|].
  split; [apply (sl_bytes _ _ Hc)|]. split; [rewrite <- Hbud; apply (sl_budget _ _ Hc)|].
  split; [by rewrite Hl|]. rewrite length_fmap. split; [by apply entries_size | by apply order_size].
Qed.

(** ** A concrete run *)

Definition sample_key (n : string) : RetrievalKey := {| rk_op := OpRecall; rk_targets := []; rk_params := str n |}.
Definition sample_value (n : N) : CachedRetrieval :=
  {| cr_payload := replicate (N.to_nat n) "000"%byte; cr_target_empty := []; cr_lane_hits := (0, 0, 0);
     cr_log_hits := n; cr_log_top_score := 0 |}.

(** Four responses of a quarter each fill the budget; the fifth evicts the
    stalest, which is [b] since [a] was consulted. *)
Definition sample_ops : list CacheOp := [
  Fill (sample_key "a") (sample_value 35); Fill (sample_key "b") (sample_value 35);
  Fill (sample_key "c") (sample_value 35); Fill (sample_key "d") (sample_value 35);
  Consult (sample_key "a"); Fill (sample_key "e") (sample_value 35);
  Consult (sample_key "b"); Consult (sample_key "a")].

Lemma cache_is_lru_witness :
  5 * 400 <= 4 * U64_MAX /\ lenN sample_ops <= U64_MAX /\
  (cache_run sample_ops (cache_new 400)).1 = [Some (sample_value 35); None; Some (sample_value 35)] /\
  (cache_run sample_ops (cache_new 400)).1 = (lru_run 400 sample_ops []).1.
Proof.
  assert (Hb : 5 * 400 <= 4 * U64_MAX) by (unfold U64_MAX; lia).
  assert (Hl : lenN sample_ops <= U64_MAX) by (vm_compute; discriminate).
  split; [exact Hb|]. split; [exact Hl|]. split; [vm_compute; reflexivity|].
  exact (proj1 (cache_is_lru 400 sample_ops Hb Hl)).
Defined.
