(* ===== verification/Breaker.v ===== *)
(** * The circuit breaker ([src/breaker.rs])

    Shared by the optional network providers.  An [Instant] is a number of
    nanoseconds on the monotone clock, an argument of every call that reads it;
    each method holds the state's lock throughout, so a method is one step, and the
    reads of the clock within one call are taken as one.  The two refusals are values that carry what their message says. *)

From S2P Require Export Prelude.

Local Open Scope N_scope.

Definition DEFAULT_THRESHOLD : N := 3.
Definition DEFAULT_COOLDOWN : N := 30 * 1000000000.

Inductive BreakerState :=
  | Closed (consecutive_failures : N)
  | Open (since : N)
  | HalfOpen (probing : bool) (since : N) (generation : N).

Inductive Admission := Normal | Probe (generation : N).


#[export] Instance Admission_eq_dec : EqDecision Admission.
Proof. solve_decision. Defined.
#[export] Instance BreakerState_eq_dec : EqDecision BreakerState.
Proof. solve_decision. Defined.

Record ProviderBreaker := {
  br_threshold : N;
  br_cooldown : N;
  br_state : BreakerState;
  br_opened_total : N;
  br_short_circuits_total : N;
  br_next_probe_generation : N;
  br_latest_probe_generation : N
}.

Definition set_state (st : BreakerState) (b : ProviderBreaker) : ProviderBreaker :=
  {| br_threshold := br_threshold b; br_cooldown := br_cooldown b; br_state := st; br_opened_total := br_opened_total b;
     br_short_circuits_total := br_short_circuits_total b; br_next_probe_generation := br_next_probe_generation b;
     br_latest_probe_generation := br_latest_probe_generation b |}.
Definition count_opened (b : ProviderBreaker) : ProviderBreaker :=
  {| br_threshold := br_threshold b; br_cooldown := br_cooldown b; br_state := br_state b;
     br_opened_total := u64_add (br_opened_total b) 1; br_short_circuits_total := br_short_circuits_total b;
     br_next_probe_generation := br_next_probe_generation b; br_latest_probe_generation := br_latest_probe_generation b |}.

Definition with_policy (threshold cooldown : N) : ProviderBreaker :=
  {| br_threshold := N.max threshold 1; br_cooldown := cooldown; br_state := Closed 0; br_opened_total := 0;
     br_short_circuits_total := 0; br_next_probe_generation := 0; br_latest_probe_generation := 0 |}.
Definition breaker_new : ProviderBreaker := with_policy DEFAULT_THRESHOLD DEFAULT_COOLDOWN.








(** The wrapping [+= 1] of a [u32]. *)
Definition u32_succ (n : N) : N := (n + 1) mod (U32_MAX + 1).

Definition breaker_record (admission : Admission) (ok : bool) (now : N) (b : ProviderBreaker) : ProviderBreaker :=
  if match admission with Probe generation => negb (generation =? br_latest_probe_generation b) | Normal => false end
  then b
  else if ok then set_state (Closed 0) b
  else
    match admission, br_state b with
    | Probe _, _ => count_opened (set_state (Open now) b)
    | Normal, Closed consecutive_failures =>
      let consecutive_failures := u32_succ consecutive_failures in
      if br_threshold b <=? consecutive_failures then count_opened (set_state (Open now) b)
      else set_state (Closed consecutive_failures) b
    | Normal, _ => b
    end.


Record BreakerSnapshot := {
  sn_state : N;
  sn_consecutive_failures : N;
  sn_opened_total : N;
  sn_short_circuits_total : N
}.

Definition breaker_snapshot (b : ProviderBreaker) : BreakerSnapshot :=
  let '(state_code, consecutive_failures) :=
    match br_state b with
    | Closed consecutive_failures => (0, consecutive_failures)
    | Open _ => (1, br_threshold b)
    | HalfOpen _ _ _ => (2, br_threshold b)
    end in
  {| sn_state := state_code; sn_consecutive_failures := consecutive_failures;
     sn_opened_total := br_opened_total b; sn_short_circuits_total := br_short_circuits_total b |}.

(** * The circuit breaker as a state machine

    The breaker with the admissions its callers still hold: an attempt is
    granted or refused, its outcome is recorded or abandoned, or its caller
    vanishes, in any order and however late. *)


(** The outcome of a claim minted over since is nobody's evidence. *)
Definition stale (a : Admission) (b : ProviderBreaker) : Prop :=
  match a with Probe g => g <> br_latest_probe_generation b | Normal => False end.
#[export] Instance stale_dec a b : Decision (stale a b).
Proof. destruct a; cbn; apply _. Defined.

Definition failures_after (a : Admission) (ok : bool) (b : ProviderBreaker) (failures : list Admission) : list Admission :=
  if decide (stale a b) then failures else if ok then [] else a :: failures.


Definition is_closed (b : ProviderBreaker) : Prop := exists n, br_state b = Closed n.
#[export] Instance is_closed_dec b : Decision (is_closed b).
Proof. unfold is_closed. destruct (br_state b); [left; eauto | right; by intros [? ?]..]. Defined.


Definition probes (flight : list Admission) : list N :=
  omap (fun a => match a with Probe g => Some g | Normal => None end) flight.


Lemma elem_of_probes g flight : g ∈ probes flight <-> Probe g ∈ flight.
Proof.
  unfold probes. rewrite list_elem_of_omap. split.
  - intros ([|g'] & Hin & Hg); [done|]. by injection Hg as ->.
  - intros Hin. by exists (Probe g).
Qed.



Lemma not_closed_open b since : br_state b = Open since -> ~ is_closed b.
Proof. intros Hst [n Hn]. congruence. Qed.





(** ** Every step keeps the invariant *)



















(** One failure out of two leaves the breaker closed and counted; a recorded success
    starts the count afresh. *)
Example one_failure_counted :
  br_state (breaker_record Normal false 100 (with_policy 2 10)) = Closed 1 /\
  br_state (breaker_record Normal true 100 (breaker_record Normal false 100 (with_policy 2 10))) = Closed 0 /\
  failures_after Normal true (with_policy 2 10) [Normal] = [].
Proof. by vm_compute. Qed.
