(* ===== verification/Wal.v ===== *)
(** * The write-ahead log ([src/wal.rs], [src/storage.rs])

    JSON Lines, one record per mutation, each sealed with the CRC-32C of its own
    bytes.  [serde_json] is third-party: a class gives its four entry points the
    log uses, and its laws.  A disk call takes its outcome from an [Io] record, so
    that every failure path of the code is a branch of the model. *)

From S2P Require Export Crc32c.

Local Open Scope N_scope.

(** ** JSON *)

(** What [serde_json] gives a log over the vocabulary [Op]. *)
Class WalJson (Op : Type) := {
  (** [to_vec(&WalRecord { seq, op, crc: None })]. *)
  encode_record : N -> Op -> option bytes;
  (** [from_slice::<WalRecord<Op>>]: seq, op, crc. *)
  parse_record : bytes -> option (N * Op * option N);
  (** [from_slice::<SeqOnly>]. *)
  parse_seq : bytes -> option (N * option N);
  (** [from_slice::<Value>]: the members of a top-level object, each with its
      [as_u64]; no member for any other value. *)
  parse_value : bytes -> option (list (bytes * option N));
  (** [to_value(op)]: the keys, when it is an object. *)
  op_fields : Op -> option (option (list bytes));
  (** What reading a written operation back gives: a weight may come back one
      unit in the last place away. *)
  reread : Op -> Op
}.

(** The byte that ends a line, and an object's closing brace. *)
Definition newline : byte := Byte.x0a.
Definition brace : byte := Byte.x7d.

(** [b",\"crc\":"]. *)
Definition CRC_FIELD : bytes := [Byte.x2c; Byte.x22; Byte.x63; Byte.x72; Byte.x63; Byte.x22; Byte.x3a].
Definition SEQ_KEY : bytes := str "seq".
Definition CRC_KEY : bytes := str "crc".

(** Ten digits hold a [u32]. *)
Definition decimal (n : N) : bytes := decimal_digits 10 n [].

(** ** Errors *)

Inductive corruption :=
  | Undecodable | NoMarker | ChecksumMismatch | UnexplainedField | UnknownOp.

(** [Corrupt] carries the line number [corrupt_record] names. *)
Inductive wal_error :=
  | Corrupt (line : N) (why : corruption)
  | InvalidData (why : corruption)
  | NotFound
  | GrowthRefused
  | IoFailed.

Section wal.
Context {Op : Type} `{WalJson Op}.

(** ** Records *)

(** The line [append_batch] writes for a record, without its newline. *)
Definition seal (record : bytes) : bytes :=
  removelast record ++ CRC_FIELD ++ decimal (crc32c record) ++ [brace].

(** The buffer of a batch; [first_seq + offset] is [u64] arithmetic. *)
Fixpoint batch_buffer (first_seq : N) (offset : N) (ops : list Op) : option bytes :=
  match ops with
  | [] => Some []
  | op :: ops =>
    record ← encode_record (u64_add first_seq offset) op;
    rest ← batch_buffer first_seq (offset + 1) ops;
    Some (seal record ++ [newline] ++ rest)
  end.

(** [windows(n).rposition(|w| w == pattern)], for a non-empty pattern. *)
Fixpoint rposition (pattern line : bytes) : option nat :=
  match line with
  | [] => None
  | _ :: line' =>
    match rposition pattern line' with
    | Some i => Some (S i)
    | None => if decide (take (length pattern) line = pattern) then Some 0%nat else None
    end
  end.

Definition canonical_bytes_of_line (line : bytes) : option bytes :=
  pos ← rposition CRC_FIELD line; Some (take pos line ++ [brace]).

Definition unexplained (fields : option (list bytes)) (member : bytes * option N) : bool :=
  let key := member.1 in
  negb (bool_decide (key = SEQ_KEY)) && negb (bool_decide (key = CRC_KEY)) &&
  negb (match fields with Some keys => bool_decide (key ∈ keys) | None => false end) &&
  match member.2 with Some crc_shaped => crc_shaped <=? U32_MAX | None => false end.

Definition line_has_a_field_the_op_cannot_explain (line : bytes) (op : Op) : result bool wal_error :=
  match parse_value line with
  | None => Err (InvalidData Undecodable)
  | Some members =>
    match op_fields op with
    | None => Err (InvalidData Undecodable)
    | Some fields => Ok (existsb (unexplained fields) members)
    end
  end.

Definition verify_record_crc (line : bytes) (stored : N) : result unit corruption :=
  match canonical_bytes_of_line line with
  | None => Err NoMarker
  | Some canonical => if crc32c canonical =? stored then Ok tt else Err ChecksumMismatch
  end.

(** ** Parsing *)

(** [bytes.split(|b| b == b'\n')]: never empty. *)
Fixpoint split_lines (bs : bytes) : list bytes :=
  match bs with
  | [] => [[]]
  | b :: bs =>
    if decide (b = newline) then [] :: split_lines bs
    else match split_lines bs with
         | line :: lines => (b :: line) :: lines
         | [] => [[b]]
         end
  end.

Inductive TornTail := Discarded (bytes : N) | Recovered (bytes : N).

(** The tail's own errors, before [corrupt_record] adds the line. *)
Definition tail_record_is_complete (tail : bytes) : result bool corruption :=
  match parse_record tail with
  | None => match parse_value tail with Some _ => Err UnknownOp | None => Ok false end
  | Some (_, op, Some stored) => match verify_record_crc tail stored with Ok _ => Ok true | Err e => Err e end
  | Some (_, op, None) =>
    match line_has_a_field_the_op_cannot_explain tail op with
    | Err _ => Err Undecodable
    | Ok true => Err UnexplainedField
    | Ok false => Ok true
    end
  end.

(** [BTreeMap::insert]: sorted, a repeated key replaced. *)
Fixpoint btree_insert (k : N) (v : Op) (m : list (N * Op)) : list (N * Op) :=
  match m with
  | [] => [(k, v)]
  | (k', v') :: m' =>
    if k <? k' then (k, v) :: m
    else if k =? k' then (k, v) :: m'
    else (k', v') :: btree_insert k v m'
  end.

Record Replay := { pending : list (N * Op); top : N; unchecked : N }.

Definition take_record (watermark seq : N) (op : Op) (uncheck : N) (st : Replay) : Replay := {|
  pending := if watermark <? seq then btree_insert seq op (pending st) else pending st;
  top := N.max (top st) seq;
  unchecked := unchecked st + uncheck |}.

(** One line of the decode loop; [line_number] counts from one. *)
Definition log_line (watermark line_number : N) (line : bytes) (st : Replay) : result Replay wal_error :=
  match parse_record line with
  | None => Err (Corrupt line_number Undecodable)
  | Some (seq, op, Some stored) =>
    match verify_record_crc line stored with
    | Err e => Err (Corrupt line_number e)
    | Ok _ => Ok (take_record watermark seq op 0 st)
    end
  | Some (seq, op, None) =>
    stray ←? line_has_a_field_the_op_cannot_explain line op;
    if (stray : bool) then Err (Corrupt line_number UnexplainedField)
    else Ok (take_record watermark seq op 1 st)
  end.

Fixpoint log_lines (watermark line_number : N) (lines : list bytes) (st : Replay) : result Replay wal_error :=
  match lines with
  | [] => Ok st
  | line :: lines =>
    st ←? log_line watermark line_number line st;
    log_lines watermark (line_number + 1) lines st
  end.

(** The last segment, popped; what is left, and its tear. *)
Definition torn_tail (segments : list bytes) : result (list bytes * option TornTail) wal_error :=
  let lines := removelast segments in
  let tail := List.last segments [] in
  if decide (tail = []) then Ok (lines, None)
  else match tail_record_is_complete tail with
       | Err e => Err (Corrupt (lenN lines + 1) e)
       | Ok true => Ok (lines ++ [tail], Some (Recovered (lenN tail)))
       | Ok false => Ok (lines, Some (Discarded (lenN tail)))
       end.

Definition parse_log (bs : bytes) (watermark : N) : result (list Op * N * option TornTail * N) wal_error :=
  '(lines, torn) ←? torn_tail (split_lines bs);
  st ←? log_lines watermark 1 lines {| pending := []; top := watermark; unchecked := 0 |};
  Ok ((pending st).*2, top st, torn, unchecked st).

(** ** The file *)

(** Its contents, when it exists. *)
Definition file : Type := option bytes.

Record TruncateIo := { t_open : bool; t_metadata : bool; t_set_len : bool; t_sync : bool }.

Definition truncate_to (io : TruncateIo) (len : N) (f : file) : result unit wal_error * file :=
  match f with
  | None => (Err NotFound, None)
  | Some content =>
    if negb (t_open io && t_metadata io) then (Err IoFailed, f)
    else if lenN content <? len then (Err GrowthRefused, f)
    else if negb (t_set_len io) then (Err IoFailed, f)
    else (if t_sync io then Ok tt else Err IoFailed, Some (take (N.to_nat len) content))
  end.

(** [reset]: a missing log is an empty one. *)
Definition reset (io : TruncateIo) (f : file) : result unit wal_error * file :=
  match truncate_to io 0 f with
  | (Err NotFound, f) => (Ok tt, f)
  | r => r
  end.

Record HealIo := { h_open : bool; h_write : bool; h_sync : bool }.

Definition append_missing_newline (io : HealIo) (f : file) : result unit wal_error * file :=
  match f with
  | None => (Err NotFound, None)
  | Some content =>
    if negb (h_open io && h_write io) then (Err IoFailed, f)
    else (if h_sync io then Ok tt else Err IoFailed, Some (content ++ [newline]))
  end.

Record AppendIo := {
  a_open : bool;            (* the create or the reopen *)
  a_dir_sync : bool; a_remove : bool; a_dir_sync_again : bool; a_remove_again : bool;
  a_metadata : bool;
  a_landed : option nat;    (* [None]: all of it *)
  a_sync : bool;
  a_set_len : bool
}.

(** From [length_before] on. *)
Definition write_batch (io : AppendIo) (buffer old : bytes) : result N wal_error * file :=
  if negb (a_metadata io) then (Err IoFailed, Some old)
  else
    let content := old ++ match a_landed io with None => buffer | Some k => take k buffer end in
    if bool_decide (a_landed io = None) && a_sync io then (Ok (lenN buffer), Some content)
    else (Err IoFailed, Some (if a_set_len io then take (length old) content else content)).

Definition append_batch (io : AppendIo) (first_seq : N) (ops : list Op) (f : file) : result N wal_error * file :=
  match ops with
  | [] => (Ok 0, f)
  | _ =>
    match batch_buffer first_seq 0 ops with
    | None => (Err IoFailed, f)
    | Some buffer =>
      if negb (a_open io) then (Err IoFailed, f)
      else
        match f with
        | Some old => write_batch io buffer old
        | None =>
          if a_dir_sync io then write_batch io buffer []
          else if a_remove io then (Err IoFailed, None)
          else if a_dir_sync_again io then write_batch io buffer []
          else (Err IoFailed, if a_remove_again io then None else Some [])
        end
    end
  end.

(** ** Replay *)

Record ReplayIo := { r_read : bool; r_truncate : TruncateIo; r_heal : HealIo }.

Definition replay (io : ReplayIo) (watermark : N) (f : file) : result (list Op * N) wal_error * file :=
  match f with
  | None => (Ok ([], watermark), None)
  | Some bs =>
    if negb (r_read io) then (Err IoFailed, f)
    else
      match parse_log bs watermark with
      | Err e => (Err e, f)
      | Ok (ops, seq, torn, _) =>
        let '(healed, f) :=
          match torn with
          | Some (Discarded torn_len) => truncate_to (r_truncate io) (lenN bs - torn_len) f
          | Some (Recovered _) => append_missing_newline (r_heal io) f
          | None => (Ok tt, f)
          end in
        (match healed with Ok _ => Ok (ops, seq) | Err e => Err e end, f)
      end
  end.

Definition replay_readonly (read : bool) (watermark : N) (f : file)
    : result (list Op * N * option TornTail * N) wal_error :=
  match f with
  | None => Ok ([], watermark, None, 0)
  | Some bs => if negb read then Err IoFailed else parse_log bs watermark
  end.

(** ** Shipping *)

Record ShippableRecord := { sr_seq : N; sr_line : bytes }.

Fixpoint ship_lines (line_number : N) (lines : list bytes) : result (list ShippableRecord) wal_error :=
  match lines with
  | [] => Ok []
  | line :: lines =>
    match parse_seq line with
    | None => Err (Corrupt line_number Undecodable)
    | Some (seq, crc) =>
      _ ←? match crc with
           | Some stored => match verify_record_crc line stored with Ok _ => Ok tt | Err e => Err (Corrupt line_number e) end
           | None => Ok tt
           end;
      rest ←? ship_lines (line_number + 1) lines;
      Ok ({| sr_seq := seq; sr_line := line |} :: rest)
    end
  end.

Definition shippable_records (bs : bytes) : result (list ShippableRecord) wal_error :=
  ship_lines 1 (removelast (split_lines bs)).
End wal.

(** ** Laws of the encoding *)

(** What the log relies on: a record is one object on one line, so it ends with
    its brace and holds no newline; the sealed line reads back; and an object's
    text is complete only at its closing brace, so no proper prefix of a sealed
    line is JSON. *)
Class WalJsonLaws (Op : Type) `{WalJson Op} := {
  encode_object : forall seq op r, encode_record seq op = Some r -> exists body, r = body ++ [brace] /\ newline ∉ r;
  sealed_record : forall seq op r, seq <= U64_MAX -> encode_record seq op = Some r ->
    parse_record (seal r) = Some (seq, reread op, Some (crc32c r));
  sealed_seq : forall l seq op crc, parse_record l = Some (seq, op, crc) -> parse_seq l = Some (seq, crc);
  sealed_prefix : forall seq op r l k, encode_record seq op = Some r -> l ++ k = seal r -> k <> [] ->
    parse_record l = None /\ parse_value l = None
}.

(** ** Publication ([src/storage.rs]) *)

(** [commit_staged]: the rename, then the directory's sync. *)
Record CommitIo := { c_rename : bool; c_sync : bool }.

Definition commit_staged {A} (io : CommitIo) (staged old : A) : bool * A :=
  if negb (c_rename io) then (false, old) else (c_sync io, staged).

(** [write_atomic]: stage, then commit. *)
Record AtomicIo := { at_stage : bool; at_commit : CommitIo }.

Definition write_atomic {A} (io : AtomicIo) (new old : A) : bool * A :=
  if negb (at_stage io) then (false, old) else commit_staged (at_commit io) new old.
