(* ===== verification/WalThm.v ===== *)
(** * Lines and seals of the write-ahead log *)

From S2P Require Export Wal.

Local Open Scope N_scope.

(** ** Lines *)

(** Complete lines, then what follows the last newline. *)
Definition join_lines (lines : list bytes) (tail : bytes) : bytes :=
  mjoin ((fun line => line ++ [newline]) <$> lines) ++ tail.

Lemma join_lines_cons line lines tail : join_lines (line :: lines) tail = line ++ newline :: join_lines lines tail.
Proof. unfold join_lines. csimpl. by rewrite <- !app_assoc. Qed.

Lemma join_lines_app lines lines' tail : join_lines (lines ++ lines') tail = join_lines lines (join_lines lines' tail).
Proof. unfold join_lines. by rewrite fmap_app, join_app, <- app_assoc. Qed.

Lemma join_lines_tail lines tail : join_lines lines tail = join_lines lines [] ++ tail.
Proof. unfold join_lines. by rewrite app_nil_r. Qed.

Lemma split_lines_line line rest : newline ∉ line -> split_lines (line ++ newline :: rest) = line :: split_lines rest.
Proof.
  induction line as [|b line IH]; intros Hn; cbn [split_lines app]; [by rewrite decide_True|].
  rewrite decide_False by set_solver. rewrite IH by set_solver. done.
Qed.

Lemma split_lines_tail tail : newline ∉ tail -> split_lines tail = [tail].
Proof.
  induction tail as [|b tail IH]; intros Hn; cbn [split_lines]; [done|].
  rewrite decide_False by set_solver. by rewrite IH by set_solver.
Qed.

Lemma split_join lines tail : Forall (fun l => newline ∉ l) lines -> newline ∉ tail ->
  split_lines (join_lines lines tail) = lines ++ [tail].
Proof.
  intros Hl Ht. induction Hl as [|line lines Hn _ IH]; [by apply split_lines_tail|].
  rewrite join_lines_cons, split_lines_line by done. by rewrite IH.
Qed.

(** Every byte string is its lines. *)
Lemma split_lines_spec bs : exists lines tail, split_lines bs = lines ++ [tail] /\ bs = join_lines lines tail /\
  Forall (fun l => newline ∉ l) lines /\ newline ∉ tail.
Proof.
  induction bs as [|b bs (lines & tail & Hs & Hj & Hl & Ht)]; cbn [split_lines].
  - exists [], []. split; [done|]. split; [done|]. split; [constructor | set_solver].
  - destruct (decide (b = newline)) as [->|Hb].
    + exists ([] :: lines), tail. rewrite Hs, Hj. split; [done|]. split; [done|]. split; [constructor; [set_solver | done] | done].
    + rewrite Hs. destruct lines as [|line lines].
      * exists [], (b :: tail). rewrite Hj. split; [done|]. split; [done|]. split; [constructor | set_solver].
      * exists ((b :: line) :: lines), tail. rewrite Hj, !join_lines_cons. split; [done|]. split; [done|].
        apply Forall_cons in Hl as [Hline Hl]. split; [constructor; [set_solver | done] | done].
Qed.

Lemma last_snoc_default {A} (l : list A) x d : List.last (l ++ [x]) d = x.
Proof. apply last_last. Qed.

(** ** Decimals *)

Lemma digit_plain d : d < 10 -> digit d <> newline /\ digit d <> Byte.x2c.
Proof.
  intros Hd. assert (Hn : Byte.to_N (digit d) = 48 + d) by (unfold digit; rewrite to_N_byte_of_N; apply N.mod_small; lia).
  split; intros Heq; rewrite Heq in Hn; vm_compute (Byte.to_N _) in Hn; lia.
Qed.

Lemma decimal_digits_plain fuel : forall n acc, newline ∉ acc /\ Byte.x2c ∉ acc ->
  newline ∉ decimal_digits fuel n acc /\ Byte.x2c ∉ decimal_digits fuel n acc.
Proof.
  induction fuel as [|fuel IH]; intros n acc [H1 H2]; simpl; [done|].
  destruct (digit_plain (n mod 10)) as [Hd1 Hd2]; [apply N.mod_lt; lia|].
  assert (newline ∉ digit (n mod 10) :: acc /\ Byte.x2c ∉ digit (n mod 10) :: acc) by set_solver.
  destruct (n <? 10); [done | by apply IH].
Qed.

Lemma decimal_plain n : newline ∉ decimal n /\ Byte.x2c ∉ decimal n.
Proof. apply decimal_digits_plain. set_solver. Qed.

(** ** The marker *)

Lemma rposition_none pattern line b : head pattern = Some b -> b ∉ line -> rposition pattern line = None.
Proof.
  intros Hp. destruct pattern as [|b' pattern]; [done|]. injection Hp as ->.
  induction line as [|x line IH]; intros Hn; cbn [rposition]; [done|]. rewrite IH by set_solver.
  rewrite decide_False; [done|]. cbn. intros [= -> _]. set_solver.
Qed.

Lemma rposition_app pattern pre line i : rposition pattern line = Some i ->
  rposition pattern (pre ++ line) = Some (length pre + i)%nat.
Proof. intros Hi. induction pre as [|b pre IH]; cbn [rposition app]; [done|]. by rewrite IH. Qed.

Lemma rposition_marker rest : Byte.x2c ∉ rest -> rposition CRC_FIELD (CRC_FIELD ++ rest) = Some 0%nat.
Proof.
  intros Hn. change (CRC_FIELD ++ rest) with (Byte.x2c :: (tail CRC_FIELD ++ rest)). cbn [rposition].
  assert (Hm : Byte.x2c ∉ tail CRC_FIELD) by (by apply (bool_decide_unpack _); vm_compute).
  rewrite (rposition_none CRC_FIELD _ Byte.x2c) by (done || set_solver).
  by rewrite decide_True.
Qed.

(** The reader recovers exactly the bytes the writer sealed. *)
Lemma canonical_seal body : canonical_bytes_of_line (seal (body ++ [brace])) = Some (body ++ [brace]).
Proof.
  unfold canonical_bytes_of_line, seal. rewrite removelast_last.
  destruct (decimal_plain (crc32c (body ++ [brace]))) as [_ Hc].
  rewrite (rposition_app CRC_FIELD body _ 0%nat) by (apply rposition_marker; set_solver).
  cbn [mbind option_bind]. by rewrite Nat.add_0_r, take_app_length.
Qed.

Lemma seal_nonempty r : seal r <> [].
Proof. unfold seal. by destruct (removelast r). Qed.

Section laws.
Context {Op : Type} `{WalJsonLaws Op}.

Lemma verify_seal seq op r : encode_record seq op = Some r -> verify_record_crc (seal r) (crc32c r) = Ok tt.
Proof using All.
  intros Hr. destruct (encode_object seq op r Hr) as (body & -> & _). unfold verify_record_crc.
  by rewrite canonical_seal, N.eqb_refl.
Qed.

Lemma seal_no_newline seq op r : encode_record seq op = Some r -> newline ∉ seal r.
Proof using All.
  intros Hr. destruct (encode_object seq op r Hr) as (body & -> & Hn). unfold seal. rewrite removelast_last.
  destruct (decimal_plain (crc32c (body ++ [brace]))) as [Hd _].
  rewrite elem_of_app in Hn. rewrite !elem_of_app, list_elem_of_singleton. 
  assert (newline ∉ CRC_FIELD) by (by apply (bool_decide_unpack _); vm_compute). intros [?|[?|[?|?]]]; try tauto. done.
Qed.

(** A sealed line decodes. *)
Lemma log_line_seal w n seq op r st : seq <= U64_MAX -> encode_record seq op = Some r ->
  log_line w n (seal r) st = Ok (take_record w seq (reread op) 0 st).
Proof using All.
  intros Hs Hr. unfold log_line. rewrite (sealed_record seq op r Hs Hr). by rewrite (verify_seal _ _ _ Hr).
Qed.

Lemma tail_complete_seal seq op r : seq <= U64_MAX -> encode_record seq op = Some r ->
  tail_record_is_complete (seal r) = Ok true.
Proof using All.
  intros Hs Hr. unfold tail_record_is_complete. rewrite (sealed_record seq op r Hs Hr). by rewrite (verify_seal _ _ _ Hr).
Qed.

Lemma tail_prefix seq op r l k : encode_record seq op = Some r -> l ++ k = seal r -> k <> [] ->
  tail_record_is_complete l = Ok false.
Proof using All.
  intros Hr Hl Hk. destruct (sealed_prefix seq op r l k Hr Hl Hk) as [Hp Hv]. unfold tail_record_is_complete. by rewrite Hp, Hv.
Qed.
End laws.

(** * What replaying a log gives

    Replaying any file heals it: the same operations come back from the healed
    file, which ends on a line boundary.  A log of sealed records cut anywhere
    gives back the records that landed whole. *)

Section any.
Context {Op : Type} `{WalJson Op}.

(** ** Any file *)

Definition clean (bs : bytes) : Prop := exists lines, Forall (fun l => newline ∉ l) lines /\ bs = join_lines lines [].

Lemma torn_tail_clean lines : torn_tail (lines ++ [[]]) = Ok (lines, None).
Proof using. unfold torn_tail. by rewrite removelast_last, last_snoc_default. Qed.

Lemma torn_tail_cut lines tail : tail <> [] -> torn_tail (lines ++ [tail]) =
  match tail_record_is_complete tail with
  | Err e => Err (Corrupt (lenN lines + 1) e)
  | Ok true => Ok (lines ++ [tail], Some (Recovered (lenN tail)))
  | Ok false => Ok (lines, Some (Discarded (lenN tail)))
  end.
Proof using. intros Ht. unfold torn_tail. by rewrite removelast_last, last_snoc_default, decide_False. Qed.

(** The file the tear is healed to. *)
Definition healed (torn : option TornTail) (bs : bytes) : bytes :=
  match torn with
  | None => bs
  | Some (Discarded torn_len) => take (N.to_nat (lenN bs - torn_len)) bs
  | Some (Recovered _) => bs ++ [newline]
  end.

Lemma healed_discarded lines tail :
  healed (Some (Discarded (lenN tail))) (join_lines lines tail) = join_lines lines [].
Proof using.
  unfold healed, lenN. rewrite (join_lines_tail lines tail). apply take_app_length'. rewrite length_app. lia.
Qed.

Lemma healed_recovered lines tail :
  healed (Some (Recovered (lenN tail))) (join_lines lines tail) = join_lines (lines ++ [tail]) [].
Proof using.
  unfold healed. rewrite join_lines_app, (join_lines_tail lines tail), (join_lines_tail lines (join_lines [tail] [])), <- app_assoc.
  by rewrite join_lines_cons.
Qed.

(** Parsing survives healing. *)
Lemma parse_healed bs w ops seq torn n : parse_log bs w = Ok (ops, seq, torn, n) ->
  clean (healed torn bs) /\ parse_log (healed torn bs) w = Ok (ops, seq, None, n).
Proof using.
  intros Hp. destruct (split_lines_spec bs) as (lines & tail & Hs & -> & Hl & Ht).
  unfold parse_log in *. rewrite Hs in Hp. destruct (decide (tail = [])) as [->|Hne].
  - rewrite torn_tail_clean in Hp. cbn [rbind] in Hp.
    destruct (log_lines w 1 lines _) as [st|e] eqn:Hrun; [|done]. cbn [rbind] in Hp. injection Hp as <- <- <- <-.
    split; [by exists lines|]. cbn [healed]. rewrite Hs, torn_tail_clean. cbn [rbind]. by rewrite Hrun.
  - rewrite torn_tail_cut in Hp by done.
    assert (Hok : forall lines', Forall (fun l => newline ∉ l) lines' -> clean (join_lines lines' []) /\
      split_lines (join_lines lines' []) = lines' ++ [[]]).
    { intros lines' Hl'. split; [by exists lines' | apply split_join; [done | set_solver]]. }
    destruct (tail_record_is_complete tail) as [[]|e]; [| |done]; cbn [rbind] in Hp;
      (destruct (log_lines w 1 _ _) as [st|e] eqn:Hrun; [|done]); cbn [rbind] in Hp; injection Hp as <- <- <- <-;
      rewrite ?healed_recovered, ?healed_discarded.
    + destruct (Hok (lines ++ [tail])) as [Hc Hsp]; [apply Forall_app; by repeat constructor|].
      split; [done|]. rewrite Hsp, torn_tail_clean. cbn [rbind]. by rewrite Hrun.
    + destruct (Hok lines Hl) as [Hc Hsp]. split; [done|]. rewrite Hsp, torn_tail_clean. cbn [rbind]. by rewrite Hrun.
Qed.

(** A successful replay leaves the healed file. *)
Lemma replay_ok io w bs ops seq f : replay io w (Some bs) = (Ok (ops, seq), f) -> exists torn n,
  parse_log bs w = Ok (ops, seq, torn, n) /\ f = Some (healed torn bs).
Proof using.
  unfold replay. destruct (negb (r_read io)); [done|].
  destruct (parse_log bs w) as [[[[ops' seq'] torn] n]|e]; [|done].
  destruct torn as [[len|len]|]; [| |intros [= <- <- <-]; eauto].
  - unfold truncate_to. destruct (negb (_ && _)); [done|]. destruct (_ <? _); [done|]. destruct (negb _); [done|].
    destruct (t_sync _); [|done]. intros [= <- <- <-]. eauto.
  - unfold append_missing_newline. destruct (negb (_ && _)); [done|]. destruct (h_sync _); [|done].
    intros [= <- <- <-]. eauto.
Qed.

(** When the disk obeys, replay is parsing and healing. *)
Definition io_fine (io : ReplayIo) : Prop :=
  r_read io = true /\ r_truncate io = {| t_open := true; t_metadata := true; t_set_len := true; t_sync := true |} /\
  r_heal io = {| h_open := true; h_write := true; h_sync := true |}.

Lemma replay_parse io w bs ops seq torn n : io_fine io -> parse_log bs w = Ok (ops, seq, torn, n) ->
  replay io w (Some bs) = (Ok (ops, seq), Some (healed torn bs)).
Proof using.
  intros (Hr & Ht & Hh) Hp. unfold replay. rewrite Hr, Hp, Ht, Hh. cbn [negb].
  destruct torn as [[len|len]|]; [|done|done]. unfold truncate_to. cbn [t_open t_metadata t_set_len t_sync andb negb].
  rewrite (proj2 (N.ltb_ge _ _)) by lia. done.
Qed.

Lemma replay_clean io w bs ops seq n : r_read io = true -> parse_log bs w = Ok (ops, seq, None, n) ->
  replay io w (Some bs) = (Ok (ops, seq), Some bs).
Proof using. intros Hr Hp. unfold replay. by rewrite Hr, Hp. Qed.
End any.

(** ** A log of sealed records *)

Section sealed.
Context {Op : Type} `{WalJsonLaws Op}.

(** The records of operations numbered from [first]. *)
Fixpoint encoded (first : N) (ops : list Op) (rs : list bytes) : Prop :=
  match ops, rs with
  | [], [] => True
  | op :: ops, r :: rs => encode_record first op = Some r /\ encoded (first + 1) ops rs
  | _, _ => False
  end.

Fixpoint numbered (first : N) (ops : list Op) : list (N * Op) :=
  match ops with
  | [] => []
  | op :: ops => (first, op) :: numbered (first + 1) ops
  end.

(** The operations above the watermark, as they are read back. *)
Definition replayed (w first : N) (ops : list Op) : list Op :=
  (filter (fun p => w < p.1) (numbered first (reread <$> ops))).*2.

Definition top_of (w first n : N) : N := if n =? 0 then w else N.max w (first + n - 1).

Definition log_of (rs : list bytes) : bytes := join_lines (seal <$> rs) [].

Lemma encoded_length first ops rs : encoded first ops rs -> length rs = length ops.
Proof using.
  revert first rs. induction ops as [|op ops IH]; intros first [|r rs]; simpl; try done. intros [_ He]. by rewrite (IH _ _ He).
Qed.

Lemma encoded_app first ops rs ops' rs' : encoded first ops rs -> encoded (first + lenN ops) ops' rs' ->
  encoded first (ops ++ ops') (rs ++ rs').
Proof using.
  revert first rs. induction ops as [|op ops IH]; intros first [|r rs]; simpl; try done.
  - intros _. by rewrite N.add_0_r.
  - intros [Hr He] He'. split; [done|]. apply IH; [done|]. replace (first + 1 + lenN ops) with (first + lenN (op :: ops)) by (unfold lenN; simpl; lia). exact He'.
Qed.

Lemma encoded_take n first ops rs : encoded first ops rs -> encoded first (take n ops) (take n rs).
Proof using.
  revert first ops rs. induction n as [|n IH]; intros first [|op ops] [|r rs]; simpl; try done.
  intros [? ?]. split; [done|]. by apply IH.
Qed.

Lemma encoded_plain first ops rs : encoded first ops rs -> Forall (fun l => newline ∉ l) (seal <$> rs).
Proof using All.
  revert first rs. induction ops as [|op ops IH]; intros first [|r rs]; csimpl; try done.
  intros [Hr He]. constructor; [by eapply seal_no_newline | by eapply IH].
Qed.

(** A batch's buffer is its sealed records. *)
Lemma batch_buffer_spec first ops : forall offset buffer,
  batch_buffer first offset ops = Some buffer -> first + offset + lenN ops <= U64_MAX + 1 ->
  exists rs, encoded (first + offset) ops rs /\ buffer = log_of rs.
Proof using.
  induction ops as [|op ops IH]; intros offset buffer; cbn [batch_buffer].
  - intros [= <-] _. by exists [].
  - intros (r & Hr & Hb)%bind_Some Hle. apply bind_Some in Hb as (rest & Hrest & [= <-]).
    assert (Hlen : lenN (op :: ops) = lenN ops + 1) by (unfold lenN; simpl; lia).
    rewrite Hlen in Hle. destruct (IH (offset + 1) rest Hrest ltac:(lia)) as (rs & He & ->).
    assert (Hwrap : u64_add first offset = first + offset) by (unfold u64_add; apply N.mod_small; lia).
    rewrite Hwrap in Hr. exists (r :: rs). split; [split; [done | by rewrite <- N.add_assoc]|].
    unfold log_of. csimpl. by rewrite join_lines_cons.
Qed.

(** The keys pending so far lie below the next record. *)
Lemma btree_insert_snoc k v (m : list (N * Op)) : Forall (fun p => p.1 < k) m -> btree_insert k v m = m ++ [(k, v)].
Proof using.
  induction 1 as [|[k' v'] m Hk _ IH]; cbn [btree_insert]; [done|]. simpl in Hk.
  rewrite (proj2 (N.ltb_ge _ _)), (proj2 (N.eqb_neq _ _)), IH by lia. done.
Qed.

Lemma log_lines_sealed w ops : forall first rs n st, encoded first ops rs -> first + lenN ops <= U64_MAX + 1 ->
  Forall (fun p => p.1 < first) (pending st) ->
  log_lines w n (seal <$> rs) st = Ok {|
    pending := pending st ++ filter (fun p => w < p.1) (numbered first (reread <$> ops));
    top := top_of (top st) first (lenN ops); unchecked := unchecked st |}.
Proof using All.
  induction ops as [|op ops IH]; intros first [|r rs] n st; try done.
  - intros _ _ _. cbn. rewrite app_nil_r. by destruct st.
  - intros [Hr He] Hle Hk. assert (Hlen : lenN (op :: ops) = lenN ops + 1) by (unfold lenN; simpl; lia).
    rewrite Hlen in *. csimpl. rewrite (log_line_seal w n first op r st) by (done || lia). cbn [rbind].
    rewrite (IH (first + 1)); [|done|lia|].
    + f_equal. f_equal.
      * unfold take_record. cbn [pending]. rewrite filter_cons. cbn [fst].
        destruct (decide (w < first)) as [Hw|Hw].
        -- rewrite (proj2 (N.ltb_lt _ _)), btree_insert_snoc, <- app_assoc by done. done.
        -- rewrite (proj2 (N.ltb_ge _ _)) by lia. done.
      * unfold take_record, top_of. cbn [top]. destruct (N.eqb_spec (lenN ops) 0), (N.eqb_spec (lenN ops + 1) 0); lia.
      * unfold take_record. cbn [unchecked]. lia.
    + unfold take_record. cbn [pending]. destruct (N.ltb_spec w first).
      * rewrite btree_insert_snoc by done. apply Forall_app. split; [|by repeat constructor; simpl; lia].
        eapply Forall_impl; [exact Hk|]. simpl. lia.
      * eapply Forall_impl; [exact Hk|]. simpl. lia.
Qed.

Context (w first : N).

(** What parsing a complete log of [ops] delivers. *)
Definition parsed (ops : list Op) (torn : option TornTail) : result (list Op * N * option TornTail * N) wal_error :=
  Ok (replayed w first ops, top_of w first (lenN ops), torn, 0).

Lemma parse_torn ops rs torn segments : encoded first ops rs -> first + lenN ops <= U64_MAX + 1 ->
  torn_tail segments = Ok (seal <$> rs, torn) ->
  ('(lines, torn) ←? torn_tail segments;
   st ←? log_lines w 1 lines {| pending := []; top := w; unchecked := 0 |};
   Ok ((pending st).*2, top st, torn, unchecked st)) = parsed ops torn.
Proof using All.
  intros He Hle ->. cbn [rbind]. rewrite (log_lines_sealed w ops first rs 1 {| pending := []; top := w; unchecked := 0 |} He Hle); [done | constructor].
Qed.

Lemma parse_whole ops rs : encoded first ops rs -> first + lenN ops <= U64_MAX + 1 ->
  parse_log (log_of rs) w = parsed ops None.
Proof using All.
  intros He Hle. unfold parse_log, log_of. rewrite split_join by (by eapply encoded_plain || set_solver).
  eapply parse_torn; [done | done | apply torn_tail_clean].
Qed.

Lemma parse_cut_end ops rs op r : encoded first (ops ++ [op]) (rs ++ [r]) -> first + lenN (ops ++ [op]) <= U64_MAX + 1 ->
  encode_record (first + lenN ops) op = Some r ->
  exists torn, parse_log (join_lines (seal <$> rs) (seal r)) w = parsed (ops ++ [op]) torn /\
    healed torn (join_lines (seal <$> rs) (seal r)) = log_of (rs ++ [r]).
Proof using All.
  intros He Hle Hr. pose proof (encoded_plain _ _ _ He) as Hpl. rewrite fmap_app in Hpl. apply Forall_app in Hpl as [Hl Hs].
  csimpl in Hs. apply Forall_cons in Hs as [Hs _]. exists (Some (Recovered (lenN (seal r)))). unfold parse_log. rewrite split_join by done. split.
  - eapply parse_torn; [done | done |]. rewrite torn_tail_cut by apply seal_nonempty.
    rewrite lenN_snoc in Hle. rewrite (tail_complete_seal (first + lenN ops) op r ltac:(lia) Hr). by rewrite fmap_app.
  - unfold log_of. rewrite fmap_app. apply healed_recovered.
Qed.

Lemma parse_cut_inside ops rs op r l k : encoded first ops rs -> first + lenN ops <= U64_MAX + 1 ->
  encode_record (first + lenN ops) op = Some r -> l ++ k = seal r -> k <> [] ->
  exists torn, parse_log (join_lines (seal <$> rs) l) w = parsed ops torn /\
    healed torn (join_lines (seal <$> rs) l) = log_of rs.
Proof using All.
  intros He Hle Hr Hl Hk. pose proof (encoded_plain _ _ _ He) as Hpl.
  assert (Hn : newline ∉ l) by (pose proof (seal_no_newline _ _ _ Hr) as Hn; rewrite <- Hl in Hn; set_solver).
  destruct (decide (l = [])) as [->|Hne].
  - exists None. split; [by apply parse_whole | done].
  - exists (Some (Discarded (lenN l))). unfold parse_log. rewrite split_join by done. split.
    + eapply parse_torn; [done | done |]. rewrite torn_tail_cut by done. by rewrite (tail_prefix _ _ _ _ _ Hr Hl Hk).
    + apply healed_discarded.
Qed.
End sealed.

(** * A toy encoding

    A concrete function that satisfies the laws of [WalJson]: counters in unary
    between braces, the checksum in decimal as the log writes it.  The log's
    properties are instantiated at it. *)

(** [n] copies of [b] at the front of a line, and the rest. *)
Fixpoint span (b : byte) (l : bytes) : N * bytes :=
  match l with
  | b' :: l' => if decide (b' = b) then let '(n, r) := span b l' in (n + 1, r) else (0, l)
  | [] => (0, [])
  end.

Definition unary (b : byte) (n : N) : bytes := replicate (N.to_nat n) b.

Definition digit_value (b : byte) : option N :=
  let n := Byte.to_N b in if (48 <=? n) && (n <? 58) then Some (n - 48) else None.

Fixpoint parse_crc (acc : N) (l : bytes) : option N :=
  match l with
  | [] => None
  | [b] => if decide (b = brace) then Some acc else None
  | b :: l => d ← digit_value b; parse_crc (acc * 10 + d) l
  end.

(** [{a..,b..}] and [{a..,b..,"crc":N}]. *)
Definition toy_encode (seq op : N) : bytes :=
  [Byte.x7b] ++ unary Byte.x61 seq ++ [Byte.x2c] ++ unary Byte.x62 op ++ [brace].

Definition toy_parse (l : bytes) : option (N * N * option N) :=
  match l with
  | Byte.x7b :: l =>
    let '(seq, l) := span Byte.x61 l in
    match l with
    | Byte.x2c :: l =>
      let '(op, l) := span Byte.x62 l in
      if decide (l = [brace]) then Some (seq, op, None)
      else if decide (take 7 l = CRC_FIELD) then crc ← parse_crc 0 (drop 7 l); Some (seq, op, Some crc)
      else None
    | _ => None
    end
  | _ => None
  end.

#[export] Instance toy_json : WalJson N := {
  encode_record := fun seq op => Some (toy_encode seq op);
  parse_record := toy_parse;
  parse_seq := fun l => '(seq, _, crc) ← toy_parse l; Some (seq, crc);
  parse_value := fun l => '(seq, op, _) ← toy_parse l; Some [(str "seq", Some seq); (str "op", Some op)];
  op_fields := fun _ => Some (Some [str "op"]);
  reread := fun op => op
}.

Lemma span_unary b n rest : head rest <> Some b -> span b (unary b n ++ rest) = (n, rest).
Proof.
  unfold unary. intros Hh. rewrite <- (N2Nat.id n) at 2. induction (N.to_nat n) as [|k IH]; cbn [replicate app span].
  - destruct rest as [|b' rest]; [done|]. cbn [span]. by rewrite decide_False by (intros ->; done).
  - rewrite decide_True, IH by done. f_equal. lia.
Qed.

Lemma digit_value_digit d : d < 10 -> digit_value (digit d) = Some d.
Proof.
  intros Hd. unfold digit_value, digit. rewrite to_N_byte_of_N, N.mod_small by lia.
  rewrite (proj2 (N.leb_le _ _)), (proj2 (N.ltb_lt _ _)) by lia. cbn [andb]. f_equal. lia.
Qed.

Lemma parse_crc_cons a d acc : d < 10 -> acc <> [] -> parse_crc a (digit d :: acc) = parse_crc (a * 10 + d) acc.
Proof. intros Hd Ha. destruct acc; [done|]. cbn [parse_crc]. by rewrite digit_value_digit. Qed.

Lemma parse_decimal fuel : forall n acc, n < 10 ^ N.of_nat fuel -> acc <> [] ->
  parse_crc 0 (decimal_digits fuel n acc) = parse_crc n acc.
Proof.
  induction fuel as [|fuel IH]; intros n acc Hn Ha; cbn [decimal_digits].
  { simpl in Hn. by replace n with 0 by lia. }
  pose proof (N.mod_lt n 10 ltac:(lia)) as Hm. destruct (N.ltb_spec n 10) as [Hlt|Hge].
  - rewrite parse_crc_cons by done. by rewrite N.mod_small by done.
  - rewrite IH; [|rewrite Nat2N.inj_succ, N.pow_succ_r' in Hn; apply N.Div0.div_lt_upper_bound; lia | done].
    rewrite parse_crc_cons by done. f_equal. rewrite (N.div_mod n 10) at 3 by lia. lia.
Qed.

Lemma decimal_digits_acc fuel n acc : decimal_digits fuel n acc = decimal_digits fuel n [] ++ acc.
Proof.
  revert n acc. induction fuel as [|fuel IH]; intros n acc; cbn [decimal_digits]; [done|].
  destruct (n <? 10); [done|]. rewrite IH, (IH _ [_]), <- app_assoc. done.
Qed.

Lemma toy_parse_seal seq op : toy_parse (seal (toy_encode seq op)) = Some (seq, op, Some (crc32c (toy_encode seq op))).
Proof.
  unfold seal. set (crc := crc32c (toy_encode seq op)). assert (Hc : crc <= U32_MAX) by apply crc32c_bound. clearbody crc.
  unfold toy_encode. rewrite !app_assoc, removelast_last, <- !app_assoc. cbn [app toy_parse].
  rewrite span_unary by done. cbn [app]. rewrite span_unary by done.
  rewrite decide_False by done. change 7%nat with (length CRC_FIELD). rewrite take_app_length, drop_app_length, decide_True by done.
  unfold decimal. rewrite <- decimal_digits_acc, parse_decimal by (done || (unfold U32_MAX in Hc; simpl; lia)). done.
Qed.

(** A record is read only up to its brace. *)
Lemma span_suffix b l : exists p, l = p ++ (span b l).2.
Proof.
  induction l as [|b' l [p IH]]; cbn [span]; [by exists []|]. destruct (decide (b' = b)); [|by exists []].
  destruct (span b l) as [n r]. exists (b' :: p). simpl in *. by rewrite <- IH.
Qed.

Lemma parse_crc_brace l : forall a n, parse_crc a l = Some n -> brace ∈ l.
Proof.
  induction l as [|b [|b' l] IH]; intros a n; cbn [parse_crc]; [done| |].
  - destruct (decide (b = brace)) as [->|]; [|done]. set_solver.
  - intros (d & _ & Hd)%bind_Some. apply IH in Hd. set_solver.
Qed.

Lemma toy_parse_brace l x : toy_parse l = Some x -> brace ∈ l.
Proof.
  unfold toy_parse. destruct l as [|b l]; [done|]. destruct b; try done.
  destruct (span_suffix Byte.x61 l) as [p Hp]. destruct (span Byte.x61 l) as [seq r] eqn:E. cbn [snd] in Hp.
  destruct r as [|b r]; [done|]. destruct b; try done.
  destruct (span_suffix Byte.x62 r) as [q Hq]. destruct (span Byte.x62 r) as [op t] eqn:E'. cbn [snd] in Hq.
  intros Hx. assert (brace ∈ t).
  { destruct (decide (t = [brace])) as [->|]; [set_solver|]. destruct (decide _); [|done].
    apply bind_Some in Hx as (crc & Hc & _). apply parse_crc_brace in Hc. rewrite <- (take_drop 7 t). set_solver. }
  rewrite Hp, Hq. set_solver.
Qed.

Lemma unary_plain b n c : c <> b -> c ∉ unary b n.
Proof. intros Hc. unfold unary. intros [-> _]%elem_of_replicate. done. Qed.

Lemma decimal_no_brace n : brace ∉ decimal n.
Proof.
  unfold decimal. assert (Hg : forall fuel n acc, brace ∉ acc -> brace ∉ decimal_digits fuel n acc).
  { induction fuel as [|fuel IH]; intros m acc Hacc; cbn [decimal_digits]; [done|].
    assert (brace ∉ digit (m mod 10) :: acc).
    { apply not_elem_of_cons. split; [|done]. intros Heq. apply (f_equal Byte.to_N) in Heq. unfold digit in Heq.
      pose proof (N.mod_lt m 10 ltac:(lia)). rewrite to_N_byte_of_N, N.mod_small in Heq by lia.
      change (Byte.to_N brace) with 125 in Heq. lia. }
    destruct (m <? 10); [done | by apply IH]. }
  apply Hg. set_solver.
Qed.

#[export] Instance toy_laws : WalJsonLaws N.
Proof.
  split.
  - intros seq op r [= <-]. eexists. split; [unfold toy_encode; by rewrite !app_assoc|].
    unfold toy_encode. pose proof (unary_plain Byte.x61 seq newline ltac:(done)). pose proof (unary_plain Byte.x62 op newline ltac:(done)).
    rewrite !elem_of_app, !list_elem_of_singleton. intros [?|[?|[?|[?|?]]]]; done.
  - intros seq op r _ [= <-]. apply toy_parse_seal.
  - intros l seq op crc Hl. cbn in *. by rewrite Hl.
  - intros seq op r l k [= <-] Hlk Hk. assert (Hl : brace ∉ l).
    { destruct (exists_last Hk) as (k' & b & ->). unfold seal in Hlk.
      rewrite !app_assoc in Hlk. apply app_inj_tail in Hlk as [Hlk _].
      assert (Hb : brace ∉ l ++ k'); [|set_solver]. rewrite Hlk. unfold toy_encode.
      rewrite !app_assoc, removelast_last. pose proof (decimal_no_brace (crc32c ([Byte.x7b] ++ unary Byte.x61 seq ++ [Byte.x2c] ++ unary Byte.x62 op ++ [brace]))) as Hd.
      pose proof (unary_plain Byte.x61 seq brace ltac:(done)). pose proof (unary_plain Byte.x62 op brace ltac:(done)).
      assert (brace ∉ CRC_FIELD) by (by apply (bool_decide_unpack _); vm_compute).
      rewrite <- !app_assoc in *. rewrite !elem_of_app, !list_elem_of_singleton. intros [?|[?|[?|[?|[?|?]]]]]; done. }
    assert (Hn : toy_parse l = None) by (destruct (toy_parse l) eqn:E; [by apply toy_parse_brace in E | done]).
    cbn. by rewrite Hn.
Qed.
