(* ===== verification/WalClaims.v ===== *)
(** * What the write-ahead log promises

    A log cut anywhere, what a log covers under the disk's outcomes, and the
    properties of appends and replays. *)

From S2P Require Export WalThm.

Local Open Scope N_scope.

(** ** A log cut anywhere *)

(** How many lines landed when [k] bytes of them did; a line is whole even
    without its newline. *)
Fixpoint whole (k : nat) (lines : list bytes) : nat :=
  match lines with
  | [] => 0
  | line :: lines => if decide (length line <= k)%nat then S (whole (k - S (length line)) lines) else 0
  end.

Lemma whole_bound k lines : (whole k lines <= length lines)%nat.
Proof.
  revert k. induction lines as [|line lines IH]; intros k; cbn [whole length]; [lia|].
  destruct (decide _); [|lia]. specialize (IH (k - S (length line))%nat). lia.
Qed.

Lemma whole_all k lines : (length (join_lines lines []) <= k + 1)%nat -> whole k lines = length lines.
Proof.
  revert k. induction lines as [|line lines IH]; intros k Hk; cbn [whole length]; [done|].
  rewrite join_lines_cons, length_app in Hk. cbn [length] in Hk. rewrite decide_True by lia. f_equal. apply IH. lia.
Qed.

Lemma whole_none lines : Forall (fun l => l <> []) lines -> whole 0 lines = 0%nat.
Proof.
  intros [|line lines' Hl _]; cbn [whole]; [done|]. rewrite decide_False; [done|]. destruct line; [done | simpl; lia].
Qed.

Lemma sealed_nonempty rs : Forall (fun l => l <> []) (seal <$> rs).
Proof. apply Forall_fmap, Forall_true. intros r. apply seal_nonempty. Qed.

Section cut.
Context {Op : Type} `{WalJsonLaws Op} (w first : N).

(** A complete log, then [k] bytes of more records. *)
Lemma parse_cut ops' : forall ops rs rs' k,
  encoded first ops rs -> encoded (first + lenN ops) ops' rs' -> first + lenN ops + lenN ops' <= U64_MAX + 1 ->
  exists torn, let j := whole k (seal <$> rs') in let bs := join_lines (seal <$> rs) (take k (log_of rs')) in
    parse_log bs w = parsed w first (ops ++ take j ops') torn /\ healed torn bs = log_of (rs ++ take j rs').
Proof using All.
  induction ops' as [|op ops' IH]; intros ops rs [|r rs'] k He He' Hle; try done.
  { exists None. change (log_of (@nil bytes)) with (@nil byte). csimpl. rewrite take_nil, !app_nil_r.
    split; [|done]. apply parse_whole; [done|]. unfold lenN in *. simpl in Hle. lia. }
  destruct He' as [Hr He']. assert (Hlen : lenN (op :: ops') = 1 + lenN ops') by (unfold lenN; simpl; lia). rewrite Hlen in Hle.
  assert (Hsnoc : encoded first (ops ++ [op]) (rs ++ [r])) by (eapply encoded_app; [done | done]).
  assert (Hlog : log_of (r :: rs') = seal r ++ newline :: log_of rs') by apply join_lines_cons.
  rewrite Hlog. csimpl. cbn [whole]. destruct (decide (length (seal r) <= k)%nat) as [Hk|Hk].
  - cbn [take]. destruct (decide (length (seal r) = k)) as [<-|Hne].
    + rewrite take_app_length.
      replace (length (seal r) - S (length (seal r)))%nat with 0%nat by lia. rewrite (whole_none _ (sealed_nonempty rs')).
      rewrite !take_0. eapply parse_cut_end; [done | rewrite lenN_snoc; lia | done].
    + replace (take k (seal r ++ newline :: log_of rs')) with (seal r ++ newline :: take (k - S (length (seal r))) (log_of rs'))
        by (rewrite take_app_ge by lia; destruct (k - length (seal r))%nat eqn:E; [lia|]; cbn [take]; do 3 f_equal; lia).
      destruct (IH (ops ++ [op]) (rs ++ [r]) rs' (k - S (length (seal r)))%nat) as (torn & Hp & Hh).
      * done.
      * by rewrite lenN_snoc, N.add_assoc.
      * rewrite lenN_snoc. lia.
      * exists torn. rewrite fmap_app, join_lines_app in Hp, Hh. csimpl in Hp. csimpl in Hh. rewrite join_lines_cons in Hp, Hh.
        rewrite <- !app_assoc in Hp, Hh. by split.
  - rewrite take_app_le, take_0, !app_nil_r by lia.
    apply (parse_cut_inside w first ops rs op r (take k (seal r)) (drop k (seal r)) He); [lia | done | apply take_drop|].
    intros Hd. apply (f_equal length) in Hd. rewrite length_drop in Hd. simpl in Hd. lia.
Qed.
End cut.

(** ** Any log, keyed by sequence number *)

Section latest.
Context {Op : Type} `{WalJson Op}.

(** The last record of a number. *)
Definition latest (recs : list (N * Op)) (k : N) (v : Op) : Prop :=
  exists before after, recs = before ++ (k, v) :: after /\ k ∉ after.*1.

Lemma latest_snoc recs p k v : latest (recs ++ [p]) k v <-> p = (k, v) \/ (p.1 <> k /\ latest recs k v).
Proof using.
  split.
  - intros (before & after & Heq & Hk). destruct after as [|q after _] using rev_ind.
    + apply app_inj_tail in Heq as [_ ->]. by left.
    + rewrite app_comm_cons, app_assoc in Heq. apply app_inj_tail in Heq as [-> ->]. right.
      rewrite fmap_app in Hk. csimpl in Hk. split; [intros <-; set_solver|]. exists before, after. set_solver.
  - intros [->|[Hp (before & after & -> & Hk)]].
    + exists recs, []. split; [done | set_solver].
    + exists before, (after ++ [p]). split; [by rewrite <- app_assoc|]. rewrite fmap_app. csimpl. set_solver.
Qed.

Definition keys_sorted (m : list (N * Op)) : Prop := StronglySorted N.lt m.*1.

Lemma btree_insert_keys k v (m : list (N * Op)) x : x ∈ (btree_insert k v m).*1 <-> x = k \/ x ∈ m.*1.
Proof using.
  induction m as [|[k' v'] m IH]; cbn [btree_insert]; csimpl; [set_solver|].
  destruct (N.ltb_spec k k'); csimpl; [set_solver|]. destruct (N.eqb_spec k k') as [->|]; csimpl; [set_solver|].
  rewrite !elem_of_cons, IH. tauto.
Qed.

Lemma btree_insert_spec k v (m : list (N * Op)) : keys_sorted m -> keys_sorted (btree_insert k v m) /\
  forall k' v', (k', v') ∈ btree_insert k v m <-> (k', v') = (k, v) \/ (k' <> k /\ (k', v') ∈ m).
Proof using.
  unfold keys_sorted. induction m as [|[k0 v0] m IH]; cbn [btree_insert]; csimpl; intros Hs.
  { split; [repeat constructor | set_solver]. }
  apply StronglySorted_inv in Hs as [Hs Hall]. pose proof Hall as Hall'. rewrite Forall_forall in Hall.
  assert (Hin : forall k' v', (k', v') ∈ m -> k0 < k').
  { intros k' v' Hm. apply Hall. by apply (list_elem_of_fmap_2 fst m (k', v')). }
  destruct (N.ltb_spec k k0) as [Hlt|Hge]; [|destruct (N.eqb_spec k k0) as [->|Hne]].
  - csimpl. split; [constructor; [by constructor|]|].
    + constructor; [done|]. eapply Forall_impl; [exact Hall'|]. simpl. lia.
    + intros k' v'. rewrite !elem_of_cons. split; [|tauto].
      intros [?|[[= -> ->]|Hm]]; [by left | right | right]; (split; [|tauto]); [lia|]. specialize (Hin _ _ Hm). lia.
  - csimpl. split; [by constructor|]. intros k' v'. rewrite !elem_of_cons. split; [|intros [?|[? [[= -> ->]|?]]]; tauto].
    intros [?|Hm]; [by left | right]. split; [specialize (Hin _ _ Hm); lia | tauto].
  - csimpl. destruct (IH Hs) as [Hs' Hm]. split.
    + constructor; [done|]. apply Forall_forall. intros x [-> |Hx]%btree_insert_keys; [lia | by apply Hall].
    + intros k' v'. rewrite !elem_of_cons, Hm. split; [|intros [?|[? [?|?]]]; tauto].
      intros [[= -> ->]|[?|?]]; [right; split; [lia | tauto] | tauto | tauto].
Qed.

Definition reads (line : bytes) (p : N * Op) : Prop := exists crc, parse_record line = Some (p.1, p.2, crc).

(** What the decode loop keeps of the records it has read. *)
Definition keeps (w : N) (recs : list (N * Op)) (st : Replay) : Prop :=
  keys_sorted (pending st) /\ (forall k v, (k, v) ∈ pending st <-> w < k /\ latest recs k v) /\
  w <= top st /\ (forall p, p ∈ recs -> p.1 <= top st) /\ (top st = w \/ exists p, p ∈ recs /\ top st = p.1).

Lemma take_record_keeps w recs seq op n st : keeps w recs st ->
  keeps w (recs ++ [(seq, op)]) (take_record w seq op n st).
Proof using.
  intros (Hs & Hm & Hw & Hle & Htop). unfold take_record. split; [|split; [|split; [|split]]]; cbn [pending top].
  - destruct (w <? seq); [by apply btree_insert_spec | done].
  - intros k v. rewrite latest_snoc. destruct (N.ltb_spec w seq) as [Hlt|Hge].
    + destruct (btree_insert_spec seq op (pending st) Hs) as [_ ->]. rewrite Hm. cbn [fst]. naive_solver.
    + rewrite Hm. cbn [fst]. naive_solver lia.
  - lia.
  - intros p [Hp| ->%list_elem_of_singleton]%elem_of_app; [specialize (Hle p Hp); lia | simpl; lia].
  - destruct (N.max_spec (top st) seq) as [[_ ->]|[_ ->]]; [right; exists (seq, op); set_solver|].
    destruct Htop as [?|(p & ? & ?)]; [by left | right; exists p; set_solver].
Qed.

Lemma log_lines_keeps w lines : forall n st st' recs, log_lines w n lines st = Ok st' -> keeps w recs st ->
  exists more, Forall2 reads lines more /\ keeps w (recs ++ more) st'.
Proof using.
  induction lines as [|line lines IH]; intros n st st' recs; cbn [log_lines].
  { intros [= <-] Hk. exists []. rewrite app_nil_r. split; [constructor | done]. }
  unfold log_line. destruct (parse_record line) as [[[seq op] crc]|] eqn:Hp; [|done]. intros Hrun Hk.
  assert (Hst : exists n', log_lines w (n + 1) lines (take_record w seq op n' st) = Ok st').
  { destruct crc as [stored|].
    - destruct (verify_record_crc line stored); [|done]. cbn [rbind] in Hrun. eauto.
    - destruct (line_has_a_field_the_op_cannot_explain line op) as [[]|]; cbn [rbind] in Hrun; [done | eauto | done]. }
  destruct Hst as [n' Hst]. destruct (IH _ _ _ (recs ++ [(seq, op)]) Hst) as (more & Hmore & Hk'); [by apply take_record_keeps|].
  exists ((seq, op) :: more). rewrite <- app_assoc in Hk'. split; [|done]. constructor; [by exists crc | done].
Qed.

(** Shipping decodes the complete lines that replay decodes. *)
Lemma ship_lines_reads w lines : (forall l seq op crc, parse_record l = Some (seq, op, crc) -> parse_seq l = Some (seq, crc)) ->
  forall n n' st st', log_lines w n lines st = Ok st' ->
  exists recs, ship_lines n' lines = Ok recs /\ sr_line <$> recs = lines /\
    Forall2 (fun line r => exists op, reads line (sr_seq r, op)) lines recs.
Proof using.
  intros Hlaw. induction lines as [|line lines IH]; intros n n' st st'; cbn [log_lines ship_lines].
  { intros _. exists []. split; [done|]. split; [done | constructor]. }
  unfold log_line. destruct (parse_record line) as [[[seq op] crc]|] eqn:Hp; [|done]. intros Hrun.
  rewrite (Hlaw _ _ _ _ Hp).
  assert (Hv : match crc with Some stored => verify_record_crc line stored = Ok tt | None => True end /\
    exists st1, log_lines w (n + 1) lines st1 = Ok st').
  { destruct crc as [stored|].
    - destruct (verify_record_crc line stored) as [[]|]; [|done]. cbn [rbind] in Hrun. eauto.
    - destruct (line_has_a_field_the_op_cannot_explain line op) as [[]|]; cbn [rbind] in Hrun; [done | eauto | done]. }
  destruct Hv as [Hv [st1 Hst]]. destruct (IH _ (n' + 1) _ _ Hst) as (recs & Hr & Hl & H2).
  exists ({| sr_seq := seq; sr_line := line |} :: recs). split; [|split].
  - destruct crc; [rewrite Hv|]; cbn [rbind]; by rewrite Hr.
  - csimpl. by rewrite Hl.
  - constructor; [exists op; by exists crc | done].
Qed.
End latest.

(** A damaged line fails the log whatever surrounds it. *)
Lemma log_lines_bad {Op} `{WalJson Op} w bad lines : (forall n st, is_ok (log_line w n bad st) = false) -> bad ∈ lines ->
  forall n st, is_ok (log_lines w n lines st) = false.
Proof.
  intros Hbad. induction lines as [|line lines IH]; intros Hin n st; [set_solver|]. cbn [log_lines].
  apply elem_of_cons in Hin as [<-|Hin].
  - specialize (Hbad n st). destruct (log_line w n bad st); done.
  - destruct (log_line w n line st); cbn [rbind]; [by apply IH | done].
Qed.

Lemma verify_damaged pre w1 w2 post : length w1 = length w2 -> (length w1 <= 4)%nat -> w1 <> w2 ->
  verify_record_crc ((pre ++ w2 ++ post) ++ CRC_FIELD ++ decimal (crc32c (pre ++ w1 ++ post ++ [brace])) ++ [brace])
    (crc32c (pre ++ w1 ++ post ++ [brace])) = Err ChecksumMismatch.
Proof.
  intros Hl H4 Hne. set (stored := crc32c (pre ++ w1 ++ post ++ [brace])). unfold verify_record_crc, canonical_bytes_of_line.
  destruct (decimal_plain stored) as [_ Hc].
  rewrite (rposition_app CRC_FIELD (pre ++ w2 ++ post) _ 0%nat) by (apply rposition_marker; set_solver).
  cbn [mbind option_bind]. rewrite Nat.add_0_r, take_app_length.
  destruct (N.eqb_spec (crc32c ((pre ++ w2 ++ post) ++ [brace])) stored) as [Heq|]; [|done]. exfalso. apply Hne.
  apply (crc32c_burst pre w1 w2 (post ++ [brace])); [done | done |]. rewrite <- !app_assoc in Heq. by symmetry.
Qed.

(** ** The claims *)

(** The file holds the complete log of [rs]; a missing file holds none. *)
Definition holds (f : file) (rs : list bytes) : Prop := f = Some (log_of rs) \/ (f = None /\ rs = []).

(** C19. A log survives a crash at any byte.  When [k] bytes of a batch have
    landed behind a log of acknowledged records, replay succeeds and gives, in
    order, every acknowledged operation above the watermark and after them the
    batch's records that landed whole, a record that lost only its newline
    included, and none that did not; the highest number seen is right; and the file
    is healed to exactly the log of those records, so the next append cannot fuse
    with a torn line.  A batch that landed whole is replayed whole. *)
Theorem wal_crash_recovers {Op} `{WalJsonLaws Op} io w first acked rs batch rs' k
    (Hio : io_fine io) (Hacked : encoded first acked rs) (Hbatch : encoded (first + lenN acked) batch rs')
    (Hroom : first + lenN acked + lenN batch <= U64_MAX + 1) :
  let j := whole k (seal <$> rs') in
  replay io w (Some (log_of rs ++ take k (log_of rs'))) =
    (Ok (replayed w first (acked ++ take j batch), top_of w first (lenN (acked ++ take j batch))),
     Some (log_of (rs ++ take j rs'))) /\
  (j <= length batch)%nat /\ ((length (log_of rs') <= k + 1)%nat -> j = length batch).
Proof.
  intros j. destruct (parse_cut w first batch acked rs rs' k Hacked Hbatch Hroom) as (torn & Hp & Hh).
  fold j in Hp, Hh. unfold log_of at 1. rewrite <- join_lines_tail. rewrite (replay_parse _ _ _ _ _ _ _ Hio Hp), Hh.
  split; [done|]. rewrite <- (encoded_length _ _ _ Hbatch), <- (length_fmap seal rs').
  split; [apply whole_bound | apply whole_all].
Qed.

Lemma wal_crash_recovers_witness : let rs := [toy_encode 1 7; toy_encode 2 8] in let rs' := [toy_encode 3 9; toy_encode 4 1] in
  let fine := {| r_read := true; r_truncate := {| t_open := true; t_metadata := true; t_set_len := true; t_sync := true |};
    r_heal := {| h_open := true; h_write := true; h_sync := true |} |} in
  whole 40 (seal <$> rs') = 1%nat /\
  replay fine 1 (Some (log_of rs ++ take 40 (log_of rs'))) = (Ok ([8; 9], 3), Some (log_of (rs ++ [toy_encode 3 9]))).
Proof.
  intros rs rs' fine. split; [vm_compute; reflexivity|].
  destruct (@wal_crash_recovers N _ _ fine 1 1 [7; 8] rs [9; 1] rs' 40) as [Hr _].
  - repeat split.
  - repeat split.
  - repeat split.
  - apply N.leb_le. vm_compute. reflexivity.
  - replace (whole 40 (seal <$> rs')) with 1%nat in Hr by (vm_compute; reflexivity). exact Hr.
Defined.

(** What every outcome of the disk leaves of an append. *)
Lemma append_cases {Op} `{WalJsonLaws Op} io first ops f rs
    (Hf : holds f rs) (Hroom : first + lenN ops <= U64_MAX + 1) :
  match append_batch io first ops f with
  | (Ok n, f') => exists rs', encoded first ops rs' /\ holds f' (rs ++ rs') /\ n = lenN (log_of rs')
  | (Err _, f') => holds f' rs \/
      exists rs' k, encoded first ops rs' /\ f' = Some (log_of rs ++ take k (log_of rs')) /\ a_set_len io = false
  end.
Proof.
  assert (Hw : forall buffer old, batch_buffer first 0 ops = Some buffer -> holds (Some old) rs ->
    match write_batch io buffer old with
    | (Ok n, f') => exists rs', encoded first ops rs' /\ holds f' (rs ++ rs') /\ n = lenN (log_of rs')
    | (Err _, f') => holds f' rs \/ exists rs' k, encoded first ops rs' /\
        f' = Some (log_of rs ++ take k (log_of rs')) /\ a_set_len io = false
    end).
  { intros buffer old Hb [[= ->]|[? _]]; [|done]. apply batch_buffer_spec in Hb as (rs' & He & ->); [|lia].
    rewrite N.add_0_r in He. unfold write_batch. destruct (negb _); [left; by left|].
    destruct (bool_decide (a_landed io = None) && a_sync io) eqn:Hok.
    - apply andb_true_iff in Hok as [Hl%bool_decide_eq_true _]. rewrite Hl. exists rs'. split; [done|]. split; [|done]. left.
      f_equal. unfold log_of. by rewrite fmap_app, join_lines_app, <- join_lines_tail.
    - destruct (a_set_len io); [left; left; f_equal; by rewrite take_app_length|]. right.
      destruct (a_landed io) as [k|]; [by exists rs', k|]. exists rs', (length (log_of rs')). by rewrite take_ge by done. }
  unfold append_batch. destruct ops as [|op ops]; [exists []; rewrite app_nil_r; by split|].
  destruct (batch_buffer first 0 (op :: ops)) as [buffer|] eqn:Hb; [|by left]. destruct (negb (a_open io)); [by left|].
  destruct f as [old|]; [by apply Hw|]. destruct Hf as [?|[_ ->]]; [done|].
  assert (Hempty : holds (Some []) []) by by left.
  destruct (a_dir_sync io); [by apply Hw|]. destruct (a_remove io); [left; by right|].
  destruct (a_dir_sync_again io); [by apply Hw|]. left. destruct (a_remove_again io); [by right | done].
Qed.

(** ** What a log covers

    A log of whole records, or one torn where replay heals it, under replays,
    appends, truncations and power cuts. *)

Definition file_len (f : file) : N := match f with Some bs => lenN bs | None => 0 end.

Lemma log_of_app rs rs' : log_of (rs ++ rs') = log_of rs ++ log_of rs'.
Proof. unfold log_of. by rewrite fmap_app, join_lines_app, join_lines_tail. Qed.

Section covering.
Context {Op : Type} `{WalJsonLaws Op}.

(** Whole records, numbered from [first]. *)
Definition logs (f : file) (first : N) (ops : list Op) : Prop :=
  exists rs, encoded first ops rs /\ holds f rs.

(** The same up to a torn tail that replay heals. *)
Definition logs_torn (f : file) (first : N) (ops : list Op) : Prop :=
  logs f first ops \/
  exists rs bs, encoded first ops rs /\ f = Some bs /\
    forall w, exists torn, parse_log bs w = parsed w first ops torn /\ healed torn bs = log_of rs.

(** Operations that read back as they were written. *)
Definition exact (ops : list Op) : Prop := Forall (fun op => reread op = op) ops.

Lemma numbered_above w (ops : list Op) : forall first, w < first ->
  (filter (fun p : N * Op => w < p.1) (numbered first ops)).*2 = ops.
Proof using.
  clear. induction ops as [|op ops IH]; intros first Hf; cbn [numbered]; [done|].
  rewrite filter_cons, decide_True by done. csimpl. f_equal. apply IH. lia.
Qed.

Lemma replayed_drop w first ops : exact ops -> first <= w + 1 ->
  replayed w first ops = drop (N.to_nat (w + 1 - first)) ops.
Proof using.
  clear. intros He Hf. unfold replayed. assert (Hre : reread <$> ops = ops).
  { induction He as [|op ops Hop _ IH]; [done|]. csimpl. by rewrite Hop, IH. }
  rewrite Hre. clear He Hre. revert first Hf. induction ops as [|op ops IH]; intros first Hf; cbn [numbered]; [by rewrite drop_nil|].
  destruct (decide (first = w + 1)) as [->|Hne].
  - rewrite N.sub_diag. cbn [N.to_nat drop]. apply (numbered_above w (op :: ops)). lia.
  - rewrite filter_cons, decide_False by (cbn [fst]; lia). rewrite IH by lia.
    replace (N.to_nat (w + 1 - first)) with (S (N.to_nat (w + 1 - (first + 1)))) by lia. done.
Qed.

Lemma top_of_next w first n : first <= w + 1 <= first + n -> top_of w first n + 1 = first + n.
Proof using. clear. intros Hw. unfold top_of. destruct (N.eqb_spec n 0); lia. Qed.

(** Parsing a log that a tear may have cut. *)
Lemma logs_torn_parse f first ops bs w : logs_torn f first ops -> f = Some bs -> first + lenN ops <= U64_MAX + 1 ->
  exists torn rs, encoded first ops rs /\ parse_log bs w = parsed w first ops torn /\ healed torn bs = log_of rs.
Proof using All.
  intros [(rs & He & [->|[-> _]])|(rs & bs' & He & -> & Hp)] [= <-] Hle.
  - exists None, rs. split; [done|]. split; [by apply parse_whole | done].
  - destruct (Hp w) as (torn & ? & ?). by exists torn, rs.
Qed.

(** Whatever the disk does, a replay leaves the same records. *)
Lemma replay_keeps_logs io w f first ops : logs_torn f first ops -> first + lenN ops <= U64_MAX + 1 ->
  match replay io w f with
  | (Ok r, f') => logs f' first ops /\ r = (replayed w first ops, top_of w first (lenN ops))
  | (Err _, f') => logs_torn f' first ops
  end.
Proof using All.
  intros Hl Hle. destruct f as [bs|].
  - destruct (logs_torn_parse _ _ _ bs w Hl eq_refl Hle) as (torn & rs & He & Hp & Hh).
    assert (Hheal : forall bs', bs' = healed torn bs -> logs (Some bs') first ops).
    { intros bs' ->. exists rs. split; [done|]. left. by rewrite Hh. }
    unfold replay. destruct (negb (r_read io)); [done|]. rewrite Hp. unfold parsed.
    destruct torn as [[len|len]|]; cbn [healed] in *.
    + unfold truncate_to. destruct (negb _); [done|]. destruct (N.ltb_spec (lenN bs) (lenN bs - len)); [lia|].
      destruct (negb _); [done|]. destruct (t_sync _); [split; [by apply Hheal | done] | left; by apply Hheal].
    + unfold append_missing_newline. destruct (negb _); [done|].
      destruct (h_sync _); [split; [by apply Hheal | done] | left; by apply Hheal].
    + split; [by apply Hheal | done].
  - destruct Hl as [(rs & He & [[=]|[_ ->]])|(? & ? & _ & [=] & _)]. cbn [replay]. destruct ops; [|done].
    split; [exists []; split; [done | by right] | done].
Qed.
Definition emptied (f : file) : Prop := f = None \/ f = Some [].

Lemma emptied_logs f next : emptied f -> logs f next [].
Proof using. intros [->| ->]; exists []; (split; [done|]); [by right | by left]. Qed.

Lemma append_logs io next ops f n f' first ops0 : append_batch io next ops f = (Ok n, f') ->
  logs f first ops0 -> first + lenN ops0 = next -> next + lenN ops <= U64_MAX + 1 ->
  logs f' first (ops0 ++ ops) /\ file_len f' = file_len f + n /\
  (forall io' f'', truncate_to io' (file_len f) f' = (Ok tt, f'') -> logs f'' first ops0 /\ file_len f'' = file_len f).
Proof using All.
  intros Ha (rs & He & Hh) <- Hle. pose proof (append_cases io _ ops f rs Hh Hle) as Hc. rewrite Ha in Hc.
  destruct Hc as (rs' & He' & Hh' & ->).
  assert (Hlen : file_len f = lenN (log_of rs)) by (destruct Hh as [->|[-> ->]]; done).
  assert (Hlog : file_len f' = lenN (log_of rs) + lenN (log_of rs') /\ (f' <> None -> f' = Some (log_of rs ++ log_of rs'))).
  { destruct Hh' as [->|[-> [-> ->]%app_eq_nil]]; [|done]. cbn [file_len]. rewrite log_of_app. by rewrite lenN_app. }
  destruct Hlog as [Hl1 Hl2]. split; [exists (rs ++ rs'); split; [by apply encoded_app | done]|]. split; [by rewrite Hl1, Hlen|].
  intros io' f'' Ht. destruct f' as [bs|]; [|done]. rewrite Hlen in *. unfold truncate_to in Ht.
  specialize (Hl2 ltac:(done)). injection Hl2 as ->.
  destruct (negb _); [done|]. destruct (_ <? _); [done|]. destruct (negb _); [done|]. destruct (t_sync io'); [|done].
  injection Ht as <-. rewrite take_app_length' by (unfold lenN; lia). split; [|done]. exists rs. split; [done | by left].
Qed.

Lemma append_failed_logs io next ops f e f' first ops0 io' r f'' : append_batch io next ops f = (Err e, f') ->
  truncate_to io' (file_len f) f' = (r, f'') -> r = Ok tt \/ r = Err NotFound ->
  logs f first ops0 -> first + lenN ops0 = next -> next + lenN ops <= U64_MAX + 1 ->
  logs f'' first ops0 /\ file_len f'' = file_len f.
Proof using All.
  intros Ha Ht Hr (rs & He & Hh) <- Hle. pose proof (append_cases io _ ops f rs Hh Hle) as Hc. rewrite Ha in Hc.
  assert (Hlen : file_len f = lenN (log_of rs)) by (destruct Hh as [->|[-> ->]]; done).
  assert (Hcut : forall l, f' = Some (log_of rs ++ l) -> logs f'' first ops0 /\ file_len f'' = file_len f).
  { intros l ->. unfold truncate_to in Ht. destruct (negb _); [injection Ht as <- <-; by destruct Hr|].
    destruct (_ <? _); [injection Ht as <- <-; by destruct Hr|]. destruct (negb _); [injection Ht as <- <-; by destruct Hr|].
    injection Ht as _ <-. rewrite take_app_length' by (rewrite Hlen; unfold lenN; lia). split; [|done]. exists rs. split; [done | by left]. }
  destruct Hc as [[->|[-> ->]]|(rs' & k & _ & -> & _)]; [by apply (Hcut []); rewrite app_nil_r | | by eapply Hcut].
  injection Ht as <- <-. rewrite Hlen. split; [exists []; split; [done | by right] | done].
Qed.

(** Whatever an append comes to, the file holds what was there and a prefix of the
    batch, all of it when it answered [Ok]. *)
Lemma append_cut io next ops f r f' first ops0 : append_batch io next ops f = (r, f') ->
  logs f first ops0 -> first + lenN ops0 = next -> next + lenN ops <= U64_MAX + 1 ->
  exists j, (j <= length ops)%nat /\ logs_torn f' first (ops0 ++ take j ops) /\
    match r with Ok _ => j = length ops | Err _ => True end.
Proof using All.
  intros Ha (rs & He & Hh) <- Hle. pose proof (append_cases io _ ops f rs Hh Hle) as Hc. rewrite Ha in Hc. destruct r as [n|err].
  - destruct Hc as (rs' & He' & Hh' & _). exists (length ops). split; [done|]. split; [|done]. rewrite firstn_all. left.
    exists (rs ++ rs'). split; [by apply encoded_app | done].
  - destruct Hc as [Hh'|(rs' & k & He' & -> & _)].
    + exists 0%nat. split; [lia|]. split; [|done]. rewrite take_0, app_nil_r. left. by exists rs.
    + exists (whole k (seal <$> rs')). split.
      { rewrite <- (encoded_length _ _ _ He'), <- (length_fmap seal rs'). apply whole_bound. }
      split; [|done]. right. exists (rs ++ take (whole k (seal <$> rs')) rs'), (log_of rs ++ take k (log_of rs')).
      split; [apply encoded_app; [done | by apply encoded_take]|]. split; [done|]. intros w. unfold log_of at 1 3.
      rewrite <- !join_lines_tail. apply (parse_cut w first ops ops0 rs rs' k He He'). lia.
Qed.

(** A replay whose disk works answers what the log holds. *)
Lemma replay_answers io w f first ops : io_fine io -> logs_torn f first ops -> first + lenN ops <= U64_MAX + 1 ->
  exists f', replay io w f = (Ok (replayed w first ops, top_of w first (lenN ops)), f').
Proof using All.
  intros Hio Hl Hle. destruct f as [bs|].
  - destruct (logs_torn_parse _ _ _ bs w Hl eq_refl Hle) as (torn & rs & _ & Hp & _). eexists. eapply replay_parse; [done | exact Hp].
  - pose proof (replay_keeps_logs io w _ _ _ Hl Hle) as Hk. cbn [replay] in *. destruct Hk as [_ ->]. by eexists.
Qed.
End covering.

(** C20. The write-ahead contract of [append_batch], under every outcome of the
    disk.  On [Ok] the file is the old log with the whole batch appended, and the
    count is the bytes written.  On [Err] the file is the old log with at most a
    prefix of the batch, nothing at all when the rollback truncated; an empty batch
    touches nothing. *)
Theorem append_batch_outcomes {Op} `{WalJsonLaws Op} io first ops f rs
    (Hf : holds f rs) (Hroom : first + lenN ops <= U64_MAX + 1) :
  match append_batch io first ops f with
  | (Ok n, f') => exists rs', encoded first ops rs' /\ holds f' (rs ++ rs') /\ n = lenN (log_of rs')
  | (Err _, f') => holds f' rs \/
      exists rs' k, encoded first ops rs' /\ f' = Some (log_of rs ++ take k (log_of rs')) /\ a_set_len io = false
  end.
Proof. by apply append_cases. Qed.

Lemma append_batch_outcomes_witness :
  let io := {| a_open := true; a_dir_sync := true; a_remove := true; a_dir_sync_again := true; a_remove_again := true;
    a_metadata := true; a_landed := None; a_sync := true; a_set_len := true |} in
  exists n f' rs', append_batch io 2 [5; 6] (Some (log_of [toy_encode 1 7])) = (Ok n, f') /\
    encoded 2 [5; 6] rs' /\ holds f' ([toy_encode 1 7] ++ rs') /\ n = lenN (log_of rs').
Proof.
  intros io. pose proof (@append_batch_outcomes N _ _ io 2 [5; 6] (Some (log_of [toy_encode 1 7])) [toy_encode 1 7]) as Hr.
  destruct (append_batch io 2 [5; 6] (Some (log_of [toy_encode 1 7]))) as [[n|e] f'] eqn:E.
  - exists n, f'. destruct Hr as (rs' & ? & ? & ?); [by left | apply N.leb_le; vm_compute; reflexivity|]. exists rs'. auto.
  - exfalso. vm_compute in E. discriminate E.
Defined.

(** C21. Replay heals, whatever the file held: when it succeeds, the file it leaves
    is whole lines only, and replaying that file gives the same operations and the
    same number and changes nothing. *)
Theorem replay_heals {Op} `{WalJson Op} io io' w bs ops seq f (Hread : r_read io' = true)
    (Hok : replay io w (Some bs) = (Ok (ops, seq), f)) :
  exists bs', f = Some bs' /\ clean bs' /\ replay io' w f = (Ok (ops, seq), f).
Proof.
  apply replay_ok in Hok as (torn & n & Hp & ->). apply parse_healed in Hp as [Hc Hp].
  eexists. split; [done|]. split; [done|]. by eapply replay_clean.
Qed.

Lemma replay_heals_witness :
  let fine := {| r_read := true; r_truncate := {| t_open := true; t_metadata := true; t_set_len := true; t_sync := true |};
    r_heal := {| h_open := true; h_write := true; h_sync := true |} |} in
  let torn := log_of [toy_encode 1 7] ++ seal (toy_encode 2 8) in
  replay fine 0 (Some torn) = (Ok ([7; 8], 2), Some (torn ++ [newline])) /\
  replay fine 0 (Some (torn ++ [newline])) = (Ok ([7; 8], 2), Some (torn ++ [newline])).
Proof.
  intros fine torn. assert (Hr : replay fine 0 (Some torn) = (Ok ([7; 8], 2), Some (torn ++ [newline]))) by (vm_compute; reflexivity).
  split; [exact Hr|]. destruct (replay_heals fine fine 0 torn [7; 8] 2 _ eq_refl Hr) as (bs' & _ & _ & H). exact H.
Defined.

(** C22. What replay hands back, for any log it accepts: the operations are those
    of the records above the watermark, in the order of their numbers, each number
    once, a repeated number standing for its later record; the number returned is
    the highest of the watermark and every record read; and the complete lines are
    exactly what the shipper would ship, with the same numbers. *)
Theorem replay_keeps_latest {Op} `{WalJsonLaws Op} bs w ops seq torn n
    (Hok : parse_log bs w = Ok (ops, seq, torn, n)) :
  exists lines recs st shipped,
    split_lines (healed torn bs) = lines ++ [[]] /\ Forall2 reads lines recs /\
    keeps w recs st /\ ops = (pending st).*2 /\ seq = top st /\
    shippable_records (healed torn bs) = Ok shipped /\ sr_line <$> shipped = lines /\
    Forall2 (fun line r => exists op, reads line (sr_seq r, op)) lines shipped.
Proof.
  destruct (parse_healed _ _ _ _ _ _ Hok) as [(lines & Hl & Hbs) Hp]. rewrite Hbs in *.
  assert (Hs : split_lines (join_lines lines []) = lines ++ [[]]) by (apply split_join; [done | set_solver]).
  unfold parse_log in Hp. rewrite Hs, torn_tail_clean in Hp. cbn [rbind] in Hp.
  destruct (log_lines w 1 lines _) as [st|e] eqn:Hrun; [|done]. cbn [rbind] in Hp. injection Hp as <- <- <-.
  destruct (log_lines_keeps w lines 1 _ st [] Hrun) as (recs & Hrecs & Hkeep).
  { split; [constructor|]. split; [|split; [cbn; lia|split; [set_solver | by left]]].
    intros k v. split; [set_solver|]. intros [_ (before & after & Heq & _)]. by destruct before. }
  destruct (ship_lines_reads w lines sealed_seq 1 1 _ _ Hrun) as (shipped & Hship & Hline & H2).
  exists lines, recs, st, shipped. split; [done|]. split; [done|]. split; [done|]. split; [done|]. split; [done|].
  unfold shippable_records. rewrite Hs, removelast_last. done.
Qed.

Lemma replay_keeps_latest_witness : let bs := log_of [toy_encode 1 7; toy_encode 2 8; toy_encode 2 9] in
  parse_log bs 1 = Ok ([9], 2, None, 0) /\
  exists lines shipped, split_lines bs = lines ++ [[]] /\ shippable_records bs = Ok shipped /\ sr_line <$> shipped = lines.
Proof.
  intros bs. assert (Hp : parse_log bs 1 = Ok ([9], 2, None, 0)) by (vm_compute; reflexivity). split; [exact Hp|].
  destruct (@replay_keeps_latest N _ _ bs 1 [9] 2 None 0 Hp) as (lines & recs & st & shipped & H1 & _ & _ & _ & _ & H2 & H3 & _).
  exists lines, shipped. auto.
Defined.

(** Rot is never replayed: in any file, a line whose bytes before the checksum
    were altered in a run of up to four bytes is refused, and the whole log with it,
    whether or not the altered text still parses, as long as a text that does parse
    still carries the stored checksum. *)
Theorem wal_burst_refused {Op} `{WalJson Op} w pre w1 w2 post lines lines' tail
    (stored := crc32c (pre ++ w1 ++ post ++ [brace]))
    (damaged := (pre ++ w2 ++ post) ++ CRC_FIELD ++ decimal stored ++ [brace])
    (Hplain : Forall (fun l => newline ∉ l) (lines ++ damaged :: lines')) (Htail : newline ∉ tail)
    (Hlen : length w1 = length w2) (Hshort : (length w1 <= 4)%nat) (Hdiff : w1 <> w2)
    (Hcrc : forall seq op crc, parse_record damaged = Some (seq, op, crc) -> crc = Some stored) :
  exists e, parse_log (join_lines (lines ++ damaged :: lines') tail) w = Err e.
Proof.
  assert (Hbad : forall n st, is_ok (log_line w n damaged st) = false).
  { intros n st. unfold log_line. destruct (parse_record damaged) as [[[seq op] crc]|] eqn:Hp; [|done].
    rewrite (Hcrc _ _ _ eq_refl). unfold damaged, stored. by rewrite verify_damaged. }
  unfold parse_log. rewrite split_join by done.
  assert (Hlines : forall lines2, damaged ∈ lines2 -> forall n st, exists e, log_lines w n lines2 st = Err e).
  { intros lines2 Hin n st. pose proof (log_lines_bad w damaged lines2 Hbad Hin n st) as Hb.
    destruct (log_lines w n lines2 st) as [?|e]; [done | by exists e]. }
  destruct (decide (tail = [])) as [->|Hne].
  - rewrite torn_tail_clean. cbn [rbind].
    destruct (Hlines (lines ++ damaged :: lines') ltac:(set_solver) 1 {| pending := []; top := w; unchecked := 0 |}) as [e ->]. by exists e.
  - rewrite torn_tail_cut by done. destruct (tail_record_is_complete tail) as [[]|e]; [| |by exists (Corrupt (lenN (lines ++ damaged :: lines') + 1) e)]; cbn [rbind].
    + destruct (Hlines ((lines ++ damaged :: lines') ++ [tail]) ltac:(set_solver) 1 {| pending := []; top := w; unchecked := 0 |}) as [e ->]. by exists e.
    + destruct (Hlines (lines ++ damaged :: lines') ltac:(set_solver) 1 {| pending := []; top := w; unchecked := 0 |}) as [e ->]. by exists e.
Qed.

(** One more [b] inside the record of number one. *)
Lemma wal_burst_refused_witness : let pre := removelast (removelast (toy_encode 1 7)) in
  exists e, parse_log (log_of [toy_encode 0 1] ++ pre ++ [Byte.x61] ++ CRC_FIELD ++ decimal (crc32c (toy_encode 1 7)) ++
    [brace; newline]) 0 = Err e.
Proof.
  intros pre. pose proof (@wal_burst_refused N _ 0 pre [Byte.x62] [Byte.x61] [] [seal (toy_encode 0 1)] [] []) as Hr.
  cbv zeta in Hr. destruct Hr as [e He].
  - apply (bool_decide_unpack _). vm_compute. exact I.
  - apply (bool_decide_unpack _). vm_compute. exact I.
  - reflexivity.
  - apply Nat.leb_le. reflexivity.
  - discriminate.
  - intros seq op crc. vm_compute. discriminate.
  - exists e. rewrite <- He. f_equal.
Defined.
