(* ===== verification/WalReplay.v ===== *)
(** * Applying the log to a graph ([src/registry/wal_replay.rs])

    The vocabulary of the graph's log, its one interpreter [apply_op], the live
    path [apply_in_order] that stops at the first refusal, and the guarded replay
    that runs every recovered operation.  A panic of the graph is [None]; the
    replay's [catch_unwind] turns it into an error. *)

From S2P Require Export Alias Wal.

Local Open Scope N_scope.

Record AssocOp := {
  ao_subject : name; ao_label : name; ao_object : name; ao_weight : f64;
  ao_source : option name; ao_paragraph : option N
}.

Inductive WalOp :=
  | Associate (op : AssocOp)
  | AliasConcept (alias canonical : name)
  | AliasLabel (alias canonical : name)
  | UnaliasConcept (alias : name)
  | UnaliasLabel (alias : name)
  | RetractSource (source : name)
  | RetractAssociation (subject label object : name).

Definition grows (op : WalOp) : bool :=
  match op with Associate _ | AliasConcept _ _ | AliasLabel _ _ => true | _ => false end.

Definition kind (op : WalOp) : bytes :=
  match op with
  | Associate _ => str "Associate"
  | AliasConcept _ _ => str "AliasConcept"
  | AliasLabel _ _ => str "AliasLabel"
  | UnaliasConcept _ => str "UnaliasConcept"
  | UnaliasLabel _ => str "UnaliasLabel"
  | RetractSource _ => str "RetractSource"
  | RetractAssociation _ _ _ => str "RetractAssociation"
  end.

(** What a refusal's message is made of. *)
Inductive refusal :=
  | RefusedFull (what : ContextFull)
  | RefusedConceptAlias (alias canonical : name) (why : AliasError)
  | RefusedLabelAlias (alias canonical : name) (why : AliasError)
  | NoConceptAlias (alias : name)
  | NoLabelAlias (alias : name).

(** [matches!(error, AliasError::Full(_))]. *)
Definition is_full (e : AliasError) : bool := match e with Full _ => true | _ => false end.

Section replay.
Context `{UnicodeTables}.

(** [Err (message, full)]. *)
Definition apply_op (op : WalOp) (c : Context) : option (result unit (refusal * bool) * Context) :=
  match op with
  | Associate op =>
    '(r, c) ← match ao_source op with
              | Some source => associate_from (ao_subject op) (ao_label op) (ao_object op) (ao_weight op) source (ao_paragraph op) c
              | None => associate (ao_subject op) (ao_label op) (ao_object op) (ao_weight op) c
              end;
    Some (match r with Ok _ => Ok tt | Err full => Err (RefusedFull full, true) end, c)
  | AliasConcept alias canonical =>
    '(r, c) ← add_concept_alias alias canonical c;
    Some (match r with Ok _ => Ok tt | Err e => Err (RefusedConceptAlias alias canonical e, is_full e) end, c)
  | AliasLabel alias canonical =>
    '(r, c) ← add_label_alias alias canonical c;
    Some (match r with Ok _ => Ok tt | Err e => Err (RefusedLabelAlias alias canonical e, is_full e) end, c)
  | UnaliasConcept alias =>
    '(r, c) ← remove_concept_alias alias c;
    Some (match r with Some _ => Ok tt | None => Err (NoConceptAlias alias, false) end, c)
  | UnaliasLabel alias =>
    '(r, c) ← remove_label_alias alias c;
    Some (match r with Some _ => Ok tt | None => Err (NoLabelAlias alias, false) end, c)
  | RetractSource source => '(_, c) ← retract_source source c; Some (Ok tt, c)
  | RetractAssociation subject label object => '(_, c) ← retract_association subject label object c; Some (Ok tt, c)
  end.

(** ** The live path *)

Record PartialWrite := { pw_applied : N; pw_message : refusal; pw_full : bool }.

Fixpoint apply_loop (ops : list WalOp) (applied : N) (c : Context) : option (result N PartialWrite * Context) :=
  match ops with
  | [] => Some (Ok applied, c)
  | op :: ops =>
    '(r, c) ← apply_op op c;
    match r with
    | Err (message, full) => Some (Err {| pw_applied := applied; pw_message := message; pw_full := full |}, c)
    | Ok _ => apply_loop ops (applied + 1) c
    end
  end.

Definition apply_in_order (ops : list WalOp) (c : Context) : option (result N PartialWrite * Context) := apply_loop ops 0 c.

Definition applied_count (r : result N PartialWrite) : N :=
  match r with Ok applied => applied | Err p => pw_applied p end.

(** ** Replay *)

(** Whether an acknowledged write was lost to capacity. *)
Definition replay_op (op : WalOp) (c : Context) : option (bool * Context) :=
  '(r, c) ← apply_op op c;
  Some (match r with Ok _ => false | Err (_, full) => full end, c).

Definition tally_capacity_loss (losses : N) (lost : bool) : N := if lost then losses + 1 else losses.

Definition should_report_capacity_losses (losses : N) : bool := 0 <? losses.

Inductive ReplayStage := Parsing | Applying (index total : N) (kind : bytes).

(** The operations in turn: the losses and the context, or where it panicked. *)
Fixpoint replay_ops (ops : list WalOp) (index total losses : N) (c : Context) : result (N * Context) ReplayStage :=
  match ops with
  | [] => Ok (losses, c)
  | op :: ops =>
    match replay_op op c with
    | None => Err (Applying index total (kind op))
    | Some (lost, c) => replay_ops ops (index + 1) total (tally_capacity_loss losses lost) c
    end
  end.

Inductive guarded_error := ReplayFailed (e : wal_error) | ReplayPanicked (stage : ReplayStage).

(** The top number and the rebuilt context, with the losses to report. *)
Definition replay_wal_guarded `{WalJson WalOp} (io : ReplayIo) (f : file) (watermark : N) (c : Context)
    : result (N * (N * Context)) guarded_error * file :=
  let '(r, f) := replay io watermark f in
  (match r with
   | Err e => Err (ReplayFailed e)
   | Ok (ops, top) =>
     match replay_ops ops 0 (lenN ops) 0 c with
     | Err stage => Err (ReplayPanicked stage)
     | Ok x => Ok (top, x)
     end
   end, f).
End replay.
