(* ===== verification/Changes.v ===== *)
(** * The change feed's ring ([src/registry/changes.rs])

    A bounded ring of recent changes with opaque cursors.  A poller that drains it
    gets every event once, in order, or is told to start over. *)

From S2P Require Export WalReplay.

Local Open Scope N_scope.

(** ** Integers in strings *)

(** [char::to_digit]. *)
Definition to_digit (radix : N) (b : byte) : option N :=
  let n := Byte.to_N b in
  let d := if (48 <=? n) && (n <? 58) then n - 48
           else if (97 <=? n) && (n <? 123) then n - 87
           else if (65 <=? n) && (n <? 91) then n - 55 else radix in
  if d <? radix then Some d else None.

Fixpoint parse_digits (radix acc : N) (bs : bytes) : option N :=
  match bs with
  | [] => Some acc
  | b :: bs =>
    d ← to_digit radix b;
    if acc * radix + d <=? U64_MAX then parse_digits radix (acc * radix + d) bs else None
  end.

(** [u64::from_str_radix], which [str::parse] is at ten: a leading plus sign is
    accepted, an empty string or a sign alone is not. *)
Definition from_str_radix (radix : N) (bs : bytes) : option N :=
  match bs with
  | [] | [Byte.x2b] => None
  | Byte.x2b :: bs => parse_digits radix 0 bs
  | _ => parse_digits radix 0 bs
  end.

(** [split_once('-')]. *)
Definition dash : byte := Byte.x2d.

Fixpoint split_once (bs : bytes) : option (bytes * bytes) :=
  match bs with
  | [] => None
  | b :: bs => if decide (b = dash) then Some ([], bs) else '(l, r) ← split_once bs; Some (b :: l, r)
  end.

(** [strip_prefix]. *)
Definition strip_prefix (p bs : bytes) : option bytes :=
  if decide (take (length p) bs = p) then Some (drop (length p) bs) else None.

(** ** The ring *)

Inductive ChangeKind :=
  | AssociationsAdded (count : N)
  | AssociationRetracted (subject label object : name)
  | AliasesAdded (count : N)
  | AliasesRemoved (count : N)
  | SourceStored (source : name)
  | SourceRetracted (source : name)
  | SchemaUpdated (mode : name).

Record ChangeEvent := { ce_seq : N; ce_kind : ChangeKind }.

Inductive ChangesOutcome :=
  | Page (events : list ChangeEvent) (next : bytes) (more : bool)
  | Stale.

Definition CHANGE_RING_CAP : N := 1024.

Record ChangeRing := { epoch : N; next_seq : N; events : list ChangeEvent }.

(** [ChangeRing::default] at the epoch [next_epoch] minted. *)
Definition ring_new (e : N) : ChangeRing := {| epoch := e; next_seq := 1; events := [] |}.

(** [next_epoch]: the clock's seed plus a counter, wrapping. *)
Definition next_epoch (seed next : N) : N * N := (u64_add seed next, u64_add next 1).

Definition ring_push (kind : ChangeKind) (r : ChangeRing) : ChangeRing := {|
  epoch := epoch r; next_seq := u64_add (next_seq r) 1;
  events := (if lenN (events r) =? CHANGE_RING_CAP then tail (events r) else events r) ++
    [{| ce_seq := next_seq r; ce_kind := kind |}] |}.

Definition ring_extend (kinds : list ChangeKind) (r : ChangeRing) : ChangeRing := foldl (flip ring_push) r kinds.

Definition CURSOR_PREFIX : bytes := str "cf1-".

Definition format_cursor (e seq : N) : bytes := CURSOR_PREFIX ++ hex_digits 16 e [] ++ [dash] ++ decimal_u64 seq.

Definition parse_cursor (cursor : bytes) : option (N * N) :=
  rest ← strip_prefix CURSOR_PREFIX cursor;
  '(e, seq) ← split_once rest;
  e ← from_str_radix 16 e; seq ← from_str_radix 10 seq; Some (e, seq).

Definition ring_cursor (r : ChangeRing) (seq : N) : bytes := format_cursor (epoch r) seq.

(** The page after a position this ring knows. *)
Definition read_after (r : ChangeRing) (last_seen : N) (limit : nat) : ChangesOutcome :=
  let latest := next_seq r - 1 in
  if latest <? last_seen then Stale
  else if match head (events r) with Some front => last_seen + 1 <? ce_seq front | None => false end then Stale
  else
    let page := take limit (filter (fun ev => last_seen < ce_seq ev) (events r)) in
    let served_to := match last page with Some ev => ce_seq ev | None => last_seen end in
    Page page (ring_cursor r served_to) (served_to <? latest).

Definition ring_read (r : ChangeRing) (since : option bytes) (limit : nat) : ChangesOutcome :=
  match since with
  | None => Page [] (ring_cursor r (next_seq r - 1)) false
  | Some cursor =>
    match parse_cursor cursor with
    | Some (e, seq) => if e =? epoch r then read_after r seq limit else Stale
    | None => Stale
    end
  end.

(** ** The events of a batch *)

Record Tally := { t_associations : N; t_added : N; t_removed : N; t_individual : list ChangeKind }.

Definition tally_op (t : Tally) (op : WalOp) : Tally :=
  match op with
  | Associate _ => {| t_associations := t_associations t + 1; t_added := t_added t; t_removed := t_removed t; t_individual := t_individual t |}
  | AliasConcept _ _ | AliasLabel _ _ =>
    {| t_associations := t_associations t; t_added := t_added t + 1; t_removed := t_removed t; t_individual := t_individual t |}
  | UnaliasConcept _ | UnaliasLabel _ =>
    {| t_associations := t_associations t; t_added := t_added t; t_removed := t_removed t + 1; t_individual := t_individual t |}
  | RetractSource source =>
    {| t_associations := t_associations t; t_added := t_added t; t_removed := t_removed t;
       t_individual := t_individual t ++ [SourceRetracted source] |}
  | RetractAssociation s l o =>
    {| t_associations := t_associations t; t_added := t_added t; t_removed := t_removed t;
       t_individual := t_individual t ++ [AssociationRetracted s l o] |}
  end.

Definition events_of_ops (ops : list WalOp) : list ChangeKind :=
  let t := foldl tally_op {| t_associations := 0; t_added := 0; t_removed := 0; t_individual := [] |} ops in
  (if 0 <? t_associations t then [AssociationsAdded (t_associations t)] else []) ++
  (if 0 <? t_added t then [AliasesAdded (t_added t)] else []) ++
  (if 0 <? t_removed t then [AliasesRemoved (t_removed t)] else []) ++
  t_individual t.

(** * The change feed loses nothing

    Cursors read back; a page is the events after the cursor; a poller that drains
    the ring sees every event once, or is told to start over. *)

(** ** Cursors *)

(** The three ranges of a digit's byte. *)
Lemma to_digit_low radix d : d < 10 -> d < radix -> to_digit radix (byte_of_N (48 + d)) = Some d.
Proof.
  intros Hd Hr. unfold to_digit. rewrite to_N_byte_of_N, N.mod_small by lia.
  rewrite (proj2 (N.leb_le 48 (48 + d))), (proj2 (N.ltb_lt (48 + d) 58)) by lia. cbn [andb].
  replace (48 + d - 48) with d by lia. by rewrite (proj2 (N.ltb_lt d radix)).
Qed.

Lemma to_digit_alpha radix d : 10 <= d < 36 -> d < radix -> to_digit radix (byte_of_N (87 + d)) = Some d.
Proof.
  intros Hd Hr. unfold to_digit. rewrite to_N_byte_of_N, N.mod_small by lia.
  rewrite (proj2 (N.ltb_ge (87 + d) 58)), andb_false_r by lia.
  rewrite (proj2 (N.leb_le 97 (87 + d))), (proj2 (N.ltb_lt (87 + d) 123)) by lia. cbn [andb].
  replace (87 + d - 87) with d by lia. by rewrite (proj2 (N.ltb_lt d radix)).
Qed.

Lemma to_digit_decimal d : d < 10 -> to_digit 10 (digit d) = Some d.
Proof. intros Hd. by apply to_digit_low. Qed.

Lemma to_digit_hex d : d < 16 -> to_digit 16 (hex_digit d) = Some d.
Proof.
  intros Hd. unfold hex_digit. destruct (N.ltb_spec d 10); [apply to_digit_low; lia | apply to_digit_alpha; lia].
Qed.

Lemma parse_digits_cons radix a d b bs : to_digit radix b = Some d -> a * radix + d <= U64_MAX ->
  parse_digits radix a (b :: bs) = parse_digits radix (a * radix + d) bs.
Proof. intros Hd Ha. cbn [parse_digits]. rewrite Hd. cbn [mbind option_bind]. by rewrite (proj2 (N.leb_le _ _) Ha). Qed.

(** A digit pushed in front of digits is read first. *)
Lemma parse_digits_step radix n b bs : 0 < radix -> n <= U64_MAX -> to_digit radix b = Some (n mod radix) ->
  parse_digits radix (n / radix) (b :: bs) = parse_digits radix n bs.
Proof.
  intros Hr Hn Hb. pose proof (N.div_mod n radix ltac:(lia)) as E.
  rewrite (parse_digits_cons _ _ _ _ _ Hb) by lia. f_equal. lia.
Qed.

Lemma parse_decimal_digits fuel : forall n bs, n < 10 ^ N.of_nat fuel -> n <= U64_MAX ->
  parse_digits 10 0 (decimal_digits fuel n bs) = parse_digits 10 n bs.
Proof.
  induction fuel as [|fuel IH]; intros n bs Hn Hu; cbn [decimal_digits].
  { simpl in Hn. by replace n with 0 by lia. }
  pose proof (N.mod_lt n 10 ltac:(lia)) as Hm. pose proof (to_digit_decimal _ Hm) as Hd.
  destruct (N.ltb_spec n 10) as [Hlt|Hge].
  - rewrite <- (parse_digits_step 10 n _ bs ltac:(lia) Hu Hd). by rewrite (N.div_small n 10 Hlt).
  - rewrite IH; [by apply parse_digits_step| |].
    + apply N.Div0.div_lt_upper_bound. by rewrite Nat2N.inj_succ, N.pow_succ_r' in Hn.
    + pose proof (N.Div0.div_le_mono n n 10). pose proof (N.div_lt n 10). lia.
Qed.

Lemma parse_hex_digits width : forall n bs, n < 16 ^ N.of_nat width -> n <= U64_MAX ->
  parse_digits 16 0 (hex_digits width n bs) = parse_digits 16 n bs.
Proof.
  induction width as [|width IH]; intros n bs Hn Hu; cbn [hex_digits].
  { simpl in Hn. by replace n with 0 by lia. }
  pose proof (to_digit_hex _ (N.mod_lt n 16 ltac:(lia))) as Hd. rewrite IH; [by apply parse_digits_step; [lia|..]| |].
  - apply N.Div0.div_lt_upper_bound. by rewrite Nat2N.inj_succ, N.pow_succ_r' in Hn.
  - pose proof (N.div_le_upper_bound n 16 n ltac:(lia)). lia.
Qed.

(** Digits are neither a sign nor a dash. *)
Definition digits_only (bs : bytes) : Prop := Forall (fun b => b <> dash /\ b <> Byte.x2b) bs.

Lemma decimal_digit_plain d : d < 10 -> digit d <> dash /\ digit d <> Byte.x2b.
Proof.
  intros Hd. unfold digit. split; intros E; apply (f_equal Byte.to_N) in E; rewrite to_N_byte_of_N, N.mod_small in E by lia;
    [change (Byte.to_N dash) with 45 in E | change (Byte.to_N Byte.x2b) with 43 in E]; lia.
Qed.

Lemma hex_digit_plain d : d < 16 -> hex_digit d <> dash /\ hex_digit d <> Byte.x2b.
Proof.
  intros Hd. unfold hex_digit. destruct (N.ltb_spec d 10); split; intros E; apply (f_equal Byte.to_N) in E; rewrite to_N_byte_of_N, N.mod_small in E by lia;
    (change (Byte.to_N dash) with 45 in E || change (Byte.to_N Byte.x2b) with 43 in E); lia.
Qed.

Lemma decimal_digits_only fuel : forall n bs, digits_only bs -> digits_only (decimal_digits fuel n bs).
Proof.
  induction fuel as [|fuel IH]; intros n bs Hb; cbn [decimal_digits]; [done|].
  assert (digits_only (digit (n mod 10) :: bs)) by (constructor; [apply decimal_digit_plain, N.mod_lt; lia | done]).
  destruct (n <? 10); [done | by apply IH].
Qed.

Lemma hex_digits_only width : forall n bs, digits_only bs -> digits_only (hex_digits width n bs).
Proof.
  induction width as [|width IH]; intros n bs Hb; cbn [hex_digits]; [done|].
  apply IH. constructor; [apply hex_digit_plain, N.mod_lt; lia | done].
Qed.

Lemma length_decimal_digits fuel : forall n bs, (length bs <= length (decimal_digits fuel n bs))%nat /\
  (0 < fuel -> length bs < length (decimal_digits fuel n bs))%nat.
Proof.
  induction fuel as [|fuel IH]; intros n bs; cbn [decimal_digits]; [split; lia|].
  destruct (n <? 10); [cbn [length]; lia|]. destruct (IH (n / 10) (digit (n mod 10) :: bs)) as [H _]. cbn [length] in H. lia.
Qed.

Lemma length_hex_digits width : forall n bs, length (hex_digits width n bs) = (width + length bs)%nat.
Proof. induction width as [|width IH]; intros n bs; cbn [hex_digits]; [done|]. rewrite IH. cbn [length]. lia. Qed.

Lemma from_str_radix_digits radix bs : digits_only bs -> bs <> [] -> from_str_radix radix bs = parse_digits radix 0 bs.
Proof. intros Hb Hne. destruct Hb as [|b bs [_ Hp] _]; [done|]. destruct b; destruct bs; done. Qed.

Lemma split_once_digits l r : digits_only l -> split_once (l ++ dash :: r) = Some (l, r).
Proof.
  induction 1 as [|b l [Hb _] _ IH]; cbn [split_once app].
  - by rewrite decide_True.
  - rewrite decide_False, IH by done. done.
Qed.

Lemma parse_format e seq : e <= U64_MAX -> seq <= U64_MAX -> parse_cursor (format_cursor e seq) = Some (e, seq).
Proof.
  intros He Hs. unfold parse_cursor, format_cursor, strip_prefix.
  rewrite take_app_length, drop_app_length. rewrite decide_True by done. cbn [mbind option_bind].
  assert (Hh : digits_only (hex_digits 16 e [])) by (apply hex_digits_only; constructor).
  assert (Hd : digits_only (decimal_u64 seq)) by (apply decimal_digits_only; constructor).
  cbn [app]. rewrite split_once_digits by done. cbn [mbind option_bind].
  rewrite (from_str_radix_digits 16) by (done || (intros E; by apply (f_equal length) in E; rewrite length_hex_digits in E)).
  rewrite parse_hex_digits by (unfold U64_MAX in *; simpl; lia). cbn [parse_digits mbind option_bind].
  rewrite (from_str_radix_digits 10);
    [|done | intros E; apply (f_equal length) in E; pose proof (proj2 (length_decimal_digits 20 seq []) ltac:(lia)); unfold decimal_u64 in E; rewrite E in *; cbn [length] in *; lia].
  unfold decimal_u64. rewrite parse_decimal_digits by (unfold U64_MAX in *; simpl; lia). done.
Qed.

(** ** The ring *)

(** Consecutive events, numbered from [first]. *)
Fixpoint history (first : N) (kinds : list ChangeKind) : list ChangeEvent :=
  match kinds with
  | [] => []
  | k :: kinds => {| ce_seq := first; ce_kind := k |} :: history (first + 1) kinds
  end.

Lemma history_app first k k' : history first (k ++ k') = history first k ++ history (first + lenN k) k'.
Proof.
  revert first. induction k as [|x k IH]; intros first; cbn [history app]; [by rewrite N.add_0_r|].
  rewrite IH. do 3 f_equal. unfold lenN. cbn [length]. lia.
Qed.

Lemma length_history first k : length (history first k) = length k.
Proof. revert first. induction k as [|x k IH]; intros first; cbn [history length]; [done | by rewrite IH]. Qed.

Lemma history_drop n : forall first k, drop n (history first k) = history (first + N.of_nat n) (drop n k).
Proof.
  induction n as [|n IH]; intros first [|x k]; cbn [history drop]; try done; [by rewrite N.add_0_r|].
  rewrite IH. f_equal. lia.
Qed.

Lemma history_take n : forall first k, take n (history first k) = history first (take n k).
Proof. induction n as [|n IH]; intros first [|x k]; cbn [history take]; try done. by rewrite IH. Qed.

(** A filter on the number drops the front. *)
Lemma history_after s : forall k first, first <= s + 1 ->
  filter (fun ev => s < ce_seq ev) (history first k) = drop (N.to_nat (s + 1 - first)) (history first k).
Proof.
  induction k as [|x k IH]; intros first Hf; cbn [history]; [by rewrite drop_nil|].
  destruct (decide (first = s + 1)) as [->|Hne].
  - rewrite N.sub_diag. cbn [N.to_nat drop]. clear IH. change ({| ce_seq := s + 1; ce_kind := x |} :: history (s + 1 + 1) k) with (history (s + 1) (x :: k)).
    assert (Hall : forall j l, s < j -> filter (fun ev => s < ce_seq ev) (history j l) = history j l).
    { intros j l. revert j. induction l as [|y l IHl]; intros j Hj; cbn [history]; [done|].
      rewrite filter_cons, decide_True by done. f_equal. apply IHl. lia. }
    apply Hall. lia.
  - rewrite filter_cons, decide_False by (cbn [ce_seq]; lia). rewrite IH by lia.
    replace (N.to_nat (s + 1 - first)) with (S (N.to_nat (s + 1 - (first + 1)))) by lia. done.
Qed.

Lemma history_last first k : last (history first k) = None /\ k = [] \/
  exists ev, last (history first k) = Some ev /\ ce_seq ev + 1 = first + lenN k.
Proof.
  destruct k as [|x k _] using rev_ind; [by left|]. right. rewrite history_app. cbn [history]. rewrite last_snoc. eexists. split; [done|].
  cbn [ce_seq]. rewrite lenN_snoc. lia.
Qed.

Definition capN : nat := N.to_nat CHANGE_RING_CAP.

Lemma ring_extend_new e kinds : lenN kinds < U64_MAX ->
  ring_extend kinds (ring_new e) = {| epoch := e; next_seq := lenN kinds + 1; events := drop (length kinds - capN) (history 1 kinds) |}.
Proof.
  induction kinds as [|k kinds IH] using rev_ind; intros Hlen; [done|]. rewrite lenN_snoc in *.
  unfold ring_extend. rewrite foldl_app. cbn [foldl]. fold (ring_extend kinds (ring_new e)). rewrite IH by lia.
  unfold flip, ring_push. cbn [epoch next_seq events]. f_equal.
  { unfold u64_add. apply N.mod_small. lia. }
  rewrite history_app, length_app. cbn [length history]. replace (1 + lenN kinds) with (lenN kinds + 1) by lia.
  assert (Hpos : 0 < CHANGE_RING_CAP) by done. unfold capN. generalize dependent CHANGE_RING_CAP. intros cap Hpos.
  unfold lenN at 1. rewrite length_drop, length_history.
  destruct (N.eqb_spec (N.of_nat (length kinds - (length kinds - N.to_nat cap))) cap) as [Heq|Hne].
  - rewrite drop_app_le by (rewrite length_history; lia). f_equal.
    replace (length kinds + 1 - N.to_nat cap)%nat with (length kinds - N.to_nat cap + 1)%nat by lia.
    rewrite <- drop_drop. by destruct (drop _ _).
  - rewrite drop_app_le by (rewrite length_history; lia). do 2 f_equal. lia.
Qed.

(** A page is the next events after the cursor, while they are all retained. *)
Lemma read_after_page e kinds s limit : lenN kinds < U64_MAX -> s <= lenN kinds -> lenN kinds - s <= CHANGE_RING_CAP ->
  let r := ring_extend kinds (ring_new e) in
  let page := take limit (drop (N.to_nat s) kinds) in
  read_after r s limit = Page (history (s + 1) page) (ring_cursor r (s + lenN page)) (s + lenN page <? lenN kinds).
Proof.
  intros Hlen Hs Hcap r page. unfold r. rewrite ring_extend_new by done. unfold read_after. cbn [next_seq events].
  rewrite (N.add_sub (lenN kinds) 1), (proj2 (N.ltb_ge _ _) Hs). rewrite history_drop.
  assert (Hk : N.of_nat (length kinds - capN) <= s) by (unfold lenN, capN in *; lia).
  set (k := (length kinds - capN)%nat) in *.
  assert (Hf : match head (history (1 + N.of_nat k) (drop k kinds)) with Some front => s + 1 <? ce_seq front | None => false end = false).
  { destruct (drop k kinds); [done|]. cbn [history head hd_error ce_seq]. apply N.ltb_ge. lia. }
  rewrite Hf, history_after by lia. rewrite history_drop, drop_drop, history_take.
  replace (k + N.to_nat (s + 1 - (1 + N.of_nat k)))%nat with (N.to_nat s) by lia.
  replace (1 + N.of_nat k + N.of_nat (N.to_nat (s + 1 - (1 + N.of_nat k)))) with (s + 1) by lia. fold page.
  destruct (history_last (s + 1) page) as [[-> ->]|(ev & -> & Hev)].
  - cbn. by rewrite N.add_0_r.
  - replace (ce_seq ev) with (s + lenN page) by lia. done.
Qed.

Lemma read_after_stale e kinds s limit : lenN kinds < U64_MAX -> s + CHANGE_RING_CAP < lenN kinds ->
  read_after (ring_extend kinds (ring_new e)) s limit = Stale.
Proof.
  intros Hlen Hs. rewrite ring_extend_new by done. unfold read_after. cbn [next_seq events]. rewrite (N.add_sub (lenN kinds) 1).
  rewrite (proj2 (N.ltb_ge (lenN kinds) s)) by lia. rewrite history_drop.
  assert (Hk : s < N.of_nat (length kinds - capN)) by (unfold lenN, capN in *; lia).
  destruct (drop (length kinds - capN) kinds) as [|x l] eqn:Hd.
  - apply (f_equal length) in Hd. rewrite length_drop in Hd. cbn [length] in Hd. unfold lenN, capN in *.
    assert (0 < CHANGE_RING_CAP) by done. lia.
  - cbn [history head hd_error ce_seq]. by rewrite (proj2 (N.ltb_lt _ _)) by lia.
Qed.

(** ** Polling *)

(** A client that reads until there is no more; [None] when told to start over. *)
Fixpoint poll (fuel : nat) (r : ChangeRing) (cursor : bytes) (limit : nat) : option (list ChangeEvent * bytes) :=
  match ring_read r (Some cursor) limit with
  | Stale => None
  | Page page next more =>
    if more then
      match fuel with
      | O => None
      | S fuel => '(rest, cursor) ← poll fuel r next limit; Some (page ++ rest, cursor)
      end
    else Some (page, next)
  end.

Lemma ring_read_own r e seq limit : epoch r = e -> e <= U64_MAX -> seq <= U64_MAX ->
  ring_read r (Some (format_cursor e seq)) limit = read_after r seq limit.
Proof. intros <- He Hs. unfold ring_read. by rewrite parse_format, N.eqb_refl. Qed.

Lemma poll_drains e kinds limit fuel : forall s, e <= U64_MAX -> lenN kinds < U64_MAX -> (0 < limit)%nat ->
  s <= lenN kinds -> lenN kinds - s <= CHANGE_RING_CAP -> (length kinds - N.to_nat s <= fuel)%nat ->
  poll fuel (ring_extend kinds (ring_new e)) (format_cursor e s) limit =
    Some (history (s + 1) (drop (N.to_nat s) kinds), format_cursor e (lenN kinds)).
Proof.
  induction fuel as [|fuel IH]; intros s He Hlen Hlim Hs Hcap Hfuel; cbn [poll];
    (rewrite ring_read_own; [|by rewrite ring_extend_new|done|lia]); rewrite read_after_page by done; cbv zeta.
  - assert (s = lenN kinds) as -> by (unfold lenN in *; lia). rewrite drop_ge by (unfold lenN; lia). rewrite take_nil.
    change (lenN (@nil ChangeKind)) with 0. rewrite N.add_0_r, N.ltb_irrefl. unfold ring_cursor.
    by rewrite ring_extend_new.
  - set (page := take limit (drop (N.to_nat s) kinds)).
    assert (Hpage : lenN page = N.min (N.of_nat limit) (lenN kinds - s)).
    { unfold page, lenN. rewrite length_take, length_drop. lia. }
    unfold ring_cursor. rewrite ring_extend_new by done. cbn [epoch]. rewrite <- ring_extend_new by done.
    destruct (N.ltb_spec (s + lenN page) (lenN kinds)) as [Hlt|Hge].
    + rewrite IH by (done || lia || (unfold lenN in *; lia)). cbn [mbind option_bind]. do 2 f_equal.
      rewrite <- (take_drop limit (drop (N.to_nat s) kinds)). fold page. rewrite history_app, drop_drop. f_equal.
      replace (s + 1 + lenN page) with (s + lenN page + 1) by lia. do 2 f_equal. lia.
    + replace (s + lenN page) with (lenN kinds) by lia. do 3 f_equal. unfold page. apply take_ge.
      rewrite length_drop. unfold lenN in *. lia.
Qed.

(** ** Properties *)

(** C27. The change feed loses nothing silently.  A client that takes a cursor and
    later polls until there is no more gets every change made since, once and in
    order, however small its page limit, and ends at the newest cursor; when more
    changes were made than the ring holds it is told to start over, and so is any
    client whose cursor is of another ring. *)
Theorem changes_feed_complete e kinds kinds' limit (He : e <= U64_MAX)
    (Hlen : lenN (kinds ++ kinds') < U64_MAX) (Hlimit : (0 < limit)%nat) :
  let r := ring_extend kinds (ring_new e) in
  let r' := ring_extend kinds' r in
  exists cursor, ring_read r None limit = Page [] cursor false /\
    poll (length kinds') r' cursor limit =
      (if CHANGE_RING_CAP <? lenN kinds' then None
       else Some (history (lenN kinds + 1) kinds', format_cursor e (lenN kinds + lenN kinds'))) /\
    (forall e' seq, e' <= U64_MAX -> seq <= U64_MAX -> e' <> e -> ring_read r' (Some (format_cursor e' seq)) limit = Stale).
Proof.
  intros r r'. rewrite lenN_app in Hlen.
  assert (Hr' : r' = ring_extend (kinds ++ kinds') (ring_new e)) by (unfold r', r, ring_extend; by rewrite foldl_app).
  exists (format_cursor e (lenN kinds)). split; [|split].
  - unfold r. rewrite ring_extend_new by lia. unfold ring_read, ring_cursor. cbn [next_seq epoch]. by rewrite N.add_sub.
  - rewrite Hr'. destruct (N.ltb_spec CHANGE_RING_CAP (lenN kinds')) as [Hgt|Hle].
    + destruct kinds' as [|k kinds']; [by cbn in Hgt|]. cbn [poll length].
      rewrite ring_read_own; [|by rewrite ring_extend_new by (rewrite lenN_app; lia) | done | lia].
      by rewrite read_after_stale by (rewrite lenN_app; lia).
    + rewrite poll_drains by (rewrite ?lenN_app, ?length_app; done || lia || (unfold lenN; lia)).
      rewrite drop_app_length' by (unfold lenN; lia). by rewrite lenN_app.
  - intros e' seq He' Hseq Hne. rewrite Hr'. unfold ring_read. rewrite parse_format by done.
    rewrite ring_extend_new by (rewrite lenN_app; lia). cbn [epoch]. by rewrite (proj2 (N.eqb_neq e' e)).
Qed.

Lemma changes_feed_complete_witness :
  let r := ring_extend [AssociationsAdded 3] (ring_new 7) in
  let r' := ring_extend [SourceStored (str "a.md"); AliasesAdded 1; SourceRetracted (str "a.md")] r in
  poll 3 r' (str "cf1-0000000000000007-1") 2 =
    Some ([{| ce_seq := 2; ce_kind := SourceStored (str "a.md") |}; {| ce_seq := 3; ce_kind := AliasesAdded 1 |};
           {| ce_seq := 4; ce_kind := SourceRetracted (str "a.md") |}], str "cf1-0000000000000007-4").
Proof.
  destruct (changes_feed_complete 7 [AssociationsAdded 3] [SourceStored (str "a.md"); AliasesAdded 1; SourceRetracted (str "a.md")] 2)
    as (cursor & Hr & Hp & _); [done | done | lia |].
  assert (cursor = str "cf1-0000000000000007-1") as -> by (vm_compute in Hr; by injection Hr). exact Hp.
Defined.
