(* ===== verification/Agree.v ===== *)
(** * Contexts that agree

    Two contexts agree when they differ at most in what a load rebuilds in its own
    order or forgets: the entry indexes, the order of the reverse index's lists,
    the dice floor, the arena slack and the watermark.  Every operation of the log takes agreeing
    contexts to agreeing contexts with the same answer. *)

From S2P Require Export WalReplay.

Local Open Scope N_scope.

Record agree (c c' : Context) : Prop := {
  ag_arena : arena c = arena c'; ag_concepts : concepts c = concepts c'; ag_labels : labels c = labels c';
  ag_sources : sources c = sources c'; ag_edges : edges c = edges c'; ag_attributions : attributions c = attributions c';
  ag_concept_aliases : concept_aliases c = concept_aliases c'; ag_label_aliases : label_aliases c = label_aliases c';
  ag_locators : attribution_locators c = attribution_locators c';
  ag_concept_ids : concept_ids c = concept_ids c'; ag_label_ids : label_ids c = label_ids c';
  ag_source_ids : source_ids c = source_ids c'; ag_concept_alias_index : concept_alias_index c = concept_alias_index c';
  ag_label_alias_index : label_alias_index c = label_alias_index c';
  ag_label_name_index : label_name_index c = label_name_index c'; ag_edge_ids : edge_ids c = edge_ids c';
  ag_attribution_ids : attribution_ids c = attribution_ids c';
  ag_dead_edges : dead_edges c = dead_edges c'; ag_dead_attributions : dead_attributions c = dead_attributions c'
}.

#[export] Instance agree_equivalence : Equivalence agree.
Proof.
  split.
  - by intros c.
  - intros c c' []. by split.
  - intros c c' c'' [] []. split; congruence.
Qed.

(** Two runs that both return agree. *)
Definition both {A} (R : A -> A -> Prop) (m m' : option A) : Prop :=
  match m, m' with Some x, Some x' => R x x' | _, _ => True end.

Lemma both_bind {A B} (R : A -> A -> Prop) (S : B -> B -> Prop) (k k' : A -> option B) m m' :
  both R m m' -> (forall x x', R x x' -> both S (k x) (k' x')) -> both S (m ≫= k) (m' ≫= k').
Proof. destruct m, m'; simpl; auto. intros _ _. destruct (k _); done. Qed.

Lemma both_same {A B} (S : B -> B -> Prop) (k k' : A -> option B) m :
  (forall x, both S (k x) (k' x)) -> both S (m ≫= k) (m ≫= k').
Proof. intros Hk. destruct m; simpl; auto. Qed.

Lemma both_any {A B} (S : B -> B -> Prop) (k k' : A -> option B) m m' :
  (forall x x', both S (k x) (k' x')) -> both S (m ≫= k) (m' ≫= k').
Proof. intros Hk. by apply (both_bind (fun _ _ => True)); [destruct m, m' | auto]. Qed.

Lemma both_returns {A} (R : A -> A -> Prop) m m' x x' : both R m m' -> m = Some x -> m' = Some x' -> R x x'.
Proof. by intros Hb -> ->. Qed.

(** The same answer, agreeing contexts. *)
Definition same_step {A} (p p' : A * Context) : Prop := p.1 = p'.1 /\ agree p.2 p'.2.

(** Splits agreeing contexts into shared fields. *)
Ltac share Hag :=
  match type of Hag with agree ?c ?c' =>
    destruct Hag; destruct c, c'; cbn in *; subst
  end.
Ltac shared := split; [done | by split].

Section agree.
Context `{UnicodeTables}.

Lemma agree_concept_name c c' : agree c c' -> concept_name c = concept_name c'.
Proof using. intros Hag. share Hag. reflexivity. Qed.
Lemma agree_label_name c c' : agree c c' -> label_name c = label_name c'.
Proof using. intros Hag. share Hag. reflexivity. Qed.

Lemma agree_facts c c' : agree c c' -> facts c = facts c'.
Proof using. intros Hag. share Hag. reflexivity. Qed.

Lemma intern_concept_same n c c' : agree c c' -> both same_step (intern_concept n c) (intern_concept n c').
Proof using.
  intros Hag. share Hag. unfold intern_concept. cbn -[claim_id intern_name ei_push].
  destruct (_ !! n); [shared|]. apply both_same. intros id. apply both_same. intros [a [o l]].
  apply both_any. intros. shared.
Qed.

Lemma intern_label_same n c c' : agree c c' -> both same_step (intern_label n c) (intern_label n c').
Proof using.
  intros Hag. share Hag. unfold intern_label. cbn -[claim_id intern_name ei_push].
  destruct (_ !! n); [shared|]. apply both_same. intros id. apply both_same. intros [a [o l]].
  apply both_any. intros. shared.
Qed.

Lemma intern_source_opt_same s c c' : agree c c' -> both same_step (intern_source_opt s c) (intern_source_opt s c').
Proof using.
  intros Hag. destruct s as [n|]; [|by split]. cbn [intern_source_opt]. share Hag. unfold intern_source. cbn -[claim_id intern_name].
  destruct (_ !! n); [shared|]. rewrite !option_bind_assoc. apply both_same. intros id. cbn -[intern_name].
  rewrite !option_bind_assoc. apply both_same. intros [a [o l]]. shared.
Qed.

Lemma upsert_edge_same k w c c' : agree c c' -> both same_step (upsert_edge k w c) (upsert_edge k w c').
Proof using.
  intros Hag. share Hag. unfold upsert_edge, accumulate_edge, push_edge. cbn -[claim_id append_edge tget tupd set_totals].
  destruct (_ !! k).
  - rewrite !option_bind_assoc. apply both_same. intros e. cbn -[tget tupd set_totals]. rewrite !option_bind_assoc.
    apply both_same. intros es. shared.
  - repeat (apply both_same; intros [? ?] || intros ?). shared.
Qed.

Lemma attribute_same e s w p c c' : agree c c' -> both agree (attribute e s w p c) (attribute e s w p c').
Proof using.
  intros Hag. share Hag. unfold attribute, push_attribution. cbn -[claim_id tget tupd set_t_totals].
  destruct (_ !! (e, s)); repeat (apply both_same; intros ?); by split.
Qed.

Lemma ensure_room_same s l o src c c' : agree c c' -> ensure_room s l o src c = ensure_room s l o src c'.
Proof using. intros Hag. share Hag. reflexivity. Qed.

Lemma upsert_same s l o w src p c c' : agree c c' -> both same_step (upsert s l o w src p c) (upsert s l o w src p c').
Proof using.
  intros Hag. unfold upsert. destruct (negb (f64_finite w)); [done|]. rewrite (ensure_room_same _ _ _ _ c c' Hag).
  destruct (ensure_room s l o src c') as [_|e]; [|by split].
  eapply both_bind; [by apply intern_concept_same|]. intros [sid c1] [sid' c1'] [Hs H1]. cbn [fst snd] in Hs, H1. subst sid'.
  eapply both_bind; [by apply intern_concept_same|]. intros [oid c2] [oid' c2'] [Hs H2]. cbn [fst snd] in Hs, H2. subst oid'.
  eapply both_bind; [by apply intern_label_same|]. intros [lid c3] [lid' c3'] [Hs H3]. cbn [fst snd] in Hs, H3. subst lid'.
  eapply both_bind; [by apply intern_source_opt_same|]. intros [srcid c4] [srcid' c4'] [Hs H4]. cbn [fst snd] in Hs, H4. subst srcid'.
  eapply both_bind; [by apply upsert_edge_same|]. intros [e c5] [e' c5'] [Hs H5]. cbn [fst snd] in Hs, H5. subst e'.
  apply (both_bind agree); [destruct srcid; [by apply attribute_same | done]|]. intros c6 c6' H6. by split.
Qed.

(** ** Aliases *)

Definition ns_same (h h' : AliasNamespace) : Prop :=
  an_aliases h = an_aliases h' /\ an_ids h = an_ids h' /\ an_alias_index h = an_alias_index h'.

Lemma add_alias_same a h h' alias canonical full : ns_same h h' ->
  both (fun p p' => p.1 = p'.1 /\ p.2.1 = p'.2.1 /\ ns_same p.2.2 p'.2.2)
    (add_alias a h alias canonical full) (add_alias a h' alias canonical full).
Proof using.
  intros (E1 & E2 & E3). unfold add_alias. rewrite E1, E2, E3. destruct (an_ids h' !! canonical); [|done].
  destruct (an_ids h' !! alias); [by destruct (_ =? _)|]. destruct (negb _); [done|]. destruct (negb _); [done|].
  apply both_same. intros [a' [o l]]. apply both_any. intros. done.
Qed.

Definition space_agrees (S : AliasSpace) : Prop := forall c c', agree c c' ->
  ns_same (as_handle c) (as_handle c') /\ as_records c = as_records c' /\ as_name c = as_name c' /\
  forall a h h' k k', ns_same h h' -> agree (as_put a h k c) (as_put a h' k' c').

Lemma concept_space_agrees : space_agrees concept_space.
Proof using.
  intros c c' Hag. split; [by destruct Hag|]. split; [cbn; by rewrite (ag_concepts _ _ Hag)|].
  split; [by apply agree_concept_name|]. intros a h h' k k' (? & ? & ?). destruct Hag. by split.
Qed.

Lemma label_space_agrees : space_agrees label_space.
Proof using.
  intros c c' Hag. split; [by destruct Hag|]. split; [cbn; by rewrite (ag_labels _ _ Hag)|].
  split; [by apply agree_label_name|]. intros a h h' k k' (? & ? & ?). destruct Hag. by split.
Qed.

Lemma add_space_alias_same S alias canonical c c' : space_agrees S -> agree c c' ->
  both same_step (add_space_alias S alias canonical c) (add_space_alias S alias canonical c').
Proof using.
  intros HS Hag. destruct (HS c c' Hag) as (Hh & _ & _ & Hput). unfold add_space_alias. rewrite (ag_arena _ _ Hag).
  eapply both_bind; [by apply add_alias_same|]. intros [r [a h]] [r' [a' h']] (E1 & E2 & E3). cbn in E1, E2, E3. subst.
  split; [done | by apply Hput].
Qed.

Lemma remove_space_alias_same S alias c c' : space_agrees S -> agree c c' ->
  both same_step (remove_space_alias S alias c) (remove_space_alias S alias c').
Proof using.
  intros HS Hag. destruct (HS c c' Hag) as ((E1 & E2 & E3) & Er & _ & Hput). unfold remove_space_alias.
  rewrite E1, E2, E3, Er, (ag_arena _ _ Hag). apply both_same. intros [position|]; [|by split].
  apply both_same. intros record. apply both_same. intros index.
  set (h := {| an_aliases := _; an_index := index; an_ids := _; an_alias_index := _ |}).
  assert (Hag' : agree (as_put (arena c') h (arena_slack c + a_name_len record) c)
    (as_put (arena c') h (arena_slack c' + a_name_len record) c')) by (by apply Hput).
  destruct (HS _ _ Hag') as (_ & _ & En & _). rewrite En. apply both_same. intros canonical. by split.
Qed.

(** ** Retractions *)

Lemma retract_edge_same s e c c' : agree c c' -> both same_step (retract_edge s e c) (retract_edge s e c').
Proof using.
  intros Hag. share Hag. unfold retract_edge. cbn -[tget tupd find_claim set_totals].
  apply both_same. intros edge. apply both_same. intros [[[[previous cursor] sum] count]|]; [|shared].
  repeat (apply both_same; intros ?). shared.
Qed.

Lemma retract_edges_same s es : forall n c c', agree c c' -> both same_step (retract_edges s es n c) (retract_edges s es n c').
Proof using.
  induction es as [|e es IH]; intros n c c' Hag; [by split|]. cbn [retract_edges].
  eapply both_bind; [by apply retract_edge_same|]. intros [hit d] [hit' d'] [Hh Hd]. cbn in Hh, Hd. subst. by apply IH.
Qed.

(** The reverse index of a well-formed context, sorted, is a function of its claims. *)
Lemma sorted_source_edges c c' s : wf c -> wf c' -> attribution_ids c = attribution_ids c' ->
  merge_sort N.le (default [] (source_edges c !! s)) = merge_sort N.le (default [] (source_edges c' !! s)).
Proof using.
  intros W W' E. destruct (wf_reverse _ W) as [H1 H2], (wf_reverse _ W') as [H1' H2'].
  assert (Hnd : forall d, source_edges_wf (source_edges d) (attribution_ids d) -> NoDup (default [] (source_edges d !! s))).
  { intros d [Hd _]. destruct (source_edges d !! s) as [l|] eqn:El; [by destruct (Hd s l El) | constructor]. }
  apply sorted_unique; [apply sort_ids_sorted, Hnd; by split | apply sort_ids_sorted, Hnd; by split|].
  intros e. change (e ∈ sort_ids (default [] (source_edges c !! s)) <-> e ∈ sort_ids (default [] (source_edges c' !! s))).
  by rewrite !elem_of_sort_ids, H2, H2', E.
Qed.

Lemma retract_source_same s c c' : wf c -> wf c' -> agree c c' -> both same_step (retract_source s c) (retract_source s c').
Proof using.
  intros W W' Hag. unfold retract_source. rewrite (ag_source_ids _ _ Hag). destruct (source_ids c' !! s) as [id|]; [|by split].
  rewrite (sorted_source_edges c c' id W W' (ag_attribution_ids _ _ Hag)).
  eapply both_bind; [apply (retract_edges_same id _ 0 (set_source_edges (delete id (source_edges c)) c)
    (set_source_edges (delete id (source_edges c')) c')); by destruct Hag|].
  intros [n d] [n' d'] [Hn Hd]. cbn in Hn, Hd. subst. split; [done|]. destruct Hd. split; cbn; congruence.
Qed.

Lemma unlink_all_same rows e fuel : forall cursor ids se se' n,
  both (fun p p' => p.1.1 = p'.1.1 /\ p.2 = p'.2) (unlink_all fuel rows e cursor ids se n) (unlink_all fuel rows e cursor ids se' n).
Proof using.
  induction fuel as [|fuel IH]; intros cursor ids se se' n; cbn [unlink_all]; destruct (cursor =? NIL); try done.
  apply both_same. intros record. apply IH.
Qed.

Lemma retract_association_same s l o c c' : agree c c' ->
  both same_step (retract_association s l o c) (retract_association s l o c').
Proof using.
  intros Hag. unfold retract_association.
  assert (He : existing_edge s l o c = existing_edge s l o c') by (share Hag; reflexivity). rewrite He.
  destruct (existing_edge s l o c') as [e|]; [|by split]. rewrite (ag_edges _ _ Hag), (ag_attributions _ _ Hag), (ag_attribution_ids _ _ Hag).
  apply both_same. intros edge. destruct (e_count edge =? 0); [by split|].
  eapply both_bind; [apply unlink_all_same|]. intros [[ids se] n] [[ids' se'] n'] [E1 E2]. cbn in E1, E2. subst.
  apply both_same. intros es. split; [done|]. destruct Hag. split; cbn; congruence.
Qed.

(** ** The interpreter *)

Lemma apply_op_same op c c' : wf c -> wf c' -> agree c c' -> both same_step (apply_op op c) (apply_op op c').
Proof using.
  intros W W' Hag.
  assert (Hwrap : forall A B (f : A -> B) m m', both (fun p p' => p.1 = p'.1 /\ agree p.2 p'.2) m m' ->
    both same_step ('(r, d) ← m; Some (f r, d)) ('(r, d) ← m'; Some (f r, d))).
  { intros A B f m m' Hm. eapply both_bind; [exact Hm|]. intros [r d] [r' d'] [E1 E2]. cbn in E1, E2. subst. by split. }
  destruct op as [op|alias canonical|alias canonical|alias|alias|source|s l o]; cbn [apply_op]; apply Hwrap.
  - destruct (ao_source op); apply upsert_same; done.
  - by apply add_space_alias_same; [apply concept_space_agrees|].
  - by apply add_space_alias_same; [apply label_space_agrees|].
  - by apply remove_space_alias_same; [apply concept_space_agrees|].
  - by apply remove_space_alias_same; [apply label_space_agrees|].
  - by apply retract_source_same.
  - by apply retract_association_same.
Qed.
End agree.
