(* ===== verification/DurableThm.v ===== *)
(** * Replay repeats the live path

    Within the widths, an operation of the log returns, keeps the invariant, and
    leaves the context alone when it is refused; so replaying the operations the
    live path applied, on a context that agrees with the one it started from,
    reaches a context that agrees with the one it ended in. *)

From S2P Require Export Agree RestoreClaims.
From S2P Require Import WalClaims WalThm.

Local Open Scope N_scope.

Section total.
Context `{UnicodeTables}.

(** One more entry fits the index of each namespace, two the concepts'. *)
Definition spelling_room (c : Context) : Prop :=
  lenN (concepts c) + lenN (concept_aliases c) + 2 <= NIL /\ lenN (labels c) + lenN (label_aliases c) + 1 <= NIL.

(** What an operation needs: valid strings, machine widths. *)
Definition op_ok (op : WalOp) (c : Context) : Prop :=
  match op with
  | Associate op => valid_write (ao_subject op) (ao_label op) (ao_object op) (ao_source op)
        (match ao_source op with Some _ => ao_paragraph op | None => None end) (ao_weight op) /\
      spelling_room c /\ count_room (ao_subject op) (ao_label op) (ao_object op) c
  | AliasConcept alias _ | AliasLabel alias _ => utf8_valid alias = true /\ spelling_room c
  | UnaliasConcept _ | UnaliasLabel _ => spelling_room c
  | RetractSource _ | RetractAssociation _ _ _ => True
  end.

Lemma index_spans c : wf c -> lenN (ei_spans (concept_index c)) = lenN (concepts c) + lenN (concept_aliases c) /\
  lenN (ei_spans (label_index c)) = lenN (labels c) + lenN (label_aliases c).
Proof using.
  intros W. pose proof (space_spans concept_space c W) as [H1 H2]. pose proof (space_spans label_space c W) as [H3 H4].
  cbn in H1, H2, H3, H4. rewrite lenN_fmap in H1. rewrite lenN_fmap in H3. by rewrite H1, H3, H2, H4.
Qed.

(** What a return of the interpreter looks like. *)
Definition returns (op : WalOp) (c : Context) (r : result unit (refusal * bool)) (c' : Context) : Prop :=
  apply_op op c = Some (r, c') /\ wf c' /\ (forall e, r = Err e -> agree c c').

Lemma upsert_returns s l o w src p c : wf c -> valid_write s l o src p w -> spelling_room c -> count_room s l o c ->
  exists r c', upsert s l o w src p c = Some (r, c') /\ wf c' /\ (forall e, r = Err e -> agree c c').
Proof using.
  intros W Hv [R1 R2] Hc. destruct (index_spans c W) as [E1 E2].
  destruct (upsert_cases s l o src p w c W Hv) as (r & c' & Hr & W' & _ & He); [|done|].
  - split; [by rewrite E1 | by rewrite E2].
  - exists r, c'. split; [done|]. split; [done|]. intros e Hre. by rewrite (He e Hre).
Qed.

Lemma alias_returns (S : AliasSpace) alias canonical c : wf c -> utf8_valid alias = true ->
  lenN (as_records c) + lenN (an_aliases (as_handle c)) < NIL ->
  exists r c', add_space_alias S alias canonical c = Some (r, c') /\ wf c' /\ (forall e, r = Err e -> agree c c').
Proof using.
  intros W Hv Hroom. destruct (space_spans S c W) as [E1 E2].
  destruct (add_space_alias_cases S alias canonical c W Hv) as (r & c' & Hr & W' & _ & Hcase); [rewrite E1, <- E2; exact Hroom|].
  exists r, c'. split; [done|]. split; [done|]. intros e ->.
  destruct (_ !! canonical); [|destruct Hcase as [_ ->]; done].
  destruct (_ !! alias); [destruct Hcase as [_ ->]; done|].
  destruct (_ =? _); [destruct Hcase as [_ ->]; done|]. destruct (_ <? _); [destruct Hcase as [_ ->]; done|].
  by destruct Hcase.
Qed.

Lemma unalias_returns (S : AliasSpace) alias c : wf c -> lenN (as_records c) + lenN (an_aliases (as_handle c)) <= NIL ->
  exists r c', remove_space_alias S alias c = Some (r, c') /\ wf c' /\ (r = None -> agree c c').
Proof using.
  intros W Hroom. destruct (remove_space_alias_cases S alias c W Hroom) as (r & c' & Hr & W' & Hcase).
  exists r, c'. split; [done|]. split; [done|]. intros ->. destruct (_ !! alias).
  - by destruct Hcase as (_ & [? ?] & _).
  - by destruct Hcase as [_ ->].
Qed.

Lemma retract_association_returns s l o c : wf c -> exists r c', retract_association s l o c = Some (r, c') /\ wf c'.
Proof using.
  intros W. destruct (facts_total c W) as [fs Hfs].
  destruct (existing_edge s l o c) as [e|] eqn:Hex; [|exists None, c; unfold retract_association; by rewrite Hex].
  assert (He : exists ed, tget (edges c) e = Some ed).
  { unfold existing_edge in Hex. apply bind_Some in Hex as (? & _ & Hex).
    apply bind_Some in Hex as (? & _ & Hex). apply bind_Some in Hex as (? & _ & Hex).
    apply (wf_triples _ W) in Hex. rewrite tget_fmap in Hex. apply fmap_Some in Hex as (ed & ? & _). eauto. }
  destruct He as [ed Hed]. destruct (decide (e_count ed = 0)) as [Hz|Hnz].
  - exists None, c. unfold retract_association. rewrite Hex, Hed. cbn [mbind option_bind]. by rewrite (proj2 (N.eqb_eq _ _) Hz).
  - destruct (retract_association_live s l o e ed c fs W Hex Hed Hnz Hfs) as (c' & f & Hr & W' & _). eauto.
Qed.

Lemma retract_source_returns s c : wf c -> exists r c', retract_source s c = Some (r, c') /\ wf c'.
Proof using.
  intros W. destruct (facts_total c W) as [fs Hfs]. destruct (source_ids c !! s) as [id|] eqn:Hs.
  - destruct (retract_source_known s id c fs W Hs Hfs) as (c' & Hr & W' & _). eauto.
  - exists None, c. unfold retract_source. by rewrite Hs.
Qed.

(** Every operation returns, keeps the invariant, and a refusal changes nothing. *)
Lemma apply_op_returns op c : wf c -> op_ok op c -> exists r c', returns op c r c'.
Proof using.
  intros W Hok. unfold returns. destruct op as [op|alias canonical|alias canonical|alias|alias|source|s l o]; cbn [apply_op op_ok] in *.
  - destruct Hok as (Hv & Hr & Hc). destruct (ao_source op) as [src|];
      [destruct (upsert_returns _ _ _ _ _ _ c W Hv Hr Hc) as (r & c' & Hrun & W' & He)|
       destruct (upsert_returns _ _ _ _ _ _ c W Hv Hr Hc) as (r & c' & Hrun & W' & He)];
      unfold associate_from, associate; rewrite Hrun; cbn [mbind option_bind]; eexists _, c'; (split; [done|]); (split; [done|]);
      destruct r; try done; intros e' _; by eapply He.
  - destruct Hok as (Hv & Hr & _). destruct (alias_returns concept_space alias canonical c W Hv) as (r & c' & Hrun & W' & He);
      [cbn; rewrite lenN_fmap; lia|]. unfold add_concept_alias. rewrite Hrun. cbn [mbind option_bind].
    eexists _, c'. split; [done|]. split; [done|]. destruct r; [done|]. intros e' _. by eapply He.
  - destruct Hok as (Hv & _ & Hr). destruct (alias_returns label_space alias canonical c W Hv) as (r & c' & Hrun & W' & He);
      [cbn; rewrite lenN_fmap; lia|]. unfold add_label_alias. rewrite Hrun. cbn [mbind option_bind].
    eexists _, c'. split; [done|]. split; [done|]. destruct r; [done|]. intros e' _. by eapply He.
  - destruct Hok as (Hr & _). destruct (unalias_returns concept_space alias c W) as (r & c' & Hrun & W' & He);
      [cbn; rewrite lenN_fmap; lia|]. unfold remove_concept_alias. rewrite Hrun. cbn [mbind option_bind].
    eexists _, c'. split; [done|]. split; [done|]. destruct r; [done|]. intros e' _. by apply He.
  - destruct Hok as (_ & Hr). destruct (unalias_returns label_space alias c W) as (r & c' & Hrun & W' & He);
      [cbn; rewrite lenN_fmap; lia|]. unfold remove_label_alias. rewrite Hrun. cbn [mbind option_bind].
    eexists _, c'. split; [done|]. split; [done|]. destruct r; [done|]. intros e' _. by apply He.
  - destruct (retract_source_returns source c W) as (r & c' & Hrun & W'). rewrite Hrun. cbn [mbind option_bind].
    eexists _, c'. split; [done|]. by split.
  - destruct (retract_association_returns s l o c W) as (r & c' & Hrun & W'). rewrite Hrun. cbn [mbind option_bind].
    eexists _, c'. split; [done|]. by split.
Qed.

(** What an operation needs is the same in agreeing contexts. *)
Lemma op_ok_agree op c c' : agree c c' -> op_ok op c -> op_ok op c'.
Proof using.
  intros Hag Hok.
  assert (Hroom : spelling_room c -> spelling_room c') by (unfold spelling_room; by destruct Hag as [? <- <- ? ? ? <- <-]).
  destruct op; cbn [op_ok] in *; try naive_solver.
  destruct Hok as (Hv & Hr & Hc). split; [done|]. split; [by apply Hroom|]. share Hag. exact Hc.
Qed.

(** What a batch needs, up to the operation that is refused. *)
Fixpoint ops_ok (ops : list WalOp) (c : Context) : Prop :=
  match ops with
  | [] => True
  | op :: ops => op_ok op c /\ match apply_op op c with Some (Ok _, c') => ops_ok ops c' | _ => True end
  end.

Lemma apply_loop_replays ops : forall m i n c c0, wf c -> wf c0 -> agree c c0 -> ops_ok ops c ->
  exists r c' d k, apply_loop ops m c = Some (r, c') /\ wf c' /\ applied_count r = m + N.of_nat k /\ (k <= length ops)%nat /\
    (is_ok r = true -> k = length ops) /\ replay_ops (take k ops) i n 0 c0 = Ok (0, d) /\ agree c' d.
Proof using.
  induction ops as [|op ops IH]; intros m i n c c0 W W0 Hag Hok; cbn [apply_loop].
  { exists (Ok m), c, c0, 0%nat. cbn. rewrite N.add_0_r. done. }
  destruct Hok as [Hop Hrest]. destruct (apply_op_returns op c W Hop) as (r & c1 & Hr & W1 & Href). rewrite Hr in Hrest |- *.
  pose proof (op_ok_agree op c c0 Hag Hop) as Hop0. destruct (apply_op_returns op c0 W0 Hop0) as (r0 & c01 & Hr0 & W01 & _).
  destruct (both_returns _ _ _ _ _ (apply_op_same op c c0 W W0 Hag) Hr Hr0) as [E Hag1]. cbn [fst snd] in E, Hag1. subst r0.
  cbn [mbind option_bind]. destruct r as [u|[message full]].
  - destruct (IH (m + 1) (i + 1) n c1 c01 W1 W01 Hag1 Hrest) as (r & c' & d & k & Hl & W' & Hn & Hk & Hall & Hrep & Hagd).
    exists r, c', d, (S k). split; [done|]. split; [done|]. split; [lia|]. cbn [length]. split; [lia|].
    split; [intros Hb; by rewrite (Hall Hb)|]. split; [|done]. cbn [take replay_ops]. unfold replay_op. rewrite Hr0. exact Hrep.
  - exists (Err {| pw_applied := m; pw_message := message; pw_full := full |}), c1, c0, 0%nat. cbn [applied_count pw_applied].
    split; [done|]. split; [done|]. split; [lia|]. split; [lia|]. split; [done|]. split; [done|].
    transitivity c; [symmetry; by apply (Href (message, full)) | done].
Qed.
End total.

(** * The log's operations on the graph: properties *)

From S2P Require Import Sample.

Local Open Scope N_scope.

(** C26. Every operation of the log is total on a well-formed context whose tables
    have room: it returns, the context it leaves satisfies the whole invariant, and
    a refusal, of whatever kind, leaves a context no read or later operation can
    tell from the old one. *)
Theorem apply_op_total `{UnicodeTables} op c (Hwf : wf c) (Hok : op_ok op c) :
  exists r c', apply_op op c = Some (r, c') /\ wf c' /\
    match r with Ok _ => True | Err _ => agree c c' /\ facts c' = facts c end.
Proof.
  destruct (apply_op_returns op c Hwf Hok) as (r & c' & Hr & W & Hag). exists r, c'. split; [done|]. split; [done|].
  destruct r as [u|e]; [done|]. split; [by apply (Hag e)|]. symmetry. by apply agree_facts, (Hag e).
Qed.

Definition retract_doc : WalOp := RetractSource (str "doc1").
Definition alias_missing : WalOp := AliasConcept (str "kitty") (str "dog").

Definition spelling_roomb (c : Context) : bool :=
  (lenN (concepts c) + lenN (concept_aliases c) + 2 <=? NIL) && (lenN (labels c) + lenN (label_aliases c) + 1 <=? NIL).

Lemma alias_missing_ok : op_ok alias_missing sample.
Proof. split; [vm_compute; reflexivity | split; apply N.leb_le; vm_compute; reflexivity]. Qed.

Lemma apply_op_total_witness : exists r c', @apply_op ascii_tables alias_missing sample = Some (r, c') /\ @wf ascii_tables c' /\
  match r with Ok _ => True | Err _ => agree sample c' /\ facts c' = facts sample end.
Proof. exact (@apply_op_total ascii_tables alias_missing sample sample_wf alias_missing_ok). Defined.

(** C25. Replay repeats the live path.  A batch applied in order returns; replaying
    the prefix it reports as applied, on any context that agrees with the one it
    started from, panics nowhere, loses no write to capacity, and ends in a context
    that agrees with the live one; and the prefix is the whole batch when nothing
    was refused. *)
Theorem live_replay_agree `{UnicodeTables} ops n c c0 (Hwf : wf c) (Hwf0 : wf c0) (Hag : agree c c0) (Hok : ops_ok ops c) :
  exists r c' d, apply_in_order ops c = Some (r, c') /\ wf c' /\ applied_count r <= lenN ops /\
    (is_ok r = true -> applied_count r = lenN ops) /\
    replay_ops (take (N.to_nat (applied_count r)) ops) 0 n 0 c0 = Ok (0, d) /\ agree c' d /\ facts d = facts c'.
Proof.
  destruct (apply_loop_replays ops 0 0 n c c0 Hwf Hwf0 Hag Hok) as (r & c' & d & k & Hr & W & Hn & Hk & Hall & Hrep & Hagd).
  exists r, c', d. rewrite Hn, N.add_0_l, Nat2N.id. split; [done|]. split; [done|]. split; [unfold lenN; lia|].
  split; [intros Hb; unfold lenN; by rewrite (Hall Hb)|]. split; [done|]. split; [done|]. symmetry. by apply agree_facts.
Qed.

(** The second operation is refused: the first is replayed. *)
Lemma live_replay_agree_witness : exists r c' d,
  @apply_in_order ascii_tables [retract_doc; alias_missing; retract_doc] sample = Some (r, c') /\ applied_count r = 1 /\
  @replay_ops ascii_tables [retract_doc] 0 1 0 sample = Ok (0, d) /\ facts d = facts c'.
Proof.
  assert (Hok : @ops_ok ascii_tables [retract_doc; alias_missing; retract_doc] sample).
  { split; [exact I|]. change (match @apply_op ascii_tables retract_doc sample with
      | Some (Ok _, c') => @ops_ok ascii_tables [alias_missing; retract_doc] c' | _ => True end).
    assert (Hc : match @apply_op ascii_tables retract_doc sample with Some (_, c) => spelling_roomb c | None => true end = true)
      by (vm_compute; reflexivity).
    destruct (@apply_op ascii_tables retract_doc sample) as [[[u|e] c']|]; [|exact I|exact I].
    apply andb_true_iff in Hc as [H1%N.leb_le H2%N.leb_le]. split; [split; [vm_compute; reflexivity | split; [exact H1 | exact H2]]|].
    destruct (@apply_op ascii_tables alias_missing c') as [[[u2|e2] c2]|]; [|exact I|exact I]. split; [exact I|].
    destruct (@apply_op ascii_tables retract_doc c2) as [[[u3|e3] c3]|]; exact I. }
  destruct (@live_replay_agree ascii_tables [retract_doc; alias_missing; retract_doc] 1 sample sample sample_wf sample_wf (reflexivity _) Hok)
    as (r & c' & d & Hr & _ & _ & _ & Hrep & _ & Hf).
  assert (Hn : applied_count r = 1).
  { assert (Hb : match @apply_in_order ascii_tables [retract_doc; alias_missing; retract_doc] sample with
      | Some (r, _) => applied_count r | None => 0 end = 1) by (vm_compute; reflexivity). by rewrite Hr in Hb. }
  rewrite Hn in Hrep. exists r, c', d. auto.
Defined.
