(* ===== verification/Entry.v ===== *)
(** * One context's entry: memory, image and log
    ([src/registry/engine.rs], [src/registry.rs], [src/registry/meta_io.rs], [src/storage.rs])

    The slot, the log's numbers and the files of one context, and every operation
    that moves between them: the load, the logged write with its three recoveries,
    the flush in its two locked halves, the eviction, the compaction, a restart.
    A disk call takes its outcome from an [Io] record; of the sidecar only the
    graph revision is kept.  Each definition is what runs under one hold of the
    entry's lock, so a sequence of them is an interleaving. *)

From S2P Require Export Changes Restore Stats.
From S2P Require Import Compact.

Local Open Scope N_scope.

(** ** State *)

Inductive Slot := Hot (context : Context) | Cold | Deleted.

Inductive load_error :=
  | TombstoneSeen
  | Quarantined (refusal : load_error)
  | HydrationFailed
  | SchemaRefused
  | ImageUnreadable
  | ImageCorrupt (e : CorruptImage)
  | ReplayRefused (e : guarded_error).

Inductive unpersisted := OverCap (bytes cap : N) | AppendFailed (e : wal_error).

Inductive AccessError :=
  | AccessNotFound
  | AccessLoad (e : load_error)
  | CompactionRefused (full : ContextFull)
  | Unpersisted (why : unpersisted)
  | AccessDeadline
  | QuotaExceeded (used ceiling : N).

(** [Entry] with its [EntryInner], and the three files of its family that are
    modelled: the sidecar's graph revision, the image, the log. *)
Record Entry := {
  slot : Slot; wal_seq : N; graph_revision : N; wal_bytes : N; load_failure : option load_error;
  image_generation : N; pinned : bool; meta_floor : option f64; dirty : bool; flushing : bool; changes : ChangeRing;
  sidecar : N; image : file; log : file
}.

Definition set_slot v (s : Entry) : Entry := {|
  slot := v; wal_seq := wal_seq s; graph_revision := graph_revision s; wal_bytes := wal_bytes s;
  load_failure := load_failure s; image_generation := image_generation s; pinned := pinned s; meta_floor := meta_floor s;
  dirty := dirty s; flushing := flushing s; changes := changes s; sidecar := sidecar s; image := image s; log := log s |}.
Definition set_log (seq n : N) (f : file) (s : Entry) : Entry := {|
  slot := slot s; wal_seq := seq; graph_revision := graph_revision s; wal_bytes := n;
  load_failure := load_failure s; image_generation := image_generation s; pinned := pinned s; meta_floor := meta_floor s;
  dirty := dirty s; flushing := flushing s; changes := changes s; sidecar := sidecar s; image := image s; log := f |}.
Definition set_flags (d f : bool) (s : Entry) : Entry := {|
  slot := slot s; wal_seq := wal_seq s; graph_revision := graph_revision s; wal_bytes := wal_bytes s;
  load_failure := load_failure s; image_generation := image_generation s; pinned := pinned s; meta_floor := meta_floor s;
  dirty := d; flushing := f; changes := changes s; sidecar := sidecar s; image := image s; log := log s |}.
Definition set_files (side : N) (img : file) (s : Entry) : Entry := {|
  slot := slot s; wal_seq := wal_seq s; graph_revision := graph_revision s; wal_bytes := wal_bytes s;
  load_failure := load_failure s; image_generation := image_generation s; pinned := pinned s; meta_floor := meta_floor s;
  dirty := dirty s; flushing := flushing s; changes := changes s; sidecar := side; image := img; log := log s |}.
Definition set_failure v (s : Entry) : Entry := {|
  slot := slot s; wal_seq := wal_seq s; graph_revision := graph_revision s; wal_bytes := wal_bytes s;
  load_failure := v; image_generation := image_generation s; pinned := pinned s; meta_floor := meta_floor s;
  dirty := dirty s; flushing := flushing s; changes := changes s; sidecar := sidecar s; image := image s; log := log s |}.
Definition set_revision (rev : N) (feed : ChangeRing) (s : Entry) : Entry := {|
  slot := slot s; wal_seq := wal_seq s; graph_revision := rev; wal_bytes := wal_bytes s;
  load_failure := load_failure s; image_generation := image_generation s; pinned := pinned s; meta_floor := meta_floor s;
  dirty := dirty s; flushing := flushing s; changes := feed; sidecar := sidecar s; image := image s; log := log s |}.
Definition bump_generation (s : Entry) : Entry := {|
  slot := slot s; wal_seq := wal_seq s; graph_revision := graph_revision s; wal_bytes := wal_bytes s;
  load_failure := load_failure s; image_generation := u64_add (image_generation s) 1; pinned := pinned s; meta_floor := meta_floor s;
  dirty := dirty s; flushing := flushing s; changes := changes s; sidecar := sidecar s; image := image s; log := log s |}.

(** The log's file alone. *)
Definition set_file (f : file) (s : Entry) : Entry := set_log (wal_seq s) (wal_bytes s) f s.

(** A handler answers, or unwinds. *)
Inductive outcome (A : Type) := Answered (a : A) | Panicked.
Arguments Answered {A} a.
Arguments Panicked {A}.

Section entry.
Context `{UnicodeTables} `{WalJson WalOp}.

(** ** Load *)

Record LoadIo := { l_quarantined : bool; l_hydrated : bool; l_schema : bool; l_read : bool; l_replay : ReplayIo; l_stat : bool }.

(** Hydration, schema, image and log: the log's top number and the context, or why
    not; and the log's file as the replay leaves it.  A panic is [from_bytes]'s. *)
Definition load_files (io : LoadIo) (s : Entry) : option (result (N * Context) load_error * file) :=
  if negb (l_hydrated io) then Some (Err HydrationFailed, log s)
  else if negb (l_schema io) then Some (Err SchemaRefused, log s)
  else
    match (if l_read io then image s else None) with
    | None => Some (Err ImageUnreadable, log s)
    | Some bytes =>
      r ← from_bytes bytes;
      Some (match r with
            | Err e => (Err (ImageCorrupt e), log s)
            | Ok c =>
              let '(r, f) := replay_wal_guarded (l_replay io) (log s) (applied_seq c) c in
              (match r with Err e => Err (ReplayRefused e) | Ok (top, (_, c)) => Ok (top, c) end, f)
            end)
    end.

Definition quarantined (io : LoadIo) (s : Entry) : option load_error :=
  refusal ← load_failure s; if l_quarantined io then Some refusal else None.

Definition ensure_hot (io : LoadIo) (s : Entry) : option (result unit load_error * Entry) :=
  match slot s with
  | Hot _ => Some (Ok tt, s)
  | Deleted => Some (Err TombstoneSeen, s)
  | Cold =>
    match quarantined io s with
    | Some refusal => Some (Err (Quarantined refusal), s)
    | None =>
      '(r, f) ← load_files io s;
      Some (match r with
            | Err e => (Err e, set_failure (Some e) (set_file f s))
            | Ok (top, c) =>
              let stat := if l_stat io then match f with Some bs => lenN bs | None => 0 end else 0 in
              (Ok tt, set_slot (Hot (set_dice_floor (meta_floor s) c)) (set_failure None
                (set_revision (N.max (graph_revision s) top) (changes s) (set_log (u64_add top 1) stat f s))))
            end)
    end
  end.

(** ** The logged write *)

(** [storage_quota_excess]: [disk] is the flush-refreshed lanes and the passage log. *)
Definition storage_quota_excess (ceiling : option N) (disk : N) (s : Entry) : option (N * N) :=
  ceiling ← ceiling;
  let used := disk + wal_bytes s in
  if ceiling <=? used then Some (used, ceiling) else None.

Record WalConfig := { wal_enabled : bool; wal_max_bytes : N; quota : option N }.

Record WriteIo := { w_load : LoadIo; w_disk : N; w_append : AppendIo; w_retry : TruncateIo; w_trim : TruncateIo; w_reappend : AppendIo }.

(** The append that failed is rolled back once more; [true] is [wal_behind]. *)
Definition retry_rollback (io : TruncateIo) (len_before : N) (f : file) (s : Entry) : bool * Entry :=
  match truncate_to io len_before f with
  | (Ok _, f) | (Err NotFound, f) => (false, set_file f s)
  | (Err _, f) => (true, set_flags true (flushing s) (set_file f s))
  end.

(** The untried tail of a partial batch is cut off the log and the applied prefix
    appended again. *)
Definition trim_log (io : WriteIo) (first_seq len_before : N) (landed : list WalOp) (s : Entry) : bool * Entry :=
  match truncate_to (w_trim io) len_before (log s) with
  | (Ok _, f) =>
    match append_batch (w_reappend io) first_seq landed f with
    | (Ok appended, f) => (false, set_log (u64_add first_seq (lenN landed)) (len_before + appended) f s)
    | (Err _, f) => (true, set_log first_seq len_before f s)
    end
  | (Err _, f) => (true, set_file f s)
  end.

(** [operate] on the hot context, and what follows a return of it. *)
Definition apply_staged {T} (io : WriteIo) (ops : list WalOp) (operate : Context -> option (T * Context)) (applied : T -> N)
    (staged : option (N * N)) (c : Context) (s : Entry) : outcome (result T AccessError) * bool * Entry :=
  match operate c with
  | None => (Panicked, false, set_slot Cold s)
  | Some (result, c) =>
    let landed := N.min (applied result) (lenN ops) in
    let s := set_flags true (flushing s) (set_slot (Hot c) s) in
    let s := set_revision (u64_add (graph_revision s) landed)
               (ring_extend (events_of_ops (take (N.to_nat landed) ops)) (changes s)) s in
    let '(behind, s) :=
      match staged with
      | Some (first_seq, len_before) =>
        if landed <? lenN ops then trim_log io first_seq len_before (take (N.to_nat landed) ops) s else (false, s)
      | None => (false, s)
      end in
    (Answered (Ok result), behind, s)
  end.

(** Until the lock is released; [wal_behind] asks for [flush_entry] next. *)
Definition logged_write {T} (config : WalConfig) (io : WriteIo) (ops : list WalOp)
    (operate : Context -> option (T * Context)) (applied : T -> N) (s : Entry) : outcome (result T AccessError) * bool * Entry :=
  let refuse (e : AccessError) (s : Entry) := (Answered (Err e), false, s) in
  match slot s with
  | Deleted => refuse AccessNotFound s
  | _ =>
    match ensure_hot (w_load io) s with
    | None => (Panicked, false, s)
    | Some (Err e, s) => refuse (AccessLoad e) s
    | Some (Ok _, s) =>
      match slot s with
      | Hot c =>
        match (if existsb WalReplay.grows ops then storage_quota_excess (quota config) (w_disk io) s else None) with
        | Some (used, ceiling) => refuse (QuotaExceeded used ceiling) s
        | None =>
          if negb (wal_enabled config) then apply_staged io ops operate applied None c s
          else if (0 <? wal_max_bytes config) && (wal_max_bytes config <=? wal_bytes s) then
            refuse (Unpersisted (OverCap (wal_bytes s) (wal_max_bytes config))) s
          else
            let first_seq := wal_seq s in
            let len_before := wal_bytes s in
            match append_batch (w_append io) first_seq ops (log s) with
            | (Ok appended, f) =>
              apply_staged io ops operate applied (Some (first_seq, len_before)) c
                (set_log (u64_add first_seq (lenN ops)) (len_before + appended) f s)
            | (Err e, f) =>
              let '(behind, s) := retry_rollback (w_retry io) len_before f s in
              (Answered (Err (Unpersisted (AppendFailed e))), behind, s)
            end
        end
      | _ => (Panicked, false, s)
      end
    end
  end.

(** ** Flush *)

(** What a flusher carries from its staging to its publication. *)
Record Staged := { st_bytes : bytes; st_watermark : N; st_generation : N; st_graph : N }.

(** Under the lock: claim, watermark, serialise. *)
Definition flush_claim (s : Entry) : option Staged * Entry :=
  if negb (dirty s) then (None, s)
  else if flushing s then (None, s)
  else
    let watermark := wal_seq s - 1 in
    match slot s with
    | Hot c =>
      let c := set_applied_seq watermark c in
      (Some {| st_bytes := to_bytes c; st_watermark := watermark; st_generation := image_generation s; st_graph := graph_revision s |},
       set_slot (Hot c) (set_flags false true s))
    | _ => (None, set_flags false false s)
    end.

(** The staging write failed. *)
Definition flush_unstaged (s : Entry) : Entry := set_flags true false s.

Definition truncate_wal (allows : bool) (io : TruncateIo) (s : Entry) : Entry :=
  if negb allows then s
  else
    match reset io (log s) with
    | (Ok _, f) => set_log (wal_seq s) 0 f s
    | (Err _, f) => set_file f s
    end.

Record PublishIo := { p_meta : AtomicIo; p_commit : CommitIo; p_allows : bool; p_reset : TruncateIo }.

(** Back under the lock. *)
Definition flush_publish (io : PublishIo) (staged : Staged) (s : Entry) : bool * Entry :=
  match slot s with
  | Hot _ =>
    if negb (image_generation s =? st_generation staged) then (false, set_flags (dirty s) false s)
    else
      let '(meta_ok, side) := write_atomic (p_meta io) (st_graph staged) (sidecar s) in
      let '(ok, img) := if negb meta_ok then (false, image s) else commit_staged (p_commit io) (Some (st_bytes staged)) (image s) in
      let s := set_files side img s in
      if ok then
        let s := if wal_seq s - 1 =? st_watermark staged then truncate_wal (p_allows io) (p_reset io) s else s in
        (true, set_flags (dirty s) false s)
      else (false, set_flags true false s)
  | _ => (false, set_flags (dirty s) false s)
  end.

(** [flush_entry] with nothing between its two holds of the lock; [staged_ok] is
    the staging write. *)
Definition flush_entry (staged_ok : bool) (io : PublishIo) (s : Entry) : bool * Entry :=
  match flush_claim s with
  | (None, s) => (false, s)
  | (Some staged, s) => if negb staged_ok then (false, flush_unstaged s) else flush_publish io staged s
  end.

(** ** Saving, and creation *)

Record SaveIo := { s_meta : AtomicIo; s_image : AtomicIo }.

(** [save_files]: the sidecar, then the image. *)
Definition save_files (io : SaveIo) (c : Context) (s : Entry) : bool * Entry :=
  let '(meta_ok, side) := write_atomic (s_meta io) (graph_revision s) (sidecar s) in
  if negb meta_ok then (false, set_files side (image s) s)
  else
    let '(ok, img) := write_atomic (s_image io) (Some (to_bytes c)) (image s) in
    (ok, set_files side img s).

(** [create_files], then the registration of [create_registered]. *)
Definition create_registered (io : SaveIo) (pin : bool) (dice : option f64) (new_epoch : N) : option Entry :=
  let c := set_dice_floor dice Context_default in
  let '(ok, s) := save_files io c {|
    slot := Hot c; wal_seq := 1; graph_revision := 0; wal_bytes := 0; load_failure := None; image_generation := 0;
    pinned := pin; meta_floor := dice; dirty := false; flushing := false; changes := ring_new new_epoch;
    sidecar := 0; image := None; log := None |} in
  if ok then Some s else None.

(** ** Eviction *)

(** [evict_entry] from its write lock on, the graph's part. *)
Definition evict_locked (io : SaveIo) (allows : bool) (reset_io : TruncateIo) (s : Entry) : bool * Entry :=
  if pinned s then (false, s)
  else
    match slot s with
    | Hot c =>
      if dirty s || flushing s then
        let c := set_applied_seq (wal_seq s - 1) c in
        let '(ok, s) := save_files io c (set_slot (Hot c) s) in
        if negb ok then (false, s)
        else
          let s := truncate_wal allows reset_io (set_flags false (flushing s) s) in
          (true, bump_generation (set_slot Cold s))
      else (true, bump_generation (set_slot Cold s))
    | _ => (false, s)
    end.

(** ** Compaction *)

(** [compact_context] under the lock: the statistics, or the refusal. *)
Definition compact_locked (load : LoadIo) (expired : N -> bool) (s : Entry) : outcome (result CompactionStats AccessError) * Entry :=
  match slot s with
  | Deleted => (Answered (Err AccessNotFound), s)
  | _ =>
    match ensure_hot load s with
    | None => (Panicked, s)
    | Some (Err e, s) => (Answered (Err (AccessLoad e)), s)
    | Some (Ok _, s) =>
      match slot s with
      | Hot c =>
        match compacted expired c with
        | None => (Panicked, s)
        | Some (Err (CompactionFull full)) => (Answered (Err (CompactionRefused full)), s)
        | Some (Err DeadlineExceeded) => (Answered (Err AccessDeadline), s)
        | Some (Ok (fresh, stats)) =>
          let fresh := set_dice_floor (meta_floor s) (set_applied_seq (applied_seq c) fresh) in
          (Answered (Ok stats), set_flags true (flushing s) (bump_generation (set_slot (Hot fresh) s)))
        end
      | _ => (Panicked, s)
      end
    end
  end.

(** ** Restart *)

(** What a new process registers from the files, [cold_from_meta]: everything in
    memory is gone. *)
Definition reboot (new_epoch : N) (s : Entry) : Entry := {|
  slot := Cold; wal_seq := 1; graph_revision := sidecar s; wal_bytes := match log s with Some bs => lenN bs | None => 0 end;
  load_failure := None; image_generation := 0; pinned := pinned s; meta_floor := meta_floor s; dirty := false; flushing := false;
  changes := ring_new new_epoch; sidecar := sidecar s; image := image s; log := log s |}.
End entry.
