(* ===== verification/EntryWrite.v ===== *)
(** * An entry never loses an acknowledged write

    What the image and the log of an entry cover, and that every operation of
    [Entry] keeps it: a load finds a context that agrees with every write that was
    acknowledged. *)

From S2P Require Export DurableThm Entry.
From S2P Require Import WalClaims.

Local Open Scope N_scope.

Section replays.
Context `{UnicodeTables}.

(** ** Reloading an image *)

Lemma restored_agrees c : wf c -> index_room c ->
  exists c', from_bytes (to_bytes c) = Some (Ok c') /\ wf c' /\ agree c c' /\ applied_seq c' = applied_seq c.
Proof using.
  intros W Hroom. destruct (rebuild_complete c W Hroom) as [c' Hc]. exists c'.
  unfold from_bytes. rewrite (parse_to_bytes c W). cbn [abind]. split; [exact Hc|].
  destruct (parse_yields _ _ (parse_to_bytes c W)) as (Hfit & Hu0 & _). destruct (rebuild_sound _ _ Hu0 Hfit Hc) as [W' Hu].
  split; [exact W'|]. destruct (indexes_determined c c' W W' (eq_sym Hu)) as (? & ? & ? & ? & ? & ? & ? & ? & ? & ? & _).
  split; [|change (applied_seq c) with (applied_seq (unindexed c)); by rewrite <- Hu].
  assert (Hf : forall {A} (f : Context -> A), (forall d, f (unindexed d) = f d) -> f c = f c').
  { intros A f Hf. rewrite <- (Hf c), <- (Hf c'). by rewrite Hu. }
  split; try done; by apply Hf.
Qed.

(** ** Settings an operation does not read *)

Lemma wf_set_applied_seq n c : wf c -> n <= U64_MAX -> wf (set_applied_seq n c).
Proof using.
  intros W Hn. split; [exact (wf_concepts c W) | exact (wf_labels c W) | exact (wf_sources c W) | exact (wf_triples c W) | exact (wf_outgoing c W) | exact (wf_incoming c W) | exact (wf_labeled c W) | exact (wf_attributions c W) | exact (wf_rows c W) | exact (wf_reverse c W) | exact (wf_totals c W) | exact (wf_dead c W) | exact (wf_locators c W) | exact (wf_locator_rows c W) | split; [exact (sz_arena c (wf_sizes c W)) | exact (sz_concepts c (wf_sizes c W)) | exact (sz_labels c (wf_sizes c W)) | exact (sz_sources c (wf_sizes c W)) | exact (sz_edges c (wf_sizes c W)) | exact (sz_attributions c (wf_sizes c W)) | exact (sz_concept_aliases c (wf_sizes c W)) | exact (sz_label_aliases c (wf_sizes c W))] | exact Hn].
Qed.

Lemma wf_set_dice_floor f c : wf c -> wf (set_dice_floor f c).
Proof using.
  intros W. split; [exact (wf_concepts c W) | exact (wf_labels c W) | exact (wf_sources c W) | exact (wf_triples c W) | exact (wf_outgoing c W) | exact (wf_incoming c W) | exact (wf_labeled c W) | exact (wf_attributions c W) | exact (wf_rows c W) | exact (wf_reverse c W) | exact (wf_totals c W) | exact (wf_dead c W) | exact (wf_locators c W) | exact (wf_locator_rows c W) | split; [exact (sz_arena c (wf_sizes c W)) | exact (sz_concepts c (wf_sizes c W)) | exact (sz_labels c (wf_sizes c W)) | exact (sz_sources c (wf_sizes c W)) | exact (sz_edges c (wf_sizes c W)) | exact (sz_attributions c (wf_sizes c W)) | exact (sz_concept_aliases c (wf_sizes c W)) | exact (sz_label_aliases c (wf_sizes c W))] | exact (Wf.wf_applied_seq c W)].
Qed.

Lemma agree_applied_seq n c : agree c (set_applied_seq n c).
Proof using. split; reflexivity. Qed.

Lemma agree_dice_floor f c : agree c (set_dice_floor f c).
Proof using. split; reflexivity. Qed.

(** ** What replay does *)

(** Each operation in turn; a refused one changes nothing and the next follows. *)
Inductive replays : list WalOp -> Context -> Context -> Prop :=
  | replays_nil c : replays [] c c
  | replays_cons op ops r c c1 c2 :
      op_ok op c -> apply_op op c = Some (r, c1) -> replays ops c1 c2 -> replays (op :: ops) c c2.

Lemma apply_op_wf op c r c' : wf c -> op_ok op c -> apply_op op c = Some (r, c') -> wf c'.
Proof using. intros W Hok Hr. destruct (apply_op_returns op c W Hok) as (r' & c1 & E & W' & _). by simplify_eq. Qed.

Lemma apply_op_refused op c e c' : wf c -> op_ok op c -> apply_op op c = Some (Err e, c') -> agree c c'.
Proof using. intros W Hok Hr. destruct (apply_op_returns op c W Hok) as (r' & c1 & E & _ & Ha). simplify_eq. by apply (Ha e). Qed.

Lemma replays_wf ops c d : replays ops c d -> wf c -> wf d.
Proof using. induction 1 as [|op ops r c c1 c2 Hok Hr _ IH]; [done|]. intros W. by apply IH, (apply_op_wf op c r). Qed.

Lemma replays_app ops ops' c d e : replays ops c d -> replays ops' d e -> replays (ops ++ ops') c e.
Proof using. induction 1; [done|]. intros. cbn [app]. econstructor; eauto. Qed.

Lemma replays_take n ops c d : replays ops c d -> exists d', replays (take n ops) c d'.
Proof using.
  intros Hr. revert n. induction Hr as [c|op ops r c c1 c2 Hok Hr _ IH]; intros [|n]; cbn [take]; try (eexists; constructor).
  destruct (IH n) as [d' Hd]. exists d'. econstructor; eauto.
Qed.

(** Agreeing contexts replay alike. *)
Lemma replays_agree ops c d : replays ops c d -> forall c', wf c -> wf c' -> agree c c' ->
  exists d', replays ops c' d' /\ agree d d'.
Proof using.
  induction 1 as [c|op ops r c c1 c2 Hok Hr Hrest IH]; intros c' W W' Hag; [exists c'; by split; [constructor|]|].
  pose proof (op_ok_agree op c c' Hag Hok) as Hok'. destruct (apply_op_returns op c' W' Hok') as (r' & c1' & Hr' & W1' & _).
  destruct (both_returns _ _ _ _ _ (apply_op_same op c c' W W' Hag) Hr Hr') as [_ Hag1]. cbn [snd] in Hag1.
  destruct (IH c1' (apply_op_wf op c r c1 W Hok Hr) W1' Hag1) as (d' & Hd & Hag2).
  exists d'. split; [econstructor; eauto | done].
Qed.

Lemma replay_ops_replays ops c d : replays ops c d -> forall i n losses,
  exists losses', replay_ops ops i n losses c = Ok (losses', d).
Proof using.
  induction 1 as [c|op ops r c c1 c2 Hok Hr Hrest IH]; intros i n losses; cbn [replay_ops]; [by exists losses|].
  unfold replay_op. rewrite Hr. cbn [mbind option_bind]. apply IH.
Qed.
End replays.

(** ** The files of an entry *)

Section log.
Context `{UnicodeTables} `{WalJsonLaws WalOp}.

(** Loading the image and replaying the log finds [a]; [next] is the number after
    the last one used. *)
Definition covers (L : file -> N -> list WalOp -> Prop) (img f : file) (next : N) (a : Context) : Prop :=
  exists c0 first ops c1,
    (img = Some (to_bytes c0) /\ wf c0 /\ index_room c0) /\
    (L f first ops /\ exact ops /\ first <= applied_seq c0 + 1 <= first + lenN ops) /\
    (first + lenN ops = next /\ next <= U64_MAX) /\
    replays (drop (N.to_nat (applied_seq c0 + 1 - first)) ops) c0 c1 /\ agree c1 a.

Lemma covers_agree L img f next a a' : covers L img f next a -> agree a a' -> covers L img f next a'.
Proof using.
  intros (c0 & first & ops & c1 & ? & ? & ? & ? & Hag) Ha. exists c0, first, ops, c1. repeat (split; [done|]). by transitivity a.
Qed.

Lemma covers_torn img f next a : covers logs img f next a -> covers logs_torn img f next a.
Proof using.
  intros (c0 & first & ops & c1 & ? & (? & ? & ?) & ? & ? & ?). exists c0, first, ops, c1.
  split; [done|]. split; [split; [by left | done]|]. done.
Qed.

End log.

(** * Loads, writes and flushes keep what the files cover

    Per operation of [Entry]: from files that cover the context in memory to files
    that cover it again. *)

From S2P Require Import WalClaims.

Local Open Scope N_scope.

(** The log's recorded length is its length. *)
Definition counted (s : Entry) : Prop := wal_bytes s = file_len (log s).

Section write.
Context `{UnicodeTables} `{WalJsonLaws WalOp}.

(** ** Load *)

Lemma load_files_keeps io s r f next a : covers logs_torn (image s) (log s) next a -> load_files io s = Some (r, f) ->
  match r with
  | Ok (top, c) => wf c /\ agree c a /\ covers logs (image s) f next a /\ top + 1 = next
  | Err _ => covers logs_torn (image s) f next a
  end.
Proof using All.
  intros Hcov. pose proof Hcov as (c0 & first & ops & c1 & (Hi & W & Hroom) & (Hl & He & Hw) & (Hn & Hmax) & Hrep & Hag).
  unfold load_files. destruct (negb _); [by intros [= <- <-]|]. destruct (negb _); [by intros [= <- <-]|].
  destruct (l_read io); [|by intros [= <- <-]]. rewrite Hi at 1.
  destruct (restored_agrees c0 W Hroom) as (c0' & -> & W' & Hag0 & Hseq). cbn [mbind option_bind]. rewrite Hseq.
  unfold replay_wal_guarded. pose proof (replay_keeps_logs (l_replay io) (applied_seq c0) _ _ _ Hl ltac:(lia)) as Hk.
  destruct (replay (l_replay io) (applied_seq c0) (log s)) as [[r'|e] f'].
  - destruct Hk as [Hf ->]. rewrite replayed_drop by (done || lia).
    destruct (replays_agree _ _ _ Hrep c0' W W' Hag0) as (d & Hd & Hagd).
    destruct (replay_ops_replays _ _ _ Hd 0 (lenN (drop (N.to_nat (applied_seq c0 + 1 - first)) ops)) 0) as [losses ->].
    intros [= <- <-]. split; [by eapply replays_wf|]. split; [by rewrite <- Hagd|].
    split; [by exists c0, first, ops, c1|]. rewrite top_of_next by done. done.
  - intros [= <- <-]. by exists c0, first, ops, c1.
Qed.

Lemma ensure_hot_keeps io s r s' next a : slot s = Cold -> covers logs_torn (image s) (log s) next a -> l_stat io = true ->
  ensure_hot io s = Some (r, s') ->
  image s' = image s /\ image_generation s' = image_generation s /\ flushing s' = flushing s /\
  match r with
  | Ok _ => exists c, slot s' = Hot c /\ wf c /\ agree c a /\ covers logs (image s') (log s') (wal_seq s') a /\ counted s'
  | Err _ => slot s' = Cold /\ covers logs_torn (image s') (log s') next a
  end.
Proof using All.
  intros Hcold Hcov Hstat. unfold ensure_hot. rewrite Hcold. destruct (quarantined io s); [by intros [= <- <-]|].
  destruct (load_files io s) as [[r' f]|] eqn:Hload; [|done]. cbn [mbind option_bind]. intros [= Hr].
  pose proof (load_files_keeps _ _ _ _ _ _ Hcov Hload) as Hk. destruct r' as [[top c]|e]; injection Hr as <- <-; [|by cbn].
  destruct Hk as (Wc & Hagc & Hcov' & Htop). rewrite Hstat. do 3 (split; [done|]).
  exists (set_dice_floor (meta_floor s) c). split; [done|]. split; [by apply wf_set_dice_floor|].
  split; [by rewrite <- (agree_dice_floor (meta_floor s) c)|]. split; [|done]. cbn.
  replace (u64_add top 1) with next; [done|]. destruct Hcov' as (? & ? & ? & ? & _ & _ & [_ Hmax] & _).
  unfold u64_add. rewrite N.mod_small; lia.
Qed.

(** A load whose disk works succeeds. *)
Lemma ensure_hot_succeeds io s next a : slot s = Cold -> covers logs_torn (image s) (log s) next a ->
  quarantined io s = None -> l_hydrated io = true -> l_schema io = true -> l_read io = true -> io_fine (l_replay io) ->
  exists s', ensure_hot io s = Some (Ok tt, s').
Proof using All.
  intros Hcold Hcov Hq Hh Hsch Hread Hio. unfold ensure_hot, load_files. rewrite Hcold, Hq, Hh, Hsch, Hread. cbn [negb].
  pose proof Hcov as (c0 & first & ops & c1 & (-> & W & Hroom) & (Hl & He & Hw) & (Hn & Hmax) & Hrep & Hag).
  destruct (restored_agrees c0 W Hroom) as (c0' & -> & W' & Hag0 & Hseq). cbn [mbind option_bind]. rewrite Hseq.
  unfold replay_wal_guarded. destruct (replays_agree _ _ _ Hrep c0' W W' Hag0) as (d & Hd & Hagd).
  assert (Hr : exists f, replay (l_replay io) (applied_seq c0) (log s) = (Ok (replayed (applied_seq c0) first ops, top_of (applied_seq c0) first (lenN ops)), f)).
  { destruct (log s) as [bs|] eqn:Hlog.
    - destruct (logs_torn_parse _ _ _ bs (applied_seq c0) Hl eq_refl ltac:(lia)) as (torn & rs & _ & Hp & _).
      eexists. eapply replay_parse; [done | exact Hp].
    - pose proof (replay_keeps_logs (l_replay io) (applied_seq c0) _ _ _ Hl ltac:(lia)) as Hk. cbn [replay] in *.
      destruct Hk as [_ ->]. by eexists. }
  destruct Hr as [f ->]. rewrite replayed_drop by (done || lia).
  destruct (replay_ops_replays _ _ _ Hd 0 (lenN (drop (N.to_nat (applied_seq c0 + 1 - first)) ops)) 0) as [losses ->].
  by eexists.
Qed.

(** ** The logged write *)

(** [operate] returns, and does to the context what the first operations of the
    batch, as many as it reports, do one by one. *)
Definition acts {T} (ops : list WalOp) (operate : Context -> option (T * Context)) (applied : T -> N) (c : Context) : Prop :=
  exists t c' d, operate c = Some (t, c') /\ wf c' /\
    replays (take (N.to_nat (N.min (applied t) (lenN ops))) ops) c d /\ agree d c'.

(** More records for more operations. *)
Lemma covers_extend img f f' next ops a d : covers logs img f next a -> wf a -> replays ops a d -> exact ops ->
  next + lenN ops <= U64_MAX ->
  (forall first ops0, logs f first ops0 -> first + lenN ops0 = next -> logs f' first (ops0 ++ ops)) ->
  covers logs img f' (next + lenN ops) d.
Proof using All.
  intros (c0 & first & ops0 & c1 & (Hi & W & Hroom) & (Hl & He & Hw) & (Hn & Hmax) & Hrep & Hag) Wa Hops Hex Hle Hlog.
  assert (W1 : wf c1) by by eapply replays_wf. destruct (replays_agree _ _ _ Hops c1 Wa W1 (symmetry Hag)) as (d1 & Hd1 & Hagd).
  exists c0, first, (ops0 ++ ops), d1. rewrite lenN_app. split; [done|].
  split; [split; [by apply Hlog | split; [by apply Forall_app | lia]]|]. split; [lia|].
  rewrite drop_app_le by (unfold lenN in *; lia). split; [by eapply replays_app | by symmetry].
Qed.

(** Other records of the same operations. *)
Lemma covers_same img f f' next a : covers logs img f next a ->
  (forall first ops0, logs f first ops0 -> first + lenN ops0 = next -> logs f' first ops0) -> covers logs img f' next a.
Proof using.
  intros (c0 & first & ops0 & c1 & ? & (Hl & ? & ?) & (? & ?) & ? & ?) Hlog. exists c0, first, ops0, c1.
  split; [done|]. split; [split; [by apply Hlog | done]|]. by split.
Qed.

Lemma covers_logs L img f next a : covers L img f next a -> exists first ops0, L f first ops0 /\ first + lenN ops0 = next /\
  exact ops0 /\ 1 <= next <= U64_MAX.
Proof using. intros (c0 & first & ops0 & c1 & _ & (? & ? & ?) & (? & ?) & _). exists first, ops0. repeat (split; [done|]). lia. Qed.

(** The operations an answer acknowledges. *)
Definition applied_ops {T} (applied : T -> N) (ops : list WalOp) (r : result T AccessError) : list WalOp :=
  match r with Ok t => take (N.to_nat (N.min (applied t) (lenN ops))) ops | Err _ => [] end.

(** What a write that left the log in step leaves. *)
Definition in_step (s s' : Entry) : Prop :=
  image s' = image s /\ image_generation s' = image_generation s /\ flushing s' = flushing s /\
  (dirty s = true -> dirty s' = true) /\ counted s'.

(** The context in memory is what the operation made of it, and whatever image and
    log covered, they cover with the acknowledged operations replayed on it. *)
Definition kept {T} (operate : Context -> option (T * Context)) (applied : T -> N) (ops : list WalOp) (c : Context)
    (s s' : Entry) (r : result T AccessError) : Prop :=
  in_step s s' /\
  match r with Err _ => slot s' = Hot c | Ok t => exists c', operate c = Some (t, c') /\ slot s' = Hot c' /\ wf c' end /\
  forall img b d, wf b -> covers logs img (log s) (wal_seq s) b -> replays (applied_ops applied ops r) b d ->
    covers logs img (log s') (wal_seq s') d.

(** The append landed. *)
Lemma staged_keeps {T} io ops (operate : Context -> option (T * Context)) applied s c a n f r s' :
  wf c -> covers logs (image s) (log s) (wal_seq s) a -> wal_seq s + lenN ops <= U64_MAX -> exact ops ->
  acts ops operate applied c -> append_batch (w_append io) (wal_seq s) ops (log s) = (Ok n, f) ->
  apply_staged io ops operate applied (Some (wal_seq s, file_len (log s))) c
    (set_log (u64_add (wal_seq s) (lenN ops)) (file_len (log s) + n) f s) = (Answered r, false, s') ->
  kept operate applied ops c s s' r.
Proof using All.
  intros W Hcov Hle Hex (t & c' & d & Hop & W' & _) Happ. unfold apply_staged. rewrite Hop.
  destruct (covers_logs _ _ _ _ _ Hcov) as (first0 & ops0 & Hl0 & Hn0 & _). set (k := N.min (applied t) (lenN ops)) in *. cbv zeta.
  destruct (N.ltb_spec k (lenN ops)) as [Hlt|Hge].
  - unfold trim_log. cbn [log set_revision set_flags set_slot set_log].
    destruct (truncate_to (w_trim io) (file_len (log s)) f) as [[[]|e] f2] eqn:Htr; [|done].
    destruct (append_batch (w_reappend io) (wal_seq s) (take (N.to_nat k) ops) f2) as [[n2|e] f3] eqn:Happ2; [|done].
    assert (Hlk : lenN (take (N.to_nat k) ops) = k) by (unfold lenN in *; rewrite length_take; lia). intros [= <- <-].
    assert (Hlogs : forall first ops1, logs (log s) first ops1 -> first + lenN ops1 = wal_seq s ->
      logs f3 first (ops1 ++ take (N.to_nat k) ops) /\ file_len f3 = file_len (log s) + n2).
    { intros first ops1 Hl Hn. destruct (append_logs _ _ _ _ _ _ _ _ Happ Hl Hn ltac:(lia)) as (_ & _ & Ht).
      destruct (Ht _ _ Htr) as [Hl2 Hlen2]. destruct (append_logs _ _ _ _ _ _ _ _ Happ2 Hl2 Hn ltac:(lia)) as (Hl3 & Hlen3 & _).
      split; [done | by rewrite Hlen3, Hlen2]. }
    split; [split; [done|]; split; [done|]; split; [done|]; split; [done|]; unfold counted; cbn; symmetry; by eapply Hlogs|].
    split; [by exists c'|]. cbn [applied_ops]. fold k. intros img b e Wb Hc He. cbn.
    rewrite Hlk. unfold u64_add. rewrite N.mod_small by lia. rewrite <- Hlk.
    eapply (covers_extend _ _ _ _ (take (N.to_nat k) ops)); [exact Hc | done | done | by apply Forall_take | lia |].
    intros first ops1 Hl Hn. by apply Hlogs.
  - intros [= <- <-].
    assert (Hk : take (N.to_nat k) ops = ops) by (apply take_ge; unfold lenN in *; lia). rewrite Hk in *.
    destruct (append_logs _ _ _ _ _ _ _ _ Happ Hl0 Hn0 ltac:(lia)) as (_ & Hlen & _).
    split; [split; [done|]; split; [done|]; split; [done|]; split; [done|]; unfold counted; cbn; lia|].
    split; [by exists c'|]. cbn [applied_ops]. fold k. rewrite Hk. intros img b e Wb Hc He. cbn.
    unfold u64_add. rewrite N.mod_small by lia.
    eapply (covers_extend _ _ _ _ ops); [exact Hc | done | done | done | done |].
    intros first ops1 Hl Hn. by destruct (append_logs _ _ _ _ _ _ _ _ Happ Hl Hn ltac:(lia)).
Qed.

(** It did not, and was rolled back. *)
Lemma rollback_keeps {T} (operate : Context -> option (T * Context)) applied io io' ops s c a e e' f s' : slot s = Hot c ->
  covers logs (image s) (log s) (wal_seq s) a -> wal_seq s + lenN ops <= U64_MAX ->
  append_batch io (wal_seq s) ops (log s) = (Err e, f) -> counted s ->
  retry_rollback io' (file_len (log s)) f s = (false, s') -> kept operate applied ops c s s' (Err e').
Proof using All.
  intros Hs Hcov Hle Happ Hcount. unfold retry_rollback, counted in *.
  destruct (covers_logs _ _ _ _ _ Hcov) as (first0 & ops0 & Hl0 & Hn0 & _).
  destruct (truncate_to io' (file_len (log s)) f) as [r f2] eqn:Htr. intros Hret.
  assert (Hr : (r = Ok tt \/ r = Err NotFound) /\ s' = set_file f2 s).
  { destruct r as [[]|[]]; try done; injection Hret as <-; auto. }
  destruct Hr as [Hr ->]. destruct (append_failed_logs _ _ _ _ _ _ _ _ _ _ _ Happ Htr Hr Hl0 Hn0 ltac:(lia)) as [_ Hlen].
  split; [split; [done|]; split; [done|]; split; [done|]; split; [done|]; unfold counted; cbn; lia|]. split; [done|].
  intros img b d _ Hc Hd. inversion Hd; subst d. apply (covers_same _ (log s)); [done|]. intros first ops1 Hl Hn.
  by destruct (append_failed_logs _ _ _ _ _ _ _ _ _ _ _ Happ Htr Hr Hl Hn ltac:(lia)).
Qed.

Lemma write_keeps {T} config io ops (operate : Context -> option (T * Context)) applied s c a r s' :
  slot s = Hot c -> wf c -> wal_enabled config = true -> counted s -> covers logs (image s) (log s) (wal_seq s) a ->
  wal_seq s + lenN ops <= U64_MAX -> exact ops -> acts ops operate applied c ->
  logged_write config io ops operate applied s = (Answered r, false, s') -> kept operate applied ops c s s' r.
Proof using All.
  intros Hs W Hen Hcount Hcov Hle Hex Hacts.
  unfold logged_write, ensure_hot. rewrite Hs. cbv zeta. rewrite Hs.
  assert (Href : forall e, (Answered (Err e) : outcome (result T AccessError), false, s) = (Answered r, false, s') ->
    kept operate applied ops c s s' r).
  { intros e [= <- <-]. split; [done|]. split; [done|]. intros img b d _ Hc Hd. by inversion Hd; subst d. }
  destruct (if existsb WalReplay.grows ops then _ else _) as [[used ceiling]|]; [apply Href|]. rewrite Hen. cbn [negb].
  destruct (_ && _); [apply Href|]. clear Href. rewrite Hcount.
  destruct (append_batch (w_append io) (wal_seq s) ops (log s)) as [[n|e] f] eqn:Happ.
  - by eapply staged_keeps.
  - destruct (retry_rollback (w_retry io) (file_len (log s)) f s) as [b s1] eqn:Hret. intros [= <- -> <-].
    by eapply rollback_keeps.
Qed.
End write.
