(* ===== verification/EntryFlush.v ===== *)
(** * Flushes, evictions and restarts keep what the files cover *)

From S2P Require Export EntryWrite.
From S2P Require Import WalClaims.

Local Open Scope N_scope.

Section flush.
Context `{UnicodeTables} `{WalJsonLaws WalOp}.

(** ** Snapshots *)

(** The image of the context in memory covers it, with any log that ends there. *)
Lemma covers_snapshot c f next first ops : wf c -> index_room c -> logs f first ops -> exact ops -> first + lenN ops = next ->
  1 <= next <= U64_MAX -> covers logs (Some (to_bytes (set_applied_seq (next - 1) c))) f next c.
Proof using.
  intros W Hroom Hl Hex Hn Hle. exists (set_applied_seq (next - 1) c), first, ops, (set_applied_seq (next - 1) c).
  split; [split; [done | split; [apply wf_set_applied_seq; [done | lia] | exact Hroom]]|].
  cbn [applied_seq set_applied_seq]. split; [split; [done | split; [done | lia]]|]. split; [lia|].
  rewrite drop_ge by (unfold lenN in *; lia). split; [constructor | symmetry; apply agree_applied_seq].
Qed.

(** An image that covers everything logged needs no log. *)
Lemma covers_truncated cs f f' next a : covers logs (Some (to_bytes cs)) f next a -> wf cs -> applied_seq cs = next - 1 ->
  emptied f' -> covers logs (Some (to_bytes cs)) f' next a.
Proof using.
  intros (c0 & first & ops & c1 & (Hi & W & Hroom) & (Hl & Hex & Hw) & (Hn & Hmax) & Hrep & Hag) Wcs Hseq Hf.
  assert (Hu : unindexed cs = unindexed c0).
  { assert (Hb : to_bytes cs = to_bytes c0) by congruence.
    assert (Hp : Ok (unindexed cs) = Ok (E := CorruptImage) (unindexed c0)) by (by rewrite <- !parse_to_bytes, Hb).
    congruence. }
  assert (Hs : applied_seq c0 = next - 1) by (rewrite <- Hseq; change (applied_seq (unindexed c0) = applied_seq (unindexed cs)); by rewrite Hu).
  rewrite Hs, drop_ge in Hrep by (unfold lenN in *; lia). inversion Hrep; subst.
  exists c1, (first + lenN ops), [], c1. split; [done|]. rewrite Hs.
  change (lenN (@nil WalOp)) with 0. split; [split; [by apply emptied_logs | split; [constructor | lia]]|]. split; [lia|].
  rewrite drop_nil. split; [constructor | done].
Qed.

(** A truncation that changed the file reports it. *)
Definition honest (io : TruncateIo) : Prop := t_set_len io = true -> t_sync io = true.

Lemma truncate_wal_cases allows io s : honest io -> truncate_wal allows io s = s \/
  exists f, emptied f /\ truncate_wal allows io s = set_log (wal_seq s) 0 f s.
Proof using.
  clear. intros Hio. unfold truncate_wal. destruct allows; [|by left]. cbn [negb]. unfold reset, truncate_to.
  destruct (log s) as [bs|] eqn:Hlog; [|right; exists None; split; [by left | done]].
  assert (Hs : set_file (Some bs) s = s) by (rewrite <- Hlog; by destruct s).
  destruct (negb (t_open io && t_metadata io)); [by left|]. rewrite (proj2 (N.ltb_ge _ _)) by lia.
  destruct (t_set_len io) eqn:Hset; cbn [negb]; [|by left]. rewrite (Hio Hset). right. exists (Some []). split; [by right | done].
Qed.

(** ** The flush in flight *)

(** What a staged image promises, as long as the entry has not been swapped. *)
Definition staged_ok (st : Staged) (s : Entry) (a : Context) : Prop :=
  st_generation st <= image_generation s /\
  (image_generation s = st_generation st -> exists cs,
    st_bytes st = to_bytes cs /\ wf cs /\ applied_seq cs = st_watermark st /\ covers logs (Some (st_bytes st)) (log s) (wal_seq s) a).

(** The context in memory is [a], and the files cover [b]. *)
Record hot_ok (s : Entry) (c a b : Context) : Prop := {
  hot_slot : slot s = Hot c; hot_wf : wf c; hot_agree : agree c a;
  hot_covers : covers logs (image s) (log s) (wal_seq s) b; hot_counted : counted s
}.

Lemma hot_ok_flags d f s c a b : hot_ok s c a b -> hot_ok (set_flags d f s) c a b.
Proof using. clear. intros [? ? ? ? ?]. by split. Qed.

Lemma flush_claim_keeps s c a b st s' : hot_ok s c a b -> index_room c -> flush_claim s = (Some st, s') ->
  hot_ok s' (set_applied_seq (wal_seq s - 1) c) a b /\ staged_ok st s' a /\ flushing s' = true /\
  image_generation s' = st_generation st.
Proof using.
  intros [Hs W Hag Hcov Hcount] Hroom. unfold flush_claim. destruct (negb _); [done|]. destruct (flushing s); [done|].
  rewrite Hs. intros [= <- <-]. destruct (covers_logs _ _ _ _ _ Hcov) as (first & ops & Hl & Hn & Hex & Hle).
  assert (W' : wf (set_applied_seq (wal_seq s - 1) c)) by (apply wf_set_applied_seq; [done | lia]).
  split; [|split; [|done]].
  - split; [done | done | by rewrite <- (agree_applied_seq (wal_seq s - 1) c) | done | done].
  - split; [cbn; lia|]. intros _. exists (set_applied_seq (wal_seq s - 1) c). cbn. split; [done|]. split; [done|]. split; [done|].
    apply (covers_agree _ _ _ _ c); [|done]. by eapply covers_snapshot.
Qed.

Lemma commit_cases {A} io (new old : A) : (commit_staged io new old).2 = new \/ commit_staged io new old = (false, old).
Proof using. clear. unfold commit_staged. destruct (negb _); [by right | by left]. Qed.

(** The image on disk is the one staged, of the context in memory then. *)
Definition lands (st : Staged) (s s' : Entry) : bool :=
  (image_generation s =? st_generation st) && bool_decide (image s' = Some (st_bytes st)).

(** A publication that lands covers the context in memory; one that does not
    leaves the files as they were, and the entry to be flushed again. *)
Lemma flush_publish_keeps io st s c a b ok s' : hot_ok s c a b -> staged_ok st s a -> honest (p_reset io) ->
  flush_publish io st s = (ok, s') -> hot_ok s' c a (if lands st s s' then a else b) /\ flushing s' = false /\
  (lands st s s' = false -> dirty s' = true \/ image_generation s <> st_generation st /\ dirty s' = dirty s).
Proof using.
  intros [Hs W Hag Hcov Hcount] [_ Hst] Hio. unfold flush_publish, lands. rewrite Hs.
  destruct (N.eqb_spec (image_generation s) (st_generation st)) as [Hgen|Hgen]; cbn [negb andb].
  2: { intros [= <- <-]. split; [done|]. split; [done|]. by right. }
  destruct (Hst Hgen) as (cs & Hb & Wcs & Hseq & Hcovst).
  assert (Hstay : forall side img d, img = Some (st_bytes st) \/ img = image s ->
    hot_ok (set_flags d false (set_files side img s)) c a (if bool_decide (img = Some (st_bytes st)) then a else b)).
  { intros side img d Himg. apply hot_ok_flags. split; try done. cbn. case_bool_decide as Hd; [by rewrite Hd|]. by destruct Himg as [Himg| ->]. }
  destruct (write_atomic _ _ _) as [meta_ok side].
  destruct meta_ok; cbn [negb]; [|intros [= <- <-]; split; [by apply Hstay; right | split; [done | by left]]].
  pose proof (commit_cases (p_commit io) (Some (st_bytes st)) (image s)) as Hc.
  destruct (commit_staged (p_commit io) (Some (st_bytes st)) (image s)) as [done_ img]. cbn [snd] in Hc.
  destruct done_; [|intros [= <- <-]; split; [apply Hstay; destruct Hc as [->|[= ->]]; auto | split; [done | by left]]].
  destruct Hc as [->|Hc]; [|done]. intros [= <- <-].
  set (s1 := set_files side (Some (st_bytes st)) s) in *.
  assert (Hhot1 : hot_ok s1 c a a) by (by split).
  assert (Himg : forall x, image (set_flags (dirty s1) false x) = image x) by done.
  destruct (N.eqb_spec (wal_seq s - 1) (st_watermark st)) as [Hw|_].
  2: { rewrite bool_decide_eq_true_2 by done. split; [exact (hot_ok_flags _ _ s1 c a a Hhot1) | by split]. }
  destruct (truncate_wal_cases (p_allows io) (p_reset io) s1 Hio) as [->|(f & Hf & ->)];
    (rewrite bool_decide_eq_true_2 by done; split; [|by split]); [exact (hot_ok_flags _ _ s1 c a a Hhot1)|].
  split; try done; cbn.
  - rewrite Hb in Hcovst |- *. eapply covers_truncated; [exact Hcovst | exact Wcs | rewrite Hseq, <- Hw; reflexivity | exact Hf].
  - unfold counted. cbn. by destruct Hf as [->| ->].
Qed.

(** ** Eviction *)

(** The image of the context in memory, as an eviction saves it. *)
Definition snapshot_of (s : Entry) : file :=
  match slot s with Hot c => Some (to_bytes (set_applied_seq (wal_seq s - 1) c)) | _ => None end.

(** An eviction that is not known to cover the context in memory saves it. *)
Lemma evict_locked_keeps io allows reset_io s c a b ok s' : hot_ok s c a b -> index_room c -> honest reset_io ->
  image_generation s < U64_MAX -> (dirty s || flushing s = false -> b = a) -> evict_locked io allows reset_io s = (ok, s') ->
  flushing s' = flushing s /\
  ((exists c', hot_ok s' c' a (if bool_decide (image s' = snapshot_of s) then a else b) /\ log s' = log s /\
      wal_seq s' = wal_seq s /\ image_generation s' = image_generation s /\ dirty s' = dirty s) \/
   (slot s' = Cold /\ covers logs (image s') (log s') (wal_seq s') a /\ image_generation s < image_generation s' /\
    (dirty s || flushing s = false \/ image s' = snapshot_of s))).
Proof using.
  intros Hhot Hroom Hio Hgen Hclean. pose proof Hhot as [Hs W Hag Hcov Hcount].
  destruct (covers_logs _ _ _ _ _ Hcov) as (first & ops & Hl & Hn & Hex & Hle). unfold evict_locked, snapshot_of. rewrite Hs.
  assert (Hbump : image_generation s < u64_add (image_generation s) 1) by (unfold u64_add; rewrite N.mod_small; lia).
  set (c1 := set_applied_seq (wal_seq s - 1) c).
  assert (W1 : wf c1) by (apply wf_set_applied_seq; [done | lia]).
  assert (Hag1 : agree c1 a) by (transitivity c; [symmetry; apply agree_applied_seq | done]).
  assert (Hsnap : covers logs (Some (to_bytes c1)) (log s) (wal_seq s) a).
  { apply (covers_agree _ _ _ _ c); [|done]. by eapply covers_snapshot. }
  assert (Hcovd : forall img, img = Some (to_bytes c1) \/ img = image s ->
    covers logs img (log s) (wal_seq s) (if bool_decide (img = Some (to_bytes c1)) then a else b)).
  { intros img Himg. case_bool_decide as Hd; [by rewrite Hd|]. by destruct Himg as [Himg| ->]. }
  destruct (pinned s).
  { intros [= <- <-]. split; [done|]. left. exists c. split; [|done]. split; try done. apply Hcovd. by right. }
  destruct (dirty s || flushing s) eqn:Hdf; [|intros [= <- <-]; split; [done|]; right; rewrite (Hclean eq_refl) in Hcov; auto].
  assert (Hstay : forall side img, img = Some (to_bytes c1) \/ img = image s -> let s1 := set_files side img (set_slot (Hot c1) s) in
    exists c', hot_ok s1 c' a (if bool_decide (image s1 = Some (to_bytes c1)) then a else b) /\ log s1 = log s /\
      wal_seq s1 = wal_seq s /\ image_generation s1 = image_generation s /\ dirty s1 = dirty s).
  { intros side img Hc. exists c1. split; [|done]. split; try done. by apply Hcovd. }
  unfold save_files. destruct (write_atomic (s_meta io) _ _) as [meta_ok side].
  destruct meta_ok; cbn [negb]; [|intros [= <- <-]; split; [done|]; left; apply Hstay; by right].
  unfold write_atomic. set (s2 := set_slot (Hot c1) s) in *. change (image s2) with (image s).
  destruct (at_stage (s_image io)); cbn [negb]; [|intros [= <- <-]; split; [done|]; left; apply Hstay; by right].
  pose proof (commit_cases (at_commit (s_image io)) (Some (to_bytes c1)) (image s)) as Hc.
  destruct (commit_staged _ _ _) as [done_ img]. cbn [snd] in Hc.
  destruct done_; cbn [negb]; [|intros [= <- <-]; split; [done|]; left; apply Hstay; destruct Hc as [->|[= ->]]; auto].
  destruct Hc as [->|Hc]; [|done]. intros [= <- <-].
  match goal with |- context [truncate_wal allows reset_io ?x] => destruct (truncate_wal_cases allows reset_io x Hio) as [->|(f & Hf & ->)] end;
    (split; [done|]); right; (split; [done|]); (split; [|split; [done | by right]]); [exact Hsnap|].
  exact (covers_truncated c1 _ _ _ _ Hsnap W1 eq_refl Hf).
Qed.

(** ** Recovery *)

(** A disk on which everything works. *)
Definition truncate_all : TruncateIo := {| t_open := true; t_metadata := true; t_set_len := true; t_sync := true |}.
Definition commit_all : CommitIo := {| c_rename := true; c_sync := true |}.
Definition publish_all : PublishIo :=
  {| p_meta := {| at_stage := true; at_commit := commit_all |}; p_commit := commit_all; p_allows := true; p_reset := truncate_all |}.

Lemma truncate_all_empties s : exists f, emptied f /\ truncate_wal true truncate_all s = set_log (wal_seq s) 0 f s.
Proof using.
  clear. unfold truncate_wal, reset, truncate_to. cbn [negb]. destruct (log s) as [bs|].
  - exists (Some []). split; [by right|]. cbn [t_open t_metadata t_set_len t_sync truncate_all andb negb].
    by rewrite (proj2 (N.ltb_ge _ _)) by lia.
  - exists None. split; [by left | done].
Qed.

(** Whatever the log holds, a flush that lands covers the context in memory. *)
Lemma flush_recovers s c : slot s = Hot c -> dirty s = true -> flushing s = false -> wf c -> index_room c ->
  1 <= wal_seq s <= U64_MAX ->
  exists s', flush_entry true publish_all s = (true, s') /\ hot_ok s' (set_applied_seq (wal_seq s - 1) c) c c /\ flushing s' = false.
Proof using.
  intros Hs Hd Hf W Hroom Hle. unfold flush_entry, flush_claim. rewrite Hd, Hf, Hs. cbn [negb].
  set (c1 := set_applied_seq (wal_seq s - 1) c). unfold flush_publish.
  cbn [slot set_slot image_generation set_flags st_generation st_bytes st_watermark st_graph]. rewrite N.eqb_refl. cbn [negb].
  cbn [write_atomic p_meta publish_all at_stage at_commit commit_staged commit_all c_rename c_sync p_commit negb].
  cbn [wal_seq set_files set_slot set_flags]. rewrite N.eqb_refl.
  match goal with |- context [truncate_wal _ _ ?x] => destruct (truncate_all_empties x) as (f & He & Ht) end.
  change (p_allows publish_all) with true. change (p_reset publish_all) with truncate_all. rewrite Ht.
  eexists. split; [done|]. split; [|done]. apply hot_ok_flags. split.
  - done.
  - apply wf_set_applied_seq; [done | lia].
  - symmetry. apply agree_applied_seq.
  - apply (covers_snapshot c f (wal_seq s) (wal_seq s) []); [done | done | by apply emptied_logs | constructor | apply N.add_0_r | done].
  - unfold counted. cbn. by destruct He as [->| ->].
Qed.

(** What a write that fell behind leaves for the flush. *)
Lemma write_behind {T} config io ops (operate : Context -> option (T * Context)) applied s c r s' :
  slot s = Hot c -> wf c -> wal_seq s + lenN ops <= U64_MAX -> acts ops operate applied c ->
  logged_write config io ops operate applied s = (Answered r, true, s') ->
  dirty s' = true /\ flushing s' = flushing s /\ image_generation s' = image_generation s /\
  wal_seq s <= wal_seq s' <= U64_MAX /\
  exists c', slot s' = Hot c' /\ wf c' /\ match r with Err _ => c' = c | Ok t => operate c = Some (t, c') end.
Proof using All.
  intros Hs W Hle (t & c' & d & Hop & W' & _). unfold logged_write, ensure_hot. rewrite Hs. cbv zeta. rewrite Hs.
  destruct (if existsb WalReplay.grows ops then _ else _) as [[used ceiling]|]; [done|].
  destruct (wal_enabled config); cbn [negb].
  - destruct (_ && _); [done|]. destruct (append_batch _ _ _ _) as [[n|e] f].
    + unfold apply_staged. rewrite Hop. cbv zeta. destruct (_ <? _); [|done]. unfold trim_log.
      destruct (truncate_to _ _ _) as [[[]|e] f2]; [destruct (append_batch _ _ _ _) as [[n2|e] f3]|]; intros [= <- <-]; try done;
        (split; [done|]); (split; [done|]); (split; [done|]); (split; [cbn; unfold u64_add; try rewrite N.mod_small by lia; lia|]);
        by exists c'.
    + unfold retry_rollback. destruct (truncate_to _ _ _) as [[[]|e'] f2]; [done|].
      destruct e'; try done; intros [= <- <-]; (do 3 (split; [done|])); (split; [cbn; lia|]); by exists c.
  - unfold apply_staged. rewrite Hop. done.
Qed.

(** ** Restart *)

Lemma reboot_covers e s c a b : hot_ok s c a b -> slot (reboot e s) = Cold /\ covers logs_torn (image (reboot e s)) (log (reboot e s)) (wal_seq s) b.
Proof using. intros [_ _ _ Hcov _]. split; [done | by apply covers_torn]. Qed.

(** The power fails while a batch is being appended, before anything is applied:
    what landed whole is replayed on what the files cover. *)
Lemma power_cut_covers io ops e s b d r f : covers logs (image s) (log s) (wal_seq s) b -> wf b ->
  wal_seq s + lenN ops <= U64_MAX -> exact ops -> replays ops b d -> append_batch io (wal_seq s) ops (log s) = (r, f) ->
  exists j b', (j <= length ops)%nat /\ replays (take j ops) b b' /\
    slot (reboot e (set_file f s)) = Cold /\
    covers logs_torn (image (reboot e (set_file f s))) (log (reboot e (set_file f s))) (wal_seq s + N.of_nat j) b'.
Proof using All.
  intros Hcov Wb Hle Hex Hd Ha.
  destruct Hcov as (c0 & first & ops0 & c1 & (Hi & W0 & Hroom) & ((rs & He & Hh) & Hex0 & Hw) & (Hn & Hmax) & Hrep & Hag1).
  assert (W1 : wf c1) by by eapply replays_wf.
  assert (Hcut : forall j, (j <= length ops)%nat -> logs_torn f first (ops0 ++ take j ops) -> exists j b', (j <= length ops)%nat /\
      replays (take j ops) b b' /\ slot (reboot e (set_file f s)) = Cold /\
      covers logs_torn (image (reboot e (set_file f s))) (log (reboot e (set_file f s))) (wal_seq s + N.of_nat j) b').
  { intros j Hj Hlog. destruct (replays_take j _ _ _ Hd) as [b' Hb']. exists j, b'. do 3 (split; [done|]). cbn.
    destruct (replays_agree _ _ _ Hb' c1 Wb W1 (symmetry Hag1)) as (d1 & Hd1 & Hagd).
    assert (Hlj : lenN (take j ops) = N.of_nat j) by (unfold lenN; rewrite length_take; lia).
    exists c0, first, (ops0 ++ take j ops), d1. rewrite lenN_app, Hlj. split; [done|].
    split; [split; [done | split; [apply Forall_app; split; [done | by apply Forall_take] | lia]]|].
    split; [unfold lenN in *; lia|]. rewrite drop_app_le by (unfold lenN in *; lia). split; [by eapply replays_app | by symmetry]. }
  destruct (append_cut io (wal_seq s) ops (log s) r f first ops0 Ha ltac:(by exists rs) Hn ltac:(lia)) as (j & Hj & Hlog & _).
  by apply (Hcut j).
Qed.
End flush.
