(* ===== verification/EntryClaims.v ===== *)
(** * No acknowledged write is lost

    The entry as a state machine: loads, writes, flushes staged and published while
    other operations run, evictions, compactions, restarts and power cuts.  Every
    state it reaches reloads to the context the clients were told of. *)

From S2P Require Import CompactClaims Compact WalClaims.
From S2P Require Export EntryFlush.

Local Open Scope N_scope.

Section system.
Context `{UnicodeTables} `{WalJsonLaws WalOp}.

(** ** Callers of the logged write *)

Lemma apply_loop_acts ops : forall n c, wf c -> ops_ok ops c ->
  exists r c' d k, apply_loop ops n c = Some (r, c') /\ wf c' /\ applied_count r = n + N.of_nat k /\ (k <= length ops)%nat /\
    replays (take k ops) c d /\ agree d c'.
Proof using.
  clear H0 H1. induction ops as [|op ops IH]; intros n c W Hok; cbn [apply_loop].
  { exists (Ok n), c, c, 0%nat. cbn. rewrite N.add_0_r. do 4 (split; [done|]). split; [constructor | done]. }
  destruct Hok as [Hop Hrest]. destruct (apply_op_returns op c W Hop) as (r & c1 & Hr & W1 & Hag). rewrite Hr in Hrest |- *.
  cbn [mbind option_bind]. destruct r as [u|[message full]].
  - destruct (IH (n + 1) c1 W1 Hrest) as (r & c' & d & k & Hl & W' & Hn & Hk & Hd & Hagd). exists r, c', d, (S k).
    split; [done|]. split; [done|]. split; [lia|]. split; [cbn [length]; lia|]. split; [|done]. cbn [take]. econstructor; eauto.
  - exists (Err {| pw_applied := n; pw_message := message; pw_full := full |}), c1, c, 0%nat. cbn [applied_count pw_applied].
    split; [done|]. split; [done|]. split; [lia|]. split; [lia|]. split; [constructor | by apply (Hag (message, full))].
Qed.

(** The batch endpoints. *)
Lemma apply_in_order_acts ops c : wf c -> ops_ok ops c -> acts ops (apply_in_order ops) applied_count c.
Proof using.
  clear H0 H1. intros W Hok. destruct (apply_loop_acts ops 0 c W Hok) as (r & c' & d & k & Hr & W' & Hn & Hk & Hd & Hag).
  exists r, c', d. rewrite Hn. replace (N.to_nat (N.min (0 + N.of_nat k) (lenN ops))) with k by (unfold lenN; lia). done.
Qed.

(** [retract_single_op] counts an operation that found nothing as none. *)
Definition applied_some {A} (r : option A) : N := match r with Some _ => 1 | None => 0 end.

Lemma retract_acts {A} op (run : Context -> option (option A * Context)) c : wf c -> op_ok op c ->
  apply_op op c = ('(_, c) ← run c; Some (Ok tt, c)) -> (forall c', run c = Some (None, c') -> c' = c) ->
  acts [op] run applied_some c.
Proof using.
  clear H0 H1. intros W Hok Hrun Hnone. destruct (apply_op_returns op c W Hok) as (r & c1 & Hr & W1 & _). rewrite Hrun in Hr.
  destruct (run c) as [[x c2]|] eqn:E; [|done]. cbn [mbind option_bind] in Hr. injection Hr as <- <-. destruct x as [x|].
  - exists (Some x), c2, c2. split; [done|]. split; [done|]. split; [|done]. cbn. eapply replays_cons; [done | | constructor].
    by rewrite Hrun.
  - rewrite (Hnone _ eq_refl) in *. exists None, c, c. split; [done|]. split; [done|]. split; [constructor | done].
Qed.

(** ** The system *)

(** The entry, the flush in flight, and what a restart goes back to while a
    compaction has not reached the disk: the context it replaced, with the writes
    acknowledged since. *)
Definition system : Type := Entry * option Staged * option Context.

Definition hot_is (s : Entry) (P : Context -> Prop) : Prop := match slot s with Hot c => P c | _ => False end.

(** What the outside sees of a step. *)
Inductive event :=
  | Quiet                                        (* nothing was acknowledged *)
  | Wrote (ops : list WalOp)                     (* these operations were *)
  | Compacted
  | Restarted (back : option Context)            (* to this context, or to the one in memory *)
  | Cut (back : option Context) (ops : list WalOp).  (* the power failed on this batch *)

(** A write the code may issue on this entry. *)
Definition admissible {T} (ops : list WalOp) (operate : Context -> option (T * Context)) (applied : T -> N) (s : Entry) : Prop :=
  wal_seq s + lenN ops <= U64_MAX /\ exact ops /\ hot_is s (acts ops operate applied).

(** One hold of the lock, or a restart.  A compaction's own flush is a claim and a
    publication like any other, and may find another flush in flight. *)
Inductive step : system -> event -> system -> Prop :=
  | step_load io s st k r s' : l_stat io = true -> ensure_hot io s = Some (r, s') -> step (s, st, k) Quiet (s', st, k)
  | step_write {T} config io ops (operate : Context -> option (T * Context)) applied s st k r s' k' :
      admissible ops operate applied s -> wal_enabled config = true ->
      logged_write config io ops operate applied s = (Answered r, false, s') ->
      option_Forall2 (replays (applied_ops applied ops r)) k k' ->
      step (s, st, k) (Wrote (applied_ops applied ops r)) (s', st, k')
  | step_write_recovered {T} config io ops (operate : Context -> option (T * Context)) applied s st k r s1 b s' :
      admissible ops operate applied s -> wal_enabled config = true ->
      logged_write config io ops operate applied s = (Answered r, true, s1) ->
      flushing s1 = false -> hot_is s1 index_room -> flush_entry true publish_all s1 = (b, s') ->
      step (s, st, k) (Wrote (applied_ops applied ops r)) (s', st, None)
  | step_claim s st k staged s' : hot_is s index_room -> flush_claim s = (Some staged, s') ->
      step (s, st, k) Quiet (s', Some staged, k)
  | step_unstaged s staged k : step (s, Some staged, k) Quiet (flush_unstaged s, None, k)
  | step_publish io s staged k b s' : honest (p_reset io) -> flush_publish io staged s = (b, s') ->
      step (s, Some staged, k) Quiet (s', None, if lands staged s s' then None else k)
  | step_evict io allows reset_io s st k b s' : hot_is s index_room -> honest reset_io ->
      image_generation s < U64_MAX -> evict_locked io allows reset_io s = (b, s') ->
      step (s, st, k) Quiet (s', st, if bool_decide (image s' = snapshot_of s) then None else k)
  | step_compact load expired s st k c stats s' : slot s = Hot c -> name_bytes c <= U32_MAX -> index_room c ->
      image_generation s < U64_MAX -> compact_locked load expired s = (Answered (Ok stats), s') ->
      step (s, st, k) Compacted (s', st, Some (default c k))
  | step_restart e s st k : step (s, st, k) (Restarted k) (reboot e s, None, None)
  | step_power_cut io ops e s st k c d r f : wal_seq s + lenN ops <= U64_MAX -> exact ops ->
      slot s = Hot c -> replays ops (default c k) d -> append_batch io (wal_seq s) ops (log s) = (r, f) ->
      step (s, st, k) (Cut k ops) (reboot e (set_file f s), None, None).

Inductive steps : system -> list event -> system -> Prop :=
  | steps_nil x : steps x [] x
  | steps_snoc x es y e z : steps x es y -> step y e z -> steps x (es ++ [e]) z.

(** What the events mean for the one context the clients talk to. *)
Definition meaning (e : event) (a a' : Context) : Prop :=
  match e with
  | Quiet => a' = a
  | Wrote ops => replays ops a a'
  | Compacted => exists fs, facts a = Some fs /\ facts a' = Some (compact_fact <$> live_facts fs)
  | Restarted back => a' = default a back
  | Cut back ops => exists j, (j <= length ops)%nat /\ replays (take j ops) (default a back) a'
  end.

Inductive meanings : list event -> Context -> Context -> Prop :=
  | meanings_nil a : meanings [] a a
  | meanings_snoc es e a b c : meanings es a b -> meaning e b c -> meanings (es ++ [e]) a c.

(** ** The simulation *)

Definition staged_inv (s : Entry) (st : option Staged) (a : Context) : Prop :=
  match st with
  | Some st => flushing s = true /\
      match slot s with Hot _ => staged_ok st s a | _ => st_generation st < image_generation s end
  | None => True
  end.

(** The context in memory will be flushed: it is marked, or staged. *)
Definition unsaved (s : Entry) (st : option Staged) : Prop :=
  dirty s = true \/ exists staged, st = Some staged /\ image_generation s = st_generation staged.

Definition durable (x : system) (a : Context) : Prop :=
  let '(s, st, k) := x in
  wf a /\ wf (default a k) /\ staged_inv s st a /\
  match slot s with
  | Hot c => hot_ok s c a (default a k) /\ (is_Some k -> unsaved s st)
  | Cold => k = None /\ exists next, covers logs_torn (image s) (log s) next a
  | Deleted => False
  end.

Lemma hot_is_inv s P : hot_is s P -> exists c, slot s = Hot c /\ P c.
Proof using. clear. unfold hot_is. destruct (slot s); eauto; done. Qed.

Lemma durable_hot s st k a c : durable (s, st, k) a -> slot s = Hot c -> wf a /\ wf (default a k) /\
  hot_ok s c a (default a k) /\ (is_Some k -> unsaved s st) /\
  match st with Some st => flushing s = true /\ staged_ok st s a | None => True end.
Proof using. clear. intros (W & Wk & Hst & Hs) E. unfold staged_inv in Hst. rewrite E in *. destruct Hs. auto. Qed.

Lemma load_simulates io s st k a r s' : durable (s, st, k) a -> l_stat io = true -> ensure_hot io s = Some (r, s') -> durable (s', st, k) a.
Proof using All.
  intros Hd Hstat Hload. pose proof Hd as (W & Wk & Hst & Hs). destruct (slot s) as [c| |] eqn:E; [|destruct Hs as [-> [next Hcov]]|done].
  { unfold ensure_hot in Hload. rewrite E in Hload. by injection Hload as <- <-. }
  destruct (ensure_hot_keeps io s r s' next a E Hcov Hstat Hload) as (_ & Hg & Hf & Hr). split; [done|]. split; [done|].
  assert (Hst' : match st with Some st => flushing s' = true /\ st_generation st < image_generation s' | None => True end).
  { unfold staged_inv in Hst. rewrite E in Hst. destruct st; [|done]. by rewrite Hf, Hg. }
  destruct r as [u|e].
  - destruct Hr as (c & Hc & Wc & Hag & Hcov' & Hcount). split; [|rewrite Hc; split; [by split | by intros []]].
    unfold staged_inv. rewrite Hc. destruct st as [st|]; [|done]. destruct Hst' as [? ?]. split; [done|]. split; [lia|]. lia.
  - destruct Hr as [Hc Hcov']. split; [|rewrite Hc; split; [done | by exists next]]. unfold staged_inv. rewrite Hc. by destruct st.
Qed.

(** The context a write leaves is the one its acknowledgement means. *)
Lemma acts_meaning {T} ops (operate : Context -> option (T * Context)) applied c a t c' : wf c -> wf a -> agree c a ->
  acts ops operate applied c -> operate c = Some (t, c') ->
  exists a', replays (applied_ops applied ops (Ok t)) a a' /\ wf a' /\ agree c' a'.
Proof using.
  clear H0 H1. intros W Wa Hag (t1 & c1 & d & Hop & _ & Hd & Hagd) E. simplify_eq.
  destruct (replays_agree _ _ _ Hd a W Wa Hag) as (a' & Ha' & Haga). exists a'. split; [done|].
  split; [by eapply replays_wf|]. by rewrite <- Haga.
Qed.

Lemma write_simulates {T} config io ops (operate : Context -> option (T * Context)) applied s st k a r s' k' :
  durable (s, st, k) a -> admissible ops operate applied s -> wal_enabled config = true ->
  logged_write config io ops operate applied s = (Answered r, false, s') ->
  option_Forall2 (replays (applied_ops applied ops r)) k k' ->
  exists a', meaning (Wrote (applied_ops applied ops r)) a a' /\ durable (s', st, k') a'.
Proof using All.
  intros Hd (Hle & Hex & (c & Hs & Hacts)%hot_is_inv) Hen Hw Hk.
  destruct (durable_hot _ _ _ _ _ Hd Hs) as (Wa & Wk & [_ W Hag Hcov Hcount] & Hun & Hst).
  destruct (write_keeps _ _ _ _ _ _ _ _ _ _ Hs W Hen Hcount Hcov Hle Hex Hacts Hw) as [(Hi & Hg & Hf & Hdirty & Hcount') [Hr Hkeep]].
  assert (Ha : exists a' c', replays (applied_ops applied ops r) a a' /\ wf a' /\ slot s' = Hot c' /\ wf c' /\ agree c' a').
  { destruct r as [t|e]; [|exists a, c; split; [constructor | done]].
    destruct Hr as (c' & Hop & Hs' & W'). destruct (acts_meaning _ _ _ _ _ _ _ W Wa Hag Hacts Hop) as (a' & ? & ? & ?). by exists a', c'. }
  destruct Ha as (a' & c' & Hm & Wa' & Hs' & W' & Hag'). exists a'. split; [done|].
  assert (Hkk : replays (applied_ops applied ops r) (default a k) (default a' k')) by (by destruct Hk).
  split; [done|]. split; [by eapply replays_wf|]. unfold staged_inv. rewrite Hs'. split; [|split].
  - destruct st as [st|]; [|done]. destruct Hst as [? [Hlt Hst]]. split; [by rewrite Hf|]. rewrite <- Hg in Hlt, Hst.
    split; [done|]. intros Hgen. destruct (Hst Hgen) as (cs & ? & ? & ? & Hcs). exists cs. do 3 (split; [done|]).
    by apply (Hkeep _ a).
  - split; try done. rewrite Hi. by apply (Hkeep _ (default a k)).
  - intros Hk'. destruct (Hun ltac:(by destruct Hk; [eexists | destruct Hk'])) as [Hdd|(staged & -> & Hgen)]; [left; auto|].
    right. exists staged. by rewrite Hg.
Qed.

(** A flush that lands makes any context in memory durable. *)
Lemma recovered_durable s st c a b s' : slot s = Hot c -> wf c -> wf a -> agree c a -> index_room c -> dirty s = true ->
  flushing s = false -> 1 <= wal_seq s <= U64_MAX -> st = None -> flush_entry true publish_all s = (b, s') ->
  durable (s', st, None) a.
Proof using All.
  intros Hs W Wa Hag Hroom Hd Hf Hle -> Hrun. destruct (flush_recovers s c Hs Hd Hf W Hroom Hle) as (s2 & E & Hhot & Hf2).
  rewrite E in Hrun. injection Hrun as <- <-.
  pose proof Hhot as [Hs2 W2 _ Hcov Hcount]. do 3 (split; [done|]). rewrite Hs2. split; [|by intros []]. split; try done.
  - transitivity c; [symmetry; apply agree_applied_seq | done].
  - by apply (covers_agree _ _ _ _ c).
Qed.

Lemma durable_next s st k a c : durable (s, st, k) a -> slot s = Hot c -> 1 <= wal_seq s <= U64_MAX.
Proof using. clear. intros Hd Hs. destruct (durable_hot _ _ _ _ _ Hd Hs) as (_ & _ & [_ _ _ Hcov _] & _). by destruct (covers_logs _ _ _ _ _ Hcov) as (? & ? & _ & _ & _ & ?). Qed.

Lemma recovered_simulates {T} config io ops (operate : Context -> option (T * Context)) applied s st k a r s1 b s' :
  durable (s, st, k) a -> admissible ops operate applied s ->
  logged_write config io ops operate applied s = (Answered r, true, s1) -> flushing s1 = false -> hot_is s1 index_room ->
  flush_entry true publish_all s1 = (b, s') -> exists a', meaning (Wrote (applied_ops applied ops r)) a a' /\ durable (s', st, None) a'.
Proof using All.
  intros Hd (Hle & Hex & (c & Hs & Hacts)%hot_is_inv) Hw Hf (c1 & Hs1 & Hroom)%hot_is_inv Hrun.
  destruct (durable_hot _ _ _ _ _ Hd Hs) as (Wa & _ & [_ W Hag _ _] & _ & Hst). pose proof (durable_next _ _ _ _ _ Hd Hs) as Hnext.
  destruct (write_behind _ _ _ _ _ _ _ _ _ Hs W Hle Hacts Hw) as (Hdirty & Hfl & _ & Hseq & c' & Hs1' & W' & Hr).
  rewrite Hs1 in Hs1'. injection Hs1' as <-.
  assert (Hnone : st = None) by (destruct st; [destruct Hst; congruence | done]).
  destruct r as [t|e].
  - destruct (acts_meaning _ _ _ _ _ _ _ W Wa Hag Hacts Hr) as (a' & Hm & Wa' & Hag'). exists a'. split; [done|].
    eapply (recovered_durable s1 _ c1); try done. lia.
  - subst c1. exists a. split; [constructor|]. eapply (recovered_durable s1 _ c); try done. lia.
Qed.

Lemma claim_simulates s st k a staged s' : durable (s, st, k) a -> hot_is s index_room -> flush_claim s = (Some staged, s') ->
  durable (s', Some staged, k) a.
Proof using All.
  intros Hd (c & Hs & Hroom)%hot_is_inv Hc. destruct (durable_hot _ _ _ _ _ Hd Hs) as (Wa & Wk & Hhot & _).
  destruct (flush_claim_keeps _ _ _ _ _ _ Hhot Hroom Hc) as (Hhot' & Hst & Hf & Hgen). pose proof Hhot' as [Hs' _ _ _ _].
  split; [done|]. split; [done|]. unfold staged_inv. rewrite Hs'. split; [done|]. split; [done|]. intros _. right. by exists staged.
Qed.

Lemma publish_simulates io s staged k a b s' : durable (s, Some staged, k) a -> honest (p_reset io) -> flush_publish io staged s = (b, s') ->
  durable (s', None, if lands staged s s' then None else k) a.
Proof using All.
  intros Hd Hio Hp. pose proof Hd as (Wa & Wk & Hst & Hslot). destruct (slot s) as [c| |] eqn:Hs; [| |done].
  - destruct (durable_hot _ _ _ _ _ Hd Hs) as (_ & _ & Hhot & Hun & _ & Hok).
    destruct (flush_publish_keeps _ _ _ _ _ _ _ _ Hhot Hok Hio Hp) as (Hhot' & _ & Hdirty). pose proof Hhot' as [Hs' _ _ _ _].
    split; [done|]. destruct (lands staged s s'); (split; [done|]; split; [done|]; rewrite Hs'; split; [exact Hhot'|]); [by intros []|].
    intros Hk. left. destruct (Hdirty eq_refl) as [|[Hne ->]]; [done|].
    destruct (Hun Hk) as [|(st & [= <-] & Hgen)]; [done | congruence].
  - destruct Hslot as [-> Hcov]. unfold flush_publish in Hp. rewrite Hs in Hp. injection Hp as <- <-.
    assert (Hnone : (if lands staged s (set_flags (dirty s) false s) then None else @None Context) = None) by (by destruct (lands _ _ _)).
    rewrite Hnone. do 3 (split; [done|]). cbn. by rewrite Hs.
Qed.

Lemma unstaged_simulates s staged k a : durable (s, Some staged, k) a -> durable (flush_unstaged s, None, k) a.
Proof using.
  clear. intros (Wa & Wk & _ & Hs). do 3 (split; [done|]). unfold flush_unstaged. cbn. destruct (slot s); try done.
  destruct Hs as [Hs _]. split; [by apply hot_ok_flags | by left].
Qed.

Lemma evict_simulates io allows reset_io s st k a b s' : durable (s, st, k) a -> hot_is s index_room -> honest reset_io ->
  image_generation s < U64_MAX -> evict_locked io allows reset_io s = (b, s') ->
  durable (s', st, if bool_decide (image s' = snapshot_of s) then None else k) a.
Proof using All.
  intros Hd (c & Hs & Hroom)%hot_is_inv Hio Hgen He. destruct (durable_hot _ _ _ _ _ Hd Hs) as (Wa & Wk & Hhot & Hun & Hst).
  assert (Hclean : dirty s || flushing s = false -> k = None).
  { intros [Hd0 Hf0]%orb_false_iff. destruct k as [k|]; [|done]. destruct (Hun ltac:(by eexists)) as [|(staged & -> & _)]; [congruence|].
    destruct Hst; congruence. }
  assert (Hclean' : dirty s || flushing s = false -> default a k = a) by (by intros ->%Hclean).
  destruct (evict_locked_keeps _ _ _ _ _ _ _ _ _ Hhot Hroom Hio Hgen Hclean' He)
    as [Hf [(c' & Hhot' & Hlog & Hseq & Hg & Hdirty)|(Hs' & Hcov & Hg & Hor)]].
  - pose proof Hhot' as [Hs' _ _ _ _]. split; [done|]. split; [by case_bool_decide|]. unfold staged_inv. rewrite Hs'. split; [|split].
    + destruct st as [st|]; [|done]. destruct Hst as [Hfl [Hle Hok]]. split; [by rewrite Hf|]. unfold staged_ok. by rewrite Hg, Hlog, Hseq.
    + by case_bool_decide.
    + case_bool_decide; [by intros []|]. unfold unsaved. rewrite Hdirty, Hg. exact Hun.
  - assert (Hk : (if bool_decide (image s' = snapshot_of s) then None else k) = None).
    { case_bool_decide; [done|]. destruct Hor as [Hcl|]; [by apply Hclean | done]. }
    rewrite Hk. split; [done|]. split; [done|]. unfold staged_inv. rewrite Hs'. split; [|split; [done|eexists; by apply covers_torn]].
    destruct st as [st|]; [|done]. destruct Hst as [Hfl [Hle Hok]]. split; [by rewrite Hf | lia].
Qed.

Lemma restart_simulates e s st k a : durable (s, st, k) a -> durable (reboot e s, None, None) (default a k).
Proof using All.
  intros Hd. pose proof Hd as (Wa & Wk & _ & Hslot). do 3 (split; [done|]). split; [done|]. cbn.
  destruct (slot s) as [c| |] eqn:Hs; [|by destruct Hslot as [-> ?]|done]. destruct Hslot as [[_ _ _ Hcov _] _]. exists (wal_seq s). by apply covers_torn.
Qed.

Lemma cut_simulates io ops e s st k a c d r f : durable (s, st, k) a -> wal_seq s + lenN ops <= U64_MAX -> exact ops ->
  slot s = Hot c -> replays ops (default c k) d -> append_batch io (wal_seq s) ops (log s) = (r, f) ->
  exists a', meaning (Cut k ops) a a' /\ durable (reboot e (set_file f s), None, None) a'.
Proof using All.
  intros Hd Hle Hex Hs Hrep Ha. destruct (durable_hot _ _ _ _ _ Hd Hs) as (Wa & Wk & [_ W Hag Hcov _] & _).
  assert (Hrep' : exists d', replays ops (default a k) d').
  { destruct k as [k|]; [by exists d|]. destruct (replays_agree _ _ _ Hrep a W Wa Hag) as (d' & ? & _). by exists d'. }
  destruct Hrep' as [d' Hrep'].
  destruct (power_cut_covers _ _ e _ _ _ _ _ Hcov Wk Hle Hex Hrep' Ha) as (j & a' & Hj & Hr & Hs' & Hcov').
  exists a'. split; [by exists j|]. assert (Wa' : wf a') by by eapply replays_wf.
  split; [done|]. split; [done|]. split; [done|]. rewrite Hs'. split; [done|]. by eexists.
Qed.

(** A compaction swaps the context in memory, and its number leaves any flush in
    flight behind. *)
Lemma compact_locked_swaps load expired s c stats s' : slot s = Hot c ->
  compact_locked load expired s = (Answered (Ok stats), s') ->
  exists fresh, compacted expired c = Some (Ok (fresh, stats)) /\
    s' = set_flags true (flushing s) (bump_generation (set_slot (Hot (set_dice_floor (meta_floor s) (set_applied_seq (applied_seq c) fresh))) s)).
Proof using.
  clear. intros Hs. unfold compact_locked, ensure_hot. rewrite Hs. cbn beta iota. rewrite Hs.
  destruct (compacted expired c) as [[[fresh stats']|[]]|]; try done. intros [= <- <-]. by exists fresh.
Qed.

Lemma compact_simulates load expired s st k a c stats s' : durable (s, st, k) a -> slot s = Hot c ->
  name_bytes c <= U32_MAX -> index_room c -> image_generation s < U64_MAX ->
  compact_locked load expired s = (Answered (Ok stats), s') ->
  exists a', meaning Compacted a a' /\ durable (s', st, Some (default c k)) a'.
Proof using All.
  intros Hd Hs Hbytes Hroom Hgen Hc. destruct (durable_hot _ _ _ _ _ Hd Hs) as (Wa & Wk & [_ W Hag Hcov Hcount] & _ & Hst).
  destruct (compact_locked_swaps _ _ _ _ _ _ Hs Hc) as (fresh & Hf & ->). destruct (facts_total c W) as [fs Hfs].
  assert (Hpairs : exists cal lal, alias_pairs concept_space c = Some cal /\ alias_pairs label_space c = Some lal).
  { unfold compacted in Hf. destruct (query_any [] [] [] c); [cbn [mbind option_bind] in Hf|done].
    destruct (alias_pairs concept_space c) as [cal|]; [cbn [mbind option_bind] in Hf|done].
    destruct (alias_pairs label_space c) as [lal|]; [by exists cal, lal | done]. }
  destruct Hpairs as (cal & lal & Hcal & Hlal).
  pose proof (compacted_cases c fs cal lal expired W Hfs Hcal Hlal Hbytes Hroom) as Hcase. cbv zeta in Hcase.
  rewrite Hf in Hcase. destruct Hcase as (_ & Wf' & Hff & _).
  set (fresh' := set_dice_floor (meta_floor s) (set_applied_seq (applied_seq c) fresh)) in *.
  assert (W1 : wf fresh') by (apply wf_set_dice_floor, wf_set_applied_seq; [done | apply W]).
  assert (Hnew : image_generation s < u64_add (image_generation s) 1) by (unfold u64_add; rewrite N.mod_small; lia).
  exists fresh'. split; [exists fs; split; [by rewrite <- (agree_facts _ _ Hag) | exact Hff]|].
  split; [done|]. split; [cbn; by destruct k|]. split; [|split; [|by left]].
  - unfold staged_inv. cbn. destruct st as [st|]; [|done]. destruct Hst as [? [Hlt _]]. split; [done|]. unfold staged_ok. cbn. split; lia.
  - split; try done. cbn. destruct k as [k|]; [done|]. apply (covers_agree _ _ _ _ a); [done | by symmetry].
Qed.

(** The flush a compaction overtook publishes nothing. *)
Lemma compact_overtakes load expired s st k a stats s' io : durable (s, Some st, k) a ->
  image_generation s < U64_MAX -> l_stat load = true -> compact_locked load expired s = (Answered (Ok stats), s') ->
  flush_publish io st s' = (false, set_flags true false s').
Proof using All.
  intros Hd Hgen Hstat Hc. assert (Hload : exists s0 c, durable (s0, Some st, k) a /\ slot s0 = Hot c /\ image_generation s0 = image_generation s /\
    compact_locked load expired s0 = (Answered (Ok stats), s')).
  { pose proof Hd as (_ & _ & _ & Hslot). destruct (slot s) as [c| |] eqn:Hs; [by exists s, c| |done].
    destruct Hslot as [_ [next Hcov]]. pose proof Hc as Hc'. unfold compact_locked in Hc'. rewrite Hs in Hc'.
    destruct (ensure_hot load s) as [[r s0]|] eqn:Hl; [|done]. destruct r as [u|e]; [|done].
    destruct (ensure_hot_keeps load s (Ok u) s0 next a Hs Hcov Hstat Hl) as (_ & Hg & _ & c & Hs0 & _).
    exists s0, c. split; [exact (load_simulates load s _ _ a (Ok u) s0 Hd Hstat Hl)|]. split; [done|]. split; [done|].
    rewrite Hs0 in Hc'. unfold compact_locked, ensure_hot. rewrite Hs0. cbn beta iota. rewrite Hs0. exact Hc'. }
  destruct Hload as (s0 & c & Hd0 & Hs0 & Hg & Hc0). destruct (durable_hot _ _ _ _ _ Hd0 Hs0) as (_ & _ & _ & _ & _ & Hle & _).
  destruct (compact_locked_swaps _ _ _ _ _ _ Hs0 Hc0) as (fresh & _ & ->). unfold flush_publish. cbn.
  assert (Hne : u64_add (image_generation s0) 1 <> st_generation st) by (unfold u64_add; rewrite N.mod_small; lia).
  by rewrite (proj2 (N.eqb_neq _ _) Hne).
Qed.

Lemma step_simulates x e y a : durable x a -> step x e y -> exists a', meaning e a a' /\ durable y a'.
Proof using All.
  intros Hd Hs. destruct Hs.
  - exists a. split; [done | by eapply load_simulates].
  - by eapply write_simulates.
  - by eapply recovered_simulates.
  - exists a. split; [done | by eapply claim_simulates].
  - exists a. split; [done | by eapply unstaged_simulates].
  - exists a. split; [done | by eapply publish_simulates].
  - exists a. split; [done | by eapply evict_simulates].
  - by eapply compact_simulates.
  - exists (default a k). split; [done | by eapply restart_simulates].
  - by eapply cut_simulates.
Qed.

Lemma steps_simulate x es y a : durable x a -> steps x es y -> exists a', meanings es a a' /\ durable y a'.
Proof using All.
  intros Hd Hs. induction Hs as [|x es y e z _ IH Hstep]; [exists a; by split; [constructor|]|].
  destruct (IH Hd) as (b & Hb & Hdb). destruct (step_simulates _ _ _ _ Hdb Hstep) as (c & Hc & Hdc).
  exists c. split; [by econstructor | done].
Qed.

Lemma created_durable io pin dice e s : create_registered io pin dice e = Some s -> durable (s, None, None) Context_default.
Proof using.
  unfold create_registered, save_files. destruct (write_atomic (s_meta io) _ _) as [meta_ok side]. destruct meta_ok; [|done]. cbn [negb].
  unfold write_atomic. destruct (at_stage (s_image io)); [|done]. cbn [negb].
  pose proof (commit_cases (at_commit (s_image io)) (Some (to_bytes (set_dice_floor dice Context_default))) None) as Hc.
  cbn [image]. destruct (commit_staged _ _ _) as [ok img]. cbn [snd] in Hc. destruct ok; [|done]. destruct Hc as [->|Hc]; [|done].
  intros [= <-]. split; [apply wf_default|]. split; [apply wf_default|]. split; [done|]. cbn [slot set_files]. split; [|by intros []]. split.
  - done.
  - apply wf_set_dice_floor, wf_default.
  - symmetry. apply agree_dice_floor.
  - exists (set_dice_floor dice Context_default), 1, [], (set_dice_floor dice Context_default).
    split; [split; [done | split; [apply wf_set_dice_floor, wf_default | done]]|].
    split; [split; [apply emptied_logs; by left | split; [constructor | done]]|]. split; [done|].
    split; [constructor | symmetry; apply agree_dice_floor].
  - done.
Qed.

(** A load in which everything outside works. *)
Definition works (io : LoadIo) : Prop :=
  l_hydrated io = true /\ l_schema io = true /\ l_read io = true /\ io_fine (l_replay io) /\ l_stat io = true.

Lemma restart_reloads e io s st k a : durable (s, st, k) a -> works io ->
  exists s' c, ensure_hot io (reboot e s) = Some (Ok tt, s') /\ slot s' = Hot c /\ agree c (default a k).
Proof using All.
  intros Hd (Hh & Hsch & Hread & Hio & Hstat). destruct (restart_simulates e s st k a Hd) as (_ & _ & _ & _ & next & Hcov).
  destruct (ensure_hot_succeeds io (reboot e s) next (default a k)) as [s' Hrun]; try done.
  destruct (ensure_hot_keeps io (reboot e s) (Ok tt) s' next (default a k) eq_refl Hcov Hstat Hrun) as (_ & _ & _ & c & Hc & _ & Hag & _).
  by exists s', c.
Qed.

(** ** Properties *)

(** C23. No acknowledged write is lost.  From the creation of a context, through any
    sequence of loads, writes under every outcome of the disk, flushes whose
    staging and publication any other operation interleaves with, evictions,
    compactions (with or without a flush in flight, and whether or not their own
    lands), restarts and power cuts: the context in memory is what the acknowledged
    operations make of the empty context, and a restart at any moment, with a disk
    that works again, reloads exactly that; or, while the image of a compaction has
    not reached the disk, exactly the context the compaction replaced with every
    write acknowledged since replayed on it, so that the compaction is lost and no
    write is (a replayed operation may be refused there, as an alias the compaction
    had freed).  A refused or failed write contributes nothing; a batch the power
    failed on contributes a prefix; and a flush staged before a compaction
    publishes nothing after it.  The steps leave out what the code itself gives up:
    a truncation that cut the file and reported failure, an unread log length, a
    write that fell behind its log and whose recovery flush finds another in flight
    or does not land.  They ask for room: of ids and of counts, in the context in
    memory and in the one a restart would go back to. *)
Theorem entry_durable io pin dice e s0 es s st k
    (Hcreate : create_registered io pin dice e = Some s0) (Hsteps : steps (s0, None, None) es (s, st, k)) :
  exists a, meanings es Context_default a /\ wf a /\ (forall c, slot s = Hot c -> agree c a) /\
    (forall e' load, works load -> exists s' c, ensure_hot load (reboot e' s) = Some (Ok tt, s') /\ slot s' = Hot c /\
      agree c (default a k) /\ facts c = facts (default a k)) /\
    (forall load expired stats staged s' io', st = Some staged -> image_generation s < U64_MAX -> l_stat load = true ->
      compact_locked load expired s = (Answered (Ok stats), s') ->
      flush_publish io' staged s' = (false, set_flags true false s')).
Proof using All.
  destruct (steps_simulate _ _ _ _ (created_durable _ _ _ _ _ Hcreate) Hsteps) as (a & Hm & Hd). exists a. split; [done|].
  split; [by destruct Hd|]. split; [|split].
  - intros c Hc. by destruct (durable_hot _ _ _ _ _ Hd Hc) as (_ & _ & [] & _).
  - intros e' load Hw. destruct (restart_reloads e' load s st k a Hd Hw) as (s' & c & Hrun & Hc & Hag).
    exists s', c. do 3 (split; [done|]). by apply agree_facts.
  - intros load expired stats staged s' io' -> Hgen Hstat Hc. by eapply compact_overtakes.
Qed.
End system.

(** * An entry at work

    A small codec for three operations of the log, and a run of the entry: the
    property above at a concrete input, and a run in which a truncation
    that cut the file but reported failure costs an acknowledged write. *)

From S2P Require Import WalThm Sample.

Local Open Scope N_scope.

(** ** A codec *)

Definition chase : AssocOp := {| ao_subject := str "cat"; ao_label := str "chases"; ao_object := str "mouse"; ao_weight := 1%float;
  ao_source := Some (str "doc"); ao_paragraph := Some 3 |}.

Definition bark : AssocOp := {| ao_subject := str "dog"; ao_label := str "chases"; ao_object := str "ball"; ao_weight := 1%float;
  ao_source := Some (str "notes"); ao_paragraph := None |}.

Definition op_code (op : WalOp) : option N :=
  match op with
  | Associate a => Some (if decide (ao_subject a = str "cat") then 1 else 2)
  | AliasConcept _ canonical => Some (if decide (canonical = str "cat") then 3 else 4)
  | RetractSource _ => Some 5
  | _ => None
  end.

Definition op_of (n : N) : WalOp :=
  if n =? 1 then Associate chase else if n =? 2 then Associate bark
  else if n =? 3 then AliasConcept (str "kitty") (str "cat") else if n =? 4 then AliasConcept (str "kitty") (str "dog")
  else RetractSource (str "doc").

#[export] Instance entry_json : WalJson WalOp := {
  encode_record := fun seq op => n ← op_code op; Some (toy_encode seq n);
  parse_record := fun l => '(seq, n, crc) ← toy_parse l; Some (seq, op_of n, crc);
  parse_seq := fun l => '(seq, _, crc) ← toy_parse l; Some (seq, crc);
  parse_value := @parse_value N toy_json;
  op_fields := fun _ => Some (Some [str "op"]);
  reread := fun op => match op_code op with Some n => op_of n | None => op end
}.

#[export] Instance entry_laws : WalJsonLaws WalOp.
Proof.
  split.
  - intros seq op r (n & _ & Hr)%bind_Some. exact (@encode_object N toy_json toy_laws seq n r Hr).
  - intros seq op r _ Hr. cbn [encode_record entry_json] in Hr. apply bind_Some in Hr as (n & Hn & Hr).
    assert (Hr' : toy_encode seq n = r) by congruence. subst r. cbn [parse_record entry_json reread].
    rewrite toy_parse_seal, Hn. done.
  - intros l seq op crc Hl. cbn [parse_record parse_seq entry_json] in *. destruct (toy_parse l) as [[[s n] k]|]; [|done].
    cbn [mbind option_bind] in *. congruence.
  - intros seq op r l k (n & _ & Hr)%bind_Some Hlk Hk. destruct (@sealed_prefix N toy_json toy_laws seq n r l k Hr Hlk Hk) as [Hp Hv].
    split; [|exact Hv]. cbn [parse_record entry_json toy_json] in *. by rewrite Hp.
Qed.

(** ** A disk that works *)

Definition save_all : SaveIo := {| s_meta := {| at_stage := true; at_commit := commit_all |}; s_image := {| at_stage := true; at_commit := commit_all |} |}.
Definition load_all : LoadIo := {| l_quarantined := false; l_hydrated := true; l_schema := true; l_read := true;
  l_replay := {| r_read := true; r_truncate := truncate_all; r_heal := {| h_open := true; h_write := true; h_sync := true |} |}; l_stat := true |}.
Definition append_all : AppendIo := {| a_open := true; a_dir_sync := true; a_remove := true; a_dir_sync_again := true; a_remove_again := true;
  a_metadata := true; a_landed := None; a_sync := true; a_set_len := true |}.
Definition write_all : WriteIo := {| w_load := load_all; w_disk := 0; w_append := append_all; w_retry := truncate_all; w_trim := truncate_all; w_reappend := append_all |}.
Definition logged : WalConfig := {| wal_enabled := true; wal_max_bytes := 1000000; quota := None |}.

Definition s_blank : Entry := {| slot := Cold; wal_seq := 1; graph_revision := 0; wal_bytes := 0; load_failure := None; image_generation := 0;
    pinned := false; meta_floor := None; dirty := false; flushing := false; changes := ring_new 0; sidecar := 0; image := None; log := None |}.

Definition s_created : Entry := default s_blank (create_registered save_all false None 5).

Lemma s_created_eq : create_registered save_all false None 5 = Some s_created.
Proof. apply succeeds_default. vm_compute. reflexivity. Qed.

Definition write (ops : list WalOp) (s : Entry) : outcome (result (result N PartialWrite) AccessError) * bool * Entry :=
  @logged_write ascii_tables entry_json _ logged write_all ops (@apply_in_order ascii_tables ops) applied_count s.

Definition s_written : Entry := Eval cbv beta delta [write s_created s_blank] in (write [Associate chase] s_created).2.

Lemma s_written_eq : write [Associate chase] s_created = (Answered (Ok (Ok 1)), false, s_written).
Proof.
  unfold s_written. change ((write [Associate chase] s_created) = (Answered (Ok (Ok 1)), false, (write [Associate chase] s_created).2)).
  assert (Hr : (write [Associate chase] s_created).1 = (Answered (Ok (Ok 1)), false)) by (vm_compute; reflexivity).
  destruct (write [Associate chase] s_created) as [r s]. cbn [fst snd] in *. by rewrite Hr.
Qed.

(** A flush stages the write, a compaction overtakes it, and the stale publication
    follows. *)
Definition s_claimed : Entry := (@flush_claim s_written).2.
Definition s_overtaken : Entry := (@compact_locked ascii_tables entry_json load_all (fun _ => false) s_claimed).2.

Lemma s_claimed_eq : exists staged, @flush_claim s_written = (Some staged, s_claimed).
Proof.
  assert (Hc : bool_decide (is_Some (@flush_claim s_written).1) = true) by (vm_compute; reflexivity).
  unfold s_claimed. destruct (@flush_claim s_written) as [[staged|] s]; [by exists staged | by vm_compute in Hc].
Qed.

Definition answered {A E} (o : outcome (result A E)) : bool := match o with Answered (Ok _) => true | _ => false end.

Lemma s_overtaken_eq : exists stats, @compact_locked ascii_tables entry_json load_all (fun _ => false) s_claimed = (Answered (Ok stats), s_overtaken).
Proof.
  assert (Hc : answered (@compact_locked ascii_tables entry_json load_all (fun _ => false) s_claimed).1 = true) by (vm_compute; reflexivity).
  unfold s_overtaken. destruct (@compact_locked ascii_tables entry_json load_all (fun _ => false) s_claimed) as [[[stats|e]|] s]; [by exists stats | done..].
Qed.

Definition context_of (s : Entry) : Context := match slot s with Hot c => c | _ => Context_default end.

Lemma s_claimed_hot : slot s_claimed = Hot (context_of s_claimed).
Proof.
  assert (Hc : match slot s_claimed with Hot _ => true | _ => false end = true) by (vm_compute; reflexivity).
  unfold context_of. by destruct (slot s_claimed).
Qed.

Lemma s_claimed_room : name_bytes (context_of s_claimed) <= U32_MAX /\ index_room (context_of s_claimed) /\
  image_generation s_claimed < U64_MAX.
Proof.
  split; [apply N.leb_le; vm_compute; reflexivity|].
  split; [split; apply N.leb_le; vm_compute; reflexivity | apply N.ltb_lt; vm_compute; reflexivity].
Qed.

Lemma s_compact_step staged stats :
  @compact_locked ascii_tables entry_json load_all (fun _ => false) s_claimed = (Answered (Ok stats), s_overtaken) ->
  @step ascii_tables entry_json (s_claimed, Some staged, None) Compacted
    (s_overtaken, Some staged, Some (default (context_of s_claimed) None)).
Proof.
  destruct s_claimed_room as (Hb & Hr & Hg). intros Hc. exact (step_compact _ _ _ _ _ _ _ _ s_claimed_hot Hb Hr Hg Hc).
Qed.

Lemma s_claim_step staged : @flush_claim s_written = (Some staged, s_claimed) ->
  @step ascii_tables entry_json (s_written, None, None) Quiet (s_claimed, Some staged, None).
Proof.
  intros Hc. assert (Hroom : hot_is s_written index_room) by (vm_compute; split; discriminate).
  exact (step_claim _ _ _ _ _ Hroom Hc).
Qed.

(** A publication on a disk that works. *)
Lemma step_published s staged k : @step ascii_tables entry_json (s, Some staged, k) Quiet
  ((flush_publish publish_all staged s).2, None, if lands staged s (flush_publish publish_all staged s).2 then None else k).
Proof.
  eapply (step_publish publish_all); [by intros _|]. apply surjective_pairing.
Qed.

(** The property at that run, and a restart after it: no write is lost, and the stale
    publication changed nothing. *)
Lemma entry_durable_witness : exists staged stats k a s c,
  @flush_claim s_written = (Some staged, s_claimed) /\
  @compact_locked ascii_tables entry_json load_all (fun _ => false) s_claimed = (Answered (Ok stats), s_overtaken) /\
  @meanings ascii_tables [Wrote [Associate chase]; Quiet; Compacted; Quiet] Context_default a /\
  @ensure_hot ascii_tables entry_json load_all (reboot 9 (flush_publish publish_all staged s_overtaken).2) = Some (Ok tt, s) /\
  slot s = Hot c /\ facts c = facts (default a k).
Proof.
  destruct s_claimed_eq as [staged Hclaim]. destruct s_overtaken_eq as [stats Hcompact].
  pose proof (s_compact_step staged stats Hcompact) as Hstep.
  set (k2 := Some (default (context_of s_claimed) None)).
  set (s4 := (flush_publish publish_all staged s_overtaken).2).
  set (k := if lands staged s_overtaken s4 then None else k2).
  assert (Hsteps : @steps ascii_tables entry_json (s_created, None, None) [Wrote [Associate chase]; Quiet; Compacted; Quiet] (s4, None, k)).
  { apply (steps_snoc _ [Wrote [Associate chase]; Quiet; Compacted] (s_overtaken, Some staged, k2)).
    2: { exact (step_published s_overtaken staged k2). }
    apply (steps_snoc _ [Wrote [Associate chase]; Quiet] (s_claimed, Some staged, None)).
    2: { exact Hstep. }
    apply (steps_snoc _ [Wrote [Associate chase]] (s_written, None, None)).
    2: { exact (s_claim_step staged Hclaim). }
    apply (steps_snoc _ [] (s_created, None, None)); [constructor|].
    refine (@step_write ascii_tables entry_json _ logged write_all [Associate chase] (@apply_in_order ascii_tables [Associate chase])
      applied_count s_created None None (Ok (Ok 1)) s_written None _ eq_refl s_written_eq (None_Forall2 _)).
    split; [apply N.leb_le; vm_compute; reflexivity|]. split; [by repeat constructor|].
    change (@acts ascii_tables _ [Associate chase] (@apply_in_order ascii_tables [Associate chase]) applied_count (@set_dice_floor None Context_default)).
    apply apply_in_order_acts; [apply wf_set_dice_floor, (@wf_default ascii_tables)|]. split; [|by vm_compute].
    split; [apply valid_write_intro; vm_compute; reflexivity|].
    split; [split; apply N.leb_le; vm_compute; reflexivity | apply (@count_room_default ascii_tables)]. }
  destruct (@entry_durable ascii_tables entry_json entry_laws save_all false None 5 s_created _ _ _ _ s_created_eq Hsteps)
    as (a & Hm & _ & _ & Hload & _).
  destruct (Hload 9 load_all (conj eq_refl (conj eq_refl (conj eq_refl (conj (conj eq_refl (conj eq_refl eq_refl)) eq_refl)))))
    as (s & c & Hrun & Hc & _ & Hf).
  exists staged, stats, k, a, s, c. split; [exact Hclaim|]. split; [exact Hcompact|]. split; [exact Hm|]. split; [exact Hrun|].
  split; [exact Hc | exact Hf].
Defined.

(** ** A stale length

    A flush whose log truncation cut the file but could not sync it leaves
    [wal_bytes] at the old length.  A batch that is then refused half-way is cut
    at that stale length, in the middle of a record, and the acknowledged half is
    appended behind the fragment: every disk call from there on works, and the
    context no longer loads. *)

Definition publish_unsynced : PublishIo := {| p_meta := p_meta publish_all; p_commit := commit_all; p_allows := true;
  p_reset := {| t_open := true; t_metadata := true; t_set_len := true; t_sync := false |} |}.

Definition s_stale : Entry := (@flush_entry true publish_unsynced s_written).2.

Definition half : list WalOp := [Associate chase; AliasConcept (str "kitty") (str "dog")].

Definition answer_of (ops : list WalOp) (s : Entry) : option N :=
  match write ops s with (Answered (Ok (Err partial)), false, _) => Some (pw_applied partial) | _ => None end.

Definition reload_refused (s : Entry) : bool :=
  match @ensure_hot ascii_tables entry_json load_all (reboot 9 s) with Some (Err (ReplayRefused _), _) => true | _ => false end.

Example stale_length_loses_a_write :
  answer_of half s_stale = Some 1 /\ reload_refused (write half s_stale).2 = true /\
  reload_refused (write half s_written).2 = false.
Proof. split; [|split]; vm_compute; reflexivity. Qed.

(** The same with a length that could not be read at the load: it counts as zero,
    and the cut empties the log of the writes of before. *)
Definition loaded (io : LoadIo) (s : Entry) : Entry :=
  match @ensure_hot ascii_tables entry_json io (reboot 9 s) with Some (_, s) => s | None => s end.

Definition load_unstat : LoadIo := {| l_quarantined := false; l_hydrated := true; l_schema := true; l_read := true;
  l_replay := l_replay load_all; l_stat := false |}.

(** How often each fact of the context in memory is asserted. *)
Definition counts (s : Entry) : list N :=
  match slot s with Hot c => match @facts c with Some fs => f_count <$> fs | None => [] end | _ => [] end.

Example unread_length_loses_a_write :
  let s := (write half (loaded load_unstat s_written)).2 in counts s = [2] /\ counts (loaded load_all s) = [1].
Proof. split; vm_compute; reflexivity. Qed.

(** The flush a compaction overtook backs off and leaves the image as it was; the
    next one lands the compacted image, and nothing is lost. *)
Definition reloaded_counts (s : Entry) : option (list N) :=
  match @ensure_hot ascii_tables entry_json load_all (reboot 9 s) with Some (Ok _, s) => Some (counts s) | _ => None end.

Example overtaken_flush_backs_off :
  match @flush_claim s_written with
  | (Some staged, s) =>
    let '(landed, s') := flush_publish publish_all staged s_overtaken in
    landed = false /\ dirty s' = true /\ reloaded_counts s' = Some [1] /\
    let '(landed', s'') := @flush_entry true publish_all s' in landed' = true /\ reloaded_counts s'' = Some [1]
  | _ => False
  end.
Proof. vm_compute. repeat split. Qed.

(** ** Compaction and a crash

    A compaction drops the alias of a concept that no live fact mentions.  While
    its image is not on disk, the alias can be registered again for another
    concept and acknowledged; after a crash the old image still holds the old
    alias, and replay refuses the new one as a conflict. *)

Definition s_retracted : Entry :=
  let s := (write [Associate chase; AliasConcept (str "kitty") (str "cat"); Associate bark] s_created).2 in
  (@logged_write ascii_tables entry_json _ logged write_all [RetractSource (str "doc")] (retract_source (str "doc")) applied_some s).2.

Definition s_compacted : Entry := (@flush_entry false publish_all (@compact_locked ascii_tables entry_json load_all (fun _ => false) s_retracted).2).2.

Definition kitty (s : Entry) : option name :=
  match slot s with Hot c => i ← concept_ids c !! str "kitty"; @concept_name c i | _ => None end.

Example compaction_loses_an_alias :
  let '(answer, behind, s) := write [AliasConcept (str "kitty") (str "dog")] s_compacted in
  answer = Answered (Ok (Ok 1)) /\ behind = false /\ kitty s = Some (str "dog") /\ kitty (loaded load_all s) = Some (str "cat").
Proof. vm_compute. repeat split. Qed.
