(* ===== verification/Paragraph.v ===== *)
(** * Paragraphs ([src/paragraph.rs])

    The one function that decides where a passage's paragraphs are, and the grammar
    of lines it parses by: runs of lines that are not blank, told apart by blank
    ones.  Every byte outside a paragraph is white space. *)

From S2P Require Export EntryIndex Wal.

Local Open Scope N_scope.

(** ** Strings of the standard library *)

(** [char::is_whitespace]: the White_Space property. *)
Definition is_whitespace (c : char) : bool :=
  ((0x09 <=? c) && (c <=? 0x0D)) || (c =? 0x20) || (c =? 0x85) || (c =? 0xA0) || (c =? 0x1680) ||
  ((0x2000 <=? c) && (c <=? 0x200A)) || (c =? 0x2028) || (c =? 0x2029) || (c =? 0x202F) || (c =? 0x205F) || (c =? 0x3000).

(** [str::split_inclusive] at one byte. *)
Fixpoint split_inclusive (b : byte) (text : bytes) : list bytes :=
  match text with
  | [] => []
  | b' :: text =>
    if decide (b' = b) then [b'] :: split_inclusive b text
    else match split_inclusive b text with
         | [] => [[b']]
         | line :: lines => (b' :: line) :: lines
         end
  end.

(** [s.strip_suffix(b).unwrap_or(s)]. *)
Definition strip_suffix (b : byte) (s : bytes) : bytes :=
  if decide (last s = Some b) then removelast s else s.

(** [is_char_boundary], and [&text[start..end]]: [None] is its panic. *)
Definition is_char_boundary (text : bytes) (i : N) : bool :=
  (i =? lenN text) || match tget text i with Some b => negb (cont b) | None => false end.

Definition str_slice (text : bytes) (start fin : N) : option bytes :=
  if (start <=? fin) && is_char_boundary text start && is_char_boundary text fin then Some (slice text start fin) else None.

Definition as_u32 (n : N) : N := n mod (U32_MAX + 1).

(** ** The splitter *)

Record ParagraphSpan := { pg_index : N; pg_start : N; pg_end : N; pg_hash : N }.

Definition carriage_return : byte := Byte.x0d.

(** A line without its line break. *)
Definition line_content (line : bytes) : bytes := strip_suffix carriage_return (strip_suffix newline line).

Definition blank (line : bytes) : bool := forallb is_whitespace (chars (line_content line)).

Definition flush (text : bytes) (spans : list ParagraphSpan) (run : option (N * N)) : option (list ParagraphSpan) :=
  match run with
  | None => Some spans
  | Some (start, fin) =>
    bs ← str_slice text start fin;
    Some (spans ++ [{| pg_index := as_u32 (lenN spans); pg_start := start; pg_end := fin; pg_hash := fnv1a bs |}])
  end.

Fixpoint split_lines_loop (text : bytes) (lines : list bytes) (spans : list ParagraphSpan) (run : option (N * N)) (offset : N)
    : option (list ParagraphSpan) :=
  match lines with
  | [] => flush text spans run
  | line :: lines =>
    let line_start := offset in
    let offset := offset + lenN line in
    if blank line then
      spans ← flush text spans run; split_lines_loop text lines spans None offset
    else
      let fin := as_u32 (line_start + lenN (line_content line)) in
      let run := match run with Some (start, _) => Some (start, fin) | None => Some (as_u32 line_start, fin) end in
      split_lines_loop text lines spans run offset
  end.

(** The assertion of [split] is the first [None]. *)
Definition split (text : bytes) : option (list ParagraphSpan) :=
  if U32_MAX <? lenN text then None else split_lines_loop text (split_inclusive newline text) [] None 0.

Definition sample_text : bytes := newline :: str "a" ++ newline :: str "b" ++ [newline; newline; Byte.x20; Byte.x09; Byte.x20; newline] ++
  str "c" ++ [carriage_return; newline].

Example split_sample : option_map (map (fun s => (pg_index s, slice sample_text (pg_start s) (pg_end s)))) (split sample_text) =
  Some [(0, str "a" ++ newline :: str "b"); (1, str "c")].
Proof. vm_compute. reflexivity. Qed.

(** ** UTF-8 in pieces *)

Lemma cont_high b : cont b = true -> 0x80 <= Byte.to_N b.
Proof.
  destruct b; vm_compute; intros; try discriminate; intros ?; discriminate.
Qed.

Ltac decode_cases :=
  repeat match goal with
  | H : context [if ?c then _ else _] |- _ => destruct c eqn:?; try discriminate H
  | H : context [match ?r with [] => _ | _ :: _ => _ end] |- _ => destruct r; try discriminate H
  end.

Lemma decode_app a : forall b cs, utf8_decode a = Some cs -> utf8_decode (a ++ b) = (fun ds => cs ++ ds) <$> utf8_decode b.
Proof.
  remember (length a) as n eqn:Hn. assert (Hle : (length a <= n)%nat) by lia. clear Hn. revert a Hle.
  induction n as [|n IH]; intros [|b0 r0] Hle b cs Hd; cbn [length] in Hle; try lia;
    try (injection Hd as <-; cbn [app]; by destruct (utf8_decode b)).
  cbn [utf8_decode app] in Hd |- *. decode_cases; apply fmap_Some in Hd as (ds & Hd & ->); cbn [length] in Hle;
    cbn [app]; repeat match goal with H : ?c = true |- context [?c] => rewrite H end; 
    match type of Hd with utf8_decode ?r = _ => rewrite (IH r ltac:(lia) b ds Hd) end;
    by destruct (utf8_decode b).
Qed.

(** A cut at an ASCII byte separates whole characters. *)
Lemma decode_cut a : forall b r cs, Byte.to_N b < 0x80 -> utf8_decode (a ++ b :: r) = Some cs ->
  is_Some (utf8_decode a) /\ is_Some (utf8_decode (b :: r)).
Proof.
  remember (length a) as n eqn:Hn. assert (Hle : (length a <= n)%nat) by lia. clear Hn. revert a Hle.
  induction n as [|n IH]; intros [|b0 r0] Hle b r cs Hb Hd; cbn [length] in Hle; try lia;
    try (cbn [app] in Hd; split; [by eexists | by eexists]).
  assert (Hc : cont b = false) by (destruct (cont b) eqn:E; [apply cont_high in E; lia | done]).
  cbn [utf8_decode app] in Hd |- *.
  destruct (Byte.to_N b0 <? 128).
  { apply fmap_Some in Hd as (ds & Hd & _). destruct (IH r0 ltac:(lia) b r ds Hb Hd) as [[es ->] ?]. by split; [eexists|]. }
  destruct ((194 <=? Byte.to_N b0) && (Byte.to_N b0 <=? 223)).
  { destruct r0 as [|b1 r1]; cbn [app] in Hd; [by rewrite Hc in Hd|]. destruct (cont b1); [|done].
    apply fmap_Some in Hd as (ds & Hd & _). cbn [length] in Hle. destruct (IH r1 ltac:(lia) b r ds Hb Hd) as [[es ->] ?]. by split; [eexists|]. }
  destruct ((224 <=? Byte.to_N b0) && (Byte.to_N b0 <=? 239)).
  { destruct r0 as [|b1 [|b2 r2]]; cbn [app] in Hd.
    - destruct r as [|? ?]; [done|]. rewrite Hc in Hd. done.
    - rewrite Hc, andb_false_r in Hd. done.
    - destruct (_ && _); [|done]. apply fmap_Some in Hd as (ds & Hd & _). cbn [length] in Hle.
      destruct (IH r2 ltac:(lia) b r ds Hb Hd) as [[es ->] ?]. by split; [eexists|]. }
  destruct ((240 <=? Byte.to_N b0) && (Byte.to_N b0 <=? 244)); [|done].
  destruct r0 as [|b1 [|b2 [|b3 r3]]]; cbn [app] in Hd.
  - destruct r as [|? [|? ?]]; [done|done|]. rewrite Hc in Hd. done.
  - destruct r as [|? ?]; [done|]. rewrite Hc, andb_false_r in Hd. done.
  - rewrite Hc, andb_false_r in Hd. done.
  - destruct (_ && _); [|done]. apply fmap_Some in Hd as (ds & Hd & _). cbn [length] in Hle.
    destruct (IH r3 ltac:(lia) b r ds Hb Hd) as [[es ->] ?]. by split; [eexists|].
Qed.

Lemma utf8_valid_Some s : utf8_valid s = true <-> is_Some (utf8_decode s).
Proof. unfold utf8_valid. apply bool_decide_eq_true. Qed.

Lemma valid_app a b : utf8_valid a = true -> utf8_valid b = true -> utf8_valid (a ++ b) = true /\ chars (a ++ b) = chars a ++ chars b.
Proof.
  rewrite !utf8_valid_Some. intros [cs Ha] [ds Hb]. unfold chars. rewrite (decode_app a b cs Ha), Ha, Hb. by split; [eexists|].
Qed.

(** A valid string starts with no continuation byte. *)
Lemma valid_head b s : utf8_valid (b :: s) = true -> cont b = false.
Proof.
  rewrite utf8_valid_Some. intros [cs Hd]. destruct (cont b) eqn:E; [|done]. apply cont_high in E as Hh.
  assert (Hl : Byte.to_N b < 192) by (destruct b; vm_compute in E |- *; done).
  cbn [utf8_decode] in Hd. rewrite (proj2 (N.ltb_ge _ _)) in Hd by lia. repeat (rewrite (proj2 (N.leb_gt _ _)) in Hd by lia; cbn [andb] in Hd). done.
Qed.

(** ** Lines *)

Lemma split_inclusive_cases b text : 
  (text = [] /\ split_inclusive b text = []) \/
  (text <> [] /\ b ∉ text /\ split_inclusive b text = [text]) \/
  exists l r, text = l ++ b :: r /\ b ∉ l /\ split_inclusive b text = (l ++ [b]) :: split_inclusive b r.
Proof.
  induction text as [|b' text IH]; [by left|]. right. cbn [split_inclusive]. destruct (decide (b' = b)) as [->|Hne].
  - right. exists [], text. split; [done|]. split; [set_solver | done].
  - destruct IH as [[-> ->]|[(Ht & Hb & ->)|(l & r & -> & Hl & ->)]].
    + left. split; [done|]. split; [set_solver | done].
    + left. split; [done|]. split; [set_solver | done].
    + right. exists (b' :: l), r. split; [done|]. split; [set_solver | done].
Qed.

Lemma split_inclusive_join b text : mjoin (split_inclusive b text) = text.
Proof.
  induction text as [|b' text IH]; [done|]. cbn [split_inclusive]. destruct (decide (b' = b)) as [->|].
  - cbn. f_equal. exact IH.
  - rewrite <- IH at 2. by destruct (split_inclusive b text).
Qed.

Lemma ascii_valid b : Byte.to_N b < 0x80 -> utf8_valid [b] = true.
Proof. intros Hb. apply utf8_valid_Some. cbn [utf8_decode]. rewrite (proj2 (N.ltb_lt _ _)) by done. by eexists. Qed.

Lemma valid_cut a b r : Byte.to_N b < 0x80 -> utf8_valid (a ++ b :: r) = true -> utf8_valid a = true /\ utf8_valid r = true.
Proof.
  rewrite !utf8_valid_Some. intros Hb [cs Hd]. destruct (decode_cut a b r cs Hb Hd) as [Ha [ds Hr]]. split; [done|].
  cbn [utf8_decode] in Hr. rewrite (proj2 (N.ltb_lt _ _)) in Hr by done. apply fmap_Some in Hr as (es & -> & _). by eexists.
Qed.

Lemma split_inclusive_valid text : utf8_valid text = true -> Forall (fun l => utf8_valid l = true) (split_inclusive newline text).
Proof.
  remember (length text) as n eqn:Hn. revert text Hn. induction n as [n IH] using lt_wf_ind. intros text -> Hv.
  destruct (split_inclusive_cases newline text) as [[-> ->]|[(_ & _ & ->)|(l & r & -> & _ & ->)]]; [constructor | by repeat constructor |].
  apply valid_cut in Hv as [Hl Hr]; [|done]. constructor.
  - apply valid_app; [done | by apply ascii_valid].
  - eapply IH; [|done|done]. rewrite length_app. cbn [length]. lia.
Qed.

Lemma strip_suffix_eq b s : strip_suffix b s = s \/ s = strip_suffix b s ++ [b].
Proof.
  unfold strip_suffix. destruct (decide (last s = Some b)) as [Hl|]; [|by left]. right.
  destruct s as [|x s] using rev_ind; [done|]. rewrite last_snoc in Hl. injection Hl as ->. by rewrite removelast_last.
Qed.

(** White space only, as the splitter sees it. *)
Definition white (s : bytes) : Prop := utf8_valid s = true /\ forallb is_whitespace (chars s) = true.

Lemma white_nil : white [].
Proof. done. Qed.

Lemma white_app a b : white a -> white b -> white (a ++ b).
Proof.
  intros [Ha Ha'] [Hb Hb']. destruct (valid_app a b Ha Hb) as [Hv Hc]. split; [done|]. by rewrite Hc, forallb_app, Ha', Hb'.
Qed.

(** A line is its content and a break of white space. *)
Lemma line_break line : utf8_valid line = true -> exists eol, line = line_content line ++ eol /\ white eol /\ utf8_valid (line_content line) = true.
Proof.
  assert (Hs : forall b s, Byte.to_N b < 0x80 -> is_whitespace (Byte.to_N b) = true -> utf8_valid s = true ->
    exists e, s = strip_suffix b s ++ e /\ white e /\ utf8_valid (strip_suffix b s) = true).
  { intros b s Hb Hw Hv. destruct (strip_suffix_eq b s) as [Heq|Heq].
    - rewrite Heq. exists []. split; [by rewrite app_nil_r|]. by split.
    - rewrite Heq in Hv. apply valid_cut in Hv as [Hv _]; [|done]. exists [b]. split; [done|]. split; [|done].
      split; [by apply ascii_valid|]. unfold chars. cbn [utf8_decode]. rewrite (proj2 (N.ltb_lt _ _)) by done. cbn. by rewrite Hw. }
  intros Hv. unfold line_content. destruct (Hs newline line) as (e1 & He1 & Hw1 & Hv1); [done|done|done|].
  destruct (Hs carriage_return (strip_suffix newline line)) as (e2 & He2 & Hw2 & Hv2); [done|done|done|].
  exists (e2 ++ e1). split; [rewrite app_assoc, <- He2; done|]. split; [by apply white_app | done].
Qed.

Lemma blank_white line : utf8_valid line = true -> blank line = true -> white line.
Proof. intros Hv Hb. destruct (line_break line Hv) as (eol & Heq & Hw & Hc). rewrite Heq. by apply white_app. Qed.

Lemma nonblank_content line : blank line = false -> line_content line <> [].
Proof. unfold blank. intros Hb Heq. by rewrite Heq in Hb. Qed.

Lemma boundary_app a b : utf8_valid b = true -> is_char_boundary (a ++ b) (lenN a) = true.
Proof.
  intros Hv. unfold is_char_boundary. destruct b as [|x b].
  - rewrite app_nil_r. by rewrite N.eqb_refl.
  - rewrite tget_lookup. unfold lenN. rewrite Nat2N.id, list_lookup_middle by done. by rewrite (valid_head _ _ Hv), orb_true_r.
Qed.

Lemma slice_pieces (xs ys zs : bytes) : slice (xs ++ ys ++ zs) (lenN xs) (lenN xs + lenN ys) = ys.
Proof.
  unfold slice. rewrite (proj2 (N.leb_le _ _)) by lia. rewrite (proj2 (N.leb_le _ _)) by (rewrite !lenN_app; lia). cbn [andb].
  replace (N.to_nat (lenN xs)) with (length xs) by (unfold lenN; lia). rewrite drop_app_length.
  apply take_app_length'. unfold lenN. lia.
Qed.

(** Slicing between whole characters does not panic. *)
Lemma str_slice_pieces a m b : utf8_valid m = true -> utf8_valid b = true -> str_slice (a ++ m ++ b) (lenN a) (lenN a + lenN m) = Some m.
Proof.
  intros Hm Hb. unfold str_slice. rewrite (proj2 (N.leb_le _ _)) by lia.
  rewrite boundary_app by (by apply valid_app). rewrite <- lenN_app, app_assoc, boundary_app by done. cbn [andb].
  rewrite <- app_assoc, lenN_app. by rewrite slice_pieces.
Qed.

(** ** The grammar *)

(** A run of lines without its last line break. *)
Definition body (run : list bytes) : bytes := mjoin (removelast run) ++ line_content (List.last run []).

Definition ends_blank (rest : list bytes) : Prop := match rest with [] => True | line :: _ => blank line = true end.

(** From byte [off] and paragraph [i] on, these lines hold these paragraphs. *)
Inductive laid : N -> N -> list bytes -> list ParagraphSpan -> Prop :=
  | laid_end off i blanks : Forall (fun l => blank l = true) blanks -> laid off i blanks []
  | laid_run off i blanks run rest start spans :
      Forall (fun l => blank l = true) blanks -> run <> [] -> Forall (fun l => blank l = false) run -> ends_blank rest ->
      start = off + lenN (mjoin blanks) -> laid (start + lenN (mjoin run)) (i + 1) rest spans ->
      laid off i (blanks ++ run ++ rest)
        ({| pg_index := i; pg_start := start; pg_end := start + lenN (body run); pg_hash := fnv1a (body run) |} :: spans).

Lemma join_cons (line : bytes) lines : mjoin (line :: lines) = line ++ mjoin lines.
Proof. done. Qed.

Lemma laid_blank off i line lines spans : blank line = true -> laid (off + lenN line) i lines spans -> laid off i (line :: lines) spans.
Proof.
  intros Hb. inversion 1 as [? ? ? Hbs|? ? blanks run rest start ? Hbs Hne Hrun Hrest Hstart Hl]; subst.
  - constructor. by constructor.
  - apply (laid_run off i (line :: blanks) run rest); try done; [by constructor|]. rewrite join_cons, lenN_app. lia.
Qed.

Lemma body_snoc run line : body (run ++ [line]) = mjoin run ++ line_content line.
Proof. unfold body. by rewrite removelast_last, last_last. Qed.

Lemma join_snoc (run : list bytes) line : mjoin (run ++ [line]) = mjoin run ++ line.
Proof. rewrite join_app, join_cons. by rewrite app_nil_r. Qed.

Lemma body_pieces run : run <> [] -> Forall (fun l => utf8_valid l = true) run -> utf8_valid (mjoin run) = true ->
  exists eol, mjoin run = body run ++ eol /\ utf8_valid (body run) = true /\ white eol.
Proof.
  intros Hne Hv Hj. destruct (exists_last Hne) as (front & line & ->). rewrite body_snoc, join_snoc in *.
  apply Forall_app in Hv as [Hf [Hl _]%Forall_cons]. destruct (line_break line Hl) as (eol & Heq & Hw & Hc). exists eol.
  split; [rewrite <- app_assoc; congruence|]. split; [|done]. apply valid_app; [|done]. clear -Hf.
  induction Hf as [|x front Hx _ IH]; [done|]. by apply (valid_app x (mjoin front)).
Qed.

Lemma join_valid (ls : list bytes) : Forall (fun l => utf8_valid l = true) ls -> utf8_valid (mjoin ls) = true.
Proof. induction 1 as [|x front Hx _ IH]; [done|]. by apply (valid_app x (mjoin front)). Qed.

Section loop.
Context (text : bytes) (Hfits : lenN text <= U32_MAX).

Lemma as_u32_le n : n <= lenN text -> as_u32 n = n.
Proof using Hfits. intros. unfold as_u32. apply N.mod_small. lia. Qed.

Lemma flush_run pre run rest spans : text = pre ++ mjoin run ++ rest -> run <> [] -> Forall (fun l => utf8_valid l = true) run ->
  utf8_valid rest = true -> lenN spans <= lenN pre ->
  flush text spans (Some (lenN pre, lenN pre + lenN (body run))) =
    Some (spans ++ [{| pg_index := lenN spans; pg_start := lenN pre; pg_end := lenN pre + lenN (body run); pg_hash := fnv1a (body run) |}]).
Proof using Hfits.
  intros Ht Hne Hv Hr Hs. destruct (body_pieces run Hne Hv (join_valid _ Hv)) as (eol & He & Hb & [Hw _]). cbn [flush].
  assert (Hsl : str_slice text (lenN pre) (lenN pre + lenN (body run)) = Some (body run)).
  { rewrite Ht, He, <- app_assoc. apply str_slice_pieces; [done | by apply valid_app]. }
  rewrite Hsl. cbn [mbind option_bind]. rewrite as_u32_le; [done|]. rewrite Ht, lenN_app. lia.
Qed.

(** The loop parses by the grammar, between runs and inside one. *)
Lemma loop_laid lines : Forall (fun l => utf8_valid l = true) lines -> forall spans pre,
  (text = pre ++ mjoin lines -> lenN spans <= lenN pre ->
    exists new, split_lines_loop text lines spans None (lenN pre) = Some (spans ++ new) /\ laid (lenN pre) (lenN spans) lines new) /\
  (forall run, text = pre ++ mjoin run ++ mjoin lines -> lenN spans <= lenN pre -> run <> [] ->
    Forall (fun l => utf8_valid l = true) run -> Forall (fun l => blank l = false) run ->
    exists new, split_lines_loop text lines spans (Some (lenN pre, lenN pre + lenN (body run))) (lenN pre + lenN (mjoin run)) = Some (spans ++ new) /\
      laid (lenN pre) (lenN spans) (run ++ lines) new).
Proof using Hfits.
  induction 1 as [|line lines Hv Hvs IH]; intros spans pre; split.
  - intros Ht Hs. exists []. cbn [split_lines_loop flush]. split; [by rewrite app_nil_r|]. by constructor.
  - intros run Ht Hs Hne Hrv Hrb. eexists. cbn [split_lines_loop]. split; [by eapply flush_run|].
    apply (laid_run _ _ [] run []); try done; [symmetry; apply N.add_0_r | by constructor].
  - intros Ht Hs. rewrite join_cons in Ht. cbn [split_lines_loop]. destruct (blank line) eqn:Hb.
    + cbn [flush mbind option_bind]. destruct (proj1 (IH spans (pre ++ line))) as (new & Hr & Hl); [by rewrite <- app_assoc | rewrite lenN_app; lia|].
      rewrite lenN_app in Hr, Hl. exists new. split; [done|]. by apply laid_blank.
    + destruct (proj2 (IH spans pre) [line]) as (new & Hr & Hl); [by cbn; rewrite app_nil_r | done | done | by constructor | by constructor|].
      exists new. split; [|done]. cbn [body removelast List.last mjoin list_join app] in Hr. rewrite app_nil_r in Hr.
      destruct (line_break line Hv) as (eol & He & _). assert (lenN line = lenN (line_content line) + lenN eol) by (rewrite He at 1; apply lenN_app).
      assert (lenN text = lenN pre + (lenN line + lenN (mjoin lines))) by (rewrite Ht, !lenN_app; done).
      rewrite !as_u32_le by lia. exact Hr.
  - intros run Ht Hs Hne Hrv Hrb. rewrite join_cons in Ht. cbn [split_lines_loop].
    assert (Hlen : lenN text = lenN pre + (lenN (mjoin run) + (lenN line + lenN (mjoin lines)))) by (rewrite Ht, !lenN_app; done).
    destruct (blank line) eqn:Hb.
    + rewrite (flush_run pre run (line ++ mjoin lines)); try done; [|by apply valid_app; [|apply join_valid]]. cbn [mbind option_bind].
      set (s := {| pg_index := lenN spans; pg_start := _; pg_end := _; pg_hash := _ |}).
      destruct (proj1 (IH (spans ++ [s]) (pre ++ mjoin run ++ line))) as (new & Hr & Hl).
      { rewrite Ht, <- !app_assoc. done. }
      { rewrite lenN_snoc, !lenN_app. destruct run as [|l0 run]; [done|]. apply Forall_cons in Hrb as [Hl0 _].
        pose proof (nonblank_content _ Hl0) as Hc. apply Forall_cons in Hrv as [Hv0 _]. destruct (line_break l0 Hv0) as (eol & He & _).
        assert (1 <= lenN (mjoin (l0 :: run))); [|lia]. rewrite join_cons, lenN_app, He, lenN_app.
        destruct (line_content l0); [done|]. unfold lenN. cbn [length]. lia. }
      rewrite !lenN_app in Hr, Hl. rewrite <- app_assoc in Hr. exists (s :: new). rewrite <- N.add_assoc. split; [exact Hr|].
      apply (laid_run _ _ [] run (line :: lines)); try done; [symmetry; apply N.add_0_r|]. apply laid_blank; [done|]. rewrite <- N.add_assoc, <- (lenN_snoc spans s). exact Hl.
    + destruct (proj2 (IH spans pre) (run ++ [line])) as (new & Hr & Hl);
        [by rewrite join_snoc, <- app_assoc | done | by destruct run | by apply Forall_app; repeat constructor | by apply Forall_app; repeat constructor |].
      rewrite <- app_assoc in Hl. exists new. split; [|exact Hl]. rewrite body_snoc, join_snoc, !lenN_app in Hr.
      destruct (line_break line Hv) as (eol & He & _). assert (lenN line = lenN (line_content line) + lenN eol) by (rewrite He at 1; apply lenN_app).
      rewrite as_u32_le by lia. rewrite <- !N.add_assoc in *. exact Hr.
Qed.
End loop.

(** ** What the splitter promises *)

(** The bytes between the paragraphs, from [pos] on. *)
Fixpoint gaps (text : bytes) (pos : N) (spans : list ParagraphSpan) : list bytes :=
  match spans with
  | [] => [slice text pos (lenN text)]
  | s :: spans => slice text pos (pg_start s) :: gaps text (pg_end s) spans
  end.

(** A span names the bytes of a run of lines that are not blank. *)
Definition names_run (text : bytes) (s : ParagraphSpan) : Prop :=
  pg_start s < pg_end s <= lenN text /\
  exists run, run <> [] /\ Forall (fun l => blank l = false) run /\
    str_slice text (pg_start s) (pg_end s) = Some (body run) /\ pg_hash s = fnv1a (body run).

Lemma join_white (ls : list bytes) : Forall white ls -> white (mjoin ls).
Proof. induction 1 as [|x front Hx _ IH]; [done|]. rewrite join_cons. by apply white_app. Qed.

Lemma blanks_white (ls : list bytes) : Forall (fun l => utf8_valid l = true) ls -> Forall (fun l => blank l = true) ls -> white (mjoin ls).
Proof.
  intros Hv Hb. apply join_white. rewrite Forall_forall in Hv, Hb |- *. intros l Hl. apply blank_white; auto.
Qed.

Lemma laid_covers text off i lines spans : laid off i lines spans -> forall pre eol,
  Forall (fun l => utf8_valid l = true) lines -> text = pre ++ eol ++ mjoin lines -> off = lenN pre + lenN eol -> white eol ->
  Forall (names_run text) spans /\ Forall white (gaps text (lenN pre) spans) /\
  pg_index <$> spans = (fun k => i + k) <$> indices spans.
Proof.
  induction 1 as [off i blanks Hb|off i blanks run rest start spans Hb Hne Hr Hrest -> Hl IH]; intros pre eol Hv Ht Ho He.
  - split; [constructor|]. split; [|done]. constructor; [|constructor].
    assert (Hw : white (eol ++ mjoin blanks)) by (apply white_app; [done | by apply blanks_white]).
    pose proof (slice_pieces pre (eol ++ mjoin blanks) []) as Hsl. rewrite app_nil_r, <- Ht, <- lenN_app, <- Ht in Hsl. by rewrite Hsl.
  - rewrite !Forall_app in Hv. destruct Hv as (Hbv & Hrv & Hsv). rewrite !join_app in Ht.
    destruct (body_pieces run Hne Hrv (join_valid _ Hrv)) as (eol' & Hbody & Hvb & Hw').
    set (lead := eol ++ mjoin blanks). assert (Hlead : white lead) by (apply white_app; [done | by apply blanks_white]).
    assert (Hll : off + lenN (mjoin blanks) = lenN (pre ++ lead)) by (unfold lead; rewrite !lenN_app; lia).
    assert (Ht' : text = (pre ++ lead) ++ body run ++ eol' ++ mjoin rest) by (rewrite Ht, Hbody; unfold lead; by rewrite <- !app_assoc).
    destruct (IH ((pre ++ lead) ++ body run) eol') as (IH1 & IH2 & IH3); [done | by rewrite Ht', <- !app_assoc | | done |].
    { rewrite Hll, Hbody, !lenN_app. lia. }
    split; [|split].
    + constructor; [|done]. unfold names_run. cbn [pg_start pg_end pg_hash]. split.
      * rewrite Hll, Ht', !lenN_app. split; [|lia]. assert (1 <= lenN (body run)); [|lia].
        destruct (exists_last Hne) as (front & line & ->). rewrite body_snoc, lenN_app.
        apply Forall_app in Hr as [_ [Hline _]%Forall_cons]. pose proof (nonblank_content _ Hline).
        destruct (line_content line); [done|]. unfold lenN. cbn [length]. lia.
      * exists run. do 2 (split; [done|]). split; [|done]. rewrite Hll, Ht'. apply str_slice_pieces; [done|].
        apply valid_app; [by destruct Hw' | by apply join_valid].
    + cbn [gaps pg_start pg_end]. constructor.
      * rewrite Hll, lenN_app. rewrite Ht', <- app_assoc. by rewrite slice_pieces.
      * rewrite Hll, <- lenN_app. exact IH2.
    + rewrite fmap_cons. cbn [pg_index]. rewrite IH3. unfold indices. cbn [length seq]. rewrite !fmap_cons, <- fmap_S_seq, <- !list_fmap_compose.
      f_equal; [symmetry; apply N.add_0_r|]. apply list_fmap_ext. intros ? k _. cbn [compose]. lia.
Qed.

Lemma split_total text : lenN text <= U32_MAX -> utf8_valid text = true ->
  exists spans, split text = Some spans /\ laid 0 0 (split_inclusive newline text) spans.
Proof.
  intros Hfits Hv. unfold split. rewrite (proj2 (N.ltb_ge _ _)) by done.
  destruct (proj1 (loop_laid text Hfits _ (split_inclusive_valid text Hv) [] [])) as (spans & Hr & Hl); [by rewrite split_inclusive_join | done |].
  by exists spans.
Qed.

(** C40. Splitting a passage loses nothing but white space.  For every valid text
    whose offsets fit, the splitter returns without a panic, and the text is laid
    out by the grammar of lines its spans name: runs of lines that are not blank,
    told apart by blank lines.  The spans are numbered from zero, each is a non-empty
    slice between whole characters with the hash of exactly its bytes, and the bytes
    before, between and after them, in order, are white space. *)
Theorem paragraphs_tile text (Hfits : lenN text <= U32_MAX) (Hvalid : utf8_valid text = true) :
  exists spans, split text = Some spans /\ laid 0 0 (split_inclusive newline text) spans /\
    pg_index <$> spans = indices spans /\ Forall (names_run text) spans /\ Forall white (gaps text 0 spans).
Proof.
  destruct (split_total text Hfits Hvalid) as (spans & Hs & Hl). exists spans. do 2 (split; [done|]).
  destruct (laid_covers text 0 0 _ spans Hl [] []) as (Hn & Hg & Hi);
    [by apply split_inclusive_valid | by rewrite split_inclusive_join | done | done |].
  split; [|done]. rewrite Hi. rewrite <- (list_fmap_id (indices spans)) at 2. by apply list_fmap_ext.
Qed.

Lemma paragraphs_tile_witness : exists spans, split sample_text = Some spans /\ length spans = 2%nat /\ Forall white (gaps sample_text 0 spans).
Proof.
  destruct (paragraphs_tile sample_text) as (spans & Hs & _ & _ & _ & Hg).
  - apply N.leb_le. vm_compute. reflexivity.
  - vm_compute. reflexivity.
  - exists spans. split; [exact Hs|]. split; [|exact Hg].
    assert (Hl : length <$> split sample_text = Some 2%nat) by (vm_compute; reflexivity). rewrite Hs in Hl. cbn in Hl. congruence.
Defined.
