(* ===== verification/Passages.v ===== *)
(** * The passage store ([src/passages.rs])

    One context's original texts: the resident records, the snapshot codec and the
    store with its log.  A disk call takes its outcome from an [Io] record; every
    mutator holds the writer's lock from its check to its compaction, so each is
    one step.  [None] is a panic, which only [split] can raise. *)

From S2P Require Export WalClaims Paragraph.

Local Open Scope N_scope.

(** ** Data *)

Record Locator := { lo_kind : name; lo_value : name }.

Record SourceMeta := { stored_at : option N; date : option N; tags : list name }.
Definition SourceMeta_default : SourceMeta := {| stored_at := None; date := None; tags := [] |}.

Record PassageSubmission := {
  ps_text : name;
  ps_questions : list (N * name); ps_sections : list (N * name); ps_locators : list (N * Locator);
  ps_meta : SourceMeta
}.

Record DropCounts := { dc_questions : N; dc_sections : N; dc_locators : N }.

Record PassageRecord := {
  pr_text : name;
  pr_paragraphs : list ParagraphSpan;
  pr_questions : list (N * name); pr_sections : list (N * name); pr_locators : list (N * Locator);
  pr_meta : SourceMeta
}.

Inductive PassageOp :=
  | Store (source text : name) (questions sections : list (N * name)) (locators : list (N * Locator))
      (stored_at date : option N) (tags : list name)
  | Retract (source : name).

Record SourceFilter := { sf_tags : list name; since : option N; until : option N }.

(** ** Markers *)

(** [sort_by_key] is a stable sort. *)
Fixpoint insert_by {A} (key : A -> N) (x : A) (l : list A) : list A :=
  match l with
  | [] => [x]
  | y :: l => if key x <=? key y then x :: y :: l else y :: insert_by key x l
  end.
Definition sort_by_key {A} (key : A -> N) (l : list A) : list A := foldr (insert_by key) [] l.

(** [dedup]: drops consecutive repetitions. *)
Fixpoint dedup_eq {A} `{EqDecision A} (l : list A) : list A :=
  match l with
  | [] => []
  | x :: l => match dedup_eq l with
              | y :: r => if decide (x = y) then y :: r else x :: y :: r
              | [] => [x]
              end
  end.

(** The filter of [filter_markers], with the set its closure captures. *)
Fixpoint first_seen {T} (paragraph_count : N) (seen : gset N) (markers : list (N * T)) : list (N * T) :=
  match markers with
  | [] => []
  | (paragraph, x) :: markers =>
    if (paragraph <? paragraph_count) && negb (bool_decide (paragraph ∈ seen))
    then (paragraph, x) :: first_seen paragraph_count ({[paragraph]} ∪ seen) markers
    else first_seen paragraph_count seen markers
  end.

Definition filter_markers {T} (markers : list (N * T)) (paragraph_count : N) : list (N * T) * N :=
  let kept := sort_by_key fst (first_seen paragraph_count ∅ (rev markers)) in
  (kept, lenN markers - lenN kept).

Definition preview_drops (paragraph_count : N) (questions sections : list (N * name)) (locators : list (N * Locator)) : N * N * N :=
  (lenN (filter (fun q => paragraph_count <= q.1) questions),
   (filter_markers sections paragraph_count).2, (filter_markers locators paragraph_count).2).

(** ** Records *)

(** [PassageRecord::new]. *)
Definition PassageRecord_new (text : name) (questions sections : list (N * name)) (locators : list (N * Locator)) (meta : SourceMeta)
    : option (PassageRecord * DropCounts) :=
  paragraphs ← split text;
  let kept := sort_by_key fst (filter (fun q => q.1 < lenN paragraphs) questions) in
  let '(sections, sections_dropped) := filter_markers sections (lenN paragraphs) in
  let '(locators, locators_dropped) := filter_markers locators (lenN paragraphs) in
  Some ({| pr_text := text; pr_paragraphs := paragraphs; pr_questions := kept; pr_sections := sections; pr_locators := locators;
           pr_meta := {| stored_at := stored_at meta; date := date meta; tags := dedup_eq (merge_sort name_le (tags meta)) |} |},
        {| dc_questions := lenN questions - lenN kept; dc_sections := sections_dropped; dc_locators := locators_dropped |}).

Definition paragraph_texts (r : PassageRecord) : list (ParagraphSpan * bytes) :=
  (fun s => (s, slice (pr_text r) (pg_start s) (pg_end s))) <$> pr_paragraphs r.

Definition paragraph (r : PassageRecord) (index : N) : option (ParagraphSpan * bytes) :=
  s ← tget (pr_paragraphs r) index; Some (s, slice (pr_text r) (pg_start s) (pg_end s)).

(** [partition_point] of a slice the test partitions. *)
Fixpoint partition_point {A} (p : A -> bool) (l : list A) : N :=
  match l with
  | x :: l => if p x then 1 + partition_point p l else 0
  | [] => 0
  end.

(** [sections[i]] is in range: [i] is below the partition point. *)
Definition section_for (r : PassageRecord) (index : N) : option name :=
  if lenN (pr_paragraphs r) <=? index then None
  else
    let pos := partition_point (fun m => m.1 <=? index) (pr_sections r) in
    if pos =? 0 then None else snd <$> tget (pr_sections r) (pos - 1).

(** [binary_search_by_key] over keys that do not repeat. *)
Definition binary_search_by_key {A} (key : A -> N) (k : N) (l : list A) : option A := snd <$> list_find (fun x => key x = k) l.

Definition locator_for (r : PassageRecord) (index : N) : option Locator :=
  if lenN (pr_paragraphs r) <=? index then None
  else snd <$> binary_search_by_key fst (as_u32 index) (pr_locators r).

(** [SourceFilter::matches]; the tags are sorted, so the search finds any member. *)
Definition effective_time (meta : SourceMeta) : option N :=
  match date meta with Some t => Some t | None => stored_at meta end.

Definition matches (f : SourceFilter) (r : PassageRecord) : bool :=
  (match since f, until f with
   | None, None => true
   | _, _ =>
     match effective_time (pr_meta r) with
     | None => false
     | Some t =>
       negb (match since f with Some s => t <? s | None => false end) &&
       negb (match until f with Some u => u <=? t | None => false end)
     end
   end) &&
  negb (negb (bool_decide (sf_tags f = [])) && negb (existsb (fun tag => bool_decide (tag ∈ tags (pr_meta r))) (sf_tags f))).

(** What one resident record costs; a [ParagraphSpan] is 24 bytes. *)
Definition SOURCE_OVERHEAD : N := 64.
Definition sum_of {A} (f : A -> N) (l : list A) : N := foldr (fun x n => f x + n) 0 l.

Definition record_bytes (source : name) (r : PassageRecord) : N :=
  lenN source + lenN (pr_text r) + lenN (pr_paragraphs r) * 24 +
  sum_of (fun q => lenN q.2 + 8) (pr_questions r) + sum_of (fun s => lenN s.2 + 8) (pr_sections r) +
  sum_of (fun l => lenN (lo_kind l.2) + lenN (lo_value l.2) + 8) (pr_locators r) +
  sum_of (fun tag => lenN tag + 8) (tags (pr_meta r)) + 16 + SOURCE_OVERHEAD.

(** ** The snapshot: writing *)

Definition SNAPSHOT_MAGIC : bytes := str "TAGURUS6".
Definition S5_SNAPSHOT_MAGIC : bytes := str "TAGURUS5".
Definition S4_SNAPSHOT_MAGIC : bytes := str "TAGURUS4".
Definition S3_SNAPSHOT_MAGIC : bytes := str "TAGURUS3".
Definition S2_SNAPSHOT_MAGIC : bytes := str "TAGURUS2".
Definition LEGACY_SNAPSHOT_MAGIC : bytes := str "TAGURUS1".

(** [(n as u32).to_le_bytes()]: the little-endian form drops what does not fit. *)
Definition write_chunk (bs : bytes) : bytes := u32_to_le (lenN bs) ++ bs.

Definition write_opt_u64 (value : option N) : bytes :=
  match value with Some v => byte_of_N 1 :: u64_to_le v | None => [byte_of_N 0] end.

Definition write_all {A} (write : A -> bytes) (l : list A) : bytes := u32_to_le (lenN l) ++ mjoin (write <$> l).

Definition write_labelled (m : N * name) : bytes := u32_to_le m.1 ++ write_chunk m.2.
Definition write_locator (m : N * Locator) : bytes := u32_to_le m.1 ++ write_chunk (lo_kind m.2) ++ write_chunk (lo_value m.2).

Definition write_source (entry : name * PassageRecord) : bytes :=
  let '(source, r) := entry in
  write_chunk source ++ write_chunk (pr_text r) ++
  write_all write_labelled (pr_questions r) ++ write_all write_labelled (pr_sections r) ++
  write_opt_u64 (stored_at (pr_meta r)) ++ write_opt_u64 (date (pr_meta r)) ++ write_all write_chunk (tags (pr_meta r)) ++
  write_all write_locator (pr_locators r).

Definition snapshot_body (sources : gmap name PassageRecord) (watermark : N) : bytes :=
  SNAPSHOT_MAGIC ++ u64_to_le watermark ++ u32_to_le (N.of_nat (size sources)) ++ mjoin (write_source <$> btree_iter sources).

Definition snapshot_to_bytes (sources : gmap name PassageRecord) (watermark : N) : bytes :=
  let out := snapshot_body sources watermark in out ++ u32_to_le (crc32c out).

(** ** The snapshot: reading

    A reader takes the bytes and the position, and refuses with [None]. *)

Definition reader (A : Type) : Type := bytes -> N -> option (A * N).

Definition take_at (len : N) : reader bytes := fun bs pos =>
  fin ← checked_add USIZE_MAX pos len;
  if fin <=? lenN bs then Some (slice bs pos fin, fin) else None.

Definition read_u32 : reader N := fun bs pos => '(x, pos) ← take_at 4 bs pos; Some (from_le x, pos).
Definition read_u64 : reader N := fun bs pos => '(x, pos) ← take_at 8 bs pos; Some (from_le x, pos).

Definition read_chunk : reader bytes := fun bs pos => '(len, pos) ← read_u32 bs pos; take_at len bs pos.

(** [String::from_utf8] of a chunk. *)
Definition read_string : reader name := fun bs pos =>
  '(s, pos) ← read_chunk bs pos; if utf8_valid s then Some (s, pos) else None.

Definition read_opt_u64 : reader (option N) := fun bs pos =>
  '(flag, pos) ← take_at 1 bs pos;
  match flag with
  | [b] =>
    if Byte.to_N b =? 0 then Some (None, pos)
    else if Byte.to_N b =? 1 then '(v, pos) ← read_u64 bs pos; Some (Some v, pos)
    else None
  | _ => None
  end.

Fixpoint read_times {A} (read : reader A) (count : nat) : reader (list A) := fun bs pos =>
  match count with
  | O => Some ([], pos)
  | S count => '(x, pos) ← read bs pos; '(l, pos) ← read_times read count bs pos; Some (x :: l, pos)
  end.

Definition read_all {A} (read : reader A) : reader (list A) := fun bs pos =>
  '(count, pos) ← read_u32 bs pos; read_times read (N.to_nat count) bs pos.

(** A block of the layout, when this generation has it. *)
Definition read_if {A} (on_disk : bool) (read : reader A) (absent : A) : reader A := fun bs pos =>
  if on_disk then read bs pos else Some (absent, pos).

Definition read_labelled : reader (N * name) := fun bs pos =>
  '(paragraph, pos) ← read_u32 bs pos; '(label, pos) ← read_string bs pos; Some ((paragraph, label), pos).

Definition read_locator : reader (N * Locator) := fun bs pos =>
  '(paragraph, pos) ← read_u32 bs pos; '(kind, pos) ← read_string bs pos; '(value, pos) ← read_string bs pos;
  Some ((paragraph, {| lo_kind := kind; lo_value := value |}), pos).

Definition read_meta : reader SourceMeta := fun bs pos =>
  '(stored_at, pos) ← read_opt_u64 bs pos; '(date, pos) ← read_opt_u64 bs pos; '(tags, pos) ← read_all read_string bs pos;
  Some ({| stored_at := stored_at; date := date; tags := tags |}, pos).

(** Which blocks a generation's layout has, and whether it ends in a checksum. *)
Record Generation := { questions_on_disk : bool; sections_on_disk : bool; meta_on_disk : bool; locators_on_disk : bool; checksummed : bool }.

Definition generation_of (magic : bytes) : option Generation :=
  let g q s m l c := Some {| questions_on_disk := q; sections_on_disk := s; meta_on_disk := m; locators_on_disk := l; checksummed := c |} in
  if decide (magic = SNAPSHOT_MAGIC) then g true true true true true
  else if decide (magic = S5_SNAPSHOT_MAGIC) then g true true true false true
  else if decide (magic = S4_SNAPSHOT_MAGIC) then g true true false false true
  else if decide (magic = S3_SNAPSHOT_MAGIC) then g true true false false false
  else if decide (magic = S2_SNAPSHOT_MAGIC) then g true false false false false
  else if decide (magic = LEGACY_SNAPSHOT_MAGIC) then g false false false false false
  else None.

(** One source of the layout: its name and what [PassageRecord::new] is given. *)
Definition read_source (g : Generation) : reader (name * PassageSubmission) := fun bs pos =>
  '(source, pos) ← read_string bs pos; '(text, pos) ← read_string bs pos;
  '(questions, pos) ← read_if (questions_on_disk g) (read_all read_labelled) [] bs pos;
  '(sections, pos) ← read_if (sections_on_disk g) (read_all read_labelled) [] bs pos;
  '(meta, pos) ← read_if (meta_on_disk g) read_meta SourceMeta_default bs pos;
  '(locators, pos) ← read_if (locators_on_disk g) (read_all read_locator) [] bs pos;
  Some ((source, {| ps_text := text; ps_questions := questions; ps_sections := sections; ps_locators := locators; ps_meta := meta |}), pos).

(** The body the generation vouches for. *)
Definition verified (g : Generation) (bs : bytes) : option bytes :=
  if negb (checksummed g) then Some bs
  else if lenN bs <? 4 then None
  else
    let body := take (length bs - 4) bs in
    if crc32c body =? from_le (drop (length bs - 4) bs) then Some body else None.

Definition record_of (sub : PassageSubmission) : option PassageRecord :=
  fst <$> PassageRecord_new (ps_text sub) (ps_questions sub) (ps_sections sub) (ps_locators sub) (ps_meta sub).

Fixpoint insert_all (entries : list (name * PassageSubmission)) (sources : gmap name PassageRecord) : option (gmap name PassageRecord) :=
  match entries with
  | [] => Some sources
  | (source, sub) :: entries => r ← record_of sub; insert_all entries (<[source := r]> sources)
  end.

(** From the magic on. *)
Definition read_body (g : Generation) : reader (list (name * PassageSubmission) * N) := fun bs pos =>
  '(_, pos) ← take_at 8 bs pos; '(watermark, pos) ← read_u64 bs pos; '(count, pos) ← read_u32 bs pos;
  '(entries, pos) ← read_times (read_source g) (N.to_nat count) bs pos;
  Some ((entries, watermark), pos).

Definition snapshot_parse (bs : bytes) : option (list (name * PassageSubmission) * N) :=
  g ← (if lenN bs <? 8 then None else generation_of (take 8 bs));
  bs ← verified g bs;
  '(r, pos) ← read_body g bs 0;
  if pos =? lenN bs then Some r else None.

(** The inner [None] is the refusal.  The code builds each record as it reads it;
    that cannot panic, a text off the disk being no longer than its [u32] length. *)
Definition snapshot_from_bytes (bs : bytes) : option (option (gmap name PassageRecord * N)) :=
  match snapshot_parse bs with
  | None => Some None
  | Some (entries, watermark) => sources ← insert_all entries ∅; Some (Some (sources, watermark))
  end.

(** ** The store *)

Definition COMPACT_FLOOR_BYTES : N := 4 * 1024 * 1024.
Definition COMPACT_RATIO : N := 1.

(** Wrapping [u64] arithmetic of a release build. *)
Definition u64_sub (a b : N) : N := (a + (U64_MAX + 1 - b mod (U64_MAX + 1))) mod (U64_MAX + 1).
Definition u64_mul (a b : N) : N := (a * b) mod (U64_MAX + 1).

(** [PassageStoreInner] with the ceiling and the three files of the family. *)
Record PassageStore := {
  sources : gmap name PassageRecord; next_seq : N; log_bytes : N; snapshot_bytes : N; resident_bytes : N;
  compactions : N; snapshot_bytes_written : N;
  max_log_bytes : N;
  snapshot_file : file; legacy_file : file; log_file : file
}.

Definition set_log_file (bytes : N) (f : file) (s : PassageStore) : PassageStore := {|
  sources := sources s; next_seq := next_seq s; log_bytes := bytes; snapshot_bytes := snapshot_bytes s; resident_bytes := resident_bytes s;
  compactions := compactions s; snapshot_bytes_written := snapshot_bytes_written s; max_log_bytes := max_log_bytes s;
  snapshot_file := snapshot_file s; legacy_file := legacy_file s; log_file := f |}.
Definition set_resident (m : gmap name PassageRecord) (n : N) (s : PassageStore) : PassageStore := {|
  sources := m; next_seq := next_seq s; log_bytes := log_bytes s; snapshot_bytes := snapshot_bytes s; resident_bytes := n;
  compactions := compactions s; snapshot_bytes_written := snapshot_bytes_written s; max_log_bytes := max_log_bytes s;
  snapshot_file := snapshot_file s; legacy_file := legacy_file s; log_file := log_file s |}.
Definition set_numbers (next bytes : N) (s : PassageStore) : PassageStore := {|
  sources := sources s; next_seq := next; log_bytes := bytes; snapshot_bytes := snapshot_bytes s; resident_bytes := resident_bytes s;
  compactions := compactions s; snapshot_bytes_written := snapshot_bytes_written s; max_log_bytes := max_log_bytes s;
  snapshot_file := snapshot_file s; legacy_file := legacy_file s; log_file := log_file s |}.
Definition set_snapshot (f : file) (s : PassageStore) : PassageStore := {|
  sources := sources s; next_seq := next_seq s; log_bytes := log_bytes s; snapshot_bytes := snapshot_bytes s; resident_bytes := resident_bytes s;
  compactions := compactions s; snapshot_bytes_written := snapshot_bytes_written s; max_log_bytes := max_log_bytes s;
  snapshot_file := f; legacy_file := legacy_file s; log_file := log_file s |}.
Definition set_compacted (legacy : file) (written : N) (s : PassageStore) : PassageStore := {|
  sources := sources s; next_seq := next_seq s; log_bytes := log_bytes s; snapshot_bytes := written; resident_bytes := resident_bytes s;
  compactions := u64_add (compactions s) 1; snapshot_bytes_written := u64_add (snapshot_bytes_written s) written; max_log_bytes := max_log_bytes s;
  snapshot_file := snapshot_file s; legacy_file := legacy; log_file := log_file s |}.

Inductive PassageError :=
  | CorruptSnapshot
  | TooLong (source : name) (len : N)
  | LogCapped (bytes cap : N)
  | LogRefused (e : wal_error)
  | DiskFailed.

(** The tallies of one batch; a [StoreOutcome] is these and how many the request
    carried. *)
Record AppliedCounts := {
  questions_stored : N; questions_dropped : N; sections_stored : N; sections_dropped : N; locators_stored : N; locators_dropped : N
}.
Definition AppliedCounts_default : AppliedCounts :=
  {| questions_stored := 0; questions_dropped := 0; sections_stored := 0; sections_dropped := 0; locators_stored := 0; locators_dropped := 0 |}.
Record StoreOutcome := { stored : N; counts_of : AppliedCounts }.
Definition StoreOutcome_default : StoreOutcome := {| stored := 0; counts_of := AppliedCounts_default |}.

Definition tally (r : PassageRecord) (drops : DropCounts) (c : AppliedCounts) : AppliedCounts := {|
  questions_stored := questions_stored c + lenN (pr_questions r); questions_dropped := questions_dropped c + dc_questions drops;
  sections_stored := sections_stored c + lenN (pr_sections r); sections_dropped := sections_dropped c + dc_sections drops;
  locators_stored := locators_stored c + lenN (pr_locators r); locators_dropped := locators_dropped c + dc_locators drops |}.

Definition bounded_text (source text : name) : result name PassageError :=
  if U32_MAX <? lenN text then Err (TooLong source (lenN text)) else Ok text.

Section store.
(** [serde_json]: the log's records and the legacy file's map. *)
Context `{WalJson PassageOp} (legacy_json : bytes -> option (gmap name name)).

(** *** Load *)

Record LoadIo := { l_read : bool; l_legacy : bool; l_replay : ReplayIo; l_stat : bool }.

(** Unreadable means empty. *)
Definition read_legacy (readable : bool) (f : file) : gmap name name :=
  match f with Some bs => if readable then default ∅ (legacy_json bs) else ∅ | None => ∅ end.

Fixpoint insert_legacy (entries : list (name * name)) (m : gmap name PassageRecord) : option (result (gmap name PassageRecord) PassageError) :=
  match entries with
  | [] => Some (Ok m)
  | (source, text) :: entries =>
    match bounded_text source text with
    | Err e => Some (Err e)
    | Ok text => '(r, _) ← PassageRecord_new text [] [] [] SourceMeta_default; insert_legacy entries (<[source := r]> m)
    end
  end.

Definition load_base (io : LoadIo) (snapshot legacy : file) : option (result (gmap name PassageRecord * N * N) PassageError) :=
  match snapshot with
  | Some bs =>
    if negb (l_read io) then Some (Err DiskFailed)
    else
      r ← snapshot_from_bytes bs;
      Some (match r with Some (m, watermark) => Ok (m, watermark, lenN bs) | None => Err CorruptSnapshot end)
  | None =>
    r ← insert_legacy (btree_iter (read_legacy (l_legacy io) legacy)) ∅;
    Some (match r with Ok m => Ok (m, 0, 0) | Err e => Err e end)
  end.

(** A replayed operation; a text longer than the splitter takes is corruption. *)
Fixpoint replay_passages (ops : list PassageOp) (m : gmap name PassageRecord) : option (result (gmap name PassageRecord) PassageError) :=
  match ops with
  | [] => Some (Ok m)
  | Store source text questions sections locators stored_at date tags :: ops =>
    match bounded_text source text with
    | Err e => Some (Err e)
    | Ok text =>
      '(r, _) ← PassageRecord_new text questions sections locators {| stored_at := stored_at; date := date; tags := tags |};
      replay_passages ops (<[source := r]> m)
    end
  | Retract source :: ops => replay_passages ops (delete source m)
  end.

(** What [wal::replay] or [wal::replay_readonly] hands over. *)
Definition replay_log (io : LoadIo) (heal : bool) (watermark : N) (f : file)
    : result (list PassageOp * N * option TornTail * N) wal_error * file :=
  if heal then
    let '(r, f) := replay (l_replay io) watermark f in
    (match r with Ok (ops, top) => Ok (ops, top, None, 0) | Err e => Err e end, f)
  else (replay_readonly (r_read (l_replay io)) watermark f, f).

Definition total_bytes (m : gmap name PassageRecord) : N := sum_of (fun e => record_bytes e.1 e.2) (btree_iter m).

(** The store, or why not; and the log as the replay leaves it. *)
Definition load (io : LoadIo) (max_log_bytes : N) (heal : bool) (snapshot legacy log : file)
    : option (result (PassageStore * option TornTail * N) PassageError * file) :=
  base ← load_base io snapshot legacy;
  match base with
  | Err e => Some (Err e, log)
  | Ok (m, watermark, snapshot_bytes) =>
    let '(replayed, log) := replay_log io heal watermark log in
    match replayed with
    | Err e => Some (Err (LogRefused e), log)
    | Ok (ops, top, torn, unchecked) =>
      r ← replay_passages ops m;
      Some (match r with
            | Err e => (Err e, log)
            | Ok m =>
              (Ok ({| sources := m; next_seq := u64_add top 1;
                      log_bytes := if l_stat io then file_len log else 0; snapshot_bytes := snapshot_bytes;
                      resident_bytes := total_bytes m mod (U64_MAX + 1); compactions := 0; snapshot_bytes_written := 0;
                      max_log_bytes := max_log_bytes; snapshot_file := snapshot; legacy_file := legacy; log_file := log |},
                   torn, unchecked), log)
            end)
    end
  end.

(** *** Compaction *)

Record CompactIo := { k_write : AtomicIo; k_unlink : bool; k_reset : TruncateIo }.

(** [compact_locked]: whether it succeeded.  The snapshot, the retirement of the
    legacy file, the truncation, in this order. *)
Definition compact_locked (io : CompactIo) (s : PassageStore) : bool * PassageStore :=
  let seen_seq := next_seq s in
  let bytes := snapshot_to_bytes (sources s) (u64_sub seen_seq 1) in
  let '(ok, f) := write_atomic (k_write io) (Some bytes) (snapshot_file s) in
  let s := set_snapshot f s in
  if negb ok then (false, s)
  else
    let s := set_compacted (if k_unlink io then None else legacy_file s) (lenN bytes) s in
    (true,
     if next_seq s =? seen_seq then
       match reset (k_reset io) (log_file s) with
       | (Ok _, f) => set_log_file 0 f s
       | (Err _, f) => set_log_file (log_bytes s) f s
       end
     else s).

Definition compact (io : CompactIo) (s : PassageStore) : bool * PassageStore := compact_locked io s.

(** [Ok] of whether a compaction ran, or [None] for its error. *)
Definition compact_if_log_outgrew_snapshot (io : CompactIo) (floor_bytes : N) (s : PassageStore) : option bool * PassageStore :=
  if negb (N.max floor_bytes (u64_mul COMPACT_RATIO (snapshot_bytes s)) <? log_bytes s) then (Some false, s)
  else let '(ok, s) := compact_locked io s in (if ok then Some true else None, s).

(** *** Writes *)

Record PassageIo := { p_append : AppendIo; p_compact : CompactIo }.

(** One operation on the resident map, with the batch's tally. *)
Definition apply_op (op : PassageOp) (st : AppliedCounts * PassageStore) : option (AppliedCounts * PassageStore) :=
  let '(counts, s) := st in
  match op with
  | Store source text questions sections locators stored_at date tags =>
    '(r, drops) ← PassageRecord_new text questions sections locators {| stored_at := stored_at; date := date; tags := tags |};
    let resident := u64_add (resident_bytes s) (record_bytes source r) in
    let resident := match sources s !! source with
                    | Some previous => u64_sub resident (record_bytes source previous)
                    | None => resident
                    end in
    Some (tally r drops counts, set_resident (<[source := r]> (sources s)) resident s)
  | Retract source =>
    let resident := match sources s !! source with
                    | Some previous => u64_sub (resident_bytes s) (record_bytes source previous)
                    | None => resident_bytes s
                    end in
    Some (counts, set_resident (delete source (sources s)) resident s)
  end.

Fixpoint apply_ops (ops : list PassageOp) (st : AppliedCounts * PassageStore) : option (AppliedCounts * PassageStore) :=
  match ops with
  | [] => Some st
  | op :: ops => st ← apply_op op st; apply_ops ops st
  end.

Definition append_and_apply_locked (io : PassageIo) (ops : list PassageOp) (s : PassageStore)
    : option (result AppliedCounts PassageError * PassageStore) :=
  let first_seq := next_seq s in
  match append_batch (p_append io) first_seq ops (log_file s) with
  | (Err e, f) => Some (Err (LogRefused e), set_log_file (log_bytes s) f s)
  | (Ok appended, f) =>
    '(counts, s) ← apply_ops ops (AppliedCounts_default, set_log_file (log_bytes s) f s);
    let s := set_numbers (u64_add first_seq (lenN ops)) (u64_add (log_bytes s) appended) s in
    let over_ratio := N.max COMPACT_FLOOR_BYTES (u64_mul COMPACT_RATIO (snapshot_bytes s)) <? log_bytes s in
    Some (Ok counts, if over_ratio then (compact_locked (p_compact io) s).2 else s)
  end.

(** [now] is [now_epoch_secs] at the stamping. *)
Definition store_op (now : N) (entry : name * PassageSubmission) : PassageOp :=
  let '(source, sub) := entry in
  Store source (ps_text sub) (ps_questions sub) (ps_sections sub) (ps_locators sub)
    (match stored_at (ps_meta sub) with Some t => Some t | None => Some now end) (date (ps_meta sub)) (tags (ps_meta sub)).

(** The methods [store] and [retract]. *)
Definition store_passages (io : PassageIo) (now : N) (passages : gmap name PassageSubmission) (s : PassageStore)
    : option (result StoreOutcome PassageError * PassageStore) :=
  match list_find (fun e => U32_MAX < lenN (ps_text e.2)) (btree_iter passages) with
  | Some (_, (source, sub)) => Some (Err (TooLong source (lenN (ps_text sub))), s)
  | None =>
    let ops := store_op now <$> btree_iter passages in
    let count := lenN ops in
    if count =? 0 then Some (Ok StoreOutcome_default, s)
    else if (0 <? max_log_bytes s) && (max_log_bytes s <=? log_bytes s) && (u64_mul 2 (snapshot_bytes s) <=? log_bytes s) then
      Some (Err (LogCapped (log_bytes s) (max_log_bytes s)), s)
    else
      '(r, s) ← append_and_apply_locked io ops s;
      Some (match r with Ok counts => Ok {| stored := count; counts_of := counts |} | Err e => Err e end, s)
  end.

Definition retract (io : PassageIo) (source : name) (s : PassageStore) : option (result bool PassageError * PassageStore) :=
  match sources s !! source with
  | None => Some (Ok false, s)
  | Some _ =>
    '(r, s) ← append_and_apply_locked io [Retract source] s;
    Some (match r with Ok _ => Ok true | Err e => Err e end, s)
  end.

(** *** Reads *)

Definition pending_log_bytes (s : PassageStore) : N := log_bytes s.
Definition watermark (s : PassageStore) : N := u64_sub (next_seq s) 1.
Definition get (source : name) (s : PassageStore) : option PassageRecord := sources s !! source.
Definition source_ids (s : PassageStore) : list name := (btree_iter (sources s)).*1.
Definition source_entries (s : PassageStore) : list (name * SourceMeta) := (fun e => (e.1, pr_meta e.2)) <$> btree_iter (sources s).

Definition eligible_sources (f : SourceFilter) (s : PassageStore) : gset name * N :=
  (list_to_set (filter (fun e => matches f e.2 = true) (btree_iter (sources s))).*1, N.of_nat (size (sources s))).

Definition snapshot (s : PassageStore) : list (name * PassageRecord) := btree_iter (sources s).
Definition footprint (s : PassageStore) : N := resident_bytes s.
End store.
