(* ===== verification/PassageThm.v ===== *)
(** * Passage records, and their snapshot

    What [PassageRecord::new] keeps of a submission, that it keeps it the second
    time, and that a snapshot reads back as the map that was written. *)

From S2P Require Export Passages.

Local Open Scope N_scope.

(** ** Sorting by a key *)

Section sort.
Context {A : Type} (key : A -> N).

Definition key_le (x y : A) : Prop := key x <= key y.
Definition key_lt (x y : A) : Prop := key x < key y.

Lemma insert_by_perm x l : insert_by key x l ≡ₚ x :: l.
Proof using.
  induction l as [|y l IH]; cbn [insert_by]; [done|]. destruct (key x <=? key y); [done|]. rewrite IH. constructor.
Qed.

Lemma sort_by_key_perm l : sort_by_key key l ≡ₚ l.
Proof using. induction l as [|x l IH]; [done|]. change (sort_by_key key (x :: l)) with (insert_by key x (sort_by_key key l)). by rewrite insert_by_perm, IH. Qed.

Lemma insert_by_sorted x l : StronglySorted key_le l -> StronglySorted key_le (insert_by key x l).
Proof using.
  induction 1 as [|y l Hl IH Hy]; cbn [insert_by]; [repeat constructor|].
  destruct (N.leb_spec (key x) (key y)) as [Hle|Hlt].
  - constructor; [by constructor|]. constructor; [done|]. eapply Forall_impl; [exact Hy|]. unfold key_le. intros. lia.
  - constructor; [done|]. rewrite insert_by_perm. constructor; [unfold key_le; lia | done].
Qed.

Lemma sort_by_key_sorted l : StronglySorted key_le (sort_by_key key l).
Proof using. induction l as [|x l IH]; [constructor | by apply insert_by_sorted]. Qed.

Lemma sort_by_key_id l : StronglySorted key_le l -> sort_by_key key l = l.
Proof using.
  induction 1 as [|x l Hl IH Hx]; [done|]. change (sort_by_key key (x :: l)) with (insert_by key x (sort_by_key key l)). rewrite IH.
  destruct Hx as [|y l Hy _]; [done|]. cbn. by rewrite (proj2 (N.leb_le _ _)).
Qed.

(** The sort is stable: it never changes the order of equal keys. *)
Lemma sort_by_key_stable k l : filter (fun x => key x = k) (sort_by_key key l) = filter (fun x => key x = k) l.
Proof using.
  assert (Hins : forall x l, filter (fun x => key x = k) (insert_by key x l) = filter (fun x => key x = k) (x :: l)).
  { intros x m. induction m as [|y m IH]; [done|]. cbn [insert_by]. destruct (N.leb_spec (key x) (key y)) as [|Hlt]; [done|].
    rewrite filter_cons, IH, !filter_cons. destruct (decide (key y = k)), (decide (key x = k)); try done. lia. }
  induction l as [|x l IH]; [done|]. change (sort_by_key key (x :: l)) with (insert_by key x (sort_by_key key l)).
  rewrite Hins, !filter_cons. by rewrite IH.
Qed.

Lemma keys_strict l : StronglySorted key_le l -> NoDup (key <$> l) -> StronglySorted key_lt l.
Proof using.
  induction 1 as [|x l Hl IH Hx]; [constructor|]. rewrite fmap_cons. intros [Hn Hd]%NoDup_cons. constructor; [by apply IH|].
  rewrite Forall_forall in Hx |- *. intros y Hy. pose proof (Hx y Hy) as Hle. unfold key_le, key_lt in *.
  assert (key x <> key y); [|lia]. intros Heq. apply Hn. rewrite Heq. by apply list_elem_of_fmap_2.
Qed.

Lemma strict_keys l : StronglySorted key_lt l -> NoDup (key <$> l).
Proof using.
  induction 1 as [|x l Hl IH Hx]; [constructor|]. rewrite fmap_cons. constructor; [|done].
  intros (y & Heq & Hy)%list_elem_of_fmap. rewrite Forall_forall in Hx. specialize (Hx y Hy). unfold key_lt in Hx. lia.
Qed.

(** Any order of a strictly sorted list sorts back to it. *)
Lemma sort_by_key_strict l k : StronglySorted key_lt l -> k ≡ₚ l -> sort_by_key key k = l.
Proof using.
  intros Hl Hp. assert (Ha : AntiSymm (=) key_lt) by (intros x y Hx Hy; unfold key_lt in *; lia).
  apply (StronglySorted_unique key_lt); [|done | by rewrite sort_by_key_perm].
  apply keys_strict; [apply sort_by_key_sorted|]. rewrite sort_by_key_perm, Hp. by apply strict_keys.
Qed.

Lemma sorted_head k l : StronglySorted key_le l -> partition_point (fun x => key x <=? k) l = lenN (filter (fun x => key x <= k) l).
Proof using.
  induction 1 as [|x l Hl IH Hx]; [done|]. cbn [partition_point]. rewrite filter_cons. destruct (N.leb_spec (key x) k) as [Hle|Hlt].
  - rewrite decide_True, IH by done. unfold lenN. cbn [length]. lia.
  - rewrite decide_False by lia. assert (Hnil : filter (fun x => key x <= k) l = []); [|by rewrite Hnil].
    apply filter_none. rewrite Forall_forall in Hx. intros y Hy. specialize (Hx y Hy). unfold key_le in Hx. lia.
Qed.
End sort.

Lemma list_find_head {A} (P : A -> Prop) `{!forall x, Decision (P x)} l : snd <$> list_find P l = head (filter P l).
Proof.
  induction l as [|x l IH]; [done|]. cbn [list_find]. rewrite filter_cons. destruct (decide (P x)); [done|].
  rewrite <- IH. by destruct (list_find P l) as [[? ?]|].
Qed.

(** ** Markers *)

Section markers.
Context {T : Type}.
Implicit Types ms : list (N * T).

(** The markers of one paragraph. *)
Definition at_paragraph (k : N) ms : list (N * T) := filter (fun m => m.1 = k) ms.

Lemma first_seen_at count k ms : forall seen, at_paragraph k (first_seen count seen ms) =
  if decide (k < count /\ k ∉ seen) then take 1 (at_paragraph k ms) else [].
Proof using.
  unfold at_paragraph. induction ms as [|[p x] ms IH]; intros seen; [by destruct (decide _)|]. cbn [first_seen].
  destruct (N.ltb_spec p count) as [Hp|Hp]; cbn [andb].
  - destruct (bool_decide_reflect (p ∈ seen)) as [Hin|Hin]; cbn [negb].
    + rewrite IH, filter_cons. cbn [fst]. destruct (decide (p = k)) as [->|]; [|done].
      by destruct (decide (k < count /\ k ∉ seen)) as [[_ ?]|].
    + rewrite !filter_cons, IH. cbn [fst]. destruct (decide (p = k)) as [->|Hne].
      * destruct (decide (k < count /\ k ∉ {[k]} ∪ seen)) as [[_ ?]|_]; [set_solver|].
        destruct (decide (k < count /\ k ∉ seen)) as [|[]]; [|done]. cbn [take]. by rewrite take_0.
      * destruct (decide (k < count /\ k ∉ seen)) as [[? ?]|?], (decide (k < count /\ k ∉ {[p]} ∪ seen)) as [[? ?]|?]; set_solver.
  - rewrite IH, filter_cons. cbn [fst]. destruct (decide (p = k)) as [->|]; [|done].
    destruct (decide (k < count /\ k ∉ seen)) as [[? _]|]; [lia | done].
Qed.

Lemma first_seen_sub count ms : forall seen, first_seen count seen ms `sublist_of` ms.
Proof using.
  induction ms as [|[p x] ms IH]; intros seen; cbn [first_seen]; [done|]. destruct (_ && _); [by constructor | by constructor].
Qed.

Lemma first_seen_fresh count ms : forall seen, NoDup (first_seen count seen ms).*1 /\
  Forall (fun m => m.1 < count /\ m.1 ∉ seen) (first_seen count seen ms).
Proof using.
  induction ms as [|[p x] ms IH]; intros seen; cbn [first_seen]; [split; constructor|].
  destruct (N.ltb_spec p count) as [Hp|]; cbn [andb]; [|apply IH].
  destruct (bool_decide_reflect (p ∈ seen)) as [|Hin]; cbn [negb]; [apply IH|].
  destruct (IH ({[p]} ∪ seen)) as [Hnd Hall]. split.
  - rewrite fmap_cons. constructor; [|done]. intros (y & Heq & Hy)%list_elem_of_fmap. rewrite Forall_forall in Hall.
    destruct (Hall y Hy) as [_ Hny]. cbn [fst] in Heq. rewrite <- Heq in Hny. set_solver.
  - constructor; [done|]. eapply Forall_impl; [exact Hall|]. intros y [? ?]. split; [done | set_solver].
Qed.

(** Nothing to drop. *)
Lemma first_seen_all count ms : forall seen, NoDup ms.*1 -> Forall (fun m => m.1 < count /\ m.1 ∉ seen) ms -> first_seen count seen ms = ms.
Proof using.
  induction ms as [|[p x] ms IH]; intros seen; [done|]. rewrite fmap_cons. intros [Hn Hnd]%NoDup_cons [[Hp Hs] Hall]%Forall_cons.
  cbn [first_seen fst] in *. rewrite (proj2 (N.ltb_lt _ _)), bool_decide_false by done. cbn [andb negb]. f_equal. apply IH; [done|].
  rewrite Forall_forall in Hall |- *. intros y Hy. destruct (Hall y Hy). split; [done|]. intros [Heq%elem_of_singleton|]%elem_of_union; [|done].
  apply Hn. rewrite <- Heq. by apply list_elem_of_fmap_2.
Qed.

Lemma filter_markers_kept ms count : let kept := (filter_markers ms count).1 in
  StronglySorted (key_lt fst) kept /\ Forall (fun m => m.1 < count) kept /\ lenN kept <= lenN ms /\ (forall m, m ∈ kept -> m ∈ ms).
Proof using.
  cbv zeta. cbn [filter_markers fst]. destruct (first_seen_fresh count (rev ms) ∅) as [Hnd Hall].
  pose proof (first_seen_sub count (rev ms) ∅) as Hsub. split; [|split; [|split]].
  - apply keys_strict; [apply sort_by_key_sorted|]. by rewrite sort_by_key_perm.
  - rewrite sort_by_key_perm. eapply Forall_impl; [exact Hall|]. by intros ? [? _].
  - unfold lenN. rewrite sort_by_key_perm. apply sublist_length in Hsub. rewrite length_rev in Hsub. lia.
  - intros m. rewrite sort_by_key_perm. intros Hm. pose proof (elem_of_sublist _ _ _ Hm Hsub) as Hr. by rewrite <- Permutation_rev in Hr.
Qed.

(** Per paragraph, the last marker submitted. *)
Lemma filter_markers_at ms count k : at_paragraph k (filter_markers ms count).1 =
  if decide (k < count) then option_list (last (at_paragraph k ms)) else [].
Proof using.
  cbn [filter_markers fst]. unfold at_paragraph. rewrite sort_by_key_stable. change (filter _ (first_seen count ∅ (rev ms))) with (at_paragraph k (first_seen count ∅ (rev ms))).
  rewrite first_seen_at. destruct (decide (k < count)) as [Hk|Hk]; [|by rewrite decide_False by tauto].
  rewrite decide_True by set_solver. unfold at_paragraph.
  assert (Hrev : forall l : list (N * T), filter (fun m => m.1 = k) (rev l) = rev (filter (fun m => m.1 = k) l)).
  { induction l as [|x l IH]; [done|]. cbn [rev]. rewrite filter_app, IH, !filter_cons. destruct (decide (x.1 = k)); [done | by rewrite app_nil_r]. }
  rewrite Hrev. destruct (filter _ ms) as [|m l] using rev_ind; [done|]. by rewrite rev_app_distr, last_snoc.
Qed.

Lemma filter_markers_again ms count : StronglySorted (key_lt fst) ms -> Forall (fun m => m.1 < count) ms -> filter_markers ms count = (ms, 0).
Proof using.
  intros Hs Hall. unfold filter_markers. rewrite first_seen_all.
  - assert (Hp : rev ms ≡ₚ ms) by (symmetry; apply Permutation_rev). rewrite (sort_by_key_strict fst ms) by done. f_equal. lia.
  - rewrite <- Permutation_rev. by apply strict_keys.
  - rewrite <- Permutation_rev. eapply Forall_impl; [exact Hall|]. intros m Hm. split; [done | set_solver].
Qed.
End markers.

(** ** Tags *)

Lemma dedup_eq_elem (l : list name) x : x ∈ dedup_eq l <-> x ∈ l.
Proof.
  induction l as [|y l IH]; cbn [dedup_eq]; [done|]. rewrite elem_of_cons, <- IH.
  destruct (dedup_eq l) as [|z r]; [set_solver|]. destruct (decide (y = z)); set_solver.
Qed.

Lemma dedup_eq_length (l : list name) : (length (dedup_eq l) <= length l)%nat.
Proof.
  induction l as [|y l IH]; cbn [dedup_eq]; [done|]. destruct (dedup_eq l) as [|z r]; [cbn; lia|].
  destruct (decide (y = z)); cbn [length] in *; lia.
Qed.

Lemma dedup_eq_sorted (l : list name) : StronglySorted name_le l -> StronglySorted name_lt (dedup_eq l).
Proof.
  induction 1 as [|x l Hl IH Hx]; cbn [dedup_eq]; [constructor|].
  pose proof (dedup_eq_elem l) as Hin. destruct (dedup_eq l) as [|y r]; [repeat constructor|].
  destruct (decide (x = y)) as [|Hne]; [done|]. constructor; [done|]. rewrite Forall_forall in Hx |- *.
  assert (Hxy : name_lt x y) by (destruct (Hx y (proj1 (Hin y) ltac:(set_solver))) as [|]; done).
  apply StronglySorted_inv in IH as [_ Hy]. rewrite Forall_forall in Hy.
  intros z [->|Hz]%elem_of_cons; [done|]. transitivity y; auto.
Qed.

(** Strictly sorted tags are already what the record keeps. *)
Lemma tags_again (l : list name) : StronglySorted name_lt l -> dedup_eq (merge_sort name_le l) = l.
Proof.
  intros Hl. assert (Hle : StronglySorted name_le l) by (eapply StronglySorted_impl; [|exact Hl]; intros; by right).
  rewrite (StronglySorted_unique name_le (merge_sort name_le l) l);
    [|apply StronglySorted_merge_sort; apply _ | done | apply merge_sort_Permutation].
  clear Hle. induction Hl as [|x l Hl IH Hx]; cbn [dedup_eq]; [done|]. rewrite IH. destruct Hx as [|y l Hy _]; [done|].
  rewrite decide_False; [done|]. intros ->. by eapply (irreflexivity name_lt).
Qed.

(** ** Building a record *)

(** A record handed back as a submission. *)
Definition as_offered (r : PassageRecord) : PassageSubmission := {|
  ps_text := pr_text r; ps_questions := pr_questions r; ps_sections := pr_sections r; ps_locators := pr_locators r; ps_meta := pr_meta r |}.

Lemma new_total text questions sections locators meta : lenN text <= U32_MAX -> utf8_valid text = true ->
  exists r drops, PassageRecord_new text questions sections locators meta = Some (r, drops).
Proof.
  intros Hl Hv. unfold PassageRecord_new. destruct (split_total text Hl Hv) as (spans & -> & _). cbn [mbind option_bind filter_markers].
  by do 2 eexists.
Qed.

(** What a record is, field by field. *)
Lemma new_fields text questions sections locators meta r drops :
  PassageRecord_new text questions sections locators meta = Some (r, drops) ->
  let n := lenN (pr_paragraphs r) in
  pr_text r = text /\ split text = Some (pr_paragraphs r) /\
  pr_questions r = sort_by_key fst (filter (fun q => q.1 < n) questions) /\
  pr_sections r = (filter_markers sections n).1 /\ pr_locators r = (filter_markers locators n).1 /\
  pr_meta r = {| stored_at := stored_at meta; date := date meta; tags := dedup_eq (merge_sort name_le (tags meta)) |} /\
  drops = {| dc_questions := lenN questions - lenN (pr_questions r); dc_sections := (filter_markers sections n).2;
             dc_locators := (filter_markers locators n).2 |}.
Proof.
  unfold PassageRecord_new. destruct (split text) as [spans|]; [|done]. cbn [mbind option_bind].
  destruct (filter_markers sections (lenN spans)) as [ss sd] eqn:Es, (filter_markers locators (lenN spans)) as [ls ld] eqn:El.
  intros [= <- <-]. cbn [pr_text pr_paragraphs pr_questions pr_sections pr_locators pr_meta]. by rewrite Es, El.
Qed.

(** Building is idempotent: what a snapshot holds comes back as it was. *)
Lemma new_again text questions sections locators meta r drops :
  PassageRecord_new text questions sections locators meta = Some (r, drops) -> record_of (as_offered r) = Some r.
Proof.
  intros Hr. destruct (new_fields _ _ _ _ _ _ _ Hr) as (Ht & Hp & Hq & Hs & Hl & Hm & _). cbv zeta in *.
  unfold record_of, PassageRecord_new. cbn [as_offered ps_text ps_questions ps_sections ps_locators ps_meta]. rewrite Ht, Hp. cbn [mbind option_bind].
  destruct (filter_markers_kept sections (lenN (pr_paragraphs r))) as (Hs1 & Hs2 & _). destruct (filter_markers_kept locators (lenN (pr_paragraphs r))) as (Hl1 & Hl2 & _).
  rewrite <- Hs in Hs1, Hs2. rewrite <- Hl in Hl1, Hl2.
  rewrite (filter_markers_again (pr_sections r)), (filter_markers_again (pr_locators r)) by done. cbn [fmap option_fmap option_map fst].
  assert (Hq' : sort_by_key fst (filter (fun q => q.1 < lenN (pr_paragraphs r)) (pr_questions r)) = pr_questions r).
  { rewrite filter_all; [|intros q; rewrite Hq, sort_by_key_perm; by intros [? _]%list_elem_of_filter].
    apply sort_by_key_id. rewrite Hq. apply sort_by_key_sorted. }
  rewrite Hq'. f_equal. destruct r as [text' paragraphs qs ss ls meta']. cbn in *. f_equal; [done|]. rewrite Hm. cbn [stored_at date tags]. f_equal.
  apply tags_again, dedup_eq_sorted, StronglySorted_merge_sort; apply _.
Qed.

(** ** What fits a snapshot *)

Definition string_ok (s : name) : Prop := utf8_valid s = true /\ lenN s <= U32_MAX.
Definition labelled_ok (m : N * name) : Prop := m.1 <= U32_MAX /\ string_ok m.2.
Definition locator_ok (m : N * Locator) : Prop := m.1 <= U32_MAX /\ string_ok (lo_kind m.2) /\ string_ok (lo_value m.2).
Definition stamp_ok (t : option N) : Prop := match t with Some t => t <= U64_MAX | None => True end.
Definition list_ok {A} (P : A -> Prop) (l : list A) : Prop := lenN l <= U32_MAX /\ Forall P l.

(** The widths of a submission: every count and every string length is a [u32]. *)
Record submission_ok (sub : PassageSubmission) : Prop := {
  ok_text : string_ok (ps_text sub);
  ok_questions : list_ok labelled_ok (ps_questions sub);
  ok_sections : list_ok labelled_ok (ps_sections sub);
  ok_locators : list_ok locator_ok (ps_locators sub);
  ok_stored_at : stamp_ok (stored_at (ps_meta sub));
  ok_date : stamp_ok (date (ps_meta sub));
  ok_tags : list_ok string_ok (tags (ps_meta sub))
}.

(** A resident record: it fits, and is what building it again gives. *)
Definition record_ok (r : PassageRecord) : Prop := submission_ok (as_offered r) /\ record_of (as_offered r) = Some r.

Lemma list_ok_sub {A} (P : A -> Prop) l k : list_ok P l -> lenN k <= lenN l -> (forall x, x ∈ k -> x ∈ l) -> list_ok P k.
Proof.
  intros [Hn Hl] Hk Hsub. split; [lia|]. rewrite Forall_forall in Hl |- *. auto.
Qed.

Lemma record_of_ok sub : submission_ok sub -> exists r drops,
  PassageRecord_new (ps_text sub) (ps_questions sub) (ps_sections sub) (ps_locators sub) (ps_meta sub) = Some (r, drops) /\ record_ok r.
Proof.
  intros [[Htv Htl] Hq Hs Hl Hst Hd Htg].
  destruct (new_total (ps_text sub) (ps_questions sub) (ps_sections sub) (ps_locators sub) (ps_meta sub) Htl Htv) as (r & drops & Hr).
  exists r, drops. split; [done|]. split; [|by eapply new_again].
  destruct (new_fields _ _ _ _ _ _ _ Hr) as (Ht & _ & Hq' & Hs' & Hl' & Hm & _). cbv zeta in *.
  split; cbn [as_offered ps_text ps_questions ps_sections ps_locators ps_meta].
  - by rewrite Ht.
  - apply (list_ok_sub _ _ _ Hq); rewrite Hq'.
    + unfold lenN. rewrite sort_by_key_perm. pose proof (length_filter (fun q : N * name => q.1 < N.of_nat (length (pr_paragraphs r))) (ps_questions sub)). lia.
    + intros x. rewrite sort_by_key_perm. by intros [_ ?]%list_elem_of_filter.
  - rewrite Hs'. destruct (filter_markers_kept (ps_sections sub) (lenN (pr_paragraphs r))) as (_ & _ & ? & ?). by apply (list_ok_sub _ _ _ Hs).
  - rewrite Hl'. destruct (filter_markers_kept (ps_locators sub) (lenN (pr_paragraphs r))) as (_ & _ & ? & ?). by apply (list_ok_sub _ _ _ Hl).
  - by rewrite Hm.
  - by rewrite Hm.
  - rewrite Hm. cbn [tags]. apply (list_ok_sub _ _ _ Htg).
    + unfold lenN. pose proof (dedup_eq_length (merge_sort name_le (tags (ps_meta sub)))) as Hn.
      pose proof (Permutation_length (merge_sort_Permutation name_le (tags (ps_meta sub)))). lia.
    + intros x. by rewrite dedup_eq_elem, merge_sort_Permutation.
Qed.

(** ** The codec

    [parses m bs a]: wherever [bs] stands, the reader consumes exactly it and
    returns [a]. *)

Definition parses {A} (m : reader A) (bs : bytes) (a : A) : Prop :=
  forall pre rest, lenN (pre ++ bs ++ rest) <= USIZE_MAX -> m (pre ++ bs ++ rest) (lenN pre) = Some (a, lenN pre + lenN bs).

Lemma parses_ret {A} (a : A) : parses (fun _ pos => Some (a, pos)) [] a.
Proof. intros pre rest _. f_equal. f_equal. symmetry. apply N.add_0_r. Qed.

Lemma parses_bind {A B} (m : reader A) (k : A -> reader B) xs ys a b : parses m xs a -> parses (k a) ys b ->
  parses (fun bs pos => '(x, pos) ← m bs pos; k x bs pos) (xs ++ ys) b.
Proof.
  intros Hm Hk pre rest. rewrite <- app_assoc. intros Hle. rewrite (Hm pre (ys ++ rest) Hle). cbn [mbind option_bind].
  rewrite (app_assoc pre), <- lenN_app. rewrite (Hk (pre ++ xs) rest) by (by rewrite <- app_assoc). f_equal. f_equal. rewrite !lenN_app. lia.
Qed.

Lemma parses_take bs n : lenN bs = n -> parses (take_at n) bs bs.
Proof.
  intros <- pre rest Hle. unfold take_at, checked_add. rewrite !lenN_app in *. rewrite (proj2 (N.leb_le _ _)) by lia.
  cbn [mbind option_bind]. rewrite (proj2 (N.leb_le _ _)) by lia. by rewrite slice_pieces.
Qed.

Lemma lenN_le k x : lenN (to_le k x) = N.of_nat k.
Proof. unfold lenN. by rewrite length_to_le. Qed.

Lemma parses_u32 x : x <= U32_MAX -> parses read_u32 (u32_to_le x) x.
Proof.
  intros Hx. rewrite <- (app_nil_r (u32_to_le x)). eapply parses_bind; [by apply parses_take, lenN_le|].
  rewrite from_to_le_u32 by done. apply parses_ret.
Qed.

Lemma parses_u64 x : x <= U64_MAX -> parses read_u64 (u64_to_le x) x.
Proof.
  intros Hx. rewrite <- (app_nil_r (u64_to_le x)). eapply parses_bind; [by apply parses_take, lenN_le|].
  rewrite from_to_le_u64 by done. apply parses_ret.
Qed.

Lemma parses_chunk s : lenN s <= U32_MAX -> parses read_chunk (write_chunk s) s.
Proof. intros Hs. unfold write_chunk. eapply parses_bind; [by apply parses_u32 | by apply parses_take]. Qed.

Lemma parses_string s : string_ok s -> parses read_string (write_chunk s) s.
Proof.
  intros [Hv Hs]. rewrite <- (app_nil_r (write_chunk s)). eapply parses_bind; [by apply parses_chunk|]. rewrite Hv. apply parses_ret.
Qed.

Lemma parses_opt o : stamp_ok o -> parses read_opt_u64 (write_opt_u64 o) o.
Proof.
  intros Ho. unfold write_opt_u64. destruct o as [v|].
  - change (byte_of_N 1 :: u64_to_le v) with ([byte_of_N 1] ++ u64_to_le v). eapply parses_bind; [by apply parses_take|].
    cbn [N.eqb]. rewrite <- (app_nil_r (u64_to_le v)). eapply parses_bind; [by apply parses_u64 | apply parses_ret].
  - rewrite <- (app_nil_r [byte_of_N 0]). eapply parses_bind; [by apply parses_take | apply parses_ret].
Qed.

Lemma parses_times {A} (m : reader A) (w : A -> bytes) l : Forall (fun x => parses m (w x) x) l ->
  parses (read_times m (length l)) (mjoin (w <$> l)) l.
Proof.
  induction 1 as [|x l Hx _ IH]; [apply parses_ret|]. rewrite fmap_cons, join_cons. cbn [length read_times].
  eapply parses_bind; [exact Hx|]. rewrite <- (app_nil_r (mjoin (w <$> l))). eapply parses_bind; [exact IH | apply parses_ret].
Qed.

Lemma parses_all {A} (P : A -> Prop) (m : reader A) (w : A -> bytes) l : (forall x, P x -> parses m (w x) x) -> list_ok P l ->
  parses (read_all m) (write_all w l) l.
Proof.
  intros Hm [Hn Hl]. unfold read_all, write_all. eapply parses_bind; [by apply parses_u32|]. cbv beta. unfold lenN. rewrite Nat2N.id.
  apply parses_times. eapply Forall_impl; [exact Hl|]. exact Hm.
Qed.

Lemma parses_labelled m : labelled_ok m -> parses read_labelled (write_labelled m) m.
Proof.
  destruct m as [p s]. intros [Hp Hs]. unfold write_labelled. eapply parses_bind; [by apply parses_u32|].
  cbn [snd]. rewrite <- (app_nil_r (write_chunk s)). eapply parses_bind; [by apply parses_string | apply parses_ret].
Qed.

Lemma parses_locator m : locator_ok m -> parses read_locator (write_locator m) m.
Proof.
  destruct m as [p [k v]]. intros (Hp & Hk & Hv). unfold write_locator. eapply parses_bind; [by apply parses_u32|].
  cbn [snd lo_kind lo_value] in *. eapply parses_bind; [by apply parses_string|].
  rewrite <- (app_nil_r (write_chunk v)). eapply parses_bind; [by apply parses_string | apply parses_ret].
Qed.

Lemma parses_meta m : stamp_ok (stored_at m) -> stamp_ok (date m) -> list_ok string_ok (tags m) ->
  parses read_meta (write_opt_u64 (stored_at m) ++ write_opt_u64 (date m) ++ write_all write_chunk (tags m)) m.
Proof.
  destruct m as [st d ts]. cbn [stored_at date tags]. intros Hst Hd Ht. unfold read_meta. eapply parses_bind; [by apply parses_opt|].
  eapply parses_bind; [by apply parses_opt|]. rewrite <- (app_nil_r (write_all write_chunk ts)).
  eapply parses_bind; [exact (parses_all string_ok _ _ _ parses_string Ht) | apply parses_ret].
Qed.

Definition current : Generation :=
  {| questions_on_disk := true; sections_on_disk := true; meta_on_disk := true; locators_on_disk := true; checksummed := true |}.

Definition offered (e : name * PassageRecord) : name * PassageSubmission := (e.1, as_offered e.2).

Lemma parses_source e : string_ok e.1 -> submission_ok (as_offered e.2) -> parses (read_source current) (write_source e) (offered e).
Proof.
  destruct e as [source r]. cbn [fst snd]. intros Hn [Ht Hq Hs Hl Hst Hd Htg]. unfold read_source, write_source.
  eapply parses_bind; [by apply parses_string|]. eapply parses_bind; [by apply parses_string|].
  eapply parses_bind; [exact (parses_all _ _ _ _ parses_labelled Hq)|]. eapply parses_bind; [exact (parses_all _ _ _ _ parses_labelled Hs)|].
  assert (Hm := parses_meta (pr_meta r) Hst Hd Htg). rewrite (app_assoc (write_opt_u64 (date (pr_meta r)))), (app_assoc (write_opt_u64 (stored_at (pr_meta r)))).
  eapply parses_bind; [exact Hm|]. rewrite <- (app_nil_r (write_all write_locator (pr_locators r))).
  eapply parses_bind; [exact (parses_all _ _ _ _ parses_locator Hl) | apply parses_ret].
Qed.

(** ** The snapshot round trip *)

Definition sources_ok (m : gmap name PassageRecord) : Prop := forall source r, m !! source = Some r -> string_ok source /\ record_ok r.

(** What one snapshot can hold: a [u32] of sources and a [Vec] of bytes. *)
Definition snapshot_room (m : gmap name PassageRecord) : Prop :=
  N.of_nat (size m) <= U32_MAX /\ lenN (snapshot_to_bytes m 0) <= USIZE_MAX.

Lemma insert_all_list l : Forall (fun e : name * PassageRecord => record_of (as_offered e.2) = Some e.2) l -> forall m,
  exists m', insert_all (offered <$> l) m = Some m' /\
    (NoDup l.*1 -> forall k, m' !! k = match (list_to_map l : gmap name PassageRecord) !! k with Some r => Some r | None => m !! k end).
Proof.
  induction 1 as [|[k0 r0] l Hr _ IH]; intros m; [by exists m|]. rewrite !fmap_cons. cbn [insert_all offered fst snd] in *. rewrite Hr.
  cbn [mbind option_bind]. destruct (IH (<[k0 := r0]> m)) as (m' & Hm & Hk). exists m'. split; [done|].
  intros [Hn Hnd]%NoDup_cons k. rewrite (Hk Hnd). cbn [list_to_map foldr]. 
  destruct (decide (k = k0)) as [->|Hne].
  - rewrite (not_elem_of_list_to_map_1 _ _ Hn). cbn. by rewrite !lookup_insert_eq.
  - cbn. by rewrite !lookup_insert_ne by done.
Qed.

Lemma insert_all_btree m : sources_ok m -> insert_all (offered <$> btree_iter m) ∅ = Some m.
Proof.
  intros Hm. destruct (insert_all_list (btree_iter m)) with (m := (∅ : gmap name PassageRecord)) as (m' & -> & Hk).
  - apply Forall_forall. intros [k r] Hin%elem_of_btree_iter. by destruct (Hm k r Hin) as [_ [_ ?]].
  - f_equal. apply map_eq. intros k. rewrite (Hk (NoDup_btree_keys m)).
    destruct (m !! k) as [r|] eqn:E.
    + by rewrite (elem_of_list_to_map_1 _ k r (NoDup_btree_keys m)) by (by apply elem_of_btree_iter).
    + rewrite (not_elem_of_list_to_map_1 _ k); [done|]. intros ((k' & r) & -> & Hin)%list_elem_of_fmap. apply elem_of_btree_iter in Hin. cbn in E. congruence.
Qed.

Lemma lenN_snapshot m w w' : lenN (snapshot_to_bytes m w) = lenN (snapshot_to_bytes m w').
Proof. unfold snapshot_to_bytes, snapshot_body. rewrite !lenN_app. unfold u64_to_le, u32_to_le. by rewrite !lenN_le. Qed.

Lemma parses_body m w : sources_ok m -> N.of_nat (size m) <= U32_MAX -> w <= U64_MAX ->
  parses (read_body current) (snapshot_body m w) (offered <$> btree_iter m, w).
Proof.
  intros Hm Hn Hw. unfold read_body, snapshot_body. eapply parses_bind; [by apply parses_take|]. eapply parses_bind; [by apply parses_u64|].
  eapply parses_bind; [by apply parses_u32|]. rewrite <- (app_nil_r (mjoin _)). eapply parses_bind; [|apply parses_ret].
  rewrite Nat2N.id, <- length_btree_iter, <- (length_fmap offered).
  intros pre rest Hle. 
  assert (Hp : forall l, Forall (fun e : name * PassageRecord => string_ok e.1 /\ submission_ok (as_offered e.2)) l ->
    parses (read_times (read_source current) (length (offered <$> l))) (mjoin (write_source <$> l)) (offered <$> l)).
  { clear. induction 1 as [|e l [He He'] _ IH]; [apply parses_ret|]. rewrite !fmap_cons, join_cons. cbn [length read_times].
    eapply parses_bind; [by apply parses_source|]. rewrite <- (app_nil_r (mjoin _)). eapply parses_bind; [exact IH | apply parses_ret]. }
  apply Hp; [|done]. apply Forall_forall. intros [k r] Hin%elem_of_btree_iter. destruct (Hm k r Hin) as [? [? _]]. done.
Qed.

Lemma verified_sealed out : verified current (out ++ u32_to_le (crc32c out)) = Some out.
Proof.
  unfold verified. cbn [checksummed current negb]. rewrite lenN_app. unfold u32_to_le at 1. rewrite lenN_le.
  rewrite (proj2 (N.ltb_ge _ _)) by lia. replace (length (out ++ u32_to_le (crc32c out)) - 4)%nat with (length out)
    by (rewrite length_app; unfold u32_to_le; rewrite length_to_le; lia).
  rewrite take_app_length, drop_app_length, from_to_le_u32 by apply crc32c_bound. by rewrite N.eqb_refl.
Qed.

(** A snapshot reads back as the map and the watermark that were written. *)
Lemma snapshot_roundtrip m w : sources_ok m -> snapshot_room m -> w <= U64_MAX ->
  snapshot_from_bytes (snapshot_to_bytes m w) = Some (Some (m, w)).
Proof.
  intros Hm [Hn Hlen] Hw. rewrite (lenN_snapshot m 0 w) in Hlen. unfold snapshot_from_bytes.
  assert (Hp : snapshot_parse (snapshot_to_bytes m w) = Some (offered <$> btree_iter m, w)).
  { unfold snapshot_parse. assert (Hmagic : exists rest, snapshot_to_bytes m w = SNAPSHOT_MAGIC ++ rest) by
      (unfold snapshot_to_bytes, snapshot_body; rewrite <- !app_assoc; by eexists).
    destruct Hmagic as [rest Hmagic]. rewrite (proj2 (N.ltb_ge _ _)) by (rewrite Hmagic, lenN_app; change (lenN SNAPSHOT_MAGIC) with 8; lia).
    rewrite Hmagic at 1. change 8%nat with (length SNAPSHOT_MAGIC) at 1. rewrite take_app_length.
    change (generation_of SNAPSHOT_MAGIC) with (Some current). cbn [mbind option_bind].
    unfold snapshot_to_bytes in Hlen |- *. rewrite verified_sealed. cbn [mbind option_bind].
    pose proof (parses_body m w Hm Hn Hw [] []) as Hb. rewrite lenN_app in Hlen. rewrite app_nil_r in Hb. cbn [app] in Hb. change (lenN (@nil byte)) with 0 in Hb. rewrite Hb by lia.
    cbn [mbind option_bind]. by rewrite N.add_0_l, N.eqb_refl. }
  rewrite Hp, (insert_all_btree m Hm). done.
Qed.
