(* ===== verification/PassageClaims.v ===== *)
(** * What the passage store promises

    A record answers for each paragraph what was submitted for it, and the store is
    a state machine that never loses an acknowledged passage: loads, stores,
    retractions, compactions, closings and power cuts, under every outcome of the
    disk. *)

From S2P Require Export PassageThm.

Local Open Scope N_scope.

(** ** Records *)

Section kept.
Context {T : Type}.
Implicit Types ms : list (N * T).

Lemma at_paragraph_elem ms p m : m ∈ at_paragraph p ms <-> m ∈ ms /\ m.1 = p.
Proof using. unfold at_paragraph. rewrite list_elem_of_filter. tauto. Qed.

Lemma kept_last ms n p x : (p, x) ∈ (filter_markers ms n).1 <-> p < n /\ last (at_paragraph p ms) = Some (p, x).
Proof using.
  pose proof (filter_markers_at ms n p) as Hat. split.
  - intros Hin. assert (Hp : (p, x) ∈ at_paragraph p (filter_markers ms n).1) by (by apply at_paragraph_elem).
    rewrite Hat in Hp. destruct (decide (p < n)); [|set_solver]. split; [done|].
    destruct (last (at_paragraph p ms)) as [m|]; cbn in Hp; [|set_solver]. by apply list_elem_of_singleton in Hp as ->.
  - intros [Hn Hl]. rewrite decide_True, Hl in Hat by done. apply (at_paragraph_elem _ p). rewrite Hat. by left.
Qed.

Lemma kept_some ms n m : m ∈ ms -> m.1 < n -> exists x, (m.1, x) ∈ (filter_markers ms n).1.
Proof using.
  intros Hm Hn. assert (Hin : m ∈ at_paragraph m.1 ms) by (by apply at_paragraph_elem).
  destruct (last (at_paragraph m.1 ms)) as [[q x]|] eqn:Hl; [|apply last_None in Hl; rewrite Hl in Hin; set_solver].
  assert (Hq : (q, x) ∈ at_paragraph m.1 ms) by (by apply last_Some_elem_of). apply at_paragraph_elem in Hq as [_ Hq]. cbn in Hq. subst q.
  exists x. by apply kept_last.
Qed.

Lemma sorted_prefix (k : N) ms : StronglySorted (key_le fst) ms ->
  ms = filter (fun m => m.1 <= k) ms ++ filter (fun m => ~ m.1 <= k) ms.
Proof using.
  induction 1 as [|x l Hl IH Hx]; [done|]. rewrite !filter_cons. destruct (decide (x.1 <= k)) as [Hle|Hgt].
  - rewrite (decide_False (P := ~ x.1 <= k)) by tauto. cbn [app]. by f_equal.
  - rewrite (decide_True (P := ~ x.1 <= k)) by done. rewrite (filter_none (fun m => m.1 <= k)); [|].
    + cbn [app]. f_equal. symmetry. apply filter_all. intros y Hy. rewrite Forall_forall in Hx. specialize (Hx y Hy). unfold key_le in Hx. lia.
    + intros y Hy. rewrite Forall_forall in Hx. specialize (Hx y Hy). unfold key_le in Hx. lia.
Qed.

Lemma sorted_last ms m k : StronglySorted (key_le fst) ms -> last ms = Some m -> k ∈ ms -> k.1 <= m.1.
Proof using.
  intros Hs. destruct ms as [|m' ms] using rev_ind; [done|]. rewrite last_snoc. intros [= ->].
  apply StronglySorted_app in Hs as (Hall & _ & _). intros [Hk|Hk%list_elem_of_singleton]%elem_of_app; [|by subst].
  apply (Hall k m Hk). by left.
Qed.

(** The marker a walk back from [i] finds. *)
Lemma governing ms n i : i < n ->
  let kept := (filter_markers ms n).1 in
  let pos := partition_point (fun m => m.1 <=? i) kept in
  match (if pos =? 0 then None else tget kept (pos - 1)) with
  | Some (p, x) => p <= i /\ last (at_paragraph p ms) = Some (p, x) /\ forall m, m ∈ ms -> m.1 <= i -> m.1 <= p
  | None => forall m, m ∈ ms -> i < m.1
  end.
Proof using.
  intros Hi kept pos. destruct (filter_markers_kept ms n) as (Hs & _). fold kept in Hs.
  assert (Hle : StronglySorted (key_le fst) kept) by (eapply StronglySorted_impl; [|exact Hs]; unfold key_lt, key_le; intros; lia).
  pose proof (sorted_head fst i kept Hle) as Hpos. fold pos in Hpos. set (low := filter (fun m => m.1 <= i) kept) in *.
  assert (Hlow : forall m, m ∈ ms -> m.1 <= i -> exists x, (m.1, x) ∈ low).
  { intros m Hm Hmi. destruct (kept_some ms n m Hm) as [x Hx]; [lia|]. exists x. apply list_elem_of_filter. by split. }
  destruct (N.eqb_spec pos 0) as [H0|H0].
  - intros m Hm. destruct (N.lt_ge_cases i m.1) as [|Hge]; [done|]. destruct (Hlow m Hm Hge) as [x Hx].
    destruct low; [set_solver|]. rewrite Hpos in H0. unfold lenN in H0. cbn in H0. lia.
  - assert (Hlast : tget kept (pos - 1) = last low).
    { rewrite (sorted_prefix i kept Hle). fold low. rewrite tget_app_l by lia. rewrite tget_lookup, last_lookup. f_equal.
      rewrite Hpos. unfold lenN. lia. }
    rewrite Hlast. destruct (last low) as [[p x]|] eqn:El; [|apply last_None in El; rewrite El in Hpos; by rewrite Hpos in H0].
    assert (Hin : (p, x) ∈ low) by (by apply last_Some_elem_of). apply list_elem_of_filter in Hin as [Hp Hk].
    split; [done|]. split; [by apply (kept_last ms n)|]. intros m Hm Hmi. destruct (Hlow m Hm Hmi) as [y Hy].
    assert (Hls : StronglySorted (key_le fst) low) by (by apply StronglySorted_filter). exact (sorted_last low (p, x) (m.1, y) Hls El Hy).
Qed.
End kept.

Lemma laid_count off i lines spans : laid off i lines spans -> lenN spans <= lenN (mjoin lines).
Proof.
  induction 1 as [|off i blanks run rest start spans Hb Hne Hr Hrest -> Hl IH]; [unfold lenN; cbn; lia|].
  assert (Hc : forall (s : ParagraphSpan) l, lenN (s :: l) = 1 + lenN l) by (intros; unfold lenN; cbn [length]; lia).
  rewrite !join_app, !lenN_app, Hc. assert (1 <= lenN (mjoin run)); [|lia].
  destruct run as [|line run]; [done|]. apply Forall_cons in Hr as [Hline _]. rewrite join_cons, lenN_app.
  destruct line; [by vm_compute in Hline|]. unfold lenN. cbn [length]. lia.
Qed.

Lemma split_count text spans : split text = Some spans -> utf8_valid text = true -> lenN spans <= U32_MAX.
Proof.
  intros Hs Hv. assert (Hfits : lenN text <= U32_MAX) by (unfold split in Hs; by destruct (N.ltb_spec U32_MAX (lenN text))).
  destruct (split_total text Hfits Hv) as (spans' & Hs' & Hl). rewrite Hs in Hs'. injection Hs' as <-.
  apply laid_count in Hl. rewrite split_inclusive_join in Hl. lia.
Qed.

(** C39. A record answers for every paragraph what was submitted for it.  Building
    one succeeds for every valid text that fits.  Each paragraph keeps its questions
    in the order they came; its section is that of the last marker submitted for the
    nearest marked paragraph at or before it, if there is one; its locator is the
    last submitted for exactly that paragraph; an index past the end has neither.
    Tags lose only repetitions.  The drop counts are those the preview foretells,
    and building the record again from what it keeps changes nothing. *)
Theorem passage_record_exact text questions sections locators meta (Hfits : lenN text <= U32_MAX) (Hvalid : utf8_valid text = true) :
  exists r drops, PassageRecord_new text questions sections locators meta = Some (r, drops) /\
    let n := lenN (pr_paragraphs r) in
    split text = Some (pr_paragraphs r) /\
    (forall k, at_paragraph k (pr_questions r) = if decide (k < n) then at_paragraph k questions else []) /\
    (forall i, match section_for r i with
               | Some label => i < n /\ exists p, p <= i /\ last (at_paragraph p sections) = Some (p, label) /\
                   forall m, m ∈ sections -> m.1 <= i -> m.1 <= p
               | None => n <= i \/ forall m, m ∈ sections -> i < m.1
               end) /\
    (forall i, locator_for r i = if decide (i < n) then snd <$> last (at_paragraph i locators) else None) /\
    StronglySorted name_lt (tags (pr_meta r)) /\ (forall t, t ∈ tags (pr_meta r) <-> t ∈ tags meta) /\
    (dc_questions drops, dc_sections drops, dc_locators drops) = preview_drops n questions sections locators /\
    record_of (as_offered r) = Some r.
Proof.
  destruct (new_total text questions sections locators meta Hfits Hvalid) as (r & drops & Hr). exists r, drops. split; [done|].
  destruct (new_fields _ _ _ _ _ _ _ Hr) as (_ & Hp & Hq & Hs & Hl & Hm & Hd). cbv zeta in *. set (n := lenN (pr_paragraphs r)) in *.
  split; [done|]. split; [|split; [|split; [|split; [|split; [|split]]]]].
  - intros k. rewrite Hq. unfold at_paragraph. rewrite sort_by_key_stable. destruct (decide (k < n)) as [Hk|Hk].
    + rewrite list_filter_filter. apply list_filter_iff. intros q. split; [by intros [? _]|]. intros <-. by split.
    + apply filter_none. intros q [Hqn _]%list_elem_of_filter Heq. lia.
  - intros i. unfold section_for. fold n. destruct (N.leb_spec n i) as [Hge|Hlt]; [by left|]. rewrite Hs.
    pose proof (governing sections n i Hlt) as Hg. cbv zeta in Hg. destruct (partition_point _ _ =? 0); [by right|].
    destruct (tget _ _) as [[p x]|]; cbn [fmap option_fmap option_map snd]; [|by right]. split; [done|]. by exists p.
  - intros i. unfold locator_for. fold n. destruct (N.leb_spec n i) as [Hge|Hlt]; [by rewrite decide_False by lia|].
    rewrite (decide_True (P := i < n)) by done. pose proof (split_count text _ Hp Hvalid) as Hc. fold n in Hc.
    unfold as_u32. rewrite N.mod_small by lia. unfold binary_search_by_key. rewrite list_find_head, Hl.
    pose proof (filter_markers_at locators n i) as Hat. unfold at_paragraph in Hat at 1. rewrite Hat, (decide_True (P := i < n)) by done.
    by destruct (last (at_paragraph i locators)).
  - rewrite Hm. apply dedup_eq_sorted, StronglySorted_merge_sort; apply _.
  - intros t. rewrite Hm. cbn [tags]. by rewrite dedup_eq_elem, merge_sort_Permutation.
  - rewrite Hd. cbn [dc_questions dc_sections dc_locators]. unfold preview_drops.
    assert (Hdq : lenN questions - lenN (pr_questions r) = lenN (filter (fun q => n <= q.1) questions)); [|by rewrite Hdq].
    rewrite Hq. unfold lenN at 2. rewrite sort_by_key_perm. clear. unfold lenN. induction questions as [|q questions IH]; [done|].
    pose proof (length_filter (fun q : N * name => q.1 < n) questions). rewrite !filter_cons.
    destruct (decide (q.1 < n)), (decide (n <= q.1)); try lia; cbn [length] in *; lia.
  - by eapply new_again.
Qed.

(** ** What the operations mean *)

Definition submitted (op : PassageOp) : PassageSubmission :=
  match op with
  | Store _ text questions sections locators st d ts =>
      {| ps_text := text; ps_questions := questions; ps_sections := sections; ps_locators := locators;
         ps_meta := {| stored_at := st; date := d; tags := ts |} |}
  | Retract _ => {| ps_text := []; ps_questions := []; ps_sections := []; ps_locators := []; ps_meta := SourceMeta_default |}
  end.

Definition op_source (op : PassageOp) : name := match op with Store source _ _ _ _ _ _ _ | Retract source => source end.

(** The last write to a source wins. *)
Definition effect (op : PassageOp) (m : gmap name PassageRecord) : gmap name PassageRecord :=
  match op with
  | Store source _ _ _ _ _ _ _ => match record_of (submitted op) with Some r => <[source := r]> m | None => m end
  | Retract source => delete source m
  end.
Definition effects (ops : list PassageOp) (m : gmap name PassageRecord) : gmap name PassageRecord := foldl (fun m op => effect op m) m ops.

Definition passage_ok (op : PassageOp) : Prop := string_ok (op_source op) /\ submission_ok (submitted op).

Lemma effects_app ops ops' m : effects (ops ++ ops') m = effects ops' (effects ops m).
Proof. apply foldl_app. Qed.

(** A store builds its record. *)
Lemma store_record source text questions sections locators st d ts : passage_ok (Store source text questions sections locators st d ts) ->
  exists r drops, PassageRecord_new text questions sections locators {| stored_at := st; date := d; tags := ts |} = Some (r, drops) /\
    record_ok r /\ forall m, effect (Store source text questions sections locators st d ts) m = <[source := r]> m.
Proof.
  intros [_ Hok]. destruct (record_of_ok _ Hok) as (r & drops & Hr & Hrok). cbn in Hr. exists r, drops. split; [done|]. split; [done|].
  intros m. cbn [effect submitted]. unfold record_of. cbn [ps_text ps_questions ps_sections ps_locators ps_meta]. by rewrite Hr.
Qed.

Lemma effect_ok op m : passage_ok op -> sources_ok m -> sources_ok (effect op m).
Proof.
  intros Hop Hm source r. destruct op as [source' text qs ss ls st d ts|source'].
  - destruct (store_record _ _ _ _ _ _ _ _ Hop) as (r' & _ & _ & Hr & ->). destruct Hop as [Hs _].
    intros [[<- <-]|[_ Hl]]%lookup_insert_Some; [done | by apply Hm].
  - cbn [effect]. intros [_ Hl]%lookup_delete_Some. by apply Hm.
Qed.

Lemma effects_ok ops : Forall passage_ok ops -> forall m, sources_ok m -> sources_ok (effects ops m).
Proof. induction 1 as [|op ops Hop _ IH]; intros m Hm; [done|]. cbn. by apply IH, effect_ok. Qed.

Lemma ok_bounded source text : string_ok text -> bounded_text source text = Ok text.
Proof. intros [_ Hl]. unfold bounded_text. by rewrite (proj2 (N.ltb_ge _ _)). Qed.

(** Replay and the live path have the same effect. *)
Lemma replay_passages_effects ops : Forall passage_ok ops -> forall m, replay_passages ops m = Some (Ok (effects ops m)).
Proof.
  induction 1 as [|op ops Hop _ IH]; intros m; [done|]. destruct op as [source text qs ss ls st d ts|source]; cbn [replay_passages].
  - rewrite ok_bounded by apply Hop. destruct (store_record _ _ _ _ _ _ _ _ Hop) as (r & drops & -> & _ & He). cbn [mbind option_bind].
    rewrite IH. cbn [effects foldl]. by rewrite He.
  - apply IH.
Qed.

(** ** The resident estimate *)

Lemma sum_of_perm {A} (f : A -> N) l k : l ≡ₚ k -> sum_of f l = sum_of f k.
Proof. induction 1; cbn [sum_of foldr] in *; unfold sum_of in *; cbn [foldr]; lia. Qed.

Lemma total_list m : total_bytes m = sum_of (fun e => record_bytes e.1 e.2) (map_to_list m).
Proof. unfold total_bytes. apply sum_of_perm, btree_iter_perm. Qed.

Lemma total_insert_new m k r : m !! k = None -> total_bytes (<[k := r]> m) = record_bytes k r + total_bytes m.
Proof. intros Hk. rewrite !total_list. by rewrite (sum_of_perm _ _ _ (map_to_list_insert m k r Hk)). Qed.

Lemma total_delete m k r : m !! k = Some r -> total_bytes m = record_bytes k r + total_bytes (delete k m).
Proof. intros Hk. rewrite <- (insert_delete_id m k r Hk) at 1. apply total_insert_new, lookup_delete_eq. Qed.

Lemma u64_sub_cancel a b : u64_sub ((a + b) mod (U64_MAX + 1)) b = a mod (U64_MAX + 1).
Proof.
  unfold u64_sub. set (M := U64_MAX + 1). assert (HM : M <> 0) by (unfold M, U64_MAX; lia).
  rewrite N.Div0.add_mod_idemp_l. pose proof (N.mod_lt b M HM) as Hlt. pose proof (N.div_mod b M HM) as Hb.
  replace (a + b + (M - b mod M)) with (a + (b / M + 1) * M) by nia. by rewrite N.Div0.mod_add.
Qed.

(** The counter is the sum over the map, modulo its width. *)
Definition counted (s : PassageStore) : Prop := resident_bytes s = total_bytes (sources s) mod (U64_MAX + 1).

Lemma counted_store m k r n : n = total_bytes m mod (U64_MAX + 1) ->
  (match m !! k with Some previous => u64_sub (u64_add n (record_bytes k r)) (record_bytes k previous) | None => u64_add n (record_bytes k r) end) =
  total_bytes (<[k := r]> m) mod (U64_MAX + 1).
Proof.
  intros ->. unfold u64_add. rewrite N.Div0.add_mod_idemp_l. destruct (m !! k) as [previous|] eqn:Hk.
  - rewrite (total_delete m k previous Hk). rewrite <- insert_delete_eq, total_insert_new by apply lookup_delete_eq.
    replace (record_bytes k previous + total_bytes (delete k m) + record_bytes k r) with
      (record_bytes k r + total_bytes (delete k m) + record_bytes k previous) by lia. apply u64_sub_cancel.
  - rewrite total_insert_new by done. f_equal. lia.
Qed.

Lemma counted_retract m k n : n = total_bytes m mod (U64_MAX + 1) ->
  (match m !! k with Some previous => u64_sub n (record_bytes k previous) | None => n end) = total_bytes (delete k m) mod (U64_MAX + 1).
Proof.
  intros ->. destruct (m !! k) as [previous|] eqn:Hk.
  - rewrite (total_delete m k previous Hk), (N.add_comm (record_bytes k previous)). apply u64_sub_cancel.
  - by rewrite delete_id.
Qed.

(** Everything of a store but its resident half. *)
Definition same_files (s s' : PassageStore) : Prop :=
  next_seq s' = next_seq s /\ log_bytes s' = log_bytes s /\ snapshot_bytes s' = snapshot_bytes s /\ max_log_bytes s' = max_log_bytes s /\
  snapshot_file s' = snapshot_file s /\ legacy_file s' = legacy_file s /\ log_file s' = log_file s.

Lemma apply_ops_effects ops : Forall passage_ok ops -> forall counts s, counted s ->
  exists counts' s', apply_ops ops (counts, s) = Some (counts', s') /\ sources s' = effects ops (sources s) /\ counted s' /\ same_files s s'.
Proof.
  induction 1 as [|op ops Hop _ IH]; intros counts s Hc; [by exists counts, s|]. cbn [apply_ops].
  assert (Hstep : exists c1 s1, apply_op op (counts, s) = Some (c1, s1) /\ sources s1 = effect op (sources s) /\ counted s1 /\ same_files s s1).
  { destruct op as [source text qs ss ls st d ts|source]; cbn [apply_op].
    - destruct (store_record _ _ _ _ _ _ _ _ Hop) as (r & drops & -> & _ & He). cbn [mbind option_bind]. do 2 eexists. split; [done|].
      cbn [sources set_resident]. rewrite He. split; [done|]. split; [by apply counted_store | done].
    - do 2 eexists. split; [done|]. cbn [sources set_resident effect]. split; [done|]. split; [by apply counted_retract | done]. }
  destruct Hstep as (c1 & s1 & -> & Hs1 & Hc1 & Hf1). cbn [mbind option_bind]. destruct (IH c1 s1 Hc1) as (c2 & s2 & -> & Hs2 & Hc2 & Hf2).
  exists c2, s2. split; [done|]. split; [by rewrite Hs2, Hs1|]. split; [done|]. unfold same_files in *. intuition congruence.
Qed.

(** ** What the files cover *)

Section store.
Context `{WalJsonLaws PassageOp} (legacy_json : bytes -> option (gmap name name)).

(** The passages of the file of before the store. *)
Definition bare (text : name) : PassageSubmission :=
  {| ps_text := text; ps_questions := []; ps_sections := []; ps_locators := []; ps_meta := SourceMeta_default |}.

Definition legacy_sources (f : file) : gmap name PassageRecord := omap (fun text => record_of (bare text)) (read_legacy legacy_json true f).

Definition legacy_ok (f : file) : Prop :=
  forall source text, read_legacy legacy_json true f !! source = Some text -> string_ok source /\ string_ok text.

(** Loading the base and replaying the log finds [a]; [next] is the number after the
    last one used. *)
Definition covers (L : file -> N -> list PassageOp -> Prop) (snap legacy f : file) (next : N) (a : gmap name PassageRecord) : Prop :=
  exists m0 w first ops,
    ((snap = Some (snapshot_to_bytes m0 w) /\ snapshot_room m0) \/ (snap = None /\ w = 0 /\ legacy_ok legacy /\ m0 = legacy_sources legacy)) /\
    sources_ok m0 /\
    (L f first ops /\ exact ops /\ Forall passage_ok ops /\ first <= w + 1 <= first + lenN ops) /\
    (first + lenN ops = next /\ next <= U64_MAX) /\
    effects (drop (N.to_nat (w + 1 - first)) ops) m0 = a.

Lemma passages_covers_torn snap legacy f next a : covers logs snap legacy f next a -> covers logs_torn snap legacy f next a.
Proof using.
  intros (m0 & w & first & ops & ? & ? & (? & ?) & ?). exists m0, w, first, ops. do 2 (split; [done|]). split; [|done]. split; [by left | done].
Qed.

Lemma covers_next L snap legacy f next a : covers L snap legacy f next a -> 1 <= next <= U64_MAX.
Proof using. clear. intros (m0 & w & first & ops & _ & _ & (_ & _ & _ & ?) & (? & ?) & _). lia. Qed.

Lemma covers_ok L snap legacy f next a : covers L snap legacy f next a -> sources_ok a.
Proof using.
  clear. intros (m0 & w & first & ops & _ & Hm & (_ & _ & Hok & _) & _ & <-). apply effects_ok; [by apply Forall_drop | done].
Qed.

(** More records. *)
Lemma passages_covers_extend (L L' : file -> N -> list PassageOp -> Prop) snap legacy f f' next ops a :
  covers L snap legacy f next a -> exact ops -> Forall passage_ok ops -> next + lenN ops <= U64_MAX ->
  (forall first ops0, L f first ops0 -> first + lenN ops0 = next -> L' f' first (ops0 ++ ops)) ->
  covers L' snap legacy f' (next + lenN ops) (effects ops a).
Proof using.
  clear. intros (m0 & w & first & ops0 & Hb & Hm & (Hl & He & Hok & Hw) & (Hn & Hmax) & <-) Hex Hops Hle Hlog.
  exists m0, w, first, (ops0 ++ ops). rewrite lenN_app. split; [done|]. split; [done|].
  split; [split; [by apply Hlog | split; [by apply Forall_app | split; [by apply Forall_app | lia]]]|]. split; [lia|].
  rewrite drop_app_le by (unfold lenN in *; lia). apply effects_app.
Qed.

(** A new snapshot of everything, over any log that ends there. *)
Lemma passages_covers_snapshot snap legacy legacy' f next a : covers logs snap legacy f next a -> snapshot_room a ->
  covers logs (Some (snapshot_to_bytes a (next - 1))) legacy' f next a.
Proof using.
  clear. intros Hc Hroom. pose proof (covers_next _ _ _ _ _ _ Hc) as Hn1. pose proof (covers_ok _ _ _ _ _ _ Hc) as Hok.
  destruct Hc as (m0 & w & first & ops & _ & _ & (Hl & He & Hops & Hw) & (Hn & Hmax) & _).
  exists a, (next - 1), first, ops. split; [by left|]. split; [done|]. split; [split; [done | split; [done | split; [done | lia]]]|].
  split; [done|]. rewrite drop_ge by (unfold lenN in *; lia). done.
Qed.

(** It needs no log. *)
Lemma covers_emptied f legacy next a : emptied f -> sources_ok a -> snapshot_room a -> 1 <= next <= U64_MAX ->
  covers logs (Some (snapshot_to_bytes a (next - 1))) legacy f next a.
Proof using.
  clear. intros Hf Hok Hroom Hn. exists a, (next - 1), next, []. split; [by left|]. split; [done|]. change (lenN (@nil PassageOp)) with 0.
  split; [split; [by apply emptied_logs | split; [constructor | split; [constructor | lia]]]|]. split; [lia|]. by rewrite drop_nil.
Qed.

Lemma reset_leaves io f : (reset io f).2 = f \/ emptied (reset io f).2.
Proof using.
  clear. unfold reset, truncate_to. destruct f as [bs|]; [|by left]. destruct (negb _); [by left|].
  destruct (_ <? _); [by left|]. destruct (negb _); [by left|]. right. destruct (t_sync io); right; done.
Qed.

(** ** Load *)

Lemma insert_legacy_list l : Forall (fun e : name * name => string_ok e.2) l -> forall m,
  exists m', insert_legacy l m = Some (Ok m') /\
    (NoDup l.*1 -> forall k, m' !! k = match (list_to_map l : gmap name name) !! k with Some text => record_of (bare text) | None => m !! k end).
Proof using.
  clear. induction 1 as [|[k0 t0] l Ht _ IH]; intros m; [by exists m|]. cbn [insert_legacy fst snd] in *. rewrite ok_bounded by done.
  destruct (new_total t0 [] [] [] SourceMeta_default) as (r & drops & Hr); [by apply Ht | by apply Ht|]. rewrite Hr. cbn [mbind option_bind].
  destruct (IH (<[k0 := r]> m)) as (m' & -> & Hk). exists m'. split; [done|]. rewrite fmap_cons. intros [Hn Hnd]%NoDup_cons k. rewrite (Hk Hnd).
  cbn [list_to_map foldr fst snd]. destruct (decide (k = k0)) as [->|Hne].
  - rewrite (not_elem_of_list_to_map_1 _ _ Hn). cbn. rewrite !lookup_insert_eq. unfold record_of. cbn [bare ps_text ps_questions ps_sections ps_locators ps_meta].
    by rewrite Hr.
  - cbn. by rewrite !lookup_insert_ne by done.
Qed.

Lemma insert_legacy_all f : legacy_ok f -> insert_legacy (btree_iter (read_legacy legacy_json true f)) ∅ = Some (Ok (legacy_sources f)).
Proof using.
  clear. intros Hok. set (m := read_legacy legacy_json true f) in *. destruct (insert_legacy_list (btree_iter m)) with (m := (∅ : gmap name PassageRecord)) as (m' & -> & Hk).
  - apply Forall_forall. intros [k t] Hin%elem_of_btree_iter. by apply (Hok k t).
  - do 2 f_equal. apply map_eq. intros k. rewrite (Hk (NoDup_btree_keys m)). unfold legacy_sources. rewrite lookup_omap. fold m.
    destruct (m !! k) as [t|] eqn:E.
    + by rewrite (elem_of_list_to_map_1 _ k t (NoDup_btree_keys m)) by (by apply elem_of_btree_iter).
    + rewrite (not_elem_of_list_to_map_1 _ k); [done|]. intros ((k' & r) & -> & Hin)%list_elem_of_fmap. apply elem_of_btree_iter in Hin. cbn in E. congruence.
Qed.

Lemma bare_ok text : string_ok text -> submission_ok (bare text).
Proof using. clear. intros. split; try done; split; try constructor; done. Qed.

Lemma legacy_sources_ok f : legacy_ok f -> sources_ok (legacy_sources f).
Proof using.
  clear. intros Hok source r. unfold legacy_sources. rewrite lookup_omap. intros (text & Ht & Hr)%bind_Some.
  destruct (Hok _ _ Ht) as [Hs Htext]. split; [done|]. destruct (record_of_ok _ (bare_ok text Htext)) as (r' & drops & Hr' & Hrok).
  unfold record_of in Hr. rewrite Hr' in Hr. cbn in Hr. by injection Hr as <-.
Qed.

(** The base a load starts from. *)
Lemma load_base_covers io snap legacy f next a : covers logs_torn snap legacy f next a -> l_legacy io = true ->
  (exists e, load_base legacy_json io snap legacy = Some (Err e) /\ l_read io = false) \/
  exists m0 w n first ops, load_base legacy_json io snap legacy = Some (Ok (m0, w, n)) /\ sources_ok m0 /\
    (logs_torn f first ops /\ exact ops /\ Forall passage_ok ops /\ first <= w + 1 <= first + lenN ops) /\
    (first + lenN ops = next /\ next <= U64_MAX) /\ effects (drop (N.to_nat (w + 1 - first)) ops) m0 = a /\
    forall (L : file -> N -> list PassageOp -> Prop) f', L f' first ops -> covers L snap legacy f' next a.
Proof using.
  intros (m0 & w & first & ops & Hb & Hm & (Hl & He & Hok & Hw) & (Hn & Hmax) & Ha) Hio.
  assert (Hcov : forall (L : file -> N -> list PassageOp -> Prop) f', L f' first ops -> covers L snap legacy f' next a)
    by (intros L f' Hf'; by exists m0, w, first, ops).
  destruct Hb as [[-> Hroom]|(-> & -> & Hleg & ->)]; cbn [load_base].
  - destruct (l_read io); cbn [negb]; [right|left; by eexists]. rewrite snapshot_roundtrip by (done || lia). cbn [mbind option_bind].
    exists m0, w, (lenN (snapshot_to_bytes m0 w)), first, ops. auto 10.
  - right. rewrite Hio, insert_legacy_all by done. cbn [mbind option_bind]. exists (legacy_sources legacy), 0, 0, first, ops. auto 10.
Qed.

Lemma load_keeps io cap snap legacy f next a r f' : covers logs_torn snap legacy f next a -> l_legacy io = true ->
  load legacy_json io cap true snap legacy f = Some (r, f') ->
  match r with
  | Ok (s, torn, unchecked) => sources s = a /\ counted s /\ next_seq s = next /\ torn = None /\ unchecked = 0 /\
      snapshot_file s = snap /\ legacy_file s = legacy /\ log_file s = f' /\ covers logs snap legacy f' next a
  | Err _ => covers logs_torn snap legacy f' next a
  end.
Proof using All.
  intros Hcov Hio. unfold load. destruct (load_base_covers io snap legacy f next a Hcov Hio) as [(e & -> & _)|(m0 & w & n & first & ops & -> & Hm & (Hl & He & Hok & Hw) & (Hn & Hmax) & Ha & Hlog)].
  { intros [= <- <-]. done. }
  cbn [mbind option_bind replay_log]. pose proof (replay_keeps_logs (l_replay io) w f first ops Hl ltac:(lia)) as Hk.
  destruct (replay (l_replay io) w f) as [[r0|e] f1].
  - destruct Hk as [Hf ->]. rewrite replayed_drop by (done || lia). rewrite replay_passages_effects by (by apply Forall_drop). cbn [mbind option_bind].
    intros [= <- <-]. cbn [sources next_seq snapshot_file legacy_file log_file]. split; [done|]. split; [unfold counted; cbn [resident_bytes sources]; done|].
    split; [|do 5 (split; [done|]); by apply Hlog]. rewrite <- (top_of_next w first (lenN ops)) in Hn by done. unfold u64_add. rewrite N.mod_small by lia. done.
  - intros [= <- <-]. by apply Hlog.
Qed.

(** A load whose disk works. *)
Definition works (io : LoadIo) : Prop := l_read io = true /\ l_legacy io = true /\ io_fine (l_replay io).

Lemma load_succeeds io cap snap legacy f next a : covers logs_torn snap legacy f next a -> works io ->
  exists s f', load legacy_json io cap true snap legacy f = Some (Ok (s, None, 0), f') /\ sources s = a /\ next_seq s = next.
Proof using All.
  intros Hcov (Hr & Hleg & Hfine). assert (Hl : exists s f', load legacy_json io cap true snap legacy f = Some (Ok (s, None, 0), f')).
  { unfold load. destruct (load_base_covers io snap legacy f next a Hcov Hleg) as [(e & _ & Hno)|(m0 & w & n & first & ops & -> & Hm & (Hl & He & Hok & Hw) & (Hn & Hmax) & _)];
      [by rewrite Hr in Hno|]. cbn [mbind option_bind replay_log].
    destruct (replay_answers (l_replay io) w f first ops Hfine Hl ltac:(lia)) as [f' ->]. rewrite replayed_drop by (done || lia).
    rewrite replay_passages_effects by (by apply Forall_drop). cbn [mbind option_bind]. by do 2 eexists. }
  destruct Hl as (s & f' & Hl). exists s, f'. split; [done|]. destruct (load_keeps _ _ _ _ _ _ _ _ _ Hcov Hleg Hl) as (? & _ & ? & _). done.
Qed.

(** ** Compaction and writes *)

(** A resident store whose map is [a], and whose files cover it. *)
Record resident (s : PassageStore) (a : gmap name PassageRecord) : Prop := {
  res_sources : sources s = a;
  res_counted : counted s;
  res_room : snapshot_room a;
  res_covers : covers logs (snapshot_file s) (legacy_file s) (log_file s) (next_seq s) a
}.

Lemma compact_locked_keeps io s a ok s' : resident s a -> compact_locked io s = (ok, s') -> resident s' a /\ next_seq s' = next_seq s.
Proof using.
  intros [Hs Hc Hroom Hcov]. pose proof (covers_next _ _ _ _ _ _ Hcov) as Hn. pose proof (covers_ok _ _ _ _ _ _ Hcov) as Hok.
  unfold compact_locked. rewrite Hs. assert (Hsub : u64_sub (next_seq s) 1 = next_seq s - 1).
  { replace (next_seq s) with (next_seq s - 1 + 1) at 1 by lia. rewrite <- (N.mod_small (next_seq s - 1 + 1) (U64_MAX + 1)) by lia.
    rewrite u64_sub_cancel. apply N.mod_small. lia. }
  rewrite Hsub. set (bs := snapshot_to_bytes a (next_seq s - 1)).
  assert (Hw : (write_atomic (k_write io) (Some bs) (snapshot_file s)).2 = Some bs \/ write_atomic (k_write io) (Some bs) (snapshot_file s) = (false, snapshot_file s)).
  { unfold write_atomic. destruct (negb _); [by right|]. unfold commit_staged. destruct (negb _); [by right | by left]. }
  assert (Hfresh : forall legacy, covers logs (Some bs) legacy (log_file s) (next_seq s) a) by (intros; by eapply passages_covers_snapshot).
  destruct (write_atomic _ _ _) as [b f]. cbn [snd] in Hw. destruct b; cbn [negb].
  - destruct Hw as [->|Hw]; [|done]. cbn [next_seq set_compacted set_snapshot log_file]. rewrite N.eqb_refl.
    destruct (reset_leaves (k_reset io) (log_file s)) as [Hf|Hf]; destruct (reset (k_reset io) (log_file s)) as [r f']; cbn [snd] in Hf;
      destruct r; intros [= <- <-]; (split; [|done]); split; try done; cbn [snapshot_file legacy_file log_file next_seq set_log_file set_compacted set_snapshot];
      try (rewrite Hf; apply Hfresh); by apply covers_emptied.
  - intros [= <- <-]. split; [|done]. split; try done. cbn [snapshot_file legacy_file log_file next_seq set_snapshot].
    destruct Hw as [->|[= ->]]; [apply Hfresh | done].
Qed.

(** An append that failed and was rolled back. *)
Definition rolled_back (io : PassageIo) : Prop := a_set_len (p_append io) = true.

Lemma append_refused_logs io next (ops : list PassageOp) f e f' first ops0 : append_batch io next ops f = (Err e, f') -> a_set_len io = true ->
  logs f first ops0 -> first + lenN ops0 = next -> next + lenN ops <= U64_MAX + 1 -> logs f' first ops0.
Proof using All.
  intros Ha Hset (rs & He & Hh) <- Hle. pose proof (append_cases io _ ops f rs Hh Hle) as Hc. rewrite Ha in Hc.
  destruct Hc as [Hh'|(? & ? & _ & _ & Hno)]; [by exists rs | congruence].
Qed.

(** What may be appended: numbers are left, the operations fit and read back, and so
    does every map they pass through. *)
Definition admissible (ops : list PassageOp) (s : PassageStore) : Prop :=
  next_seq s + lenN ops <= U64_MAX /\ exact ops /\ Forall passage_ok ops /\ forall j, snapshot_room (effects (take j ops) (sources s)).

Lemma append_and_apply_keeps io ops s a r s' : resident s a -> admissible ops s -> append_and_apply_locked io ops s = Some (r, s') ->
  match r with
  | Ok _ => resident s' (effects ops a) /\ next_seq s' = next_seq s + lenN ops
  | Err _ => rolled_back io -> resident s' a
  end.
Proof using All.
  intros [Hs Hc Hroom Hcov] (Hle & Hex & Hops & Hrooms). unfold append_and_apply_locked.
  destruct (append_batch (p_append io) (next_seq s) ops (log_file s)) as [[n|e] f] eqn:Ha.
  - set (s1 := set_log_file (log_bytes s) f s). destruct (apply_ops_effects ops Hops AppliedCounts_default s1 Hc) as (c2 & s2 & -> & Hs2 & Hc2 & Hf2).
    cbn [mbind option_bind]. set (s3 := set_numbers _ _ s2).
    assert (Hres : resident s3 (effects ops a)).
    { destruct Hf2 as (_ & _ & _ & _ & Hsnap & Hleg & Hlog). split.
      - cbn [sources s3 set_numbers]. by rewrite Hs2, <- Hs.
      - exact Hc2.
      - rewrite <- Hs, <- (firstn_all ops). apply Hrooms.
      - cbn [snapshot_file legacy_file log_file next_seq s3 set_numbers]. rewrite Hsnap, Hleg, Hlog. cbn [s1 set_log_file snapshot_file legacy_file log_file].
        unfold u64_add at 1. rewrite N.mod_small by lia. eapply passages_covers_extend; [exact Hcov | done | done | done |].
        intros first ops0 Hl Hn. by destruct (append_logs _ _ _ _ _ _ first ops0 Ha Hl Hn ltac:(lia)). }
    assert (Hnext : next_seq s3 = next_seq s + lenN ops) by (cbn [next_seq s3 set_numbers]; apply N.mod_small; lia).
    intros [= <- <-]. match goal with |- context [if ?over then _ else s3] => destruct over end; [|done].
    destruct (compact_locked (p_compact io) s3) as [b s4] eqn:Hk. destruct (compact_locked_keeps _ _ _ _ _ Hres Hk) as [? Hn4]. by rewrite <- Hnext.
  - intros [= <- <-] Hback. split; try done. cbn [snapshot_file legacy_file log_file next_seq set_log_file].
    destruct Hcov as (m0 & w & first & ops0 & Hb & Hm & (Hl & He & Hok & Hw) & (Hn & Hmax) & Heff). exists m0, w, first, ops0.
    split; [done|]. split; [done|]. split; [|done]. split; [|done]. by eapply append_refused_logs; [exact Ha | | | | lia].
Qed.

(** ** The system *)

(** The store in memory, or only its files: the snapshot, the legacy file, the log. *)
Inductive place := Resident (s : PassageStore) | Closed (snap legacy log : file).

Definition closed (s : PassageStore) : place := Closed (snapshot_file s) (legacy_file s) (log_file s).

Inductive event :=
  | Quiet                           (* nothing was acknowledged *)
  | Applied (ops : list PassageOp)  (* these operations were *)
  | Absent (source : name)          (* a retraction found nothing *)
  | Cut (ops : list PassageOp).     (* the power failed on this batch *)

Definition acknowledged {A} (ops : list PassageOp) (r : result A PassageError) : event := match r with Ok _ => Applied ops | Err _ => Quiet end.

Definition retracted (source : name) (r : result bool PassageError) : event :=
  match r with Ok true => Applied [Retract source] | Ok false => Absent source | Err _ => Quiet end.

(** One hold of the writer's lock, a load, or the loss of what is in memory. *)
Inductive step : place -> event -> place -> Prop :=
  | step_load io cap snap legacy f r f' : l_legacy io = true -> load legacy_json io cap true snap legacy f = Some (r, f') ->
      step (Closed snap legacy f) Quiet (match r with Ok (s, _, _) => Resident s | Err _ => Closed snap legacy f' end)
  | step_store io now passages s r s' : let ops := store_op now <$> btree_iter passages in
      admissible ops s -> store_passages io now passages s = Some (r, s') -> (is_ok r = false -> rolled_back io) ->
      step (Resident s) (acknowledged ops r) (Resident s')
  | step_refused io now passages s e s' : store_passages io now passages s = Some (Err e, s') -> (forall why, e <> LogRefused why) ->
      step (Resident s) Quiet (Resident s')
  | step_retract io source s r s' : admissible [Retract source] s -> retract io source s = Some (r, s') -> (is_ok r = false -> rolled_back io) ->
      step (Resident s) (retracted source r) (Resident s')
  | step_compact io s ok s' : compact io s = (ok, s') -> step (Resident s) Quiet (Resident s')
  | step_compact_if io floor s ran s' : compact_if_log_outgrew_snapshot io floor s = (ran, s') -> step (Resident s) Quiet (Resident s')
  | step_close s : step (Resident s) Quiet (closed s)
  | step_power_cut io ops s r f : admissible ops s -> append_batch io (next_seq s) ops (log_file s) = (r, f) ->
      step (Resident s) (Cut ops) (Closed (snapshot_file s) (legacy_file s) f).

Inductive steps : place -> list event -> place -> Prop :=
  | steps_nil x : steps x [] x
  | steps_snoc x es y e z : steps x es y -> step y e z -> steps x (es ++ [e]) z.

(** What the events mean for the one map the clients talk to. *)
Definition meaning (e : event) (a a' : gmap name PassageRecord) : Prop :=
  match e with
  | Quiet => a' = a
  | Applied ops => a' = effects ops a
  | Absent source => a' = a /\ a !! source = None
  | Cut ops => exists j, (j <= length ops)%nat /\ a' = effects (take j ops) a
  end.

Inductive meanings : list event -> gmap name PassageRecord -> gmap name PassageRecord -> Prop :=
  | meanings_nil a : meanings [] a a
  | meanings_snoc es e a b c : meanings es a b -> meaning e b c -> meanings (es ++ [e]) a c.

Definition durable (x : place) (a : gmap name PassageRecord) : Prop :=
  match x with
  | Resident s => resident s a
  | Closed snap legacy f => snapshot_room a /\ exists next, covers logs_torn snap legacy f next a
  end.

Lemma closed_durable s a : resident s a -> durable (closed s) a.
Proof using. intros [_ _ Hroom Hcov]. split; [done|]. eexists. by apply passages_covers_torn. Qed.

Lemma store_simulates io now passages s a r s' : let ops := store_op now <$> btree_iter passages in
  resident s a -> admissible ops s -> store_passages io now passages s = Some (r, s') -> (is_ok r = false -> rolled_back io) ->
  exists a', meaning (acknowledged ops r) a a' /\ resident s' a'.
Proof using All.
  intros ops Hres Hadm. unfold store_passages. fold ops. destruct (list_find _ _) as [[i [source sub]]|]; [by intros [= <- <-] _; exists a|].
  destruct (N.eqb_spec (lenN ops) 0) as [Hnone|_].
  { intros [= <- <-] _. exists a. split; [|done]. cbn. by destruct ops. }
  destruct (_ && _ && _); [by intros [= <- <-] _; exists a|].
  destruct (append_and_apply_locked io ops s) as [[r1 s1]|] eqn:Hrun; [|done]. cbn [mbind option_bind]. intros [= <- <-] Hback.
  pose proof (append_and_apply_keeps _ _ _ _ _ _ Hres Hadm Hrun) as Hk. destruct r1 as [counts|e]; cbn [acknowledged].
  - exists (effects ops a). by destruct Hk.
  - exists a. split; [done|]. by apply Hk, Hback.
Qed.

Lemma refused_unchanged io now passages s e s' : store_passages io now passages s = Some (Err e, s') -> (forall why, e <> LogRefused why) -> s' = s.
Proof using.
  unfold store_passages. destruct (list_find _ _) as [[i [source sub]]|]; [by intros [= <- <-]|]. cbv zeta. destruct (_ =? 0); [done|].
  destruct (_ && _ && _); [by intros [= <- <-]|]. unfold append_and_apply_locked.
  destruct (append_batch _ _ _ _) as [[n|why] f].
  - destruct (apply_ops _ _) as [[c s1]|]; done.
  - cbn. intros [= <- <-] Hno. by destruct (Hno why).
Qed.

Lemma retract_simulates io source s a r s' : resident s a -> admissible [Retract source] s -> retract io source s = Some (r, s') ->
  (is_ok r = false -> rolled_back io) -> exists a', meaning (retracted source r) a a' /\ resident s' a'.
Proof using All.
  intros Hres Hadm. unfold retract. rewrite (res_sources _ _ Hres). destruct (a !! source) as [previous|] eqn:Hs.
  - destruct (append_and_apply_locked io _ s) as [[r1 s1]|] eqn:Hrun; [|done]. cbn [mbind option_bind]. intros [= <- <-] Hback.
    pose proof (append_and_apply_keeps _ _ _ _ _ _ Hres Hadm Hrun) as Hk. destruct r1 as [counts|e]; cbn [retracted].
    + exists (effects [Retract source] a). by destruct Hk.
    + exists a. split; [done|]. by apply Hk, Hback.
  - intros [= <- <-] _. by exists a.
Qed.

Lemma passages_cut_simulates io ops s a r f : resident s a -> admissible ops s -> append_batch io (next_seq s) ops (log_file s) = (r, f) ->
  exists a', meaning (Cut ops) a a' /\ durable (Closed (snapshot_file s) (legacy_file s) f) a'.
Proof using All.
  intros [Hs _ _ Hcov] (Hle & Hex & Hops & Hrooms) Ha.
  destruct Hcov as (m0 & w & first & ops0 & Hb & Hm & (Hl & He & Hok & Hw) & (Hn & Hmax) & Heff).
  destruct (append_cut io _ ops _ _ _ first ops0 Ha Hl Hn ltac:(lia)) as (j & Hj & Hlog & _).
  assert (Hlj : lenN (take j ops) = N.of_nat j) by (unfold lenN; rewrite length_take; lia).
  exists (effects (take j ops) a). split; [by exists j|]. split; [rewrite <- Hs; apply Hrooms|]. exists (next_seq s + N.of_nat j).
  exists m0, w, first, (ops0 ++ take j ops). rewrite lenN_app, Hlj. split; [done|]. split; [done|].
  split; [split; [done | split; [apply Forall_app; split; [done | by apply Forall_take] | split; [apply Forall_app; split; [done | by apply Forall_take] | lia]]]|].
  split; [unfold lenN in *; lia|]. rewrite drop_app_le by (unfold lenN in *; lia). by rewrite effects_app, Heff.
Qed.

Lemma passages_load_simulates io cap snap legacy f a r f' : durable (Closed snap legacy f) a -> l_legacy io = true ->
  load legacy_json io cap true snap legacy f = Some (r, f') ->
  durable (match r with Ok (s, _, _) => Resident s | Err _ => Closed snap legacy f' end) a.
Proof using All.
  intros [Hroom [next Hcov]] Hleg Hl. pose proof (load_keeps _ _ _ _ _ _ _ _ _ Hcov Hleg Hl) as Hk.
  destruct r as [[[s torn] unchecked]|e]; [|by split; [|exists next]].
  destruct Hk as (Hs & Hc & Hn & _ & _ & Hsnap & Hlegacy & Hlog & Hcov'). split; try done. by rewrite Hsnap, Hlegacy, Hlog, Hn.
Qed.

Lemma passages_step_simulates x e y a : durable x a -> step x e y -> exists a', meaning e a a' /\ durable y a'.
Proof using All.
  intros Hd Hs. destruct Hs.
  - exists a. split; [done | by eapply passages_load_simulates].
  - by eapply store_simulates.
  - match goal with H : store_passages _ _ _ _ = _ |- _ => apply refused_unchanged in H as ->; [|done] end. by exists a.
  - by eapply retract_simulates.
  - exists a. split; [done|]. by eapply compact_locked_keeps.
  - exists a. split; [done|]. match goal with H : compact_if_log_outgrew_snapshot _ _ _ = _ |- _ => unfold compact_if_log_outgrew_snapshot in H; rename H into Hrun end.
    destruct (negb _); [by injection Hrun as <- <-|]. destruct (compact_locked io s) as [ok s1] eqn:Hk. injection Hrun as <- <-.
    by eapply compact_locked_keeps.
  - exists a. split; [done | by apply closed_durable].
  - by eapply passages_cut_simulates.
Qed.

Lemma passages_steps_simulate x es y a : durable x a -> steps x es y -> exists a', meanings es a a' /\ durable y a'.
Proof using All.
  intros Hd Hs. induction Hs as [|x es y e z _ IH Hstep]; [exists a; by split; [constructor|]|].
  destruct (IH Hd) as (b & Hb & Hdb). destruct (passages_step_simulates _ _ _ _ Hdb Hstep) as (c & Hc & Hdc).
  exists c. split; [by econstructor | done].
Qed.

Lemma fresh_durable legacy : legacy_ok legacy -> snapshot_room (legacy_sources legacy) -> durable (Closed None legacy None) (legacy_sources legacy).
Proof using.
  intros Hok Hroom. split; [done|]. exists 1, (legacy_sources legacy), 0, 1, []. split; [by right|]. split; [by apply legacy_sources_ok|].
  change (lenN (@nil PassageOp)) with 0. split; [split; [left; apply emptied_logs; by left | split; [constructor | split; [constructor | lia]]]|].
  split; [done|]. by rewrite drop_nil.
Qed.

(** The files a place stands on. *)
Definition files (x : place) : file * file * file :=
  match x with Resident s => (snapshot_file s, legacy_file s, log_file s) | Closed snap legacy f => (snap, legacy, f) end.

(** C24. No acknowledged passage is lost.  From a directory with no snapshot and no
    log, and any readable file of before the store, through any sequence of loads,
    stores, retractions and compactions under every outcome of the disk, closings at
    any moment and power cuts in the middle of an append: the map in memory is what
    the acknowledged operations make of the old passages, its size counter is the sum
    over the map, and a load from the files as they are, with a disk that works again,
    succeeds with exactly that map and hands out the same next number.  A refused
    write contributes nothing; a batch the power failed on contributes a prefix; a
    retraction that answered no found nothing.  The steps leave out what the code
    gives up: an append that failed and whose rollback failed too, and an old file
    that could not be read. *)
Theorem passage_store_durable legacy es x
    (Hlegacy : legacy_ok legacy) (Hroom : snapshot_room (legacy_sources legacy)) (Hsteps : steps (Closed None legacy None) es x) :
  exists a, meanings es (legacy_sources legacy) a /\ sources_ok a /\
    (forall s, x = Resident s -> sources s = a /\ footprint s = total_bytes a mod (U64_MAX + 1)) /\
    forall io cap, works io -> let '(snap, legacy', f) := files x in
      exists s f', load legacy_json io cap true snap legacy' f = Some (Ok (s, None, 0), f') /\ sources s = a /\
        (forall s0, x = Resident s0 -> watermark s = watermark s0).
Proof using All.
  destruct (passages_steps_simulate _ _ _ _ (fresh_durable legacy Hlegacy Hroom) Hsteps) as (a & Hm & Hd). exists a. split; [done|]. split; [|split].
  - destruct x as [s|snap legacy' f]; [eapply covers_ok, (res_covers s a), Hd | destruct Hd as (_ & next & Hc); by eapply covers_ok].
  - intros s ->. split; [by apply res_sources|]. unfold footprint. rewrite (res_counted s a Hd). by rewrite (res_sources s a Hd).
  - intros io cap Hw. destruct x as [s|snap legacy' f]; cbn [files].
    + destruct (load_succeeds io cap _ _ _ _ _ (passages_covers_torn _ _ _ _ _ (res_covers s a Hd)) Hw) as (s1 & f1 & Hl & Hs1 & Hn1).
      exists s1, f1. do 2 (split; [done|]). intros s0 [= <-]. unfold watermark. by rewrite Hn1.
    + destruct Hd as (_ & next & Hc). destruct (load_succeeds io cap _ _ _ _ _ Hc Hw) as (s1 & f1 & Hl & Hs1 & _). by exists s1, f1.
Qed.
End store.

(** * A store at work

    A small codec for three operations of the log, the properties at a concrete
    input, and two runs that lose passages. *)

Definition sample_submission : PassageSubmission := {|
  ps_text := sample_text; ps_questions := [(1, str "why?"); (9, str "gone"); (0, str "who?")];
  ps_sections := [(0, str "old"); (0, str "intro"); (5, str "gone")]; ps_locators := [(1, {| lo_kind := str "page"; lo_value := str "12" |})];
  ps_meta := {| stored_at := None; date := Some 3; tags := [str "b"; str "a"; str "b"] |} |}.

Definition other_submission : PassageSubmission := {|
  ps_text := str "other"; ps_questions := []; ps_sections := []; ps_locators := []; ps_meta := SourceMeta_default |}.

Lemma passage_record_exact_witness : exists r drops,
  PassageRecord_new sample_text (ps_questions sample_submission) (ps_sections sample_submission) (ps_locators sample_submission) (ps_meta sample_submission) = Some (r, drops) /\
  section_for r 1 = Some (str "intro") /\ locator_for r 0 = None /\ dc_sections drops = 2 /\ record_of (as_offered r) = Some r.
Proof.
  destruct (passage_record_exact sample_text (ps_questions sample_submission) (ps_sections sample_submission) (ps_locators sample_submission)
    (ps_meta sample_submission)) as (r & drops & Hr & _ & _ & _ & _ & _ & _ & _ & Hagain).
  - apply N.leb_le. vm_compute. reflexivity.
  - vm_compute. reflexivity.
  - exists r, drops. split; [exact Hr|]. vm_compute in Hr. injection Hr as <- <-. do 3 (split; [vm_compute; reflexivity|]). exact Hagain.
Defined.

Definition passage_code (op : PassageOp) : N :=
  match op with Retract _ => 3 | Store source _ _ _ _ _ _ _ => if decide (source = str "a") then 1 else 2 end.

Definition passage_of (n : N) : PassageOp :=
  if n =? 1 then store_op 7 (str "a", sample_submission) else if n =? 2 then store_op 7 (str "b", other_submission) else Retract (str "a").

#[export] Instance passage_json : WalJson PassageOp := {
  encode_record := fun seq op => Some (toy_encode seq (passage_code op));
  parse_record := fun l => '(seq, n, crc) ← toy_parse l; Some (seq, passage_of n, crc);
  parse_seq := fun l => '(seq, _, crc) ← toy_parse l; Some (seq, crc);
  parse_value := @parse_value N toy_json;
  op_fields := fun _ => Some (Some [str "op"]);
  reread := fun op => passage_of (passage_code op)
}.

#[export] Instance passage_laws : WalJsonLaws PassageOp.
Proof.
  split.
  - intros seq op r Hr. exact (@encode_object N toy_json toy_laws seq (passage_code op) r Hr).
  - intros seq op r _ [= <-]. cbn [parse_record passage_json reread]. by rewrite toy_parse_seal.
  - intros l seq op crc Hl. cbn [parse_record parse_seq passage_json] in *. destruct (toy_parse l) as [[[s n] k]|]; [|done].
    cbn [mbind option_bind] in *. congruence.
  - intros seq op r l k Hr Hlk Hk. destruct (@sealed_prefix N toy_json toy_laws seq (passage_code op) r l k Hr Hlk Hk) as [Hp Hv].
    split; [|exact Hv]. cbn [parse_record passage_json toy_json] in *. by rewrite Hp.
Qed.

Definition toy_legacy (bs : bytes) : option (gmap name name) := if decide (bs = str "{}") then Some {[str "old" := str "text"]} else None.

(** A disk that works. *)
Definition commit_works : AtomicIo := {| at_stage := true; at_commit := {| c_rename := true; c_sync := true |} |}.
Definition truncate_works : TruncateIo := {| t_open := true; t_metadata := true; t_set_len := true; t_sync := true |}.
Definition load_works : LoadIo := {| l_read := true; l_legacy := true; l_stat := true;
  l_replay := {| r_read := true; r_truncate := truncate_works; r_heal := {| h_open := true; h_write := true; h_sync := true |} |} |}.
Definition append_works : AppendIo := {| a_open := true; a_dir_sync := true; a_remove := true; a_dir_sync_again := true; a_remove_again := true;
  a_metadata := true; a_landed := None; a_sync := true; a_set_len := true |}.
Definition io_works : PassageIo := {| p_append := append_works; p_compact := {| k_write := commit_works; k_unlink := true; k_reset := truncate_works |} |}.

Definition nowhere : PassageStore := {| sources := ∅; next_seq := 1; log_bytes := 0; snapshot_bytes := 0; resident_bytes := 0; compactions := 0;
  snapshot_bytes_written := 0; max_log_bytes := 0; snapshot_file := None; legacy_file := None; log_file := None |}.

Definition opened (io : LoadIo) (snap legacy log : file) : PassageStore :=
  match load toy_legacy io 0 true snap legacy log with Some (Ok (s, _, _), _) => s | _ => nowhere end.

Definition written (io : PassageIo) (source : name) (sub : PassageSubmission) (s : PassageStore) : PassageStore :=
  match store_passages io 7 {[source := sub]} s with Some (_, s) => s | None => nowhere end.

Definition s_first : PassageStore := opened load_works None None None.
Definition s_second : PassageStore := written io_works (str "a") sample_submission s_first.

Lemma s_second_eq : exists r, store_passages io_works 7 {[str "a" := sample_submission]} s_first = Some (Ok r, s_second).
Proof.
  assert (Hr : match store_passages io_works 7 {[str "a" := sample_submission]} s_first with Some (Ok _, _) => true | _ => false end = true) by (vm_compute; reflexivity).
  unfold s_second, written. destruct (store_passages _ _ _ _) as [[[r|e] s]|]; [by exists r | done | done].
Qed.

Lemma room_intro m : (N.of_nat (size m) <=? U32_MAX) && (lenN (snapshot_to_bytes m 0) <=? USIZE_MAX) = true -> snapshot_room m.
Proof. intros [H1 H2]%andb_true_iff. split; by apply N.leb_le. Qed.

Lemma string_ok_intro s : utf8_valid s && (lenN s <=? U32_MAX) = true -> string_ok s.
Proof. intros [H1 H2]%andb_true_iff. split; [done | by apply N.leb_le]. Qed.

Lemma passage_store_durable_witness : exists a s f, meanings [Quiet; Applied [passage_of 1]; Quiet] ∅ a /\
  load toy_legacy load_works 0 true (snapshot_file s_second) (legacy_file s_second) (log_file s_second) = Some (Ok (s, None, 0), f) /\ sources s = a.
Proof.
  assert (Hstore := s_second_eq). destruct Hstore as [r Hstore].
  assert (Hsteps : steps toy_legacy (Closed None None None) [Quiet; Applied [passage_of 1]; Quiet] (closed s_second)).
  { apply (steps_snoc _ _ [Quiet; Applied [passage_of 1]] (Resident s_second)); [|apply step_close].
    apply (steps_snoc _ _ [Quiet] (Resident s_first)); [apply (steps_snoc _ _ [] (Closed None None None)); [constructor|]|].
    - exact (step_load toy_legacy load_works 0 None None None (Ok (s_first, None, 0)) None eq_refl eq_refl).
    - refine (step_store toy_legacy io_works 7 {[str "a" := sample_submission]} s_first (Ok r) s_second _ Hstore _); [|discriminate].
      change (store_op 7 <$> btree_iter {[str "a" := sample_submission]}) with [passage_of 1].
      split; [apply N.leb_le; vm_compute; reflexivity|]. split; [by repeat constructor|]. split.
      + repeat constructor; cbn; try (apply string_ok_intro; vm_compute; reflexivity); try (apply N.leb_le; vm_compute; reflexivity).
      + intros [|j]; [apply room_intro; vm_compute; reflexivity|]. replace (take (S j) [passage_of 1]) with [passage_of 1] by (by destruct j).
        apply room_intro. vm_compute. reflexivity. }
  assert (Hnone : legacy_ok toy_legacy None) by (intros source text Hl; vm_compute in Hl; discriminate Hl).
  assert (Hroom : snapshot_room (legacy_sources toy_legacy None)) by (apply room_intro; vm_compute; reflexivity).
  destruct (passage_store_durable toy_legacy None [Quiet; Applied [passage_of 1]; Quiet] (closed s_second) Hnone Hroom Hsteps) as (a & Hm & _ & _ & Hload).
  destruct (Hload load_works 0 (conj eq_refl (conj eq_refl (conj eq_refl (conj eq_refl eq_refl))))) as (s & f & Hl & Hs & _).
  exists a, s, f. split; [|split; [exact Hl | exact Hs]]. exact Hm.
Defined.

(** ** An append whose rollback failed

    The write path of a context rewinds its log again, and flushes when that fails
    too; this store does neither.  The next store is acknowledged and fused with the
    bytes the failed one left, and the log no longer loads. *)

Definition append_stuck : AppendIo := {| a_open := true; a_dir_sync := true; a_remove := true; a_dir_sync_again := true; a_remove_again := true;
  a_metadata := true; a_landed := Some 5%nat; a_sync := true; a_set_len := false |}.

Definition refused (io : PassageIo) (source : name) (sub : PassageSubmission) (s : PassageStore) : bool :=
  match store_passages io 7 {[source := sub]} s with Some (Err _, _) => true | _ => false end.

Definition reload_refused (s : PassageStore) : bool :=
  match load toy_legacy load_works 0 true (snapshot_file s) (legacy_file s) (log_file s) with Some (Err (LogRefused _), _) => true | _ => false end.

Definition io_stuck : PassageIo := {| p_append := append_stuck; p_compact := p_compact io_works |}.
Definition s_stuck : PassageStore := written io_stuck (str "b") other_submission s_second.

Example failed_rollback_loses_the_log :
  refused io_stuck (str "b") other_submission s_second = true /\
  refused io_works (str "b") other_submission s_stuck = false /\
  reload_refused (written io_works (str "b") other_submission s_stuck) = true /\
  reload_refused s_stuck = false.
Proof. vm_compute. auto. Qed.

(** ** An old file that could not be read once

    It counts as empty, and the first compaction retires it: its passages are in no
    snapshot. *)

Definition load_unread : LoadIo := {| l_read := true; l_legacy := false; l_stat := true; l_replay := l_replay load_works |}.

Definition s_unread : PassageStore := (compact (p_compact io_works) (opened load_unread None (Some (str "{}")) None)).2.

Example unread_legacy_is_retired :
  source_ids (opened load_works None (Some (str "{}")) None) = [str "old"] /\
  legacy_file s_unread = None /\
  source_ids (opened load_works (snapshot_file s_unread) (legacy_file s_unread) (log_file s_unread)) = [].
Proof. vm_compute. auto. Qed.
