(* ===== verification/Groups.v ===== *)
(** * Groups: nesting ([src/groups.rs], [reconcile_groups] in [src/registry/boot.rs])

    A group names member contexts and child groups.  The nesting validator walks
    the children depth first with a memo and a stack of the groups it is inside;
    its recursion has as much fuel as the nesting cap, which no walk exhausts.  [BTreeMap] and
    [BTreeSet] are finite maps and sets walked in name order. *)

From S2P Require Export Bytes.
From S2P Require Import Query.

Local Open Scope N_scope.

Definition MAX_GROUP_DEPTH : N := 3.
Definition MAX_GROUP_MEMBERS : N := 1000.

Record GroupRecord := {
  gr_description : name;
  gr_context_ids : gset name;
  gr_groups : gset name
}.

#[export] Instance GroupRecord_eq_dec : EqDecision GroupRecord.
Proof. solve_decision. Defined.

Definition GroupRecord_default : GroupRecord := {| gr_description := []; gr_context_ids := ∅; gr_groups := ∅ |}.
Definition set_context_ids (ids : gset name) (r : GroupRecord) : GroupRecord :=
  {| gr_description := gr_description r; gr_context_ids := ids; gr_groups := gr_groups r |}.
Definition set_groups (children : gset name) (r : GroupRecord) : GroupRecord :=
  {| gr_description := gr_description r; gr_context_ids := gr_context_ids r; gr_groups := children |}.

Abbreviation GroupMap := (gmap name GroupRecord).

Inductive NestingViolation :=
  | Cycle (group : name)
  | TooDeep (group : name).

(** ** The nesting validator *)

(** The children in name order, the walk of each threading the memo. *)
Fixpoint deepest (walk : name -> gmap name N -> option (result (N * gmap name N) NestingViolation)) (children : list name)
    (below : N) (settled : gmap name N) : option (result (N * gmap name N) NestingViolation) :=
  match children with
  | [] => Some (Ok (below, settled))
  | child :: children =>
    r ← walk child settled;
    match r with
    | Err e => Some (Err e)
    | Ok (depth, settled) => deepest walk children (N.max below depth) settled
    end
  end.

Fixpoint chain_depth (fuel : nat) (groups : GroupMap) (visiting : list name) (group : name) (settled : gmap name N)
    : option (result (N * gmap name N) NestingViolation) :=
  match settled !! group with
  | Some depth => Some (Ok (depth, settled))
  | None =>
    match groups !! group with
    | None => Some (Ok (0, settled))
    | Some record =>
      if bool_decide (group ∈ visiting) then Some (Err (Cycle group))
      else if MAX_GROUP_DEPTH <=? lenN visiting then top ← head visiting; Some (Err (TooDeep top))
      else
        match fuel with
        | O => None
        | S fuel =>
          r ← deepest (chain_depth fuel groups (visiting ++ [group])) (names_in_order (gr_groups record)) 0 settled;
          match r with
          | Err e => Some (Err e)
          | Ok (below, settled) =>
            let depth := below + 1 in
            if MAX_GROUP_DEPTH <? depth then Some (Err (TooDeep (default group (head visiting))))
            else Some (Ok (depth, <[group := depth]> settled))
          end
        end
    end
  end.

(** Deep enough for any walk under the cap. *)
Definition nesting_fuel : nat := N.to_nat MAX_GROUP_DEPTH.

Fixpoint settle_all (groups : GroupMap) (names : list name) (settled : gmap name N) : option (result (gmap name N) NestingViolation) :=
  match names with
  | [] => Some (Ok settled)
  | group :: names =>
    r ← chain_depth nesting_fuel groups [] group settled;
    match r with Err e => Some (Err e) | Ok (_, settled) => settle_all groups names settled end
  end.

Definition nesting_depths (groups : GroupMap) : option (result (gmap name N) NestingViolation) :=
  settle_all groups (btree_iter groups).*1 ∅.

Definition validate_nesting (groups : GroupMap) : option (result () NestingViolation) :=
  r ← nesting_depths groups;
  Some (match r with Ok _ => Ok () | Err e => Err e end).

(** ** Repairs *)

(** [groups.get_mut(&parent).unwrap()]. *)
Definition edit_children (groups : GroupMap) (parent : name) (f : gset name -> gset name) : option GroupMap :=
  record ← groups !! parent;
  Some (<[parent := set_groups (f (gr_groups record)) record]> groups).

(** Edge by edge, dropping what the validator refuses. *)
Fixpoint readd_edges (edges : list (name * name)) (groups : GroupMap) : option GroupMap :=
  match edges with
  | [] => Some groups
  | (parent, child) :: edges =>
    with_edge ← edit_children groups parent (fun children => {[child]} ∪ children);
    valid ← validate_nesting with_edge;
    groups ← (if is_ok valid then Some with_edge else edit_children with_edge parent (fun children => children ∖ {[child]}));
    readd_edges edges groups
  end.

Definition nesting_edges (groups : GroupMap) : list (name * name) :=
  flat_map (fun p => pair p.1 <$> names_in_order (gr_groups p.2)) (btree_iter groups).

Definition repair_nesting (groups : GroupMap) : option GroupMap :=
  valid ← validate_nesting groups;
  if is_ok valid then Some groups
  else readd_edges (nesting_edges groups) (set_groups ∅ <$> groups).

(** The first [cap] names, in order. *)
Definition trim_set (cap : N) (s : gset name) : gset name :=
  if N.of_nat (size s) <=? cap then s else list_to_set (take (N.to_nat cap) (names_in_order s)).

Definition trim_membership (cap : N) (groups : GroupMap) : GroupMap :=
  (fun r => set_groups (trim_set cap (gr_groups r)) (set_context_ids (trim_set cap (gr_context_ids r)) r)) <$> groups.

(** ** Closure *)

(** The unseen names, marked as they pass. *)
Fixpoint sight_names (names : list name) (seen : gset name) (frontier : list name) : gset name * list name :=
  match names with
  | [] => (seen, frontier)
  | n :: names =>
    if bool_decide (n ∈ seen) then sight_names names seen frontier
    else sight_names names ({[n]} ∪ seen) (n :: frontier)
  end.

(** The stack's top first. *)
Fixpoint closure_loop (fuel : nat) (groups : GroupMap) (seen : gset name) (frontier : list name) (contexts : gset name)
    : option (gset name) :=
  match frontier with
  | [] => Some contexts
  | group :: frontier =>
    match fuel with
    | O => None
    | S fuel =>
      match groups !! group with
      | None => closure_loop fuel groups seen frontier contexts
      | Some record =>
        let '(seen, frontier) := sight_names (names_in_order (gr_groups record)) seen frontier in
        closure_loop fuel groups seen frontier (contexts ∪ gr_context_ids record)
      end
    end
  end.

Definition context_closure (fuel : nat) (groups : GroupMap) (roots : list name) : option (gset name) :=
  let '(seen, frontier) := sight_names roots ∅ [] in
  closure_loop fuel groups seen frontier ∅.

(** ** Boot *)

(** What the boot keeps of the records it scanned; the records it rewrites are
    those that changed. *)
Definition reconcile_groups (contains_id : name -> bool) (scanned : GroupMap) : option GroupMap :=
  let live := (fun r => set_groups (filter (fun child => is_Some (scanned !! child)) (gr_groups r))
    (set_context_ids (filter (fun id => contains_id id = true) (gr_context_ids r)) r)) <$> scanned in
  repair_nesting (trim_membership MAX_GROUP_MEMBERS live).
