(* ===== verification/GroupsThm.v ===== *)
(** * What the group validators promise

    The memoized walk measures chains exactly, repairs leave a collection the
    validator accepts, and the closure is everything the nesting reaches. *)

From S2P Require Export Groups.
From S2P Require Import Query.

Local Open Scope N_scope.

(** ** Chains *)

Section chains.
Context (g : GroupMap).

(** A child that is itself a group. *)
Definition child (n m : name) : Prop := exists r, g !! n = Some r /\ m ∈ gr_groups r /\ is_Some (g !! m).

(** A chain of [k + 1] groups hangs from [n]. *)
Definition chain : name -> nat -> Prop := rchain child.

(** The longest chain of groups from [n] has [d] of them. *)
Definition deep (n : name) (d : N) : Prop :=
  is_Some (g !! n) /\ 1 <= d /\ chain n (N.to_nat d - 1) /\ ~ chain n (N.to_nat d).

Lemma deep_fun n d d' : deep n d -> deep n d' -> d = d'.
Proof using.
  intros (_ & Hd & Hc & Hn) (_ & Hd' & Hc' & Hn'). destruct (N.lt_trichotomy d d') as [Hl|[->|Hl]]; [|done|]; exfalso.
  - apply Hn. eapply rchain_prefix; [exact Hc' | lia].
  - apply Hn'. eapply rchain_prefix; [exact Hc | lia].
Qed.

Definition violated (v : NestingViolation) : Prop :=
  match v with
  | Cycle n => tc child n n
  | TooDeep n => chain n (N.to_nat MAX_GROUP_DEPTH)
  end.

(** ** The walk *)

Definition settled_ok (settled : gmap name N) : Prop := forall n d, settled !! n = Some d -> deep n d /\ d <= MAX_GROUP_DEPTH.

(** What a walk returns from a memo. *)
Definition walked (group : name) (settled : gmap name N) (r : result (N * gmap name N) NestingViolation) : Prop :=
  match r with
  | Err v => violated v
  | Ok (d, settled') => settled ⊆ settled' /\ settled_ok settled' /\ d = default 0 (settled' !! group) /\
      (is_Some (g !! group) -> is_Some (settled' !! group))
  end.

Lemma deepest_spec walk children : forall below settled, settled_ok settled ->
  (forall c s, c ∈ children -> settled_ok s -> exists r, walk c s = Some r /\ walked c s r) ->
  exists r, deepest walk children below settled = Some r /\
    match r with
    | Err v => violated v
    | Ok (below', settled') => settled ⊆ settled' /\ settled_ok settled' /\ below <= below' /\
        (forall c, c ∈ children -> default 0 (settled' !! c) <= below' /\ (is_Some (g !! c) -> is_Some (settled' !! c))) /\
        (below' = below \/ exists c, c ∈ children /\ settled' !! c = Some below')
    end.
Proof using.
  induction children as [|c children IH]; intros below settled Hs Hw; cbn [deepest].
  - eexists. split; [reflexivity|]. cbn. split; [done|]. split; [done|]. split; [lia|]. split; [by intros c ?%not_elem_of_nil | by left].
  - destruct (Hw c settled) as (r & -> & Hr); [by left|done|]. cbn [mbind option_bind]. destruct r as [[d s1]|v]; [|by eexists].
    destruct Hr as (Hsub & Hs1 & Hd & Hc). destruct (IH (N.max below d) s1 Hs1) as (r & -> & Hr).
    { intros c' s' Hc' Hs'. apply Hw; [by right | done]. }
    eexists. split; [reflexivity|]. destruct r as [[b s2]|v]; [|done]. destruct Hr as (Hsub2 & Hs2 & Hb & Hall & Hex).
    split; [by etrans|]. split; [done|]. split; [lia|].
    assert (Hkeep : default 0 (s2 !! c) = d /\ (is_Some (g !! c) -> is_Some (s2 !! c))).
    { destruct (s1 !! c) as [d1|] eqn:H1.
      - cbn in Hd. subst d1. rewrite (lookup_weaken _ _ _ _ H1 Hsub2). split; [done | by eexists].
      - cbn in Hd. subst d. destruct (s2 !! c) as [d2|] eqn:H2; [|split; [done|]].
        + exfalso. destruct (Hs2 c d2 H2) as [(Hg & _) _]. destruct (Hc Hg) as [? ?]. congruence.
        + intros Hg. destruct (Hc Hg) as [? ?]. congruence. }
    destruct Hkeep as [Hk1 Hk2]. split.
    + intros c' [->|Hc']%elem_of_cons; [|by apply Hall]. rewrite Hk1. split; [lia | done].
    + destruct Hex as [->|(c' & Hc' & He)]; [|right; exists c'; split; [by right | done]].
      destruct (N.max_spec below d) as [[Hlt ->]|[Hle ->]]; [|by left]. right. exists c. split; [by left|].
      destruct (s2 !! c) as [x|] eqn:Hx; cbn in Hk1; [by subst|lia].
Qed.

Lemma chain_depth_spec fuel : forall visiting group settled, settled_ok settled ->
  (is_Some (g !! group) -> rtrail child visiting group) -> lenN visiting <= MAX_GROUP_DEPTH ->
  MAX_GROUP_DEPTH <= N.of_nat fuel + lenN visiting ->
  exists r, chain_depth fuel g visiting group settled = Some r /\ walked group settled r.
Proof using.
  induction fuel as [|fuel IH]; intros visiting group settled Hs Ht Hv Hf; cbn [chain_depth].
  all: destruct (settled !! group) as [d|] eqn:Hd; [eexists; split; [reflexivity|]; cbn; rewrite Hd; by eauto|].
  all: destruct (g !! group) as [record|] eqn:Hg;
    [|eexists; split; [reflexivity|]; cbn; rewrite Hd, Hg; split; [done|]; split; [done|]; split; [done | by intros []]].
  all: specialize (Ht (mk_is_Some _ _ eq_refl)).
  all: case_bool_decide as Hin; [eexists; split; [reflexivity|]; cbn; by apply (rtrail_cycle _ visiting)|].
  all: destruct (N.leb_spec MAX_GROUP_DEPTH (lenN visiting)) as [Hfull|Hroom].
  1, 3: destruct visiting as [|top visiting]; [unfold lenN, MAX_GROUP_DEPTH in Hfull; simpl in Hfull; lia|]; cbn [head mbind option_bind];
    eexists; split; [reflexivity|]; cbn; exists group; specialize (Ht 0%nat top eq_refl);
    replace (length (top :: visiting) - 0)%nat with (N.to_nat MAX_GROUP_DEPTH) in Ht by (unfold lenN in *; simpl in *; lia); done.
  - lia.
  - destruct (deepest_spec (chain_depth fuel g (visiting ++ [group])) (names_in_order (gr_groups record)) 0 settled Hs) as (r & -> & Hr).
    { intros c s Hc Hss. apply IH; [done| | |].
      - intros Hsome. apply rtrail_push; [done|]. exists record. split; [done|]. split; [|done].
        unfold names_in_order in Hc. rewrite merge_sort_Permutation in Hc. by apply elem_of_elements.
      - rewrite lenN_snoc. lia.
      - rewrite lenN_snoc. lia. }
    cbn [mbind option_bind]. destruct r as [[below s1]|v]; [|by eexists].
    destruct Hr as (Hsub & Hs1 & _ & Hall & Hex).
    assert (Hnames : forall c, c ∈ names_in_order (gr_groups record) <-> c ∈ gr_groups record).
    { intros c. unfold names_in_order. rewrite merge_sort_Permutation. apply elem_of_elements. }
    assert (Hchain : chain group (N.to_nat below)).
    { destruct Hex as [->|(c & Hc & He)]; [exists group; constructor|].
      destruct (Hs1 c below He) as [(Hsome & Hpos & Hch & _) _].
      replace (N.to_nat below) with (S (N.to_nat below - 1)) by lia. eapply rchain_step; [|exact Hch].
      exists record. split; [done|]. split; [by apply Hnames | done]. }
    destruct (N.ltb_spec MAX_GROUP_DEPTH (below + 1)) as [Hdeep|Hok].
    { eexists. split; [reflexivity|]. cbn. destruct visiting as [|top visiting]; cbn [head default from_option id].
      - eapply rchain_prefix; [exact Hchain | lia].
      - specialize (Ht 0%nat top eq_refl). eapply rchain_prefix; [by eapply rchain_trans | simpl; lia]. }
    eexists. split; [reflexivity|]. cbn. rewrite lookup_insert_eq. cbn. split.
    { apply map_subseteq_spec. intros n d Hn. rewrite lookup_insert_ne by congruence. by eapply lookup_weaken. }
    split; [|split; [done | by eexists]]. intros n d. rewrite lookup_insert_Some. intros [[<- <-]|[_ Hn]]; [|by apply Hs1].
    split; [|done]. split; [by eexists|]. split; [lia|].
    replace (N.to_nat (below + 1) - 1)%nat with (N.to_nat below) by lia. split; [done|].
    intros [m Hm]. replace (N.to_nat (below + 1)) with (S (N.to_nat below)) in Hm by lia.
    inversion Hm as [|? ? c ? Hc Hrest]; subst. destruct Hc as (record' & Hg' & Hcin & Hcs). rewrite Hg in Hg'. injection Hg' as <-.
    apply Hnames in Hcin. destruct (Hall c Hcin) as [Hle Hset]. destruct (Hset Hcs) as [d Hdc]. rewrite Hdc in Hle. cbn in Hle.
    destruct (Hs1 c d Hdc) as [(_ & _ & _ & Hno) _]. apply Hno. eapply rchain_prefix; [by exists m | lia].
Qed.

Lemma settle_all_spec names : forall settled, settled_ok settled ->
  exists r, settle_all g names settled = Some r /\
    match r with
    | Err v => violated v
    | Ok settled' => settled ⊆ settled' /\ settled_ok settled' /\ forall n, n ∈ names -> is_Some (g !! n) -> is_Some (settled' !! n)
    end.
Proof using.
  induction names as [|n names IH]; intros settled Hs; cbn [settle_all].
  - eexists. split; [reflexivity|]. split; [done|]. split; [done|]. by intros n ?%not_elem_of_nil.
  - destruct (chain_depth_spec nesting_fuel [] n settled Hs) as (r & -> & Hr); [by intros _ i v|done|done|].
    cbn [mbind option_bind]. destruct r as [[d s1]|v]; [|by eexists]. destruct Hr as (Hsub & Hs1 & _ & Hn).
    destruct (IH s1 Hs1) as (r & -> & Hr). eexists. split; [reflexivity|]. destruct r as [s2|v]; [|done].
    destruct Hr as (Hsub2 & Hs2 & Hall). split; [by etrans|]. split; [done|].
    intros m [->|Hm]%elem_of_cons Hg; [|by apply Hall]. destruct (Hn Hg) as [d' Hd']. exists d'. by eapply lookup_weaken.
Qed.

(** The nesting two rules allow: no chain of more than the cap, so no cycle. *)
Definition nested_ok : Prop := forall n, ~ chain n (N.to_nat MAX_GROUP_DEPTH).

Lemma nesting_depths_spec : exists r, nesting_depths g = Some r /\
  match r with
  | Ok depths => nested_ok /\ (forall n d, depths !! n = Some d <-> deep n d) /\ forall n, is_Some (g !! n) -> is_Some (depths !! n)
  | Err v => violated v
  end.
Proof using.
  unfold nesting_depths. destruct (settle_all_spec (btree_iter g).*1 ∅) as (r & -> & Hr).
  { intros n d Hn. by rewrite lookup_empty in Hn. }
  eexists. split; [reflexivity|]. destruct r as [s|v]; [|done]. destruct Hr as (_ & Hs & Hall).
  assert (Hdeep : forall n, is_Some (g !! n) -> exists d, s !! n = Some d).
  { intros n [r Hn]. destruct (Hall n) as [d Hd]; [|by eexists|by exists d].
    apply list_elem_of_fmap. exists (n, r). split; [done|]. by apply elem_of_btree_iter. }
  split; [|split].
  3: { intros n Hn. destruct (Hdeep n Hn) as [d Hd]. by exists d. }
  - intros n Hc. assert (Hn : is_Some (g !! n)).
    { destruct Hc as [m Hm]. inversion Hm as [|? ? y ? (r & Hr & _)]; subst. by exists r. }
    destruct (Hdeep n Hn) as [d Hd]. destruct (Hs n d Hd) as [(_ & _ & _ & Hno) Hle]. apply Hno. eapply rchain_prefix; [exact Hc | lia].
  - intros n d. split; [intros Hn; by apply Hs|]. intros Hd. destruct (Hdeep n (proj1 Hd)) as [d' Hd'].
    rewrite Hd'. f_equal. eapply deep_fun; [by apply Hs | done].
Qed.

Lemma violated_not_ok v : violated v -> ~ nested_ok.
Proof using. destruct v as [n|n]; cbn; intros Hv Hok; apply (Hok n); [by apply rchain_cycle | done]. Qed.

Lemma validate_nesting_spec : exists r, validate_nesting g = Some r /\
  match r with Ok _ => nested_ok | Err v => violated v end.
Proof using.
  unfold validate_nesting. destruct nesting_depths_spec as (r & -> & Hr). cbn [mbind option_bind].
  eexists. split; [reflexivity|]. destruct r; [by apply Hr | done].
Qed.

Lemma deep_total n : nested_ok -> is_Some (g !! n) -> exists d, deep n d.
Proof using.
  intros Hok Hn. destruct nesting_depths_spec as ([depths|v] & _ & Hr); [|by destruct (violated_not_ok v Hr)].
  destruct Hr as (_ & Hd & Hdom). destruct (Hdom n Hn) as [d Hnd]. exists d. by apply Hd.
Qed.
End chains.

(** ** Collections with fewer edges *)

(** The same groups, with at most the children. *)
Definition fewer (g' g : GroupMap) : Prop :=
  forall n, match g' !! n, g !! n with
            | Some r', Some r => gr_description r' = gr_description r /\ gr_context_ids r' ⊆ gr_context_ids r /\ gr_groups r' ⊆ gr_groups r
            | None, None => True
            | _, _ => False
            end.

Lemma fewer_some g' g n r' : fewer g' g -> g' !! n = Some r' -> exists r, g !! n = Some r /\ gr_description r' = gr_description r /\
  gr_context_ids r' ⊆ gr_context_ids r /\ gr_groups r' ⊆ gr_groups r.
Proof. intros Hf Hn. specialize (Hf n). rewrite Hn in Hf. destruct (g !! n) as [r|]; [by exists r | done]. Qed.

Lemma fewer_some_r g' g n r : fewer g' g -> g !! n = Some r -> exists r', g' !! n = Some r'.
Proof. intros Hf Hn. specialize (Hf n). rewrite Hn in Hf. destruct (g' !! n) as [r'|]; [by exists r' | done]. Qed.

#[export] Instance fewer_refl : Reflexive fewer.
Proof. intros g n. by destruct (g !! n). Qed.
#[export] Instance fewer_trans : Transitive fewer.
Proof.
  intros g1 g2 g3 H12 H23 n. specialize (H12 n). specialize (H23 n).
  destruct (g1 !! n), (g2 !! n), (g3 !! n); try done.
  destruct H12 as (? & ? & ?), H23 as (? & ? & ?). split; [congruence|]. split; by etrans.
Qed.

Lemma fewer_child g' g n m : fewer g' g -> child g' n m -> child g n m.
Proof.
  intros Hf (r' & Hn & Hm & [rm Hrm]). destruct (fewer_some _ _ _ _ Hf Hn) as (r & Hr & _ & _ & Hsub).
  destruct (fewer_some _ _ _ _ Hf Hrm) as (r2 & Hr2 & _). exists r. split; [done|]. split; [by apply Hsub | by eexists].
Qed.

Lemma fewer_nested g' g : fewer g' g -> nested_ok g -> nested_ok g'.
Proof.
  intros Hf Hok n [m Hm]. apply (Hok n). exists m. revert Hm. generalize (N.to_nat MAX_GROUP_DEPTH). intros k Hm.
  induction Hm as [|k x y z Hxy Hyz IH]; [constructor|]. econstructor; [by eapply fewer_child | done].
Qed.

Lemma edit_children_spec g parent f r : g !! parent = Some r ->
  edit_children g parent f = Some (<[parent := set_groups (f (gr_groups r)) r]> g).
Proof. intros Hr. unfold edit_children. by rewrite Hr. Qed.

Lemma fewer_edit g parent r children : g !! parent = Some r -> children ⊆ gr_groups r ->
  fewer (<[parent := set_groups children r]> g) g.
Proof.
  intros Hr Hsub n. destruct (decide (n = parent)) as [->|Hne].
  - rewrite lookup_insert_eq, Hr. done.
  - rewrite lookup_insert_ne by done. by destruct (g !! n).
Qed.

Lemma edit_mono g g' parent r r' child : fewer g g' -> g !! parent = Some r -> g' !! parent = Some r' ->
  fewer (<[parent := set_groups ({[child]} ∪ gr_groups r) r]> g) (<[parent := set_groups ({[child]} ∪ gr_groups r') r']> g').
Proof.
  intros Hf Hr Hr' n. destruct (decide (n = parent)) as [->|Hne]; [|rewrite !lookup_insert_ne by done; apply Hf].
  rewrite !lookup_insert_eq. specialize (Hf parent). rewrite Hr, Hr' in Hf. destruct Hf as (? & ? & ?).
  cbn. split; [done|]. split; [done|]. set_solver.
Qed.

(** An edge a collection cannot take. *)
Definition refused_edge (g : GroupMap) (p : name * name) : Prop :=
  exists r, g !! p.1 = Some r /\ ~ nested_ok (<[p.1 := set_groups ({[p.2]} ∪ gr_groups r) r]> g).

Lemma readd_edges_spec original edges : (forall p, p ∈ edges -> exists r, original !! p.1 = Some r /\ p.2 ∈ gr_groups r) ->
  forall g, nested_ok g -> fewer g original ->
  exists g', readd_edges edges g = Some g' /\ nested_ok g' /\ fewer g g' /\ fewer g' original /\
    forall p, p ∈ edges -> (exists r, g' !! p.1 = Some r /\ p.2 ∈ gr_groups r) \/ refused_edge g' p.
Proof.
  induction edges as [|[parent c] edges IH]; intros He g Hok Hf; cbn [readd_edges].
  - exists g. split; [done|]. split; [done|]. split; [done|]. split; [done|]. by intros p ?%not_elem_of_nil.
  - destruct (He (parent, c)) as (ro & Hro & Hc); [by left|]. cbn [fst snd] in *.
    destruct (fewer_some_r _ _ _ _ Hf Hro) as [r Hr]. rewrite (edit_children_spec g parent _ r Hr). cbn [mbind option_bind].
    set (g1 := <[parent := set_groups ({[c]} ∪ gr_groups r) r]> g).
    destruct (validate_nesting_spec g1) as (v & -> & Hv). cbn [mbind option_bind].
    assert (He' : forall p, p ∈ edges -> exists r, original !! p.1 = Some r /\ p.2 ∈ gr_groups r) by (intros p Hp; apply He; by right).
    destruct v as [u|v]; cbn [is_ok].
    + assert (Hf1 : fewer g1 original).
      { intros n. specialize (Hf n). unfold g1. destruct (decide (n = parent)) as [->|Hne]; [|by rewrite lookup_insert_ne].
        rewrite lookup_insert_eq. rewrite Hr, Hro in *. destruct Hf as (? & ? & ?). cbn. split; [done|]. split; [done|]. set_solver. }
      cbn [mbind option_bind]. destruct (IH He' g1 Hv Hf1) as (g' & -> & Hok' & Hsub & Hfo & Hall). exists g'.
      assert (Hgg1 : fewer g g1).
      { intros n. unfold g1. destruct (decide (n = parent)) as [->|Hne]; [|rewrite lookup_insert_ne by done; by destruct (g !! n)].
        rewrite lookup_insert_eq, Hr. cbn. split; [done|]. split; [done|]. set_solver. }
      split; [done|]. split; [done|]. split; [by etrans|]. split; [done|].
      intros p [->|Hp]%elem_of_cons; [|by apply Hall]. left. cbn [fst snd].
      destruct (fewer_some g1 g' parent (set_groups ({[c]} ∪ gr_groups r) r) Hsub) as (r' & Hr' & _ & _ & Hs); [apply lookup_insert_eq|].
      exists r'. split; [done|]. apply Hs. cbn. set_solver.
    + assert (Hnot : ~ nested_ok g1) by (by apply (violated_not_ok g1 v)).
      assert (Hcr : c ∉ gr_groups r).
      { intros Hin. apply Hnot. eapply fewer_nested; [|exact Hok]. unfold g1. apply fewer_edit; [done|]. set_solver. }
      assert (Hback : edit_children g1 parent (fun children => children ∖ {[c]}) = Some g).
      { rewrite (edit_children_spec g1 parent _ (set_groups ({[c]} ∪ gr_groups r) r)) by (unfold g1; apply lookup_insert_eq).
        f_equal. unfold g1. rewrite insert_insert_eq. rewrite <- (insert_id g parent r Hr) at 2. f_equal.
        destruct r as [d ids cs]. cbn in *. unfold set_groups. cbn. f_equal. set_solver. }
      rewrite Hback. cbn [mbind option_bind]. destruct (IH He' g Hok Hf) as (g' & -> & Hok' & Hsub & Hfo & Hall). exists g'.
      split; [done|]. split; [done|]. split; [done|]. split; [done|].
      intros p [->|Hp]%elem_of_cons; [|by apply Hall]. right. cbn [fst snd].
      destruct (fewer_some _ _ _ _ Hsub Hr) as (r' & Hr' & _). exists r'. split; [done|]. intros Hn. apply Hnot.
      eapply fewer_nested; [|exact Hn]. unfold g1. by apply edit_mono.
Qed.

Lemma elem_of_nesting_edges g p : p ∈ nesting_edges g <-> exists r, g !! p.1 = Some r /\ p.2 ∈ gr_groups r.
Proof.
  unfold nesting_edges. rewrite elem_of_flat_map. split.
  - intros ([n r] & Hn & Hp). apply elem_of_btree_iter in Hn. apply list_elem_of_fmap in Hp as (c & -> & Hc). exists r.
    split; [done|]. unfold names_in_order in Hc. rewrite merge_sort_Permutation in Hc. by apply elem_of_elements in Hc.
  - destruct p as [n c]. cbn. intros (r & Hr & Hc). exists (n, r). split; [by apply elem_of_btree_iter|].
    apply list_elem_of_fmap. exists c. split; [done|]. unfold names_in_order. rewrite merge_sort_Permutation. by apply elem_of_elements.
Qed.

(** Repair keeps a valid collection, and otherwise a maximal valid part of it. *)
Lemma repair_nesting_spec g : exists g', repair_nesting g = Some g' /\ nested_ok g' /\ fewer g' g /\
  (nested_ok g -> g' = g) /\
  (forall n r r', g !! n = Some r -> g' !! n = Some r' -> gr_context_ids r' = gr_context_ids r) /\
  forall p, p ∈ nesting_edges g -> p ∈ nesting_edges g' \/ refused_edge g' p.
Proof.
  unfold repair_nesting. destruct (validate_nesting_spec g) as (v & -> & Hv). cbn [mbind option_bind].
  destruct v as [u|v]; cbn [is_ok].
  { exists g. split; [done|]. split; [done|]. split; [done|]. split; [done|]. split; [congruence | by left]. }
  set (g0 := set_groups ∅ <$> g).
  assert (Hf0 : fewer g0 g).
  { intros n. unfold g0. rewrite lookup_fmap. destruct (g !! n); [|done]. cbn. split; [done|]. split; [done | set_solver]. }
  assert (Hok0 : nested_ok g0).
  { intros n [m Hm]. inversion Hm as [|? ? y ? (r & Hr & Hc & _)]; subst. unfold g0 in Hr. rewrite lookup_fmap in Hr.
    destruct (g !! n); [|done]. injection Hr as <-. cbn in Hc. set_solver. }
  destruct (readd_edges_spec g (nesting_edges g)) with (g := g0) as (g' & -> & Hok & Hsub & Hf & Hall); [|done|done|].
  { intros p Hp. by apply elem_of_nesting_edges. }
  exists g'. split; [done|]. split; [done|]. split; [done|]. split.
  { intros Hgood. destruct (violated_not_ok g v Hv Hgood). }
  split.
  - intros n r r' Hr Hr'. destruct (fewer_some g' g n r' Hf Hr') as (r1 & Hr1 & _ & Hs1 & _). rewrite Hr in Hr1. injection Hr1 as <-.
    destruct (fewer_some g0 g' n (set_groups ∅ r) Hsub) as (r2 & Hr2 & _ & Hs2 & _); [unfold g0; by rewrite lookup_fmap, Hr|].
    rewrite Hr' in Hr2. injection Hr2 as <-. cbn in Hs2. set_solver.
  - intros p Hp. destruct (Hall p Hp) as [Hin|Hre]; [left; by apply elem_of_nesting_edges | by right].
Qed.

(** ** What holds of a live collection *)

Record store_ok (contains_id : name -> bool) (g : GroupMap) : Prop := {
  so_members : forall n r id, g !! n = Some r -> id ∈ gr_context_ids r -> contains_id id = true;
  so_children : forall n r c, g !! n = Some r -> c ∈ gr_groups r -> is_Some (g !! c);
  so_caps : forall n r, g !! n = Some r ->
    N.of_nat (size (gr_context_ids r)) <= MAX_GROUP_MEMBERS /\ N.of_nat (size (gr_groups r)) <= MAX_GROUP_MEMBERS;
  so_nested : nested_ok g
}.

Lemma trim_set_spec cap s : trim_set cap s ⊆ s /\ N.of_nat (size (trim_set cap s)) <= cap /\
  (N.of_nat (size s) <= cap -> trim_set cap s = s).
Proof.
  unfold trim_set. destruct (N.leb_spec (N.of_nat (size s)) cap); [done|].
  assert (Hnd : NoDup (take (N.to_nat cap) (names_in_order s))).
  { eapply sublist_NoDup; [|apply sublist_take]. unfold names_in_order. rewrite merge_sort_Permutation. apply NoDup_elements. }
  split; [|split; [|lia]].
  - intros x. rewrite elem_of_list_to_set. intros Hx%elem_of_take. destruct Hx as (i & Hi & _). apply list_elem_of_lookup_2 in Hi.
    unfold names_in_order in Hi. rewrite merge_sort_Permutation in Hi. by apply elem_of_elements.
  - rewrite size_list_to_set by done. rewrite length_take. lia.
Qed.

(** Whatever the files say, the boot ends with a live collection that keeps no
    more than they say, and with exactly that when it was live already. *)
Lemma reconcile_groups_spec contains_id scanned : exists g, reconcile_groups contains_id scanned = Some g /\
  store_ok contains_id g /\ fewer g scanned /\ (store_ok contains_id scanned -> g = scanned).
Proof.
  unfold reconcile_groups. set (live := _ <$> scanned). set (trimmed := trim_membership _ live).
  assert (Hlook : forall n r', trimmed !! n = Some r' -> exists r, scanned !! n = Some r /\ gr_description r' = gr_description r /\
    gr_context_ids r' = trim_set MAX_GROUP_MEMBERS (filter (fun id => contains_id id = true) (gr_context_ids r)) /\
    gr_groups r' = trim_set MAX_GROUP_MEMBERS (filter (fun c => is_Some (scanned !! c)) (gr_groups r))).
  { intros n r'. unfold trimmed, trim_membership, live. rewrite !lookup_fmap. destruct (scanned !! n) as [r|]; [|done].
    intros [= <-]. by exists r. }
  assert (Hdom : forall n, is_Some (trimmed !! n) <-> is_Some (scanned !! n)).
  { intros n. unfold trimmed, trim_membership, live. by rewrite !lookup_fmap, !fmap_is_Some. }
  assert (Hfew : fewer trimmed scanned).
  { intros n. destruct (trimmed !! n) as [r'|] eqn:Hr'.
    - destruct (Hlook n r' Hr') as (r & -> & Hd & Hi & Hc). split; [done|].
      rewrite Hi, Hc. split; (etrans; [apply trim_set_spec|]); set_solver.
    - destruct (scanned !! n) eqn:Hs; [|done]. destruct (proj2 (Hdom n)) as [? ?]; [by eexists | congruence]. }
  destruct (repair_nesting_spec trimmed) as (g & -> & Hok & Hf & Hsame & Hids & _). exists g. split; [done|].
  split; [split|split].
  - intros n r id Hr Hid. destruct (fewer_some _ _ _ _ Hf Hr) as (r1 & Hr1 & _ & Hs & _).
    destruct (Hlook n r1 Hr1) as (r2 & _ & _ & Hi & _). apply Hs in Hid. rewrite Hi in Hid. apply trim_set_spec in Hid.
    by apply elem_of_filter in Hid as [? _].
  - intros n r c Hr Hc. destruct (fewer_some _ _ _ _ Hf Hr) as (r1 & Hr1 & _ & _ & Hs).
    destruct (Hlook n r1 Hr1) as (r2 & _ & _ & _ & Hg). apply Hs in Hc. rewrite Hg in Hc. apply trim_set_spec in Hc.
    apply elem_of_filter in Hc as [Hsc _]. apply Hdom in Hsc as [r3 Hr3].
    destruct (fewer_some_r _ _ _ _ Hf Hr3) as [r4 Hr4]. by eexists.
  - intros n r Hr. destruct (fewer_some _ _ _ _ Hf Hr) as (r1 & Hr1 & _ & Hs1 & Hs2).
    destruct (Hlook n r1 Hr1) as (r2 & _ & _ & Hi & Hg). rewrite Hi in Hs1. rewrite Hg in Hs2.
    apply subseteq_size in Hs1, Hs2.
    pose proof (trim_set_spec MAX_GROUP_MEMBERS (filter (fun id => contains_id id = true) (gr_context_ids r2))) as (_ & H1 & _).
    pose proof (trim_set_spec MAX_GROUP_MEMBERS (filter (fun c => is_Some (scanned !! c)) (gr_groups r2))) as (_ & H2 & _). lia.
  - done.
  - by etrans.
  - intros [Hm Hc Hcap Hn]. assert (Heq : trimmed = scanned).
    { apply map_eq. intros n. destruct (trimmed !! n) as [r'|] eqn:Hr'.
      - destruct (Hlook n r' Hr') as (r & Hr & Hd & Hi & Hg). rewrite Hr. f_equal. destruct (Hcap n r Hr) as [Hc1 Hc2].
        assert (Hf1 : filter (fun id => contains_id id = true) (gr_context_ids r) = gr_context_ids r).
        { apply set_eq. intros x. rewrite elem_of_filter. split; [by intros [_ ?]|]. intros Hx. split; [by eapply Hm | done]. }
        assert (Hf2 : filter (fun c => is_Some (scanned !! c)) (gr_groups r) = gr_groups r).
        { apply set_eq. intros x. rewrite elem_of_filter. split; [by intros [_ ?]|]. intros Hx. split; [by eapply Hc | done]. }
        rewrite Hf1 in Hi. rewrite Hf2 in Hg.
        rewrite (proj2 (proj2 (trim_set_spec MAX_GROUP_MEMBERS _)) Hc1) in Hi.
        rewrite (proj2 (proj2 (trim_set_spec MAX_GROUP_MEMBERS _)) Hc2) in Hg. destruct r, r'. cbn in *. congruence.
      - destruct (scanned !! n) eqn:Hs; [|done]. destruct (proj2 (Hdom n)) as [? ?]; [by eexists | congruence]. }
    rewrite Heq in Hsame. rewrite Hsame by done. done.
Qed.

(** ** Closure *)

Section closure.
Context (g : GroupMap).

Definition names_child (n m : name) : Prop := exists r, g !! n = Some r /\ m ∈ gr_groups r.

(** Every name the walk can meet. *)
Definition named : gset name := map_fold (fun _ r names => gr_groups r ∪ names) ∅ g.

Lemma elem_of_named n r m : g !! n = Some r -> m ∈ gr_groups r -> m ∈ named.
Proof using.
  unfold named. revert n r m. refine (map_fold_weak_ind (fun names g => forall n r m, g !! n = Some r -> m ∈ gr_groups r -> m ∈ names) _ _ _ _ g).
  - intros n r m Hn. by rewrite lookup_empty in Hn.
  - intros i x gm names Hi IH n r m [[<- <-]|[_ Hn]]%lookup_insert_Some Hm; [set_solver|].
    apply elem_of_union_r. by eapply IH.
Qed.

Lemma sight_names_spec names : forall seen frontier U, seen ⊆ U -> (forall n, n ∈ names -> n ∈ U) ->
  exists seen' new, sight_names names seen frontier = (seen', new ++ frontier) /\ seen' ⊆ U /\
    (size (U ∖ seen') + length new = size (U ∖ seen))%nat /\
    (forall n, n ∈ seen' <-> n ∈ seen \/ n ∈ names) /\ (forall n, n ∈ new -> n ∈ names) /\ (forall n, n ∈ seen' -> n ∈ seen \/ n ∈ new).
Proof using.
  clear g. induction names as [|n names IH]; intros seen frontier U Hs Hn; cbn [sight_names].
  - exists seen, []. split; [done|]. split; [done|]. split; [simpl; lia|]. set_solver.
  - assert (HnU : n ∈ U) by (apply Hn; by left). assert (Hn' : forall m, m ∈ names -> m ∈ U) by (intros m ?; apply Hn; by right).
    case_bool_decide as Hin.
    + destruct (IH seen frontier U Hs Hn') as (seen' & new & -> & HU & Hsz & Hiff & Hnew & Hold). exists seen', new.
      split; [done|]. split; [done|]. split; [done|]. split; [|split; [|done]].
      * intros m. rewrite Hiff, elem_of_cons. split; [tauto|]. intros [?|[->|?]]; auto.
      * intros m Hm. right. by apply Hnew.
    + destruct (IH ({[n]} ∪ seen) (n :: frontier) U) as (seen' & new & -> & HU & Hsz & Hiff & Hnew & Hold); [set_solver|done|].
      exists seen', (new ++ [n]). split; [by rewrite <- app_assoc|]. split; [done|]. split.
      { rewrite length_app. simpl.
        assert (Heq : U ∖ seen = {[n]} ∪ (U ∖ ({[n]} ∪ seen))).
        { apply set_eq. intros m. destruct (decide (m = n)) as [->|]; set_solver. }
        rewrite Heq. pose proof (size_union (C := gset name) {[n]} (U ∖ ({[n]} ∪ seen))) as Hu.
        pose proof (size_singleton (C := gset name) n) as H1. rewrite Hu by set_solver. lia. }
      split; [|split].
      * intros m. rewrite Hiff, elem_of_cons. set_solver.
      * intros m [Hm| ->%list_elem_of_singleton]%elem_of_app; [right; by apply Hnew | by left].
      * intros m [Hm|Hm]%Hold; [apply elem_of_union in Hm as [->%elem_of_singleton|?]|]; set_solver.
Qed.

(** Met, and either still on the stack or done with. *)
Record closing (roots : list name) (seen : gset name) (frontier : list name) (contexts : gset name) : Prop := {
  cg_reached : forall n, n ∈ seen -> exists root, root ∈ roots /\ rtc names_child root n;
  cg_roots : forall n, n ∈ roots -> n ∈ seen;
  cg_frontier : forall n, n ∈ frontier -> n ∈ seen;
  cg_sound : forall id, id ∈ contexts -> exists n r, n ∈ seen /\ g !! n = Some r /\ id ∈ gr_context_ids r;
  cg_done : forall n r, n ∈ seen -> n ∉ frontier -> g !! n = Some r ->
    gr_context_ids r ⊆ contexts /\ forall m, m ∈ gr_groups r -> m ∈ seen
}.

Lemma reach_seen (seen : gset name) root n : root ∈ seen ->
  (forall x r y, x ∈ seen -> g !! x = Some r -> y ∈ gr_groups r -> y ∈ seen) -> rtc names_child root n -> n ∈ seen.
Proof using.
  intros Hroot Hstep Hr. revert Hroot. induction Hr as [x|x y z (r & Hx & Hy) Hyz IH]; intros Hs; [done|].
  apply IH. by eapply Hstep.
Qed.

Lemma closure_loop_spec roots U fuel : (forall n, n ∈ roots -> n ∈ U) -> named ⊆ U ->
  forall seen frontier contexts, closing roots seen frontier contexts -> seen ⊆ U ->
  (size (U ∖ seen) + length frontier <= fuel)%nat ->
  exists out, closure_loop fuel g seen frontier contexts = Some out /\
    forall id, id ∈ out <-> exists root n r, root ∈ roots /\ rtc names_child root n /\ g !! n = Some r /\ id ∈ gr_context_ids r.
Proof using.
  intros Hroots HU. induction fuel as [|fuel IH]; intros seen [|n frontier] contexts Hc Hs Hf; cbn [closure_loop].
  2: simpl in Hf; lia.
  1, 2: exists contexts; split; [done|]; intros id; split;
    [intros (n & r & Hn & Hg & Hi)%(cg_sound _ _ _ _ Hc); destruct (cg_reached _ _ _ _ Hc n Hn) as (root & ? & ?); by exists root, n, r|];
    intros (root & n & r & Hroot & Hreach & Hg & Hi);
    assert (Hn : n ∈ seen) by (apply (reach_seen seen root n); [by apply (cg_roots _ _ _ _ Hc)| |done];
      intros x r' y Hx Hr' Hy; by apply (cg_done _ _ _ _ Hc x r' Hx (not_elem_of_nil x) Hr'));
    by apply (cg_done _ _ _ _ Hc n r Hn (not_elem_of_nil n) Hg).
  simpl in Hf. assert (Hn : n ∈ seen) by (apply (cg_frontier _ _ _ _ Hc); by left).
  destruct (g !! n) as [r|] eqn:Hg.
  - destruct (sight_names_spec (names_in_order (gr_groups r)) seen frontier U Hs) as (seen' & new & -> & HsU & Hsz & Hiff & Hnew & Hold).
    { intros m Hm. unfold names_in_order in Hm. rewrite merge_sort_Permutation in Hm. apply elem_of_elements in Hm.
      apply HU. by eapply elem_of_named. }
    assert (Hkids : forall m, m ∈ names_in_order (gr_groups r) <-> m ∈ gr_groups r).
    { intros m. unfold names_in_order. rewrite merge_sort_Permutation. apply elem_of_elements. }
    apply IH; [|done|rewrite length_app; lia]. destruct Hc as [Hr Hro Hfr Hso Hdo]. split.
    + intros m [Hm|Hm]%Hiff; [by apply Hr|]. destruct (Hr n Hn) as (root & ? & ?). exists root. split; [done|].
      eapply rtc_r; [done|]. exists r. split; [done | by apply Hkids].
    + intros m Hm. apply Hiff. left. by apply Hro.
    + intros m [Hm|Hm]%elem_of_app; apply Hiff; [right; by apply Hnew | left; apply Hfr; by right].
    + intros id [Hi|Hi]%elem_of_union.
      * destruct (Hso id Hi) as (m & rm & Hm & ?). exists m, rm. split; [apply Hiff; by left | done].
      * exists n, r. split; [apply Hiff; by left | done].
    + intros m rm Hm Hnf Hrm. destruct (decide (m = n)) as [->|Hne].
      * assert (rm = r) as -> by congruence. split; [set_solver|]. intros k Hk. apply Hiff. right. by apply Hkids.
      * assert (Hms : m ∈ seen). { destruct (Hold m Hm) as [?|Hmn]; [done|]. destruct Hnf. apply elem_of_app. by left. }
        destruct (Hdo m rm Hms) as [Hd1 Hd2]; [|done|].
        { intros [->|Hin]%elem_of_cons; [done|]. apply Hnf, elem_of_app. by right. }
        split; [set_solver|]. intros k Hk. apply Hiff. left. by apply Hd2.
  - apply IH; [|done|lia]. destruct Hc as [Hr Hro Hfr Hso Hdo]. split; [done|done| |done|].
    + intros m Hm. apply Hfr. by right.
    + intros m rm Hm Hnf Hrm. apply (Hdo m rm Hm); [|done]. intros [->|Hin]%elem_of_cons; [congruence | done].
Qed.

(** With fuel for every name there is, the closure is every context the roots
    reach. *)
Lemma context_closure_spec fuel roots : (size (list_to_set roots ∪ named : gset name) <= fuel)%nat ->
  exists out, context_closure fuel g roots = Some out /\
    forall id, id ∈ out <-> exists root n r, root ∈ roots /\ rtc names_child root n /\ g !! n = Some r /\ id ∈ gr_context_ids r.
Proof using.
  intros Hf. unfold context_closure. set (U := list_to_set roots ∪ named : gset name) in *.
  assert (HroU : forall n, n ∈ roots -> n ∈ U) by (intros n Hn; unfold U; rewrite elem_of_union, elem_of_list_to_set; by left).
  destruct (sight_names_spec roots ∅ [] U) as (seen & new & -> & HsU & Hsz & Hiff & Hnew & Hold); [set_solver|done|].
  rewrite app_nil_r. apply (closure_loop_spec roots U); [done|unfold U; set_solver| |done|].
  - split.
    + intros n [?|Hn]%Hiff; [set_solver|]. exists n. split; [done | apply rtc_refl].
    + intros n Hn. apply Hiff. by right.
    + intros n Hn. apply Hiff. right. by apply Hnew.
    + set_solver.
    + intros n r Hn Hnf. destruct (Hold n Hn) as [?|?]; [set_solver | done].
  - replace (U ∖ ∅) with U in Hsz by set_solver. lia.
Qed.
End closure.
