(* ===== verification/GroupStore.v ===== *)
(** * Groups: the store ([src/registry/group_ops.rs])

    The resident collection, its files and its rename markers, and every write
    under the groups lock, so that a method is one step.  A file is named by its
    group (the stem encoding is injective) and holds its record; a disk call takes
    its outcome from an argument.  The registry is the set of the registered
    context ids. *)

From S2P Require Export GroupsThm.
From S2P Require Import Query Entry.

Local Open Scope N_scope.

Record GroupState := {
  gs_contexts : gset name;
  gs_groups : GroupMap;
  gs_files : gmap name GroupRecord;
  gs_markers : gmap name name
}.

Definition contains_id (s : GroupState) (id : name) : bool := bool_decide (id ∈ gs_contexts s).
Definition contains_key (groups : GroupMap) (n : name) : bool := bool_decide (is_Some (groups !! n)).
Definition set_store (groups : GroupMap) (files : gmap name GroupRecord) (s : GroupState) : GroupState :=
  {| gs_contexts := gs_contexts s; gs_groups := groups; gs_files := files; gs_markers := gs_markers s |}.
Definition set_markers (markers : gmap name name) (s : GroupState) : GroupState :=
  {| gs_contexts := gs_contexts s; gs_groups := gs_groups s; gs_files := gs_files s; gs_markers := markers |}.

Inductive CreateGroupError :=
  | Create_AlreadyExists | Create_InvalidName | Create_NoSuchContext (id : name) | Create_NoSuchGroup (group : name)
  | Create_Nesting (v : NestingViolation) | Create_OverCap (field : string) | Create_Io.
Inductive UpdateGroupError :=
  | Update_NotFound | Update_NoSuchContext (id : name) | Update_NoSuchGroup (group : name)
  | Update_Nesting (v : NestingViolation) | Update_OverCap (field : string) | Update_Io.
Inductive RenameGroupError := Rename_NotFound | Rename_InvalidName | Rename_AlreadyExists | Rename_Io.
Inductive RestoreGroupsError :=
  | Restore_InvalidName | Restore_Duplicate (group : name) | Restore_NoSuchContext (group id : name)
  | Restore_NoSuchChild (group child : name) | Restore_OverCap (group : name) (field : string)
  | Restore_Nesting (v : NestingViolation) | Restore_Io (group : name) (applied : N) | Restore_Timeout (applied : N).
Inductive GroupRestoreOutcome := Created | Replaced | Unchanged.

(** ** Shared steps *)

Definition first_missing (names : list name) (exists_ : name -> bool) : option name :=
  head (filter (fun n => exists_ n = false) names).

Definition check_member_caps (contexts children : gset name) : result () string :=
  if MAX_GROUP_MEMBERS <? N.of_nat (size contexts) then Err "member contexts"%string
  else if MAX_GROUP_MEMBERS <? N.of_nat (size children) then Err "child groups"%string
  else Ok ().

Definition write_group (io : name -> AtomicIo) (group : name) (record : GroupRecord) (files : gmap name GroupRecord)
    : bool * gmap name GroupRecord :=
  let '(ok, file) := write_atomic (io group) (Some record) (files !! group) in
  (ok, partial_alter (fun _ => file) group files).

(** Unlinks in turn; one already gone counts as done. *)
Fixpoint unlink_markers (unlink : name -> bool) (names : list name) (markers : gmap name name) : bool * gmap name name :=
  match names with
  | [] => (true, markers)
  | n :: names =>
    if bool_decide (is_Some (markers !! n)) && negb (unlink n) then (false, markers)
    else unlink_markers unlink names (delete n markers)
  end.

Definition sweep_stale_rename_markers (unlink : name -> bool) (group : name) (markers : gmap name name) : bool * gmap name name :=
  unlink_markers unlink (((filter (fun p => p.2 = group) (map_to_list markers)).*1) ++ [group]) markers.

(** Validate, persist, or put back what was there. *)
Definition commit_group_mutation {X : Type} (io : name -> AtomicIo) (group : name) (previous groups : GroupMap)
    (files : gmap name GroupRecord) (on_nesting : NestingViolation -> X) (on_io : X)
    : option (result () X * (GroupMap * gmap name GroupRecord)) :=
  valid ← validate_nesting groups;
  match valid with
  | Err v => Some (Err (on_nesting v), (previous, files))
  | Ok _ =>
    record ← groups !! group;
    let '(ok, files) := write_group io group record files in
    Some (if ok then (Ok (), (groups, files)) else (Err on_io, (previous, files)))
  end.

(** Every record a rewrite touches, written in name order, best effort. *)
Fixpoint rewrite_files (io : name -> AtomicIo) (touch : GroupRecord -> option GroupRecord) (rows : list (name * GroupRecord))
    (files : gmap name GroupRecord) : bool * gmap name GroupRecord :=
  match rows with
  | [] => (true, files)
  | (group, record) :: rows =>
    match touch record with
    | None => rewrite_files io touch rows files
    | Some record =>
      let '(ok, files) := write_group io group record files in
      let '(rest, files) := rewrite_files io touch rows files in
      (ok && rest, files)
    end
  end.

Definition rewrite_records (io : name -> AtomicIo) (touch : GroupRecord -> option GroupRecord) (groups : GroupMap)
    (files : gmap name GroupRecord) : bool * (GroupMap * gmap name GroupRecord) :=
  let '(ok, files) := rewrite_files io touch (btree_iter groups) files in
  (ok, ((fun r => default r (touch r)) <$> groups, files)).

Definition drop_child (stale : name) (r : GroupRecord) : option GroupRecord :=
  if bool_decide (stale ∈ gr_groups r) then Some (set_groups (gr_groups r ∖ {[stale]}) r) else None.
Definition drop_context (stale : name) (r : GroupRecord) : option GroupRecord :=
  if bool_decide (stale ∈ gr_context_ids r) then Some (set_context_ids (gr_context_ids r ∖ {[stale]}) r) else None.
Definition rename_child (from to : name) (r : GroupRecord) : option GroupRecord :=
  if bool_decide (from ∈ gr_groups r) then Some (set_groups ({[to]} ∪ (gr_groups r ∖ {[from]})) r) else None.

(** ** Create and update *)

Definition create_group (io : name -> AtomicIo) (unlink : name -> bool) (group description : name) (context_ids children : gset name)
    (s : GroupState) : option (result () CreateGroupError * GroupState) :=
  let groups := gs_groups s in
  if bool_decide (group = []) then Some (Err Create_InvalidName, s)
  else if contains_key groups group then Some (Err Create_AlreadyExists, s)
  else
    match check_member_caps context_ids children with
    | Err field => Some (Err (Create_OverCap field), s)
    | Ok _ =>
      match first_missing (names_in_order context_ids) (contains_id s), first_missing (names_in_order children) (contains_key groups) with
      | Some missing, _ => Some (Err (Create_NoSuchContext missing), s)
      | None, Some missing => Some (Err (Create_NoSuchGroup missing), s)
      | None, None =>
        let '(swept, markers) := sweep_stale_rename_markers unlink group (gs_markers s) in
        let s := set_markers markers s in
        if negb swept then Some (Err Create_Io, s)
        else
          let record := {| gr_description := description; gr_context_ids := context_ids; gr_groups := children |} in
          '(r, (groups, files)) ← commit_group_mutation io group groups (<[group := record]> groups) (gs_files s) Create_Nesting Create_Io;
          Some (r, set_store groups files s)
      end
    end.

(** The first set the delta would push past the cap. *)
Definition over_cap (record : GroupRecord) (add_context_ids remove_context_ids add_groups remove_groups : gset name) : option string :=
  let over (current add remove : gset name) :=
    negb (bool_decide (add = ∅ /\ remove = ∅)) && (MAX_GROUP_MEMBERS <? N.of_nat (size ((current ∖ remove) ∪ add))) in
  if over (gr_context_ids record) add_context_ids remove_context_ids then Some "member contexts"%string
  else if over (gr_groups record) add_groups remove_groups then Some "child groups"%string
  else None.

Definition update_group (io : name -> AtomicIo) (group : name) (description : option name)
    (add_context_ids remove_context_ids add_groups remove_groups : gset name) (s : GroupState)
    : option (result GroupRecord UpdateGroupError * GroupState) :=
  let groups := gs_groups s in
  match groups !! group with
  | None => Some (Err Update_NotFound, s)
  | Some record =>
    match over_cap record add_context_ids remove_context_ids add_groups remove_groups with
    | Some field => Some (Err (Update_OverCap field), s)
    | None =>
      match first_missing (names_in_order add_context_ids) (contains_id s), first_missing (names_in_order add_groups) (contains_key groups) with
      | Some missing, _ => Some (Err (Update_NoSuchContext missing), s)
      | None, Some missing => Some (Err (Update_NoSuchGroup missing), s)
      | None, None =>
        let updated := {| gr_description := default (gr_description record) description;
          gr_context_ids := (gr_context_ids record ∖ remove_context_ids) ∪ add_context_ids;
          gr_groups := (gr_groups record ∖ remove_groups) ∪ add_groups |} in
        '(r, (groups, files)) ← commit_group_mutation io group groups (<[group := updated]> groups) (gs_files s) Update_Nesting Update_Io;
        Some (match r with Ok _ => Ok updated | Err e => Err e end, set_store groups files s)
      end
    end
  end.

(** ** Delete, sweep and rename *)

(** [unlink]: whether the file went away. *)
Definition delete_group (io : name -> AtomicIo) (unlink : bool) (group : name) (s : GroupState) : option bool * GroupState :=
  match gs_groups s !! group with
  | None => (None, s)
  | Some _ =>
    let '(_, (groups, files)) := rewrite_records io (drop_child group) (delete group (gs_groups s)) (gs_files s) in
    (Some unlink, set_store groups (if unlink then delete group files else files) s)
  end.

Definition sweep_context_from_groups (io : name -> AtomicIo) (id : name) (s : GroupState) : GroupState :=
  let '(_, (groups, files)) := rewrite_records io (drop_context id) (gs_groups s) (gs_files s) in
  set_store groups files s.

Record RenameIo := { rn_marker : AtomicIo; rn_move : CommitIo; rn_unlink : bool; rn_write : name -> AtomicIo }.

Definition rename_group (io : RenameIo) (from to : name) (s : GroupState) : option (result () RenameGroupError * GroupState) :=
  let groups := gs_groups s in
  if bool_decide (to = []) then Some (Err Rename_InvalidName, s)
  else if negb (contains_key groups from) then Some (Err Rename_NotFound, s)
  else if bool_decide (from = to) then Some (Ok (), s)
  else if contains_key groups to then Some (Err Rename_AlreadyExists, s)
  else
    let '(marked, marker) := write_atomic (rn_marker io) (Some to) (gs_markers s !! from) in
    let s := set_markers (partial_alter (fun _ => marker) from (gs_markers s)) s in
    if negb marked then Some (Err Rename_Io, s)
    else
      let '(moved, files) := commit_staged (rn_move io)
        (partial_alter (fun _ => gs_files s !! from) to (delete from (gs_files s))) (gs_files s) in
      if negb moved then
        Some (Err Rename_Io, set_markers (if rn_unlink io then delete from (gs_markers s) else gs_markers s) (set_store groups files s))
      else
        record ← groups !! from;
        let '(persisted, (groups, files)) := rewrite_records (rn_write io) (rename_child from to) (<[to := record]> (delete from groups)) files in
        let s := set_store groups files s in
        Some (Ok (), if persisted && rn_unlink io then set_markers (delete from (gs_markers s)) s else s).

(** ** Reads *)

Definition resolve_groups (fuel : nat) (names : list name) (s : GroupState) : option (result (gset name) name) :=
  match first_missing names (contains_key (gs_groups s)) with
  | Some missing => Some (Err missing)
  | None => contexts ← context_closure fuel (gs_groups s) names; Some (Ok contexts)
  end.

Definition group_page (after : option name) (limit : nat) (s : GroupState) : nat * list (name * GroupRecord) :=
  (size (gs_groups s), take limit (btree_after after (gs_groups s))).

(** ** Restore *)

(** The records in order: names, duplicates, caps, and the prospective map. *)
Fixpoint vet_records (records : list (name * GroupRecord)) (incoming : gset name) (prospective : GroupMap) : result GroupMap RestoreGroupsError :=
  match records with
  | [] => Ok prospective
  | (group, record) :: records =>
    if bool_decide (group = []) then Err Restore_InvalidName
    else if bool_decide (group ∈ incoming) then Err (Restore_Duplicate group)
    else
      match check_member_caps (gr_context_ids record) (gr_groups record) with
      | Err field => Err (Restore_OverCap group field)
      | Ok _ => vet_records records ({[group]} ∪ incoming) (<[group := record]> prospective)
      end
  end.

Fixpoint vet_members (contains : name -> bool) (prospective : GroupMap) (records : list (name * GroupRecord)) : result () RestoreGroupsError :=
  match records with
  | [] => Ok ()
  | (group, record) :: records =>
    match first_missing (names_in_order (gr_context_ids record)) contains,
          first_missing (names_in_order (gr_groups record)) (contains_key prospective) with
    | Some id, _ => Err (Restore_NoSuchContext group id)
    | None, Some child => Err (Restore_NoSuchChild group child)
    | None, None => vet_members contains prospective records
    end
  end.

Definition restore_outcome (groups : GroupMap) (p : name * GroupRecord) : GroupRestoreOutcome :=
  match groups !! p.1 with
  | Some standing => if bool_decide (standing = p.2) then Unchanged else Replaced
  | None => Created
  end.

(** The children a record of the batch drops that are in the batch too. *)
Definition dropped_children (groups : GroupMap) (index_of : gmap name N) (p : name * GroupRecord) : list N :=
  match groups !! p.1 with
  | None => []
  | Some standing =>
    omap (fun old => if bool_decide (old ∈ gr_groups p.2) then None else index_of !! old) (names_in_order (gr_groups standing))
  end.

Definition count_pending (pending : list N) (row : list N) : option (list N) :=
  foldM (fun pending d => tupd pending d (fun n => u64_add n 1)) row pending.

(** [pending[dependent] -= 1], and the records that became ready. *)
Fixpoint unblock (depth_at : list N) (row : list N) (st : list N * list (N * N)) : option (list N * list (N * N)) :=
  match row with
  | [] => Some st
  | d :: row =>
    pending ← tupd st.1 d (fun n => u64_add n U64_MAX);
    left_ ← tget pending d;
    depth ← tget depth_at d;
    unblock depth_at row (pending, if left_ =? 0 then (depth, d) :: st.2 else st.2)
  end.

Definition ready_le (p q : N * N) : Prop := p.1 < q.1 \/ (p.1 = q.1 /\ p.2 <= q.2).
#[export] Instance ready_le_dec p q : Decision (ready_le p q).
Proof. unfold ready_le. apply _. Defined.

(** Kahn's algorithm, shallowest ready record first. *)
Fixpoint landing_order (fuel : nat) (depth_at : list N) (dependents : list (list N)) (pending : list N) (ready : list (N * N))
    (order : list N) : option (list N) :=
  match merge_sort ready_le ready with
  | [] => Some order
  | (_, next) :: ready =>
    match fuel with
    | O => None
    | S fuel =>
      row ← tget dependents next;
      '(pending, ready) ← unblock depth_at row (pending, ready);
      landing_order fuel depth_at dependents pending ready (order ++ [next])
    end
  end.

Definition restore_order (groups : GroupMap) (depths : gmap name N) (records : list (name * GroupRecord)) : option (list N) :=
  let index_of : gmap name N := list_to_map (zip records.*1 (indices records)) in
  let dependents := dropped_children groups index_of <$> records in
  depth_at ← mapM (fun p : name * GroupRecord => depths !! p.1) records;
  pending ← foldM count_pending dependents (replicate (length records) 0);
  let ready := filter (fun p => tget pending p.2 = Some 0) (zip depth_at (indices records)) in
  order ← landing_order (length records) depth_at dependents pending ready [];
  if lenN order =? lenN records then Some order else None.

Record RestoreIo := { rs_expired : N -> bool; rs_write : name -> AtomicIo; rs_unlink : name -> bool }.

(** The landing, stopping at the deadline or the first failed call. *)
Fixpoint land (io : RestoreIo) (standing : GroupMap) (records : list (name * GroupRecord)) (order : list N) (applied : N) (s : GroupState)
    : option (result () RestoreGroupsError * GroupState) :=
  match order with
  | [] => Some (Ok (), s)
  | index :: order =>
    if rs_expired io applied then Some (Err (Restore_Timeout applied), s)
    else
      p ← tget records index;
      match restore_outcome standing p with
      | Unchanged => land io standing records order (applied + 1) s
      | outcome =>
        let '(swept, markers) :=
          match outcome with Created => sweep_stale_rename_markers (rs_unlink io) p.1 (gs_markers s) | _ => (true, gs_markers s) end in
        let s := set_markers markers s in
        if negb swept then Some (Err (Restore_Io p.1 applied), s)
        else
          let '(ok, files) := write_group (rs_write io) p.1 p.2 (gs_files s) in
          if ok then land io standing records order (applied + 1) (set_store (<[p.1 := p.2]> (gs_groups s)) files s)
          else Some (Err (Restore_Io p.1 applied), set_store (gs_groups s) files s)
      end
  end.

Definition restore_groups (io : RestoreIo) (records : list (name * GroupRecord)) (s : GroupState)
    : option (result (list (name * GroupRestoreOutcome)) RestoreGroupsError * GroupState) :=
  let groups := gs_groups s in
  match vet_records records ∅ groups with
  | Err e => Some (Err e, s)
  | Ok prospective =>
    match vet_members (contains_id s) prospective records with
    | Err e => Some (Err e, s)
    | Ok _ =>
      depths ← nesting_depths prospective;
      match depths with
      | Err v => Some (Err (Restore_Nesting v), s)
      | Ok depths =>
        order ← restore_order groups depths records;
        '(r, s) ← land io groups records order 0 s;
        Some (match r with
              | Ok _ => Ok ((fun p => (p.1, restore_outcome groups p)) <$> records)
              | Err e => Err e
              end, s)
      end
    end
  end.

Definition group_restore_involves (fuel : nat) (records : list (name * GroupRecord)) (s : GroupState) : option (gset name) :=
  standing ← context_closure fuel (gs_groups s) records.*1;
  prospective ← context_closure fuel (foldl (fun m p => <[p.1 := p.2]> m) (gs_groups s) records) records.*1;
  Some (standing ∪ prospective).

(** ** The landing order *)

Lemma filter_fmap {A B} (f : A -> B) (P : B -> Prop) `{!forall y, Decision (P y)} (l : list A) :
  filter P (f <$> l) = f <$> filter (fun x => P (f x)) l.
Proof. induction l as [|x l IH]; [done|]. rewrite fmap_cons, !filter_cons. destruct (decide (P (f x))); [|done]. by rewrite fmap_cons, IH. Qed.

Section kahn.
Context (D : list (list N)) (depth_at : list N).

(** Every record unblocks others of the batch, each once. *)
Record rows_ok : Prop := {
  ro_depths : lenN depth_at = lenN D;
  ro_range : forall i row j, tget D i = Some row -> j ∈ row -> j < lenN D;
  ro_once : forall i row, tget D i = Some row -> NoDup row;
  ro_size : lenN D <= U64_MAX
}.
Context (HD : rows_ok).

(** The records that hold [j] back, of those not yet placed. *)
Definition blockers (placed : list N) (j : N) : list (N * list N) :=
  filter (fun p => p.1 ∉ placed /\ j ∈ p.2) (zip (indices D) D).

Lemma blockers_le placed j : lenN (blockers placed j) <= lenN D.
Proof using.
  clear HD. unfold blockers, lenN. pose proof (length_filter (fun p : N * list N => p.1 ∉ placed /\ j ∈ p.2) (zip (indices D) D)) as Hl.
  rewrite length_zip_with, indices_length in Hl. lia.
Qed.

Lemma blockers_nil j placed : blockers placed j = [] <-> forall i row, tget D i = Some row -> j ∈ row -> i ∈ placed.
Proof using.
  clear HD. unfold blockers. split.
  - intros Hb i row Hi Hj. destruct (decide (i ∈ placed)) as [|Hn]; [done|]. exfalso.
    apply (not_elem_of_nil (i, row)). rewrite <- Hb. apply list_elem_of_filter. split; [done | by apply elem_of_indexed].
  - intros Hall. destruct (filter _ _) as [|[i row] l] eqn:Hf; [done|]. exfalso.
    assert (Hin : (i, row) ∈ filter (fun p => p.1 ∉ placed /\ j ∈ p.2) (zip (indices D) D)) by (rewrite Hf; by left).
    apply list_elem_of_filter in Hin as [[Hn Hj] Hz]. apply elem_of_indexed in Hz. by apply Hn, (Hall i row).
Qed.

Lemma blockers_place placed i row j : tget D i = Some row -> i ∉ placed ->
  lenN (blockers placed j) = lenN (blockers (placed ++ [i]) j) + (if bool_decide (j ∈ row) then 1 else 0).
Proof using.
  clear HD. intros Hi Hn. unfold blockers.
  assert (Hin : (i, row) ∈ zip (indices D) D) by (by apply elem_of_indexed).
  assert (Hnd : NoDup (zip (indices D) D).*1) by (rewrite fst_zip by (by rewrite indices_length); apply NoDup_indices).
  apply elem_of_Permutation in Hin as [rest Hp].
  assert (Hrest : i ∉ rest.*1) by (rewrite Hp in Hnd; by apply NoDup_cons in Hnd as [? _]).
  unfold lenN. rewrite !Hp, !filter_cons. cbn [fst snd].
  rewrite (decide_False (P := i ∉ placed ++ [i] /\ j ∈ row)) by (intros [Hx _]; apply Hx, elem_of_app; right; by left).
  assert (Heq : filter (fun p : N * list N => p.1 ∉ placed /\ j ∈ p.2) rest = filter (fun p => p.1 ∉ placed ++ [i] /\ j ∈ p.2) rest).
  { clear Hp Hnd. induction rest as [|[a b] rest IH]; [done|]. rewrite !filter_cons. cbn [fst snd] in *.
    rewrite fmap_cons, not_elem_of_cons in Hrest. destruct Hrest as [Hne Hrest]. rewrite (IH Hrest).
    assert (Hiff : (a ∉ placed /\ j ∈ b) <-> (a ∉ placed ++ [i] /\ j ∈ b)).
    { rewrite not_elem_of_app, list_elem_of_singleton. cbn in Hne. split; intros H; (split; [|apply H]); [split; [apply H | congruence] | apply H]. }
    destruct (decide (a ∉ placed /\ j ∈ b)) as [H1|H1], (decide (a ∉ placed ++ [i] /\ j ∈ b)) as [H2|H2]; tauto. }
  rewrite Heq. destruct (decide (i ∉ placed /\ j ∈ row)) as [[_ Hj]|Hj]; [rewrite bool_decide_true by done; simpl; lia|].
  rewrite bool_decide_false by tauto. lia.
Qed.

Lemma count_pending_spec row : NoDup row -> forall pending, (forall j, j ∈ row -> j < lenN pending) ->
  (forall j n, j ∈ row -> tget pending j = Some n -> n < U64_MAX) ->
  exists pending', count_pending pending row = Some pending' /\ lenN pending' = lenN pending /\
    forall j, tget pending' j = (fun n => n + (if bool_decide (j ∈ row) then 1 else 0)) <$> tget pending j.
Proof using.
  clear HD. unfold count_pending. induction 1 as [|d row Hd Hnd IH]; intros pending Hr Hb; cbn [foldM].
  - exists pending. split; [done|]. split; [done|]. intros j. destruct (tget pending j); [|done]. cbn. f_equal. rewrite bool_decide_false; [lia | apply not_elem_of_nil].
  - destruct (tupd_total pending d (fun n => u64_add n 1)) as [p1 H1]; [apply Hr; by left|]. rewrite H1. cbn [mbind option_bind].
    pose proof (tupd_lenN _ _ _ _ H1) as Hl1. destruct (IH p1) as (p' & -> & Hl & Hg).
    + intros j Hj. rewrite Hl1. apply Hr. by right.
    + intros j n Hj Hn. rewrite (tupd_get _ _ _ _ j H1) in Hn. rewrite decide_False in Hn by (intros ->; done). eapply Hb; [by right | done].
    + exists p'. split; [done|]. split; [congruence|]. intros j. rewrite Hg, (tupd_get _ _ _ _ j H1).
      destruct (decide (j = d)) as [->|Hne].
      * destruct (tget pending d) as [n|] eqn:Hn; [|done]. cbn. rewrite (bool_decide_true (d ∈ d :: row)) by (by left).
        rewrite bool_decide_false by done. f_equal. rewrite u64_add_small; [lia|]. assert (n < U64_MAX) by (eapply Hb; [by left | done]). lia.
      * assert (Hiff : bool_decide (j ∈ d :: row) = bool_decide (j ∈ row)) by (apply bool_decide_ext; rewrite elem_of_cons; tauto).
        by rewrite Hiff.
Qed.

Lemma count_all_spec rows : (forall row, row ∈ rows -> NoDup row) -> forall pending,
  (forall row j, row ∈ rows -> j ∈ row -> j < lenN pending) ->
  (forall j n, tget pending j = Some n -> n + lenN rows <= U64_MAX) ->
  exists pending', foldM count_pending rows pending = Some pending' /\ lenN pending' = lenN pending /\
    forall j, tget pending' j = (fun n => n + lenN (filter (fun row => j ∈ row) rows)) <$> tget pending j.
Proof using.
  clear HD. induction rows as [|row rows IH]; intros Hnd pending Hr Hb; cbn [foldM].
  - exists pending. split; [done|]. split; [done|]. intros j. destruct (tget pending j); [|done]. cbn. f_equal. unfold lenN. simpl. lia.
  - assert (Hlr : lenN (row :: rows) = lenN rows + 1) by (unfold lenN; simpl; lia).
    destruct (count_pending_spec row) with (pending := pending) as (p1 & -> & Hl1 & Hg1);
      [apply Hnd; by left|intros j Hj; eapply Hr; [by left | done]|intros j n _ Hn; specialize (Hb j n Hn); lia|].
    cbn [mbind option_bind]. destruct (IH (fun r Hin => Hnd r (list_elem_of_further _ _ _ Hin)) p1) as (p' & -> & Hl & Hg).
    + intros r j Hin Hj. rewrite Hl1. eapply Hr; [by right | done].
    + intros j n Hn. rewrite Hg1 in Hn. destruct (tget pending j) as [n0|] eqn:Hn0; [|done]. injection Hn as <-.
      specialize (Hb j n0 Hn0). destruct (bool_decide _); lia.
    + exists p'. split; [done|]. split; [congruence|]. intros j. rewrite Hg, Hg1, filter_cons. destruct (tget pending j) as [n|]; [|done]. cbn. f_equal.
      destruct (decide (j ∈ row)) as [Hj|Hj]; [rewrite bool_decide_true by done | rewrite bool_decide_false by done]; unfold lenN; simpl; lia.
Qed.

(** Before anything is placed. *)
Lemma pending_start : exists pending, foldM count_pending D (replicate (length D) 0) = Some pending /\ lenN pending = lenN D /\
  forall j, j < lenN D -> tget pending j = Some (lenN (blockers [] j)).
Proof using HD.
  assert (Hrow : forall row, row ∈ D -> exists i, tget D i = Some row) by (intros row Hin; by apply tget_Some_elem).
  assert (Hlz : lenN (replicate (length D) 0) = lenN D) by (unfold lenN; by rewrite length_replicate).
  destruct (count_all_spec D) with (pending := replicate (length D) 0) as (pending & He & Hl & Hg).
  - intros row [i Hi]%Hrow. by eapply (ro_once HD).
  - intros row j [i Hi]%Hrow Hj. rewrite Hlz. by eapply (ro_range HD).
  - intros j n Hn. rewrite tget_lookup in Hn. apply lookup_replicate in Hn as [-> _]. pose proof (ro_size HD). lia.
  - exists pending. split; [done|]. split; [congruence|]. intros j Hj. rewrite Hg, tget_lookup.
    rewrite (proj2 (lookup_replicate (length D) 0 0 (N.to_nat j))) by (unfold lenN in Hj; split; [done | lia]). cbn. f_equal.
    unfold blockers, lenN.
    assert (Hz : D = (zip (indices D) D).*2) by (by rewrite snd_zip by (by rewrite indices_length)). rewrite Hz at 1.
    rewrite filter_fmap, length_fmap, N.add_0_l. do 2 f_equal. apply list_filter_iff. intros p. cbn. pose proof (not_elem_of_nil p.1). tauto.
Qed.

(** ** One placement *)

Lemma unblock_spec row : NoDup row -> forall pending ready, lenN pending = lenN D -> (forall d, d ∈ row -> d < lenN D) ->
  (forall d n, d ∈ row -> tget pending d = Some n -> 1 <= n <= U64_MAX) ->
  exists pending' ready', unblock depth_at row (pending, ready) = Some (pending', ready') /\ lenN pending' = lenN pending /\
    (forall j, tget pending' j = (fun n => n - (if bool_decide (j ∈ row) then 1 else 0)) <$> tget pending j) /\
    (forall p, p ∈ ready' <-> p ∈ ready \/ (p.2 ∈ row /\ tget pending' p.2 = Some 0 /\ tget depth_at p.2 = Some p.1)) /\
    (NoDup ready.*2 -> (forall d, d ∈ row -> d ∉ ready.*2) -> NoDup ready'.*2).
Proof using HD.
  induction 1 as [|d row Hd Hnd IH]; intros pending ready Hl Hr Hb; cbn [unblock fst snd].
  - exists pending, ready. split; [done|]. split; [done|]. split.
    { intros j. destruct (tget pending j); [|done]. cbn. f_equal. rewrite bool_decide_false; [lia | apply not_elem_of_nil]. }
    split; [|done]. intros p. split; [by left|]. by intros [?|[?%not_elem_of_nil _]].
  - assert (Hdl : d < lenN D) by (apply Hr; by left).
    destruct (tupd_total pending d (fun n => u64_add n U64_MAX)) as [p1 H1]; [by rewrite Hl|]. rewrite H1. cbn [mbind option_bind].
    pose proof (tupd_lenN _ _ _ _ H1) as Hl1. destruct (tget_lt pending d) as [n Hn]; [by rewrite Hl|].
    assert (Hnb : 1 <= n <= U64_MAX) by (eapply Hb; [by left | done]).
    assert (Hn1 : tget p1 d = Some (n - 1)).
    { rewrite (tupd_get _ _ _ _ d H1), decide_True, Hn by done. cbn. f_equal. unfold u64_add.
      replace (n + U64_MAX) with (n - 1 + 1 * (U64_MAX + 1)) by lia. rewrite N.Div0.mod_add, N.mod_small; lia. }
    rewrite Hn1. cbn [mbind option_bind]. destruct (tget_lt depth_at d) as [dep Hdep]; [by rewrite (ro_depths HD)|]. rewrite Hdep. cbn [mbind option_bind].
    set (ready1 := if n - 1 =? 0 then (dep, d) :: ready else ready).
    assert (Hother : forall j, j <> d -> tget p1 j = tget pending j) by (intros j Hj; by rewrite (tupd_get _ _ _ _ j H1), decide_False).
    destruct (IH p1 ready1) as (p' & r' & He & Hl' & Hg & Hrd & Hnr).
    + congruence.
    + intros e He. apply Hr. by right.
    + intros e k He Hk. rewrite Hother in Hk by (intros ->; done). eapply Hb; [by right | done].
    + assert (Hd' : tget p' d = Some (n - 1)).
      { rewrite Hg, Hn1. cbn. f_equal. rewrite bool_decide_false by done. lia. }
      exists p', r'. split; [done|]. split; [congruence|]. split; [|split].
      * intros j. destruct (decide (j = d)) as [->|Hne].
        { rewrite Hd', Hn. cbn. f_equal. rewrite bool_decide_true by (by left). done. }
        rewrite Hg, Hother by done.
        assert (Hiff : bool_decide (j ∈ d :: row) = bool_decide (j ∈ row)) by (apply bool_decide_ext; rewrite elem_of_cons; tauto).
        by rewrite Hiff.
      * intros p. rewrite Hrd. unfold ready1. rewrite (elem_of_cons row p.2 d). destruct (N.eqb_spec (n - 1) 0) as [Hz|Hnz].
        -- rewrite (elem_of_cons ready p (dep, d)). split.
           ++ intros [[->|?]|?]; [right; cbn; rewrite Hd', Hz; by auto|by left|right; tauto].
           ++ intros [?|([Hpd|?] & ? & Hpp)]; [by auto|left; left; destruct p as [a b]; cbn in *; congruence|right; by auto].
        -- split; [tauto|]. intros [?|([Hpd|?] & Hzz & ?)]; [by left| |right; tauto]. rewrite Hpd, Hd' in Hzz. congruence.
      * intros Hndr Hfree. apply Hnr.
        -- unfold ready1. destruct (_ =? 0); [|done]. rewrite fmap_cons. apply NoDup_cons. split; [apply Hfree; by left | done].
        -- intros e He'. unfold ready1. assert (Hf : e ∉ ready.*2) by (apply Hfree; by right). destruct (_ =? 0); [|done].
           rewrite fmap_cons, not_elem_of_cons. split; [intros ->; done | done].
Qed.

(** ** The order *)

Lemma lenN_nil {A} (l : list A) : lenN l = 0 <-> l = [].
Proof using. clear. unfold lenN. destruct l; simpl; [done|]. split; [lia | done]. Qed.

(** A record another of the batch drops. *)
Definition held (j : N) : Prop := exists i row, tget D i = Some row /\ j ∈ row.

(** What is shallower than a placed record came before it, or was held back. *)
Definition shallow_first (order : list N) : Prop := forall k i j di dj, order !! k = Some i ->
  tget depth_at i = Some di -> tget depth_at j = Some dj -> dj < di -> j ∈ take k order \/ held j.

Record placing (placed pending : list N) (ready : list (N * N)) : Prop := {
  pl_nodup : NoDup placed;
  pl_range : forall i, i ∈ placed -> i < lenN D;
  pl_done : forall j, j ∈ placed -> blockers placed j = [];
  pl_length : lenN pending = lenN D;
  pl_pending : forall j, j < lenN D -> tget pending j = Some (lenN (blockers placed j));
  pl_ready : forall p, p ∈ ready <-> p.2 < lenN D /\ p.2 ∉ placed /\ blockers placed p.2 = [] /\ tget depth_at p.2 = Some p.1;
  pl_once : NoDup ready.*2;
  pl_order : shallow_first placed
}.

Lemma shallow_first_snoc placed next : shallow_first placed ->
  (forall j di dj, tget depth_at next = Some di -> tget depth_at j = Some dj -> dj < di -> j ∈ placed \/ held j) ->
  shallow_first (placed ++ [next]).
Proof using.
  clear HD. intros Hs Hn k i j di dj Hk Hi Hj Hlt. apply lookup_app_Some in Hk as [Hk|[Hle Hk]].
  - rewrite take_app_le by (apply lookup_lt_Some in Hk; lia). by eapply Hs.
  - apply list_lookup_singleton_Some in Hk as [He <-]. rewrite take_app_length' by lia. by eapply Hn.
Qed.

Lemma place_one placed pending dep next ready row : placing placed pending ((dep, next) :: ready) ->
  (forall p, p ∈ ready -> ready_le (dep, next) p) -> tget D next = Some row ->
  exists pending' ready', unblock depth_at row (pending, ready) = Some (pending', ready') /\ placing (placed ++ [next]) pending' ready'.
Proof using HD.
  intros [Hnd Hr Hdone Hl Hp Hrd Ho Hord] Hmin Hrow.
  destruct (proj1 (Hrd (dep, next))) as (Hnl & Hnn & Hnb & Hdep); [by left|]. cbn [fst snd] in *.
  assert (Hrowb : forall d, d ∈ row -> (next, row) ∈ blockers placed d).
  { intros d Hd. apply list_elem_of_filter. split; [done|]. by apply elem_of_indexed. }
  assert (Hfresh : forall d, d ∈ row -> d ∉ placed /\ d <> next /\ d < lenN D).
  { intros d Hd. specialize (Hrowb d Hd). split; [|split; [|by eapply (ro_range HD)]].
    - intros Hin. rewrite (Hdone d Hin) in Hrowb. by apply not_elem_of_nil in Hrowb.
    - intros ->. rewrite Hnb in Hrowb. by apply not_elem_of_nil in Hrowb. }
  assert (Hstep : forall j, lenN (blockers placed j) = lenN (blockers (placed ++ [next]) j) + (if bool_decide (j ∈ row) then 1 else 0)).
  { intros j. by apply blockers_place. }
  destruct (unblock_spec row (ro_once HD next row Hrow) pending ready Hl) as (p' & r' & He & Hl' & Hg & Hr' & Hnd').
  { intros d Hd. by apply Hfresh. }
  { intros d n Hd Hn. destruct (Hfresh d Hd) as (_ & _ & Hdl). rewrite (Hp d Hdl) in Hn. injection Hn as <-.
    pose proof (blockers_le placed d). pose proof (ro_size HD). pose proof (Hstep d) as Hs. rewrite bool_decide_true in Hs by done. lia. }
  exists p', r'. split; [done|].
  assert (Hp' : forall j, j < lenN D -> tget p' j = Some (lenN (blockers (placed ++ [next]) j))).
  { intros j Hj. rewrite Hg, (Hp j Hj). cbn. f_equal. rewrite (Hstep j). lia. }
  cbn [fmap list_fmap snd] in Ho. apply NoDup_cons in Ho as [Hnext Ho].
  assert (Hsub : forall j, blockers placed j = [] -> blockers (placed ++ [next]) j = []).
  { intros j Hj. apply lenN_nil. pose proof (Hstep j) as Hs. rewrite Hj in Hs. unfold lenN in Hs at 1. simpl in Hs. lia. }
  split; [| | |congruence|exact Hp'| | |].
  - apply NoDup_app. split; [done|]. split; [|apply NoDup_singleton]. intros x Hx ->%list_elem_of_singleton. done.
  - intros i [Hi| ->%list_elem_of_singleton]%elem_of_app; [by apply Hr | done].
  - intros j [Hj| ->%list_elem_of_singleton]%elem_of_app; apply Hsub; [by apply Hdone | done].
  - intros p. rewrite Hr'. split.
    + intros [Hin|(Hin & Hz & Hdp)].
      * destruct (proj1 (Hrd p)) as (H1 & H2 & H3 & H4); [by right|]. split; [done|]. split; [|split; [by apply Hsub | done]].
        rewrite not_elem_of_app, list_elem_of_singleton. split; [done|]. intros Heq. apply Hnext. rewrite <- Heq. by apply list_elem_of_fmap_2.
      * destruct (Hfresh _ Hin) as (H1 & H2 & H3). rewrite (Hp' _ H3) in Hz. injection Hz as Hz. split; [done|]. split; [|split; [by apply lenN_nil | done]].
        rewrite not_elem_of_app, list_elem_of_singleton. done.
    + intros (H1 & H2 & H3 & H4). rewrite not_elem_of_app, list_elem_of_singleton in H2. destruct H2 as [H2 H2'].
      destruct (decide (p.2 ∈ row)) as [Hin|Hin].
      * right. split; [done|]. split; [|done]. rewrite (Hp' _ H1), H3. done.
      * left. pose proof (Hstep p.2) as Hs. rewrite bool_decide_false, H3 in Hs by done.
        assert (Hin' : p ∈ (dep, next) :: ready).
        { apply Hrd. split; [done|]. split; [done|]. split; [|done]. apply lenN_nil. rewrite Hs. done. }
        apply elem_of_cons in Hin' as [->|]; [done | done].
  - apply Hnd'; [done|]. intros d Hd Hin. apply list_elem_of_fmap in Hin as (p & -> & Hin).
    destruct (proj1 (Hrd p)) as (_ & _ & H3 & _); [by right|]. specialize (Hrowb p.2 Hd). rewrite H3 in Hrowb. by apply not_elem_of_nil in Hrowb.
  - apply shallow_first_snoc; [done|]. intros j di dj Hdi Hdj Hlt. rewrite Hdep in Hdi. injection Hdi as <-.
    destruct (decide (j ∈ placed)) as [|Hjp]; [by left|]. right.
    assert (Hjl : j < lenN D) by (rewrite <- (ro_depths HD); by eapply tget_Some_lt).
    destruct (blockers placed j) as [|[i' row'] l] eqn:Hb.
    + exfalso. assert (Hin : (dj, j) ∈ (dep, next) :: ready) by (by apply Hrd).
      apply elem_of_cons in Hin as [[= -> ->]|Hin]; [lia|]. destruct (Hmin _ Hin) as [Hm|[Hm _]]; cbn in Hm; lia.
    + assert (Hin : (i', row') ∈ blockers placed j) by (rewrite Hb; by left). apply list_elem_of_filter in Hin as [[_ Hj'] Hz].
      exists i', row'. split; [by apply elem_of_indexed | done].
Qed.

#[local] Instance ready_le_trans : Transitive ready_le.
Proof using. clear. intros [a b] [c d] [e f]. unfold ready_le. cbn. lia. Qed.
#[local] Instance ready_le_total : Total ready_le.
Proof using. clear. intros [a b] [c d]. unfold ready_le. cbn. lia. Qed.

Lemma perm_placing placed pending ready ready' : ready ≡ₚ ready' -> placing placed pending ready -> placing placed pending ready'.
Proof using.
  clear HD. intros Hp [H1 H2 H3 H4 H5 H6 H7 H8]. split; try done.
  - intros p. by rewrite <- Hp.
  - by rewrite <- Hp.
Qed.

(** Every batch of records that do not hold each other back in a circle is placed
    whole. *)
Lemma landing_order_spec (Hwell : forall placed, (exists j, j < lenN D /\ j ∉ placed) ->
    exists j, j < lenN D /\ j ∉ placed /\ blockers placed j = []) fuel : forall placed pending ready, placing placed pending ready ->
  (length D <= fuel + length placed)%nat ->
  exists order, landing_order fuel depth_at D pending ready placed = Some order /\ NoDup order /\
    (forall i, i ∈ order <-> i < lenN D) /\ shallow_first order.
Proof using HD.
  induction fuel as [|fuel IH]; intros placed pending ready Hpl Hf; cbn [landing_order].
  all: pose proof (StronglySorted_merge_sort ready_le ready) as Hsort; pose proof (merge_sort_Permutation ready_le ready) as Hperm.
  all: destruct (merge_sort ready_le ready) as [|[dep next] rest].
  1, 3: exists placed; split; [done|]; split; [apply (pl_nodup _ _ _ Hpl)|]; split; [|apply (pl_order _ _ _ Hpl)];
    intros i; split; [apply (pl_range _ _ _ Hpl)|]; intros Hi; destruct (decide (i ∈ placed)) as [|Hn]; [done|]; exfalso;
    destruct (Hwell placed) as (j & Hj & Hjn & Hjb); [by exists i|];
    destruct (tget_lt depth_at j) as [dj Hdj]; [by rewrite (ro_depths HD)|];
    apply (not_elem_of_nil (dj, j)); rewrite Hperm; by apply (pl_ready _ _ _ Hpl).
  all: pose proof (perm_placing _ _ _ _ (symmetry Hperm) Hpl) as Hpl'.
  all: destruct (proj1 (pl_ready _ _ _ Hpl' (dep, next))) as (Hnl & Hnn & _); [by left|]; cbn [snd] in *.
  - exfalso. assert (Hle : (length (next :: placed) <= length (indices D))%nat).
    { apply submseteq_length, NoDup_submseteq; [apply NoDup_cons; split; [done | apply (pl_nodup _ _ _ Hpl)]|].
      intros x [->|Hx]%elem_of_cons; apply elem_of_indices; [done | by apply (pl_range _ _ _ Hpl)]. }
    rewrite indices_length in Hle. simpl in Hle. lia.
  - destruct (tget_lt D next Hnl) as [row Hrow]. rewrite Hrow. cbn [mbind option_bind].
    destruct (place_one placed pending dep next rest row Hpl') as (p' & r' & -> & Hpl2); [|done|].
    { apply StronglySorted_inv in Hsort as [_ Hall]. rewrite Forall_forall in Hall. done. }
    cbn [mbind option_bind]. apply IH; [done|]. rewrite length_app. simpl. lia.
Qed.
End kahn.
