(* ===== verification/GroupClaims.v ===== *)
(** * Groups stay well formed

    Every write under the groups lock keeps the collection live, whatever the
    disk does; a restore that stops part-way keeps all of it but the cap on
    nesting. *)

From S2P Require Export GroupStore.
From S2P Require Import Query Entry.

Local Open Scope N_scope.

Definition live (s : GroupState) : Prop := store_ok (contains_id s) (gs_groups s).

(** ** Guards *)

Lemma first_missing_None s f : first_missing (names_in_order s) f = None -> forall n, n ∈ s -> f n = true.
Proof.
  unfold first_missing. intros Hh n Hn%elem_of_names_in_order. destruct (f n) eqn:Hf; [done|].
  assert (Hin : n ∈ filter (fun n => f n = false) (names_in_order s)) by (by apply list_elem_of_filter).
  destruct (filter _ _); [by apply not_elem_of_nil in Hin | done].
Qed.

Lemma check_member_caps_Ok a b u : check_member_caps a b = Ok u ->
  N.of_nat (size a) <= MAX_GROUP_MEMBERS /\ N.of_nat (size b) <= MAX_GROUP_MEMBERS.
Proof.
  unfold check_member_caps. destruct (N.ltb_spec MAX_GROUP_MEMBERS (N.of_nat (size a))); [done|].
  destruct (N.ltb_spec MAX_GROUP_MEMBERS (N.of_nat (size b))); done.
Qed.

Lemma contains_key_true groups n : contains_key groups n = true <-> is_Some (groups !! n).
Proof. apply bool_decide_eq_true. Qed.

(** ** Nesting under change *)

Lemma nested_image (f : name -> name) g' g : (forall n m, child g' n m -> child g (f n) (f m)) -> nested_ok g -> nested_ok g'.
Proof.
  intros Hf Hok n [m Hm]. apply (Hok (f n)). exists (f m). revert Hm. generalize (N.to_nat MAX_GROUP_DEPTH). intros k Hm.
  induction Hm as [|k x y z Hxy Hyz IH]; [constructor|]. econstructor; [by apply Hf | done].
Qed.

(** ** Create and update *)

(** What a record may hold. *)
Definition record_ok (s : GroupState) (record : GroupRecord) : Prop :=
  (forall id, id ∈ gr_context_ids record -> contains_id s id = true) /\
  (forall c, c ∈ gr_groups record -> is_Some (gs_groups s !! c)) /\
  N.of_nat (size (gr_context_ids record)) <= MAX_GROUP_MEMBERS /\ N.of_nat (size (gr_groups record)) <= MAX_GROUP_MEMBERS.

Lemma put_record_live s group record : live s -> record_ok s record -> nested_ok (<[group := record]> (gs_groups s)) ->
  store_ok (contains_id s) (<[group := record]> (gs_groups s)).
Proof.
  intros [Hm Hc Hcap _] (Hrm & Hrc & Hrcap) Hn. split; [| | |done].
  - intros n r id [[_ <-]|[_ Hr]]%lookup_insert_Some Hid; [by apply Hrm | by eapply Hm].
  - intros n r c Hr Hin. apply lookup_insert_is_Some. destruct (decide (group = c)) as [|Hne]; [by left | right; split; [done|]].
    apply lookup_insert_Some in Hr as [[_ <-]|[_ Hr]]; [by apply Hrc | by eapply Hc].
  - intros n r [[_ <-]|[_ Hr]]%lookup_insert_Some; [done | by eapply Hcap].
Qed.

Lemma commit_group_mutation_spec {X : Type} io group previous groups files (on_nesting : NestingViolation -> X) on_io :
  is_Some (groups !! group) ->
  exists r g' files', commit_group_mutation io group previous groups files on_nesting on_io = Some (r, (g', files')) /\
    match r with
    | Ok _ => nested_ok groups /\ g' = groups /\ files' !! group = groups !! group
    | Err _ => g' = previous
    end.
Proof.
  intros [record Hr]. unfold commit_group_mutation. destruct (validate_nesting_spec groups) as (v & -> & Hv). cbn [mbind option_bind].
  destruct v as [u|v]; [|by eexists _, _, _]. rewrite Hr. cbn [mbind option_bind].
  unfold write_group, write_atomic, commit_staged. destruct (at_stage (io group)); cbn [negb]; [|by eexists _, _, _].
  destruct (c_rename (at_commit (io group))); cbn [negb]; [|by eexists _, _, _].
  destruct (c_sync (at_commit (io group))); eexists _, _, _; (split; [reflexivity|]); [|done].
  split; [done|]. split; [done|]. by rewrite lookup_partial_alter_eq.
Qed.

(** Refused with the collection as it was, or done. *)
Definition write_outcome {A X : Type} (s : GroupState) (group : name) (record : GroupRecord) (r : result A X) (s' : GroupState) : Prop :=
  gs_contexts s' = gs_contexts s /\
  match r with
  | Ok _ => live s' /\ gs_groups s' = <[group := record]> (gs_groups s) /\ gs_files s' !! group = Some record
  | Err _ => gs_groups s' = gs_groups s
  end.

Lemma create_group_spec io unlink group description ids children s : live s ->
  exists r s', create_group io unlink group description ids children s = Some (r, s') /\
    write_outcome s group {| gr_description := description; gr_context_ids := ids; gr_groups := children |} r s' /\
    (is_ok r = true -> gs_groups s !! group = None).
Proof.
  intros Hlive. unfold create_group. case_bool_decide; [by eexists _, _|]. destruct (contains_key _ group) eqn:Hk; [by eexists _, _|].
  assert (Hnone : gs_groups s !! group = None).
  { destruct (gs_groups s !! group) as [r|] eqn:Hr; [|done]. rewrite (proj2 (contains_key_true _ _)) in Hk; [done | by eexists]. }
  destruct (check_member_caps ids children) as [u|field] eqn:Hcaps; [|by eexists _, _].
  destruct (first_missing (names_in_order ids) _) as [id|] eqn:Hids; [by eexists _, _|].
  destruct (first_missing (names_in_order children) _) as [c|] eqn:Hch; [by eexists _, _|].
  destruct (sweep_stale_rename_markers unlink group (gs_markers s)) as [[] markers]; cbn [negb]; [|by eexists _, _].
  set (record := {| gr_description := description; gr_context_ids := ids; gr_groups := children |}).
  destruct (commit_group_mutation_spec io group (gs_groups s) (<[group := record]> (gs_groups s)) (gs_files s) Create_Nesting Create_Io)
    as (r & g' & files' & He & Hr); [rewrite lookup_insert_eq; by eexists|].
  cbn [gs_groups gs_files set_markers] in *. rewrite He. cbn [mbind option_bind]. eexists _, _. split; [reflexivity|]. split; [|done].
  split; [done|]. destruct r; [|done]. destruct Hr as (Hn & -> & Hf). rewrite lookup_insert_eq in Hf. split; [|done].
  apply (put_record_live s group record Hlive); [|done]. split; [by apply first_missing_None|]. split; [|by eapply check_member_caps_Ok].
  intros c Hc. apply contains_key_true. by eapply first_missing_None.
Qed.

Lemma over_cap_None r ac rc ag rg : over_cap r ac rc ag rg = None ->
  N.of_nat (size (gr_context_ids r)) <= MAX_GROUP_MEMBERS -> N.of_nat (size (gr_groups r)) <= MAX_GROUP_MEMBERS ->
  N.of_nat (size ((gr_context_ids r ∖ rc) ∪ ac)) <= MAX_GROUP_MEMBERS /\ N.of_nat (size ((gr_groups r ∖ rg) ∪ ag)) <= MAX_GROUP_MEMBERS.
Proof.
  assert (Hover : forall current add remove : gset name, N.of_nat (size current) <= MAX_GROUP_MEMBERS ->
    negb (bool_decide (add = ∅ /\ remove = ∅)) && (MAX_GROUP_MEMBERS <? N.of_nat (size ((current ∖ remove) ∪ add))) = false ->
    N.of_nat (size ((current ∖ remove) ∪ add)) <= MAX_GROUP_MEMBERS).
  { intros current add remove Hc. case_bool_decide as He; cbn [negb andb]; [|by intros ?%N.ltb_ge].
    destruct He as [-> ->]. intros _. replace ((current ∖ ∅) ∪ ∅) with current by set_solver. done. }
  unfold over_cap. destruct (_ && _) eqn:H1; [done|]. destruct (negb (bool_decide (ag = ∅ /\ rg = ∅)) && _) eqn:H2; [done|].
  intros _ Hc Hg. split; by apply Hover.
Qed.

Lemma update_group_spec io group description ac rc ag rg s : live s ->
  exists r s', update_group io group description ac rc ag rg s = Some (r, s') /\
    match r with
    | Ok record => write_outcome s group record r s' /\ exists old, gs_groups s !! group = Some old /\
        record = {| gr_description := default (gr_description old) description;
          gr_context_ids := (gr_context_ids old ∖ rc) ∪ ac; gr_groups := (gr_groups old ∖ rg) ∪ ag |}
    | Err _ => gs_contexts s' = gs_contexts s /\ gs_groups s' = gs_groups s
    end.
Proof.
  intros Hlive. unfold update_group. destruct (gs_groups s !! group) as [old|] eqn:Hold; [|by eexists _, _].
  destruct (over_cap old ac rc ag rg) as [field|] eqn:Hcap; [by eexists _, _|].
  destruct (first_missing (names_in_order ac) _) as [id|] eqn:Hids; [by eexists _, _|].
  destruct (first_missing (names_in_order ag) _) as [c|] eqn:Hch; [by eexists _, _|].
  set (record := {| gr_description := default (gr_description old) description; gr_context_ids := _; gr_groups := _ |}).
  destruct (commit_group_mutation_spec io group (gs_groups s) (<[group := record]> (gs_groups s)) (gs_files s) Update_Nesting Update_Io)
    as (r & g' & files' & -> & Hr); [rewrite lookup_insert_eq; by eexists|].
  cbn [mbind option_bind]. eexists _, _. split; [reflexivity|]. destruct r; [|done]. destruct Hr as (Hn & -> & Hf).
  rewrite lookup_insert_eq in Hf. split; [|by exists old]. split; [done|]. split; [|done].
  pose proof Hlive as [Hm Hc Hcaps _]. destruct (Hcaps group old Hold) as [H1 H2].
  apply (put_record_live s group record Hlive); [|done]. split; [|split; [|by apply over_cap_None]].
  - intros id [Hid|Hid]%elem_of_union; [|by eapply first_missing_None]. apply elem_of_difference in Hid as [Hid _]. by eapply Hm.
  - intros c [Hin|Hin]%elem_of_union; [|apply contains_key_true; by eapply first_missing_None].
    apply elem_of_difference in Hin as [Hin _]. by eapply Hc.
Qed.

(** ** Delete, sweep and rename *)

Lemma rewrite_records_groups io touch groups files :
  (rewrite_records io touch groups files).2.1 = (fun r => default r (touch r)) <$> groups.
Proof. unfold rewrite_records. by destruct (rewrite_files _ _ _ _). Qed.

Lemma dropped_child_groups stale r : gr_groups (default r (drop_child stale r)) = gr_groups r ∖ {[stale]} /\
  gr_context_ids (default r (drop_child stale r)) = gr_context_ids r.
Proof. unfold drop_child. case_bool_decide; cbn; split; [done|done|set_solver|done]. Qed.

Lemma delete_group_spec io unlink group s : live s -> let '(r, s') := delete_group io unlink group s in
  live s' /\ gs_contexts s' = gs_contexts s /\ match r with
    | None => gs_groups s !! group = None /\ s' = s
    | Some _ => gs_groups s' = (fun r => default r (drop_child group r)) <$> delete group (gs_groups s)
    end.
Proof.
  intros Hlive. unfold delete_group. destruct (gs_groups s !! group) as [old|] eqn:Hold; [|done].
  pose proof (rewrite_records_groups io (drop_child group) (delete group (gs_groups s)) (gs_files s)) as Hg.
  destruct (rewrite_records _ _ _ _) as [ok [g' f']]. cbn in Hg. subst g'. split; [|done].
  destruct Hlive as [Hm Hc Hcap Hn].
  assert (Hlook : forall n r', ((fun r => default r (drop_child group r)) <$> delete group (gs_groups s)) !! n = Some r' ->
    n <> group /\ exists r, gs_groups s !! n = Some r /\ gr_groups r' = gr_groups r ∖ {[group]} /\ gr_context_ids r' = gr_context_ids r).
  { intros n r'. rewrite lookup_fmap. destruct (decide (n = group)) as [->|Hne]; [by rewrite lookup_delete_eq|].
    rewrite lookup_delete_ne by done. destruct (gs_groups s !! n) as [r|] eqn:Hr; [|done]. intros [= <-]. split; [done|].
    exists r. split; [done|]. apply dropped_child_groups. }
  split; cbn [gs_groups set_store].
  - intros n r id Hr Hid. apply Hlook in Hr as (_ & r0 & Hr0 & _ & Hi). rewrite Hi in Hid. by eapply Hm.
  - intros n r c Hr Hin. apply Hlook in Hr as (_ & r0 & Hr0 & Hg & _). rewrite Hg in Hin. apply elem_of_difference in Hin as [Hin Hne].
    rewrite lookup_fmap, fmap_is_Some, lookup_delete_ne by set_solver. by eapply Hc.
  - intros n r Hr. apply Hlook in Hr as (_ & r0 & Hr0 & Hg & Hi). rewrite Hg, Hi. destruct (Hcap n r0 Hr0) as [H1 H2].
    split; [done|]. pose proof (subseteq_size (gr_groups r0 ∖ {[group]}) (gr_groups r0)) as Hs. specialize (Hs ltac:(set_solver)). lia.
  - eapply (nested_image id); [|exact Hn]. intros n m (r & Hr & Hin & Hsome). apply Hlook in Hr as (_ & r0 & Hr0 & Hg & _).
    exists r0. split; [done|]. rewrite Hg in Hin. apply elem_of_difference in Hin as [Hin _]. split; [done|].
    destruct Hsome as [rm Hrm]. apply Hlook in Hrm as (_ & rm0 & Hrm0 & _). by eexists.
Qed.

(** A context leaves the registry and every group. *)
Definition forget_context (io : name -> AtomicIo) (id : name) (s : GroupState) : GroupState :=
  sweep_context_from_groups io id {| gs_contexts := gs_contexts s ∖ {[id]}; gs_groups := gs_groups s; gs_files := gs_files s; gs_markers := gs_markers s |}.

Lemma forget_context_live io id s : live s -> live (forget_context io id s).
Proof.
  intros [Hm Hc Hcap Hn]. unfold forget_context, sweep_context_from_groups. cbn [gs_groups gs_files].
  pose proof (rewrite_records_groups io (drop_context id) (gs_groups s) (gs_files s)) as Hg.
  destruct (rewrite_records _ _ _ _) as [ok [g' f']]. cbn in Hg. subst g'.
  assert (Hlook : forall n r', ((fun r => default r (drop_context id r)) <$> gs_groups s) !! n = Some r' ->
    exists r, gs_groups s !! n = Some r /\ gr_groups r' = gr_groups r /\ gr_context_ids r' = gr_context_ids r ∖ {[id]}).
  { intros n r'. rewrite lookup_fmap. destruct (gs_groups s !! n) as [r|] eqn:Hr; [|done]. intros [= <-]. exists r. split; [done|].
    unfold drop_context. case_bool_decide; cbn; split; [done|done|done|set_solver]. }
  split; cbn [gs_groups set_store].
  - intros n r x Hr Hx. apply Hlook in Hr as (r0 & Hr0 & _ & Hi). rewrite Hi in Hx. apply elem_of_difference in Hx as [Hx Hne].
    unfold contains_id. apply bool_decide_eq_true. cbn. apply elem_of_difference. split; [|done].
    specialize (Hm n r0 x Hr0 Hx). unfold contains_id in Hm. by apply bool_decide_eq_true in Hm.
  - intros n r c Hr Hin. apply Hlook in Hr as (r0 & Hr0 & Hg & _). rewrite Hg in Hin. rewrite lookup_fmap, fmap_is_Some. by eapply Hc.
  - intros n r Hr. apply Hlook in Hr as (r0 & Hr0 & Hg & Hi). rewrite Hg, Hi. destruct (Hcap n r0 Hr0) as [H1 H2]. split; [|done].
    pose proof (subseteq_size (gr_context_ids r0 ∖ {[id]}) (gr_context_ids r0)) as Hs. specialize (Hs ltac:(set_solver)). lia.
  - eapply (nested_image (fun n => n)); [|exact Hn]. intros n m (r & Hr & Hin & [rm Hrm]).
    apply Hlook in Hr as (r0 & Hr0 & Hg & _). apply Hlook in Hrm as (rm0 & Hrm0 & _).
    exists r0. split; [done|]. rewrite Hg in Hin. split; [done | by eexists].
Qed.

(** The collection with [from] called [to]. *)
Definition renamed (from to : name) (g : GroupMap) (record : GroupRecord) : GroupMap :=
  (fun r => default r (rename_child from to r)) <$> <[to := record]> (delete from g).

Section rename.
Context (contains : name -> bool) (g : GroupMap) (Hg : store_ok contains g).
Context (from to : name) (record : GroupRecord) (Hfrom : g !! from = Some record) (Hto : g !! to = None).

(** A renamed group's old name. *)
Definition old_name (n : name) : name := if bool_decide (n = to) then from else n.

Lemma from_ne_to : from <> to.
Proof using Hfrom Hto. intros ->. congruence. Qed.

Lemma renamed_lookup n r' : renamed from to g record !! n = Some r' -> n <> from /\ exists r, g !! old_name n = Some r /\
  r' = default r (rename_child from to r).
Proof using Hfrom Hto.
  clear Hg contains. unfold renamed, old_name. rewrite lookup_fmap. case_bool_decide as Hn.
  - subst n. rewrite lookup_insert_eq. intros [= <-]. split; [by apply not_eq_sym, from_ne_to|]. by exists record.
  - rewrite lookup_insert_ne by done. destruct (decide (n = from)) as [->|Hne]; [by rewrite lookup_delete_eq|].
    rewrite lookup_delete_ne by done. destruct (g !! n) as [r|]; [|done]. intros [= <-]. split; [done|]. by exists r.
Qed.

Lemma renamed_some n : n <> from -> is_Some (renamed from to g record !! n) <-> is_Some (g !! old_name n).
Proof using Hfrom Hto.
  clear Hg contains. intros Hne. unfold renamed, old_name. rewrite lookup_fmap, fmap_is_Some. case_bool_decide as Hn.
  - subst n. rewrite lookup_insert_eq, Hfrom. split; by eexists.
  - by rewrite lookup_insert_ne, lookup_delete_ne by done.
Qed.

Lemma renamed_child_old c r : (forall m, m ∈ gr_groups r -> is_Some (g !! m)) -> c ∈ gr_groups (default r (rename_child from to r)) ->
  old_name c ∈ gr_groups r /\ c <> from.
Proof using Hfrom Hto.
  clear Hg contains. intros Hdom. unfold rename_child, old_name. case_bool_decide as Hin; cbn.
  - intros [->%elem_of_singleton|[Hc Hne]%elem_of_difference]%elem_of_union.
    + rewrite bool_decide_true by done. split; [done | by apply not_eq_sym, from_ne_to].
    + case_bool_decide as He; [|set_solver]. subst c. destruct (Hdom to Hc) as [? ?]. congruence.
  - intros Hc. case_bool_decide as He; [|split; [done | by intros ->]]. subst c. destruct (Hdom to Hc) as [? ?]. congruence.
Qed.

Lemma renamed_sizes r : gr_context_ids (default r (rename_child from to r)) = gr_context_ids r /\
  (size (gr_groups (default r (rename_child from to r))) <= size (gr_groups r))%nat.
Proof using.
  clear. unfold rename_child. case_bool_decide as Hin; cbn; [|done]. split; [done|].
  pose proof (size_union_alt ({[to]} : gset name) (gr_groups r ∖ {[from]})) as H1.
  pose proof (size_singleton (C := gset name) to) as H2.
  pose proof (size_difference_alt (gr_groups r) {[from]}) as H3.
  pose proof (subseteq_size (gr_groups r ∖ {[from]} ∖ {[to]}) (gr_groups r ∖ {[from]})) as H4. specialize (H4 ltac:(set_solver)).
  pose proof (size_union (C := gset name) {[from]} (gr_groups r ∖ {[from]})) as H5. specialize (H5 ltac:(set_solver)).
  pose proof (size_singleton (C := gset name) from) as H6.
  assert (H7 : {[from]} ∪ gr_groups r ∖ {[from]} = gr_groups r).
  { apply set_eq. intros x. destruct (decide (x = from)) as [->|]; set_solver. }
  rewrite H7 in H5. lia.
Qed.

Lemma renamed_ok : store_ok contains (renamed from to g record).
Proof using Hg Hfrom Hto.
  destruct Hg as [Hm Hc Hcap Hn].
  assert (Hdom : forall n r, g !! n = Some r -> forall m, m ∈ gr_groups r -> is_Some (g !! m)) by (intros n r Hr m; by eapply Hc).
  split.
  - intros n r' id Hr Hid. apply renamed_lookup in Hr as (_ & r & Hr & ->). rewrite (proj1 (renamed_sizes r)) in Hid. by eapply Hm.
  - intros n r' c Hr Hin. apply renamed_lookup in Hr as (_ & r & Hr & ->). apply (renamed_child_old c r (Hdom _ r Hr)) in Hin as [Hin Hne].
    apply renamed_some; [done|]. by eapply Hc.
  - intros n r' Hr. apply renamed_lookup in Hr as (_ & r & Hr & ->). destruct (renamed_sizes r) as [-> Hs]. destruct (Hcap _ r Hr). lia.
  - eapply (nested_image old_name); [|exact Hn]. intros n m (r' & Hr & Hin & Hsome).
    apply renamed_lookup in Hr as (_ & r & Hr & ->). exists r. split; [done|].
    apply (renamed_child_old m r (Hdom _ r Hr)) in Hin as [Hin Hne]. split; [done|]. by apply renamed_some.
Qed.
End rename.

Lemma rename_group_spec io from to s : live s -> exists r s', rename_group io from to s = Some (r, s') /\
  live s' /\ gs_contexts s' = gs_contexts s /\ match r with
    | Ok _ => gs_groups s' = gs_groups s /\ from = to \/
        exists record, gs_groups s !! from = Some record /\ gs_groups s' = renamed from to (gs_groups s) record
    | Err _ => gs_groups s' = gs_groups s
    end.
Proof.
  intros Hlive. unfold rename_group. case_bool_decide; [by eexists _, _|].
  destruct (contains_key (gs_groups s) from) eqn:Hk; cbn [negb]; [|by eexists _, _].
  case_bool_decide; [eexists _, _; split; [reflexivity|]; split; [done|]; split; [done | by left]|].
  destruct (contains_key (gs_groups s) to) eqn:Hk'; [by eexists _, _|].
  destruct (write_atomic (rn_marker io) _ _) as [[] marker]; cbn [negb]; [|by eexists _, _].
  cbn [gs_files set_markers]. destruct (commit_staged (rn_move io) _ _) as [[] files]; cbn [negb]; [|by eexists _, _].
  apply contains_key_true in Hk as [record Hr]. rewrite Hr. cbn [mbind option_bind].
  pose proof (rewrite_records_groups (rn_write io) (rename_child from to) (<[to := record]> (delete from (gs_groups s))) files) as Hg.
  destruct (rewrite_records _ _ _ _) as [ok [g' f']]. cbn in Hg. subst g'.
  assert (Hto : gs_groups s !! to = None).
  { destruct (gs_groups s !! to) eqn:Ht; [|done]. unfold contains_key in Hk'. rewrite Ht in Hk'. by apply bool_decide_eq_false in Hk' as []. }
  pose proof (renamed_ok _ _ Hlive from to record Hr Hto) as Hok. eexists _, _. split; [reflexivity|].
  destruct (ok && rn_unlink io); (split; [exact Hok|]; split; [done|]; right; by exists record).
Qed.

(** ** Restore *)

Definition overlay (l : list (name * GroupRecord)) (g : GroupMap) : GroupMap := foldl (fun m p => <[p.1 := p.2]> m) g l.

Lemma overlay_out l : forall g x, x ∉ l.*1 -> overlay l g !! x = g !! x.
Proof.
  induction l as [|p l IH]; intros g x Hx; [done|]. rewrite fmap_cons, not_elem_of_cons in Hx. destruct Hx as [Hne Hx].
  change (overlay (p :: l) g) with (overlay l (<[p.1 := p.2]> g)). rewrite IH by done. by rewrite lookup_insert_ne by done.
Qed.

Lemma overlay_in l : NoDup l.*1 -> forall g p, p ∈ l -> overlay l g !! p.1 = Some p.2.
Proof.
  induction l as [|q l IH]; intros Hnd g p Hp; [by apply not_elem_of_nil in Hp|]. rewrite fmap_cons, NoDup_cons in Hnd. destruct Hnd as [Hq Hnd].
  change (overlay (q :: l) g) with (overlay l (<[q.1 := q.2]> g)). apply elem_of_cons in Hp as [->|Hp]; [|by apply IH].
  rewrite overlay_out by done. by rewrite lookup_insert_eq.
Qed.

Lemma overlay_snoc l g p : overlay (l ++ [p]) g = <[p.1 := p.2]> (overlay l g).
Proof. unfold overlay. by rewrite foldl_app. Qed.

Lemma overlay_same l k g : NoDup l.*1 -> NoDup k.*1 -> (forall p, p ∈ l <-> p ∈ k) -> overlay l g = overlay k g.
Proof.
  intros Hl Hk Hiff. apply map_eq. intros x. destruct (decide (x ∈ l.*1)) as [Hx|Hx].
  - apply list_elem_of_fmap in Hx as (p & -> & Hp). rewrite !overlay_in; [done|done|by apply Hiff|done|done].
  - assert (Hx' : x ∉ k.*1). { intros (p & -> & Hp)%list_elem_of_fmap. apply Hx, list_elem_of_fmap_2. by apply Hiff. }
    by rewrite !overlay_out.
Qed.

Lemma overlay_some l g x : NoDup l.*1 -> is_Some (g !! x) -> is_Some (overlay l g !! x).
Proof.
  intros Hl Hx. destruct (decide (x ∈ l.*1)) as [Hin|Hin].
  - apply list_elem_of_fmap in Hin as (p & -> & Hp). rewrite overlay_in by done. by eexists.
  - by rewrite overlay_out.
Qed.

(** *** Vetting *)

Lemma vet_records_spec records : forall incoming prospective out, vet_records records incoming prospective = Ok out ->
  NoDup records.*1 /\ (forall p, p ∈ records -> p.1 ∉ incoming) /\ out = overlay records prospective /\
  forall p, p ∈ records -> N.of_nat (size (gr_context_ids p.2)) <= MAX_GROUP_MEMBERS /\ N.of_nat (size (gr_groups p.2)) <= MAX_GROUP_MEMBERS.
Proof.
  induction records as [|[n r] records IH]; intros incoming prospective out; cbn [vet_records].
  - intros [= <-]. split; [constructor|]. split; [by intros p ?%not_elem_of_nil|]. split; [done|]. by intros p ?%not_elem_of_nil.
  - case_bool_decide; [done|]. case_bool_decide as Hin; [done|]. destruct (check_member_caps _ _) as [u|] eqn:Hcap; [|done].
    intros Hv. apply IH in Hv as (Hnd & Hinc & -> & Hcaps). split; [|split; [|split]].
    + rewrite fmap_cons. apply NoDup_cons. split; [|done]. intros (p & Hp & Hpin)%list_elem_of_fmap. apply (Hinc p Hpin). cbn in Hp. set_solver.
    + intros p [->|Hp]%elem_of_cons; [done|]. specialize (Hinc p Hp). set_solver.
    + done.
    + intros p [->|Hp]%elem_of_cons; [by eapply check_member_caps_Ok | by apply Hcaps].
Qed.

Lemma vet_members_spec contains prospective records u : vet_members contains prospective records = Ok u ->
  forall p, p ∈ records -> (forall id, id ∈ gr_context_ids p.2 -> contains id = true) /\ (forall c, c ∈ gr_groups p.2 -> is_Some (prospective !! c)).
Proof.
  induction records as [|[n r] records IH]; cbn [vet_members]; [by intros _ p ?%not_elem_of_nil|].
  destruct (first_missing (names_in_order (gr_context_ids r)) _) as [id|] eqn:Hi; [done|].
  destruct (first_missing (names_in_order (gr_groups r)) _) as [c|] eqn:Hc; [done|].
  intros Hv p [->|Hp]%elem_of_cons; [|by apply IH]. cbn. split; [by apply first_missing_None|].
  intros c Hin. apply contains_key_true. by eapply first_missing_None.
Qed.

(** *** The order *)

Section restore.
Context (contains : name -> bool) (g : GroupMap) (Hg : store_ok contains g).
Context (records : list (name * GroupRecord)) (Hnames : NoDup records.*1) (Hsize : lenN records <= U64_MAX).

Definition index_of : gmap name N := list_to_map (zip records.*1 (indices records)).

Lemma index_of_spec n i : index_of !! n = Some i <-> exists p, tget records i = Some p /\ p.1 = n.
Proof using Hnames.
  clear Hg Hsize. unfold index_of. rewrite <- elem_of_list_to_map.
  - rewrite list_elem_of_lookup. setoid_rewrite lookup_zip_Some. split.
    + intros (k & Hk & Hi). unfold indices in Hi. rewrite list_lookup_fmap in Hi. destruct (seq _ _ !! k) eqn:Hs; [|done].
      apply lookup_seq in Hs as [-> _]. injection Hi as <-. rewrite list_lookup_fmap in Hk. destruct (records !! k) as [p|] eqn:Hp; [|done].
      injection Hk as <-. exists p. by rewrite tget_lookup, Nat2N.id.
    + intros (p & Hp & <-). exists (N.to_nat i). rewrite list_lookup_fmap, <- tget_lookup, Hp. split; [done|].
      apply tget_Some_lt in Hp. unfold indices. rewrite list_lookup_fmap. rewrite (proj2 (lookup_seq _ _ _ (N.to_nat i))); [|unfold lenN in Hp; lia].
      cbn. f_equal. lia.
  - rewrite fst_zip; [done|]. by rewrite length_fmap, indices_length.
Qed.

Definition rows : list (list N) := dropped_children g index_of <$> records.

Lemma row_spec i row j : tget rows i = Some row -> j ∈ row -> exists pi pj, tget records i = Some pi /\ tget records j = Some pj /\ child g pi.1 pj.1.
Proof using Hg Hnames.
  clear Hsize. unfold rows. rewrite tget_fmap. destruct (tget records i) as [pi|]; [|done]. intros [= <-] Hj. unfold dropped_children in Hj.
  destruct (g !! pi.1) as [standing|] eqn:Hs; [|by apply not_elem_of_nil in Hj].
  apply list_elem_of_omap in Hj as (old & Hold & Hj). case_bool_decide; [done|]. apply index_of_spec in Hj as (pj & Hpj & <-).
  apply elem_of_names_in_order in Hold. exists pi, pj. split; [done|]. split; [done|]. exists standing. split; [done|]. split; [done|].
  by eapply (so_children _ _ Hg).
Qed.

Lemma NoDup_omap_inj {A B} (f : A -> option B) l : (forall x y b, f x = Some b -> f y = Some b -> x = y) -> NoDup l -> NoDup (omap f l).
Proof using.
  clear. intros Hf. induction 1 as [|x l Hx Hl IH]; cbn; [constructor|]. destruct (f x) as [b|] eqn:Hb; [|done].
  apply NoDup_cons. split; [|done]. intros (y & Hy & Hyb)%list_elem_of_omap. by rewrite (Hf x y b Hb Hyb) in Hx.
Qed.

Lemma rows_rows_ok depth_at : lenN depth_at = lenN rows -> rows_ok rows depth_at.
Proof using Hg Hnames Hsize.
  intros Hd. assert (Hl : lenN rows = lenN records) by (unfold rows; by rewrite lenN_fmap). split; [done| | |lia].
  - intros i row j Hi Hj. destruct (row_spec i row j Hi Hj) as (_ & pj & _ & Hpj & _). rewrite Hl. by eapply tget_Some_lt.
  - intros i row Hi. unfold rows in Hi. rewrite tget_fmap in Hi. destruct (tget records i) as [p|]; [|done]. injection Hi as <-.
    unfold dropped_children. destruct (g !! p.1) as [standing|]; [|constructor]. apply NoDup_omap_inj.
    + intros x y b. case_bool_decide; [done|]. case_bool_decide; [done|]. intros (q & Hq & <-)%index_of_spec (q' & Hq' & <-)%index_of_spec. congruence.
    + unfold names_in_order. rewrite merge_sort_Permutation. apply NoDup_elements.
Qed.

(** Chains in the standing collection are short: some unplaced record is free. *)
Lemma some_free placed : (exists j, j < lenN rows /\ j ∉ placed) -> exists j, j < lenN rows /\ j ∉ placed /\ blockers rows placed j = [].
Proof using Hg Hnames.
  clear Hsize. intros (j0 & Hj0 & Hn0).
  destruct (decide (Exists (fun j => j ∉ placed /\ blockers rows placed j = []) (indices rows))) as [Hex|Hno].
  { apply Exists_exists in Hex as (j & Hj & ? & ?). exists j. by rewrite <- elem_of_indices. }
  exfalso. assert (Hback : forall j, j < lenN rows -> j ∉ placed -> exists i pi pj, i < lenN rows /\ i ∉ placed /\
    tget records i = Some pi /\ tget records j = Some pj /\ child g pi.1 pj.1).
  { intros j Hj Hjn. destruct (blockers rows placed j) as [|[i row] l] eqn:Hb.
    - destruct Hno. apply Exists_exists. exists j. by rewrite elem_of_indices.
    - assert (Hin : (i, row) ∈ blockers rows placed j) by (rewrite Hb; by left).
      apply list_elem_of_filter in Hin as [[Hi Hjr] Hz]. apply elem_of_indexed in Hz. destruct (row_spec i row j Hz Hjr) as (pi & pj & ? & ? & ?).
      exists i, pi, pj. split; [by eapply tget_Some_lt | done]. }
  assert (Hlong : forall k j pj, j < lenN rows -> j ∉ placed -> tget records j = Some pj ->
    exists i pi, i < lenN rows /\ i ∉ placed /\ tget records i = Some pi /\ nsteps (child g) k pi.1 pj.1).
  { induction k as [|k IH]; intros j pj Hj Hjn Hpj; [exists j, pj; split; [done|]; split; [done|]; split; [done | constructor]|].
    destruct (Hback j Hj Hjn) as (i & pi & pj' & Hi & Hin & Hpi & Hpj' & Hc). rewrite Hpj in Hpj'. injection Hpj' as <-.
    destruct (IH i pi Hi Hin Hpi) as (m & pm & Hm & Hmn & Hpm & Hs). exists m, pm. split; [done|]. split; [done|]. split; [done|].
    by eapply nsteps_r. }
  destruct (tget_lt records j0) as [p0 Hp0]; [unfold rows in Hj0; by rewrite lenN_fmap in Hj0|].
  destruct (Hlong (N.to_nat MAX_GROUP_DEPTH) j0 p0 Hj0 Hn0 Hp0) as (i & pi & _ & _ & _ & Hs).
  apply (so_nested _ _ Hg pi.1). by exists p0.1.
Qed.

(** What stands before a record of the order: everything shallower that is new. *)
Definition lands_after (depths : gmap name N) (order : list N) : Prop := forall k i pi pj di dj, order !! k = Some i ->
  tget records i = Some pi -> pj ∈ records -> depths !! pi.1 = Some di -> depths !! pj.1 = Some dj -> dj < di ->
  is_Some (g !! pj.1) \/ exists j, j ∈ take k order /\ tget records j = Some pj.

Lemma restore_order_spec depths : (forall p, p ∈ records -> is_Some (depths !! p.1)) ->
  exists order, restore_order g depths records = Some order /\ NoDup order /\ (forall i, i ∈ order <-> i < lenN records) /\ lands_after depths order.
Proof using Hg Hnames Hsize.
  intros Hdep. unfold restore_order. change (list_to_map (zip records.*1 (indices records))) with index_of.
  change (dropped_children g index_of <$> records) with rows.
  destruct (mapM (fun p : name * GroupRecord => depths !! p.1) records) as [depth_at|] eqn:Hm.
  2: { exfalso. apply eq_None_not_Some in Hm. apply Hm, mapM_is_Some_2, Forall_forall. intros p Hp. by apply Hdep. }
  cbn [mbind option_bind]. apply mapM_Some in Hm. assert (Hl : lenN rows = lenN records) by (unfold rows; by rewrite lenN_fmap).
  assert (Hdl : lenN depth_at = lenN rows) by (rewrite Hl; symmetry; by eapply Forall2_lenN).
  assert (Hda : forall i p, tget records i = Some p -> tget depth_at i = depths !! p.1).
  { intros i p Hp. rewrite tget_lookup in Hp. destruct (Forall2_lookup_l _ _ _ _ _ Hm Hp) as (d & Hd & Hdd). rewrite tget_lookup. congruence. }
  pose proof (rows_rows_ok depth_at Hdl) as Hok. assert (Hlen : length records = length rows) by (unfold rows; by rewrite length_fmap).
  destruct (pending_start rows depth_at Hok) as (pending & Hp & Hpl & Hpg). rewrite Hlen, Hp. cbn [mbind option_bind].
  assert (Hidx : indices records = indices rows) by (unfold indices; by rewrite Hlen). rewrite Hidx.
  set (ready := filter _ _).
  assert (Hpl0 : placing rows depth_at [] pending ready).
  { split; [constructor|by intros i ?%not_elem_of_nil|by intros j ?%not_elem_of_nil|done|exact Hpg| | |by intros k i j di dj Hk].
    - intros [d j]. unfold ready. rewrite list_elem_of_filter. cbn [fst snd].
      assert (Hz : (d, j) ∈ zip depth_at (indices rows) <-> tget depth_at j = Some d).
      { rewrite list_elem_of_lookup. setoid_rewrite lookup_zip_Some. split.
        - intros (k & Hk & Hi). unfold indices in Hi. rewrite list_lookup_fmap in Hi. destruct (seq _ _ !! k) eqn:Hs; [|done].
          apply lookup_seq in Hs as [-> _]. injection Hi as <-. by rewrite tget_lookup, Nat2N.id.
        - intros Hd. exists (N.to_nat j). rewrite <- tget_lookup. split; [done|]. apply tget_Some_lt in Hd. unfold indices.
          rewrite list_lookup_fmap. rewrite (proj2 (lookup_seq _ _ _ (N.to_nat j))); [|unfold lenN in *; lia]. cbn. f_equal. lia. }
      rewrite Hz. split.
      + intros [H0 Hd]. assert (Hj : j < lenN rows) by (rewrite <- Hdl; by eapply tget_Some_lt). rewrite (Hpg j Hj) in H0.
        injection H0 as H0. apply lenN_nil in H0. split; [done|]. split; [apply not_elem_of_nil | done].
      + intros (Hj & _ & Hb & Hd). split; [|done]. by rewrite (Hpg j Hj), Hb.
    - unfold ready. apply NoDup_fmap_filter. rewrite snd_zip; [apply NoDup_indices|]. rewrite indices_length. unfold lenN in Hdl. lia. }
  destruct (landing_order_spec rows depth_at Hok some_free (length rows) [] pending ready Hpl0) as (order & -> & Hnd & Hall & Hsf); [simpl; lia|].
  cbn [mbind option_bind].
  assert (Hol : lenN order = lenN records).
  { assert (Hperm : order ≡ₚ indices rows) by (apply NoDup_Permutation; [done|apply NoDup_indices|]; intros x; rewrite Hall, elem_of_indices; done).
    apply Permutation_length in Hperm. rewrite indices_length in Hperm. unfold lenN in *. lia. }
  rewrite Hol, N.eqb_refl. exists order. split; [done|]. split; [done|]. split; [intros i; by rewrite Hall, Hl|].
  intros k i pi pj di dj Hk Hpi Hpj Hdi Hdj Hlt. apply tget_Some_elem in Hpj as [j Hj].
  destruct (Hsf k i j di dj Hk) as [Hin|(i' & row & Hrow & Hjr)]; [by rewrite (Hda i pi)|by rewrite (Hda j pj)|done| |].
  - right. by exists j.
  - left. destruct (row_spec i' row j Hrow Hjr) as (_ & pj' & _ & Hpj' & r & _ & _ & Hs). congruence.
Qed.
End restore.

(** *** The landing *)

(** All of the live collection but the nesting. *)
Record sound (contains_id : name -> bool) (g : GroupMap) : Prop := {
  sd_members : forall n r id, g !! n = Some r -> id ∈ gr_context_ids r -> contains_id id = true;
  sd_children : forall n r c, g !! n = Some r -> c ∈ gr_groups r -> is_Some (g !! c);
  sd_caps : forall n r, g !! n = Some r ->
    N.of_nat (size (gr_context_ids r)) <= MAX_GROUP_MEMBERS /\ N.of_nat (size (gr_groups r)) <= MAX_GROUP_MEMBERS
}.

Lemma store_sound contains g : store_ok contains g <-> sound contains g /\ nested_ok g.
Proof. split; [intros [? ? ? ?]; by split | intros [[? ? ?] ?]; by split]. Qed.

(** The records of an order's first places. *)
Definition landed (records : list (name * GroupRecord)) (order : list N) : list (name * GroupRecord) := omap (tget records) order.

Section landing.
Context (s0 : GroupState) (Hlive : live s0) (records : list (name * GroupRecord)) (Hnames : NoDup records.*1).
Context (order : list N) (Hnd : NoDup order) (Hall : forall i, i ∈ order <-> i < lenN records).

Lemma elem_of_landed p k : p ∈ landed records (take k order) <-> exists i, i ∈ take k order /\ tget records i = Some p.
Proof using. clear. apply list_elem_of_omap. Qed.

Lemma NoDup_landed_names k : NoDup (landed records (take k order)).*1.
Proof using Hnames Hnd.
  clear Hlive Hall s0. assert (Hk : NoDup (take k order)) by (eapply sublist_NoDup; [exact Hnd | apply sublist_take]).
  revert Hk. generalize (take k order). intros l Hl. unfold landed. induction Hl as [|i l Hi Hl IH]; cbn; [constructor|].
  destruct (tget records i) as [p|] eqn:Hp; [|done]. rewrite fmap_cons. apply NoDup_cons. split; [|done].
  intros (q & Heq & (j & Hj & Hq)%list_elem_of_omap)%list_elem_of_fmap. enough (i = j) by congruence.
  rewrite tget_lookup in Hp, Hq. enough (N.to_nat i = N.to_nat j) by lia.
  eapply (NoDup_lookup records.*1); [done|rewrite list_lookup_fmap, Hp; reflexivity|]. rewrite list_lookup_fmap, Hq. cbn. by rewrite Heq.
Qed.

Lemma landed_records p k : p ∈ landed records (take k order) -> p ∈ records.
Proof using. clear. intros (i & _ & Hi)%elem_of_landed. apply tget_Some_elem. by exists i. Qed.

(** Done, or stopped having landed the first of the order. *)
Lemma land_spec io rest : forall k s, order = take k order ++ rest -> (k <= length order)%nat -> gs_contexts s = gs_contexts s0 ->
  gs_groups s = overlay (landed records (take k order)) (gs_groups s0) ->
  exists r s', land io (gs_groups s0) records rest (N.of_nat k) s = Some (r, s') /\ gs_contexts s' = gs_contexts s0 /\
    match r with
    | Ok _ => gs_groups s' = overlay (landed records order) (gs_groups s0)
    | Err e => exists k', (k' <= length order)%nat /\ gs_groups s' = overlay (landed records (take k' order)) (gs_groups s0) /\
        (e = Restore_Timeout (N.of_nat k') \/ exists n, e = Restore_Io n (N.of_nat k'))
    end.
Proof using Hnames Hnd Hall.
  clear Hlive. induction rest as [|i rest IH]; intros k s Hord Hk Hc Hs; cbn [land].
  - eexists _, s. split; [reflexivity|]. split; [done|]. rewrite app_nil_r in Hord. by rewrite Hord.
  - destruct (rs_expired io (N.of_nat k)).
    { eexists _, s. split; [reflexivity|]. split; [done|]. exists k. split; [done|]. split; [done | by left]. }
    assert (Hki : order !! k = Some i).
    { rewrite Hord, lookup_app_r by (rewrite length_take; lia). rewrite length_take, Nat.min_l by done. by rewrite Nat.sub_diag. }
    assert (Hi : i < lenN records) by (apply Hall; by eapply list_elem_of_lookup_2).
    destruct (tget_lt records i Hi) as [p Hp]. rewrite Hp. cbn [mbind option_bind].
    assert (Htake : take (S k) order = take k order ++ [i]) by (by apply take_S_r).
    assert (Hland : landed records (take (S k) order) = landed records (take k order) ++ [p]).
    { rewrite Htake. unfold landed. rewrite omap_app. cbn. by rewrite Hp. }
    assert (Hord' : order = take (S k) order ++ rest) by (rewrite Htake, <- app_assoc; done).
    assert (Hk' : (S k <= length order)%nat) by (apply lookup_lt_Some in Hki; lia).
    assert (Hout : p.1 ∉ (landed records (take k order)).*1).
    { pose proof (NoDup_landed_names (S k)) as Hn. rewrite Hland, fmap_app in Hn. apply NoDup_app in Hn as (_ & Hn & _).
      intros Hin. apply (Hn _ Hin). by left. }
    assert (Hstop : forall e s', (e = Restore_Timeout (N.of_nat k) \/ exists n, e = Restore_Io n (N.of_nat k)) -> gs_contexts s' = gs_contexts s0 ->
      gs_groups s' = overlay (landed records (take k order)) (gs_groups s0) ->
      gs_contexts s' = gs_contexts s0 /\ exists k', (k' <= length order)%nat /\ gs_groups s' = overlay (landed records (take k' order)) (gs_groups s0) /\
        (e = Restore_Timeout (N.of_nat k') \/ exists n, e = Restore_Io n (N.of_nat k'))).
    { intros e s' He Hc' Hs'. split; [done|]. by exists k. }
    replace (N.of_nat k + 1) with (N.of_nat (S k)) by lia.
    assert (Hwrite : forall markers swept, exists r s',
      (let s := set_markers markers s in
       if negb swept then Some (Err (Restore_Io p.1 (N.of_nat k)), s)
       else let '(ok, files) := write_group (rs_write io) p.1 p.2 (gs_files s) in
         if ok then land io (gs_groups s0) records rest (N.of_nat (S k)) (set_store (<[p.1 := p.2]> (gs_groups s)) files s)
         else Some (Err (Restore_Io p.1 (N.of_nat k)), set_store (gs_groups s) files s)) = Some (r, s') /\
      gs_contexts s' = gs_contexts s0 /\
      match r with
      | Ok _ => gs_groups s' = overlay (landed records order) (gs_groups s0)
      | Err e => exists k', (k' <= length order)%nat /\ gs_groups s' = overlay (landed records (take k' order)) (gs_groups s0) /\
          (e = Restore_Timeout (N.of_nat k') \/ exists n, e = Restore_Io n (N.of_nat k'))
      end).
    { intros markers swept. cbn zeta. destruct swept; cbn [negb].
      - destruct (write_group _ _ _ _) as [[] files].
        + apply IH; [done|done|done|]. cbn. by rewrite Hs, Hland, overlay_snoc.
        + eexists _, _. split; [reflexivity|]. apply Hstop; [right; by eexists|done|done].
      - eexists _, _. split; [reflexivity|]. apply Hstop; [right; by eexists|done|done]. }
    unfold restore_outcome. destruct (gs_groups s0 !! p.1) as [standing|] eqn:Hst; [case_bool_decide as Heq|].
    + apply IH; [done|done|done|]. rewrite Hs, Hland, overlay_snoc. symmetry. apply insert_id.
      rewrite overlay_out by done. congruence.
    + exact (Hwrite (gs_markers s) true).
    + destruct (sweep_stale_rename_markers _ _ _) as [swept markers]. exact (Hwrite markers swept).
Qed.

(** What has landed names nothing that is missing. *)
Lemma landed_sound depths k : (forall n d, depths !! n = Some d <-> deep (overlay records (gs_groups s0)) n d) ->
  lands_after (gs_groups s0) records depths order ->
  (forall p, p ∈ records -> (forall id, id ∈ gr_context_ids p.2 -> contains_id s0 id = true) /\
    (forall c, c ∈ gr_groups p.2 -> is_Some (overlay records (gs_groups s0) !! c)) /\
    N.of_nat (size (gr_context_ids p.2)) <= MAX_GROUP_MEMBERS /\ N.of_nat (size (gr_groups p.2)) <= MAX_GROUP_MEMBERS) ->
  nested_ok (overlay records (gs_groups s0)) ->
  sound (contains_id s0) (overlay (landed records (take k order)) (gs_groups s0)).
Proof using Hlive Hnames Hnd.
  clear Hall. intros Hdepths Hafter Hrec Hnest. set (l := landed records (take k order)). pose proof (NoDup_landed_names k) as Hln.
  destruct Hlive as [Hm Hc Hcap _].
  assert (Hlook : forall n r, overlay l (gs_groups s0) !! n = Some r -> (n, r) ∈ l \/ gs_groups s0 !! n = Some r).
  { intros n r Hr. destruct (decide (n ∈ l.*1)) as [Hin|Hin]; [|right; by rewrite overlay_out in Hr].
    left. apply list_elem_of_fmap in Hin as ([n' r'] & -> & Hin). cbn in *. pose proof (overlay_in l Hln (gs_groups s0) _ Hin) as Ho. cbn in Ho. congruence. }
  split.
  - intros n r id Hr Hid. apply Hlook in Hr as [Hin|Hr]; [|by eapply Hm]. apply landed_records in Hin. by apply (Hrec _ Hin).
  - intros n r c Hr Hin. apply Hlook in Hr as [Hrl|Hr]; [|apply overlay_some; [done | by eapply Hc]].
    destruct (decide (is_Some (gs_groups s0 !! c))) as [|Hnew]; [by apply overlay_some|].
    pose proof (landed_records _ _ Hrl) as Hrr. destruct (Hrec _ Hrr) as (_ & Hch & _). specialize (Hch c Hin).
    assert (Hcr : c ∈ records.*1).
    { destruct (decide (c ∈ records.*1)) as [|Hno]; [done|]. rewrite overlay_out in Hch by done. done. }
    apply list_elem_of_fmap in Hcr as (pc & -> & Hpc).
    apply elem_of_landed in Hrl as (i & Hi & Hpi). apply elem_of_take in Hi as (ki & Hki & Hkk).
    assert (Hchild : child (overlay records (gs_groups s0)) n pc.1).
    { exists r. split; [by apply (overlay_in records Hnames (gs_groups s0) (n, r))|]. done. }
    destruct (deep_total _ n Hnest) as [dn Hdn]; [destruct Hchild as (rr & Hrr' & _); by exists rr|].
    destruct (deep_total _ pc.1 Hnest Hch) as [dc Hdc].
    assert (Hlt : dc < dn).
    { destruct Hdc as (_ & H1 & Hchn & _), Hdn as (_ & _ & _ & Hno). destruct (N.lt_ge_cases dc dn) as [|Hge]; [done|]. exfalso. apply Hno.
      eapply rchain_prefix; [eapply rchain_step; [exact Hchild | exact Hchn]|lia]. }
    destruct (Hafter ki i (n, r) pc dn dc Hki Hpi Hpc) as [Hsome|(j & Hj & Hpj)]; [by apply Hdepths|by apply Hdepths|done|done|].
    assert (Hpcl : pc ∈ l). { apply elem_of_landed. exists j. split; [|done]. apply elem_of_take in Hj as (kj & Hkj & Hlj). apply elem_of_take. exists kj. split; [done | lia]. }
    rewrite (overlay_in l Hln _ pc Hpcl). by eexists.
  - intros n r Hr. apply Hlook in Hr as [Hin|Hr]; [|by eapply Hcap]. apply landed_records in Hin. by apply (Hrec _ Hin).
Qed.

Lemma landed_take l k : (forall i, i ∈ l -> is_Some (tget records i)) -> landed records (take k l) = take k (landed records l).
Proof using.
  clear. revert k. induction l as [|i l IH]; intros [|k] Hin; [done|done|done|]. unfold landed in *. cbn.
  destruct (Hin i) as [p Hp]; [by left|]. rewrite Hp. cbn. f_equal. apply IH. intros j Hj. apply Hin. by right.
Qed.

Lemma landed_all : landed records order ≡ₚ records.
Proof using Hnames Hnd Hall.
  clear Hlive s0. pose proof (NoDup_landed_names (length order)) as Hn. rewrite firstn_all in Hn.
  apply NoDup_Permutation; [by eapply NoDup_fmap_1|by eapply NoDup_fmap_1|]. intros p. unfold landed. rewrite list_elem_of_omap.
  rewrite tget_Some_elem. split; [intros (i & _ & Hi); by exists i|]. intros [i Hi]. exists i. split; [apply Hall; by eapply tget_Some_lt | done].
Qed.
End landing.

(** A stop part-way reports what landed. *)
Definition stopped (e : RestoreGroupsError) : option N :=
  match e with Restore_Timeout applied | Restore_Io _ applied => Some applied | _ => None end.

Lemma vet_records_err records : forall incoming prospective e, vet_records records incoming prospective = Err e -> stopped e = None.
Proof.
  induction records as [|[n r] records IH]; intros inc m e; cbn [vet_records]; [done|].
  case_bool_decide; [by intros [= <-]|]. case_bool_decide; [by intros [= <-]|]. destruct (check_member_caps _ _); [apply IH | by intros [= <-]].
Qed.

Lemma vet_members_err contains prospective records e : vet_members contains prospective records = Err e -> stopped e = None.
Proof.
  induction records as [|[n r] records IH]; cbn [vet_members]; [done|].
  destruct (first_missing _ contains); [by intros [= <-]|]. destruct (first_missing _ (contains_key _)); [by intros [= <-] | apply IH].
Qed.

(** What a restore comes to. *)
Definition restored (records : list (name * GroupRecord)) (s s' : GroupState) (r : result (list (name * GroupRestoreOutcome)) RestoreGroupsError) : Prop :=
  match r with
  | Ok outcomes => live s' /\ NoDup records.*1 /\ gs_groups s' = overlay records (gs_groups s) /\
      outcomes = (fun p => (p.1, restore_outcome (gs_groups s) p)) <$> records
  | Err e =>
    match stopped e with
    | None => s' = s
    | Some applied => sound (contains_id s) (gs_groups s') /\
        exists order, order ≡ₚ records /\ applied <= lenN records /\ gs_groups s' = overlay (take (N.to_nat applied) order) (gs_groups s)
    end
  end.

(** A restore refuses and changes nothing, lands every record, or stops having
    landed the first of an order in which nothing dangles. *)
Lemma restore_groups_spec io records s : live s -> lenN records <= U64_MAX -> exists r s', restore_groups io records s = Some (r, s') /\
  gs_contexts s' = gs_contexts s /\ restored records s s' r.
Proof.
  intros Hlive Hsize. unfold restore_groups. destruct (vet_records records ∅ (gs_groups s)) as [prospective|e] eqn:Hv.
  2: { eexists _, s. split; [reflexivity|]. split; [done|]. cbn. by rewrite (vet_records_err _ _ _ _ Hv). }
  apply vet_records_spec in Hv as (Hnd & _ & -> & Hcaps).
  destruct (vet_members (contains_id s) (overlay records (gs_groups s)) records) as [u|e] eqn:Hvm.
  2: { eexists _, s. split; [reflexivity|]. split; [done|]. cbn. by rewrite (vet_members_err _ _ _ _ Hvm). }
  pose proof (vet_members_spec _ _ _ _ Hvm) as Hmem.
  destruct (nesting_depths_spec (overlay records (gs_groups s))) as (depths & -> & Hd). cbn [mbind option_bind].
  destruct depths as [depths|v]; [|by eexists _, s]. destruct Hd as (Hnest & Hdep & Hdom).
  destruct (restore_order_spec (contains_id s) (gs_groups s) Hlive records Hnd Hsize depths) as (order & -> & Hno & Hall & Hafter).
  { intros p Hp. apply Hdom. rewrite (overlay_in records Hnd) by done. by eexists. }
  cbn [mbind option_bind].
  destruct (land_spec s records Hnd order Hno Hall io order 0 s) as (r & s' & Hland & Hc & Hr); [done|lia|done|done|].
  change (N.of_nat 0) with 0 in Hland. rewrite Hland. cbn [mbind option_bind]. eexists _, s'. split; [reflexivity|]. split; [done|].
  pose proof (landed_all records Hnd order Hno Hall) as Hperm.
  assert (Hin : forall i, i ∈ order -> is_Some (tget records i)) by (intros i Hi; apply tget_is_Some; by apply Hall).
  assert (Hsound : forall k, sound (contains_id s) (overlay (landed records (take k order)) (gs_groups s))).
  { intros k. apply (landed_sound s Hlive records Hnd order Hno depths); [done|done| |done]. intros p Hp. by destruct (Hmem p Hp), (Hcaps p Hp). }
  destruct r as [u'|e].
  - assert (Hov : gs_groups s' = overlay records (gs_groups s)).
    { rewrite Hr. apply overlay_same; [by rewrite Hperm|done|]. intros p. by rewrite Hperm. }
    split; [|done]. specialize (Hsound (length order)). rewrite firstn_all, <- Hr, Hov in Hsound.
    assert (Hci : contains_id s' = contains_id s) by (unfold contains_id; by rewrite Hc).
    unfold live. rewrite Hci, Hov. by apply store_sound.
  - destruct Hr as (k & Hk & Hg & He). assert (Hst : stopped e = Some (N.of_nat k)) by (by destruct He as [->|[n ->]]).
    cbn. rewrite Hst, Hg. split; [done|]. exists (landed records order). split; [done|].
    rewrite Nat2N.id, <- landed_take by done. split; [|done].
    assert (Hidx : order ≡ₚ indices records).
    { apply NoDup_Permutation; [done|apply NoDup_indices|]. intros x. by rewrite Hall, elem_of_indices. }
    apply Permutation_length in Hidx. rewrite indices_length in Hidx. unfold lenN. lia.
Qed.

(** ** The store as a state machine *)

Inductive GroupOp :=
  | Op_create (io : name -> AtomicIo) (unlink : name -> bool) (group description : name) (context_ids children : gset name)
  | Op_update (io : name -> AtomicIo) (group : name) (description : option name) (add_ids remove_ids add_groups remove_groups : gset name)
  | Op_delete (io : name -> AtomicIo) (unlink : bool) (group : name)
  | Op_rename (io : RenameIo) (from to : name)
  | Op_restore (io : RestoreIo) (records : list (name * GroupRecord))
  | Op_forget (io : name -> AtomicIo) (id : name)
  | Op_register (id : name).

(** How an operation ended. *)
Inductive Ended := Done | Refused | Stopped (applied : N).

Definition ended {A X : Type} (r : result A X) : Ended := match r with Ok _ => Done | Err _ => Refused end.

Definition group_op (op : GroupOp) (s : GroupState) : option (Ended * GroupState) :=
  match op with
  | Op_create io unlink group description ids children =>
    '(r, s) ← create_group io unlink group description ids children s; Some (ended r, s)
  | Op_update io group description add_ids remove_ids add_groups remove_groups =>
    '(r, s) ← update_group io group description add_ids remove_ids add_groups remove_groups s; Some (ended r, s)
  | Op_delete io unlink group =>
    let '(r, s) := delete_group io unlink group s in Some (match r with None => Refused | Some _ => Done end, s)
  | Op_rename io from to => '(r, s) ← rename_group io from to s; Some (ended r, s)
  | Op_restore io records =>
    '(r, s) ← restore_groups io records s;
    Some (match r with
          | Ok _ => Done
          | Err e => match stopped e with None => Refused | Some applied => Stopped applied end
          end, s)
  | Op_forget io id => Some (Done, forget_context io id s)
  | Op_register id => Some (Done, {| gs_contexts := {[id]} ∪ gs_contexts s; gs_groups := gs_groups s; gs_files := gs_files s; gs_markers := gs_markers s |})
  end.

(** What a completed operation made of the collection. *)
Definition op_effect (op : GroupOp) (s s' : GroupState) : Prop :=
  match op with
  | Op_create _ _ group description ids children =>
    gs_groups s !! group = None /\
    let record := {| gr_description := description; gr_context_ids := ids; gr_groups := children |} in
    gs_groups s' = <[group := record]> (gs_groups s) /\ gs_files s' !! group = Some record
  | Op_update _ group description add_ids remove_ids add_groups remove_groups =>
    exists old, gs_groups s !! group = Some old /\
    let record := {| gr_description := default (gr_description old) description;
      gr_context_ids := (gr_context_ids old ∖ remove_ids) ∪ add_ids; gr_groups := (gr_groups old ∖ remove_groups) ∪ add_groups |} in
    gs_groups s' = <[group := record]> (gs_groups s) /\ gs_files s' !! group = Some record
  | Op_delete _ _ group => gs_groups s' = (fun r => default r (drop_child group r)) <$> delete group (gs_groups s)
  | Op_rename _ from to => gs_groups s' = gs_groups s /\ from = to \/
      exists record, gs_groups s !! from = Some record /\ gs_groups s' = renamed from to (gs_groups s) record
  | Op_restore _ records => NoDup records.*1 /\ gs_groups s' = overlay records (gs_groups s)
  | Op_forget _ id => gs_groups s' = (fun r => default r (drop_context id r)) <$> gs_groups s
  | Op_register id => gs_groups s' = gs_groups s
  end.

(** ** Shared by the claims *)

Lemma live_same s s' : live s -> gs_contexts s' = gs_contexts s /\ gs_groups s' = gs_groups s -> live s'.
Proof. intros Hl [Hc Hg]. unfold live in *. rewrite Hg. replace (contains_id s') with (contains_id s); [done|]. unfold contains_id. by rewrite Hc. Qed.

(** A collection the boot leaves as it is was live. *)
Lemma boot_reconcile_same contains scanned : reconcile_groups contains scanned = Some scanned -> store_ok contains scanned.
Proof. intros He. destruct (reconcile_groups_spec contains scanned) as (g & He' & Hok & _). rewrite He in He'. by injection He' as <-. Qed.

(** ** Claims *)

(** C34. The nesting validator is exact.  It always answers: the length of the
    longest chain of groups from every group, when no chain stacks more than
    [MAX_GROUP_DEPTH]; otherwise a group that reaches itself, or one from which
    such a chain does hang.  It accepts a collection exactly when there is
    neither. *)
Theorem nesting_depths_exact g : exists r, nesting_depths g = Some r /\
  match r with
  | Ok depths => nested_ok g /\ forall n d, depths !! n = Some d <-> deep g n d
  | Err (Cycle n) => tc (child g) n n
  | Err (TooDeep n) => chain g n (N.to_nat MAX_GROUP_DEPTH)
  end /\ (is_ok r = true <-> nested_ok g).
Proof.
  destruct (nesting_depths_spec g) as (r & He & Hr). exists r. split; [done|]. destruct r as [depths|v].
  - destruct Hr as (Hok & Hd & _). split; [by split | by split].
  - pose proof (violated_not_ok g v Hr). destruct v; (split; [done | by split]).
Qed.

(** C35. Whatever the group files say, the boot ends with a live collection: members
    that are registered, children that are groups, sets within
    [MAX_GROUP_MEMBERS], no cycle and no chain past the cap.  It keeps the groups
    and their descriptions, adds no member and no child, and leaves a collection
    that was live as it was. *)
Theorem boot_reconciles contains_id scanned : exists g, reconcile_groups contains_id scanned = Some g /\
  store_ok contains_id g /\ fewer g scanned /\ (store_ok contains_id scanned -> g = scanned).
Proof. apply reconcile_groups_spec. Qed.

(** C36. No write of a group panics, whatever the disk does, and each keeps the
    collection live: completed, it did what it says and the created or updated
    record is on disk; refused or failed, it left the collection as it was.  The
    one exception is a restore that stops part-way, at the deadline or a failed
    call: what landed is the first records of an order, nothing in the collection
    dangles or is over a cap, but the nesting may be too deep. *)
Theorem group_store_live op s (Hlive : live s) (Hsize : match op with Op_restore _ records => lenN records <= U64_MAX | _ => True end) :
  exists e s', group_op op s = Some (e, s') /\
    match e with
    | Done => live s' /\ op_effect op s s'
    | Refused => live s' /\ gs_groups s' = gs_groups s
    | Stopped applied => sound (contains_id s) (gs_groups s') /\ exists io records order, op = Op_restore io records /\
        order ≡ₚ records /\ applied <= lenN records /\ gs_groups s' = overlay (take (N.to_nat applied) order) (gs_groups s)
    end.
Proof.
  destruct op as [io unlink group d ids cs|io group d ai ri ag rg|io unlink group|io from to|io records|io id|id]; cbn [group_op].
  - destruct (create_group_spec io unlink group d ids cs s Hlive) as (r & s' & -> & (Hc & Hr) & Hnone). cbn [mbind option_bind].
    eexists _, _. split; [reflexivity|]. destruct r; [split; [apply Hr|]; split; [by apply Hnone | apply Hr]|].
    split; [by eapply live_same | done].
  - destruct (update_group_spec io group d ai ri ag rg s Hlive) as (r & s' & -> & Hr). cbn [mbind option_bind].
    eexists _, _. split; [reflexivity|]. destruct r as [record|e].
    + destruct Hr as ((_ & Hl & Hg & Hf) & old & Hold & ->). split; [done|]. by exists old.
    + split; [by eapply live_same | apply Hr].
  - pose proof (delete_group_spec io unlink group s Hlive) as Hd. destruct (delete_group io unlink group s) as [r s'].
    destruct Hd as (Hl & _ & Hr). eexists _, _. split; [reflexivity|]. destruct r; [done|]. by destruct Hr as [_ ->].
  - destruct (rename_group_spec io from to s Hlive) as (r & s' & -> & Hl & _ & Hr). cbn [mbind option_bind].
    eexists _, _. split; [reflexivity|]. by destruct r.
  - destruct (restore_groups_spec io records s Hlive Hsize) as (r & s' & -> & _ & Hr). cbn [mbind option_bind].
    eexists _, _. split; [reflexivity|]. destruct r as [out|e]; cbn in Hr |- *; [by destruct Hr as (? & ? & ? & _)|].
    destruct (stopped e) as [applied|]; [|by subst s']. destruct Hr as (Hs & order & ? & ? & ?). split; [done|]. by exists io, records, order.
  - eexists _, _. split; [reflexivity|]. split; [by apply forget_context_live|]. unfold op_effect, forget_context, sweep_context_from_groups.
    cbn [gs_groups gs_files]. pose proof (rewrite_records_groups io (drop_context id) (gs_groups s) (gs_files s)) as Hg.
    by destruct (rewrite_records _ _ _ _) as [ok [g' f']].
  - eexists _, _. split; [reflexivity|]. split; [|done]. destruct Hlive as [Hm Hc Hcap Hn]. split; [|done|done|done].
    intros n r x Hr Hx. specialize (Hm n r x Hr Hx). unfold contains_id in *. apply bool_decide_eq_true in Hm. apply bool_decide_eq_true. set_solver.
Qed.

(** ** Concrete runs *)

Definition bundle (children : list string) : GroupRecord :=
  {| gr_description := []; gr_context_ids := ∅; gr_groups := list_to_set (str <$> children) |}.

Definition collection (rows : list (string * list string)) : GroupMap := list_to_map ((fun p => (str p.1, bundle p.2)) <$> rows).

Definition writes : AtomicIo := {| at_stage := true; at_commit := {| c_rename := true; c_sync := true |} |}.
Definition fails : AtomicIo := {| at_stage := false; at_commit := {| c_rename := true; c_sync := true |} |}.

(** The failed write is the group's named. *)
Definition failing_at (group : string) : RestoreIo :=
  {| rs_expired := fun _ => false; rs_write := fun n => if decide (n = str group) then fails else writes; rs_unlink := fun _ => true |}.

Definition shelves : GroupState :=
  let groups := collection [("r", ["q"]); ("q", []); ("p", ["c"; "x"]); ("c", ["d"]); ("d", []); ("x", ["y"]); ("y", [])]%string in
  {| gs_contexts := ∅; gs_groups := groups; gs_files := groups; gs_markers := ∅ |}.

(** Moving the group [c] from under [p] to under [q]. *)
Definition move : list (name * GroupRecord) := [(str "p", bundle ["x"]); (str "q", bundle ["c"]); (str "c", bundle [])]%string.

Lemma shelves_live : live shelves.
Proof. apply (boot_reconcile_same (contains_id shelves) (gs_groups shelves)). vm_compute. reflexivity. Qed.

Lemma group_store_live_witness : live shelves /\ exists e s', group_op (Op_restore (failing_at "z") move) shelves = Some (e, s') /\
  e = Done /\ live s' /\ gs_groups s' = overlay move (gs_groups shelves).
Proof.
  split; [exact shelves_live|].
  destruct (group_store_live (Op_restore (failing_at "z") move) shelves shelves_live) as (e & s' & He & Hr); [vm_compute; discriminate|].
  assert (Hdone : (fun r => match r with Some (e, _) => Some e | None => None end) (group_op (Op_restore (failing_at "z") move) shelves) = Some Done)
    by (vm_compute; reflexivity).
  rewrite He in Hdone. injection Hdone as ->. exists Done, s'. split; [exact He|]. split; [reflexivity|]. destruct Hr as (Hl & _ & Hg). split; [exact Hl | exact Hg].
Defined.

(** A restore that stops at [p] has moved [c] under [q] while [d] is still under
    it: four groups in a chain, and every later write of a group is refused. *)
Example restore_stops_too_deep :
  match group_op (Op_restore (failing_at "p") move) shelves with
  | Some (e, s) => (e, validate_nesting (gs_groups s), (fun r => r.1) <$> create_group (fun _ => writes) (fun _ => true) (str "new") [] ∅ ∅ s)
  | None => (Done, None, None)
  end = (Stopped 1, Some (Err (TooDeep (str "r"))), Some (Err (Create_Nesting (TooDeep (str "r"))))).
Proof. vm_compute. reflexivity. Qed.
