(* ===== verification/Schema.v ===== *)
(** * Schema documents ([src/schema.rs], [src/schema/check.rs])

    A context may have one document of entity types, an [is_a] hierarchy, and of
    relations constrained to types.  Installing it validates it and closes the
    hierarchy by the bounded walk of the group validator, with the ancestors beside
    the depth; the recursion has as much fuel as the cap.  The check judges the
    operations of a write against the types their concepts are about to have.  An
    issue is what its message says, not its wording. *)

From S2P Require Export WalReplay Query.

Local Open Scope N_scope.

Definition FORMAT_VERSION : name := str "2026-10-01".
Definition SCHEMA_TYPE_LABEL : name := str "schema:type".
Definition MAX_NAME_BYTES : N := 1024.
Definition MAX_SCHEMA_TYPES : N := 500.
Definition MAX_SCHEMA_RELATIONS : N := 500.
Definition MAX_RELATION_TYPES : N := 64.
Definition MAX_TYPE_DEPTH : N := 8.

Inductive SchemaMode := Off | Warn | Strict.
#[export] Instance SchemaMode_eq_dec : EqDecision SchemaMode.
Proof. solve_decision. Defined.

Record TypeDef := { td_is_a : gset name }.
Record RelationDef := { rd_domain : gset name; rd_range : gset name }.

Record SchemaDocument := {
  sd_version : option name;
  sd_mode : SchemaMode;
  sd_closed_labels : bool;
  sd_types : gmap name TypeDef;
  sd_relations : gmap name RelationDef
}.

Inductive SchemaViolation :=
  | UnknownVersion (found : name) | TooManyTypes (count : N) | TooManyRelations (count : N) | ReservedRelation
  | NameTooLong (n : name) | TooManyRelationTypes (relation : name) (side : string) (count : N)
  | Cycle (type_name : name) | TooDeep (type_name : name).

Record InstalledSchema := { is_document : SchemaDocument; is_ancestors : gmap name (gset name) }.

Definition reserved_aliases (aliases : list (name * name)) : list name :=
  (filter (fun p => p.2 = SCHEMA_TYPE_LABEL) aliases).*1.

(** ** Installing a document *)

Definition check_version (found : option name) : result () name :=
  match found with
  | None => Ok ()
  | Some version => if bool_decide (version = FORMAT_VERSION) then Ok () else Err version
  end.

Abbreviation Ancestry := (gmap name (prod N (gset name))).

(** The parents in name order: their own ancestors when they are declared. *)
Fixpoint gather (walk : name -> Ancestry -> option (result (N * gset name * Ancestry) SchemaViolation)) (types : gmap name TypeDef)
    (parents : list name) (depth : N) (ancestors : gset name) (settled : Ancestry)
    : option (result (N * gset name * Ancestry) SchemaViolation) :=
  match parents with
  | [] => Some (Ok (depth, ancestors, settled))
  | parent :: parents =>
    let ancestors := {[parent]} ∪ ancestors in
    match types !! parent with
    | None => gather walk types parents depth ancestors settled
    | Some _ =>
      r ← walk parent settled;
      match r with
      | Err e => Some (Err e)
      | Ok (parent_depth, parent_ancestors, settled) =>
        gather walk types parents (N.max depth (parent_depth + 1)) (ancestors ∪ parent_ancestors) settled
      end
    end
  end.

Fixpoint closure_of_declared (fuel : nat) (types : gmap name TypeDef) (visiting : list name) (type_name : name) (settled : Ancestry)
    : option (result (N * gset name * Ancestry) SchemaViolation) :=
  match settled !! type_name with
  | Some (depth, ancestors) => Some (Ok (depth, ancestors, settled))
  | None =>
    match types !! type_name with
    | None => Some (Ok (1, ∅, settled))
    | Some def =>
      if bool_decide (type_name ∈ visiting) then Some (Err (Cycle type_name))
      else if MAX_TYPE_DEPTH <=? lenN visiting then top ← head visiting; Some (Err (TooDeep top))
      else
        match fuel with
        | O => None
        | S fuel =>
          r ← gather (closure_of_declared fuel types (visiting ++ [type_name])) types (names_in_order (td_is_a def)) 1 ∅ settled;
          match r with
          | Err e => Some (Err e)
          | Ok (depth, ancestors, settled) =>
            if MAX_TYPE_DEPTH <? depth then Some (Err (TooDeep (default type_name (head visiting))))
            else Some (Ok (depth, ancestors, <[type_name := (depth, ancestors)]> settled))
          end
        end
    end
  end.

Fixpoint settle_types (types : gmap name TypeDef) (names : list name) (settled : Ancestry) : option (result Ancestry SchemaViolation) :=
  match names with
  | [] => Some (Ok settled)
  | n :: names =>
    r ← closure_of_declared (N.to_nat MAX_TYPE_DEPTH) types [] n settled;
    match r with Err e => Some (Err e) | Ok (_, _, settled) => settle_types types names settled end
  end.

Definition type_ancestors (types : gmap name TypeDef) : option (result (gmap name (gset name)) SchemaViolation) :=
  r ← settle_types types (btree_iter types).*1 (∅ : Ancestry);
  Some (match r with Ok settled => Ok (snd <$> (settled : Ancestry)) | Err e => Err e end).

(** Every name the document mentions, in the order they are checked. *)
Definition mentioned_names (d : SchemaDocument) : list name :=
  (btree_iter (sd_types d)).*1 ++ (btree_iter (sd_relations d)).*1 ++
  flat_map (fun p => names_in_order (td_is_a p.2)) (btree_iter (sd_types d)) ++
  flat_map (fun p => names_in_order (rd_domain p.2) ++ names_in_order (rd_range p.2)) (btree_iter (sd_relations d)).

(** The first side over its cap. *)
Definition oversized_side (d : SchemaDocument) : option (name * string * N) :=
  head (flat_map (fun p : name * RelationDef =>
    flat_map (fun side : string * gset name =>
        if MAX_RELATION_TYPES <? N.of_nat (size side.2) then [(p.1, side.1, N.of_nat (size side.2))] else [])
      [("domain"%string, rd_domain p.2); ("range"%string, rd_range p.2)]) (btree_iter (sd_relations d))).

Definition set_version (version : option name) (d : SchemaDocument) : SchemaDocument :=
  {| sd_version := version; sd_mode := sd_mode d; sd_closed_labels := sd_closed_labels d; sd_types := sd_types d;
     sd_relations := sd_relations d |}.
Definition set_mode (mode : SchemaMode) (d : SchemaDocument) : SchemaDocument :=
  {| sd_version := sd_version d; sd_mode := mode; sd_closed_labels := sd_closed_labels d; sd_types := sd_types d;
     sd_relations := sd_relations d |}.

Definition install (document : SchemaDocument) : option (result InstalledSchema SchemaViolation) :=
  match check_version (sd_version document) with
  | Err found => Some (Err (UnknownVersion found))
  | Ok _ =>
    let document := set_version (Some FORMAT_VERSION) document in
    if MAX_SCHEMA_TYPES <? N.of_nat (size (sd_types document)) then Some (Err (TooManyTypes (N.of_nat (size (sd_types document)))))
    else if MAX_SCHEMA_RELATIONS <? N.of_nat (size (sd_relations document)) then
      Some (Err (TooManyRelations (N.of_nat (size (sd_relations document)))))
    else if bool_decide (is_Some (sd_relations document !! SCHEMA_TYPE_LABEL)) then Some (Err ReservedRelation)
    else
      match head (filter (fun n => MAX_NAME_BYTES < lenN n) (mentioned_names document)), oversized_side document with
      | Some n, _ => Some (Err (NameTooLong n))
      | None, Some (relation, side, count) => Some (Err (TooManyRelationTypes relation side count))
      | None, None =>
        ancestors ← type_ancestors (sd_types document);
        Some (match ancestors with
              | Ok ancestors => Ok {| is_document := document; is_ancestors := ancestors |}
              | Err e => Err e
              end)
      end
  end.

Definition closure_of (schema : InstalledSchema) (type_name : name) : gset name :=
  {[type_name]} ∪ default ∅ (is_ancestors schema !! type_name).

Definition enforcing (schema : InstalledSchema) : InstalledSchema :=
  match sd_mode (is_document schema) with
  | Off => {| is_document := set_mode Strict (is_document schema); is_ancestors := is_ancestors schema |}
  | _ => schema
  end.

(** ** Loading the file *)

Inductive SchemaFile := ReadBytes (contents : bytes) | FileMissing | FileUnreadable.
Inductive LoadRefusal := DigestWithoutFile | CannotRead | DigestMismatch | DoesNotParse | DoesNotValidate (v : SchemaViolation).

Section load.
Context (sha256_hex : bytes -> bytes) (parse : bytes -> option SchemaDocument).

(** The answer, and the bytes set aside for recovery. *)
Definition load_schema (file : SchemaFile) (recorded_digest : option bytes) (set_aside_corrupt : bool)
    : option (result (option InstalledSchema) LoadRefusal * option bytes) :=
  match file with
  | FileMissing => Some (match recorded_digest with None => Ok None | Some _ => Err DigestWithoutFile end, None)
  | FileUnreadable => Some (Err CannotRead, None)
  | ReadBytes contents =>
    if bool_decide (recorded_digest <> Some (sha256_hex contents)) then Some (Err DigestMismatch, None)
    else
      match parse contents with
      | None => Some (Err DoesNotParse, if set_aside_corrupt then Some contents else None)
      | Some document =>
        r ← install document;
        Some (match r with Ok schema => Ok (Some schema) | Err v => Err (DoesNotValidate v) end, None)
      end
  end.
End load.

(** ** The environment of a check *)

Record SchemaCheckInput := {
  ci_schema : InstalledSchema;
  ci_ops : list AssocOp;
  ci_declared_labels : gmap name name;
  ci_retracted_source : option name
}.

Record TypeAssertions := { ta_asserted : gset name; ta_expanded : gset name }.

Record SchemaEnv := {
  se_schema : InstalledSchema;
  se_resolved_labels : gmap name name;
  se_concept_canon : gmap name name;
  se_types : gmap name TypeAssertions;
  se_declared_labels : gmap name name
}.

Definition MAX_HOPS : nat := 4.

Fixpoint resolve_hops (hops : nat) (live declared : gmap name name) (current : name) : name :=
  match hops with
  | O => current
  | S hops =>
    match (match declared !! current with Some next => Some next | None => live !! current end) with
    | Some next => if bool_decide (next = current) then current else resolve_hops hops live declared next
    | None => current
    end
  end.

Definition resolve_op_label (spelling : name) (live declared : gmap name name) : name := resolve_hops MAX_HOPS live declared spelling.

(** [entry(key).or_insert_with(value)]. *)
Definition or_insert {V : Type} (key : name) (value : V) (m : gmap name V) : gmap name V :=
  match m !! key with Some _ => m | None => <[key := value]> m end.

Definition resolve_labels (live declared : gmap name name) (ops : list AssocOp) : gmap name name :=
  foldl (fun m op => or_insert (ao_label op) (resolve_op_label (ao_label op) live declared) m) ∅ ops.

Definition canon_spelling (c : Context) (m : gmap name name) (spelling : name) : option (gmap name name) :=
  match m !! spelling with
  | Some _ => Some m
  | None => canonical ← canonical_concept spelling c; Some (<[spelling := default spelling canonical]> m)
  end.

Definition canon_concepts (c : Context) (ops : list AssocOp) : option (gmap name name) :=
  foldM (canon_spelling c) (flat_map (fun op => [ao_subject op; ao_object op]) ops) ∅.

Definition is_type_op (resolved_labels : gmap name name) (op : AssocOp) : bool :=
  bool_decide (resolved_labels !! ao_label op = Some SCHEMA_TYPE_LABEL).

Abbreviation TypeSets := (gmap name (gset name)).

(** [entry(concept).or_default().insert(type)]. *)
Definition assert_type (asserted : TypeSets) (concept type_name : name) : TypeSets :=
  <[concept := {[type_name]} ∪ default ∅ (asserted !! concept)]> asserted.

Definition canon_in (concept_canon : gmap name name) (spelling : name) : name := default spelling (concept_canon !! spelling).

Definition batch_assertions (resolved_labels concept_canon : gmap name name) (ops : list AssocOp) : TypeSets :=
  foldl (fun asserted op =>
    if is_type_op resolved_labels op
    then assert_type asserted (canon_in concept_canon (ao_subject op)) (canon_in concept_canon (ao_object op))
    else asserted) ∅ ops.

(** Live, and still live without the source's own count. *)
Definition survives_retraction (assoc : Association) (retracted_source : option name) : bool :=
  if as_count assoc =? 0 then false
  else
    match retracted_source with
    | None => true
    | Some source =>
      let retracted := match filter (fun a => att_source a = source) (as_attributions assoc) with a :: _ => att_count a | [] => 0 end in
      0 <? u64_saturating_sub (as_count assoc) retracted
    end.

Definition live_type_assertions (c : Context) (concepts : list name) (retracted_source : option name) : option TypeSets :=
  match concepts with
  | [] => Some ∅
  | _ =>
    rows ← query_any concepts [SCHEMA_TYPE_LABEL] [] c;
    Some (foldl (fun asserted assoc =>
      if survives_retraction assoc retracted_source then assert_type asserted (as_subject assoc) (as_object assoc) else asserted) ∅ rows)
  end.

Definition expand_types (schema : InstalledSchema) (names : gset name) : gset name := ⋃ (closure_of schema <$> elements names).

Definition expanded_type_sets (c : Context) (schema : InstalledSchema) (concepts : list name) : option TypeSets :=
  (fun asserted : TypeSets => expand_types schema <$> asserted) <$> live_type_assertions c concepts None.

Definition fact_concepts (resolved_labels concept_canon : gmap name name) (ops : list AssocOp) : gset name :=
  list_to_set (canon_in concept_canon <$>
    flat_map (fun op => [ao_subject op; ao_object op]) (filter (fun op => is_type_op resolved_labels op = false) ops)).

Definition SchemaEnv_build `{UnicodeTables} (c : Context) (input : SchemaCheckInput) : option SchemaEnv :=
  let schema := ci_schema input in
  match sd_mode (is_document schema) with
  | Off => Some {| se_schema := schema; se_resolved_labels := ∅; se_concept_canon := ∅; se_types := ∅;
                   se_declared_labels := ci_declared_labels input |}
  | _ =>
    live_labels ← alias_pairs label_space c;
    let resolved_labels := resolve_labels (list_to_map live_labels) (ci_declared_labels input) (ci_ops input) in
    concept_canon ← canon_concepts c (ci_ops input);
    live ← live_type_assertions c (names_in_order (fact_concepts resolved_labels concept_canon (ci_ops input))) (ci_retracted_source input);
    let asserted := union_with (fun batch live => Some (batch ∪ live)) (batch_assertions resolved_labels concept_canon (ci_ops input)) live in
    Some {| se_schema := schema; se_resolved_labels := resolved_labels; se_concept_canon := concept_canon;
            se_types := (fun names => {| ta_asserted := names; ta_expanded := expand_types schema names |}) <$> asserted;
            se_declared_labels := ci_declared_labels input |}
  end.

(** ** The check *)

Inductive Issue :=
  | Issue_conflict (alias : name)
  | Issue_domain (index : N) (subject relation : name) (expected actual : gset name)
  | Issue_range_type (index : N) (object relation : name) (expected actual : gset name)
  | Issue_undeclared_label (index : N).

Record SchemaCheck := { sc_reserved : list Issue; sc_violations : list Issue }.

Inductive SchemaOutcome := Outcome_Ok | Outcome_Warned | Outcome_Refused.

Definition types_for (env : SchemaEnv) (spelling : name) : option TypeAssertions :=
  se_types env !! canon_in (se_concept_canon env) spelling.

Definition side_violates (declared : gset name) (types : option TypeAssertions) : bool :=
  if bool_decide (declared = ∅) then false
  else
    match types with
    | None => false
    | Some types => if bool_decide (ta_expanded types = ∅) then false else bool_decide (declared ## ta_expanded types)
    end.

(** The issue carries every name; the message made of it lists the first eight
    and counts the rest. *)
Definition actual_types (types : option TypeAssertions) : gset name := match types with Some types => ta_asserted types | None => ∅ end.

(** The issues of one operation. *)
Definition judge_op (env : SchemaEnv) (index : N) (op : AssocOp) : list Issue :=
  let document := is_document (se_schema env) in
  let resolved_label := default (ao_label op) (se_resolved_labels env !! ao_label op) in
  if bool_decide (resolved_label = SCHEMA_TYPE_LABEL) then []
  else
    match sd_relations document !! resolved_label with
    | Some relation =>
      let subject_types := types_for env (ao_subject op) in
      let object_types := types_for env (ao_object op) in
      (if side_violates (rd_domain relation) subject_types
       then [Issue_domain index (ao_subject op) resolved_label (rd_domain relation) (actual_types subject_types)] else []) ++
      (if side_violates (rd_range relation) object_types
       then [Issue_range_type index (ao_object op) resolved_label (rd_range relation) (actual_types object_types)] else [])
    | None => if sd_closed_labels document then [Issue_undeclared_label index] else []
    end.

Definition schema_issues (env : SchemaEnv) (ops : list AssocOp) : SchemaCheck :=
  {| sc_reserved := Issue_conflict <$> reserved_aliases (btree_iter (se_declared_labels env));
     sc_violations :=
       match sd_mode (is_document (se_schema env)) with
       | Off => []
       | _ => flat_map (fun p => judge_op env p.1 p.2) (zip (indices ops) ops)
       end |}.

Definition check_outcome (check : SchemaCheck) (mode : SchemaMode) : SchemaOutcome :=
  match sc_reserved check, sc_violations check with
  | _ :: _, _ => Outcome_Refused
  | [], [] => Outcome_Ok
  | [], _ => if bool_decide (mode = Strict) then Outcome_Refused else Outcome_Warned
  end.

(** ** The hierarchy *)

Section hierarchy.
Context (types : gmap name TypeDef).

(** A parent, declared or not. *)
Definition is_a (t u : name) : Prop := exists d, types !! t = Some d /\ u ∈ td_is_a d.
(** A declared parent. *)
Definition up (t u : name) : Prop := is_a t u /\ is_Some (types !! u).

(** The longest chain of declared types from [t] has [d] of them. *)
Definition tall (t : name) (d : N) : Prop := 1 <= d /\ rchain up t (N.to_nat d - 1) /\ ~ rchain up t (N.to_nat d).

(** No chain past the cap, so no cycle. *)
Definition shallow : Prop := forall t, ~ rchain up t (N.to_nat MAX_TYPE_DEPTH).

Definition crooked (v : SchemaViolation) : Prop :=
  match v with
  | Cycle t => tc up t t
  | TooDeep t => rchain up t (N.to_nat MAX_TYPE_DEPTH)
  | _ => False
  end.

Lemma crooked_not_shallow v : crooked v -> ~ shallow.
Proof using. destruct v; cbn; intros Hv Hs; try done; [by eapply Hs, rchain_cycle | by eapply Hs]. Qed.

Definition settled_ok (settled : Ancestry) : Prop := forall t d a, settled !! t = Some (d, a) ->
  tall t d /\ d <= MAX_TYPE_DEPTH /\ forall u, u ∈ a <-> tc is_a t u.

Definition walked (t : name) (settled : Ancestry) (r : result (N * gset name * Ancestry) SchemaViolation) : Prop :=
  match r with
  | Err v => crooked v
  | Ok (d, a, settled') => settled ⊆ settled' /\ settled_ok settled' /\ settled' !! t = Some (d, a)
  end.

Lemma gather_spec walk parents : forall depth ancestors settled, settled_ok settled ->
  (forall c s, c ∈ parents -> is_Some (types !! c) -> settled_ok s -> exists r, walk c s = Some r /\ walked c s r) ->
  exists r, gather walk types parents depth ancestors settled = Some r /\
    match r with
    | Err v => crooked v
    | Ok (d, a, settled') => settled ⊆ settled' /\ settled_ok settled' /\ depth <= d /\
        (forall c, c ∈ parents -> is_Some (types !! c) -> exists dc ac, settled' !! c = Some (dc, ac) /\ dc + 1 <= d) /\
        (d = depth \/ exists c dc ac, c ∈ parents /\ is_Some (types !! c) /\ settled' !! c = Some (dc, ac) /\ d = dc + 1) /\
        forall u, u ∈ a <-> u ∈ ancestors \/ exists c, c ∈ parents /\ (u = c \/ tc is_a c u)
    end.
Proof using.
  induction parents as [|c parents IH]; intros depth ancestors settled Hs Hw; cbn [gather].
  { eexists. split; [reflexivity|]. cbn. split; [done|]. split; [done|]. split; [lia|]. split; [by intros c ?%not_elem_of_nil|].
    split; [by left|]. intros u. split; [by left|]. by intros [|(c & ?%not_elem_of_nil & _)]. }
  assert (Hw' : forall c s, c ∈ parents -> is_Some (types !! c) -> settled_ok s -> exists r, walk c s = Some r /\ walked c s r)
    by (intros c' s Hc; apply Hw; by right).
  destruct (types !! c) as [def|] eqn:Hc.
  - destruct (Hw c settled) as (r & -> & Hr); [by left|by eexists|done|]. cbn [mbind option_bind].
    destruct r as [[[dc ac] s1]|v]; [|by eexists]. destruct Hr as (Hsub & Hs1 & Hcs).
    destruct (IH (N.max depth (dc + 1)) (({[c]} ∪ ancestors) ∪ ac) s1 Hs1 Hw') as (r & -> & Hr). eexists. split; [reflexivity|].
    destruct r as [[[d a] s2]|v]; [|done]. destruct Hr as (Hsub2 & Hs2 & Hd & Hall & Hex & Ha).
    pose proof (lookup_weaken _ _ _ _ Hcs Hsub2) as Hcs2. destruct (Hs1 _ _ _ Hcs) as (_ & _ & Hac).
    split; [by etrans|]. split; [done|]. split; [lia|]. split; [|split].
    + intros c' [->|Hc']%elem_of_cons Hdec; [|by apply Hall]. exists dc, ac. split; [done|lia].
    + destruct Hex as [->|(c' & dc' & ac' & Hc' & Hdec & He & ->)]; [|right; exists c', dc', ac'; split; [by right|done]].
      destruct (N.max_spec depth (dc + 1)) as [[_ ->]|[_ ->]]; [|by left].
      right. exists c, dc, ac. split; [by left|]. split; [by eexists|done].
    + intros u. rewrite Ha, !elem_of_union, elem_of_singleton, Hac. setoid_rewrite elem_of_cons. split.
      * intros [[[->|Hu]|Hu]|(c' & Hc' & Hu)]; [right; exists c; by eauto | by left | right; exists c; by eauto | right; exists c'; by eauto].
      * intros [Hu|(c' & [->|Hc'] & Hu)]; [by left; left; right | | by right; exists c'].
        destruct Hu as [->|Hu]; [by left; left; left | by left; right].
  - destruct (IH depth ({[c]} ∪ ancestors) settled Hs Hw') as (r & -> & Hr). eexists. split; [reflexivity|].
    destruct r as [[[d a] s2]|v]; [|done]. destruct Hr as (Hsub2 & Hs2 & Hd & Hall & Hex & Ha).
    assert (Hno : forall u, ~ tc is_a c u) by (intros u Hu; inversion Hu as [? ? (?&?&_)|? ? ? (?&?&_) _]; congruence).
    split; [done|]. split; [done|]. split; [done|]. split; [|split].
    + intros c' [->|Hc']%elem_of_cons Hdec; [|by apply Hall]. rewrite Hc in Hdec. by destruct Hdec.
    + destruct Hex as [->|(c' & dc' & ac' & Hc' & Hrest)]; [by left|]. right. exists c', dc', ac'. split; [by right|done].
    + intros u. rewrite Ha, elem_of_union, elem_of_singleton. setoid_rewrite elem_of_cons. split.
      * intros [[->|Hu]|(c' & Hc' & Hu)]; [right; exists c; by eauto | by left | right; exists c'; by eauto].
      * intros [Hu|(c' & [->|Hc'] & Hu)]; [by left; right | | by right; exists c'].
        destruct Hu as [->|Hu]; [by left; left | by destruct (Hno u)].
Qed.

(** The parents' answers make the type's own. *)
Lemma tall_from (t : name) (def : TypeDef) (d : N) (settled : gmap name (N * gset name)) : types !! t = Some def -> settled_ok settled -> 1 <= d ->
  (forall c, c ∈ td_is_a def -> is_Some (types !! c) -> exists dc ac, settled !! c = Some (dc, ac) /\ dc + 1 <= d) ->
  (d = 1 \/ exists c dc ac, c ∈ td_is_a def /\ is_Some (types !! c) /\ settled !! c = Some (dc, ac) /\ d = dc + 1) -> tall t d.
Proof using.
  intros Ht Hs Hd Hall Hex. split; [done|]. split.
  - destruct Hex as [->|(c & dc & ac & Hc & Hdec & He & ->)]; [exists t; constructor|].
    destruct (Hs _ _ _ He) as ((Hpos & Hch & _) & _). replace (N.to_nat (dc + 1) - 1)%nat with (S (N.to_nat dc - 1)) by lia.
    eapply rchain_step; [|exact Hch]. split; [by exists def | done].
  - intros [m Hm]. replace (N.to_nat d) with (S (N.to_nat d - 1)) in Hm by lia. inversion Hm as [|? ? c ? [(def' & Ht' & Hc) Hdec] Hrest]; subst.
    rewrite Ht in Ht'. injection Ht' as <-. destruct (Hall c Hc Hdec) as (dc & ac & He & Hle).
    destruct (Hs _ _ _ He) as ((_ & _ & Hno) & _). apply Hno. eapply rchain_prefix; [by exists m | lia].
Qed.

Lemma closure_of_declared_spec fuel : forall visiting t settled, settled_ok settled -> is_Some (types !! t) -> rtrail up visiting t ->
  lenN visiting <= MAX_TYPE_DEPTH -> MAX_TYPE_DEPTH <= N.of_nat fuel + lenN visiting ->
  exists r, closure_of_declared fuel types visiting t settled = Some r /\ walked t settled r.
Proof using.
  induction fuel as [|fuel IH]; intros visiting t settled Hs [def Ht] Htr Hv Hf; cbn [closure_of_declared].
  all: destruct (settled !! t) as [[d a]|] eqn:Hd; [by eexists|]. all: rewrite Ht.
  all: case_bool_decide as Hin; [eexists; split; [reflexivity|]; by apply (rtrail_cycle _ visiting)|].
  all: destruct (N.leb_spec MAX_TYPE_DEPTH (lenN visiting)) as [Hfull|Hroom].
  1, 3: destruct visiting as [|top visiting]; [unfold lenN, MAX_TYPE_DEPTH in Hfull; simpl in Hfull; lia|]; cbn [head mbind option_bind];
    eexists; split; [reflexivity|]; cbn; exists t; apply rtrail_top in Htr;
    replace (S (length visiting)) with (N.to_nat MAX_TYPE_DEPTH) in Htr by (unfold lenN in *; simpl in *; lia); done.
  - lia.
  - destruct (gather_spec (closure_of_declared fuel types (visiting ++ [t])) (names_in_order (td_is_a def)) 1 ∅ settled Hs) as (r & -> & Hr).
    { intros c s Hc%elem_of_names_in_order Hdec Hss. apply IH; [done|done| |rewrite lenN_snoc; lia|rewrite lenN_snoc; lia].
      apply rtrail_push; [done|]. split; [by exists def | done]. }
    cbn [mbind option_bind]. destruct r as [[[d a] s1]|v]; [|by eexists]. destruct Hr as (Hsub & Hs1 & Hpos & Hall & Hex & Ha).
    setoid_rewrite elem_of_names_in_order in Hall. setoid_rewrite elem_of_names_in_order in Hex. setoid_rewrite elem_of_names_in_order in Ha.
    pose proof (tall_from t def d s1 Ht Hs1 Hpos Hall Hex) as Htall.
    destruct (N.ltb_spec MAX_TYPE_DEPTH d) as [Hdeep|Hok].
    { eexists. split; [reflexivity|]. cbn. destruct Htall as (_ & Hch & _). destruct visiting as [|top visiting]; cbn [head default from_option id].
      - eapply rchain_prefix; [exact Hch | lia].
      - apply rtrail_top in Htr. eapply rchain_prefix; [by eapply rchain_trans | lia]. }
    eexists. split; [reflexivity|]. cbn. split; [|split; [|by rewrite lookup_insert_eq]].
    + apply map_subseteq_spec. intros n x Hn. rewrite lookup_insert_ne by congruence. by eapply lookup_weaken.
    + intros n d' a' [[<- [= <- <-]]|[_ Hn]]%lookup_insert_Some; [|by apply Hs1]. split; [done|]. split; [done|]. intros u. rewrite Ha. split.
      * intros [?%not_elem_of_empty|(c & Hc & [->|Hu])]; [done|by apply tc_once; exists def|]. eapply tc_l; [by exists def | done].
      * intros Hu. right. inversion Hu as [? ? (def' & Ht' & Hc)|? c ? (def' & Ht' & Hc) Hcu]; subst; rewrite Ht in Ht'; injection Ht' as <-; eauto.
Qed.

Lemma settle_types_spec names : forall settled, settled_ok settled -> (forall t, t ∈ names -> is_Some (types !! t)) ->
  exists r, settle_types types names settled = Some r /\
    match r with
    | Err v => crooked v
    | Ok settled' => settled ⊆ settled' /\ settled_ok settled' /\ forall t, t ∈ names -> is_Some (settled' !! t)
    end.
Proof using.
  induction names as [|t names IH]; intros settled Hs Hn; cbn [settle_types].
  { eexists. split; [reflexivity|]. split; [done|]. split; [done|]. by intros t ?%not_elem_of_nil. }
  destruct (closure_of_declared_spec (N.to_nat MAX_TYPE_DEPTH) [] t settled Hs) as (r & -> & Hr);
    [apply Hn; by left | apply rtrail_nil | done | done|].
  cbn [mbind option_bind]. destruct r as [[[d a] s1]|v]; [|by eexists]. destruct Hr as (Hsub & Hs1 & Ht).
  destruct (IH s1 Hs1) as (r & -> & Hr); [intros t' Ht'; apply Hn; by right|]. eexists. split; [reflexivity|]. destruct r as [s2|v]; [|done].
  destruct Hr as (Hsub2 & Hs2 & Hall). split; [by etrans|]. split; [done|].
  intros t' [->|Ht']%elem_of_cons; [|by apply Hall]. eexists. by eapply lookup_weaken.
Qed.

(** The walk closes the hierarchy, or finds it crooked. *)
Lemma type_ancestors_spec : exists r, type_ancestors types = Some r /\
  match r with
  | Ok ancestors => shallow /\ forall t u, u ∈ default ∅ (ancestors !! t) <-> tc is_a t u
  | Err v => crooked v
  end.
Proof using.
  unfold type_ancestors. destruct (settle_types_spec (btree_iter types).*1 ∅) as (r & -> & Hr).
  { by intros t d a ?%lookup_empty_Some. }
  { intros t ([t' d] & -> & Ht)%list_elem_of_fmap. apply elem_of_btree_iter in Ht. by eexists. }
  cbn [mbind option_bind]. eexists. split; [reflexivity|]. destruct r as [s|v]; [|done]. destruct Hr as (_ & Hs & Hall).
  assert (Hdec : forall t, is_Some (types !! t) -> exists d a, s !! t = Some (d, a)).
  { intros t [def Ht]. destruct (Hall t) as [[d a] Hd]; [|by exists d, a]. apply list_elem_of_fmap. exists (t, def).
    split; [done|]. by apply elem_of_btree_iter. }
  split.
  - intros t Hc. assert (Ht : is_Some (types !! t)).
    { destruct Hc as [m Hm]. inversion Hm as [|? ? y ? [(def & Hd & _) _]]; subst. by exists def. }
    destruct (Hdec t Ht) as (d & a & Hd). destruct (Hs _ _ _ Hd) as ((_ & _ & Hno) & Hle & _). apply Hno. eapply rchain_prefix; [exact Hc | lia].
  - intros t u. rewrite lookup_fmap. destruct (s !! t) as [[d a]|] eqn:Hd; cbn; [by apply (Hs _ _ _ Hd)|]. split; [by intros ?%not_elem_of_empty|].
    intros Htu. exfalso. assert (Ht : is_Some (types !! t)) by (inversion Htu as [? ? (def & Hx & _)|? ? ? (def & Hx & _) _]; by exists def).
    destruct (Hdec t Ht) as (d & a & Hx). congruence.
Qed.
End hierarchy.

(** ** Installing *)

(** A name the document mentions. *)
Definition mentions (d : SchemaDocument) (n : name) : Prop :=
  is_Some (sd_types d !! n) \/ is_Some (sd_relations d !! n) \/ (exists t, is_a (sd_types d) t n) \/
  exists r def, sd_relations d !! r = Some def /\ (n ∈ rd_domain def \/ n ∈ rd_range def).

Lemma elem_of_btree_keys {V : Type} (m : gmap name V) n : n ∈ (btree_iter m).*1 <-> is_Some (m !! n).
Proof.
  rewrite list_elem_of_fmap. split.
  - intros ([n' v] & -> & Hn). apply elem_of_btree_iter in Hn. by eexists.
  - intros [v Hn]. exists (n, v). split; [done|]. by apply elem_of_btree_iter.
Qed.

Lemma elem_of_doc_names d n : n ∈ mentioned_names d <-> mentions d n.
Proof.
  unfold mentioned_names, mentions. rewrite !elem_of_app, !elem_of_btree_keys, !elem_of_flat_map. do 2 (apply or_iff_compat_l). apply Morphisms_Prop.or_iff_morphism.
  - split.
    + intros ([t def] & Ht & Hn). apply elem_of_btree_iter in Ht. exists t, def. split; [done|]. by apply elem_of_names_in_order in Hn.
    + intros (t & def & Ht & Hn). exists (t, def). split; [by apply elem_of_btree_iter | by apply elem_of_names_in_order].
  - split.
    + intros ([r def] & Hr & Hn). apply elem_of_btree_iter in Hr. exists r, def. split; [done|].
      by rewrite elem_of_app, !elem_of_names_in_order in Hn.
    + intros (r & def & Hr & Hn). exists (r, def). split; [by apply elem_of_btree_iter|]. by rewrite elem_of_app, !elem_of_names_in_order.
Qed.

(** A side of a relation, by the name it is refused under. *)
Definition side_of (side : string) (def : RelationDef) (s : gset name) : Prop :=
  (side = "domain"%string /\ s = rd_domain def) \/ (side = "range"%string /\ s = rd_range def).

(** What each refusal says of the document. *)
Definition refused_for (d : SchemaDocument) (v : SchemaViolation) : Prop :=
  match v with
  | UnknownVersion found => sd_version d = Some found /\ found <> FORMAT_VERSION
  | TooManyTypes n => n = N.of_nat (size (sd_types d)) /\ MAX_SCHEMA_TYPES < n
  | TooManyRelations n => n = N.of_nat (size (sd_relations d)) /\ MAX_SCHEMA_RELATIONS < n
  | ReservedRelation => is_Some (sd_relations d !! SCHEMA_TYPE_LABEL)
  | NameTooLong n => mentions d n /\ MAX_NAME_BYTES < lenN n
  | TooManyRelationTypes r side n => exists def s, sd_relations d !! r = Some def /\ side_of side def s /\
      n = N.of_nat (size s) /\ MAX_RELATION_TYPES < n
  | Cycle _ | TooDeep _ => crooked (sd_types d) v
  end.

Lemma head_Some_elem {A} (l : list A) x : head l = Some x -> x ∈ l.
Proof. destruct l; [done|]. intros [= ->]. by left. Qed.

Lemma oversized_side_spec d : match oversized_side d with
  | Some (r, side, n) => refused_for d (TooManyRelationTypes r side n)
  | None => forall r side n, ~ refused_for d (TooManyRelationTypes r side n)
  end.
Proof.
  unfold oversized_side. destruct (head _) as [[[r side] n]|] eqn:Hh.
  - apply head_Some_elem, elem_of_flat_map in Hh as ([r' def] & Hr & Hin). apply elem_of_btree_iter in Hr.
    apply elem_of_flat_map in Hin as ([side' s] & Hside & Hin). cbn [fst snd] in *.
    destruct (N.ltb_spec MAX_RELATION_TYPES (N.of_nat (size s))); [|by apply not_elem_of_nil in Hin].
    apply list_elem_of_singleton in Hin as [= -> -> ->]. exists def, s. split; [done|]. split; [|done].
    apply elem_of_cons in Hside as [[= -> ->]|[= -> ->]%list_elem_of_singleton]; [by left | by right].
  - intros r side n (def & s & Hr & Hside & -> & Hlt). destruct (flat_map _ _) as [|x l] eqn:Hf; [|done].
    apply (not_elem_of_nil (r, side, N.of_nat (size s))). rewrite <- Hf. apply elem_of_flat_map. exists (r, def).
    split; [by apply elem_of_btree_iter|]. apply elem_of_flat_map. exists (side, s). cbn [fst snd]. split.
    + destruct Hside as [[-> ->]|[-> ->]]; [by left | by right; left].
    + apply N.ltb_lt in Hlt. rewrite Hlt. by left.
Qed.

(** The document is refused for what it says, or installed with its closure. *)
Lemma install_spec d : exists r, install d = Some r /\
  match r with
  | Ok s => is_document s = set_version (Some FORMAT_VERSION) d /\ (forall v, ~ refused_for d v) /\
      forall t u, u ∈ closure_of s t <-> rtc (is_a (sd_types d)) t u
  | Err v => refused_for d v
  end.
Proof.
  unfold install. destruct (check_version (sd_version d)) as [u|found] eqn:Hver; unfold check_version in Hver.
  2: { eexists. split; [reflexivity|]. cbn. destruct (sd_version d) as [v|]; [|done]. case_bool_decide; [done|]. by injection Hver as <-. }
  set (d' := set_version (Some FORMAT_VERSION) d).
  destruct (N.ltb_spec MAX_SCHEMA_TYPES (N.of_nat (size (sd_types d')))) as [|Htypes]; [by eexists|].
  destruct (N.ltb_spec MAX_SCHEMA_RELATIONS (N.of_nat (size (sd_relations d')))) as [|Hrels]; [by eexists|].
  case_bool_decide as Hres; [by eexists|].
  destruct (head (filter (fun n => MAX_NAME_BYTES < lenN n) (mentioned_names d'))) as [n|] eqn:Hlong.
  { eexists. split; [reflexivity|]. apply head_Some_elem, list_elem_of_filter in Hlong as [Hlt Hn]. split; [by apply (elem_of_doc_names d') | done]. }
  pose proof (oversized_side_spec d') as Hside. destruct (oversized_side d') as [[[r side] n]|]; [by eexists|].
  destruct (type_ancestors_spec (sd_types d')) as (r & -> & Hr). cbn [mbind option_bind]. eexists. split; [reflexivity|].
  destruct r as [ancestors|v]; [|by destruct v]. destruct Hr as [Hshallow Hanc]. split; [done|]. split.
  - intros v Hv. destruct v; cbn in Hv; try by (destruct Hv as [-> Hv]; cbn in Htypes, Hrels; lia).
    + destruct Hv as [Hv Hne]. rewrite Hv in Hver. by case_bool_decide.
    + by apply Hres.
    + destruct Hv as [Hm Hlt]. apply (elem_of_doc_names d') in Hm. destruct (filter _ _) as [|x l] eqn:Hf; [|done].
      apply (not_elem_of_nil n). rewrite <- Hf. by apply list_elem_of_filter.
    + by eapply Hside.
    + by eapply (crooked_not_shallow (sd_types d) (Cycle type_name)).
    + by eapply (crooked_not_shallow (sd_types d) (TooDeep type_name)).
  - intros t u'. unfold closure_of. rewrite elem_of_union, elem_of_singleton. cbn [is_ancestors]. rewrite Hanc, rtc_tc. cbn. naive_solver.
Qed.

(** A context serves no schema only when it never had one, and serves only a
    document its record vouches for. *)
Lemma load_schema_trusted sha256_hex parse file recorded set_aside : exists r aside,
  load_schema sha256_hex parse file recorded set_aside = Some (r, aside) /\
  (r = Ok None <-> file = FileMissing /\ recorded = None) /\
  forall s, r = Ok (Some s) -> exists contents d, file = ReadBytes contents /\ recorded = Some (sha256_hex contents) /\
    parse contents = Some d /\ install d = Some (Ok s).
Proof.
  destruct file as [contents| |]; cbn [load_schema].
  - case_bool_decide as Hd; [eexists _, _; split; [reflexivity|]; naive_solver|].
    destruct (parse contents) as [d|] eqn:Hp; [|eexists _, _; split; [reflexivity|]; naive_solver].
    destruct (install_spec d) as (r & Hr & _). rewrite Hr. cbn [mbind option_bind]. eexists _, _. split; [reflexivity|].
    split; [destruct r; naive_solver|]. intros s Hs. destruct r as [s'|v]; [|done]. injection Hs as ->. exists contents, d.
    split; [done|]. split; [by destruct (decide (recorded = Some (sha256_hex contents)))|]. done.
  - eexists _, _. split; [reflexivity|]. split; [destruct recorded; naive_solver | by destruct recorded].
  - eexists _, _. split; [reflexivity|]. naive_solver.
Qed.
