(* ===== verification/SchemaClaims.v ===== *)
(** * What the schema promises

    The hierarchy is closed exactly, and the check judges a write by the graph it
    is about to leave: the types in the context after the retraction, the
    operations and the aliases the batch declares. *)

From S2P Require Import Sample Refine SourcesThm QueryClaims Describe DurableThm AliasDead AliasClaims.
From S2P Require Export Schema.

Local Open Scope N_scope.

(** ** Writes keep canonical names *)

Definition names_kept (c c' : Context) : Prop :=
  (forall s, canon_concept c' s = canon_concept c s) /\ (forall s, canon_label c' s = canon_label c s).

#[export] Instance names_kept_refl : Reflexive names_kept.
Proof. by split. Qed.
#[export] Instance names_kept_trans : Transitive names_kept.
Proof. intros c1 c2 c3 [H1 H2] [H3 H4]. split; intros s; [by rewrite H3 | by rewrite H4]. Qed.

(** The tables the names live in. *)
Lemma frame_kept c c' : concept_ids c' = concept_ids c -> label_ids c' = label_ids c -> arena c' = arena c ->
  c_range <$> concepts c' = c_range <$> concepts c -> l_range <$> labels c' = l_range <$> labels c -> names_kept c c'.
Proof.
  intros Hc Hl Ha Rc Rl.
  assert (Ec : forall i, concept_name c' i = concept_name c i).
  { intros i. assert (Hi : tget (c_range <$> concepts c') i = tget (c_range <$> concepts c) i) by (by rewrite Rc).
    rewrite !tget_fmap in Hi. unfold concept_name, arena_str. rewrite Ha.
    destruct (tget (concepts c') i), (tget (concepts c) i); try done. injection Hi as E1 E2. cbn. by rewrite E1, E2. }
  assert (El : forall i, label_name c' i = label_name c i).
  { intros i. assert (Hi : tget (l_range <$> labels c') i = tget (l_range <$> labels c) i) by (by rewrite Rl).
    rewrite !tget_fmap in Hi. unfold label_name, arena_str. rewrite Ha.
    destruct (tget (labels c') i), (tget (labels c) i); try done. injection Hi as E1 E2. cbn. by rewrite E1, E2. }
  split; intros s; unfold canon_concept, canon_label, canonical; rewrite ?Hc, ?Hl.
  - destruct (concept_ids c !! s); [by rewrite Ec | done].
  - destruct (label_ids c !! s); [by rewrite El | done].
Qed.

Section kept.
Context `{UnicodeTables}.

(** Names stay when ids do and names only grow. *)
Lemma canon_concept_grows c c' : wf c -> grows c c' -> concept_ids c' = concept_ids c -> forall s, canon_concept c' s = canon_concept c s.
Proof using.
  intros Hwf Hg Hi s. unfold canon_concept, canonical. rewrite Hi. destruct (concept_ids c !! s) as [i|] eqn:Hs; [|done].
  destruct (concept_name_total Hwf i) as [n Hn]; [by eapply concept_id_lt|]. by rewrite Hn, (g_concept_name _ _ Hg _ _ Hn).
Qed.
Lemma canon_label_grows c c' : wf c -> grows c c' -> label_ids c' = label_ids c -> forall s, canon_label c' s = canon_label c s.
Proof using.
  intros Hwf Hg Hi s. unfold canon_label, canonical. rewrite Hi. destruct (label_ids c !! s) as [i|] eqn:Hs; [|done].
  destruct (label_name_total Hwf i) as [n Hn]; [by eapply label_id_lt|]. by rewrite Hn, (g_label_name _ _ Hg _ _ Hn).
Qed.

Lemma intern_concept_kept s c id c' : wf c -> utf8_valid s = true -> intern_concept s c = Some (id, c') -> names_kept c c'.
Proof using.
  intros Hwf Hs Hi. split; [intros n; by eapply canon_concept_intern|].
  apply canon_label_grows; [done|by eapply intern_concept_grows|].
  by apply intern_concept_inv in Hi as [[_ ->]|(_ & _ & _ & _ & ? & _ & ->)].
Qed.

Lemma intern_label_kept s c id c' : wf c -> utf8_valid s = true -> intern_label s c = Some (id, c') -> names_kept c c'.
Proof using.
  intros Hwf Hv Hi. pose proof (intern_label_grows _ _ _ _ Hi) as Hg. split.
  - apply canon_concept_grows; [done|done|]. by apply intern_label_inv in Hi as [[_ ->]|(_ & _ & _ & _ & ? & _ & ->)].
  - intros n. pose proof (intern_label_name _ _ _ _ Hwf Hv Hi) as Hname.
    destruct (decide (n = s)) as [->|Hne].
    { unfold canon_label at 1, canonical. apply intern_label_inv in Hi as [[Hid ->]|(_ & -> & _ & _ & idx & _ & ->)].
      - by rewrite Hid, Hname.
      - cbn [label_ids set_label_ids]. rewrite lookup_insert_eq. by rewrite Hname. }
    destruct (label_ids c !! n) as [i|] eqn:Hn.
    + destruct (label_name_total Hwf i) as [m Hm]; [by eapply label_id_lt|].
      unfold canon_label, canonical. rewrite Hn, (lookup_weaken _ _ _ _ Hn (g_label_ids _ _ Hg)), Hm.
      by rewrite (g_label_name _ _ Hg _ _ Hm).
    + apply intern_label_inv in Hi as [[_ ->]|(Hs & -> & _ & _ & idx & _ & ->)]; [done|].
      unfold canon_label, canonical. cbn [label_ids set_label_ids]. rewrite lookup_insert_ne by done. by rewrite Hn.
Qed.

Lemma intern_source_kept s c id c' : wf c -> intern_source_opt s c = Some (id, c') -> names_kept c c'.
Proof using.
  intros Hwf. unfold intern_source_opt. destruct s as [s|]; [|by intros [= _ <-]].
  destruct (intern_source s c) as [[i c1]|] eqn:Hi; [|done]. intros [= _ <-]. pose proof (intern_source_grows _ _ _ _ Hi) as Hg.
  split; [apply canon_concept_grows | apply canon_label_grows]; try done;
    by apply intern_source_inv in Hi as [[_ ->]|(_ & _ & _ & _ & ->)].
Qed.

Lemma upsert_edge_kept key w c e c' : upsert_edge key w c = Some (e, c') -> names_kept c c'.
Proof using.
  unfold upsert_edge. destruct (edge_ids c !! key) as [e'|].
  - destruct (accumulate_edge e' w c) as [c1|] eqn:Ha; [|done]. intros [= _ <-].
    apply accumulate_edge_inv in Ha as (? & _ & ->). by apply frame_kept.
  - destruct key as [[sid lid] oid]. intros Hp. pose proof (push_edge_other _ _ _ _ _ _ _ _ Hp) as (Hc & Hl & ->). by apply frame_kept.
Qed.

Lemma attribute_kept e s w p c c' : attribute e s w p c = Some c' -> names_kept c c'.
Proof using.
  unfold attribute. destruct (attribution_ids c !! (e, s)) as [t|].
  - destruct (tget (attributions c) t); [|done]. cbn [mbind option_bind]. destruct (tupd _ _ _); [|done]. intros [= <-]. by apply frame_kept.
  - intros Hp. apply push_attribution_inv in Hp as (? & _ & _ & T' & _ & ->). by apply frame_kept.
Qed.

Lemma upsert_kept s l o w src p c r c' : wf c -> valid_write s l o src p w -> upsert s l o w src p c = Some (r, c') -> names_kept c c'.
Proof using.
  intros Hwf [Hs Hl Ho Hsrc _ _]. unfold upsert. destruct (negb _); [done|]. destruct (ensure_room _ _ _ _ _); [|by intros [= _ <-]].
  destruct (intern_concept s c) as [[i1 c1]|] eqn:E1; cbn [mbind option_bind]; [|done].
  destruct (intern_concept o c1) as [[i2 c2]|] eqn:E2; cbn [mbind option_bind]; [|done].
  destruct (intern_label l c2) as [[i3 c3]|] eqn:E3; cbn [mbind option_bind]; [|done].
  destruct (intern_source_opt src c3) as [[i4 c4]|] eqn:E4; cbn [mbind option_bind]; [|done].
  destruct (upsert_edge _ _ c4) as [[e c5]|] eqn:E5; cbn [mbind option_bind]; [|done].
  destruct (match i4 with Some source_id => _ | None => _ end) as [c6|] eqn:E6; cbn [mbind option_bind]; [|done]. intros [= _ <-].
  pose proof (intern_concept_wf _ _ _ _ Hwf Hs E1) as W1. pose proof (intern_concept_wf _ _ _ _ W1 Ho E2) as W2.
  pose proof (intern_label_wf _ _ _ _ W2 Hl E3) as W3.
  etransitivity; [exact (intern_concept_kept _ _ _ _ Hwf Hs E1)|]. etransitivity; [exact (intern_concept_kept _ _ _ _ W1 Ho E2)|].
  etransitivity; [exact (intern_label_kept _ _ _ _ W2 Hl E3)|]. etransitivity; [exact (intern_source_kept _ _ _ _ W3 E4)|].
  etransitivity; [by eapply upsert_edge_kept|]. destruct i4; [by eapply attribute_kept | by injection E6 as <-].
Qed.

Lemma retract_edges_kept s ids : forall n c r c', retract_edges s ids n c = Some (r, c') -> names_kept c c'.
Proof using.
  induction ids as [|e ids IH]; intros n c r c'; cbn [retract_edges]; [by intros [= _ <-]|].
  destruct (retract_edge s e c) as [[hit c1]|] eqn:He; cbn [mbind option_bind]; [|done]. intros Hr. etransitivity; [|by eapply IH].
  unfold retract_edge in He. destruct (tget (edges c) e); [|done]. cbn [mbind option_bind] in He.
  destruct (find_claim _ _ _ _ _) as [[[[[prev cur] sum] count]|]|]; cbn [mbind option_bind] in He; [| |done]; [|by injection He as _ <-].
  destruct (tget (attributions c) cur); cbn [mbind option_bind] in He; [|done].
  destruct (tupd (edges c) _ _); cbn [mbind option_bind] in He; [|done].
  destruct (if prev =? NIL then _ else _); cbn [mbind option_bind] in He; [|done]. injection He as _ <-. by apply frame_kept.
Qed.

Lemma retract_source_kept s c r c' : retract_source s c = Some (r, c') -> names_kept c c'.
Proof using.
  unfold retract_source. destruct (source_ids c !! s) as [i|]; [|by intros [= _ <-]]. cbv zeta.
  destruct (retract_edges _ _ _ _) as [[n c1]|] eqn:Hr; cbn [mbind option_bind]; [|done]. intros [= _ <-].
  apply retract_edges_kept in Hr. destruct Hr as [H1 H2]. split; intros x; [exact (H1 x) | exact (H2 x)].
Qed.
End kept.

(** ** Types in a context *)

(** The concept has the type: a live fact says so. *)
Definition typed (fs : list Fact) (x t : name) : Prop :=
  exists f, f ∈ fs /\ is_live f /\ f_subject f = x /\ f_label f = SCHEMA_TYPE_LABEL /\ f_object f = t.

Lemma typed_cons f fs x t : typed (f :: fs) x t <->
  (is_live f /\ f_key f = (x, SCHEMA_TYPE_LABEL, t)) \/ typed fs x t.
Proof.
  unfold typed, f_key. split.
  - intros (g & [->|Hg]%elem_of_cons & Hl & <- & El & <-); [left; by rewrite El | right; by exists g].
  - intros [[Hl [= <- El <-]]|(g & Hg & Hrest)]; [exists f; split; [by left|done] | exists g; split; [by right|done]].
Qed.

Lemma typed_assert key src w p fs x t : typed (assert_fact key src w p fs) x t <-> typed fs x t \/ key = (x, SCHEMA_TYPE_LABEL, t).
Proof.
  induction fs as [|f fs IH]; cbn [assert_fact].
  - rewrite typed_cons. unfold f_key, is_live. destruct key as [[s l] o]. cbn. split.
    + intros [[_ Hk]|Hf]; [by right | by left].
    + intros [Hf|Hk]; [by right | by left].
  - destruct (decide (f_key f = key)) as [Hk|Hk]; rewrite !typed_cons.
    + assert (Hl : is_live (reassert src w p f)) by (unfold is_live; cbn; lia).
      change (f_key (reassert src w p f)) with (f_key f). rewrite Hk. naive_solver.
    + rewrite IH. tauto.
Qed.

(** Asserting a fact adds its key. *)
Lemma assert_keys key src w p fs k : k ∈ f_key <$> assert_fact key src w p fs <-> k ∈ f_key <$> fs \/ k = key.
Proof.
  induction fs as [|f fs IH]; cbn [assert_fact].
  - destruct key as [[s l] o]. cbn. unfold f_key. cbn. rewrite elem_of_cons. tauto.
  - destruct (decide (f_key f = key)) as [Hk|Hk]; rewrite !fmap_cons, !elem_of_cons.
    + change (f_key (reassert src w p f)) with (f_key f). rewrite Hk. tauto.
    + rewrite IH. tauto.
Qed.

(** The claim a retraction takes is the one the check subtracts. *)
Lemma find_source_filter n atts : find_source n atts = head (filter (fun a => att_source a = n) atts).
Proof.
  induction atts as [|a atts IH]; [done|]. cbn [find_source]. unfold has_source. rewrite filter_cons. case_bool_decide; case_decide; done.
Qed.

Lemma survives_live f retracted : survives_retraction (fact_association f) retracted = true <->
  is_live (match retracted with Some n => retract_source_fact n f | None => f end) .
Proof.
  unfold survives_retraction, is_live, retract_source_fact. cbn. destruct retracted as [n|].
  - rewrite find_source_filter. destruct (filter (fun a => att_source a = n) (f_attributions f)) as [|a l]; cbn [head]; unfold u64_saturating_sub.
    + destruct (N.eqb_spec (f_count f) 0); [done|]. rewrite N.ltb_lt. lia.
    + cbn [f_count]. destruct (N.eqb_spec (f_count f) 0) as [Hz|]; [split; [done|lia]|]. rewrite N.ltb_lt. lia.
  - destruct (N.eqb_spec (f_count f) 0); [done|]. by split.
Qed.

Lemma retract_source_fact_key n f : f_key (retract_source_fact n f) = f_key f.
Proof. unfold retract_source_fact. by destruct (find_source n (f_attributions f)). Qed.

Section types.
Context `{UnicodeTables}.

Lemma known_source c f a fs : wf c -> facts c = Some fs -> f ∈ fs -> a ∈ f_attributions f -> is_Some (source_ids c !! att_source a).
Proof using.
  intros Hwf Hfs Hf Ha. destruct (facts_elem c fs f Hfs Hf) as (i & Hi).
  apply fact_at_inv in Hi as (e & ids & _ & _ & _ & _ & _ & Hm%mapM_Some & _).
  apply list_elem_of_lookup in Ha as [k Hk]. destruct (Forall2_lookup_r _ _ _ _ _ Hm Hk) as (t & _ & Ht).
  unfold row_at in Ht. destruct (tget (attributions c) t) as [r|]; [|done]. cbn [mbind option_bind] in Ht. unfold attribution_of in Ht. cbn [snd fst] in Ht.
  destruct (source_name c (t_source r)) as [n|] eqn:Hn; [|done]. injection Ht as <-. cbn. rewrite (source_name_id Hwf _ _ Hn). by eexists.
Qed.

(** The retraction a write begins with. *)
Definition retraction (retracted_source : option name) (c : Context) : option Context :=
  match retracted_source with
  | None => Some c
  | Some source => '(_, c) ← retract_source source c; Some c
  end.

Lemma retraction_types retracted c c1 fs : wf c -> facts c = Some fs -> retraction retracted c = Some c1 ->
  wf c1 /\ names_kept c c1 /\ exists fs1, facts c1 = Some fs1 /\ forall x t, typed fs1 x t <->
    exists f, f ∈ fs /\ survives_retraction (fact_association f) retracted = true /\ f_key f = (x, SCHEMA_TYPE_LABEL, t).
Proof using.
  intros Hwf Hfs Hret.
  assert (Htyped : forall fs1, fs1 = (fun f => match retracted with Some n => retract_source_fact n f | None => f end) <$> fs ->
    forall x t, typed fs1 x t <-> exists f, f ∈ fs /\ survives_retraction (fact_association f) retracted = true /\ f_key f = (x, SCHEMA_TYPE_LABEL, t)).
  { intros fs1 -> x t. unfold typed. split.
    - intros (g & Hg & Hl & Hx & Hty & Ht). apply list_elem_of_fmap in Hg as (f & -> & Hf). exists f. split; [done|].
      split; [by apply survives_live|]. rewrite <- Hx, <- Hty, <- Ht.
      destruct retracted as [n|]; [by rewrite <- (retract_source_fact_key n f) | done].
    - intros (f & Hf & Hs & Hk). exists (match retracted with Some n => retract_source_fact n f | None => f end).
      split; [apply list_elem_of_fmap; by exists f|]. split; [by apply survives_live|].
      assert (Hk' : f_key (match retracted with Some n => retract_source_fact n f | None => f end) = (x, SCHEMA_TYPE_LABEL, t))
        by (destruct retracted as [n|]; [by rewrite retract_source_fact_key | done]).
      by injection Hk' as -> -> ->. }
  unfold retraction in Hret. destruct retracted as [n|].
  - destruct (retract_source n c) as [[r c']|] eqn:Hr; [|done]. cbn [mbind option_bind] in Hret. injection Hret as <-.
    pose proof (retract_source_kept _ _ _ _ Hr) as Hkept. destruct (source_ids c !! n) as [s|] eqn:Hs.
    + destruct (retract_source_known n s c fs Hwf Hs Hfs) as (c'' & Hr' & W & Hf & _). rewrite Hr in Hr'. injection Hr' as _ <-.
      split; [done|]. split; [done|]. eexists. split; [exact Hf|]. by apply Htyped.
    + unfold retract_source in Hr. rewrite Hs in Hr. injection Hr as _ <-. split; [done|]. split; [done|]. exists fs. split; [done|].
      apply Htyped. symmetry. rewrite <- (list_fmap_id fs) at 2. apply list_fmap_ext. intros i f Hi. apply list_elem_of_lookup_2 in Hi.
      unfold retract_source_fact. rewrite find_source_filter. destruct (filter _ _) as [|a l] eqn:Hfl; [done|]. exfalso.
      assert (Ha : a ∈ filter (fun a => att_source a = n) (f_attributions f)) by (rewrite Hfl; by left).
      apply list_elem_of_filter in Ha as [<- Ha]. destruct (known_source c f a fs Hwf Hfs Hi Ha) as [? ?]. congruence.
  - injection Hret as <-. split; [done|]. split; [done|]. exists fs. split; [done|]. apply Htyped. by rewrite list_fmap_id.
Qed.

Lemma upsert_Ok_facts s l o w src p c u c' fs : wf c -> valid_write s l o src p w -> spelling_room c -> count_room s l o c ->
  upsert s l o w src p c = Some (Ok u, c') -> facts c = Some fs ->
  facts c' = Some (assert_fact (canon_concept c s, canon_label c l, canon_concept c o) src w p fs).
Proof using.
  intros Hwf Hv [R1 R2] Hc Hu Hfs. destruct (index_spans c Hwf) as [E1 E2].
  destruct (ensure_room s l o src c) as [[]|e] eqn:Hok.
  - destruct (upsert_facts s l o src p w c fs Hwf Hv) as (c'' & Hu' & Hf); [split; lia|done|done|done|]. rewrite Hu in Hu'. by injection Hu' as _ <-.
  - unfold upsert in Hu. rewrite (vw_weight _ _ _ _ _ _ Hv), Hok in Hu. done.
Qed.

(** The key an operation asserts. *)
Definition op_key (c : Context) (op : AssocOp) : name * name * name :=
  (canon_concept c (ao_subject op), canon_label c (ao_label op), canon_concept c (ao_object op)).

(** The types, and the keys, a batch of associations adds. *)
Lemma apply_types ops : forall m c fs n c', wf c -> facts c = Some fs -> ops_ok (Associate <$> ops) c ->
  apply_loop (Associate <$> ops) m c = Some (Ok n, c') ->
  wf c' /\ names_kept c c' /\ exists fs', facts c' = Some fs' /\
    (forall x t, typed fs' x t <-> typed fs x t \/ exists op, op ∈ ops /\ op_key c op = (x, SCHEMA_TYPE_LABEL, t)) /\
    forall k, k ∈ f_key <$> fs \/ (exists op, op ∈ ops /\ k = op_key c op) -> k ∈ f_key <$> fs'.
Proof using.
  induction ops as [|op ops IH]; intros m c fs n c' Hwf Hfs Hok Hrun.
  { injection Hrun as _ <-. split; [done|]. split; [done|]. exists fs. split; [done|].
    split; [|by intros k [|(op & ?%not_elem_of_nil & _)]].
    intros x t. split; [by left|]. by intros [|(op & ?%not_elem_of_nil & _)]. }
  cbn [fmap list_fmap apply_loop] in Hrun. cbn [fmap list_fmap ops_ok] in Hok. destruct Hok as [Hop Hrest].
  destruct (apply_op_returns (Associate op) c Hwf Hop) as (r & c1 & Hr & W1 & _). rewrite Hr in Hrest, Hrun.
  cbn [mbind option_bind] in Hrun. destruct r as [u|[message full]]; [|done]. destruct Hop as (Hv & Hroom & Hcount).
  assert (Hstep : exists p u', upsert (ao_subject op) (ao_label op) (ao_object op) (ao_weight op) (ao_source op) p c = Some (Ok u', c1) /\
    valid_write (ao_subject op) (ao_label op) (ao_object op) (ao_source op) p (ao_weight op)).
  { cbn [apply_op] in Hr. destruct (ao_source op) as [src|]; [exists (ao_paragraph op) | exists None]; unfold associate_from, associate in Hr;
      destruct (upsert _ _ _ _ _ _ _) as [[[u'|e] c1']|]; try done; injection Hr as _ <-; by exists u'. }
  destruct Hstep as (p & u' & Hu & Hv'). pose proof (upsert_kept _ _ _ _ _ _ _ _ _ Hwf Hv' Hu) as [K1 K2].
  pose proof (upsert_Ok_facts _ _ _ _ _ _ _ _ _ fs Hwf Hv' Hroom Hcount Hu Hfs) as Hf1.
  destruct (IH (m + 1) c1 _ n c' W1 Hf1 Hrest Hrun) as (Hw & Hkept & fs' & Hfs' & Hty & Hkeys).
  assert (Hkey : forall op, op_key c1 op = op_key c op) by (intros op'; unfold op_key; by rewrite !K1, K2).
  split; [done|]. split; [etransitivity; [by split|done]|]. exists fs'. split; [done|]. split.
  - intros x t. rewrite Hty, typed_assert. split.
    + intros [[|Hk]|(op' & Hin & Hk)]; [by left | right; exists op; split; [by left|exact Hk] |].
      right. exists op'. split; [by right | by rewrite <- Hkey].
    + intros [|(op' & [->|Hin]%elem_of_cons & Hk)]; [by left; left | left; right; exact Hk |].
      right. exists op'. split; [done | by rewrite Hkey].
  - intros k Hk. apply Hkeys. rewrite assert_keys.
    destruct Hk as [|(op' & [->|Hin]%elem_of_cons & ->)]; [by left; left | left; by right | right; exists op'; by rewrite Hkey].
Qed.

(** The names of an operation that applied are known. *)
Lemma applied_known ops m c fs n c' op : wf c -> facts c = Some fs -> ops_ok (Associate <$> ops) c ->
  apply_loop (Associate <$> ops) m c = Some (Ok n, c') -> op ∈ ops ->
  is_Some (concept_ids c' !! ao_subject op) /\ is_Some (label_ids c' !! ao_label op) /\ is_Some (concept_ids c' !! ao_object op).
Proof using.
  intros Hwf Hfs Hok Hrun Hop. destruct (apply_types ops m c fs n c' Hwf Hfs Hok Hrun) as (W & [K1 K2] & fs' & Hfs' & _ & Hkeys).
  assert (Hk : op_key c op ∈ f_key <$> fs') by (apply Hkeys; right; by exists op).
  apply list_elem_of_fmap in Hk as (f & Hk & Hf). destruct (facts_elem c' fs' f Hfs' Hf) as (e & He).
  apply fact_at_inv in He as (edge & _ & _ & Hs & Hl & Ho & _). unfold op_key, f_key in Hk. rewrite <- !K1, <- K2 in Hk. injection Hk as Es El Eo.
  assert (Hc : forall s i, concept_name c' i = Some (canon_concept c' s) -> is_Some (concept_ids c' !! s)).
  { intros s i Hi. destruct (concept_ids c' !! s) eqn:Hid; [by eexists|]. unfold canon_concept, canonical in Hi. rewrite Hid in Hi.
    pose proof (concept_name_id W _ _ Hi). congruence. }
  assert (Hlab : forall s i, label_name c' i = Some (canon_label c' s) -> is_Some (label_ids c' !! s)).
  { intros s i Hi. destruct (label_ids c' !! s) eqn:Hid; [by eexists|]. unfold canon_label, canonical in Hi. rewrite Hid in Hi.
    pose proof (label_name_id W _ _ Hi). congruence. }
  split; [apply (Hc _ (e_subject edge)) | split; [apply (Hlab _ (e_label edge)) | apply (Hc _ (e_object edge))]]; congruence.
Qed.
End types.

(** ** The aliases a batch declares *)

Section batch_aliases.
Context `{UnicodeTables} (S : AliasSpace).

(** A spelling's canonical name in the space. *)
Definition space_canon (c : Context) (s : name) : name := canonical (an_ids (as_handle c)) (as_name c) s.

(** Every id has a name. *)
Definition named (c : Context) : Prop := forall s i, an_ids (as_handle c) !! s = Some i -> is_Some (as_name c i).

(** The aliases [l] were declared: known names stand, and each alias means what its
    canonical does. *)
Record renamed (l : list (name * name)) (c c' : Context) : Prop := {
  rn_named : named c';
  rn_known : forall s, is_Some (an_ids (as_handle c) !! s) -> is_Some (an_ids (as_handle c') !! s) /\ space_canon c' s = space_canon c s;
  rn_other : forall s, (forall n, (s, n) ∈ l -> n = s) -> space_canon c' s = space_canon c s;
  rn_pair : forall a n, (a, n) ∈ l -> space_canon c' a = space_canon c' n;
  rn_facts : forall fs, facts c = Some fs -> facts c' = Some fs;
  rn_arena : exists x, arena c' = arena c ++ x
}.

Lemma add_space_alias_renamed a n c u c' : named c -> add_space_alias S a n c = Some (Ok u, c') ->
  renamed [(a, n)] c c' /\ is_Some (an_ids (as_handle c') !! a) /\ is_Some (an_ids (as_handle c') !! n).
Proof using.
  intros Hn. unfold add_space_alias, add_alias. destruct (an_ids (as_handle c) !! n) as [t|] eqn:Ht; [|done].
  destruct (an_ids (as_handle c) !! a) as [t'|] eqn:Ha.
  { destruct (N.eqb_spec t' t) as [->|]; [|done]. cbn [mbind option_bind]. rewrite as_put_id. intros [= _ <-]. rewrite Ht, Ha. split; [|done].
    split; [done|done|done| |done|exists []; by rewrite app_nil_r]. intros b m [= -> ->]%list_elem_of_singleton. 
    destruct (Hn _ _ Ht) as [k Hk]. unfold space_canon, canonical. by rewrite Ht, Ha, Hk. }
  destruct (negb _); [done|]. destruct (negb _); [done|].
  destruct (intern_name (arena c) a) as [x|] eqn:Hx; [|done]. apply intern_name_inv in Hx as [-> _]. cbn [mbind option_bind].
  destruct (ei_push _ _ _) as [idx|]; [|done]. cbn [mbind option_bind]. set (h := {| an_aliases := _; an_ids := _ |}). intros [= _ <-].
  set (c' := as_put _ h _ c).
  assert (Hids : an_ids (as_handle c') = <[a := t]> (an_ids (as_handle c))) by (unfold c'; by rewrite as_put_handle).
  assert (Hname : forall i m, as_name c i = Some m -> as_name c' i = Some m).
  { intros i m. unfold c'. rewrite !as_name_spec, as_put_records, as_put_arena. apply (name_lookup_arena fst snd). }
  destruct (Hn _ _ Ht) as [m Hm]. rewrite Hids, lookup_insert_eq.
  assert (Hstand : forall s, is_Some (an_ids (as_handle c) !! s) -> is_Some (an_ids (as_handle c') !! s) /\ space_canon c' s = space_canon c s).
  { intros s [i Hi]. assert (s <> a) by congruence. unfold space_canon, canonical. rewrite Hids, lookup_insert_ne, Hi by done.
    split; [done|]. destruct (Hn _ _ Hi) as [k Hk]. by rewrite Hk, (Hname _ _ Hk). }
  assert (Hna : n <> a) by congruence. split; [|rewrite lookup_insert_ne by done; by rewrite Ht].
  split; [|exact Hstand| | | |].
  - intros s i. rewrite Hids. intros [[_ <-]|[_ Hi]]%lookup_insert_Some.
    + exists m. by apply Hname.
    + destruct (Hn _ _ Hi) as [k Hk]. exists k. by apply Hname.
  - intros s Hs. destruct (decide (s = a)) as [->|Hsa]; [by destruct Hna; apply Hs, list_elem_of_singleton|].
    destruct (an_ids (as_handle c) !! s) as [i|] eqn:Hi; [by apply Hstand; rewrite Hi|].
    unfold space_canon, canonical. by rewrite Hids, lookup_insert_ne, Hi by done.
  - intros b k [= -> ->]%list_elem_of_singleton. unfold space_canon, canonical. by rewrite Hids, lookup_insert_eq, lookup_insert_ne, Ht, (Hname _ _ Hm) by done.
  - intros fs Hfs. apply facts_lookup in Hfs as [Hlen Hget]. apply facts_intro; [unfold c'; by rewrite as_put_edges|].
    intros i f Hi. apply as_put_facts. rewrite <- Hget; [done|]. rewrite <- Hlen. by eapply tget_Some_lt.
  - exists a. apply as_put_arena.
Qed.

Lemma apply_aliases_renamed l : forall c c', named c -> apply_aliases S l c = Some (Ok tt, c') -> renamed l c c'.
Proof using.
  induction l as [|[a n] l IH]; intros c c' Hn; cbn [apply_aliases].
  { intros [= <-]. split; [done|done|done| |done|exists []; by rewrite app_nil_r]. by intros ? ? ?%not_elem_of_nil. }
  destruct (add_space_alias S a n c) as [[[u|e] c1]|] eqn:Ha; [|done..]. cbn [mbind option_bind]. intros Hrun.
  destruct (add_space_alias_renamed a n c u c1 Hn Ha) as ([N1 K1 O1 P1 F1 [x A1]] & Ka & Kn). destruct (IH _ _ N1 Hrun) as [N2 K2 O2 P2 F2 [y A2]].
  split; [done| | | |by eauto|].
  - intros s Hs. destruct (K1 s Hs) as [Hs1 E1]. destruct (K2 s Hs1) as [Hs2 E2]. split; [done | by rewrite E2].
  - intros s Hs. rewrite O2, O1; [done| |]; [intros m [= -> ->]%list_elem_of_singleton; apply Hs; by left | intros m Hm; apply Hs; by right].
  - intros b m [[= -> ->]|Hin]%elem_of_cons; [|by apply P2]. rewrite (proj2 (K2 _ Ka)), (proj2 (K2 _ Kn)). apply P1. by left.
  - exists (x ++ y). by rewrite A2, A1, app_assoc.
Qed.

(** The logged operations register the aliases. *)
Lemma apply_loop_aliases (mk : name -> name -> WalOp) l :
  (forall a n c u c', apply_op (mk a n) c = Some (Ok u, c') -> exists v, add_space_alias S a n c = Some (Ok v, c')) ->
  forall m c k c', apply_loop ((fun p => mk p.1 p.2) <$> l) m c = Some (Ok k, c') -> apply_aliases S l c = Some (Ok tt, c').
Proof using.
  intros Hmk. induction l as [|[a n] l IH]; intros m c k c'; cbn [fmap list_fmap apply_loop apply_aliases fst snd]; [by intros [= _ <-]|].
  destruct (apply_op (mk a n) c) as [[[u|[? ?]] c1]|] eqn:Ho; cbn [mbind option_bind]; [|done..].
  destruct (Hmk _ _ _ _ _ Ho) as [v ->]. cbn [mbind option_bind]. apply IH.
Qed.

(** What the space does not hold stays. *)
Lemma apply_aliases_other {B} (other : Context -> B) l : (forall a h k c, other (as_put a h k c) = other c) ->
  forall c r c', apply_aliases S l c = Some (r, c') -> other c' = other c.
Proof using.
  intros Ho. induction l as [|[a n] l IH]; intros c r c'; cbn [apply_aliases]; [by intros [= _ <-]|].
  unfold add_space_alias. destruct (add_alias _ _ _ _ _) as [[r1 [ar h]]|]; [|done]. cbn [mbind option_bind].
  destruct r1; [intros Hr; by rewrite (IH _ _ _ Hr), Ho | intros [= _ <-]; apply Ho].
Qed.
End batch_aliases.

(** The operations of [add_aliases]: the concepts, then the labels. *)
Definition alias_ops (cs ls : gmap name name) : list WalOp :=
  ((fun p => AliasConcept p.1 p.2) <$> btree_iter cs) ++ ((fun p => AliasLabel p.1 p.2) <$> btree_iter ls).

Lemma apply_loop_app `{UnicodeTables} ops1 ops2 : forall m c k c', apply_loop (ops1 ++ ops2) m c = Some (Ok k, c') ->
  exists m1 c1, apply_loop ops1 m c = Some (Ok m1, c1) /\ apply_loop ops2 m1 c1 = Some (Ok k, c').
Proof.
  induction ops1 as [|op ops1 IH]; intros m c k c'; cbn [app apply_loop]; [by exists m, c|].
  destruct (apply_op op c) as [[[u|[? ?]] c1]|]; cbn [mbind option_bind]; [apply IH | done..].
Qed.

(** What a batch's aliases leave of the names its operations used. *)
Record redeclared (ls : gmap name name) (c c' : Context) : Prop := {
  rd_concept : forall s, is_Some (concept_ids c !! s) -> canon_concept c' s = canon_concept c s;
  rd_label : forall s, is_Some (label_ids c !! s) -> canon_label c' s = canon_label c s;
  rd_other : forall s, (forall n, ls !! s = Some n -> n = s) -> canon_label c' s = canon_label c s;
  rd_pair : forall a n, ls !! a = Some n -> canon_label c' a = canon_label c' n;
  rd_facts : forall fs, facts c = Some fs -> facts c' = Some fs
}.

(** What one space registers leaves the other's names. *)
Lemma label_names_stand `{UnicodeTables} l c r c' x : wf c -> apply_aliases concept_space l c = Some (r, c') -> arena c' = arena c ++ x ->
  named label_space c' /\ label_ids c' = label_ids c /\ forall s, canon_label c' s = canon_label c s.
Proof.
  intros Hwf Hrun Ha. pose proof (apply_aliases_other concept_space label_ids l ltac:(done) _ _ _ Hrun) as E1.
  pose proof (apply_aliases_other concept_space labels l ltac:(done) _ _ _ Hrun) as E2.
  assert (Hname : forall s i, label_ids c !! s = Some i -> exists n, label_name c i = Some n /\ label_name c' i = Some n).
  { intros s i Hi. destruct (label_name_total Hwf i) as [n Hn]; [by eapply label_id_lt|]. exists n. split; [done|]. revert Hn.
    unfold label_name, arena_str. rewrite E2, Ha. apply (name_lookup_arena l_name_offset l_name_len). }
  split; [|split; [done|]].
  - intros s i. cbn [as_handle label_space label_handle an_ids as_name]. rewrite E1. intros Hi. destruct (Hname _ _ Hi) as (n & _ & Hn). by exists n.
  - intros s. unfold canon_label, canonical. rewrite E1. destruct (label_ids c !! s) as [i|] eqn:Hi; [|done].
    by destruct (Hname _ _ Hi) as (n & -> & ->).
Qed.

Lemma concept_names_stand `{UnicodeTables} l c r c' x : named concept_space c -> apply_aliases label_space l c = Some (r, c') ->
  arena c' = arena c ++ x -> forall s, canon_concept c' s = canon_concept c s.
Proof.
  intros Hn Hrun Ha s. pose proof (apply_aliases_other label_space concept_ids l ltac:(done) _ _ _ Hrun) as E1.
  pose proof (apply_aliases_other label_space concepts l ltac:(done) _ _ _ Hrun) as E2.
  unfold canon_concept, canonical. rewrite E1. destruct (concept_ids c !! s) as [i|] eqn:Hi; [|done].
  destruct (Hn s i Hi) as [n Hname]. cbn [as_name concept_space] in Hname. rewrite Hname.
  assert (Hname' : concept_name c' i = Some n); [|by rewrite Hname'].
  revert Hname. unfold concept_name, arena_str. rewrite E2, Ha. apply (name_lookup_arena c_name_offset c_name_len).
Qed.

Lemma alias_ops_redeclared `{UnicodeTables} cs ls c k c' : wf c -> apply_in_order (alias_ops cs ls) c = Some (Ok k, c') ->
  redeclared ls c c'.
Proof.
  intros Hwf Hrun. destruct (apply_loop_app _ _ _ _ _ _ Hrun) as (m & c1 & H1 & H2).
  apply (apply_loop_aliases concept_space AliasConcept) in H1; [|intros a n c0 u c0'; cbn [apply_op]; unfold add_concept_alias;
    destruct (add_space_alias _ _ _ _) as [[[v|e] c2]|]; [intros [= _ <-]; by exists v | done..]].
  apply (apply_loop_aliases label_space AliasLabel) in H2; [|intros a n c0 u c0'; cbn [apply_op]; unfold add_label_alias;
    destruct (add_space_alias _ _ _ _) as [[[v|e] c2]|]; [intros [= _ <-]; by exists v | done..]].
  assert (Hn : named concept_space c) by (intros s i Hi; destruct (concept_name_total Hwf i) as [n Hn]; [by eapply concept_id_lt | by exists n]).
  destruct (apply_aliases_renamed concept_space _ _ _ Hn H1) as [N1 K1 _ _ F1 [x A1]].
  destruct (label_names_stand _ _ _ _ _ Hwf H1 A1) as (N2 & E2 & L2).
  destruct (apply_aliases_renamed label_space _ _ _ N2 H2) as [_ K2 O2 P2 F2 [y A2]].
  pose proof (concept_names_stand _ _ _ _ _ N1 H2 A2) as C2.
  assert (Hl : forall s, canon_label c' s = canon_label c1 s -> canon_label c' s = canon_label c s) by (intros s ->; apply L2).
  split; [| | | |by eauto].
  - intros s Hs. rewrite C2. apply K1. exact Hs.
  - intros s Hs. apply Hl, K2. cbn [as_handle label_space label_handle an_ids]. by rewrite E2.
  - intros s Hs. apply Hl, O2. intros n Hin%elem_of_btree_iter. by apply Hs.
  - intros a n Hin%elem_of_btree_iter. by apply P2.
Qed.

(** ** The environment *)

Lemma assert_fold {A} (p : A -> bool) (k v : A -> name) rows : forall (m : gmap name (gset name)) x t,
  t ∈ default ∅ (foldl (fun m a => if p a then assert_type m (k a) (v a) else m) m rows !! x) <->
  t ∈ default ∅ (m !! x) \/ exists a, a ∈ rows /\ p a = true /\ k a = x /\ v a = t.
Proof.
  induction rows as [|a rows IH]; intros m x t; cbn [foldl].
  { split; [by left|]. by intros [|(a & ?%not_elem_of_nil & _)]. }
  rewrite IH. setoid_rewrite elem_of_cons. destruct (p a) eqn:Hp.
  - unfold assert_type. destruct (decide (k a = x)) as [<-|Hne].
    + rewrite lookup_insert_eq. cbn [default from_option id]. rewrite elem_of_union, elem_of_singleton. split.
      * intros [[->|Ht]|(b & Hb & Hrest)]; [right; exists a; by auto | by left | right; exists b; by auto].
      * intros [Ht|(b & [->|Hb] & Hpb & Hk & Hv)]; [by left; right | by left; left | right; exists b; by auto].
    + rewrite lookup_insert_ne by done. split.
      * intros [Ht|(b & Hb & Hrest)]; [by left | right; exists b; by auto].
      * intros [Ht|(b & [->|Hb] & Hpb & Hk & Hv)]; [by left | done | right; exists b; by auto].
  - split.
    + intros [Ht|(b & Hb & Hrest)]; [by left | right; exists b; by auto].
    + intros [Ht|(b & [->|Hb] & Hpb & Hrest)]; [by left | congruence | right; exists b; by auto].
Qed.

(** Each key maps to its value. *)
Definition valued (val : name -> name) (m : gmap name name) : Prop := forall l v, m !! l = Some v -> v = val l.

Lemma or_insert_fold {A} (key : A -> name) (val : name -> name) rows : forall m : gmap name name, valued val m ->
  let m' := foldl (fun m a => or_insert (key a) (val (key a)) m) m rows in
  m ⊆ m' /\ valued val m' /\ forall a, a ∈ rows -> m' !! key a = Some (val (key a)).
Proof.
  induction rows as [|a rows IH]; intros m Hm; cbn [foldl]; [split; [done|]; split; [done|]; by intros a ?%not_elem_of_nil|].
  assert (Hs : m ⊆ or_insert (key a) (val (key a)) m /\ valued val (or_insert (key a) (val (key a)) m) /\
    or_insert (key a) (val (key a)) m !! key a = Some (val (key a))).
  { unfold or_insert. destruct (m !! key a) as [v|] eqn:Hv; [by rewrite Hv, (Hm _ _ Hv)|].
    split; [by apply insert_subseteq|]. split; [|apply lookup_insert_eq].
    intros l w [[<- <-]|[_ Hl]]%lookup_insert_Some; [done | by apply Hm]. }
  destruct Hs as (Hsub & Hval & Hget). destruct (IH _ Hval) as (Hsub' & Hval' & Hall). split; [by etrans|]. split; [done|].
  intros b [->|Hb]%elem_of_cons; [by eapply lookup_weaken | by apply Hall].
Qed.

Section env.
Context `{UnicodeTables} (c : Context) (Hwf : wf c).

Lemma canon_concept_canon s : canon_concept c (canon_concept c s) = canon_concept c s.
Proof using Hwf.
  unfold canon_concept, canonical at 2 3. destruct (concept_ids c !! s) as [i|] eqn:Hs; [|unfold canonical; by rewrite Hs].
  destruct (concept_name_total Hwf i) as [n Hn]; [by eapply concept_id_lt|]. rewrite Hn. cbn.
  unfold canonical. by rewrite (concept_name_id Hwf _ _ Hn), Hn.
Qed.

Lemma canon_concepts_spec ops : exists m, canon_concepts c ops = Some m /\
  forall op, op ∈ ops -> canon_in m (ao_subject op) = canon_concept c (ao_subject op) /\ canon_in m (ao_object op) = canon_concept c (ao_object op).
Proof using Hwf.
  unfold canon_concepts.
  assert (Hfold : forall names m, valued (canon_concept c) m -> exists m', foldM (canon_spelling c) names m = Some m' /\ m ⊆ m' /\
    valued (canon_concept c) m' /\ forall s, s ∈ names -> m' !! s = Some (canon_concept c s)).
  { induction names as [|s names IH]; intros m Hm; cbn [foldM]; [exists m; split; [done|]; split; [done|]; split; [done|]; by intros s ?%not_elem_of_nil|].
    assert (Hs : exists m1, canon_spelling c m s = Some m1 /\ m ⊆ m1 /\ valued (canon_concept c) m1 /\ m1 !! s = Some (canon_concept c s)).
    { unfold canon_spelling. destruct (m !! s) as [v|] eqn:Hv; [exists m; by rewrite Hv, (Hm _ _ Hv)|].
      exists (<[s := canon_concept c s]> m). split; [|split; [by apply insert_subseteq|]; split; [|apply lookup_insert_eq]].
      - unfold canonical_concept, canon_concept, canonical. destruct (concept_ids c !! s) as [i|] eqn:Hi; [|done].
        destruct (concept_name_total Hwf i) as [n Hn]; [by eapply concept_id_lt|]. by rewrite Hn.
      - intros l v [[<- <-]|[_ Hl]]%lookup_insert_Some; [done | by apply Hm]. }
    destruct Hs as (m1 & -> & Hsub & Hval & Hget). cbn [mbind option_bind]. destruct (IH m1 Hval) as (m' & -> & Hsub' & Hval' & Hall).
    exists m'. split; [done|]. split; [by etrans|]. split; [done|]. intros n [->|Hn]%elem_of_cons; [by eapply lookup_weaken | by apply Hall]. }
  destruct (Hfold (flat_map (fun op => [ao_subject op; ao_object op]) ops) ∅) as (m & -> & _ & _ & Hall); [by intros l v ?%lookup_empty_Some|].
  exists m. split; [done|]. intros op Hop. unfold canon_in.
  rewrite !Hall; [done | apply elem_of_flat_map; exists op; split; [done|by right; left] | apply elem_of_flat_map; exists op; split; [done|by left]].
Qed.

Lemma label_name_canonical ns al i n : ns_ok (arena c) (l_range <$> labels c) (a_entry <$> label_aliases c) (label_ids c) ns al ->
  label_name c i = Some n -> n ∈ ns.
Proof using.
  intros Hn Hname. unfold label_name in Hname. destruct (tget (labels c) i) as [rec|] eqn:Hrec; [|done].
  destruct (ns_name_at Hn i (l_range rec)) as (n2 & Hn2 & Hns); [by rewrite tget_fmap, Hrec|].
  cbn [mbind option_bind] in Hname. unfold arena_str in Hname. unfold l_range in Hn2. cbn [fst snd] in Hn2.
  rewrite Hname in Hn2. injection Hn2 as <-. rewrite tget_lookup in Hns. by eapply list_elem_of_lookup_2.
Qed.

(** The live aliases map each alias to its label's name. *)
Lemma label_pairs pairs ns al : ns_ok (arena c) (l_range <$> labels c) (a_entry <$> label_aliases c) (label_ids c) ns al ->
  alias_pairs label_space c = Some pairs ->
  (forall a n, (a, n) ∈ pairs -> a ∈ al /\ n ∈ ns /\ canon_label c a = n) /\ forall a, a ∈ al -> a ∈ pairs.*1.
Proof using Hwf.
  intros Hn Hp. unfold alias_pairs in Hp. apply mapM_Some in Hp. cbn [as_handle label_space an_aliases label_handle as_name] in Hp.
  assert (Hrow : forall j r p, label_aliases c !! j = Some r -> pairs !! j = Some p -> al !! j = Some p.1 /\ label_name c (a_target r) = Some p.2).
  { intros j r [a n] Hr Hj. cbn [fst snd].
    assert (Hr' : tget (a_entry <$> label_aliases c) (N.of_nat j) = Some (a_entry r)) by (by rewrite tget_lookup, Nat2N.id, list_lookup_fmap, Hr).
    destruct (ns_alias_name_at Hn _ _ Hr') as (a' & Ha & Hal). rewrite tget_lookup, Nat2N.id in Hal. cbn [a_entry fst snd] in Ha.
    pose proof (Forall2_lookup_lr _ _ _ _ _ _ Hp Hr Hj) as Hra. cbn beta in Hra. rewrite Ha in Hra. cbn [mbind option_bind] in Hra.
    destruct (label_name c (a_target r)) as [n'|]; [|done]. by injection Hra as -> ->. }
  split.
  - intros a n Hin. apply list_elem_of_lookup in Hin as [j Hj]. destruct (Forall2_lookup_r _ _ _ _ _ Hp Hj) as (r & Hr & _).
    destruct (Hrow j r _ Hr Hj) as [Hal Hname]. cbn [fst snd] in *. split; [by eapply list_elem_of_lookup_2|].
    split; [by eapply label_name_canonical|].
    assert (Hid : label_ids c !! a = Some (a_target r)).
    { apply (ns_lookup Hn). right. exists (N.of_nat j). by rewrite !tget_lookup, Nat2N.id, !list_lookup_fmap, Hr. }
    unfold canon_label, canonical. by rewrite Hid, Hname.
  - intros a Ha. apply list_elem_of_lookup in Ha as [j Hj].
    assert (Hr : is_Some (label_aliases c !! j)).
    { apply lookup_lt_is_Some. apply lookup_lt_Some in Hj. pose proof (ns_al_length Hn) as Hl. rewrite !length_fmap in Hl. lia. }
    destruct Hr as [r Hr]. destruct (Forall2_lookup_l _ _ _ _ _ Hp Hr) as (p & Hpj & _). destruct (Hrow j r p Hr Hpj) as [Hal _].
    rewrite Hj in Hal. injection Hal as ->. apply list_elem_of_fmap. exists p. split; [done|]. by eapply list_elem_of_lookup_2.
Qed.

(** A label is a live alias when its canonical name is another. *)
Lemma live_canon pairs s : alias_pairs label_space c = Some pairs ->
  (list_to_map pairs : gmap name name) !! s = if decide (canon_label c s = s) then None else Some (canon_label c s).
Proof using Hwf.
  intros Hp. destruct (wf_labels _ Hwf) as (ns & al & [Hn _ _] & _). pose proof (ns_unique _ _ _ _ _ _ Hn) as Hu.
  apply NoDup_app in Hu as (_ & Hdis & _). destruct (label_pairs pairs ns al Hn Hp) as [Hpair Hall].
  destruct ((list_to_map pairs : gmap name name) !! s) as [n|] eqn:Hs.
  - apply elem_of_list_to_map_2 in Hs. destruct (Hpair _ _ Hs) as (Hal & Hns & Hc). rewrite Hc. case_decide as Hns'; [rewrite Hns' in Hns; by destruct (Hdis s Hns)|done].
  - apply not_elem_of_list_to_map_2 in Hs. case_decide as Hc; [done|]. exfalso. apply Hc. unfold canon_label, canonical.
    destruct (label_ids c !! s) as [i|] eqn:Hi; [|done].
    destruct (label_name_total Hwf i) as [n Hname]; [by eapply label_id_lt|]. rewrite Hname. cbn.
    pose proof (label_name_id Hwf _ _ Hname) as Hcan. apply (ns_lookup Hn) in Hi as [Hi|(j & Hj & _)].
    + apply (ns_lookup Hn) in Hcan as [Hc'|(j & Hj & _)]; [congruence|].
      destruct (Hdis n); [by eapply label_name_canonical | rewrite tget_lookup in Hj; by eapply list_elem_of_lookup_2].
    + destruct Hs. apply Hall. rewrite tget_lookup in Hj. by eapply list_elem_of_lookup_2.
Qed.

(** One hop of a label: through the batch's own aliases first, then the live ones. *)
Definition alias_hop (declared : gmap name name) (a b : name) : Prop :=
  b <> a /\ (declared !! a = Some b \/ (declared !! a = None /\ canon_label c a = b)).

(** Within four hops, the label comes to a name the batch does not redirect and the
    graph holds for its own. *)
Definition alias_settles (declared : gmap name name) (l : name) : Prop := exists k r,
  (k <= 4)%nat /\ nsteps (alias_hop declared) k l r /\ (forall n, declared !! r = Some n -> n = r) /\ canon_label c r = r.

Lemma canon_label_canon s : canon_label c (canon_label c s) = canon_label c s.
Proof using Hwf.
  unfold canon_label, canonical at 2 3. destruct (label_ids c !! s) as [i|] eqn:Hs; [|unfold canonical; by rewrite Hs].
  destruct (label_name_total Hwf i) as [n Hn]; [by eapply label_id_lt|]. rewrite Hn. cbn.
  unfold canonical. by rewrite (label_name_id Hwf _ _ Hn), Hn.
Qed.

(** Declaring no label, every label settles. *)
Lemma undeclared_settles l : alias_settles ∅ l.
Proof using Hwf.
  assert (Hr : forall r n : name, (∅ : gmap name name) !! r = Some n -> n = r) by (intros r n; by rewrite lookup_empty).
  destruct (decide (canon_label c l = l)) as [Hl|Hl].
  - exists 0%nat, l. split; [lia|]. split; [constructor|]. split; [apply Hr | done].
  - exists 1%nat, (canon_label c l). split; [lia|]. split; [|split; [apply Hr | apply canon_label_canon]].
    apply nsteps_once. split; [done|]. right. by rewrite lookup_empty.
Qed.

Lemma resolve_hops_settles pairs declared r : alias_pairs label_space c = Some pairs ->
  (forall n, declared !! r = Some n -> n = r) -> canon_label c r = r ->
  forall k l hops, (k <= hops)%nat -> nsteps (alias_hop declared) k l r -> resolve_hops hops (list_to_map pairs) declared l = r.
Proof using Hwf.
  intros Hp Hd Hr. induction k as [|k IH]; intros l hops Hle Hst.
  - inversion Hst; subst. destruct hops as [|hops]; [done|]. cbn [resolve_hops]. destruct (declared !! r) as [n|].
    + rewrite (Hd n) by done. by rewrite bool_decide_eq_true_2.
    + by rewrite (live_canon pairs r Hp), decide_True.
  - destruct hops as [|hops]; [lia|]. inversion Hst as [|? ? b ? [Hne Hb] Hst']; subst. cbn [resolve_hops].
    assert (Hnext : match declared !! l with Some next => Some next | None => (list_to_map pairs : gmap name name) !! l end = Some b).
    { destruct Hb as [->|[-> <-]]; [done|]. by rewrite (live_canon pairs l Hp), decide_False. }
    rewrite Hnext, bool_decide_eq_false_2 by done. apply IH; [lia|done].
Qed.
(** A hop keeps what the label means once the batch is applied. *)
Lemma alias_hop_canon declared c2 c3 a b : wf c2 -> names_kept c c2 -> redeclared declared c2 c3 -> alias_hop declared a b ->
  canon_label c3 a = canon_label c3 b.
Proof using Hwf.
  intros W2 [_ K] [_ Rl _ Rp _] [Hne [Hd|[_ Hb]]]; [by apply Rp|].
  rewrite <- K in Hb. destruct (label_ids c2 !! a) as [i|] eqn:Hi; [|unfold canon_label, canonical in Hb; by rewrite Hi in Hb].
  rewrite (Rl a) by (by rewrite Hi). destruct (label_name_total W2 i) as [n Hn]; [by eapply label_id_lt|].
  assert (Hbn : b = n) by (rewrite <- Hb; unfold canon_label, canonical; by rewrite Hi, Hn). subst n.
  rewrite (Rl b) by (by rewrite (label_name_id W2 _ _ Hn)). rewrite Hb, K, <- Hb, K. by rewrite canon_label_canon.
Qed.

(** A label that settles is resolved to what it means once the batch is applied. *)
Lemma resolve_op_label_settled pairs declared c2 c3 l : alias_pairs label_space c = Some pairs -> wf c2 -> names_kept c c2 ->
  redeclared declared c2 c3 -> alias_settles declared l -> resolve_op_label l (list_to_map pairs) declared = canon_label c3 l.
Proof using Hwf.
  intros Hp W2 HK HR (k & r & Hk & Hst & Hd & Hr). unfold resolve_op_label, MAX_HOPS. rewrite (resolve_hops_settles pairs declared r Hp Hd Hr k l _ Hk Hst).
  assert (Hall : canon_label c3 l = canon_label c3 r).
  { clear Hk. induction Hst as [|k x y z Hxy _ IH]; [done|]. rewrite <- IH by done. by eapply alias_hop_canon. }
  rewrite Hall, (rd_other _ _ _ HR) by done. destruct HK as [_ K]. by rewrite K.
Qed.

End env.

(** ** The check against the outcome *)

(** Every type is refused to the concept by the declared side. *)
Definition conflicts (types : gmap name TypeDef) (fs : list Fact) (declared : gset name) (x : name) : Prop :=
  declared <> ∅ /\ (exists t, typed fs x t) /\ forall t u, typed fs x t -> rtc (is_a types) t u -> u ∉ declared.

Lemma elem_of_expand_types schema types names u : (forall t u, u ∈ closure_of schema t <-> rtc (is_a types) t u) ->
  u ∈ expand_types schema names <-> exists t, t ∈ names /\ rtc (is_a types) t u.
Proof.
  intros Hc. unfold expand_types. rewrite elem_of_union_list. setoid_rewrite list_elem_of_fmap. split.
  - intros (X & (t & -> & Ht%elem_of_elements) & Hu). exists t. split; [done|]. by apply Hc.
  - intros (t & Ht & Hu). exists (closure_of schema t). split; [exists t; split; [done | by apply elem_of_elements] | by apply Hc].
Qed.

Lemma side_violates_spec (schema : InstalledSchema) (types : gmap name TypeDef) (fs : list Fact) (declared : gset name) (x : name) (asserted : gset name) (ta : option TypeAssertions) :
  (forall t u, u ∈ closure_of schema t <-> rtc (is_a types) t u) -> (forall t, t ∈ asserted <-> typed fs x t) ->
  match ta with Some ta => ta_asserted ta = asserted /\ ta_expanded ta = expand_types schema asserted | None => asserted = ∅ end ->
  side_violates declared ta = true <-> conflicts types fs declared x.
Proof.
  intros Hc Ha Hta. unfold side_violates, conflicts. case_bool_decide as Hd; [naive_solver|]. destruct ta as [ta|].
  - destruct Hta as [_ ->]. setoid_rewrite <- Ha. case_bool_decide as He.
    + split; [done|]. intros (_ & (t & Ht) & _). exfalso. apply (not_elem_of_empty (C := gset name) t). rewrite <- He.
      apply (elem_of_expand_types schema types asserted t Hc). by exists t.
    + rewrite bool_decide_eq_true. split.
      * intros Hdis. split; [done|]. split.
        -- destruct (set_choose_L _ He) as [u Hu]. apply (elem_of_expand_types schema types asserted u Hc) in Hu as (t & Ht & _). by exists t.
        -- intros t u Ht Htu Hu. apply (Hdis u Hu). apply (elem_of_expand_types schema types asserted u Hc). by exists t.
      * intros (_ & _ & Hno) u Hu Hexp. apply (elem_of_expand_types schema types asserted u Hc) in Hexp as (t & Ht & Htu). by apply (Hno t u).
  - subst asserted. split; [done|]. intros (_ & (t & Ht) & _). apply Ha in Ht. by apply not_elem_of_empty in Ht.
Qed.

Section outcome.
Context `{UnicodeTables} (c : Context) (Hwf : wf c) (fs : list Fact) (Hfs : facts c = Some fs).
Context (Hlabel : canon_label c SCHEMA_TYPE_LABEL = SCHEMA_TYPE_LABEL).

Lemma live_types_spec retracted concepts : (forall s, s ∈ concepts -> canon_concept c s = s) ->
  exists m, live_type_assertions c concepts retracted = Some m /\ forall x t, t ∈ default ∅ (m !! x) <->
    x ∈ concepts /\ exists f, f ∈ fs /\ survives_retraction (fact_association f) retracted = true /\ f_key f = (x, SCHEMA_TYPE_LABEL, t).
Proof using Hwf Hfs Hlabel.
  intros Hcan. unfold live_type_assertions. destruct concepts as [|s0 concepts].
  { exists ∅. split; [done|]. intros x t. rewrite lookup_empty. split; [by intros ?%not_elem_of_empty | by intros [?%not_elem_of_nil _]]. }
  assert (Hq : query_any (s0 :: concepts) [SCHEMA_TYPE_LABEL] [] c =
    Some (fact_association <$> filter (fact_matches c (s0 :: concepts) [SCHEMA_TYPE_LABEL] []) fs)).
  { unfold query_any. rewrite (query_any_impl_facts Hwf _ _ _ _ _ fs Hfs). done. }
  set (names := s0 :: concepts) in *. rewrite Hq. cbn [mbind option_bind]. eexists. split; [reflexivity|]. intros x t.
  rewrite (assert_fold (fun a => survives_retraction a retracted) as_subject as_object), lookup_empty. cbn [default from_option id].
  assert (Hpin : forall f, fact_matches c names [SCHEMA_TYPE_LABEL] [] f <-> f_subject f ∈ names /\ f_label f = SCHEMA_TYPE_LABEL).
  { intros f. unfold fact_matches, pin. cbn [fmap list_fmap]. rewrite Hlabel. split.
    - intros ([?|Hs] & [?|Hl%list_elem_of_singleton] & _); try done. split; [|done].
      apply list_elem_of_fmap in Hs as (s & -> & Hs). by rewrite (Hcan s Hs).
    - intros [Hs Hl]. split; [right; apply list_elem_of_fmap; exists (f_subject f); split; [by rewrite Hcan | done]|].
      split; [right; by apply list_elem_of_singleton | by left]. }
  split.
  - intros [Hx|(a & Ha & Hsv & <- & <-)]; [by apply not_elem_of_empty in Hx|]. apply list_elem_of_fmap in Ha as (f & -> & Hf).
    apply list_elem_of_filter in Hf as [[Hs Hl]%Hpin Hf]. split; [done|]. exists f. split; [done|]. split; [done|]. unfold f_key. by rewrite Hl.
  - intros (Hx & f & Hf & Hsv & [= Hs Hl Ho]). right. exists (fact_association f). split; [|done].
    apply list_elem_of_fmap. exists f. split; [done|]. apply list_elem_of_filter. split; [|done]. apply Hpin. by rewrite Hs.
Qed.

(** The environment holds the types of the outcome, for the concepts it is asked about. *)
Lemma build_spec schema ops declared retracted : sd_mode (is_document schema) <> Off ->
  (forall op pairs, op ∈ ops -> alias_pairs label_space c = Some pairs ->
    resolve_op_label (ao_label op) (list_to_map pairs) declared = canon_label c (ao_label op)) ->
  exists env, SchemaEnv_build c (Build_SchemaCheckInput schema ops declared retracted) = Some env /\ se_schema env = schema /\ se_declared_labels env = declared /\
    (forall op, op ∈ ops -> se_resolved_labels env !! ao_label op = Some (canon_label c (ao_label op))) /\
    forall op s, op ∈ ops -> canon_label c (ao_label op) <> SCHEMA_TYPE_LABEL -> s = ao_subject op \/ s = ao_object op ->
      exists asserted : gset name,
        (forall t, t ∈ asserted <->
          (exists f, f ∈ fs /\ survives_retraction (fact_association f) retracted = true /\ f_key f = (canon_concept c s, SCHEMA_TYPE_LABEL, t)) \/
          exists op, op ∈ ops /\ (canon_concept c (ao_subject op), canon_label c (ao_label op), canon_concept c (ao_object op)) =
            (canon_concept c s, SCHEMA_TYPE_LABEL, t)) /\
        match types_for env s with
        | Some ta => ta_asserted ta = asserted /\ ta_expanded ta = expand_types schema asserted
        | None => asserted = ∅
        end.
Proof using Hwf Hfs Hlabel.
  intros Hmode Hlabels. unfold SchemaEnv_build. cbn [ci_schema ci_ops ci_declared_labels ci_retracted_source].
  destruct (alias_pairs_total label_space c Hwf) as (pairs & Hp & _). destruct (canon_concepts_spec c Hwf ops) as (canon & Hcanon & Hin).
  set (resolved := resolve_labels (list_to_map pairs) declared ops).
  assert (Hres : forall op, op ∈ ops -> resolved !! ao_label op = Some (canon_label c (ao_label op))).
  { intros op Hop. destruct (or_insert_fold ao_label (fun l => resolve_op_label l (list_to_map pairs) declared) ops ∅) as (_ & _ & Hall).
    { by intros l v ?%lookup_empty_Some. }
    rewrite <- (Hlabels op pairs Hop Hp). by apply Hall. }
  assert (Htype : forall op, op ∈ ops -> is_type_op resolved op = true <-> canon_label c (ao_label op) = SCHEMA_TYPE_LABEL).
  { intros op Hop. unfold is_type_op. rewrite (Hres op Hop), bool_decide_eq_true. split; [by intros [= ?] | by intros ->]. }
  set (concepts := names_in_order (fact_concepts resolved canon ops)).
  assert (Hmem : forall op s, op ∈ ops -> canon_label c (ao_label op) <> SCHEMA_TYPE_LABEL -> s = ao_subject op \/ s = ao_object op ->
    canon_in canon s = canon_concept c s /\ canon_concept c s ∈ concepts).
  { intros op s Hop Hl Hs. destruct (Hin op Hop) as [H1 H2]. assert (Hc : canon_in canon s = canon_concept c s) by (by destruct Hs as [->| ->]).
    split; [done|]. unfold concepts. apply elem_of_names_in_order. unfold fact_concepts. rewrite elem_of_list_to_set, <- Hc.
    apply list_elem_of_fmap. exists s. split; [done|]. apply elem_of_flat_map. exists op. split.
    - apply list_elem_of_filter. split; [|done]. apply not_true_iff_false. by rewrite Htype.
    - destruct Hs as [->| ->]; [by left | by right; left]. }
  destruct (live_types_spec retracted concepts) as (live & Hlive & Hlt).
  { intros s Hs. unfold concepts in Hs. apply elem_of_names_in_order in Hs. unfold fact_concepts in Hs. rewrite elem_of_list_to_set in Hs.
    apply list_elem_of_fmap in Hs as (s' & -> & Hs). apply elem_of_flat_map in Hs as (op & Hop & Hs).
    apply list_elem_of_filter in Hop as [_ Hop]. destruct (Hin op Hop) as [H1 H2].
    apply elem_of_cons in Hs as [->|Hs%list_elem_of_singleton]; [|subst s']; [rewrite H1 | rewrite H2]; by apply canon_concept_canon. }
  set (batch := batch_assertions resolved canon ops).
  set (asserted := union_with (fun batch live => Some (batch ∪ live)) batch live).
  set (env := {| se_schema := schema; se_resolved_labels := resolved; se_concept_canon := canon;
    se_types := (fun names => {| ta_asserted := names; ta_expanded := expand_types schema names |}) <$> asserted; se_declared_labels := declared |}).
  exists env. split; [|split; [done|]; split; [done|]; split; [exact Hres|]].
  { destruct (sd_mode (is_document schema)); [done| |]; rewrite Hp; cbn [mbind option_bind]; rewrite Hcanon; cbn [mbind option_bind];
      change (live_type_assertions c _ retracted) with (live_type_assertions c concepts retracted); rewrite Hlive; done. }
  intros op s Hop Hl Hs. destruct (Hmem op s Hop Hl Hs) as [Hcs Hcon]. exists (default ∅ (asserted !! canon_concept c s)). split.
  - intros t. assert (Hu : t ∈ default ∅ (asserted !! canon_concept c s) <->
      t ∈ default ∅ (batch !! canon_concept c s) \/ t ∈ default ∅ (live !! canon_concept c s)).
    { unfold asserted. rewrite lookup_union_with. destruct (batch !! _), (live !! _); cbn; rewrite ?elem_of_union; set_solver. }
    rewrite Hu, Hlt. unfold batch, batch_assertions.
    rewrite (assert_fold (is_type_op resolved) (fun op => canon_in canon (ao_subject op)) (fun op => canon_in canon (ao_object op))), lookup_empty.
    cbn [default from_option id]. split.
    + intros [[Hx|(op' & Hop' & Hty & Hx & Ht)]|[_ Hf]]; [by apply not_elem_of_empty in Hx | right | by left].
      exists op'. split; [done|]. destruct (Hin op' Hop') as [<- <-]. rewrite Hx, Ht. f_equal. f_equal. by apply Htype.
    + intros [Hf|(op' & Hop' & [= Hx Hty Ht])]; [by right|]. left. right. exists op'. split; [done|]. split; [by apply Htype|].
      destruct (Hin op' Hop') as [-> ->]. done.
  - unfold types_for. cbn [se_concept_canon se_types env]. rewrite Hcs, lookup_fmap. by destruct (asserted !! canon_concept c s).
Qed.
End outcome.

(** What an issue says of the operation in a context that holds its facts. *)
Definition judged (d : SchemaDocument) (c : Context) (fs : list Fact) (index : N) (op : AssocOp) (i : Issue) : Prop :=
  let label := canon_label c (ao_label op) in
  let side (s relation : name) (expected actual : gset name) (named : RelationDef -> gset name) : Prop :=
    relation = label /\ (exists def, sd_relations d !! label = Some def /\ expected = named def) /\
    (forall t, t ∈ actual <-> typed fs (canon_concept c s) t) /\ conflicts (sd_types d) fs expected (canon_concept c s) in
  label <> SCHEMA_TYPE_LABEL /\
  match i with
  | Issue_domain k s relation expected actual => k = index /\ s = ao_subject op /\ side s relation expected actual rd_domain
  | Issue_range_type k s relation expected actual => k = index /\ s = ao_object op /\ side s relation expected actual rd_range
  | Issue_undeclared_label k => k = index /\ sd_relations d !! label = None /\ sd_closed_labels d = true
  | Issue_conflict _ => False
  end.

(** The concept's population, by name, is what the environment holds. *)
Definition population (env : SchemaEnv) (fs : list Fact) (x s : name) : Prop :=
  (forall t, t ∈ actual_types (types_for env s) <-> typed fs x t) /\
  match types_for env s with
  | Some ta => ta_expanded ta = expand_types (se_schema env) (ta_asserted ta)
  | None => True
  end.

Lemma population_violates env types fs declared x s : (forall t u, u ∈ closure_of (se_schema env) t <-> rtc (is_a types) t u) ->
  population env fs x s -> side_violates declared (types_for env s) = true <-> conflicts types fs declared x.
Proof.
  intros Hc [Ha He]. apply (side_violates_spec (se_schema env) types fs declared x (actual_types (types_for env s))); [done|done|].
  by destruct (types_for env s).
Qed.

Lemma judge_op_spec d c fs env index op i : is_document (se_schema env) = set_version (Some FORMAT_VERSION) d ->
  (forall t u, u ∈ closure_of (se_schema env) t <-> rtc (is_a (sd_types d)) t u) ->
  se_resolved_labels env !! ao_label op = Some (canon_label c (ao_label op)) ->
  (canon_label c (ao_label op) <> SCHEMA_TYPE_LABEL -> forall s, s = ao_subject op \/ s = ao_object op -> population env fs (canon_concept c s) s) ->
  i ∈ judge_op env index op <-> judged d c fs index op i.
Proof.
  intros Hd Hc Hl Hp. unfold judge_op, judged. cbv zeta. rewrite Hl, Hd. cbn [default from_option id sd_relations sd_closed_labels set_version].
  case_bool_decide as Hty; [split; [by intros ?%not_elem_of_nil | by intros [? _]]|]. specialize (Hp Hty).
  destruct (sd_relations d !! canon_label c (ao_label op)) as [def|] eqn:Hdef.
  - pose proof (Hp _ (or_introl eq_refl)) as Hs. pose proof (Hp _ (or_intror eq_refl)) as Ho.
    pose proof (population_violates env _ fs (rd_domain def) _ _ Hc Hs) as Vs. pose proof (population_violates env _ fs (rd_range def) _ _ Hc Ho) as Vo.
    rewrite elem_of_app. split.
    + intros [Hi|Hi].
      * destruct (side_violates (rd_domain def) _); [|by apply not_elem_of_nil in Hi]. apply list_elem_of_singleton in Hi as ->.
        split; [done|]. split; [done|]. split; [done|]. split; [done|]. split; [by exists def|]. split; [apply Hs | by apply Vs].
      * destruct (side_violates (rd_range def) _); [|by apply not_elem_of_nil in Hi]. apply list_elem_of_singleton in Hi as ->.
        split; [done|]. split; [done|]. split; [done|]. split; [done|]. split; [by exists def|]. split; [apply Ho | by apply Vo].
    + intros [_ Hi]. destruct i as [alias|k s relation expected actual|k s relation expected actual|k]; [done| | |by destruct Hi as (_ & ? & _)].
      * destruct Hi as (-> & -> & -> & (def' & [= <-] & ->) & Ha & Hx). left. rewrite (proj2 Vs Hx). apply list_elem_of_singleton.
        f_equal. apply set_eq. intros t. rewrite Ha. symmetry. apply Hs.
      * destruct Hi as (-> & -> & -> & (def' & [= <-] & ->) & Ha & Hx). right. rewrite (proj2 Vo Hx). apply list_elem_of_singleton.
        f_equal. apply set_eq. intros t. rewrite Ha. symmetry. apply Ho.
  - destruct (sd_closed_labels d).
    + rewrite list_elem_of_singleton. split; [by intros ->|]. intros [_ Hi].
      destruct i as [alias|k s relation expected actual|k s relation expected actual|k]; [done|by destruct Hi as (_ & _ & _ & (? & ? & _) & _)|by destruct Hi as (_ & _ & _ & (? & ? & _) & _)|].
      by destruct Hi as (-> & _).
    + split; [by intros ?%not_elem_of_nil|]. intros [_ Hi].
      by destruct i as [alias|k s relation expected actual|k s relation expected actual|k];
        [|destruct Hi as (_ & _ & _ & (? & ? & _) & _)|destruct Hi as (_ & _ & _ & (? & ? & _) & _)|destruct Hi as (_ & _ & ?)].
Qed.

(** ** Claims *)

(** C37. Installing a schema always answers.  It refuses a document for what it
    says: an unread version, too many types or relations, the reserved relation,
    an overlong name, an overlong side, a type above itself, or a chain of declared
    types past [MAX_TYPE_DEPTH].  Otherwise none of these holds, the document is
    kept with its version stated, and a type's closure is what [is_a] reaches from
    it, declared or not. *)
Theorem schema_install_exact d : exists r, install d = Some r /\
  match r with
  | Ok s => is_document s = set_version (Some FORMAT_VERSION) d /\ (forall v, ~ refused_for d v) /\
      forall t u, u ∈ closure_of s t <-> rtc (is_a (sd_types d)) t u
  | Err v => refused_for d v
  end.
Proof. apply install_spec. Qed.

(** C38. The check foresees the write.  Under an enforced schema, for operations
    that apply after the retraction of the batch's source, and the batch's own
    concept and label aliases after them, it reports against an operation exactly
    what holds in the graph the whole write leaves: a label outside a closed schema,
    or a subject or object some live fact types, none of whose types, nor anything
    above one, is among those the relation declares; with the types the graph then
    gives it.  A declared alias of the reserved label is reported as well.  It needs
    that the reserved label is not a live alias of another, and that the operations'
    labels settle: followed through the batch's aliases, then the live ones, each
    comes within four hops to a name the batch does not redirect and the graph holds
    for its own.  Every label settles when the batch declares no label alias
    ([undeclared_settles]); one whose live alias the batch redeclares as itself does
    not ([redeclared_alias_hides_a_violation]). *)
Theorem schema_check_foresees `{UnicodeTables} d schema ops concepts declared retracted n m c c1 c2 c3 fs
    (Hwf : wf c) (Hinst : install d = Some (Ok schema)) (Hmode : sd_mode d <> Off)
    (Hlabel : canon_label c SCHEMA_TYPE_LABEL = SCHEMA_TYPE_LABEL)
    (Hsettle : forall op, op ∈ ops -> alias_settles c declared (ao_label op))
    (Hret : retraction retracted c = Some c1) (Hok : ops_ok (Associate <$> ops) c1)
    (Hrun : apply_in_order (Associate <$> ops) c1 = Some (Ok n, c2))
    (Halias : apply_in_order (alias_ops concepts declared) c2 = Some (Ok m, c3)) (Hfs : facts c3 = Some fs) :
  exists env, SchemaEnv_build c (Build_SchemaCheckInput schema ops declared retracted) = Some env /\
    sc_reserved (schema_issues env ops) = Issue_conflict <$> reserved_aliases (btree_iter declared) /\
    forall i, i ∈ sc_violations (schema_issues env ops) <-> exists k op, tget ops k = Some op /\ judged d c3 fs k op i.
Proof.
  destruct (install_spec d) as (r & Hr & Hspec). rewrite Hinst in Hr. injection Hr as <-. destruct Hspec as (Hdoc & _ & Hcl).
  destruct (facts_total c Hwf) as [fs0 Hfs0]. destruct (retraction_types retracted c c1 fs0 Hwf Hfs0 Hret) as (W1 & HK1 & fs1 & Hfs1 & Ht1).
  destruct (apply_types ops 0 c1 fs1 n c2 W1 Hfs1 Hok Hrun) as (W2 & HK2 & fs2 & Hfs2 & Ht2 & _).
  pose proof (alias_ops_redeclared concepts declared c2 m c3 W2 Halias) as HR. rewrite (rd_facts _ _ _ HR _ Hfs2) in Hfs. injection Hfs as <-.
  assert (Hknown : forall op, op ∈ ops -> canon_label c3 (ao_label op) = canon_label c (ao_label op) /\
    forall s, s = ao_subject op \/ s = ao_object op -> canon_concept c3 s = canon_concept c s).
  { intros op Hop. destruct (applied_known ops 0 c1 fs1 n c2 op W1 Hfs1 Hok Hrun Hop) as (Ks & Kl & Ko). destruct HR as [Rc Rl _ _ _].
    destruct HK1 as [K1 K2]. destruct HK2 as [K3 K4]. split; [by rewrite Rl, K4, K2 | by intros s [->| ->]; rewrite Rc, K3, K1]. }
  assert (Hm : sd_mode (is_document schema) <> Off) by (by rewrite Hdoc).
  destruct (build_spec c Hwf fs0 Hfs0 Hlabel schema ops declared retracted Hm) as (env & Hb & Hs & Hdl & Hres & Htypes).
  { intros op pairs Hop Hp. rewrite <- (proj1 (Hknown op Hop)). apply (resolve_op_label_settled c Hwf pairs declared c2 c3); [done|done| |done|by apply Hsettle].
    by transitivity c1. }
  exists env. split; [done|]. unfold schema_issues. rewrite Hs, Hdl. split; [done|]. cbn [sc_violations].
  destruct HK1 as [K1 K2].
  assert (Hjudge : forall k op i, tget ops k = Some op -> i ∈ judge_op env k op <-> judged d c3 fs2 k op i).
  { intros k op i Hop. assert (Hin : op ∈ ops) by (rewrite tget_lookup in Hop; by eapply list_elem_of_lookup_2).
    destruct (Hknown op Hin) as [El Ec]. apply judge_op_spec; [by rewrite Hs | by rewrite Hs | rewrite El; by apply Hres|].
    intros Hl s Hside. rewrite El in Hl. destruct (Htypes op s Hin Hl Hside) as (asserted & Ha & Hta).
    assert (Hact : actual_types (types_for env s) = asserted) by (unfold actual_types; destruct (types_for env s); by destruct Hta).
    split.
    - intros t. rewrite Hact, Ha, Ht2, Ht1, (Ec s Hside). unfold op_key. setoid_rewrite K1. setoid_rewrite K2. done.
    - rewrite Hs. destruct (types_for env s); [|done]. by destruct Hta as [-> ->]. }
  assert (Hall : forall i, i ∈ flat_map (fun p => judge_op env p.1 p.2) (zip (indices ops) ops) <-> exists k op, tget ops k = Some op /\ judged d c3 fs2 k op i).
  { intros i. rewrite elem_of_flat_map. split.
    - intros ([k op] & Hp & Hi). apply elem_of_indexed in Hp. exists k, op. split; [done|]. by apply Hjudge.
    - intros (k & op & Hop & Hi). exists (k, op). split; [by apply elem_of_indexed | by apply Hjudge]. }
  by destruct (sd_mode (is_document schema)).
Qed.

(** ** Concrete runs *)

Fixpoint associations_okb `{UnicodeTables} (ops : list AssocOp) (c : Context) : bool :=
  match ops with
  | [] => true
  | op :: ops =>
    valid_writeb {| w_subject := ao_subject op; w_label := ao_label op; w_object := ao_object op; w_weight := ao_weight op;
      w_source := ao_source op; w_paragraph := match ao_source op with Some _ => ao_paragraph op | None => None end |} &&
    spelling_roomb c && count_roomb (ao_subject op) (ao_label op) (ao_object op) c &&
    match apply_op (Associate op) c with Some (Ok _, c) => associations_okb ops c | _ => true end
  end.

Lemma associations_okb_spec `{UnicodeTables} ops : forall c, associations_okb ops c = true -> ops_ok (Associate <$> ops) c.
Proof.
  induction ops as [|op ops IH]; intros c; [done|]. cbn [associations_okb fmap list_fmap ops_ok]. rewrite !andb_true_iff.
  intros [[[Hv Hr] Hc] Hrest]. split.
  - apply valid_write_intro in Hv. split; [exact Hv|]. apply andb_true_iff in Hr as [H1%N.leb_le H2%N.leb_le].
    split; [by split|]. by apply count_roomb_spec.
  - destruct (apply_op (Associate op) c) as [[[u|e] c']|]; [by apply IH | done | done].
Qed.

Definition assertion (s l o : string) (source : option string) : AssocOp :=
  {| ao_subject := str s; ao_label := str l; ao_object := str o; ao_weight := 1%float; ao_source := str <$> source; ao_paragraph := None |}.

(** What is made by someone is made by an organization. *)
Definition brewing : SchemaDocument := {|
  sd_version := None; sd_mode := Strict; sd_closed_labels := false;
  sd_types := list_to_map [(str "Brewery", {| td_is_a := {[str "Organization"]} |}); (str "Person", {| td_is_a := ∅ |})];
  sd_relations := list_to_map [(str "made by", {| rd_domain := ∅; rd_range := {[str "Organization"]} |})] |}.

Definition installed (d : SchemaDocument) : InstalledSchema :=
  match install d with Some (Ok s) => s | _ => {| is_document := d; is_ancestors := ∅ |} end.

Lemma brewing_installs : install brewing = Some (Ok (installed brewing)).
Proof. vm_compute. reflexivity. Qed.

(** Two sources disagree on what akari is, and ["by"] is another word for ["made by"]. *)
Definition cellar_writes : list Triple := [
  {| w_subject := str "akari"; w_label := SCHEMA_TYPE_LABEL; w_object := str "Brewery"; w_weight := 1%float;
     w_source := Some (str "doc1"); w_paragraph := None |};
  {| w_subject := str "akari"; w_label := SCHEMA_TYPE_LABEL; w_object := str "Person"; w_weight := 1%float;
     w_source := Some (str "doc2"); w_paragraph := None |};
  {| w_subject := str "nama"; w_label := str "made by"; w_object := str "akari"; w_weight := 1%float;
     w_source := Some (str "doc2"); w_paragraph := None |} ].

Definition stocked : Context := default Context_default (@run_writes ascii_tables cellar_writes Context_default).
Definition cellar : Context := default stocked (@run_aliases ascii_tables [(true, str "by", str "made by")] stocked).

Lemma cellar_wf : @wf ascii_tables cellar.
Proof.
  apply (@run_aliases_wf ascii_tables [(true, str "by", str "made by")] stocked); [|apply succeeds_default; vm_compute; reflexivity].
  apply (@run_writes_wf ascii_tables cellar_writes Context_default); [apply wf_default | apply succeeds_default; vm_compute; reflexivity].
Qed.

(** A new version of the first document: it no longer types akari.  It brings
    aliases of its own, one of which the graph already has. *)
Definition revision : list AssocOp := [
  assertion "junmai" "by" "akari" (Some "doc1"); assertion "ginjo" "made by" "tanaka" (Some "doc1");
  assertion "tanaka" "schema:type" "Brewery" (Some "doc1")]%string.
Definition revised_concepts : gmap name name := list_to_map [(str "akari brewery", str "akari")].
Definition revised_labels : gmap name name := list_to_map [(str "by", str "made by"); (str "crafted by", str "by")].
Definition revision_input : SchemaCheckInput := Build_SchemaCheckInput (installed brewing) revision revised_labels (Some (str "doc1")).

(** The context after operations that apply. *)
Definition after (ops : list WalOp) (c : Context) : Context :=
  match @apply_in_order ascii_tables ops c with Some (Ok _, c) => c | _ => c end.

Lemma after_applied n ops c : (match @apply_in_order ascii_tables ops c with Some (Ok k, _) => k =? n | _ => false end) = true ->
  @apply_in_order ascii_tables ops c = Some (Ok n, after ops c).
Proof. unfold after. destruct (apply_in_order ops c) as [[[k|e] c']|]; [by intros ->%N.eqb_eq | done..]. Qed.

Definition cellar_retracted : Context := default cellar (@retraction (Some (str "doc1")) cellar).
Definition cellar_applied : Context := after (Associate <$> revision) cellar_retracted.
Definition cellar_revised : Context := after (alias_ops revised_concepts revised_labels) cellar_applied.
Definition cellar_facts : list Fact := default [] (facts cellar_revised).

Lemma revision_settles op : op ∈ revision -> alias_settles cellar revised_labels (ao_label op).
Proof.
  intros [->|[->|[->|?%not_elem_of_nil]%elem_of_cons]%elem_of_cons]%elem_of_cons; [| | |done].
  - exists 1%nat, (str "made by"). split; [lia|]. split; [|split; [intros n; vm_compute; discriminate | vm_compute; reflexivity]].
    apply nsteps_once. split; [vm_compute; discriminate|]. left. vm_compute. reflexivity.
  - exists 0%nat, (str "made by"). split; [lia|]. split; [constructor|]. split; [intros n; vm_compute; discriminate | vm_compute; reflexivity].
  - exists 0%nat, SCHEMA_TYPE_LABEL. split; [lia|]. split; [constructor|]. split; [intros n; vm_compute; discriminate | vm_compute; reflexivity].
Qed.

(** Retracting the document leaves akari a person: the first operation is refused,
    under the label its own means, and the second is not, though its type comes
    after it. *)
Lemma schema_check_foresees_witness : exists env,
  @SchemaEnv_build ascii_tables cellar revision_input = Some env /\
  sc_violations (schema_issues env revision) =
    [Issue_range_type 0 (str "akari") (str "made by") {[str "Organization"]} {[str "Person"]}] /\
  exists k op, tget revision k = Some op /\
    judged brewing cellar_revised cellar_facts k op
      (Issue_range_type 0 (str "akari") (str "made by") {[str "Organization"]} {[str "Person"]}).
Proof.
  destruct (@schema_check_foresees ascii_tables brewing (installed brewing) revision revised_concepts revised_labels (Some (str "doc1")) 3 3
    cellar cellar_retracted cellar_applied cellar_revised cellar_facts cellar_wf brewing_installs) as (env & Hb & _ & Hv).
  - discriminate.
  - vm_compute. reflexivity.
  - exact revision_settles.
  - apply succeeds_default. vm_compute. reflexivity.
  - apply associations_okb_spec. vm_compute. reflexivity.
  - apply after_applied. vm_compute. reflexivity.
  - apply after_applied. vm_compute. reflexivity.
  - apply succeeds_default. vm_compute. reflexivity.
  - assert (Hi : sc_violations (schema_issues env revision) =
      [Issue_range_type 0 (str "akari") (str "made by") {[str "Organization"]} {[str "Person"]}]).
    { assert (Hc : (env ← @SchemaEnv_build ascii_tables cellar revision_input; Some (sc_violations (schema_issues env revision))) =
        Some [Issue_range_type 0 (str "akari") (str "made by") {[str "Organization"]} {[str "Person"]}]) by (vm_compute; reflexivity).
      unfold revision_input in Hc. rewrite Hb in Hc. cbn [mbind option_bind] in Hc. injection Hc as Hc. exact Hc. }
    exists env. split; [exact Hb|]. split; [exact Hi|]. apply Hv. rewrite Hi. left.
Defined.

(** With the reserved label registered as an alias of another, which no guard
    refuses, the two halves of the check part: the graph's facts of the other label
    count as types, the batch's own type assertions are judged as facts. *)
Definition kind_writes : list Triple := [
  {| w_subject := str "akari"; w_label := str "kind"; w_object := str "Person"; w_weight := 1%float; w_source := None; w_paragraph := None |} ].

Definition kinds : Context :=
  match @run_writes ascii_tables kind_writes Context_default with
  | Some c => match @add_label_alias ascii_tables SCHEMA_TYPE_LABEL (str "kind") c with Some (Ok _, c) => c | _ => Context_default end
  | None => Context_default
  end.

Definition violations_declaring (declared : gmap name name) (c : Context) (ops : list AssocOp) : option (list Issue) :=
  env ← @SchemaEnv_build ascii_tables c (Build_SchemaCheckInput (installed brewing) ops declared None);
  Some (sc_violations (schema_issues env ops)).
Definition violations_in : Context -> list AssocOp -> option (list Issue) := violations_declaring ∅.

Example aliased_type_label_splits_the_check :
  violations_in kinds [assertion "junmai" "made by" "akari" None] =
    Some [Issue_range_type 0 (str "akari") (str "made by") {[str "Organization"]} {[str "Person"]}] /\
  violations_in kinds [assertion "junmai" "made by" "tanaka" None; assertion "tanaka" "schema:type" "Person" None] = Some [] /\
  violations_in Context_default [assertion "junmai" "made by" "tanaka" None; assertion "tanaka" "schema:type" "Person" None] =
    Some [Issue_range_type 0 (str "tanaka") (str "made by") {[str "Organization"]} {[str "Person"]}].
Proof. vm_compute. auto. Qed.

(** The batch redeclares a live alias as itself.  The registration is accepted and
    changes nothing, but the check stops at the declared spelling: it finds no
    relation of that name and reports nothing, where the graph the write leaves holds
    a violation. *)
Definition tanaka : Context := after (Associate <$> [assertion "tanaka" "schema:type" "Person" None]) cellar.
Definition brewed_by_tanaka : list AssocOp := [assertion "ginjo" "by" "tanaka" None].
Definition brewed : Context := after (Associate <$> brewed_by_tanaka) tanaka.
Definition by_itself : gmap name name := list_to_map [(str "by", str "by")].

Example redeclared_alias_hides_a_violation :
  violations_declaring by_itself tanaka brewed_by_tanaka = Some [] /\
  violations_in tanaka brewed_by_tanaka =
    Some [Issue_range_type 0 (str "tanaka") (str "made by") {[str "Organization"]} {[str "Person"]}] /\
  @apply_in_order ascii_tables (alias_ops ∅ by_itself) brewed = Some (Ok 1, after (alias_ops ∅ by_itself) brewed) /\
  facts (after (alias_ops ∅ by_itself) brewed) = facts brewed /\
  bool_decide ((str "ginjo", str "made by", str "tanaka") ∈ f_key <$> default [] (facts brewed)) = true.
Proof.
  split; [vm_compute; reflexivity|]. split; [vm_compute; reflexivity|]. split; [apply after_applied; vm_compute; reflexivity|].
  split; vm_compute; reflexivity.
Qed.
